(* ===== verification/_CoqProject ===== *)
-Q . S2P
Prelude.v
RangePool.v
RangePoolSpec.v
VaManager.v
VaManagerSpec.v
MemSlice.v
SmemTypes.v
ConnSegment.v
ConnSegmentSpec.v
Fabric.v
HybmTask.v
HostDataOp.v
HostDataOpSpec.v
SdmaDataOp.v
SdmaDataOpSpec.v
HybmStream.v
HybmStreamSpec.v
CopyKernel.v
CopyKernelSpec.v
DeviceDataOp.v
DeviceDataOpSpec.v
DeviceBatchSpec.v
StrUtil.v
HcomHelper.v
TagInfo.v
HcomTransport.v
HcomTransportSpec.v
ComposeTransport.v
ComposeTransportSpec.v
ComposeDataOp.v
ComposeDataOpSpec.v
Entity.v
EntityApi.v
EntitySpec.v
EntityImportSpec.v
EntityApiSpec.v
MessagePacker.v
StoreBackend.v
StoreServer.v
StoreServerSpec.v
StoreClient.v
StoreClientSpec.v
GroupEngine.v
GroupBarrierSpec.v
GroupEngineSpec.v
SmemBm.v
SmemBmSpec.v
AccQueue.v
AccQueueSpec.v
AccLink.v
AccLinkSpec.v
TransFault.v
TransHelper.v
TransEntry.v
TransHelperSpec.v
TransEntrySpec.v
TransServerSpec.v
TransRegistrySpec.v
TransSystemSpec.v
