(* ===== verification/Prelude.v ===== *)
(** * MemFabric Hybrid: verification development

    MemFabric Hybrid pools the memory of hosts and devices of a cluster behind
    one global address space (hybm), and coordinates the ranks that share it
    through a small key-value store and collectives built on it (smem).  This
    development models the parts that carry that logic and proves them correct.

    ** The program and where it is modelled

    - hybm memory, src/src/hybm/csrc/common and mm.  [RangePool]: the allocator
      of a memory range, hybm_rbtree_range_pool and the interface in
      hybm_space_allocator.h; the size-ordered and the address-ordered tree are
      a set and a map.  [VaManager]: hybm_va_manager, the registry of global and
      local segments, its queries, and the reservation of global addresses.
      [MemSlice]: slice handles and the exchange descriptors.  [ConnSegment]:
      hybm_conn_based_segment, the host memory of all ranks in one range.
    - hybm data path, src/src/hybm/csrc/data_operation, transport, entity.
      [Fabric]: the memory of the ranks and the copies in flight, against which
      the programs below are proved.  [HostDataOp], [DeviceDataOp], [SdmaDataOp]:
      hybm_data_op_host_rdma, hybm_data_op_device_rdma and hybm_data_op_sdma, single
      and batched copies through a staging buffer, through memory of the device or
      as tasks of a stream; [HostDataOp.Call] lists what the three call.
      [ComposeDataOp]: hybm_compose_data_op, the three tried in turn.  [HcomHelper],
      [HcomTransport]: host_hcom_helper and host_hcom_transport_manager, one-sided
      requests over the hcom library.  [ComposeTransport]: the compose manager,
      two transports behind one interface.  [TagInfo]: hybm_entity_tag_info, the
      protocols of pairs of ranks.
    - hybm interface.  [Entity]: entity/hybm_entity_default, the object behind a
      handle, which owns segments, transport, operator and tags and orders the calls
      to them.  [EntityApi]: entity/hybm_entity_factory and the entry points of
      hybm_big_mem_entry.cpp and hybm_data_op_entry.cpp, with the memory behind the
      handles as a heap.
    - hybm on the device, src/src/hybm/csrc/ts_engine and copy_extend.  [HybmTask]:
      the entries of a submission queue.  [HybmStream]: hybm_stream and its manager,
      a ring of tasks over the queues of the driver.  [CopyKernel]: the copy kernels,
      as the pieces each block moves and the steps of blocks that interleave.
    - util, src/src/util/csrc.  [StrUtil]: number parsing and printing.
    - smem, src/src/smem/csrc/config_store.  [MessagePacker]: the wire format.
      [StoreBackend]: the interface of what the server keeps its data in, as a
      class with laws, its memory implementation and the lock guard.
      [StoreServer]: the request handlers, the parked GETs, the link handlers
      and one pass of each server thread.  [StoreClient]: the operations of the
      client, the prefix store, and the pending requests.
    - smem, src/src/smem/csrc/net.  [GroupEngine]: barrier, all-gather, exit
      broadcast, number allocation, joining, leaving and the event handling of
      a group of ranks, written over the client's operations.
    - smem, src/src/smem/csrc/smem_trans.  [TransFault]: the fault handler hung
      into the store server.  [TransHelper]: the tables of devices and slices that
      ranks publish in the store.  [TransEntry]: registration of memories, the
      watch rounds and the translation of addresses for a transfer.
    - smem, src/src/smem/csrc/smem_bm.  [SmemTypes]: the types and constants of the
      public headers.  [SmemBm]: what an application calls: entries that own an entity
      and a group, their manager, the handlers run when ranks join and leave.
    - acc_links, src/src/acc_links/csrc.  [AccQueue]: message headers and the
      linked send queue over a heap of nodes.  [AccLink]: the receive state
      machine, the send path, the blocking calls and the dispatch of one event.

    The parts call one another as the source does: the server handles packed
    messages over any backend; the client packs requests and reads the replies;
    the group engine and the trans helper are programs over the store operations,
    whose meaning [StoreClient.kv_exec] is proved to be what client, format and
    server do together; the entity is a program over the calls of its parts
    ([Entity.ECall]), the data operation one over the calls of a transport, the
    transport one over those of its library; big memory is a program over the entity
    interface, the group and the store ([SmemBm.SCall]).

    ** How code becomes definitions

    A class is a record of its members, a method a function of the record with
    the source's name; an out parameter is a result; an undefined access is
    [None], [Oob], [BadRead] or a call named [Undefined].  A method that calls
    something whose state others change meanwhile is a [program]: the tree of its
    calls, interpreted by the environment between any two of them.  Machine
    integers are [Z] with the wrap-around written out ([u64], [u32], [i64]).  A
    mutex makes its critical section one step.  What is not in the repository is
    an argument: the clock, the socket, the device runtime and the hcom library,
    the iteration order of unordered containers, callbacks.  Logging, tracing and
    sleeping are left out.

    ** What the theorems show

    - [RangePoolSpec]: allocated and free memory partition the pool in every
      client run; release undoes allocation; a drained pool is the fresh one;
      best fit.  Proved against the allocator interface's laws, which the pool
      implements.
    - [VaManagerSpec]: segments of one memory type and reservations stay disjoint and
      indexed, whatever is added; for segments that clash with no other type the three
      indexes agree and the address translations are inverse; first fit; copy
      directions.
    - [ConnSegmentSpec]: in a cluster of ranks that allocate, export, import and
      remove in any order the ranges stay disjoint and the owner computed from an
      address is the one recorded.  [MemSlice]: exchange descriptors round-trip.
    - [HostDataOpSpec]: a copy that reports success has copied exactly its bytes,
      whatever the order in which the fabric moves them; nothing else is written;
      the staging buffer is whole again.  [DeviceDataOpSpec], [DeviceBatchSpec],
      [SdmaDataOpSpec]: the same for the other operators, with the entries of a batch
      grouped by rank, joined into tasks or handed to the kernel in parts; threads
      share the slots for the kernel's parameters without a conflict.
      [ComposeDataOpSpec]: the same for the composition, whose operators are those
      programs run over the fabric: operators may refuse or fail before one succeeds;
      what a failed one leaves under way is tracked, and nothing is claimed behind it.
      [HcomTransportSpec]: the host transport
      over its library keeps the contract that proof relies on, so the two
      compose; no vector is indexed out of range while the library hands back what it
      was handed; memory keys round-trip.
      [ComposeTransportSpec]: so does the compose manager for a rank reached over
      one transport.
    - [EntitySpec]: a copy or batch asked for through the interface by addresses is
      copied between the memories of the ranks the addresses belong to, over the
      composed operator and the three behind it.  [EntityImportSpec]: what ranks export reaches the transport
      and the segment of the rank that imports it.  [EntityApiSpec]: calls of the
      interface in any order, by callers that keep to [EntityApiSpec.op_ok], use no null
      pointer and no entity that is gone.
      [SmemBmSpec]: the same one layer up, for calls of the big-memory interface and
      the handlers of the group engine, by the lemmas of the layer below; what the
      addresses of ranks mean; entries that share an entity.
    - [HybmStreamSpec]: a stream over the device's queues keeps the contract the
      SDMA operator relies on, whatever the device does between two calls.
      [CopyKernelSpec]: the kernels copy what the parameters say, sizes taken modulo
      2^32, and the mask tells the host exactly when they no longer need them.
    - [MessagePacker], [StrUtil]: round trips; only canonical encodings are
      accepted; bounds of the conversions.
    - [StoreServerSpec]: the server refines a key-value map ([kv_apply]) over any
      backend that keeps its laws; a created key wakes exactly its waiters; the
      rank search ends; the timer.
    - [StoreClientSpec]: client and server together are that map; prefix stores
      are isolated; every blocked caller is finished exactly once.
    - [GroupBarrierSpec]: the barrier as a protocol of N ranks with arbitrary
      interleaving: safe even when operations fail, and always completing when
      none does.  [GroupEngineSpec]: all-gather's result, atomic allocation of
      numbers, versions and sizes of a dynamic group.
    - [TransHelperSpec]: a search computes exactly the difference of two tables.
      [TransEntrySpec]: registration covers the pages touched; the recorded slices
      follow the published table; transfers stay inside them.
      [TransServerSpec], [TransRegistrySpec], [TransSystemSpec]: under interleaved
      calls and breaking links every record marked normal belongs to a live link.
    - [AccQueueSpec]: the linked queue is a bounded FIFO.  [AccLinkSpec]: a link
      delivers the accepted messages in order, exactly once and unchanged, while every
      write takes at least a byte.
    - Each of these files also proves where the code does not do what it means
      to (a rounding overflow, lost wake-ups, reads behind a buffer, a wait that
      follows one of two transports, and others): the theorem states the
      behaviour the code has.

    ** Bounds and fuel

    - [StrUtil.dec_digits] has fuel 20: no 64-bit number has more digits.
    - [StoreServer.find_rank] has fuel twice the world size, proved enough.
    - [StoreServer.timer_pass] runs its loop with the number of buckets.
    - [GroupEngine.alloc_loop], [release_loop] take their fuel as an argument
      (the source's loops have no bound) and answer [OutOfFuel] without it; two
      turns are proved enough for an undisturbed allocation.
    - The barrier theorems hold for any number of rounds below 2^32 - 1, where
      the round counter of the source wraps, and any number of ranks below 2^31.
    - [HostDataOp.chunk_fuel] and [HcomTransport.slice_fuel] are the number of
      pieces a length is cut into and one more; [batch_loop] and [batch_tasks]
      take the number of entries, each turn consuming one at least.  The copy
      theorems show that success copies everything, so no turn is missing.
    - [HybmStream.ReceiveCqe] and [advance_head] have the depth of the ring as fuel:
      fewer tasks are outstanding, and each turn takes one at least; without fuel
      they are a call [HDiverge], which the refinement theorem shows not to happen.
      [HybmStream.MAX_RETRY] is the code's own bound.
    - [AccLink.BlockSend] and [BlockRecv] take their fuel as an argument; each
      turn that is not interrupted moves a byte, so the length and the number of
      interruptions are enough.
    - The counter of the hcom stream is 32 bits wide: the transport theorems hold
      while fewer than [HcomTransportSpec.CAPACITY] requests are outstanding.

    The contracts of the environment ([HostDataOpSpec.fabric_step],
    [SdmaDataOpSpec.sdma_step], [HybmStreamSpec], [HcomTransportSpec.hstep],
    [EntityApiSpec.astep], [SmemBmSpec.sstep]): a request that is refused, or a synchronous transfer that
    failed, makes no further moves; a completion is called back
    once; a batched copy of the runtime is over when it returns; the device takes the
    tasks of a queue in order and reports those that fail; a channel that breaks is
    reported with what was handed over on connecting; memory the device gives
    out is apart from what the caller uses, and the memory ranges handed to the
    operation do not overlap the swap space; a segment that has made a slice gives it,
    and pads what it exports to at most 184 bytes; a group has at most the ranks it
    was made for, and gathers descriptors of the kind of the own one.  The single-copy kernel is asked only
    for lengths it copies ([CopyKernelSpec.copy_kernel_exact]; for shorter ones see
    [short_copy_overruns]).

    ** Not modelled

    Sockets, epoll, TLS and thread start-up (the Startup and Shutdown methods, the
    socket options of acc_links); the dynamic loading of device libraries
    (under_api) and the driver code below it; the device RDMA transport and its
    queue pair managers, with the notify tasks of a stream that only they use; the
    device segments, which map memory through the driver; the smem entry points for
    shared memory; the highly available store; the language bindings,
    examples and tests. *)
From Stdlib Require Import Strings.Byte Strings.String.
From stdpp Require Import base numbers list gmap strings.
Local Open Scope Z_scope.

(** ** Machine integers

    A w-bit unsigned integer is a [Z] in [0, 2^w); the source's wrap-around is
    written with [u64], [u32], [u16]; [i64] and [i32] reinterpret the low bits
    as two's complement. *)
Definition u64 (z : Z) : Z := z mod 2 ^ 64.
Definition u32 (z : Z) : Z := z mod 2 ^ 32.
Definition u16 (z : Z) : Z := z mod 2 ^ 16.

Definition to_signed (w z : Z) : Z :=
  let r := z mod 2 ^ w in if r <? 2 ^ (w - 1) then r else r - 2 ^ w.
Definition i64 (z : Z) : Z := to_signed 64 z.
Definition i32 (z : Z) : Z := to_signed 32 z.
Definition i16 (z : Z) : Z := to_signed 16 z.

Definition U32_MAX : Z := 2 ^ 32 - 1.
Definition U64_MAX : Z := 2 ^ 64 - 1.

Declare Scope mf_scope.
Delimit Scope mf_scope with mf.
Notation "x +64 y" := (u64 (x + y)) (at level 50, left associativity) : mf_scope.
Notation "x -64 y" := (u64 (x - y)) (at level 50, left associativity) : mf_scope.
Notation "x +32 y" := (u32 (x + y)) (at level 50, left associativity) : mf_scope.
Notation "x -32 y" := (u32 (x - y)) (at level 50, left associativity) : mf_scope.
Notation "x *32 y" := (u32 (x * y)) (at level 40, left associativity) : mf_scope.

(** ** Bytes, little-endian words, strings *)
Abbreviation byte := Byte.byte.
Abbreviation bytes := (list Byte.byte).

Definition byte_of_Z (z : Z) : byte :=
  match Byte.of_N (Z.to_N (z mod 256)) with Some b => b | None => Byte.x00 end.
Definition Z_of_byte (b : byte) : Z := Z.of_N (Byte.to_N b).

(** The memory image of an integer of [n] bytes (the targets are little-endian). *)
Fixpoint le_bytes (n : nat) (z : Z) : bytes :=
  match n with
  | O => []
  | S n' => byte_of_Z z :: le_bytes n' (z / 256)
  end.
Fixpoint le_val (l : bytes) : Z :=
  match l with
  | [] => 0
  | b :: l' => Z_of_byte b + 256 * le_val l'
  end.

(** [std::string(v.begin(), v.end())] and [std::vector<uint8_t>(s.begin(), s.end())]. *)
Abbreviation str_of_bytes := String.string_of_list_byte.
Abbreviation bytes_of_str := String.list_byte_of_string.

(** The length of a container as a machine word. *)
Definition len {A} (l : list A) : Z := Z.of_nat (List.length l).

#[global] Instance byte_eq_dec : EqDecision byte := Byte.byte_eq_dec.

(** ** Ordered containers

    [std::map<uint64_t, V>] is a [gmap Z V] and [std::set] a [gset]; what their
    order is used for (begin, lower_bound, upper_bound, iterator decrement) is
    the least or greatest entry of a filtered list of entries. *)
Section MinBy.
Context {A : Type} (ltb : A → A → bool).
Fixpoint min_by (l : list A) : option A :=
  match l with
  | [] => None
  | x :: l' =>
      match min_by l' with
      | None => Some x
      | Some y => if ltb y x then Some y else Some x
      end
  end.
End MinBy.

Class StrictTotal {A} (ltb : A → A → bool) : Prop := {
  st_irrefl : ∀ x, ltb x x = false;
  st_trans : ∀ x y z, ltb x y = true → ltb y z = true → ltb x z = true;
  st_total : ∀ x y, ltb x y = false → ltb y x = false → x = y;
}.

Section OrderedMap.
Context {V : Type}.
Implicit Types m : gmap Z V.

(** An iterator is the entry it points to, [None] is [end()]. *)
Definition key_ltb (e1 e2 : Z * V) : bool := e1.1 <? e2.1.
Definition entries_where (P : Z → bool) m : list (Z * V) :=
  List.filter (λ e, P e.1) (map_to_list m).
Definition first_where (P : Z → bool) m : option (Z * V) :=
  min_by key_ltb (entries_where P m).
Definition last_where (P : Z → bool) m : option (Z * V) :=
  min_by (λ e1 e2, key_ltb e2 e1) (entries_where P m).

Definition map_begin m : option (Z * V) := first_where (λ _, true) m.
Definition map_lower_bound m (k : Z) : option (Z * V) := first_where (λ j, k <=? j) m.
Definition map_upper_bound m (k : Z) : option (Z * V) := first_where (λ j, k <? j) m.
Definition map_prev m (it : option (Z * V)) : option (Z * V) :=
  match it with
  | None => last_where (λ _, true) m
  | Some (k, _) => last_where (λ j, j <? k) m
  end.
(** Iterators of one container are equal when they point to the same key. *)
Definition iter_eqb (i j : option (Z * V)) : bool :=
  match i, j with
  | None, None => true
  | Some (k, _), Some (k', _) => k =? k'
  | _, _ => false
  end.
End OrderedMap.

(** * Lemmas *)

Create HintDb mf.
Create Rewrite HintDb mf.

Lemma u64_small z : 0 ≤ z < 2 ^ 64 → u64 z = z.
Proof. apply Z.mod_small. Qed.
Lemma u32_small z : 0 ≤ z < 2 ^ 32 → u32 z = z.
Proof. apply Z.mod_small. Qed.
Lemma u16_small z : 0 ≤ z < 2 ^ 16 → u16 z = z.
Proof. apply Z.mod_small. Qed.
Lemma u64_range z : 0 ≤ u64 z < 2 ^ 64.
Proof. apply Z.mod_pos_bound. lia. Qed.
Lemma u32_range z : 0 ≤ u32 z < 2 ^ 32.
Proof. apply Z.mod_pos_bound. lia. Qed.

#[export] Hint Resolve u64_range u32_range : mf.

Lemma to_signed_small w z :
  0 < w → - 2 ^ (w - 1) ≤ z < 2 ^ (w - 1) → to_signed w z = z.
Proof.
  intros Hw Hz. unfold to_signed.
  assert (2 ^ w = 2 * 2 ^ (w - 1)) as E.
  { rewrite <- Z.pow_succ_r by lia. f_equal. lia. }
  destruct (Z_lt_le_dec z 0) as [Hneg|Hpos].
  - replace (z mod 2 ^ w) with (z + 2 ^ w).
    + rewrite (proj2 (Z.ltb_ge _ _)); lia.
    + apply (Z.mod_unique_pos _ _ (-1)); lia.
  - rewrite Z.mod_small by lia.
    rewrite (proj2 (Z.ltb_lt _ _)); lia.
Qed.
Lemma i64_small z : - 2 ^ 63 ≤ z < 2 ^ 63 → i64 z = z.
Proof. intros. apply to_signed_small; lia. Qed.
Lemma i32_small z : - 2 ^ 31 ≤ z < 2 ^ 31 → i32 z = z.
Proof. intros. apply to_signed_small; lia. Qed.

Lemma Z_of_byte_range b : 0 ≤ Z_of_byte b < 256.
Proof. unfold Z_of_byte. pose proof (Byte.to_N_bounded b). lia. Qed.

#[export] Hint Resolve Z_of_byte_range : mf.

Lemma Z_of_byte_of_Z z : Z_of_byte (byte_of_Z z) = z mod 256.
Proof.
  unfold byte_of_Z, Z_of_byte.
  assert (0 ≤ z mod 256 < 256) by (apply Z.mod_pos_bound; lia).
  destruct (Byte.of_N (Z.to_N (z mod 256))) as [b|] eqn:E.
  - apply Byte.to_of_N in E. rewrite E. lia.
  - apply Byte.of_N_None_iff in E. lia.
Qed.

Lemma byte_of_Z_of_byte b : byte_of_Z (Z_of_byte b) = b.
Proof.
  unfold byte_of_Z. rewrite Z.mod_small by apply Z_of_byte_range.
  unfold Z_of_byte. rewrite N2Z.id, Byte.of_to_N. done.
Qed.

Lemma Z_of_byte_inj a b : Z_of_byte a = Z_of_byte b → a = b.
Proof.
  intros E. rewrite <- (byte_of_Z_of_byte a), E. apply byte_of_Z_of_byte.
Qed.

Lemma length_le_bytes n z : length (le_bytes n z) = n.
Proof. revert z; induction n; simpl; auto. Qed.

Lemma le_val_le_bytes n z : le_val (le_bytes n z) = z mod 256 ^ Z.of_nat n.
Proof.
  revert z. induction n as [|n IH]; intros z; cbn [le_bytes le_val].
  - change (256 ^ Z.of_nat 0) with 1. rewrite Z.mod_1_r. done.
  - rewrite Z_of_byte_of_Z, IH.
    replace (Z.of_nat (S n)) with (Z.succ (Z.of_nat n)) by lia.
    rewrite Z.pow_succ_r by lia.
    rewrite Z.rem_mul_r by (try apply Z.pow_nonzero; lia). lia.
Qed.

Lemma le_val_range l : 0 ≤ le_val l < 256 ^ Z.of_nat (length l).
Proof.
  induction l as [|b l IH]; cbn [le_val length].
  - change (256 ^ Z.of_nat 0) with 1. lia.
  - replace (Z.of_nat (S (length l))) with (Z.succ (Z.of_nat (length l))) by lia.
    rewrite Z.pow_succ_r by lia. pose proof (Z_of_byte_range b). lia.
Qed.

Lemma le_bytes_le_val l : le_bytes (length l) (le_val l) = l.
Proof.
  induction l as [|b l IH]; cbn [le_bytes le_val length]; [done|].
  pose proof (Z_of_byte_range b) as Hb. f_equal.
  - apply Z_of_byte_inj. rewrite Z_of_byte_of_Z, Z.mul_comm, Z_mod_plus_full.
    by apply Z.mod_small.
  - etransitivity; [|exact IH]. f_equal.
    rewrite Z.mul_comm, Z.div_add, Z.div_small by lia. lia.
Qed.

#[export] Hint Rewrite length_le_bytes byte_of_Z_of_byte Z_of_byte_of_Z le_bytes_le_val : mf.

Lemma len_app {A} (l l' : list A) : len (l ++ l') = len l + len l'.
Proof. unfold len. rewrite length_app. lia. Qed.
Lemma len_cons {A} (x : A) l : len (x :: l) = len l + 1.
Proof. unfold len. cbn [List.length]. lia. Qed.
Lemma len_nonneg {A} (l : list A) : 0 ≤ len l.
Proof. unfold len. lia. Qed.
Lemma len_le_bytes n z : len (le_bytes n z) = Z.of_nat n.
Proof. unfold len. by rewrite length_le_bytes. Qed.

Lemma le_val_le_bytes_small n z :
  0 ≤ z < 256 ^ Z.of_nat n → le_val (le_bytes n z) = z.
Proof. intros. rewrite le_val_le_bytes. by apply Z.mod_small. Qed.

Lemma str_of_bytes_of_str s : str_of_bytes (bytes_of_str s) = s.
Proof. apply String.string_of_list_byte_of_string. Qed.
Lemma bytes_of_str_of_bytes l : bytes_of_str (str_of_bytes l) = l.
Proof. apply String.list_byte_of_string_of_list_byte. Qed.

(** ** Least element of a list *)
Section MinByLemmas.
Context {A : Type} (ltb : A → A → bool) `{!StrictTotal ltb}.

Lemma min_by_None l : min_by ltb l = None ↔ l = [].
Proof.
  destruct l as [|x l]; simpl; [done|].
  split; [|done]. destruct (min_by ltb l); [case_match|]; done.
Qed.

Lemma min_by_Some l x :
  min_by ltb l = Some x → x ∈ l ∧ ∀ y, y ∈ l → ltb y x = false.
Proof.
  revert x. induction l as [|a l IH]; intros x; simpl; [done|].
  destruct (min_by ltb l) as [y|] eqn:E.
  - destruct (IH y eq_refl) as [Hy Hmin]. case_match eqn:Hlt; intros [= <-].
    + split; [by right|]. intros z [->|Hz]%elem_of_cons; [|by apply Hmin].
      destruct (ltb a y) eqn:Hay; [|done].
      pose proof (st_trans _ _ _ Hlt Hay). pose proof (st_irrefl y). congruence.
    + split; [by left|]. intros z [->|Hz]%elem_of_cons; [apply st_irrefl|].
      destruct (ltb z a) eqn:Hza; [|done].
      destruct (ltb a y) eqn:Hay.
      * pose proof (st_trans _ _ _ Hza Hay). rewrite Hmin in H by done. done.
      * rewrite (st_total y a Hlt Hay) in Hmin. rewrite Hmin in Hza; done.
  - apply min_by_None in E as ->. intros [= <-]. split; [by left|].
    intros y ->%list_elem_of_singleton. apply st_irrefl.
Qed.

Lemma min_by_intro l x :
  x ∈ l → (∀ y, y ∈ l → ltb y x = false) → min_by ltb l = Some x.
Proof.
  intros Hx Hmin. destruct (min_by ltb l) as [z|] eqn:E.
  - apply min_by_Some in E as [Hz Hzmin].
    f_equal. apply st_total; auto.
  - apply min_by_None in E as ->. by apply elem_of_nil in Hx.
Qed.
End MinByLemmas.

#[global] Instance key_ltb_flip_total_ord {A} (ltb : A → A → bool) `{!StrictTotal ltb} :
  StrictTotal (λ x y, ltb y x).
Proof.
  split; intros.
  - apply st_irrefl.
  - eapply st_trans; eauto.
  - by apply st_total.
Qed.

(** ** Ordered maps

    Keys of a map determine its entries, so the comparison of keys is a strict
    order on entries, total on the entries of one map; the lemmas below are
    the characterisation the components use. *)
Section OrderedMapLemmas.
Context {V : Type}.
Implicit Types m : gmap Z V.

Lemma elem_of_entries_where (P : Z → bool) m k v :
  (k, v) ∈ entries_where P m ↔ m !! k = Some v ∧ P k = true.
Proof.
  unfold entries_where. rewrite list_elem_of_In, filter_In, <- list_elem_of_In.
  rewrite elem_of_map_to_list. done.
Qed.

Lemma min_by_key_spec (l : list (Z * V)) :
  match min_by key_ltb l with
  | None => l = []
  | Some e => e ∈ l ∧ ∀ e', e' ∈ l → e.1 ≤ e'.1
  end.
Proof.
  induction l as [|a l IH]; simpl; [done|].
  destruct (min_by key_ltb l) as [y|].
  - destruct IH as [Hy Hmin]. destruct (key_ltb y a) eqn:Hlt; unfold key_ltb in Hlt.
    + split; [by right|]. intros e' [->|He]%elem_of_cons; [lia|auto].
    + split; [by left|]. intros e' [->|He]%elem_of_cons; [lia|].
      specialize (Hmin _ He). lia.
  - subst l. split; [by left|]. intros e' ->%list_elem_of_singleton. lia.
Qed.

Lemma max_by_key_spec (l : list (Z * V)) :
  match min_by (λ e1 e2, key_ltb e2 e1) l with
  | None => l = []
  | Some e => e ∈ l ∧ ∀ e', e' ∈ l → e'.1 ≤ e.1
  end.
Proof.
  induction l as [|a l IH]; simpl; [done|].
  destruct (min_by _ l) as [y|].
  - destruct IH as [Hy Hmin]. destruct (key_ltb a y) eqn:Hlt; unfold key_ltb in Hlt.
    + split; [by right|]. intros e' [->|He]%elem_of_cons; [lia|auto].
    + split; [by left|]. intros e' [->|He]%elem_of_cons; [lia|].
      specialize (Hmin _ He). lia.
  - subst l. split; [by left|]. intros e' ->%list_elem_of_singleton. lia.
Qed.

Lemma first_where_Some P m k v :
  first_where P m = Some (k, v) ↔
  m !! k = Some v ∧ P k = true ∧ ∀ j w, m !! j = Some w → P j = true → k ≤ j.
Proof.
  unfold first_where. pose proof (min_by_key_spec (entries_where P m)) as H.
  split.
  - intros E. rewrite E in H. destruct H as [Hin Hmin].
    apply elem_of_entries_where in Hin as [??]. split_and!; [done..|].
    intros j w Hj HP. apply (Hmin (j, w)), elem_of_entries_where. done.
  - intros (Hk & HP & Hmin). destruct (min_by key_ltb _) as [[k' v']|].
    + destruct H as [Hin Hle]. apply elem_of_entries_where in Hin as [Hk' HP'].
      assert (k = k') as ->.
      { apply Z.le_antisymm; [eauto|].
        apply (Hle (k, v)), elem_of_entries_where. done. }
      congruence.
    + exfalso. eapply (not_elem_of_nil (k, v)). rewrite <- H.
      by apply elem_of_entries_where.
Qed.

Lemma first_where_None P m :
  first_where P m = None ↔ ∀ j w, m !! j = Some w → P j = false.
Proof.
  unfold first_where. pose proof (min_by_key_spec (entries_where P m)) as H.
  split.
  - intros E j w Hj. rewrite E in H. destruct (P j) eqn:HP; [|done].
    exfalso. eapply (not_elem_of_nil (j, w)). rewrite <- H.
    by apply elem_of_entries_where.
  - intros Hall. destruct (min_by key_ltb _) as [[k v]|]; [|done].
    destruct H as [Hin _]. apply elem_of_entries_where in Hin as [Hk HP].
    rewrite (Hall _ _ Hk) in HP. done.
Qed.

Lemma last_where_Some P m k v :
  last_where P m = Some (k, v) ↔
  m !! k = Some v ∧ P k = true ∧ ∀ j w, m !! j = Some w → P j = true → j ≤ k.
Proof.
  unfold last_where. pose proof (max_by_key_spec (entries_where P m)) as H.
  split.
  - intros E. rewrite E in H. destruct H as [Hin Hmax].
    apply elem_of_entries_where in Hin as [??]. split_and!; [done..|].
    intros j w Hj HP. apply (Hmax (j, w)), elem_of_entries_where. done.
  - intros (Hk & HP & Hmax). destruct (min_by _ _) as [[k' v']|].
    + destruct H as [Hin Hle]. apply elem_of_entries_where in Hin as [Hk' HP'].
      assert (k = k') as ->.
      { apply Z.le_antisymm; [|eauto].
        apply (Hle (k, v)), elem_of_entries_where. done. }
      congruence.
    + exfalso. eapply (not_elem_of_nil (k, v)). rewrite <- H.
      by apply elem_of_entries_where.
Qed.

Lemma last_where_None P m :
  last_where P m = None ↔ ∀ j w, m !! j = Some w → P j = false.
Proof.
  unfold last_where. pose proof (max_by_key_spec (entries_where P m)) as H.
  split.
  - intros E j w Hj. rewrite E in H. destruct (P j) eqn:HP; [|done].
    exfalso. eapply (not_elem_of_nil (j, w)). rewrite <- H.
    by apply elem_of_entries_where.
  - intros Hall. destruct (min_by _ _) as [[k v]|]; [|done].
    destruct H as [Hin _]. apply elem_of_entries_where in Hin as [Hk HP].
    rewrite (Hall _ _ Hk) in HP. done.
Qed.

(** [upper_bound k] followed by one decrement is the greatest entry at or
    below [k]; the decrement is skipped exactly when there is none. *)
Lemma map_prev_upper_bound m k :
  iter_eqb (map_upper_bound m k) (map_begin m) = false →
  map_prev m (map_upper_bound m k) = last_where (λ j, j <=? k) m.
Proof.
  unfold map_upper_bound, map_begin. intros Hne.
  destruct (first_where (λ j, k <? j) m) as [[k1 v1]|] eqn:E1; cbn [map_prev].
  - apply first_where_Some in E1 as (H1 & HP1 & Hmin).
    destruct (last_where (λ j, j <? k1) m) as [[k2 v2]|] eqn:E2.
    + apply last_where_Some in E2 as (H2 & HP2 & Hmax). symmetry.
      apply last_where_Some. split_and!; [done| |].
      * destruct (k <? k2) eqn:Hk2; [|lia].
        specialize (Hmin _ _ H2 Hk2). lia.
      * intros j w Hj Hle. eapply Hmax; [done|].
        destruct (k <? k1) eqn:?; [lia|done].
    + rewrite last_where_None in E2. symmetry. apply last_where_None.
      intros j w Hj. specialize (E2 _ _ Hj). lia.
  - rewrite first_where_None in E1.
    destruct (last_where (λ _, true) m) as [[k2 v2]|] eqn:E2.
    + apply last_where_Some in E2 as (H2 & _ & Hmax). symmetry.
      apply last_where_Some. split_and!; [done| |].
      * specialize (E1 _ _ H2). lia.
      * intros; eauto.
    + rewrite last_where_None in E2. symmetry. apply last_where_None.
      intros j w Hj. by specialize (E2 _ _ Hj).
Qed.

Lemma upper_bound_is_begin m k :
  iter_eqb (map_upper_bound m k) (map_begin m) = true →
  last_where (λ j, j <=? k) m = None.
Proof.
  unfold map_upper_bound, map_begin. intros He. apply last_where_None.
  intros j w Hj.
  destruct (first_where (λ j, k <? j) m) as [[k1 v1]|] eqn:E1,
    (first_where (λ _, true) m) as [[k2 v2]|] eqn:E2; cbn in He; try done.
  - apply first_where_Some in E1 as (? & ? & ?), E2 as (? & _ & Hmin).
    specialize (Hmin _ _ Hj eq_refl). lia.
  - rewrite first_where_None in E2. by specialize (E2 _ _ Hj).
Qed.

Lemma lower_bound_is_begin m k :
  iter_eqb (map_lower_bound m k) (map_begin m) = true →
  last_where (λ j, j <? k) m = None.
Proof.
  unfold map_lower_bound, map_begin. intros He. apply last_where_None.
  intros j w Hj.
  destruct (first_where (λ j, k <=? j) m) as [[k1 v1]|] eqn:E1,
    (first_where (λ _, true) m) as [[k2 v2]|] eqn:E2; cbn in He; try done.
  - apply first_where_Some in E1 as (? & ? & ?), E2 as (? & _ & Hmin).
    specialize (Hmin _ _ Hj eq_refl). lia.
  - rewrite first_where_None in E2. by specialize (E2 _ _ Hj).
Qed.

Lemma map_prev_lower_bound m k :
  iter_eqb (map_lower_bound m k) (map_begin m) = false →
  map_prev m (map_lower_bound m k) = last_where (λ j, j <? k) m.
Proof.
  unfold map_lower_bound, map_begin. intros Hne.
  destruct (first_where (λ j, k <=? j) m) as [[k1 v1]|] eqn:E1; cbn [map_prev].
  - apply first_where_Some in E1 as (H1 & HP1 & Hmin).
    destruct (last_where (λ j, j <? k1) m) as [[k2 v2]|] eqn:E2.
    + apply last_where_Some in E2 as (H2 & HP2 & Hmax). symmetry.
      apply last_where_Some. split_and!; [done| |].
      * destruct (k <=? k2) eqn:Hk2; [|lia].
        specialize (Hmin _ _ H2 Hk2). lia.
      * intros j w Hj Hle. eapply Hmax; [done|]. lia.
    + rewrite last_where_None in E2. symmetry. apply last_where_None.
      intros j w Hj. specialize (E2 _ _ Hj). lia.
  - rewrite first_where_None in E1.
    destruct (last_where (λ _, true) m) as [[k2 v2]|] eqn:E2.
    + apply last_where_Some in E2 as (H2 & _ & Hmax). symmetry.
      apply last_where_Some. split_and!; [done| |].
      * specialize (E1 _ _ H2). lia.
      * intros; eauto.
    + rewrite last_where_None in E2. symmetry. apply last_where_None.
      intros j w Hj. by specialize (E2 _ _ Hj).
Qed.
End OrderedMapLemmas.

Lemma omap_none {A B} (f : A → option B) l : (∀ x, f x = None) → omap f l = [].
Proof. intros Hf. induction l as [|x l IH]; [done|]. cbn. by rewrite Hf. Qed.

(** ** Programs over a service

    A method that calls a service is a tree of its calls: the continuation of a
    call takes the call's outcome.  [C] are the calls and [O] their outcomes. *)
Inductive program (C O A : Type) :=
| Ret (a : A)
| Act (c : C) (k : O → program C O A).
Arguments Ret {C O A} a.
Arguments Act {C O A} c k.

#[global] Instance program_ret C O : MRet (program C O) := @Ret C O.
#[global] Instance program_bind C O : MBind (program C O) :=
  fix bind {A B} (f : A → program C O B) (p : program C O A) : program C O B :=
  match p with
  | Ret a => f a
  | Act c k => Act c (λ o, bind f (k o))
  end.
#[global] Instance program_fmap C O : FMap (program C O) :=
  λ A B f p, program_bind C O A B (λ a, Ret (f a)) p.
