(* ===== verification/RangePool.v ===== *)
(** * The range allocator (src/src/hybm/csrc/common)

    [RbtreeRangePool] manages the byte range [baseAddress, baseAddress + totalSize)
    with two ordered trees over its free ranges: [addressTree] (offset to size)
    and [sizeTree] (ordered by size, then offset, for best fit).  This file holds
    - the element handed out ([AllocatedElement]) and the pool with its operations,
      every branch of CanAllocate, Allocate and Release;
    - the allocator interface [SpaceAllocator] with its laws, and clients proved
      against it;
    - the pool invariant with respect to the set of live elements, its
      preservation, and that the state is determined by the live elements. *)
From stdpp Require Import base numbers list gmap.
From S2P Require Import Prelude.
Local Open Scope Z_scope.
Local Open Scope mf_scope.

(** A null pointer is address 0. *)
Definition nullptr : Z := 0.

(** ** hybm_space_allocator.h *)

(** [allocator] records whether the element points back to its allocator. *)
Record AllocatedElement := mkElement {
  startAddress : Z;
  elemSize : Z;
  allocator : bool;
}.
Definition emptyElement : AllocatedElement := mkElement nullptr 0 false.

Class SpaceAllocator (P : Type) := {
  CanAllocate : P → Z → bool;
  Allocate : P → Z → P * AllocatedElement;
  Release : P → AllocatedElement → P * bool;
}.

(** The destructor gives the element back when it has an allocator, then resets it. *)
Definition element_destroy `{SpaceAllocator P} (p : P) (e : AllocatedElement)
    : P * AllocatedElement :=
  if allocator e then ((Release p e).1, emptyElement) else (p, e).

(** The move constructor: the new element, and the source after [Reset]. *)
Definition element_move (another : AllocatedElement) : AllocatedElement * AllocatedElement :=
  (another, emptyElement).

(** The move assignment overwrites the target without releasing it. *)
Definition element_move_assign (self another : AllocatedElement)
    : AllocatedElement * AllocatedElement :=
  (mkElement (startAddress another) (elemSize another) (allocator another), emptyElement).

(** ** hybm_rbtree_range_pool *)
Record SpaceRange := mkRange { offset : Z; size : Z }.

#[global] Instance SpaceRange_eq_dec : EqDecision SpaceRange.
Proof. solve_decision. Defined.
#[global] Instance SpaceRange_countable : Countable SpaceRange.
Proof.
  apply (inj_countable' (λ r, (offset r, size r)) (λ p, mkRange p.1 p.2)).
  by intros [].
Defined.

Definition RangeSizeFirst (sr1 sr2 : SpaceRange) : bool :=
  if negb (size sr1 =? size sr2) then size sr1 <? size sr2
  else offset sr1 <? offset sr2.

(** [std::set<SpaceRange, RangeSizeFirst>::lower_bound]. *)
Definition set_lower_bound (X : gset SpaceRange) (anchor : SpaceRange) : option SpaceRange :=
  min_by RangeSizeFirst
    (List.filter (λ r, negb (RangeSizeFirst r anchor)) (elements X)).

Record RbtreeRangePool := mkPool {
  baseAddress : Z;
  totalSize : Z;
  addressTree : gmap Z Z;
  sizeTree : gset SpaceRange;
}.

Definition with_trees (p : RbtreeRangePool) (at' : gmap Z Z) (st' : gset SpaceRange)
    : RbtreeRangePool :=
  mkPool (baseAddress p) (totalSize p) at' st'.

(** [std::map::emplace] keeps an existing entry. *)
Definition emplace (k v : Z) (m : gmap Z Z) : gmap Z Z :=
  match m !! k with Some _ => m | None => <[k := v]> m end.

Definition pool_create (address sz : Z) : RbtreeRangePool :=
  mkPool address sz (<[0 := sz]> ∅) {[ mkRange 0 sz ]}.

Definition alignSize : Z := 4096.
Definition alignSizeMask : Z := u64 (Z.lnot (alignSize - 1)).
Definition AllocateSizeAlignUp (inputSize : Z) : Z :=
  Z.land (inputSize +64 alignSize -64 1) alignSizeMask.

Definition pool_CanAllocate (p : RbtreeRangePool) (sz : Z) : bool :=
  let anchor := mkRange 0 (AllocateSizeAlignUp sz) in
  match set_lower_bound (sizeTree p) anchor with
  | Some _ => true
  | None => false
  end.

Definition pool_Allocate (p : RbtreeRangePool) (sz : Z) : RbtreeRangePool * AllocatedElement :=
  let alignedSize := AllocateSizeAlignUp sz in
  let anchor := mkRange 0 alignedSize in
  match set_lower_bound (sizeTree p) anchor with
  | None => (p, emptyElement)
  | Some sizePos =>
      if baseAddress p =? nullptr then (p, emptyElement) else
      let targetOffset := offset sizePos in
      let targetSize := size sizePos in
      match addressTree p !! targetOffset with
      | None => (p, emptyElement)
      | Some _ =>
          let sizeTree1 := sizeTree p ∖ {[ sizePos ]} in
          let addressTree1 := delete targetOffset (addressTree p) in
          let p' :=
            if targetSize >? alignedSize then
              let left := mkRange (targetOffset +64 alignedSize) (targetSize -64 alignedSize) in
              with_trees p (emplace (offset left) (size left) addressTree1)
                (sizeTree1 ∪ {[ left ]})
            else with_trees p addressTree1 sizeTree1 in
          (p', mkElement (baseAddress p +64 targetOffset) sz true)
      end
  end.

(** The merge with the preceding free range: final offset and size, and the trees
    after the two erases. *)
Definition merge_prev (at0 : gmap Z Z) (st0 : gset SpaceRange) (off alignedSize : Z)
    : Z * Z * gmap Z Z * gset SpaceRange :=
  let prevAddrPos := map_lower_bound at0 off in
  if negb (iter_eqb prevAddrPos (map_begin at0)) then
    match map_prev at0 prevAddrPos with
    | Some (pf, ps) =>
        if pf +64 ps =? off then
          (pf, alignedSize +64 ps, delete pf at0, st0 ∖ {[ mkRange pf ps ]})
        else (off, alignedSize, at0, st0)
    | None => (off, alignedSize, at0, st0)
    end
  else (off, alignedSize, at0, st0).

Definition pool_Release (p : RbtreeRangePool) (element : AllocatedElement)
    : RbtreeRangePool * bool :=
  let alignedSize := AllocateSizeAlignUp (elemSize element) in
  let elemAddr := startAddress element in
  if (baseAddress p =? nullptr) || (elemAddr =? nullptr) then (p, false) else
  if (elemAddr <? baseAddress p) || (baseAddress p +64 totalSize p <=? elemAddr)
  then (p, false) else
  let off := elemAddr -64 baseAddress p in
  let '(finalOffset, finalSize, at1, st1) :=
    merge_prev (addressTree p) (sizeTree p) off alignedSize in
  let '(finalSize2, at2, st2) :=
    match at1 !! (off +64 alignedSize) with
    | Some ns =>
        (finalSize +64 ns, delete (off +64 alignedSize) at1,
         st1 ∖ {[ mkRange (off +64 alignedSize) ns ]})
    | None => (finalSize, at1, st1)
    end in
  (with_trees p (emplace finalOffset finalSize2 at2)
     (st2 ∪ {[ mkRange finalOffset finalSize2 ]}), true).

#[global] Instance RbtreeRangePool_allocator : SpaceAllocator RbtreeRangePool := {
  CanAllocate := pool_CanAllocate;
  Allocate := pool_Allocate;
  Release := pool_Release;
}.

(** ** The pool against its live elements

    [live] maps the address of every element handed out and not yet given back
    to the size that was asked for; the pool holds the aligned size for it. *)
Definition max_request : Z := 2 ^ 64 - 4096.
Definition valid_size (n : Z) : Prop := 0 < n ≤ max_request.

Record pool_inv (p : RbtreeRangePool) (live : gmap Z Z) : Prop := {
  inv_base : 0 < baseAddress p ∧ 0 < totalSize p ∧ baseAddress p + totalSize p < 2 ^ 64;
  inv_trees : ∀ o s, mkRange o s ∈ sizeTree p ↔ addressTree p !! o = Some s;
  inv_free : ∀ o s, addressTree p !! o = Some s → 0 ≤ o ∧ 0 < s ∧ o + s ≤ totalSize p;
  inv_live : ∀ a n, live !! a = Some n →
    valid_size n ∧ baseAddress p ≤ a ∧
    a + AllocateSizeAlignUp n ≤ baseAddress p + totalSize p;
  inv_ff : ∀ o s o' s', addressTree p !! o = Some s → addressTree p !! o' = Some s' →
    o < o' → o + s < o';
  inv_ll : ∀ a n a' n', live !! a = Some n → live !! a' = Some n' →
    a < a' → a + AllocateSizeAlignUp n ≤ a';
  inv_fl : ∀ o s a n, addressTree p !! o = Some s → live !! a = Some n →
    baseAddress p + o + s ≤ a ∨ a + AllocateSizeAlignUp n ≤ baseAddress p + o;
  inv_cover : ∀ x, baseAddress p ≤ x < baseAddress p + totalSize p →
    (∃ o s, addressTree p !! o = Some s ∧ baseAddress p + o ≤ x < baseAddress p + o + s) ∨
    (∃ a n, live !! a = Some n ∧ a ≤ x < a + AllocateSizeAlignUp n);
}.

(** * Lemmas *)

Lemma land_alignSizeMask x : 0 ≤ x < 2 ^ 64 → Z.land x alignSizeMask = x / 4096 * 4096.
Proof.
  intros Hx.
  change alignSizeMask with (Z.land (Z.lnot (Z.ones 12)) (Z.ones 64)).
  rewrite (Z.land_comm (Z.lnot _)), Z.land_assoc, Z.land_ones by lia.
  rewrite Z.mod_small by lia.
  rewrite <- Z.ldiff_land, Z.ldiff_ones_r by lia.
  rewrite Z.shiftr_div_pow2, Z.shiftl_mul_pow2 by lia. done.
Qed.

(** No overflow: the least multiple of 4096 at or above the request. *)
Lemma align_up_small n :
  0 ≤ n ≤ max_request →
  n ≤ AllocateSizeAlignUp n < n + 4096 ∧ AllocateSizeAlignUp n mod 4096 = 0.
Proof.
  unfold max_request, AllocateSizeAlignUp, alignSize. intros Hn.
  set (x := n +64 4096 -64 1). assert (x = n + 4095) as ->.
  { unfold x, u64. rewrite Zminus_mod_idemp_l, Z.mod_small; lia. }
  rewrite land_alignSizeMask by lia.
  pose proof (Z.div_mod (n + 4095) 4096 ltac:(lia)).
  pose proof (Z.mod_pos_bound (n + 4095) 4096 ltac:(lia)).
  split; [lia|]. apply Z.mod_mul. lia.
Qed.

(** Overflow: a request above [max_request] is rounded to zero. *)
Lemma align_up_overflow n : max_request < n < 2 ^ 64 → AllocateSizeAlignUp n = 0.
Proof.
  unfold max_request, AllocateSizeAlignUp, alignSize. intros Hn.
  set (x := n +64 4096 -64 1). assert (x = n + 4095 - 2 ^ 64) as ->.
  { unfold x, u64. rewrite Zminus_mod_idemp_l. symmetry.
    apply (Z.mod_unique_pos _ _ 1); lia. }
  rewrite land_alignSizeMask by lia.
  rewrite Z.div_small by lia. done.
Qed.

Lemma align_up_valid n :
  valid_size n → n ≤ AllocateSizeAlignUp n < 2 ^ 64 ∧ 0 < AllocateSizeAlignUp n.
Proof.
  intros [H1 H2]. destruct (align_up_small n) as [H3 H4]; [lia|].
  unfold max_request in H2.
  assert (AllocateSizeAlignUp n ≤ 2 ^ 64 - 4096); [|lia].
  pose proof (Z.div_mod (AllocateSizeAlignUp n) 4096 ltac:(lia)).
  lia.
Qed.

#[global] Instance RangeSizeFirst_total : StrictTotal RangeSizeFirst.
Proof.
  unfold RangeSizeFirst. split.
  - intros [o s]. cbn. rewrite Z.eqb_refl. cbn. lia.
  - intros [o s] [o' s'] [o'' s'']. cbn.
    destruct (s =? s') eqn:?, (s' =? s'') eqn:?, (s =? s'') eqn:?; cbn; lia.
  - intros [o s] [o' s']. cbn.
    destruct (s =? s') eqn:?, (s' =? s) eqn:?; cbn; intros; f_equal; lia.
Qed.

Lemma set_lower_bound_Some X n r :
  set_lower_bound X (mkRange 0 n) = Some r →
  (∀ r', r' ∈ X → 0 ≤ offset r') →
  r ∈ X ∧ n ≤ size r ∧
  ∀ r', r' ∈ X → n ≤ size r' → RangeSizeFirst r' r = false.
Proof.
  unfold set_lower_bound. intros E Hpos. apply (min_by_Some RangeSizeFirst) in E as [Hin Hmin].
  rewrite list_elem_of_In, filter_In, <- list_elem_of_In, elem_of_elements in Hin.
  destruct Hin as [Hin Hge]. split_and!; [done| |].
  - specialize (Hpos _ Hin). unfold RangeSizeFirst in Hge. cbn in Hge.
    destruct (size r =? n) eqn:?; cbn in Hge; lia.
  - intros r' Hr' Hn. apply Hmin.
    rewrite list_elem_of_In, filter_In, <- list_elem_of_In, elem_of_elements.
    split; [done|]. specialize (Hpos _ Hr'). unfold RangeSizeFirst. cbn.
    destruct (size r' =? n) eqn:?; cbn; lia.
Qed.

Lemma set_lower_bound_None X n :
  set_lower_bound X (mkRange 0 n) = None →
  (∀ r', r' ∈ X → 0 ≤ offset r') →
  ∀ r', r' ∈ X → size r' < n.
Proof.
  unfold set_lower_bound. intros E Hpos r' Hr'. apply (min_by_None RangeSizeFirst) in E.
  destruct (Z_lt_le_dec (size r') n) as [|Hge]; [done|].
  exfalso. apply (not_elem_of_nil r'). rewrite <- E.
  rewrite list_elem_of_In, filter_In, <- list_elem_of_In, elem_of_elements.
  split; [done|]. specialize (Hpos _ Hr'). unfold RangeSizeFirst. cbn.
  destruct (size r' =? n) eqn:?; cbn; lia.
Qed.

Section PoolInv.
Context (p : RbtreeRangePool) (live : gmap Z Z) (Hinv : pool_inv p live).

Lemma inv_size_pos r : r ∈ sizeTree p → 0 ≤ offset r.
Proof.
  destruct r as [o s]. intros Hr. apply (inv_trees _ _ Hinv) in Hr.
  apply (inv_free _ _ Hinv) in Hr. cbn. lia.
Qed.

(** The three outcomes of Allocate in a well-formed pool. *)
Lemma Allocate_cases n :
  valid_size n →
  (pool_Allocate p n = (p, emptyElement) ∧
   ∀ o s, addressTree p !! o = Some s → s < AllocateSizeAlignUp n) ∨
  (∃ o s, addressTree p !! o = Some s ∧ AllocateSizeAlignUp n ≤ s ∧
     (∀ o' s', addressTree p !! o' = Some s' → AllocateSizeAlignUp n ≤ s' →
        s < s' ∨ s = s' ∧ o ≤ o') ∧
     pool_Allocate p n =
       (with_trees p
          (if s >? AllocateSizeAlignUp n
           then <[o + AllocateSizeAlignUp n := s - AllocateSizeAlignUp n]>
                  (delete o (addressTree p))
           else delete o (addressTree p))
          (if s >? AllocateSizeAlignUp n
           then sizeTree p ∖ {[ mkRange o s ]} ∪
                  {[ mkRange (o + AllocateSizeAlignUp n) (s - AllocateSizeAlignUp n) ]}
           else sizeTree p ∖ {[ mkRange o s ]}),
        mkElement (baseAddress p + o) n true)).
Proof.
  intros Hn. pose proof (align_up_valid n Hn) as Ha.
  set (al := AllocateSizeAlignUp n) in *.
  unfold pool_Allocate. fold al.
  destruct (set_lower_bound (sizeTree p) (mkRange 0 al)) as [[o s]|] eqn:E.
  - right. apply set_lower_bound_Some in E as (Hin & Hge & Hbest); [|apply inv_size_pos].
    cbn in Hge. pose proof (proj1 (inv_trees _ _ Hinv o s) Hin) as Ho.
    destruct (inv_base _ _ Hinv) as (Hb & Ht & Hbt).
    destruct (inv_free _ _ Hinv _ _ Ho) as (Ho0 & Hs0 & Hos).
    exists o, s. split_and!; [done..| |].
    + intros o' s' Ho' Hs'. specialize (Hbest (mkRange o' s')).
      rewrite (inv_trees _ _ Hinv) in Hbest. specialize (Hbest Ho' Hs').
      unfold RangeSizeFirst in Hbest. cbn in Hbest.
      destruct (s' =? s) eqn:?; cbn in Hbest; lia.
    + unfold nullptr. rewrite (proj2 (Z.eqb_neq _ _)) by lia. cbn [offset size].
      rewrite Ho. rewrite (u64_small (baseAddress p + o)) by lia.
      destruct (s >? al) eqn:Hgt; [|done].
      cbn [offset size]. rewrite !u64_small by lia.
      unfold emplace. rewrite lookup_delete_ne by lia.
      destruct (addressTree p !! (o + al)) as [s'|] eqn:Ho'; [|done].
      exfalso. pose proof (inv_ff _ _ Hinv _ _ _ _ Ho Ho'). lia.
  - left. split; [done|]. intros o s Ho.
    apply (inv_trees _ _ Hinv) in Ho.
    apply (set_lower_bound_None _ _ E inv_size_pos _ Ho).
Qed.
End PoolInv.

(** Pointwise view of the trees after carving [al] bytes off the range (o, s). *)
Definition carve_tree (at0 : gmap Z Z) (o s al : Z) : gmap Z Z :=
  if s >? al then <[o + al := s - al]> (delete o at0) else delete o at0.
Definition carve_set (st0 : gset SpaceRange) (o s al : Z) : gset SpaceRange :=
  if s >? al then st0 ∖ {[ mkRange o s ]} ∪ {[ mkRange (o + al) (s - al) ]}
  else st0 ∖ {[ mkRange o s ]}.

Lemma lookup_carve_tree at0 o s al o' s' :
  0 < al → at0 !! (o + al) = None ∨ s ≤ al →
  carve_tree at0 o s al !! o' = Some s' ↔
  (at0 !! o' = Some s' ∧ o' ≠ o) ∨ (al < s ∧ o' = o + al ∧ s' = s - al).
Proof.
  unfold carve_tree. intros Hal Hf. destruct (s >? al) eqn:Hgt.
  - rewrite lookup_insert. case_decide as Hd.
    + subst o'. split; [intros [= <-]; right; lia|].
      intros [[Ha Hb]|(?&?&->)]; [|done]. destruct Hf as [Hf|]; [congruence|lia].
    + rewrite lookup_delete. case_decide; subst; split; naive_solver lia.
  - rewrite lookup_delete. case_decide; subst; split; naive_solver lia.
Qed.

Lemma elem_of_carve_set st0 o s al o' s' :
  mkRange o' s' ∈ carve_set st0 o s al ↔
  (mkRange o' s' ∈ st0 ∧ mkRange o' s' ≠ mkRange o s) ∨ (al < s ∧ o' = o + al ∧ s' = s - al).
Proof.
  unfold carve_set. destruct (s >? al) eqn:Hgt; rewrite ?elem_of_union,
    elem_of_difference, !elem_of_singleton; naive_solver lia.
Qed.

Section AllocInv.
Context (p : RbtreeRangePool) (live : gmap Z Z) (Hinv : pool_inv p live).
Context (n o s : Z) (Hn : valid_size n).
Let al := AllocateSizeAlignUp n.
Context (Ho : addressTree p !! o = Some s) (Hs : al ≤ s).

Lemma carve_fresh : addressTree p !! (o + al) = None ∨ s ≤ al.
Proof.
  pose proof (align_up_valid n Hn). fold al in H.
  destruct (addressTree p !! (o + al)) as [s'|] eqn:E; [|by left].
  pose proof (inv_ff _ _ Hinv _ _ _ _ Ho E). lia.
Qed.

(** A live element cannot start where a free range starts. *)
Lemma carve_not_live : live !! (baseAddress p + o) = None.
Proof.
  destruct (live !! (baseAddress p + o)) as [m|] eqn:E; [|done].
  destruct (inv_live _ _ Hinv _ _ E) as [Hm _]. apply align_up_valid in Hm.
  pose proof (inv_fl _ _ Hinv _ _ _ _ Ho E).
  pose proof (inv_free _ _ Hinv _ _ Ho). lia.
Qed.

Lemma carve_lookup o' s' :
  carve_tree (addressTree p) o s al !! o' = Some s' ↔
  (addressTree p !! o' = Some s' ∧ o' ≠ o) ∨ (al < s ∧ o' = o + al ∧ s' = s - al).
Proof.
  apply lookup_carve_tree; [|exact carve_fresh].
  pose proof (align_up_valid n Hn). fold al in H. lia.
Qed.

Lemma carve_live a m :
  <[baseAddress p + o := n]> live !! a = Some m ↔
  (a = baseAddress p + o ∧ m = n) ∨ live !! a = Some m.
Proof.
  rewrite lookup_insert. pose proof carve_not_live. case_decide; naive_solver.
Qed.

(** Every byte stays covered: those of the carved range by its new owner or the
    remaining tail. *)
Lemma carve_cover x :
  baseAddress p ≤ x < baseAddress p + totalSize p →
  (∃ o' s', carve_tree (addressTree p) o s al !! o' = Some s' ∧
     baseAddress p + o' ≤ x < baseAddress p + o' + s') ∨
  (∃ a m, <[baseAddress p + o := n]> live !! a = Some m ∧ a ≤ x < a + AllocateSizeAlignUp m).
Proof.
  intros Hx. destruct (inv_cover _ _ Hinv x Hx) as [(o1 & s1 & H1 & Hx1)|(a & m & H1 & Hx1)].
  - destruct (decide (o1 = o)) as [->|Hne].
    + assert (s1 = s) as -> by congruence.
      destruct (Z_lt_le_dec x (baseAddress p + o + al)) as [Hlt|Hge].
      * right. exists (baseAddress p + o), n. rewrite lookup_insert_eq. fold al.
        split; [done|lia].
      * left. exists (o + al), (s - al). split; [|lia]. apply carve_lookup. right. lia.
    + left. exists o1, s1. split; [|done]. apply carve_lookup. by left.
  - right. exists a, m. split; [|done]. apply carve_live. by right.
Qed.

Lemma carve_inv :
  pool_inv (with_trees p (carve_tree (addressTree p) o s al) (carve_set (sizeTree p) o s al))
    (<[baseAddress p + o := n]> live).
Proof.
  pose proof (align_up_valid n Hn) as Hal. fold al in Hal.
  pose proof carve_lookup as HL. pose proof carve_live as HI. pose proof carve_cover.
  destruct (inv_free _ _ Hinv _ _ Ho) as (Ho0 & Hs0 & Hos).
  destruct Hinv as [Hb Htr Hfree Hlive Hff Hll Hfl Hcov].
  split; cbn [baseAddress totalSize addressTree sizeTree with_trees]; [done|..|done].
  - intros o' s'. rewrite HL, elem_of_carve_set, Htr.
    assert (addressTree p !! o' = Some s' → mkRange o' s' ≠ mkRange o s ↔ o' ≠ o); [|tauto].
    intros Ho'. split; [|naive_solver]. intros Hne ->. congruence.
  - intros o' s' [[H1 _]|(?&->&->)]%HL; [by apply Hfree|lia].
  - intros a m [[-> ->]|Hm]%HI; [|by apply Hlive]. fold al. split; [done|]. lia.
  - intros o1 s1 o2 s2 [[H1 N1]|(?&->&->)]%HL [[H2 N2]|(?&->&->)]%HL Hlt; try lia.
    + by eapply Hff.
    + pose proof (Hff _ _ _ _ H1 Ho). pose proof (Hff _ _ _ _ Ho H1).
      pose proof (Hfree _ _ H1). lia.
    + pose proof (Hff _ _ _ _ H2 Ho). pose proof (Hff _ _ _ _ Ho H2).
      pose proof (Hfree _ _ H2). lia.
  - intros a1 m1 a2 m2 [[-> ->]|H1]%HI [[-> ->]|H2]%HI Hlt; try lia.
    + fold al. pose proof (Hfl _ _ _ _ Ho H2).
      destruct (Hlive _ _ H2) as [Hm2 _]. apply align_up_valid in Hm2. lia.
    + pose proof (Hfl _ _ _ _ Ho H1). lia.
    + by eapply Hll.
  - intros o1 s1 a m [[H1 N1]|(?&->&->)]%HL [[-> ->]|H2]%HI; fold al.
    + pose proof (Hff _ _ _ _ H1 Ho). pose proof (Hff _ _ _ _ Ho H1). lia.
    + by eapply Hfl.
    + lia.
    + pose proof (Hfl _ _ _ _ Ho H2). destruct (Hlive _ _ H2) as [Hm2 _].
      apply align_up_valid in Hm2. lia.
Qed.
End AllocInv.

(** ** Release of a live element *)
Section ReleaseInv.
Context (p : RbtreeRangePool) (live : gmap Z Z) (Hinv : pool_inv p live).
Context (a n : Z) (Hlive : live !! a = Some n).
Let al := AllocateSizeAlignUp n.
Let off := a - baseAddress p.

(** What the free range that absorbs the element looks like: it starts at [fo]
    and ends at [fe]. *)
Definition merged (fo fe : Z) : Prop :=
  (fo = off ∧ (∀ o s, addressTree p !! o = Some s → o + s ≠ off) ∨
   fo < off ∧ addressTree p !! fo = Some (off - fo)) ∧
  (fe = off + al ∧ addressTree p !! (off + al) = None ∨
   off + al < fe ∧ addressTree p !! (off + al) = Some (fe - (off + al))).

Definition after_merge (p' : RbtreeRangePool) (fo fe : Z) : Prop :=
  baseAddress p' = baseAddress p ∧ totalSize p' = totalSize p ∧
  (∀ o s, addressTree p' !! o = Some s ↔
     o = fo ∧ s = fe - fo ∨ addressTree p !! o = Some s ∧ o ≠ fo ∧ o ≠ off + al) ∧
  (∀ o s, mkRange o s ∈ sizeTree p' ↔
     o = fo ∧ s = fe - fo ∨ mkRange o s ∈ sizeTree p ∧ o ≠ fo ∧ o ≠ off + al).

Lemma release_bounds :
  0 ≤ off ∧ 0 < al ∧ off + al ≤ totalSize p ∧ 0 < a ∧ totalSize p < 2 ^ 64.
Proof.
  destruct (inv_live _ _ Hinv _ _ Hlive) as (Hn & H1 & H2).
  apply align_up_valid in Hn. pose proof (inv_base _ _ Hinv).
  unfold off, al. lia.
Qed.

(** A free range starts neither at the element nor inside it. *)
Lemma free_not_inside o s : addressTree p !! o = Some s → o + s ≤ off ∨ off + al ≤ o.
Proof.
  intros Ho. pose proof (inv_fl _ _ Hinv _ _ _ _ Ho Hlive). unfold off, al. lia.
Qed.

Lemma merge_prev_spec :
  ∃ fo at1 st1, merge_prev (addressTree p) (sizeTree p) off al
    = (fo, al + (off - fo), at1, st1) ∧
  (fo = off ∧ (∀ o s, addressTree p !! o = Some s → o + s ≠ off) ∧
     at1 = addressTree p ∧ st1 = sizeTree p ∨
   fo < off ∧ addressTree p !! fo = Some (off - fo) ∧
     at1 = delete fo (addressTree p) ∧ st1 = sizeTree p ∖ {[ mkRange fo (off - fo) ]}).
Proof.
  pose proof release_bounds as Hb. unfold merge_prev.
  assert (∀ o s, addressTree p !! o = Some s → o + s = off → o < off) as Hlt.
  { intros o s Ho. pose proof (inv_free _ _ Hinv _ _ Ho). lia. }
  destruct (iter_eqb _ _) eqn:Hbeg; cbn [negb].
  - apply lower_bound_is_begin in Hbeg. rewrite last_where_None in Hbeg.
    exists off, (addressTree p), (sizeTree p).
    split; [f_equal; f_equal; f_equal; lia|]. left. split_and!; [done| |done..].
    intros o s Ho Hos. specialize (Hlt _ _ Ho Hos). specialize (Hbeg _ _ Ho). lia.
  - rewrite map_prev_lower_bound by done.
    destruct (last_where _ _) as [[pf ps]|] eqn:Hl.
    + apply last_where_Some in Hl as (Hpf & Hpflt & Hmax).
      pose proof (inv_free _ _ Hinv _ _ Hpf).
      rewrite u64_small by lia. destruct (pf + ps =? off) eqn:Heq.
      * exists pf, (delete pf (addressTree p)), (sizeTree p ∖ {[ mkRange pf ps ]}).
        replace (off - pf) with ps by lia.
        rewrite u64_small by lia. split; [done|]. right. split_and!; [lia|done..].
      * exists off, (addressTree p), (sizeTree p).
        split; [f_equal; f_equal; f_equal; lia|]. left. split_and!; [done| |done..].
        intros o s Ho Hos. specialize (Hlt _ _ Ho Hos).
        assert (o ≤ pf) by (eapply Hmax; [done|lia]).
        destruct (decide (o = pf)) as [->|]; [assert (s = ps) by congruence; lia|].
        pose proof (inv_ff _ _ Hinv _ _ _ _ Ho Hpf). lia.
    + rewrite last_where_None in Hl. exists off, (addressTree p), (sizeTree p).
      split; [f_equal; f_equal; f_equal; lia|]. left. split_and!; [done| |done..].
      intros o s Ho Hos. specialize (Hlt _ _ Ho Hos). specialize (Hl _ _ Ho). lia.
Qed.

(** The trees after the predecessor has been taken out: no entry at [fo], the
    others untouched. *)
Lemma merge_prev_trees :
  ∃ fo at1 st1, merge_prev (addressTree p) (sizeTree p) off al
    = (fo, al + (off - fo), at1, st1) ∧
  (fo = off ∧ (∀ o s, addressTree p !! o = Some s → o + s ≠ off) ∨
   fo < off ∧ addressTree p !! fo = Some (off - fo)) ∧ 0 ≤ fo ≤ off ∧
  (∀ o s, at1 !! o = Some s ↔ addressTree p !! o = Some s ∧ o ≠ fo) ∧
  (∀ o s, mkRange o s ∈ st1 ↔ mkRange o s ∈ sizeTree p ∧ o ≠ fo).
Proof.
  destruct merge_prev_spec as (fo & at1 & st1 & E & Hprev). exists fo, at1, st1. split; [done|].
  assert (∀ o s, addressTree p !! o = Some s → o ≠ off) as Hnoff.
  { intros o s Ho ->. pose proof (inv_free _ _ Hinv _ _ Ho).
    pose proof (free_not_inside _ _ Ho). pose proof release_bounds. lia. }
  pose proof (inv_trees _ _ Hinv) as Htr.
  destruct Hprev as [(->&Hno&->&->)|(Hlt&Hfo&->&->)].
  - split_and!; [by left|apply release_bounds|lia| |]; intros o s; rewrite ?Htr; naive_solver.
  - pose proof (inv_free _ _ Hinv _ _ Hfo).
    split_and!; [by right|lia|lia| |]; intros o s.
    + rewrite lookup_delete_Some. naive_solver.
    + set_unfold. rewrite Htr. split; [|naive_solver].
      intros [Ho Hne]. split; [done|]. intros ->. naive_solver.
Qed.

Lemma lookup_emplace (m : gmap Z Z) k v o s :
  m !! k = None → emplace k v m !! o = Some s ↔ o = k ∧ s = v ∨ m !! o = Some s.
Proof.
  unfold emplace. intros Hk. rewrite Hk, lookup_insert. case_decide; naive_solver.
Qed.

Lemma Release_merged e :
  startAddress e = a → elemSize e = n →
  ∃ p' fo fe, pool_Release p e = (p', true) ∧ merged fo fe ∧ after_merge p' fo fe.
Proof.
  intros Ha Hn. pose proof release_bounds as Hb. pose proof (inv_base _ _ Hinv) as Hbase.
  unfold pool_Release. rewrite Ha, Hn. fold al. unfold nullptr.
  rewrite (proj2 (Z.eqb_neq (baseAddress p) 0)), (proj2 (Z.eqb_neq a 0)) by lia.
  rewrite u64_small by lia.
  rewrite (proj2 (Z.ltb_ge a _)), (proj2 (Z.leb_gt _ a)) by (unfold off in Hb; lia).
  cbn [orb]. rewrite (u64_small (a - baseAddress p)) by (unfold off in Hb; lia). fold off.
  destruct merge_prev_trees as (fo & at1 & st1 & -> & Hprev & Hfo & HA & HS).
  assert (at1 !! fo = None) as Hfo1
    by (destruct (at1 !! fo) eqn:E; [by apply HA in E as []|done]).
  rewrite (u64_small (off + al)) by lia.
  destruct (at1 !! (off + al)) as [ns|] eqn:Hnext.
  - apply HA in Hnext as [Hnext _]. pose proof (inv_free _ _ Hinv _ _ Hnext) as Hns.
    eexists _, fo, (off + al + ns). split; [reflexivity|].
    split; [split; [done|right; split; [lia|]; rewrite Hnext; f_equal; lia]|].
    rewrite u64_small by lia.
    replace (al + (off - fo) + ns) with (off + al + ns - fo) by lia.
    split_and!; [done..| |]; intros o s; cbn [addressTree sizeTree with_trees].
    + rewrite lookup_emplace, lookup_delete_Some, HA by (rewrite lookup_delete_ne by lia; done).
      naive_solver.
    + set_unfold. rewrite HS, (inv_trees _ _ Hinv). split; [|naive_solver].
      intros [[[? ?] ?]|[= -> ->]]; [|by left]. right. split_and!; [done..|]. intros ->. naive_solver.
  - assert (addressTree p !! (off + al) = None) as Hn0.
    { destruct (addressTree p !! (off + al)) eqn:E; [|done].
      assert (at1 !! (off + al) = Some z) by (apply HA; split; [done|lia]). congruence. }
    eexists _, fo, (off + al). split; [reflexivity|]. split; [split; [done|by left]|].
    replace (al + (off - fo)) with (off + al - fo) by lia.
    split_and!; [done..| |]; intros o s; cbn [addressTree sizeTree with_trees].
    + rewrite lookup_emplace, HA by done. naive_solver.
    + set_unfold. rewrite HS, (inv_trees _ _ Hinv). naive_solver.
Qed.

Section Merged.
Context (fo fe : Z) (Hm : merged fo fe).

Lemma merged_range : 0 ≤ fo ≤ off ∧ off + al ≤ fe ≤ totalSize p.
Proof.
  destruct Hm as [Hfo Hfe]. pose proof release_bounds. split.
  - destruct Hfo as [[-> _]|[? H1%(inv_free _ _ Hinv)]]; lia.
  - destruct Hfe as [[-> _]|[? H1%(inv_free _ _ Hinv)]]; lia.
Qed.

(** The free ranges that were not merged do not even touch the merged one. *)
Lemma merged_separate o s :
  addressTree p !! o = Some s → o ≠ fo → o ≠ off + al → o + s < fo ∨ fe < o.
Proof.
  destruct Hm as [Hfo Hfe]. intros Ho N1 N2. pose proof (inv_free _ _ Hinv _ _ Ho).
  destruct (free_not_inside _ _ Ho).
  - left. destruct Hfo as [[-> Hno]|[? H1]]; [specialize (Hno _ _ Ho); lia|].
    pose proof (inv_ff _ _ Hinv _ _ _ _ Ho H1). pose proof (inv_ff _ _ Hinv _ _ _ _ H1 Ho). lia.
  - right. destruct Hfe as [[-> _]|[? H1]]; [lia|].
    pose proof (inv_ff _ _ Hinv _ _ _ _ H1 Ho). lia.
Qed.

(** The other live elements are outside the merged range. *)
Lemma merged_live a' n' :
  live !! a' = Some n' → a' ≠ a →
  baseAddress p + fo + (fe - fo) ≤ a' ∨ a' + AllocateSizeAlignUp n' ≤ baseAddress p + fo.
Proof.
  destruct Hm as [Hfo Hfe]. intros Ha' Hne.
  pose proof (inv_ll _ _ Hinv _ _ _ _ Ha' Hlive). pose proof (inv_ll _ _ Hinv _ _ _ _ Hlive Ha') as Hafter.
  fold al in Hafter.
  assert (a' + AllocateSizeAlignUp n' ≤ a ∨ a + al ≤ a') as [Hbe|Haf] by lia.
  - right. destruct Hfo as [[-> _]|[? H1]]; [unfold off; lia|].
    pose proof (inv_fl _ _ Hinv _ _ _ _ H1 Ha'). destruct (inv_live _ _ Hinv _ _ Ha') as [Hn'%align_up_valid _].
    unfold off in *. lia.
  - left. destruct Hfe as [[-> _]|[? H1]]; [unfold off; lia|].
    pose proof (inv_fl _ _ Hinv _ _ _ _ H1 Ha'). destruct (inv_live _ _ Hinv _ _ Ha') as [Hn'%align_up_valid _].
    unfold off in *. lia.
Qed.

(** A free range with a byte outside the merged one is not one of the merged. *)
Lemma merged_outside o s x :
  addressTree p !! o = Some s → o ≤ x < o + s → ¬ fo ≤ x < fe → o ≠ fo ∧ o ≠ off + al.
Proof.
  destruct Hm as [Hfo Hfe]. intros Ho Hx Hout. pose proof merged_range. pose proof release_bounds.
  split; intros ->.
  - destruct Hfo as [[-> _]|[? H1]].
    + destruct (free_not_inside _ _ Ho); pose proof (inv_free _ _ Hinv _ _ Ho); lia.
    + assert (s = off - fo) by congruence. lia.
  - destruct Hfe as [[-> H1]|[? H1]]; [congruence|].
    assert (s = fe - (off + al)) by congruence. lia.
Qed.

Lemma merge_inv p' : after_merge p' fo fe → pool_inv p' (delete a live).
Proof.
  intros (Hb' & Ht' & HA & HS). pose proof merged_range. pose proof merged_separate as Hsep.
  pose proof release_bounds as Hb.
  assert (∀ a' n', delete a live !! a' = Some n' → live !! a' = Some n' ∧ a' ≠ a) as HL.
  { intros a' n'. rewrite lookup_delete_Some. naive_solver. }
  split; rewrite ?Hb', ?Ht'.
  - apply (inv_base _ _ Hinv).
  - intros o s. rewrite HA, HS, (inv_trees _ _ Hinv). done.
  - intros o s [[-> ->]|(Ho & _)]%HA; [lia|by apply (inv_free _ _ Hinv)].
  - intros a' n' [Ha' _]%HL. by apply (inv_live _ _ Hinv).
  - intros o1 s1 o2 s2 [[-> ->]|(Ho1 & N1 & M1)]%HA [[-> ->]|(Ho2 & N2 & M2)]%HA Hlt;
      [lia| | |by eapply (inv_ff _ _ Hinv)].
    + pose proof (Hsep _ _ Ho2 N2 M2). pose proof (inv_free _ _ Hinv _ _ Ho2). lia.
    + pose proof (Hsep _ _ Ho1 N1 M1). lia.
  - intros a1 n1 a2 n2 [H1 _]%HL [H2 _]%HL. by eapply (inv_ll _ _ Hinv).
  - intros o s a' n' [[-> ->]|(Ho & N1 & M1)]%HA [Ha' Hne]%HL; [|by eapply (inv_fl _ _ Hinv)].
    by apply merged_live.
  - intros x Hx. destruct (decide (fo ≤ x - baseAddress p < fe)) as [Hmx|Hmx].
    { left. exists fo, (fe - fo). split; [apply HA; by left|lia]. }
    destruct (inv_cover _ _ Hinv x Hx) as [(o & s & Ho & Hos)|(a' & n' & Ha' & Hx')].
    + left. exists o, s. split; [|done]. apply HA. right. split; [done|].
      eapply (merged_outside _ _ (x - baseAddress p)); [done|lia|done].
    + right. exists a', n'. split; [|done]. rewrite lookup_delete_ne; [done|].
      intros <-. assert (n' = n) as -> by congruence. fold al in Hx'. unfold off in *. lia.
Qed.
End Merged.
End ReleaseInv.
