(* ===== verification/RangePoolSpec.v ===== *)
(** * What the range allocator promises

    - [SpaceAllocatorLaws]: the contract of the [SpaceAllocator] interface with
      respect to the set of live elements, and client theorems proved from the
      contract alone (any sequence of allocations and releases, and the RAII
      element that owns a piece of the space);
    - the [RbtreeRangePool] instance of the contract;
    - what the pool guarantees beyond it: best fit, completeness of CanAllocate,
      and that the trees are a function of the live elements, so that releasing
      undoes allocating. *)
From stdpp Require Import base numbers list gmap.
From S2P Require Import Prelude RangePool.
Local Open Scope Z_scope.

(** ** The contract *)
Class SpaceAllocatorLaws (P : Type) `{SpaceAllocator P} := {
  (** [held p live]: the elements handed out and not given back are exactly [live]. *)
  held : P → gmap Z Z → Prop;
  held_valid : ∀ p live a n, held p live → live !! a = Some n → 0 < a ∧ valid_size n;
  held_disjoint : ∀ p live a n a' n', held p live →
    live !! a = Some n → live !! a' = Some n' → a < a' → a + n ≤ a';
  alloc_fails : ∀ p live n, held p live → valid_size n →
    CanAllocate p n = false → Allocate p n = (p, emptyElement);
  alloc_succeeds : ∀ p live n, held p live → valid_size n →
    CanAllocate p n = true →
    ∃ p' a, Allocate p n = (p', mkElement a n true) ∧ live !! a = None ∧
            held p' (<[a := n]> live);
  release_succeeds : ∀ p live a n, held p live → live !! a = Some n →
    ∃ p', Release p (mkElement a n true) = (p', true) ∧ held p' (delete a live);
}.

(** ** Clients of the interface *)
Section Clients.
Context {P : Type} `{SpaceAllocator P} {laws : SpaceAllocatorLaws P}.

(** One call of a client that only gives back what it holds. *)
Inductive client_step : P * gmap Z Z → P * gmap Z Z → Prop :=
| step_alloc p live n p' a :
    valid_size n → Allocate p n = (p', mkElement a n true) →
    client_step (p, live) (p', <[a := n]> live)
| step_alloc_fail p live n p' :
    valid_size n → Allocate p n = (p', emptyElement) →
    client_step (p, live) (p', live)
| step_release p live a n p' b :
    live !! a = Some n → Release p (mkElement a n true) = (p', b) →
    client_step (p, live) (p', delete a live).

Lemma alloc_total p live n p' e :
  held p live → valid_size n → Allocate p n = (p', e) →
  (e = emptyElement ∧ p' = p) ∨
  (∃ a, e = mkElement a n true ∧ live !! a = None ∧ held p' (<[a := n]> live)).
Proof.
  intros Hh Hn Ha. destruct (CanAllocate p n) eqn:Hc.
  - destruct (alloc_succeeds p live n Hh Hn Hc) as (p1 & a1 & Ha1 & ? & ?).
    rewrite Ha in Ha1. simplify_eq. eauto.
  - rewrite (alloc_fails p live n Hh Hn Hc) in Ha. simplify_eq. eauto.
Qed.

Lemma client_step_held p live p' live' :
  client_step (p, live) (p', live') → held p live → held p' live'.
Proof.
  intros Hs Hh. inversion Hs as [? ? n ? a Hn Ha|? ? n ? Hn Ha|? ? a n ? b Hl Hr]; subst.
  - destruct (alloc_total _ _ _ _ _ Hh Hn Ha) as [[? _]|(? & ? & _ & ?)]; by simplify_eq.
  - destruct (alloc_total _ _ _ _ _ Hh Hn Ha) as [[_ ->]|(? & ? & _ & ?)]; by simplify_eq.
  - destruct (release_succeeds p live a n Hh Hl) as (p1 & Hr1 & Hh1).
    rewrite Hr in Hr1. by simplify_eq.
Qed.

Lemma client_run_held s s' :
  rtc client_step s s' → held s.1 s.2 → held s'.1 s'.2.
Proof.
  induction 1 as [|[p live] [p1 live1] s' Hs _ IH]; [done|].
  intros Hh. apply IH. by eapply client_step_held.
Qed.

(** An element that owns its piece gives it back once, however often it is
    moved: the moved-from element's destructor does nothing. *)
Lemma move_destroy p e :
  let '(e', old) := element_move e in
  (element_destroy (element_destroy p old).1 e').1 = (element_destroy p e).1.
Proof. destruct e as [a n []]; reflexivity. Qed.
End Clients.

(** ** The pool's instance *)
Lemma pool_CanAllocate_true p n :
  pool_CanAllocate p n = true ↔
  set_lower_bound (sizeTree p) (mkRange 0 (AllocateSizeAlignUp n)) ≠ None.
Proof. unfold pool_CanAllocate. destruct (set_lower_bound _ _); naive_solver. Qed.

Lemma pool_CanAllocate_iff p live n :
  pool_inv p live →
  pool_CanAllocate p n = true ↔
  ∃ o s, addressTree p !! o = Some s ∧ AllocateSizeAlignUp n ≤ s.
Proof.
  intros Hinv. unfold pool_CanAllocate.
  destruct (set_lower_bound _ _) as [[o s]|] eqn:E.
  - apply set_lower_bound_Some in E as (Hin & Hge & _); [|by eapply inv_size_pos].
    apply (inv_trees _ _ Hinv) in Hin. naive_solver.
  - split; [done|]. intros (o & s & Ho & Hs). apply (inv_trees _ _ Hinv) in Ho.
    pose proof (set_lower_bound_None _ _ E (inv_size_pos _ _ Hinv) _ Ho). cbn in *. lia.
Qed.

Lemma pool_alloc_fails p live n :
  pool_inv p live → valid_size n → pool_CanAllocate p n = false →
  pool_Allocate p n = (p, emptyElement).
Proof.
  intros Hinv Hn Hc. destruct (Allocate_cases p live Hinv n Hn) as [[-> _]|(o & s & Ho & Hs & _)].
  { done. }
  assert (pool_CanAllocate p n = true) by (apply (pool_CanAllocate_iff _ _ _ Hinv); eauto).
  congruence.
Qed.

Lemma pool_alloc_succeeds p live n :
  pool_inv p live → valid_size n → pool_CanAllocate p n = true →
  ∃ p' a, pool_Allocate p n = (p', mkElement a n true) ∧ live !! a = None ∧
    pool_inv p' (<[a := n]> live).
Proof.
  intros Hinv Hn Hc. apply (pool_CanAllocate_iff _ _ _ Hinv) in Hc as (o0 & s0 & Ho0 & Hs0).
  destruct (Allocate_cases p live Hinv n Hn) as [[_ Hno]|(o & s & Ho & Hs & _ & Heq)].
  { specialize (Hno _ _ Ho0). lia. }
  eexists _, _. split; [exact Heq|]. split.
  - by eapply carve_not_live.
  - by apply carve_inv.
Qed.

Lemma pool_release_succeeds p live a n :
  pool_inv p live → live !! a = Some n →
  ∃ p', pool_Release p (mkElement a n true) = (p', true) ∧ pool_inv p' (delete a live).
Proof.
  intros Hinv Hl.
  destruct (Release_merged p live Hinv a n Hl (mkElement a n true)) as (p' & fo & fe & E & Hm & Ha);
    [done..|].
  exists p'. split; [done|]. by eapply merge_inv.
Qed.

#[global] Program Instance RbtreeRangePool_laws : SpaceAllocatorLaws RbtreeRangePool := {
  held := pool_inv;
  alloc_fails := pool_alloc_fails;
  alloc_succeeds := pool_alloc_succeeds;
  release_succeeds := pool_release_succeeds;
}.
Next Obligation.
  intros p live a n Hinv Hl. destruct (inv_live _ _ Hinv _ _ Hl) as (? & ? & _).
  pose proof (inv_base _ _ Hinv). split; [lia|done].
Qed.
Next Obligation.
  intros p live a n a' n' Hinv H1 H2 Hlt. pose proof (inv_ll _ _ Hinv _ _ _ _ H1 H2 Hlt).
  destruct (inv_live _ _ Hinv _ _ H1) as [Hn _]. apply align_up_valid in Hn. lia.
Qed.

Lemma pool_create_inv a sz :
  0 < a → 0 < sz → a + sz < 2 ^ 64 → pool_inv (pool_create a sz) ∅.
Proof.
  intros Ha Hs Hb.
  assert (∀ o s, (<[0:=sz]> ∅ : gmap Z Z) !! o = Some s ↔ o = 0 ∧ s = sz) as HL.
  { intros o s. rewrite lookup_insert. case_decide; rewrite ?lookup_empty; naive_solver. }
  split; unfold pool_create; cbn [baseAddress totalSize addressTree sizeTree].
  - lia.
  - intros o s. rewrite HL, elem_of_singleton. naive_solver.
  - intros o s [-> ->]%HL. lia.
  - intros a' n. by rewrite lookup_empty.
  - intros o s o' s' [-> ->]%HL [-> ->]%HL. lia.
  - intros a' n. by rewrite lookup_empty.
  - intros o s a' n _. by rewrite lookup_empty.
  - intros x Hx. left. exists 0, sz. split; [by apply HL|lia].
Qed.

(** ** The trees are determined by the live elements *)
Definition free_at (t : gmap Z Z) (x : Z) : Prop :=
  ∃ o s, t !! o = Some s ∧ o ≤ x < o + s.

Section Canonical.
Context (t t' : gmap Z Z).
Context (Hpos : ∀ o s, t !! o = Some s → 0 < s) (Hpos' : ∀ o s, t' !! o = Some s → 0 < s).
Context (Hff : ∀ o s o' s', t !! o = Some s → t !! o' = Some s' → o < o' → o + s < o').
Context (Hff' : ∀ o s o' s', t' !! o = Some s → t' !! o' = Some s' → o < o' → o + s < o').
Context (Heq : ∀ x, free_at t x ↔ free_at t' x).

(** Maximal runs: the byte before and the byte after a free range are not free. *)
Lemma run_edges o s : t !! o = Some s → ¬ free_at t (o - 1) ∧ ¬ free_at t (o + s).
Proof.
  intros Ho. split; intros (o1 & s1 & H1 & Hx).
  - destruct (Z.lt_total o1 o) as [Hlt|[->|Hgt]]; [pose proof (Hff _ _ _ _ H1 Ho Hlt)|..]; lia.
  - pose proof (Hpos _ _ Ho). destruct (Z.lt_total o1 o) as [Hlt|[->|Hgt]].
    + pose proof (Hff _ _ _ _ H1 Ho Hlt). lia.
    + rewrite Ho in H1. simplify_eq. lia.
    + pose proof (Hff _ _ _ _ Ho H1 Hgt). lia.
Qed.

Lemma same_range o s : t !! o = Some s → t' !! o = Some s.
Proof.
  intros Ho. pose proof (Hpos _ _ Ho). pose proof (run_edges _ _ Ho) as [He1 He2].
  rewrite Heq in He1, He2.
  destruct (proj1 (Heq o)) as (o' & s' & Ho' & Hx); [exists o, s; split; [done|lia]|].
  assert (o' = o) as ->.
  { destruct (Z_lt_le_dec o' o); [|lia]. destruct He1. exists o', s'. split; [done|lia]. }
  rewrite Ho'. f_equal. destruct (Z.lt_total s' s) as [Hlt|[->|Hgt]]; [exfalso|done|exfalso].
  - assert (free_at t' (o + s')) as (o2 & s2 & H2 & Hx2).
    { apply Heq. exists o, s. split; [done|]. pose proof (Hpos' _ _ Ho'). lia. }
    pose proof (Hpos' _ _ Ho'). destruct (Z.lt_total o2 o) as [Hlt2|[->|Hgt2]].
    + pose proof (Hff' _ _ _ _ H2 Ho' Hlt2). lia.
    + rewrite Ho' in H2. simplify_eq. lia.
    + pose proof (Hff' _ _ _ _ Ho' H2 Hgt2). lia.
  - destruct He2. exists o, s'. split; [done|lia].
Qed.
End Canonical.

Lemma free_at_iff p live x :
  pool_inv p live →
  free_at (addressTree p) x ↔
  0 ≤ x < totalSize p ∧
  ∀ a n, live !! a = Some n → ¬ a ≤ baseAddress p + x < a + AllocateSizeAlignUp n.
Proof.
  intros Hinv. split.
  - intros (o & s & Ho & Hx). pose proof (inv_free _ _ Hinv _ _ Ho). split; [lia|].
    intros a n Ha Hax. pose proof (inv_fl _ _ Hinv _ _ _ _ Ho Ha). lia.
  - intros [Hx Hno].
    destruct (inv_cover _ _ Hinv (baseAddress p + x)) as [(o & s & Ho & Hos)|(a & n & Ha & Hx')].
    + lia.
    + exists o, s. split; [done|lia].
    + by destruct (Hno _ _ Ha).
Qed.

Lemma pool_inv_unique p p' live :
  pool_inv p live → pool_inv p' live →
  baseAddress p = baseAddress p' → totalSize p = totalSize p' → p = p'.
Proof.
  intros Hi Hi' Hb Ht.
  assert (∀ x, free_at (addressTree p) x ↔ free_at (addressTree p') x) as Hf.
  { intros x. rewrite (free_at_iff _ _ _ Hi), (free_at_iff _ _ _ Hi'), Hb, Ht. done. }
  assert (addressTree p = addressTree p') as Hat.
  { apply map_eq. intros o. apply option_eq. intros s.
    split; eapply same_range; try (symmetry; apply Hf); try apply Hf;
      try (by apply (inv_ff _ _ Hi)); try (by apply (inv_ff _ _ Hi'));
      intros ?? H1; (apply (inv_free _ _ Hi) in H1 || apply (inv_free _ _ Hi') in H1); lia. }
  assert (sizeTree p = sizeTree p') as Hst.
  { apply set_eq. intros [o s].
    rewrite (inv_trees _ _ Hi), (inv_trees _ _ Hi'), Hat. done. }
  destruct p, p'. cbn in *. by subst.
Qed.

Lemma Allocate_base p n : baseAddress (pool_Allocate p n).1 = baseAddress p ∧
  totalSize (pool_Allocate p n).1 = totalSize p.
Proof.
  unfold pool_Allocate. repeat (case_match; cbn); done.
Qed.

Lemma Release_base p e : baseAddress (pool_Release p e).1 = baseAddress p ∧
  totalSize (pool_Release p e).1 = totalSize p.
Proof. unfold pool_Release. repeat (case_match; cbn); done. Qed.

Lemma client_step_base (s s' : RbtreeRangePool * gmap Z Z) :
  client_step s s' →
  baseAddress s'.1 = baseAddress s.1 ∧ totalSize s'.1 = totalSize s.1.
Proof.
  destruct 1 as [p live n p' a _ E|p live n p' _ E|p live a n p' b _ E]; cbn in *.
  - pose proof (Allocate_base p n). by rewrite E in H.
  - pose proof (Allocate_base p n). by rewrite E in H.
  - pose proof (Release_base p (mkElement a n true)). by rewrite E in H.
Qed.

Lemma client_run_base (s s' : RbtreeRangePool * gmap Z Z) :
  rtc client_step s s' →
  baseAddress s'.1 = baseAddress s.1 ∧ totalSize s'.1 = totalSize s.1.
Proof.
  induction 1 as [|s s1 s' Hs _ IH]; [done|].
  apply client_step_base in Hs. destruct Hs, IH. split; congruence.
Qed.

(** * Properties *)

(** C23: from a fresh pool, whatever sequence of allocations, of sizes from 1 to
    2^64 - 4096, and of releases of what they hold its clients make, the live elements lie inside the pool and are pairwise disjoint,
    each with its aligned size, and every byte of the pool is either in exactly
    the free ranges of the address tree or in a live element, never both. *)
Theorem pool_run_partition a sz p live :
  0 < a → 0 < sz → a + sz < 2 ^ 64 →
  rtc client_step (pool_create a sz, ∅) (p, live) →
  (∀ x n, live !! x = Some n → a ≤ x ∧ x + AllocateSizeAlignUp n ≤ a + sz ∧ n ≤ AllocateSizeAlignUp n) ∧
  (∀ x n x' n', live !! x = Some n → live !! x' = Some n' → x < x' →
     x + AllocateSizeAlignUp n ≤ x') ∧
  (∀ y, 0 ≤ y < sz → free_at (addressTree p) y ↔
     ¬ ∃ x n, live !! x = Some n ∧ x ≤ a + y < x + AllocateSizeAlignUp n).
Proof.
  intros Ha Hs Hb Hr. pose proof (client_run_base _ _ Hr) as [Eb Et]. cbn in Eb, Et.
  apply client_run_held in Hr; [|by apply pool_create_inv]. cbn in Hr.
  split_and!.
  - intros x n Hl. destruct (inv_live _ _ Hr _ _ Hl) as (Hn & ? & ?).
    apply align_up_valid in Hn. lia.
  - apply (inv_ll _ _ Hr).
  - intros y Hy. rewrite (free_at_iff _ _ _ Hr), Eb, Et. naive_solver.
Qed.

Lemma pool_run_partition_witness :
  4096 ≤ 4096 ∧ 4096 + AllocateSizeAlignUp 5000 ≤ 4096 + 65536 ∧
  5000 ≤ AllocateSizeAlignUp 5000.
Proof.
  refine (proj1 (pool_run_partition 4096 65536
    (pool_Allocate (pool_create 4096 65536) 5000).1 (<[4096 := 5000]> ∅) _ _ _ _) 4096 5000 _);
    [lia..| |by rewrite lookup_insert_eq].
  eapply rtc_l, rtc_refl. apply (step_alloc _ _ 5000).
  - unfold valid_size, max_request. lia.
  - vm_compute. reflexivity.
Defined.

(** An allocation followed by the release of its element restores the pool
    exactly, both trees included, whatever else is live: the carving of a free
    range and the merging with both neighbours are inverse. *)
Theorem pool_release_undoes_allocate p live n p' e :
  pool_inv p live → valid_size n → pool_Allocate p n = (p', e) → e ≠ emptyElement →
  pool_Release p' e = (p, true).
Proof.
  intros Hinv Hn Ha Hne.
  pose proof (Allocate_base p n) as [Hb Ht]. rewrite Ha in Hb, Ht. cbn in Hb, Ht.
  destruct (alloc_total (laws := RbtreeRangePool_laws) p live n p' e Hinv Hn Ha) as [[? _]|(a & -> & Hl & Hi')]; [done|].
  destruct (pool_release_succeeds _ _ a n Hi') as (p2 & E & Hi2); [by rewrite lookup_insert_eq|].
  rewrite E. f_equal. rewrite delete_insert_id in Hi2 by done.
  pose proof (Release_base p' (mkElement a n true)) as [Hb2 Ht2]. rewrite E in Hb2, Ht2.
  cbn in Hb2, Ht2. eapply pool_inv_unique; eauto; congruence.
Qed.

Lemma pool_release_undoes_allocate_witness :
  pool_Release (pool_Allocate (pool_create 4096 65536) 5000).1 (mkElement 4096 5000 true)
  = (pool_create 4096 65536, true).
Proof.
  eapply (pool_release_undoes_allocate _ ∅ 5000).
  - apply pool_create_inv; lia.
  - unfold valid_size, max_request. lia.
  - vm_compute. reflexivity.
  - done.
Defined.

(** Nothing leaks and nothing fragments for good: when every element handed
    out has been given back, in any order, the pool is the fresh pool again. *)
Theorem pool_drained_is_fresh a sz p :
  0 < a → 0 < sz → a + sz < 2 ^ 64 →
  rtc client_step (pool_create a sz, ∅) (p, ∅) → p = pool_create a sz.
Proof.
  intros Ha Hs Hb Hr. pose proof (client_run_base _ _ Hr) as [Eb Et].
  apply client_run_held in Hr; [|by apply pool_create_inv].
  eapply pool_inv_unique; [exact Hr|by apply pool_create_inv|done..].
Qed.

Lemma pool_drained_is_fresh_witness :
  let p1 := (pool_Allocate (pool_create 4096 65536) 5000).1 in
  let p2 := (pool_Allocate p1 100).1 in
  let p3 := (pool_Release p2 (mkElement 4096 5000 true)).1 in
  let p4 := (pool_Release p3 (mkElement 12288 100 true)).1 in
  p4 = pool_create 4096 65536.
Proof.
  intros p1 p2 p3 p4. apply (pool_drained_is_fresh 4096 65536 p4); [lia..|].
  apply rtc_l with (p1, <[4096 := 5000]> ∅).
  { apply (step_alloc _ _ 5000); [unfold valid_size, max_request; lia|vm_compute; reflexivity]. }
  apply rtc_l with (p2, <[12288 := 100]> (<[4096 := 5000]> ∅)).
  { apply (step_alloc _ _ 100); [unfold valid_size, max_request; lia|vm_compute; reflexivity]. }
  apply rtc_l with (p3, delete 4096 (<[12288 := 100]> (<[4096 := 5000]> ∅))).
  { apply (step_release _ _ 4096 5000 p3 true); vm_compute; reflexivity. }
  apply rtc_l with (p4, delete 12288 (delete 4096 (<[12288 := 100]> (<[4096 := 5000]> ∅)))).
  { apply (step_release _ _ 12288 100 p4 true); vm_compute; reflexivity. }
  replace (delete 12288 _ : gmap Z Z) with (∅ : gmap Z Z) by (vm_compute; reflexivity).
  apply rtc_refl.
Defined.

(** Allocate is best fit.  It succeeds exactly when CanAllocate says so,
    which is when some free range is at least as large as the aligned request;
    the element starts at the lowest of the smallest such ranges and only the
    tail of that range stays free. *)
Theorem pool_allocate_best_fit p live n p' e :
  pool_inv p live → valid_size n → pool_Allocate p n = (p', e) →
  (pool_CanAllocate p n = false ∧ e = emptyElement ∧ p' = p ∧
   ∀ o s, addressTree p !! o = Some s → s < AllocateSizeAlignUp n) ∨
  (pool_CanAllocate p n = true ∧
   ∃ o s, addressTree p !! o = Some s ∧ AllocateSizeAlignUp n ≤ s ∧
     e = mkElement (baseAddress p + o) n true ∧
     (∀ o' s', addressTree p !! o' = Some s' → AllocateSizeAlignUp n ≤ s' →
        s < s' ∨ s = s' ∧ o ≤ o') ∧
     (∀ y, free_at (addressTree p') y ↔
        free_at (addressTree p) y ∧ ¬ o ≤ y < o + AllocateSizeAlignUp n)).
Proof.
  intros Hinv Hn Ha.
  destruct (Allocate_cases p live Hinv n Hn) as [[E Hno]|(o & s & Ho & Hs & Hbest & E)];
    rewrite E in Ha; simplify_eq.
  - left. split_and!; [|done..]. apply not_true_iff_false.
    rewrite (pool_CanAllocate_iff _ _ _ Hinv). intros (o & s & Ho & Hs).
    specialize (Hno _ _ Ho). lia.
  - right. split; [apply (pool_CanAllocate_iff _ _ _ Hinv); eauto|].
    exists o, s. split_and!; [done..|].
    pose proof (carve_inv p live Hinv n o s Hn Ho Hs) as Hi'.
    intros y. unfold carve_tree, carve_set in Hi'.
    rewrite (free_at_iff _ _ _ Hi'), (free_at_iff _ _ _ Hinv). cbn [baseAddress totalSize with_trees].
    assert (live !! (baseAddress p + o) = None) as Hnl by (by eapply carve_not_live).
    split.
    + intros [Hy Hc]. split_and!; [lia|lia| |].
      * intros a m Hl. apply (Hc a m). rewrite lookup_insert_ne; [done|]. congruence.
      * specialize (Hc (baseAddress p + o) n). rewrite lookup_insert_eq in Hc.
        specialize (Hc eq_refl). lia.
    + intros [[Hy Hc] Hx]. split; [done|]. intros a m.
      rewrite lookup_insert. case_decide; [intros [= ->]; lia|apply Hc].
Qed.

Lemma pool_allocate_best_fit_witness :
  let p := pool_create 4096 65536 in
  pool_CanAllocate p 5000 = true ∧
  ∃ o s, addressTree p !! o = Some s ∧ AllocateSizeAlignUp 5000 ≤ s ∧
    mkElement 4096 5000 true = mkElement (baseAddress p + o) 5000 true.
Proof.
  intros p. destruct (pool_allocate_best_fit p ∅ 5000 (pool_Allocate p 5000).1
    (mkElement 4096 5000 true)) as [(_ & E & _)|(Hc & o & s & Ho & Hs & E & _)].
  - apply pool_create_inv; lia.
  - unfold valid_size, max_request. lia.
  - vm_compute. reflexivity.
  - discriminate E.
  - split; [exact Hc|]. exists o, s. auto.
Defined.

(** A request in the last 4095 values of its 64-bit range is rounded to size
    zero: when any free range exists, Allocate hands out a non-empty element of
    the full requested size, although no range can hold it, and keeps the
    range free, so the next client gets overlapping memory. *)
Theorem pool_allocate_overflow p live n o s :
  pool_inv p live → 4096 ≤ baseAddress p →
  max_request < n < 2 ^ 64 → addressTree p !! o = Some s →
  ∃ a, pool_Allocate p n = (p, mkElement a n true) ∧ totalSize p < n.
Proof.
  intros Hinv Hpg Hn Ho. unfold pool_Allocate. rewrite (align_up_overflow n Hn).
  destruct (set_lower_bound (sizeTree p) (mkRange 0 0)) as [[o1 s1]|] eqn:E.
  2: { apply (inv_trees _ _ Hinv) in Ho.
       pose proof (set_lower_bound_None _ _ E (inv_size_pos _ _ Hinv) _ Ho) as Hlt.
       apply (inv_trees _ _ Hinv), (inv_free _ _ Hinv) in Ho. cbn in Hlt. lia. }
  apply set_lower_bound_Some in E as (Hin & _ & _); [|by eapply inv_size_pos].
  pose proof (proj1 (inv_trees _ _ Hinv _ _) Hin) as Ho1.
  destruct (inv_base _ _ Hinv) as (Hb & Ht & Hbt).
  pose proof (inv_free _ _ Hinv _ _ Ho1) as Hf.
  rewrite (proj2 (Z.eqb_neq _ _)) by (unfold nullptr; lia). cbn [offset size].
  rewrite Ho1, (proj2 (Z.gtb_lt _ _)) by lia.
  rewrite Z.add_0_r, Z.sub_0_r, !u64_small by lia.
  eexists. split; [|unfold max_request in *; lia].
  unfold emplace. rewrite lookup_delete_eq, insert_delete_id by done.
  replace (sizeTree p ∖ {[mkRange o1 s1]} ∪ {[mkRange o1 s1]}) with (sizeTree p).
  - by destruct p.
  - apply set_eq. intros r. set_unfold. destruct (decide (r = mkRange o1 s1)); naive_solver.
Qed.

Lemma pool_allocate_overflow_witness :
  ∃ a, pool_Allocate (pool_create 4096 65536) (2 ^ 64 - 1)
       = (pool_create 4096 65536, mkElement a (2 ^ 64 - 1) true) ∧ 65536 < 2 ^ 64 - 1.
Proof.
  apply (pool_allocate_overflow (pool_create 4096 65536) ∅ (2 ^ 64 - 1) 0 65536).
  - apply pool_create_inv; lia.
  - reflexivity.
  - unfold max_request. lia.
  - reflexivity.
Defined.
