(* ===== verification/VaManager.v ===== *)
(** * The virtual address manager (src/src/hybm/csrc/mm/hybm_va_manager)

    [HybmVaManager] records the reserved global address ranges and the allocated
    segments, indexed by global address (GVA), by local address (LVA) and by
    memory type.  A read through an iterator is [None] when the iterator is
    [end()], which the source does not exclude everywhere.  The mutex makes each
    operation atomic, so an operation is a function of the state. *)
From stdpp Require Import base numbers list gmap sorting.
From S2P Require Import Prelude.
Local Open Scope Z_scope.
Local Open Scope mf_scope.

(** ** hybm_def.h, hybm_define.h, hybm_types.h *)
Definition HYBM_MEM_TYPE_DEVICE : Z := 1.
Definition HYBM_MEM_TYPE_HOST : Z := 2.
Definition HYBM_MEM_TYPE_BUTT : Z := 3.

Definition BM_OK : Z := 0.
Definition BM_ERROR : Z := -1.
Definition BM_INVALID_PARAM : Z := -2.

Definition HYBM_DEVICE_VA_START : Z := 0x100000000000.
Definition HYBM_DEVICE_VA_SIZE : Z := 0x80000000000.
Definition HYBM_GVM_START_ADDR : Z := 0x280000000000.
Definition HYBM_GVM_END_ADDR : Z := 0xA80000000000.

Inductive hybm_data_copy_direction :=
| HYBM_LOCAL_HOST_TO_GLOBAL_HOST
| HYBM_LOCAL_HOST_TO_GLOBAL_DEVICE
| HYBM_LOCAL_DEVICE_TO_GLOBAL_HOST
| HYBM_LOCAL_DEVICE_TO_GLOBAL_DEVICE
| HYBM_GLOBAL_HOST_TO_GLOBAL_HOST
| HYBM_GLOBAL_HOST_TO_GLOBAL_DEVICE
| HYBM_GLOBAL_HOST_TO_LOCAL_HOST
| HYBM_GLOBAL_HOST_TO_LOCAL_DEVICE
| HYBM_GLOBAL_DEVICE_TO_GLOBAL_HOST
| HYBM_GLOBAL_DEVICE_TO_GLOBAL_DEVICE
| HYBM_GLOBAL_DEVICE_TO_LOCAL_HOST
| HYBM_GLOBAL_DEVICE_TO_LOCAL_DEVICE
| HYBM_DATA_COPY_DIRECTION_AUTO
| HYBM_DATA_COPY_DIRECTION_BUTT.

(** ** hybm_va_manager.h *)
Record ReservedGvaInfo := mkReserved {
  r_start : Z;
  r_size : Z;
  r_memType : Z;
  r_localRankId : Z;
}.
Definition defaultReserved : ReservedGvaInfo := mkReserved 0 0 HYBM_MEM_TYPE_DEVICE 0.
Definition Reserved_End (i : ReservedGvaInfo) : Z := r_start i +64 r_size i.
Definition Reserved_Contains (i : ReservedGvaInfo) (addr : Z) : bool :=
  (r_start i <=? addr) && (addr <? Reserved_End i).

Definition INVALID_RANK_ID : Z := U32_MAX.

Record BaseAllocatedGvaInfo := mkBase {
  gva : Z;
  bsize : Z;
  memType : Z;
  lva : Z;
}.
Record AllocatedGvaInfo := mkInfo {
  base : BaseAllocatedGvaInfo;
  registered : bool;
  localRankId : Z;
  importedRankId : Z;
}.
Definition defaultInfo : AllocatedGvaInfo :=
  mkInfo (mkBase 0 0 HYBM_MEM_TYPE_DEVICE 0) false INVALID_RANK_ID INVALID_RANK_ID.

Definition In_segment (self gvaInfo : AllocatedGvaInfo) : bool :=
  (gva (base self) <=? gva (base gvaInfo)) &&
  (gva (base gvaInfo) +64 bsize (base gvaInfo) <=? gva (base self) +64 bsize (base self)).
Definition End (i : AllocatedGvaInfo) : Z := gva (base i) +64 bsize (base i).
Definition Contains (i : AllocatedGvaInfo) (addr : Z) : bool :=
  (gva (base i) <=? addr) && (addr <? gva (base i) +64 bsize (base i)).
Definition ContainsByLva (i : AllocatedGvaInfo) (addr : Z) : bool :=
  if lva (base i) =? 0 then false
  else (lva (base i) <=? addr) && (addr <? lva (base i) +64 bsize (base i)).
Definition RankId (i : AllocatedGvaInfo) : Z :=
  if negb (importedRankId i =? INVALID_RANK_ID) then importedRankId i else localRankId i.

(** [operator==] compares the range and the owning rank only. *)
Definition info_eqb (lhs rhs : AllocatedGvaInfo) : bool :=
  (gva (base lhs) =? gva (base rhs)) && (bsize (base lhs) =? bsize (base rhs)) &&
  (RankId lhs =? RankId rhs).

Record HybmVaManager := mkVa {
  byGva : gmap Z AllocatedGvaInfo;
  byLva : gmap Z AllocatedGvaInfo;
  reserved : gmap Z ReservedGvaInfo;
  byMemType : gmap Z (list AllocatedGvaInfo);
  reserveStart : Z;
  reserveEnd : Z;
}.
Definition va_new : HybmVaManager :=
  mkVa ∅ ∅ ∅ ∅ HYBM_GVM_START_ADDR HYBM_GVM_END_ADDR.

Definition with_alloc (m : HybmVaManager) g l t : HybmVaManager :=
  mkVa g l (reserved m) t (reserveStart m) (reserveEnd m).
Definition with_reserved (m : HybmVaManager) r : HybmVaManager :=
  mkVa (byGva m) (byLva m) r (byMemType m) (reserveStart m) (reserveEnd m).

(** [upper_bound(k)], decremented unless it is [begin()], then dereferenced. *)
Definition at_or_before {V} (m : gmap Z V) (k : Z) : option V :=
  let it := map_upper_bound m k in
  snd <$> (if iter_eqb it (map_begin m) then it else map_prev m it).

(** ** Allocated segments *)

(** [Initialize] only rejects an unknown SoC, and only in the NPU build. *)
Definition va_Initialize (ascend_npu soc_unknown : bool) : Z :=
  if ascend_npu && soc_unknown then BM_INVALID_PARAM else BM_OK.

Definition overlaps (g e : Z) (info : AllocatedGvaInfo) : bool :=
  ((gva (base info) <=? g) && (g <? End info)) ||
  ((g <=? gva (base info)) && (gva (base info) <? e)).

Definition CheckOverlap (m : HybmVaManager) (g sz mt : Z) : bool * AllocatedGvaInfo :=
  let e := g +64 sz in
  match byMemType m !! mt with
  | Some infos =>
      match List.find (overlaps g e) infos with
      | Some info => (true, info)
      | None => (false, defaultInfo)
      end
  | None => (false, defaultInfo)
  end.

Definition AddVaInfo (m : HybmVaManager) (info : AllocatedGvaInfo) : HybmVaManager * Z :=
  if gva (base info) =? 0 then (m, BM_ERROR) else
  if bsize (base info) =? 0 then (m, BM_OK) else
  if HYBM_MEM_TYPE_BUTT <=? memType (base info) then (m, BM_ERROR) else
  let old := CheckOverlap m (gva (base info)) (bsize (base info)) (memType (base info)) in
  if old.1 && negb (info_eqb old.2 info) then (m, BM_ERROR) else
  if info_eqb old.2 info then (m, BM_OK) else
  (with_alloc m
     (<[gva (base info) := info]> (byGva m))
     (<[lva (base info) := info]> (byLva m))
     (<[memType (base info) := default [] (byMemType m !! memType (base info)) ++ [info]]>
        (byMemType m)),
   BM_OK).

Definition AddVaInfoFromExternal (m : HybmVaManager) (b : BaseAllocatedGvaInfo)
    (localRank importedRank : Z) : HybmVaManager * Z :=
  let info := mkInfo b (importedRank =? INVALID_RANK_ID) localRank importedRank in
  let '(m', ret) := AddVaInfo m info in
  if ret =? BM_OK then (m', BM_OK) else (m', ret).

Definition AddVaInfoFromExternal_local (m : HybmVaManager) (b : BaseAllocatedGvaInfo)
    (localRank : Z) : HybmVaManager * Z :=
  AddVaInfoFromExternal m b localRank INVALID_RANK_ID.

Definition AddVaInfo_base (m : HybmVaManager) (b : BaseAllocatedGvaInfo) (localRank : Z)
    : HybmVaManager * Z :=
  let info := mkInfo b false localRank INVALID_RANK_ID in
  let '(m', ret) := AddVaInfo m info in
  if ret =? BM_OK then (m', BM_OK) else (m', ret).

Definition GetGvaByLva (m : HybmVaManager) (l : Z) : Z :=
  if l =? 0 then 0 else
  let it := map_upper_bound (byLva m) l in
  if iter_eqb it (map_begin (byLva m)) then 0 else
  match map_prev (byLva m) it with
  | Some (_, i) =>
      if ContainsByLva i l then gva (base i) +64 (l -64 lva (base i)) else 0
  | None => 0
  end.

Definition GetLvaByGva (m : HybmVaManager) (g : Z) : Z :=
  if g =? 0 then 0 else
  let it := map_upper_bound (byGva m) g in
  if iter_eqb it (map_begin (byGva m)) then 0 else
  match map_prev (byGva m) it with
  | Some (_, i) =>
      if Contains i g then lva (base i) +64 (g -64 gva (base i)) else 0
  | None => 0
  end.

Definition IsGva (m : HybmVaManager) (va : Z) : option bool :=
  if va =? 0 then Some false else
  i ← at_or_before (byGva m) va; Some (Contains i va).

Definition GetMemType (m : HybmVaManager) (va : Z) : option Z :=
  if va =? 0 then Some HYBM_MEM_TYPE_DEVICE else
  i ← at_or_before (byGva m) va;
  if Contains i va then Some (memType (base i)) else
  iL ← at_or_before (byLva m) va;
  if ContainsByLva iL va then Some (memType (base i)) else
  r ← at_or_before (reserved m) va;
  if Reserved_Contains r va then Some (r_memType r) else Some HYBM_MEM_TYPE_BUTT.

Definition GetRank (m : HybmVaManager) (g : Z) : option (Z * bool) :=
  if g =? 0 then Some (0, false) else
  i ← at_or_before (byGva m) g;
  Some (if Contains i g then (RankId i, true) else (0, false)).

Definition IsValidAddr (m : HybmVaManager) (va : Z) : option bool :=
  b ← IsGva m va;
  Some (if b : bool then true else negb (GetGvaByLva m va =? 0)).

Definition FindAllocByGva (m : HybmVaManager) (g : Z) : option (AllocatedGvaInfo * bool) :=
  i ← at_or_before (byGva m) g;
  Some (if Contains i g then (i, true) else (defaultInfo, false)).
Definition FindAllocByLva (m : HybmVaManager) (l : Z) : option (AllocatedGvaInfo * bool) :=
  i ← at_or_before (byLva m) l;
  Some (if ContainsByLva i l then (i, true) else (defaultInfo, false)).

Definition erase_type (t : gmap Z (list AllocatedGvaInfo)) (mt g : Z)
    : gmap Z (list AllocatedGvaInfo) :=
  match t !! mt with
  | Some infos =>
      match List.filter (λ i, negb (gva (base i) =? g)) infos with
      | [] => delete mt t
      | infos' => <[mt := infos']> t
      end
  | None => t
  end.

Definition RemoveOneVaInfo (m : HybmVaManager) (va : Z) : option HybmVaManager :=
  b ← IsGva m va;
  let g := if b : bool then va else GetGvaByLva m va in
  if g =? 0 then Some m else
  match byGva m !! g with
  | None => Some m
  | Some info =>
      let l' :=
        match byLva m !! lva (base info) with
        | Some i => if gva (base i) =? g then delete (lva (base info)) (byLva m) else byLva m
        | None => byLva m
        end in
      Some (with_alloc m (delete g (byGva m)) l' (erase_type (byMemType m) (memType (base info)) g))
  end.

(** ** Classification *)
Inductive AddressCategory := GLOBAL_DEVICE | GLOBAL_HOST | LOCAL_DEVICE | LOCAL_HOST.

Definition COPY_DIRECTION_TABLE (src dst : AddressCategory) : hybm_data_copy_direction :=
  match src, dst with
  | GLOBAL_DEVICE, GLOBAL_DEVICE => HYBM_GLOBAL_DEVICE_TO_GLOBAL_DEVICE
  | GLOBAL_DEVICE, GLOBAL_HOST => HYBM_GLOBAL_DEVICE_TO_GLOBAL_HOST
  | GLOBAL_DEVICE, LOCAL_DEVICE => HYBM_GLOBAL_DEVICE_TO_LOCAL_DEVICE
  | GLOBAL_DEVICE, LOCAL_HOST => HYBM_GLOBAL_DEVICE_TO_LOCAL_HOST
  | GLOBAL_HOST, GLOBAL_DEVICE => HYBM_GLOBAL_HOST_TO_GLOBAL_DEVICE
  | GLOBAL_HOST, GLOBAL_HOST => HYBM_GLOBAL_HOST_TO_GLOBAL_HOST
  | GLOBAL_HOST, LOCAL_DEVICE => HYBM_GLOBAL_HOST_TO_LOCAL_DEVICE
  | GLOBAL_HOST, LOCAL_HOST => HYBM_GLOBAL_HOST_TO_LOCAL_HOST
  | LOCAL_DEVICE, GLOBAL_DEVICE => HYBM_LOCAL_DEVICE_TO_GLOBAL_DEVICE
  | LOCAL_DEVICE, GLOBAL_HOST => HYBM_LOCAL_DEVICE_TO_GLOBAL_HOST
  | LOCAL_HOST, GLOBAL_DEVICE => HYBM_LOCAL_HOST_TO_GLOBAL_DEVICE
  | LOCAL_HOST, GLOBAL_HOST => HYBM_LOCAL_HOST_TO_GLOBAL_HOST
  | _, _ => HYBM_DATA_COPY_DIRECTION_BUTT
  end.

Definition ClassifyAddress (m : HybmVaManager) (va : Z) : option AddressCategory :=
  gvaType ← GetMemType m va;
  Some (
    if gvaType =? HYBM_MEM_TYPE_DEVICE then GLOBAL_DEVICE else
    if gvaType =? HYBM_MEM_TYPE_HOST then GLOBAL_HOST else
    if (HYBM_DEVICE_VA_START <=? va) && (va <? HYBM_DEVICE_VA_START + HYBM_DEVICE_VA_SIZE)
    then LOCAL_DEVICE else LOCAL_HOST).

Definition InferCopyDirection (m : HybmVaManager) (srcVa dstVa : Z)
    : option hybm_data_copy_direction :=
  src ← ClassifyAddress m srcVa;
  dst ← ClassifyAddress m dstVa;
  Some (COPY_DIRECTION_TABLE src dst).

(** ** Reserved ranges *)
Definition range_le (a b : Z * Z) : Prop := a.1 < b.1 ∨ (a.1 = b.1 ∧ a.2 ≤ b.2).
#[global] Instance range_le_dec a b : Decision (range_le a b).
Proof. unfold range_le. apply _. Defined.

Definition used_ranges (m : HybmVaManager) (start e : Z) : list (Z * Z) :=
  (λ i, (r_start i, Reserved_End i)) <$>
    List.filter (λ i, (start <=? r_start i) && (r_start i <? e)) (snd <$> map_to_list (reserved m)).

(** The scan over the sorted ranges: [inl] an early return, [inr] where it stopped. *)
Fixpoint scan_free (ranges : list (Z * Z)) (sz current : Z) : Z + Z :=
  match ranges with
  | [] => inr current
  | (f, s) :: ranges' =>
      if (current <? f) && (sz <=? f -64 current) then inl current
      else scan_free ranges' sz (if current <? s then s else current)
  end.

Definition FindFreeSpace (m : HybmVaManager) (start e sz : Z) : Z * bool :=
  if (sz =? 0) || (e <=? start) || (e -64 start <? sz) then (0, false) else
  match used_ranges m start e with
  | [] => (start, true)
  | usedRanges =>
      match scan_free (merge_sort range_le usedRanges) sz start with
      | inl current => (current, true)
      | inr current => if sz <=? e -64 current then (current, true) else (0, false)
      end
  end.

Definition AllocReserveGva (m : HybmVaManager) (rank sz mt : Z)
    : HybmVaManager * ReservedGvaInfo :=
  if sz =? 0 then (m, defaultReserved) else
  let '(freeAddr, found) := FindFreeSpace m (reserveStart m) (reserveEnd m) sz in
  if negb found then (m, defaultReserved) else
  let result := mkReserved freeAddr sz mt rank in
  (with_reserved m (<[freeAddr := result]> (reserved m)), result).

Definition FreeReserveGva (m : HybmVaManager) (addr : Z) : HybmVaManager :=
  if addr =? 0 then m else
  match reserved m !! addr with
  | None => m
  | Some _ => with_reserved m (delete addr (reserved m))
  end.

Definition FindReservedByAddr (m : HybmVaManager) (addr : Z) : option (ReservedGvaInfo * bool) :=
  r ← at_or_before (reserved m) addr;
  Some (if Reserved_Contains r addr then (r, true) else (defaultReserved, false)).

Definition GetAllocCount (m : HybmVaManager) : nat := size (byGva m).
Definition GetReservedCount (m : HybmVaManager) : nat := size (reserved m).
Definition ClearAll (m : HybmVaManager) : HybmVaManager :=
  mkVa ∅ ∅ ∅ ∅ (reserveStart m) (reserveEnd m).

(** * Lemmas *)

(** ** Iterator lookups *)
Section AtOrBefore.
Context {V : Type}.
Implicit Types m : gmap Z V.

Lemma prev_upper_bound_last m k :
  (if iter_eqb (map_upper_bound m k) (map_begin m) then None
   else map_prev m (map_upper_bound m k)) = last_where (λ j, j <=? k) m.
Proof.
  destruct (iter_eqb _ _) eqn:E.
  - symmetry. by apply upper_bound_is_begin.
  - by apply map_prev_upper_bound.
Qed.

Lemma last_where_le_hit m x k0 v :
  m !! k0 = Some v → k0 ≤ x → (∀ j w, m !! j = Some w → j ≤ x → j ≤ k0) →
  last_where (λ j, j <=? x) m = Some (k0, v).
Proof.
  intros Hk Hle Hmax. apply last_where_Some. split_and!; [done|lia|].
  intros j w Hj Hjx. eapply Hmax; [done|lia].
Qed.

Lemma last_none_begin m k :
  last_where (λ j, j <=? k) m = None → iter_eqb (map_upper_bound m k) (map_begin m) = true.
Proof.
  intros Hn. assert (∀ j w, m !! j = Some w → k < j) as Hall.
  { intros j w Hj. pose proof (proj1 (last_where_None _ _) Hn j w Hj) as Hk. cbn in Hk. lia. }
  assert (map_upper_bound m k = map_begin m) as ->.
  { unfold map_upper_bound, map_begin.
    destruct (first_where (λ _, true) m) as [[k0 v]|] eqn:E.
    - apply first_where_Some in E as (Hk & _ & Hmin). apply first_where_Some.
      split_and!; [done|specialize (Hall _ _ Hk); lia|eauto].
    - apply first_where_None. intros j w Hj.
      pose proof (proj1 (first_where_None _ _) E j w Hj). done. }
  unfold iter_eqb. destruct (map_begin m) as [[]|]; [apply Z.eqb_refl|done].
Qed.

(** The entry read is the greatest at or below [k], or the first entry when all
    are above [k]; there is none only in an empty map. *)
Lemma at_or_before_spec m k :
  match at_or_before m k with
  | None => m = ∅
  | Some v => ∃ k0, m !! k0 = Some v ∧
      (k0 ≤ k ∧ last_where (λ j, j <=? k) m = Some (k0, v) ∨
       k < k0 ∧ ∀ j w, m !! j = Some w → k < j)
  end.
Proof.
  unfold at_or_before. pose proof (prev_upper_bound_last m k) as Hp.
  destruct (last_where (λ j, j <=? k) m) as [[k0 v]|] eqn:El.
  - destruct (iter_eqb _ _); [done|]. rewrite Hp. cbn.
    pose proof El as (Hk & Hle & _)%last_where_Some.
    exists k0. split; [done|]. left. split; [lia|done].
  - rewrite (last_none_begin _ _ El).
    assert (∀ j w, m !! j = Some w → k < j) as Hall.
    { intros j w Hj. pose proof (proj1 (last_where_None _ _) El j w Hj) as Hk. cbn in Hk. lia. }
    destruct (map_upper_bound m k) as [[k0 v]|] eqn:Ef; cbn.
    + apply first_where_Some in Ef as (Hk & Hlt & _). exists k0. split; [done|].
      right. split; [lia|done].
    + apply map_eq. intros j. rewrite lookup_empty.
      destruct (m !! j) as [w|] eqn:Hj; [|done]. specialize (Hall _ _ Hj).
      pose proof (proj1 (first_where_None _ _) Ef j w Hj) as Hk. cbn in Hk. lia.
Qed.
End AtOrBefore.
