(* ===== verification/VaManagerSpec.v ===== *)
(** * Correctness of the virtual address manager

    - [type_inv]: whatever segments are given, those of one memory type are disjoint
      and recorded segments are listed under their type;
    - [va_inv]: for segments that clash neither with another type nor with another
      local range, the three indexes agree and the segments are disjoint, in global
      and in local address space; AddVaInfo and RemoveOneVaInfo preserve it;
    - the interval lookups and the two address translations;
    - [res_inv]: the reserved ranges are disjoint; the search for free space is
      first fit, sound and complete. *)
From stdpp Require Import base numbers list gmap sorting.
From S2P Require Import Prelude VaManager.
Local Open Scope Z_scope.

(** ** Segments *)
Definition seg_ok (i : AllocatedGvaInfo) : Prop :=
  0 < gva (base i) ∧ 0 < bsize (base i) ∧ gva (base i) + bsize (base i) < 2 ^ 64 ∧
  memType (base i) < HYBM_MEM_TYPE_BUTT ∧
  0 ≤ lva (base i) ∧ lva (base i) + bsize (base i) < 2 ^ 64.

Definition g_apart (i j : AllocatedGvaInfo) : Prop :=
  gva (base i) + bsize (base i) ≤ gva (base j) ∨ gva (base j) + bsize (base j) ≤ gva (base i).
Definition l_apart (i j : AllocatedGvaInfo) : Prop :=
  lva (base i) = 0 ∨ lva (base j) = 0 ∨
  lva (base i) + bsize (base i) ≤ lva (base j) ∨ lva (base j) + bsize (base j) ≤ lva (base i).

Record va_inv (m : HybmVaManager) : Prop := {
  vi_gva : ∀ g i, byGva m !! g = Some i → gva (base i) = g ∧ seg_ok i;
  vi_type : ∀ t i, (∃ l, byMemType m !! t = Some l ∧ i ∈ l) ↔
    memType (base i) = t ∧ byGva m !! gva (base i) = Some i;
  vi_lva : ∀ l i, byLva m !! l = Some i →
    lva (base i) = l ∧ byGva m !! gva (base i) = Some i;
  vi_lva_all : ∀ g i, byGva m !! g = Some i → lva (base i) ≠ 0 →
    byLva m !! lva (base i) = Some i;
  vi_apart : ∀ g i g' i', byGva m !! g = Some i → byGva m !! g' = Some i' → g ≠ g' →
    g_apart i i' ∧ l_apart i i';
}.

(** What the callers of AddVaInfo guarantee and the source does not check: a new
    segment does not wrap, does not overlap a segment of another memory type,
    and its local range does not overlap another local range, unless it is the
    same segment again. *)
Definition compatible (m : HybmVaManager) (info : AllocatedGvaInfo) : Prop :=
  seg_ok info ∧
  ∀ g i, byGva m !! g = Some i →
    (memType (base i) = memType (base info) ∧ info_eqb i info = true) ∨
    ((memType (base i) ≠ memType (base info) → g_apart i info) ∧ l_apart i info).

Lemma seg_End i : seg_ok i → End i = gva (base i) + bsize (base i).
Proof. intros (?&?&?&_). unfold End. apply u64_small. lia. Qed.

Lemma Contains_iff i x :
  seg_ok i → Contains i x = true ↔ gva (base i) ≤ x < gva (base i) + bsize (base i).
Proof.
  intros Hs. unfold Contains. fold (End i). rewrite seg_End by done.
  rewrite andb_true_iff, Z.leb_le, Z.ltb_lt. lia.
Qed.

Lemma ContainsByLva_iff i x :
  seg_ok i → ContainsByLva i x = true ↔
  lva (base i) ≠ 0 ∧ lva (base i) ≤ x < lva (base i) + bsize (base i).
Proof.
  intros (?&?&?&?&?&?). unfold ContainsByLva. destruct (lva (base i) =? 0) eqn:E; [lia|].
  rewrite u64_small by lia. rewrite andb_true_iff, Z.leb_le, Z.ltb_lt. lia.
Qed.

Lemma overlaps_iff g sz info :
  seg_ok info → 0 < sz → overlaps g (g + sz) info = true ↔
  g < gva (base info) + bsize (base info) ∧ gva (base info) < g + sz.
Proof.
  intros Hs Hsz. unfold overlaps. rewrite seg_End by done. destruct Hs as (?&?&_).
  rewrite orb_true_iff, !andb_true_iff, !Z.leb_le, !Z.ltb_lt. lia.
Qed.

Lemma info_eqb_iff i j :
  info_eqb i j = true ↔
  gva (base i) = gva (base j) ∧ bsize (base i) = bsize (base j) ∧ RankId i = RankId j.
Proof. unfold info_eqb. rewrite !andb_true_iff, !Z.eqb_eq. tauto. Qed.

(** *** CheckOverlap finds the segment of the same type that overlaps, if any. *)
Lemma CheckOverlap_spec m info :
  va_inv m → seg_ok info →
  match CheckOverlap m (gva (base info)) (bsize (base info)) (memType (base info)) with
  | (true, i) => byGva m !! gva (base i) = Some i ∧ memType (base i) = memType (base info) ∧
                 ¬ g_apart i info
  | (false, i) => i = defaultInfo ∧
      ∀ g i, byGva m !! g = Some i → memType (base i) = memType (base info) → g_apart i info
  end.
Proof.
  intros Hinv Hs. pose proof Hs as (?&?&?&_). unfold CheckOverlap.
  rewrite u64_small by lia.
  assert (∀ g i, byGva m !! g = Some i → memType (base i) = memType (base info) →
    ∃ l, byMemType m !! memType (base info) = Some l ∧ i ∈ l) as Hin.
  { intros g i Hg Ht. apply (vi_type _ Hinv). destruct (vi_gva _ Hinv _ _ Hg) as [-> _]. done. }
  destruct (byMemType m !! _) as [l|] eqn:El.
  - destruct (List.find _ l) as [i|] eqn:Ef.
    + apply List.find_some in Ef as [Hi Ho]. apply list_elem_of_In in Hi.
      destruct (proj1 (vi_type _ Hinv (memType (base info)) i)) as [Ht Hg]; [eauto|].
      split_and!; [done..|]. destruct (vi_gva _ Hinv _ _ Hg) as [_ Hsi].
      rewrite overlaps_iff in Ho by (done || lia). unfold g_apart. lia.
    + split; [done|]. intros g i Hg Ht. destruct (Hin _ _ Hg Ht) as (l' & [= <-] & Hil).
      apply list_elem_of_In in Hil. pose proof (List.find_none _ _ Ef _ Hil) as Hn.
      apply not_true_iff_false in Hn. destruct (vi_gva _ Hinv _ _ Hg) as [_ Hsi].
      rewrite overlaps_iff in Hn by (done || lia). unfold g_apart. lia.
  - split; [done|]. intros g i Hg Ht. by destruct (Hin _ _ Hg Ht) as (l' & ? & _).
Qed.

(** *** Adding *)
Definition add_segment (m : HybmVaManager) (info : AllocatedGvaInfo) : HybmVaManager :=
  with_alloc m
     (<[gva (base info) := info]> (byGva m))
     (<[lva (base info) := info]> (byLva m))
     (<[memType (base info) := default [] (byMemType m !! memType (base info)) ++ [info]]>
        (byMemType m)).

(** A segment apart from all others can be entered in the three indexes. *)
Lemma add_segment_inv m info :
  va_inv m → seg_ok info →
  (∀ g i, byGva m !! g = Some i → g_apart i info ∧ l_apart i info) →
  va_inv (add_segment m info).
Proof.
  intros Hinv Hs Hap. pose proof Hs as (Hg0 & Hsz & _).
  assert (byGva m !! gva (base info) = None) as Hnone.
  { destruct (byGva m !! gva (base info)) as [i|] eqn:E; [|done].
    destruct (vi_gva _ Hinv _ _ E) as [Hg (?&?&_)]. destruct (Hap _ _ E) as [[?|?] _]; lia. }
  assert (∀ g i, <[gva (base info) := info]> (byGva m) !! g = Some i ↔
    (g = gva (base info) ∧ i = info) ∨ (byGva m !! g = Some i ∧ g ≠ gva (base info))) as HG.
  { intros g i. rewrite lookup_insert. case_decide; naive_solver. }
  assert (∀ g i, byGva m !! g = Some i → gva (base i) ≠ gva (base info)) as Hne.
  { intros g i Hgi E. destruct (vi_gva _ Hinv _ _ Hgi) as [Hg _]. congruence. }
  destruct Hinv as [Hgva Hty Hlva Hall Hapart].
  split; unfold add_segment, with_alloc; cbn [byGva byLva byMemType].
  - intros g i [[-> ->]|[Hgi _]]%HG; [done|by apply Hgva].
  - intros t i. rewrite HG. split.
    + intros (l & Hl & Hi). rewrite lookup_insert in Hl. case_decide as Ht.
      * injection Hl as <-. apply elem_of_app in Hi as [Hi| ->%list_elem_of_singleton].
        -- destruct (byMemType m !! memType (base info)) as [l0|] eqn:El; [|by apply elem_of_nil in Hi].
           destruct (proj1 (Hty (memType (base info)) i)) as [? ?]; [eauto|].
           split; [congruence|]. right. split; [done|]. by eapply Hne.
        -- split; [done|]. by left.
      * destruct (proj1 (Hty t i)) as [? ?]; [eauto|]. split; [done|]. right. split; [done|].
        by eapply Hne.
    + intros [Ht [[_ ->]|[Hgi _]]].
      * rewrite Ht, lookup_insert_eq. eexists. split; [done|].
        apply elem_of_app. right. by apply list_elem_of_singleton.
      * destruct (proj2 (Hty t i)) as (l & Hl & Hi); [done|].
        rewrite lookup_insert. case_decide as E; [|eauto].
        subst. rewrite E, Hl. eexists. split; [done|]. apply elem_of_app. by left.
  - intros l i. rewrite lookup_insert. case_decide as El.
    + intros [= <-]. rewrite lookup_insert_eq. done.
    + intros Hl. destruct (Hlva _ _ Hl) as [? Hgi]. split; [done|].
      rewrite lookup_insert_ne; [done|]. intros E. by eapply Hne.
  - intros g i [[-> ->]|[Hgi _]]%HG Hnz; [by rewrite lookup_insert_eq|].
    rewrite lookup_insert_ne; [by eapply Hall|].
    destruct (Hap _ _ Hgi) as [_ [?|[?|?]]]; [done|lia|].
    destruct (Hgva _ _ Hgi) as [_ (?&?&_)]. lia.
  - intros g i g' i' [[-> ->]|[H1 _]]%HG [[-> ->]|[H2 _]]%HG Hd; [done| | |by eapply Hapart].
    + destruct (Hap _ _ H2) as [Ha Hb]. unfold g_apart, l_apart in *. lia.
    + by eapply Hap.
Qed.

Lemma AddVaInfo_inv m info m' ret :
  va_inv m → compatible m info → AddVaInfo m info = (m', ret) →
  va_inv m' ∧ (ret ≠ BM_OK → m' = m) ∧
  (ret = BM_OK → ∃ i, byGva m' !! gva (base info) = Some i ∧ info_eqb i info = true) ∧
  (ret = BM_OK ∨ ret = BM_ERROR) ∧
  (ret = BM_ERROR ↔ ∃ g i, byGva m !! g = Some i ∧ memType (base i) = memType (base info) ∧
     ¬ g_apart i info ∧ info_eqb i info = false) ∧
  (∀ g, g ≠ gva (base info) → byGva m' !! g = byGva m !! g).
Proof.
  intros Hinv [Hs Hc] Ha. pose proof Hs as (Hg0 & Hsz & ? & Hmt & _).
  unfold AddVaInfo in Ha.
  rewrite (proj2 (Z.eqb_neq _ _)), (proj2 (Z.eqb_neq (bsize _) _)),
    (proj2 (Z.leb_gt _ _)) in Ha by lia.
  pose proof (CheckOverlap_spec m info Hinv Hs) as Hco.
  destruct (CheckOverlap _ _ _ _) as [[] old]; cbn [fst snd] in Ha.
  - destruct Hco as (Hold & Hty & Hov). destruct (info_eqb old info) eqn:Heq; simplify_eq/=.
    + pose proof Heq as (E1 & E2 & E3)%info_eqb_iff. split_and!; [done..| | | |].
      * intros _. exists old. rewrite <- E1. done.
      * by left.
      * split; [done|]. intros (g & i & Hi & Ht & Hno & Hne). exfalso.
        destruct (vi_gva _ Hinv _ _ Hi) as [Hgi _].
        destruct (decide (g = gva (base old))) as [->|Hd]; [congruence|].
        destruct (vi_apart _ Hinv _ _ _ _ Hi Hold Hd) as [Hap _].
        apply Hno. unfold g_apart in *. lia.
      * done.
    + split_and!; [done..| | | |].
      * done.
      * by right.
      * split; [|done]. intros _. eauto 6.
      * done.
  - destruct Hco as [-> Hno]. assert (info_eqb defaultInfo info = false) as Heq.
    { apply not_true_iff_false. rewrite info_eqb_iff. cbn. lia. }
    rewrite Heq in Ha. simplify_eq/=. fold (add_segment m info).
    assert (∀ g i, byGva m !! g = Some i → g_apart i info ∧ l_apart i info) as Hap.
    { intros g i Hi. destruct (Hc _ _ Hi) as [[Ht Hq]|[Hd Hl]].
      - exfalso. destruct (vi_gva _ Hinv _ _ Hi) as [_ (?&?&_)].
        apply info_eqb_iff in Hq as (E1 & E2 & _).
        specialize (Hno _ _ Hi Ht). unfold g_apart in Hno. lia.
      - split; [|done]. destruct (decide (memType (base i) = memType (base info))); eauto. }
    split_and!.
    + by apply add_segment_inv.
    + done.
    + intros _. exists info. cbn. rewrite lookup_insert_eq. split; [done|]. by apply info_eqb_iff.
    + by left.
    + split; [done|]. intros (g & i & Hi & Ht & Hnap & _). destruct Hnap. by eapply Hno.
    + intros g Hd. cbn. by rewrite lookup_insert_ne.
Qed.

(** *** Lookups *)
Lemma last_gva_hit m g i x :
  va_inv m → byGva m !! g = Some i → g ≤ x < g + bsize (base i) →
  last_where (λ j, j <=? x) (byGva m) = Some (g, i).
Proof.
  intros Hinv Hg Hx. apply last_where_le_hit; [done|lia|]. intros j w Hj Hjx.
  destruct (decide (j = g)) as [->|Hd]; [lia|].
  destruct (vi_gva _ Hinv _ _ Hg) as [Hg1 (?&?&_)], (vi_gva _ Hinv _ _ Hj) as [Hg2 (?&?&_)].
  destruct (vi_apart _ Hinv _ _ _ _ Hg Hj ltac:(done)) as [[?|?] _]; lia.
Qed.

Lemma last_lva_hit m l i x :
  va_inv m → byLva m !! l = Some i → l ≠ 0 → l ≤ x < l + bsize (base i) →
  last_where (λ j, j <=? x) (byLva m) = Some (l, i).
Proof.
  intros Hinv Hl Hnz Hx. apply last_where_le_hit; [done|lia|]. intros j w Hj Hjx.
  destruct (vi_lva _ Hinv _ _ Hl) as [E1 Hg1], (vi_lva _ Hinv _ _ Hj) as [E2 Hg2].
  destruct (vi_gva _ Hinv _ _ Hg1) as [_ (?&?&?&?&?&?)], (vi_gva _ Hinv _ _ Hg2) as [_ (?&?&?&?&?&?)].
  destruct (decide (gva (base i) = gva (base w))) as [Ed|Hd].
  - rewrite Ed in Hg1. simplify_eq. lia.
  - destruct (vi_apart _ Hinv _ _ _ _ Hg1 Hg2 Hd) as [_ [?|[?|?]]]; lia.
Qed.

Lemma FindAllocByGva_hit m x i :
  va_inv m → FindAllocByGva m x = Some (i, true) ↔
  byGva m !! gva (base i) = Some i ∧ gva (base i) ≤ x < gva (base i) + bsize (base i).
Proof.
  intros Hinv. unfold FindAllocByGva. pose proof (at_or_before_spec (byGva m) x) as Hs.
  destruct (at_or_before (byGva m) x) as [j|]; cbn.
  - destruct Hs as (k0 & Hk & Hcase). destruct (vi_gva _ Hinv _ _ Hk) as [Eg Hseg].
    destruct (Contains j x) eqn:Ec.
    + rewrite Contains_iff in Ec by done. split.
      * intros [= ->]. rewrite Eg. split; [done|lia].
      * intros [Hi Hx]. pose proof (last_gva_hit _ _ _ _ Hinv Hi Hx) as H1.
        rewrite <- Eg in Hk. pose proof (last_gva_hit _ _ _ _ Hinv Hk Ec) as H2. congruence.
    + split; [done|]. intros [Hi Hx]. pose proof (last_gva_hit _ _ _ _ Hinv Hi Hx) as H1.
      destruct Hcase as [[_ H2]|[_ Hall]].
      * rewrite H1 in H2. simplify_eq. apply not_true_iff_false in Ec.
        by rewrite Contains_iff in Ec.
      * specialize (Hall _ _ Hi). lia.
  - split; [done|]. intros [Hi _]. by rewrite Hs, lookup_empty in Hi.
Qed.

(** The lookup reads through [end()] exactly when nothing is recorded. *)
Lemma FindAllocByGva_defined m x : FindAllocByGva m x = None ↔ byGva m = ∅.
Proof.
  unfold FindAllocByGva. pose proof (at_or_before_spec (byGva m) x) as Hs.
  destruct (at_or_before (byGva m) x) as [j|]; cbn; [|done].
  split; [done|]. intros E. destruct Hs as (k0 & Hk & _). by rewrite E, lookup_empty in Hk.
Qed.

Lemma GetLvaByGva_hit m i x :
  va_inv m → byGva m !! gva (base i) = Some i →
  gva (base i) ≤ x < gva (base i) + bsize (base i) →
  GetLvaByGva m x = lva (base i) + (x - gva (base i)).
Proof.
  intros Hinv Hi Hx. destruct (vi_gva _ Hinv _ _ Hi) as [_ Hs]. pose proof Hs as (?&?&?&?&?&?).
  unfold GetLvaByGva. rewrite (proj2 (Z.eqb_neq x 0)) by lia.
  pose proof (prev_upper_bound_last (byGva m) x) as Hp.
  rewrite (last_gva_hit _ _ _ _ Hinv Hi Hx) in Hp.
  destruct (iter_eqb _ _); [done|]. rewrite Hp.
  rewrite (proj2 (Contains_iff i x Hs)) by lia.
  rewrite !u64_small; rewrite ?u64_small; lia.
Qed.

Lemma GetGvaByLva_hit m i x :
  va_inv m → byGva m !! gva (base i) = Some i → lva (base i) ≠ 0 →
  lva (base i) ≤ x < lva (base i) + bsize (base i) →
  GetGvaByLva m x = gva (base i) + (x - lva (base i)).
Proof.
  intros Hinv Hi Hnz Hx. destruct (vi_gva _ Hinv _ _ Hi) as [_ Hs]. pose proof Hs as (?&?&?&?&?&?).
  pose proof (vi_lva_all _ Hinv _ _ Hi Hnz) as Hl.
  unfold GetGvaByLva. rewrite (proj2 (Z.eqb_neq x 0)) by lia.
  pose proof (prev_upper_bound_last (byLva m) x) as Hp.
  rewrite (last_lva_hit _ _ _ _ Hinv Hl Hnz Hx) in Hp.
  destruct (iter_eqb _ _); [done|]. rewrite Hp.
  rewrite (proj2 (ContainsByLva_iff i x Hs)) by done.
  rewrite !u64_small; rewrite ?u64_small; lia.
Qed.

Lemma IsGva_iff m x b :
  va_inv m → IsGva m x = Some b → 0 < x →
  b = true ↔ ∃ i, byGva m !! gva (base i) = Some i ∧
               gva (base i) ≤ x < gva (base i) + bsize (base i).
Proof.
  intros Hinv Hb Hx. pose proof (FindAllocByGva_hit m x) as Hh.
  unfold IsGva, FindAllocByGva in *. rewrite (proj2 (Z.eqb_neq _ _)) in Hb by lia.
  destruct (at_or_before (byGva m) x) as [j|]; cbn in *; [|done]. simplify_eq.
  split.
  - intros E. rewrite E in Hh. exists j. by apply Hh.
  - intros (i & Hi). apply (Hh i) in Hi; [|done]. by destruct (Contains j x).
Qed.

(** *** Removing *)
Definition remove_segment (m : HybmVaManager) (g : Z) (info : AllocatedGvaInfo) : HybmVaManager :=
  with_alloc m (delete g (byGva m))
    (match byLva m !! lva (base info) with
     | Some i => if gva (base i) =? g then delete (lva (base info)) (byLva m) else byLva m
     | None => byLva m
     end)
    (erase_type (byMemType m) (memType (base info)) g).

Lemma elem_of_erase_type t mt g t' i :
  (∃ l, erase_type t mt g !! t' = Some l ∧ i ∈ l) ↔
  (∃ l, t !! t' = Some l ∧ i ∈ l) ∧ (t' = mt → gva (base i) ≠ g).
Proof.
  unfold erase_type. destruct (t !! mt) as [l0|] eqn:E.
  - assert (∀ l', l' = List.filter (λ i, negb (gva (base i) =? g)) l0 →
      (i ∈ l' ↔ i ∈ l0 ∧ gva (base i) ≠ g)) as Hf.
    { intros l' ->. rewrite !list_elem_of_In, filter_In, negb_true_iff, Z.eqb_neq. done. }
    destruct (List.filter _ l0) as [|x l'] eqn:El.
    + specialize (Hf _ eq_refl). rewrite lookup_delete. case_decide as Ht.
      * subst. rewrite E. split; [naive_solver|]. intros [(l & [= <-] & Hi) Hn].
        exfalso. apply (not_elem_of_nil i). naive_solver.
      * naive_solver.
    + specialize (Hf _ eq_refl). rewrite lookup_insert. case_decide as Ht.
      * subst. rewrite E. split.
        -- intros (l & [= <-] & Hi). naive_solver.
        -- intros [(l & [= <-] & Hi) Hn]. naive_solver.
      * naive_solver.
  - split; [|naive_solver]. intros (l & Hl & Hi). split; [eauto|]. intros ->. congruence.
Qed.

Lemma remove_lva_lookup m g info l i :
  va_inv m → byGva m !! g = Some info →
  byLva (remove_segment m g info) !! l = Some i ↔ byLva m !! l = Some i ∧ i ≠ info.
Proof.
  intros Hinv Hg. unfold remove_segment; cbn. destruct (vi_gva _ Hinv _ _ Hg) as [Eg _].
  assert (byLva m !! l = Some i → gva (base i) = g → i = info) as Hu.
  { intros Hl Ei. destruct (vi_lva _ Hinv _ _ Hl) as [_ Hi]. rewrite Ei in Hi. congruence. }
  destruct (byLva m !! lva (base info)) as [j|] eqn:Ej.
  - destruct (gva (base j) =? g) eqn:E.
    + rewrite lookup_delete. case_decide as Hl.
      * subst. rewrite Ej. split; [done|]. intros [[= <-] Hne]. destruct Hne.
        destruct (vi_lva _ Hinv _ _ Ej) as [_ Hj]. assert (gva (base j) = gva (base info)) by lia.
        congruence.
      * split; [|tauto]. intros Hli. split; [done|]. intros ->.
        by destruct (vi_lva _ Hinv _ _ Hli) as [E1 _].
    + split; [|tauto]. intros Hli. split; [done|]. intros ->.
      destruct (vi_lva _ Hinv _ _ Hli) as [<- _]. rewrite Ej in Hli. simplify_eq. lia.
  - split; [|tauto]. intros Hli. split; [done|]. intros ->.
    destruct (vi_lva _ Hinv _ _ Hli) as [<- _]. congruence.
Qed.

Lemma remove_segment_inv m g info :
  va_inv m → byGva m !! g = Some info → va_inv (remove_segment m g info).
Proof.
  intros Hinv Hg. pose proof (vi_gva _ Hinv _ _ Hg) as [Eg _].
  assert (∀ x i, delete g (byGva m) !! x = Some i ↔ byGva m !! x = Some i ∧ x ≠ g) as HD.
  { intros x i. rewrite lookup_delete_Some. naive_solver. }
  assert (∀ x i, byGva m !! x = Some i → x ≠ g → i ≠ info) as Hne.
  { intros x i Hi Hx ->. destruct (vi_gva _ Hinv _ _ Hi). congruence. }
  split.
  - intros x i [Hi _]%HD. by apply (vi_gva _ Hinv).
  - intros t i. unfold remove_segment; cbn. rewrite elem_of_erase_type, (vi_type _ Hinv), HD.
    split; [|naive_solver]. intros [[Ht Hi] Hn]. split_and!; [done..|]. intros Ei.
    rewrite Ei, Hg in Hi. simplify_eq. by apply Hn.
  - intros l i [Hl Hni]%remove_lva_lookup; [|done..].
    destruct (vi_lva _ Hinv _ _ Hl) as [? Hi]. split; [done|]. apply HD. split; [done|].
    intros E. rewrite E in Hi. congruence.
  - intros x i [Hi Hx]%HD Hnz. apply remove_lva_lookup; [done..|]. split; [|by eapply Hne].
    by eapply (vi_lva_all _ Hinv).
  - intros x i x' i' [Hi _]%HD [Hi' _]%HD. by apply (vi_apart _ Hinv).
Qed.

Lemma RemoveOneVaInfo_cases m va m' :
  RemoveOneVaInfo m va = Some m' →
  m' = m ∨ ∃ g info, byGva m !! g = Some info ∧ m' = remove_segment m g info.
Proof.
  unfold RemoveOneVaInfo. destruct (IsGva m va) as [b|]; [|done].
  change (Some b ≫= ?f) with (f b). cbv beta zeta.
  set (g := if b then va else _). destruct (g =? 0); [intros [= <-]; by left|].
  destruct (byGva m !! g) as [info|] eqn:Hg; intros [= <-]; [right; by exists g, info|by left].
Qed.

Lemma RemoveOneVaInfo_gva m g info :
  va_inv m → byGva m !! g = Some info →
  RemoveOneVaInfo m g = Some (remove_segment m g info).
Proof.
  intros Hinv Hg. destruct (vi_gva _ Hinv _ _ Hg) as [Eg Hs]. pose proof Hs as (?&?&_).
  unfold RemoveOneVaInfo. destruct (IsGva m g) as [b|] eqn:Hb; cbn.
  - assert (b = true) as ->.
    { apply (IsGva_iff m g b Hinv Hb); [lia|]. exists info. rewrite Eg. split; [done|lia]. }
    rewrite (proj2 (Z.eqb_neq g 0)) by lia. rewrite Hg. done.
  - unfold IsGva in Hb. rewrite (proj2 (Z.eqb_neq g 0)) in Hb by lia.
    pose proof (at_or_before_spec (byGva m) g) as Hs'.
    destruct (at_or_before (byGva m) g); cbn in Hb; [done|]. by rewrite Hs', lookup_empty in Hg.
Qed.

(** ** Reserved ranges *)
Record res_inv (m : HybmVaManager) : Prop := {
  ri_bounds : 0 < reserveStart m < reserveEnd m ∧ reserveEnd m < 2 ^ 64;
  ri_range : ∀ a r, reserved m !! a = Some r →
    r_start r = a ∧ 0 < r_size r ∧ reserveStart m ≤ a ∧ a + r_size r ≤ reserveEnd m;
  ri_apart : ∀ a r a' r', reserved m !! a = Some r → reserved m !! a' = Some r' →
    a < a' → a + r_size r ≤ a';
}.

(** [sz] bytes at [x] are inside the reservable space and clear of every range. *)
Definition reservable (m : HybmVaManager) (x sz : Z) : Prop :=
  reserveStart m ≤ x ∧ x + sz ≤ reserveEnd m ∧
  ∀ a r, reserved m !! a = Some r → a + r_size r ≤ x ∨ x + sz ≤ a.

(** The scan stops at the first address from [c] on that is clear of the ranges. *)
Lemma scan_free_spec l sz c :
  0 < sz → 0 ≤ c → StronglySorted range_le l →
  (∀ f s, (f, s) ∈ l → f < 2 ^ 64) →
  match scan_free l sz c with
  | inl a => c ≤ a ∧ (∀ f s, (f, s) ∈ l → s ≤ a ∨ a + sz ≤ f) ∧
      (∃ f s, (f, s) ∈ l ∧ a + sz ≤ f) ∧
      ∀ b, c ≤ b < a → ∃ f s, (f, s) ∈ l ∧ f < b + sz ∧ b < s
  | inr a => c ≤ a ∧ (∀ f s, (f, s) ∈ l → s ≤ a) ∧
      (a = c ∨ ∃ f, (f, a) ∈ l) ∧
      ∀ b, c ≤ b < a → ∃ f s, (f, s) ∈ l ∧ f < b + sz ∧ b < s
  end.
Proof.
  intros Hsz Hc Hsort. revert c Hc.
  induction Hsort as [|[f s] l Hsort IH Hall]; intros c Hc Hb; cbn [scan_free].
  { split_and!; [lia| |by left|lia]. intros f s H. by apply elem_of_nil in H. }
  pose proof (Hb f s ltac:(left)) as Hf.
  destruct ((c <? f) && (sz <=? u64 (f - c))) eqn:E.
  - apply andb_true_iff in E as [E1 E2]. rewrite u64_small in E2 by lia.
    split_and!; [lia| | |lia].
    + intros f' s' [[= -> ->]|Hin]%elem_of_cons; [lia|].
      rewrite Forall_forall in Hall. specialize (Hall _ Hin). unfold range_le in Hall. cbn in Hall. lia.
    + exists f, s. split; [left|lia].
  - assert (f < c + sz) as Hlt.
    { apply andb_false_iff in E as [E|E]; [lia|].
      destruct (Z_lt_le_dec c f); [rewrite u64_small in E by lia|]; lia. }
    set (c' := if c <? s then s else c). assert (c ≤ c' ∧ s ≤ c' ∧ (c' = c ∨ c' = s)) as Hc'.
    { unfold c'. destruct (c <? s) eqn:?; lia. }
    assert (∀ b, c ≤ b < c' → ∃ f0 s0, (f0, s0) ∈ (f, s) :: l ∧ f0 < b + sz ∧ b < s0) as Hskip.
    { intros b Hbc. exists f, s. split; [left|lia]. }
    specialize (IH c' ltac:(lia) ltac:(intros; eapply Hb; right; eauto)).
    destruct (scan_free l sz c') as [a|a]; destruct IH as (Hca & Hcl & Hex & Hmin).
    + split_and!; [lia| | |].
      * intros f' s' [[= -> ->]|Hin]%elem_of_cons; [lia|eauto].
      * destruct Hex as (f' & s' & ? & ?). exists f', s'. split; [by right|done].
      * intros b Hba. destruct (Z_lt_le_dec b c'); [apply Hskip; lia|].
        destruct (Hmin b ltac:(lia)) as (f' & s' & ? & ?). exists f', s'. split; [by right|done].
    + split_and!; [lia| | |].
      * intros f' s' [[= -> ->]|Hin]%elem_of_cons; [lia|eauto].
      * destruct Hex as [->|(f' & ?)]; [|right; exists f'; by right].
        destruct Hc' as (_ & _ & [->| ->]); [by left|right; exists f; left].
      * intros b Hba. destruct (Z_lt_le_dec b c'); [apply Hskip; lia|].
        destruct (Hmin b ltac:(lia)) as (f' & s' & ? & ?). exists f', s'. split; [by right|done].
Qed.

#[local] Instance range_le_trans : Transitive range_le.
Proof. intros [] [] []. unfold range_le. cbn. lia. Qed.
#[local] Instance range_le_total : Total range_le.
Proof. intros [] []. unfold range_le. cbn. lia. Qed.

Lemma elem_of_used_ranges m f s :
  res_inv m →
  (f, s) ∈ used_ranges m (reserveStart m) (reserveEnd m) ↔
  ∃ r, reserved m !! f = Some r ∧ s = f + r_size r.
Proof.
  intros Hinv. pose proof (ri_bounds _ Hinv). unfold used_ranges. rewrite list_elem_of_fmap.
  split.
  - intros (r & Heq & Hin). injection Heq as -> ->.
    rewrite list_elem_of_In, filter_In, <- list_elem_of_In in Hin. destruct Hin as [Hin _].
    apply list_elem_of_fmap in Hin as ([a r'] & -> & Hin%elem_of_map_to_list). cbn.
    destruct (ri_range _ Hinv _ _ Hin) as (-> & ? & ? & ?). exists r'. split; [done|].
    unfold Reserved_End. destruct (ri_range _ Hinv _ _ Hin) as (-> & _). apply u64_small. lia.
  - intros (r & Hr & ->). destruct (ri_range _ Hinv _ _ Hr) as (Hs & ? & ? & ?).
    exists r. unfold Reserved_End. rewrite Hs, u64_small by lia. split; [done|].
    rewrite list_elem_of_In, filter_In, <- list_elem_of_In. split; [|lia].
    apply list_elem_of_fmap. exists (f, r). split; [done|]. by apply elem_of_map_to_list.
Qed.

Lemma FindFreeSpace_spec m sz :
  res_inv m → 0 < sz < 2 ^ 64 →
  match FindFreeSpace m (reserveStart m) (reserveEnd m) sz with
  | (a, true) => reservable m a sz ∧ ∀ b, reservable m b sz → a ≤ b
  | (_, false) => ∀ b, ¬ reservable m b sz
  end.
Proof.
  intros Hinv Hsz. pose proof (ri_bounds _ Hinv) as [Hb1 Hb2].
  pose proof (elem_of_used_ranges m) as Hu. unfold FindFreeSpace.
  rewrite (proj2 (Z.eqb_neq sz 0)), (proj2 (Z.leb_gt _ _)), u64_small by lia. cbn [orb].
  destruct (_ <? sz) eqn:Hbig.
  { intros b (?&?&_). lia. }
  destruct (used_ranges m _ _) as [|x l] eqn:El.
  { split; [|intros b (?&_); lia]. split_and!; [lia..|].
    intros a r Hr. exfalso. apply (not_elem_of_nil (a, a + r_size r)), Hu; eauto. }
  rewrite <- El in Hu |- *. clear El x l.
  set (l := merge_sort range_le _).
  assert (∀ f s, (f, s) ∈ l ↔ ∃ r, reserved m !! f = Some r ∧ s = f + r_size r) as Hl.
  { intros f s. unfold l. rewrite merge_sort_Permutation. by apply Hu. }
  assert (∀ f s, (f, s) ∈ l → f < 2 ^ 64) as Hl64.
  { intros f s (r & Hr & _)%Hl. pose proof (ri_range _ Hinv _ _ Hr). lia. }
  assert (StronglySorted range_le l) as Hsort by (apply StronglySorted_merge_sort; apply _).
  pose proof (scan_free_spec l sz (reserveStart m) ltac:(lia) ltac:(lia) Hsort Hl64) as Hscan.
  destruct (scan_free l sz _) as [a|a]; destruct Hscan as (Hca & Hcl & Hex & Hmin).
  - assert (∀ b, reservable m b sz → a ≤ b) as Hfirst.
    { intros b (Hb & _ & Hf). destruct (Z_lt_le_dec b a) as [Hlt|]; [|done].
      destruct (Hmin b ltac:(lia)) as (f & s & (r & Hr & ->)%Hl & ?).
      specialize (Hf _ _ Hr). lia. }
    split; [|done]. destruct Hex as (f & s & (r & Hr & ->)%Hl & Hfs).
    pose proof (ri_range _ Hinv _ _ Hr). split_and!; [lia..|].
    intros a' r' Hr'. destruct (Hcl a' (a' + r_size r')); [apply Hl; eauto|lia..].
  - assert (a ≤ reserveEnd m) as Hae.
    { destruct Hex as [->|(f & (r & Hr & ->)%Hl)]; [lia|].
      pose proof (ri_range _ Hinv _ _ Hr). lia. }
    assert (∀ b, reservable m b sz → a ≤ b) as Hfirst.
    { intros b (Hb & _ & Hf). destruct (Z_lt_le_dec b a) as [Hlt|]; [|done].
      destruct (Hmin b ltac:(lia)) as (f & s & (r & Hr & ->)%Hl & ?).
      specialize (Hf _ _ Hr). lia. }
    rewrite u64_small by lia. destruct (sz <=? reserveEnd m - a) eqn:Efit.
    + split; [|done]. split_and!; [lia..|]. intros a' r' Hr'. left.
      apply (Hcl a' (a' + r_size r')), Hl. eauto.
    + intros b Hb. pose proof (Hfirst b Hb). destruct Hb as (?&?&_). lia.
Qed.

Lemma AllocReserveGva_inv m rank sz mt m' r :
  res_inv m → 0 < sz < 2 ^ 64 → AllocReserveGva m rank sz mt = (m', r) →
  res_inv m' ∧
  (r = defaultReserved ∧ m' = m ∧ (∀ b, ¬ reservable m b sz) ∨
   r = mkReserved (r_start r) sz mt rank ∧ reservable m (r_start r) sz ∧
   (∀ b, reservable m b sz → r_start r ≤ b) ∧
   reserved m !! r_start r = None ∧ reserved m' = <[r_start r := r]> (reserved m)).
Proof.
  intros Hinv Hsz Ha. pose proof (FindFreeSpace_spec m sz Hinv Hsz) as Hf.
  unfold AllocReserveGva in Ha. rewrite (proj2 (Z.eqb_neq sz 0)) in Ha by lia.
  destruct (FindFreeSpace _ _ _ _) as [a []]; simplify_eq/=; [|eauto 6].
  destruct Hf as [Hra Hfirst]. pose proof Hra as (H1 & H2 & H3).
  assert (reserved m !! a = None) as Hnone.
  { destruct (reserved m !! a) as [r|] eqn:E; [|done].
    pose proof (ri_range _ Hinv _ _ E). specialize (H3 _ _ E). lia. }
  split; [|right; eauto 6]. split; cbn.
  - apply (ri_bounds _ Hinv).
  - intros x r. rewrite lookup_insert. case_decide; [intros [= <-]; cbn; lia|apply (ri_range _ Hinv)].
  - intros x r x' r'. rewrite !lookup_insert.
    repeat case_decide; intros Hx Hx' Hlt; simplify_eq/=; [lia|..].
    + pose proof (ri_range _ Hinv _ _ Hx'). specialize (H3 _ _ Hx'). lia.
    + pose proof (ri_range _ Hinv _ _ Hx). specialize (H3 _ _ Hx). lia.
    + by eapply (ri_apart _ Hinv).
Qed.

Lemma FreeReserveGva_inv m a : res_inv m → res_inv (FreeReserveGva m a).
Proof.
  intros Hinv. unfold FreeReserveGva. case_match; [done|]. case_match; [|done].
  split; cbn.
  - apply (ri_bounds _ Hinv).
  - intros x y [? ?]%lookup_delete_Some. by apply (ri_range _ Hinv).
  - intros x y x' y' [? ?]%lookup_delete_Some [? ?]%lookup_delete_Some. by eapply (ri_apart _ Hinv).
Qed.

(** ** Runs of the manager *)
Inductive va_step : HybmVaManager → HybmVaManager → Prop :=
| va_step_add m info m' ret :
    compatible m info → AddVaInfo m info = (m', ret) → va_step m m'
| va_step_remove m va m' : RemoveOneVaInfo m va = Some m' → va_step m m'
| va_step_reserve m rank sz mt m' r :
    0 < sz < 2 ^ 64 → AllocReserveGva m rank sz mt = (m', r) → va_step m m'
| va_step_free m a : va_step m (FreeReserveGva m a)
| va_step_clear m : va_step m (ClearAll m).

Definition va_ok (m : HybmVaManager) : Prop := va_inv m ∧ res_inv m.

(** The two halves of the state do not touch each other. *)
Lemma va_inv_ext m m' :
  byGva m' = byGva m → byLva m' = byLva m → byMemType m' = byMemType m → va_inv m → va_inv m'.
Proof. intros E1 E2 E3 []. split; rewrite ?E1, ?E2, ?E3; done. Qed.
Lemma res_inv_ext m m' :
  reserved m' = reserved m → reserveStart m' = reserveStart m → reserveEnd m' = reserveEnd m →
  res_inv m → res_inv m'.
Proof. intros E1 E2 E3 []. split; rewrite ?E1, ?E2, ?E3; done. Qed.

Lemma AddVaInfo_frame m info :
  reserved (AddVaInfo m info).1 = reserved m ∧
  reserveStart (AddVaInfo m info).1 = reserveStart m ∧
  reserveEnd (AddVaInfo m info).1 = reserveEnd m.
Proof. unfold AddVaInfo. repeat (case_match; cbn); done. Qed.

Lemma va_step_ok m m' : va_step m m' → va_ok m → va_ok m'.
Proof.
  intros Hs [Hv Hr]. split.
  - destruct Hs as [m info m' ret Hc E|m va m' E|m rank sz mt m' r Hsz E|m a|m].
    + by apply (AddVaInfo_inv _ _ _ _ Hv Hc E).
    + apply RemoveOneVaInfo_cases in E as [->|(g & info & Hg & ->)]; [done|].
      by apply remove_segment_inv.
    + revert E. unfold AllocReserveGva. repeat case_match; intros; simplify_eq; try done;
        by eapply va_inv_ext; [..|exact Hv].
    + unfold FreeReserveGva. repeat case_match; try done. by eapply va_inv_ext; [..|exact Hv].
    + split; intros; cbn in *; rewrite ?lookup_empty in *; naive_solver.
  - destruct Hs as [m info m' ret Hc E|m va m' E|m rank sz mt m' r Hsz E|m a|m].
    + pose proof (AddVaInfo_frame m info) as (?&?&?). rewrite E in *.
      by eapply res_inv_ext; [..|exact Hr].
    + apply RemoveOneVaInfo_cases in E as [->|(g & info & Hg & ->)]; [done|].
      by eapply res_inv_ext; [..|exact Hr].
    + by apply (AllocReserveGva_inv _ _ _ _ _ _ Hr Hsz E).
    + by apply FreeReserveGva_inv.
    + split; cbn; [apply (ri_bounds _ Hr)|..]; intros *; by rewrite lookup_empty.
Qed.

Lemma va_new_ok : va_ok va_new.
Proof.
  split; split; cbn; intros; rewrite ?lookup_empty in *;
    unfold HYBM_GVM_START_ADDR, HYBM_GVM_END_ADDR in *; naive_solver lia.
Qed.

Lemma va_run_ok m : rtc va_step va_new m → va_ok m.
Proof.
  intros Hr. assert (∀ a b, rtc va_step a b → va_ok a → va_ok b) as Hgen.
  { induction 1; eauto using va_step_ok. }
  eapply Hgen; eauto using va_new_ok.
Qed.

(** ** Runs with any segments *)

(** A range that does not wrap; nothing else is asked of a segment. *)
Definition no_wrap (i : AllocatedGvaInfo) : Prop :=
  0 ≤ gva (base i) ∧ 0 ≤ bsize (base i) ∧ gva (base i) + bsize (base i) < 2 ^ 64.
Inductive va_call : HybmVaManager → HybmVaManager → Prop :=
| va_call_add m info m' ret : no_wrap info → AddVaInfo m info = (m', ret) → va_call m m'
| va_call_remove m va m' : RemoveOneVaInfo m va = Some m' → va_call m m'
| va_call_reserve m rank sz mt m' r :
    0 ≤ sz < 2 ^ 64 → AllocReserveGva m rank sz mt = (m', r) → va_call m m'
| va_call_free m a : va_call m (FreeReserveGva m a)
| va_call_clear m : va_call m (ClearAll m).

Definition placed (i : AllocatedGvaInfo) : Prop := no_wrap i ∧ gva (base i) ≠ 0 ∧ bsize (base i) ≠ 0.
(** The segments listed under one memory type. *)
Definition listed (m : HybmVaManager) (t : Z) : list AllocatedGvaInfo := default [] (byMemType m !! t).
Definition pairwise {A} (R : A → A → Prop) (l : list A) : Prop :=
  ∀ a b x y, l !! a = Some x → l !! b = Some y → a ≠ b → R x y.
Record type_inv (m : HybmVaManager) : Prop := {
  ti_gva : ∀ g i, byGva m !! g = Some i → gva (base i) = g ∧ i ∈ listed m (memType (base i));
  ti_list : ∀ t i, i ∈ listed m t → memType (base i) = t ∧ placed i;
  ti_apart : ∀ t, pairwise g_apart (listed m t);
}.

Lemma pairwise_snoc {A} (R : A → A → Prop) l x :
  pairwise R l → (∀ y, y ∈ l → R y x ∧ R x y) → pairwise R (l ++ [x]).
Proof.
  intros Hl Hx a b y z [Ha|[Ha' Ha]]%lookup_app_Some [Hb|[Hb' Hb]]%lookup_app_Some Hne.
  - by apply (Hl a b).
  - apply list_lookup_singleton_Some in Hb as [_ <-]. apply Hx. by eapply list_elem_of_lookup_2.
  - apply list_lookup_singleton_Some in Ha as [_ <-]. apply Hx. by eapply list_elem_of_lookup_2.
  - apply list_lookup_singleton_Some in Ha as [? _], Hb as [? _]. lia.
Qed.
Lemma pairwise_cons {A} (R : A → A → Prop) x l : pairwise R (x :: l) → pairwise R l ∧ ∀ y, y ∈ l → R x y ∧ R y x.
Proof.
  intros H. split; [intros a b y z Ha Hb Hne; apply (H (S a) (S b)); [done..|lia]|].
  intros y [k Hk]%list_elem_of_lookup_1. split; [by apply (H 0%nat (S k))|by apply (H (S k) 0%nat)].
Qed.
Lemma pairwise_filter {A} (R : A → A → Prop) f (l : list A) : pairwise R l → pairwise R (List.filter f l).
Proof.
  induction l as [|x l IH]; [done|]. intros [Hl Hx]%pairwise_cons. cbn. destruct (f x); [|by apply IH].
  assert (∀ y, y ∈ List.filter f l → y ∈ l) as Hf by (intros y; rewrite !list_elem_of_In, filter_In; tauto).
  intros [|a] [|b] y z Ha Hb Hne; cbn in *; simplify_eq; [| |by eapply (IH Hl a b); [..|lia]].
  - apply Hx, Hf. by eapply list_elem_of_lookup_2.
  - apply Hx, Hf. by eapply list_elem_of_lookup_2.
Qed.

Lemma g_apart_sym i j : g_apart i j → g_apart j i.
Proof. unfold g_apart. lia. Qed.
Lemma overlaps_apart i info : placed i → placed info →
  overlaps (gva (base info)) (u64 (gva (base info) + bsize (base info))) i = true ↔ ¬ g_apart i info.
Proof.
  intros [(?&?&?) [? ?]] [(?&?&?) [? ?]]. unfold overlaps, End. rewrite !u64_small by lia.
  rewrite orb_true_iff, !andb_true_iff, !Z.leb_le, !Z.ltb_lt. unfold g_apart. lia.
Qed.
Lemma CheckOverlap_listed m info : type_inv m → placed info →
  match CheckOverlap m (gva (base info)) (bsize (base info)) (memType (base info)) with
  | (true, i) => i ∈ listed m (memType (base info)) ∧ ¬ g_apart i info
  | (false, i) => i = defaultInfo ∧ ∀ i, i ∈ listed m (memType (base info)) → g_apart i info
  end.
Proof.
  intros Hinv Hp. unfold CheckOverlap. pose proof (ti_list _ Hinv (memType (base info))) as Hl. unfold listed in *.
  destruct (byMemType m !! memType (base info)) as [l|]; cbn in *; [|split; [done|]; intros i Hi; by apply elem_of_nil in Hi].
  destruct (List.find _ l) as [i|] eqn:Ef.
  - apply List.find_some in Ef as [Hi Ho]. apply list_elem_of_In in Hi. split; [done|].
    apply overlaps_apart in Ho; [done|apply (Hl i Hi)|done].
  - split; [done|]. intros i Hi. pose proof (List.find_none _ _ Ef i ltac:(by apply list_elem_of_In)) as Hn.
    destruct (decide (gva (base i) + bsize (base i) ≤ gva (base info) ∨ gva (base info) + bsize (base info) ≤ gva (base i))) as [|Hov]; [done|].
    rewrite (proj2 (overlaps_apart i info (proj2 (Hl i Hi)) Hp)) in Hn; done.
Qed.
Lemma listed_add m info t :
  listed (add_segment m info) t = if decide (memType (base info) = t) then listed m t ++ [info] else listed m t.
Proof. unfold listed, add_segment. cbn. rewrite lookup_insert. case_decide as E; [by subst|done]. Qed.
Lemma listed_remove m g info t :
  listed (remove_segment m g info) t =
    if decide (t = memType (base info)) then List.filter (λ i, negb (gva (base i) =? g)) (listed m t) else listed m t.
Proof.
  unfold listed, remove_segment, erase_type. cbn. case_decide as E.
  - subst t. destruct (byMemType m !! memType (base info)) as [l|] eqn:El; [|by rewrite El].
    cbn. destruct (List.filter _ l) as [|x l'] eqn:Ef; [by rewrite lookup_delete_eq|by rewrite lookup_insert_eq].
  - destruct (byMemType m !! memType (base info)) as [l|]; [|done].
    destruct (List.filter _ l) as [|x l']; [by rewrite lookup_delete_ne|by rewrite lookup_insert_ne].
Qed.

Lemma add_segment_types m info : type_inv m → placed info →
  (∀ i, i ∈ listed m (memType (base info)) → g_apart i info) → type_inv (add_segment m info).
Proof.
  intros [Hg Hl Ha] Hp Hap. split.
  - intros g i. rewrite listed_add. unfold add_segment. cbn. rewrite lookup_insert. case_decide as E.
    + intros [= <-]. rewrite decide_True by done. set_solver.
    + intros Hi. destruct (Hg g i Hi) as [? ?]. split; [done|]. case_decide; [|done]. set_solver.
  - intros t i. rewrite listed_add. case_decide as E; [|by apply Hl].
    intros [Hi| ->%list_elem_of_singleton]%elem_of_app; [by apply Hl|done].
  - intros t. rewrite listed_add. case_decide as E; [|by apply Ha]. subst t. apply pairwise_snoc; [apply Ha|].
    intros y Hy. split; [by apply Hap|by apply g_apart_sym, Hap].
Qed.
Lemma AddVaInfo_types m info : type_inv m → no_wrap info →
  type_inv (AddVaInfo m info).1 ∧
  ((AddVaInfo m info).2 = BM_ERROR ↔ gva (base info) = 0 ∨ bsize (base info) ≠ 0 ∧ (HYBM_MEM_TYPE_BUTT ≤ memType (base info) ∨
     ∃ i, i ∈ listed m (memType (base info)) ∧ ¬ g_apart i info ∧ info_eqb i info = false)).
Proof.
  intros Hinv Hw. unfold AddVaInfo. destruct (Z.eqb_spec (gva (base info)) 0) as [|Hg]; [cbn; tauto|].
  destruct (Z.eqb_spec (bsize (base info)) 0) as [|Hs]; [cbn; split; [done|]; split; [done|naive_solver]|].
  destruct (Z.leb_spec HYBM_MEM_TYPE_BUTT (memType (base info))); [cbn; split; [done|]; split; [auto|done]|].
  assert (placed info) as Hp by done. pose proof (CheckOverlap_listed m info Hinv Hp) as Hco.
  destruct (CheckOverlap _ _ _ _) as [[] old]; cbn [fst snd andb].
  - destruct Hco as [Hin Hov]. destruct (info_eqb old info) eqn:E; cbn; split; [done| |done|].
    + split; [done|]. intros [?|[_ [?|(i & Hi & Hno & Hne)]]]; [done|lia|]. exfalso.
      apply info_eqb_iff in E as (E1 & E2 & E3).
      apply list_elem_of_lookup_1 in Hin as [a Hin], Hi as [b Hi].
      destruct (decide (a = b)) as [->|Hab]; [simplify_eq; apply not_true_iff_false in Hne; rewrite info_eqb_iff in Hne; naive_solver|].
      pose proof (ti_apart _ Hinv _ _ _ _ _ Hi Hin ltac:(done)) as Hap. unfold g_apart in *. lia.
    + split; [|done]. intros _. right. split; [done|]. right. by exists old.
  - destruct Hco as [-> Hno]. assert (info_eqb defaultInfo info = false) as ->.
    { apply not_true_iff_false. rewrite info_eqb_iff. cbn. lia. }
    cbn. fold (add_segment m info). split; [by apply add_segment_types|]. split; [done|].
    intros [?|[_ [?|(i & Hi & Hnap & _)]]]; [done|lia|]. by destruct (Hnap (Hno i Hi)).
Qed.
Lemma remove_segment_types m g info : type_inv m → byGva m !! g = Some info → type_inv (remove_segment m g info).
Proof.
  intros [Hg Hl Ha] Hi. split.
  - intros g' i. rewrite listed_remove. unfold remove_segment. cbn. intros [Hne Hi']%lookup_delete_Some.
    destruct (Hg g' i Hi') as [E Hin]. split; [done|]. case_decide; [|done].
    rewrite list_elem_of_In, filter_In, <- list_elem_of_In, negb_true_iff, Z.eqb_neq. split; [done|congruence].
  - intros t i. rewrite listed_remove. case_decide; [|by apply Hl].
    rewrite list_elem_of_In, filter_In, <- list_elem_of_In. intros [Hin _]. by apply Hl.
  - intros t. rewrite listed_remove. case_decide; [|by apply Ha]. by apply pairwise_filter.
Qed.
Lemma type_inv_ext m m' : byGva m' = byGva m → byMemType m' = byMemType m → type_inv m → type_inv m'.
Proof. intros E1 E2 [H1 H2 H3]. unfold listed in *. split; unfold listed; rewrite ?E1, ?E2; done. Qed.
Lemma type_inv_empty m : byGva m = ∅ → byMemType m = ∅ → type_inv m.
Proof.
  intros E1 E2. split; unfold listed; rewrite ?E1, ?E2; [intros g i; by rewrite lookup_empty| |].
  - intros t i. rewrite lookup_empty. cbn. by intros ?%elem_of_nil.
  - intros t a b x y. by rewrite lookup_empty.
Qed.

Definition va_safe (m : HybmVaManager) : Prop := type_inv m ∧ res_inv m.
Lemma va_call_safe m m' : va_call m m' → va_safe m → va_safe m'.
Proof.
  intros Hs [Hv Hr]. destruct Hs as [m info m' ret Hc E|m va m' E|m rank sz mt m' r Hsz E|m a|m].
  - pose proof (AddVaInfo_types m info Hv Hc) as [Ht _]. pose proof (AddVaInfo_frame m info) as (?&?&?). rewrite E in *.
    split; [done|]. by eapply res_inv_ext; [..|exact Hr].
  - apply RemoveOneVaInfo_cases in E as [->|(g & info & Hg & ->)]; [done|]. split; [by apply remove_segment_types|].
    by eapply res_inv_ext; [..|exact Hr].
  - destruct (decide (sz = 0)) as [->|]; [by injection E as <- _|]. split; [|by apply (AllocReserveGva_inv m rank sz mt m' r Hr ltac:(lia) E)].
    revert E. unfold AllocReserveGva. repeat case_match; intros; simplify_eq; try done; by eapply type_inv_ext; [..|exact Hv].
  - split; [|by apply FreeReserveGva_inv]. unfold FreeReserveGva. repeat case_match; try done. by eapply type_inv_ext; [..|exact Hv].
  - split; [by apply type_inv_empty|]. split; cbn; [apply (ri_bounds _ Hr)|..]; intros *; by rewrite lookup_empty.
Qed.
Lemma va_calls_safe m : rtc va_call va_new m → va_safe m.
Proof.
  intros Hr. assert (va_safe va_new) as H0 by (split; [by apply type_inv_empty|apply va_new_ok]).
  revert H0. induction Hr; eauto using va_call_safe.
Qed.

(** * Properties *)

(** C24: in every state reached from start-up by any calls, the segments added only
    with ranges that do not wrap: every recorded segment is listed under its memory
    type, the segments listed under one type never share a global address, so two
    recorded segments of the same type do not; a further segment is refused exactly
    when its address is null, or, its size not being null, its type is not known or
    it overlaps a listed segment of its type that is not the same one; and two
    reserved ranges never overlap and stay inside the reservable space. *)
Theorem va_run_disjoint m :
  rtc va_call va_new m →
  (∀ g i, byGva m !! g = Some i → gva (base i) = g ∧ i ∈ listed m (memType (base i))) ∧
  (∀ t, pairwise g_apart (listed m t)) ∧
  (∀ g i g' i', byGva m !! g = Some i → byGva m !! g' = Some i' → g ≠ g' →
     memType (base i) = memType (base i') → g_apart i i') ∧
  (∀ info, no_wrap info → (AddVaInfo m info).2 = BM_ERROR ↔
     gva (base info) = 0 ∨ bsize (base info) ≠ 0 ∧ (HYBM_MEM_TYPE_BUTT ≤ memType (base info) ∨
       ∃ i, i ∈ listed m (memType (base info)) ∧ ¬ g_apart i info ∧ info_eqb i info = false)) ∧
  (∀ a r a' r', reserved m !! a = Some r → reserved m !! a' = Some r' → a < a' →
     reserveStart m ≤ a ∧ a + r_size r ≤ a' ∧ a' + r_size r' ≤ reserveEnd m).
Proof.
  intros [Hv Hr]%va_calls_safe. split_and!.
  - apply (ti_gva _ Hv).
  - apply (ti_apart _ Hv).
  - intros g i g' i' [Eg Hi]%(ti_gva _ Hv) [Eg' Hi']%(ti_gva _ Hv) Hne Et. rewrite <- Et in Hi'.
    apply list_elem_of_lookup_1 in Hi as [a Ha], Hi' as [b Hb]. apply (ti_apart _ Hv (memType (base i)) a b); [done..|]. intros ->. congruence.
  - intros info Hw. by apply AddVaInfo_types.
  - intros a r a' r' H1 H2 Hlt. pose proof (ri_apart _ Hr _ _ _ _ H1 H2 Hlt).
    pose proof (ri_range _ Hr _ _ H1). pose proof (ri_range _ Hr _ _ H2). lia.
Qed.

(** When no segment is added that clashes with another memory type's or with another
    local range, no two recorded segments share a global or a local address and the
    type index lists exactly the recorded segments. *)
Theorem va_run_compatible m :
  rtc va_step va_new m →
  (∀ g i g' i', byGva m !! g = Some i → byGva m !! g' = Some i' → g ≠ g' →
     g_apart i i' ∧ l_apart i i') ∧
  (∀ i, (∃ l, byMemType m !! memType (base i) = Some l ∧ i ∈ l) ↔
     byGva m !! gva (base i) = Some i).
Proof.
  intros [Hv Hr]%va_run_ok. split; [apply (vi_apart _ Hv)|]. intros i. rewrite (vi_type _ Hv). tauto.
Qed.

(** A host segment and a device segment, added to the empty manager. *)
Definition seg1 : AllocatedGvaInfo :=
  mkInfo (mkBase 0x280000000000 0x200000 HYBM_MEM_TYPE_HOST 0x280000000000) false 0 INVALID_RANK_ID.
Definition seg2 : AllocatedGvaInfo :=
  mkInfo (mkBase 0x100000000000 0x200000 HYBM_MEM_TYPE_DEVICE 0x7f0000000000) true 0 INVALID_RANK_ID.
Definition two_segments : HybmVaManager := (AddVaInfo (AddVaInfo va_new seg1).1 seg2).1.

Lemma compatible_dec m info :
  seg_ok info →
  Forall (λ e : Z * AllocatedGvaInfo, g_apart e.2 info ∧ l_apart e.2 info) (map_to_list (byGva m)) →
  compatible m info.
Proof.
  intros Hs Hf. split; [done|]. intros g i Hi. right.
  rewrite Forall_forall in Hf. apply elem_of_map_to_list in Hi. specialize (Hf _ Hi). naive_solver.
Qed.

Lemma compatible_new info : seg_ok info → compatible va_new info.
Proof. intros Hs. split; [done|]. intros g i. cbn. by rewrite lookup_empty. Qed.

Lemma two_segments_run : rtc va_step va_new two_segments.
Proof.
  eapply rtc_l; [eapply (va_step_add _ seg1 (AddVaInfo va_new seg1).1 BM_OK)|].
  - apply compatible_new. unfold seg_ok; cbn; unfold HYBM_MEM_TYPE_BUTT, HYBM_MEM_TYPE_HOST; lia.
  - vm_compute. reflexivity.
  - eapply rtc_l, rtc_refl. eapply (va_step_add _ seg2 _ BM_OK).
    + apply compatible_dec; [unfold seg_ok; cbn; unfold HYBM_MEM_TYPE_BUTT, HYBM_MEM_TYPE_DEVICE; lia|].
      change (map_to_list _) with [(0x280000000000, seg1)].
      repeat constructor; unfold g_apart, l_apart; cbn; lia.
    + vm_compute. reflexivity.
Qed.

Lemma va_run_compatible_witness :
  g_apart seg2 seg1 ∧ l_apart seg2 seg1.
Proof.
  apply (proj1 (va_run_compatible two_segments two_segments_run)
    0x100000000000 seg2 0x280000000000 seg1); vm_compute; done.
Defined.

(** A second host segment, one that overlaps it, and a device segment on the same range. *)
Definition seg1' : AllocatedGvaInfo :=
  mkInfo (mkBase 0x280000200000 0x200000 HYBM_MEM_TYPE_HOST 0x280000200000) false 0 INVALID_RANK_ID.
Definition seg1_clash : AllocatedGvaInfo :=
  mkInfo (mkBase 0x280000100000 0x200000 HYBM_MEM_TYPE_HOST 0x280000100000) false 0 INVALID_RANK_ID.
Definition seg1_device : AllocatedGvaInfo :=
  mkInfo (mkBase 0x280000100000 0x200000 HYBM_MEM_TYPE_DEVICE 0) false 0 1.
Definition host_segments : HybmVaManager := (AddVaInfo (AddVaInfo va_new seg1).1 seg1').1.
Lemma va_run_disjoint_witness :
  g_apart seg1 seg1' ∧ (AddVaInfo host_segments seg1_clash).2 = BM_ERROR.
Proof.
  assert (rtc va_call va_new host_segments) as Hr.
  { eapply rtc_l; [apply (va_call_add _ seg1 (AddVaInfo va_new seg1).1 BM_OK); [unfold no_wrap; cbn; lia|vm_compute; reflexivity]|].
    eapply rtc_l, rtc_refl. apply (va_call_add _ seg1' _ BM_OK); [unfold no_wrap; cbn; lia|vm_compute; reflexivity]. }
  pose proof (va_run_disjoint host_segments Hr) as (_ & _ & Hap & Hadd & _). split.
  - apply (Hap 0x280000000000 seg1 0x280000200000 seg1'); vm_compute; done.
  - apply (proj2 (Hadd seg1_clash ltac:(unfold no_wrap; cbn; lia))). right. split; [vm_compute; discriminate|]. right.
    exists seg1. split_and!; [vm_compute; left|unfold g_apart; cbn; lia|vm_compute; reflexivity].
Defined.

(** Segments of different memory types are not compared: a device segment inside the
    range of a host segment is accepted, and the host segment is no longer found
    behind its start. *)
Theorem types_may_overlap :
  let m := (AddVaInfo va_new seg1).1 in
  (AddVaInfo m seg1_device).2 = BM_OK ∧ ¬ g_apart seg1 seg1_device ∧
  GetRank m 0x280000100000 = Some (0, true) ∧ GetRank (AddVaInfo m seg1_device).1 0x280000100000 = Some (1, true).
Proof. split_and!; [vm_compute; reflexivity|unfold g_apart; cbn; lia|vm_compute; reflexivity..]. Qed.

(** AddVaInfo answers an error exactly when the segment overlaps a recorded
    one of its memory type that is not the same segment, leaving the state as it
    was; otherwise the segment is recorded (once), the indexes stay consistent
    and no other entry changes. *)
Theorem AddVaInfo_decides m info m' ret :
  va_inv m → compatible m info → AddVaInfo m info = (m', ret) →
  va_inv m' ∧ (ret ≠ BM_OK → m' = m) ∧
  (ret = BM_OK → ∃ i, byGva m' !! gva (base info) = Some i ∧ info_eqb i info = true) ∧
  (ret = BM_OK ∨ ret = BM_ERROR) ∧
  (ret = BM_ERROR ↔ ∃ g i, byGva m !! g = Some i ∧ memType (base i) = memType (base info) ∧
     ¬ g_apart i info ∧ info_eqb i info = false) ∧
  (∀ g, g ≠ gva (base info) → byGva m' !! g = byGva m !! g).
Proof. apply AddVaInfo_inv. Qed.

Lemma AddVaInfo_decides_witness : ∃ i, byGva two_segments !! 0x100000000000 = Some i ∧ info_eqb i seg2 = true.
Proof.
  assert (compatible (AddVaInfo va_new seg1).1 seg2) as Hc.
  { apply compatible_dec; [unfold seg_ok; cbn; unfold HYBM_MEM_TYPE_BUTT, HYBM_MEM_TYPE_DEVICE; lia|].
    change (map_to_list _) with [(0x280000000000, seg1)].
    repeat constructor; unfold g_apart, l_apart; cbn; lia. }
  refine (proj1 (proj2 (proj2 (AddVaInfo_decides (AddVaInfo va_new seg1).1 seg2 two_segments BM_OK _ Hc _))) eq_refl).
  - refine (proj1 (va_run_ok _ _)). eapply rtc_l, rtc_refl. eapply (va_step_add _ seg1 _ BM_OK).
    + apply compatible_new. unfold seg_ok; cbn; unfold HYBM_MEM_TYPE_BUTT, HYBM_MEM_TYPE_HOST; lia.
    + vm_compute. reflexivity.
  - vm_compute. reflexivity.
Defined.

(** For a segment with a local address, the two translations are defined on
    each of its bytes and inverse to each other, and after RemoveOneVaInfo at its
    start exactly that segment is gone while the indexes stay consistent. *)
Theorem va_translate_roundtrip m i off :
  va_inv m → byGva m !! gva (base i) = Some i → lva (base i) ≠ 0 →
  0 ≤ off < bsize (base i) →
  GetLvaByGva m (gva (base i) + off) = lva (base i) + off ∧
  GetGvaByLva m (GetLvaByGva m (gva (base i) + off)) = gva (base i) + off ∧
  GetLvaByGva m (GetGvaByLva m (lva (base i) + off)) = lva (base i) + off ∧
  ∃ m', RemoveOneVaInfo m (gva (base i)) = Some m' ∧
        byGva m' = delete (gva (base i)) (byGva m) ∧ va_inv m'.
Proof.
  intros Hinv Hi Hnz Hoff.
  assert (GetLvaByGva m (gva (base i) + off) = lva (base i) + off) as E1.
  { rewrite (GetLvaByGva_hit m i) by (done || lia). lia. }
  assert (GetGvaByLva m (lva (base i) + off) = gva (base i) + off) as E2.
  { rewrite (GetGvaByLva_hit m i) by (done || lia). lia. }
  split_and!; [done|by rewrite E1|by rewrite E2|].
  eexists. split; [by apply RemoveOneVaInfo_gva|]. split; [done|]. by apply remove_segment_inv.
Qed.

Lemma va_translate_roundtrip_witness :
  GetGvaByLva two_segments (GetLvaByGva two_segments (gva (base seg2) + 16)) = 0x100000000010.
Proof.
  refine (proj1 (proj2 (va_translate_roundtrip two_segments seg2 16 _ _ _ _))).
  - exact (proj1 (va_run_ok _ two_segments_run)).
  - vm_compute. reflexivity.
  - vm_compute. discriminate.
  - cbn. lia.
Defined.

(** AllocReserveGva is first fit, sound and complete: it fails exactly when no
    address has enough free space up to the end of the reservable space, and
    otherwise reserves the lowest address that does. *)
Theorem AllocReserveGva_first_fit m rank sz mt m' r :
  res_inv m → 0 < sz < 2 ^ 64 → AllocReserveGva m rank sz mt = (m', r) →
  (r = defaultReserved ∧ m' = m ∧ (∀ b, ¬ reservable m b sz)) ∨
  (r = mkReserved (r_start r) sz mt rank ∧ reservable m (r_start r) sz ∧
   (∀ b, reservable m b sz → r_start r ≤ b) ∧
   reserved m' = <[r_start r := r]> (reserved m) ∧ res_inv m').
Proof.
  intros Hinv Hsz Ha. destruct (AllocReserveGva_inv _ _ _ _ _ _ Hinv Hsz Ha) as [Hi [?|?]];
    [by left|right; naive_solver].
Qed.

Lemma AllocReserveGva_first_fit_witness :
  reservable va_new HYBM_GVM_START_ADDR 0x40000000.
Proof.
  destruct (AllocReserveGva_first_fit va_new 0 0x40000000 HYBM_MEM_TYPE_HOST
    (AllocReserveGva va_new 0 0x40000000 HYBM_MEM_TYPE_HOST).1
    (mkReserved HYBM_GVM_START_ADDR 0x40000000 HYBM_MEM_TYPE_HOST 0)) as [(E & _)|(_ & Hr & _)].
  - apply va_new_ok.
  - lia.
  - vm_compute. reflexivity.
  - discriminate E.
  - exact Hr.
Defined.

(** A copy between two recorded segments gets the direction of their memory
    types, device or host, each on the global side. *)
Theorem InferCopyDirection_segments m i j x y :
  va_inv m → byGva m !! gva (base i) = Some i → byGva m !! gva (base j) = Some j →
  gva (base i) ≤ x < gva (base i) + bsize (base i) →
  gva (base j) ≤ y < gva (base j) + bsize (base j) →
  memType (base i) ∈ [HYBM_MEM_TYPE_DEVICE; HYBM_MEM_TYPE_HOST] →
  memType (base j) ∈ [HYBM_MEM_TYPE_DEVICE; HYBM_MEM_TYPE_HOST] →
  InferCopyDirection m x y = Some
    (if memType (base i) =? HYBM_MEM_TYPE_DEVICE then
       if memType (base j) =? HYBM_MEM_TYPE_DEVICE then HYBM_GLOBAL_DEVICE_TO_GLOBAL_DEVICE
       else HYBM_GLOBAL_DEVICE_TO_GLOBAL_HOST
     else
       if memType (base j) =? HYBM_MEM_TYPE_DEVICE then HYBM_GLOBAL_HOST_TO_GLOBAL_DEVICE
       else HYBM_GLOBAL_HOST_TO_GLOBAL_HOST).
Proof.
  intros Hinv Hi Hj Hx Hy Ti Tj.
  assert (∀ k z, byGva m !! gva (base k) = Some k →
    gva (base k) ≤ z < gva (base k) + bsize (base k) →
    GetMemType m z = Some (memType (base k))) as Hmt.
  { intros k z Hk Hz. pose proof (proj2 (FindAllocByGva_hit m z k Hinv) (conj Hk Hz)) as Hf.
    destruct (vi_gva _ Hinv _ _ Hk) as [_ (?&_)].
    unfold FindAllocByGva in Hf. unfold GetMemType. rewrite (proj2 (Z.eqb_neq z 0)) by lia.
    destruct (at_or_before (byGva m) z) as [w|]; cbn in *; [|done].
    destruct (Contains w z); cbn; by simplify_eq. }
  unfold InferCopyDirection, ClassifyAddress. rewrite (Hmt _ _ Hi Hx), (Hmt _ _ Hj Hy).
  rewrite !elem_of_cons in Ti, Tj.
  destruct Ti as [->|[->|[]%elem_of_nil]], Tj as [->|[->|[]%elem_of_nil]]; reflexivity.
Qed.

Lemma InferCopyDirection_segments_witness :
  InferCopyDirection two_segments 0x280000000100 0x100000000100
  = Some HYBM_GLOBAL_HOST_TO_GLOBAL_DEVICE.
Proof.
  refine (InferCopyDirection_segments two_segments seg1 seg2 _ _ _ _ _ _ _ _ _).
  - exact (proj1 (va_run_ok _ two_segments_run)).
  - vm_compute. reflexivity.
  - vm_compute. reflexivity.
  - cbn. lia.
  - cbn. lia.
  - cbn. right. left.
  - cbn. left.
Defined.

(** For imported memory, recorded with local address 0, GetLvaByGva answers
    the bare offset into the segment, which is not 0 and not a local address,
    although 0 is documented as the answer when there is no local address. *)
Theorem GetLvaByGva_imported m i off :
  va_inv m → byGva m !! gva (base i) = Some i → lva (base i) = 0 →
  0 < off < bsize (base i) → GetLvaByGva m (gva (base i) + off) = off.
Proof.
  intros Hinv Hi Hz Hoff. rewrite (GetLvaByGva_hit m i) by (done || lia). lia.
Qed.

Definition seg3 : AllocatedGvaInfo :=
  mkInfo (mkBase 0x290000000000 0x200000 HYBM_MEM_TYPE_HOST 0) false 0 1.
Lemma GetLvaByGva_imported_witness :
  GetLvaByGva (AddVaInfo va_new seg3).1 (gva (base seg3) + 4096) = 4096.
Proof.
  refine (GetLvaByGva_imported (AddVaInfo va_new seg3).1 seg3 4096 _ _ _ _).
  - refine (proj1 (va_run_ok _ _)). eapply rtc_l, rtc_refl. eapply (va_step_add _ seg3 _ BM_OK).
    + apply compatible_new. unfold seg_ok; cbn; unfold HYBM_MEM_TYPE_BUTT, HYBM_MEM_TYPE_HOST; lia.
    + vm_compute. reflexivity.
  - vm_compute. reflexivity.
  - reflexivity.
  - cbn. lia.
Defined.

(** GetMemType of a local address answers the type of the global segment
    that happens to precede it: here a registered device segment's local address
    is classified as host memory, so a copy from it gets the wrong direction. *)
Theorem GetMemType_lva_wrong :
  FindAllocByLva two_segments 0x7f0000000010 = Some (seg2, true) ∧
  memType (base seg2) = HYBM_MEM_TYPE_DEVICE ∧
  GetMemType two_segments 0x7f0000000010 = Some HYBM_MEM_TYPE_HOST ∧
  InferCopyDirection two_segments 0x7f0000000010 0x280000000000
    = Some HYBM_GLOBAL_HOST_TO_GLOBAL_HOST.
Proof. vm_compute. auto. Qed.

(** With no segment recorded, every lookup of a non-null address reads
    through the end iterator of an empty map: its answer is undefined. *)
Theorem lookup_empty_undefined m va :
  byGva m = ∅ → va ≠ 0 →
  IsGva m va = None ∧ GetMemType m va = None ∧ GetRank m va = None ∧
  FindAllocByGva m va = None ∧ IsValidAddr m va = None ∧ RemoveOneVaInfo m va = None ∧
  ∀ va', InferCopyDirection m va va' = None.
Proof.
  intros E Hva. apply Z.eqb_neq in Hva.
  assert (at_or_before (byGva m) va = None) as Hn by (rewrite E; reflexivity).
  unfold IsValidAddr, RemoveOneVaInfo, InferCopyDirection, ClassifyAddress, IsGva, GetMemType,
    GetRank, FindAllocByGva. rewrite Hva, Hn. done.
Qed.

Lemma lookup_empty_undefined_witness : IsGva va_new 4096 = None.
Proof. refine (proj1 (lookup_empty_undefined va_new 4096 _ _)); [reflexivity|lia]. Defined.
