(* ===== verification/MemSlice.v ===== *)
(** * Memory slices and exchange information

    src/src/hybm/csrc/mm/hybm_mem_slice, hybm_ex_info_transfer.h: the handle of a
    slice packs its fields into one word, descriptions travel as the bytes of a
    structure in a buffer of 512 bytes that is written and read in pieces.  An
    access behind the buffer is [None]. *)
From Stdlib Require Import Strings.Byte.
From stdpp Require Import base numbers list.
From S2P Require Import Prelude.
Local Open Scope Z_scope.

(** ** Slices *)
Inductive MemType := MEM_TYPE_HOST_DRAM | MEM_TYPE_DEVICE_HBM | MEM_TYPE_BUTT.
Inductive MemPageTblType := MEM_PT_TYPE_SVM | MEM_PT_TYPE_GVM | MEM_PT_TYPE_HYM | MEM_PT_TYPE_BUTT.
#[global] Instance MemType_eq_dec : EqDecision MemType.
Proof. solve_decision. Defined.
#[global] Instance MemPageTblType_eq_dec : EqDecision MemPageTblType.
Proof. solve_decision. Defined.
Definition mem_type_code (t : MemType) : Z :=
  match t with MEM_TYPE_HOST_DRAM => 0 | MEM_TYPE_DEVICE_HBM => 1 | MEM_TYPE_BUTT => 2 end.
Definition page_type_code (t : MemPageTblType) : Z :=
  match t with MEM_PT_TYPE_SVM => 0 | MEM_PT_TYPE_GVM => 1 | MEM_PT_TYPE_HYM => 2 | MEM_PT_TYPE_BUTT => 3 end.

(** [this] is the address of the object, by which shared pointers are compared. *)
Record MemSlice := mkSlice {
  this : Z;
  index_ : Z;
  memType_ : MemType;
  memPageTblType_ : MemPageTblType;
  vAddress_ : Z;
  size_ : Z;
}.
#[global] Instance MemSlice_eq_dec : EqDecision MemSlice.
Proof. solve_decision. Defined.

Definition gMagicBits : Z := 0xFFFFFFFFFF.
Definition MakeObjectMagic (srcAddress : Z) : Z := Z.land srcAddress gMagicBits + 40.
(** A bit-field of 40 bits. *)
Definition magic_ (s : MemSlice) : Z := MakeObjectMagic (this s) mod 2 ^ 40.

Definition ConvertToId (s : MemSlice) : Z :=
  Z.lor (Z.lor (Z.lor (magic_ s) (Z.shiftl (index_ s) 40)) (Z.shiftl (mem_type_code (memType_ s)) 56))
    (Z.shiftl (page_type_code (memPageTblType_ s)) 60).
Definition ValidateId (s : MemSlice) (slice : Z) : bool := slice =? ConvertToId s.
Definition GetIndexFrom (slice : Z) : Z := Z.land (Z.shiftr slice 40) 0xFFFF.

(** ** Exchange information *)
Definition DESC_SIZE : Z := 512.
(** The whole array, and how many bytes of it are in use. *)
Record hybm_exchange_info := mkEx { desc : bytes; descLen : Z }.

Definition Writer_new (info : hybm_exchange_info) : hybm_exchange_info := mkEx (desc info) 0.
Definition Writer_Append (info : hybm_exchange_info) (data : bytes) : option (hybm_exchange_info * Z) :=
  if DESC_SIZE <? descLen info then Some (info, -1) else
  if descLen info + len data <=? DESC_SIZE then
    let off := Z.to_nat (descLen info) in
    Some (mkEx (take off (desc info) ++ data ++ drop (off + List.length data) (desc info))
            (u32 (descLen info + len data)), 0)
  else None.

Record ExchangeInfoReader := mkReader { exchangeInfo_ : option hybm_exchange_info; readOffset_ : Z }.
Definition Reader_new (info : option hybm_exchange_info) : ExchangeInfoReader := mkReader info 0.
Definition Reader_Reset (r : ExchangeInfoReader) (info : option hybm_exchange_info) : ExchangeInfoReader :=
  mkReader (if info is Some i then Some i else exchangeInfo_ r) 0.
(** The bytes at the offset; [Some (inl -1)] when there are too few. *)
Definition Reader_Test (r : ExchangeInfoReader) (length : Z) : option (Z + bytes) :=
  match exchangeInfo_ r with
  | None => Some (inl (-1))
  | Some info =>
      if descLen info <? u64 (readOffset_ r + length) then Some (inl (-1)) else
      if readOffset_ r + length <=? DESC_SIZE
      then Some (inr (take (Z.to_nat length) (drop (Z.to_nat (readOffset_ r)) (desc info))))
      else None
  end.
Definition Reader_Read (r : ExchangeInfoReader) (length : Z) : option (ExchangeInfoReader * (Z + bytes)) :=
  x ← Reader_Test r length;
  Some (match x with
        | inl e => (r, inl e)
        | inr b => (mkReader (exchangeInfo_ r) (u32 (readOffset_ r + length)), inr b)
        end).
Definition Reader_LeftBytes (r : ExchangeInfoReader) : Z :=
  match exchangeInfo_ r with
  | None => 0
  | Some info => if descLen info <=? readOffset_ r then 0 else descLen info - readOffset_ r
  end.
Definition Reader_LeftToString (r : ExchangeInfoReader) : option (ExchangeInfoReader * bytes) :=
  match exchangeInfo_ r with
  | None => Some (r, [])
  | Some info =>
      if descLen info <=? readOffset_ r then Some (r, []) else
      if descLen info <=? DESC_SIZE then
        Some (mkReader (exchangeInfo_ r) (descLen info),
              take (Z.to_nat (descLen info - readOffset_ r)) (drop (Z.to_nat (readOffset_ r)) (desc info)))
      else None
  end.

(** * Lemmas *)

(** ** Handles *)
Definition slice_wf (s : MemSlice) : Prop := 0 ≤ this s < 2 ^ 64 ∧ 0 ≤ index_ s < 2 ^ 16.
Lemma magic_range s : 0 ≤ magic_ s < 2 ^ 40.
Proof. unfold magic_. apply Z.mod_pos_bound. lia. Qed.
Lemma lor_disjoint a b n : 0 ≤ n → 0 ≤ a < 2 ^ n → Z.lor a (Z.shiftl b n) = a + b * 2 ^ n.
Proof.
  intros Hn Ha. rewrite <- Z.shiftl_mul_pow2 by done. symmetry. apply Z.add_nocarry_lor.
  apply Z.bits_inj'. intros i Hi. rewrite Z.land_spec, Z.bits_0, Z.shiftl_spec by done.
  destruct (Z.lt_ge_cases i n).
  - rewrite (Z.testbit_neg_r b) by lia. apply andb_false_r.
  - destruct (decide (a = 0)) as [->|]; [by rewrite Z.bits_0|].
    rewrite (Z.bits_above_log2 a); [done|lia|]. apply Z.log2_lt_pow2; [lia|].
    eapply Z.lt_le_trans; [apply Ha|]. apply Z.pow_le_mono_r; lia.
Qed.
Lemma ConvertToId_sum s : slice_wf s →
  ConvertToId s = magic_ s + index_ s * 2 ^ 40 + mem_type_code (memType_ s) * 2 ^ 56 +
    page_type_code (memPageTblType_ s) * 2 ^ 60.
Proof.
  intros [_ Hi]. pose proof (magic_range s). unfold ConvertToId.
  assert (0 ≤ mem_type_code (memType_ s) < 2 ^ 4) by (by destruct (memType_ s)).
  rewrite (lor_disjoint (magic_ s)) by lia. rewrite (lor_disjoint (magic_ s + _)) by lia.
  by rewrite lor_disjoint by lia.
Qed.

(** The handle gives back the index and the types, and tells objects apart as far
    as the low 40 bits of their addresses do. *)
Lemma ConvertToId_fields s : slice_wf s →
  GetIndexFrom (ConvertToId s) = index_ s ∧ 0 ≤ ConvertToId s < 2 ^ 62.
Proof.
  intros Hs. rewrite ConvertToId_sum by done. pose proof (magic_range s). destruct Hs as [_ Hi].
  assert (0 ≤ mem_type_code (memType_ s) < 2 ^ 4) as Hm by (by destruct (memType_ s)).
  assert (0 ≤ page_type_code (memPageTblType_ s) < 2 ^ 2) as Hp by (by destruct (memPageTblType_ s)).
  set (v := _ + _ + _ + _). split; [|unfold v in *; lia].
  unfold GetIndexFrom. rewrite Z.shiftr_div_pow2 by lia. change 0xFFFF with (Z.ones 16). rewrite Z.land_ones by lia.
  assert (v / 2 ^ 40 = index_ s + (mem_type_code (memType_ s) + page_type_code (memPageTblType_ s) * 2 ^ 4) * 2 ^ 16) as ->.
  { symmetry. apply Z.div_unique with (magic_ s); unfold v; lia. }
  rewrite Z.mod_add by lia. apply Z.mod_small. lia.
Qed.
Lemma ConvertToId_inj s s' : slice_wf s → slice_wf s' → ConvertToId s = ConvertToId s' →
  index_ s = index_ s' ∧ magic_ s = magic_ s' ∧ memType_ s = memType_ s' ∧ memPageTblType_ s = memPageTblType_ s'.
Proof.
  intros Hs Hs'. rewrite !ConvertToId_sum by done. pose proof (magic_range s). pose proof (magic_range s').
  destruct Hs as [_ Hi], Hs' as [_ Hi']. intros E.
  assert (index_ s = index_ s' ∧ magic_ s = magic_ s' ∧ mem_type_code (memType_ s) = mem_type_code (memType_ s') ∧
    page_type_code (memPageTblType_ s) = page_type_code (memPageTblType_ s')) as (-> & -> & Em & Ep).
  { assert (0 ≤ mem_type_code (memType_ s) < 2 ^ 4) by (by destruct (memType_ s)).
    assert (0 ≤ mem_type_code (memType_ s') < 2 ^ 4) by (by destruct (memType_ s')). lia. }
  split_and!; [done|done|by destruct (memType_ s), (memType_ s')|by destruct (memPageTblType_ s), (memPageTblType_ s')].
Qed.

(** ** Writing and reading *)
Fixpoint write_all (info : hybm_exchange_info) (chunks : list bytes) : option (hybm_exchange_info * Z) :=
  match chunks with
  | [] => Some (info, 0)
  | c :: cs => x ← Writer_Append info c; if x.2 =? 0 then write_all x.1 cs else Some x
  end.
Fixpoint read_all (r : ExchangeInfoReader) (lengths : list Z) : option (ExchangeInfoReader * (Z + list bytes)) :=
  match lengths with
  | [] => Some (r, inr [])
  | n :: ns =>
      x ← Reader_Read r n;
      match x with
      | (r, inl e) => Some (r, inl e)
      | (r, inr b) => y ← read_all r ns; Some (y.1, match y.2 with inl e => inl e | inr bs => inr (b :: bs) end)
      end
  end.

Definition ex_ok (i : hybm_exchange_info) : Prop := len (desc i) = DESC_SIZE ∧ 0 ≤ descLen i ≤ DESC_SIZE.
Definition used (i : hybm_exchange_info) : bytes := take (Z.to_nat (descLen i)) (desc i).

Lemma append_used i c : ex_ok i → descLen i + len c ≤ DESC_SIZE →
  ∃ i', Writer_Append i c = Some (i', 0) ∧ ex_ok i' ∧ used i' = used i ++ c ∧ descLen i' = descLen i + len c.
Proof.
  intros [Hd Hl] Hc. unfold Writer_Append. destruct (Z.ltb_spec DESC_SIZE (descLen i)); [lia|].
  destruct (Z.leb_spec (descLen i + len c) DESC_SIZE); [|lia]. eexists. split; [done|].
  pose proof (len_nonneg c). unfold ex_ok, used. cbn [desc descLen].
  rewrite u32_small by (unfold DESC_SIZE in *; lia). unfold len in *. rewrite !length_app, length_take, length_drop.
  split_and!; [lia..| |done].
  rewrite app_assoc, take_app_length'; [done|]. rewrite length_app, length_take. lia.
Qed.
Lemma write_all_used i cs : ex_ok i → descLen i + len (concat cs) ≤ DESC_SIZE →
  ∃ i', write_all i cs = Some (i', 0) ∧ ex_ok i' ∧ used i' = used i ++ concat cs ∧ descLen i' = descLen i + len (concat cs).
Proof.
  revert i. induction cs as [|c cs IH]; intros i Hi Hc; cbn [write_all concat] in *.
  { exists i. rewrite app_nil_r. split_and!; [done..|unfold len; cbn; lia]. }
  rewrite len_app in Hc. pose proof (len_nonneg (concat cs)).
  destruct (append_used i c Hi) as (i1 & -> & Hi1 & U1 & L1); [lia|]. cbn.
  destruct (IH i1 Hi1) as (i2 & -> & Hi2 & U2 & L2); [lia|]. exists i2. rewrite U2, U1, L2, L1, len_app, app_assoc.
  split_and!; [done..|lia].
Qed.
Lemma read_used i off n c : ex_ok i → 0 ≤ off → off + len c ≤ descLen i → n = len c →
  (∃ pre post, used i = pre ++ c ++ post ∧ len pre = off) →
  Reader_Read (mkReader (Some i) off) n = Some (mkReader (Some i) (off + len c), inr c).
Proof.
  intros [Hd Hl] Ho Hc -> (pre & post & Eu & Ep). unfold Reader_Read, Reader_Test. cbn [exchangeInfo_ readOffset_].
  pose proof (len_nonneg c). unfold DESC_SIZE in *. rewrite u64_small, u32_small by lia.
  destruct (Z.ltb_spec (descLen i) (off + len c)); [lia|]. destruct (Z.leb_spec (off + len c) 512); [|lia]. cbn. do 3 f_equal.
  assert (drop (Z.to_nat off) (used i) = c ++ post) as Ed.
  { rewrite Eu. apply drop_app_length'. unfold len in Ep. lia. }
  unfold used in Ed. rewrite skipn_firstn_comm in Ed. unfold len in *.
  assert (take (Z.to_nat (Z.of_nat (List.length c))) (take (Z.to_nat (descLen i) - Z.to_nat off) (drop (Z.to_nat off) (desc i))) = c) as E2.
  { rewrite Ed. rewrite Nat2Z.id. by rewrite take_app_length. }
  rewrite take_take in E2. rewrite Nat.min_l in E2 by lia. done.
Qed.
Lemma read_all_used i cs pre post : ex_ok i → used i = pre ++ concat cs ++ post →
  read_all (mkReader (Some i) (len pre)) (len <$> cs) = Some (mkReader (Some i) (len pre + len (concat cs)), inr cs).
Proof.
  intros Hi. revert pre. induction cs as [|c cs IH]; intros pre Eu; cbn [concat read_all fmap list_fmap] in *.
  { by rewrite Z.add_0_r. }
  assert (len pre + len c + len (concat cs) ≤ descLen i) as Hlen.
  { assert (len (used i) = descLen i) as <-.
    { unfold used, len. rewrite length_take. destruct Hi as [Hd Hl]. unfold len in Hd. lia. }
    rewrite Eu, !len_app. pose proof (len_nonneg post). lia. }
  pose proof (len_nonneg (concat cs)). pose proof (len_nonneg pre).
  rewrite (read_used i (len pre) (len c) c); [|done|done|lia|done|].
  2: { exists pre, (concat cs ++ post). by rewrite Eu, <- !app_assoc. }
  cbn [mbind option_bind]. rewrite <- len_app. rewrite (IH (pre ++ c)) by (by rewrite Eu, <- !app_assoc).
  cbn. by rewrite !len_app, Z.add_assoc.
Qed.

(** Pieces of at most 512 bytes in all, written one after the other into the
    exchange information, are read back exactly by a reader that asks for their
    lengths, and nothing is left. *)
Theorem exchange_roundtrip i chunks :
  len (desc i) = DESC_SIZE → len (concat chunks) ≤ DESC_SIZE →
  ∃ i', write_all (Writer_new i) chunks = Some (i', 0) ∧
    let '(r, x) := default (Reader_new None, inl (-1)) (read_all (Reader_new (Some i')) (len <$> chunks)) in
    x = inr chunks ∧ Reader_LeftBytes r = 0 ∧ Reader_LeftToString r = Some (r, []).
Proof.
  intros Hd Hc. destruct (write_all_used (Writer_new i) chunks) as (i' & Ew & Hi & Hu & Hl); [|cbn; lia|].
  { unfold ex_ok, Writer_new, DESC_SIZE in *. cbn. lia. }
  exists i'. split; [done|]. cbn [Writer_new descLen] in Hl. rewrite Z.add_0_l in Hl.
  pose proof (read_all_used i' chunks [] []) as Hr. cbn [app] in Hr. rewrite app_nil_r in Hr.
  unfold Reader_new. change (len []) with 0 in Hr. rewrite Hr; [|done|by rewrite Hu].
  cbn [default from_option id]. unfold Reader_LeftBytes, Reader_LeftToString. cbn [exchangeInfo_ readOffset_].
  rewrite Z.add_0_l, Hl. by rewrite Z.leb_refl.
Qed.
Lemma exchange_roundtrip_witness : ∃ i', write_all (Writer_new (mkEx (repeat "000"%byte 512) 7)) [["a"%byte]; ["b"%byte; "c"%byte]] = Some (i', 0) ∧
  descLen i' = 3.
Proof.
  destruct (exchange_roundtrip (mkEx (repeat "000"%byte 512) 7) [["a"%byte]; ["b"%byte; "c"%byte]]) as (i' & E & _).
  - reflexivity.
  - vm_compute. discriminate.
  - exists i'. split; [exact E|]. vm_compute in E. injection E as <-. reflexivity.
Defined.

(** The writer tests the bytes already in use and not those to be added: a piece that
    does not fit is copied over what follows the buffer. *)
Theorem append_overflows i data :
  0 ≤ descLen i ≤ DESC_SIZE → DESC_SIZE < descLen i + len data → Writer_Append i data = None.
Proof.
  intros Hl Hd. unfold Writer_Append. destruct (Z.ltb_spec DESC_SIZE (descLen i)); [lia|].
  destruct (Z.leb_spec (descLen i + len data) DESC_SIZE); [lia|done].
Qed.
