(* ===== verification/SmemTypes.v ===== *)
(** * Types of the smem interface (src/src/smem/include/host/smem_bm_def.h, csrc/common/smem_types.h) *)
From stdpp Require Import base numbers.
Local Open Scope Z_scope.

Inductive smem_bm_copy_type :=
| SMEMB_COPY_L2G | SMEMB_COPY_G2L | SMEMB_COPY_G2H | SMEMB_COPY_H2G | SMEMB_COPY_L2GH | SMEMB_COPY_GH2L
| SMEMB_COPY_GH2H | SMEMB_COPY_H2GH | SMEMB_COPY_G2G | SMEMB_COPY_AUTO | SMEMB_COPY_BUTT.
Inductive smem_bm_mem_type :=
| SMEM_MEM_TYPE_LOCAL_DEVICE | SMEM_MEM_TYPE_LOCAL_HOST | SMEM_MEM_TYPE_DEVICE | SMEM_MEM_TYPE_HOST | SMEM_MEM_TYPE_BUTT.
Definition SMEMB_DATA_OP_SDMA : Z := 1.
Definition SMEMB_DATA_OP_HOST_RDMA : Z := Z.shiftl 1 1.
Definition SMEMB_DATA_OP_HOST_TCP : Z := Z.shiftl 1 2.
Definition SMEMB_DATA_OP_DEVICE_RDMA : Z := Z.shiftl 1 3.
Definition SMEMB_DATA_OP_HOST_URMA : Z := Z.shiftl 1 4.
Definition SMEM_BM_FLAG_CREATE_WITH_SHM : Z := Z.shiftl 1 8.
Definition SMEM_DEFAUT_WAIT_TIME : Z := 120.
Definition SMEM_ID_MAX : Z := 63.
Definition SMEM_LOCAL_HBM_SIZE_MAX : Z := Z.shiftl 64 30.
Definition SMEM_LOCAL_DRAM_SIZE_MAX : Z := Z.shiftl 2 40.
Definition SMEM_WORLD_SIZE_MAX : Z := 1024.
Definition SECOND_TO_MILLSEC : Z := 1000.
