(* ===== verification/ConnSegment.v ===== *)
(** * The connection based memory segment

    src/src/hybm/csrc/mm/hybm_conn_based_segment: host memory of all ranks in one
    reserved range of global addresses, a part of equal size for each rank.  A
    rank maps slices of its own part one behind the other, exports them, and
    records those it imports from other ranks in the address manager.

    The address manager is the process-wide object; it is threaded beside the
    segment.  Not from the source: the operating system's mapping calls are
    predicates that say whether they succeed at the address asked for, and a new
    object's address is given by the caller.  [None] is an access behind the end
    of the address manager's maps. *)
From Stdlib Require Import Strings.Byte.
From stdpp Require Import base numbers list gmap sorting.
From S2P Require Import Prelude VaManager MemSlice.
Local Open Scope Z_scope.
Local Open Scope mf_scope.

Definition BM_NOT_INITIALIZED : Z := -9.
Definition HYBM_LARGE_PAGE_SIZE : Z := 2 * 1024 * 1024.

Inductive MemSegType := HYBM_MST_HBM | HYBM_MST_DRAM | HYBM_MST_HBM_USER | HYBM_MST_BUTT.
#[global] Instance MemSegType_eq_dec : EqDecision MemSegType.
Proof. solve_decision. Defined.
Definition seg_type_code (t : MemSegType) : Z :=
  match t with HYBM_MST_HBM => 0 | HYBM_MST_DRAM => 1 | HYBM_MST_HBM_USER => 2 | HYBM_MST_BUTT => 3 end.
Definition HYBM_INFO_EXG_IN_NODE : Z := 0.

(** The options this segment uses. *)
Record MemSegmentOptions := mkOptions {
  segType : MemSegType; maxSize : Z; rankId : Z; rankCnt : Z; shmFd : Z; }.

(** ** Export information *)
Definition DRAM_SLICE_EXPORT_INFO_MAGIC : Z := 0xAABB1234FFFFEE02.
Definition EXPORT_INFO_VERSION : Z := 1.
Record HostExportInfo := mkHost {
  x_magic : Z; x_version : Z; x_vAddress : Z; x_sliceIndex : Z; x_rankId : Z; x_size : Z;
  x_pageTblType : Z; x_memSegType : Z; x_exchangeType : Z; }.
#[global] Instance HostExportInfo_eq_dec : EqDecision HostExportInfo.
Proof. solve_decision. Defined.
Definition sizeof_HostExportInfo : Z := 56.

(** The bytes of the structure; 4 bytes of padding at the end. *)
Definition Serialize (padding : bytes) (d : HostExportInfo) : bytes :=
  le_bytes 8 (x_magic d) ++ le_bytes 8 (x_version d) ++ le_bytes 8 (x_vAddress d) ++ le_bytes 4 (x_sliceIndex d) ++
  le_bytes 4 (x_rankId d) ++ le_bytes 8 (x_size d) ++ le_bytes 4 (x_pageTblType d) ++ le_bytes 4 (x_memSegType d) ++
  le_bytes 4 (x_exchangeType d) ++ padding.
Definition field (info : bytes) (off n : nat) : Z := le_val (take n (drop off info)).
Definition Deserialize (info : bytes) : option HostExportInfo :=
  if len info =? sizeof_HostExportInfo then
    Some (mkHost (field info 0 8) (field info 8 8) (field info 16 8) (field info 24 4) (field info 28 4)
            (field info 32 8) (field info 40 4) (field info 44 4) (field info 48 4))
  else None.

(** ** State *)
Record HybmConnBasedSegment := mkConn {
  options_ : MemSegmentOptions;
  globalVirtualAddress_ : Z;
  totalVirtualSize_ : Z;
  localVirtualBase_ : Z;
  allocatedSize_ : Z;
  sliceCount_ : Z;
  slices_ : gmap Z MemSlice;
  exportMap_ : gmap Z bytes;
  imports_ : list HostExportInfo;
  mappedMem_ : gset Z;
}.
Definition conn_new (o : MemSegmentOptions) : HybmConnBasedSegment := mkConn o 0 0 0 0 0 ∅ ∅ [] ∅.

Definition set_space (s : HybmConnBasedSegment) g t l a c : HybmConnBasedSegment :=
  mkConn (options_ s) g t l a c (slices_ s) (exportMap_ s) (imports_ s) (mappedMem_ s).
Definition set_alloc (s : HybmConnBasedSegment) a c sl : HybmConnBasedSegment :=
  mkConn (options_ s) (globalVirtualAddress_ s) (totalVirtualSize_ s) (localVirtualBase_ s) a c sl (exportMap_ s)
    (imports_ s) (mappedMem_ s).
Definition set_exports (s : HybmConnBasedSegment) x : HybmConnBasedSegment :=
  mkConn (options_ s) (globalVirtualAddress_ s) (totalVirtualSize_ s) (localVirtualBase_ s) (allocatedSize_ s)
    (sliceCount_ s) (slices_ s) x (imports_ s) (mappedMem_ s).
Definition set_imports (s : HybmConnBasedSegment) i m : HybmConnBasedSegment :=
  mkConn (options_ s) (globalVirtualAddress_ s) (totalVirtualSize_ s) (localVirtualBase_ s) (allocatedSize_ s)
    (sliceCount_ s) (slices_ s) (exportMap_ s) i m.

(** ** The address range *)
Definition ValidateOptions (o : MemSegmentOptions) : Z :=
  if negb (bool_decide (segType o = HYBM_MST_DRAM)) || (maxSize o =? 0) || negb (maxSize o mod HYBM_LARGE_PAGE_SIZE =? 0)
  then BM_INVALID_PARAM else
  if U64_MAX / maxSize o <? rankCnt o then BM_INVALID_PARAM else BM_OK.

(** [fd]: the result of preparing the shared memory file; [mmap_ok]: the reservation is
    mapped where asked. *)
Definition ReserveMemorySpace (fd : Z) (mmap_ok : Z → Z → bool) (s : HybmConnBasedSegment) (va : HybmVaManager)
    : HybmConnBasedSegment * HybmVaManager * Z :=
  let o := options_ s in
  if negb (ValidateOptions o =? BM_OK) then (s, va, BM_INVALID_PARAM) else
  if negb (globalVirtualAddress_ s =? 0) then (s, va, BM_NOT_INITIALIZED) else
  if negb (fd =? BM_OK) then (s, va, BM_ERROR) else
  let totalSize := u64 (rankCnt o * maxSize o) in
  if HYBM_GVM_END_ADDR - HYBM_GVM_START_ADDR <? totalSize then (s, va, BM_INVALID_PARAM) else
  let '(va, g) := AllocReserveGva va (rankId o) totalSize HYBM_MEM_TYPE_HOST in
  if negb (0 <? r_start g) then (s, va, BM_ERROR) else
  if negb (mmap_ok (r_start g) totalSize) then (s, va, BM_ERROR) else
  (set_space s (r_start g) totalSize (u64 (r_start g + maxSize o * rankId o)) 0 0, va, BM_OK).

Definition FreeMemory (s : HybmConnBasedSegment) (va : HybmVaManager) : HybmConnBasedSegment * HybmVaManager :=
  let s := set_space s (globalVirtualAddress_ s) (totalVirtualSize_ s) 0 (allocatedSize_ s) (sliceCount_ s) in
  if globalVirtualAddress_ s =? 0 then (s, va) else
  (set_space s 0 (totalVirtualSize_ s) 0 (allocatedSize_ s) (sliceCount_ s), FreeReserveGva va (globalVirtualAddress_ s)).
Definition UnReserveMemorySpace (s : HybmConnBasedSegment) (va : HybmVaManager) : HybmConnBasedSegment * HybmVaManager * Z :=
  let '(s, va) := FreeMemory s va in (s, va, BM_OK).

(** ** Slices *)
Definition MapSlice (mmap_ok : Z → Z → bool) (s : HybmConnBasedSegment) (size : Z) : Z :=
  if size =? 0 then BM_OK else
  if mmap_ok (u64 (localVirtualBase_ s + allocatedSize_ s)) size then BM_OK else BM_ERROR.

(** [emplace] keeps an entry that is there. *)
Definition emplace {A} (k : Z) (v : A) (m : gmap Z A) : gmap Z A :=
  match m !! k with Some _ => m | None => <[k := v]> m end.

Definition AllocLocalMemory (mmap_ok : Z → Z → bool) (obj : Z) (s : HybmConnBasedSegment) (va : HybmVaManager) (size : Z)
    : HybmConnBasedSegment * HybmVaManager * Z * option MemSlice :=
  let o := options_ s in
  if negb (size mod HYBM_LARGE_PAGE_SIZE =? 0) || (maxSize o <? u64 (size + allocatedSize_ s))
  then (s, va, BM_INVALID_PARAM, None) else
  let sliceAddr := u64 (localVirtualBase_ s + allocatedSize_ s) in
  let ret := MapSlice mmap_ok s size in
  if negb (ret =? BM_OK) then (s, va, ret, None) else
  let slice := mkSlice obj (sliceCount_ s) MEM_TYPE_HOST_DRAM MEM_PT_TYPE_SVM sliceAddr size in
  let s := set_alloc s (u64 (allocatedSize_ s + size)) (u16 (sliceCount_ s + 1)) (emplace (sliceCount_ s) slice (slices_ s)) in
  let '(va, ret) := AddVaInfo_base va (mkBase sliceAddr size HYBM_MEM_TYPE_HOST sliceAddr) (rankId o) in
  if negb (ret =? 0) then
    (set_alloc s (allocatedSize_ s) (sliceCount_ s) (delete (index_ slice) (slices_ s)), va, ret, Some slice)
  else (s, va, BM_OK, Some slice).

Definition RegisterMemory (obj : Z) (s : HybmConnBasedSegment) (addr size : Z) : HybmConnBasedSegment * Z * option MemSlice :=
  let slice := mkSlice obj (sliceCount_ s) MEM_TYPE_HOST_DRAM MEM_PT_TYPE_SVM addr size in
  (set_alloc s (allocatedSize_ s) (u16 (sliceCount_ s + 1)) (emplace (sliceCount_ s) slice (slices_ s)), BM_OK, Some slice).

(** A slice pointer is the one recorded under its index when it is the same object. *)
Definition known (s : HybmConnBasedSegment) (slice : MemSlice) : bool :=
  match slices_ s !! index_ slice with
  | Some sl => this sl =? this slice
  | None => false
  end.
Definition ReleaseSliceMemory (s : HybmConnBasedSegment) (va : HybmVaManager) (slice : option MemSlice)
    : option (HybmConnBasedSegment * HybmVaManager * Z) :=
  match slice with
  | None => Some (s, va, BM_INVALID_PARAM)
  | Some slice =>
      if negb (known s slice) then Some (s, va, BM_INVALID_PARAM) else
      va ← RemoveOneVaInfo va (vAddress_ slice);
      Some (set_alloc s (allocatedSize_ s) (sliceCount_ s) (delete (index_ slice) (slices_ s)), va, BM_OK)
  end.
Definition GetMemSlice (s : HybmConnBasedSegment) (slice : Z) : option MemSlice :=
  target ← slices_ s !! GetIndexFrom slice;
  if ValidateId target slice then Some target else None.

(** ** Exchange *)
Definition Export (padding : bytes) (s : HybmConnBasedSegment) (slice : option MemSlice)
    : HybmConnBasedSegment * Z * bytes :=
  match slice with
  | None => (s, BM_INVALID_PARAM, [])
  | Some slice =>
      if negb (known s slice) then (s, BM_INVALID_PARAM, []) else
      match exportMap_ s !! index_ slice with
      | Some exInfo => (s, BM_OK, exInfo)
      | None =>
          let info := mkHost DRAM_SLICE_EXPORT_INFO_MAGIC EXPORT_INFO_VERSION (vAddress_ slice) (index_ slice)
            (rankId (options_ s)) (size_ slice) (page_type_code MEM_PT_TYPE_SVM) (seg_type_code HYBM_MST_DRAM)
            HYBM_INFO_EXG_IN_NODE in
          let exInfo := Serialize padding info in
          (set_exports s (<[index_ slice := exInfo]> (exportMap_ s)), BM_OK, exInfo)
      end
  end.
Definition GetExportSliceSize : Z := sizeof_HostExportInfo.

Fixpoint add_imports (va : HybmVaManager) (rank : Z) (infos : list HostExportInfo) : HybmVaManager * Z :=
  match infos with
  | [] => (va, BM_OK)
  | i :: infos' =>
      if x_rankId i =? rank then add_imports va rank infos' else
      let '(va, ret) := AddVaInfoFromExternal va (mkBase (x_vAddress i) (x_size i) HYBM_MEM_TYPE_HOST 0) rank (x_rankId i) in
      if negb (ret =? BM_OK) then (va, ret) else add_imports va rank infos'
  end.
Definition Import (s : HybmConnBasedSegment) (va : HybmVaManager) (allExInfo : list bytes)
    : HybmConnBasedSegment * HybmVaManager * Z :=
  match mapM Deserialize allExInfo with
  | None => (s, va, BM_INVALID_PARAM)
  | Some infos =>
      let s := set_imports s (imports_ s ++ infos) (mappedMem_ s) in
      let '(va, ret) := add_imports va (rankId (options_ s)) infos in
      (s, va, ret)
  end.
Definition Mmap (s : HybmConnBasedSegment) : HybmConnBasedSegment * Z :=
  let own := rankId (options_ s) in
  (set_imports s [] (list_to_set (x_vAddress <$> filter (λ i, x_rankId i ≠ own) (imports_ s)) ∪ mappedMem_ s), 0).

Definition remove_all (va : HybmVaManager) (addrs : list Z) : option HybmVaManager :=
  foldl (λ m a, m ← m; RemoveOneVaInfo m a) (Some va) addrs.
Definition Unmap (s : HybmConnBasedSegment) (va : HybmVaManager) : option (HybmConnBasedSegment * HybmVaManager * Z) :=
  va ← remove_all va (merge_sort Z.le (elements (mappedMem_ s)));
  Some (set_imports s (imports_ s) ∅, va, 0).

(** The mapped addresses from [addr] on that are below [addr + maxSize]. *)
Definition in_part (addr size a : Z) : bool := (addr <=? a) && (a <? u64 (addr + size)).
Fixpoint remove_ranks (s : HybmConnBasedSegment) (va : HybmVaManager) (ranks : list Z)
    : option (HybmConnBasedSegment * HybmVaManager) :=
  match ranks with
  | [] => Some (s, va)
  | rank :: ranks' =>
      let addr := u64 (globalVirtualAddress_ s + maxSize (options_ s) * rank) in
      let part := filter (λ a, in_part addr (maxSize (options_ s)) a = true) (mappedMem_ s) in
      va ← remove_all va (merge_sort Z.le (elements part));
      remove_ranks (set_imports s (imports_ s) (mappedMem_ s ∖ part)) va ranks'
  end.
Definition RemoveImported (s : HybmConnBasedSegment) (va : HybmVaManager) (ranks : list Z)
    : option (HybmConnBasedSegment * HybmVaManager * Z) :=
  if existsb (λ r, rankCnt (options_ s) <=? r) ranks then Some (s, va, BM_INVALID_PARAM) else
  x ← remove_ranks s va ranks;
  Some (x.1, x.2, BM_OK).

(** ** Queries *)
Definition MemoryInRange (s : HybmConnBasedSegment) (begin size : Z) : bool :=
  if begin <? globalVirtualAddress_ s then false else
  negb (u64 (globalVirtualAddress_ s + totalVirtualSize_ s) <? u64 (begin + size)).
Definition GetRankIdByAddr (s : HybmConnBasedSegment) (addr size : Z) : bool * Z :=
  if negb (MemoryInRange s addr size) then (false, rankId (options_ s))
  else (true, u32 ((addr -64 globalVirtualAddress_ s) / maxSize (options_ s))).
