(* ===== verification/ConnSegmentSpec.v ===== *)
(** * The connection based segment: proofs

    A cluster of ranks, each with its segment and its address manager, allocates,
    releases, exports, imports, maps and removes in any order.  Since addresses
    are never given out twice, the ranges ever allocated are disjoint, every
    import succeeds, and the owner computed from an address agrees with the one
    recorded. *)
From Stdlib Require Import Strings.Byte.
From stdpp Require Import base numbers list gmap sorting.
From S2P Require Import Prelude VaManager VaManagerSpec MemSlice ConnSegment.
Local Open Scope Z_scope.
Local Open Scope mf_scope.

(** ** Export information *)
Definition host_wf (d : HostExportInfo) : Prop :=
  0 ≤ x_magic d < 2 ^ 64 ∧ 0 ≤ x_version d < 2 ^ 64 ∧ 0 ≤ x_vAddress d < 2 ^ 64 ∧ 0 ≤ x_sliceIndex d < 2 ^ 32 ∧
  0 ≤ x_rankId d < 2 ^ 32 ∧ 0 ≤ x_size d < 2 ^ 64 ∧ 0 ≤ x_pageTblType d < 2 ^ 32 ∧ 0 ≤ x_memSegType d < 2 ^ 32 ∧
  0 ≤ x_exchangeType d < 2 ^ 32.

Lemma field_skip a off n rest : field (a ++ rest) (List.length a + off) n = field rest off n.
Proof. unfold field. by rewrite <- drop_drop, drop_app_length. Qed.
Lemma field_here n z rest : 0 ≤ z < 256 ^ Z.of_nat n → field (le_bytes n z ++ rest) 0 n = z.
Proof.
  intros Hz. unfold field. rewrite drop_0, take_app_length' by (by rewrite length_le_bytes).
  rewrite le_val_le_bytes. by apply Z.mod_small.
Qed.
Lemma Serialize_roundtrip padding d : List.length padding = 4%nat → host_wf d → Deserialize (Serialize padding d) = Some d.
Proof.
  intros Hp (H1 & H2 & H3 & H4 & H5 & H6 & H7 & H8 & H9). unfold Deserialize, Serialize.
  assert (∀ k x r, List.length (le_bytes k x ++ r) = (k + List.length r)%nat) as Hl
    by (intros; rewrite length_app, length_le_bytes; done).
  assert (∀ k x off n r, (k ≤ off)%nat → field (le_bytes k x ++ r) off n = field r (off - k) n) as Hs.
  { intros k x off n r Hk. rewrite <- (field_skip (le_bytes k x) (off - k) n r), length_le_bytes. f_equal. lia. }
  unfold len. rewrite !Hl, Hp. replace (_ =? sizeof_HostExportInfo) with true by done. f_equal.
  destruct d as [d1 d2 d3 d4 d5 d6 d7 d8 d9]. cbn in H1, H2, H3, H4, H5, H6, H7, H8, H9.
  f_equal; cbn -[le_bytes field app]; rewrite ?Hs by lia; cbn [Nat.sub]; apply field_here; assumption.
Qed.

(** ** The address manager, one call at a time *)
Lemma AddVaInfo_cases m info :
  va_inv m → seg_ok info → (∀ a i, byGva m !! a = Some i → memType (base i) = memType (base info)) →
  (AddVaInfo m info).1 = m ∨
  (AddVaInfo m info).1 = add_segment m info ∧ byGva m !! gva (base info) = None.
Proof.
  intros Hv Hs Ht. pose proof (CheckOverlap_spec m info Hv Hs) as Hco. unfold AddVaInfo.
  destruct (gva (base info) =? 0); [by left|]. destruct (bsize (base info) =? 0); [by left|].
  destruct (HYBM_MEM_TYPE_BUTT <=? memType (base info)); [by left|].
  destruct (CheckOverlap _ _ _ _) as [[] old]; cbn [fst snd andb].
  - destruct (info_eqb old info); auto.
  - destruct (info_eqb old info); [auto|]. right. split; [done|]. destruct (byGva m !! gva (base info)) as [i|] eqn:Ei; [|done].
    destruct Hco as [_ Hno]. specialize (Hno _ _ Ei (Ht _ _ Ei)). destruct (vi_gva _ Hv _ _ Ei) as [E1 (? & ? & _)].
    destruct Hs as (? & ? & _). unfold g_apart in Hno. lia.
Qed.

Section Cluster.
(** The common base of the reserved range, the size of a part and the number of ranks. *)
Context (g M N : Z).
Definition layout_ok : Prop := 0 < g ∧ 0 < M ∧ 0 < N ≤ U32_MAX ∧ g + M * N < 2 ^ 63.
Context (Hlay : layout_ok).
Definition part (q : Z) : Z := g + M * q.

(** The ranges each rank has ever allocated. *)
Definition Hist := Z → list (Z * Z).
Record hist_ok (H : Hist) : Prop := {
  h_in : ∀ q a n, (a, n) ∈ H q → 0 ≤ q < N ∧ 0 < n ∧ part q ≤ a ∧ a + n ≤ part q + M;
  h_apart : ∀ q a n a' n', (a, n) ∈ H q → (a', n') ∈ H q → (a, n) = (a', n') ∨ a + n ≤ a' ∨ a' + n' ≤ a;
}.
Lemma hist_apart H q q' a n a' n' : hist_ok H → (a, n) ∈ H q → (a', n') ∈ H q' →
  (q = q' ∧ (a, n) = (a', n')) ∨ a + n ≤ a' ∨ a' + n' ≤ a.
Proof.
  intros Ho H1 H2. destruct (decide (q = q')) as [->|Hne].
  - destruct (h_apart _ Ho _ _ _ _ _ H1 H2) as [?|?]; auto.
  - right. destruct (h_in _ Ho _ _ _ H1) as (? & ? & ? & ?), (h_in _ Ho _ _ _ H2) as (? & ? & ? & ?). unfold part in *.
    destruct Hlay as (? & ? & _). destruct (Z.lt_total q q') as [?|[?|?]]; [left; nia|done|right; nia].
Qed.

(** A segment that rank [r] records: a range of the history, under its owner. *)
Definition info_ok (H : Hist) (r : Z) (i : AllocatedGvaInfo) : Prop :=
  memType (base i) = HYBM_MEM_TYPE_HOST ∧ (gva (base i), bsize (base i)) ∈ H (RankId i) ∧
  (lva (base i) = 0 ∨ lva (base i) = gva (base i) ∧ RankId i = r).
Definition va_hist (H : Hist) (r : Z) (m : HybmVaManager) : Prop :=
  va_inv m ∧ ∀ a i, byGva m !! a = Some i → info_ok H r i.

Lemma info_seg_ok H r i : hist_ok H → info_ok H r i → seg_ok i.
Proof.
  intros Ho (Ht & Hin & Hl). destruct (h_in _ Ho _ _ _ Hin) as (? & ? & ? & ?). unfold part in *.
  destruct Hlay as (? & ? & ? & ?). unfold seg_ok. rewrite Ht. unfold HYBM_MEM_TYPE_HOST, HYBM_MEM_TYPE_BUTT.
  assert (M * RankId i + M ≤ M * N) by nia. split_and!; try nia; destruct Hl as [-> |[-> _]]; nia.
Qed.
Lemma add_known H r m info :
  hist_ok H → va_hist H r m → info_ok H r info →
  ∃ m', AddVaInfo m info = (m', BM_OK) ∧ va_hist H r m' ∧
    (∀ a i, byGva m !! a = Some i → byGva m' !! a = Some i) ∧
    ∃ i, byGva m' !! gva (base info) = Some i ∧ info_eqb i info = true.
Proof.
  intros Ho [Hv Hi] Hn. assert (seg_ok info) as Hs by (by eapply info_seg_ok). pose proof Hn as (Ht & Hin & Hl).
  assert (∀ a i, byGva m !! a = Some i → info_eqb i info = true ∨ g_apart i info ∧ l_apart i info) as Hsep.
  { intros a i Ha. destruct (Hi a i Ha) as (Ht' & Hin' & Hl').
    destruct (hist_apart H _ _ _ _ _ _ Ho Hin' Hin) as [[E1 [= E2 E3]]|Hap]; [left; by apply info_eqb_iff|right].
    split; [done|]. unfold l_apart. destruct Hl as [->|[-> _]], Hl' as [->|[-> _]]; auto. }
  assert (compatible m info) as Hc.
  { split; [done|]. intros a i Ha. destruct (Hi a i Ha) as (Ht' & _). destruct (Hsep a i Ha) as [?|[? ?]]; [left|right]; auto.
    split; [congruence|done]. }
  destruct (AddVaInfo m info) as [m' ret] eqn:Ea. destruct (AddVaInfo_inv m info m' ret Hv Hc Ea) as (Hv' & _ & Hok & Hret & Herr & Hoth).
  assert (ret = BM_OK) as ->.
  { destruct Hret as [?|Hr]; [done|]. apply Herr in Hr as (a & i & Ha & _ & Hno & Hne).
    destruct (Hsep a i Ha) as [?|[? _]]; [congruence|done]. }
  destruct (Hok eq_refl) as (i & Hgi & Eqb). exists m'. split; [done|].
  destruct (AddVaInfo_cases m info Hv Hs) as [E|[E Hnone]].
  { intros a j Ha. destruct (Hi a j Ha) as (Ht' & _). congruence. }
  - rewrite Ea in E. cbn in E. subst m'. split_and!; [by split|done|eauto].
  - rewrite Ea in E. cbn in E. subst m'. split_and!; [| |eauto].
    + split; [done|]. intros a j Ha. cbn in Ha. apply lookup_insert_Some in Ha as [[_ <-]|[_ Ha]]; eauto.
    + intros a j Ha. cbn. rewrite lookup_insert_ne by congruence. done.
Qed.

(** Own segments have their global address as local one: a removal by address
    removes the segment that starts there, if any. *)
Lemma lva_is_gva H r m a : hist_ok H → va_hist H r m → GetGvaByLva m a = 0 ∨ GetGvaByLva m a = a.
Proof.
  intros Ho [Hv Hi]. unfold GetGvaByLva. destruct (a =? 0); [by left|].
  pose proof (prev_upper_bound_last (byLva m) a) as Hp. destruct (iter_eqb _ _); [by left|].
  destruct (map_prev _ _) as [[k i]|]; [|by left]. destruct (ContainsByLva i a) eqn:Ec; [right|by left].
  symmetry in Hp. apply last_where_Some in Hp as (Hk & _ & _). destruct (vi_lva _ Hv _ _ Hk) as [_ Hgi].
  pose proof (info_seg_ok H r i Ho (Hi _ _ Hgi)) as Hs. apply (ContainsByLva_iff i a Hs) in Ec as [Hnz Hr].
  destruct (Hi _ _ Hgi) as (_ & _ & [?|[E _]]); [done|]. destruct Hs as (? & ? & ? & _). rewrite E in *.
  rewrite (u64_small (a - _)) by lia. rewrite u64_small by lia. lia.
Qed.
Lemma remove_known H r m a m' : hist_ok H → va_hist H r m → RemoveOneVaInfo m a = Some m' →
  va_hist H r m' ∧ (∀ x i, byGva m' !! x = Some i → byGva m !! x = Some i) ∧ ∀ x, x ≠ a → byGva m' !! x = byGva m !! x.
Proof.
  intros Ho Hh Hr. assert (m' = m ∨ ∃ i, byGva m !! a = Some i ∧ m' = remove_segment m a i) as Hcase.
  { unfold RemoveOneVaInfo in Hr. destruct (IsGva m a) as [b|]; cbn in Hr; [|done].
    assert ((if b then a else GetGvaByLva m a) = 0 ∨ (if b then a else GetGvaByLva m a) = a) as Hg.
    { destruct b; [by right|]. by eapply lva_is_gva. }
    destruct Hg as [E|E]; rewrite E in Hr; [left; by injection Hr|].
    destruct (a =? 0); [left; by injection Hr|]. destruct (byGva m !! a) as [i|]; [|left; by injection Hr].
    right. exists i. split; [done|]. by injection Hr as <-. }
  destruct Hcase as [->|(i & Ha & ->)]; [done|]. destruct Hh as [Hv Hi].
  assert (∀ x j, byGva (remove_segment m a i) !! x = Some j → byGva m !! x = Some j) as Hsub.
  { intros x j Hx. cbn in Hx. by apply lookup_delete_Some in Hx as [_ ?]. }
  split_and!; [split|done|].
  - by apply remove_segment_inv.
  - intros x j Hx. eauto.
  - intros x Hx. cbn. by rewrite lookup_delete_ne.
Qed.
Lemma remove_all_known H r m l m' : hist_ok H → va_hist H r m → remove_all m l = Some m' →
  va_hist H r m' ∧ (∀ x i, byGva m' !! x = Some i → byGva m !! x = Some i) ∧ ∀ x, x ∉ l → byGva m' !! x = byGva m !! x.
Proof.
  intros Ho. revert m. induction l as [|a l IH]; intros m Hh; cbn.
  { intros [= ->]. done. }
  destruct (RemoveOneVaInfo m a) as [m1|] eqn:E1.
  - destruct (remove_known H r m a m1 Ho Hh E1) as (H1 & H2 & H3). intros Hl.
    destruct (IH m1 H1 Hl) as (H4 & H5 & H6). split_and!; [done|eauto|]. intros x Hx. rewrite H6, H3; set_solver.
  - intros Hl. exfalso. clear -Hl. induction l; cbn in Hl; [done|auto].
Qed.

(** ** One rank *)

(** The range of a message or of recorded export information. *)
Definition msg_ok (H : Hist) (d : HostExportInfo) : Prop := (x_vAddress d, x_size d) ∈ H (x_rankId d).
Definition bytes_ok (H : Hist) (b : bytes) : Prop := ∃ d, Deserialize b = Some d ∧ msg_ok H d.
Record rank_ok (H : Hist) (r : Z) (s : HybmConnBasedSegment) (va : HybmVaManager) : Prop := {
  ro_options : options_ s = mkOptions HYBM_MST_DRAM M r N (shmFd (options_ s)) ∧ 0 ≤ r < N;
  ro_space : globalVirtualAddress_ s = g ∧ totalVirtualSize_ s = M * N ∧ localVirtualBase_ s = part r;
  ro_alloc : 0 ≤ allocatedSize_ s ≤ M ∧ ∀ a n, (a, n) ∈ H r → a + n ≤ part r + allocatedSize_ s;
  ro_va : va_hist H r va;
  ro_slices : ∀ k sl, slices_ s !! k = Some sl → index_ sl = k ∧
    ((vAddress_ sl, size_ sl) ∈ H r ∧ (∃ i, byGva va !! vAddress_ sl = Some i ∧ bsize (base i) = size_ sl ∧ RankId i = r) ∨
     0 < vAddress_ sl < g);
  ro_distinct : ∀ k k' sl sl', slices_ s !! k = Some sl → slices_ s !! k' = Some sl' →
    (vAddress_ sl, size_ sl) ∈ H r → vAddress_ sl = vAddress_ sl' → k = k';
  ro_exports : ∀ k b, exportMap_ s !! k = Some b → bytes_ok H b;
  ro_imports : ∀ d, d ∈ imports_ s → msg_ok H d;
  ro_mapped : ∀ a, a ∈ mappedMem_ s → ∃ q n, q ≠ r ∧ (a, n) ∈ H q;
}.
(** A longer history keeps what is known. *)
Definition extends (H H' : Hist) : Prop := ∀ q x, x ∈ H q → x ∈ H' q.
Lemma va_hist_extends H H' r m : extends H H' → va_hist H r m → va_hist H' r m.
Proof. intros He [Hv Hi]. split; [done|]. intros a i Ha. destruct (Hi a i Ha) as (? & ? & ?). split_and!; auto. Qed.
Lemma rank_ok_extends H H' r s va : extends H H' → H' r = H r → rank_ok H r s va → rank_ok H' r s va.
Proof.
  intros He Er [H1 H2 H3 H4 H5 H6 H7 H8 H9]. split; rewrite ?Er; try done.
  - by eapply va_hist_extends.
  - intros k b Hb. destruct (H7 k b Hb) as (d & ? & ?). exists d. split; [done|]. by apply He.
  - intros d Hd. by apply He, H8.
  - intros a Ha. destruct (H9 a Ha) as (q & n & ? & ?). exists q, n. auto.
Qed.

(** ** The operations *)
Definition grow (H : Hist) (r a n : Z) : Hist := λ q, if decide (q = r) then H r ++ [(a, n)] else H q.
Lemma grow_extends H r a n : extends H (grow H r a n).
Proof. intros q x Hx. unfold grow. case_decide; [subst; apply elem_of_app; by left|done]. Qed.
Lemma elem_of_grow H r a n q x : x ∈ grow H r a n q ↔ x ∈ H q ∨ (q = r ∧ x = (a, n)).
Proof.
  unfold grow. case_decide as E; [subst|naive_solver]. rewrite elem_of_app, list_elem_of_singleton. naive_solver.
Qed.
Lemma grow_ok H r a n : hist_ok H → 0 ≤ r < N → 0 < n → part r ≤ a → a + n ≤ part r + M →
  (∀ a' n', (a', n') ∈ H r → a' + n' ≤ a) → hist_ok (grow H r a n).
Proof.
  intros Ho Hr Hn H1 H2 Hb. split.
  - intros q a' n' [Hin|[-> [= -> ->]]]%elem_of_grow; [by apply Ho|done].
  - intros q a1 n1 a2 n2 [Hin|[-> [= -> ->]]]%elem_of_grow [Hin2|[E2 [= -> ->]]]%elem_of_grow;
      [by eapply Ho|subst; right; left; by apply Hb|right; right; by apply Hb|by left].
Qed.
Lemma part_bounds r : 0 ≤ r < N → 0 < g ≤ part r ∧ part r + M ≤ g + M * N < 2 ^ 63.
Proof. intros Hr. unfold part. destruct Hlay as (? & ? & ? & ?). nia. Qed.

(** The system maps nothing around the end of the address space. *)
Definition mmap_law (ok : Z → Z → bool) : Prop := ∀ a n, ok a n = true → a + n ≤ 2 ^ 64.

Lemma alloc_rank_ok H r s va ok obj n s' va' ret sl :
  hist_ok H → rank_ok H r s va → mmap_law ok → 0 < n < 2 ^ 64 →
  AllocLocalMemory ok obj s va n = (s', va', ret, sl) →
  (ret ≠ BM_OK ∧ s' = s ∧ va' = va) ∨
  (ret = BM_OK ∧ let H' := grow H r (part r + allocatedSize_ s) n in hist_ok H' ∧ rank_ok H' r s' va').
Proof.
  intros Ho Hk Hlaw Hn. destruct (ro_options _ _ _ _ Hk) as [Eo Hr]. destruct (ro_space _ _ _ _ Hk) as (Eg & Et & El).
  destruct (ro_alloc _ _ _ _ Hk) as [Ha Hfront]. pose proof (part_bounds r Hr) as [Hp1 Hp2].
  unfold AllocLocalMemory, MapSlice. rewrite El, (u64_small (part r + _)) by lia. set (a := part r + allocatedSize_ s) in *.
  destruct (negb (n mod _ =? 0) || _) eqn:Echk; [intros [= <- <- <- <-]; left; done|].
  apply orb_false_iff in Echk as [_ Hmax%Z.ltb_ge]. rewrite Eo in Hmax. cbn in Hmax.
  destruct (Z.eqb_spec n 0); [lia|]. destruct (ok a n) eqn:Eok; [|intros [= <- <- <- <-]; left; done].
  pose proof (Hlaw a n Eok). rewrite u64_small in Hmax by lia. cbn [Z.eqb BM_OK negb]. rewrite (u64_small (_ + n)) by lia.
  assert (Eo1 : rankId (options_ s) = r) by (rewrite Eo; done). rewrite Eo1.
  unfold AddVaInfo_base. set (info := mkInfo _ _ _ _). set (H' := grow H r a n).
  assert (hist_ok H') as Ho'. { apply grow_ok; try done; unfold a in *; lia. }
  assert (info_ok H' r info) as Hinfo.
  { unfold info_ok, info, RankId; cbn. split_and!; [done| |by right]. apply elem_of_grow. by right. }
  destruct (add_known H' r va info Ho') as (va1 & -> & Hva1 & Hkeep & i & Hgi & Eqb); [|done|].
  { eapply va_hist_extends; [apply grow_extends|apply Hk]. }
  cbn [Z.eqb BM_OK negb]. intros [= <- <- <- <-]. right. split; [done|]. split; [done|].
  apply info_eqb_iff in Eqb as (E1 & E2 & E3). cbn in E1, E2, E3, Hgi.
  set (new := mkSlice obj _ _ _ a n).
  assert (∀ k sl, emplace (sliceCount_ s) new (slices_ s) !! k = Some sl → slices_ s !! k = Some sl ∨ k = sliceCount_ s ∧ sl = new) as Hem.
  { intros k sl'. unfold emplace. destruct (slices_ s !! sliceCount_ s); [auto|]. intros [[<- <-]|[_ ?]]%lookup_insert_Some; auto. }
  assert (∀ k sl, slices_ s !! k = Some sl → vAddress_ sl ≠ a) as Hfresh.
  { intros k sl' Hsl E. destruct (ro_slices _ _ _ _ Hk k sl' Hsl) as [_ [[Hin _]|?]]; [|lia].
    pose proof (Hfront _ _ Hin). destruct (h_in _ Ho _ _ _ Hin) as (_ & ? & _). unfold a in *. lia. }
  split; cbn [options_ globalVirtualAddress_ totalVirtualSize_ localVirtualBase_ allocatedSize_ slices_ exportMap_ imports_ mappedMem_ set_alloc].
  - done.
  - done.
  - split; [unfold a in *; lia|]. intros a' n' [Hin|[_ [= -> ->]]]%elem_of_grow; [pose proof (Hfront _ _ Hin); lia|unfold a; lia].
  - done.
  - intros k sl' [Hsl|[-> ->]]%Hem.
    + destruct (ro_slices _ _ _ _ Hk k sl' Hsl) as [Ei [(Hin & j & Hj & Ej)|Hlow]]; (split; [done|]); [left|by right].
      split; [apply elem_of_grow; by left|]. exists j. split; [by apply Hkeep|done].
    + split; [done|]. left. split; [apply elem_of_grow; by right|]. exists i. cbn. rewrite E2, E3. done.
  - intros k k' sl1 sl2 [H1|[-> ->]]%Hem [H2|[-> ->]]%Hem Hin E; [| | |done].
    + apply elem_of_grow in Hin as [Hin|[_ [= E4 _]]]; [by eapply (ro_distinct _ _ _ _ Hk)|]. by destruct (Hfresh _ _ H1).
    + by destruct (Hfresh _ _ H1).
    + by destruct (Hfresh _ _ H2).
  - intros k b Hb. destruct (ro_exports _ _ _ _ Hk k b Hb) as (d & ? & ?). exists d. split; [done|]. by apply grow_extends.
  - intros d Hd. apply grow_extends. by apply (ro_imports _ _ _ _ Hk).
  - intros x Hx. destruct (ro_mapped _ _ _ _ Hk x Hx) as (q & m & ? & ?). exists q, m. split; [done|]. by apply grow_extends.
Qed.

(** Changes of the slices and of the address manager that keep the rest. *)
Lemma rank_ok_slices H r s va sl c va' :
  rank_ok H r s va → va_hist H r va' →
  (∀ k x, sl !! k = Some x → slices_ s !! k = Some x ∨ index_ x = k ∧ 0 < vAddress_ x < g) →
  (∀ k x, sl !! k = Some x → (vAddress_ x, size_ x) ∈ H r → byGva va' !! vAddress_ x = byGva va !! vAddress_ x) →
  hist_ok H → rank_ok H r (set_alloc s (allocatedSize_ s) c sl) va'.
Proof.
  intros Hk Hva Hsl Hkeep Ho. pose proof (part_bounds r (proj2 (ro_options _ _ _ _ Hk))) as [Hp _].
  split; cbn [options_ globalVirtualAddress_ totalVirtualSize_ localVirtualBase_ allocatedSize_ slices_ exportMap_ imports_ mappedMem_ set_alloc];
    try apply Hk; [done|..].
  - intros k x Hx. destruct (Hsl k x Hx) as [Hold|[? ?]]; [|auto].
    destruct (ro_slices _ _ _ _ Hk k x Hold) as [E [(Hin & i & Hi & Hb)|Hlow]]; (split; [done|]); [left|by right].
    split; [done|]. exists i. by rewrite (Hkeep k x).
  - intros k k' x x' Hx Hx' Hin E.
    assert (part r ≤ vAddress_ x) by (by destruct (h_in _ Ho _ _ _ Hin) as (_ & _ & ? & _)).
    destruct (Hsl k x Hx) as [H1|[_ ?]]; [|lia]. destruct (Hsl k' x' Hx') as [H2|[_ ?]]; [|lia].
    by apply (ro_distinct _ _ _ _ Hk k k' x x').
Qed.
Lemma rank_ok_imports H r s va imp mapped va' :
  rank_ok H r s va → va_hist H r va' → (∀ d, d ∈ imp → msg_ok H d) → (∀ a, a ∈ mapped → ∃ q n, q ≠ r ∧ (a, n) ∈ H q) →
  (∀ a n, (a, n) ∈ H r → ∀ i, byGva va !! a = Some i → byGva va' !! a = Some i) →
  rank_ok H r (set_imports s imp mapped) va'.
Proof.
  intros Hk Hva Himp Hmap Hkeep.
  split; cbn [options_ globalVirtualAddress_ totalVirtualSize_ localVirtualBase_ allocatedSize_ slices_ exportMap_ imports_ mappedMem_ set_imports];
    try apply Hk; try done.
  intros k x Hx. destruct (ro_slices _ _ _ _ Hk k x Hx) as [E [(Hin & i & Hi & Hb)|Hlow]]; (split; [done|]); [left|by right].
  split; [done|]. exists i. split; [by eapply Hkeep|done].
Qed.

Lemma register_rank_ok H r s va obj addr n :
  hist_ok H → rank_ok H r s va → 0 < addr < g → rank_ok H r (RegisterMemory obj s addr n).1.1 va.
Proof.
  intros Ho Hk Haddr. apply rank_ok_slices with va; [done|apply Hk| |done|done].
  intros k x. unfold emplace. destruct (slices_ s !! sliceCount_ s); [auto|].
  intros [[<- <-]|[_ ?]]%lookup_insert_Some; [right|by left]. done.
Qed.
Lemma release_rank_ok H r s va k s' va' ret :
  hist_ok H → rank_ok H r s va → ReleaseSliceMemory s va (slices_ s !! k) = Some (s', va', ret) → rank_ok H r s' va'.
Proof.
  intros Ho Hk. destruct (slices_ s !! k) as [sl|] eqn:Es; cbn [ReleaseSliceMemory]; [|by intros [= <- <- _]].
  destruct (ro_slices _ _ _ _ Hk k sl Es) as [Ei Hcase]. unfold known. rewrite Ei, Es, Z.eqb_refl. cbn [negb].
  destruct (RemoveOneVaInfo va (vAddress_ sl)) as [va1|] eqn:Er; cbn; [|done]. intros [= <- <- _].
  destruct (remove_known H r va _ va1 Ho (ro_va _ _ _ _ Hk) Er) as (Hv & _ & Hoth).
  apply rank_ok_slices with va; [done|done| | |done].
  - intros k' x [_ Hx]%lookup_delete_Some. by left.
  - intros k' x [Hne Hx]%lookup_delete_Some Hin. apply Hoth. intros E. apply Hne. symmetry.
    by apply (ro_distinct _ _ _ _ Hk k' k x sl).
Qed.
Lemma export_rank_ok H r s va padding k s' ret b :
  hist_ok H → rank_ok H r s va → List.length padding = 4%nat →
  (∀ sl, slices_ s !! k = Some sl → (vAddress_ sl, size_ sl) ∈ H r) → 0 ≤ k < 2 ^ 16 →
  Export padding s (slices_ s !! k) = (s', ret, b) → rank_ok H r s' va ∧ (ret = BM_OK → bytes_ok H b).
Proof.
  intros Ho Hk Hpad Hal Hkr. destruct (slices_ s !! k) as [sl|] eqn:Es; cbn [Export]; [|by intros [= <- <- <-]].
  destruct (ro_slices _ _ _ _ Hk k sl Es) as [Ei _]. unfold known. rewrite Ei, Es, Z.eqb_refl. cbn [negb].
  destruct (exportMap_ s !! k) as [x|] eqn:Ex; [intros [= <- <- <-]; split; [done|intros _; by apply (ro_exports _ _ _ _ Hk k)]|].
  destruct (ro_options _ _ _ _ Hk) as [Eo Hr]. pose proof (Hal sl eq_refl) as Hin.
  destruct (h_in _ Ho _ _ _ Hin) as (_ & Hn & H1 & H2). pose proof (part_bounds r Hr) as [Hp1 Hp2].
  assert (rankId (options_ s) = r) as Er by (rewrite Eo; done). rewrite Er.
  set (d := mkHost _ _ _ _ _ _ _ _ _).
  assert (bytes_ok H (Serialize padding d)) as Hb.
  { exists d. split; [|exact Hin]. apply Serialize_roundtrip; [done|]. destruct Hlay as (_ & _ & HN & _). unfold U32_MAX in HN.
    unfold host_wf, d, DRAM_SLICE_EXPORT_INFO_MAGIC, EXPORT_INFO_VERSION, HYBM_INFO_EXG_IN_NODE; cbn. lia. }
  intros [= <- <- <-]. split; [|done].
  split; cbn [options_ globalVirtualAddress_ totalVirtualSize_ localVirtualBase_ allocatedSize_ slices_ exportMap_ imports_ mappedMem_ set_exports];
    try apply Hk. intros k' b' [[<- <-]|[_ Hb']]%lookup_insert_Some; [done|by apply (ro_exports _ _ _ _ Hk k')].
Qed.

Lemma add_imports_ok H r va infos :
  hist_ok H → va_hist H r va → Forall (msg_ok H) infos →
  ∃ va', add_imports va r infos = (va', BM_OK) ∧ va_hist H r va' ∧ ∀ a i, byGva va !! a = Some i → byGva va' !! a = Some i.
Proof.
  intros Ho Hv Hm. revert va Hv. induction Hm as [|d infos Hd _ IH]; intros va Hv; cbn [add_imports]; [eauto|].
  destruct (Z.eqb_spec (x_rankId d) r) as [|Hne]; [by apply IH|].
  unfold AddVaInfoFromExternal. set (info := mkInfo _ _ _ _).
  assert (RankId info = x_rankId d) as Erk.
  { unfold RankId, info; cbn. destruct (h_in _ Ho _ _ _ Hd) as (Hq & _). destruct Hlay as (_ & _ & HN & _).
    destruct (Z.eqb_spec (x_rankId d) INVALID_RANK_ID) as [E|]; [|done]. unfold INVALID_RANK_ID in E. lia. }
  destruct (add_known H r va info Ho Hv) as (va1 & -> & Hv1 & Hk1 & _).
  { unfold info_ok. rewrite Erk. unfold info; cbn. split_and!; [done|exact Hd|by left]. }
  cbn [Z.eqb BM_OK negb]. destruct (IH va1 Hv1) as (va2 & -> & Hv2 & Hk2). eauto 6.
Qed.
Lemma import_rank_ok H r s va bs : hist_ok H → rank_ok H r s va → Forall (bytes_ok H) bs →
  ∃ s' va', Import s va bs = (s', va', BM_OK) ∧ rank_ok H r s' va'.
Proof.
  intros Ho Hk Hbs. destruct (ro_options _ _ _ _ Hk) as [Eo Hr]. unfold Import.
  assert (∃ infos, mapM Deserialize bs = Some infos ∧ Forall (msg_ok H) infos) as (infos & -> & Hm).
  { clear -Hbs. induction Hbs as [|b bs (d & Ed & Hd) _ (infos & IH & Hm)]; [by exists []|].
    exists (d :: infos). cbn. rewrite Ed. cbn. rewrite IH. split; [done|by constructor]. }
  cbn [options_ set_imports]. assert (rankId (options_ s) = r) as -> by (rewrite Eo; done).
  destruct (add_imports_ok H r va infos Ho (ro_va _ _ _ _ Hk) Hm) as (va' & -> & Hv & Hkeep).
  eexists _, _. split; [done|]. apply rank_ok_imports with va; [done|done| |apply Hk|by intros; apply Hkeep].
  intros d [Hd|Hd]%elem_of_app; [by apply (ro_imports _ _ _ _ Hk)|]. rewrite Forall_forall in Hm. auto.
Qed.
Lemma mmap_rank_ok H r s va : rank_ok H r s va → rank_ok H r (Mmap s).1 va.
Proof.
  intros Hk. destruct (ro_options _ _ _ _ Hk) as [Eo Hr]. apply rank_ok_imports with va; [done|apply Hk|by intros ? ?%not_elem_of_nil| |done].
  intros a [Ha|Ha]%elem_of_union; [|by apply (ro_mapped _ _ _ _ Hk)].
  apply elem_of_list_to_set, list_elem_of_fmap in Ha as (d & -> & [Hne Hd]%list_elem_of_filter).
  assert (rankId (options_ s) = r) as E by (rewrite Eo; done). rewrite E in Hne.
  exists (x_rankId d), (x_size d). split; [done|]. by apply (ro_imports _ _ _ _ Hk).
Qed.

Lemma drop_mapped H r s va l va' mapped :
  hist_ok H → rank_ok H r s va → (∀ a, a ∈ l → a ∈ mappedMem_ s) → mapped ⊆ mappedMem_ s →
  remove_all va l = Some va' → rank_ok H r (set_imports s (imports_ s) mapped) va'.
Proof.
  intros Ho Hk Hl Hsub Hr. destruct (remove_all_known H r va l va' Ho (ro_va _ _ _ _ Hk) Hr) as (Hv & _ & Hoth).
  apply rank_ok_imports with va; [done|done|apply Hk| |].
  - intros a Ha. apply (ro_mapped _ _ _ _ Hk). set_solver.
  - intros a n Hin i Hi. rewrite Hoth; [done|]. intros Ha%Hl. destruct (ro_mapped _ _ _ _ Hk a Ha) as (q & n' & Hne & Hq).
    destruct (h_in _ Ho _ _ _ Hin) as (_ & ? & _). destruct (h_in _ Ho _ _ _ Hq) as (_ & ? & _).
    destruct (hist_apart H _ _ _ _ _ _ Ho Hq Hin) as [[? _]|?]; [done|lia].
Qed.
Lemma unmap_rank_ok H r s va s' va' ret :
  hist_ok H → rank_ok H r s va → Unmap s va = Some (s', va', ret) → rank_ok H r s' va'.
Proof.
  intros Ho Hk. unfold Unmap. destruct (remove_all va _) as [va1|] eqn:Er; cbn; [|done]. intros [= <- <- _].
  eapply drop_mapped; [done|done| |set_solver|exact Er]. intros a. rewrite merge_sort_Permutation. set_solver.
Qed.
Lemma remove_ranks_ok H r s va ranks s' va' :
  hist_ok H → rank_ok H r s va → remove_ranks s va ranks = Some (s', va') → rank_ok H r s' va'.
Proof.
  intros Ho. revert s va. induction ranks as [|q ranks IH]; intros s va Hk; cbn [remove_ranks]; [by intros [= <- <-]|].
  destruct (remove_all va _) as [va1|] eqn:Er; cbn; [|done]. apply IH.
  eapply drop_mapped; [done|done| |set_solver|exact Er]. intros a. rewrite merge_sort_Permutation. set_solver.
Qed.

(** ** The cluster *)
Record Cluster := mkCluster { c_ranks : gmap Z (HybmConnBasedSegment * HybmVaManager); c_msgs : list bytes }.
Definition put (C : Cluster) (r : Z) s va : Cluster := mkCluster (<[r := (s, va)]> (c_ranks C)) (c_msgs C).

(** Allocations are not empty; registered memory lies below the global range; only
    allocated slices are exported; what is imported has been exported. *)
Inductive cl_step : Cluster → Cluster → Prop :=
| cl_alloc C r s va ok obj n s' va' ret sl :
    c_ranks C !! r = Some (s, va) → mmap_law ok → 0 < n < 2 ^ 64 →
    AllocLocalMemory ok obj s va n = (s', va', ret, sl) → cl_step C (put C r s' va')
| cl_register C r s va obj addr n :
    c_ranks C !! r = Some (s, va) → 0 < addr < g → cl_step C (put C r (RegisterMemory obj s addr n).1.1 va)
| cl_release C r s va k s' va' ret :
    c_ranks C !! r = Some (s, va) → ReleaseSliceMemory s va (slices_ s !! k) = Some (s', va', ret) →
    cl_step C (put C r s' va')
| cl_export C r s va padding k s' b :
    c_ranks C !! r = Some (s, va) → List.length padding = 4%nat → 0 ≤ k < 2 ^ 16 →
    (∀ sl, slices_ s !! k = Some sl → g ≤ vAddress_ sl) → Export padding s (slices_ s !! k) = (s', BM_OK, b) →
    cl_step C (mkCluster (<[r := (s', va)]> (c_ranks C)) (c_msgs C ++ [b]))
| cl_import C r s va bs s' va' ret :
    c_ranks C !! r = Some (s, va) → Forall (λ b, b ∈ c_msgs C) bs → Import s va bs = (s', va', ret) → cl_step C (put C r s' va')
| cl_mmap C r s va : c_ranks C !! r = Some (s, va) → cl_step C (put C r (Mmap s).1 va)
| cl_unmap C r s va s' va' ret :
    c_ranks C !! r = Some (s, va) → Unmap s va = Some (s', va', ret) → cl_step C (put C r s' va')
| cl_remove C r s va ranks s' va' ret :
    c_ranks C !! r = Some (s, va) → RemoveImported s va ranks = Some (s', va', ret) → cl_step C (put C r s' va').

Definition cluster_ok (C : Cluster) : Prop := ∃ H, hist_ok H ∧
  (∀ r s va, c_ranks C !! r = Some (s, va) → rank_ok H r s va) ∧ ∀ b, b ∈ c_msgs C → bytes_ok H b.

Lemma put_ok H C r s va :
  hist_ok H → (∀ r s va, c_ranks C !! r = Some (s, va) → rank_ok H r s va) → (∀ b, b ∈ c_msgs C → bytes_ok H b) →
  rank_ok H r s va → cluster_ok (put C r s va).
Proof.
  intros Ho Hr Hm Hk. exists H. split_and!; [done| |done]. cbn. intros r' s' va' [[<- [= <- <-]]|[_ ?]]%lookup_insert_Some; eauto.
Qed.
Lemma cl_step_ok C C' : cl_step C C' → cluster_ok C → cluster_ok C'.
Proof.
  intros Hstep (H & Ho & Hr & Hm). destruct Hstep as [C r s va ok obj n s' va' ret sl Hc Hlaw Hn E|C r s va obj addr n Hc Ha
    |C r s va k s' va' ret Hc E|C r s va padding k s' b Hc Hp Hkr Hg E|C r s va bs s' va' ret Hc Hbs E|C r s va Hc
    |C r s va s' va' ret Hc E|C r s va ranks s' va' ret Hc E]; specialize (Hr r s va Hc) as Hk.
  - destruct (alloc_rank_ok H r s va ok obj n s' va' ret sl Ho Hk Hlaw Hn E) as [(_ & -> & ->)|(_ & Ho' & Hk')]; [by apply put_ok with H|].
    exists (grow H r (part r + allocatedSize_ s) n). split_and!; [done| |]; cbn.
    + intros r' s1 va1 [[<- [= <- <-]]|[Hne H1]]%lookup_insert_Some; [done|].
      apply rank_ok_extends with H; [apply grow_extends|unfold grow; by rewrite decide_False by done|by apply Hr].
    + intros b (d & Ed & Hd)%Hm. exists d. split; [done|]. by apply grow_extends.
  - apply put_ok with H; [done..|]. by apply register_rank_ok.
  - apply put_ok with H; [done..|]. by apply (release_rank_ok H r s va k _ _ ret).
  - destruct (export_rank_ok H r s va padding k s' BM_OK b Ho Hk Hp) as [Hk' Hb]; [|done|done|].
    { intros sl Hsl. destruct (ro_slices _ _ _ _ Hk k sl Hsl) as [_ [[? _]|?]]; [done|]. specialize (Hg sl Hsl). lia. }
    exists H. split_and!; [done| |]; cbn.
    + intros r' s1 va1 [[<- [= <- <-]]|[_ ?]]%lookup_insert_Some; eauto.
    + intros b' [?| ->%list_elem_of_singleton]%elem_of_app; auto.
  - destruct (import_rank_ok H r s va bs Ho Hk) as (s1 & va1 & E1 & Hk1).
    { eapply Forall_impl; [exact Hbs|]. auto. }
    rewrite E in E1. injection E1 as -> -> _. by apply put_ok with H.
  - apply put_ok with H; [done..|]. by apply mmap_rank_ok.
  - apply put_ok with H; [done..|]. by apply (unmap_rank_ok H r s va _ _ ret).
  - apply put_ok with H; [done..|]. unfold RemoveImported in E. destruct (existsb _ ranks); [by injection E as <- <- _|].
    destruct (remove_ranks s va ranks) as [[s1 va1]|] eqn:Er; cbn in E; [|done]. injection E as <- <- _.
    by apply (remove_ranks_ok H r s va ranks).
Qed.

(** All ranks have reserved the range, at the same address. *)
Definition fresh (C : Cluster) : Prop := c_msgs C = [] ∧ ∀ r s va, c_ranks C !! r = Some (s, va) →
  0 ≤ r < N ∧ (∃ fd, s = mkConn (mkOptions HYBM_MST_DRAM M r N fd) g (M * N) (part r) 0 0 ∅ ∅ [] ∅) ∧ byGva va = ∅ ∧ va_inv va.
Lemma fresh_ok C : fresh C → cluster_ok C.
Proof.
  intros [Hm Hr]. exists (λ _, []). split_and!.
  - split; intros; exfalso; by eapply not_elem_of_nil.
  - intros r s va Hc. destruct (Hr r s va Hc) as (Hrr & (fd & ->) & Hg & Hv).
    split; cbn; try done; try (intros; exfalso; by eapply not_elem_of_nil).
    + split; [destruct Hlay; lia|]. intros; exfalso; by eapply not_elem_of_nil.
    + split; [done|]. intros a i Ha. by rewrite Hg, lookup_empty in Ha.
  - rewrite Hm. intros; exfalso; by eapply not_elem_of_nil.
Qed.

Lemma rank_of_addr H r s va a n q x : hist_ok H → rank_ok H r s va → (a, n) ∈ H q → a ≤ x < a + n →
  GetRankIdByAddr s x 1 = (true, q).
Proof.
  intros Ho Hk Hin Hx. destruct (h_in _ Ho _ _ _ Hin) as (Hq & Hn & H1 & H2). pose proof (part_bounds q Hq) as [Hp1 Hp2].
  destruct (ro_space _ _ _ _ Hk) as (Eg & Et & _). destruct (ro_options _ _ _ _ Hk) as [Eo _].
  assert (maxSize (options_ s) = M) as Em by (rewrite Eo; done).
  unfold GetRankIdByAddr, MemoryInRange. rewrite Eg, Et, Em. destruct Hlay as (? & ? & HN & ?). unfold U32_MAX in HN.
  destruct (Z.ltb_spec x g); [lia|]. rewrite !(u64_small (_ + _)) by lia. destruct (Z.ltb_spec (g + M * N) (x + 1)); [lia|].
  cbn [negb]. rewrite (u64_small (x - g)) by lia. unfold part in *.
  assert ((x - g) / M = q) as -> by (symmetry; apply Z.div_unique with (x - g - M * q); lia). by rewrite u32_small by lia.
Qed.

(** C28: in every state a cluster reaches by allocating (not empty), registering
    (below the global range), releasing, exporting (allocated slices), importing (what
    was exported), mapping, unmapping and removing in any order: every import of exported descriptions succeeds; the segments recorded at a rank are
    disjoint, and the owner computed from any of their addresses is the recorded
    one; every byte of an allocated slice is found in the rank's address manager,
    under that rank and at the slice's address; and allocated slices of the whole
    cluster do not overlap. *)
Theorem cluster_sound C0 C : fresh C0 → rtc cl_step C0 C →
  (∀ r s va, c_ranks C !! r = Some (s, va) →
    (∀ bs, Forall (λ b, b ∈ c_msgs C) bs → (Import s va bs).2 = BM_OK) ∧
    (∀ a i a' i', byGva va !! a = Some i → byGva va !! a' = Some i' → a ≠ a' → g_apart i i') ∧
    (∀ a i x, byGva va !! a = Some i → a ≤ x < a + bsize (base i) → GetRankIdByAddr s x 1 = (true, RankId i)) ∧
    (∀ k sl x, slices_ s !! k = Some sl → g ≤ vAddress_ sl → vAddress_ sl ≤ x < vAddress_ sl + size_ sl →
       ∃ i, FindAllocByGva va x = Some (i, true) ∧ RankId i = r ∧ gva (base i) = vAddress_ sl)) ∧
  (∀ r s va k sl r' s' va' k' sl', c_ranks C !! r = Some (s, va) → c_ranks C !! r' = Some (s', va') →
    slices_ s !! k = Some sl → slices_ s' !! k' = Some sl' → g ≤ vAddress_ sl → g ≤ vAddress_ sl' →
    (r, k) = (r', k') ∨ vAddress_ sl + size_ sl ≤ vAddress_ sl' ∨ vAddress_ sl' + size_ sl' ≤ vAddress_ sl).
Proof.
  intros Hf Hsteps. assert (cluster_ok C) as (H & Ho & Hr & Hm).
  { apply fresh_ok in Hf. clear -Hsteps Hf Hlay. induction Hsteps; eauto using cl_step_ok. }
  split.
  - intros r s va Hc. pose proof (Hr r s va Hc) as Hk. destruct (ro_va _ _ _ _ Hk) as [Hv Hi]. split_and!.
    + intros bs Hbs. destruct (import_rank_ok H r s va bs Ho Hk) as (s1 & va1 & -> & _); [|done].
      eapply Forall_impl; [exact Hbs|]. auto.
    + intros a i a' i' Ha Ha' Hne. by apply (vi_apart _ Hv _ _ _ _ Ha Ha' Hne).
    + intros a i x Ha Hx. destruct (vi_gva _ Hv _ _ Ha) as [<- _]. destruct (Hi _ _ Ha) as (_ & Hin & _).
      by eapply rank_of_addr.
    + intros k sl x Hsl Hg Hx. destruct (ro_slices _ _ _ _ Hk k sl Hsl) as [_ [(Hin & i & Hgi & Hb & Hrk)|?]]; [|lia].
      destruct (vi_gva _ Hv _ _ Hgi) as [Eg _]. exists i. split_and!; [|done|done].
      apply FindAllocByGva_hit; [done|]. rewrite Eg, Hb. done.
  - intros r s va k sl r' s' va' k' sl' Hc Hc' Hsl Hsl' Hg Hg'. pose proof (Hr _ _ _ Hc) as Hk. pose proof (Hr _ _ _ Hc') as Hk'.
    destruct (ro_slices _ _ _ _ Hk k sl Hsl) as [_ [(Hin & _)|?]]; [|lia].
    destruct (ro_slices _ _ _ _ Hk' k' sl' Hsl') as [_ [(Hin' & _)|?]]; [|lia].
    destruct (hist_apart H _ _ _ _ _ _ Ho Hin Hin') as [[-> [= E _]]|?]; [left|by right].
    rewrite Hc in Hc'. injection Hc' as <- <-. f_equal. by apply (ro_distinct _ _ _ _ Hk k k' sl sl').
Qed.
End Cluster.

(** ** The start *)

(** Every process reserves the same range: its manager is empty. *)
Lemma reserve_first ok M N r fd :
  0 < M → M mod HYBM_LARGE_PAGE_SIZE = 0 → 0 ≤ r < N → N ≤ U32_MAX → M * N ≤ HYBM_GVM_END_ADDR - HYBM_GVM_START_ADDR →
  (∀ a n, ok a n = true) →
  let g := HYBM_GVM_START_ADDR in
  let '(s, va, ret) := ReserveMemorySpace BM_OK ok (conn_new (mkOptions HYBM_MST_DRAM M r N fd)) va_new in
  ret = BM_OK ∧ s = mkConn (mkOptions HYBM_MST_DRAM M r N fd) g (M * N) (part g M r) 0 0 ∅ ∅ [] ∅ ∧ byGva va = ∅ ∧ va_inv va.
Proof.
  intros HM Hpg Hr HN Htot Hok g. unfold ReserveMemorySpace, ValidateOptions. cbn [options_ conn_new segType maxSize rankId rankCnt].
  rewrite bool_decide_true by done. destruct (Z.eqb_spec M 0); [lia|]. rewrite Hpg. cbn [negb orb Z.eqb].
  assert (g = 43980465111040 ∧ HYBM_GVM_END_ADDR = 184717953466368) as [Eg Ee] by done. fold g in Htot.
  destruct (Z.ltb_spec (U64_MAX / M) N) as [Hlt|_].
  { exfalso. assert (N ≤ U64_MAX / M); [|lia]. apply Z.div_le_lower_bound; unfold U64_MAX; lia. }
  cbn [negb Z.eqb BM_OK globalVirtualAddress_ conn_new]. rewrite (Z.mul_comm N M), (u64_small (M * N)) by nia.
  fold g. destruct (Z.ltb_spec (HYBM_GVM_END_ADDR - g) (M * N)); [lia|].
  assert (AllocReserveGva va_new r (M * N) HYBM_MEM_TYPE_HOST =
    (with_reserved va_new {[ g := mkReserved g (M * N) HYBM_MEM_TYPE_HOST r ]}, mkReserved g (M * N) HYBM_MEM_TYPE_HOST r)) as ->.
  { unfold AllocReserveGva, FindFreeSpace. destruct (Z.eqb_spec (M * N) 0); [nia|]. cbn [reserveStart reserveEnd va_new]. fold g.
    destruct (Z.leb_spec HYBM_GVM_END_ADDR g); [lia|]. rewrite (u64_small (HYBM_GVM_END_ADDR - g)) by lia.
    destruct (Z.ltb_spec (HYBM_GVM_END_ADDR - g) (M * N)); [lia|]. done. }
  cbn [r_start]. rewrite Hok. destruct (Z.ltb_spec 0 g); [|lia]. cbn [negb]. split; [done|]. split.
  - unfold conn_new, set_space, part. cbn. f_equal. rewrite u64_small; [done|]. nia.
  - split; [done|]. apply va_inv_ext with va_new; [done..|]. apply va_new_ok.
Qed.

(** ** A run of two ranks *)
Definition demo_M : Z := 4 * HYBM_LARGE_PAGE_SIZE.
Definition demo_rank (r : Z) : HybmConnBasedSegment * HybmVaManager :=
  (ReserveMemorySpace BM_OK (λ _ _, true) (conn_new (mkOptions HYBM_MST_DRAM demo_M r 2 (-1))) va_new).1.
Definition demo_cluster : Cluster := mkCluster (<[0 := demo_rank 0]> (<[1 := demo_rank 1]> ∅)) [].
Definition demo_ok (a n : Z) : bool := a + n <=? 2 ^ 64.
Definition demo_alloc : HybmConnBasedSegment * HybmVaManager * Z * option MemSlice :=
  AllocLocalMemory demo_ok 4096 (demo_rank 1).1 (demo_rank 1).2 HYBM_LARGE_PAGE_SIZE.
Definition demo_export : HybmConnBasedSegment * Z * bytes :=
  Export (repeat "000"%byte 4) demo_alloc.1.1.1 (slices_ demo_alloc.1.1.1 !! 0).

Lemma demo_fresh : fresh HYBM_GVM_START_ADDR demo_M 2 demo_cluster.
Proof.
  split; [done|]. intros r s va.
  assert (∀ q, 0 ≤ q < 2 → (s, va) = demo_rank q →
    0 ≤ q < 2 ∧ (∃ fd, s = mkConn (mkOptions HYBM_MST_DRAM demo_M q 2 fd) HYBM_GVM_START_ADDR (demo_M * 2)
      (part HYBM_GVM_START_ADDR demo_M q) 0 0 ∅ ∅ [] ∅) ∧ byGva va = ∅ ∧ va_inv va) as Hq.
  { intros q Hq E. split; [done|]. pose proof (reserve_first (λ _ _, true) demo_M 2 q (-1)) as Hres.
    unfold demo_rank in E. destruct (ReserveMemorySpace _ _ _ _) as [[s1 va1] ret1]. cbn in E. injection E as -> ->.
    destruct Hres as (_ & Es & Hg & Hv); [done|done|done|done|vm_compute; discriminate|done|]. eauto. }
  cbn. intros [[<- E]|[_ [[<- E]|[_ E]]%lookup_insert_Some]]%lookup_insert_Some; [by apply Hq..|by rewrite lookup_empty in E].
Qed.
Lemma cluster_sound_witness :
  ∃ s va, ((Import s va [demo_export.2]).2 = BM_OK) ∧ (s, va) = demo_rank 0.
Proof.
  exists (demo_rank 0).1, (demo_rank 0).2. split; [|by destruct (demo_rank 0)].
  assert (layout_ok HYBM_GVM_START_ADDR demo_M 2) as Hlay by (vm_compute; done).
  pose (C1 := put demo_cluster 1 demo_alloc.1.1.1 demo_alloc.1.1.2).
  pose (C2 := mkCluster (<[1 := (demo_export.1.1, demo_alloc.1.1.2)]> (c_ranks C1)) (c_msgs C1 ++ [demo_export.2])).
  assert (rtc (cl_step HYBM_GVM_START_ADDR) demo_cluster C2) as Hrun.
  { eapply rtc_l; [|eapply rtc_once].
    - apply (cl_alloc _ demo_cluster 1 (demo_rank 1).1 (demo_rank 1).2 demo_ok 4096 HYBM_LARGE_PAGE_SIZE
        demo_alloc.1.1.1 demo_alloc.1.1.2 demo_alloc.1.2 demo_alloc.2); [by vm_compute| |by vm_compute|].
      + intros a n Hok. by apply Z.leb_le in Hok.
      + unfold demo_alloc. by destruct (AllocLocalMemory _ _ _ _ _) as [[[? ?] ?] ?].
    - apply (cl_export _ C1 1 demo_alloc.1.1.1 demo_alloc.1.1.2 (repeat "000"%byte 4) 0); [done|done|done| |].
      + intros sl Hsl. vm_compute in Hsl. injection Hsl as <-. vm_compute. discriminate.
      + vm_compute. reflexivity. }
  destruct (cluster_sound HYBM_GVM_START_ADDR demo_M 2 Hlay demo_cluster C2 demo_fresh Hrun) as [Hall _].
  destruct (Hall 0 (demo_rank 0).1 (demo_rank 0).2) as [Himp _]; [by vm_compute|].
  apply Himp. repeat constructor.
Defined.

(** ** Failures *)

(** An empty slice shares its address with the next one; releasing it makes the
    address manager forget the other, which stays allocated. *)
Definition empty_release : option (option AllocatedGvaInfo * option AllocatedGvaInfo * option Z) :=
  let '(s0, va0) := demo_rank 0 in
  let '(s1, va1, _, sl1) := AllocLocalMemory demo_ok 4096 s0 va0 0 in
  let '(s2, va2, _, sl2) := AllocLocalMemory demo_ok 8192 s1 va1 HYBM_LARGE_PAGE_SIZE in
  x ← ReleaseSliceMemory s2 va2 sl1;
  sl ← sl2;
  Some (byGva va2 !! vAddress_ sl, byGva x.1.2 !! vAddress_ sl, size_ <$> slices_ x.1.1 !! index_ sl).
Theorem empty_release_forgets : ∃ i, empty_release = Some (Some i, None, Some HYBM_LARGE_PAGE_SIZE).
Proof. eexists. vm_compute. reflexivity. Qed.

(** Releasing a slice keeps its export information under its index: when the 16-bit
    counter comes round to that index, exporting the new slice answers the old one's. *)
Theorem reused_index_exports_stale ok obj s va n padding old s' va' sl :
  exportMap_ s !! sliceCount_ s = Some old → slices_ s !! sliceCount_ s = None →
  AllocLocalMemory ok obj s va n = (s', va', BM_OK, Some sl) → Export padding s' (Some sl) = (s', BM_OK, old).
Proof.
  intros Ex Es. unfold AllocLocalMemory. destruct (_ || _); [done|]. destruct (negb (MapSlice _ _ _ =? _)); [done|].
  destruct (AddVaInfo_base _ _ _) as [va1 ret]. destruct (negb (ret =? 0)) eqn:Er.
  { intros [= <- <- -> <-]. done. }
  intros [= <- <- <-]. unfold Export, known. cbn [slices_ set_alloc index_ exportMap_]. unfold emplace. rewrite Es, lookup_insert_eq, Z.eqb_refl.
  cbn [negb]. by rewrite Ex.
Qed.

(** A reservation that cannot be mapped is not given back. *)
Theorem failed_map_keeps_reservation ok M N r fd :
  0 < M → M mod HYBM_LARGE_PAGE_SIZE = 0 → 0 ≤ r < N → N ≤ U32_MAX → M * N ≤ HYBM_GVM_END_ADDR - HYBM_GVM_START_ADDR →
  (∀ a n, ok a n = false) →
  let '(s, va, ret) := ReserveMemorySpace BM_OK ok (conn_new (mkOptions HYBM_MST_DRAM M r N fd)) va_new in
  ret = BM_ERROR ∧ globalVirtualAddress_ s = 0 ∧
  reserved va !! HYBM_GVM_START_ADDR = Some (mkReserved HYBM_GVM_START_ADDR (M * N) HYBM_MEM_TYPE_HOST r).
Proof.
  intros HM Hpg Hr HN Htot Hok. pose proof (reserve_first (λ _ _, true) M N r fd HM Hpg Hr HN Htot (λ _ _, eq_refl)) as Hres.
  unfold ReserveMemorySpace in *. destruct (negb (ValidateOptions _ =? _)); [by destruct Hres|].
  cbn [globalVirtualAddress_ conn_new options_ rankCnt maxSize rankId] in *.
  destruct (_ <? _); [by destruct Hres|]. cbn [negb Z.eqb BM_OK] in *.
  destruct (AllocReserveGva va_new r _ _) as [va gi] eqn:Ea. destruct (negb (0 <? r_start gi)); [by destruct Hres|].
  cbn [negb] in Hres. rewrite Hok. cbn [negb]. split; [done|]. split; [done|].
  destruct Hres as (_ & Es & _). injection Es as Eg Et _. rewrite Et in Ea.
  unfold AllocReserveGva in Ea. destruct (M * N =? 0) eqn:E0; [apply Z.eqb_eq in E0; nia|].
  destruct (FindFreeSpace _ _ _ _) as [fa found]. destruct found; cbn in Ea; [|injection Ea as _ <-; done].
  injection Ea as <- <-. cbn in Eg |- *. subst fa. by rewrite lookup_insert_eq.
Qed.
