(* ===== verification/Fabric.v ===== *)
(** * The memory fabric

    What the data operations and the transports run against: the memory of every
    rank, and the copies in flight.  A copy is a list of single-byte moves that
    have not been made yet; between any two calls of the program the fabric makes
    any of the outstanding moves, in any order, a move possibly more than once,
    and a copy is over when none is left.  A synchronisation waits until no copy
    with its tag is in flight.

    The program side is the tree of its calls ([Prelude.program]); [wp] demands a
    postcondition for every behaviour of the fabric. *)
From stdpp Require Import base numbers list relations.
From S2P Require Import Prelude.
Local Open Scope Z_scope.

(** ** Programs against a nondeterministic world *)
Section Wp.
Context {W C O : Type} (ok : W → C → Prop) (step : W → C → W → O → Prop).

Fixpoint wp {A} (p : program C O A) (w : W) (Q : A → W → Prop) : Prop :=
  match p with
  | Ret a => Q a w
  | Act c k => ok w c ∧ ∀ w' o, step w c w' o → wp (k o) w' Q
  end.

(** The run of a program against a deterministic world. *)
Fixpoint run {A} (env : W → C → W * O) (p : program C O A) (w : W) : W * A :=
  match p with
  | Ret a => (w, a)
  | Act c k => let '(w, o) := env w c in run env (k o) w
  end.

Lemma wp_mono {A} (p : program C O A) w (Q R : A → W → Prop) :
  wp p w Q → (∀ a w, Q a w → R a w) → wp p w R.
Proof.
  revert w. induction p as [a|c k IH]; intros w; cbn; [by eauto|].
  intros [Hok Hp] HR. split; [done|]. intros w' o Hs. by apply IH; eauto.
Qed.
Lemma wp_seq {A B} (f : A → program C O B) (p : program C O A) w Q :
  wp p w (λ a w, wp (f a) w Q) → wp (p ≫= f) w Q.
Proof.
  revert w. induction p as [a|c k IH]; intros w; [done|].
  intros [Hok Hp]. split; [done|]. intros w' o Hs. apply IH, Hp, Hs.
Qed.
Lemma wp_run {A} env (p : program C O A) w Q :
  (∀ w c, ok w c → step w c (env w c).1 (env w c).2) → wp p w Q → Q (run env p w).2 (run env p w).1.
Proof.
  intros Henv. revert w. induction p as [a|c k IH]; intros w; cbn; [done|].
  intros [Hok Hp]. specialize (Henv w c Hok). destruct (env w c) as [w' o]. apply IH, Hp, Henv.
Qed.
(** The same in worlds the run keeps in [P]. *)
Lemma wp_run_inv {A} (P : W → Prop) env (p : program C O A) w Q :
  (∀ w c, P w → ok w c → step w c (env w c).1 (env w c).2 ∧ P (env w c).1) → P w → wp p w Q → Q (run env p w).2 (run env p w).1.
Proof.
  intros Henv. revert w. induction p as [a|c k IH]; intros w HP; cbn; [done|].
  intros [Hok Hp]. destruct (Henv w c HP Hok) as [Hs HP']. destruct (env w c) as [w' o]. by apply IH, Hp.
Qed.

Lemma wp_and {A} (p : program C O A) w Q R : wp p w Q → wp p w R → wp p w (λ a w, Q a w ∧ R a w).
Proof. revert w. induction p as [a|c k IH]; intros w; [done|]. intros [Hok Hp] [_ Hr]. split; [done|]. intros w' o Hs. apply IH; auto. Qed.
Lemma wp_forall_in {A I} (p : program C O A) w (l : list I) (Q : I → A → W → Prop) :
  wp p w (λ _ _, True) → (∀ i, i ∈ l → wp p w (Q i)) → wp p w (λ a w, ∀ i, i ∈ l → Q i a w).
Proof.
  intros H0. induction l as [|i l IH]; intros H.
  - eapply wp_mono; [exact H0|]. by intros a w' _ i ?%not_elem_of_nil.
  - eapply wp_mono; [apply wp_and; [apply (H i); by left|apply IH; intros j Hj; apply H; by right]|].
    intros a w' [H1 H2] j [-> |Hj]%elem_of_cons; auto.
Qed.

(** The same when the calls made on the way are among the [good] ones. *)
Fixpoint path_ok {A} (good : C → bool) (env : W → C → W * O) (p : program C O A) (w : W) : bool :=
  match p with
  | Ret _ => true
  | Act c k => good c && let '(w, o) := env w c in path_ok good env (k o) w
  end.
Lemma wp_run_path {A} good env (p : program C O A) w Q :
  (∀ w c, ok w c → good c = true → step w c (env w c).1 (env w c).2) → path_ok good env p w = true →
  wp p w Q → Q (run env p w).2 (run env p w).1.
Proof.
  intros Henv. revert w. induction p as [a|c k IH]; intros w; cbn; [done|].
  intros [Hg Hp]%andb_true_iff [Hok Hw]. specialize (Henv w c Hok Hg). destruct (env w c) as [w' o]. by apply IH, Hw.
Qed.

(** Some behaviour of the world leads to [Q]. *)
Fixpoint may {A} (p : program C O A) (w : W) (Q : A → W → Prop) : Prop :=
  match p with
  | Ret a => Q a w
  | Act c k => ∃ w' o, step w c w' o ∧ may (k o) w' Q
  end.
Lemma may_run {A} env (p : program C O A) w :
  (∀ w c, step w c (env w c).1 (env w c).2) → may p w (λ a w', (w', a) = run env p w).
Proof.
  intros Henv. revert w. induction p as [a|c k IH]; intros w; cbn; [done|]. specialize (Henv w c).
  destruct (env w c) as [w' o]. exists w', o. auto.
Qed.
Lemma may_mono {A} (p : program C O A) w (Q R : A → W → Prop) :
  may p w Q → (∀ a w, Q a w → R a w) → may p w R.
Proof.
  revert w. induction p as [a|c k IH]; intros w; cbn; [by eauto|]. intros (w' & o & Hs & Hp) HR. exists w', o. eauto.
Qed.
End Wp.

(** ** What a program may lead to *)
Section Leads.
Context {W C O : Type} (ok : W → C → Prop) (step : W → C → W → O → Prop).
Definition leads {A} (p : program C O A) (w : W) (a : A) (w' : W) : Prop := may step p w (λ a' w'', a' = a ∧ w'' = w').
Lemma wp_leads {A} (p : program C O A) w Q a w' : wp ok step p w Q → leads p w a w' → Q a w'.
Proof.
  revert w. induction p as [b|c k IH]; intros w; cbn; [by intros ? [-> ->]|].
  intros [_ Hp] (w1 & o & Hs & Hm). by eapply IH; [apply Hp|].
Qed.
Lemma leads_run {A} (P : W → Prop) env (p : program C O A) w :
  (∀ w c, P w → step w c (env w c).1 (env w c).2 ∧ P (env w c).1) → P w → leads p w (run env p w).2 (run env p w).1 ∧ P (run env p w).1.
Proof.
  intros Henv. revert w. induction p as [b|c k IH]; intros w Hw; cbn; [done|].
  destruct (Henv w c Hw) as [Hs Hw']. destruct (env w c) as [w1 o]. destruct (IH o w1 Hw') as [Hl HP]. split; [|done]. by exists w1, o.
Qed.
Lemma wp_run_leads {A} (P : W → Prop) env (p : program C O A) w Q :
  (∀ w c, P w → ok w c → step w c (env w c).1 (env w c).2 ∧ P (env w c).1) → P w → wp ok step p w Q →
  leads p w (run env p w).2 (run env p w).1 ∧ P (run env p w).1.
Proof.
  intros Henv. revert w. induction p as [b|c k IH]; intros w Hw; cbn; [done|]. intros [Hok Hp].
  destruct (Henv w c Hw Hok) as [Hs Hw']. destruct (env w c) as [w1 o]. destruct (IH o w1 Hw' (Hp _ _ Hs)) as [Hl HP]. split; [|done]. by exists w1, o.
Qed.
End Leads.

(** ** Memory and copies in flight *)

(** A location: a rank and an address of its memory. *)
Definition Loc : Type := Z * Z.
Definition Memory : Type := Loc → byte.
Definition upd (m : Memory) (d : Loc) (b : byte) : Memory := λ l, if decide (l = d) then b else m l.

(** [(d, s)]: the byte at [s] is to be copied to [d]. *)
Definition Move : Type := Loc * Loc.
Definition moves (dst src : Loc) (n : Z) : list Move :=
  (λ k, ((dst.1, dst.2 + k), (src.1, src.2 + k))) <$> seqZ 0 n.

(** What a copy can be waited for by: the call that makes it, a stream of the
    device, the rank it goes to; [TLost] is waited for by nothing. *)
Inductive Tag := TNow | TLost | TStream (st : Z) | TRank (r : Z).
#[global] Instance Tag_eq_dec : EqDecision Tag.
Proof. solve_decision. Defined.

Record Flight := mkFlight { f_tag : Tag; f_todo : list Move }.
Record World := mkWorld { mem : Memory; flights : list Flight; failed : bool }.

Inductive adv1 : World → World → Prop :=
| adv_move m e fs1 tag t1 d s t2 again fs2 :
    adv1 (mkWorld m (fs1 ++ mkFlight tag (t1 ++ (d, s) :: t2) :: fs2) e)
         (mkWorld (upd m d (m s))
            (fs1 ++ mkFlight tag (t1 ++ (if again : bool then [(d, s)] else []) ++ t2) :: fs2) e)
| adv_retire m e fs1 tag fs2 :
    adv1 (mkWorld m (fs1 ++ mkFlight tag [] :: fs2) e) (mkWorld m (fs1 ++ fs2) e).
Definition adv : World → World → Prop := rtc adv1.

Definition post (w : World) (fs : list Flight) : World := mkWorld (mem w) (flights w ++ fs) (failed w).
Definition fail (w : World) : World := mkWorld (mem w) (flights w) true.
Definition quiet (t : Tag) (w : World) : Prop := ∀ f, f ∈ flights w → f_tag f ≠ t.

(** A copy [ms] that is accepted: split over copies with the tag, each byte in at
    least one; a call that returns when it is done leaves none of them. *)
Definition copy_ok (t : Tag) (ms : list Move) (w w' : World) : Prop :=
  ∃ w1 fs, adv w w1 ∧ (∀ mv, mv ∈ (fs ≫= f_todo) ↔ mv ∈ ms) ∧ Forall (λ f, f_tag f = t) fs ∧ adv (post w1 fs) w' ∧
    (t = TNow → quiet t w').
(** A copy that fails: some of its bytes may have been, or be about to be, copied. *)
Definition copy_failed (ms : list Move) (w w' : World) : Prop :=
  ∃ w1 fs w2, adv w w1 ∧ (∀ mv, mv ∈ (fs ≫= f_todo) → mv ∈ ms) ∧ adv (post w1 fs) w2 ∧ w' = fail w2.
Definition copies (t : Tag) (ms : list Move) (w w' : World) (ret : Z) : Prop :=
  (ret = 0 ∧ copy_ok t ms w w') ∨ (ret ≠ 0 ∧ copy_failed ms w w').
(** A copy that is over when the call returns, whether it fails or not. *)
Definition stops (ms : list Move) (w w' : World) (ret : Z) : Prop :=
  (ret = 0 ∧ copy_ok TNow ms w w') ∨
  (ret ≠ 0 ∧ ∃ part w2, part ⊆ ms ∧ copy_ok TNow part w w2 ∧ w' = fail w2).
Definition waits (t : Tag) (w w' : World) (ret : Z) : Prop :=
  ∃ w1, adv w w1 ∧ ((ret = 0 ∧ quiet t w1 ∧ w' = w1) ∨ (ret ≠ 0 ∧ w' = fail w1)).

(** ** Following a plan of copies

    Since memory [m0] the program has asked for the moves of [plan], to be waited
    for with [t]; [X] are the locations other copies write. *)
Definition all_X (X : Loc → Prop) (f : Flight) : Prop := ∀ d s, (d, s) ∈ f_todo f → X d.
Record following (m0 : Memory) (plan : list Move) (t : Tag) (X : Loc → Prop) (w : World) : Prop := {
  fo_flights : ∀ f, f ∈ flights w → (f_tag f = t ∧ f_todo f ⊆ plan) ∨ all_X X f;
  fo_frame : ∀ l, ¬ X l → l ∉ plan.*1 → mem w l = m0 l;
  fo_plan : ∀ d s, (d, s) ∈ plan →
    mem w d = m0 s ∨ (mem w d = m0 d ∧ ∃ f, f ∈ flights w ∧ f_tag f = t ∧ (d, s) ∈ f_todo f);
}.

(** A plan that can be followed in any order: every destination once, no source is
    a destination, and other copies do not interfere. *)
Record orderly (plan : list Move) (X : Loc → Prop) : Prop := {
  or_nodup : NoDup plan.*1;
  or_src : ∀ d s, (d, s) ∈ plan → s ∉ plan.*1;
  or_X : ∀ d s, (d, s) ∈ plan → ¬ X d ∧ ¬ X s;
}.

(** Nothing is planned: other copies write only [X], the rest of memory is [m0]. *)
Definition still (m0 : Memory) (X : Loc → Prop) (w : World) : Prop := following m0 [] TNow X w.

Lemma or_fun plan X d s s' : orderly plan X → (d, s) ∈ plan → (d, s') ∈ plan → s = s'.
Proof.
  intros Ho. pose proof (or_nodup _ _ Ho) as Hn. clear Ho. induction plan as [|[d0 s0] plan IH]; [by intros ?%not_elem_of_nil|].
  apply NoDup_cons in Hn as [Hn1 Hn2]. rewrite !elem_of_cons. cbn in Hn1.
  assert (∀ s, (d0, s) ∈ plan → False) as Hno by (intros x Hx; apply Hn1, list_elem_of_fmap; by exists (d0, x)).
  intros [E1|H1] [E2|H2]; [by simplify_eq|by simplify_eq; edestruct Hno..|by apply IH].
Qed.

Lemma upd_eq m d b : upd m d b d = b.
Proof. unfold upd. by rewrite decide_True. Qed.
Lemma upd_ne m d b l : l ≠ d → upd m d b l = m l.
Proof. intros H. unfold upd. by rewrite decide_False. Qed.

Lemma elem_of_moves d s n x y :
  (x, y) ∈ moves d s n ↔ ∃ k, 0 ≤ k < n ∧ x = (d.1, d.2 + k) ∧ y = (s.1, s.2 + k).
Proof.
  unfold moves. rewrite list_elem_of_fmap. setoid_rewrite elem_of_seqZ.
  split; [intros (k & [= -> ->] & Hk)|intros (k & Hk & -> & ->)]; exists k; split; done || lia || (split; [done|lia]).
Qed.
Lemma elem_of_moves_dst d s n x : x ∈ (moves d s n).*1 ↔ x.1 = d.1 ∧ d.2 ≤ x.2 < d.2 + n.
Proof.
  rewrite list_elem_of_fmap. split.
  - intros ([a b] & -> & (k & Hk & -> & ->)%elem_of_moves). cbn. lia.
  - destruct x as [r a]. cbn. intros [-> Ha]. exists ((d.1, a), (s.1, s.2 + (a - d.2))). split; [done|].
    apply elem_of_moves. exists (a - d.2). split_and!; [lia..| |done]. f_equal. lia.
Qed.

Section Following.
Context {m0 : Memory} {plan : list Move} {t : Tag} {X : Loc → Prop}.
Context (Ho : orderly plan X).

Lemma plan_dst d s : (d, s) ∈ plan → d ∈ plan.*1.
Proof. intros H. apply list_elem_of_fmap. by exists (d, s). Qed.

(** A move of an own copy reads an untouched source. *)
Lemma own_source w d s : following m0 plan t X w → (d, s) ∈ plan → mem w s = m0 s.
Proof. intros Hf Hin. apply (fo_frame _ _ _ _ _ Hf); [apply (or_X _ _ Ho _ _ Hin)|apply (or_src _ _ Ho _ _ Hin)]. Qed.

Lemma elem_of_again {A} (again : bool) (a x : A) t1 t2 :
  x ∈ t1 ++ (if again then [a] else []) ++ t2 → x ∈ t1 ++ a :: t2.
Proof. destruct again; set_solver. Qed.

Lemma flight_update fs1 (f f' : Flight) fs2 g :
  g ∈ fs1 ++ f' :: fs2 → g = f' ∨ g ∈ fs1 ++ f :: fs2.
Proof. set_solver. Qed.

Lemma adv1_following w w' : adv1 w w' → following m0 plan t X w → following m0 plan t X w'.
Proof.
  intros Ha Hf. destruct Ha as [m e fs1 tag t1 d s t2 again fs2|m e fs1 tag fs2].
  - set (f := mkFlight tag (t1 ++ (d, s) :: t2)) in *.
    assert (f ∈ fs1 ++ f :: fs2) as Hin by set_solver. assert ((d, s) ∈ f_todo f) as Hds by (cbn; set_solver).
    pose proof (fo_flights _ _ _ _ _ Hf f Hin) as Hcase.
    split; cbn [mem flights].
    + intros g [-> |Hg]%(flight_update _ f); [|by apply (fo_flights _ _ _ _ _ Hf)]. cbn [f_tag].
      destruct Hcase as [[Ht Hsub]|HX]; [left; split; [done|]|right].
      * intros x Hx. apply Hsub. cbn in *. by apply elem_of_again in Hx.
      * intros a b Hx. apply (HX a b). cbn in *. by apply elem_of_again in Hx.
    + intros l Hl Hp. rewrite upd_ne; [by apply (fo_frame _ _ _ _ _ Hf)|]. intros ->.
      destruct Hcase as [[Ht Hsub]|HX]; [|by apply Hl, (HX d s)]. by apply Hp, (plan_dst d s), Hsub.
    + intros d' s' Hp. destruct (decide (d' = d)) as [-> |Hne].
      * rewrite upd_eq. destruct Hcase as [[Ht Hsub]|HX]; [|by destruct (or_X _ _ Ho _ _ Hp) as [[] _]; apply (HX d s)].
        left. rewrite (or_fun _ _ d s' s Ho) by auto. apply (own_source _ d s Hf). auto.
      * rewrite upd_ne by done. destruct (fo_plan _ _ _ _ _ Hf _ _ Hp) as [E|(E & g & Hg & Hgt & Hgd)]; [by left|right].
        split; [done|]. apply elem_of_app in Hg. rewrite elem_of_cons in Hg. destruct Hg as [Hg|[-> |Hg]].
        -- exists g. set_solver.
        -- eexists. split; [apply elem_of_app; right; left|]. cbn in *. split; [done|]. set_solver.
        -- exists g. set_solver.
  - split; cbn [mem flights].
    + intros g Hg. apply (fo_flights _ _ _ _ _ Hf). cbn. set_solver.
    + apply (fo_frame _ _ _ _ _ Hf).
    + intros d s Hp. destruct (fo_plan _ _ _ _ _ Hf _ _ Hp) as [E|(E & g & Hg & Hgt & Hgd)]; [by left|right].
      split; [done|]. exists g. split; [|done]. cbn in Hg. apply elem_of_app in Hg. rewrite elem_of_cons in Hg.
      destruct Hg as [Hg|[-> |Hg]]; [set_solver| |set_solver]. cbn in Hgd. set_solver.
Qed.

Lemma adv_following w w' : adv w w' → following m0 plan t X w → following m0 plan t X w'.
Proof. induction 1; eauto using adv1_following. Qed.

(** Once nothing with the tag is in flight the plan is carried out. *)
Lemma quiet_done w : following m0 plan t X w → quiet t w →
  (∀ d s, (d, s) ∈ plan → mem w d = m0 s) ∧ still (mem w) X w.
Proof.
  intros Hf Hq. split.
  - intros d s Hp. destruct (fo_plan _ _ _ _ _ Hf _ _ Hp) as [E|(_ & g & Hg & Hgt & _)]; [done|]. by destruct (Hq g Hg).
  - split; [|done|by intros d s []%not_elem_of_nil]. intros f Hin.
    destruct (fo_flights _ _ _ _ _ Hf f Hin) as [[Ht _]|?]; [by destruct (Hq f Hin)|by right].
Qed.
End Following.

Lemma orderly_nil X : orderly [] X.
Proof. split; [constructor|by intros ? ? ?%not_elem_of_nil..]. Qed.
#[global] Hint Resolve orderly_nil : core.
Lemma orderly_app_l plan ms X : orderly (plan ++ ms) X → orderly plan X.
Proof.
  intros [Hn Hs HX]. rewrite fmap_app in Hn, Hs. apply NoDup_app in Hn as (Hn & _ & _).
  split; [done| |intros d s Hd; apply (HX d s); set_solver]. intros d s Hd. specialize (Hs d s). set_solver.
Qed.
Lemma orderly_app_r plan ms X : orderly (plan ++ ms) X → orderly ms X.
Proof.
  intros [Hn Hs HX]. rewrite fmap_app in Hn, Hs. apply NoDup_app in Hn as (_ & _ & Hn).
  split; [done| |intros d s Hd; apply (HX d s); set_solver]. intros d s Hd. specialize (Hs d s). set_solver.
Qed.
Lemma orderly_fresh plan ms X d s : orderly (plan ++ ms) X → (d, s) ∈ ms → d ∉ plan.*1.
Proof.
  intros [Hn _ _] Hd Hp. rewrite fmap_app in Hn. apply NoDup_app in Hn as (_ & Hn & _).
  apply (Hn d Hp), list_elem_of_fmap. by exists (d, s).
Qed.
Lemma orderly_perm plan plan' X : plan ≡ₚ plan' → orderly plan X → orderly plan' X.
Proof.
  intros Hp [Hn Hs HX]. split.
  - by rewrite <- Hp.
  - intros d s Hd. rewrite <- Hp in Hd |- *. eauto.
  - intros d s Hd. rewrite <- Hp in Hd. eauto.
Qed.
Lemma orderly_less plan X Y : orderly plan X → (∀ l, Y l → X l) → orderly plan Y.
Proof. intros [Hn Hs HX] HY. split; [done..|]. intros d s Hd. destruct (HX d s Hd). split; by intros ?%HY. Qed.

Lemma adv_failed w w' : adv w w' → failed w' = failed w.
Proof. induction 1 as [|? ? ? []]; cbn in *; congruence. Qed.

(** ** What one call does to a plan *)
Lemma follow_none m0 t t' X w : following m0 [] t X w → following m0 [] t' X w.
Proof.
  intros [Hf Hm _]. split; [|done|by intros d s []%not_elem_of_nil]. intros f Hin. right.
  destruct (Hf f Hin) as [[_ Hs]|?]; [|done]. intros d s Hd. by apply Hs, not_elem_of_nil in Hd.
Qed.

(** Everything planned may also be seen as written by others. *)
Lemma follow_widen m0 plan t (X Y : Loc → Prop) w :
  following m0 plan t X w → (∀ l, X l → Y l) → (∀ d s, (d, s) ∈ plan → Y d) → still m0 Y w.
Proof.
  intros [Hf Hm _] HX HY. split; [| |by intros d s []%not_elem_of_nil].
  - intros f Hin. right. destruct (Hf f Hin) as [[_ Hs]|Hs]; intros d s Hd; [by apply (HY d s), Hs|by eapply HX, Hs].
  - intros l Hl _. apply Hm; [by intros ?%HX|]. intros ([d s] & -> & Hin)%list_elem_of_fmap. by apply Hl, (HY d s).
Qed.
Lemma still_widen m0 (X Y : Loc → Prop) w : still m0 X w → (∀ l, X l → Y l) → still m0 Y w.
Proof. intros Hs HX. by eapply follow_widen; [exact Hs|done|intros d s []%not_elem_of_nil]. Qed.
Lemma still_fail m0 X w : still m0 X w → still m0 X (fail w).
Proof. by intros []; split. Qed.

Lemma post_following m0 plan t X w ms fs :
  following m0 plan t X w → (∀ d s, (d, s) ∈ ms → (d ∉ plan.*1) ∧ (¬ X d)) →
  (∀ mv, mv ∈ (fs ≫= f_todo) ↔ mv ∈ ms) → Forall (λ f, f_tag f = t) fs → following m0 (plan ++ ms) t X (post w fs).
Proof.
  intros [Hf Hm Hp] Hfresh Hms Ht. rewrite Forall_forall in Ht. split; cbn [mem flights post].
  - intros f [Hin|Hin]%elem_of_app.
    + destruct (Hf f Hin) as [[? Hs]|?]; [left; split; [done|]|by right]. set_solver.
    + left. split; [by apply Ht|]. intros x Hx. apply elem_of_app. right. apply Hms, list_elem_of_bind. eauto.
  - intros l Hl Hn. apply Hm; [done|]. rewrite fmap_app in Hn. set_solver.
  - intros d s [Hin|Hin]%elem_of_app.
    + destruct (Hp d s Hin) as [?|(? & f & ? & ?)]; [by left|right; split; [done|]]. exists f. set_solver.
    + right. destruct (Hfresh d s Hin) as [Hd HX]. split; [by apply Hm|].
      apply Hms, list_elem_of_bind in Hin as (f & Hd' & Hf'). exists f. set_solver.
Qed.

Lemma still_post m0 X w fs : still m0 X w → (∀ d s, (d, s) ∈ (fs ≫= f_todo) → X d) → still m0 X (post w fs).
Proof.
  intros [Hf Hm _] HX. split; [|done|by intros d s []%not_elem_of_nil].
  intros f [Hin|Hin]%elem_of_app; [by apply Hf|]. right. intros d s Hd. apply (HX d s), list_elem_of_bind. eauto.
Qed.
Lemma still_adv m0 X w w' : adv w w' → still m0 X w → still m0 X w'.
Proof. apply adv_following, orderly_nil. Qed.

(** A copy to locations that count as written by others, accepted or not. *)
Lemma still_copies m0 X t ms w w' ret :
  still m0 X w → (∀ d s, (d, s) ∈ ms → X d) → copies t ms w w' ret → still m0 X w'.
Proof.
  intros Hs HX [[_ (w1 & fs & Ha & Hms & _ & Ha' & _)]|[_ (w1 & fs & w2 & Ha & Hms & Ha' & ->)]].
  - eapply still_adv, still_post; [exact Ha'|by eapply still_adv|]. intros d s Hd. apply Hms in Hd. eauto.
  - eapply still_fail, still_adv, still_post; [exact Ha'|by eapply still_adv|]. intros d s Hd. eauto.
Qed.
Lemma still_waits m0 X t w w' ret : still m0 X w → waits t w w' ret → still m0 X w'.
Proof.
  intros Hs (w1 & Ha & [(_ & _ & ->)|(_ & ->)]); [by eapply still_adv|]. by eapply still_fail, still_adv.
Qed.

(** An accepted copy extends the plan. *)
Lemma follow_copy m0 plan t X ms w w' :
  following m0 plan t X w → orderly (plan ++ ms) X → copy_ok t ms w w' →
  following m0 (plan ++ ms) t X w'.
Proof.
  intros Hf Ho (w1 & fs & Ha & Hms & Ht & Ha' & _).
  eapply (adv_following Ho), post_following; [exact Ha'|by eapply (adv_following (orderly_app_l _ _ _ Ho))| |done|done].
  intros d s Hin. split; [by eapply orderly_fresh|]. apply (or_X _ _ Ho d s). set_solver.
Qed.
(** A copy that returns when it is done. *)
Lemma now_copy m0 X ms w w' :
  still m0 X w → orderly ms X → copy_ok TNow ms w w' →
  (∀ d s, (d, s) ∈ ms → mem w' d = m0 s) ∧ (∀ l, ¬ X l → l ∉ ms.*1 → mem w' l = m0 l) ∧ still (mem w') X w'.
Proof.
  intros Hs Ho Hc. assert (quiet TNow w') as Hq by (destruct Hc as (? & ? & ? & ? & ? & ? & H); by apply H).
  pose proof (follow_copy m0 [] TNow X ms w w' Hs Ho Hc) as Hf. cbn [app] in Hf.
  destruct (quiet_done w' Hf Hq) as [Hd Hst]. split_and!; [done| |done]. apply (fo_frame _ _ _ _ _ Hf).
Qed.
Lemma follow_wait m0 plan t X w w' :
  following m0 plan t X w → orderly plan X → waits t w w' 0 →
  (∀ d s, (d, s) ∈ plan → mem w' d = m0 s) ∧ (∀ l, ¬ X l → l ∉ plan.*1 → mem w' l = m0 l) ∧ still (mem w') X w'.
Proof.
  intros Hf Ho (w1 & Ha & [(_ & Hq & ->)|[? _]]); [|done]. apply (adv_following Ho _ _ Ha) in Hf.
  destruct (quiet_done w1 Hf Hq) as [Hd Hst]. split_and!; [done| |done]. apply (fo_frame _ _ _ _ _ Hf).
Qed.

(** A failure is remembered. *)
Lemma copies_failed t ms w w' ret : copies t ms w w' ret → failed w' = failed w || negb (ret =? 0).
Proof.
  intros [[-> (w1 & fs & Ha & _ & _ & Ha' & _)]|[Hr (w1 & fs & w2 & Ha & _ & Ha' & ->)]].
  - apply adv_failed in Ha, Ha'. cbn in *. rewrite Ha', Ha. by destruct (failed w).
  - cbn. apply Z.eqb_neq in Hr. rewrite Hr. by destruct (failed w).
Qed.
Lemma waits_failed t w w' ret : waits t w w' ret → failed w' = failed w || negb (ret =? 0).
Proof.
  intros (w1 & Ha & [(-> & _ & ->)|(Hr & ->)]); apply adv_failed in Ha.
  - rewrite Ha. by destruct (failed w).
  - apply Z.eqb_neq in Hr. rewrite Hr. by destruct (failed w).
Qed.

(** ** A fabric that copies at once *)
Definition move_all (m : Memory) (ms : list Move) : Memory := foldl (λ m mv, upd m mv.1 (m mv.2)) m ms.
Lemma adv_all m fs t ms e : adv (mkWorld m (fs ++ [mkFlight t ms]) e) (mkWorld (move_all m ms) fs e).
Proof.
  revert m. induction ms as [|[d s] ms IH]; intros m.
  { eapply rtc_once. pose proof (adv_retire m e fs t []) as H. by rewrite app_nil_r in H. }
  eapply rtc_l; [apply (adv_move m e fs t [] d s ms false [])|]. apply IH.
Qed.
(** Everything in flight arrives, the last first. *)
Definition settle (w : World) : World := mkWorld (foldr (λ f m, move_all m (f_todo f)) (mem w) (flights w)) [] (failed w).
Lemma settle_adv w : adv w (settle w).
Proof.
  destruct w as [m fs e]. revert m. induction fs as [|[t ms] fs IH] using rev_ind; intros m; [done|].
  etrans; [apply (adv_all m fs t ms e)|]. unfold settle. cbn. rewrite foldr_app. apply IH.
Qed.
Lemma copy_at_once t ms m e :
  copy_ok t ms (mkWorld m [] e) (mkWorld (move_all m ms) [] e).
Proof.
  exists (mkWorld m [] e), [mkFlight t ms]. split_and!; [done| |by repeat constructor|apply (adv_all m [])|by intros _ f ?%not_elem_of_nil].
  intros mv. cbn. by rewrite app_nil_r.
Qed.

Lemma move_all_other ms m l : l ∉ ms.*1 → move_all m ms l = m l.
Proof.
  revert m. induction ms as [|[x y] ms IH]; intros m Hl; [done|]. cbn in Hl. apply not_elem_of_cons in Hl as [Hne Hl].
  change (move_all (upd m x (m y)) ms l = m l). rewrite IH by done. by apply upd_ne.
Qed.
Lemma move_all_moved X ms m d s : orderly ms X → (d, s) ∈ ms → move_all m ms d = m s.
Proof.
  intros [Hn Hs _]. revert m. induction ms as [|[x y] ms IH]; intros m Hin; [by apply not_elem_of_nil in Hin|]. cbn in Hn.
  apply NoDup_cons in Hn as [Hx Hn]. change (move_all (upd m x (m y)) ms d = m s). apply elem_of_cons in Hin as [E|Hin].
  - simplify_eq. rewrite move_all_other by done. apply upd_eq.
  - rewrite IH; [|done| |done].
    + apply upd_ne. intros ->. apply (Hs d x); [by right|by left].
    + intros d' s' Hd' H. apply (Hs d' s'); [by right|by right].
Qed.

Definition disjoint_moves (ms : list Move) : Prop := NoDup ms.*1 ∧ Forall (λ mv, mv.2 ∉ ms.*1) ms.
#[global] Instance disjoint_moves_dec ms : Decision (disjoint_moves ms).
Proof. unfold disjoint_moves. apply _. Defined.
Lemma disjoint_orderly X ms : (∀ l, ¬ X l) → disjoint_moves ms → orderly ms X.
Proof. intros HX [Hn Hf]. rewrite Forall_forall in Hf. split; [done|intros d s Hin; apply (Hf _ Hin)|by split]. Qed.

(** ** Copies in several steps *)
Lemma adv_tag w w' f : adv w w' → f ∈ flights w' → ∃ f0, f0 ∈ flights w ∧ f_tag f0 = f_tag f.
Proof.
  intros Ha. revert f. induction Ha as [w|w w1 w2 H1 _ IH]; intros f Hf; [by exists f|]. destruct (IH f Hf) as (f1 & Hf1 & <-).
  destruct H1 as [m e fs1 tag t1 d s t2 again fs2|m e fs1 tag fs2]; cbn in *.
  - apply elem_of_app in Hf1. rewrite elem_of_cons in Hf1. destruct Hf1 as [H|[-> |H]]; [exists f1; set_solver| |exists f1; set_solver].
    eexists. split; [apply elem_of_app; right; left|done].
  - exists f1. set_solver.
Qed.
Lemma quiet_adv t w w' : adv w w' → quiet t w → quiet t w'.
Proof. intros Ha Hq f Hf. destruct (adv_tag _ _ _ Ha Hf) as (f0 & Hf0 & <-). by apply Hq. Qed.
Lemma adv_post w w' fs : adv w w' → adv (post w fs) (post w' fs).
Proof.
  induction 1 as [|w w1 w2 Ha _ IH]; [done|]. eapply rtc_l; [|exact IH]. unfold post.
  destruct Ha as [m e fs1 tag t1 d s t2 again fs2|m e fs1 tag fs2]; cbn; rewrite <- !app_assoc, <- ?app_comm_cons; constructor.
Qed.
Lemma post_app w fs fs' : post w (fs ++ fs') = post (post w fs) fs'.
Proof. unfold post. cbn. by rewrite app_assoc. Qed.

(** The moves [ms] have been posted with the tag, at any time between the worlds. *)
Definition sent (t : Tag) (ms : list Move) (w w' : World) : Prop :=
  ∃ w1 fs, adv w w1 ∧ (∀ mv, mv ∈ (fs ≫= f_todo) ↔ mv ∈ ms) ∧ Forall (λ f, f_tag f = t) fs ∧ adv (post w1 fs) w'.

Lemma copy_ok_sent t ms w w' : copy_ok t ms w w' ↔ sent t ms w w' ∧ (t = TNow → quiet t w').
Proof. unfold copy_ok, sent. naive_solver. Qed.
Lemma sent_nil t w w' : adv w w' → sent t [] w w'.
Proof. intros Ha. exists w', []. split_and!; [done|done|constructor|]. unfold post. rewrite app_nil_r. by destruct w'. Qed.
Lemma sent_app t A B w w1 w2 : sent t A w w1 → sent t B w1 w2 → sent t (A ++ B) w w2.
Proof.
  intros (w0 & fs & Ha & Hm & Ht & Ha') (w3 & fs' & Hb & Hm' & Ht' & Hb'). exists w0, (fs ++ fs'). split_and!; [done| | |].
  - intros mv. rewrite bind_app, !elem_of_app. naive_solver.
  - by apply Forall_app.
  - rewrite post_app. etrans; [apply adv_post|exact Hb']. by etrans.
Qed.
Lemma sent_adv_l t ms w w1 w2 : adv w w1 → sent t ms w1 w2 → sent t ms w w2.
Proof. intros Ha Hs. by apply (sent_app t [] ms w w1 w2); [apply sent_nil|]. Qed.
Lemma sent_adv_r t ms w w1 w2 : sent t ms w w1 → adv w1 w2 → sent t ms w w2.
Proof. intros (w0 & fs & Ha & Hm & Ht & Ha') Hb. exists w0, fs. split_and!; [done..|by etrans]. Qed.
Lemma sent_same t A B w w' : (∀ mv, mv ∈ A ↔ mv ∈ B) → sent t A w w' → sent t B w w'.
Proof. intros He (w0 & fs & Ha & Hm & Ht & Ha'). exists w0, fs. split_and!; [done| |done..]. intros mv. by rewrite Hm. Qed.
Lemma sent_failed t A ms w w' : sent t A w w' → A ⊆ ms → copy_failed ms w (fail w').
Proof.
  intros (w0 & fs & Ha & Hm & _ & Ha') Hs. exists w0, fs, w'. split_and!; [done| |done..]. intros mv Hmv. by apply Hs, Hm.
Qed.

Lemma stops_copies ms w w' ret : stops ms w w' ret → copies TNow ms w w' ret.
Proof. intros [?|[Hr (part & w2 & Hp & [Hs _]%copy_ok_sent & ->)]]; [by left|right]. split; [done|]. by eapply sent_failed. Qed.
(** The copy has been given up before its first move, after everything else arrived. *)
Lemma stops_none ms w ret : ret ≠ 0 → stops ms w (fail (settle w)) ret.
Proof.
  intros Hr. right. split; [done|]. exists [], (settle w). split_and!; [apply list_subseteq_nil| |done].
  apply copy_ok_sent. split; [apply sent_nil, settle_adv|by intros _ f ?%not_elem_of_nil].
Qed.

(** The mark of a failure plays no part in what the fabric does. *)
Definition flagged (e : bool) (w : World) : World := mkWorld (mem w) (flights w) e.
Lemma adv_flagged e w w' : adv w w' → adv (flagged e w) (flagged e w').
Proof. induction 1 as [|w w1 w2 Ha _ IH]; [done|]. eapply rtc_l; [|exact IH]. destruct Ha; unfold flagged; cbn; constructor. Qed.
Lemma sent_flagged e t ms w w' : sent t ms w w' → sent t ms (flagged e w) (flagged e w').
Proof.
  intros (w0 & fs & Ha & Hm & Ht & Ha'). exists (flagged e w0), fs. split_and!; [by apply adv_flagged|done|done|].
  by apply (adv_flagged e) in Ha'.
Qed.
Lemma copies_flagged e t ms w w' ret : copies t ms w w' ret → copies t ms (flagged e w) (flagged (e || negb (ret =? 0)) w') ret.
Proof.
  intros [[-> (Hs & Hq)%copy_ok_sent]|[Hr (w1 & fs & w2 & Ha & Hm & Ha' & ->)]].
  - rewrite orb_false_r. left. split; [done|]. apply copy_ok_sent. split; [by apply sent_flagged|done].
  - right. split; [done|]. exists (flagged e w1), fs, (flagged e w2). apply Z.eqb_neq in Hr. rewrite Hr, orb_true_r.
    split_and!; [by apply adv_flagged|done|by apply (adv_flagged e) in Ha'|done].
Qed.
Lemma stops_flagged e ms w w' ret : stops ms w w' ret → stops ms (flagged e w) (flagged (e || negb (ret =? 0)) w') ret.
Proof.
  assert (∀ part w2, copy_ok TNow part w w2 → copy_ok TNow part (flagged e w) (flagged e w2)) as Hf.
  { intros part w2 [Hs Hq]%copy_ok_sent. apply copy_ok_sent. split; [by apply sent_flagged|done]. }
  intros [[-> Hc]|[Hr (part & w2 & Hp & Hc & ->)]].
  - rewrite orb_false_r. left. auto.
  - apply Z.eqb_neq in Hr as Hb. rewrite Hb, orb_true_r. right. split; [done|]. exists part, (flagged e w2). auto.
Qed.
Lemma waits_flagged e t w w' ret : waits t w w' ret → waits t (flagged e w) (flagged (e || negb (ret =? 0)) w') ret.
Proof.
  intros (w1 & Ha & [(-> & Hq & ->)|(Hr & ->)]).
  - rewrite orb_false_r. exists (flagged e w1). split; [by apply adv_flagged|]. by left.
  - apply Z.eqb_neq in Hr as Hb. rewrite Hb, orb_true_r. exists (flagged e w1). split; [by apply adv_flagged|]. by right.
Qed.

(** Every call of a program satisfies [P] and every result [R], whatever the answers. *)
Fixpoint asks {C O A} (P : C → Prop) (R : A → Prop) (p : program C O A) : Prop :=
  match p with
  | Ret a => R a
  | Act c k => P c ∧ ∀ o, asks P R (k o)
  end.
Abbreviation calls P p := (asks P (λ _, True) p).
Lemma asks_seq {C O A B} (P : C → Prop) R (f : A → program C O B) (p : program C O A) :
  asks P (λ a, asks P R (f a)) p → asks P R (p ≫= f).
Proof. induction p as [a|c k IH]; [done|]. intros [Hc Hk]. split; [done|]. intros o. by apply IH. Qed.
Lemma asks_mono {C O A} (P P' : C → Prop) (R R' : A → Prop) (p : program C O A) :
  asks P R p → (∀ c, P c → P' c) → (∀ a, R a → R' a) → asks P' R' p.
Proof. intros Hp HP HR. induction p as [a|c k IH]; [by apply HR|]. destruct Hp as [Hc Hk]. split; [by apply HP|]. intros o. by apply IH. Qed.
Lemma calls_seq {C O A B} (P : C → Prop) (f : A → program C O B) (p : program C O A) :
  calls P p → (∀ a, calls P (f a)) → calls P (p ≫= f).
Proof. intros Hp Hf. apply asks_seq. eapply asks_mono; [exact Hp|done|]. intros a _. apply Hf. Qed.

(** ** Copies beside a plan

    Copies to places that count as written by others leave a plan as it is. *)
Lemma follow_post m0 plan t X w fs : following m0 plan t X w → (∀ d s, (d, s) ∈ (fs ≫= f_todo) → X d) → following m0 plan t X (post w fs).
Proof.
  intros [Hf Hm Hp] HX. split; [|done|].
  - intros f [Hin|Hin]%elem_of_app; [by apply Hf|]. right. intros d s Hd. apply (HX d s), list_elem_of_bind. eauto.
  - intros d s Hd. destruct (Hp d s Hd) as [?|(E & f & Hf' & Hrest)]; [by left|right]. split; [done|]. exists f. split; [|done].
    apply elem_of_app. by left.
Qed.
Lemma follow_fail m0 plan t X w : following m0 plan t X w → following m0 plan t X (fail w).
Proof. by intros []; split. Qed.
Lemma follow_copies m0 plan t X t' ms w w' ret : orderly plan X → following m0 plan t X w → (∀ d s, (d, s) ∈ ms → X d) →
  copies t' ms w w' ret → following m0 plan t X w'.
Proof.
  intros Ho Hs HX [[_ (w1 & fs & Ha & Hms & _ & Ha' & _)]|[_ (w1 & fs & w2 & Ha & Hms & Ha' & ->)]].
  - eapply (adv_following Ho), follow_post; [exact Ha'|by eapply (adv_following Ho)|]. intros d s Hd. apply Hms in Hd. eauto.
  - eapply follow_fail, (adv_following Ho), follow_post; [exact Ha'|by eapply (adv_following Ho)|]. intros d s Hd. eauto.
Qed.
Lemma follow_waits m0 plan t X t' w w' ret : orderly plan X → following m0 plan t X w → waits t' w w' ret → following m0 plan t X w'.
Proof.
  intros Ho Hs (w1 & Ha & [(_ & _ & ->)|(_ & ->)]); [|apply follow_fail]; by eapply (adv_following Ho).
Qed.
