(* ===== verification/HybmTask.v ===== *)
(** * Tasks of a stream (ts_engine/hybm_task.h)

    The entry of a submission queue that asks the device for a copy.  Addresses are
    split into halves and the length has 32 bits; the fields that are always zero are
    left out. *)
From stdpp Require Import base numbers.
From S2P Require Import Prelude.
Local Open Scope Z_scope.

Definition RT_STARS_SQE_TYPE_SDMA : Z := 11.
Definition RT_STARS_DEFAULT_KERNEL_CREDIT : Z := 254.
Definition STREAM_TASK_TYPE_SDMA : Z := 1.
Definition HYBM_SQCQ_DEPTH : Z := 2048.

Record rtStarsSqeHeader_t := mkHeader { sqe_type : Z; wr_cqe : bool; rt_stream_id : Z; task_id : Z }.
Record rtStarsMemcpyAsyncSqe_t := mkSqe {
  header : rtStarsSqeHeader_t;
  kernelCredit : Z; sssv : Z; dssv : Z; sns : Z; dns : Z; qos : Z;
  sqe_length : Z;
  src_addr_low : Z; src_addr_high : Z; dst_addr_low : Z; dst_addr_high : Z;
}.
Record StreamTask := mkTask { task_type : Z; sqe : rtStarsMemcpyAsyncSqe_t }.

Definition zero_task : StreamTask := mkTask 0 (mkSqe (mkHeader 0 false 0 0) 0 0 0 0 0 0 0 0 0 0 0).
Definition set_task_id (t : StreamTask) (id : Z) : StreamTask :=
  let s := sqe t in let h := header s in
  mkTask (task_type t) (mkSqe (mkHeader (sqe_type h) (wr_cqe h) (rt_stream_id h) (u16 id)) (kernelCredit s) (sssv s) (dssv s) (sns s) (dns s) (qos s)
    (sqe_length s) (src_addr_low s) (src_addr_high s) (dst_addr_low s) (dst_addr_high s)).
(** The addresses the device reads. *)
Definition sqe_src (s : rtStarsMemcpyAsyncSqe_t) : Z := src_addr_high s * 2 ^ 32 + src_addr_low s.
Definition sqe_dst (s : rtStarsMemcpyAsyncSqe_t) : Z := dst_addr_high s * 2 ^ 32 + dst_addr_low s.

(** The halves of an address. *)
Definition low32 (a : Z) : Z := u32 (Z.land a 0x00000000FFFFFFFF).
Definition high32 (a : Z) : Z := u32 (Z.shiftr (Z.land a 0xFFFFFFFF00000000) 32).
Lemma halves a : 0 ≤ a < 2 ^ 64 → high32 a * 2 ^ 32 + low32 a = a.
Proof.
  intros Ha. unfold low32, high32. change 0x00000000FFFFFFFF with (Z.ones 32). rewrite Z.land_ones by lia.
  assert (Z.shiftr (Z.land a 0xFFFFFFFF00000000) 32 = a / 2 ^ 32) as ->.
  { rewrite Z.shiftr_land. change (Z.shiftr 0xFFFFFFFF00000000 32) with (Z.ones 32). rewrite Z.land_ones, Z.shiftr_div_pow2 by lia.
    apply Z.mod_small. split; [by apply Z.div_pos; lia|]. apply Z.div_lt_upper_bound; lia. }
  pose proof (Z.mod_pos_bound a (2 ^ 32) ltac:(lia)).
  rewrite !u32_small; [|lia|split; [by apply Z.div_pos; lia|by apply Z.div_lt_upper_bound; lia]].
  pose proof (Z.div_mod a (2 ^ 32) ltac:(lia)). lia.
Qed.
