(* ===== verification/HostDataOp.v ===== *)
(** * Copies over host RDMA

    data_operation/host/hybm_data_op_host_rdma: copies between local memory (host
    or device) and the global host memory of a rank.  Local global memory is
    copied directly; remote memory goes through a staging buffer (the swap space),
    a piece of which is taken from a [RangePool] for each chunk or batch and given
    back when the scope ends, or, when the local memory is registered with the
    transport, directly.

    A method is a program over [Call]: what it, or one of the operators over device
    RDMA and SDMA, asks of the device runtime, the transport manager and the address
    manager.  [Undefined] is a use of a null pointer. *)
From Stdlib Require Import Strings.Byte.
From stdpp Require Import base numbers list gmap.
From S2P Require Import Prelude RangePool VaManager Fabric HybmTask.
Local Open Scope Z_scope.
Local Open Scope mf_scope.

Definition BM_MALLOC_FAILED : Z := -3.
Definition BM_DL_FUNCTION_FAILED : Z := -6.
Definition BM_NOT_INITIALIZED : Z := -9.

(** The size of the swap space in the two builds, with a device and without. *)
Definition RDMA_SWAP_SPACE_SIZE : Z := 1024 * 1024 * 1024.
Definition RDMA_SWAP_SPACE_SIZE_NO_XPU : Z := 1024 * 1024 * 1024 * 4.
Definition HYBM_PRE_REG_SIZE_THRES : Z := 8192 * 1024.
Definition SMALL_IO_LIMIT_SIZE : Z := 1024 * 8.
Definition REG_MR_FLAG_DRAM : Z := 0x1.
Definition MAP_FAILED : Z := 2 ^ 64 - 1.

(** ** What is asked for *)
Inductive MemcpyKind :=
| ACL_MEMCPY_HOST_TO_HOST | ACL_MEMCPY_HOST_TO_DEVICE | ACL_MEMCPY_DEVICE_TO_HOST | ACL_MEMCPY_DEVICE_TO_DEVICE.

(** One entry of the three vectors of a copy descriptor, which grow together. *)
Record CopyItem := mkItem { localAddr : Z; globalAddr : Z; count : Z }.
Abbreviation CopyDescriptor := (list CopyItem).
Record hybm_copy_params := mkParams { src : Z; dest : Z; dataSize : Z }.

Inductive Call :=
| Undefined
| Mmap (n : Z)
| Munmap (addr n : Z)
| Free (addr : Z)
| MallocHost (n : Z)
| FreeHost (addr : Z)
| InferDirection (src dst : Z)
| GetThreadAclStream
| Memcpy (dst src n : Z) (kind : MemcpyKind)
| MemcpyAsync (dst src n : Z) (kind : MemcpyKind) (st : Z)
| MemcpyBatch (kind : MemcpyKind) (jobs : list hybm_copy_params)
| StreamSynchronize (st : Z)
| RegisterMemoryRegion (addr size flags : Z)
| UnregisterMemoryRegion (addr : Z)
| QueryHasRegistered (addr size : Z)
| ReadRemote (rank lAddr rAddr n : Z)
| WriteRemote (rank lAddr rAddr n : Z)
| ReadRemoteAsync (rank lAddr rAddr n : Z)
| WriteRemoteAsync (rank lAddr rAddr n : Z)
| ReadRemoteBatchAsync (rank : Z) (d : CopyDescriptor)
| WriteRemoteBatchAsync (rank : Z) (d : CopyDescriptor)
| Synchronize (rank : Z)
| AclMalloc (n : Z)
| AclFree (addr : Z)
| RtMemcpyAsync (dst src n st : Z)
| HybmCopyExtend (src dst n dim st : Z)
| GetThreadHybmStream
| SubmitTasks (task : StreamTask)
| HybmSynchronize
| DestroyAllThreadHybmStream
| HalHostRegister (addr n : Z)
| HalHostUnregister (addr : Z)
| LoadMask (k : Z)
| CasMask (k : Z)
| StoreMask (k v : Z)
| WriteParams (k : Z) (jobs : list hybm_copy_params)
| HybmBatchCopyExtend (k : Z) (jobs : list hybm_copy_params) (dim st : Z).
Abbreviation prog := (program Call Z).
Definition call (c : Call) : prog Z := Act c Ret.
Definition undefined {A} (a : A) : prog A := Act Undefined (λ _, Ret a).

Record ExtOptions := mkOptions { srcRankId : Z; destRankId : Z; stream : Z }.
(** The arrays of a batch: their addresses and the values stored in them. *)
Record hybm_batch_copy_params := mkBatch {
  sources_at : Z; destinations_at : Z; batch : list hybm_copy_params;
}.

Record HostDataOpRDMA := mkOp {
  inited_ : bool;
  rankId_ : Z;
  rdmaSwapBaseAddr_ : Z;
  transportManager_ : bool;
  rdmaSwapMemoryAllocator_ : option RbtreeRangePool;
}.
Definition set_pool (op : HostDataOpRDMA) (p : RbtreeRangePool) : HostDataOpRDMA :=
  mkOp (inited_ op) (rankId_ op) (rdmaSwapBaseAddr_ op) (transportManager_ op) (Some p).
Definition op_new (rankId : Z) (transport : bool) : HostDataOpRDMA := mkOp false rankId nullptr transport None.

Definition direction_code (d : hybm_data_copy_direction) : Z :=
  match d with
  | HYBM_LOCAL_HOST_TO_GLOBAL_HOST => 0 | HYBM_LOCAL_HOST_TO_GLOBAL_DEVICE => 1
  | HYBM_LOCAL_DEVICE_TO_GLOBAL_HOST => 2 | HYBM_LOCAL_DEVICE_TO_GLOBAL_DEVICE => 3
  | HYBM_GLOBAL_HOST_TO_GLOBAL_HOST => 4 | HYBM_GLOBAL_HOST_TO_GLOBAL_DEVICE => 5
  | HYBM_GLOBAL_HOST_TO_LOCAL_HOST => 6 | HYBM_GLOBAL_HOST_TO_LOCAL_DEVICE => 7
  | HYBM_GLOBAL_DEVICE_TO_GLOBAL_HOST => 8 | HYBM_GLOBAL_DEVICE_TO_GLOBAL_DEVICE => 9
  | HYBM_GLOBAL_DEVICE_TO_LOCAL_HOST => 10 | HYBM_GLOBAL_DEVICE_TO_LOCAL_DEVICE => 11
  | HYBM_DATA_COPY_DIRECTION_AUTO => 12 | HYBM_DATA_COPY_DIRECTION_BUTT => 13
  end.

(** ** hybm_data_operator.h: where the memory of a type lies in the global space *)
Record GvaSpace := mkSpace { gva_ : Z; localSpaceSize_ : Z; rankCount_ : Z }.
(** The entries for device and host memory, in the order of the loop; a division
    by a size of zero is undefined, and not reached: the range is then empty. *)
Fixpoint GetRankIdByGva (spaces : list GvaSpace) (gva : Z) : Z :=
  match spaces with
  | [] => U32_MAX
  | s :: spaces =>
      if (gva_ s <=? gva) && (gva <? gva_ s +64 u64 (rankCount_ s * localSpaceSize_ s))
      then u32 ((gva -64 gva_ s) / localSpaceSize_ s) else GetRankIdByGva spaces gva
  end.
Definition UpdateGvaSpace (spaces : list GvaSpace) (type gva localSpaceSize rankCount : Z) : list GvaSpace :=
  if (type =? HYBM_MEM_TYPE_BUTT) || (localSpaceSize =? 0) then spaces else
  <[Z.to_nat type := mkSpace gva localSpaceSize rankCount]> spaces.

Section HostDataOp.
Context (swapSize : Z).

(** ** Start and end *)
Definition Initialize (op : HostDataOpRDMA) : prog (HostDataOpRDMA * Z) :=
  if inited_ op then Ret (op, BM_OK) else
  addr ← call (Mmap swapSize);
  if addr =? MAP_FAILED then
    Ret (mkOp false (rankId_ op) addr (transportManager_ op) (rdmaSwapMemoryAllocator_ op), BM_ERROR) else
  ret ← (if transportManager_ op then call (RegisterMemoryRegion addr swapSize REG_MR_FLAG_DRAM) else Ret BM_OK);
  if negb (ret =? BM_OK) then
    call (Free addr) ≫= λ _,
    Ret (mkOp false (rankId_ op) nullptr (transportManager_ op) (rdmaSwapMemoryAllocator_ op), BM_MALLOC_FAILED)
  else Ret (mkOp true (rankId_ op) addr (transportManager_ op) (Some (pool_create addr swapSize)), BM_OK).

Definition UnInitialize (op : HostDataOpRDMA) : prog HostDataOpRDMA :=
  if negb (inited_ op) then Ret op else
  _ ← (if transportManager_ op && negb (rdmaSwapBaseAddr_ op =? nullptr)
       then call (UnregisterMemoryRegion (rdmaSwapBaseAddr_ op)) else Ret 0);
  _ ← (if negb (rdmaSwapBaseAddr_ op =? nullptr) then call (Munmap (rdmaSwapBaseAddr_ op) swapSize) else Ret 0);
  Ret (mkOp false (rankId_ op) nullptr (transportManager_ op) (rdmaSwapMemoryAllocator_ op)).

(** ** Registering local memory for the time of a copy *)
Definition GetLocalMrAddr (params : hybm_copy_params) (direction : hybm_data_copy_direction) : prog Z :=
  realDirection ← match direction with
                  | HYBM_DATA_COPY_DIRECTION_AUTO => call (InferDirection (src params) (dest params))
                  | _ => Ret (direction_code direction)
                  end;
  Ret (if realDirection <=? direction_code HYBM_LOCAL_DEVICE_TO_GLOBAL_DEVICE then src params else dest params).

Definition PreRegisterLocalMr (op : HostDataOpRDMA) (params : hybm_copy_params) (direction : hybm_data_copy_direction)
    : prog unit :=
  if negb (transportManager_ op) || (dataSize params <=? HYBM_PRE_REG_SIZE_THRES) then Ret () else
  addr ← GetLocalMrAddr params direction;
  registered ← call (QueryHasRegistered addr (dataSize params));
  if negb (registered =? 0) then Ret () else
  _ ← call (RegisterMemoryRegion addr (dataSize params) REG_MR_FLAG_DRAM);
  Ret ().

(** ** One copy through the swap space *)

(** A piece of the swap space for the time of [body]: the element is destroyed
    when the scope ends, however it ends. *)
Definition with_swap (op : HostDataOpRDMA) (n : Z) (body : Z → prog Z) : prog (HostDataOpRDMA * Z) :=
  match rdmaSwapMemoryAllocator_ op with
  | None => undefined (op, BM_ERROR)
  | Some p =>
      let '(p, tmpRdmaMemory) := pool_Allocate p n in
      let tmpHost := startAddress tmpRdmaMemory in
      let done ret := Ret (set_pool op (element_destroy p tmpRdmaMemory).1, ret) in
      if tmpHost =? nullptr then done BM_MALLOC_FAILED else
      body tmpHost ≫= done
  end.

Definition put_chunk (destRank currentSrc currentDest n : Z) (isLocalHost : bool) (tmpHost : Z) : prog Z :=
  ret ← call (Memcpy tmpHost currentSrc n (if isLocalHost then ACL_MEMCPY_HOST_TO_HOST else ACL_MEMCPY_DEVICE_TO_HOST));
  if negb (ret =? BM_OK) then Ret ret else
  call (WriteRemote destRank tmpHost currentDest n).
Definition get_chunk (srcRank currentSrc currentDest n : Z) (isLocalHost : bool) (tmpHost : Z) : prog Z :=
  ret ← call (ReadRemote srcRank tmpHost currentSrc n);
  if negb (ret =? BM_OK) then Ret ret else
  call (Memcpy currentDest tmpHost n (if isLocalHost then ACL_MEMCPY_HOST_TO_HOST else ACL_MEMCPY_HOST_TO_DEVICE)).

(** The chunk loop of [SafePut] and [SafeGet]. *)
Fixpoint chunk_loop (fuel : nat) (chunk : Z → Z → Z → Z → prog Z) (op : HostDataOpRDMA)
    (srcBase destBase remainingLength offset ret : Z) : prog (HostDataOpRDMA * Z) :=
  if remainingLength <=? 0 then Ret (op, ret) else
  match fuel with
  | O => undefined (op, ret)
  | S fuel =>
      let currentChunkSize := Z.min remainingLength swapSize in
      '(op, ret) ← with_swap op currentChunkSize
                     (chunk (srcBase +64 offset) (destBase +64 offset) currentChunkSize);
      if negb (ret =? BM_OK) then Ret (op, ret) else
      chunk_loop fuel chunk op srcBase destBase (remainingLength -64 currentChunkSize) (offset +64 currentChunkSize) ret
  end.
Definition chunk_fuel (length : Z) : nat := Z.to_nat (length / swapSize + 1).

Definition SafePut (op : HostDataOpRDMA) (srcVA destVA length : Z) (options : ExtOptions) (isLocalHost : bool)
    : prog (HostDataOpRDMA * Z) :=
  chunk_loop (chunk_fuel length) (λ s d n, put_chunk (destRankId options) s d n isLocalHost) op srcVA destVA length 0 0.
Definition SafeGet (op : HostDataOpRDMA) (srcVA destVA length : Z) (options : ExtOptions) (isLocalHost : bool)
    : prog (HostDataOpRDMA * Z) :=
  chunk_loop (chunk_fuel length) (λ s d n, get_chunk (srcRankId options) s d n isLocalHost) op srcVA destVA length 0 0.

Definition copy_to (op : HostDataOpRDMA) (srcVA destVA length : Z) (options : ExtOptions) (host : bool)
    : prog (HostDataOpRDMA * Z) :=
  if destRankId options =? rankId_ op then
    ret ← call (Memcpy destVA srcVA length (if host then ACL_MEMCPY_HOST_TO_HOST else ACL_MEMCPY_DEVICE_TO_HOST));
    Ret (op, ret)
  else if transportManager_ op then SafePut op srcVA destVA length options host
  else Ret (op, BM_ERROR).
Definition CopyHost2Gva op srcVA destVA length options := copy_to op srcVA destVA length options true.
Definition CopyDevice2Gva op srcVA destVA length options := copy_to op srcVA destVA length options false.

Definition copy_from (op : HostDataOpRDMA) (srcVA destVA length : Z) (options : ExtOptions) (host : bool)
    : prog (HostDataOpRDMA * Z) :=
  if srcRankId options =? rankId_ op then
    ret ← call (Memcpy destVA srcVA length (if host then ACL_MEMCPY_HOST_TO_HOST else ACL_MEMCPY_HOST_TO_DEVICE));
    Ret (op, ret)
  else if transportManager_ op then SafeGet op srcVA destVA length options host
  else Ret (op, BM_ERROR).
Definition CopyGva2Host op srcVA destVA length options := copy_from op srcVA destVA length options true.
Definition CopyGva2Device op srcVA destVA length options := copy_from op srcVA destVA length options false.

Definition CopyGva2Gva (op : HostDataOpRDMA) (srcVA destVA length : Z) (options : ExtOptions)
    : prog (HostDataOpRDMA * Z) :=
  if srcRankId options =? rankId_ op then CopyHost2Gva op srcVA destVA length options else
  if destRankId options =? rankId_ op then CopyGva2Host op srcVA destVA length options else
  Ret (op, BM_INVALID_PARAM).

Definition DataCopy (op : HostDataOpRDMA) (params : hybm_copy_params) (direction : hybm_data_copy_direction)
    (options : ExtOptions) : prog (HostDataOpRDMA * Z) :=
  if negb (inited_ op) then Ret (op, BM_NOT_INITIALIZED) else
  _ ← PreRegisterLocalMr op params direction;
  let copy f := f op (src params) (dest params) (dataSize params) options in
  '(op, ret) ←
    match direction with
    | HYBM_LOCAL_HOST_TO_GLOBAL_HOST => copy CopyHost2Gva
    | HYBM_LOCAL_DEVICE_TO_GLOBAL_HOST => copy CopyDevice2Gva
    | HYBM_GLOBAL_HOST_TO_GLOBAL_HOST => copy CopyGva2Gva
    | HYBM_GLOBAL_HOST_TO_LOCAL_HOST => copy CopyGva2Host
    | HYBM_GLOBAL_HOST_TO_LOCAL_DEVICE => copy CopyGva2Device
    | _ => Ret (op, BM_INVALID_PARAM)
    end;
  if negb (transportManager_ op) then undefined (op, ret) else
  addr ← GetLocalMrAddr params direction;
  _ ← call (UnregisterMemoryRegion addr);
  Ret (op, ret).

Definition DataCopyAsync (op : HostDataOpRDMA) : prog (HostDataOpRDMA * Z) :=
  Ret (op, if inited_ op then BM_ERROR else BM_NOT_INITIALIZED).
Definition Wait (op : HostDataOpRDMA) : prog (HostDataOpRDMA * Z) :=
  Ret (op, if inited_ op then BM_OK else BM_NOT_INITIALIZED).

(** ** Batches *)

(** Calls of the transport manager go through its pointer. *)
Definition tcall (op : HostDataOpRDMA) (c : Call) : prog Z := if transportManager_ op then call c else undefined 0.

(** A loop of calls that stops at the first error. *)
Fixpoint submit {A} (f : A → prog Z) (l : list A) : prog Z :=
  match l with
  | [] => Ret BM_OK
  | a :: l => ret ← f a; if negb (ret =? BM_OK) then Ret ret else submit f l
  end.

(** The addresses taken are those of the array entries, [&params.sources[i]]. *)
Definition entry_params (params : hybm_batch_copy_params) (p : hybm_copy_params) (i : Z) : hybm_copy_params :=
  mkParams (sources_at params +64 8 * i) (destinations_at params +64 8 * i) (dataSize p).
Definition batch_entries (params : hybm_batch_copy_params) : list hybm_copy_params :=
  imap (λ i p, entry_params params p (Z.of_nat i)) (batch params).
Fixpoint each {A} (f : A → prog unit) (l : list A) : prog unit :=
  match l with
  | [] => Ret ()
  | a :: l => _ ← f a; each f l
  end.
Definition BatchPreRegisterLocalMr (op : HostDataOpRDMA) (params : hybm_batch_copy_params)
    (direction : hybm_data_copy_direction) : prog unit :=
  each (λ p, PreRegisterLocalMr op p direction) (batch_entries params).
Definition BatchUnRegisterLocalMr (op : HostDataOpRDMA) (params : hybm_batch_copy_params)
    (direction : hybm_data_copy_direction) : prog unit :=
  each (λ p, addr ← GetLocalMrAddr p direction; _ ← tcall op (UnregisterMemoryRegion addr); Ret ())
    (batch_entries params).

(** Local copies on a stream of the device. *)
Definition copy_on_stream (kind : MemcpyKind) (jobs : list hybm_copy_params) (options : ExtOptions) : prog Z :=
  st ← (if stream options =? nullptr then call GetThreadAclStream else Ret (stream options));
  ret ← submit (λ j, call (MemcpyAsync (dest j) (src j) (dataSize j) kind st)) jobs;
  if negb (ret =? 0) then Ret BM_DL_FUNCTION_FAILED else
  call (StreamSynchronize st).
Definition BatchCopyLD2LH := copy_on_stream ACL_MEMCPY_DEVICE_TO_HOST.
Definition BatchCopyLH2LD := copy_on_stream ACL_MEMCPY_HOST_TO_DEVICE.
Definition BatchCopyLH2LH (jobs : list hybm_copy_params) : prog Z :=
  submit (λ j, call (Memcpy (dest j) (src j) (dataSize j) ACL_MEMCPY_HOST_TO_HOST)) jobs.

(** As many entries as fit the swap space, the others, and their bytes. *)
Fixpoint fill (currentBatchDataSize : Z) (d : CopyDescriptor) : CopyDescriptor * CopyDescriptor * Z :=
  match d with
  | [] => ([], [], currentBatchDataSize)
  | c :: d' =>
      if currentBatchDataSize +64 count c <=? swapSize then
        let '(b, rest, n) := fill (currentBatchDataSize +64 count c) d' in (c :: b, rest, n)
      else ([], d, currentBatchDataSize)
  end.
(** The place of each entry in the swap space. *)
Fixpoint stage (tmpHost offset : Z) (b : CopyDescriptor) : list (Z * CopyItem) :=
  match b with
  | [] => []
  | c :: b => (tmpHost +64 offset, c) :: stage tmpHost (offset +64 count c) b
  end.
Definition to_swap (x : Z * CopyItem) : hybm_copy_params := mkParams (localAddr x.2) x.1 (count x.2).
Definition from_swap (x : Z * CopyItem) : hybm_copy_params := mkParams x.1 (localAddr x.2) (count x.2).

Fixpoint batch_loop (fuel : nat) (body : CopyDescriptor → Z → prog Z) (op : HostDataOpRDMA) (d : CopyDescriptor)
    (ret : Z) : prog (HostDataOpRDMA * Z) :=
  match d with
  | [] => Ret (op, ret)
  | _ =>
      match fuel with
      | O => undefined (op, ret)
      | S fuel =>
          let '(b, rest, currentBatchDataSize) := fill 0 d in
          if currentBatchDataSize =? 0 then Ret (op, BM_INVALID_PARAM) else
          '(op, ret) ← with_swap op currentBatchDataSize (body b);
          if negb (ret =? BM_OK) then Ret (op, ret) else batch_loop fuel body op rest ret
      end
  end.

(** Asynchronous calls of the transport, then one synchronisation. *)
Definition post_and_wait {A} (op : HostDataOpRDMA) (rank : Z) (f : A → Call) (l : list A) : prog Z :=
  errorCode ← submit (λ x, tcall op (f x)) l;
  ret ← tcall op (Synchronize rank);
  Ret (if negb (ret =? 0) then ret else if negb (errorCode =? BM_OK) then errorCode else ret).
Definition write_staged (rank : Z) (x : Z * CopyItem) : Call :=
  WriteRemoteAsync rank x.1 (globalAddr x.2) (count x.2).
Definition read_staged (rank : Z) (x : Z * CopyItem) : Call :=
  ReadRemoteAsync rank x.1 (globalAddr x.2) (count x.2).

Definition InnerBatchReadRH2LH (op : HostDataOpRDMA) (rank : Z) (staged : list (Z * CopyItem)) : prog Z :=
  post_and_wait op rank (read_staged rank) staged.
Definition InnerBatchWriteLH2RH (op : HostDataOpRDMA) (rank : Z) (staged : list (Z * CopyItem)) : prog Z :=
  post_and_wait op rank (write_staged rank) staged.

Definition staged_write (op : HostDataOpRDMA) (rank : Z) (local : list hybm_copy_params → prog Z)
    (b : CopyDescriptor) (tmpHost : Z) : prog Z :=
  let staged := stage tmpHost 0 b in
  ret ← local (to_swap <$> staged);
  if negb (ret =? 0) then Ret ret else InnerBatchWriteLH2RH op rank staged.
Definition staged_read (op : HostDataOpRDMA) (rank : Z) (local : list hybm_copy_params → prog Z)
    (b : CopyDescriptor) (tmpHost : Z) : prog Z :=
  let staged := stage tmpHost 0 b in
  ret ← InnerBatchReadRH2LH op rank staged;
  if negb (ret =? 0) then Ret ret else local (from_swap <$> staged).

Definition BatchWriteLD2RH (op : HostDataOpRDMA) (rmtRankId : Z) (d : CopyDescriptor) (options : ExtOptions)
    : prog (HostDataOpRDMA * Z) :=
  batch_loop (List.length d) (staged_write op rmtRankId (λ jobs, BatchCopyLD2LH jobs options)) op d BM_OK.
Definition BatchReadRH2LD (op : HostDataOpRDMA) (rmtRankId : Z) (d : CopyDescriptor) (options : ExtOptions)
    : prog (HostDataOpRDMA * Z) :=
  batch_loop (List.length d) (staged_read op rmtRankId (λ jobs, BatchCopyLH2LD jobs options)) op d BM_OK.
Definition BatchReadRH2LH (op : HostDataOpRDMA) (d : CopyDescriptor) (options : ExtOptions)
    : prog (HostDataOpRDMA * Z) :=
  batch_loop (List.length d) (staged_read op (srcRankId options) BatchCopyLH2LH) op d BM_OK.
Definition BatchWriteLH2RH (op : HostDataOpRDMA) (d : CopyDescriptor) (options : ExtOptions)
    : prog (HostDataOpRDMA * Z) :=
  batch_loop (List.length d) (staged_write op (destRankId options) BatchCopyLH2LH) op d BM_OK.

(** The entries by the rank that owns the global address. *)
Definition add_entry (m : gmap Z CopyDescriptor) (rank : Z) (c : CopyItem) : gmap Z CopyDescriptor :=
  <[rank := default [] (m !! rank) ++ [c]]> m.
Definition classify (op : HostDataOpRDMA) (spaces : list GvaSpace) (globalRankId : Z)
    (maps : gmap Z CopyDescriptor * gmap Z CopyDescriptor) (c : CopyItem) : gmap Z CopyDescriptor * gmap Z CopyDescriptor :=
  let r := GetRankIdByGva spaces (globalAddr c) in
  let gvaRankId := if r =? U32_MAX then globalRankId else r in
  let '(rmtRankMap, localRankMap) := maps in
  if gvaRankId =? rankId_ op then (rmtRankMap, add_entry localRankMap gvaRankId c)
  else (add_entry rmtRankMap gvaRankId c, localRankMap).
Definition ClassifyDataAddr (op : HostDataOpRDMA) (spaces : list GvaSpace) (d : CopyDescriptor) (globalRankId : Z)
    : gmap Z CopyDescriptor * gmap Z CopyDescriptor := foldl (classify op spaces globalRankId) (∅, ∅) d.

(** A loop that threads the object and stops at the first error. *)
Fixpoint each_rank {A} (f : HostDataOpRDMA → A → prog (HostDataOpRDMA * Z)) (op : HostDataOpRDMA)
    (l : list A) (ret : Z) : prog (HostDataOpRDMA * Z) :=
  match l with
  | [] => Ret (op, ret)
  | x :: l =>
      '(op, ret) ← f op x;
      if negb (ret =? BM_OK) then Ret (op, ret) else each_rank f op l ret
  end.

(** [order]: the order in which the unordered maps are iterated. *)
Context (order : gmap Z CopyDescriptor → list (Z * CopyDescriptor)).
Definition local_global (p : hybm_copy_params) : CopyItem := mkItem (src p) (dest p) (dataSize p).
Definition global_local (p : hybm_copy_params) : CopyItem := mkItem (dest p) (src p) (dataSize p).

Definition BatchCopyLD2GH (op : HostDataOpRDMA) (spaces : list GvaSpace) (jobs : list hybm_copy_params)
    (options : ExtOptions) : prog (HostDataOpRDMA * Z) :=
  let '(rmtRankMap, localRankMap) := ClassifyDataAddr op spaces (local_global <$> jobs) (destRankId options) in
  '(op, ret) ← each_rank (λ op x,
      ret ← BatchCopyLD2LH ((λ c, mkParams (localAddr c) (globalAddr c) (count c)) <$> x.2) options; Ret (op, ret))
    op (order localRankMap) BM_OK;
  if negb (ret =? BM_OK) then Ret (op, ret) else
  each_rank (λ op x, BatchWriteLD2RH op x.1 x.2 options) op (order rmtRankMap) ret.
Definition BatchCopyGH2LD (op : HostDataOpRDMA) (spaces : list GvaSpace) (jobs : list hybm_copy_params)
    (options : ExtOptions) : prog (HostDataOpRDMA * Z) :=
  let '(rmtRankMap, localRankMap) := ClassifyDataAddr op spaces (global_local <$> jobs) (srcRankId options) in
  '(op, ret) ← each_rank (λ op x,
      ret ← BatchCopyLH2LD ((λ c, mkParams (globalAddr c) (localAddr c) (count c)) <$> x.2) options; Ret (op, ret))
    op (order localRankMap) BM_OK;
  if negb (ret =? BM_OK) then Ret (op, ret) else
  each_rank (λ op x, BatchReadRH2LD op x.1 x.2 options) op (order rmtRankMap) ret.

(** Both ends registered: short copies in one call of the transport. *)
Definition BatchCopyGH2GH (op : HostDataOpRDMA) (jobs : list hybm_copy_params) (options : ExtOptions) : prog Z :=
  let isPut := srcRankId options =? rankId_ op in
  let small := List.filter (λ c, count c <=? SMALL_IO_LIMIT_SIZE) (local_global <$> jobs) in
  let big := List.filter (λ c, negb (count c <=? SMALL_IO_LIMIT_SIZE)) (local_global <$> jobs) in
  ret ← match small with
        | [] => Ret BM_OK
        | _ => tcall op (if isPut then WriteRemoteBatchAsync (destRankId options) small
                         else ReadRemoteBatchAsync (srcRankId options) small)
        end;
  errorCode ← (if ret =? 0 then
      submit (λ c, tcall op (if isPut then WriteRemoteAsync (destRankId options) (localAddr c) (globalAddr c) (count c)
                             else ReadRemoteAsync (srcRankId options) (globalAddr c) (localAddr c) (count c))) big
    else Ret ret);
  ret ← tcall op (Synchronize (if isPut then destRankId options else srcRankId options));
  Ret (if negb (ret =? 0) then ret else if negb (errorCode =? BM_OK) then errorCode else ret).

(** Whether the local end of every job is registered; stops at the first that is not. *)
Fixpoint all_registered (op : HostDataOpRDMA) (local : hybm_copy_params → Z) (jobs : list hybm_copy_params) : prog bool :=
  match jobs with
  | [] => Ret true
  | j :: jobs =>
      registered ← tcall op (QueryHasRegistered (local j) (dataSize j));
      if registered =? 0 then Ret false else all_registered op local jobs
  end.

Definition BatchCopyLH2GH (op : HostDataOpRDMA) (jobs : list hybm_copy_params) (options : ExtOptions)
    : prog (HostDataOpRDMA * Z) :=
  if destRankId options =? rankId_ op then ret ← BatchCopyLH2LH jobs; Ret (op, ret) else
  registered ← all_registered op src jobs;
  if registered : bool then ret ← BatchCopyGH2GH op jobs options; Ret (op, ret)
  else BatchWriteLH2RH op (local_global <$> jobs) options.
Definition BatchCopyGH2LH (op : HostDataOpRDMA) (jobs : list hybm_copy_params) (options : ExtOptions)
    : prog (HostDataOpRDMA * Z) :=
  if srcRankId options =? rankId_ op then ret ← BatchCopyLH2LH jobs; Ret (op, ret) else
  registered ← all_registered op dest jobs;
  if registered : bool then ret ← BatchCopyGH2GH op jobs options; Ret (op, ret)
  else BatchReadRH2LH op (global_local <$> jobs) options.

Definition BatchDataCopy (op : HostDataOpRDMA) (spaces : list GvaSpace) (params : hybm_batch_copy_params)
    (direction : hybm_data_copy_direction) (options : ExtOptions) : prog (HostDataOpRDMA * Z) :=
  if negb (inited_ op) then Ret (op, BM_NOT_INITIALIZED) else
  _ ← BatchPreRegisterLocalMr op params direction;
  '(op, ret) ←
    match direction with
    | HYBM_LOCAL_DEVICE_TO_GLOBAL_HOST => BatchCopyLD2GH op spaces (batch params) options
    | HYBM_GLOBAL_HOST_TO_LOCAL_DEVICE => BatchCopyGH2LD op spaces (batch params) options
    | HYBM_LOCAL_HOST_TO_GLOBAL_HOST => BatchCopyLH2GH op (batch params) options
    | HYBM_GLOBAL_HOST_TO_LOCAL_HOST => BatchCopyGH2LH op (batch params) options
    | HYBM_GLOBAL_HOST_TO_GLOBAL_HOST => ret ← BatchCopyGH2GH op (batch params) options; Ret (op, ret)
    | _ => Ret (op, BM_INVALID_PARAM)
    end;
  _ ← BatchUnRegisterLocalMr op params direction;
  Ret (op, ret).
End HostDataOp.
