(* ===== verification/HostDataOpSpec.v ===== *)
(** * Copies over host RDMA: the theorems

    The contract of what the data operation calls ([fabric_step]), and proofs that
    a copy that reports success has copied exactly its bytes, whatever the order
    in which the fabric moves them, that it touches nothing but the destination
    and the swap space, and that the swap space is whole again afterwards. *)
From Stdlib Require Import Strings.Byte.
From stdpp Require Import base numbers list gmap relations.
From S2P Require Import Prelude RangePool RangePoolSpec VaManager Fabric HybmTask HostDataOp.
Local Open Scope Z_scope.
Local Open Scope mf_scope.

(** ** The contract

    [me] is the rank that calls.  A call that copies says from where to where, and
    what waits for it; the others leave memory to the copies in flight. *)
(** [EStop]: a copy that returns when it is over, failed or not. *)
Inductive Effect := ECopy (t : Tag) (ms : list Move) | EStop (ms : list Move) | EWait (t : Tag) | EPass.
(** The task stream of the calling thread; other streams are addresses. *)
Definition HYBM_STREAM : Z := -1.
Definition effect (me : Z) (c : Call) : Effect :=
  match c with
  | Memcpy dst src n _ => ECopy TNow (moves (me, dst) (me, src) n)
  | MemcpyAsync dst src n _ st => ECopy (TStream st) (moves (me, dst) (me, src) n)
  | MemcpyBatch _ jobs => EStop (jobs ≫= λ j, moves (me, dest j) (me, src j) (dataSize j))
  | StreamSynchronize st => EWait (TStream st)
  | ReadRemote r l a n => ECopy TNow (moves (me, l) (r, a) n)
  | WriteRemote r l a n => ECopy TNow (moves (r, a) (me, l) n)
  | ReadRemoteAsync r l a n => ECopy (TRank r) (moves (me, l) (r, a) n)
  | WriteRemoteAsync r l a n => ECopy (TRank r) (moves (r, a) (me, l) n)
  | ReadRemoteBatchAsync r d => ECopy (TRank r) (d ≫= λ c, moves (me, globalAddr c) (r, localAddr c) (count c))
  | WriteRemoteBatchAsync r d => ECopy (TRank r) (d ≫= λ c, moves (r, globalAddr c) (me, localAddr c) (count c))
  | Synchronize r => EWait (TRank r)
  | RtMemcpyAsync dst src n st => ECopy (TStream st) (moves (me, dst) (me, src) n)
  | HybmCopyExtend src dst n _ st => ECopy (TStream st) (moves (me, dst) (me, src) n)
  | HybmBatchCopyExtend _ jobs _ st => ECopy (TStream st) (jobs ≫= λ j, moves (me, dest j) (me, src j) (u32 (dataSize j)))
  | SubmitTasks task => ECopy (TStream HYBM_STREAM) (moves (me, sqe_dst (sqe task)) (me, sqe_src (sqe task)) (sqe_length (sqe task)))
  | HybmSynchronize => EWait (TStream HYBM_STREAM)
  | _ => EPass
  end.
Definition fabric_ok (w : World) (c : Call) : Prop := c ≠ Undefined.
Definition fabric_step (me : Z) (w : World) (c : Call) (w' : World) (ret : Z) : Prop :=
  match effect me c with
  | ECopy t ms => copies t ms w w' ret
  | EStop ms => stops ms w w' ret
  | EWait t => waits t w w' ret
  | EPass => adv w w'
  end.

(** ** Copies that have been carried out *)

(** Since [m0] the copy [ms] has been made, with [S] as scratch memory; other
    copies write [X] only. *)
Record did (m0 : Memory) (X S : Loc → Prop) (ms : list Move) (w : World) : Prop := {
  did_moved : ∀ d s, (d, s) ∈ ms → mem w d = m0 s;
  did_frame : ∀ l, ¬ X l → ¬ S l → l ∉ ms.*1 → mem w l = m0 l;
  did_still : still (mem w) X w;
}.
Definition none (l : Loc) : Prop := False.
Definition either (X S : Loc → Prop) (l : Loc) : Prop := X l ∨ S l.

Lemma still_self m0 X w : still m0 X w → still (mem w) X w.
Proof. intros [Hf _ _]. split; [done..|by intros d s []%not_elem_of_nil]. Qed.
Lemma still_trans m0 Y w w' : still m0 Y w → still (mem w) Y w' → still m0 Y w'.
Proof.
  intros [_ Hm _] [Hf' Hm' _]. split; [done| |by intros d s []%not_elem_of_nil].
  intros l Hl Hn. rewrite Hm' by done. by apply Hm.
Qed.

Lemma did_nil X S w : still (mem w) X w → did (mem w) X S [] w.
Proof. intros Hs. split; [by intros d s []%not_elem_of_nil|done|done]. Qed.
Lemma did_scratch m0 X S S' ms w : did m0 X S ms w → (∀ l, S l → S' l) → did m0 X S' ms w.
Proof. intros [Hm Hf Hs] HS. split; [done| |done]. intros l Hx Hl. apply Hf; [done|]. by intros ?%HS. Qed.
Lemma did_same m0 X S ms ms' w : (∀ mv, mv ∈ ms ↔ mv ∈ ms') → did m0 X S ms w → did m0 X S ms' w.
Proof.
  intros He [Hm Hf Hs]. split; [intros d s Hd; by apply Hm, He| |done].
  intros l Hx Hl Hn. apply Hf; [done..|]. intros (mv & -> & Hmv)%list_elem_of_fmap. apply Hn, list_elem_of_fmap.
  exists mv. split; [done|]. by apply He.
Qed.

(** One copy after another. *)
Lemma did_app m0 X S ms1 ms2 w w' : orderly (ms1 ++ ms2) (either X S) →
  did m0 X S ms1 w → did (mem w) X S ms2 w' → did m0 X S (ms1 ++ ms2) w'.
Proof.
  intros Ho [Hm1 Hf1 _] [Hm2 Hf2 Hs]. unfold either in Ho.
  assert (∀ d s, (d, s) ∈ ms2 → mem w' d = m0 s) as Hnew.
  { intros d s Hd. rewrite (Hm2 d s Hd). destruct (or_X _ _ Ho d s) as [_ HX]; [set_solver|].
    apply Hf1; [tauto..|]. pose proof (or_src _ _ Ho d s) as Hs'. rewrite fmap_app in Hs'. set_solver. }
  split; [|intros l Hx Hl Hn; rewrite fmap_app in Hn; rewrite Hf2, Hf1; set_solver|done].
  intros d s [Hd|Hd]%elem_of_app; [|by apply Hnew]. destruct (decide (d ∈ ms2.*1)) as [Hin|Hin].
  - apply list_elem_of_fmap in Hin as ([d' s'] & -> & Hin). cbn in *.
    rewrite (or_fun _ _ d' s s' Ho) by set_solver. by apply Hnew.
  - destruct (or_X _ _ Ho d s) as [HX _]; [set_solver|]. rewrite Hf2 by tauto. by apply Hm1.
Qed.

(** A copy into the scratch memory and from there to the destination. *)
Lemma did_relay m0 X (S : Loc → Prop) A B ms w w' :
  did m0 X none A w → did (mem w) X none B w' → (∀ d, d ∈ A.*1 → S d) →
  (∀ d s, (d, s) ∈ ms → ∃ t, (t, s) ∈ A ∧ (d, t) ∈ B) → (∀ d, d ∈ B.*1 → d ∈ ms.*1) → did m0 X S ms w'.
Proof.
  intros [Hm1 Hf1 _] [Hm2 Hf2 Hs] HA Hms HB. split; [| |done].
  - intros d s (t & H1 & H2)%Hms. by rewrite (Hm2 d t), (Hm1 t s).
  - intros l Hx Hl Hn. rewrite Hf2, Hf1; [done| done | tauto | by intros ?%HA | done | tauto | by intros ?%HB].
Qed.

(** ** Programs that copy *)
Section Copying.
Context (me : Z) (X Y : Loc → Prop) (E : Prop).
Context (HXY : ∀ l, X l → Y l).
Abbreviation wp_ p w Q := (wp fabric_ok (fabric_step me) p w Q).

(** The result of a copy [ms] from memory [m0]: only [Y] is written; success means
    the copy has been made, and an error that a call failed, or [E]. *)
Definition outcome (m0 : Memory) (S : Loc → Prop) (ms : list Move) (ret : Z) (w : World) : Prop :=
  still m0 Y w ∧ (ret = 0 → did m0 X S ms w) ∧ (ret ≠ 0 → failed w = true ∨ E).
Definition does (S : Loc → Prop) (ms : list Move) (p : prog Z) : Prop :=
  ∀ w, still (mem w) X w → wp_ p w (outcome (mem w) S ms).
Definition inside (ms : list Move) : Prop := ∀ d s, (d, s) ∈ ms → Y d.

Lemma wp_call c w Q : c ≠ Undefined → (∀ w' r, fabric_step me w c w' r → Q r w') → wp_ (call c) w Q.
Proof. intros Hc HQ. split; [done|]. intros w' r Hs. by apply HQ. Qed.
Lemma wp_pass c w Q : c ≠ Undefined → effect me c = EPass → (∀ w' r, adv w w' → Q r w') → wp_ (call c) w Q.
Proof. intros Hc He HQ. apply wp_call; [done|]. unfold fabric_step. rewrite He. apply HQ. Qed.

Lemma still_wide w : still (mem w) X w → still (mem w) Y w.
Proof. intros Hs. by eapply still_widen. Qed.

Lemma does_ret0 S : does S [] (Ret 0).
Proof. intros w Hs. split_and!; [by apply still_wide|intros _; by apply did_nil|done]. Qed.
Lemma does_error S ms e : e ≠ 0 → E → does S ms (Ret e).
Proof. intros He HE w Hs. split_and!; [by apply still_wide|done|by right]. Qed.
Lemma does_scratch (S S' : Loc → Prop) ms p : (∀ l, S l → S' l) → does S ms p → does S' ms p.
Proof.
  intros HS Hp w Hs. eapply wp_mono; [by apply Hp|]. intros r w' (H1 & H2 & H3). split_and!; [done| |done].
  intros Hr. eapply did_scratch; eauto.
Qed.
Lemma does_same S ms ms' p : (∀ mv, mv ∈ ms ↔ mv ∈ ms') → does S ms p → does S ms' p.
Proof.
  intros He Hp w Hs. eapply wp_mono; [by apply Hp|]. intros r w' (H1 & H2 & H3). split_and!; [done| |done].
  intros Hr. eapply did_same; eauto.
Qed.

(** A call that returns when it has copied. *)
Lemma does_now c ms : effect me c = ECopy TNow ms → orderly ms X → inside ms → does none ms (call c).
Proof.
  intros He Ho Hi w Hs. apply wp_call; [by intros -> |]. intros w' r Hst. unfold fabric_step in Hst. rewrite He in Hst.
  pose proof (copies_failed _ _ _ _ _ Hst) as Hfl. split_and!.
  - eapply still_copies; [by apply still_wide|exact Hi|exact Hst].
  - intros ->. destruct Hst as [[_ Hc]|[? _]]; [|done]. destruct (now_copy _ _ _ _ _ Hs Ho Hc) as (Hm & Hf & Hst).
    split; [done| |done]. intros l Hl _. by apply Hf.
  - intros Hr. left. rewrite Hfl. apply Z.eqb_neq in Hr. rewrite Hr. by destruct (failed w).
Qed.

(** One program after another, unless the first fails. *)
Definition and_then (p q : prog Z) : prog Z := ret ← p; if negb (ret =? 0) then Ret ret else q.
Lemma does_then S1 S2 S A B ms p q : does S1 A p → does S2 B q →
  (∀ m0 w w', did m0 X S1 A w → did (mem w) X S2 B w' → did m0 X S ms w') → does S ms (and_then p q).
Proof.
  intros Hp Hq Hcomb w Hs. apply wp_seq. eapply wp_mono; [by apply Hp|]. intros r w1 (H1 & H2 & H3). cbn.
  destruct (Z.eqb_spec r 0) as [-> |Hr]; cbn [negb].
  - specialize (H2 eq_refl). eapply wp_mono; [apply Hq, H2|]. intros r' w2 (G1 & G2 & G3).
    split_and!; [by eapply still_trans| |done]. intros Hr. eapply Hcomb; [exact H2|by apply G2].
  - split_and!; [done|done|by apply H3].
Qed.
Lemma does_app S A B p q : orderly (A ++ B) (either X S) → does S A p → does S B q → does S (A ++ B) (and_then p q).
Proof. intros Ho Hp Hq. eapply does_then; [done..|]. intros m0 w w' H1 H2. by eapply did_app. Qed.

Lemma does_submit {A} S (f : A → prog Z) (g : A → list Move) l :
  orderly (l ≫= g) (either X S) → (∀ a, a ∈ l → does S (g a) (f a)) → does S (l ≫= g) (submit f l).
Proof.
  induction l as [|a l IH]; intros Ho Hf; [apply does_ret0|]. cbn [submit]. apply does_app; [done|by apply Hf; left|].
  apply IH; [by eapply orderly_app_r|]. intros b Hb. apply Hf. by right.
Qed.
Lemma inside_app A B : inside (A ++ B) → inside A ∧ inside B.
Proof. clear HXY. intros H. split; intros d s Hd; apply (H d s), elem_of_app; auto. Qed.

(** Asynchronous calls: the plan grows until one fails. *)
Lemma submit_follow {A} t (c : A → Call) (g : A → list Move) m0 l plan w :
  (∀ a, a ∈ l → effect me (c a) = ECopy t (g a)) → orderly (plan ++ (l ≫= g)) X → inside (l ≫= g) →
  following m0 plan t X w → still m0 Y w →
  wp_ (submit (λ a, call (c a)) l) w (λ ret w',
    still m0 Y w' ∧ (ret = 0 → following m0 (plan ++ (l ≫= g)) t X w') ∧ (ret ≠ 0 → failed w' = true)).
Proof.
  revert plan w. induction l as [|a l IH]; intros plan w He Ho Hi Hf Hs; cbn [submit].
  { cbn. rewrite app_nil_r. split; [done|]. by split. }
  pose proof (He a (list_elem_of_here _ _)) as Hea. rewrite bind_cons in *. apply inside_app in Hi as [Hi1 Hi2].
  apply wp_seq, wp_call; [intros Hu; by rewrite Hu in Hea|]. intros w1 r Hst.
  unfold fabric_step in Hst. rewrite Hea in Hst. pose proof (copies_failed _ _ _ _ _ Hst) as Hfl.
  pose proof (still_copies _ _ _ _ _ _ _ Hs Hi1 Hst) as Hs1. cbn. unfold BM_OK.
  destruct (Z.eqb_spec r 0) as [-> |Hr]; cbn [negb].
  - destruct Hst as [[_ Hc]|[? _]]; [|done]. rewrite app_assoc in *.
    apply IH; [intros b Hb; apply He; by right|done|done| |done]. apply (follow_copy _ _ _ _ _ _ _ Hf); [|done].
    by eapply orderly_app_l.
  - cbn. split_and!; [done|done|]. intros _. rewrite Hfl. by destruct (failed w).
Qed.

(** The wait for the planned copies. *)
Lemma waited t ms m0 w w' r : orderly ms X → still m0 Y w → following m0 ms t X w → waits t w w' r → outcome m0 none ms r w'.
Proof.
  intros Ho H1 H2 Hst. split_and!; [by eapply still_waits| |].
  - intros ->. destruct (follow_wait _ _ _ _ _ _ H2 Ho Hst) as (Hm & Hf & Hsl). split; [done| |done]. intros l Hl _. by apply Hf.
  - intros Hr. left. rewrite (waits_failed _ _ _ _ Hst). apply Z.eqb_neq in Hr. rewrite Hr. by destruct (failed w).
Qed.
(** The same when some of the calls, the first error being [e], may have failed. *)
Lemma wait_outcome t c (e : Z) ms m0 w : effect me c = EWait t → orderly ms X →
  still m0 Y w → (e = 0 → following m0 ms t X w) → (e ≠ 0 → failed w = true) →
  wp_ (r ← call c; Ret (if negb (r =? 0) then r else if negb (e =? 0) then e else r)) w (outcome m0 none ms).
Proof.
  intros He Ho H1 H2 H3. apply wp_seq, wp_call; [by intros -> |]. intros w2 r Hst. unfold fabric_step in Hst. rewrite He in Hst.
  destruct (Z.eqb_spec e 0) as [-> |Hr]; cbn [negb].
  { cbn. destruct (negb _); eapply waited; eauto. }
  pose proof (waits_failed _ _ _ _ Hst) as Hfl. rewrite H3 in Hfl by done. pose proof (still_waits _ _ _ _ _ _ H1 Hst) as Hs2.
  cbn. destruct (Z.eqb_spec r 0) as [-> |Hr']; cbn [negb]; split_and!; try done; intros _; by left.
Qed.
End Copying.

(** ** The swap space *)
Lemma swap_piece p live n : pool_inv p live → valid_size n →
  (pool_CanAllocate p n = false ∧ pool_Allocate p n = (p, emptyElement)) ∨
  ∃ p' a, pool_Allocate p n = (p', mkElement a n true) ∧ baseAddress p ≤ a ∧ a + n ≤ baseAddress p + totalSize p ∧
    0 < a ∧ element_destroy p' (mkElement a n true) = (p, emptyElement).
Proof.
  intros Hp Hn. destruct (pool_CanAllocate p n) eqn:Hc; [right|left; split; [done|by eapply pool_alloc_fails]].
  destruct (pool_alloc_succeeds p live n Hp Hn Hc) as (p' & a & Ea & Hl & Hp'). exists p', a. split; [done|].
  pose proof (Allocate_base p n) as [Hb Ht]. rewrite Ea in Hb, Ht. cbn in Hb, Ht.
  destruct (inv_live _ _ Hp' a n) as (_ & H1 & H2); [by rewrite lookup_insert_eq|].
  pose proof (align_up_valid n Hn). pose proof (inv_base _ _ Hp). split_and!; [lia..|].
  destruct (pool_release_succeeds _ _ a n Hp') as (p2 & Er & Hp2); [by rewrite lookup_insert_eq|].
  rewrite delete_insert_id in Hp2 by done. unfold element_destroy. cbn [allocator].
  change (Release p' (mkElement a n true)) with (pool_Release p' (mkElement a n true)). rewrite Er. f_equal.
  pose proof (Release_base p' (mkElement a n true)) as [Hb2 Ht2]. rewrite Er in Hb2, Ht2. cbn in Hb2, Ht2 |- *.
  eapply pool_inv_unique; eauto; congruence.
Qed.

Definition swap_of (me : Z) (p : RbtreeRangePool) (l : Loc) : Prop :=
  l.1 = me ∧ baseAddress p ≤ l.2 < baseAddress p + totalSize p.

Lemma moves_split d s n k : 0 ≤ k ≤ n →
  moves d s n = moves d s k ++ moves (d.1, d.2 + k) (s.1, s.2 + k) (n - k).
Proof.
  intros Hk. unfold moves. replace n with (k + (n - k)) at 1 by lia. rewrite seqZ_app by lia. rewrite fmap_app. f_equal.
  rewrite Z.add_0_l. rewrite <- (Z.add_0_r k) at 1. rewrite <- fmap_add_seqZ, <- list_fmap_compose.
  apply list_fmap_ext. intros i x _. cbn. f_equal; f_equal; lia.
Qed.

(** ** The operations *)
Section Ops.
Context (swapSize : Z) (op : HostDataOpRDMA) (p : RbtreeRangePool) (live : gmap Z Z).
Context (X Y : Loc → Prop) (E : Prop).
Abbreviation me := (rankId_ op).
Abbreviation swap := (swap_of me p).
Abbreviation wp_ q w Q := (wp fabric_ok (fabric_step me) q w Q).
Context (Hswap : 0 < swapSize ≤ 2 ^ 32) (Hpool : rdmaSwapMemoryAllocator_ op = Some p) (Hinv : pool_inv p live).
Context (Htrans : transportManager_ op = true).
Context (HXY : ∀ l, X l → Y l) (HSY : ∀ l, swap l → Y l) (HSX : ∀ l, swap l → ¬ X l).
Context (Hroom : ∀ n, 0 < n ≤ swapSize → pool_CanAllocate p n = false → E).

Definition does_op (S : Loc → Prop) (ms : list Move) (q : prog (HostDataOpRDMA * Z)) : Prop :=
  ∀ w, still (mem w) X w → wp_ q w (λ x w', x.1 = op ∧ outcome X Y E (mem w) S ms x.2 w').

Lemma set_same_pool : set_pool op p = op.
Proof. unfold set_pool. rewrite <- Hpool. by destruct op. Qed.

Lemma does_op_ret S ms q : does me X Y E S ms q → does_op S ms (ret ← q; Ret (op, ret)).
Proof. intros Hq w Hs. apply wp_seq. eapply wp_mono; [by apply Hq|]. intros r w' Ho. by split. Qed.

(** A piece of the swap space for a copy: the object is the same afterwards. *)
Lemma with_swap_does S ms n body : 0 < n ≤ swapSize →
  (∀ tmp, baseAddress p ≤ tmp → tmp + n ≤ baseAddress p + totalSize p → does me X Y E S ms (body tmp)) →
  does_op S ms (with_swap op n body).
Proof.
  intros Hn Hbody w Hs. unfold with_swap. rewrite Hpool.
  assert (valid_size n) as Hv by (unfold valid_size, max_request; lia).
  destruct (swap_piece p live n Hinv Hv) as [[Hc ->]|(p' & a & -> & Hlo & Hhi & Ha & Hd)]; cbn [startAddress emptyElement].
  - cbn. rewrite set_same_pool. split; [done|]. split_and!; [by apply (still_wide X Y)|done|]. intros _. right. by eapply Hroom.
  - destruct (Z.eqb_spec a nullptr) as [-> |_]; [done|]. rewrite Hd. cbn [fst]. rewrite set_same_pool.
    apply does_op_ret; [by apply Hbody|done].
Qed.

(** A loop body and the rest of the loop. *)
Lemma does_op_app S A B (q : prog (HostDataOpRDMA * Z)) k : orderly (A ++ B) (either X S) →
  does_op S A q → does_op S B (k op BM_OK) →
  does_op S (A ++ B) ('(o, ret) ← q; if negb (ret =? BM_OK) then Ret (o, ret) else k o ret).
Proof.
  intros Ho Hq Hk w Hs. apply wp_seq. eapply wp_mono; [by apply Hq|]. intros [o r] w1 [Eo (H1 & H2 & H3)]. cbn in Eo, H1, H2, H3 |- *. subst o.
  unfold BM_OK in *. destruct (Z.eqb_spec r 0) as [-> |Hr]; cbn [negb].
  - specialize (H2 eq_refl). eapply wp_mono; [apply Hk, H2|]. intros x w2 [Ex (G1 & G2 & G3)].
    split; [done|]. split_and!; [by eapply still_trans| |done]. intros Hr. eapply did_app; [done|exact H2|by apply G2].
  - cbn. split; [done|]. split_and!; [done|done|by apply H3].
Qed.

(** *** Through the swap space *)

(** [A] copies the sources of [ms] into the swap space, [B] from there. *)
Record relays (A B ms : list Move) : Prop := {
  re_swap : ∀ t s, (t, s) ∈ A → swap t;
  re_from : ∀ t s, (t, s) ∈ A → ∃ d, (d, s) ∈ ms;
  re_nodup : NoDup A.*1;
  re_dst : B.*1 = ms.*1;
  re_src : ∀ d t, (d, t) ∈ B → swap t;
  re_comp : ∀ d s, (d, s) ∈ ms → ∃ t, (t, s) ∈ A ∧ (d, t) ∈ B;
}.

Lemma elem_of_dst (ms : list Move) d : d ∈ ms.*1 ↔ ∃ s, (d, s) ∈ ms.
Proof.
  rewrite list_elem_of_fmap. split; [intros ([d' s] & -> & H); by exists s|intros [s H]; by exists (d, s)].
Qed.
Lemma relays_orderly A B ms : relays A B ms → orderly ms (either X swap) → orderly A X ∧ orderly B X.
Proof.
  intros Hr Ho. assert (∀ t s, (t, s) ∈ A → ¬ swap s ∧ ¬ X s) as Hs.
  { intros t s (d & Hd)%(re_from _ _ _ Hr). destruct (or_X _ _ Ho d s Hd) as [_ Hn]. unfold either in Hn. tauto. }
  split; split.
  - apply (re_nodup _ _ _ Hr).
  - intros t s Ht (s' & Hs')%elem_of_dst. by destruct (Hs t s Ht) as [[] _]; apply (re_swap _ _ _ Hr s s').
  - intros t s Ht. split; [by eapply HSX, (re_swap _ _ _ Hr)|by apply (Hs t s)].
  - rewrite (re_dst _ _ _ Hr). apply (or_nodup _ _ Ho).
  - intros d t Hd. rewrite (re_dst _ _ _ Hr). intros (s & Hd')%elem_of_dst.
    destruct (or_X _ _ Ho t s Hd') as [Hn _]. apply Hn. right. by apply (re_src _ _ _ Hr d t).
  - intros d t Hd. split; [|by eapply HSX, (re_src _ _ _ Hr)].
    assert (d ∈ ms.*1) as (s & Hd')%elem_of_dst by (rewrite <- (re_dst _ _ _ Hr); apply elem_of_dst; eauto).
    destruct (or_X _ _ Ho d s Hd') as [Hn _]. unfold either in Hn. tauto.
Qed.
Lemma relays_inside A B ms : relays A B ms → inside Y ms → inside Y A ∧ inside Y B.
Proof.
  intros Hr Hi. split; [intros t s Ht; by eapply HSY, (re_swap _ _ _ Hr)|]. intros d t Hd.
  assert (d ∈ ms.*1) as (s & Hd')%elem_of_dst by (rewrite <- (re_dst _ _ _ Hr); apply elem_of_dst; eauto). by apply (Hi d s).
Qed.
Lemma relay_does A B ms q1 q2 : relays A B ms →
  does me X Y E none A q1 → does me X Y E none B q2 → does me X Y E swap ms (and_then q1 q2).
Proof.
  intros Hr H1 H2. eapply does_then; [exact H1|exact H2|]. intros m0 w w' D1 D2. eapply did_relay; [exact D1|exact D2|..].
  - intros d (s & Hd)%elem_of_dst. by eapply (re_swap _ _ _ Hr).
  - apply (re_comp _ _ _ Hr).
  - by rewrite (re_dst _ _ _ Hr).
Qed.

Lemma moves_nodup d s n : NoDup (moves d s n).*1.
Proof.
  unfold moves. rewrite <- list_fmap_compose. apply NoDup_fmap; [|apply NoDup_seqZ].
  intros k k' [= Hk]. lia.
Qed.
Lemma moves_relays d s n tmp : baseAddress p ≤ tmp → tmp + n ≤ baseAddress p + totalSize p →
  relays (moves (me, tmp) s n) (moves d (me, tmp) n) (moves d s n).
Proof.
  intros H1 H2. split.
  - intros t x (k & Hk & -> & _)%elem_of_moves. unfold swap_of. cbn. lia.
  - intros t x (k & Hk & _ & ->)%elem_of_moves. eexists. apply elem_of_moves. eauto.
  - apply moves_nodup.
  - unfold moves. by rewrite <- !list_fmap_compose.
  - intros x t (k & Hk & _ & ->)%elem_of_moves. unfold swap_of. cbn. lia.
  - intros x y (k & Hk & -> & ->)%elem_of_moves. exists (me, tmp + k). split; apply elem_of_moves; eauto.
Qed.
Lemma relays_app A1 B1 m1 A2 B2 m2 : relays A1 B1 m1 → relays A2 B2 m2 → (∀ t, t ∈ A1.*1 → t ∉ A2.*1) →
  relays (A1 ++ A2) (B1 ++ B2) (m1 ++ m2).
Proof.
  intros [] [] Hd. split.
  - intros t s [?|?]%elem_of_app; eauto.
  - intros t s [(d & ?)%re_from0|(d & ?)%re_from1]%elem_of_app; exists d; set_solver.
  - rewrite fmap_app. by apply NoDup_app.
  - rewrite !fmap_app. congruence.
  - intros t s [?|?]%elem_of_app; eauto.
  - intros d s [(t & ? & ?)%re_comp0|(t & ? & ?)%re_comp1]%elem_of_app; exists t; set_solver.
Qed.

(** *** One copy *)
Lemma put_chunk_does r s d n host tmp :
  orderly (moves (r, d) (me, s) n) (either X swap) → inside Y (moves (r, d) (me, s) n) →
  baseAddress p ≤ tmp → tmp + n ≤ baseAddress p + totalSize p →
  does me X Y E swap (moves (r, d) (me, s) n) (put_chunk r s d n host tmp).
Proof.
  intros Ho Hi H1 H2. pose proof (moves_relays (r, d) (me, s) n tmp H1 H2) as Hr.
  destruct (relays_orderly _ _ _ Hr Ho). destruct (relays_inside _ _ _ Hr Hi).
  apply (relay_does _ _ _ _ _ Hr); by apply does_now.
Qed.
Lemma get_chunk_does r s d n host tmp :
  orderly (moves (me, d) (r, s) n) (either X swap) → inside Y (moves (me, d) (r, s) n) →
  baseAddress p ≤ tmp → tmp + n ≤ baseAddress p + totalSize p →
  does me X Y E swap (moves (me, d) (r, s) n) (get_chunk r s d n host tmp).
Proof.
  intros Ho Hi H1 H2. pose proof (moves_relays (me, d) (r, s) n tmp H1 H2) as Hr.
  destruct (relays_orderly _ _ _ Hr Ho). destruct (relays_inside _ _ _ Hr Hi).
  apply (relay_does _ _ _ _ _ Hr); by apply does_now.
Qed.

Definition fits (a n : Z) : Prop := 0 ≤ a ∧ a + n < 2 ^ 64.

Lemma chunk_loop_does (chunk : Z → Z → Z → Z → prog Z) rd rs s d fuel n off :
  (∀ s d n tmp, orderly (moves (rd, d) (rs, s) n) (either X swap) → inside Y (moves (rd, d) (rs, s) n) →
     baseAddress p ≤ tmp → tmp + n ≤ baseAddress p + totalSize p →
     does me X Y E swap (moves (rd, d) (rs, s) n) (chunk s d n tmp)) →
  0 ≤ n < Z.of_nat fuel * swapSize ∨ n = 0 → 0 ≤ off → fits s (off + n) → fits d (off + n) →
  orderly (moves (rd, d + off) (rs, s + off) n) (either X swap) → inside Y (moves (rd, d + off) (rs, s + off) n) →
  does_op swap (moves (rd, d + off) (rs, s + off) n) (chunk_loop swapSize fuel chunk op s d n off 0).
Proof.
  intros Hchunk. revert n off. induction fuel as [|fuel IH]; intros n off Hn Hoff Hs Hd Ho Hi; cbn [chunk_loop].
  all: destruct (Z.leb_spec n 0) as [H0|H0].
  1,3: assert (n = 0) as -> by lia; apply (does_op_ret _ _ (Ret 0)), does_ret0; done.
  { lia. }
  destruct Hn as [Hn|?]; [|lia]. assert (0 < Z.min n swapSize ≤ n ∧ Z.min n swapSize ≤ swapSize ∧ (Z.min n swapSize = n ∨ Z.min n swapSize = swapSize)) as Hk by lia.
  revert Hk. generalize (Z.min n swapSize). intros k Hk. unfold fits in *.
  
  rewrite (u64_small (s + off)) by lia. rewrite (u64_small (d + off)) by lia. rewrite (u64_small (n - k)) by lia. rewrite (u64_small (off + k)) by lia.
  rewrite (moves_split _ _ n k) in Ho, Hi |- * by lia. cbn [fst snd] in *. apply inside_app in Hi as [Hi1 Hi2].
  apply (does_op_app _ _ _ _ (λ o r, chunk_loop swapSize fuel chunk o s d (n - k) (off + k) r)); [done|..].
  - apply with_swap_does; [lia|]. intros tmp H1 H2. apply Hchunk; [by eapply orderly_app_l|done..].
  - rewrite <- !Z.add_assoc. apply orderly_app_r in Ho. rewrite <- !Z.add_assoc in Ho, Hi2.
    apply IH; [|lia|lia|lia|done|done]. destruct (decide (n - k = 0)); [by right|left]. lia.
Qed.

Lemma chunk_fuel_enough n : 0 ≤ n → 0 ≤ n < Z.of_nat (chunk_fuel swapSize n) * swapSize ∨ n = 0.
Proof.
  intros Hn. left. unfold chunk_fuel. pose proof (Z.div_pos n swapSize). rewrite Z2Nat.id by lia.
  pose proof (Z.div_mod n swapSize). pose proof (Z.mod_pos_bound n swapSize). lia.
Qed.
Lemma SafePut_does s d n o host : 0 ≤ n → fits s n → fits d n →
  orderly (moves (destRankId o, d) (me, s) n) (either X swap) → inside Y (moves (destRankId o, d) (me, s) n) →
  does_op swap (moves (destRankId o, d) (me, s) n) (SafePut swapSize op s d n o host).
Proof.
  intros Hn Hs Hd Ho Hi. pose proof (chunk_loop_does (λ s d n, put_chunk (destRankId o) s d n host) (destRankId o) me s d
    (chunk_fuel swapSize n) n 0) as H. rewrite !Z.add_0_r in H. apply H; try done; [|by apply chunk_fuel_enough].
  intros. by apply put_chunk_does.
Qed.
Lemma SafeGet_does s d n o host : 0 ≤ n → fits s n → fits d n →
  orderly (moves (me, d) (srcRankId o, s) n) (either X swap) → inside Y (moves (me, d) (srcRankId o, s) n) →
  does_op swap (moves (me, d) (srcRankId o, s) n) (SafeGet swapSize op s d n o host).
Proof.
  intros Hn Hs Hd Ho Hi. pose proof (chunk_loop_does (λ s d n, get_chunk (srcRankId o) s d n host) me (srcRankId o) s d
    (chunk_fuel swapSize n) n 0) as H. rewrite !Z.add_0_r in H. apply H; try done; [|by apply chunk_fuel_enough].
  intros. by apply get_chunk_does.
Qed.

Lemma does_op_scratch (S S' : Loc → Prop) ms q : (∀ l, S l → S' l) → does_op S ms q → does_op S' ms q.
Proof.
  intros HS Hq w Hs. eapply wp_mono; [by apply Hq|]. intros x w' (Ex & H1 & H2 & H3). split; [done|]. split_and!; [done| |done].
  intros Hr. eapply did_scratch; eauto.
Qed.
Lemma orderly_none ms : orderly ms (either X swap) → orderly ms X.
Proof. intros Ho. eapply orderly_less; [done|]. intros l Hl. by left. Qed.
Lemma none_swap l : none l → swap l.
Proof. intros []. Qed.
Lemma memcpy_does s d n kind : orderly (moves (me, d) (me, s) n) (either X swap) → inside Y (moves (me, d) (me, s) n) →
  does_op swap (moves (me, d) (me, s) n) (ret ← call (Memcpy d s n kind); Ret (op, ret)).
Proof.
  intros Ho Hi. apply (does_op_scratch _ _ _ _ none_swap), does_op_ret, does_now; [done|done|by apply orderly_none|done].
Qed.
Lemma copy_to_does s d n o host : 0 ≤ n → fits s n → fits d n →
  orderly (moves (destRankId o, d) (me, s) n) (either X swap) → inside Y (moves (destRankId o, d) (me, s) n) →
  does_op swap (moves (destRankId o, d) (me, s) n) (copy_to swapSize op s d n o host).
Proof.
  intros Hn Hs Hd Ho Hi. unfold copy_to. destruct (Z.eqb_spec (destRankId o) me) as [Em|_].
  - rewrite Em in *. by apply memcpy_does.
  - rewrite Htrans. by apply SafePut_does.
Qed.
Lemma copy_from_does s d n o host : 0 ≤ n → fits s n → fits d n →
  orderly (moves (me, d) (srcRankId o, s) n) (either X swap) → inside Y (moves (me, d) (srcRankId o, s) n) →
  does_op swap (moves (me, d) (srcRankId o, s) n) (copy_from swapSize op s d n o host).
Proof.
  intros Hn Hs Hd Ho Hi. unfold copy_from. destruct (Z.eqb_spec (srcRankId o) me) as [Em|_].
  - rewrite Em in *. by apply memcpy_does.
  - rewrite Htrans. by apply SafeGet_does.
Qed.

(** *** Calls that copy nothing *)
Definition passes {A} (q : prog A) : Prop := ∀ w Q, (∀ a w', adv w w' → Q a w') → wp_ q w Q.
Lemma passes_ret {A} (a : A) : passes (Ret a).
Proof. intros w Q HQ. apply HQ. done. Qed.
Lemma passes_call c : c ≠ Undefined → effect me c = EPass → passes (call c).
Proof. intros Hc He w Q HQ. apply wp_pass; [done..|]. intros w' r Ha. by apply HQ. Qed.
Lemma passes_bind {A B} (q : prog A) (f : A → prog B) : passes q → (∀ a, passes (f a)) → passes (q ≫= f).
Proof.
  intros Hq Hf w Q HQ. apply wp_seq, Hq. intros a w1 H1. apply Hf. intros b w2 H2. apply HQ. unfold adv in *. by transitivity w1.
Qed.
Lemma GetLocalMrAddr_passes params direction : passes (GetLocalMrAddr params direction).
Proof. apply passes_bind; [|intros; apply passes_ret]. destruct direction; by apply passes_ret || apply passes_call. Qed.
Lemma PreRegister_passes params direction : passes (PreRegisterLocalMr op params direction).
Proof.
  unfold PreRegisterLocalMr. destruct (_ || _); [apply passes_ret|]. apply passes_bind; [apply GetLocalMrAddr_passes|].
  intros a. apply passes_bind; [by apply passes_call|]. intros r. destruct (negb _); [apply passes_ret|].
  apply passes_bind; [by apply passes_call|intros; apply passes_ret].
Qed.

Lemma outcome_before S ms m0 w ret w' : orderly ms X → still m0 X w → outcome X Y E (mem w) S ms ret w' → outcome X Y E m0 S ms ret w'.
Proof.
  intros Ho Hs (H1 & H2 & H3). assert (∀ l, ¬ X l → mem w l = m0 l) as Hm.
  { intros l Hl. apply (fo_frame _ _ _ _ _ Hs); [done|]. apply not_elem_of_nil. }
  split_and!; [eapply still_trans; [by eapply still_widen|exact H1]| |done].
  intros Hr. destruct (H2 Hr) as [D1 D2 D3]. split; [| |done].
  - intros d s Hd. rewrite (D1 d s Hd). apply Hm, (or_X _ _ Ho d s Hd).
  - intros l Hl HS Hn. by rewrite D2, Hm.
Qed.
Lemma outcome_after S ms m0 ret w w' : orderly ms X → adv w w' → outcome X Y E m0 S ms ret w → outcome X Y E m0 S ms ret w'.
Proof.
  intros Ho Ha (H1 & H2 & H3). split_and!; [by eapply still_adv| |].
  - intros Hr. destruct (H2 Hr) as [D1 D2 D3]. pose proof (still_adv _ _ _ _ Ha D3) as Hs.
    assert (∀ l, ¬ X l → mem w' l = mem w l) as Hm.
    { intros l Hl. apply (fo_frame _ _ _ _ _ Hs); [done|]. apply not_elem_of_nil. }
    split; [| |by eapply still_self].
    + intros d s Hd. rewrite Hm by apply (or_X _ _ Ho d s Hd). by apply D1.
    + intros l Hl HS Hn. rewrite Hm by done. by apply D2.
  - intros Hr. rewrite (adv_failed _ _ Ha). by apply H3.
Qed.
(** Calls around a copy. *)
Lemma does_around {A} S ms (q1 : prog A) q (q2 : HostDataOpRDMA → Z → prog (HostDataOpRDMA * Z)) :
  orderly ms X → passes q1 → does_op S ms q →
  (∀ ret w Q, (∀ w', adv w w' → Q (op, ret) w') → wp_ (q2 op ret) w Q) →
  does_op S ms (_ ← q1; '(o, ret) ← q; q2 o ret).
Proof.
  intros Ho H1 Hq H2 w Hs. apply wp_seq, H1. intros a w1 A1. apply wp_seq.
  assert (still (mem w) X w1) as Hs1 by (by eapply still_adv).
  eapply wp_mono; [apply Hq; by eapply still_self|]. intros [o ret] w2 [Eo Hout]. cbn in Eo, Hout. subst o. apply H2. intros w3 A2.
  split; [done|]. eapply outcome_after; [done|exact A2|]. by eapply outcome_before.
Qed.
(** *** Batches *)
Definition job_moves (rd rs : Z) (j : hybm_copy_params) : list Move := moves (rd, dest j) (rs, src j) (dataSize j).

Lemma does_before {A} S ms (q1 : prog A) f : orderly ms X → passes q1 → (∀ a, does me X Y E S ms (f a)) →
  does me X Y E S ms (q1 ≫= f).
Proof.
  intros Ho H1 Hf w Hs. apply wp_seq, H1. intros a w1 A1. assert (still (mem w) X w1) as Hs1 by (by eapply still_adv).
  eapply wp_mono; [apply Hf; by eapply still_self|]. intros r w2 Hout. by eapply outcome_before.
Qed.
Lemma copy_on_stream_does kind jobs o : orderly (jobs ≫= job_moves me me) X → inside Y (jobs ≫= job_moves me me) →
  does me X Y E none (jobs ≫= job_moves me me) (copy_on_stream kind jobs o).
Proof.
  intros Ho Hi. apply does_before; [done|destruct (stream o =? nullptr); by apply passes_ret || apply passes_call|].
  intros st w Hs. apply wp_seq.
  eapply wp_mono; [apply (submit_follow me X Y (TStream st) _ (job_moves me me) (mem w) jobs []); try done|].
  - by eapply follow_none.
  - by eapply still_widen.
  - intros r w1 (H1 & H2 & H3). cbn [app] in H2. destruct (Z.eqb_spec r 0) as [-> |Hr]; cbn [negb].
    + apply wp_call; [done|]. intros w2 r Hst. by eapply waited; eauto.
    + split_and!; [done|done|]. intros _. left. by apply H3.
Qed.
Lemma BatchCopyLH2LH_does jobs : orderly (jobs ≫= job_moves me me) X → inside Y (jobs ≫= job_moves me me) →
  does me X Y E none (jobs ≫= job_moves me me) (BatchCopyLH2LH jobs).
Proof.
  intros Ho Hi. apply does_submit; [done|eapply orderly_less; [done|]; by intros l [?|[]]|]. intros j Hj.
  apply does_now; [done|done| |].
  - apply list_elem_of_split in Hj as (l1 & l2 & ->). rewrite bind_app, bind_cons in Ho.
    by eapply orderly_app_l, orderly_app_r.
  - intros d s Hd. apply (Hi d s), list_elem_of_bind. eauto.
Qed.
Lemma post_and_wait_does {A} rank (f : A → Call) (g : A → list Move) l :
  (∀ a, effect me (f a) = ECopy (TRank rank) (g a)) → orderly (l ≫= g) X → inside Y (l ≫= g) →
  does me X Y E none (l ≫= g) (post_and_wait op rank f l).
Proof.
  intros He Ho Hi w Hs. unfold post_and_wait, tcall. rewrite Htrans. apply wp_seq.
  eapply wp_mono; [apply (submit_follow me X Y (TRank rank) f g (mem w) l []); try done|].
  - by eapply follow_none.
  - by eapply still_widen.
  - intros e w1 (H1 & H2 & H3). by eapply (wait_outcome me X Y E (TRank rank)).
Qed.

Definition item_moves (dst srcl : CopyItem → Loc) (c : CopyItem) : list Move := moves (dst c) (srcl c) (count c).
Definition item_fits (c : CopyItem) : Prop := 0 ≤ count c < 2 ^ 63.
Fixpoint total (b : CopyDescriptor) : Z := match b with [] => 0 | c :: b => count c + total b end.
Lemma batch_bytes_nonneg b : Forall item_fits b → 0 ≤ total b.
Proof. induction 1 as [|c b Hc _ IH]; cbn; [done|]. unfold item_fits in Hc. lia. Qed.

Lemma fill_spec d acc : Forall item_fits d → 0 ≤ acc ≤ swapSize →
  let '(b, rest, n) := fill swapSize acc d in d = b ++ rest ∧ n = acc + total b ∧ n ≤ swapSize ∧
    (b = [] → match d with [] => True | c :: _ => swapSize < acc + count c end).
Proof.
  intros Hd. revert acc. induction Hd as [|c d Hc Hd IH]; intros acc Ha; cbn [fill].
  { split_and!; cbn; [done|lia|lia|done]. }
  unfold item_fits in Hc. rewrite u64_small by lia. destruct (Z.leb_spec (acc + count c) swapSize).
  - specialize (IH (acc + count c)). destruct (fill swapSize (acc + count c) d) as [[b rest] n].
    destruct IH as (-> & -> & ? & _); [lia|]. split_and!; cbn; [done|lia|lia|done].
  - split_and!; cbn; [done|lia|lia|lia].
Qed.

Lemma stage_relays dst srcl tmp off b : Forall item_fits b → 0 ≤ off → baseAddress p ≤ tmp →
  tmp + off + total b ≤ baseAddress p + totalSize p →
  relays (stage tmp off b ≫= λ x, moves (me, x.1) (srcl x.2) (count x.2))
         (stage tmp off b ≫= λ x, moves (dst x.2) (me, x.1) (count x.2)) (b ≫= item_moves dst srcl) ∧
  (∀ t, t ∈ (stage tmp off b ≫= λ x, moves (me, x.1) (srcl x.2) (count x.2)).*1 → tmp + off ≤ t.2).
Proof.
  intros Hb. revert off. induction Hb as [|c b Hc Hb IH]; intros off Hoff Ht Htop; cbn [stage].
  { split; [split; (by intros ? ? ?%not_elem_of_nil) || constructor|by intros t ?%not_elem_of_nil]. }
  pose proof (batch_bytes_nonneg b Hb). pose proof (inv_base _ _ Hinv). unfold item_fits in Hc. cbn [total] in Htop.
  rewrite !bind_cons. cbn [fst snd]. rewrite (u64_small (tmp + off)), (u64_small (off + count c)) by lia.
  destruct (IH (off + count c)) as [IH1 IH2]; [lia..|].
  split.
  - apply relays_app; [apply moves_relays; lia|done|]. intros t [_ Ht1]%elem_of_moves_dst Ht2%IH2. cbn in Ht1. lia.
  - intros t. rewrite fmap_app, elem_of_app. intros [[_ Ht1]%elem_of_moves_dst|Ht1%IH2]; cbn in *; lia.
Qed.

(** The local part of a staged batch. *)
Definition copies_local (local : list hybm_copy_params → prog Z) : Prop := ∀ jobs,
  orderly (jobs ≫= job_moves me me) X → inside Y (jobs ≫= job_moves me me) →
  does me X Y E none (jobs ≫= job_moves me me) (local jobs).
Definition put_item (rank : Z) : CopyItem → list Move := item_moves (λ c, (rank, globalAddr c)) (λ c, (me, localAddr c)).
Definition get_item (rank : Z) : CopyItem → list Move := item_moves (λ c, (me, localAddr c)) (λ c, (rank, globalAddr c)).

Lemma staged_write_does rank local b tmp : copies_local local → Forall item_fits b →
  baseAddress p ≤ tmp → tmp + total b ≤ baseAddress p + totalSize p →
  orderly (b ≫= put_item rank) (either X swap) → inside Y (b ≫= put_item rank) →
  does me X Y E swap (b ≫= put_item rank) (staged_write op rank local b tmp).
Proof.
  intros Hl Hb H1 H2 Ho Hi.
  destruct (stage_relays (λ c, (rank, globalAddr c)) (λ c, (me, localAddr c)) tmp 0 b) as [Hr _]; [done|lia..|].
  destruct (relays_orderly _ _ _ Hr Ho). destruct (relays_inside _ _ _ Hr Hi).
  apply (relay_does _ _ _ _ _ Hr).
  - pose proof (Hl (to_swap <$> stage tmp 0 b)) as Hl'. rewrite list_fmap_bind in Hl'. by apply Hl'.
  - by apply post_and_wait_does.
Qed.
Lemma staged_read_does rank local b tmp : copies_local local → Forall item_fits b →
  baseAddress p ≤ tmp → tmp + total b ≤ baseAddress p + totalSize p →
  orderly (b ≫= get_item rank) (either X swap) → inside Y (b ≫= get_item rank) →
  does me X Y E swap (b ≫= get_item rank) (staged_read op rank local b tmp).
Proof.
  intros Hl Hb H1 H2 Ho Hi.
  destruct (stage_relays (λ c, (me, localAddr c)) (λ c, (rank, globalAddr c)) tmp 0 b) as [Hr _]; [done|lia..|].
  destruct (relays_orderly _ _ _ Hr Ho). destruct (relays_inside _ _ _ Hr Hi).
  apply (relay_does _ _ _ _ _ Hr).
  - by apply post_and_wait_does.
  - pose proof (Hl (from_swap <$> stage tmp 0 b)) as Hl'. rewrite list_fmap_bind in Hl'. by apply Hl'.
Qed.

Lemma batch_loop_does (g : CopyItem → list Move) body fuel d :
  (∀ b tmp, Forall item_fits b → baseAddress p ≤ tmp → tmp + total b ≤ baseAddress p + totalSize p →
     orderly (b ≫= g) (either X swap) → inside Y (b ≫= g) → does me X Y E swap (b ≫= g) (body b tmp)) →
  (List.length d ≤ fuel)%nat → Forall item_fits d → orderly (d ≫= g) (either X swap) → inside Y (d ≫= g) →
  (∀ c, c ∈ d → ¬ 0 < count c ≤ swapSize → E) →
  does_op swap (d ≫= g) (batch_loop swapSize fuel body op d 0).
Proof.
  intros Hbody. revert d. induction fuel as [|fuel IH]; intros d Hlen Hd Ho Hi HE; (destruct d as [|c d];
    [apply (does_op_ret _ _ (Ret 0)), does_ret0; done|]); cbn [List.length] in Hlen; [lia|]. cbn [batch_loop].
  pose proof (fill_spec (c :: d) 0 Hd ltac:(lia)) as Hf. destruct (fill swapSize 0 (c :: d)) as [[b rest] n].
  destruct Hf as (Ed & -> & Hn & Hb). rewrite Z.add_0_l in *. destruct (Z.eqb_spec (total b) 0) as [E0|E0].
  { apply (does_op_ret _ _ (Ret BM_INVALID_PARAM)). apply does_error; [done|done|]. apply (HE c); [by left|].
    destruct b as [|c' b]; [specialize (Hb eq_refl); lia|]. cbn in Ed, E0. injection Ed as -> ->.
    apply Forall_cons in Hd as [Hc Hd]. apply Forall_app in Hd as [Hd _]. pose proof (batch_bytes_nonneg b Hd). unfold item_fits in Hc. lia. }
  rewrite Ed in Hd, Ho, Hi, HE |- *. rewrite bind_app in *. apply Forall_app in Hd as [Hd1 Hd2]. apply inside_app in Hi as [Hi1 Hi2].
  apply (does_op_app _ _ _ _ (λ o r, batch_loop swapSize fuel body o rest r)); [done|..].
  - pose proof (batch_bytes_nonneg b Hd1). apply with_swap_does; [lia|]. intros tmp H1 H2. apply Hbody; [done..|by eapply orderly_app_l|done].
  - apply IH; [|done|by eapply orderly_app_r|done|intros x Hx; apply HE, elem_of_app; by right].
    destruct b as [|c' b]; [done|]. cbn in Ed. injection Ed as _ ->. rewrite length_app in Hlen. lia.
Qed.

Lemma stream_copies kind o : copies_local (λ jobs, copy_on_stream kind jobs o).
Proof. intros jobs. apply copy_on_stream_does. Qed.
Lemma memcpy_copies : copies_local BatchCopyLH2LH.
Proof. intros jobs. apply BatchCopyLH2LH_does. Qed.
Lemma batch_write_does rank local d : copies_local local → Forall item_fits d →
  orderly (d ≫= put_item rank) (either X swap) → inside Y (d ≫= put_item rank) → (∀ c, c ∈ d → ¬ 0 < count c ≤ swapSize → E) →
  does_op swap (d ≫= put_item rank) (batch_loop swapSize (List.length d) (staged_write op rank local) op d BM_OK).
Proof. intros. apply batch_loop_does; [|done..]. intros. by apply staged_write_does. Qed.
Lemma batch_read_does rank local d : copies_local local → Forall item_fits d →
  orderly (d ≫= get_item rank) (either X swap) → inside Y (d ≫= get_item rank) → (∀ c, c ∈ d → ¬ 0 < count c ≤ swapSize → E) →
  does_op swap (d ≫= get_item rank) (batch_loop swapSize (List.length d) (staged_read op rank local) op d BM_OK).
Proof. intros. apply batch_loop_does; [|done..]. intros. by apply staged_read_does. Qed.

(** *** Without the swap space *)
Lemma filter_split {A} (f : A → bool) l : List.filter f l ++ List.filter (λ x, negb (f x)) l ≡ₚ l.
Proof.
  induction l as [|x l IH]; [done|]. cbn. destruct (f x); cbn [negb app]; [by rewrite IH|].
  by rewrite <- Permutation_middle, IH.
Qed.
Definition direct_item (o : ExtOptions) : CopyItem → list Move :=
  let isPut := srcRankId o =? me in
  item_moves (λ c, (if isPut then destRankId o else me, globalAddr c)) (λ c, (if isPut then me else srcRankId o, localAddr c)).
Lemma gh2gh_does jobs o : orderly ((local_global <$> jobs) ≫= direct_item o) X → inside Y ((local_global <$> jobs) ≫= direct_item o) →
  does me X Y E none ((local_global <$> jobs) ≫= direct_item o) (BatchCopyGH2GH op jobs o).
Proof.
  unfold BatchCopyGH2GH. set (items := local_global <$> jobs). set (f c := count c <=? SMALL_IO_LIMIT_SIZE).
  set (rank := if srcRankId o =? me then destRankId o else srcRankId o).
  intros Ho Hi. assert (List.filter f items ++ List.filter (λ c, negb (f c)) items ≡ₚ items) as Hp by apply filter_split.
  change (λ c, count c <=? SMALL_IO_LIMIT_SIZE) with f. change (λ c, negb (count c <=? SMALL_IO_LIMIT_SIZE)) with (λ c, negb (f c)).
  revert Hp. generalize (List.filter f items), (List.filter (λ c, negb (f c)) items). intros small big Hp.
  assert ((small ≫= direct_item o) ++ (big ≫= direct_item o) ≡ₚ items ≫= direct_item o) as Hpm by (by rewrite <- bind_app, Hp).
  apply (does_same me X Y E none ((small ≫= direct_item o) ++ (big ≫= direct_item o))); [intros mv; by rewrite Hpm|].
  apply (orderly_perm _ _ _ (symmetry Hpm)) in Ho.
  assert (inside Y ((small ≫= direct_item o) ++ (big ≫= direct_item o))) as Hi' by (intros d s; rewrite Hpm; apply Hi).
  apply inside_app in Hi' as [Hi1 Hi2]. clear Hi Hp Hpm. unfold tcall. rewrite Htrans. intros w Hs.
  apply wp_seq. eapply (wp_mono _ _ _ _ (λ ret w', still (mem w) Y w' ∧
    (ret = 0 → following (mem w) (small ≫= direct_item o) (TRank rank) X w') ∧ (ret ≠ 0 → failed w' = true))).
  { assert (following (mem w) [] (TRank rank) X w) as Hf by (by eapply follow_none). assert (still (mem w) Y w) as Hsy by (by eapply still_widen).
    destruct small as [|c small]; [by cbn; split_and!|]. revert Ho Hi1 Hf. generalize (c :: small). clear c small. intros small Ho Hi1 Hf.
    apply wp_call; [by destruct (srcRankId o =? me)|]. intros w' r Hst.
    assert (copies (TRank rank) (small ≫= direct_item o) w w' r) as Hc.
    { unfold fabric_step in Hst. unfold direct_item, item_moves, rank in *. destruct (srcRankId o =? me); exact Hst. }
    clear Hst. split_and!; [by eapply still_copies| |].
    - intros ->. destruct Hc as [[_ Hc]|[? _]]; [|done]. eapply (follow_copy _ []); [exact Hf|by eapply orderly_app_l|done].
    - intros Hr. rewrite (copies_failed _ _ _ _ _ Hc). apply Z.eqb_neq in Hr. rewrite Hr. by destruct (failed w). }
  intros ret w1 (H1 & H2 & H3). apply wp_seq. destruct (Z.eqb_spec ret 0) as [-> |Hr].
  - eapply wp_mono; [apply (submit_follow me X Y (TRank rank) _ (direct_item o) (mem w) big (small ≫= direct_item o)); try done|].
    + intros c _. unfold direct_item, item_moves, rank. by destruct (srcRankId o =? me).
    + by apply H2.
    + intros e w2 (G1 & G2 & G3). eapply (wait_outcome me X Y E (TRank rank)); done.
  - cbn [wp]. eapply (wait_outcome me X Y E (TRank rank)); done.
Qed.

Lemma all_registered_passes local jobs : passes (all_registered op local jobs).
Proof.
  induction jobs as [|j jobs IH]; cbn [all_registered]; [apply passes_ret|]. unfold tcall. rewrite Htrans.
  apply passes_bind; [by apply passes_call|]. intros r. destruct (r =? 0); [apply passes_ret|done].
Qed.

(** *** By the owner of the global address *)
Definition owner (spaces : list GvaSpace) (globalRankId gva : Z) : Z :=
  let r := GetRankIdByGva spaces gva in if r =? U32_MAX then globalRankId else r.
Definition entries (m : gmap Z CopyDescriptor) : CopyDescriptor := map_to_list m ≫= snd.
Lemma entries_add m r c : entries (add_entry m r c) ≡ₚ c :: entries m.
Proof.
  unfold entries, add_entry. rewrite <- insert_delete_eq, map_to_list_insert by apply lookup_delete_eq. rewrite bind_cons. cbn [snd].
  destruct (m !! r) as [l|] eqn:El; cbn [default from_option id].
  - rewrite <- (map_to_list_delete m r l El). rewrite bind_cons. cbn [snd].
    rewrite <- app_assoc. cbn. by rewrite <- Permutation_middle.
  - by rewrite delete_id.
Qed.

(** Every entry of a group is owned by the group's rank. *)
Definition grouped (spaces : list GvaSpace) (dflt : Z) (m : gmap Z CopyDescriptor) : Prop :=
  ∀ r l c, m !! r = Some l → c ∈ l → owner spaces dflt (globalAddr c) = r.
Lemma grouped_add spaces dflt m c : grouped spaces dflt m →
  grouped spaces dflt (add_entry m (owner spaces dflt (globalAddr c)) c).
Proof.
  unfold add_entry. intros Hg r l c' [[<- <-]|[Hne Hl]]%lookup_insert_Some Hc; [|by eapply Hg].
  apply elem_of_app in Hc as [Hc| ->%list_elem_of_singleton]; [|done].
  destruct (m !! owner spaces dflt (globalAddr c)) as [l|] eqn:El; [by eapply Hg|by apply not_elem_of_nil in Hc].
Qed.
Lemma classify_spec spaces dflt d maps : grouped spaces dflt maps.1 → grouped spaces dflt maps.2 →
  (∀ r l, maps.2 !! r = Some l → r = me) →
  let '(rmt, loc) := foldl (classify op spaces dflt) maps d in
  grouped spaces dflt rmt ∧ grouped spaces dflt loc ∧ (∀ r l, loc !! r = Some l → r = me) ∧
  entries loc ++ entries rmt ≡ₚ d ++ entries maps.2 ++ entries maps.1.
Proof.
  revert maps. induction d as [|c d IH]; intros [m1 m2] H1 H2 H3; cbn [fst snd] in *; [done|]. cbn [foldl].
  set (maps := classify op spaces dflt (m1, m2) c). specialize (IH maps).
  assert (grouped spaces dflt maps.1 ∧ grouped spaces dflt maps.2 ∧ (∀ r l, maps.2 !! r = Some l → r = me) ∧
    entries maps.2 ++ entries maps.1 ≡ₚ c :: entries m2 ++ entries m1) as (G1 & G2 & G3 & G4).
  { unfold maps, classify. fold (owner spaces dflt (globalAddr c)).
    destruct (Z.eqb_spec (owner spaces dflt (globalAddr c)) me) as [Em|Em]; cbn [fst snd]; split_and!; try done.
    - by apply grouped_add.
    - unfold add_entry. intros r l [[<- _]|[_ ?]]%lookup_insert_Some; [done|by eapply H3].
    - by rewrite entries_add.
    - by apply grouped_add.
    - rewrite entries_add. by rewrite <- Permutation_middle. }
  specialize (IH G1 G2 G3). destruct (foldl _ _ _) as [rmt loc]. destruct IH as (I1 & I2 & I3 & I4). split_and!; try done.
  rewrite I4, G4. by rewrite <- Permutation_middle.
Qed.

Lemma each_rank_does {A} S (f : HostDataOpRDMA → A → prog (HostDataOpRDMA * Z)) (h : A → list Move) l : orderly (l ≫= h) (either X S) → (∀ x, x ∈ l → does_op S (h x) (f op x)) →
  does_op S (l ≫= h) (each_rank f op l BM_OK).
Proof.
  induction l as [|x l IH]; intros Ho Hf; cbn [each_rank]; [apply (does_op_ret _ _ (Ret 0)), does_ret0; done|].
  rewrite bind_cons in *. apply (does_op_app _ _ _ _ (λ o r, each_rank f o l r)); [done|by apply Hf; left|].
  apply IH; [by eapply orderly_app_r|]. intros y Hy. apply Hf. by right.
Qed.
Lemma does_op_same S ms ms' q : (∀ mv, mv ∈ ms ↔ mv ∈ ms') → does_op S ms q → does_op S ms' q.
Proof.
  intros He Hq w Hs. eapply wp_mono; [by apply Hq|]. intros x w' (Ex & H1 & H2 & H3). split; [done|]. split_and!; [done| |done].
  intros Hr. eapply did_same; eauto.
Qed.

(** A batch in two rounds: the local groups, then the remote ones. *)
Context (order : gmap Z CopyDescriptor → list (Z * CopyDescriptor)) (Horder : ∀ m, order m ≡ₚ map_to_list m).
Lemma grouped_moves (item : Z → CopyItem → list Move) spaces dflt m : grouped spaces dflt m →
  (order m ≫= λ x, x.2 ≫= item x.1) ≡ₚ entries m ≫= λ c, item (owner spaces dflt (globalAddr c)) c.
Proof.
  intros Hg. rewrite Horder. unfold entries.
  assert (∀ l, (∀ x, x ∈ l → m !! x.1 = Some x.2) → (l ≫= λ x, x.2 ≫= item x.1) =
    (l ≫= snd) ≫= λ c, item (owner spaces dflt (globalAddr c)) c) as H.
  { induction l as [|[r l0] l IH]; intros Hl; [done|]. rewrite !bind_cons, bind_app. cbn [fst snd]. f_equal; [|by apply IH; intros; apply Hl; right].
    apply Forall_bind_ext, Forall_forall. intros c Hc. by rewrite (Hg r l0 c (Hl (r, l0) (list_elem_of_here _ _)) Hc). }
  rewrite H; [done|]. intros [r l] Hx. by apply elem_of_map_to_list in Hx.
Qed.
Lemma one_of_bind {A} (h : A → list Move) l x : x ∈ l → orderly (l ≫= h) (either X swap) → inside Y (l ≫= h) →
  orderly (h x) (either X swap) ∧ inside Y (h x).
Proof.
  clear. intros Hx Hl Hil. apply list_elem_of_split in Hx as (l1 & l2 & ->). rewrite bind_app, bind_cons in *.
  apply inside_app in Hil as [_ Hil]. apply inside_app in Hil as [Hil _]. split; [by eapply orderly_app_l, orderly_app_r|done].
Qed.
Lemma groups_does (item : Z → CopyItem → list Move) spaces dflt (d : CopyDescriptor) f1 f2 :
  let gitem c := item (owner spaces dflt (globalAddr c)) c in
  orderly (d ≫= gitem) (either X swap) → inside Y (d ≫= gitem) → Forall item_fits d →
  (∀ c, c ∈ d → ¬ 0 < count c ≤ swapSize → E) →
  let maps := ClassifyDataAddr op spaces d dflt in
  (∀ l, orderly (l ≫= item me) (either X swap) → inside Y (l ≫= item me) → does_op swap (l ≫= item me) (f1 op (me, l))) →
  (∀ r l, orderly (l ≫= item r) (either X swap) → inside Y (l ≫= item r) → Forall item_fits l →
     (∀ c, c ∈ l → ¬ 0 < count c ≤ swapSize → E) → does_op swap (l ≫= item r) (f2 op (r, l))) →
  does_op swap (d ≫= gitem) ('(o, ret) ← each_rank f1 op (order maps.2) BM_OK;
    if negb (ret =? BM_OK) then Ret (o, ret) else each_rank f2 o (order maps.1) ret).
Proof.
  intros gitem Ho Hi Hd HE maps H1 H2. pose proof (classify_spec spaces dflt d (∅, ∅)) as Hc.
  change (foldl _ _ _) with maps in Hc. destruct maps as [rmt loc]. cbn [fst snd] in *.
  destruct Hc as (Hg1 & Hg2 & Hme & Hp); [by intros ? ? ? Hx; rewrite lookup_empty in Hx|by intros ? ? ? Hx; rewrite lookup_empty in Hx|by intros ? ? Hx; rewrite lookup_empty in Hx|].
  assert (entries ∅ = []) as En by (unfold entries; by rewrite map_to_list_empty). rewrite En, !app_nil_r in Hp.
  set (h x := x.2 ≫= item x.1).
  assert ((order loc ≫= h) ++ (order rmt ≫= h) ≡ₚ d ≫= gitem) as Hpm.
  { unfold h. rewrite !(grouped_moves item spaces dflt) by done. rewrite <- bind_app. by rewrite Hp. }
  apply (does_op_same _ ((order loc ≫= h) ++ (order rmt ≫= h))); [intros mv; by rewrite Hpm|]. apply (orderly_perm _ _ _ (symmetry Hpm)) in Ho.
  assert (inside Y ((order loc ≫= h) ++ (order rmt ≫= h))) as [Hi1 Hi2]%inside_app by (intros x y; rewrite Hpm; apply Hi).
  assert (∀ m r l c, (r, l) ∈ order m → c ∈ l → c ∈ entries m) as Hin.
  { intros m r l c Hx Hc. rewrite Horder in Hx. unfold entries. apply list_elem_of_bind. by exists (r, l). }
  apply (does_op_app _ _ _ _ (λ o r, each_rank f2 o (order rmt) r)); [done|..].
  - apply each_rank_does; [by eapply orderly_app_l|]. intros [r l] Hx. destruct (one_of_bind h _ _ Hx) as [G1 G2]; [by eapply orderly_app_l|done|].
    assert (r = me) as -> by (rewrite Horder in Hx; apply elem_of_map_to_list in Hx; by eapply Hme). by apply H1.
  - apply each_rank_does; [by eapply orderly_app_r|]. intros [r l] Hx. destruct (one_of_bind h _ _ Hx) as [G1 G2]; [by eapply orderly_app_r|done|].
    assert (∀ c, c ∈ l → c ∈ d) as Hld.
    { intros c Hc. rewrite <- Hp. apply elem_of_app. right. by eapply Hin. }
    apply H2; [done..| |eauto]. apply Forall_forall. intros c Hc. rewrite Forall_forall in Hd. auto.
Qed.
End Ops.

(** ** A data copy *)
Definition from_local (d : hybm_data_copy_direction) : bool :=
  match d with HYBM_LOCAL_HOST_TO_GLOBAL_HOST | HYBM_LOCAL_DEVICE_TO_GLOBAL_HOST => true | _ => false end.
Definition to_local (d : hybm_data_copy_direction) : bool :=
  match d with HYBM_GLOBAL_HOST_TO_LOCAL_HOST | HYBM_GLOBAL_HOST_TO_LOCAL_DEVICE => true | _ => false end.

(** The ranks a copy goes between: local memory is at the caller's. *)
Definition rank_from (op : HostDataOpRDMA) (d : hybm_data_copy_direction) (o : ExtOptions) : Z :=
  if from_local d then rankId_ op else srcRankId o.
Definition rank_to (op : HostDataOpRDMA) (d : hybm_data_copy_direction) (o : ExtOptions) : Z :=
  if to_local d then rankId_ op else destRankId o.
(** Directions the operation knows; of two global ends one is the caller's. *)
Definition supported (op : HostDataOpRDMA) (d : hybm_data_copy_direction) (o : ExtOptions) : Prop :=
  from_local d ∨ to_local d ∨
  (d = HYBM_GLOBAL_HOST_TO_GLOBAL_HOST ∧ (srcRankId o = rankId_ op ∨ destRankId o = rankId_ op)).
Record ready (swapSize : Z) (op : HostDataOpRDMA) (p : RbtreeRangePool) (live : gmap Z Z) : Prop := {
  rd_inited : inited_ op = true;
  rd_transport : transportManager_ op = true;
  rd_pool : rdmaSwapMemoryAllocator_ op = Some p;
  rd_inv : pool_inv p live;
  rd_size : 0 < swapSize ≤ 2 ^ 32;
}.
Definition room (swapSize : Z) (p : RbtreeRangePool) : Prop := ∀ n, 0 < n ≤ swapSize → pool_CanAllocate p n = true.

(** What a copy of the bytes [ms] promises from memory [m0]: the object, with its
    swap space, is as before; memory outside the destination, the swap space and
    what other copies write is as before; success means that every byte is where it
    should be and that no copy of this one is still under way; an error means that
    a call failed, or [E]. *)
Definition copied (op : HostDataOpRDMA) (p : RbtreeRangePool) (X : Loc → Prop) (E : Prop) (m0 : Memory) (ms : list Move)
    (x : HostDataOpRDMA * Z) (w : World) : Prop :=
  x.1 = op ∧
  (∀ l, ¬ X l → ¬ swap_of (rankId_ op) p l → l ∉ ms.*1 → mem w l = m0 l) ∧
  (x.2 = BM_OK → (∀ d s, (d, s) ∈ ms → mem w d = m0 s) ∧ ∀ f, f ∈ flights w → all_X X f) ∧
  (x.2 ≠ BM_OK → failed w = true ∨ E).

Lemma does_copied op p X E S ms q w :
  let Y l := X l ∨ swap_of (rankId_ op) p l ∨ l ∈ ms.*1 in
  S = swap_of (rankId_ op) p →
  does_op op X Y E S ms q → still (mem w) X w →
  wp fabric_ok (fabric_step (rankId_ op)) q w (copied op p X E (mem w) ms).
Proof.
  intros Y -> Hq Hs. eapply wp_mono; [by apply Hq|]. intros x w' (Ex & H1 & H2 & H3). split_and!; [done| | |done].
  - intros l HX HS Hn. apply (fo_frame _ _ _ _ _ H1); [unfold Y; tauto|]. apply not_elem_of_nil.
  - intros Hr. destruct (H2 Hr) as [D1 D2 [Df _ _]]. split; [done|]. intros f Hf.
    destruct (Df f Hf) as [[_ Hn]|?]; [|done]. intros d s Hd. by apply Hn, not_elem_of_nil in Hd.
Qed.

Definition copy_plan (op : HostDataOpRDMA) (d : hybm_data_copy_direction) (o : ExtOptions) (j : hybm_copy_params) : list Move :=
  moves (rank_to op d o, dest j) (rank_from op d o, src j) (dataSize j).
Definition job_fits (j : hybm_copy_params) : Prop := 0 ≤ dataSize j ∧ fits (src j) (dataSize j) ∧ fits (dest j) (dataSize j).

Lemma DataCopy_copied swapSize op p live X w params direction options :
  ready swapSize op p live → supported op direction options → job_fits params →
  (∀ l, swap_of (rankId_ op) p l → ¬ X l) →
  orderly (copy_plan op direction options params) (either X (swap_of (rankId_ op) p)) →
  still (mem w) X w →
  wp fabric_ok (fabric_step (rankId_ op)) (DataCopy swapSize op params direction options) w
    (copied op p X (¬ room swapSize p) (mem w) (copy_plan op direction options params)).
Proof.
  intros [Hin Htr Hpool Hinv Hsz] Hsup (Hn & Hfs & Hfd) HSX Ho Hs.
  set (Y l := X l ∨ swap_of (rankId_ op) p l ∨ l ∈ (copy_plan op direction options params).*1).
  apply (does_copied _ _ _ _ (swap_of (rankId_ op) p)); [done| |done]. fold Y.
  assert (inside Y (copy_plan op direction options params)) as Hi.
  { intros d s Hd. right; right. apply list_elem_of_fmap. by exists (d, s). }
  assert (∀ n, 0 < n ≤ swapSize → pool_CanAllocate p n = false → ¬ room swapSize p) as Hroom.
  { intros n Hn' Hc Hr. rewrite Hr in Hc; done. }
  assert (∀ l, X l → Y l) as HXY by (intros l Hl; by left). assert (∀ l, swap_of (rankId_ op) p l → Y l) as HSY by (intros l Hl; by right; left).
  unfold DataCopy. rewrite Hin. cbn [negb].
  apply (does_around op X Y _ HXY _ _ _ _ (λ op ret, if negb (transportManager_ op) then undefined (op, ret) else
    addr ← GetLocalMrAddr params direction; _ ← call (UnregisterMemoryRegion addr); Ret (op, ret))).
  - by eapply orderly_none.
  - apply PreRegister_passes.
  - assert (∀ host, from_local direction → does_op op X Y (¬ room swapSize p) (swap_of (rankId_ op) p)
      (copy_plan op direction options params) (copy_to swapSize op (src params) (dest params) (dataSize params) options host)) as Hto.
    { intros host Hd. revert Ho Hi. unfold copy_plan, rank_to, rank_from. destruct direction; try done; intros Ho Hi;
        by eapply copy_to_does. }
    assert (∀ host, to_local direction → does_op op X Y (¬ room swapSize p) (swap_of (rankId_ op) p)
      (copy_plan op direction options params) (copy_from swapSize op (src params) (dest params) (dataSize params) options host)) as Hfrom.
    { intros host Hd. revert Ho Hi. unfold copy_plan, rank_to, rank_from. destruct direction; try done; intros Ho Hi;
        by eapply copy_from_does. }
    destruct Hsup as [Hd|[Hd|[-> Hr]]]; [destruct direction; try done; by apply Hto|destruct direction; try done; by apply Hfrom|].
    clear Hto Hfrom. revert Ho Hi. unfold copy_plan, rank_to, rank_from, CopyGva2Gva. cbn [to_local from_local]. intros Ho Hi.
    destruct (Z.eqb_spec (srcRankId options) (rankId_ op)) as [Es|Es]; [rewrite Es in *; by eapply copy_to_does|].
    destruct Hr as [?|Ed]; [done|]. rewrite Ed, Z.eqb_refl in *. by eapply copy_from_does.
  - intros ret w' Q HQ. rewrite Htr. cbn [negb]. apply wp_seq, GetLocalMrAddr_passes. intros a w1 A1.
    apply wp_seq, passes_call; [done..|]. intros r w2 A2. apply HQ. unfold adv in *. by transitivity w1.
Qed.

(** C6: a data copy in a supported direction.  However the transport and the device
    split, order and repeat the moves of the bytes, and whatever else is in flight
    elsewhere: success means that the destination holds the bytes the source had;
    nothing else but the swap space is written, on errors too; the swap space is
    given back whole; and the copy fails only when a call fails or the swap space
    has no room for a chunk. *)
Theorem data_copy_exact swapSize op p live X w params direction options :
  ready swapSize op p live → supported op direction options → job_fits params →
  (∀ l, swap_of (rankId_ op) p l → ¬ X l) →
  orderly (copy_plan op direction options params) (either X (swap_of (rankId_ op) p)) →
  still (mem w) X w →
  wp fabric_ok (fabric_step (rankId_ op)) (DataCopy swapSize op params direction options) w
    (copied op p X (¬ room swapSize p) (mem w) (copy_plan op direction options params)).
Proof. apply DataCopy_copied. Qed.

(** ** Batches *)
Lemma BatchPreRegister_passes op params direction : passes op (BatchPreRegisterLocalMr op params direction).
Proof.
  unfold BatchPreRegisterLocalMr. induction (batch_entries params) as [|j l IH]; cbn [each]; [apply passes_ret|].
  apply passes_bind; [apply PreRegister_passes|done].
Qed.
Lemma BatchUnRegister_passes op params direction : transportManager_ op = true →
  passes op (BatchUnRegisterLocalMr op params direction).
Proof.
  intros Ht. unfold BatchUnRegisterLocalMr. induction (batch_entries params) as [|j l IH]; cbn [each]; [apply passes_ret|].
  apply passes_bind; [|done]. apply passes_bind; [apply GetLocalMrAddr_passes|]. intros a. unfold tcall. rewrite Ht.
  apply passes_bind; [by apply passes_call|intros; apply passes_ret].
Qed.

(** Where the ends of an entry of a batch are. *)
Definition batch_to (op : HostDataOpRDMA) (spaces : list GvaSpace) (d : hybm_data_copy_direction) (o : ExtOptions)
    (j : hybm_copy_params) : Z :=
  match d with
  | HYBM_LOCAL_DEVICE_TO_GLOBAL_HOST => owner spaces (destRankId o) (dest j)
  | HYBM_GLOBAL_HOST_TO_LOCAL_HOST | HYBM_GLOBAL_HOST_TO_LOCAL_DEVICE => rankId_ op
  | _ => destRankId o
  end.
Definition batch_from (op : HostDataOpRDMA) (spaces : list GvaSpace) (d : hybm_data_copy_direction) (o : ExtOptions)
    (j : hybm_copy_params) : Z :=
  match d with
  | HYBM_GLOBAL_HOST_TO_LOCAL_DEVICE => owner spaces (srcRankId o) (src j)
  | HYBM_LOCAL_HOST_TO_GLOBAL_HOST | HYBM_LOCAL_DEVICE_TO_GLOBAL_HOST => rankId_ op
  | _ => srcRankId o
  end.
Definition batch_plan (op : HostDataOpRDMA) (spaces : list GvaSpace) (d : hybm_data_copy_direction) (o : ExtOptions)
    (l : list hybm_copy_params) : list Move :=
  l ≫= λ j, moves (batch_to op spaces d o j, dest j) (batch_from op spaces d o j, src j) (dataSize j).
(** Copies out of local host memory say so; of two global ends one is the caller's. *)
Definition batch_supported (op : HostDataOpRDMA) (d : hybm_data_copy_direction) (o : ExtOptions) : Prop :=
  match d with
  | HYBM_LOCAL_HOST_TO_GLOBAL_HOST => srcRankId o = rankId_ op
  | HYBM_GLOBAL_HOST_TO_GLOBAL_HOST => srcRankId o = rankId_ op ∨ destRankId o = rankId_ op
  | HYBM_LOCAL_DEVICE_TO_GLOBAL_HOST | HYBM_GLOBAL_HOST_TO_LOCAL_HOST | HYBM_GLOBAL_HOST_TO_LOCAL_DEVICE => True
  | _ => False
  end.

Section Batch.
Context (swapSize : Z) (op : HostDataOpRDMA) (p : RbtreeRangePool) (live : gmap Z Z) (X Y : Loc → Prop) (E : Prop).
Context (order : gmap Z CopyDescriptor → list (Z * CopyDescriptor)) (Horder : ∀ m, order m ≡ₚ map_to_list m).
Abbreviation me := (rankId_ op).
Abbreviation swap := (swap_of me p).
Context (Hready : ready swapSize op p live) (HXY : ∀ l, X l → Y l) (HSY : ∀ l, swap l → Y l) (HSX : ∀ l, swap l → ¬ X l).
Context (Hroom : ∀ n, 0 < n ≤ swapSize → pool_CanAllocate p n = false → E).
Context (spaces : list GvaSpace) (o : ExtOptions) (l : list hybm_copy_params).
Context (Hl : Forall (λ j, 0 ≤ dataSize j < 2 ^ 63) l) (HE : ∀ j, j ∈ l → ¬ 0 < dataSize j ≤ swapSize → E).
Abbreviation does_all ms q := (does_op op X Y E swap ms q).

Lemma items_fit (f : hybm_copy_params → CopyItem) : (∀ j, count (f j) = dataSize j) → Forall item_fits (f <$> l).
Proof. intros Hf. rewrite Forall_fmap. eapply Forall_impl; [exact Hl|]. intros j Hj. cbn. unfold item_fits. by rewrite Hf. Qed.
Lemma items_sized (f : hybm_copy_params → CopyItem) : (∀ j, count (f j) = dataSize j) →
  ∀ c, c ∈ (f <$> l) → ¬ 0 < count c ≤ swapSize → E.
Proof. intros Hf c (j & -> & Hj)%list_elem_of_fmap. rewrite Hf. by apply HE. Qed.

Lemma LD2GH_does : let ms := batch_plan op spaces HYBM_LOCAL_DEVICE_TO_GLOBAL_HOST o l in
  orderly ms (either X swap) → inside Y ms → does_all ms (BatchCopyLD2GH swapSize order op spaces l o).
Proof.
  intros ms Ho Hi. destruct Hready as [_ Htr Hpool Hinv Hsz].
  pose proof (groups_does swapSize op p X Y E HXY order Horder (put_item op) spaces (destRankId o) (local_global <$> l)) as Hg.
  unfold BatchCopyLD2GH. destruct (ClassifyDataAddr op spaces (local_global <$> l) (destRankId o)) as [rmt loc]. cbn [fst snd] in Hg.
  rewrite list_fmap_bind in Hg. apply Hg; try done; [by apply items_fit|by apply items_sized|..].
  - intros d Ho1 Hi1. apply (does_op_scratch _ _ _ _ none); [done|]. apply does_op_ret.
    pose proof (copy_on_stream_does op X Y E HXY ACL_MEMCPY_DEVICE_TO_HOST
      ((λ c, mkParams (localAddr c) (globalAddr c) (count c)) <$> d) o) as Hc. rewrite list_fmap_bind in Hc.
    apply Hc; [by eapply orderly_none|done].
  - intros r d Ho1 Hi1 Hd1 Hd2. eapply batch_write_does; try done. by apply stream_copies.
Qed.
Lemma GH2LD_does : let ms := batch_plan op spaces HYBM_GLOBAL_HOST_TO_LOCAL_DEVICE o l in
  orderly ms (either X swap) → inside Y ms → does_all ms (BatchCopyGH2LD swapSize order op spaces l o).
Proof.
  intros ms Ho Hi. destruct Hready as [_ Htr Hpool Hinv Hsz].
  pose proof (groups_does swapSize op p X Y E HXY order Horder (get_item op) spaces (srcRankId o) (global_local <$> l)) as Hg.
  unfold BatchCopyGH2LD. destruct (ClassifyDataAddr op spaces (global_local <$> l) (srcRankId o)) as [rmt loc]. cbn [fst snd] in Hg.
  rewrite list_fmap_bind in Hg. apply Hg; try done; [by apply items_fit|by apply items_sized|..].
  - intros d Ho1 Hi1. apply (does_op_scratch _ _ _ _ none); [done|]. apply does_op_ret.
    pose proof (copy_on_stream_does op X Y E HXY ACL_MEMCPY_HOST_TO_DEVICE
      ((λ c, mkParams (globalAddr c) (localAddr c) (count c)) <$> d) o) as Hc. rewrite list_fmap_bind in Hc.
    apply Hc; [by eapply orderly_none|done].
  - intros r d Ho1 Hi1 Hd1 Hd2. eapply batch_read_does; try done. by apply stream_copies.
Qed.

Lemma direct_does ms : ms = l ≫= (direct_item op o ∘ local_global) → orderly ms (either X swap) → inside Y ms →
  does me X Y E swap ms (BatchCopyGH2GH op l o).
Proof.
  intros -> Ho Hi. destruct Hready as [_ Htr Hpool Hinv Hsz]. apply (does_scratch _ _ _ _ none); [done|].
  pose proof (gh2gh_does op X Y E Htr HXY l o) as Hg. rewrite list_fmap_bind in Hg. apply Hg; [by eapply orderly_none|done].
Qed.
Lemma memcpys_does ms : ms = l ≫= job_moves me me → orderly ms (either X swap) → inside Y ms →
  does_all ms (ret ← BatchCopyLH2LH l; Ret (op, ret)).
Proof.
  intros -> Ho Hi. apply (does_op_scratch _ _ _ _ none); [done|]. apply does_op_ret, BatchCopyLH2LH_does; [done|by eapply orderly_none|done].
Qed.
Lemma LH2GH_does : let ms := batch_plan op spaces HYBM_LOCAL_HOST_TO_GLOBAL_HOST o l in srcRankId o = me →
  orderly ms (either X swap) → inside Y ms → does_all ms (BatchCopyLH2GH swapSize op l o).
Proof.
  intros ms Hsrc Ho Hi. pose proof Hready as [_ Htr Hpool Hinv Hsz]. unfold BatchCopyLH2GH.
  destruct (Z.eqb_spec (destRankId o) me) as [Ed|Ed].
  { apply memcpys_does; [|done|done]. unfold ms, batch_plan. apply list_bind_ext; [|done]. intros j. cbn. by rewrite Ed. }
  intros w Hs. apply wp_seq, all_registered_passes; [done|]. intros reg w1 A1. assert (still (mem w) X w1) as Hs1 by (by eapply still_adv).
  assert (does_all ms (if reg : bool then ret ← BatchCopyGH2GH op l o; Ret (op, ret) else BatchWriteLH2RH swapSize op (local_global <$> l) o)) as Hq.
  { destruct reg.
    - apply does_op_ret, direct_does; [|done|done]. unfold ms, batch_plan. apply list_bind_ext; [|done]. intros j.
      unfold direct_item. cbn. by rewrite Hsrc, Z.eqb_refl.
    - pose proof (batch_write_does swapSize op p live X Y E Hsz Hpool Hinv Htr HXY HSY HSX Hroom (destRankId o) BatchCopyLH2LH (local_global <$> l)) as Hb.
      rewrite list_fmap_bind in Hb. apply Hb; [by apply memcpy_copies|by apply items_fit|done|done|by apply items_sized]. }
  eapply wp_mono; [apply Hq; by eapply still_self|]. intros x w2 [Ex Hout]. split; [done|]. eapply outcome_before; [exact HXY|by eapply orderly_none|exact Hs1|done].
Qed.
Lemma GH2LH_does : let ms := batch_plan op spaces HYBM_GLOBAL_HOST_TO_LOCAL_HOST o l in
  orderly ms (either X swap) → inside Y ms → does_all ms (BatchCopyGH2LH swapSize op l o).
Proof.
  intros ms Ho Hi. pose proof Hready as [_ Htr Hpool Hinv Hsz]. unfold BatchCopyGH2LH.
  destruct (Z.eqb_spec (srcRankId o) me) as [Ed|Ed].
  { apply memcpys_does; [|done|done]. unfold ms, batch_plan. apply list_bind_ext; [|done]. intros j. cbn. by rewrite Ed. }
  intros w Hs. apply wp_seq, all_registered_passes; [done|]. intros reg w1 A1. assert (still (mem w) X w1) as Hs1 by (by eapply still_adv).
  assert (does_all ms (if reg : bool then ret ← BatchCopyGH2GH op l o; Ret (op, ret) else BatchReadRH2LH swapSize op (global_local <$> l) o)) as Hq.
  { destruct reg.
    - apply does_op_ret, direct_does; [|done|done]. unfold ms, batch_plan. apply list_bind_ext; [|done]. intros j.
      unfold direct_item. cbn. apply Z.eqb_neq in Ed. by rewrite Ed.
    - pose proof (batch_read_does swapSize op p live X Y E Hsz Hpool Hinv Htr HXY HSY HSX Hroom (srcRankId o) BatchCopyLH2LH (global_local <$> l)) as Hb.
      rewrite list_fmap_bind in Hb. apply Hb; [by apply memcpy_copies|by apply items_fit|done|done|by apply items_sized]. }
  eapply wp_mono; [apply Hq; by eapply still_self|]. intros x w2 [Ex Hout]. split; [done|]. eapply outcome_before; [exact HXY|by eapply orderly_none|exact Hs1|done].
Qed.
Lemma GH2GH_does : let ms := batch_plan op spaces HYBM_GLOBAL_HOST_TO_GLOBAL_HOST o l in
  srcRankId o = me ∨ destRankId o = me → orderly ms (either X swap) → inside Y ms →
  does_all ms (ret ← BatchCopyGH2GH op l o; Ret (op, ret)).
Proof.
  intros ms Hend Ho Hi. apply does_op_ret, direct_does; [|done|done]. unfold ms, batch_plan. apply list_bind_ext; [|done]. intros j.
  unfold direct_item. cbn. destruct (Z.eqb_spec (srcRankId o) me) as [-> |Hne]; [done|]. by destruct Hend as [?| ->].
Qed.
End Batch.

Lemma BatchDataCopy_copied swapSize op p live X w order spaces params direction options :
  ready swapSize op p live → (∀ m, order m ≡ₚ map_to_list m) → batch_supported op direction options →
  Forall (λ j, 0 ≤ dataSize j < 2 ^ 63) (batch params) → (∀ l, swap_of (rankId_ op) p l → ¬ X l) →
  orderly (batch_plan op spaces direction options (batch params)) (either X (swap_of (rankId_ op) p)) →
  still (mem w) X w →
  wp fabric_ok (fabric_step (rankId_ op)) (BatchDataCopy swapSize order op spaces params direction options) w
    (copied op p X (¬ room swapSize p ∨ ∃ j, j ∈ batch params ∧ ¬ 0 < dataSize j ≤ swapSize)
       (mem w) (batch_plan op spaces direction options (batch params))).
Proof.
  intros Hready Horder Hsup Hl HSX Ho Hs. set (ms := batch_plan op spaces direction options (batch params)) in *.
  set (E := ¬ room swapSize p ∨ ∃ j, j ∈ batch params ∧ ¬ 0 < dataSize j ≤ swapSize).
  set (Y l := X l ∨ swap_of (rankId_ op) p l ∨ l ∈ ms.*1).
  apply (does_copied _ _ _ _ (swap_of (rankId_ op) p)); [done| |done]. fold Y.
  assert (inside Y ms) as Hi by (intros d s Hd; right; right; apply list_elem_of_fmap; by exists (d, s)).
  assert (∀ n, 0 < n ≤ swapSize → pool_CanAllocate p n = false → E) as Hroom by (intros n Hn Hc; left; intros Hr; by rewrite Hr in Hc).
  assert (∀ j, j ∈ batch params → ¬ 0 < dataSize j ≤ swapSize → E) as HE by (intros j ? ?; right; by exists j).
  assert (∀ l, X l → Y l) as HXY by (intros l ?; by left). assert (∀ l, swap_of (rankId_ op) p l → Y l) as HSY by (intros l ?; by right; left).
  unfold BatchDataCopy. rewrite (rd_inited _ _ _ _ Hready). cbn [negb].
  apply (does_around op X Y _ HXY _ _ _ _ (λ op ret, _ ← BatchUnRegisterLocalMr op params direction; Ret (op, ret))).
  - by eapply orderly_none.
  - apply BatchPreRegister_passes.
  - destruct direction; try done.
    + by eapply LH2GH_does.
    + by eapply LD2GH_does.
    + by eapply GH2GH_does.
    + by eapply GH2LH_does.
    + by eapply GH2LD_does.
  - intros ret w' Q HQ. apply wp_seq, BatchUnRegister_passes; [apply Hready|]. intros a w1 A1. by apply HQ.
Qed.

(** C5: a batch of copies in a supported direction, whose destinations do not overlap
    one another, the sources or the swap space: success means that every entry has
    been copied, wherever its global end lies and whichever way it went (directly,
    in one call for the short ones, or batch by batch through the swap space);
    nothing else is written, the swap space is given back whole, and the copy fails
    only when a call fails, the swap space has no room, or an entry is empty or
    larger than the swap space. *)
Theorem batch_copy_exact swapSize op p live X w order spaces params direction options :
  ready swapSize op p live → (∀ m, order m ≡ₚ map_to_list m) → batch_supported op direction options →
  Forall (λ j, 0 ≤ dataSize j < 2 ^ 63) (batch params) → (∀ l, swap_of (rankId_ op) p l → ¬ X l) →
  orderly (batch_plan op spaces direction options (batch params)) (either X (swap_of (rankId_ op) p)) →
  still (mem w) X w →
  wp fabric_ok (fabric_step (rankId_ op)) (BatchDataCopy swapSize order op spaces params direction options) w
    (copied op p X (¬ room swapSize p ∨ ∃ j, j ∈ batch params ∧ ¬ 0 < dataSize j ≤ swapSize)
       (mem w) (batch_plan op spaces direction options (batch params))).
Proof. apply BatchDataCopy_copied. Qed.

(** ** A whole swap space has room *)
Lemma room_fresh addr swapSize : 0 < addr → 0 < swapSize → swapSize mod 4096 = 0 → addr + swapSize < 2 ^ 64 →
  room swapSize (pool_create addr swapSize).
Proof.
  intros Ha Hs Hm Ht n Hn. apply (pool_CanAllocate_iff _ ∅); [by apply pool_create_inv|].
  exists 0, swapSize. unfold pool_create. cbn. rewrite lookup_insert_eq. split; [done|].
  assert (n ≤ max_request) as Hmax.
  { unfold max_request. pose proof (Z.div_mod swapSize 4096). lia. }
  destruct (align_up_small n) as [Hb Hz]; [lia|].
  pose proof (Z.div_mod swapSize 4096). pose proof (Z.div_mod (AllocateSizeAlignUp n) 4096). lia.
Qed.
(** After [Initialize] the operation is ready, with a whole swap space. *)
Lemma Initialize_ready swapSize me w op : inited_ op = false → transportManager_ op = true → 0 < swapSize ≤ 2 ^ 32 →
  wp fabric_ok (fabric_step me) (Initialize swapSize op) w (λ x _,
    x.2 = BM_OK → let a := rdmaSwapBaseAddr_ x.1 in rankId_ x.1 = rankId_ op ∧
      (0 < a → a + swapSize < 2 ^ 64 → ready swapSize x.1 (pool_create a swapSize) ∅)).
Proof.
  intros Hi Ht Hs. unfold Initialize. rewrite Hi, Ht. split; [done|]. intros w1 a _. cbn.
  destruct (a =? MAP_FAILED); [done|]. split; [done|]. intros w2 r _. cbn. destruct (negb (r =? BM_OK)); [|].
  - split; [done|]. intros w3 r3 _. done.
  - intros _. split; [done|]. intros Ha Hb. split; [done..| |lia]. apply pool_create_inv; lia.
Qed.

(** ** Runs *)

(** A fabric that makes every copy at once, as long as nothing is in flight. *)
Definition at_once (me : Z) (w : World) (c : Call) : World * Z :=
  match effect me c with
  | ECopy _ ms => if decide (flights w = []) then (mkWorld (move_all (mem w) ms) [] (failed w), 0) else (fail w, 1)
  | EStop ms => if decide (flights w = []) then (mkWorld (move_all (mem w) ms) [] (failed w), 0) else (settle (fail w), 1)
  | EWait _ => if decide (flights w = []) then (w, 0) else (fail w, 1)
  | EPass => (w, 0)
  end.
Lemma at_once_step me w c : fabric_ok w c → fabric_step me w c (at_once me w c).1 (at_once me w c).2.
Proof.
  intros _. unfold fabric_step, at_once. destruct (effect me c) as [t ms|ms|t|]; [| | |done].
  - destruct w as [m fs e]. cbn [flights mem failed]. case_decide as Hf; cbn [fst snd].
    + subst fs. left. split; [done|]. apply copy_at_once.
    + right. split; [done|]. exists (mkWorld m fs e), [], (mkWorld m fs e). split_and!; [done|by intros mv ?%not_elem_of_nil| |done].
      unfold post. cbn. by rewrite app_nil_r.
  - case_decide as Hf; [|by apply (stops_none ms w 1)]. left. split; [done|]. destruct w as [m fs e]. cbn in *. subst fs. apply copy_at_once.
  - exists w. split; [done|]. case_decide as Hf; [left; split_and!; [done| |done]|by right].
    intros f. rewrite Hf. by intros ?%not_elem_of_nil.
Qed.

Definition orderly_for (me lo hi : Z) (ms : list Move) : Prop :=
  NoDup ms.*1 ∧ Forall (λ mv, (mv.2 ∉ ms.*1) ∧ ¬ (mv.1.1 = me ∧ lo ≤ mv.1.2 < hi) ∧ ¬ (mv.2.1 = me ∧ lo ≤ mv.2.2 < hi)) ms.
#[global] Instance orderly_for_dec me lo hi ms : Decision (orderly_for me lo hi ms).
Proof. unfold orderly_for. apply _. Defined.
Lemma orderly_for_ok me p ms : orderly_for me (baseAddress p) (baseAddress p + totalSize p) ms →
  orderly ms (either none (swap_of me p)).
Proof.
  intros [Hn Hf]. rewrite Forall_forall in Hf. split; [done|..]; intros d s Hd; destruct (Hf _ Hd) as (H1 & H2 & H3); [done|].
  unfold either, none, swap_of. split; by intros [[]|?].
Qed.

Definition demo_op : HostDataOpRDMA := mkOp true 0 0x100000 true (Some (pool_create 0x100000 RDMA_SWAP_SPACE_SIZE)).
Definition demo_world : World := mkWorld (λ l, byte_of_Z (l.1 * 100 + l.2)) [] false.
Lemma demo_ready : ready RDMA_SWAP_SPACE_SIZE demo_op (pool_create 0x100000 RDMA_SWAP_SPACE_SIZE) ∅.
Proof. split; [done..| |done]. by apply pool_create_inv. Qed.
Lemma demo_still : still (mem demo_world) none demo_world.
Proof. split; [by intros f ?%not_elem_of_nil|done|by intros ? ? ?%not_elem_of_nil]. Qed.
Lemma demo_room : room RDMA_SWAP_SPACE_SIZE (pool_create 0x100000 RDMA_SWAP_SPACE_SIZE).
Proof. by apply room_fresh. Qed.

Definition demo_copy : prog (HostDataOpRDMA * Z) :=
  DataCopy RDMA_SWAP_SPACE_SIZE demo_op (mkParams 10 20 3) HYBM_LOCAL_HOST_TO_GLOBAL_HOST (mkOptions 0 1 0).
Lemma demo_orderly : orderly (copy_plan demo_op HYBM_LOCAL_HOST_TO_GLOBAL_HOST (mkOptions 0 1 0) (mkParams 10 20 3))
  (either none (swap_of (rankId_ demo_op) (pool_create 0x100000 RDMA_SWAP_SPACE_SIZE))).
Proof. apply orderly_for_ok. apply (bool_decide_unpack _). vm_compute. exact I. Qed.
Lemma data_copy_exact_witness : let x := run (at_once 0) demo_copy demo_world in
  x.2.2 = BM_OK ∧ mem x.1 (1, 21) = mem demo_world (0, 11).
Proof.
  assert ((run (at_once 0) demo_copy demo_world).2.2 = BM_OK) as Hret by (vm_compute; reflexivity).
  pose proof (data_copy_exact RDMA_SWAP_SPACE_SIZE demo_op (pool_create 0x100000 RDMA_SWAP_SPACE_SIZE) ∅ none demo_world
    (mkParams 10 20 3) HYBM_LOCAL_HOST_TO_GLOBAL_HOST (mkOptions 0 1 0) demo_ready
    (or_introl I) ltac:(vm_compute; intuition discriminate) (λ l _ H, H) demo_orderly demo_still) as Hw.
  apply (wp_run _ _ (at_once 0) _ _ _ (at_once_step 0)) in Hw. fold demo_copy in Hw.
  revert Hret Hw. generalize (run (at_once 0) demo_copy demo_world). intros x Hret (_ & _ & Hok & _). split; [exact Hret|].
  apply (proj1 (Hok Hret) (1, 21) (0, 11)). apply elem_of_moves. exists 1. split_and!; reflexivity || lia.
Defined.

Definition demo_spaces : list GvaSpace := [mkSpace 0 0 0; mkSpace 0x80000000 0x1000 2].
Definition demo_batch : hybm_batch_copy_params :=
  mkBatch 0x500 0x600 [mkParams 10 0x80001000 3; mkParams 30 0x80000000 2; mkParams 20 0x80001003 1].
Definition demo_batch_copy : prog (HostDataOpRDMA * Z) :=
  BatchDataCopy RDMA_SWAP_SPACE_SIZE map_to_list demo_op demo_spaces demo_batch HYBM_LOCAL_DEVICE_TO_GLOBAL_HOST (mkOptions 0 1 0).
Lemma demo_batch_orderly : orderly (batch_plan demo_op demo_spaces HYBM_LOCAL_DEVICE_TO_GLOBAL_HOST (mkOptions 0 1 0) (batch demo_batch))
  (either none (swap_of (rankId_ demo_op) (pool_create 0x100000 RDMA_SWAP_SPACE_SIZE))).
Proof. apply orderly_for_ok. apply (bool_decide_unpack _). vm_compute. exact I. Qed.
Lemma demo_batch_sizes : Forall (λ j, 0 ≤ dataSize j < 2 ^ 63) (batch demo_batch).
Proof. apply (bool_decide_unpack _). vm_compute. exact I. Qed.
Lemma batch_copy_exact_witness : let x := run (at_once 0) demo_batch_copy demo_world in
  x.2.2 = BM_OK ∧ mem x.1 (1, 0x80001003) = mem demo_world (0, 20).
Proof.
  assert ((run (at_once 0) demo_batch_copy demo_world).2.2 = BM_OK) as Hret by (vm_compute; reflexivity).
  pose proof (batch_copy_exact RDMA_SWAP_SPACE_SIZE demo_op (pool_create 0x100000 RDMA_SWAP_SPACE_SIZE) ∅ none demo_world
    map_to_list demo_spaces demo_batch HYBM_LOCAL_DEVICE_TO_GLOBAL_HOST (mkOptions 0 1 0) demo_ready (λ m, reflexivity _) I
    demo_batch_sizes (λ l _ H, H) demo_batch_orderly demo_still) as Hw.
  apply (wp_run _ _ (at_once 0) _ _ _ (at_once_step 0)) in Hw. fold demo_batch_copy in Hw.
  revert Hret Hw. generalize (run (at_once 0) demo_batch_copy demo_world). intros x Hret (_ & _ & Hok & _). split; [exact Hret|].
  apply (proj1 (Hok Hret) (1, 0x80001003) (0, 20)). unfold batch_plan. apply list_elem_of_bind. exists (mkParams 20 0x80001003 1).
  split; [|do 2 right; left]. apply elem_of_moves. exists 0. split_and!; reflexivity || lia.
Defined.

(** ** Failures *)

(** A slow device: a copy on a stream stays in flight until a remote access, and a
    second one is refused. *)
Definition last_flight (fs : list Flight) : option (list Flight * Flight) :=
  match rev fs with [] => None | f :: r => Some (rev r, f) end.
Definition land (w : World) : World :=
  match last_flight (flights w) with
  | Some (fs, f) => mkWorld (move_all (mem w) (f_todo f)) fs (failed w)
  | None => w
  end.
Definition copy_now (w : World) (ms : list Move) : World := mkWorld (move_all (mem w) ms) (flights w) (failed w).
Definition slow (me : Z) (w : World) (c : Call) : World * Z :=
  match effect me c with
  | ECopy (TStream st) ms => if decide (flights w = []) then (post w [mkFlight (TStream st) ms], 0) else (fail w, -1)
  | ECopy _ ms =>
      let w := match c with Memcpy _ _ _ _ => w | _ => land w end in
      if decide (Forall (λ f, f_tag f ≠ TNow) (flights w)) then (copy_now w ms, 0) else (fail w, -1)
  | EStop _ => (fail (settle w), -1)
  | EWait _ => (fail w, -1)
  | EPass => (w, 7)
  end.
Lemma land_adv w : adv w (land w).
Proof.
  unfold land, last_flight. destruct w as [m fs e]. cbn [flights mem failed].
  destruct (rev fs) as [|[t ms] r] eqn:Er; [done|]. rewrite <- (rev_involutive fs), Er. cbn [rev]. apply adv_all.
Qed.
Lemma refused ms w w' : adv w w' → copy_failed ms w (fail w').
Proof.
  intros Ha. exists w', [], w'. split_and!; [done|by intros mv ?%not_elem_of_nil| |done].
  unfold post. rewrite app_nil_r. by destruct w'.
Qed.
Lemma copy_now_ok t ms w w' : adv w w' → Forall (λ f, f_tag f ≠ TNow) (flights w') → copy_ok t ms w (copy_now w' ms).
Proof.
  intros Ha Hq. exists w', [mkFlight t ms]. split_and!; [done|cbn; by rewrite app_nil_r|by repeat constructor|apply adv_all|].
  intros -> f Hf. rewrite Forall_forall in Hq. by apply Hq.
Qed.
Lemma slow_step me w c : fabric_step me w c (slow me w c).1 (slow me w c).2.
Proof.
  unfold fabric_step, slow. destruct (effect me c) as [t ms|ms|t|]; [|by apply stops_none|exists w; split; [done|by right]|done].
  assert (adv w match c with Memcpy _ _ _ _ => w | _ => land w end) as Ha by (destruct c; done || apply land_adv).
  destruct t; try (case_decide; [left; split; [done|by apply copy_now_ok]|right; split; [done|by apply refused]]).
  case_decide; [left; split; [done|]|right; split; [done|by apply refused]].
  exists w, [mkFlight (TStream st) ms]. split_and!; [done|cbn; by rewrite app_nil_r|by repeat constructor|done|done].
Qed.

Definition corrupting : prog (Z * Z) :=
  x ← BatchDataCopy RDMA_SWAP_SPACE_SIZE map_to_list demo_op demo_spaces
        (mkBatch 0x500 0x600 [mkParams 10 0x80001000 1; mkParams 11 0x80001001 1]) HYBM_LOCAL_DEVICE_TO_GLOBAL_HOST (mkOptions 0 1 0);
  y ← DataCopy RDMA_SWAP_SPACE_SIZE x.1 (mkParams 40 50 1) HYBM_LOCAL_HOST_TO_GLOBAL_HOST (mkOptions 0 1 0);
  Ret (x.2, y.2).
(** When the second of two copies to the swap space cannot be started, the first
    is not waited for: the batch fails and gives its piece of the swap space back
    while the device still writes to it.  A later copy that is given the piece
    reports success and delivers the bytes of the failed one. *)
Theorem failed_batch_corrupts_next :
  may (fabric_step 0) corrupting demo_world (λ r w,
    r = (BM_DL_FUNCTION_FAILED, BM_OK) ∧ mem w (1, 50) = mem demo_world (0, 10) ∧ mem demo_world (0, 10) ≠ mem demo_world (0, 40)).
Proof.
  eapply may_mono; [apply (may_run _ (slow 0)), slow_step|]. intros r w Hr.
  pose proof (f_equal fst Hr) as Hw. apply (f_equal snd) in Hr. change (w = (run (slow 0) corrupting demo_world).1) in Hw.
  change (r = (run (slow 0) corrupting demo_world).2) in Hr. rewrite Hw, Hr.
  split; [vm_compute; reflexivity|]. split; [vm_compute; reflexivity|]. vm_compute. discriminate.
Qed.

(** A batch of empty entries is refused, although there is nothing to copy. *)
Theorem batch_empty_refused swapSize op d o : 0 ≤ swapSize → d ≠ [] → Forall (λ c, count c = 0) d →
  BatchWriteLH2RH swapSize op d o = Ret (op, BM_INVALID_PARAM).
Proof.
  intros Hs Hd Hc. assert (fill swapSize 0 d = (d, [], 0)) as Hf.
  { clear Hd. induction Hc as [|c d Hc _ IH]; [done|]. cbn [fill]. rewrite Hc. change (0 +64 0) with 0.
    destruct (Z.leb_spec 0 swapSize); [|lia]. by rewrite IH. }
  unfold BatchWriteLH2RH. destruct d as [|c d]; [done|]. cbn [List.length batch_loop]. by rewrite Hf.
Qed.

(** A batch between two remote ranks, refused for a single copy, is carried out
    with the caller's own memory as the destination. *)
Theorem batch_two_remote_ends op X w l o :
  transportManager_ op = true → srcRankId o ≠ rankId_ op → destRankId o ≠ rankId_ op → still (mem w) X w →
  orderly (l ≫= job_moves (rankId_ op) (srcRankId o)) X →
  wp fabric_ok (fabric_step (rankId_ op)) (BatchCopyGH2GH op l o) w (λ ret w', ret = BM_OK →
    (∀ j k, j ∈ l → 0 ≤ k < dataSize j → mem w' (rankId_ op, dest j + k) = mem w (srcRankId o, src j + k)) ∧
    (∀ a, ¬ X (destRankId o, a) → mem w' (destRankId o, a) = mem w (destRankId o, a))).
Proof.
  intros Ht Hs Hd Hst Ho. set (Y l' := X l' ∨ l' ∈ (l ≫= job_moves (rankId_ op) (srcRankId o)).*1).
  pose proof (gh2gh_does op X Y True Ht (λ l' H, or_introl H) l o) as Hg. rewrite list_fmap_bind in Hg.
  assert (l ≫= (direct_item op o ∘ local_global) = l ≫= job_moves (rankId_ op) (srcRankId o)) as Em.
  { apply list_bind_ext; [|done]. intros j. unfold direct_item. cbn. apply Z.eqb_neq in Hs. by rewrite Hs. }
  rewrite Em in Hg. eapply wp_mono; [apply Hg; [done| |done]|].
  - intros d s Hin. right. apply list_elem_of_fmap. by exists (d, s).
  - intros ret w' (_ & Hok & _) Hr. destruct (Hok Hr) as [D1 D2 _]. split.
    + intros j k Hj Hk. apply D1, list_elem_of_bind. exists j. split; [|done]. apply elem_of_moves. by exists k.
    + intros a Ha. apply D2; [done|by intros []|]. intros ([d s] & Ed & Hin)%list_elem_of_fmap. cbn in Ed. subst d.
      apply list_elem_of_bind in Hin as (j & (k & _ & [= Ek _] & _)%elem_of_moves & _). done.
Qed.

(** For a large entry of a batch the address given to the transport is that of the
    array of pointers, not the pointer in it. *)
Theorem batch_registers_array op params j l d : transportManager_ op = true → batch params = j :: l →
  0 ≤ sources_at params < 2 ^ 64 → HYBM_PRE_REG_SIZE_THRES < dataSize j → from_local d →
  ∃ k, BatchPreRegisterLocalMr op params d = Act (QueryHasRegistered (sources_at params) (dataSize j)) k.
Proof.
  intros Ht Hb Ha Hn Hd. unfold BatchPreRegisterLocalMr, batch_entries. rewrite Hb. cbn [imap]. unfold imap. cbn [each].
  unfold PreRegisterLocalMr, entry_params. cbn [dataSize src dest]. rewrite Ht.
  destruct (Z.leb_spec (dataSize j) HYBM_PRE_REG_SIZE_THRES); [lia|]. cbn [negb orb].
  change (8 * Z.of_nat 0) with 0. rewrite Z.add_0_r, u64_small by done.
  destruct d; try done; cbn; eexists; reflexivity.
Qed.
