(* ===== verification/SdmaDataOp.v ===== *)
(** * Copies over SDMA (data_operation/host/hybm_data_op_sdma)

    The global memory of every rank is mapped into the caller's address space, and
    the copy engine of the device moves bytes between any two of its addresses: as a
    task of the thread's stream, or, with [COPY_EXTEND_FLAG], by a kernel.  Host
    memory outside the global space goes through memory of the device that is taken
    for the copy.  The kernel for batches reads its entries from one of
    [HYBM_PARAM_SPACE_CAP] slots, which a mask gives out.

    A method is a program over [HostDataOp.Call].  What an outcome below zero stands
    for: no memory, no mapping, no stream. *)
From stdpp Require Import base numbers list gmap.
From S2P Require Import Prelude RangePool VaManager Fabric HybmTask HostDataOp.
Local Open Scope Z_scope.
Local Open Scope mf_scope.
Abbreviation length := List.length.

Definition ASYNC_COPY_FLAG : Z := 2 ^ 0.
Definition COPY_EXTEND_FLAG : Z := 2 ^ 1.
Definition has_flag (flags f : Z) : bool := negb (Z.land flags f =? 0).

Definition HYBM_SINGLE_PARAM_NUM : Z := 16 * 1024.
Definition HYBM_PARAM_SPACE_CAP : Z := 170.
Definition HYBM_PARAM_SPACE_SIZE : Z := 64 * 1024 * 1024.
Definition HYBM_EXTEND_CONCURRENT : Z := 32.

Record HostDataOpSDMA := mkSdma { sdma_inited : bool; paramSpace_ : Z; paramOffset_ : Z; paramSpaceIdx_ : Z }.
Definition sdma_new : HostDataOpSDMA := mkSdma false nullptr 0 0.

(** ** Start and end *)
Fixpoint store_masks (ks : list Z) : prog unit :=
  match ks with [] => Ret tt | k :: ks => _ ← call (StoreMask k HYBM_EXTEND_CONCURRENT); store_masks ks end.
Definition Initialize (op : HostDataOpSDMA) : prog (HostDataOpSDMA * Z) :=
  if sdma_inited op then Ret (op, BM_OK) else
  space ← call (MallocHost HYBM_PARAM_SPACE_SIZE);
  if (space <? 0) || (space =? nullptr) then Ret (op, BM_MALLOC_FAILED) else
  output ← call (HalHostRegister space HYBM_PARAM_SPACE_SIZE);
  if output <? 0 then
    _ ← call (FreeHost space); Ret (mkSdma false nullptr (paramOffset_ op) (paramSpaceIdx_ op), BM_ERROR)
  else
    _ ← store_masks (seqZ 0 HYBM_PARAM_SPACE_CAP); Ret (mkSdma true space (output -64 space) 0, BM_OK).
Definition UnInitialize (op : HostDataOpSDMA) : prog HostDataOpSDMA :=
  if negb (sdma_inited op) then Ret op else
  _ ← (if negb (paramSpace_ op =? nullptr)
       then call (HalHostUnregister (paramSpace_ op)) ≫= λ _, call (FreeHost (paramSpace_ op)) else Ret 0);
  Ret (mkSdma false nullptr (paramOffset_ op) (paramSpaceIdx_ op)).
Definition Wait (waitId : Z) : prog Z :=
  hStream ← call GetThreadHybmStream;
  if hStream <? 0 then Ret BM_ERROR else call HybmSynchronize.
Definition CleanUp : prog Z := call DestroyAllThreadHybmStream.

(** ** One task *)
Definition InitG2GStreamTask (task : StreamTask) : prog StreamTask :=
  hStream ← call GetThreadHybmStream;
  if hStream <? 0 then Ret task else
  let s := sqe task in
  Ret (mkTask STREAM_TASK_TYPE_SDMA (mkSqe (mkHeader RT_STARS_SQE_TYPE_SDMA false (u16 hStream) 0)
    RT_STARS_DEFAULT_KERNEL_CREDIT 1 1 1 1 6 (sqe_length s) (src_addr_low s) (src_addr_high s) (dst_addr_low s) (dst_addr_high s))).
(** The length field has 32 bits. *)
Definition set_copy (task : StreamTask) (destVA srcVA count : Z) : StreamTask :=
  let s := sqe task in
  mkTask (task_type task) (mkSqe (header s) (kernelCredit s) (sssv s) (dssv s) (sns s) (dns s) (qos s)
    (u32 count) (low32 srcVA) (high32 srcVA) (low32 destVA) (high32 destVA)).
Definition submit_copy (destVA srcVA count : Z) : prog Z :=
  task ← InitG2GStreamTask zero_task;
  hStream ← call GetThreadHybmStream;
  if hStream <? 0 then Ret BM_ERROR else
  ret ← call (SubmitTasks (set_copy task destVA srcVA count));
  Ret (if negb (ret =? 0) then BM_ERROR else BM_OK).
Definition CopyG2G (destVA srcVA count flags stream : Z) : prog Z :=
  if has_flag flags COPY_EXTEND_FLAG then
    st ← (if negb (stream =? nullptr) then Ret stream else call GetThreadAclStream);
    ret ← call (HybmCopyExtend srcVA destVA count HYBM_EXTEND_CONCURRENT st);
    if negb (ret =? BM_OK) then Ret ret else
    ret ← call (StreamSynchronize st);
    Ret (if negb (ret =? BM_OK) then BM_ERROR else BM_OK)
  else
    ret ← submit_copy destVA srcVA count;
    if negb (ret =? 0) then Ret ret else
    ret ← call HybmSynchronize;
    Ret (if negb (ret =? 0) then BM_ERROR else BM_OK).
Definition CopyG2GAsync (destVA srcVA count flags stream : Z) : prog Z :=
  if has_flag flags ASYNC_COPY_FLAG && negb (stream =? nullptr) then
    if has_flag flags COPY_EXTEND_FLAG then call (HybmCopyExtend srcVA destVA count HYBM_EXTEND_CONCURRENT stream)
    else call (RtMemcpyAsync destVA srcVA count stream)
  else submit_copy destVA srcVA count.

(** ** Through memory of the device *)
Definition CopyLH2GD (gvaAddr hostAddr count : Z) : prog Z :=
  copyDevice ← call (AclMalloc count);
  if copyDevice <? 0 then Ret BM_DL_FUNCTION_FAILED else
  ret ← call (Memcpy copyDevice hostAddr count ACL_MEMCPY_HOST_TO_DEVICE);
  if negb (ret =? 0) then _ ← call (AclFree copyDevice); Ret BM_DL_FUNCTION_FAILED else
  result ← CopyG2G gvaAddr copyDevice count 0 nullptr;
  _ ← call (AclFree copyDevice);
  Ret (if negb (result =? BM_OK) then result else BM_OK).
Definition CopyGD2LH (hostAddr gvaAddr count : Z) : prog Z :=
  copyDevice ← call (AclMalloc count);
  if copyDevice <? 0 then Ret BM_DL_FUNCTION_FAILED else
  result ← CopyG2G copyDevice gvaAddr count 0 nullptr;
  if negb (result =? BM_OK) then _ ← call (AclFree copyDevice); Ret result else
  ret ← call (Memcpy hostAddr copyDevice count ACL_MEMCPY_DEVICE_TO_HOST);
  _ ← call (AclFree copyDevice);
  Ret (if negb (ret =? 0) then BM_DL_FUNCTION_FAILED else BM_OK).
Definition CopyLH2GH := CopyLH2GD.
Definition CopyGH2LH := CopyGD2LH.

Definition DataCopyAsync (params : hybm_copy_params) (direction : hybm_data_copy_direction) (options : ExtOptions) (flags : Z) : prog Z :=
  match direction with
  | HYBM_LOCAL_DEVICE_TO_GLOBAL_DEVICE | HYBM_GLOBAL_DEVICE_TO_LOCAL_DEVICE | HYBM_GLOBAL_DEVICE_TO_GLOBAL_DEVICE
  | HYBM_GLOBAL_DEVICE_TO_GLOBAL_HOST | HYBM_GLOBAL_HOST_TO_GLOBAL_DEVICE | HYBM_GLOBAL_HOST_TO_GLOBAL_HOST
  | HYBM_LOCAL_DEVICE_TO_GLOBAL_HOST | HYBM_GLOBAL_HOST_TO_LOCAL_DEVICE =>
      CopyG2GAsync (dest params) (src params) (dataSize params) flags (stream options)
  | HYBM_LOCAL_HOST_TO_GLOBAL_DEVICE => CopyLH2GD (dest params) (src params) (dataSize params)
  | HYBM_GLOBAL_DEVICE_TO_LOCAL_HOST => CopyGD2LH (dest params) (src params) (dataSize params)
  | HYBM_LOCAL_HOST_TO_GLOBAL_HOST => CopyLH2GH (dest params) (src params) (dataSize params)
  | HYBM_GLOBAL_HOST_TO_LOCAL_HOST => CopyGH2LH (dest params) (src params) (dataSize params)
  | _ => Ret BM_INVALID_PARAM
  end.
Definition DataCopy (op : HostDataOpSDMA) (params : hybm_copy_params) (direction : hybm_data_copy_direction) (options : ExtOptions) (flags : Z) : prog Z :=
  if negb (sdma_inited op) then Ret BM_NOT_INITIALIZED else
  if has_flag flags ASYNC_COPY_FLAG then DataCopyAsync params direction options flags else
  match direction with
  | HYBM_LOCAL_DEVICE_TO_GLOBAL_DEVICE | HYBM_GLOBAL_DEVICE_TO_LOCAL_DEVICE | HYBM_GLOBAL_DEVICE_TO_GLOBAL_DEVICE
  | HYBM_GLOBAL_DEVICE_TO_GLOBAL_HOST | HYBM_GLOBAL_HOST_TO_GLOBAL_DEVICE | HYBM_GLOBAL_HOST_TO_GLOBAL_HOST
  | HYBM_LOCAL_DEVICE_TO_GLOBAL_HOST | HYBM_GLOBAL_HOST_TO_LOCAL_DEVICE =>
      CopyG2G (dest params) (src params) (dataSize params) flags (stream options)
  | HYBM_LOCAL_HOST_TO_GLOBAL_DEVICE => CopyLH2GD (dest params) (src params) (dataSize params)
  | HYBM_GLOBAL_DEVICE_TO_LOCAL_HOST => CopyGD2LH (dest params) (src params) (dataSize params)
  | HYBM_LOCAL_HOST_TO_GLOBAL_HOST => CopyLH2GH (dest params) (src params) (dataSize params)
  | HYBM_GLOBAL_HOST_TO_LOCAL_HOST => CopyGH2LH (dest params) (src params) (dataSize params)
  | _ => Ret BM_INVALID_PARAM
  end.

(** ** Slots of parameters *)

(** From slot [st] on, the first whose mask says that it is free. *)
Fixpoint try_slots (op : HostDataOpSDMA) (st : Z) (ks : list Z) : prog (HostDataOpSDMA * option Z) :=
  match ks with
  | [] => Ret (op, None)
  | i :: ks =>
      let k := (i + st) mod HYBM_PARAM_SPACE_CAP in
      m ← call (LoadMask k);
      swapped ← (if m =? HYBM_EXTEND_CONCURRENT then call (CasMask k) else Ret 0);
      if negb (swapped =? 0)
      then Ret (mkSdma (sdma_inited op) (paramSpace_ op) (paramOffset_ op) (k + 1), Some k) else try_slots op st ks
  end.
Definition TryGetOneParamSpace (op : HostDataOpSDMA) : prog (HostDataOpSDMA * option Z) :=
  try_slots op (paramSpaceIdx_ op) (seqZ 0 HYBM_PARAM_SPACE_CAP).

(** One task for each [HYBM_SINGLE_PARAM_NUM] entries. *)
Fixpoint extend_tasks (op : HostDataOpSDMA) (jobs : list hybm_copy_params) (st : Z) (idxs : list Z) : prog (HostDataOpSDMA * Z) :=
  match idxs with
  | [] => Ret (op, BM_OK)
  | idx :: idxs =>
      let nowBatchStart := u32 (idx * HYBM_SINGLE_PARAM_NUM) in
      let nowBatchSize := Z.min (u32 (nowBatchStart + HYBM_SINGLE_PARAM_NUM)) (Z.of_nat (length jobs)) -32 nowBatchStart in
      '(op, spaceId) ← TryGetOneParamSpace op;
      '(op, spaceId, ret) ←
        match spaceId with
        | Some k => Ret (op, spaceId, BM_OK)
        | None =>
            ret ← call (StreamSynchronize st);
            if negb (ret =? BM_OK) then Ret (op, None, ret) else
            '(op, spaceId) ← TryGetOneParamSpace op; Ret (op, spaceId, BM_OK)
        end;
      match spaceId with
      | None => Ret (op, BM_ERROR)
      | Some k =>
          let now := take (Z.to_nat nowBatchSize) (drop (Z.to_nat nowBatchStart) jobs) in
          _ ← call (WriteParams k now);
          ret ← call (HybmBatchCopyExtend k now HYBM_EXTEND_CONCURRENT st);
          if negb (ret =? 0) then _ ← call (StoreMask k HYBM_EXTEND_CONCURRENT); Ret (op, BM_ERROR)
          else extend_tasks op jobs st idxs
      end
  end.
Definition BatchCopyExtend (op : HostDataOpSDMA) (jobs : list hybm_copy_params) (stream flags : Z) : prog (HostDataOpSDMA * Z) :=
  st ← (if negb (stream =? nullptr) then Ret stream else call GetThreadAclStream);
  let taskNum := u32 (Z.of_nat (length jobs) + HYBM_SINGLE_PARAM_NUM - 1) / HYBM_SINGLE_PARAM_NUM in
  '(op, ret) ← extend_tasks op jobs st (seqZ 0 taskNum);
  if negb (ret =? BM_OK) then Ret (op, ret) else
  if has_flag flags ASYNC_COPY_FLAG then Ret (op, BM_OK) else
  ret ← call (StreamSynchronize st);
  Ret (op, if negb (ret =? BM_OK) then BM_ERROR else BM_OK).

(** ** Batches of tasks *)

(** Entries that continue the one before on both sides are joined to it; the last
    error is kept. *)
Definition async_one (run : hybm_copy_params) (flags stream ret : Z) : prog Z :=
  asyncRet ← CopyG2GAsync (dest run) (src run) (dataSize run) flags stream;
  Ret (if negb (asyncRet =? 0) then asyncRet else ret).
Fixpoint join_runs (jobs : list hybm_copy_params) (run : hybm_copy_params) (flags stream ret : Z) : prog Z :=
  match jobs with
  | [] => async_one run flags stream ret
  | j :: jobs =>
      if (0 <? dataSize run) && (src run +64 dataSize run =? src j) && (dest run +64 dataSize run =? dest j)
      then join_runs jobs (mkParams (src run) (dest run) (dataSize run +64 dataSize j)) flags stream ret
      else
        ret ← (if 0 <? dataSize run then async_one run flags stream ret else Ret ret);
        join_runs jobs j flags stream ret
  end.
Definition BatchCopyG2G (op : HostDataOpSDMA) (jobs : list hybm_copy_params) (options : ExtOptions) (flags : Z) : prog (HostDataOpSDMA * Z) :=
  if has_flag flags COPY_EXTEND_FLAG then BatchCopyExtend op jobs (stream options) flags else
  ret ← join_runs jobs (mkParams 0 0 0) flags (stream options) 0;
  if has_flag flags ASYNC_COPY_FLAG then Ret (op, ret) else
  asyncRet ← Wait 0;
  Ret (op, if negb (asyncRet =? 0) then asyncRet else ret).

Definition BatchCopyLH2GD (jobs : list hybm_copy_params) : prog Z := submit (λ j, CopyLH2GD (dest j) (src j) (dataSize j)) jobs.
Definition BatchCopyGD2LH (jobs : list hybm_copy_params) : prog Z := submit (λ j, CopyGD2LH (dest j) (src j) (dataSize j)) jobs.
Definition BatchCopyLH2GH (jobs : list hybm_copy_params) : prog Z := submit (λ j, CopyLH2GH (dest j) (src j) (dataSize j)) jobs.
Definition BatchCopyGH2LH (jobs : list hybm_copy_params) : prog Z := submit (λ j, CopyGH2LH (dest j) (src j) (dataSize j)) jobs.
Definition BatchDataCopy (op : HostDataOpSDMA) (jobs : list hybm_copy_params) (direction : hybm_data_copy_direction) (options : ExtOptions) (flags : Z)
    : prog (HostDataOpSDMA * Z) :=
  match direction with
  | HYBM_LOCAL_HOST_TO_GLOBAL_DEVICE => ret ← BatchCopyLH2GD jobs; Ret (op, ret)
  | HYBM_GLOBAL_DEVICE_TO_LOCAL_HOST => ret ← BatchCopyGD2LH jobs; Ret (op, ret)
  | HYBM_LOCAL_HOST_TO_GLOBAL_HOST => ret ← BatchCopyLH2GH jobs; Ret (op, ret)
  | HYBM_GLOBAL_HOST_TO_LOCAL_HOST => ret ← BatchCopyGH2LH jobs; Ret (op, ret)
  | _ => BatchCopyG2G op jobs options flags
  end.
