(* ===== verification/SdmaDataOpSpec.v ===== *)
(** * Copies over SDMA: the theorems

    A copy or a batch of the operator over SDMA that reports success has copied
    exactly its bytes, however the engine orders the tasks, although neighbouring
    entries of a batch are joined and copies go through memory of the device; the
    slots for the parameters of the kernel are written by their owner only and none
    is lost.  With the lengths the operator cannot copy. *)
From Stdlib Require Import Strings.Byte.
From stdpp Require Import base numbers list gmap relations.
From S2P Require Import Prelude RangePool VaManager Fabric HybmTask HostDataOp HostDataOpSpec SdmaDataOp.
Local Open Scope Z_scope.
Local Open Scope mf_scope.
Abbreviation length := List.length.

(** ** The contract

    Memory of the device that is given out lies in [S].  The kernel for one copy is
    asked only for lengths it copies: see [CopyKernelSpec.copy_kernel_exact]. *)
Definition extend_ok (n dim : Z) : Prop := 128 * dim * dim ≤ n < 2 ^ 36.
Definition sdma_ok (w : World) (c : Call) : Prop :=
  c ≠ Undefined ∧ match c with HybmCopyExtend _ _ n dim _ => extend_ok n dim | _ => True end.
Definition sdma_step (S : Loc → Prop) (me : Z) (w : World) (c : Call) (w' : World) (o : Z) : Prop :=
  fabric_step me w c w' o ∧ match c with AclMalloc n => 0 ≤ o → o + n < 2 ^ 64 ∧ ∀ a, o ≤ a < o + n → S (me, a) | _ => True end.
(** What the operator copies: addresses of its own space. *)
Definition job_plan (me : Z) (j : hybm_copy_params) : list Move := moves (me, dest j) (me, src j) (dataSize j).
Definition addr (a : Z) : Prop := 0 ≤ a < 2 ^ 64.

Section Sdma.
Context (me : Z) (X Y S : Loc → Prop).
Context (HXY : ∀ l, X l → Y l) (HSY : ∀ l, S l → Y l) (HSX : ∀ l, S l → ¬ X l).
Abbreviation swp p w Q := (wp sdma_ok (sdma_step S me) p w Q).
Abbreviation tag := (TStream HYBM_STREAM).

(** The result of a copy. *)
Definition result (m0 : Memory) (T : Loc → Prop) (ms : list Move) (r : Z) (w : World) : Prop := outcome X Y True m0 T ms r w.
Definition copies_it (T : Loc → Prop) (ms : list Move) (p : prog Z) : Prop := ∀ w, still (mem w) X w → swp p w (result (mem w) T ms).
(** Copies under way, unless a call has failed. *)
Definition track (m0 : Memory) (plan : list Move) (t : Tag) (r : Z) (w : World) : Prop :=
  still m0 Y w ∧ (r = 0 → following m0 plan t X w).

Definition passes (c : Call) : Prop :=
  effect me c = EPass ∧ match c with Undefined => False | _ => True end.
Lemma sdma_pass_wp c w Q : passes c → (∀ w' o, adv w w' → (match c with AclMalloc n => 0 ≤ o → o + n < 2 ^ 64 ∧ ∀ a, o ≤ a < o + n → S (me, a) | _ => True end) → Q o w') →
  swp (call c) w Q.
Proof.
  intros [He Hu] HQ. split; [split; [by intros -> |]; by destruct c|]. intros w' o [Hs Hm]. unfold fabric_step in Hs. rewrite He in Hs. by apply HQ.
Qed.
Lemma call_wp c w Q : effect me c ≠ EPass → (match c with HybmCopyExtend _ _ n dim _ => extend_ok n dim | _ => True end) →
  (∀ w' o, fabric_step me w c w' o → Q o w') → swp (call c) w Q.
Proof. intros He Hc HQ. split; [split; [by intros -> |done]|]. intros w' o [Hs _]. by apply HQ. Qed.

Lemma track_adv m0 plan t r w w' : orderly plan X → adv w w' → track m0 plan t r w → track m0 plan t r w'.
Proof. intros Ho Ha [H1 H2]. split; [by eapply still_adv|]. intros Hr. by eapply (adv_following Ho), H2. Qed.
(** A copy that is started: its result, if it fails, is a failure from then on. *)
Lemma post_wp c t ms m0 plan r w : effect me c = ECopy t ms → (match c with HybmCopyExtend _ _ n dim _ => extend_ok n dim | _ => True end) →
  orderly (plan ++ ms) X → inside Y ms → track m0 plan t r w →
  swp (call c) w (λ r' w', (r' = 0 → track m0 (plan ++ ms) t r w') ∧ still m0 Y w').
Proof.
  intros He Hc Ho Hi [H1 H2]. apply call_wp; [by rewrite He|done|]. intros w' r' Hs. unfold fabric_step in Hs. rewrite He in Hs.
  pose proof (still_copies _ _ _ _ _ _ _ H1 Hi Hs) as Hy. split; [|done]. intros ->. split; [done|]. intros Hr.
  destruct Hs as [[_ Hk]|[? _]]; [|done]. eapply follow_copy; eauto.
Qed.
Lemma wait_wp c t m0 plan r w : effect me c = EWait t → orderly plan X → track m0 plan t r w →
  swp (call c) w (λ r' w', result m0 none plan (if negb (r' =? 0) then r' else r) w').
Proof.
  intros He Ho [H1 H2]. apply call_wp; [by rewrite He|by destruct c|]. intros w' r' Hs. unfold fabric_step in Hs. rewrite He in Hs.
  pose proof (still_waits _ _ _ _ _ _ H1 Hs) as Hy. split_and!; [done| |by right]. intros Hr. destruct (Z.eqb_spec r' 0) as [-> |]; cbn [negb] in Hr; [|done].
  destruct (waited X Y True t plan m0 w w' 0 Ho H1 (H2 Hr) Hs) as (_ & Hd & _). by apply Hd.
Qed.
Lemma result_error m0 T ms r w : r ≠ 0 → still m0 Y w → result m0 T ms r w.
Proof. intros Hr Hs. split_and!; [done|done|by right]. Qed.
Lemma track_start m0 t w : still m0 X w → track m0 [] t 0 w.
Proof. intros Hs. split; [by eapply still_widen|]. intros _. destruct Hs as [H1 H2 H3]. split; [|done|by intros ? ? ?%not_elem_of_nil].
  intros f Hf. destruct (H1 f Hf) as [[_ Hn]|?]; [right|by right]. intros d s Hd. apply Hn, not_elem_of_nil in Hd as []. Qed.
(** Calls that leave memory alone before a copy. *)
Lemma pass_copies c T ms k : passes c → orderly ms X → (∀ o, copies_it T ms (k o)) → copies_it T ms (call c ≫= k).
Proof.
  intros Hc Ho Hk w Hs. apply wp_seq, sdma_pass_wp; [done|]. intros w1 o Ha _. assert (still (mem w) X w1) as Hs1 by by eapply still_adv.
  eapply wp_mono; [apply Hk; by eapply still_self|]. intros r w2 Hr. by eapply outcome_before.
Qed.

(** ** One task *)
Abbreviation mvs d s n := (moves (me, d) (me, s) n).
Lemma task_copy task d s n : addr d → addr s → 0 ≤ n < 2 ^ 32 → effect me (SubmitTasks (set_copy task d s n)) = ECopy tag (mvs d s n).
Proof.
  intros Hd Hs Hn. cbn [effect set_copy sqe]. unfold sqe_dst, sqe_src. cbn [dst_addr_high dst_addr_low src_addr_high src_addr_low sqe_length].
  by rewrite !halves, u32_small by done.
Qed.
Lemma submit_copy_wp d s n m0 plan r w : addr d → addr s → 0 ≤ n < 2 ^ 32 → orderly (plan ++ mvs d s n) X → inside Y (mvs d s n) →
  track m0 plan tag r w → swp (submit_copy d s n) w (λ r' w', (r' = 0 → track m0 (plan ++ mvs d s n) tag r w') ∧ still m0 Y w').
Proof.
  intros Hd Hs Hn Ho Hi Ht. pose proof (orderly_app_l _ _ _ Ho) as Hp. apply wp_seq.
  eapply (wp_mono _ _ _ _ (λ _ w', track m0 plan tag r w')).
  { apply wp_seq, sdma_pass_wp; [done|]. intros w1 o Ha _. destruct (o <? 0); by eapply track_adv. }
  intros task w1 T1. apply wp_seq, sdma_pass_wp; [done|]. intros w2 o Ha _. apply (track_adv _ _ _ _ _ _ Hp Ha) in T1 as T2.
  destruct (o <? 0); [cbn; split; [done|apply T2]|]. apply wp_seq. eapply wp_mono; [apply post_wp; [by apply task_copy|done|done|done|exact T2]|].
  intros r' w3 [H1 H2]. cbn. destruct (Z.eqb_spec r' 0) as [-> |]; cbn; [split; [intros _; by apply H1|done]|done].
Qed.
Definition copyable (flags n : Z) : Prop :=
  if has_flag flags COPY_EXTEND_FLAG then extend_ok n HYBM_EXTEND_CONCURRENT else 0 ≤ n < 2 ^ 32.
Lemma waited_result c t m0 ms w : effect me c = EWait t → orderly ms X → track m0 ms t 0 w →
  swp (ret ← call c; Ret (if negb (ret =? 0) then BM_ERROR else BM_OK)) w (result m0 none ms).
Proof.
  intros He Ho Ht. apply wp_seq. eapply wp_mono; [by eapply wait_wp|]. intros r w' Hr. cbn.
  destruct (Z.eqb_spec r 0) as [-> |]; cbn [negb] in *; [done|]. apply result_error; [done|apply Hr].
Qed.
Lemma CopyG2G_it d s n flags st : addr d → addr s → copyable flags n → orderly (mvs d s n) X → inside Y (mvs d s n) →
  copies_it none (mvs d s n) (CopyG2G d s n flags st).
Proof.
  intros Hd Hs Hn Ho Hi. unfold CopyG2G, copyable in *. destruct (has_flag flags COPY_EXTEND_FLAG).
  - assert (∀ st, copies_it none (mvs d s n) (ret ← call (HybmCopyExtend s d n HYBM_EXTEND_CONCURRENT st);
      if negb (ret =? BM_OK) then Ret ret else ret ← call (StreamSynchronize st); Ret (if negb (ret =? BM_OK) then BM_ERROR else BM_OK))) as H.
    { clear st. intros st w Hw. apply wp_seq. eapply wp_mono; [apply (post_wp _ (TStream st) (mvs d s n) (mem w) [] 0); [done|done|done|done|by apply track_start]|].
      intros r w1 [H1 H2]. unfold BM_OK. destruct (Z.eqb_spec r 0) as [-> |Hr]; cbn [negb]; [|by apply result_error]. by apply (waited_result _ (TStream st)), H1. }
    destruct (negb (st =? nullptr)); [apply H|]. by apply pass_copies.
  - intros w Hw. apply wp_seq. eapply wp_mono; [apply (submit_copy_wp d s n (mem w) [] 0); [done..|by apply track_start]|].
    intros r w1 [H1 H2]. destruct (Z.eqb_spec r 0) as [-> |Hr]; cbn [negb]; [|by apply result_error]. by apply (waited_result _ tag), H1.
Qed.

(** ** Through memory of the device *)
Lemma now_it c ms : effect me c = ECopy TNow ms → (match c with HybmCopyExtend _ _ n dim _ => extend_ok n dim | _ => True end) → orderly ms X → inside Y ms → copies_it none ms (call c).
Proof.
  intros He Hc Ho Hi w Hs. apply call_wp; [by rewrite He|done|]. intros w' r Hst. unfold fabric_step in Hst. rewrite He in Hst. split_and!.
  - eapply still_copies; [by eapply still_widen|exact Hi|exact Hst].
  - intros ->. destruct Hst as [[_ Hk]|[? _]]; [|done]. destruct (now_copy _ _ _ _ _ Hs Ho Hk) as (Hm & Hf & Hst). split; [done| |done]. intros l Hl _. by apply Hf.
  - by right.
Qed.
(** The two halves of a copy through memory [a, a + n) of the device. *)
Lemma temp_relay d s n a : orderly (mvs d s n) (either X S) → inside Y (mvs d s n) → (∀ b, a ≤ b < a + n → S (me, b)) →
  orderly (mvs a s n) X ∧ inside Y (mvs a s n) ∧ orderly (mvs d a n) X ∧ inside Y (mvs d a n) ∧
  ∀ m0 w w', did m0 X none (mvs a s n) w → did (mem w) X none (mvs d a n) w' → did m0 X S (mvs d s n) w'.
Proof.
  intros Ho Hi Ha. assert (∀ k, 0 ≤ k < n → ¬ S (me, d + k) ∧ ¬ X (me, d + k) ∧ ¬ S (me, s + k) ∧ ¬ X (me, s + k)) as Hn.
  { intros k Hk. destruct (or_X _ _ Ho (me, d + k) (me, s + k)) as [H1 H2]; [apply elem_of_moves; by exists k|]. unfold either in *. tauto. }
  assert (∀ k, 0 ≤ k < n → S (me, a + k)) as HS by (intros k Hk; apply Ha; lia). split_and!.
  - split; [apply moves_nodup| |].
    + intros x y (k & Hk & -> & ->)%elem_of_moves [_ Hin]%elem_of_moves_dst. cbn in Hin. destruct (Hn k Hk) as (_ & _ & H & _). apply H, Ha. lia.
    + intros x y (k & Hk & -> & ->)%elem_of_moves. cbn. split; [by apply HSX, HS|by apply Hn].
  - intros x y (k & Hk & -> & ->)%elem_of_moves. by apply HSY, HS.
  - split; [apply moves_nodup| |].
    + intros x y (k & Hk & -> & ->)%elem_of_moves [_ Hin]%elem_of_moves_dst. cbn in Hin. destruct (Hn (a + k - d) ltac:(lia)) as [H _].
      apply H. replace (d + (a + k - d)) with (a + k) by lia. by apply HS.
    + intros x y (k & Hk & -> & ->)%elem_of_moves. cbn. split; [by apply Hn|by apply HSX, HS].
  - intros x y (k & Hk & -> & ->)%elem_of_moves. apply (Hi _ (me, s + k)), elem_of_moves. by exists k.
  - intros m0 w w' D1 D2. eapply did_relay; [exact D1|exact D2|..].
    + intros l [E Hin]%elem_of_moves_dst. destruct l as [r b]. cbn in *. subst r. by apply Ha.
    + intros x y (k & Hk & -> & ->)%elem_of_moves. exists (me, a + k). split; apply elem_of_moves; by exists k.
    + intros l Hl. apply elem_of_moves_dst. by apply elem_of_moves_dst in Hl.
Qed.
Lemma free_result a T ms m0 r w : orderly ms X → result m0 T ms r w → ∀ (r' : Z), (r' = 0 ↔ r = 0) → swp (_ ← call (AclFree a); Ret r') w (result m0 T ms).
Proof.
  intros Ho Hr r' E. apply wp_seq, sdma_pass_wp; [done|]. intros w1 o Ha _. cbn. eapply (outcome_after X Y True) in Hr as (H1 & H2 & H3); [|exact Ho|exact Ha].
  split_and!; [done| |by right]. intros Hr'. by apply H2, E.
Qed.
Lemma orderly_narrow ms : orderly ms (either X S) → orderly ms X.
Proof. intros [H1 H2 H3]. split; [done..|]. intros d s Hd. destruct (H3 d s Hd) as [A B]. unfold either in *. tauto. Qed.
Lemma with_temp d s n (body : Z → prog Z) : 0 ≤ n → orderly (mvs d s n) X →
  (∀ a, addr a → a + n < 2 ^ 64 → (∀ b, a ≤ b < a + n → S (me, b)) → copies_it S (mvs d s n) (body a)) →
  copies_it S (mvs d s n) (a ← call (AclMalloc n); if a <? 0 then Ret BM_DL_FUNCTION_FAILED else body a).
Proof.
  intros Hn Ho Hb w Hs. apply wp_seq, sdma_pass_wp; [done|]. intros w1 a Ha Hm. assert (still (mem w) X w1) as Hs1 by by eapply still_adv.
  destruct (Z.ltb_spec a 0); [apply result_error; [done|by eapply still_widen]|]. destruct (Hm H) as [H1 H2].
  eapply wp_mono; [apply Hb; [split; lia|done|done|by eapply still_self]|]. intros r w2 Hr. by eapply outcome_before.
Qed.
Lemma CopyLH2GD_it d s n : addr d → addr s → 0 ≤ n < 2 ^ 32 → orderly (mvs d s n) (either X S) → inside Y (mvs d s n) →
  copies_it S (mvs d s n) (CopyLH2GD d s n).
Proof.
  intros Hd Hs Hn Ho Hi. pose proof (orderly_narrow _ Ho) as Ho'. apply with_temp; [lia|done|]. intros a Ha Han HS.
  destruct (temp_relay d s n a Ho Hi HS) as (O1 & I1 & O2 & I2 & Hrelay). intros w Hw. apply wp_seq. eapply wp_mono; [by apply (now_it _ (mvs a s n))|].
  intros r w1 (R1 & R2 & _). destruct (Z.eqb_spec r 0) as [-> |Hr]; cbn [negb].
  - specialize (R2 eq_refl). apply wp_seq. eapply wp_mono; [apply (CopyG2G_it d a n 0 nullptr); [done|done|done|done|done|apply R2]|].
    intros r w2 (Q1 & Q2 & _). apply (free_result a S (mvs d s n) (mem w) r); [done| |].
    + split_and!; [by eapply still_trans|intros Hr; eapply Hrelay; [exact R2|by apply Q2]|by right].
    + unfold BM_OK. destruct (Z.eqb_spec r 0) as [-> |]; done.
  - apply (free_result a S (mvs d s n) (mem w) r); [done|by apply result_error|done].
Qed.
Lemma CopyGD2LH_it d s n : addr d → addr s → 0 ≤ n < 2 ^ 32 → orderly (mvs d s n) (either X S) → inside Y (mvs d s n) →
  copies_it S (mvs d s n) (CopyGD2LH d s n).
Proof.
  intros Hd Hs Hn Ho Hi. pose proof (orderly_narrow _ Ho) as Ho'. apply with_temp; [lia|done|]. intros a Ha Han HS.
  destruct (temp_relay d s n a Ho Hi HS) as (O1 & I1 & O2 & I2 & Hrelay). intros w Hw. apply wp_seq. eapply wp_mono; [by apply (CopyG2G_it a s n 0 nullptr)|].
  intros r w1 (R1 & R2 & _). unfold BM_OK. destruct (Z.eqb_spec r 0) as [-> |Hr]; cbn [negb].
  - specialize (R2 eq_refl). apply wp_seq. eapply wp_mono; [apply (now_it _ (mvs d a n)); [done..|apply R2]|].
    intros r w2 (Q1 & Q2 & _). apply (free_result a S (mvs d s n) (mem w) r); [done| |].
    + split_and!; [by eapply still_trans|intros Hr; eapply Hrelay; [exact R2|by apply Q2]|by right].
    + destruct (Z.eqb_spec r 0) as [-> |]; done.
  - apply (free_result a S (mvs d s n) (mem w) r); [done|by apply result_error|done].
Qed.
Lemma result_scratch m0 (T T' : Loc → Prop) ms r w : (∀ l, T l → T' l) → result m0 T ms r w → result m0 T' ms r w.
Proof. intros HT (H1 & H2 & H3). split_and!; [done| |done]. intros Hr. eapply did_scratch; eauto. Qed.

(** ** Joined entries *)
Definition good_job (j : hybm_copy_params) : Prop := 0 ≤ dataSize j ∧ fits (src j) (dataSize j) ∧ fits (dest j) (dataSize j).
Definition total (l : list hybm_copy_params) : Z := foldr (λ j t, dataSize j + t) 0 l.
Lemma total_nonneg_jobs l : Forall good_job l → 0 ≤ total l.
Proof. induction 1 as [|j l [Hj _] _ IH]; [done|]. change (0 ≤ dataSize j + total l). lia. Qed.
Abbreviation plan_of l := (l ≫= job_plan me).
Lemma join_moves r j : src r + dataSize r = src j → dest r + dataSize r = dest j → 0 ≤ dataSize r → 0 ≤ dataSize j →
  job_plan me (mkParams (src r) (dest r) (dataSize r + dataSize j)) = job_plan me r ++ job_plan me j.
Proof.
  intros Hs Hd Hr Hj. unfold job_plan. cbn [src dest dataSize]. rewrite (moves_split _ _ (dataSize r + dataSize j) (dataSize r)) by lia. cbn [fst snd].
  rewrite Hs, Hd. do 2 f_equal. lia.
Qed.
Lemma async_one_wp j flags st m0 plan r w : good_job j → dataSize j < 2 ^ 32 → has_flag flags ASYNC_COPY_FLAG = false →
  orderly (plan ++ job_plan me j) X → inside Y (job_plan me j) → track m0 plan tag r w →
  swp (async_one j flags st r) w (λ r' w', track m0 (plan ++ job_plan me j) tag r' w').
Proof.
  intros (Hn & Hs & Hd) Hlen Hfl Ho Hi Ht. unfold async_one, CopyG2GAsync. rewrite Hfl. cbn [andb]. apply wp_seq. unfold fits in *.
  eapply wp_mono; [apply (submit_copy_wp _ _ _ m0 plan r); [split; lia|split; lia|lia|done|done|done]|].
  intros r' w' [H1 H2]. cbn. destruct (Z.eqb_spec r' 0) as [-> |]; cbn [negb]; [by apply H1|]. by split.
Qed.
Lemma join_runs_wp jobs run flags st m0 plan r w : has_flag flags ASYNC_COPY_FLAG = false → good_job run → Forall good_job jobs →
  dataSize run + total jobs < 2 ^ 32 → orderly (plan ++ job_plan me run ++ plan_of jobs) X → inside Y (job_plan me run ++ plan_of jobs) →
  track m0 plan tag r w →
  swp (join_runs jobs run flags st r) w (λ r' w', track m0 (plan ++ job_plan me run ++ plan_of jobs) tag r' w').
Proof.
  intros Hfl. revert run plan r w. induction jobs as [|j jobs IH]; intros run plan r w Hrun Hj Hlen Ho Hi Ht; cbn [join_runs].
  { cbn [total foldr] in Hlen. change (plan_of []) with (@nil Move) in *. rewrite app_nil_r in *. apply async_one_wp; try done. lia. }
  apply Forall_cons in Hj as [Hj Hjobs]. pose proof (total_nonneg_jobs _ Hjobs) as Htn. cbn [total foldr] in Hlen. fold (total jobs) in Hlen. rewrite bind_cons in *.
  destruct Hrun as (R1 & R2 & R3), Hj as (J1 & J2 & J3). unfold fits in *.
  destruct ((0 <? dataSize run) && _ && _) eqn:Ec.
  - apply andb_true_iff in Ec as [[_ Es]%andb_true_iff Ed]. rewrite u64_small in Es, Ed by lia. apply Z.eqb_eq in Es, Ed. rewrite u64_small by lia.
    pose proof (join_moves run j Es Ed R1 J1) as Ej. rewrite (app_assoc (job_plan me run)), <- Ej in Ho, Hi |- *.
    apply IH; try done. + unfold good_job, fits. cbn. lia. + cbn. lia.
  - assert (inside Y (job_plan me run) ∧ inside Y (job_plan me j ++ plan_of jobs)) as [I1 I2] by (by apply inside_app).
    rewrite (app_assoc plan) in Ho |- *. apply wp_seq. eapply (wp_mono _ _ _ _ (λ r' w', track m0 (plan ++ job_plan me run) tag r' w')).
    + destruct (Z.ltb_spec 0 (dataSize run)) as [Hp|Hp].
      * apply async_one_wp; try done; [lia|by eapply orderly_app_l].
      * assert (dataSize run = 0) as E0 by lia. unfold job_plan at 1. rewrite E0. cbn. by rewrite app_nil_r.
    + intros r' w' Ht'. apply IH; try done. lia.
Qed.

(** ** Batches for the kernel *)
Abbreviation N := HYBM_SINGLE_PARAM_NUM.
Lemma try_slots_wp ks op st w : swp (try_slots op st ks) w (λ x w', adv w w').
Proof.
  revert op w. induction ks as [|i ks IH]; intros op w; cbn [try_slots]; [apply rtc_refl|]. apply wp_seq, sdma_pass_wp; [done|]. intros w1 m A1 _. apply wp_seq.
  eapply (wp_mono _ _ _ _ (λ _ w', adv w w')).
  - destruct (m =? _); [|exact A1]. apply sdma_pass_wp; [done|]. intros w2 o A2 _. by etrans.
  - intros o w2 A2. destruct (negb _); [exact A2|]. eapply wp_mono; [apply IH|]. intros x w3 A3. by etrans.
Qed.
Lemma sync_track st m0 plan w : orderly plan X → track m0 plan (TStream st) 0 w → swp (call (StreamSynchronize st)) w (λ _ w', track m0 plan (TStream st) 0 w').
Proof.
  intros Ho [H1 H2]. apply call_wp; [discriminate|exact I|]. intros w' r Hs. change (waits (TStream st) w w' r) in Hs. split; [by eapply still_waits|]. intros _. eapply follow_waits; [done|by apply H2|exact Hs].
Qed.
Lemma small_jobs l : Forall (λ j, 0 ≤ dataSize j < 2 ^ 32) l → l ≫= (λ j, moves (me, dest j) (me, src j) (u32 (dataSize j))) = plan_of l.
Proof. induction 1 as [|j l Hj _ IH]; [done|]. rewrite !bind_cons, IH. unfold job_plan at 1. by rewrite u32_small. Qed.
Lemma chunk_plan (jobs : list hybm_copy_params) i : plan_of (take i jobs) ++ plan_of (take (Z.to_nat N) (drop i jobs)) = plan_of (take (i + Z.to_nat N) jobs).
Proof. rewrite <- bind_app. f_equal. rewrite <- (take_drop i (take (i + Z.to_nat N) jobs)), take_take, skipn_firstn_comm. f_equal; f_equal; lia. Qed.
Lemma extend_tasks_wp jobs st k i op m0 w : Z.of_nat (length jobs) + N ≤ 2 ^ 32 → Forall (λ j, 0 ≤ dataSize j < 2 ^ 32) jobs →
  orderly (plan_of jobs) X → inside Y (plan_of jobs) → (i + k = (length jobs + Z.to_nat N - 1) / Z.to_nat N)%nat →
  track m0 (plan_of (take (i * Z.to_nat N) jobs)) (TStream st) 0 w →
  swp (extend_tasks op jobs st (seqZ (Z.of_nat i) (Z.of_nat k))) w (λ x w', track m0 (plan_of jobs) (TStream st) x.2 w').
Proof.
  intros Hlen Hsz Ho Hi. assert (Z.of_nat (Z.to_nat N) = N) as EN by done. assert (0 < N) as HN0 by done.
  pose proof (Nat.div_mod (length jobs + Z.to_nat N - 1) (Z.to_nat N) ltac:(lia)) as Ediv.
  pose proof (Nat.mod_upper_bound (length jobs + Z.to_nat N - 1) (Z.to_nat N) ltac:(lia)) as Emod.
  revert i op w. induction k as [|k IH]; intros i op w Hik Ht.
  { cbn. rewrite firstn_all2 in Ht; [done|]. rewrite Nat.add_0_r in Hik. rewrite Hik. lia. }
  assert (i * Z.to_nat N < length jobs)%nat as Hlt by (rewrite <- Hik in Ediv; nia).
  rewrite seqZ_cons by lia. rewrite Nat2Z.inj_succ, Z.pred_succ, <- Nat2Z.inj_succ. cbn [extend_tasks].
  assert (Z.of_nat i * N = Z.of_nat (i * Z.to_nat N)) as Ei by lia. rewrite (u32_small (Z.of_nat i * N)), (u32_small (Z.of_nat i * N + N)) by lia.
  assert (∀ sz, sz = Z.min (Z.of_nat i * N + N) (Z.of_nat (length jobs)) -32 Z.of_nat i * N → take (Z.to_nat sz) (drop (Z.to_nat (Z.of_nat i * N)) jobs) = take (Z.to_nat N) (drop (i * Z.to_nat N) jobs)) as Hnow.
  { intros sz ->. rewrite u32_small by lia. rewrite Ei, Nat2Z.id. destruct (Z.le_gt_cases (Z.of_nat i * N + N) (Z.of_nat (length jobs))).
    - f_equal. lia.
    - rewrite !firstn_all2; [done|rewrite length_drop; lia..]. }
  rewrite (Hnow _ eq_refl). clear Hnow. set (now := take (Z.to_nat N) (drop (i * Z.to_nat N) jobs)).
  pose proof (chunk_plan jobs (i * Z.to_nat N)) as Ech. fold now in Ech.
  assert (plan_of jobs = plan_of (take (i * Z.to_nat N + Z.to_nat N) jobs) ++ plan_of (drop (i * Z.to_nat N + Z.to_nat N) jobs)) as Eall by (by rewrite <- bind_app, take_drop).
  rewrite Eall, <- Ech in Ho, Hi. assert (orderly (plan_of (take (i * Z.to_nat N) jobs)) X) as Hop by (eapply orderly_app_l, orderly_app_l; exact Ho).
  apply wp_seq. eapply wp_mono; [apply try_slots_wp|]. intros [op1 sp] w1 A1. apply (track_adv _ _ _ _ _ _ Hop A1) in Ht.
  apply wp_seq. eapply (wp_mono _ _ _ _ (λ _ w', track m0 (plan_of (take (i * Z.to_nat N) jobs)) (TStream st) 0 w')).
  { destruct sp; [exact Ht|]. apply wp_seq. eapply wp_mono; [by apply sync_track|]. intros r w2 Ht2. destruct (negb _); [exact Ht2|].
    apply wp_seq. eapply wp_mono; [apply try_slots_wp|]. intros [op2 sp2] w3 A3. by eapply track_adv. }
  intros [[op2 sp2] r2] w2 Ht2. destruct sp2 as [kk|]; [|split; [apply Ht2|done]].
  apply wp_seq, sdma_pass_wp; [done|]. intros w3 o A3 _. apply (track_adv _ _ _ _ _ _ Hop A3) in Ht2. apply wp_seq.
  assert (effect me (HybmBatchCopyExtend kk now HYBM_EXTEND_CONCURRENT st) = ECopy (TStream st) (plan_of now)) as He.
  { cbn [effect]. rewrite small_jobs; [done|]. by apply Forall_take, Forall_drop. }
  apply inside_app in Hi as [[_ Hi]%inside_app _].
  eapply wp_mono; [apply (post_wp _ _ _ m0 (plan_of (take (i * Z.to_nat N) jobs)) 0 w3 He); [done|by eapply orderly_app_l|done|exact Ht2]|].
  intros r w4 [H1 H2]. destruct (Z.eqb_spec r 0) as [-> |Hr]; cbn [negb].
  - apply IH; [lia|]. replace (Datatypes.S i * Z.to_nat N)%nat with (i * Z.to_nat N + Z.to_nat N)%nat by lia. rewrite <- Ech. by apply H1.
  - apply wp_seq, sdma_pass_wp; [done|]. intros w5 o5 A5 _. split; [by eapply still_adv|done].
Qed.

(** ** Copies and batches *)
Lemma copies_then T A B p q : orderly (A ++ B) (either X T) → copies_it T A p → copies_it T B q →
  copies_it T (A ++ B) (ret ← p; if negb (ret =? BM_OK) then Ret ret else q).
Proof.
  intros Ho Hp Hq w Hs. apply wp_seq. eapply wp_mono; [by apply Hp|]. intros r w1 (H1 & H2 & _). unfold BM_OK.
  destruct (Z.eqb_spec r 0) as [-> |Hr]; cbn [negb]; [|by apply result_error]. specialize (H2 eq_refl).
  eapply wp_mono; [apply Hq, H2|]. intros r w2 (G1 & G2 & _). split_and!; [by eapply still_trans| |by right]. intros Hr. eapply did_app; [done|exact H2|by apply G2].
Qed.
Lemma copies_submit T (f : hybm_copy_params → prog Z) l : orderly (plan_of l) (either X T) → (∀ j, j ∈ l → copies_it T (job_plan me j) (f j)) →
  copies_it T (plan_of l) (submit f l).
Proof.
  induction l as [|j l IH]; intros Ho Hf; [intros w Hs; split_and!; [by eapply still_widen|intros _; by apply did_nil|done]|].
  cbn [submit]. rewrite bind_cons in *. apply copies_then; [done|by apply Hf; left|]. apply IH; [by eapply orderly_app_r|]. intros b Hb. apply Hf. by right.
Qed.
Lemma BatchCopyG2G_it op jobs o flags w : has_flag flags ASYNC_COPY_FLAG = false → Forall good_job jobs →
  (if has_flag flags COPY_EXTEND_FLAG then Z.of_nat (length jobs) + N ≤ 2 ^ 32 ∧ Forall (λ j, dataSize j < 2 ^ 32) jobs else total jobs < 2 ^ 32) →
  orderly (plan_of jobs) X → inside Y (plan_of jobs) → still (mem w) X w →
  swp (BatchCopyG2G op jobs o flags) w (λ x w', result (mem w) none (plan_of jobs) x.2 w').
Proof.
  intros Hfl Hj Hsz Ho Hi Hs. unfold BatchCopyG2G. destruct (has_flag flags COPY_EXTEND_FLAG).
  - destruct Hsz as [Hlen Hsz]. unfold BatchCopyExtend. rewrite Hfl.
    apply wp_seq. eapply (wp_mono _ _ _ _ (λ _ w', still (mem w) X w')).
    { destruct (negb _); [exact Hs|]. apply sdma_pass_wp; [done|]. intros w1 o1 Ha _. by eapply still_adv. }
    intros st w1 Hs1. cbv zeta. assert (0 < N) as HN by done. rewrite (u32_small (_ - 1)) by lia.
    assert ((Z.of_nat (length jobs) + N - 1) / N = Z.of_nat ((length jobs + Z.to_nat N - 1) / Z.to_nat N)) as ->.
    { rewrite Nat2Z.inj_div. f_equal; lia. }
    apply wp_seq. eapply wp_mono; [apply (extend_tasks_wp jobs st _ 0 op (mem w)); [done| |done|done|done|]|].
    + rewrite Forall_forall in *. intros j Hin. specialize (Hj j Hin). specialize (Hsz j Hin). destruct Hj. lia.
    + cbn. by apply track_start.
    + intros [op' r] w2 Ht. cbn [snd] in Ht. unfold BM_OK. destruct (Z.eqb_spec r 0) as [-> |Hr]; cbn [negb]; [|apply result_error; [done|apply Ht]].
      apply wp_seq. eapply wp_mono; [by apply (wait_wp (StreamSynchronize st) (TStream st) (mem w) (plan_of jobs) 0)|]. intros r' w3 Hr'. cbn [snd].
      destruct (Z.eqb_spec r' 0) as [-> |]; cbn [negb] in *; [done|]. apply result_error; [done|apply Hr'].
  - apply wp_seq. eapply wp_mono; [apply (join_runs_wp jobs (mkParams 0 0 0) flags (stream o) (mem w) [] 0); [done|done|done|exact Hsz|exact Ho|exact Hi|by apply track_start]|].
    intros r w1 Ht. cbn [app] in Ht. rewrite Hfl. unfold Wait. apply wp_seq, wp_seq, sdma_pass_wp; [done|]. intros w2 hs A2 _.
    apply (track_adv _ _ _ _ _ _ Ho A2) in Ht. destruct (hs <? 0).
    + apply result_error; [done|apply Ht].
    + eapply wp_mono; [by apply (wait_wp HybmSynchronize tag (mem w) (plan_of jobs) r)|]. intros r' w3 Hr. exact Hr.
Qed.
End Sdma.

(** The directions with host memory outside the global space at one end. *)
Definition via_device (d : hybm_data_copy_direction) : bool :=
  match d with
  | HYBM_LOCAL_HOST_TO_GLOBAL_DEVICE | HYBM_GLOBAL_DEVICE_TO_LOCAL_HOST | HYBM_LOCAL_HOST_TO_GLOBAL_HOST | HYBM_GLOBAL_HOST_TO_LOCAL_HOST => true
  | _ => false
  end.
Definition sdma_known (d : hybm_data_copy_direction) : bool :=
  match d with HYBM_DATA_COPY_DIRECTION_AUTO | HYBM_DATA_COPY_DIRECTION_BUTT => false | _ => true end.
(** What a copy leaves, successful or not. *)
Definition sdma_copied (X S : Loc → Prop) (m0 : Memory) (ms : list Move) (r : Z) (w : World) : Prop :=
  still m0 (λ l, X l ∨ S l ∨ l ∈ ms.*1) w ∧ (r = 0 → did m0 X S ms w).
Lemma plan_inside (X S : Loc → Prop) ms : inside (λ l, X l ∨ S l ∨ l ∈ ms.*1) ms.
Proof. intros d s Hd. right; right. apply list_elem_of_fmap. by exists (d, s). Qed.

Lemma sdma_DataCopy_copied me X S op j d o flags w :
  sdma_inited op = true → sdma_known d = true → has_flag flags ASYNC_COPY_FLAG = false → good_job j →
  (if via_device d then dataSize j < 2 ^ 32 else copyable flags (dataSize j)) → (∀ l, S l → ¬ X l) →
  orderly (job_plan me j) (either X S) → still (mem w) X w →
  wp sdma_ok (sdma_step S me) (DataCopy op j d o flags) w (sdma_copied X S (mem w) (job_plan me j)).
Proof.
  intros Hin Hk Hfl (Hn & Hs & Hd) Hsz HSX Ho Hw. unfold DataCopy. rewrite Hin, Hfl. cbn [negb]. unfold fits in *.
  set (Y l := X l ∨ S l ∨ l ∈ (job_plan me j).*1).
  assert (∀ p, copies_it me X Y S S (job_plan me j) p → wp sdma_ok (sdma_step S me) p w (sdma_copied X S (mem w) (job_plan me j))) as Hwrap.
  { intros p Hp. eapply wp_mono; [by apply Hp|]. intros r w' (H1 & H2 & _). by split. }
  assert (∀ l, X l → Y l) as HXY by (intros l ?; by left). assert (∀ l, S l → Y l) as HSY by (intros l ?; by right; left).
  destruct d; try discriminate Hk; cbn [via_device] in Hsz; apply Hwrap;
    first [apply CopyLH2GD_it|apply CopyGD2LH_it|
           intros w0 Hw0; eapply wp_mono; [apply (CopyG2G_it me X Y S HXY (dest j) (src j) (dataSize j) flags (stream o))|]];
    try done; try (split; lia); try lia; try apply plan_inside; try (by eapply orderly_narrow).
  all: intros r w' Hr; eapply result_scratch; [|exact Hr]; by intros l [].
Qed.

(** C16: a copy over SDMA in any of its twelve directions, not asynchronous, of less
    than 4 GiB, or of a length the kernel copies when the kernel is asked for, to a
    destination apart from the source and from the memory the device gives out:
    success means that the destination holds the bytes of the source; nothing else
    but that memory is written, on errors too. *)
Theorem sdma_copy_exact me X S op j d o flags w :
  sdma_inited op = true → sdma_known d = true → has_flag flags ASYNC_COPY_FLAG = false → good_job j →
  (if via_device d then dataSize j < 2 ^ 32 else copyable flags (dataSize j)) → (∀ l, S l → ¬ X l) →
  orderly (job_plan me j) (either X S) → still (mem w) X w →
  wp sdma_ok (sdma_step S me) (DataCopy op j d o flags) w (sdma_copied X S (mem w) (job_plan me j)).
Proof. apply sdma_DataCopy_copied. Qed.

Lemma sdma_BatchDataCopy_copied me X S op jobs d o flags w :
  has_flag flags ASYNC_COPY_FLAG = false → Forall good_job jobs →
  (if via_device d then Forall (λ j, dataSize j < 2 ^ 32) jobs else
   if has_flag flags COPY_EXTEND_FLAG then Z.of_nat (length jobs) + HYBM_SINGLE_PARAM_NUM ≤ 2 ^ 32 ∧ Forall (λ j, dataSize j < 2 ^ 32) jobs
   else total jobs < 2 ^ 32) → (∀ l, S l → ¬ X l) →
  orderly (jobs ≫= job_plan me) (either X S) → still (mem w) X w →
  wp sdma_ok (sdma_step S me) (BatchDataCopy op jobs d o flags) w (λ x, sdma_copied X S (mem w) (jobs ≫= job_plan me) x.2).
Proof.
  intros Hfl Hj Hsz HSX Ho Hw. set (Y l := X l ∨ S l ∨ l ∈ (jobs ≫= job_plan me).*1).
  assert (∀ l, X l → Y l) as HXY by (intros l ?; by left). assert (∀ l, S l → Y l) as HSY by (intros l ?; by right; left).
  assert (inside Y (jobs ≫= job_plan me)) as Hi by apply plan_inside.
  assert (via_device d = false → wp sdma_ok (sdma_step S me) (BatchCopyG2G op jobs o flags) w (λ x, sdma_copied X S (mem w) (jobs ≫= job_plan me) x.2)) as Hg.
  { intros Hv. rewrite Hv in Hsz. eapply wp_mono; [apply (BatchCopyG2G_it me X Y S HXY op jobs o flags w); try done; by eapply orderly_narrow|].
    intros x w' Hr. apply (result_scratch X Y _ none S) in Hr as (H1 & H2 & _); [by split|by intros l []]. }
  assert (∀ f, via_device d = true → (∀ j, good_job j → dataSize j < 2 ^ 32 → orderly (job_plan me j) (either X S) → inside Y (job_plan me j) → copies_it me X Y S S (job_plan me j) (f j)) →
    wp sdma_ok (sdma_step S me) (ret ← submit f jobs; Ret (op, ret)) w (λ x, sdma_copied X S (mem w) (jobs ≫= job_plan me) x.2)) as Hl.
  { intros f Hv Hf. rewrite Hv in Hsz. apply wp_seq. eapply wp_mono; [apply (copies_submit me X Y S HXY S f jobs Ho); [|exact Hw]|].
    - intros j Hin. rewrite Forall_forall in Hj, Hsz. assert (∃ l1 l2, jobs = l1 ++ j :: l2) as (l1 & l2 & E) by by apply list_elem_of_split.
      rewrite E, bind_app, bind_cons in Ho, Hi. apply Hf; [by apply Hj|by apply Hsz|by eapply orderly_app_l, orderly_app_r|].
      apply inside_app in Hi as [_ Hi]. apply inside_app in Hi as [Hi _]. done.
    - intros r w' (H1 & H2 & _). by split. }
  assert (∀ j, good_job j → dataSize j < 2 ^ 32 → addr (dest j) ∧ addr (src j) ∧ 0 ≤ dataSize j < 2 ^ 32) as Haddr
    by (intros j (? & ? & ?) ?; unfold fits, addr in *; lia).
  destruct d; cbn [BatchDataCopy]; try (by apply Hg); apply Hl; try done; intros j Hg' Hs' Ho' Hi'; destruct (Haddr j Hg' Hs') as (? & ? & ?).
  all: by apply CopyLH2GD_it || apply CopyGD2LH_it.
Qed.

(** C15: a batch over SDMA, not asynchronous: success means that every entry has been
    copied and nothing of the batch is under way any more, although neighbouring
    entries are joined into one task, or the entries are handed to the kernel in
    parts whose tasks overlap in time; nothing else is written.  Joined tasks need
    the batch to be below 4 GiB in all, the kernel each entry. *)
Theorem sdma_batch_exact me X S op jobs d o flags w :
  has_flag flags ASYNC_COPY_FLAG = false → Forall good_job jobs →
  (if via_device d then Forall (λ j, dataSize j < 2 ^ 32) jobs else
   if has_flag flags COPY_EXTEND_FLAG then Z.of_nat (length jobs) + HYBM_SINGLE_PARAM_NUM ≤ 2 ^ 32 ∧ Forall (λ j, dataSize j < 2 ^ 32) jobs
   else total jobs < 2 ^ 32) → (∀ l, S l → ¬ X l) →
  orderly (jobs ≫= job_plan me) (either X S) → still (mem w) X w →
  wp sdma_ok (sdma_step S me) (BatchDataCopy op jobs d o flags) w (λ x, sdma_copied X S (mem w) (jobs ≫= job_plan me) x.2).
Proof. apply sdma_BatchDataCopy_copied. Qed.

(** ** The slots of parameters *)

(** Who may write a slot: nobody has taken it, the caller has, another thread has, or
    the kernel still reads it. *)
Inductive Slot := Free | Mine | Theirs | Reading.
Abbreviation Slots := (Z → Slot).
Definition set_slot (sl : Slots) (k : Z) (v : Slot) : Slots := λ i, if i =? k then v else sl i.
(** What the others do: take, fill and launch slots of their own; a kernel that has
    finished frees its slot ([CopyKernelSpec.batch_kernel_exact]). *)
Definition others (sl sl' : Slots) : Prop := ∀ k, sl k = Mine ↔ sl' k = Mine.
Definition slot_ok (sl : Slots) (c : Call) : Prop :=
  match c with WriteParams k _ | HybmBatchCopyExtend k _ _ _ | StoreMask k _ => sl k = Mine | Undefined => False | _ => True end.
Definition slot_step (sl : Slots) (c : Call) (sl' : Slots) (o : Z) : Prop :=
  ∃ s1, others sl s1 ∧
  match c with
  | CasMask k => (o ≠ 0 ∧ s1 k = Free ∧ sl' = set_slot s1 k Mine) ∨ (o = 0 ∧ sl' = s1)
  | HybmBatchCopyExtend k _ _ _ => (o = 0 ∧ sl' = set_slot s1 k Reading) ∨ (o ≠ 0 ∧ sl' = s1)
  | StoreMask k _ => sl' = set_slot s1 k Free
  | _ => sl' = s1
  end.
Definition none_mine (sl : Slots) : Prop := ∀ k, sl k ≠ Mine.
Definition only_mine (k : Z) (sl : Slots) : Prop := ∀ i, sl i = Mine ↔ i = k.
Abbreviation lwp p sl Q := (wp slot_ok slot_step p sl Q).

Lemma others_none s s' : others s s' → none_mine s → none_mine s'.
Proof. intros H Hn k Hk. by apply (Hn k), H. Qed.
Lemma others_only k s s' : others s s' → only_mine k s → only_mine k s'.
Proof. intros H Hn i. specialize (H i). specialize (Hn i). tauto. Qed.
Lemma set_mine k s : none_mine s → only_mine k (set_slot s k Mine).
Proof. intros Hn i. unfold set_slot. destruct (Z.eqb_spec i k); [done|]. split; [by intros ?%Hn|done]. Qed.
Lemma set_gone k s v : only_mine k s → v ≠ Mine → none_mine (set_slot s k v).
Proof. intros Ho Hv i. unfold set_slot. destruct (Z.eqb_spec i k); [done|]. by intros ?%Ho. Qed.
Lemma slot_pass c sl Q : slot_ok sl c → (match c with CasMask _ | HybmBatchCopyExtend _ _ _ _ | StoreMask _ _ => False | _ => True end) →
  (∀ s' o, others sl s' → Q o s') → lwp (call c) sl Q.
Proof. intros Hok Hc HQ. split; [done|]. intros s' o (s1 & Ho & Hs). apply HQ. by destruct c; try done; subst. Qed.
Lemma try_slots_owned ks op st sl : none_mine sl →
  lwp (try_slots op st ks) sl (λ x s', match x.2 with Some k => only_mine k s' | None => none_mine s' end).
Proof.
  revert op sl. induction ks as [|i ks IH]; intros op sl Hn; cbn [try_slots]; [done|]. apply wp_seq, slot_pass; [done..|]. intros s1 m H1.
  apply (others_none _ _ H1) in Hn as Hn1. apply wp_seq.
  eapply (wp_mono _ _ _ _ (λ r s', if r =? 0 then none_mine s' else only_mine ((i + st) mod HYBM_PARAM_SPACE_CAP) s')).
  - destruct (m =? _); [|done]. split; [done|]. intros s2 r (s' & H2 & [(Hr & _ & ->)|(-> & ->)]).
    + apply Z.eqb_neq in Hr. cbn. rewrite Hr. by apply set_mine, (others_none _ _ H2).
    + by apply (others_none _ _ H2).
  - intros r s2 H2. destruct (r =? 0); cbn [negb]; [by apply IH|done].
Qed.
Lemma extend_tasks_owned jobs st idxs op sl : none_mine sl → lwp (extend_tasks op jobs st idxs) sl (λ _ s', none_mine s').
Proof.
  revert op sl. induction idxs as [|i idxs IH]; intros op sl Hn; cbn [extend_tasks]; [done|].
  apply wp_seq. eapply wp_mono; [by apply try_slots_owned|]. intros [op1 sp] s1 H1. cbn [snd] in H1.
  apply wp_seq. eapply (wp_mono _ _ _ _ (λ x s', match x.1.2 with Some k => only_mine k s' | None => none_mine s' end)).
  { destruct sp as [k|]; [done|]. apply wp_seq, slot_pass; [done..|]. intros s2 r H2. apply (others_none _ _ H2) in H1. destruct (negb _); [done|].
    apply wp_seq. eapply wp_mono; [by apply try_slots_owned|]. by intros [op2 sp2] s3 H3. }
  intros [[op2 sp2] r2] s2 H2. cbn [fst snd] in H2. destruct sp2 as [k|]; [|done].
  apply wp_seq, slot_pass; [by apply H2|done|]. intros s3 o H3. apply (others_only _ _ _ H3) in H2. apply wp_seq. split; [by apply H2|].
  intros s4 r (s' & H4 & Hs). apply (others_only _ _ _ H4) in H2. cbn. destruct Hs as [(-> & ->)|(Hr & ->)].
  - cbn. by apply IH, set_gone.
  - apply Z.eqb_neq in Hr. rewrite Hr. cbn. split; [by apply H2|]. intros s5 o5 (s'' & H5 & ->). by apply set_gone; [apply (others_only _ _ _ H5)|].
Qed.

(** C17: threads that hand batches to the kernel at the same time: a slot for the
    parameters is written, launched or given back only by the thread that has taken
    it and not while a kernel reads it, and none is kept when the call returns, on
    errors too. *)
Theorem param_slots_owned op jobs stream flags sl : none_mine sl →
  lwp (BatchCopyExtend op jobs stream flags) sl (λ _ s', none_mine s').
Proof.
  intros Hn. unfold BatchCopyExtend. apply wp_seq. eapply (wp_mono _ _ _ _ (λ _ s', none_mine s')).
  { destruct (negb _); [done|]. apply slot_pass; [done..|]. intros s' o H. by eapply others_none. }
  intros st s1 H1. cbv zeta. apply wp_seq. eapply wp_mono; [by apply extend_tasks_owned|]. intros [op' r] s2 H2.
  destruct (negb _); [done|]. destruct (has_flag flags ASYNC_COPY_FLAG); [done|]. apply wp_seq, slot_pass; [done..|]. intros s3 o H3. by eapply others_none.
Qed.

(** ** Runs *)
Definition scratch (l : Loc) : Prop := l.1 = 0 ∧ 5000 ≤ l.2 < 6000.
#[global] Instance scratch_dec l : Decision (scratch l).
Proof. unfold scratch. apply _. Defined.
Definition engine (w : World) (c : Call) : World * Z :=
  match c with AclMalloc n => (w, if n <=? 1000 then 5000 else -1) | _ => at_once 0 w c end.
Lemma engine_step w c : sdma_ok w c → sdma_step scratch 0 w c (engine w c).1 (engine w c).2.
Proof.
  intros [Hu _]. pose proof (at_once_step 0 w c Hu) as Hs. split; [by destruct c|]. destruct c; try done. cbn. intros H.
  destruct (Z.leb_spec n 1000); [|lia]. split; [lia|]. intros a Ha. unfold scratch. cbn. lia.
Qed.
Lemma scratch_apart ms : disjoint_moves ms → Forall (λ mv, ¬ scratch mv.1 ∧ ¬ scratch mv.2) ms → orderly ms (either none scratch).
Proof.
  intros [Hn Hf] Hs. rewrite Forall_forall in Hf, Hs. split; [done|intros d s Hin; apply (Hf _ Hin)|].
  intros d s Hin. destruct (Hs _ Hin) as [A B]. split; intros [[]|?]; done.
Qed.
Ltac decided := apply (bool_decide_unpack _); vm_compute; exact I.
Definition demo_sdma : HostDataOpSDMA := mkSdma true 0x1000 0 0.
Definition demo_job : hybm_copy_params := mkParams 10 20 3.
Lemma sdma_copy_exact_witness : let x := run engine (DataCopy demo_sdma demo_job HYBM_LOCAL_HOST_TO_GLOBAL_DEVICE (mkOptions 0 0 0) 0) demo_world in
  x.2 = BM_OK ∧ mem x.1 (0, 21) = mem demo_world (0, 11).
Proof.
  assert ((run engine (DataCopy demo_sdma demo_job HYBM_LOCAL_HOST_TO_GLOBAL_DEVICE (mkOptions 0 0 0) 0) demo_world).2 = BM_OK) as Hret by (vm_compute; reflexivity).
  pose proof (sdma_copy_exact 0 none scratch demo_sdma demo_job HYBM_LOCAL_HOST_TO_GLOBAL_DEVICE (mkOptions 0 0 0) 0 demo_world) as Hw.
  apply (wp_run _ _ engine _ _ _ engine_step) in Hw; [|done|done|done|unfold good_job, fits; cbn; lia|cbn; lia|by intros l _ []| |exact demo_still].
  - split; [exact Hret|]. apply (did_moved _ _ _ _ _ (proj2 Hw Hret) (0, 21) (0, 11)). decided.
  - apply scratch_apart; decided.
Defined.
Definition sdma_jobs : list hybm_copy_params := [mkParams 10 20 3; mkParams 13 23 2; mkParams 30 40 1].
Lemma sdma_jobs_good : Forall good_job sdma_jobs.
Proof. repeat (apply Forall_cons; split; [unfold good_job, fits; cbn; lia|]). constructor. Qed.
Lemma sdma_batch_exact_witness : let x := run engine (BatchDataCopy demo_sdma sdma_jobs HYBM_LOCAL_DEVICE_TO_GLOBAL_DEVICE (mkOptions 0 0 0) 0) demo_world in
  x.2.2 = BM_OK ∧ mem x.1 (0, 24) = mem demo_world (0, 14).
Proof.
  assert ((run engine (BatchDataCopy demo_sdma sdma_jobs HYBM_LOCAL_DEVICE_TO_GLOBAL_DEVICE (mkOptions 0 0 0) 0) demo_world).2.2 = BM_OK) as Hret by (vm_compute; reflexivity).
  pose proof (sdma_batch_exact 0 none scratch demo_sdma sdma_jobs HYBM_LOCAL_DEVICE_TO_GLOBAL_DEVICE (mkOptions 0 0 0) 0 demo_world) as Hw.
  apply (wp_run _ _ engine _ _ _ engine_step) in Hw; [|done|exact sdma_jobs_good|vm_compute; reflexivity|by intros l _ []| |exact demo_still].
  - split; [exact Hret|]. apply (did_moved _ _ _ _ _ (proj2 Hw Hret) (0, 24) (0, 14)). decided.
  - apply scratch_apart; decided.
Defined.
Definition slots_env (sl : Slots) (c : Call) : Slots * Z :=
  match c with
  | LoadMask _ => (sl, HYBM_EXTEND_CONCURRENT)
  | CasMask k => match sl k with Free => (set_slot sl k Mine, 1) | _ => (sl, 0) end
  | HybmBatchCopyExtend k _ _ _ => (set_slot sl k Reading, 0)
  | StoreMask k _ => (set_slot sl k Free, 0)
  | _ => (sl, 0)
  end.
Lemma slots_env_step sl c : slot_ok sl c → slot_step sl c (slots_env sl c).1 (slots_env sl c).2.
Proof. intros Hok. exists sl. split; [by intros k|]. destruct c; try done; cbn; [destruct (sl k) eqn:E; cbn; auto|auto]. Qed.
Lemma param_slots_owned_witness : let x := run slots_env (BatchCopyExtend demo_sdma sdma_jobs 7 0) (λ _, Free) in
  x.2.2 = BM_OK ∧ x.1 0 = Reading ∧ none_mine x.1.
Proof.
  split; [vm_compute; reflexivity|]. split; [vm_compute; reflexivity|].
  apply (wp_run _ _ slots_env _ _ _ slots_env_step (param_slots_owned demo_sdma sdma_jobs 7 0 (λ _, Free) ltac:(by intros k))).
Defined.

(** ** Lengths *)

(** The length of a task has 32 bits: a copy of 4 GiB moves nothing and succeeds. *)
Theorem long_copy_moves_nothing :
  let x := run engine (DataCopy demo_sdma (mkParams 10 0x200000000 (2 ^ 32)) HYBM_LOCAL_DEVICE_TO_GLOBAL_DEVICE (mkOptions 0 0 0) 0) demo_world in
  x.2 = BM_OK ∧ ∀ l, mem x.1 l = mem demo_world l.
Proof. split; [vm_compute; reflexivity|]. intros l. reflexivity. Qed.
(** Entries below the limit can be joined to a task above it. *)
Theorem joined_batch_moves_nothing :
  let jobs := [mkParams 0x100000000 0x200000000 (2 ^ 31); mkParams 0x180000000 0x280000000 (2 ^ 31)] in
  let x := run engine (BatchDataCopy demo_sdma jobs HYBM_LOCAL_DEVICE_TO_GLOBAL_DEVICE (mkOptions 0 0 0) 0) demo_world in
  x.2.2 = BM_OK ∧ ∀ l, mem x.1 l = mem demo_world l.
Proof. split; [vm_compute; reflexivity|]. intros l. reflexivity. Qed.
