(* ===== verification/HybmStream.v ===== *)
(** * Task streams (ts_engine/hybm_stream, hybm_stream_manager)

    A stream is a submission queue of the device: tasks are written to a ring of
    [HYBM_SQCQ_DEPTH] entries between [sqHead_] and [sqTail_], the device moves its
    head behind the tasks it has finished and reports tasks that failed in a
    completion queue.

    A method is a program over [HCall]: what it asks of the driver (dl_hal_api).
    [HDiverge] stands for a loop that goes on for ever. *)
From stdpp Require Import base numbers list gmap.
From S2P Require Import Prelude VaManager HybmTask HostDataOp.
Local Open Scope Z_scope.
Local Open Scope mf_scope.
Abbreviation length := List.length.

Definition BM_TIMEOUT : Z := -7.
Definition U16_MAX : Z := 2 ^ 16 - 1.
Definition UN40 : Z := 40.
Definition MAX_RETRY : nat := Z.to_nat 1000000.
Definition RT_MILAN_MAX_QUERY_CQE_NUM : Z := 32.

(** ** What is asked for *)
Inductive SqType := DRV_NORMAL_TYPE | DRV_LOGIC_TYPE.
Inductive HCall :=
| HDiverge
| HalResourceIdAlloc
| HalResourceIdFree (id : Z)
| HalSqCqAllocate (t : SqType) (streamId : Z)
| HalSqCqFree (t : SqType) (sqId cqId : Z)
| HalResourceConfig (streamId logicCq : Z)
| GetTid
| HalSqTaskSend (sqId : Z) (task : StreamTask)
| QuerySqHead (sqId : Z)
| QueryCqeStatus (sqId : Z)
| HalCqReportRecv (logicCq streamId : Z).
(** A report names the task and its error. *)
Record Report := mkReport { r_taskId : Z; r_errorCode : Z }.
Record HOut := mkOut { h_ret : Z; h_val : Z; h_val2 : Z; h_cqes : list Report; h_num : Z }.
Abbreviation hprog := (program HCall HOut).
Definition hcall (c : HCall) : hprog HOut := Act c Ret.

Record HybmStream := mkStream {
  sqId_ : Z; cqId_ : Z; logicCq_ : Z; streamId_ : Z;
  sqHead_ : Z; sqTail_ : Z;
  taskList_ : list StreamTask;
  wqeFlag_ : bool;
  inited_ : bool;
}.
Definition stream_new : HybmStream := mkStream 0 0 0 U32_MAX 0 0 [] false false.
Definition set_ids (s : HybmStream) (sq cq lcq sid : Z) : HybmStream :=
  mkStream sq cq lcq sid (sqHead_ s) (sqTail_ s) (taskList_ s) (wqeFlag_ s) (inited_ s).
Definition set_head (s : HybmStream) (h : Z) : HybmStream :=
  mkStream (sqId_ s) (cqId_ s) (logicCq_ s) (streamId_ s) h (sqTail_ s) (taskList_ s) (wqeFlag_ s) (inited_ s).
Definition set_tail (s : HybmStream) (t : Z) (l : list StreamTask) : HybmStream :=
  mkStream (sqId_ s) (cqId_ s) (logicCq_ s) (streamId_ s) (sqHead_ s) t l (wqeFlag_ s) (inited_ s).
Definition set_stream_inited (s : HybmStream) (l : list StreamTask) (b : bool) : HybmStream :=
  mkStream (sqId_ s) (cqId_ s) (logicCq_ s) (streamId_ s) (sqHead_ s) (sqTail_ s) l (wqeFlag_ s) b.

(** ** Start and end *)
Definition AllocStreamId (s : HybmStream) : hprog (HybmStream * Z) :=
  if negb (streamId_ s =? U32_MAX) then Ret (s, BM_OK) else
  o ← hcall HalResourceIdAlloc;
  if negb (h_ret o =? 0) then Ret (s, BM_ERROR) else
  Ret (set_ids s (sqId_ s) (cqId_ s) (logicCq_ s) (u32 (h_val o)), BM_OK).
Definition AllocSqcq (s : HybmStream) : hprog (HybmStream * Z) :=
  o ← hcall (HalSqCqAllocate DRV_NORMAL_TYPE (streamId_ s));
  if negb (h_ret o =? 0) then Ret (s, h_ret o) else
  Ret (set_ids s (h_val o) (h_val2 o) (logicCq_ s) (streamId_ s), BM_OK).
Definition AllocLogicCq (s : HybmStream) : hprog (HybmStream * Z) :=
  tid ← hcall GetTid;
  if h_val tid <? 0 then Ret (s, BM_ERROR) else
  o ← hcall (HalSqCqAllocate DRV_LOGIC_TYPE (streamId_ s));
  if negb (h_ret o =? 0) then Ret (s, h_ret o) else
  let s := set_ids s (sqId_ s) (cqId_ s) (h_val2 o) (streamId_ s) in
  b ← hcall (HalResourceConfig (streamId_ s) (logicCq_ s));
  if negb (h_ret b =? 0) then
    _ ← hcall (HalSqCqFree DRV_LOGIC_TYPE (h_val o) (h_val2 o)); Ret (s, h_ret b)
  else Ret (s, BM_OK).
Definition Initialize (s : HybmStream) : hprog (HybmStream * Z) :=
  '(s, ret) ← AllocStreamId s;
  if negb (ret =? 0) then Ret (s, ret) else
  '(s, ret) ← AllocSqcq s;
  if negb (ret =? 0) then Ret (s, ret) else
  '(s, ret) ← AllocLogicCq s;
  if negb (ret =? 0) then Ret (s, ret) else
  Ret (set_stream_inited s (resize (Z.to_nat HYBM_SQCQ_DEPTH) zero_task (taskList_ s)) true, BM_OK).
Definition Destroy (s : HybmStream) : hprog HybmStream :=
  if negb (inited_ s) then Ret s else
  o ← hcall (HalSqCqFree DRV_NORMAL_TYPE (sqId_ s) (cqId_ s));
  if negb (h_ret o =? 0) then Ret s else
  o ← hcall (HalResourceIdFree (streamId_ s));
  if negb (h_ret o =? 0) then Ret s else
  Ret (set_stream_inited (set_ids s 0 0 (logicCq_ s) U32_MAX) (taskList_ s) false).

(** ** Waiting *)
Definition TaskInRange (s : HybmStream) (task : Z) : bool :=
  (task =? U32_MAX) ||
  (if sqHead_ s <=? sqTail_ s then (sqHead_ s <=? task) && (task <? sqTail_ s)
   else (sqHead_ s <=? task) || (task <? sqTail_ s)).
(** A query that fails counts as no report. *)
Definition GetCqeStatus (s : HybmStream) : hprog bool :=
  o ← hcall (QueryCqeStatus (sqId_ s));
  Ret (if negb (h_ret o =? 0) then false else negb (h_val o =? 0)).
Definition GetSqHead (s : HybmStream) : hprog (Z * Z) :=
  o ← hcall (QuerySqHead (sqId_ s));
  if negb (h_ret o =? 0) then Ret (U16_MAX, BM_ERROR) else
  let head := Z.land (h_val o) 0xFFFF in
  Ret (head, if negb (head =? 0xffff) then BM_OK else BM_ERROR).
(** Reports are taken until there are none: their last task and whether one has
    failed. *)
Fixpoint ReceiveCqe (fuel : nat) (s : HybmStream) (lastTask retFlag : Z) : hprog (Z * Z) :=
  match fuel with
  | O => Act HDiverge (λ _, Ret (lastTask, retFlag))
  | S fuel =>
      o ← hcall (HalCqReportRecv (logicCq_ s) (streamId_ s));
      if negb (h_ret o =? 0) then Ret (lastTask, BM_DL_FUNCTION_FAILED) else
      if RT_MILAN_MAX_QUERY_CQE_NUM <? h_num o then Ret (lastTask, BM_INVALID_PARAM) else
      let cqes := take (Z.to_nat (h_num o)) (h_cqes o) in
      let lastTask := default lastTask (r_taskId <$> last cqes) in
      let retFlag := if existsb (λ r, negb (r_errorCode r =? 0)) cqes then BM_ERROR else retFlag in
      if h_num o =? 0 then Ret (lastTask, retFlag) else ReceiveCqe fuel s lastTask retFlag
  end.
Definition cqe_fuel : nat := Z.to_nat HYBM_SQCQ_DEPTH.
(** [while (sqHead_ != head) sqHead_ = (sqHead_ + 1) % depth] *)
Fixpoint advance_head (fuel : nat) (h head : Z) : option Z :=
  if h =? head then Some h else
  match fuel with O => None | S fuel => advance_head fuel ((h + 1) mod HYBM_SQCQ_DEPTH) head end.

(** [fuel] is how many more rounds there may be. *)
Fixpoint sync_loop (fuel : nat) (s : HybmStream) (task ret : Z) : hprog (HybmStream * Z) :=
  match fuel with
  | O => Ret (s, BM_TIMEOUT)
  | S fuel =>
      if (sqHead_ s =? sqTail_ s) || negb (TaskInRange s task) then Ret (s, ret) else
      '(head, ret) ← GetSqHead s;
      if negb (ret =? 0) then Ret (s, ret) else
      if HYBM_SQCQ_DEPTH <=? head then Ret (s, BM_ERROR) else
      status ← GetCqeStatus s;
      if (status : bool) then
        '(lastTask, ret) ← ReceiveCqe cqe_fuel s U16_MAX BM_OK;
        let s := if negb (lastTask =? U16_MAX) then set_head s ((lastTask + 1) mod HYBM_SQCQ_DEPTH) else s in
        if negb (ret =? 0) then Ret (s, ret) else sync_loop fuel s task ret
      else
        match advance_head (Z.to_nat HYBM_SQCQ_DEPTH) (sqHead_ s) head with
        | None => Act HDiverge (λ _, Ret (s, ret))
        | Some h => sync_loop fuel (set_head s h) task ret
        end
  end.
Definition StreamSynchronize (s : HybmStream) (task : Z) : hprog (HybmStream * Z) :=
  if negb (inited_ s) then Ret (s, BM_NOT_INITIALIZED) else sync_loop MAX_RETRY s task BM_OK.

(** ** Submitting *)
Definition SubmitTask (s : HybmStream) (task : StreamTask) : hprog (HybmStream * Z) :=
  if negb (inited_ s) then Ret (s, BM_NOT_INITIALIZED) else
  '(s, ret) ← (if (sqTail_ s + UN40) mod HYBM_SQCQ_DEPTH =? sqHead_ s then StreamSynchronize s (sqHead_ s) else Ret (s, BM_OK));
  if negb (ret =? BM_OK) then Ret (s, BM_ERROR) else
  if (sqTail_ s + 1) mod HYBM_SQCQ_DEPTH =? sqHead_ s then Ret (s, BM_NOT_INITIALIZED) else
  let taskId := sqTail_ s in
  let t := set_task_id task taskId in
  let s := set_tail s ((taskId + 1) mod HYBM_SQCQ_DEPTH) (<[Z.to_nat taskId := t]> (taskList_ s)) in
  o ← hcall (HalSqTaskSend (sqId_ s) t);
  if negb (h_ret o =? 0) then Ret (s, BM_DL_FUNCTION_FAILED) else Ret (s, BM_OK).

(** ** The streams of the threads *)
Definition get_or_create (streams : gmap Z HybmStream) (thisId : Z) : hprog (gmap Z HybmStream * option HybmStream) :=
  match streams !! thisId with
  | Some s => Ret (streams, Some s)
  | None =>
      '(s, ret) ← Initialize stream_new;
      if negb (ret =? BM_OK) then _ ← Destroy s; Ret (streams, None) else Ret (<[thisId := s]> streams, Some s)
  end.
(** Each stream is destroyed when its last owner lets go of it. *)
Fixpoint destroy_all (l : list HybmStream) : hprog unit :=
  match l with [] => Ret tt | s :: l => _ ← Destroy s; destroy_all l end.
Definition DestroyAllThreadHybmStreams (streams : gmap Z HybmStream) : hprog (gmap Z HybmStream) :=
  _ ← destroy_all (map_to_list streams).*2; Ret ∅.
