(* ===== verification/HybmStreamSpec.v ===== *)
(** * Task streams: the theorems

    Over a device that keeps its side of the queue, a stream implements the contract
    the operator over SDMA relies on: a submitted task is under way, and a wait that
    succeeds returns when everything submitted has been copied.  With what happens
    when the driver refuses a task, and when it cannot say whether one has failed. *)
From stdpp Require Import base numbers list gmap relations.
From S2P Require Import Prelude VaManager Fabric HybmTask HostDataOp HostDataOpSpec HybmStream.
Local Open Scope Z_scope.
Local Open Scope mf_scope.
Abbreviation length := List.length.
Abbreviation D := HYBM_SQCQ_DEPTH.
Abbreviation tag := (TStream HYBM_STREAM).

(** ** The device

    [sent] tasks have been taken, of which [fin] are finished; [bad] are those that
    failed, [pend] the reports of them that have not been fetched. *)
Record Dev := mkDev { fab : World; sent : nat; fin : nat; bad : list nat; pend : list Report }.
Definition ring (i : nat) : Z := Z.of_nat i mod D.
Definition reports (l : list nat) (rs : list Report) : Prop := Forall2 (λ i r, r_taskId r = ring i ∧ r_errorCode r ≠ 0) l rs.
(** Once every task is finished and none has failed, nothing of them is under way. *)
Definition settled (d : Dev) : Prop := fin d = sent d → bad d = [] → quiet tag (fab d).
(** The device at work. *)
Record dadv (d d' : Dev) : Prop := {
  da_fab : adv (fab d) (fab d');
  da_sent : sent d' = sent d;
  da_fin : (fin d ≤ fin d' ≤ sent d)%nat;
  da_bad : ∃ nb nr, bad d' = bad d ++ nb ∧ pend d' = pend d ++ nr ∧ reports nb nr ∧
    NoDup nb ∧ Forall (λ i, fin d ≤ i < fin d')%nat nb;
  da_settled : settled d';
}.
Definition task_moves (me : Z) (t : StreamTask) : list Move := moves (me, sqe_dst (sqe t)) (me, sqe_src (sqe t)) (sqe_length (sqe t)).

Section Device.
Context (me : Z) (flaky : bool).

(** A task may be sent when the ring has room, under its index in the ring. *)
Definition hal_ok (d : Dev) (c : HCall) : Prop :=
  match c with
  | HDiverge => False
  | HalSqTaskSend _ t => (sent d < fin d + Z.to_nat D - 1)%nat ∧ task_id (header (sqe t)) = ring (sent d)
  | _ => True
  end.
Definition hal_step (d : Dev) (c : HCall) (d' : Dev) (o : HOut) : Prop :=
  match c with
  | HalSqTaskSend _ t => ∃ d1, dadv d d1 ∧
      ((h_ret o = 0 ∧ ∃ fs, (∀ mv, mv ∈ (fs ≫= f_todo) ↔ mv ∈ task_moves me t) ∧ Forall (λ f, f_tag f = tag) fs ∧
          dadv (mkDev (post (fab d1) fs) (S (sent d1)) (fin d1) (bad d1) (pend d1)) d') ∨
       (h_ret o ≠ 0 ∧ d' = d1))
  | QuerySqHead _ => dadv d d' ∧ (h_ret o = 0 → h_val o = ring (fin d'))
  | QueryCqeStatus _ => dadv d d' ∧ (h_ret o = 0 → h_val o = 0 ↔ pend d' = []) ∧ (flaky = false → h_ret o = 0)
  | HalCqReportRecv _ _ => ∃ d1, dadv d d1 ∧
      ((h_ret o ≠ 0 ∧ d' = d1) ∨
       (h_ret o = 0 ∧ ∃ rest, pend d1 = h_cqes o ++ rest ∧ h_num o = Z.of_nat (length (h_cqes o)) ∧ h_num o ≤ RT_MILAN_MAX_QUERY_CQE_NUM ∧
          (h_cqes o = [] → pend d1 = []) ∧ d' = mkDev (fab d1) (sent d1) (fin d1) (bad d1) rest))
  | _ => dadv d d'
  end.
Abbreviation dwp p d Q := (wp hal_ok hal_step p d Q).

(** ** Where a stream stands

    The tasks up to [h] are known to be finished; [r] of the reports have been
    fetched, all of tasks behind [h]. *)
Record queue_at (h r : nat) (d : Dev) : Prop := {
  qa_ring : (h ≤ fin d ≤ sent d ∧ sent d < h + Z.to_nat D)%nat;
  qa_bad : Forall (λ i, h ≤ i < fin d)%nat (bad d);
  qa_nodup : NoDup (bad d);
  qa_taken : (r ≤ length (bad d))%nat;
  qa_pend : reports (drop r (bad d)) (pend d);
}.
Record at_head (h : nat) (s : HybmStream) (d : Dev) : Prop := {
  ah_init : inited_ s = true;
  ah_queue : queue_at h 0 d;
  ah_head : sqHead_ s = ring h;
  ah_tail : sqTail_ s = ring (sent d);
  ah_tasks : length (taskList_ s) = Z.to_nat D;
  ah_settled : settled d;
}.
Definition stream_inv (s : HybmStream) (d : Dev) : Prop := ∃ h, at_head h s d.

Lemma dadv_queue h r d d' : dadv d d' → queue_at h r d → queue_at h r d'.
Proof.
  intros [A1 A2 A3 (nb & nr & A4 & A5 & A6 & A7 & A8) A9] [I1 I2 I3 I4 I5]. split.
  - rewrite A2. lia.
  - rewrite A4. apply Forall_app. split; [eapply Forall_impl; [exact I2|]|eapply Forall_impl; [exact A8|]]; cbn; lia.
  - rewrite A4. apply NoDup_app. split_and!; [done| |done]. intros i Hi Hn. rewrite Forall_forall in I2, A8. specialize (I2 i Hi). specialize (A8 i Hn). lia.
  - rewrite A4, length_app. lia.
  - rewrite A4, A5, drop_app_le by done. by apply Forall2_app.
Qed.
Lemma dadv_head h s d d' : dadv d d' → at_head h s d → at_head h s d'.
Proof.
  intros Ha [I1 I2 I3 I4 I5 I6]. split; try done; [by eapply dadv_queue|by rewrite (da_sent _ _ Ha)|apply (da_settled _ _ Ha)].
Qed.
Lemma bad_few h r d : queue_at h r d → (length (bad d) < Z.to_nat D)%nat.
Proof.
  intros [I1 I2 I3 _ _]. assert (length (bad d) ≤ length (seq h (sent d - h)))%nat as Hle.
  { apply submseteq_length, NoDup_submseteq; [done|]. intros i Hi. rewrite Forall_forall in I2. specialize (I2 i Hi). apply elem_of_seq. lia. }
  rewrite length_seq in Hle. lia.
Qed.

Lemma ring_eq i j : (i ≤ j < i + Z.to_nat D)%nat → ring i = ring j → i = j.
Proof.
  unfold ring. intros H E. change (Z.to_nat D) with 2048%nat in H. change D with 2048 in E.
  assert (Z.of_nat j - Z.of_nat i = 0); [|lia]. pose proof (Z.div_mod (Z.of_nat i) 2048 ltac:(lia)). pose proof (Z.div_mod (Z.of_nat j) 2048 ltac:(lia)). lia.
Qed.
Lemma ring_range i : 0 ≤ ring i < D.
Proof. apply Z.mod_pos_bound. done. Qed.
Lemma ring_succ i : (ring i + 1) mod D = ring (S i).
Proof. unfold ring. rewrite Zplus_mod_idemp_l. f_equal. lia. Qed.

(** The loop that follows the head of the device reaches it. *)
Lemma advance_reach i k fuel : (k ≤ fuel)%nat → (k < Z.to_nat D)%nat → advance_head fuel (ring i) (ring (i + k)) = Some (ring (i + k)).
Proof.
  revert i fuel. induction k as [|k IH]; intros i fuel Hf Hk; [rewrite Nat.add_0_r; destruct fuel; cbn; by rewrite Z.eqb_refl|].
  destruct fuel as [|fuel]; [lia|]. cbn [advance_head].
  destruct (Z.eqb_spec (ring i) (ring (i + S k))) as [E|_]; [by rewrite E|]. rewrite ring_succ, <- Nat.add_succ_comm. apply IH; lia.
Qed.

(** ** Reports *)
Lemma reports_err l rs r : reports l rs → r ∈ rs → r_errorCode r ≠ 0.
Proof. intros H Hr. apply list_elem_of_lookup_1 in Hr as [k Hk]. destruct (Forall2_lookup_r _ _ _ _ _ H Hk) as (i & _ & _ & He). done. Qed.
(** With a report to fetch, or one fetched, fetching all of them ends in an error. *)
Lemma ReceiveCqe_wp h fuel s r lastTask flag d : queue_at h r d → (Z.to_nat D ≤ fuel + r)%nat → flag ≠ 0 ∨ pend d ≠ [] →
  dwp (ReceiveCqe fuel s lastTask flag) d (λ x d', x.2 ≠ 0 ∧ adv (fab d) (fab d')).
Proof.
  revert r lastTask flag d. induction fuel as [|fuel IH]; intros r lastTask flag d Hq Hf Hfl.
  { pose proof (bad_few _ _ _ Hq). pose proof (qa_taken _ _ _ Hq). lia. }
  split; [done|]. intros d' o (d1 & Ha & Hs). pose proof (dadv_queue _ _ _ _ Ha Hq) as Hq1. pose proof (da_fab _ _ Ha) as Af.
  assert (flag ≠ 0 ∨ pend d1 ≠ []) as Hfl1.
  { destruct Hfl as [?|Hp]; [by left|right]. destruct (da_bad _ _ Ha) as (nb & nr & _ & -> & _). by destruct (pend d). }
  cbn -[Z.leb]. destruct Hs as [[Hr ->]|(-> & rest & Hp & Hn & Hm & He & ->)].
  { apply Z.eqb_neq in Hr. rewrite Hr. cbn. done. }
  cbn [negb Z.eqb]. destruct (Z.ltb_spec RT_MILAN_MAX_QUERY_CQE_NUM (h_num o)); [lia|]. rewrite Hn, Nat2Z.id, firstn_all.
  destruct (h_cqes o) as [|c cs] eqn:Ec.
  - cbn. destruct Hfl1 as [?|[]]; [done|by apply He].
  - destruct (Z.eqb_spec (Z.of_nat (length (c :: cs))) 0); [cbn in *; lia|].
    assert (existsb (λ r, negb (r_errorCode r =? 0)) (c :: cs) = true) as ->.
    { cbn. assert (r_errorCode c ≠ 0) as Hc by (eapply reports_err; [exact (qa_pend _ _ _ Hq1)|rewrite Hp; left]). apply Z.eqb_neq in Hc. by rewrite Hc. }
    eapply wp_mono; [apply (IH (r + length (c :: cs))%nat); [|cbn; lia|by left]|].
    + destruct Hq1 as [I1 I2 I3 I4 I5]. rewrite Hp in I5. pose proof (Forall2_length _ _ _ I5) as El. rewrite length_drop, length_app in El. split; cbn [bad fin sent pend]; [done|done|done|lia|].
      apply Forall2_app_inv_r in I5 as (l1 & l2 & H1 & H2 & E). rewrite <- drop_drop, E, drop_app_length'; [done|]. by apply Forall2_length in H1.
    + cbn. intros x d' [Hx Hx']. split; [done|]. by etrans.
Qed.

(** ** Waiting *)
Lemma land_ring i : Z.land (ring i) 0xFFFF = ring i.
Proof. change 0xFFFF with (Z.ones 16). rewrite Z.land_ones by lia. apply Z.mod_small. pose proof (ring_range i) as Hr. split; [lia|]. apply (Z.lt_trans _ D); [lia|done]. Qed.
Lemma GetSqHead_wp s d : dwp (GetSqHead s) d (λ x d', dadv d d' ∧ (x.2 = 0 → x.1 = ring (fin d'))).
Proof.
  apply wp_seq. split; [done|]. intros d' o [A V]. cbn. destruct (Z.eqb_spec (h_ret o) 0) as [E|E]; cbn; [|by split].
  split; [done|]. intros _. by rewrite (V E), land_ring.
Qed.
Lemma GetCqeStatus_wp s d : flaky = false → dwp (GetCqeStatus s) d (λ b d', dadv d d' ∧ (b = false ↔ pend d' = [])).
Proof.
  intros Hfl. apply wp_seq. split; [done|]. intros d' o (A & V & W). cbn. rewrite (W Hfl). cbn. split; [done|]. rewrite <- (V (W Hfl)).
  destruct (Z.eqb_spec (h_val o) 0); cbn; split; done.
Qed.
Lemma stream_sync_wp fuel s task d : flaky = false → stream_inv s d →
  dwp (sync_loop fuel s task BM_OK) d (λ x d', adv (fab d) (fab d') ∧ (x.2 = 0 → stream_inv x.1 d' ∧ (task = U32_MAX → sqHead_ x.1 = sqTail_ x.1))).
Proof.
  intros Hfl. revert s d. induction fuel as [|fuel IH]; intros s d [h Hh]; cbn [sync_loop]; [by cbn|].
  destruct ((sqHead_ s =? sqTail_ s) || negb (TaskInRange s task)) eqn:Ec.
  { split; [done|]. intros _. split; [by exists h|]. intros ->. apply orb_true_iff in Ec as [Ec|Ec]; [by apply Z.eqb_eq in Ec|]. by cbn in Ec. }
  apply wp_seq. eapply wp_mono; [apply GetSqHead_wp|]. intros [head r1] d1 [A1 V1]. cbn [fst snd] in V1. pose proof (da_fab _ _ A1) as F1.
  pose proof (dadv_head _ _ _ _ A1 Hh) as H1. destruct (Z.eqb_spec r1 0) as [-> |R1]; cbn [negb]; [|by cbn]. rewrite (V1 eq_refl).
  destruct (Z.leb_spec D (ring (fin d1))); [by cbn|]. apply wp_seq. eapply wp_mono; [by apply GetCqeStatus_wp|]. intros status d2 [A2 V2].
  assert (adv (fab d) (fab d2)) as F2 by (etrans; [exact F1|apply (da_fab _ _ A2)]). pose proof (dadv_head _ _ _ _ A2 H1) as H2. destruct status.
  - apply wp_seq. eapply wp_mono; [apply (ReceiveCqe_wp h cqe_fuel s 0); [apply H2|unfold cqe_fuel; lia|right; by intros E%V2]|].
    intros [lt r] d3 [Hr F3]. cbn [fst snd] in Hr. apply Z.eqb_neq in Hr as Er. rewrite Er. cbn. split; [by etrans|done].
  - assert (pend d2 = []) as Ev by by apply V2. assert (bad d2 = []) as Eb.
    { pose proof (qa_pend _ _ _ (ah_queue _ _ _ H2)) as Hp. rewrite drop_0, Ev in Hp. by inversion Hp. }
    pose proof (qa_ring _ _ _ (ah_queue _ _ _ H1)) as Hr. pose proof (da_fin _ _ A2) as Hf. pose proof (da_sent _ _ A2) as Hs.
    rewrite (ah_head _ _ _ H2). replace (fin d1) with (h + (fin d1 - h))%nat by lia. rewrite advance_reach by lia.
    replace (h + (fin d1 - h))%nat with (fin d1) by lia.
    eapply wp_mono; [apply IH|intros x d' [Fx Hx]; split; [by etrans|done]].
    exists (fin d1). destruct H2 as [I1 I2 I3 I4 I5 I6]. split; try done. destruct I2 as [Q1 Q2 Q3 Q4 Q5]. split; [lia|rewrite Eb; constructor|done|lia|done].
Qed.
Lemma head_quiet s d : stream_inv s d → sqHead_ s = sqTail_ s → quiet tag (fab d).
Proof.
  intros [h [I1 [Q1 Q2 _ _ _] I3 I4 _ I6]] E. rewrite I3, I4 in E. apply ring_eq in E; [|lia]. apply I6; [lia|].
  destruct (bad d) as [|i l]; [done|]. inversion Q2; lia.
Qed.

(** ** The contract *)
Lemma SubmitTask_wp s t d : flaky = false → stream_inv s d → dwp (SubmitTask s t) d (λ x d',
  (∀ e, ∃ e', copies tag (task_moves me t) (flagged e (fab d)) (flagged e' (fab d')) x.2) ∧ (x.2 = 0 → stream_inv x.1 d')).
Proof.
  intros Hfl Hi. assert (∀ (r : Z) d', r ≠ 0 → adv (fab d) (fab d') → ∀ e, ∃ e', copies tag (task_moves me t) (flagged e (fab d)) (flagged e' (fab d')) r) as Hrefuse.
  { intros r d' Hr Ha e. exists true. right. split; [done|]. apply (refused _ _ (flagged e (fab d'))). by apply adv_flagged. }
  unfold SubmitTask. destruct Hi as [h Hh]. rewrite (ah_init _ _ _ Hh). cbn [negb].
  apply wp_seq. eapply (wp_mono _ _ _ _ (λ x d', adv (fab d) (fab d') ∧ (x.2 = 0 → stream_inv x.1 d'))).
  { destruct (_ =? _); [|split; [done|intros _; by exists h]]. unfold StreamSynchronize. rewrite (ah_init _ _ _ Hh). cbn [negb].
    eapply wp_mono; [apply stream_sync_wp; [done|by exists h]|]. intros x d' [? H]. split; [done|]. intros Hx. by apply H. }
  intros [s1 r1] d1 [F1 H1]. cbn [fst snd] in *. unfold BM_OK. destruct (Z.eqb_spec r1 0) as [-> |Hr]; cbn [negb]; [|split; [by apply Hrefuse|done]].
  destruct (H1 eq_refl) as [h1 Hh1]. clear h Hh H1. destruct Hh1 as [I1 I2 I3 I4 I5 I6]. rewrite I3, I4, ring_succ. pose proof (qa_ring _ _ _ I2) as Hr.
  destruct (Z.eqb_spec (ring (S (sent d1))) (ring h1)) as [E|E]; [split; [by apply Hrefuse|done]|].
  assert (sent d1 < h1 + Z.to_nat D - 1)%nat as Hroom.
  { destruct (Nat.eq_dec (S (sent d1)) (h1 + Z.to_nat D)%nat) as [Es|]; [|lia]. destruct E. rewrite Es. unfold ring. rewrite Nat2Z.inj_add, Z2Nat.id by done.
    rewrite <- (Z.mul_1_l D) at 1. apply Z_mod_plus_full. }
  apply wp_seq. split.
  { split; [lia|]. cbn. pose proof (ring_range (sent d1)) as Hrr. change D with 2048 in Hrr. apply Z.mod_small. lia. }
  intros d' o (d2 & A2 & [(Ho & fs & Hfs & Ht & A3)|[Ho ->]]); cbn.
  2: { apply Z.eqb_neq in Ho. rewrite Ho. cbn. split; [|done]. apply Hrefuse; [done|]. etrans; [exact F1|apply (da_fab _ _ A2)]. }
  rewrite Ho. cbn. split.
  - intros e. exists e. left. split; [done|]. exists (flagged e (fab d2)), fs. split_and!.
    + apply adv_flagged. etrans; [exact F1|apply (da_fab _ _ A2)].
    + intros mv. by rewrite Hfs.
    + done.
    + pose proof (da_fab _ _ A3) as F3. cbn in F3. by apply (adv_flagged e) in F3.
    + done.
  - intros _. assert (at_head h1 s1 d1) as Hh1 by done. apply (dadv_head _ _ _ _ A2) in Hh1 as [J1 J2 J3 J4 J5 J6].
    exists h1. eapply dadv_head; [exact A3|]. pose proof (da_sent _ _ A2) as Es. destruct J2 as [Q1 Q2 Q3 Q4 Q5].
    split; cbn [sqHead_ sqTail_ taskList_ inited_ set_tail sent].
    + done.
    + split; cbn [fin sent bad pend]; try done. lia.
    + by rewrite I3.
    + by rewrite Es.
    + by rewrite length_insert.
    + intros E1. cbn in E1. lia.
Qed.

(** The calls of the operator over SDMA on the stream of its thread. *)
Definition stream_handle (s : HybmStream) (c : Call) : hprog (HybmStream * Z) :=
  match c with
  | SubmitTasks t => SubmitTask s t
  | HybmSynchronize => HybmStream.StreamSynchronize s U32_MAX
  | _ => Ret (s, BM_OK)
  end.
(** C14: as long as the driver's query for the status of the queues does not fail, a
    stream over the device keeps the contract the operator over SDMA relies on: a task that is accepted will be copied, and a wait that succeeds returns when
    nothing of the stream is under way and no task has failed; the ring is never
    overrun, no loop goes on for ever, however the work of the device interleaves;
    and after a success the stream is ready for the next call. *)
Theorem stream_refines_fabric s c d : flaky = false → c = HybmSynchronize ∨ (∃ t, c = SubmitTasks t) → stream_inv s d →
  dwp (stream_handle s c) d (λ x d', (∀ e, ∃ e', fabric_step me (flagged e (fab d)) c (flagged e' (fab d')) x.2) ∧ (x.2 = 0 → stream_inv x.1 d')).
Proof.
  intros Hfl [-> |[t ->]] Hi; [|by apply SubmitTask_wp]. cbn [stream_handle]. unfold HybmStream.StreamSynchronize.
  destruct Hi as [h Hh]. rewrite (ah_init _ _ _ Hh). cbn [negb]. eapply wp_mono; [apply stream_sync_wp; [done|by exists h]|].
  intros [s' r] d' [Ha Hok]. cbn [fst snd] in *. split; [|intros Hr; by apply Hok]. intros e. destruct (decide (r = 0)) as [-> |Hr].
  - exists e, (flagged e (fab d')). split; [by apply adv_flagged|]. left. split_and!; [done| |done].
    destruct (Hok eq_refl) as [Hi Hq]. apply (head_quiet s' d' Hi). by apply Hq.
  - exists true, (flagged e (fab d')). split; [by apply adv_flagged|]. right. done.
Qed.

(** ** A refused task

    The tail has moved before the driver refuses a task, and does not move back. *)
Record off_by_one (h : nat) (s : HybmStream) (d : Dev) : Prop := {
  ob_ring : (h ≤ fin d ≤ sent d ∧ S (sent d) < h + Z.to_nat D)%nat;
  ob_head : sqHead_ s = ring h;
  ob_tail : sqTail_ s = ring (S (sent d));
  ob_pend : bad d = [] ∧ pend d = [];
}.
(** A device that does not fail. *)
Definition healthy (d : Dev) (c : HCall) (d' : Dev) (o : HOut) : Prop := hal_step d c d' o ∧ h_ret o = 0 ∧ bad d' = [] ∧ pend d' = [].
Lemma healthy_head s d : wp hal_ok healthy (GetSqHead s) d (λ x d', dadv d d' ∧ bad d' = [] ∧ pend d' = [] ∧ x.1 = ring (fin d')).
Proof.
  apply wp_seq. split; [done|]. intros d' o ([A V] & R & B & P). cbn. rewrite R. cbn. by rewrite (V R), land_ring.
Qed.
Lemma healthy_status s d : wp hal_ok healthy (GetCqeStatus s) d (λ b d', dadv d d' ∧ bad d' = [] ∧ pend d' = [] ∧ b = false).
Proof.
  apply wp_seq. split; [done|]. intros d' o ((A & V & _) & R & B & P). cbn. rewrite R. cbn. apply (V R) in P as E. by rewrite E.
Qed.
(** From then on no wait succeeds: it looks for the task that was never sent until
    its time is over. *)
Theorem failed_send_kills_stream h fuel s d : off_by_one h s d →
  wp hal_ok healthy (sync_loop fuel s U32_MAX BM_OK) d (λ x _, x.2 ≠ 0).
Proof.
  revert h s d. induction fuel as [|fuel IH]; intros h s d Hh; cbn [sync_loop]; [done|].
  destruct Hh as [I1 I2 I3 [I4 I5]]. destruct (Z.eqb_spec (sqHead_ s) (sqTail_ s)) as [E|_].
  { rewrite I2, I3 in E. apply ring_eq in E; lia. }
  change (TaskInRange s U32_MAX) with true. cbn [negb orb]. apply wp_seq. eapply wp_mono; [apply healthy_head|]. intros [head r] d1 (A1 & _ & _ & E1).
  cbn [fst] in E1. subst head. destruct (Z.eqb_spec r 0) as [-> |Hr]; cbn [negb]; [|done]. destruct (Z.leb_spec D (ring (fin d1))); [done|].
  apply wp_seq. eapply wp_mono; [apply healthy_status|]. intros status d2 (A2 & B2 & P2 & ->).
  pose proof (da_fin _ _ A1). pose proof (da_sent _ _ A1) as E1. pose proof (da_fin _ _ A2). pose proof (da_sent _ _ A2) as E3.
  rewrite I2. replace (fin d1) with (h + (fin d1 - h))%nat by lia. rewrite advance_reach by lia. replace (h + (fin d1 - h))%nat with (fin d1) by lia.
  apply (IH (fin d1)). split; [lia|done|cbn; by rewrite I3, E3, E1|done].
Qed.
End Device.

(** ** Runs *)

(** A device that copies at once. *)
Definition swift (me : Z) (d : Dev) (c : HCall) : Dev * HOut :=
  match c with
  | HalSqTaskSend _ t => (mkDev (mkWorld (move_all (mem (fab d)) (task_moves me t)) [] (failed (fab d))) (S (sent d)) (S (sent d)) [] [], mkOut 0 0 0 [] 0)
  | QuerySqHead _ => (d, mkOut 0 (ring (fin d)) 0 [] 0)
  | _ => (d, mkOut 0 0 0 [] 0)
  end.
Definition idle_dev (d : Dev) : Prop := flights (fab d) = [] ∧ fin d = sent d ∧ bad d = [] ∧ pend d = [].
Lemma idle_settled d : idle_dev d → settled d.
Proof. intros [Hf _] _ _ f. rewrite Hf. by intros ?%not_elem_of_nil. Qed.
Lemma idle_dadv d : idle_dev d → dadv d d.
Proof.
  intros Hi. pose proof (idle_settled d Hi). destruct Hi as (Hf & Hn & Hb & Hp). split; [done|done|lia| |done].
  exists [], []. rewrite !app_nil_r. split_and!; try done; [by constructor|by constructor].
Qed.
Lemma swift_step me d c : idle_dev d → hal_ok d c → hal_step me false d c (swift me d c).1 (swift me d c).2 ∧ idle_dev (swift me d c).1.
Proof.
  intros Hi Hok. pose proof (idle_dadv d Hi) as Ha. destruct Hi as (Hf & Hn & Hb & Hp) eqn:E. clear E.
  destruct c; cbn [swift fst snd]; try (split; [by apply Ha|done]).
  - split; [|done]. exists d. split; [done|]. left. split; [done|]. exists [mkFlight tag (task_moves me task)].
    split; [intros mv; cbn; by rewrite app_nil_r|]. split; [by repeat constructor|]. split; cbn.
    + unfold post. rewrite Hf. apply (adv_all _ []).
    + done.
    + lia.
    + exists [], []. rewrite Hb, Hp. split_and!; try done; by constructor.
    + intros _ _ f. by intros ?%not_elem_of_nil.
  - by split; [split|].
  - split; [|done]. split; [done|]. by split.
  - split; [|done]. exists d. split; [done|]. right. split; [done|]. exists []. rewrite Hp. split_and!; try done. destruct d. cbn in *. congruence.
Qed.
Definition demo_stream : HybmStream := mkStream 1 1 1 1 0 0 (replicate (Z.to_nat D) zero_task) false true.
Definition demo_dev : Dev := mkDev (mkWorld (λ l, byte_of_Z (l.1 * 100 + l.2)) [] false) 0 0 [] [].
Definition demo_task : StreamTask := mkTask STREAM_TASK_TYPE_SDMA (mkSqe (mkHeader RT_STARS_SQE_TYPE_SDMA false 1 0) 254 1 1 1 1 6 3 10 0 20 0).
Lemma demo_stream_inv : stream_inv demo_stream demo_dev.
Proof.
  exists 0%nat. split; [done| |done|done|by unfold demo_stream; cbn [taskList_]; rewrite length_replicate|by intros _ _ f ?%not_elem_of_nil].
  split; [change (fin demo_dev) with 0%nat; change (sent demo_dev) with 0%nat; unfold HYBM_SQCQ_DEPTH; lia|constructor|constructor|cbn; lia|constructor].
Qed.
Lemma stream_refines_fabric_witness : let x := run (swift 0) (stream_handle demo_stream (SubmitTasks demo_task)) demo_dev in
  x.2.2 = BM_OK ∧ mem (fab x.1) (0, 21) = mem (fab demo_dev) (0, 11) ∧ stream_inv x.2.1 x.1.
Proof.
  assert ((run (swift 0) (stream_handle demo_stream (SubmitTasks demo_task)) demo_dev).2.2 = BM_OK) as Hret by (vm_compute; reflexivity).
  pose proof (stream_refines_fabric 0 false demo_stream (SubmitTasks demo_task) demo_dev eq_refl (or_intror (ex_intro _ demo_task eq_refl)) demo_stream_inv) as Hw.
  apply (wp_run_inv _ _ idle_dev (swift 0) _ _ _ (swift_step 0)) in Hw; [|by split_and!].
  destruct Hw as [_ Hinv]. split; [exact Hret|]. split; [vm_compute; reflexivity|]. by apply Hinv.
Defined.

(** When the driver cannot say whether there are reports, the wait takes it that there
    are none: it succeeds although a task has failed and its bytes are not there. *)
Theorem failed_query_hides_error :
  let fl := mkFlight tag (task_moves 0 demo_task) in
  let w := mkWorld (λ l, byte_of_Z (l.1 * 100 + l.2)) [fl] false in
  may (hal_step 0 true) (HybmStream.StreamSynchronize (set_tail demo_stream 1 (taskList_ demo_stream)) U32_MAX) (mkDev w 1 0 [] [])
    (λ x d', x.2 = BM_OK ∧ bad d' = [0%nat] ∧ mem (fab d') (0, 21) ≠ mem (fab d') (0, 11)).
Proof.
  cbv zeta. set (w := mkWorld _ _ _). assert (∃ n, MAX_RETRY = S (S n)) as [n En] by (exists (Z.to_nat 999998); unfold MAX_RETRY; lia).
  unfold HybmStream.StreamSynchronize. cbn [inited_ set_tail demo_stream negb]. rewrite En. cbn [sync_loop].
  exists (mkDev w 1 1 [0%nat] [mkReport 0 3]), (mkOut 0 1 0 [] 0). split.
  { split; [|done]. split; [done|done|cbn; lia| |done]. exists [0%nat], [mkReport 0 3]. cbn. split_and!; try done; [by repeat constructor|apply NoDup_singleton|repeat constructor; lia]. }
  exists (mkDev w 1 1 [0%nat] [mkReport 0 3]), (mkOut (-1) 0 0 [] 0). split.
  { split; [|done]. split; [done|done|cbn; lia| |done]. exists [], []. cbn. split_and!; try done; constructor. }
  cbn. split; [done|]. split; [done|]. discriminate.
Qed.
