(* ===== verification/CopyKernel.v ===== *)
(** * The copy kernels (copy_extend/hybm_copy_kernel.cpp)

    The device kernels behind the extended copy: [num] blocks run at the same time,
    each copies its part through a buffer of its own.  One kernel splits one copy
    into slices, the other splits a batch of entries and counts the blocks that have
    finished in a mask, which gives the parameters of the batch back to the host.

    A block is the list of the pieces it copies.  A piece is read into the buffer,
    then written; between two steps of a block any others take theirs. *)
From Stdlib Require Import Strings.Byte.
From stdpp Require Import base numbers list relations.
From S2P Require Import Prelude Fabric HostDataOp HostDataOpSpec.
Local Open Scope Z_scope.
Local Open Scope mf_scope.

Definition COPY_BUF_SIZE : Z := 64 * 1024.
Definition SINGLE_COPY_SLICE : Z := 128.

(** ** What a block copies *)
Record Piece := mkPiece { p_dst : Z; p_src : Z; p_size : Z }.

Definition copy_gm2gm (dst src ub_size elem_size : Z) : list Piece :=
  let repeat_times := elem_size / ub_size in
  let remain := elem_size mod ub_size in
  ((λ i, mkPiece (dst +64 u64 (i * ub_size)) (src +64 u64 (i * ub_size)) ub_size) <$> seqZ 0 repeat_times) ++
  (if 0 <? remain
   then [mkPiece (dst +64 u64 (repeat_times * ub_size)) (src +64 u64 (repeat_times * ub_size)) remain] else []).

(** The bytes a block is responsible for. *)
Definition slice_size (num len : Z) : Z :=
  u64 (u64 (u64 (len + SINGLE_COPY_SLICE - 1) / SINGLE_COPY_SLICE + num - 1) / num * SINGLE_COPY_SLICE).
(** The last argument of [copy_gm2gm] has 32 bits. *)
Definition hybm_copy_kernel (num dst src len idx : Z) : list Piece :=
  let offset := slice_size num len in
  let size := Z.min (u64 (offset * u32 (idx + 1))) len in
  let offset := u64 (offset * idx) in
  let size := size -64 offset in
  copy_gm2gm (dst +64 offset) (src +64 offset) COPY_BUF_SIZE (u32 size).

(** [words] is the memory of the parameters, by 64-bit words; the index of a word has
    32 bits. *)
Definition entry_at (words : Z → Z) (i : Z) : hybm_copy_params :=
  let at_ := u32 (i * 3) in mkParams (words at_) (words (u32 (at_ + 1))) (words (u32 (at_ + 2))).
Definition copy_entry (j : hybm_copy_params) : list Piece :=
  copy_gm2gm (dest j) (src j) COPY_BUF_SIZE (u32 (dataSize j)).
Definition hybm_batch_copy_kernel (num : Z) (words : Z → Z) (count idx : Z) : list Piece :=
  let offset := u32 (count + num - 1) / num in
  let start := u32 (offset * idx) in
  let last := Z.min (u32 (start + offset)) count in
  seqZ start (last - start) ≫= λ i, copy_entry (entry_at words i).

(** ** The blocks of a launch *)
Record Block := mkBlock { todo : list Piece; buf : option (list byte); finished : bool }.
Record Kernel := mkKernel { blocks : list Block; mask : Z; kmem : Z → byte }.
Definition load (m : Z → byte) (q : Piece) : list byte := (λ k, m (p_src q + k)) <$> seqZ 0 (p_size q).
Definition store (m : Z → byte) (q : Piece) (bs : list byte) : Z → byte :=
  λ a, if decide (p_dst q ≤ a < p_dst q + p_size q) then default (m a) (bs !! Z.to_nat (a - p_dst q)) else m a.

(** Block [i] spins until the mask is [i], then counts itself. *)
Inductive kstep : Kernel → Kernel → Prop :=
| k_load bl mk m i q ps : bl !! i = Some (mkBlock (q :: ps) None false) →
    kstep (mkKernel bl mk m) (mkKernel (<[i := mkBlock (q :: ps) (Some (load m q)) false]> bl) mk m)
| k_store bl mk m i q ps bs : bl !! i = Some (mkBlock (q :: ps) (Some bs) false) →
    kstep (mkKernel bl mk m) (mkKernel (<[i := mkBlock ps None false]> bl) mk (store m q bs))
| k_mask bl mk m i : bl !! i = Some (mkBlock [] None false) → mk = Z.of_nat i →
    kstep (mkKernel bl mk m) (mkKernel (<[i := mkBlock [] None true]> bl) (u32 (Z.of_nat i + 1)) m).
Definition launch (plan : list (list Piece)) (m : Z → byte) : Kernel := mkKernel ((λ ps, mkBlock ps None false) <$> plan) 0 m.
Definition batch_plan (num : nat) (words : Z → Z) (count : Z) : list (list Piece) :=
  hybm_batch_copy_kernel (Z.of_nat num) words count <$> seqZ 0 (Z.of_nat num).
Definition copy_plan (num : nat) (dst src len : Z) : list (list Piece) :=
  hybm_copy_kernel (Z.of_nat num) dst src len <$> seqZ 0 (Z.of_nat num).
