(* ===== verification/CopyKernelSpec.v ===== *)
(** * The copy kernels: the theorems

    Blocks that interleave in any way copy exactly the bytes of a batch; the mask
    reaches the number of blocks when, and only when, every block has finished with
    the parameters; every run ends.  One copy is exact when each block has a slice,
    and overruns the destination when it is too short for that. *)
From Stdlib Require Import Strings.Byte.
From stdpp Require Import base numbers list relations.
From S2P Require Import Prelude Fabric HostDataOp HostDataOpSpec CopyKernel.
Local Open Scope Z_scope.
Local Open Scope mf_scope.

(** ** Pieces as moves of bytes *)
Definition pmoves (q : Piece) : list Move := moves (0, p_dst q) (0, p_src q) (p_size q).
Definition placed (m0 m : Z → byte) (q : Piece) : Prop := ∀ k, 0 ≤ k < p_size q → m (p_dst q + k) = m0 (p_src q + k).
Definition moved (m0 m : Z → byte) (ms : list Move) : Prop := ∀ d s, (d, s) ∈ ms → m d.2 = m0 s.2.
Lemma placed_moved m0 m ps : (∀ q, q ∈ ps → placed m0 m q) ↔ moved m0 m (ps ≫= pmoves).
Proof.
  split.
  - intros Hp d s (q & [k (Hk & -> & ->)]%elem_of_moves & Hq)%list_elem_of_bind. cbn. by apply (Hp _ Hq).
  - intros Hm q Hq k Hk. apply (Hm (0, _) (0, _)). apply list_elem_of_bind. exists q. split; [|done]. apply elem_of_moves. by exists k.
Qed.
Lemma load_eq m m0 q : (∀ k, 0 ≤ k < p_size q → m (p_src q + k) = m0 (p_src q + k)) → load m q = load m0 q.
Proof. intros H. apply list_fmap_ext. intros i k Hk%list_elem_of_lookup_2%elem_of_seqZ. apply H. lia. Qed.
Lemma store_load m m0 q a : store m q (load m0 q) a =
  if decide (p_dst q ≤ a < p_dst q + p_size q) then m0 (p_src q + (a - p_dst q)) else m a.
Proof.
  unfold store. case_decide as Ha; [|done]. unfold load. rewrite list_lookup_fmap, lookup_seqZ_lt by lia.
  cbn. f_equal. lia.
Qed.

(** ** A launch *)
Definition cost (b : Block) : nat :=
  2 * List.length (todo b) + (if finished b then 0 else 1) - (match buf b with Some _ => 1 | None => 0 end).
Definition left (st : Kernel) : nat := sum_list_with cost (blocks st).
Lemma sum_insert (l : list Block) i b b' : l !! i = Some b →
  (sum_list_with cost (<[i := b']> l) + cost b = sum_list_with cost l + cost b')%nat.
Proof.
  revert i. induction l as [|x l IH]; intros [|i] Hi; try done.
  - injection Hi as ->. change (cost b' + sum_list_with cost l + cost b = cost b + sum_list_with cost l + cost b')%nat. lia.
  - specialize (IH i Hi). change (cost x + sum_list_with cost (<[i:=b']> l) + cost b = cost x + sum_list_with cost l + cost b')%nat. lia.
Qed.
Lemma cost_less l mk mk' m m' i b b' : l !! i = Some b → cost b = S (cost b') → left (mkKernel l mk m) = S (left (mkKernel (<[i := b']> l) mk' m')).
Proof. intros Hi Hc. unfold left. cbn [blocks]. pose proof (sum_insert l i b b' Hi). lia. Qed.

Section Launch.
Context (plan : list (list Piece)) (m0 : Z → byte).
Abbreviation all := (mjoin plan).
Abbreviation num := (List.length plan).
Context (Ho : orderly (all ≫= pmoves) none) (Hnum : Z.of_nat num < 2 ^ 32).

Record block_ok (m : Z → byte) (mk : Z) (i : nat) (ps : list Piece) (b : Block) : Prop := {
  bo_part : ∃ pre, ps = pre ++ todo b ∧ ∀ q, q ∈ pre → placed m0 m q;
  bo_buf : ∀ bs, buf b = Some bs → ∃ q r, todo b = q :: r ∧ bs = load m0 q;
  bo_mask : finished b = true ↔ Z.of_nat i < mk;
  bo_done : finished b = true → todo b = [] ∧ buf b = None;
}.
Record kernel_ok (st : Kernel) : Prop := {
  ko_len : List.length (blocks st) = num;
  ko_mask : 0 ≤ mask st ≤ Z.of_nat num;
  ko_blocks : ∀ i ps b, plan !! i = Some ps → blocks st !! i = Some b → block_ok (kmem st) (mask st) i ps b;
  ko_frame : ∀ a, (0, a) ∉ (all ≫= pmoves).*1 → kmem st a = m0 a;
}.

Lemma launch_ok : kernel_ok (launch plan m0).
Proof.
  split; cbn; [by rewrite length_fmap|lia| |done]. intros i ps b Hi Hb. rewrite list_lookup_fmap, Hi in Hb. cbn in Hb. simplify_eq.
  split; cbn; [|done|split; [done|lia]|done]. exists []. split; [done|]. by intros q ?%not_elem_of_nil.
Qed.

Lemma piece_move i ps q k : plan !! i = Some ps → q ∈ ps → 0 ≤ k < p_size q → ((0, p_dst q + k), (0, p_src q + k)) ∈ all ≫= pmoves.
Proof.
  intros Hi Hq Hk. apply list_elem_of_bind. exists q. split; [apply elem_of_moves; by exists k|].
  apply list_elem_of_join. exists ps. split; [done|]. by eapply list_elem_of_lookup_2.
Qed.
(** Writing a piece's own bytes leaves every piece in place. *)
Lemma store_placed i ps q m q' j ps' : plan !! i = Some ps → q ∈ ps → plan !! j = Some ps' → q' ∈ ps' →
  placed m0 m q' → placed m0 (store m q (load m0 q)) q'.
Proof.
  intros Hi Hq Hj Hq' Hp k Hk. rewrite store_load. case_decide as Ha; [|by apply Hp].
  pose proof (piece_move _ _ _ _ Hj Hq' Hk) as H1. pose proof (piece_move i ps q (p_dst q' + k - p_dst q) Hi Hq ltac:(lia)) as H2.
  replace (p_dst q + (p_dst q' + k - p_dst q)) with (p_dst q' + k) in H2 by lia.
  pose proof (or_fun _ _ _ _ _ Ho H1 H2) as E. injection E as E. by rewrite E.
Qed.
Lemma store_here m q : placed m0 (store m q (load m0 q)) q.
Proof. intros k Hk. rewrite store_load, decide_True by lia. f_equal. lia. Qed.

Lemma kstep_ok st st' : kstep st st' → kernel_ok st → kernel_ok st' ∧ left st = S (left st').
Proof.
  intros Hs [Hlen Hmask Hb Hf]. destruct Hs as [bl mk m i q ps Hi|bl mk m i q ps bs Hi|bl mk m i Hi ->]; cbn [blocks mask kmem] in *.
  all: assert (∃ pi, plan !! i = Some pi) as [pi Hpi]
    by (apply lookup_lt_is_Some; rewrite <- Hlen; by eapply lookup_lt_Some).
  all: pose proof (Hb i pi _ Hpi Hi) as [(pre & Epre & Hpre) Hbuf Hm Hd]; cbn [todo buf finished] in *.
  - split; [|apply (cost_less _ _ _ _ _ _ _ _ Hi); cbn; lia].
    split; cbn; [by rewrite length_insert|done| |done]. intros j pj b Hj [[-> [<- _]]|[Hne Hbj]]%list_lookup_insert_Some; [|by apply Hb].
    rewrite Hpi in Hj. injection Hj as <-. split; cbn; [by exists pre| |done|done]. intros bs [= <-]. exists q, ps. split; [done|].
    apply load_eq. intros k Hk. apply Hf. apply (or_src _ _ Ho (0, p_dst q + k)). eapply piece_move; [done| |done]. rewrite Epre. set_solver.
  - destruct (Hbuf bs eq_refl) as (q' & r & [= <- <-] & ->).
    assert (q ∈ pi) as Hq by (rewrite Epre; set_solver).
    split; [|apply (cost_less _ _ _ _ _ _ _ _ Hi); cbn; lia].
    split; cbn; [by rewrite length_insert|done| |].
    + intros j pj b Hj [[-> [<- _]]|[Hne Hbj]]%list_lookup_insert_Some.
      * rewrite Hpi in Hj. injection Hj as <-. split; cbn; [|done|done|done]. exists (pre ++ [q]). rewrite <- app_assoc. split; [done|].
        intros q' [Hq'|Hq'%list_elem_of_singleton]%elem_of_app; [|subst q'; apply store_here]. apply (store_placed j pi q m q' j pi); [done|done|done| |by apply Hpre]. rewrite Epre. apply elem_of_app. by left.
      * destruct (Hb j pj b Hj Hbj) as [(pre' & Epre' & Hpre') H1 H2 H3]. split; [|done..]. exists pre'. split; [done|].
        intros q' Hq'. apply (store_placed i pi q m q' j pj); [done|done|done| |by apply Hpre']. rewrite Epre'. apply elem_of_app. by left.
    + intros a Ha. rewrite store_load, decide_False; [by apply Hf|]. intros Hin. apply Ha, list_elem_of_fmap.
      exists ((0, p_dst q + (a - p_dst q)), (0, p_src q + (a - p_dst q))). split; [cbn; f_equal; lia|]. eapply piece_move; [done..|lia].
  - assert (Z.of_nat i < Z.of_nat num) as Hin by (apply lookup_lt_Some in Hpi; lia).
    assert (u32 (Z.of_nat i + 1) = Z.of_nat i + 1) as -> by (apply u32_small; lia).
    split; [|apply (cost_less _ _ _ _ _ _ _ _ Hi); cbn; lia].
    split; cbn; [by rewrite length_insert|lia| |done]. intros j pj b Hj [[-> [<- _]]|[Hne Hbj]]%list_lookup_insert_Some.
    + rewrite Hpi in Hj. injection Hj as <-. split; cbn; [by exists pre|done|split; [lia|done]|done].
    + destruct (Hb j pj b Hj Hbj) as [H0 H1 H2 H3]. split; [done..| |done]. rewrite H2. lia.
Qed.
Lemma reach_ok n st : nsteps kstep n (launch plan m0) st → kernel_ok st ∧ (left st + n = left (launch plan m0))%nat.
Proof.
  intros Hn. assert (∀ s, nsteps kstep n s st → kernel_ok s → kernel_ok st ∧ (left st + n = left s)%nat) as H; [|apply H; [done|apply launch_ok]].
  clear Hn. induction n as [|n IH]; intros s Hn Hs; inv Hn; [split; [done|lia]|].
  match goal with H : kstep _ _, H' : nsteps _ _ _ _ |- _ => destruct (kstep_ok _ _ H Hs) as [Hy Hl]; destruct (IH _ H' Hy) as [Hk Hn] end.
  split; [done|lia].
Qed.
Lemma left_launch : left (launch plan m0) = (2 * List.length all + num)%nat.
Proof.
  clear. unfold left, launch. cbn [blocks]. induction plan as [|ps l IH]; [done|]. rewrite fmap_cons. cbn [mjoin list_join List.length].
  rewrite length_app. change (cost (mkBlock ps None false) + sum_list_with cost ((λ ps, mkBlock ps None false) <$> l) = 2 * (List.length ps + List.length (mjoin l)) + S (List.length l))%nat.
  rewrite IH. unfold cost. cbn [todo buf finished]. lia.
Qed.

Lemma mask_full st : (0 < num)%nat → kernel_ok st → (∀ b, b ∈ blocks st → finished b = true) → mask st = Z.of_nat num.
Proof.
  intros Hpos [Hlen Hmask Hb _] Hfin. destruct (lookup_lt_is_Some_2 (blocks st) (num - 1)) as [b Hbi]; [lia|].
  destruct (lookup_lt_is_Some_2 plan (num - 1)) as [ps Hps]; [lia|].
  assert (Z.of_nat (num - 1) < mask st); [|lia]. apply (bo_mask _ _ _ _ _ (Hb _ _ _ Hps Hbi)), Hfin. by eapply list_elem_of_lookup_2.
Qed.
Lemma all_done st : kernel_ok st → mask st = Z.of_nat num → (∀ b, b ∈ blocks st → finished b = true) ∧ moved m0 (kmem st) (all ≫= pmoves).
Proof.
  intros [Hlen Hmask Hb Hf] Hm.
  assert (∀ i ps b, plan !! i = Some ps → blocks st !! i = Some b → finished b = true) as Hfin.
  { intros i ps b Hi Hbi. apply (bo_mask _ _ _ _ _ (Hb _ _ _ Hi Hbi)). apply lookup_lt_Some in Hi. lia. }
  split.
  - intros b [i Hi]%list_elem_of_lookup_1. destruct (lookup_lt_is_Some_2 plan i) as [ps Hps]; [rewrite <- Hlen; by eapply lookup_lt_Some|]. eauto.
  - apply placed_moved. intros q (ps & Hq & [i Hi]%list_elem_of_lookup_1)%list_elem_of_join.
    destruct (lookup_lt_is_Some_2 (blocks st) i) as [b Hbi]; [rewrite Hlen; by eapply lookup_lt_Some|].
    destruct (Hb _ _ _ Hi Hbi) as [(pre & -> & Hpre) _ _ Hd]. destruct (Hd (Hfin _ _ _ Hi Hbi)) as [E _]. rewrite E, app_nil_r in Hq. by apply Hpre.
Qed.
Lemma can_step st : kernel_ok st → mask st ≠ Z.of_nat num → ∃ st', kstep st st'.
Proof.
  intros [Hlen Hmask Hb Hf] Hm. destruct st as [bl mk m]. cbn in *. set (i := Z.to_nat mk).
  destruct (lookup_lt_is_Some_2 bl i) as [b Hbi]; [lia|]. destruct (lookup_lt_is_Some_2 plan i) as [ps Hps]; [lia|].
  pose proof (Hb i ps b Hps Hbi) as [_ Hbuf Hmk _]. destruct b as [td bf fi]. cbn in *.
  assert (fi = false) as -> by (destruct fi; [|done]; assert (Z.of_nat i < mk) by tauto; lia).
  destruct td as [|q td], bf as [bs|]; [destruct (Hbuf bs eq_refl) as (? & ? & ? & _); done| |eexists; by eapply k_store|eexists; by eapply k_load].
  eexists. eapply (k_mask _ _ _ i); [done|lia].
Qed.
End Launch.

(** ** What the blocks of a launch copy *)
Lemma seqZ_one m : seqZ m 1 = [m].
Proof. by rewrite seqZ_cons, seqZ_nil by lia. Qed.
Lemma bind_one {A B} (f : A → list B) x : [x] ≫= f = f x.
Proof. cbn. by rewrite app_nil_r. Qed.
Lemma join_one {A} (x : list A) : mjoin [x] = x.
Proof. cbn. apply app_nil_r. Qed.
Lemma bind_fst {A} (f : A → list Move) l x : x ∈ (l ≫= f).*1 → ∃ a, x ∈ (f a).*1 ∧ a ∈ l.
Proof. intros (mv & -> & (a & Hmv & Ha)%list_elem_of_bind)%list_elem_of_fmap. exists a. split; [|done]. apply list_elem_of_fmap. by exists mv. Qed.
Lemma bind_bind {A B C} (f : A → list B) (g : B → list C) (h : A → list C) l : (∀ a, a ∈ l → f a ≫= g = h a) → (l ≫= f) ≫= g = l ≫= h.
Proof.
  induction l as [|a l IH]; intros H; [done|]. rewrite !bind_cons, bind_app, IH, H; [done|by left|]. intros b Hb. apply H. by right.
Qed.
Lemma pieces_moves d s B r : 0 < B → 0 ≤ r → fits d (r * B) → fits s (r * B) →
  ((λ i, mkPiece (d +64 u64 (i * B)) (s +64 u64 (i * B)) B) <$> seqZ 0 r) ≫= pmoves = moves (0, d) (0, s) (r * B).
Proof.
  intros HB Hr. revert r Hr. apply (natlike_ind (λ r, fits d (r * B) → fits s (r * B) → _ = moves (0, d) (0, s) (r * B))); [done|].
  intros r Hr IH Hd Hs. unfold fits in *. rewrite <- Z.add_1_r, seqZ_app, fmap_app, bind_app by lia. rewrite IH by lia.
  rewrite (moves_split _ _ ((r + 1) * B) (r * B)) by lia. f_equal. rewrite Z.add_0_l, seqZ_one, list_fmap_singleton, bind_one. unfold pmoves. cbn.
  rewrite (u64_small (r * B)), !u64_small by lia. f_equal. lia.
Qed.
Lemma gm2gm_moves d s n : 0 ≤ n → fits d n → fits s n → copy_gm2gm d s COPY_BUF_SIZE n ≫= pmoves = moves (0, d) (0, s) n.
Proof.
  intros Hn Hd Hs. unfold copy_gm2gm. assert (0 < COPY_BUF_SIZE) as HB by done. revert HB. generalize COPY_BUF_SIZE. intros B HB.
  pose proof (Z.div_mod n B ltac:(lia)) as Ediv. pose proof (Z.mod_pos_bound n B HB). pose proof (Z.div_pos n B ltac:(lia) HB).
  unfold fits in *. rewrite bind_app, pieces_moves by (unfold fits; lia). rewrite (moves_split _ _ n (n / B * B)) by lia. f_equal.
  destruct (Z.ltb_spec 0 (n mod B)).
  - rewrite bind_one. unfold pmoves. cbn. rewrite (u64_small (n / B * B)), !u64_small by lia. f_equal. lia.
  - cbn. replace (n - n / B * B) with 0 by lia. done.
Qed.

Definition entry_moves (j : hybm_copy_params) : list Move := moves (0, dest j) (0, src j) (u32 (dataSize j)).
Definition entry_ok (j : hybm_copy_params) : Prop := fits (dest j) (u32 (dataSize j)) ∧ fits (src j) (u32 (dataSize j)).
Lemma entry_pieces j : entry_ok j → copy_entry j ≫= pmoves = entry_moves j.
Proof. intros [Hd Hs]. apply gm2gm_moves; [apply u32_range|done..]. Qed.

Lemma seqZ_mid {A} (f : Z → list A) a b : 0 ≤ a ≤ b → seqZ 0 b ≫= f = (seqZ 0 a ≫= f) ++ (seqZ a (b - a) ≫= f).
Proof. intros H. replace b with (a + (b - a)) at 1 by lia. by rewrite seqZ_app, bind_app by lia. Qed.
(** Entry [i] of a batch takes three words. *)
Definition entry (words : Z → Z) (i : Z) : hybm_copy_params := mkParams (words (3 * i)) (words (3 * i + 1)) (words (3 * i + 2)).
Lemma entry_in_place words count i : 3 * count ≤ 2 ^ 32 → 0 ≤ i < count → entry_at words i = entry words i.
Proof. intros Hc Hi. unfold entry_at, entry. by rewrite (u32_small (i * 3)), (u32_small (_ + 1)), (u32_small (_ + 2)), (Z.mul_comm i) by lia. Qed.
(** The blocks share the entries of a batch out, in order. *)
Lemma batch_shared num words count : (0 < num)%nat → 0 ≤ count → count + Z.of_nat num ≤ 2 ^ 32 →
  mjoin (batch_plan num words count) = seqZ 0 count ≫= λ i, copy_entry (entry_at words i).
Proof.
  intros Hn Hc Hfit. set (param := entry_at words). unfold batch_plan, hybm_batch_copy_kernel. set (N := Z.of_nat num) in *. assert (0 < N) as HN by lia.
  rewrite (u32_small (count + N - 1)) by lia. set (q := (count + N - 1) / N).
  assert (0 ≤ q) as Hq by (apply Z.div_pos; lia). assert (count ≤ q * N ≤ count + N - 1) as HqN.
  { pose proof (Z.div_mod (count + N - 1) N ltac:(lia)) as E. pose proof (Z.mod_pos_bound (count + N - 1) N HN). fold q in E. lia. }
  assert (∀ k, 0 ≤ k → k ≤ N → mjoin ((λ idx, seqZ (u32 (q * idx)) (Z.min (u32 (u32 (q * idx) + q)) count - u32 (q * idx)) ≫= λ i, copy_entry (param i)) <$> seqZ 0 k)
    = seqZ 0 (Z.min (q * k) count) ≫= λ i, copy_entry (param i)) as H.
  { apply (natlike_ind (λ k, k ≤ N → _ = seqZ 0 (Z.min (q * k) count) ≫= _)).
    - intros _. by rewrite Z.mul_0_r, Z.min_l by lia.
    - intros k Hk IH HkN. rewrite <- Z.add_1_r, seqZ_app, fmap_app, join_app by lia. rewrite IH by lia. rewrite Z.add_0_l, seqZ_one, list_fmap_singleton, join_one.
      assert (0 ≤ q * k ∧ q * k + q ≤ q * N) as [H1 H2] by (split; [by apply Z.mul_nonneg_nonneg|nia]).
      rewrite (u32_small (q * k)), (u32_small (q * k + q)) by lia.
      rewrite (seqZ_mid _ (Z.min (q * k) count) (Z.min (q * (k + 1)) count)) by lia. f_equal.
      destruct (Z.le_gt_cases (q * k) count) as [Hle|Hgt].
      + rewrite (Z.min_l (q * k)) by lia. by replace (q * (k + 1)) with (q * k + q) by lia.
      + rewrite !seqZ_nil by lia. done. }
  rewrite H by lia. by rewrite Z.min_r by lia.
Qed.

(** C18: a batch of at most 2^32/3 entries given to the kernel, its destinations apart
    from one another and from the sources, on any number of blocks that interleave in
    any way: while it runs only destinations are written; the mask has reached the
    number of blocks exactly when every block is done with the parameters, and then
    each entry has been copied, its size taken modulo 2^32, whole therefore when it
    is below 4 GiB; until then some block can go on, and no launch takes more than
    two steps for each piece and one for each block. *)
Theorem batch_kernel_exact num words count m0 n st :
  (0 < num)%nat → Z.of_nat num < 2 ^ 32 → 0 ≤ count → count + Z.of_nat num ≤ 2 ^ 32 → 3 * count ≤ 2 ^ 32 →
  (∀ i, 0 ≤ i < count → entry_ok (entry words i)) → orderly (seqZ 0 count ≫= λ i, entry_moves (entry words i)) none →
  nsteps kstep n (launch (batch_plan num words count) m0) st →
  (∀ a, (∀ i, 0 ≤ i < count → ¬ (dest (entry words i) ≤ a < dest (entry words i) + u32 (dataSize (entry words i)))) → kmem st a = m0 a) ∧
  (mask st = Z.of_nat num ↔ ∀ b, b ∈ blocks st → finished b = true) ∧
  (mask st = Z.of_nat num → ∀ i k, 0 ≤ i < count → 0 ≤ k < u32 (dataSize (entry words i)) →
     kmem st (dest (entry words i) + k) = m0 (src (entry words i) + k)) ∧
  (mask st ≠ Z.of_nat num → ∃ st', kstep st st') ∧
  (n ≤ 2 * List.length (mjoin (batch_plan num words count)) + num)%nat.
Proof.
  intros Hnum Hnum32 Hc Hfit Hfit3 Hok Ho Hn. set (plan := batch_plan num words count) in *.
  assert (mjoin plan ≫= pmoves = seqZ 0 count ≫= λ i, entry_moves (entry words i)) as Em.
  { unfold plan. rewrite batch_shared by done. apply bind_bind. intros i Hi%elem_of_seqZ. rewrite (entry_in_place _ count) by lia. apply entry_pieces, Hok. lia. }
  assert (List.length plan = num) as El by (unfold plan, batch_plan; rewrite length_fmap, length_seqZ; lia).
  rewrite <- Em in Ho. destruct (reach_ok plan m0 Ho ltac:(lia) n st Hn) as [Hk Hl].
  rewrite left_launch, El in Hl. split_and!; [| | | |lia].
  - intros a Ha. apply (ko_frame _ _ _ Hk). rewrite Em. intros (i & Hin & Hi%elem_of_seqZ)%bind_fst.
    apply elem_of_moves_dst in Hin. apply (Ha i); [lia|]. cbn in Hin |- *. lia.
  - split; [intros Hm; rewrite <- El in Hm; by apply (all_done plan m0)|]. intros Hfin. rewrite <- El at 1. eapply mask_full; [lia|done..].
  - intros Hm. rewrite <- El in Hm. destruct (all_done plan m0 st Hk Hm) as [_ Hmv]. rewrite Em in Hmv.
    intros i k Hi Hkk. apply (Hmv (0, _) (0, _)). apply list_elem_of_bind. exists i. split; [apply elem_of_moves; by exists k|apply elem_of_seqZ; lia].
  - intros Hm. rewrite <- El in Hm. by eapply can_step.
Qed.
(** The index of a word wraps: entry 1431655766 of a batch is read from the words of
    the entries 0 and 1. *)
Theorem entry_index_wraps words : entry_at words 1431655766 = mkParams (words 2) (words 3) (words 4).
Proof. reflexivity. Qed.

(** ** One copy in slices *)

(** Each block starts inside the copy. *)
Definition covered (num len : Z) : Prop := slice_size num len * (num - 1) ≤ len.
Lemma slice_size_eq num len : 0 < num < 2 ^ 32 → 0 ≤ len < 2 ^ 63 →
  let slices := (len + 127) / 128 in
  slice_size num len = (slices + num - 1) / num * 128 ∧ 128 * slices < len + 128 ∧ len ≤ 128 * slices.
Proof.
  intros Hn Hl slices. pose proof (Z.div_mod (len + 127) 128 ltac:(lia)) as E. pose proof (Z.mod_pos_bound (len + 127) 128 ltac:(lia)). fold slices in E.
  assert (0 ≤ slices) as Hs by (apply Z.div_pos; lia).
  pose proof (Z.div_mod (slices + num - 1) num ltac:(lia)) as E2. pose proof (Z.mod_pos_bound (slices + num - 1) num ltac:(lia)).
  assert (0 ≤ (slices + num - 1) / num) as Hq by (apply Z.div_pos; lia).
  assert ((slices + num - 1) / num ≤ slices + num - 1) as Hle by nia.
  split; [|lia]. unfold slice_size, SINGLE_COPY_SLICE. replace (len + 128 - 1) with (len + 127) by lia. rewrite (u64_small (len + 127)) by lia. fold slices.
  rewrite (u64_small (slices + num - 1)) by lia. apply u64_small. split; [lia|]. nia.
Qed.
Lemma slices_cover num len : 0 < num < 2 ^ 32 → 0 ≤ len < 2 ^ 63 → len ≤ slice_size num len * num ∧ 0 ≤ slice_size num len ∧ slice_size num len * num < len + 128 * num + 128.
Proof.
  intros Hn Hl. destruct (slice_size_eq num len Hn Hl) as (-> & H1 & H2). revert H1 H2. generalize ((len + 127) / 128). intros s H1 H2.
  pose proof (Z.div_mod (s + num - 1) num ltac:(lia)) as E. pose proof (Z.mod_pos_bound (s + num - 1) num ltac:(lia)).
  assert (0 ≤ (s + num - 1) / num) by (apply Z.div_pos; lia). revert E H H0. generalize ((s + num - 1) / num), ((s + num - 1) mod num). intros q r E Hr Hq. lia.
Qed.
Lemma long_copy_covered num len : 0 < num < 2 ^ 16 → 128 * num * num ≤ len < 2 ^ 63 → covered num len.
Proof.
  intros Hn Hl. unfold covered. destruct (slice_size_eq num len ltac:(lia) ltac:(nia)) as (-> & H1 & H2). revert H1 H2.
  generalize ((len + 127) / 128). intros s H1 H2. pose proof (Z.div_mod (s + num - 1) num ltac:(lia)) as E.
  pose proof (Z.mod_pos_bound (s + num - 1) num ltac:(lia)) as Hr. revert E Hr. generalize ((s + num - 1) / num), ((s + num - 1) mod num). intros q r E Hr.
  assert (num ≤ q) by nia. nia.
Qed.

(** The blocks share one copy out. *)
Lemma copy_shared num d s len : 0 < Z.of_nat num < 2 ^ 16 → 0 ≤ len < 2 ^ 63 → covered (Z.of_nat num) len → slice_size (Z.of_nat num) len < 2 ^ 32 →
  fits d len → fits s len → mjoin (copy_plan num d s len) ≫= pmoves = moves (0, d) (0, s) len.
Proof.
  intros HN Hl Hcov Hsl Hd Hs. unfold copy_plan, hybm_copy_kernel. revert Hcov Hsl HN. generalize (Z.of_nat num). intros N Hcov Hsl HN.
  destruct (slices_cover N len ltac:(lia) Hl) as (Hc1 & Hc2 & Hc3). unfold covered in Hcov. revert Hcov Hsl Hc1 Hc2 Hc3. generalize (slice_size N len). intros sl Hcov Hsl Hc1 Hc2 Hc3.
  unfold fits in *. assert (∀ k, 0 ≤ k → k ≤ N → mjoin ((λ idx, copy_gm2gm (d +64 u64 (sl * idx)) (s +64 u64 (sl * idx)) COPY_BUF_SIZE
      (u32 (Z.min (u64 (sl * u32 (idx + 1))) len -64 u64 (sl * idx)))) <$> seqZ 0 k) ≫= pmoves = moves (0, d) (0, s) (Z.min (sl * k) len)) as H.
  { apply (natlike_ind (λ k, k ≤ N → _ = moves (0, d) (0, s) (Z.min (sl * k) len))).
    - intros _. by rewrite Z.mul_0_r, Z.min_l by lia.
    - intros k Hk IH HkN. rewrite <- Z.add_1_r, seqZ_app, fmap_app, join_app, bind_app by lia. rewrite IH by lia.
      rewrite Z.add_0_l, seqZ_one, list_fmap_singleton, join_one. assert (0 ≤ sl * k ≤ len ∧ sl * k + sl = sl * (k + 1) ∧ sl * (k + 1) ≤ sl * N) as (H1 & H2 & H3) by nia.
      assert (0 ≤ Z.min (sl * (k + 1)) len - sl * k ≤ sl) as H4 by lia.
      rewrite (moves_split _ _ (Z.min (sl * (k + 1)) len) (sl * k)) by lia. rewrite Z.min_l by lia. f_equal. cbn.
      rewrite (u32_small (k + 1)) by lia. rewrite (u64_small (sl * (k + 1))) by nia. rewrite (u64_small (sl * k)), (u64_small (d + _)), (u64_small (s + _)) by lia.
      rewrite (u64_small (_ - _)), (u32_small (_ - _)) by lia. apply gm2gm_moves; unfold fits; lia. }
  rewrite H by lia. by rewrite Z.min_r by lia.
Qed.
(** A block of this kernel is done when it has no piece left; it has no mask. *)
Definition idle (st : Kernel) : Prop := ∀ b, b ∈ blocks st → todo b = [].
Lemma idle_moved plan m0 st : kernel_ok plan m0 st → idle st → moved m0 (kmem st) (mjoin plan ≫= pmoves).
Proof.
  intros [Hlen _ Hb _] Hidle. apply placed_moved. intros q (ps & Hq & [i Hi]%list_elem_of_lookup_1)%list_elem_of_join.
  destruct (lookup_lt_is_Some_2 (blocks st) i) as [b Hbi]; [rewrite Hlen; by eapply lookup_lt_Some|].
  destruct (Hb _ _ _ Hi Hbi) as [(pre & -> & Hpre) _ _ _]. rewrite (Hidle b), app_nil_r in Hq by by eapply list_elem_of_lookup_2. by apply Hpre.
Qed.

(** One copy on [num] blocks, of at least [128 num^2] bytes and below 4 GiB for
    each block: however the blocks interleave nothing but the destination is written,
    and when they are done it holds the bytes of the source. *)
Theorem copy_kernel_exact num d s len m0 n st :
  0 < Z.of_nat num < 2 ^ 16 → 128 * Z.of_nat num * Z.of_nat num ≤ len < 2 ^ 63 → slice_size (Z.of_nat num) len < 2 ^ 32 →
  fits d len → fits s len → d + len ≤ s ∨ s + len ≤ d →
  nsteps kstep n (launch (copy_plan num d s len) m0) st →
  (∀ a, ¬ (d ≤ a < d + len) → kmem st a = m0 a) ∧ (idle st → ∀ k, 0 ≤ k < len → kmem st (d + k) = m0 (s + k)).
Proof.
  intros Hnum Hl Hsl Hd Hs Hdis Hn. set (plan := copy_plan num d s len) in *.
  assert (mjoin plan ≫= pmoves = moves (0, d) (0, s) len) as Em by (apply copy_shared; try done; [nia|apply long_copy_covered; lia]).
  assert (orderly (moves (0, d) (0, s) len) none) as Ho.
  { split; [apply moves_nodup| |by intros; split; intros []]. intros x y (k & Hk & -> & ->)%elem_of_moves [_ Hin]%elem_of_moves_dst. cbn in Hin. lia. }
  assert (List.length plan = num) as El by (unfold plan, copy_plan; rewrite length_fmap, length_seqZ; lia).
  rewrite <- Em in Ho. destruct (reach_ok plan m0 Ho ltac:(lia) n st Hn) as [Hk _]. split.
  - intros a Ha. apply (ko_frame _ _ _ Hk). rewrite Em. intros [_ Hin]%elem_of_moves_dst. done.
  - intros Hi k Hkk. pose proof (idle_moved _ _ _ Hk Hi) as Hmv. rewrite Em in Hmv. apply (Hmv (0, _) (0, _)), elem_of_moves. by exists k.
Qed.

(** A copy shorter than the slices of all blocks but the last: the size of a block
    behind its end is negative, and taken as 32 bits is almost 4 GiB; the block
    writes behind the destination. *)
Theorem short_copy_overruns num d s len : 1 < num < 2 ^ 16 → 0 < len < 128 * (num - 1) → fits d (2 ^ 32) → fits s (2 ^ 32) →
  ∃ idx, 0 ≤ idx < num ∧ hybm_copy_kernel num d s len idx = copy_gm2gm (d + 128 * idx) (s + 128 * idx) COPY_BUF_SIZE (2 ^ 32 - (128 * idx - len)) ∧
    len < 128 * idx ∧ mkPiece (d + 128 * idx) (s + 128 * idx) COPY_BUF_SIZE ∈ hybm_copy_kernel num d s len idx.
Proof.
  intros Hn Hl [Hd1 Hd2] [Hs1 Hs2]. exists (num - 1). split; [lia|].
  assert (slice_size num len = 128) as Esl.
  { destruct (slice_size_eq num len ltac:(lia) ltac:(lia)) as (-> & H1 & H2). revert H1 H2. generalize ((len + 127) / 128). intros sl H1 H2.
    replace ((sl + num - 1) / num) with 1; [done|]. apply (Z.div_unique _ _ _ (sl - 1)); lia. }
  assert (hybm_copy_kernel num d s len (num - 1) = copy_gm2gm (d + 128 * (num - 1)) (s + 128 * (num - 1)) COPY_BUF_SIZE (2 ^ 32 - (128 * (num - 1) - len))) as E.
  { unfold hybm_copy_kernel. rewrite Esl. rewrite (u32_small (num - 1 + 1)) by lia. rewrite (u64_small (128 * (num - 1 + 1))), (u64_small (128 * (num - 1))), (u64_small (d + _)), (u64_small (s + _)) by lia.
    rewrite Z.min_r by lia. f_equal. unfold u32, u64. rewrite <- (Z.mod_unique (len - 128 * (num - 1)) (2 ^ 64) (-1) (2 ^ 64 + (len - 128 * (num - 1)))) by lia.
    symmetry. apply (Z.mod_unique _ _ (2 ^ 32 - 1)); lia. }
  split; [done|]. split; [lia|]. rewrite E. unfold copy_gm2gm. apply elem_of_app. left. apply list_elem_of_fmap. exists 0.
  rewrite Z.mul_0_l. change (u64 0) with 0. rewrite !Z.add_0_r, !u64_small by lia. split; [done|]. apply elem_of_seqZ. split; [lia|].
  pose proof (Z.div_le_mono 65536 (2 ^ 32 - (128 * (num - 1) - len)) 65536 ltac:(lia) ltac:(lia)) as Hle. change (65536 / 65536) with 1 in Hle. change COPY_BUF_SIZE with 65536. lia.
Qed.

(** ** Runs *)
Definition kexec (st : Kernel) (i : nat) : option Kernel :=
  match blocks st !! i with
  | Some (mkBlock (q :: ps) None false) => Some (mkKernel (<[i := mkBlock (q :: ps) (Some (load (kmem st) q)) false]> (blocks st)) (mask st) (kmem st))
  | Some (mkBlock (q :: ps) (Some bs) false) => Some (mkKernel (<[i := mkBlock ps None false]> (blocks st)) (mask st) (store (kmem st) q bs))
  | Some (mkBlock [] None false) => if mask st =? Z.of_nat i then Some (mkKernel (<[i := mkBlock [] None true]> (blocks st)) (u32 (Z.of_nat i + 1)) (kmem st)) else None
  | _ => None
  end.
Fixpoint krun (st : Kernel) (sched : list nat) : option Kernel :=
  match sched with [] => Some st | i :: sched => st ← kexec st i; krun st sched end.
Lemma kexec_step st i st' : kexec st i = Some st' → kstep st st'.
Proof.
  unfold kexec. destruct st as [bl mk m]. cbn. destruct (bl !! i) as [[[|q ps] [bs|] []]|] eqn:Hi; try done.
  - destruct (Z.eqb_spec mk (Z.of_nat i)) as [E|]; [|done]. intros [= <-]. by apply k_mask.
  - intros [= <-]. by eapply k_store.
  - intros [= <-]. by eapply k_load.
Qed.
Lemma krun_steps sched st st' : krun st sched = Some st' → nsteps kstep (List.length sched) st st'.
Proof.
  revert st. induction sched as [|i sched IH]; intros st H; cbn in *; [simplify_eq; constructor|].
  destruct (kexec st i) as [st1|] eqn:E; [|done]. econstructor; [by eapply kexec_step|by apply IH].
Qed.

Definition demo_words (a : Z) : Z := if a mod 3 =? 0 then 10 + 10 * (a / 3) else if a mod 3 =? 1 then 100 + 10 * (a / 3) else 3.
Definition demo_mem (a : Z) : byte := byte_of_Z a.
Definition demo_sched : list nat := [1; 0; 1; 0; 0; 0; 0; 1]%nat.
Lemma demo_entries i : 0 ≤ i < 3 → entry_ok (entry demo_words i).
Proof. intros Hi. assert (i = 0 ∨ i = 1 ∨ i = 2) as [->|[->| ->]] by lia; split; vm_compute; repeat split; first [reflexivity | discriminate]. Qed.
Lemma demo_words_orderly : orderly (seqZ 0 3 ≫= λ i, entry_moves (entry demo_words i)) none.
Proof. apply disjoint_orderly; [by intros l []|]. apply (bool_decide_unpack _). vm_compute. exact I. Qed.
Lemma batch_kernel_exact_witness : ∃ st, krun (launch (batch_plan 2 demo_words 3) demo_mem) demo_sched = Some st ∧
  mask st = 2 ∧ kmem st 121 = demo_mem 31.
Proof.
  destruct (krun (launch (batch_plan 2 demo_words 3) demo_mem) demo_sched) as [st|] eqn:E; [|exfalso; vm_compute in E; discriminate].
  exists st. split; [reflexivity|]. assert (mask st = 2) as Hm.
  { pose proof (f_equal (fmap mask) E) as Em. vm_compute in Em. injection Em as Em. by symmetry. }
  split; [exact Hm|].
  apply (proj1 (proj2 (proj2 (batch_kernel_exact 2 demo_words 3 demo_mem _ st ltac:(lia) ltac:(lia) ltac:(lia) ltac:(lia) ltac:(lia)
    demo_entries demo_words_orderly (krun_steps _ _ _ E)))) Hm 2 1); [lia|].
  change (u32 (dataSize (entry demo_words 2))) with 3. lia.
Defined.

Lemma copy_kernel_exact_witness : ∃ st, krun (launch (copy_plan 2 1000 0 512) demo_mem) [1; 0; 1; 0]%nat = Some st ∧ kmem st 1300 = demo_mem 300.
Proof.
  destruct (krun (launch (copy_plan 2 1000 0 512) demo_mem) [1; 0; 1; 0]%nat) as [st|] eqn:E; [|exfalso; vm_compute in E; discriminate].
  exists st. split; [reflexivity|].
  assert (Forall (λ b, todo b = []) (blocks st)) as Hi.
  { assert (Forall (λ l, l = []) (todo <$> blocks st)) as H; [|by rewrite Forall_fmap in H].
    assert (Some (todo <$> blocks st) = Some [[]; []]) as H.
    { change (Some (todo <$> blocks st)) with ((λ st, todo <$> blocks st) <$> Some st). rewrite <- E. vm_compute. reflexivity. }
    injection H as ->. by repeat constructor. }
  rewrite Forall_forall in Hi.
  apply (proj2 (copy_kernel_exact 2 1000 0 512 demo_mem _ st ltac:(lia) ltac:(lia) ltac:(vm_compute; reflexivity) ltac:(unfold fits; lia) ltac:(unfold fits; lia)
    ltac:(lia) (krun_steps _ _ _ E)) Hi 300). lia.
Defined.
