(* ===== verification/DeviceDataOp.v ===== *)
(** * Copies over device RDMA

    data_operation/host/hybm_data_op_device_rdma: copies between local and global
    memory of hosts and devices, in all twelve directions.  Memory of the caller's
    rank is copied directly; remote memory directly when the local end is registered
    with the transport, and through the swap space when it is not.

    The operator has the members of the one over host RDMA and asks for the same
    calls ([HostDataOp]); its pieces of swap space and its chunk loop are the ones
    modelled there. *)
From stdpp Require Import base numbers list gmap sorting.
From S2P Require Import Prelude RangePool VaManager Fabric HostDataOp.
Local Open Scope Z_scope.
Local Open Scope mf_scope.

Definition RDMA_SWAP_SPACE_SIZE : Z := 1024 * 1024 * 128.
Definition REG_MR_FLAG_ACL_DRAM : Z := 0x8.

Abbreviation DataOpDeviceRDMA := HostDataOpRDMA.
Definition set_base (op : DataOpDeviceRDMA) (addr : Z) : DataOpDeviceRDMA :=
  mkOp (inited_ op) (rankId_ op) addr (transportManager_ op) (rdmaSwapMemoryAllocator_ op).
Definition set_inited (op : DataOpDeviceRDMA) (b : bool) : DataOpDeviceRDMA :=
  mkOp b (rankId_ op) (rdmaSwapBaseAddr_ op) (transportManager_ op) (rdmaSwapMemoryAllocator_ op).

(** ** Start and end *)

(** [AclrtMallocHost] answers with the address, or a negative error. *)
Definition AllocSwapMemory (op : DataOpDeviceRDMA) : prog (DataOpDeviceRDMA * Z) :=
  ptr ← call (MallocHost RDMA_SWAP_SPACE_SIZE);
  Ret (if ptr <? 0 then (op, BM_MALLOC_FAILED) else (set_base op ptr, BM_OK)).
Definition FreeSwapMemory (op : DataOpDeviceRDMA) : prog DataOpDeviceRDMA :=
  if rdmaSwapBaseAddr_ op =? nullptr then Ret op else
  _ ← (if transportManager_ op then call (UnregisterMemoryRegion (rdmaSwapBaseAddr_ op)) else Ret 0);
  _ ← call (FreeHost (rdmaSwapBaseAddr_ op));
  Ret (set_base op nullptr).
Definition Initialize (op : DataOpDeviceRDMA) : prog (DataOpDeviceRDMA * Z) :=
  if inited_ op then Ret (op, BM_OK) else
  '(op, ret) ← AllocSwapMemory op;
  if negb (ret =? BM_OK) then Ret (op, ret) else
  ret ← (if transportManager_ op
         then call (RegisterMemoryRegion (rdmaSwapBaseAddr_ op) RDMA_SWAP_SPACE_SIZE REG_MR_FLAG_ACL_DRAM) else Ret BM_OK);
  if negb (ret =? BM_OK) then op ← FreeSwapMemory op; Ret (op, BM_MALLOC_FAILED) else
  Ret (set_inited (set_pool op (pool_create (rdmaSwapBaseAddr_ op) RDMA_SWAP_SPACE_SIZE)) true, BM_OK).
Definition UnInitialize (op : DataOpDeviceRDMA) : prog DataOpDeviceRDMA :=
  op ← FreeSwapMemory op; Ret (set_inited op false).

(** ** Between two places of the caller's rank *)
Definition copy_local (kind : MemcpyKind) (srcVA destVA length : Z) : prog Z :=
  ret ← call (Memcpy destVA srcVA length kind);
  Ret (if negb (ret =? BM_OK) then BM_DL_FUNCTION_FAILED else BM_OK).
Definition CopyLH2LH := copy_local ACL_MEMCPY_HOST_TO_HOST.
Definition CopyLD2LD := copy_local ACL_MEMCPY_DEVICE_TO_DEVICE.
Definition CopyLH2LD := copy_local ACL_MEMCPY_HOST_TO_DEVICE.
Definition CopyLD2LH := copy_local ACL_MEMCPY_DEVICE_TO_HOST.

(** ** Over the transport *)
Definition CopyRDMA (op : DataOpDeviceRDMA) (srcVA destVA length : Z) (options : ExtOptions) : prog Z :=
  if srcRankId options =? rankId_ op then tcall op (WriteRemote (destRankId options) srcVA destVA length) else
  if destRankId options =? rankId_ op then tcall op (ReadRemote (srcRankId options) destVA srcVA length) else
  Ret BM_INVALID_PARAM.

Definition put_chunk (op : DataOpDeviceRDMA) (options : ExtOptions) (srcIsHost : bool) (currentSrc currentDest n tmpHost : Z)
    : prog Z :=
  ret ← (if srcIsHost then CopyLH2LH currentSrc tmpHost n else CopyLD2LH currentSrc tmpHost n);
  if negb (ret =? BM_OK) then Ret ret else
  CopyRDMA op tmpHost currentDest n options.
Definition get_chunk (op : DataOpDeviceRDMA) (options : ExtOptions) (destIsHost : bool) (currentSrc currentDest n tmpHost : Z)
    : prog Z :=
  ret ← CopyRDMA op currentSrc tmpHost n options;
  if negb (ret =? BM_OK) then Ret ret else
  if destIsHost then CopyLH2LH tmpHost currentDest n else CopyLH2LD tmpHost currentDest n.
Definition SafePut (op : DataOpDeviceRDMA) (srcVA destVA length : Z) (options : ExtOptions) (srcIsHost : bool)
    : prog (DataOpDeviceRDMA * Z) :=
  chunk_loop RDMA_SWAP_SPACE_SIZE (chunk_fuel RDMA_SWAP_SPACE_SIZE length) (put_chunk op options srcIsHost) op srcVA destVA length 0 0.
Definition SafeGet (op : DataOpDeviceRDMA) (srcVA destVA length : Z) (options : ExtOptions) (destIsHost : bool)
    : prog (DataOpDeviceRDMA * Z) :=
  chunk_loop RDMA_SWAP_SPACE_SIZE (chunk_fuel RDMA_SWAP_SPACE_SIZE length) (get_chunk op options destIsHost) op srcVA destVA length 0 0.

(** ** One copy, by direction *)
Definition keep_op (op : DataOpDeviceRDMA) (q : prog Z) : prog (DataOpDeviceRDMA * Z) := ret ← q; Ret (op, ret).

(** Out of local memory. *)
Definition local_to_global (local : Z → Z → Z → prog Z) (srcIsHost : bool) (op : DataOpDeviceRDMA) (srcVA destVA length : Z)
    (options : ExtOptions) : prog (DataOpDeviceRDMA * Z) :=
  if destRankId options =? rankId_ op then keep_op op (local srcVA destVA length)
  else SafePut op srcVA destVA length options srcIsHost.
Definition CopyLH2GH := local_to_global CopyLH2LH true.
Definition CopyLH2GD := local_to_global CopyLH2LD true.
Definition CopyLD2GH := local_to_global CopyLD2LH false.
Definition CopyLD2GD := local_to_global CopyLD2LD false.

(** Between two global places. *)
Definition global_to_global (local : Z → Z → Z → prog Z) (op : DataOpDeviceRDMA) (srcVA destVA length : Z)
    (options : ExtOptions) : prog (DataOpDeviceRDMA * Z) :=
  keep_op op (if (srcRankId options =? rankId_ op) && (destRankId options =? rankId_ op) then local srcVA destVA length
              else CopyRDMA op srcVA destVA length options).
Definition CopyGH2GH := global_to_global CopyLH2LH.
Definition CopyGD2GH := global_to_global CopyLD2LH.
Definition CopyGH2GD := global_to_global CopyLH2LD.
Definition CopyGD2GD := global_to_global CopyLD2LD.

(** Into local memory; that of a device may be registered. *)
Definition global_to_host (local : Z → Z → Z → prog Z) (op : DataOpDeviceRDMA) (srcVA destVA length : Z)
    (options : ExtOptions) : prog (DataOpDeviceRDMA * Z) :=
  if srcRankId options =? rankId_ op then keep_op op (local srcVA destVA length)
  else SafeGet op srcVA destVA length options true.
Definition CopyGH2LH := global_to_host CopyLH2LH.
Definition CopyGD2LH := global_to_host CopyLD2LH.
Definition global_to_device (local : Z → Z → Z → prog Z) (op : DataOpDeviceRDMA) (srcVA destVA length : Z)
    (options : ExtOptions) : prog (DataOpDeviceRDMA * Z) :=
  if srcRankId options =? rankId_ op then keep_op op (local srcVA destVA length) else
  registered ← tcall op (QueryHasRegistered destVA length);
  if negb (registered =? 0) then keep_op op (CopyRDMA op srcVA destVA length options)
  else SafeGet op srcVA destVA length options false.
Definition CopyGH2LD := global_to_device CopyLH2LD.
Definition CopyGD2LD := global_to_device CopyLD2LD.

Definition DataCopy (op : DataOpDeviceRDMA) (params : hybm_copy_params) (direction : hybm_data_copy_direction)
    (options : ExtOptions) : prog (DataOpDeviceRDMA * Z) :=
  let copy f := f op (src params) (dest params) (dataSize params) options in
  match direction with
  | HYBM_LOCAL_HOST_TO_GLOBAL_HOST => copy CopyLH2GH
  | HYBM_LOCAL_HOST_TO_GLOBAL_DEVICE => copy CopyLH2GD
  | HYBM_LOCAL_DEVICE_TO_GLOBAL_HOST => copy CopyLD2GH
  | HYBM_LOCAL_DEVICE_TO_GLOBAL_DEVICE => copy CopyLD2GD
  | HYBM_GLOBAL_DEVICE_TO_GLOBAL_DEVICE => copy CopyGD2GD
  | HYBM_GLOBAL_DEVICE_TO_GLOBAL_HOST => copy CopyGD2GH
  | HYBM_GLOBAL_HOST_TO_GLOBAL_DEVICE => copy CopyGH2GD
  | HYBM_GLOBAL_HOST_TO_GLOBAL_HOST => copy CopyGH2GH
  | HYBM_GLOBAL_HOST_TO_LOCAL_HOST => copy CopyGH2LH
  | HYBM_GLOBAL_DEVICE_TO_LOCAL_HOST => copy CopyGD2LH
  | HYBM_GLOBAL_HOST_TO_LOCAL_DEVICE => copy CopyGH2LD
  | HYBM_GLOBAL_DEVICE_TO_LOCAL_DEVICE => copy CopyGD2LD
  | _ => Ret (op, BM_INVALID_PARAM)
  end.
Definition DataCopyAsync (op : DataOpDeviceRDMA) : prog (DataOpDeviceRDMA * Z) := Ret (op, BM_ERROR).
Definition Wait (op : DataOpDeviceRDMA) : prog (DataOpDeviceRDMA * Z) := Ret (op, BM_OK).

(** ** Batches *)

(** One entry after another; the result of no entry at all is uninitialised. *)
Definition BatchDataCopyDefault (op : DataOpDeviceRDMA) (jobs : list hybm_copy_params) (direction : hybm_data_copy_direction)
    (options : ExtOptions) : prog (DataOpDeviceRDMA * Z) :=
  match jobs with
  | [] => undefined (op, BM_OK)
  | _ => each_rank (λ op j, DataCopy op j direction options) op jobs BM_OK
  end.

(** *** At the caller's rank *)
Definition BatchDataCopyLocalSync (kind : MemcpyKind) (jobs : list hybm_copy_params) : prog Z :=
  ret ← submit (λ j, call (Memcpy (dest j) (src j) (dataSize j) kind)) jobs;
  Ret (if negb (ret =? 0) then BM_DL_FUNCTION_FAILED else BM_OK).
Definition BatchDataCopyLocalAsync (kind : MemcpyKind) (jobs : list hybm_copy_params) (options : ExtOptions) : prog Z :=
  st ← (if stream options =? nullptr then call GetThreadAclStream else Ret (stream options));
  ret ← submit (λ j, call (MemcpyAsync (dest j) (src j) (dataSize j) kind st)) jobs;
  if negb (ret =? 0) then Ret BM_DL_FUNCTION_FAILED else call (StreamSynchronize st).
(** All in one call, and one by one when that fails. *)
Definition BatchDataCopyLocalBatch (kind : MemcpyKind) (jobs : list hybm_copy_params) (options : ExtOptions) : prog Z :=
  ret ← call (MemcpyBatch kind jobs);
  if negb (ret =? 0) then BatchDataCopyLocalAsync kind jobs options else Ret ret.
Definition BatchDataCopyLocal (jobs : list hybm_copy_params) (direction : hybm_data_copy_direction) (options : ExtOptions)
    : prog Z :=
  match direction with
  | HYBM_LOCAL_HOST_TO_GLOBAL_HOST | HYBM_GLOBAL_HOST_TO_GLOBAL_HOST | HYBM_GLOBAL_HOST_TO_LOCAL_HOST =>
      BatchDataCopyLocalSync ACL_MEMCPY_HOST_TO_HOST jobs
  | HYBM_LOCAL_DEVICE_TO_GLOBAL_DEVICE | HYBM_GLOBAL_DEVICE_TO_GLOBAL_DEVICE | HYBM_GLOBAL_DEVICE_TO_LOCAL_DEVICE =>
      BatchDataCopyLocalAsync ACL_MEMCPY_DEVICE_TO_DEVICE jobs options
  | HYBM_LOCAL_HOST_TO_GLOBAL_DEVICE | HYBM_GLOBAL_HOST_TO_GLOBAL_DEVICE =>
      BatchDataCopyLocalAsync ACL_MEMCPY_HOST_TO_DEVICE jobs options
  | HYBM_GLOBAL_DEVICE_TO_GLOBAL_HOST | HYBM_GLOBAL_DEVICE_TO_LOCAL_HOST =>
      BatchDataCopyLocalAsync ACL_MEMCPY_DEVICE_TO_HOST jobs options
  | HYBM_GLOBAL_HOST_TO_LOCAL_DEVICE => BatchDataCopyLocalBatch ACL_MEMCPY_HOST_TO_DEVICE jobs options
  | HYBM_LOCAL_DEVICE_TO_GLOBAL_HOST => BatchDataCopyLocalBatch ACL_MEMCPY_DEVICE_TO_HOST jobs options
  | _ => Ret (-1)
  end.

(** *** By the owner of the global address and the registration of the local one *)
Record Classes := mkClasses { registered : gmap Z CopyDescriptor; localed : gmap Z CopyDescriptor; notRegistered : gmap Z CopyDescriptor }.
Fixpoint ClassifyDataAddr (op : DataOpDeviceRDMA) (spaces : list GvaSpace) (globalRankId : Z) (d : CopyDescriptor) (cl : Classes)
    : prog Classes :=
  match d with
  | [] => Ret cl
  | c :: d =>
      let r := GetRankIdByGva spaces (globalAddr c) in
      let gvaRankId := if r =? U32_MAX then globalRankId else r in
      cl ← (if gvaRankId =? rankId_ op
            then Ret (mkClasses (registered cl) (add_entry (localed cl) gvaRankId c) (notRegistered cl)) else
            has ← tcall op (QueryHasRegistered (localAddr c) (count c));
            Ret (if has =? 0 then mkClasses (registered cl) (localed cl) (add_entry (notRegistered cl) gvaRankId c)
                 else mkClasses (add_entry (registered cl) gvaRankId c) (localed cl) (notRegistered cl)));
      ClassifyDataAddr op spaces globalRankId d cl
  end.
Definition no_classes : Classes := mkClasses ∅ ∅ ∅.

Section Batch.
(** [order]: the order in which the unordered maps are iterated. *)
Context (order : gmap Z CopyDescriptor → list (Z * CopyDescriptor)).
Definition put_params (c : CopyItem) : hybm_copy_params := mkParams (localAddr c) (globalAddr c) (count c).
Definition get_params (c : CopyItem) : hybm_copy_params := mkParams (globalAddr c) (localAddr c) (count c).
Definition with_src (o : ExtOptions) (r : Z) : ExtOptions := mkOptions r (destRankId o) (stream o).
Definition with_dest (o : ExtOptions) (r : Z) : ExtOptions := mkOptions (srcRankId o) r (stream o).

(** Start the transfers of the registered groups, rank by rank. *)
Definition post_groups (op : DataOpDeviceRDMA) (f : Z → CopyItem → Call) (groups : list (Z * CopyDescriptor)) : prog Z :=
  submit (λ x, submit (λ c, tcall op (f x.1 c)) x.2) groups.
Definition wait_groups (op : DataOpDeviceRDMA) (groups : list (Z * CopyDescriptor)) : prog Z :=
  submit (λ x, tcall op (Synchronize x.1)) groups.
Definition write_direct (rank : Z) (c : CopyItem) : Call := WriteRemoteAsync rank (localAddr c) (globalAddr c) (count c).
Definition read_direct (rank : Z) (c : CopyItem) : Call := ReadRemoteAsync rank (localAddr c) (globalAddr c) (count c).

(** The registered groups are started first and waited for last. *)
Definition copy_classes (op : DataOpDeviceRDMA) (async : Z → CopyItem → Call) (local : Z → CopyDescriptor → prog Z)
    (dflt : DataOpDeviceRDMA → Z → CopyDescriptor → prog (DataOpDeviceRDMA * Z)) (cl : Classes) : prog (DataOpDeviceRDMA * Z) :=
  ret ← post_groups op async (order (registered cl));
  if negb (ret =? BM_OK) then Ret (op, ret) else
  ret ← submit (λ x, local x.1 x.2) (order (localed cl));
  if negb (ret =? BM_OK) then Ret (op, ret) else
  '(op, ret) ← each_rank (λ op x, dflt op x.1 x.2) op (order (notRegistered cl)) BM_OK;
  if negb (ret =? BM_OK) then Ret (op, ret) else
  keep_op op (wait_groups op (order (registered cl))).

Definition BatchCopyWrite (op : DataOpDeviceRDMA) (spaces : list GvaSpace) (jobs : list hybm_copy_params) (options : ExtOptions)
    (direction : hybm_data_copy_direction) : prog (DataOpDeviceRDMA * Z) :=
  cl ← ClassifyDataAddr op spaces (destRankId options) (local_global <$> jobs) no_classes;
  copy_classes op write_direct
    (λ r l, BatchDataCopyLocal (put_params <$> l) direction (with_dest options r))
    (λ op r l, BatchDataCopyDefault op (put_params <$> l) direction (with_dest options r)) cl.

(** The options are one object: the registered groups leave their rank as the
    source, the local ones theirs as the destination of the groups behind them. *)
Definition BatchCopyRead (op : DataOpDeviceRDMA) (spaces : list GvaSpace) (jobs : list hybm_copy_params) (options : ExtOptions)
    (direction : hybm_data_copy_direction) : prog (DataOpDeviceRDMA * Z) :=
  cl ← ClassifyDataAddr op spaces (srcRankId options) (global_local <$> jobs) no_classes;
  let options1 := foldl (λ o x, with_src o x.1) options (order (registered cl)) in
  let options2 := foldl (λ o x, with_dest o x.1) options1 (order (localed cl)) in
  copy_classes op read_direct
    (λ r l, BatchDataCopyLocal (get_params <$> l) direction (with_dest options1 r))
    (λ op r l, BatchDataCopyDefault op (get_params <$> l) direction (with_src options2 r)) cl.

(** Both ends global: each entry by the owners of its two addresses. *)
Definition g2g_entry (op : DataOpDeviceRDMA) (spaces : list GvaSpace) (direction : hybm_data_copy_direction) (st : Z)
    (j : hybm_copy_params) (asyncWriteRanks : gset Z) : prog (DataOpDeviceRDMA * gset Z * Z) :=
  let srcRankId := GetRankIdByGva spaces (src j) in
  let dstRankId := GetRankIdByGva spaces (dest j) in
  if (srcRankId =? rankId_ op) && (dstRankId =? rankId_ op) then
    '(op, ret) ← DataCopy op j direction (mkOptions srcRankId dstRankId st); Ret (op, asyncWriteRanks, ret)
  else if srcRankId =? rankId_ op then
    ret ← tcall op (WriteRemoteAsync dstRankId (src j) (dest j) (dataSize j));
    Ret (op, if ret =? BM_OK then {[dstRankId]} ∪ asyncWriteRanks else asyncWriteRanks, ret)
  else if dstRankId =? rankId_ op then
    ret ← tcall op (ReadRemoteAsync srcRankId (dest j) (src j) (dataSize j));
    Ret (op, if ret =? BM_OK then {[srcRankId]} ∪ asyncWriteRanks else asyncWriteRanks, ret)
  else Ret (op, asyncWriteRanks, BM_ERROR).
Fixpoint g2g_loop (op : DataOpDeviceRDMA) (spaces : list GvaSpace) (direction : hybm_data_copy_direction) (st : Z)
    (jobs : list hybm_copy_params) (asyncWriteRanks : gset Z) : prog (DataOpDeviceRDMA * gset Z * Z) :=
  match jobs with
  | [] => Ret (op, asyncWriteRanks, BM_OK)
  | j :: jobs =>
      '(op, asyncWriteRanks, ret) ← g2g_entry op spaces direction st j asyncWriteRanks;
      if negb (ret =? BM_OK) then Ret (op, asyncWriteRanks, ret) else
      g2g_loop op spaces direction st jobs asyncWriteRanks
  end.
(** An ordered set is iterated from its least element. *)
Definition set_order (s : gset Z) : list Z := merge_sort Z.le (elements s).
Definition BatchCopyG2G (op : DataOpDeviceRDMA) (spaces : list GvaSpace) (jobs : list hybm_copy_params) (options : ExtOptions)
    (direction : hybm_data_copy_direction) : prog (DataOpDeviceRDMA * Z) :=
  '(op, asyncWriteRanks, ret) ← g2g_loop op spaces direction (stream options) jobs ∅;
  if negb (ret =? BM_OK) then Ret (op, ret) else
  keep_op op (submit (λ r, tcall op (Synchronize r)) (set_order asyncWriteRanks)).

Definition BatchDataCopy (op : DataOpDeviceRDMA) (spaces : list GvaSpace) (jobs : list hybm_copy_params)
    (direction : hybm_data_copy_direction) (options : ExtOptions) : prog (DataOpDeviceRDMA * Z) :=
  match direction with
  | HYBM_LOCAL_HOST_TO_GLOBAL_HOST | HYBM_LOCAL_HOST_TO_GLOBAL_DEVICE
  | HYBM_LOCAL_DEVICE_TO_GLOBAL_HOST | HYBM_LOCAL_DEVICE_TO_GLOBAL_DEVICE => BatchCopyWrite op spaces jobs options direction
  | HYBM_GLOBAL_HOST_TO_GLOBAL_HOST | HYBM_GLOBAL_HOST_TO_GLOBAL_DEVICE
  | HYBM_GLOBAL_DEVICE_TO_GLOBAL_HOST | HYBM_GLOBAL_DEVICE_TO_GLOBAL_DEVICE => BatchCopyG2G op spaces jobs options direction
  | HYBM_GLOBAL_HOST_TO_LOCAL_HOST | HYBM_GLOBAL_HOST_TO_LOCAL_DEVICE
  | HYBM_GLOBAL_DEVICE_TO_LOCAL_HOST | HYBM_GLOBAL_DEVICE_TO_LOCAL_DEVICE => BatchCopyRead op spaces jobs options direction
  | _ => Ret (op, BM_ERROR)
  end.
End Batch.
