(* ===== verification/DeviceDataOpSpec.v ===== *)
(** * Copies over device RDMA: the theorems

    A copy of the device RDMA operator that reports success has copied exactly its
    bytes, in each of the twelve directions and in batches, where transfers to
    several ranks, local copies and copies through the swap space are under way at
    the same time; with what the operator leaves behind when it fails. *)
From Stdlib Require Import Strings.Byte.
From stdpp Require Import base numbers list gmap relations sorting.
From S2P Require Import Prelude RangePool RangePoolSpec VaManager Fabric HostDataOp HostDataOpSpec DeviceDataOp.
Local Open Scope Z_scope.
Local Open Scope mf_scope.

(** ** What a program writes

    Beside the outcome of a program, the places its calls write: copies under way
    elsewhere are not disturbed. *)
Definition writes_in (me : Z) (Z' : Loc → Prop) (c : Call) : Prop :=
  c ≠ Undefined ∧ match effect me c with ECopy _ ms | EStop ms => ∀ d s, (d, s) ∈ ms → Z' d | _ => True end.

Lemma keeps_following {A} me (Z' : Loc → Prop) (R : A → Prop) (q : prog A) m0 plan t w :
  asks (writes_in me Z') R q → orderly plan Z' → following m0 plan t Z' w →
  wp fabric_ok (fabric_step me) q w (λ a w', R a ∧ following m0 plan t Z' w').
Proof.
  intros Hq Ho. revert w. induction q as [a|c k IH]; intros w Hf; [done|]. destruct Hq as [[Hc Hw] Hk]. split; [done|].
  intros w' o Hs. apply IH; [done|]. unfold fabric_step in Hs. destruct (effect me c) as [t' ms|ms|t'|].
  - by eapply follow_copies.
  - apply stops_copies in Hs. by eapply follow_copies.
  - by eapply follow_waits.
  - by eapply adv_following.
Qed.
Lemma asks_call me (Z' : Loc → Prop) R c : writes_in me Z' c → (∀ o, R o) → asks (writes_in me Z') R (call c).
Proof. done. Qed.
Lemma asks_widen {A} me (Z1 Z2 : Loc → Prop) (R : A → Prop) (q : prog A) :
  (∀ l, Z1 l → Z2 l) → asks (writes_in me Z1) R q → asks (writes_in me Z2) R q.
Proof.
  intros HZ Hq. eapply asks_mono; [exact Hq| |done]. intros c [Hc Hw]. split; [done|]. destruct (effect me c); eauto.
Qed.
Lemma asks_submit {A} me (Z' : Loc → Prop) (f : A → prog Z) l :
  (∀ a, a ∈ l → calls (writes_in me Z') (f a)) → calls (writes_in me Z') (submit f l).
Proof.
  induction l as [|a l IH]; intros Hf; [done|]. cbn [submit]. apply calls_seq; [by apply Hf; left|]. intros r.
  destruct (negb _); [done|]. apply IH. intros b Hb. apply Hf. by right.
Qed.

(** ** Programs over the operator *)
Abbreviation swapSize := RDMA_SWAP_SPACE_SIZE.

(** Local memory is at the caller's rank. *)
Definition from_local (d : hybm_data_copy_direction) : bool :=
  match d with
  | HYBM_LOCAL_HOST_TO_GLOBAL_HOST | HYBM_LOCAL_HOST_TO_GLOBAL_DEVICE
  | HYBM_LOCAL_DEVICE_TO_GLOBAL_HOST | HYBM_LOCAL_DEVICE_TO_GLOBAL_DEVICE => true
  | _ => false
  end.
Definition to_local (d : hybm_data_copy_direction) : bool :=
  match d with
  | HYBM_GLOBAL_HOST_TO_LOCAL_HOST | HYBM_GLOBAL_HOST_TO_LOCAL_DEVICE
  | HYBM_GLOBAL_DEVICE_TO_LOCAL_HOST | HYBM_GLOBAL_DEVICE_TO_LOCAL_DEVICE => true
  | _ => false
  end.
Definition both_global (d : hybm_data_copy_direction) : bool :=
  match d with
  | HYBM_GLOBAL_HOST_TO_GLOBAL_HOST | HYBM_GLOBAL_HOST_TO_GLOBAL_DEVICE
  | HYBM_GLOBAL_DEVICE_TO_GLOBAL_HOST | HYBM_GLOBAL_DEVICE_TO_GLOBAL_DEVICE => true
  | _ => false
  end.
Definition known (d : hybm_data_copy_direction) : bool := from_local d || to_local d || both_global d.
Definition rank_from (op : DataOpDeviceRDMA) (d : hybm_data_copy_direction) (o : ExtOptions) : Z :=
  if from_local d then rankId_ op else srcRankId o.
Definition rank_to (op : DataOpDeviceRDMA) (d : hybm_data_copy_direction) (o : ExtOptions) : Z :=
  if to_local d then rankId_ op else destRankId o.
Definition copy_plan (op : DataOpDeviceRDMA) (d : hybm_data_copy_direction) (o : ExtOptions) (j : hybm_copy_params) : list Move :=
  moves (rank_to op d o, dest j) (rank_from op d o, src j) (dataSize j).
(** One of the ranks named is the caller's. *)
Definition involved (op : DataOpDeviceRDMA) (o : ExtOptions) : Prop := srcRankId o = rankId_ op ∨ destRankId o = rankId_ op.

Section Ops.
Context (op : DataOpDeviceRDMA) (p : RbtreeRangePool) (live : gmap Z Z).
Context (X Y : Loc → Prop) (E : Prop).
Abbreviation me := (rankId_ op).
Abbreviation swap := (swap_of me p).
Abbreviation wp_ q w Q := (wp fabric_ok (fabric_step me) q w Q).
Context (Hpool : rdmaSwapMemoryAllocator_ op = Some p) (Hinv : pool_inv p live).
Context (Htrans : transportManager_ op = true).
Context (HXY : ∀ l, X l → Y l) (HSY : ∀ l, swap l → Y l) (HSX : ∀ l, swap l → ¬ X l).
Context (Hroom : ∀ n, 0 < n ≤ swapSize → pool_CanAllocate p n = false → E).
Abbreviation does_ := (does me X Y E).
Abbreviation does_op_ := (does_op op X Y E).

Lemma swap_size : 0 < swapSize ≤ 2 ^ 32.
Proof. done. Qed.

(** Another error code for a failed call. *)
Lemma does_recode S ms q e : e ≠ 0 → does_ S ms q → does_ S ms (ret ← q; Ret (if negb (ret =? BM_OK) then e else BM_OK)).
Proof.
  intros He Hq w Hs. apply wp_seq. eapply wp_mono; [by apply Hq|]. intros r w' (H1 & H2 & H3). cbn. unfold BM_OK.
  destruct (Z.eqb_spec r 0) as [-> |Hr]; cbn [negb]; split_and!; try done. intros _. by apply H3.
Qed.
Lemma copy_local_does kind s d n : orderly (moves (me, d) (me, s) n) X → inside Y (moves (me, d) (me, s) n) →
  does_ none (moves (me, d) (me, s) n) (copy_local kind s d n).
Proof. intros Ho Hi. by apply does_recode, does_now. Qed.
Lemma CopyRDMA_put r s d n o : srcRankId o = me → destRankId o = r → orderly (moves (r, d) (me, s) n) X → inside Y (moves (r, d) (me, s) n) →
  does_ none (moves (r, d) (me, s) n) (CopyRDMA op s d n o).
Proof.
  intros Hs <- Ho Hi. unfold CopyRDMA, tcall. rewrite Hs, Z.eqb_refl, Htrans. by apply does_now.
Qed.
Lemma CopyRDMA_get r s d n o : r ≠ me → srcRankId o = r → destRankId o = me → orderly (moves (me, d) (r, s) n) X → inside Y (moves (me, d) (r, s) n) →
  does_ none (moves (me, d) (r, s) n) (CopyRDMA op s d n o).
Proof.
  intros Hr Hs Hd Ho Hi. unfold CopyRDMA, tcall. apply Z.eqb_neq in Hr. rewrite Hs, Hr, Hd, Z.eqb_refl, Htrans. by apply does_now.
Qed.

(** *** Through the swap space *)
Lemma dev_put_chunk_does r s d n o host tmp : srcRankId o = me → destRankId o = r →
  orderly (moves (r, d) (me, s) n) (either X swap) → inside Y (moves (r, d) (me, s) n) →
  baseAddress p ≤ tmp → tmp + n ≤ baseAddress p + totalSize p →
  does_ swap (moves (r, d) (me, s) n) (put_chunk op o host s d n tmp).
Proof.
  intros Hs Hd Ho Hi H1 H2. pose proof (moves_relays op p (r, d) (me, s) n tmp H1 H2) as Hr.
  destruct (relays_orderly swapSize _ _ _ swap_size HSX _ _ _ Hr Ho). destruct (relays_inside _ _ _ HSY _ _ _ Hr Hi).
  apply (relay_does _ _ _ _ _ _ _ _ _ _ Hr); [destruct host; by apply copy_local_does|by apply CopyRDMA_put].
Qed.
Lemma dev_get_chunk_does r s d n o host tmp : r ≠ me → srcRankId o = r → destRankId o = me →
  orderly (moves (me, d) (r, s) n) (either X swap) → inside Y (moves (me, d) (r, s) n) →
  baseAddress p ≤ tmp → tmp + n ≤ baseAddress p + totalSize p →
  does_ swap (moves (me, d) (r, s) n) (get_chunk op o host s d n tmp).
Proof.
  intros Hne Hs Hd Ho Hi H1 H2. pose proof (moves_relays op p (me, d) (r, s) n tmp H1 H2) as Hr.
  destruct (relays_orderly swapSize _ _ _ swap_size HSX _ _ _ Hr Ho). destruct (relays_inside _ _ _ HSY _ _ _ Hr Hi).
  apply (relay_does _ _ _ _ _ _ _ _ _ _ Hr); [by apply CopyRDMA_get|destruct host; by apply copy_local_does].
Qed.
Lemma dev_SafePut_does s d n o host : srcRankId o = me → 0 ≤ n → fits s n → fits d n →
  orderly (moves (destRankId o, d) (me, s) n) (either X swap) → inside Y (moves (destRankId o, d) (me, s) n) →
  does_op_ swap (moves (destRankId o, d) (me, s) n) (SafePut op s d n o host).
Proof.
  intros Hs Hn Hfs Hfd Ho Hi.
  pose proof (chunk_loop_does swapSize op p live X Y E swap_size Hpool Hinv Htrans HXY HSY HSX Hroom (put_chunk op o host) (destRankId o) me s d
    (chunk_fuel swapSize n) n 0) as H. rewrite !Z.add_0_r in H. apply H; try done; [|by apply chunk_fuel_enough].
  intros. by apply dev_put_chunk_does.
Qed.
Lemma dev_SafeGet_does s d n o host : srcRankId o ≠ me → destRankId o = me → 0 ≤ n → fits s n → fits d n →
  orderly (moves (me, d) (srcRankId o, s) n) (either X swap) → inside Y (moves (me, d) (srcRankId o, s) n) →
  does_op_ swap (moves (me, d) (srcRankId o, s) n) (SafeGet op s d n o host).
Proof.
  intros Hs Hd Hn Hfs Hfd Ho Hi.
  pose proof (chunk_loop_does swapSize op p live X Y E swap_size Hpool Hinv Htrans HXY HSY HSX Hroom (get_chunk op o host) me (srcRankId o) s d
    (chunk_fuel swapSize n) n 0) as H. rewrite !Z.add_0_r in H. apply H; try done; [|by apply chunk_fuel_enough].
  intros. by apply dev_get_chunk_does.
Qed.

(** *** One copy *)
Lemma scratch_none ms q : does_op_ none ms q → does_op_ swap ms q.
Proof. apply does_op_scratch. by intros l []. Qed.
Lemma kept_local kind s d n : orderly (moves (me, d) (me, s) n) (either X swap) → inside Y (moves (me, d) (me, s) n) →
  does_op_ swap (moves (me, d) (me, s) n) (keep_op op (copy_local kind s d n)).
Proof. intros Ho Hi. apply scratch_none, does_op_ret, copy_local_does; [by eapply orderly_none|done]. Qed.

Definition copy_does (copy : DataOpDeviceRDMA → Z → Z → Z → ExtOptions → prog (DataOpDeviceRDMA * Z)) (to from : ExtOptions → Z) : Prop :=
  ∀ s d n o, involved op o → 0 ≤ n → fits s n → fits d n →
    orderly (moves (to o, d) (from o, s) n) (either X swap) → inside Y (moves (to o, d) (from o, s) n) →
    does_op_ swap (moves (to o, d) (from o, s) n) (copy op s d n o).
Lemma local_to_global_does kind host : copy_does (local_to_global (copy_local kind) host) destRankId (λ _, me).
Proof.
  intros s d n o Hin Hn Hs Hd Ho Hi. unfold local_to_global. destruct (Z.eqb_spec (destRankId o) me) as [Em|Em].
  - rewrite Em in *. by apply kept_local.
  - destruct Hin as [Hin|?]; [|done]. by apply dev_SafePut_does.
Qed.
Lemma global_to_host_does kind : copy_does (global_to_host (copy_local kind)) (λ _, me) srcRankId.
Proof.
  intros s d n o Hin Hn Hs Hd Ho Hi. unfold global_to_host. destruct (Z.eqb_spec (srcRankId o) me) as [Em|Em].
  - rewrite Em in *. by apply kept_local.
  - destruct Hin as [?|Hin]; [done|]. by apply dev_SafeGet_does.
Qed.
Lemma global_to_global_does kind : copy_does (global_to_global (copy_local kind)) destRankId srcRankId.
Proof.
  intros s d n o Hin Hn Hs Hd Ho Hi. apply scratch_none, does_op_ret. apply orderly_none in Ho.
  destruct (Z.eqb_spec (srcRankId o) me) as [Es|Es], (Z.eqb_spec (destRankId o) me) as [Ed|Ed]; cbn [andb].
  - rewrite Es, Ed in *. by apply copy_local_does.
  - rewrite Es in Ho, Hi |- *. by apply CopyRDMA_put.
  - rewrite Ed in Ho, Hi |- *. by apply CopyRDMA_get.
  - by destruct Hin.
Qed.
Lemma global_to_device_does kind : copy_does (global_to_device (copy_local kind)) (λ _, me) srcRankId.
Proof.
  intros s d n o Hin Hn Hs Hd Ho Hi. unfold global_to_device, tcall. rewrite Htrans. destruct (Z.eqb_spec (srcRankId o) me) as [Em|Em].
  { rewrite Em in *. by apply kept_local. }
  destruct Hin as [?|Hin]; [done|]. intros w Hst. apply wp_seq, wp_pass; [done..|]. intros w1 r A1.
  assert (does_op_ swap (moves (me, d) (srcRankId o, s) n)
    (if negb (r =? 0) then keep_op op (CopyRDMA op s d n o) else SafeGet op s d n o false)) as Hq.
  { destruct (negb _); [|by apply dev_SafeGet_does]. apply scratch_none, does_op_ret, CopyRDMA_get; [done..|by eapply orderly_none|done]. }
  assert (still (mem w) X w1) as Hs1 by by eapply still_adv.
  eapply wp_mono; [apply Hq; by eapply still_self|]. intros x w2 [Ex Hout]. split; [done|].
  eapply outcome_before; [exact HXY|by eapply orderly_none|exact Hs1|done].
Qed.
Lemma DataCopy_does j d o : known d = true → involved op o → job_fits j →
  orderly (copy_plan op d o j) (either X swap) → inside Y (copy_plan op d o j) →
  does_op_ swap (copy_plan op d o j) (DataCopy op j d o).
Proof.
  intros Hk Hin (Hn & Hs & Hd) Ho Hi. unfold copy_plan, rank_to, rank_from in *.
  destruct d; try discriminate Hk; cbn in Ho, Hi |- *;
    by apply local_to_global_does || apply global_to_global_does || apply global_to_host_does || apply global_to_device_does.
Qed.

(** *** What one copy writes *)
Section Writes.
Context (W : Loc → Prop) (HSW : ∀ l, swap l → W l).
Abbreviation writes := (writes_in me W).
Abbreviation same := (λ x : DataOpDeviceRDMA * Z, x.1 = op).
Lemma with_swap_asks n body : 0 < n ≤ 2 ^ 32 →
  (∀ tmp, baseAddress p ≤ tmp → tmp + n ≤ baseAddress p + totalSize p → calls writes (body tmp)) →
  asks writes same (with_swap op n body).
Proof.
  intros Hn Hbody. unfold with_swap. rewrite Hpool.
  assert (valid_size n) as Hv by (unfold valid_size, max_request; lia).
  destruct (swap_piece p live n Hinv Hv) as [[Hc ->]|(p' & a & -> & Hlo & Hhi & Ha & Hd)]; cbn [startAddress emptyElement].
  - cbn. apply (set_same_pool op p X Y Hpool Htrans HSY HSX).
  - destruct (Z.eqb_spec a nullptr) as [-> |_]; [done|]. rewrite Hd. apply asks_seq. eapply asks_mono; [by apply Hbody|done|].
    intros r _. cbn. apply (set_same_pool op p X Y Hpool Htrans HSY HSX).
Qed.
Lemma chunk_loop_asks (chunk : Z → Z → Z → Z → prog Z) rd rs s d fuel n off ret :
  (∀ s d n tmp, inside W (moves (rd, d) (rs, s) n) → baseAddress p ≤ tmp → tmp + n ≤ baseAddress p + totalSize p →
     calls writes (chunk s d n tmp)) →
  0 ≤ n < Z.of_nat fuel * swapSize ∨ n = 0 → 0 ≤ off → fits s (off + n) → fits d (off + n) →
  inside W (moves (rd, d + off) (rs, s + off) n) → asks writes same (chunk_loop swapSize fuel chunk op s d n off ret).
Proof.
  intros Hchunk. revert n off ret. pose proof swap_size. revert H. generalize swapSize. intros size Hsize.
  induction fuel as [|fuel IH]; intros n off ret Hn Hoff Hs Hd Hi; cbn [chunk_loop].
  all: destruct (Z.leb_spec n 0) as [H0|H0]; [done|].
  { lia. }
  destruct Hn as [Hn|?]; [|lia].
  assert (0 < Z.min n size ≤ n ∧ Z.min n size ≤ size ∧ (Z.min n size = n ∨ Z.min n size = size)) as Hk by lia.
  revert Hk. generalize (Z.min n size). intros k Hk. unfold fits in *.
  rewrite (u64_small (s + off)), (u64_small (d + off)), (u64_small (n - k)), (u64_small (off + k)) by lia.
  rewrite (moves_split _ _ n k) in Hi by lia. cbn [fst snd] in Hi. apply inside_app in Hi as [Hi1 Hi2].
  rewrite <- !Z.add_assoc in Hi2. apply asks_seq. eapply asks_mono; [apply with_swap_asks; [lia|]|done|].
  - intros tmp H1 H2. by apply Hchunk.
  - intros [o r] Eo. cbn in Eo. subst o. destruct (negb _); [done|].
    apply IH; [|lia|lia|lia|done]. destruct (decide (n - k = 0)); [by right|left]. lia.
Qed.
Lemma calls_copy c ms : effect me c = ECopy TNow ms → inside W ms → calls writes (call c).
Proof. intros He Hi. split; [|done]. split; [by intros -> |]. by rewrite He. Qed.
Lemma copy_local_asks kind s d n : inside W (moves (me, d) (me, s) n) → calls writes (copy_local kind s d n).
Proof. intros Hi. apply calls_seq; [by eapply calls_copy|done]. Qed.
Lemma CopyRDMA_asks s d n o : involved op o → inside W (moves (destRankId o, d) (srcRankId o, s) n) → calls writes (CopyRDMA op s d n o).
Proof.
  intros Hin Hi. unfold CopyRDMA, tcall. rewrite Htrans. destruct (Z.eqb_spec (srcRankId o) me) as [Es|_].
  - rewrite Es in Hi. by eapply calls_copy.
  - destruct (Z.eqb_spec (destRankId o) me) as [Ed|_]; [|done]. rewrite Ed in Hi. by eapply calls_copy.
Qed.
Lemma SafePut_asks s d n o host : srcRankId o = me → 0 ≤ n → fits s n → fits d n →
  inside W (moves (destRankId o, d) (me, s) n) → asks writes same (SafePut op s d n o host).
Proof.
  intros Hs Hn Hfs Hfd Hi.
  pose proof (chunk_loop_asks (put_chunk op o host) (destRankId o) me s d (chunk_fuel swapSize n) n 0 0) as H.
  rewrite !Z.add_0_r in H. apply H; try done; [|by apply chunk_fuel_enough]. clear s d n Hn Hfs Hfd Hi H.
  intros s d n tmp Hi H1 H2. destruct (relays_inside op p W HSW _ _ _ (moves_relays op p _ _ _ tmp H1 H2) Hi) as [I1 I2].
  apply calls_seq; [destruct host; by apply copy_local_asks|]. intros r. destruct (negb _); [done|].
  apply CopyRDMA_asks; [by left|]. by rewrite Hs.
Qed.
Lemma SafeGet_asks s d n o host : destRankId o = me → 0 ≤ n → fits s n → fits d n →
  inside W (moves (me, d) (srcRankId o, s) n) → asks writes same (SafeGet op s d n o host).
Proof.
  intros Hs Hn Hfs Hfd Hi.
  pose proof (chunk_loop_asks (get_chunk op o host) me (srcRankId o) s d (chunk_fuel swapSize n) n 0 0) as H.
  rewrite !Z.add_0_r in H. apply H; try done; [|by apply chunk_fuel_enough]. clear s d n Hn Hfs Hfd Hi H.
  intros s d n tmp Hi H1 H2. destruct (relays_inside op p W HSW _ _ _ (moves_relays op p _ _ _ tmp H1 H2) Hi) as [I1 I2].
  apply calls_seq; [apply CopyRDMA_asks; [by right|by rewrite Hs]|]. intros r. destruct (negb _); [done|].
  destruct host; by apply copy_local_asks.
Qed.
Lemma keep_asks q : calls writes q → asks writes same (keep_op op q).
Proof. intros Hq. apply asks_seq. by eapply asks_mono. Qed.
Lemma DataCopy_asks j d o : known d = true → involved op o → job_fits j → inside W (copy_plan op d o j) →
  asks writes same (DataCopy op j d o).
Proof.
  intros Hk Hin (Hn & Hs & Hd) Hi.
  assert (∀ kind host, inside W (moves (destRankId o, dest j) (me, src j) (dataSize j)) →
    asks writes same (local_to_global (copy_local kind) host op (src j) (dest j) (dataSize j) o)) as H1.
  { intros kind host Hw. unfold local_to_global. destruct (Z.eqb_spec (destRankId o) me) as [Em|Em].
    - rewrite Em in Hw. by apply keep_asks, copy_local_asks.
    - destruct Hin as [?|?]; [|done]. by apply SafePut_asks. }
  assert (∀ kind, inside W (moves (me, dest j) (srcRankId o, src j) (dataSize j)) →
    asks writes same (global_to_host (copy_local kind) op (src j) (dest j) (dataSize j) o) ∧
    asks writes same (global_to_device (copy_local kind) op (src j) (dest j) (dataSize j) o)) as H2.
  { intros kind Hw. unfold global_to_host, global_to_device, tcall. rewrite Htrans. destruct (Z.eqb_spec (srcRankId o) me) as [Em|Em].
    - rewrite Em in Hw. by split; apply keep_asks, copy_local_asks.
    - destruct Hin as [?|Hin]; [done|]. split; [by apply SafeGet_asks|]. split; [done|]. intros r. cbn. destruct (negb _).
      + apply keep_asks, CopyRDMA_asks; [by right|]. by rewrite Hin.
      + by apply SafeGet_asks. }
  assert (∀ kind, inside W (moves (destRankId o, dest j) (srcRankId o, src j) (dataSize j)) →
    asks writes same (global_to_global (copy_local kind) op (src j) (dest j) (dataSize j) o)) as H3.
  { intros kind Hw. apply keep_asks. destruct (Z.eqb_spec (srcRankId o) me) as [Es|Es]; [|by apply CopyRDMA_asks].
    destruct (Z.eqb_spec (destRankId o) me) as [Ed|Ed]; [|by apply CopyRDMA_asks]. rewrite Es, Ed in Hw. by apply copy_local_asks. }
  unfold copy_plan, rank_to, rank_from in Hi. destruct d; try discriminate Hk; cbn in Hi |- *; by apply H1 || apply H3 || apply H2.
Qed.
End Writes.

(** *** Batches at the caller's rank *)
Lemma orderly_part ms part : orderly ms X → part ⊆ ms → ∃ part', (∀ mv, mv ∈ part ↔ mv ∈ part') ∧ orderly part' X.
Proof.
  intros Ho Hp. exists (filter (λ mv, mv ∈ part) ms). split; [intros mv; rewrite list_elem_of_filter; naive_solver|]. split.
  - eapply sublist_NoDup; [apply (or_nodup _ _ Ho)|]. apply fmap_sublist, sublist_filter.
  - intros d s [_ Hin]%list_elem_of_filter (mv & -> & [_ Hin']%list_elem_of_filter)%list_elem_of_fmap.
    apply (or_src _ _ Ho d _ Hin), list_elem_of_fmap. by exists mv.
  - intros d s [_ Hin]%list_elem_of_filter. apply (or_X _ _ Ho d s Hin).
Qed.
(** A copy that is tried again when a first attempt, all over, has failed. *)
Lemma does_retry S c ms q : effect me c = EStop ms → orderly ms X → inside Y ms → does_ S ms q →
  does_ S ms (ret ← call c; if negb (ret =? 0) then q else Ret ret).
Proof.
  intros He Ho Hi Hq w Hs. apply wp_seq, wp_call; [by intros -> |]. intros w1 r Hst. unfold fabric_step in Hst. rewrite He in Hst.
  assert (still (mem w) Y w1) as HY1 by (eapply still_copies; [by apply (still_wide X Y)|exact Hi|by apply stops_copies]).
  destruct Hst as [[-> Hc]|[Hr (part & w2 & Hp & Hc & ->)]].
  - destruct (now_copy _ _ _ _ _ Hs Ho Hc) as (Hm & Hf & Hst). split_and!; [done| |done]. intros _. split; [done| |done].
    intros l Hl _. by apply Hf.
  - apply Z.eqb_neq in Hr. rewrite Hr. cbn [negb]. destruct (orderly_part ms part Ho Hp) as (part' & Hsame & Ho').
    assert (copy_ok TNow part' w w2) as Hc'.
    { apply copy_ok_sent in Hc as [Hc Hquiet]. apply copy_ok_sent. split; [by eapply sent_same|done]. }
    destruct (now_copy _ _ _ _ _ Hs Ho' Hc') as (Hm & Hf & Hst).
    assert (∀ l, l ∈ part'.*1 → l ∈ ms.*1) as Hsub.
    { intros l ([d s] & -> & Hin)%list_elem_of_fmap. apply list_elem_of_fmap. exists (d, s). split; [done|]. by apply Hp, Hsame. }
    eapply wp_mono; [apply Hq; by apply still_fail|]. intros r' w3 (G1 & G2 & G3). split_and!; [by eapply still_trans| |done].
    intros Hr'. destruct (G2 Hr') as [D1 D2 D3]. split; [| |done].
    + intros d s Hd. rewrite (D1 d s Hd). cbn. apply Hf; [apply (or_X _ _ Ho d s Hd)|]. intros Hin%Hsub. by apply (or_src _ _ Ho d s Hd).
    + intros l HX HS Hn. rewrite D2 by done. cbn. apply Hf; [done|]. by intros ?%Hsub.
Qed.
Lemma BatchDataCopyLocal_does jobs d o : known d = true → orderly (jobs ≫= job_moves me me) X → inside Y (jobs ≫= job_moves me me) →
  does_ none (jobs ≫= job_moves me me) (BatchDataCopyLocal jobs d o).
Proof.
  intros Hk Ho Hi. assert (∀ kind, does_ none (jobs ≫= job_moves me me) (BatchDataCopyLocalAsync kind jobs o)) as Ha
    by (intros kind; by apply (copy_on_stream_does op X Y E HXY kind jobs o)).
  assert (∀ kind, does_ none (jobs ≫= job_moves me me) (BatchDataCopyLocalSync kind jobs)) as Hsync.
  { intros kind. apply does_recode; [done|]. apply does_submit; [done|eapply orderly_less; [done|]; by intros l [?|[]]|]. intros j Hj.
    apply does_now; [done|done| |].
    - apply list_elem_of_split in Hj as (l1 & l2 & ->). rewrite bind_app, bind_cons in Ho. by eapply orderly_app_l, orderly_app_r.
    - intros x y Hx. apply (Hi x y), list_elem_of_bind. eauto. }
  assert (∀ kind, does_ none (jobs ≫= job_moves me me) (BatchDataCopyLocalBatch kind jobs o)) as Hb by (intros kind; by apply does_retry).
  destruct d; try discriminate Hk; cbn [BatchDataCopyLocal]; auto.
Qed.
Lemma BatchDataCopyLocal_asks (W : Loc → Prop) jobs d o : inside W (jobs ≫= job_moves me me) →
  calls (writes_in me W) (BatchDataCopyLocal jobs d o).
Proof.
  intros Hi. assert (∀ j, j ∈ jobs → inside W (job_moves me me j)) as Hj.
  { intros j Hj x y Hx. apply (Hi x y), list_elem_of_bind. eauto. }
  assert (∀ kind, calls (writes_in me W) (BatchDataCopyLocalAsync kind jobs o)) as Ha.
  { intros kind. apply calls_seq; [by destruct (stream o =? nullptr)|]. intros st. apply calls_seq.
    - apply asks_submit. intros j Hin. split; [|done]. split; [done|]. by apply Hj.
    - intros r. by destruct (negb _). }
  assert (∀ kind, calls (writes_in me W) (BatchDataCopyLocalSync kind jobs)) as Hs.
  { intros kind. apply calls_seq; [|done]. apply asks_submit. intros j Hin. split; [|done]. split; [done|]. by apply Hj. }
  assert (∀ kind, calls (writes_in me W) (BatchDataCopyLocalBatch kind jobs o)) as Hb.
  { intros kind. apply calls_seq; [|intros r; by destruct (negb _)]. split; [|done]. split; [done|]. exact Hi. }
  destruct d; cbn [BatchDataCopyLocal]; done || auto.
Qed.

(** *** One entry after another *)
Lemma each_rank_asks {A} (W : Loc → Prop) (f : DataOpDeviceRDMA → A → prog (DataOpDeviceRDMA * Z)) l ret :
  (∀ a, a ∈ l → asks (writes_in me W) (λ x, x.1 = op) (f op a)) → asks (writes_in me W) (λ x, x.1 = op) (each_rank f op l ret).
Proof.
  revert ret. induction l as [|a l IH]; intros ret Hf; [done|]. cbn [each_rank]. apply asks_seq.
  eapply asks_mono; [by apply Hf; left|done|]. intros [o r] Eo. cbn in Eo. subst o. destruct (negb _); [done|].
  apply IH. intros b Hb. apply Hf. by right.
Qed.
Definition group_plan (d : hybm_data_copy_direction) (o : ExtOptions) (jobs : list hybm_copy_params) : list Move :=
  jobs ≫= copy_plan op d o.
Lemma group_part d o jobs j : j ∈ jobs → orderly (group_plan d o jobs) (either X swap) → inside Y (group_plan d o jobs) →
  orderly (copy_plan op d o j) (either X swap) ∧ inside Y (copy_plan op d o j).
Proof. intros Hj Ho Hi. by apply (one_of_bind op p X Y (copy_plan op d o) jobs j). Qed.
Lemma BatchDataCopyDefault_does d o jobs : known d = true → involved op o → jobs ≠ [] → Forall job_fits jobs →
  orderly (group_plan d o jobs) (either X swap) → inside Y (group_plan d o jobs) →
  does_op_ swap (group_plan d o jobs) (BatchDataCopyDefault op jobs d o).
Proof.
  intros Hk Hin Hne Hf Ho Hi. unfold BatchDataCopyDefault. destruct jobs as [|j0 jobs]; [done|]. clear Hne.
  apply each_rank_does; [done..|]. intros j Hj. rewrite Forall_forall in Hf. destruct (group_part _ _ _ _ Hj Ho Hi).
  apply DataCopy_does; auto.
Qed.
Lemma BatchDataCopyDefault_asks (W : Loc → Prop) d o jobs : (∀ l, swap l → W l) → known d = true → involved op o → jobs ≠ [] →
  Forall job_fits jobs → inside W (group_plan d o jobs) → asks (writes_in me W) (λ x, x.1 = op) (BatchDataCopyDefault op jobs d o).
Proof.
  intros HW Hk Hin Hne Hf Hi. unfold BatchDataCopyDefault. destruct jobs as [|j0 jobs]; [done|]. clear Hne.
  apply each_rank_asks. intros j Hj. rewrite Forall_forall in Hf. apply DataCopy_asks; auto.
  intros x y Hx. apply (Hi x y), list_elem_of_bind. eauto.
Qed.
End Ops.

(** ** Waiting and failing *)
Section Calls.
Context (me : Z).
Abbreviation wp_ q w Q := (wp fabric_ok (fabric_step me) q w Q).

(** An error is the failure of a call. *)
Definition failing (q : prog Z) : Prop := ∀ w, wp_ q w (λ r w', r ≠ 0 → failed w' = true).
Lemma failing_call c : c ≠ Undefined → effect me c ≠ EPass → failing (call c).
Proof.
  intros Hc He w. split; [done|]. intros w' r Hs Hr. apply Z.eqb_neq in Hr. unfold fabric_step in Hs. revert He Hs.
  destruct (effect me c); intros He Hs; [apply copies_failed in Hs|apply stops_copies, copies_failed in Hs|apply waits_failed in Hs|done];
    rewrite Hs, Hr; by destruct (failed w).
Qed.
Lemma failing_submit {A} (f : A → prog Z) l : (∀ a, a ∈ l → failing (f a)) → failing (submit f l).
Proof.
  induction l as [|a l IH]; intros Hf w; [by intros []|]. cbn [submit]. apply wp_seq. eapply wp_mono; [by apply Hf; left|].
  intros r w' Hr. destruct (negb _); [done|]. apply IH. intros b Hb. apply Hf. by right.
Qed.
Lemma waits_quiet {A} (key : A → Z) l (before : list Z) w : (∀ r, r ∈ before → quiet (TRank r) w) →
  wp_ (submit (λ a, call (Synchronize (key a))) l) w (λ ret w', ret = 0 → ∀ r, r ∈ before ∨ r ∈ (key <$> l) → quiet (TRank r) w').
Proof.
  revert before w. induction l as [|a l IH]; intros before w Hb; cbn [submit].
  { cbn. intros _ r [?|Hr]; [by apply Hb|by apply not_elem_of_nil in Hr]. }
  apply wp_seq. split; [done|]. intros w1 ret (w2 & Ha & [(-> & Hq & ->)|(Hr & ->)]); cbn [wp].
  - change (negb (0 =? BM_OK)) with false. cbv iota. eapply wp_mono; [apply (IH (key a :: before))|].
    + intros r [-> |Hr]%elem_of_cons; [done|]. by eapply quiet_adv, Hb.
    + intros r' w' H Hr' r Hr. apply H; [done|]. rewrite fmap_cons, !elem_of_cons in *. tauto.
  - apply Z.eqb_neq in Hr as Hb'. unfold BM_OK. rewrite Hb'. cbn. by intros ?.
Qed.
Lemma waits_ask {A} (W : Loc → Prop) (key : A → Z) l : calls (writes_in me W) (submit (λ a, call (Synchronize (key a))) l).
Proof. by apply asks_submit. Qed.
End Calls.

(** Parts of a plan have destinations of their own. *)
Lemma bind_apart {A} (g : A → list Move) l x y d : NoDup (l ≫= g).*1 → x ∈ l → y ∈ l → x ≠ y → d ∈ (g y).*1 → d ∉ (g x).*1.
Proof.
  intros Hn Hx Hy Hne Hd Hd'. revert Hx Hy Hn. induction l as [|z l IH]; [by intros ?%not_elem_of_nil|].
  rewrite bind_cons, fmap_app, NoDup_app, !elem_of_cons.
  assert (∀ a, a ∈ l → ∀ e, e ∈ (g a).*1 → e ∈ (l ≫= g).*1) as Hin.
  { intros a Ha e (mv & -> & Hmv)%list_elem_of_fmap. apply list_elem_of_fmap. exists mv. split; [done|]. apply list_elem_of_bind. by exists a. }
  intros [-> |Hx] [-> |Hy] (Hz & Hdis & Hl); [done|by apply (Hdis d Hd'), (Hin y)|by apply (Hdis d Hd), (Hin x)|by apply IH].
Qed.

(** ** Transfers to several ranks while other copies are made

    [regs]: the groups whose transfers are started, each with the rank it is waited
    for by; [rest]: what is copied in the meantime. *)
Section Overlap.
Context (op : DataOpDeviceRDMA) (p : RbtreeRangePool) (X : Loc → Prop).
Abbreviation me := (rankId_ op).
Abbreviation swap := (swap_of me p).
Abbreviation wp_ q w Q := (wp fabric_ok (fabric_step me) q w Q).
Context (Htrans : transportManager_ op = true).
Context (item : Z → CopyItem → list Move) (async : Z → CopyItem → Call).
Context (Hasync : ∀ r c, effect me (async r c) = ECopy (TRank r) (item r c)).
Context (regs : list (Z * CopyDescriptor)) (rest : list Move).
Definition gplan (x : Z * CopyDescriptor) : list Move := x.2 ≫= item x.1.
Abbreviation started := (regs ≫= gplan).
Abbreviation all := (started ++ rest).
Context (Hkeys : NoDup regs.*1) (Ho : orderly all (either X swap)).

(** What is written beside a group. *)
Definition beside (plan : list Move) (l : Loc) : Prop := X l ∨ swap l ∨ (l ∈ all.*1 ∧ l ∉ plan.*1).
Definition running (m0 : Memory) (x : Z * CopyDescriptor) (w : World) : Prop :=
  following m0 (gplan x) (TRank x.1) (beside (gplan x)) w.

Lemma plan_started x mv : x ∈ regs → mv ∈ gplan x → mv ∈ started.
Proof. intros Hx Hm. apply list_elem_of_bind. by exists x. Qed.
Lemma plan_orderly x : x ∈ regs → orderly (gplan x) (beside (gplan x)).
Proof.
  intros Hx. assert (orderly (gplan x) (either X swap)) as Hx'.
  { apply list_elem_of_split in Hx as (l1 & l2 & ->). clear - Ho. rewrite bind_app, bind_cons in Ho.
    by eapply orderly_app_l, orderly_app_r, orderly_app_l. }
  split; [apply Hx'..|]. intros d s Hd.
  assert ((d, s) ∈ all) as Hin by (apply elem_of_app; left; by eapply plan_started).
  destruct (or_X _ _ Ho d s Hin) as [H1 H2]. pose proof (or_src _ _ Ho d s Hin) as H3. unfold either in H1, H2.
  assert (d ∈ (gplan x).*1) as H4 by (apply list_elem_of_fmap; by exists (d, s)).
  unfold beside. tauto.
Qed.
Lemma plans_apart x y d : x ∈ regs → y ∈ regs → x.1 ≠ y.1 → d ∈ (gplan y).*1 → d ∉ (gplan x).*1.
Proof.
  intros Hx Hy Hne. eapply (bind_apart gplan regs); [|done..|by intros ->]. pose proof (or_nodup _ _ Ho) as Hn.
  rewrite fmap_app in Hn. by apply NoDup_app in Hn as (Hn & _ & _).
Qed.
Lemma other_beside x y d : x ∈ regs → y ∈ regs → x.1 ≠ y.1 → d ∈ (gplan y).*1 → beside (gplan x) d.
Proof.
  intros Hx Hy Hne Hd. right; right. split; [|by eapply plans_apart]. rewrite fmap_app. apply elem_of_app. left.
  apply list_elem_of_fmap in Hd as (mv & -> & Hmv). apply list_elem_of_fmap. exists mv. split; [done|]. by eapply plan_started.
Qed.
Lemma rest_beside x d : x ∈ regs → d ∈ rest.*1 → beside (gplan x) d.
Proof.
  intros Hx Hd. right; right. rewrite fmap_app. split; [by apply elem_of_app; right|].
  pose proof (or_nodup _ _ Ho) as Hn. rewrite fmap_app in Hn. apply NoDup_app in Hn as (_ & Hn & _). intros Hd'. apply (Hn d); [|done].
  apply list_elem_of_fmap in Hd' as (mv & -> & Hmv). apply list_elem_of_fmap. exists mv. split; [done|]. by eapply plan_started.
Qed.

(** *** Starting *)
Lemma tcall_call c : tcall op c = call c.
Proof. unfold tcall. by rewrite Htrans. Qed.
Lemma group_asks (W : Loc → Prop) y : inside W (gplan y) → calls (writes_in me W) (submit (λ c, tcall op (async y.1 c)) y.2).
Proof.
  intros Hi. apply asks_submit. intros c Hc. rewrite tcall_call. split; [|done]. unfold writes_in. rewrite Hasync.
  split; [intros E; pose proof (Hasync y.1 c) as He; by rewrite E in He|]. intros d s Hd. apply (Hi d s), list_elem_of_bind. eauto.
Qed.
Lemma inside_dst (W : Loc → Prop) ms : (∀ d, d ∈ ms.*1 → W d) → inside W ms.
Proof. intros H d s Hd. apply H, list_elem_of_fmap. by exists (d, s). Qed.
Lemma group_follow m0 x w : x ∈ regs → following m0 [] (TRank x.1) (beside (gplan x)) w →
  wp_ (submit (λ c, tcall op (async x.1 c)) x.2) w (λ r w', r = 0 → running m0 x w').
Proof.
  intros Hx Hf. unfold tcall. rewrite Htrans.
  eapply wp_mono; [apply (submit_follow me (beside (gplan x)) (λ _, True) (TRank x.1) (async x.1) (item x.1) m0 x.2 [] w)|].
  - done.
  - by apply plan_orderly.
  - done.
  - done.
  - by eapply still_widen; [eapply follow_none|].
  - intros r w' (_ & H & _) Hr. by apply H.
Qed.
Lemma posts_follow m0 x groups plan0 w : x ∈ regs → groups ⊆ regs → NoDup groups.*1 →
  (x ∈ groups ∧ plan0 = []) ∨ ((x.1 ∉ groups.*1) ∧ plan0 = gplan x) →
  following m0 plan0 (TRank x.1) (beside (gplan x)) w →
  wp_ (post_groups op async groups) w (λ r w', r = 0 → running m0 x w').
Proof.
  intros Hx. revert plan0 w. induction groups as [|y groups IH]; intros plan0 w Hsub Hnd Hpl Hf; cbn [post_groups submit].
  { destruct Hpl as [[Hin _]|[_ ->]]; [by apply not_elem_of_nil in Hin|]. by intros _. }
  rewrite fmap_cons in Hnd. apply NoDup_cons in Hnd as [Hy Hnd]. assert (y ∈ regs) as Hyr by (apply Hsub; by left).
  assert (groups ⊆ regs) as Hsub' by (intros z Hz; apply Hsub; by right). apply wp_seq. destruct (decide (x.1 = y.1)) as [Exy|Hne].
  - assert (x = y ∧ plan0 = []) as [<- ->].
    { destruct Hpl as [[[-> |Hin]%elem_of_cons ->]|[Hnin _]]; [done| |by destruct Hnin; rewrite fmap_cons, Exy; left].
      destruct Hy. rewrite <- Exy. apply list_elem_of_fmap. by exists x. }
    eapply wp_mono; [by apply group_follow|]. intros r w1 Hr. cbn. unfold BM_OK. destruct (Z.eqb_spec r 0) as [-> |Hr0]; cbn [negb]; [|done].
    eapply (IH (gplan x)); [done..|by right|by apply Hr].
  - assert (orderly plan0 (beside (gplan x))) as Hop by (destruct Hpl as [[_ ->]|[_ ->]]; [done|by apply plan_orderly]).
    eapply wp_mono; [eapply keeps_following; [apply (group_asks (beside (gplan x)) y)| |]|]; [|done|exact Hf|].
    { apply inside_dst. intros d Hd. by eapply (other_beside x y). }
    intros r w1 [_ Hf1]. destruct (negb _) eqn:En; [intros E; cbn in E; subst r; done|]. apply (IH plan0); try done.
    rewrite elem_of_cons in Hpl. rewrite fmap_cons, elem_of_cons in Hpl. destruct Hpl as [[[-> |Hin] ->]|[Hnin ->]]; [done|by left|right].
    split; [tauto|done].
Qed.

(** *** The places of the transfers, for what is done in the meantime *)
Definition under_way (l : Loc) : Prop := X l ∨ l ∈ started.*1.
Lemma posts_ask (W : Loc → Prop) : (∀ d, d ∈ started.*1 → W d) → calls (writes_in me W) (post_groups op async regs).
Proof.
  intros HW. apply asks_submit. intros y Hy. apply group_asks. intros d s Hd. apply HW, list_elem_of_fmap. exists (d, s).
  split; [done|]. by eapply plan_started.
Qed.
Lemma posts_fail : failing me (post_groups op async regs).
Proof.
  apply failing_submit. intros y Hy. apply failing_submit. intros c Hc. rewrite tcall_call. apply failing_call.
  - intros E. pose proof (Hasync y.1 c) as He. by rewrite E in He.
  - by rewrite Hasync.
Qed.
Lemma posted m0 w : still m0 X w → wp_ (post_groups op async regs) w (λ r w',
  (r ≠ 0 → failed w' = true) ∧ still m0 under_way w' ∧ (r = 0 → ∀ x, x ∈ regs → running m0 x w')).
Proof.
  intros Hs. eapply wp_mono; [apply wp_and; [apply posts_fail|apply wp_and; [eapply (keeps_following me under_way)|
    apply (wp_forall_in _ _ _ _ regs (λ x r w', r = 0 → running m0 x w'))]]|].
  - apply posts_ask. intros d Hd. by right.
  - done.
  - eapply still_widen; [exact Hs|]. intros l ?; by left.
  - eapply wp_mono; [apply posts_fail|done].
  - intros x Hx. apply (posts_follow m0 x regs []); [done..|by left|]. eapply follow_none, still_widen; [exact Hs|]. intros l ?; by left.
  - intros r w' (H1 & [_ H2] & H3). split_and!; [done..|]. intros Hr x Hx. by apply H3.
Qed.
Lemma rest_orderly : orderly rest (either under_way swap).
Proof.
  pose proof (orderly_app_r _ _ _ Ho) as Hr. split; [apply Hr..|]. intros d s Hd.
  assert ((d, s) ∈ all) as Hin by (apply elem_of_app; by right). destruct (or_X _ _ Ho d s Hin) as [H1 H2].
  pose proof (or_src _ _ Ho d s Hin) as H3. pose proof (or_nodup _ _ Ho) as Hn. rewrite fmap_app in H3, Hn. apply NoDup_app in Hn as (_ & Hn & _).
  assert (d ∈ rest.*1) as H4 by (apply list_elem_of_fmap; by exists (d, s)). unfold either, under_way in *.
  split; [intros [[?|H]|?]; [tauto|by apply (Hn d)|tauto]|]. intros [[?|H]|?]; [tauto| |tauto]. apply H3, elem_of_app. by left.
Qed.

(** *** Waiting *)
Lemma waited_all m0 m1 w : (∀ x, x ∈ regs → running m0 x w) → still m1 under_way w → wp_ (wait_groups op regs) w (λ r w',
  (r ≠ 0 → failed w' = true) ∧ still m1 under_way w' ∧
  (r = 0 → ∀ x, x ∈ regs → running m0 x w' ∧ quiet (TRank x.1) w')).
Proof.
  intros Hrun Hs. unfold wait_groups, tcall. rewrite Htrans.
  assert (failing me (submit (λ x : Z * CopyDescriptor, call (Synchronize x.1)) regs)) as Hfail by (apply failing_submit; intros x _; by apply failing_call).
  eapply wp_mono; [apply wp_and; [apply Hfail|apply wp_and; [eapply (keeps_following me under_way); [by apply waits_ask|done|exact Hs]|
    apply wp_and; [apply (wp_forall_in _ _ _ _ regs (λ x r w', running m0 x w'))|apply (waits_quiet me fst regs [])]]]|].
  - eapply wp_mono; [apply Hfail|done].
  - intros x Hx. eapply wp_mono; [eapply (keeps_following me (beside (gplan x))); [by apply waits_ask|by apply plan_orderly|by apply Hrun]|].
    by intros r w' [_ H].
  - by intros r ?%not_elem_of_nil.
  - intros r w' (H1 & [_ H2] & H3 & H4). split_and!; [done..|]. intros Hr x Hx. split; [by apply H3|]. apply H4; [done|].
    right. apply list_elem_of_fmap. by exists x.
Qed.

(** Everything has arrived. *)
Lemma overlap_done m0 w1 w3 w4 : still m0 under_way w1 → did (mem w1) under_way swap rest w3 → still (mem w3) under_way w4 →
  still m0 (λ l, X l ∨ swap l ∨ l ∈ all.*1) w4 →
  (∀ x, x ∈ regs → running m0 x w4 ∧ quiet (TRank x.1) w4) → did m0 X swap all w4.
Proof.
  intros Hs1 [D1 D2 D3] Hs4 HY Hreg.
  assert (∀ l w m, still m under_way w → ¬ under_way l → mem w l = m l) as Hfr.
  { intros l w m Hs Hl. apply (fo_frame _ _ _ _ _ Hs); [done|]. apply not_elem_of_nil. }
  split.
  - intros d s [Hd|Hd]%elem_of_app.
    + apply list_elem_of_bind in Hd as (x & Hd & Hx). destruct (Hreg x Hx) as [Hr Hq]. by apply (quiet_done w4 Hr Hq).
    + pose proof rest_orderly as Hor. destruct (or_X _ _ Hor d s Hd) as [N1 N2]. unfold either in N1, N2.
      rewrite (Hfr d w4 (mem w3)), (D1 d s Hd), (Hfr s w1 m0) by tauto. done.
  - intros l HX HS Hn. apply (fo_frame _ _ _ _ _ HY); [tauto|]. apply not_elem_of_nil.
  - split; [|done|by intros d s []%not_elem_of_nil]. intros f Hf. right. intros d s Hd.
    destruct (fo_flights _ _ _ _ _ Hs4 f Hf) as [[_ Hsub]|HX]; [by apply Hsub, not_elem_of_nil in Hd|].
    destruct (HX d s Hd) as [?|Hst]; [done|]. exfalso. apply list_elem_of_fmap in Hst as ([d' s'] & Ed & Hst). cbn in Ed. subst d'.
    assert ((d, s') ∈ all) as Hall by (apply elem_of_app; by left). destruct (or_X _ _ Ho d s' Hall) as [N1 _]. unfold either in N1.
    apply list_elem_of_bind in Hst as (x & Hin & Hx). destruct (Hreg x Hx) as [Hr Hq].
    destruct (fo_flights _ _ _ _ _ Hr f Hf) as [[Ht _]|HZ]; [by apply (Hq f Hf)|].
    destruct (HZ d s Hd) as [?|[?|[_ Hnin]]]; [tauto..|]. apply Hnin, list_elem_of_fmap. by exists (d, s').
Qed.
End Overlap.

Section Classes.
Context (op : DataOpDeviceRDMA) (p : RbtreeRangePool) (X Y : Loc → Prop) (E : Prop).
Abbreviation me := (rankId_ op).
Abbreviation swap := (swap_of me p).
Abbreviation wp_ q w Q := (wp fabric_ok (fabric_step me) q w Q).
Abbreviation same := (λ x : DataOpDeviceRDMA * Z, x.1 = op).
Context (Htrans : transportManager_ op = true) (HXY : ∀ l, X l → Y l) (HSY : ∀ l, swap l → Y l) (HSX : ∀ l, swap l → ¬ X l).
Context (item : Z → CopyItem → list Move) (async : Z → CopyItem → Call).
Context (Hasync : ∀ r c, effect me (async r c) = ECopy (TRank r) (item r c)).
Context (regs locs nots : list (Z * CopyDescriptor)) (local : Z → CopyDescriptor → prog Z)
  (dflt : DataOpDeviceRDMA → Z → CopyDescriptor → prog (DataOpDeviceRDMA * Z)).
Abbreviation plan := (gplan item).
Abbreviation rest := ((locs ≫= plan) ++ (nots ≫= plan)).
Abbreviation all := ((regs ≫= plan) ++ rest).
Context (Hkeys : NoDup regs.*1) (Ho : orderly all (either X swap)) (Hi : inside Y all).
Context (Hloc : ∀ x (X' Y' : Loc → Prop), x ∈ locs → (∀ l, X' l → Y' l) → orderly (plan x) X' → inside Y' (plan x) →
  does me X' Y' E none (plan x) (local x.1 x.2)).
Context (Hloc_asks : ∀ x W, x ∈ locs → inside W (plan x) → calls (writes_in me W) (local x.1 x.2)).
Context (Hnot : ∀ x (X' Y' : Loc → Prop), x ∈ nots → (∀ l, X' l → Y' l) → (∀ l, swap l → Y' l) → (∀ l, swap l → ¬ X' l) →
  orderly (plan x) (either X' swap) → inside Y' (plan x) → does_op op X' Y' E swap (plan x) (dflt op x.1 x.2)).
Context (Hnot_asks : ∀ x (W : Loc → Prop), x ∈ nots → (∀ l, swap l → W l) → inside W (plan x) → asks (writes_in me W) same (dflt op x.1 x.2)).

Lemma inside_bind {A} (W : Loc → Prop) (g : A → list Move) l x : inside W (l ≫= g) → x ∈ l → inside W (g x).
Proof. intros H Hx d s Hd. apply (H d s), list_elem_of_bind. eauto. Qed.
Lemma locs_ask W : inside W (locs ≫= plan) → calls (writes_in me W) (submit (λ x, local x.1 x.2) locs).
Proof. intros HW. apply asks_submit. intros x Hx. apply Hloc_asks; [done|]. by eapply inside_bind. Qed.
Lemma nots_ask (W : Loc → Prop) ret : (∀ l, swap l → W l) → inside W (nots ≫= plan) →
  asks (writes_in me W) same (each_rank (λ op x, dflt op x.1 x.2) op nots ret).
Proof. intros HS HW. apply each_rank_asks. intros x Hx. apply Hnot_asks; [done..|]. by eapply inside_bind. Qed.

(** The body of [copy_classes] for given groups. *)
Abbreviation body := (ret ← post_groups op async regs;
  if negb (ret =? BM_OK) then Ret (op, ret) else
  ret ← submit (λ x, local x.1 x.2) locs;
  if negb (ret =? BM_OK) then Ret (op, ret) else
  '(o, ret) ← each_rank (λ op x, dflt op x.1 x.2) op nots BM_OK;
  if negb (ret =? BM_OK) then Ret (o, ret) else keep_op o (wait_groups o regs)).
Lemma body_asks (W : Loc → Prop) : (∀ l, swap l → W l) → inside W all → asks (writes_in me W) same body.
Proof.
  intros HS HW. apply inside_app in HW as [HR HW]. apply inside_app in HW as [HL HN].
  assert (∀ (q : prog Z) (k : prog (DataOpDeviceRDMA * Z)), calls (writes_in me W) q → asks (writes_in me W) same k →
    asks (writes_in me W) same (ret ← q; if negb (ret =? BM_OK) then Ret (op, ret) else k)) as Hseq.
  { intros q k Hq Hk. apply asks_seq. eapply asks_mono; [exact Hq|done|]. intros r _. by destruct (negb _). }
  apply Hseq; [apply (posts_ask op Htrans item async Hasync)|]. { intros d (mv & -> & Hmv)%list_elem_of_fmap. by apply (HR mv.1 mv.2); destruct mv. }
  apply Hseq; [by apply locs_ask|]. apply asks_seq. eapply asks_mono; [by apply nots_ask|done|]. intros [o r] Eo. cbn in Eo. subst o.
  destruct (negb _); [done|]. apply keep_asks. unfold wait_groups, tcall. rewrite Htrans. apply waits_ask.
Qed.

(** The transfers go on while [q] runs. *)
Lemma running_kept {A} (R : A → Prop) (q : prog A) m0 w : (∀ x, x ∈ regs → asks (writes_in me (beside op p X item regs rest (plan x))) R q) →
  wp_ q w (λ _ _, True) → (∀ x, x ∈ regs → running op p X item regs rest m0 x w) →
  wp_ q w (λ _ w', ∀ x, x ∈ regs → running op p X item regs rest m0 x w').
Proof.
  intros Hq Hw Hr. apply (wp_forall_in _ _ _ _ regs (λ x _ w', running op p X item regs rest m0 x w')); [done|]. intros x Hx.
  eapply wp_mono; [eapply keeps_following; [by apply Hq|by apply plan_orderly|by apply Hr]|]. by intros a w' [_ H].
Qed.
Abbreviation during := (under_way X item regs).
Lemma during_swap l : swap l → ¬ during l.
Proof.
  intros Hs [HX|Hd]; [by apply (HSX l)|]. apply list_elem_of_fmap in Hd as ([d s] & -> & Hd).
  destruct (or_X _ _ Ho d s) as [Hn _]; [apply elem_of_app; by left|]. apply Hn. by right.
Qed.
Lemma locs_does : does me during (λ _, True) E none (locs ≫= plan) (submit (λ x, local x.1 x.2) locs).
Proof.
  pose proof (rest_orderly op p X item regs rest Ho) as Hr. apply orderly_app_l in Hr.
  assert (orderly (locs ≫= plan) during) as Hl by (eapply orderly_less; [exact Hr|]; intros l ?; by left).
  apply does_submit; [done|eapply orderly_less; [exact Hl|]; by intros l [?|[]]|]. intros x Hx. apply Hloc; [done..| |done].
  apply list_elem_of_split in Hx as (l1 & l2 & E1). rewrite E1, bind_app, bind_cons in Hl. by eapply orderly_app_l, orderly_app_r.
Qed.
Lemma nots_does : does_op op during (λ _, True) E swap (nots ≫= plan) (each_rank (λ op x, dflt op x.1 x.2) op nots BM_OK).
Proof.
  pose proof (rest_orderly op p X item regs rest Ho) as Hr. apply orderly_app_r in Hr.
  apply each_rank_does; [done..|]. intros x Hx. apply Hnot; [done..|by apply during_swap| |done].
  apply list_elem_of_split in Hx as (l1 & l2 & E1). rewrite E1, bind_app, bind_cons in Hr. by eapply orderly_app_l, orderly_app_r.
Qed.
Lemma beside_swap x l : swap l → beside op p X item regs rest (plan x) l.
Proof. intros Hs. right. by left. Qed.
Lemma beside_rest x ms : x ∈ regs → ms ⊆ rest → inside (beside op p X item regs rest (plan x)) ms.
Proof.
  intros Hx Hms d s Hd. eapply rest_beside; [exact Ho|done|]. apply list_elem_of_fmap. exists (d, s). split; [done|]. by apply Hms.
Qed.
Lemma body_success w : still (mem w) X w → wp_ body w (λ x w',
  (x.2 ≠ 0 → failed w' = true ∨ E) ∧
  (x.2 = 0 → ∃ w1 w3, still (mem w) during w1 ∧ did (mem w1) during swap rest w3 ∧ still (mem w3) during w' ∧
     ∀ x, x ∈ regs → running op p X item regs rest (mem w) x w' ∧ quiet (TRank x.1) w')).
Proof.
  intros Hs. apply wp_seq. eapply wp_mono; [by apply (posted op p X Htrans item async Hasync regs rest Hkeys Ho (mem w))|].
  intros r1 w1 (F1 & S1 & R1). cbn. unfold BM_OK. destruct (Z.eqb_spec r1 0) as [-> |Hr1]; cbn [negb]; [|cbn; tauto]. specialize (R1 eq_refl).
  apply wp_seq. pose proof (locs_does w1 ltac:(by eapply still_self)) as HL.
  eapply wp_mono; [apply wp_and; [exact HL|apply (running_kept (λ _, True) _ (mem w) w1); [|by eapply wp_mono|done]]|].
  { intros x Hx. apply locs_ask, beside_rest; [done|]. intros mv ?; apply elem_of_app; by left. }
  intros r2 w2 [(_ & D2 & F2) R2]. destruct (Z.eqb_spec r2 0) as [-> |Hr2]; cbn [negb]; [|cbn; tauto]. specialize (D2 eq_refl).
  apply wp_seq. pose proof (nots_does w2 (did_still _ _ _ _ _ D2)) as HN.
  eapply wp_mono; [apply wp_and; [exact HN|apply (running_kept same _ (mem w) w2); [|by eapply wp_mono|done]]|].
  { intros x Hx. apply nots_ask; [intros l; apply beside_swap|]. apply beside_rest; [done|]. intros mv ?; apply elem_of_app; by right. }
  intros [o r3] w3 [(Eo & _ & D3 & F3) R3]. cbn in Eo, D3, F3. subst o. destruct (Z.eqb_spec r3 0) as [-> |Hr3]; cbn [negb]; [|cbn; tauto].
  specialize (D3 eq_refl). assert (did (mem w1) during swap rest w3) as D.
  { eapply did_app; [by apply rest_orderly|eapply did_scratch; [exact D2|by intros l []]|exact D3]. }
  apply wp_seq. eapply wp_mono; [by apply (waited_all op p X Htrans item regs rest Hkeys Ho (mem w) (mem w3)); [|apply (did_still _ _ _ _ _ D)]|].
  intros r4 w4 (F4 & S4 & R4). cbn. split; [tauto|]. intros Hr4. exists w1, w3. auto.
Qed.
Lemma body_does : does_op op X Y E swap all body.
Proof.
  intros w Hs. set (Y0 l := X l ∨ swap l ∨ l ∈ all.*1).
  assert (inside Y0 all) as Hi0 by (intros d s Hd; right; right; apply list_elem_of_fmap; by exists (d, s)).
  assert (∀ l, Y0 l → Y l) as HY.
  { intros l [?|[?|([d s] & -> & Hd)%list_elem_of_fmap]]; [by apply HXY|by apply HSY|by apply (Hi d s)]. }
  eapply wp_mono; [apply wp_and; [eapply (keeps_following me Y0 same body (mem w) [] TNow); [apply body_asks; [intros l ?; by right; left|done]|done|]|by apply body_success]|].
  { eapply still_widen; [exact Hs|]. intros l ?; by left. }
  intros x w' [[Ex SY] [Hf Hok]]. split; [done|]. split_and!; [by eapply still_widen| |done].
  intros Hr. destruct (Hok Hr) as (w1 & w3 & H1 & H2 & H3 & H4). by eapply (overlap_done op p X item regs rest Ho (mem w)).
Qed.
End Classes.

(** ** Batches between local and global memory *)
Section Classify.
Context (op : DataOpDeviceRDMA) (spaces : list GvaSpace) (dflt : Z).
Abbreviation me := (rankId_ op).
Context (Htrans : transportManager_ op = true).
Definition filled (m : gmap Z CopyDescriptor) : Prop := ∀ r l, m !! r = Some l → l ≠ [].
Record classified (cl : Classes) : Prop := {
  cl_reg : grouped spaces dflt (registered cl);
  cl_loc : grouped spaces dflt (localed cl);
  cl_not : grouped spaces dflt (notRegistered cl);
  cl_mine : ∀ r l, localed cl !! r = Some l → r = me;
  cl_filled : filled (notRegistered cl);
}.
Definition class_entries (cl : Classes) : CopyDescriptor := entries (registered cl) ++ entries (localed cl) ++ entries (notRegistered cl).
Lemma filled_add m r c : filled m → filled (add_entry m r c).
Proof. unfold add_entry. intros Hm r' l [[_ <-]|[_ ?]]%lookup_insert_Some; [|by eapply Hm]. by intros [_ ?]%app_eq_nil. Qed.
Lemma classify_wp d cl w : classified cl →
  wp fabric_ok (fabric_step me) (ClassifyDataAddr op spaces dflt d cl) w (λ cl' w',
    adv w w' ∧ classified cl' ∧ class_entries cl' ≡ₚ d ++ class_entries cl).
Proof.
  revert cl w. induction d as [|c d IH]; intros cl w Hcl; [done|]. cbn [ClassifyDataAddr].
  fold (owner spaces dflt (globalAddr c)). unfold tcall. rewrite Htrans. apply wp_seq.
  eapply (wp_mono _ _ _ _ (λ cl' w', adv w w' ∧ classified cl' ∧ class_entries cl' ≡ₚ c :: class_entries cl)).
  - destruct Hcl as [H1 H2 H3 H4 H5]. unfold class_entries. destruct (Z.eqb_spec (owner spaces dflt (globalAddr c)) me) as [Em|Em].
    + split_and!; [done| |cbn; by rewrite entries_add, <- app_comm_cons, <- Permutation_middle]. split; cbn; [done|by apply grouped_add|done| |done].
      unfold add_entry. intros r l [[<- _]|[_ ?]]%lookup_insert_Some; [done|by eapply H4].
    + split; [done|]. intros w' r Hs. cbn in Hs |- *. destruct (r =? 0); (split_and!; [done|split; cbn; try done; (by apply grouped_add) || by apply filled_add|cbn; rewrite entries_add]).
      * by rewrite <- !Permutation_middle.
      * done.
  - intros cl' w1 (A1 & C1 & P1). eapply wp_mono; [by apply IH|]. intros cl2 w2 (A2 & C2 & P2). split_and!; [by etrans|done|].
    rewrite P2, P1. by rewrite <- Permutation_middle.
Qed.
Lemma no_classes_ok : classified no_classes.
Proof. split; unfold grouped, filled; cbn; intros *; rewrite lookup_empty; done. Qed.
End Classify.

Record ready (op : DataOpDeviceRDMA) (p : RbtreeRangePool) (live : gmap Z Z) : Prop := {
  rd_transport : transportManager_ op = true;
  rd_pool : rdmaSwapMemoryAllocator_ op = Some p;
  rd_inv : pool_inv p live;
}.
Section Groups.
Context (op : DataOpDeviceRDMA) (p : RbtreeRangePool) (live : gmap Z Z) (X Y : Loc → Prop) (E : Prop).
Abbreviation me := (rankId_ op).
Abbreviation swap := (swap_of me p).
Context (Hready : ready op p live) (HXY : ∀ l, X l → Y l) (HSY : ∀ l, swap l → Y l) (HSX : ∀ l, swap l → ¬ X l).
Context (Hroom : ∀ n, 0 < n ≤ swapSize → pool_CanAllocate p n = false → E).
Context (order : gmap Z CopyDescriptor → list (Z * CopyDescriptor)) (Horder : ∀ m, order m ≡ₚ map_to_list m).
Context (spaces : list GvaSpace) (dflt : Z) (dir : hybm_data_copy_direction) (Hdir : known dir = true).
Context (item : Z → CopyItem → list Move) (async : Z → CopyItem → Call) (par : CopyItem → hybm_copy_params).
Context (Hasync : ∀ r c, effect me (async r c) = ECopy (TRank r) (item r c)).
Context (Hmine : ∀ c, job_moves me me (par c) = item me c).
Context (lo no : Z → ExtOptions) (Hno : ∀ r, involved op (no r)) (Hother : ∀ r c, copy_plan op dir (no r) (par c) = item r c).

Lemma in_order m r l : (r, l) ∈ order m → m !! r = Some l.
Proof. rewrite Horder. by intros ?%elem_of_map_to_list. Qed.
Lemma order_keys m : NoDup (order m).*1.
Proof. rewrite Horder. apply NoDup_fst_map_to_list. Qed.
Lemma mine_plan l : gplan item (me, l) = (par <$> l) ≫= job_moves me me.
Proof. rewrite list_fmap_bind. unfold gplan. cbn. apply list_bind_ext; [|done]. intros c. cbn. by rewrite Hmine. Qed.
Lemma other_plan r l : gplan item (r, l) = group_plan op dir (no r) (par <$> l).
Proof. unfold group_plan. rewrite list_fmap_bind. unfold gplan. cbn. apply list_bind_ext; [|done]. intros c. cbn. by rewrite Hother. Qed.

Lemma copy_classes_does (d : CopyDescriptor) cl :
  let ms := d ≫= λ c, item (owner spaces dflt (globalAddr c)) c in
  classified op spaces dflt cl → class_entries cl ≡ₚ d → (∀ c, c ∈ d → job_fits (par c)) →
  orderly ms (either X swap) → inside Y ms →
  does_op op X Y E swap ms (copy_classes order op async (λ r l, BatchDataCopyLocal (par <$> l) dir (lo r))
    (λ op r l, BatchDataCopyDefault op (par <$> l) dir (no r)) cl).
Proof.
  intros ms Hcl Hperm Hfits Ho Hi. destruct Hready as [Htr Hpool Hinv].
  assert ((order (registered cl) ≫= gplan item) ++ (order (localed cl) ≫= gplan item) ++ (order (notRegistered cl) ≫= gplan item) ≡ₚ ms) as Hp.
  { unfold gplan, ms. rewrite !(grouped_moves order Horder item spaces dflt) by apply Hcl.
    rewrite <- !bind_app. unfold class_entries in Hperm. by rewrite Hperm. }
  apply (does_op_same _ _ _ _ _ _ _ _ (λ mv, elem_of_Permutation_proper mv _ _ Hp)).
  assert (∀ r l, (r, l) ∈ order (notRegistered cl) → par <$> l ≠ [] ∧ Forall job_fits (par <$> l)) as Hgrp.
  { intros r l Hin. pose proof (in_order _ _ _ Hin) as Hl. split; [intros ?%fmap_nil_inv; by eapply (cl_filled _ _ _ _ Hcl)|].
    apply Forall_fmap, Forall_forall. intros c Hc. apply Hfits. rewrite <- Hperm. unfold class_entries. rewrite !elem_of_app. do 2 right.
    unfold entries. apply list_elem_of_bind. exists (r, l). split; [done|]. by rewrite <- Horder. }
  apply (body_does op p X Y E Htr HXY HSY HSX item async Hasync).
  - apply order_keys.
  - by eapply orderly_perm.
  - intros x y. rewrite Hp. apply Hi.
  - intros [r l] X' Y' Hx. rewrite (cl_mine _ _ _ _ Hcl r l (in_order _ _ _ Hx)), mine_plan. cbn [fst snd]. intros. by apply BatchDataCopyLocal_does.
  - intros [r l] W Hx. rewrite (cl_mine _ _ _ _ Hcl r l (in_order _ _ _ Hx)), mine_plan. cbn [fst snd]. intros. by apply BatchDataCopyLocal_asks.
  - intros [r l] X' Y' Hx. rewrite other_plan. cbn [fst snd]. destruct (Hgrp r l Hx). intros. by eapply BatchDataCopyDefault_does.
  - intros [r l] W Hx. rewrite other_plan. cbn [fst snd]. destruct (Hgrp r l Hx). intros. by eapply BatchDataCopyDefault_asks.
Qed.
End Groups.

(** ** Where the ends of the entries of a batch are *)
Definition batch_to (op : DataOpDeviceRDMA) (spaces : list GvaSpace) (d : hybm_data_copy_direction) (o : ExtOptions) (j : hybm_copy_params) : Z :=
  if from_local d then owner spaces (destRankId o) (dest j) else if to_local d then rankId_ op else GetRankIdByGva spaces (dest j).
Definition batch_from (op : DataOpDeviceRDMA) (spaces : list GvaSpace) (d : hybm_data_copy_direction) (o : ExtOptions) (j : hybm_copy_params) : Z :=
  if from_local d then rankId_ op else if to_local d then owner spaces (srcRankId o) (src j) else GetRankIdByGva spaces (src j).
Definition batch_plan (op : DataOpDeviceRDMA) (spaces : list GvaSpace) (d : hybm_data_copy_direction) (o : ExtOptions)
    (l : list hybm_copy_params) : list Move :=
  l ≫= λ j, moves (batch_to op spaces d o j, dest j) (batch_from op spaces d o j, src j) (dataSize j).
(** The caller names its own rank as the one of its local memory. *)
Definition batch_supported (op : DataOpDeviceRDMA) (d : hybm_data_copy_direction) (o : ExtOptions) : Prop :=
  known d = true ∧ (from_local d = true → srcRankId o = rankId_ op) ∧ (to_local d = true → destRankId o = rankId_ op).

Section Batches.
Context (op : DataOpDeviceRDMA) (p : RbtreeRangePool) (live : gmap Z Z) (X Y : Loc → Prop) (E : Prop).
Abbreviation me := (rankId_ op).
Abbreviation swap := (swap_of me p).
Abbreviation wp_ q w Q := (wp fabric_ok (fabric_step me) q w Q).
Context (Hready : ready op p live) (HXY : ∀ l, X l → Y l) (HSY : ∀ l, swap l → Y l) (HSX : ∀ l, swap l → ¬ X l).
Context (Hroom : ∀ n, 0 < n ≤ swapSize → pool_CanAllocate p n = false → E).
Context (order : gmap Z CopyDescriptor → list (Z * CopyDescriptor)) (Horder : ∀ m, order m ≡ₚ map_to_list m).
Context (spaces : list GvaSpace) (jobs : list hybm_copy_params) (Hfits : Forall job_fits jobs).

(** The entries are classified, then copied. *)
Lemma after_classify dflt d ms (k : Classes → prog (DataOpDeviceRDMA * Z)) : orderly ms (either X swap) →
  (∀ cl, classified op spaces dflt cl → class_entries cl ≡ₚ d → does_op op X Y E swap ms (k cl)) →
  does_op op X Y E swap ms (ClassifyDataAddr op spaces dflt d no_classes ≫= k).
Proof.
  intros Ho Hk w Hs. apply wp_seq. eapply wp_mono; [apply classify_wp; [apply (rd_transport _ _ _ Hready)|apply no_classes_ok]|].
  intros cl w1 (A1 & C1 & P1). assert (class_entries no_classes = []) as En by (unfold class_entries, entries, no_classes; cbn; by rewrite map_to_list_empty).
  rewrite En, app_nil_r in P1. assert (still (mem w) X w1) as Hs1 by by eapply still_adv.
  eapply wp_mono; [apply (Hk cl C1 P1); by eapply still_self|]. intros x w2 [Ex Hout]. split; [done|].
  eapply outcome_before; [exact HXY|by eapply orderly_none|exact Hs1|done].
Qed.
Lemma BatchCopyWrite_does d o : from_local d = true → srcRankId o = me →
  orderly (batch_plan op spaces d o jobs) (either X swap) → inside Y (batch_plan op spaces d o jobs) →
  does_op op X Y E swap (batch_plan op spaces d o jobs) (BatchCopyWrite order op spaces jobs o d).
Proof.
  intros Hd Hs. assert (batch_plan op spaces d o jobs =
    (local_global <$> jobs) ≫= λ c, put_item op (owner spaces (destRankId o) (globalAddr c)) c) as ->.
  { rewrite list_fmap_bind. apply list_bind_ext; [|done]. intros j. unfold batch_to, batch_from. by rewrite Hd. }
  intros Ho Hi. apply after_classify; [done|]. intros cl Hcl Hp. assert (known d = true ∧ to_local d = false) as [Hk Ht] by (by destruct d).
  eapply (copy_classes_does op p live X Y E Hready HXY HSY HSX Hroom order Horder spaces (destRankId o) d Hk (put_item op) write_direct put_params); try done.
  - intros r. by left.
  - intros r c. unfold copy_plan, rank_to, rank_from. by rewrite Hd, Ht.
  - intros c (j & -> & Hj)%list_elem_of_fmap. rewrite Forall_forall in Hfits. exact (Hfits j Hj).
Qed.
Lemma dest_kept f l o : (∀ o x, destRankId (f o x) = destRankId o) → destRankId (foldl f o (l : list (Z * CopyDescriptor))) = destRankId o.
Proof. intros Hf. revert o. induction l as [|x l IH]; intros o; [done|]. cbn. by rewrite IH. Qed.
Lemma BatchCopyRead_does d o : to_local d = true → destRankId o = me →
  orderly (batch_plan op spaces d o jobs) (either X swap) → inside Y (batch_plan op spaces d o jobs) →
  does_op op X Y E swap (batch_plan op spaces d o jobs) (BatchCopyRead order op spaces jobs o d).
Proof.
  intros Hd Hs. assert (known d = true ∧ from_local d = false) as [Hk Ht] by (by destruct d).
  assert (batch_plan op spaces d o jobs = (global_local <$> jobs) ≫= λ c, get_item op (owner spaces (srcRankId o) (globalAddr c)) c) as ->.
  { rewrite list_fmap_bind. apply list_bind_ext; [|done]. intros j. unfold batch_to, batch_from. by rewrite Hd, Ht. }
  intros Ho Hi. apply after_classify; [done|]. intros cl Hcl Hp. cbv zeta.
  set (o1 := foldl _ o _). assert (destRankId o1 = me) as H1 by (unfold o1; by rewrite dest_kept). clearbody o1.
  set (o2 := foldl _ o1 _). assert (destRankId o2 = me) as H2.
  { assert (∀ x, x ∈ order (localed cl) → x.1 = me) as Hme.
    { intros [r l] Hx. apply in_order in Hx; [|done]. by apply (cl_mine _ _ _ _ Hcl r l). }
    unfold o2. clearbody o2. revert o1 H1 o2 Hme. induction (order (localed cl)) as [|x l IH]; intros o1 H1 o2 Hme; [done|].
    cbn. apply IH; [|done|intros y Hy; apply Hme; by right]. cbn. apply Hme. by left. }
  clearbody o2.
  eapply (copy_classes_does op p live X Y E Hready HXY HSY HSX Hroom order Horder spaces (srcRankId o) d Hk (get_item op) read_direct get_params
    (λ _ _, eq_refl) (λ _, eq_refl) (λ r, with_dest o1 r) (λ r, with_src o2 r)); try done.
  - intros r. right. done.
  - intros r c. unfold copy_plan, rank_to, rank_from. by rewrite Hd, Ht.
  - intros c (j & -> & Hj)%list_elem_of_fmap. rewrite Forall_forall in Hfits. exact (Hfits j Hj).
Qed.
End Batches.
