(* ===== verification/DeviceBatchSpec.v ===== *)
(** * Batches over device RDMA: the theorems

    A batch between global addresses starts a transfer for each entry at once and
    waits for every rank named; the theorems on batches in all directions, runs of
    them, and what is left behind when one fails. *)
From Stdlib Require Import Strings.Byte.
From stdpp Require Import base numbers list gmap relations sorting.
From S2P Require Import Prelude RangePool RangePoolSpec VaManager Fabric HostDataOp HostDataOpSpec DeviceDataOp DeviceDataOpSpec.
Local Open Scope Z_scope.
Local Open Scope mf_scope.

Lemma quiet_sent t t' ms w w' : sent t' ms w w' → t' ≠ t → quiet t w → quiet t w'.
Proof.
  intros (w1 & fs & Ha & _ & Ht & Ha') Hne Hq. eapply quiet_adv; [exact Ha'|]. intros f [Hf|Hf]%elem_of_app.
  - by apply (quiet_adv _ _ _ Ha Hq).
  - rewrite Forall_forall in Ht. by rewrite (Ht f Hf).
Qed.

Section G2G.
Context (op : DataOpDeviceRDMA) (spaces : list GvaSpace) (X : Loc → Prop).
Abbreviation me := (rankId_ op).
Abbreviation wp_ q w Q := (wp fabric_ok (fabric_step me) q w Q).
Context (Htrans : transportManager_ op = true).
Context (d : hybm_data_copy_direction) (Hd : both_global d = true) (st : Z).
Context (jobs : list hybm_copy_params).
Abbreviation rs j := (GetRankIdByGva spaces (src j)).
Abbreviation rd j := (GetRankIdByGva spaces (dest j)).
Definition jmoves (j : hybm_copy_params) : list Move := moves (rd j, dest j) (rs j, src j) (dataSize j).
(** What an entry is waited for by; none when both ends are elsewhere. *)
Definition jtag (j : hybm_copy_params) : option Tag :=
  if (rs j =? me) && (rd j =? me) then Some TNow else
  if rs j =? me then Some (TRank (rd j)) else if rd j =? me then Some (TRank (rs j)) else None.
Definition tplan (t : Tag) (l : list hybm_copy_params) : list Move := l ≫= λ j, if decide (jtag j = Some t) then jmoves j else [].
Abbreviation all := (jobs ≫= jmoves).
Context (Ho : orderly all X).
Definition apart (t : Tag) (l : Loc) : Prop := X l ∨ (l ∈ all.*1 ∧ l ∉ (tplan t jobs).*1).

Lemma DataCopy_mine j : rs j = me → rd j = me →
  ∃ kind, DataCopy op j d (mkOptions (rs j) (rd j) st) = keep_op op (copy_local kind (src j) (dest j) (dataSize j)).
Proof.
  intros Es Ed. destruct d; try discriminate Hd; eexists; cbn; unfold CopyGH2GH, CopyGD2GH, CopyGH2GD, CopyGD2GD, global_to_global; cbn;
    rewrite Es, Ed, Z.eqb_refl; reflexivity.
Qed.
Lemma entry_wp j ranks w : wp_ (g2g_entry op spaces d st j ranks) w (λ x w', x.1.1 = op ∧ ranks ⊆ x.1.2 ∧
  match jtag j with
  | None => w' = w ∧ x.2 = BM_ERROR
  | Some t => (∀ r, t = TRank r → x.2 = 0 → r ∈ x.1.2) ∧ ∃ r', copies t (jmoves j) w w' r' ∧ (x.2 = 0 ↔ r' = 0)
  end).
Proof.
  unfold g2g_entry, jtag, jmoves, tcall. rewrite Htrans. destruct (Z.eqb_spec (rs j) me) as [Es|Es], (Z.eqb_spec (rd j) me) as [Ed|Ed]; cbn [andb].
  - apply wp_seq. destruct (DataCopy_mine j Es Ed) as [kind ->].
    split; [done|]. intros w' r Hs. cbn. split_and!; [done|done|done|]. rewrite Es, Ed. exists r. split; [exact Hs|].
    unfold BM_OK. by destruct (Z.eqb_spec r 0) as [-> |?].
  - split; [done|]. intros w' r Hs. cbn. split_and!; [done|by destruct (_ =? _); set_solver| |rewrite Es; by exists r].
    intros r' [= <-] ->. cbn. set_solver.
  - split; [done|]. intros w' r Hs. cbn. split_and!; [done|by destruct (_ =? _); set_solver| |rewrite Ed; by exists r].
    intros r' [= <-] ->. cbn. set_solver.
  - done.
Qed.

Lemma tplan_sublist t l : tplan t l `sublist_of` (l ≫= jmoves).
Proof.
  induction l as [|j l IH]; [done|]. unfold tplan in *. rewrite !bind_cons. apply sublist_app; [|done].
  case_decide; [done|]. apply sublist_nil_l.
Qed.
Lemma tplan_cons t l j l' : tplan t (l ++ j :: l') = tplan t (l ++ [j]) ++ tplan t l'.
Proof. unfold tplan. by rewrite <- bind_app, <- app_assoc. Qed.
Lemma tplan_snoc t l j : tplan t (l ++ [j]) = tplan t l ++ if decide (jtag j = Some t) then jmoves j else [].
Proof. unfold tplan. rewrite bind_app, bind_cons. cbn. by rewrite app_nil_r. Qed.
Lemma tplan_in t l x y : (x, y) ∈ tplan t l → ∃ j, j ∈ l ∧ jtag j = Some t ∧ (x, y) ∈ jmoves j.
Proof. intros (j & Hin & Hj)%list_elem_of_bind. exists j. case_decide; [done|by apply not_elem_of_nil in Hin]. Qed.
Lemma tplan_orderly t : orderly (tplan t jobs) (apart t).
Proof.
  pose proof (sublist_subseteq _ _ (tplan_sublist t jobs)) as Hsub. split.
  - eapply sublist_NoDup; [apply (or_nodup _ _ Ho)|]. apply fmap_sublist, tplan_sublist.
  - intros x y Hin (mv & -> & Hmv)%list_elem_of_fmap. apply (or_src _ _ Ho x mv.1); [by apply Hsub|].
    apply list_elem_of_fmap. exists mv. auto.
  - intros x y Hin. apply Hsub in Hin as Hin'. destruct (or_X _ _ Ho x y Hin') as [N1 N2]. pose proof (or_src _ _ Ho x y Hin') as N3.
    assert (x ∈ (tplan t jobs).*1) as Hx by (apply list_elem_of_fmap; by exists (x, y)). unfold apart. tauto.
Qed.
Lemma entry_apart t j : j ∈ jobs → jtag j ≠ Some t → inside (apart t) (jmoves j).
Proof.
  intros Hj Ht x y Hin. right. assert (x ∈ (jmoves j).*1) as Hx by (apply list_elem_of_fmap; by exists (x, y)). split.
  - apply list_elem_of_fmap. exists (x, y). split; [done|]. apply list_elem_of_bind. eauto.
  - intros ([x' y'] & Ex & (j' & Hj' & Ht' & Hin')%tplan_in)%list_elem_of_fmap. cbn in Ex. subst x'.
    apply (bind_apart jmoves jobs j' j x (or_nodup _ _ Ho) Hj' Hj); [congruence|done|]. apply list_elem_of_fmap. by exists (x, y').
Qed.

(** The entries with a tag up to [before] are under way; local ones are done. *)
Definition inv (m0 : Memory) (t : Tag) (before : list hybm_copy_params) (w : World) : Prop :=
  following m0 (tplan t before) t (apart t) w ∧ (t = TNow → tplan t before ≠ [] → quiet TNow w).
Lemma entry_inv m0 t before j after t' w w' : jobs = before ++ j :: after → jtag j = Some t' → copies t' (jmoves j) w w' 0 →
  inv m0 t before w → inv m0 t (before ++ [j]) w'.
Proof.
  intros Ej Ht Hc [Hf Hq]. assert (j ∈ jobs) as Hj by (rewrite Ej; set_solver). unfold inv. rewrite tplan_snoc, Ht.
  case_decide as E1; [injection E1 as -> |].
  - destruct Hc as [[_ Hc]|[? _]]; [|done]. split; [|intros -> _; by apply copy_ok_sent in Hc as [_ Hquiet]; apply Hquiet].
    eapply follow_copy; [exact Hf| |done]. pose proof (tplan_orderly t) as Hot. rewrite Ej, tplan_cons, tplan_snoc, Ht, decide_True in Hot by done.
    by apply orderly_app_l in Hot.
  - rewrite app_nil_r. assert (orderly (tplan t before) (apart t)) as Hob.
    { pose proof (tplan_orderly t) as Hot. rewrite Ej in Hot at 1. unfold tplan in Hot at 1. rewrite bind_app in Hot. by apply orderly_app_l in Hot. }
    split; [eapply follow_copies; [done|exact Hf| |exact Hc]; apply entry_apart; [done|by rewrite Ht]|].
    intros -> Hne. destruct Hc as [[_ [Hs _]%copy_ok_sent]|[? _]]; [|done]. eapply quiet_sent; [exact Hs|congruence|auto].
Qed.
Lemma loop_inv m0 t before after ranks w : jobs = before ++ after → inv m0 t before w →
  wp_ (g2g_loop op spaces d st after ranks) w (λ x w', x.2 = 0 → inv m0 t jobs w').
Proof.
  revert before ranks w. induction after as [|j after IH]; intros before ranks w Ej Hi; cbn [g2g_loop].
  { rewrite app_nil_r in Ej. subst before. by intros _. }
  apply wp_seq. eapply wp_mono; [apply entry_wp|]. intros [[o rk] r] w1 (Eo & _ & Hj). cbn [fst snd] in *. subst o. unfold BM_OK.
  destruct (jtag j) as [t'|] eqn:Ht; [|by destruct Hj as [_ ->]]. destruct Hj as [_ (r' & Hc & Hr)].
  destruct (Z.eqb_spec r 0) as [-> |Hne]; cbn [negb]; [|by intros ?]. assert (r' = 0) as -> by tauto.
  apply (IH (before ++ [j])); [by rewrite <- app_assoc|]. by eapply entry_inv.
Qed.
Lemma loop_ranks after ranks w : wp_ (g2g_loop op spaces d st after ranks) w (λ x w', ranks ⊆ x.1.2 ∧
  (x.2 = 0 → ∀ j, j ∈ after → ∃ t, jtag j = Some t ∧ ∀ r, t = TRank r → r ∈ x.1.2) ∧
  (x.2 ≠ 0 → failed w' = true ∨ ∃ j, j ∈ after ∧ jtag j = None)).
Proof.
  revert ranks w. induction after as [|j after IH]; intros ranks w; cbn [g2g_loop].
  { split_and!; [done|by intros _ j ?%not_elem_of_nil|done]. }
  apply wp_seq. eapply wp_mono; [apply entry_wp|]. intros [[o rk] r] w1 (Eo & Hsub & Hj). cbn [fst snd] in *. subst o. unfold BM_OK.
  destruct (Z.eqb_spec r 0) as [-> |Hne]; cbn [negb].
  - eapply wp_mono; [apply IH|]. intros x w2 (I1 & I2 & I3). split_and!; [by etrans| |].
    + intros Hx j' [-> |Hj']%elem_of_cons; [|by apply I2]. destruct (jtag j) as [t|]; [|by destruct Hj]. exists t. split; [done|].
      intros r Hr. apply I1, Hj; done.
    + intros Hx. destruct (I3 Hx) as [?|(j' & ? & ?)]; [by left|right]. exists j'. split; [by right|done].
  - split_and!; [done|done|]. intros _. destruct (jtag j) as [t|] eqn:Ht; [left|right; exists j; by split; [left|]].
    destruct Hj as [_ (r' & Hc & Hr)]. rewrite (copies_failed _ _ _ _ _ Hc). assert (r' ≠ 0) as Hr' by tauto. apply Z.eqb_neq in Hr'.
    rewrite Hr'. by destruct (failed w).
Qed.

Abbreviation same3 := (λ x : DataOpDeviceRDMA * gset Z * Z, x.1.1 = op).
Lemma entry_asks (W : Loc → Prop) j ranks : inside W (jmoves j) → asks (writes_in me W) same3 (g2g_entry op spaces d st j ranks).
Proof.
  intros Hi. unfold g2g_entry, jmoves, tcall in *. rewrite Htrans. destruct (Z.eqb_spec (rs j) me) as [Es|Es]; cbn [andb].
  - destruct (Z.eqb_spec (rd j) me) as [Ed|Ed].
    + apply asks_seq. destruct (DataCopy_mine j Es Ed) as [kind ->].
      rewrite Es, Ed in Hi. split; [|done]. by split.
    + rewrite Es in Hi. split; [|done]. by split.
  - destruct (Z.eqb_spec (rd j) me) as [Ed|Ed]; [|done]. rewrite Ed in Hi. split; [|done]. by split.
Qed.
Lemma loop_asks (W : Loc → Prop) l ranks : inside W (l ≫= jmoves) → asks (writes_in me W) same3 (g2g_loop op spaces d st l ranks).
Proof.
  revert ranks. induction l as [|j l IH]; intros ranks Hi; [done|]. cbn [g2g_loop]. rewrite bind_cons in Hi. apply inside_app in Hi as [H1 H2].
  apply asks_seq. eapply asks_mono; [by apply entry_asks|done|]. intros [[o rk] r] Eo. cbn in Eo. subst o. destruct (negb _); [done|auto].
Qed.

(** *** The loop and the waits *)
Abbreviation writable := (λ l : Loc, X l ∨ l ∈ all.*1).
Lemma all_writable : inside writable all.
Proof. intros x y Hin. right. apply list_elem_of_fmap. by exists (x, y). Qed.
Lemma elem_of_set_order s r : r ∈ set_order s ↔ r ∈ s.
Proof. unfold set_order. rewrite merge_sort_Permutation. apply elem_of_elements. Qed.
Lemma sync_wp m0 ranks w : (∀ t, t ∈ omap jtag jobs → inv m0 t jobs w) →
  (∀ t r, t ∈ omap jtag jobs → t = TRank r → r ∈ ranks) →
  wp_ (submit (λ r, tcall op (Synchronize r)) (set_order ranks)) w (λ r w', (r ≠ 0 → failed w' = true) ∧
    (r = 0 → ∀ t, t ∈ omap jtag jobs → following m0 (tplan t jobs) t (apart t) w' ∧ (tplan t jobs ≠ [] → quiet t w'))).
Proof.
  intros Hinv Hr. unfold tcall. rewrite Htrans.
  assert (failing me (submit (λ r, call (Synchronize r)) (set_order ranks))) as Hfail by (apply failing_submit; intros x _; by apply failing_call).
  eapply wp_mono; [apply wp_and; [apply Hfail|apply wp_and; [apply (wp_forall_in _ _ _ _ (omap jtag jobs) (λ t r w', following m0 (tplan t jobs) t (apart t) w' ∧ (t = TNow → tplan t jobs ≠ [] → quiet TNow w')))|
    apply (waits_quiet me id (set_order ranks) [])]]|].
  - eapply wp_mono; [apply Hfail|done].
  - intros t Ht. destruct (Hinv t Ht) as [Hf Hq]. apply wp_and.
    + eapply wp_mono; [eapply (keeps_following me (apart t) (λ _, True)); [by apply (waits_ask me (apart t) id)|apply tplan_orderly|exact Hf]|]. by intros a w' [_ H].
    + clear -Hq. revert w Hq. generalize (set_order ranks). intros l. induction l as [|r l IH]; intros w Hq; [done|]. cbn [submit].
      apply wp_seq. split; [done|]. intros w1 ret (w2 & Ha & [(-> & _ & ->)|(Hr & ->)]); cbn [wp].
      * apply IH. intros E1 E2. eapply quiet_adv; eauto.
      * assert (t = TNow → tplan t jobs ≠ [] → quiet TNow (fail w2)) as Hq2 by (intros E1 E2; eapply (quiet_adv TNow w w2); eauto).
        destruct (negb _); [done|by apply IH].
  - by intros r ?%not_elem_of_nil.
  - intros ret w' (H1 & H2 & H3). split; [done|]. intros Hret t Ht. destruct (H2 t Ht) as [G1 G2]. split; [done|]. intros Hne.
    assert (t = TNow ∨ ∃ r, t = TRank r) as [-> |[r ->]].
    { apply list_elem_of_omap in Ht as (j & _ & Hj). unfold jtag in Hj. destruct (_ && _); [by left; injection Hj|].
      destruct (_ =? _); [right; injection Hj as <-; eauto|]. destruct (_ =? _); [right; injection Hj as <-; eauto|done]. }
    + by apply G2.
    + apply H3; [done|]. right. rewrite list_fmap_id. apply elem_of_set_order. by apply (Hr (TRank r)).
Qed.
Lemma g2g_done m0 w : still m0 writable w → (∀ j, j ∈ jobs → ∃ t, jtag j = Some t) →
  (∀ t, t ∈ omap jtag jobs → following m0 (tplan t jobs) t (apart t) w ∧ (tplan t jobs ≠ [] → quiet t w)) → did m0 X none all w.
Proof.
  intros HY Htags Ht.
  assert (∀ x y, (x, y) ∈ all → ∃ t, (x, y) ∈ tplan t jobs ∧ following m0 (tplan t jobs) t (apart t) w ∧ quiet t w) as Hin.
  { intros x y (j & Hin & Hj)%list_elem_of_bind. destruct (Htags j Hj) as [t Hjt]. exists t.
    assert ((x, y) ∈ tplan t jobs) as Hp by (apply list_elem_of_bind; exists j; by rewrite decide_True).
    destruct (Ht t) as [H1 H2]; [apply list_elem_of_omap; by exists j|]. split_and!; [done..|]. apply H2. intros E. rewrite E in Hp. by apply not_elem_of_nil in Hp. }
  split.
  - intros x y Hxy. destruct (Hin x y Hxy) as (t & Hp & Hf & Hq). by apply (quiet_done w Hf Hq).
  - intros l HX _ Hn. apply (fo_frame _ _ _ _ _ HY); [tauto|]. apply not_elem_of_nil.
  - split; [|done|by intros x y []%not_elem_of_nil]. intros f Hf. right. intros x y Hxy.
    destruct (fo_flights _ _ _ _ _ HY f Hf) as [[_ Hsub]|HX]; [by apply Hsub, not_elem_of_nil in Hxy|].
    destruct (HX x y Hxy) as [?|Hst]; [done|]. exfalso. apply list_elem_of_fmap in Hst as ([x' y'] & Ex & Hst). cbn in Ex. subst x'.
    destruct (or_X _ _ Ho x y' Hst) as [N1 _]. destruct (Hin x y' Hst) as (t & Hp & Hr & Hq).
    destruct (fo_flights _ _ _ _ _ Hr f Hf) as [[Ht' _]|HZ]; [by apply (Hq f Hf)|].
    destruct (HZ x y Hxy) as [?|[_ Hnin]]; [done|]. apply Hnin, list_elem_of_fmap. by exists (x, y').
Qed.

(** *** The whole *)
Lemma g2g_asks o : asks (writes_in me writable) (λ x, x.1 = op) (BatchCopyG2G op spaces jobs (mkOptions (srcRankId o) (destRankId o) st) d).
Proof.
  apply asks_seq. eapply asks_mono; [apply (loop_asks writable jobs), all_writable|done|].
  intros [[o' rk] r] Eo. cbn in Eo. subst o'. destruct (negb _); [done|]. apply keep_asks. unfold tcall. rewrite Htrans.
  apply (waits_ask me writable id).
Qed.
Lemma loop_all w : still (mem w) X w → wp_ (g2g_loop op spaces d st jobs ∅) w (λ x w', x.1.1 = op ∧
  (x.2 = 0 → (∀ j, j ∈ jobs → ∃ t, jtag j = Some t ∧ ∀ r, t = TRank r → r ∈ x.1.2) ∧ ∀ t, t ∈ omap jtag jobs → inv (mem w) t jobs w') ∧
  (x.2 ≠ 0 → failed w' = true ∨ ∃ j, j ∈ jobs ∧ jtag j = None)).
Proof.
  intros Hs. assert (∀ Z' : Loc → Prop, (∀ l, X l → Z' l) → still (mem w) Z' w) as Hw by (intros Z' HZ; by eapply still_widen).
  eapply wp_mono; [apply wp_and; [apply (loop_ranks jobs ∅)|apply wp_and;
    [apply (wp_forall_in _ _ _ _ (omap jtag jobs) (λ t x w', x.2 = 0 → inv (mem w) t jobs w'))|
     apply (keeps_following me writable same3 _ (mem w) [] TNow)]]|].
  - eapply wp_mono; [apply (loop_ranks jobs ∅)|done].
  - intros t Ht. apply (loop_inv (mem w) t []); [done|]. split; [|done]. apply (follow_none _ TNow), Hw. intros l ?; by left.
  - apply loop_asks, all_writable.
  - done.
  - apply Hw. intros l ?; by left.
  - intros x w' ((_ & T1 & F1) & I1 & Eo & _). split_and!; [done| |done]. intros Hx. split; [by apply T1|]. intros t Ht. by apply I1.
Qed.
Lemma g2g_run o w : still (mem w) X w → wp_ (BatchCopyG2G op spaces jobs (mkOptions (srcRankId o) (destRankId o) st) d) w (λ x w',
  (x.2 ≠ 0 → failed w' = true ∨ ∃ j, j ∈ jobs ∧ jtag j = None) ∧ (x.2 = 0 → still (mem w) writable w' → did (mem w) X none all w')).
Proof.
  intros Hs. apply wp_seq. eapply wp_mono; [by apply loop_all|]. intros [[o' rk] r] w1 (Eo & T1 & F1). cbn [fst snd] in *. subst o'. unfold BM_OK.
  destruct (Z.eqb_spec r 0) as [-> |Hr]; cbn [negb]; [|by cbn; tauto]. destruct (T1 eq_refl) as [T2 I2]. apply wp_seq.
  eapply wp_mono; [apply (sync_wp (mem w) rk w1 I2)|].
  - intros t r Ht ->. apply list_elem_of_omap in Ht as (j & Hj & Hjt). destruct (T2 j Hj) as (t' & Ht' & H). apply H. congruence.
  - intros r w2 (F2 & D2). cbn. split; [tauto|]. intros Hr HY0. apply g2g_done; [done| |by apply D2].
    intros j Hj. destruct (T2 j Hj) as (t & Ht & _). by exists t.
Qed.
End G2G.

Lemma BatchCopyG2G_does op p X (Y : Loc → Prop) E spaces jobs o d : transportManager_ op = true → both_global d = true →
  (∀ l, X l → Y l) → orderly (jobs ≫= jmoves spaces) X → inside Y (jobs ≫= jmoves spaces) →
  (∀ j, j ∈ jobs → jtag op spaces j = None → E) →
  does_op op X Y E (swap_of (rankId_ op) p) (jobs ≫= jmoves spaces) (BatchCopyG2G op spaces jobs o d).
Proof.
  intros Htr Hd HXY Ho Hi HE. apply (does_op_scratch _ _ _ _ none); [by intros l []|]. intros w Hs.
  set (Y0 l := X l ∨ l ∈ (jobs ≫= jmoves spaces).*1).
  assert (∀ l, Y0 l → Y l) as HY by (intros l [?|([x y] & -> & Hin)%list_elem_of_fmap]; [by apply HXY|by apply (Hi x y)]).
  destruct o as [os od st]. pose proof (g2g_asks op spaces X Htr d Hd st jobs (mkOptions os od st)) as Hasks.
  eapply wp_mono; [apply wp_and; [eapply (keeps_following (rankId_ op) Y0 (λ x, x.1 = op) _ (mem w) [] TNow w Hasks); [done|]|
    by apply (g2g_run op spaces X Htr d Hd st jobs Ho (mkOptions os od st))]|].
  - eapply still_widen; [exact Hs|]. intros l ?; by left.
  - intros x w' [[Ex SY] [Hf Hok]]. split; [done|]. split_and!; [by eapply still_widen|auto|].
    intros Hr. destruct (Hf Hr) as [?|(j & Hj & Hn)]; [by left|right; eauto].
Qed.

(** ** A copy in any direction *)

Lemma device_DataCopy_copied op p live X w j d o :
  ready op p live → known d = true → involved op o → job_fits j → (∀ l, swap_of (rankId_ op) p l → ¬ X l) →
  orderly (copy_plan op d o j) (either X (swap_of (rankId_ op) p)) → still (mem w) X w →
  wp fabric_ok (fabric_step (rankId_ op)) (DataCopy op j d o) w
    (copied op p X (¬ room swapSize p) (mem w) (copy_plan op d o j)).
Proof.
  intros [Htr Hpool Hinv] Hk Hin Hj HSX Ho Hs. apply (does_copied _ _ _ _ (swap_of (rankId_ op) p)); [done| |done].
  eapply DataCopy_does; try done.
  - intros l ?; by left.
  - intros l ?; by right; left.
  - intros n Hn Hc Hr. by rewrite Hr in Hc.
  - intros x y Hxy. right; right. apply list_elem_of_fmap. by exists (x, y).
Qed.

(** C8: a data copy over device RDMA, in any of the twelve directions, one of the two
    ranks named being the caller's.  However the device and the transport split,
    order and repeat the moves of the bytes: success means that the destination
    holds the bytes the source had; nothing else but the swap space is written, on
    errors too; the swap space is given back whole; and the copy fails only when a
    call fails or the swap space has no room for a chunk. *)
Theorem device_copy_exact op p live X w j d o :
  ready op p live → known d = true → involved op o → job_fits j → (∀ l, swap_of (rankId_ op) p l → ¬ X l) →
  orderly (copy_plan op d o j) (either X (swap_of (rankId_ op) p)) → still (mem w) X w →
  wp fabric_ok (fabric_step (rankId_ op)) (DataCopy op j d o) w
    (copied op p X (¬ room swapSize p) (mem w) (copy_plan op d o j)).
Proof. apply device_DataCopy_copied. Qed.

(** ** Batches in any direction *)
Definition elsewhere (op : DataOpDeviceRDMA) (spaces : list GvaSpace) (j : hybm_copy_params) : Prop :=
  GetRankIdByGva spaces (src j) ≠ rankId_ op ∧ GetRankIdByGva spaces (dest j) ≠ rankId_ op.
Lemma jtag_elsewhere op spaces j : jtag op spaces j = None → elsewhere op spaces j.
Proof. unfold jtag, elsewhere. destruct (Z.eqb_spec (GetRankIdByGva spaces (src j)) (rankId_ op)), (Z.eqb_spec (GetRankIdByGva spaces (dest j)) (rankId_ op)); done. Qed.

Lemma BatchDataCopy_does op p live X (Y : Loc → Prop) E order spaces jobs d o :
  ready op p live → (∀ m, order m ≡ₚ map_to_list m) → batch_supported op d o → Forall job_fits jobs →
  (∀ l, X l → Y l) → (∀ l, swap_of (rankId_ op) p l → Y l) → (∀ l, swap_of (rankId_ op) p l → ¬ X l) →
  (∀ n, 0 < n ≤ swapSize → pool_CanAllocate p n = false → E) →
  (∀ j, j ∈ jobs → both_global d = true → elsewhere op spaces j → E) →
  orderly (batch_plan op spaces d o jobs) (either X (swap_of (rankId_ op) p)) → inside Y (batch_plan op spaces d o jobs) →
  does_op op X Y E (swap_of (rankId_ op) p) (batch_plan op spaces d o jobs) (BatchDataCopy order op spaces jobs d o).
Proof.
  intros Hready Horder (Hk & Hfrom & Hto) Hf HXY HSY HSX Hroom HE Ho Hi.
  assert (from_local d = true → does_op op X Y E (swap_of (rankId_ op) p) (batch_plan op spaces d o jobs) (BatchCopyWrite order op spaces jobs o d)) as H1
    by (intros Hd; eapply BatchCopyWrite_does; eauto).
  assert (to_local d = true → does_op op X Y E (swap_of (rankId_ op) p) (batch_plan op spaces d o jobs) (BatchCopyRead order op spaces jobs o d)) as H2
    by (intros Hd; eapply BatchCopyRead_does; eauto).
  assert (both_global d = true → does_op op X Y E (swap_of (rankId_ op) p) (batch_plan op spaces d o jobs) (BatchCopyG2G op spaces jobs o d)) as H3.
  { intros Hd. assert (batch_plan op spaces d o jobs = jobs ≫= jmoves spaces) as Eb.
    { apply list_bind_ext; [|done]. intros j. unfold batch_to, batch_from, jmoves. by destruct d. }
    rewrite Eb in *. apply BatchCopyG2G_does; [apply Hready|done|done|by eapply orderly_none|done|].
    intros j Hj Ht. apply (HE j Hj Hd). by apply jtag_elsewhere. }
  destruct d; try discriminate Hk; cbn [BatchDataCopy]; auto.
Qed.

Lemma device_BatchDataCopy_copied op p live X w order spaces jobs d o :
  ready op p live → (∀ m, order m ≡ₚ map_to_list m) → batch_supported op d o → Forall job_fits jobs →
  (∀ l, swap_of (rankId_ op) p l → ¬ X l) →
  orderly (batch_plan op spaces d o jobs) (either X (swap_of (rankId_ op) p)) → still (mem w) X w →
  wp fabric_ok (fabric_step (rankId_ op)) (BatchDataCopy order op spaces jobs d o) w
    (copied op p X (¬ room swapSize p ∨ ∃ j, j ∈ jobs ∧ both_global d = true ∧ elsewhere op spaces j)
       (mem w) (batch_plan op spaces d o jobs)).
Proof.
  intros Hready Horder Hsup Hf HSX Ho Hs. apply (does_copied _ _ _ _ (swap_of (rankId_ op) p)); [done| |done].
  eapply BatchDataCopy_does; try done.
  - intros l ?; by left.
  - intros l ?; by right; left.
  - intros n Hn Hc. left. intros Hr. by rewrite Hr in Hc.
  - intros j ? ? ?. right. by exists j.
  - intros x y Hxy. right; right. apply list_elem_of_fmap. by exists (x, y).
Qed.

(** C7: a batch over device RDMA, in any of the twelve directions, whose destinations
    do not overlap one another, the sources or the swap space: success means that
    every entry has been copied and nothing of the batch is under way any more,
    although transfers to several ranks, local copies, a batch call that may be
    tried again, and copies through the swap space overlap in time; nothing else is
    written, and the swap space is given back whole.  The batch fails only when a
    call fails, the swap space has no room, or an entry between two global addresses
    has neither of them at the caller's rank. *)
Theorem device_batch_exact op p live X w order spaces jobs d o :
  ready op p live → (∀ m, order m ≡ₚ map_to_list m) → batch_supported op d o → Forall job_fits jobs →
  (∀ l, swap_of (rankId_ op) p l → ¬ X l) →
  orderly (batch_plan op spaces d o jobs) (either X (swap_of (rankId_ op) p)) → still (mem w) X w →
  wp fabric_ok (fabric_step (rankId_ op)) (BatchDataCopy order op spaces jobs d o) w
    (copied op p X (¬ room swapSize p ∨ ∃ j, j ∈ jobs ∧ both_global d = true ∧ elsewhere op spaces j)
       (mem w) (batch_plan op spaces d o jobs)).
Proof. apply device_BatchDataCopy_copied. Qed.

(** After [Initialize] the operator is ready, with a whole swap space. *)
Lemma device_init_ready me w op : inited_ op = false → transportManager_ op = true →
  wp fabric_ok (fabric_step me) (Initialize op) w (λ x _, x.2 = BM_OK → let a := rdmaSwapBaseAddr_ x.1 in
    rankId_ x.1 = rankId_ op ∧ (0 < a → a + swapSize < 2 ^ 64 →
      ready x.1 (pool_create a swapSize) ∅ ∧ room swapSize (pool_create a swapSize))).
Proof.
  intros Hi Ht. unfold Initialize. rewrite Hi. split; [done|]. intros w1 a _. cbn. destruct (Z.ltb_spec a 0); [done|]. cbn.
  rewrite Ht. split; [done|]. intros w2 r _. cbn. destruct (negb _).
  - unfold FreeSwapMemory. cbn. destruct (a =? nullptr); [done|]. rewrite Ht. split; [done|]. intros w3 r3 _. split; [done|]. intros w4 r4 _. done.
  - intros _. split; [done|]. intros Ha Hb. split; [|by apply room_fresh]. split; [done..|]. by apply pool_create_inv.
Qed.

(** ** Runs *)

(** The memory below address 20 is registered with the transport. *)
Definition at_once_reg (me : Z) (w : World) (c : Call) : World * Z :=
  match c with QueryHasRegistered a _ => (w, if a <? 20 then 1 else 0) | _ => at_once me w c end.
Lemma at_once_reg_step me w c : fabric_ok w c → fabric_step me w c (at_once_reg me w c).1 (at_once_reg me w c).2.
Proof. intros Hc. pose proof (at_once_step me w c Hc) as Hs. by destruct c. Qed.

Definition dev_op : DataOpDeviceRDMA := mkOp true 0 0x100000 true (Some (pool_create 0x100000 swapSize)).
Lemma dev_ready : ready dev_op (pool_create 0x100000 swapSize) ∅.
Proof. split; [done..|]. by apply pool_create_inv. Qed.
Definition dev_copy : prog (DataOpDeviceRDMA * Z) :=
  DataCopy dev_op (mkParams 10 20 3) HYBM_GLOBAL_DEVICE_TO_LOCAL_HOST (mkOptions 1 0 0).
Lemma dev_copy_orderly : orderly (copy_plan dev_op HYBM_GLOBAL_DEVICE_TO_LOCAL_HOST (mkOptions 1 0 0) (mkParams 10 20 3))
  (either none (swap_of (rankId_ dev_op) (pool_create 0x100000 swapSize))).
Proof. apply orderly_for_ok. apply (bool_decide_unpack _). vm_compute. exact I. Qed.
Lemma device_copy_exact_witness : let x := run (at_once_reg 0) dev_copy demo_world in
  x.2.2 = BM_OK ∧ mem x.1 (0, 21) = mem demo_world (1, 11).
Proof.
  assert ((run (at_once_reg 0) dev_copy demo_world).2.2 = BM_OK) as Hret by (vm_compute; reflexivity).
  pose proof (device_copy_exact dev_op (pool_create 0x100000 swapSize) ∅ none demo_world (mkParams 10 20 3)
    HYBM_GLOBAL_DEVICE_TO_LOCAL_HOST (mkOptions 1 0 0) dev_ready (eq_refl _) (or_intror (eq_refl _))
    ltac:(vm_compute; intuition discriminate) (λ l _ H, H) dev_copy_orderly demo_still) as Hw.
  apply (wp_run _ _ (at_once_reg 0) _ _ _ (at_once_reg_step 0)) in Hw. fold dev_copy in Hw.
  revert Hret Hw. generalize (run (at_once_reg 0) dev_copy demo_world). intros x Hret (_ & _ & Hok & _). split; [exact Hret|].
  apply (proj1 (Hok Hret) (0, 21) (1, 11)). apply elem_of_moves. exists 1. split_and!; reflexivity || lia.
Defined.

(** One entry is registered, one at the caller's rank, one goes through the swap space. *)
Definition dev_jobs : list hybm_copy_params := [mkParams 10 0x80001000 3; mkParams 30 0x80000000 2; mkParams 50 0x80001003 1].
Definition dev_batch : prog (DataOpDeviceRDMA * Z) :=
  BatchDataCopy map_to_list dev_op demo_spaces dev_jobs HYBM_LOCAL_DEVICE_TO_GLOBAL_HOST (mkOptions 0 1 0).
Lemma dev_batch_orderly : orderly (batch_plan dev_op demo_spaces HYBM_LOCAL_DEVICE_TO_GLOBAL_HOST (mkOptions 0 1 0) dev_jobs)
  (either none (swap_of (rankId_ dev_op) (pool_create 0x100000 swapSize))).
Proof. apply orderly_for_ok. apply (bool_decide_unpack _). vm_compute. exact I. Qed.
Lemma dev_batch_fits : Forall job_fits dev_jobs.
Proof. repeat constructor; vm_compute; intuition discriminate. Qed.
Lemma device_batch_exact_witness : let x := run (at_once_reg 0) dev_batch demo_world in
  x.2.2 = BM_OK ∧ mem x.1 (1, 0x80001003) = mem demo_world (0, 50).
Proof.
  assert ((run (at_once_reg 0) dev_batch demo_world).2.2 = BM_OK) as Hret by (vm_compute; reflexivity).
  pose proof (device_batch_exact dev_op (pool_create 0x100000 swapSize) ∅ none demo_world map_to_list demo_spaces dev_jobs
    HYBM_LOCAL_DEVICE_TO_GLOBAL_HOST (mkOptions 0 1 0) dev_ready (λ m, reflexivity _) ltac:(vm_compute; intuition discriminate)
    dev_batch_fits (λ l _ H, H) dev_batch_orderly demo_still) as Hw.
  apply (wp_run _ _ (at_once_reg 0) _ _ _ (at_once_reg_step 0)) in Hw. fold dev_batch in Hw.
  revert Hret Hw. generalize (run (at_once_reg 0) dev_batch demo_world). intros x Hret (_ & _ & Hok & _). split; [exact Hret|].
  apply (proj1 (Hok Hret) (1, 0x80001003) (0, 50)). unfold batch_plan. apply list_elem_of_bind. exists (mkParams 50 0x80001003 1).
  split; [|do 2 right; left]. apply elem_of_moves. exists 0. split_and!; reflexivity || lia.
Defined.

(** ** Failures *)

(** A fabric that starts one transfer and refuses the next; the transfer is made
    when the program asks for a stream. *)
Definition stalled (me : Z) (w : World) (c : Call) : World * Z :=
  match effect me c with
  | ECopy (TRank r) ms => if decide (flights w = []) then (post w [mkFlight (TRank r) ms], 0) else (fail w, -1)
  | ECopy _ ms => if decide (Forall (λ f, f_tag f ≠ TNow) (flights w)) then (copy_now w ms, 0) else (fail w, -1)
  | EStop _ => (fail (settle w), -1)
  | EWait _ => (fail w, -1)
  | EPass => (match c with GetThreadAclStream => land w | _ => w end, 1)
  end.
Lemma stalled_step me w c : fabric_step me w c (stalled me w c).1 (stalled me w c).2.
Proof.
  unfold fabric_step, stalled. destruct (effect me c) as [t ms|ms|t|]; [|by apply stops_none|exists w; split; [done|by right]|destruct c; done || apply land_adv].
  destruct t; case_decide; try (left; split; [done|by apply copy_now_ok]); try (right; split; [done|by apply refused]).
  left. split; [done|]. exists w, [mkFlight (TRank r) ms]. split_and!; [done|cbn; by rewrite app_nil_r|by repeat constructor|done|done].
Qed.
Definition abandoned : prog Z :=
  x ← BatchDataCopy map_to_list dev_op demo_spaces [mkParams 10 0x80001000 1; mkParams 11 0x80001001 1]
        HYBM_LOCAL_DEVICE_TO_GLOBAL_HOST (mkOptions 0 1 0);
  _ ← call (Memcpy 10 40 1 ACL_MEMCPY_HOST_TO_HOST);
  _ ← call GetThreadAclStream;
  Ret x.2.
(** When a transfer of a batch cannot be started, the batch returns without waiting
    for those before it: the caller, told that the batch has failed, reuses its
    memory, and the destination receives the new bytes. *)
Theorem device_batch_left_running :
  may (fabric_step 0) abandoned demo_world (λ r w,
    r ≠ BM_OK ∧ mem w (1, 0x80001000) = mem demo_world (0, 40) ∧ mem demo_world (0, 40) ≠ mem demo_world (0, 10)).
Proof.
  eapply may_mono; [apply (may_run _ (stalled 0)), stalled_step|]. intros r w Hr.
  pose proof (f_equal fst Hr) as Hw. apply (f_equal snd) in Hr. change (w = (run (stalled 0) abandoned demo_world).1) in Hw.
  change (r = (run (stalled 0) abandoned demo_world).2) in Hr. rewrite Hw, Hr.
  split; [vm_compute; discriminate|]. split; [vm_compute; reflexivity|]. vm_compute. discriminate.
Qed.

(** After [UnInitialize] the swap memory is freed but its allocator is kept, and a
    copy does not ask whether the operator is initialised: it stages its bytes in
    the freed memory. *)
Theorem device_copy_uses_freed op p live j o :
  rdmaSwapMemoryAllocator_ op = Some p → pool_inv p live → pool_CanAllocate p (dataSize j) = true → 0 < dataSize j ≤ swapSize →
  fits (src j) 0 → destRankId o ≠ rankId_ op →
  asks (λ _, True) (λ op', inited_ op' = false ∧ rdmaSwapBaseAddr_ op' = nullptr ∧ ∃ a k,
    DataCopy op' j HYBM_LOCAL_HOST_TO_GLOBAL_HOST o = Act (Memcpy a (src j) (dataSize j) ACL_MEMCPY_HOST_TO_HOST) k ∧
    swap_of (rankId_ op) p (rankId_ op, a)) (UnInitialize op).
Proof.
  intros Hp Hinv Hc Hn [Hs1 Hs2] Ho.
  assert (∀ op', rankId_ op' = rankId_ op → rdmaSwapMemoryAllocator_ op' = Some p → ∃ a k,
    DataCopy op' j HYBM_LOCAL_HOST_TO_GLOBAL_HOST o = Act (Memcpy a (src j) (dataSize j) ACL_MEMCPY_HOST_TO_HOST) k ∧
    swap_of (rankId_ op) p (rankId_ op, a)) as Hcopy.
  { intros op' Er Ep. cbn [DataCopy]. unfold CopyLH2GH, local_to_global, SafePut. apply Z.eqb_neq in Ho. rewrite Er, Ho.
    assert (valid_size (dataSize j)) as Hv by (unfold valid_size, max_request; pose proof swap_size; lia).
    destruct (swap_piece p live (dataSize j) Hinv Hv) as [[Hf _]|(p' & a & Ea & Hlo & Hhi & Ha & _)]; [congruence|].
    assert (∃ fuel, chunk_fuel swapSize (dataSize j) = S fuel) as [fuel ->].
    { exists (Z.to_nat (dataSize j / swapSize)). unfold chunk_fuel. pose proof (Z.div_pos (dataSize j) swapSize). rewrite <- Z2Nat.inj_succ by lia. done. }
    cbn [chunk_loop]. destruct (Z.leb_spec (dataSize j) 0); [lia|]. rewrite Z.min_l by lia. unfold with_swap. rewrite Ep, Ea. cbn [startAddress].
    destruct (Z.eqb_spec a nullptr) as [-> |_]; [done|]. rewrite Z.add_0_r, (u64_small (src j)) by lia. cbn. eexists a, _. split; [reflexivity|].
    unfold swap_of. cbn. lia. }
  unfold UnInitialize, FreeSwapMemory. destruct (Z.eqb_spec (rdmaSwapBaseAddr_ op) nullptr) as [Eb|Eb].
  - cbn. split_and!; [done|done|]. by apply Hcopy.
  - destruct (transportManager_ op); cbn; repeat (split; [done|]; intros _; cbn); split_and!; try done; by apply Hcopy.
Qed.
