(* ===== verification/StrUtil.v ===== *)
(** * Strings and numbers (src/src/util/csrc/mf_str_util.h, mf_num_util.h)

    A [std::string] is its list of bytes.  [strtoll], [strtoull] and
    [std::to_string] are modelled from the language standard: optional white
    space, sign, decimal digits, saturation with ERANGE; a pointer into the
    string is the suffix behind it, at whose end the C string has its NUL. *)
From Stdlib Require Import Strings.Byte Strings.String.
From stdpp Require Import base numbers list.
From S2P Require Import Prelude.
Local Open Scope Z_scope.

(** ** Characters *)
Definition is_char (c : Z) (b : byte) : bool := Z_of_byte b =? c.
Definition isspace (b : byte) : bool :=
  (Z_of_byte b =? 32) || ((9 <=? Z_of_byte b) && (Z_of_byte b <=? 13)).
Definition isdigit (b : byte) : bool := (48 <=? Z_of_byte b) && (Z_of_byte b <=? 57).
Definition digit (d : Z) : byte := byte_of_Z (48 + d).

(** ** std::to_string *)
Fixpoint dec_digits (fuel : nat) (z : Z) (acc : bytes) : bytes :=
  match fuel with
  | O => acc
  | S fuel' =>
      let acc' := digit (z mod 10) :: acc in
      if z <? 10 then acc' else dec_digits fuel' (z / 10) acc'
  end.
(** 64-bit integers have at most 20 digits. *)
Definition to_string (z : Z) : bytes :=
  if z <? 0 then byte_of_Z 45 :: dec_digits 20 (- z) [] else dec_digits 20 z [].

(** ** strtoll, strtoull *)
Fixpoint skip_space (s : bytes) : bytes :=
  match s with
  | b :: s' => if isspace b then skip_space s' else s
  | [] => []
  end.
Definition scan_sign (s : bytes) : bool * bytes :=
  match s with
  | b :: s' =>
      if is_char 45 b then (true, s') else if is_char 43 b then (false, s') else (false, s)
  | [] => (false, [])
  end.
Fixpoint scan_digits (s : bytes) (acc : Z) : Z * bytes :=
  match s with
  | b :: s' => if isdigit b then scan_digits s' (10 * acc + (Z_of_byte b - 48)) else (acc, s)
  | [] => (acc, [])
  end.
(** Sign, magnitude and the rest; [None] when there is no digit. *)
Definition scan_number (s : bytes) : option (bool * Z * bytes) :=
  let '(neg, s1) := scan_sign (skip_space s) in
  match s1 with
  | b :: _ => if isdigit b then let '(v, rest) := scan_digits s1 0 in Some (neg, v, rest) else None
  | [] => None
  end.

Definition I64_MAX : Z := 2 ^ 63 - 1.
Definition I64_MIN : Z := - 2 ^ 63.
(** Value, whether errno is ERANGE, and the end pointer. *)
Definition strtoll (s : bytes) : option (Z * bool * bytes) :=
  match scan_number s with
  | None => None
  | Some (neg, v, rest) =>
      let v' := if neg : bool then - v else v in
      Some (if I64_MAX <? v' then (I64_MAX, true, rest)
            else if v' <? I64_MIN then (I64_MIN, true, rest) else (v', false, rest))
  end.
(** A minus sign negates in the unsigned type. *)
Definition strtoull (s : bytes) : option (Z * bool * bytes) :=
  match scan_number s with
  | None => None
  | Some (neg, v, rest) =>
      Some (if U64_MAX <? v then (U64_MAX, true, rest)
            else (if neg : bool then u64 (- v) else v, false, rest))
  end.

(** The loop over trailing white space and the test for the end of the C string. *)
Definition at_end (rest : bytes) : bool :=
  match skip_space rest with
  | [] => true
  | b :: _ => is_char 0 b
  end.

(** ** StrUtil *)

(** [String2Int<IntType>]: the type is given by its maximum and its conversion. *)
Definition String2Int (maxT : Z) (castT : Z → Z) (str : bytes) : option Z :=
  match str with
  | [] => None
  | _ =>
      match strtoll str with
      | None => None
      | Some (result, erange, rest) =>
          if negb (at_end rest) then None else
          if erange || (maxT <? result) then None else Some (castT result)
      end
  end.
Definition String2Long : bytes → option Z := String2Int I64_MAX i64.
Definition String2Int32 : bytes → option Z := String2Int (2 ^ 31 - 1) i32.

Definition String2Uint (maxT : Z) (castT : Z → Z) (str : bytes) : option Z :=
  match str with
  | [] => None
  | b :: _ =>
      if is_char 45 b then None else
      match strtoull str with
      | None => None
      | Some (result, erange, rest) =>
          if negb (at_end rest) then None else
          if erange || (maxT <? result) then None else Some (castT result)
      end
  end.
Definition String2Uint64 : bytes → option Z := String2Uint U64_MAX u64.
Definition String2Uint32 : bytes → option Z := String2Uint U32_MAX u32.

(** The second loop of StrTrim stops at [start]. *)
Definition StrTrim (input : bytes) : bytes := rev (skip_space (rev (skip_space input))).

(** [std::getline] over the whole string: no item for an empty string, and none
    behind a final delimiter. *)
Fixpoint split_from (delimiter : byte) (str item : bytes) : list bytes :=
  match str with
  | [] => match item with [] => [] | _ => [item] end
  | b :: str' =>
      if decide (b = delimiter) then item :: split_from delimiter str' []
      else split_from delimiter str' (item ++ [b])
  end.
Definition Split (str : bytes) (delimiter : byte) : list bytes := split_from delimiter str [].

Definition StartWith (str prefix : bytes) : bool :=
  (List.length prefix <=? List.length str)%nat &&
  bool_decide (take (List.length prefix) str = prefix).

(** ** NumUtil *)
Definition UINT32_WIDTH : Z := 32.
Definition ExtractBits (flag startBit bitLength : Z) : Z :=
  if UINT32_WIDTH <=? startBit then U32_MAX else
  if (bitLength =? 0) || (UINT32_WIDTH <=? bitLength) then U32_MAX else
  if UINT32_WIDTH <? startBit + bitLength then U32_MAX else
  Z.land (Z.shiftr flag startBit) (u32 (Z.shiftl 1 bitLength) - 1).

(** [IsOverflowCheck] at a [w]-bit unsigned type. *)
Definition IsOverflowCheck (w a b max : Z) (calc : byte) : bool :=
  if is_char 43 calc then (max - b) mod 2 ^ w <? a else
  if is_char 42 calc then negb (b =? 0) && (max / b <? a) else true.

Definition is_blank (b : byte) : bool := is_char 32 b || is_char 9 b.
Fixpoint skip_blank (s : bytes) : bytes :=
  match s with
  | b :: s' => if is_blank b then skip_blank s' else s
  | [] => []
  end.
Definition IsDigit (str : bytes) : bool :=
  match skip_blank str with [] => false | s => forallb isdigit s end.

(** * Lemmas *)

Lemma Z_of_digit d : 0 ≤ d < 10 → Z_of_byte (digit d) = 48 + d.
Proof. intros Hd. unfold digit. rewrite Z_of_byte_of_Z. apply Z.mod_small. lia. Qed.
Lemma isdigit_digit d : 0 ≤ d < 10 → isdigit (digit d) = true.
Proof. intros Hd. unfold isdigit. rewrite Z_of_digit by done. lia. Qed.

Lemma scan_digits_app s acc rest :
  forallb isdigit s = true → match rest with b :: _ => isdigit b = false | [] => True end →
  ∃ v, scan_digits (s ++ rest) acc = (v, rest) ∧ v = foldl (λ a b, 10 * a + (Z_of_byte b - 48)) acc s.
Proof.
  intros Hs Hr. revert acc. induction s as [|b s IH]; intros acc; cbn in *.
  - eexists. split; [|done]. destruct rest as [|b r]; cbn; [done|]. by rewrite Hr.
  - apply andb_true_iff in Hs as [Hb Hs]. rewrite Hb. by apply IH.
Qed.

Lemma dec_digits_spec fuel z acc :
  0 ≤ z < 10 ^ Z.of_nat fuel → (0 < fuel)%nat → forallb isdigit acc = true →
  ∃ b s, dec_digits fuel z acc = b :: s ∧ forallb isdigit (b :: s) = true ∧
    foldl (λ a b, 10 * a + (Z_of_byte b - 48)) 0 (b :: s) =
    foldl (λ a b, 10 * a + (Z_of_byte b - 48)) z acc.
Proof.
  revert z acc. induction fuel as [|fuel IH]; intros z acc Hz Hf Hacc; [lia|]. clear Hf.
  cbn [dec_digits]. pose proof (Z.mod_pos_bound z 10 ltac:(lia)) as Hm.
  destruct (z <? 10) eqn:Hlt.
  - eexists _, _. split; [done|]. split.
    + cbn [forallb]. by rewrite isdigit_digit.
    + cbn [foldl]. rewrite Z_of_digit by done. f_equal. rewrite Z.mod_small; lia.
  - assert (0 ≤ z / 10 < 10 ^ Z.of_nat fuel) as Hq.
    { replace (Z.of_nat (S fuel)) with (Z.succ (Z.of_nat fuel)) in Hz by lia.
      rewrite Z.pow_succ_r in Hz by lia. split; [apply Z.div_pos; lia|].
      apply Z.div_lt_upper_bound; lia. }
    destruct (IH (z / 10) (digit (z mod 10) :: acc)) as (b & s & E & Hd & Hfold).
    + done.
    + destruct fuel; [|lia]. cbn in Hq. assert (1 ≤ z / 10) by (apply Z.div_le_lower_bound; lia). lia.
    + cbn [forallb]. by rewrite isdigit_digit.
    + exists b, s. split; [done|]. split; [done|]. rewrite Hfold. cbn [foldl].
      rewrite Z_of_digit by done. f_equal. pose proof (Z.div_mod z 10 ltac:(lia)). lia.
Qed.

Lemma digit_not_space b : isdigit b = true → isspace b = false ∧ is_char 45 b = false ∧ is_char 43 b = false.
Proof. unfold isdigit, isspace, is_char. lia. Qed.

(** Reading back what [to_string] prints, with anything but a digit behind it. *)
Lemma scan_number_to_string z rest :
  - 10 ^ 20 < z < 10 ^ 20 → match rest with b :: _ => isdigit b = false | [] => True end →
  scan_number (to_string z ++ rest) = Some (z <? 0, Z.abs z, rest).
Proof.
  intros Hz Hr. unfold to_string.
  destruct (dec_digits_spec 20 (Z.abs z) []) as (b & s & E & Hd & Hfold);
    [change (Z.of_nat 20) with 20; lia|lia|done|].
  change (foldl _ (Z.abs z) []) with (Z.abs z) in Hfold.
  destruct (scan_digits_app (b :: s) 0 rest Hd Hr) as (v & Es & Ev).
  rewrite Hfold in Ev. subst v.
  pose proof Hd as Hb. cbn [forallb] in Hb. apply andb_true_iff in Hb as [Hb _].
  destruct (digit_not_space b Hb) as (Hsp & Hm & Hp).
  unfold scan_number. destruct (z <? 0) eqn:Hneg.
  - replace (- z) with (Z.abs z) by lia. rewrite E. rewrite <- app_comm_cons. cbn [skip_space].
    change (isspace (byte_of_Z 45)) with false. cbn [scan_sign].
    change (is_char 45 (byte_of_Z 45)) with true. cbv iota zeta.
    rewrite <- app_comm_cons in *. rewrite Hb, Es. done.
  - replace (dec_digits 20 z []) with (b :: s) by (rewrite <- E; f_equal; lia).
    rewrite <- app_comm_cons in *. cbn [skip_space]. rewrite Hsp. cbn [scan_sign]. rewrite Hm, Hp.
    rewrite Hb, Es. done.
Qed.

Lemma to_string_nonempty z : - 10 ^ 20 < z < 10 ^ 20 → to_string z ≠ [].
Proof.
  intros Hz. unfold to_string. destruct (z <? 0) eqn:?; [done|].
  destruct (dec_digits_spec 20 z []) as (b & s & -> & _); [change (Z.of_nat 20) with 20; lia|lia|done|done].
Qed.

Lemma String2Int_to_string maxT castT z :
  I64_MIN ≤ z ≤ I64_MAX → z ≤ maxT → castT z = z →
  String2Int maxT castT (to_string z) = Some z.
Proof.
  unfold I64_MIN, I64_MAX. intros Hz Hmax Hcast. unfold String2Int.
  destruct (to_string z) as [|b s] eqn:E; [by apply to_string_nonempty in E; [|lia]|].
  pose proof (scan_number_to_string z [] ltac:(lia) I) as Hs. rewrite E, app_nil_r in Hs.
  unfold strtoll. rewrite Hs.
  assert ((if z <? 0 then - Z.abs z else Z.abs z) = z) as -> by (destruct (z <? 0) eqn:?; lia).
  unfold I64_MAX, I64_MIN. rewrite (proj2 (Z.ltb_ge _ z)), (proj2 (Z.ltb_ge z _)) by lia.
  cbn. rewrite (proj2 (Z.ltb_ge _ z)) by lia. by rewrite Hcast.
Qed.

Lemma String2Long_to_string z : I64_MIN ≤ z ≤ I64_MAX → String2Long (to_string z) = Some z.
Proof.
  intros Hz. apply String2Int_to_string; [done|lia|].
  apply i64_small. unfold I64_MIN, I64_MAX in *. lia.
Qed.

Lemma String2Uint_to_string maxT castT z :
  0 ≤ z ≤ U64_MAX → z ≤ maxT → castT z = z →
  String2Uint maxT castT (to_string z) = Some z.
Proof.
  unfold U64_MAX. intros Hz Hmax Hcast. unfold String2Uint.
  destruct (dec_digits_spec 20 z []) as (b & s & E & Hd & _);
    [change (Z.of_nat 20) with 20; lia|lia|done|].
  pose proof (scan_number_to_string z [] ltac:(lia) I) as Hs. rewrite app_nil_r in Hs.
  unfold to_string in *. rewrite (proj2 (Z.ltb_ge z 0)) in * by lia. rewrite E in *.
  cbn [forallb] in Hd. apply andb_true_iff in Hd as [Hb _].
  destruct (digit_not_space b Hb) as (_ & -> & _). unfold strtoull. rewrite Hs, Z.abs_eq by lia.
  unfold U64_MAX. rewrite (proj2 (Z.ltb_ge _ z)) by lia. cbn.
  rewrite (proj2 (Z.ltb_ge _ z)) by lia. by rewrite Hcast.
Qed.

Lemma to_string_inj a b :
  I64_MIN ≤ a ≤ I64_MAX → I64_MIN ≤ b ≤ I64_MAX → to_string a = to_string b → a = b.
Proof.
  intros Ha Hb E. pose proof (String2Long_to_string a Ha) as H1.
  rewrite E, (String2Long_to_string b Hb) in H1. congruence.
Qed.

(** * Properties *)

(** A printed 64-bit number is read back exactly: String2Int inverts
    std::to_string on all of long, String2Uint on all of uint64_t, and so the
    printed form determines the number. *)
Theorem string2int_roundtrip z :
  (I64_MIN ≤ z ≤ I64_MAX → String2Long (to_string z) = Some z ∧
     ∀ z', I64_MIN ≤ z' ≤ I64_MAX → to_string z' = to_string z → z' = z) ∧
  (0 ≤ z ≤ U64_MAX → String2Uint64 (to_string z) = Some z) ∧
  (0 ≤ z ≤ U32_MAX → String2Uint32 (to_string z) = Some z).
Proof.
  split_and!.
  - intros Hz. split; [by apply String2Long_to_string|]. intros z' Hz'. by apply to_string_inj.
  - intros Hz. apply String2Uint_to_string; [done|lia|]. apply u64_small. unfold U64_MAX in Hz. lia.
  - intros Hz. unfold U32_MAX in Hz. apply String2Uint_to_string.
    + unfold U64_MAX. lia.
    + unfold U32_MAX. lia.
    + apply u32_small. lia.
Qed.

Lemma string2int_roundtrip_witness : String2Long (to_string (-9223372036854775808)) = Some (-9223372036854775808).
Proof.
  refine (proj1 (proj1 (string2int_roundtrip (-9223372036854775808)) _)).
  unfold I64_MIN, I64_MAX. lia.
Defined.

(** The conversions to a narrower or unsigned type accept numbers outside it:
    an int below its minimum is truncated (no lower bound is tested), and a
    negative number behind white space passes the test of the first character
    and becomes a huge unsigned value. *)
Theorem string2int_accepts_out_of_range :
  (∀ z, I64_MIN ≤ z < - 2 ^ 31 → String2Int32 (to_string z) = Some (i32 z) ∧ i32 z ≠ z) ∧
  String2Uint64 (byte_of_Z 32 :: to_string (-1)) = Some U64_MAX.
Proof.
  split; [|reflexivity]. intros z Hz. split.
  - unfold String2Int32, String2Int, I64_MIN in *.
    destruct (to_string z) as [|b s] eqn:E; [by apply to_string_nonempty in E; [|lia]|].
    pose proof (scan_number_to_string z [] ltac:(lia) I) as Hs. rewrite E, app_nil_r in Hs.
    unfold strtoll. rewrite Hs, (proj2 (Z.ltb_lt z 0)) by lia.
    replace (- Z.abs z) with z by lia. unfold I64_MAX, I64_MIN.
    rewrite (proj2 (Z.ltb_ge _ z)), (proj2 (Z.ltb_ge z _)) by lia.
    cbn [at_end skip_space negb orb]. by rewrite (proj2 (Z.ltb_ge _ z)) by lia.
  - unfold i32, to_signed. pose proof (Z.mod_pos_bound z (2 ^ 32) ltac:(lia)).
    change (2 ^ (32 - 1)) with (2 ^ 31). destruct (_ <? _) eqn:?; lia.
Qed.

Lemma string2int_accepts_out_of_range_witness : String2Int32 (to_string (-3000000000)) = Some 1294967296.
Proof.
  refine (proj1 (proj1 string2int_accepts_out_of_range (-3000000000) _)).
  unfold I64_MIN. lia.
Defined.

(** Inside the word ExtractBits is the field of [bitLength] bits at [startBit];
    every other request, a full-width field of 32 bits included, answers UINT32_MAX. *)
Theorem extract_bits_field flag startBit bitLength :
  0 ≤ flag < 2 ^ 32 → 0 ≤ startBit → 0 ≤ bitLength →
  ExtractBits flag startBit bitLength =
  if (0 <? bitLength) && (bitLength <? 32) && (startBit + bitLength <=? 32)
  then (flag / 2 ^ startBit) mod 2 ^ bitLength else U32_MAX.
Proof.
  intros Hf Hs Hb. unfold ExtractBits, UINT32_WIDTH.
  destruct (32 <=? startBit) eqn:E1.
  { destruct ((0 <? bitLength) && (bitLength <? 32) && (startBit + bitLength <=? 32)) eqn:E; [lia|done]. }
  destruct ((bitLength =? 0) || (32 <=? bitLength)) eqn:E2.
  { destruct ((0 <? bitLength) && (bitLength <? 32) && (startBit + bitLength <=? 32)) eqn:E; [lia|done]. }
  destruct (32 <? startBit + bitLength) eqn:E3.
  { destruct ((0 <? bitLength) && (bitLength <? 32) && (startBit + bitLength <=? 32)) eqn:E; [lia|done]. }
  destruct ((0 <? bitLength) && (bitLength <? 32) && (startBit + bitLength <=? 32)) eqn:E; [|lia].
  rewrite Z.shiftl_1_l, u32_small.
  2: { split; [apply Z.pow_nonneg; lia|apply Z.pow_lt_mono_r; lia]. }
  replace (2 ^ bitLength - 1) with (Z.ones bitLength) by (rewrite Z.ones_equiv; lia).
  rewrite Z.land_ones, Z.shiftr_div_pow2 by lia. done.
Qed.

Lemma extract_bits_field_witness : ExtractBits 0xABCD 4 8 = 0xBC.
Proof. refine (extract_bits_field 0xABCD 4 8 _ _ _); lia. Defined.
