(* ===== verification/HcomHelper.v ===== *)
(** * The address of the host network card (transport/host/host_hcom_helper)

    [AnalysisNic] splits the configured card into protocol, address and port; a
    card given with a mask stands for the first local interface of that network.
    The regular expressions are the recognisers below: every repetition is a run
    of digits in front of a character that is none, so that the longest run is
    the only match.  [inet_aton] and [inet_ntop] are modelled for the dotted
    decimals the expressions let through; an IPv4 address is its value in host
    byte order, where masking commutes with [htonl]. *)
From Stdlib Require Import Strings.Byte Strings.String.
From stdpp Require Import base numbers list.
From S2P Require Import Prelude VaManager StrUtil.
Local Open Scope Z_scope.

Definition TCP_PROTOCOL_PREFIX : bytes := bytes_of_str "tcp://"%string.
Definition UBC_PROTOCOL_PREFIX : bytes := bytes_of_str "ubc://"%string.
Definition UBC_START_PORT : Z := 512.
Definition MIN_VALID_PORT : Z := 1024.
Definition MAX_VALID_PORT : Z := 65535.
Definition MIN_VALID_MASK : Z := 0.
Definition MAX_VALID_MASK : Z := 32.
Definition INADDR_NONE : Z := U32_MAX.

(** ** The regular expressions *)
Fixpoint span_digits (s : bytes) : bytes * bytes :=
  match s with
  | b :: s' => if isdigit b then let '(d, rest) := span_digits s' in (b :: d, rest) else ([], s)
  | [] => ([], [])
  end.
(** [\d{1,n}] *)
Definition match_digits (n : nat) (s : bytes) : option (bytes * bytes) :=
  let '(d, rest) := span_digits s in
  if (1 <=? List.length d)%nat && (List.length d <=? n)%nat then Some (d, rest) else None.
Definition match_char (c : Z) (s : bytes) : option bytes :=
  match s with b :: s' => if is_char c b then Some s' else None | [] => None end.
Definition match_prefix (p s : bytes) : option bytes := if StartWith s p then Some (drop (List.length p) s) else None.
(** [\d{1,3}\.\d{1,3}\.\d{1,3}\.\d{1,3}]: the four parts. *)
Definition match_ip (s : bytes) : option (list bytes * bytes) :=
  '(a, s) ← match_digits 3 s; s ← match_char 46 s;
  '(b, s) ← match_digits 3 s; s ← match_char 46 s;
  '(c, s) ← match_digits 3 s; s ← match_char 46 s;
  '(d, s) ← match_digits 3 s; Some ([a; b; c; d], s).
Definition match_end (s : bytes) : option () := match s with [] => Some () | _ => None end.
Definition dotted (parts : list bytes) : bytes :=
  match parts with [] => [] | x :: l => foldl (λ acc y, acc ++ "."%byte :: y) x l end.

(** [^(tcp://)(ip):(\d{1,5})$] and [^(tcp://)(ip)/(\d{1,2}):(\d{1,5})$] *)
Definition ipPortPattern (nic : bytes) : option (list bytes * bytes) :=
  s ← match_prefix TCP_PROTOCOL_PREFIX nic;
  '(ip, s) ← match_ip s; s ← match_char 58 s;
  '(port, s) ← match_digits 5 s; match_end s ≫= λ _, Some (ip, port).
Definition ipPortMaskPattern (nic : bytes) : option (list bytes * bytes * bytes) :=
  s ← match_prefix TCP_PROTOCOL_PREFIX nic;
  '(ip, s) ← match_ip s; s ← match_char 47 s;
  '(mask, s) ← match_digits 2 s; s ← match_char 58 s;
  '(port, s) ← match_digits 5 s; match_end s ≫= λ _, Some (ip, mask, port).

(** [([0-9a-fA-F]{4}:){7}[0-9a-fA-F]{4}] *)
Definition isxdigit (b : byte) : bool :=
  isdigit b || ((65 <=? Z_of_byte b) && (Z_of_byte b <=? 70)) || ((97 <=? Z_of_byte b) && (Z_of_byte b <=? 102)).
Fixpoint match_eid (groups : nat) (s : bytes) : bool :=
  (4 <=? List.length s)%nat && forallb isxdigit (take 4 s) &&
  match groups with
  | O => bool_decide (drop 4 s = [])
  | S groups => match match_char 58 (drop 4 s) with Some s => match_eid groups s | None => false end
  end.

(** ** inet_aton, inet_ntop *)

(** A part with a leading zero is octal. *)
Fixpoint octal (s : bytes) (acc : Z) : option Z :=
  match s with
  | [] => Some acc
  | b :: s => if Z_of_byte b <=? 55 then octal s (8 * acc + (Z_of_byte b - 48)) else None
  end.
Definition ip_part (s : bytes) : option Z :=
  v ← match s with
      | "0"%byte :: s' => octal s' 0
      | _ => Some (scan_digits s 0).1
      end;
  if v <=? 255 then Some v else None.
Definition inet_aton (parts : list bytes) : option Z :=
  vs ← mapM ip_part parts; Some (foldl (λ acc v, 256 * acc + v) 0 vs).
Definition inet_ntop (addr : Z) : bytes :=
  dotted (to_string <$> [addr / 2 ^ 24; addr / 2 ^ 16 mod 256; addr / 2 ^ 8 mod 256; addr mod 256]).

(** ** HostHcomHelper *)

(** The output parameters. *)
Record Nic := mkNic { protocol : bytes; ipStr : bytes; port : Z }.

Definition AnalysisUBNic (nic : bytes) (out : Nic) : Z * Nic :=
  let input := StrTrim nic in
  if (List.length input <? List.length UBC_PROTOCOL_PREFIX)%nat then (BM_INVALID_PARAM, out) else
  let eid := drop (List.length UBC_PROTOCOL_PREFIX) input in
  if match_eid 7 eid then (BM_OK, mkNic UBC_PROTOCOL_PREFIX eid UBC_START_PORT)
  else (BM_INVALID_PARAM, mkNic [] [] 0).

(** [ifs]: the interfaces [getifaddrs] lists, with the address of those of family
    AF_INET; [None] when it fails.  The result is [None] when the shift is by the
    width of its operand, which C++ leaves undefined. *)
Fixpoint first_in_network (netMask targetNetwork : Z) (ifs : list (option Z)) : option Z :=
  match ifs with
  | [] => None
  | Some a :: ifs =>
      if Z.land a netMask =? targetNetwork then Some a else first_in_network netMask targetNetwork ifs
  | None :: ifs => first_in_network netMask targetNetwork ifs
  end.
Definition SelectLocalIpByIpMask (ifs : option (list (option Z))) (ip : list bytes) (mask : Z) (localIp : bytes)
    : option (Z * bytes) :=
  let targetNet := default INADDR_NONE (inet_aton ip) in
  if targetNet =? INADDR_NONE then Some (BM_INVALID_PARAM, localIp) else
  if 32 <=? 32 - mask then None else
  let netMask := u32 (Z.shiftl U32_MAX (32 - mask)) in
  match ifs with
  | None => Some (BM_ERROR, localIp)
  | Some l =>
      Some match first_in_network netMask (Z.land targetNet netMask) l with
           | Some a => (BM_OK, inet_ntop a)
           | None => (BM_ERROR, localIp)
           end
  end.

Definition valid_port (p : Z) : bool := (MIN_VALID_PORT <=? p) && (p <=? MAX_VALID_PORT).

Definition AnalysisNicWithMask (ifs : option (list (option Z))) (nic : bytes) (out : Nic) : option (Z * Nic) :=
  match ipPortMaskPattern nic with
  | None => Some (BM_INVALID_PARAM, out)
  | Some (ip, maskStr, portStr) =>
      let out := mkNic TCP_PROTOCOL_PREFIX (ipStr out) (port out) in
      match String2Int32 maskStr with
      | None => Some (BM_INVALID_PARAM, out)
      | Some mask =>
          if negb ((MIN_VALID_MASK <=? mask) && (mask <=? MAX_VALID_MASK)) then Some (BM_INVALID_PARAM, out) else
          match String2Uint32 portStr with
          | None => Some (BM_INVALID_PARAM, out)
          | Some p =>
              let out := mkNic (protocol out) (ipStr out) p in
              if negb (valid_port p) then Some (BM_INVALID_PARAM, out) else
              '(ret, localIp) ← SelectLocalIpByIpMask ifs ip mask (ipStr out);
              Some (ret, mkNic (protocol out) localIp p)
          end
      end
  end.

Definition AnalysisNic (ifs : option (list (option Z))) (nic : bytes) (out : Nic) : option (Z * Nic) :=
  if StartWith nic UBC_PROTOCOL_PREFIX then Some (AnalysisUBNic nic out) else
  if bool_decide (is_Some (ipPortMaskPattern nic)) then AnalysisNicWithMask ifs nic out else
  match ipPortPattern nic with
  | None => Some (BM_INVALID_PARAM, out)
  | Some (ip, portStr) =>
      let out := mkNic TCP_PROTOCOL_PREFIX (dotted ip) (port out) in
      match String2Uint32 portStr with
      | None => Some (BM_INVALID_PARAM, out)
      | Some p =>
          let out := mkNic (protocol out) (ipStr out) p in
          if negb (valid_port p) then Some (BM_INVALID_PARAM, out) else
          match inet_aton ip with
          | None => Some (BM_INVALID_PARAM, out)
          | Some _ => Some (BM_OK, out)
          end
      end
  end.

Definition HYBM_DOP_TYPE_DEVICE_RDMA : Z := 2 ^ 2.
Definition HYBM_DOP_TYPE_HOST_RDMA : Z := 2 ^ 3.
Definition HYBM_DOP_TYPE_HOST_TCP : Z := 2 ^ 4.
Definition HYBM_DOP_TYPE_HOST_URMA : Z := 2 ^ 5.
Definition C_SERVICE_RDMA : Z := 0.
Definition C_SERVICE_TCP : Z := 1.
Definition C_SERVICE_UBC : Z := 6.
Definition has_bit (flags bit : Z) : bool := negb (Z.land flags bit =? 0).
Definition HybmDopTransHcomProtocol (hybmDop : Z) : Z :=
  if has_bit hybmDop HYBM_DOP_TYPE_HOST_TCP then C_SERVICE_TCP else
  if has_bit hybmDop HYBM_DOP_TYPE_HOST_URMA then C_SERVICE_UBC else C_SERVICE_RDMA.

(** ** Reading back a printed card *)
Definition octet (v : Z) : Prop := 0 ≤ v < 256.
Definition tcp_nic (ip : list Z) (mask : bytes) (p : Z) : bytes :=
  TCP_PROTOCOL_PREFIX ++ dotted (to_string <$> ip) ++ mask ++ ":"%byte :: to_string p.
Definition no_digit (s : bytes) : Prop := match s with b :: _ => isdigit b = false | [] => True end.

Lemma span_digits_app d rest : forallb isdigit d = true → no_digit rest → span_digits (d ++ rest) = (d, rest).
Proof.
  intros Hd Hr. induction d as [|b d IH]; cbn in *.
  - destruct rest as [|b rest]; [done|]. cbn in *. by rewrite Hr.
  - apply andb_true_iff in Hd as [-> Hd]. by rewrite IH.
Qed.
Lemma dec_digits_length fuel n z acc : 0 ≤ z < 10 ^ Z.of_nat n → (0 < n)%nat →
  (List.length (dec_digits fuel z acc) <= List.length acc + n)%nat.
Proof.
  revert n z acc. induction fuel as [|fuel IH]; intros n z acc Hz Hn; cbn [dec_digits]; [lia|].
  destruct (Z.ltb_spec z 10); cbn; [lia|]. destruct n as [|[|n]]; [lia|change (10 ^ Z.of_nat 1) with 10 in Hz; lia|].
  etrans; [apply (IH (S n)); [|lia]|cbn; lia]. rewrite (Nat2Z.inj_succ (S n)), Z.pow_succ_r in Hz by lia. split; [apply Z.div_pos; lia|].
  apply Z.div_lt_upper_bound; lia.
Qed.
Lemma match_digits_print n v rest : 0 ≤ v < 10 ^ Z.of_nat n → (0 < n <= 20)%nat → no_digit rest →
  match_digits n (to_string v ++ rest) = Some (to_string v, rest).
Proof.
  intros Hv Hn Hr. unfold match_digits, to_string. rewrite (proj2 (Z.ltb_ge v 0)) by lia.
  assert (10 ^ Z.of_nat n ≤ 10 ^ 20) by (apply Z.pow_le_mono_r; lia).
  destruct (dec_digits_spec 20 v []) as (b & s & E & Hd & _); [change (Z.of_nat 20) with 20; lia|lia|done|].
  pose proof (dec_digits_length 20 n v [] Hv ltac:(lia)) as Hl. rewrite E in *. rewrite span_digits_app by done.
  cbn [List.length] in *. by rewrite (proj2 (Nat.leb_le 1 _)), (proj2 (Nat.leb_le _ n)) by lia.
Qed.
Lemma ip_part_print v : octet v → ip_part (to_string v) = Some v.
Proof.
  intros Hv. assert (Forall (λ v, ip_part (to_string v) = Some v) (seqZ 0 256)) as H.
  { apply (bool_decide_unpack _). vm_compute. exact I. }
  rewrite Forall_forall in H. apply H, elem_of_seqZ. unfold octet in Hv. lia.
Qed.
Lemma match_ip_print a b c d rest : octet a → octet b → octet c → octet d → no_digit rest →
  match_ip (dotted (to_string <$> [a; b; c; d]) ++ rest) = Some (to_string <$> [a; b; c; d], rest).
Proof.
  unfold octet. intros Ha Hb Hc Hd Hr. unfold match_ip. cbn [dotted fmap list_fmap foldl]. rewrite <- !app_assoc. cbn [app].
  do 3 (rewrite match_digits_print by (done || lia); cbn -[match_digits to_string]).
  by rewrite match_digits_print by (done || lia).
Qed.

Lemma match_prefix_app p s : match_prefix p (p ++ s) = Some s.
Proof.
  unfold match_prefix, StartWith. rewrite take_app_length, drop_app_length, length_app.
  rewrite (proj2 (Nat.leb_le _ _)) by lia. by rewrite bool_decide_true.
Qed.
Lemma tcp_not_ubc s : StartWith (TCP_PROTOCOL_PREFIX ++ s) UBC_PROTOCOL_PREFIX = false.
Proof. unfold StartWith. apply andb_false_iff. right. by apply bool_decide_false. Qed.
Lemma port_print p : valid_port p = true → match_digits 5 (to_string p) = Some (to_string p, []) ∧ String2Uint32 (to_string p) = Some p.
Proof.
  unfold valid_port, MIN_VALID_PORT, MAX_VALID_PORT. intros Hp. split.
  - rewrite <- (app_nil_r (to_string p)) at 1. apply match_digits_print; [lia|lia|done].
  - apply String2Uint_to_string; unfold U32_MAX, U64_MAX; [lia|lia|]. apply u32_small. lia.
Qed.
Lemma inet_aton_print a b c d : octet a → octet b → octet c → octet d →
  inet_aton (to_string <$> [a; b; c; d]) = Some (256 * (256 * (256 * a + b) + c) + d).
Proof. intros. unfold inet_aton. cbn [fmap list_fmap mapM]. by rewrite !ip_part_print by done. Qed.

(** A card without a mask: the printed address and port come back. *)
Theorem analysis_nic_plain ifs out a b c d p :
  octet a → octet b → octet c → octet d → valid_port p = true →
  AnalysisNic ifs (tcp_nic [a; b; c; d] [] p) out =
  Some (BM_OK, mkNic TCP_PROTOCOL_PREFIX (dotted (to_string <$> [a; b; c; d])) p).
Proof.
  intros Ha Hb Hc Hd Hp. destruct (port_print p Hp) as [Hm Hu]. unfold AnalysisNic, tcp_nic. rewrite tcp_not_ubc. cbn [app].
  rewrite bool_decide_false.
  - unfold ipPortPattern. rewrite match_prefix_app. cbn [mbind option_bind]. rewrite match_ip_print by done.
    cbn -[match_digits to_string dotted inet_aton]. rewrite Hm. cbn -[match_digits to_string dotted inet_aton].
    rewrite Hu, Hp. cbn [negb]. change ([to_string a; _; _; _]) with (to_string <$> [a; b; c; d]). by rewrite inet_aton_print.
  - unfold ipPortMaskPattern. rewrite match_prefix_app. cbn [mbind option_bind]. rewrite match_ip_print by done.
    cbn. by intros [? ?].
Qed.

(** A card with a mask: the first interface in its network, or an error when there
    is none; a mask of zero is accepted and shifts by the width of the operand. *)
Theorem analysis_nic_mask l out a b c d mask p : let ip := 256 * (256 * (256 * a + b) + c) + d in
  octet a → octet b → octet c → octet d → ip ≠ INADDR_NONE → 0 ≤ mask ≤ 32 → valid_port p = true →
  AnalysisNic (Some l) (tcp_nic [a; b; c; d] ("/"%byte :: to_string mask) p) out =
  (if mask =? 0 then None else
   let netMask := u32 (Z.shiftl U32_MAX (32 - mask)) in
   Some match first_in_network netMask (Z.land ip netMask) l with
        | Some i => (BM_OK, mkNic TCP_PROTOCOL_PREFIX (inet_ntop i) p)
        | None => (BM_ERROR, mkNic TCP_PROTOCOL_PREFIX (ipStr out) p)
        end).
Proof.
  intros ip Ha Hb Hc Hd Hip Hmask Hp. destruct (port_print p Hp) as [Hm Hu]. unfold AnalysisNic, tcp_nic. rewrite tcp_not_ubc.
  assert (String2Int32 (to_string mask) = Some mask) as Hi.
  { apply String2Int_to_string; unfold I64_MIN, I64_MAX; [lia|lia|]. apply i32_small. lia. }
  assert (ipPortMaskPattern (TCP_PROTOCOL_PREFIX ++ dotted (to_string <$> [a; b; c; d]) ++ ("/"%byte :: to_string mask) ++ ":"%byte :: to_string p) =
    Some (to_string <$> [a; b; c; d], to_string mask, to_string p)) as Epat.
  { unfold ipPortMaskPattern. rewrite match_prefix_app. cbn [mbind option_bind]. rewrite match_ip_print by done.
    cbn -[match_digits to_string dotted]. rewrite match_digits_print by (done || lia). cbn -[match_digits to_string dotted].
    by rewrite Hm. }
  rewrite bool_decide_true by (rewrite Epat; by eexists). unfold AnalysisNicWithMask. rewrite Epat, Hi, Hu, Hp. cbn [protocol ipStr negb].
  unfold MIN_VALID_MASK, MAX_VALID_MASK. rewrite (proj2 (Z.leb_le 0 mask)), (proj2 (Z.leb_le mask 32)) by lia. cbn [andb negb].
  unfold SelectLocalIpByIpMask. rewrite inet_aton_print by done. fold ip. cbn [default from_option id].
  rewrite (proj2 (Z.eqb_neq _ _) Hip). destruct (Z.eqb_spec mask 0) as [-> |Hne]; [done|].
  rewrite (proj2 (Z.leb_gt 32 _)) by lia. cbv zeta. cbn [mbind option_bind]. by destruct (first_in_network _ _ _).
Qed.
