(* ===== verification/TagInfo.v ===== *)
(** * Tags and protocols (entity/hybm_entity_tag_info)

    A rank has a tag; for a pair of tags the protocols between their ranks are
    configured as a list of [tag:opType:tag].  The regular expressions are the
    recognisers below.  The maps are keyed by the joined tags, as the code does. *)
From Stdlib Require Import Strings.Byte Strings.String.
From stdpp Require Import base numbers list gmap.
From S2P Require Import Prelude VaManager StrUtil HcomHelper.
Local Open Scope Z_scope.
Abbreviation length := List.length.

#[global] Program Instance byte_countable : Countable byte := inj_countable Byte.to_N Byte.of_N _.
Next Obligation. apply Byte.of_to_N. Qed.

Definition HYBM_DOP_TYPE_DEFAULT : Z := 0.
Definition HYBM_DOP_TYPE_MTE : Z := 2 ^ 0.
Definition HYBM_DOP_TYPE_SDMA : Z := 2 ^ 1.

Record HybmEntityTagInfo := mkTags {
  rankTagInfo_ : gmap Z bytes;
  tagOpInfo_ : gmap bytes Z;
}.
Definition tags_new : HybmEntityTagInfo := mkTags ∅ ∅.

(** [[a-zA-Z0-9_]] and [[A-Z_]] *)
Definition between (lo hi : Z) (b : byte) : bool := (lo <=? Z_of_byte b) && (Z_of_byte b <=? hi).
Definition is_upper (b : byte) : bool := between 65 90 b.
Definition tag_char (b : byte) : bool := is_upper b || between 97 122 b || isdigit b || is_char 95 b.
Definition op_char (b : byte) : bool := is_upper b || is_char 95 b.
Definition matches (p : byte → bool) (lo hi : nat) (s : bytes) : bool :=
  (lo <=? length s)%nat && (length s <=? hi)%nat && forallb p s.
Definition tagPattern (s : bytes) : bool := matches tag_char 1 30 s.

(** Up to the first colon, and behind it. *)
Fixpoint cut (s : bytes) : option (bytes * bytes) :=
  match s with
  | [] => None
  | b :: s => if is_char 58 b then Some ([], s) else '(x, y) ← cut s; Some (b :: x, y)
  end.
(** [^(tag):([A-Z_]{8,12}):(tag)$]: no part contains a colon. *)
Definition tagOpInfoPattern (s : bytes) : option (bytes * bytes * bytes) :=
  '(tag1, s) ← cut s; '(opTypeStr, tag2) ← cut s;
  if tagPattern tag1 && matches op_char 8 12 opTypeStr && tagPattern tag2 then Some (tag1, opTypeStr, tag2) else None.

Definition str2OpTypeMap (s : bytes) : option Z :=
  let named x := bool_decide (s = bytes_of_str x) in
  if named "DEVICE_SDMA"%string then Some HYBM_DOP_TYPE_SDMA else
  if named "DEVICE_RDMA"%string then Some HYBM_DOP_TYPE_DEVICE_RDMA else
  if named "HOST_RDMA"%string then Some HYBM_DOP_TYPE_HOST_RDMA else
  if named "HOST_TCP"%string then Some HYBM_DOP_TYPE_HOST_TCP else
  if named "HOST_URMA"%string then Some HYBM_DOP_TYPE_HOST_URMA else
  if named "DEVICE_MTE"%string then Some HYBM_DOP_TYPE_MTE else None.
Definition GetOpTypeStr (opType : Z) : bytes :=
  if opType =? HYBM_DOP_TYPE_SDMA then bytes_of_str "DEVICE_SDMA" else
  if opType =? HYBM_DOP_TYPE_DEVICE_RDMA then bytes_of_str "DEVICE_RDMA" else
  if opType =? HYBM_DOP_TYPE_HOST_RDMA then bytes_of_str "HOST_RDMA" else
  if opType =? HYBM_DOP_TYPE_HOST_TCP then bytes_of_str "HOST_TCP" else
  if opType =? HYBM_DOP_TYPE_HOST_URMA then bytes_of_str "HOST_URMA" else
  if opType =? HYBM_DOP_TYPE_MTE then bytes_of_str "DEVICE_MTE" else bytes_of_str "OP_TYPE_BUTT".

Definition join (tag1 tag2 : bytes) : bytes := tag1 ++ ":"%byte :: tag2.

Definition AddRankTag (t : HybmEntityTagInfo) (rankId : Z) (tag : bytes) : HybmEntityTagInfo * Z :=
  if (length tag =? 0)%nat then (t, BM_OK) else
  if negb (tagPattern tag) then (t, BM_INVALID_PARAM) else
  (mkTags (<[rankId := tag]> (rankTagInfo_ t)) (tagOpInfo_ t), BM_OK).

Definition GetTag2TagOpType (t : HybmEntityTagInfo) (tag1 tag2 : bytes) : Z :=
  match tagOpInfo_ t !! join tag1 tag2 with
  | Some op => op
  | None =>
      match tagOpInfo_ t !! join tag2 tag1 with
      | Some op => op
      | None => HYBM_DOP_TYPE_DEFAULT
      end
  end.

Definition AddOneTagOpInfo (t : HybmEntityTagInfo) (tagOpInfo : bytes) : HybmEntityTagInfo * Z :=
  match tagOpInfoPattern tagOpInfo with
  | None => (t, BM_INVALID_PARAM)
  | Some (tag1, opTypeStr, tag2) =>
      match str2OpTypeMap opTypeStr with
      | None => (t, BM_INVALID_PARAM)
      | Some op =>
          let opType := GetTag2TagOpType t tag1 tag2 in
          (mkTags (rankTagInfo_ t) (<[join tag1 tag2 := Z.lor opType op]> (tagOpInfo_ t)), BM_OK)
      end
  end.
Fixpoint add_items (t : HybmEntityTagInfo) (items : list bytes) : HybmEntityTagInfo * Z :=
  match items with
  | [] => (t, BM_OK)
  | item :: items =>
      let '(t, ret) := AddOneTagOpInfo t item in
      if negb (ret =? BM_OK) then (t, ret) else add_items t items
  end.
Definition AddTagOpInfo (t : HybmEntityTagInfo) (tagOpInfo : bytes) : HybmEntityTagInfo * Z :=
  if (length tagOpInfo =? 0)%nat then (t, BM_OK) else add_items t (Split tagOpInfo ","%byte).

Definition TagInfoInit (t : HybmEntityTagInfo) (rankId : Z) (tag tagOpInfo : bytes) : HybmEntityTagInfo * Z :=
  let '(t, ret) := AddRankTag t rankId tag in
  if negb (ret =? BM_OK) then (t, ret) else AddTagOpInfo t tagOpInfo.
Definition RemoveRankTag (t : HybmEntityTagInfo) (rankId : Z) (tag : bytes) : HybmEntityTagInfo * Z :=
  (mkTags (delete rankId (rankTagInfo_ t)) (tagOpInfo_ t), BM_OK).
Definition GetTagByRank (t : HybmEntityTagInfo) (rankId : Z) : bytes := default [] (rankTagInfo_ t !! rankId).
Definition GetRank2RankOpType (t : HybmEntityTagInfo) (rankId1 rankId2 : Z) : Z :=
  match rankTagInfo_ t !! rankId1 with
  | None => HYBM_DOP_TYPE_DEFAULT
  | Some tag1 =>
      match rankTagInfo_ t !! rankId2 with
      | None => HYBM_DOP_TYPE_DEFAULT
      | Some tag2 => GetTag2TagOpType t tag1 tag2
      end
  end.
Definition GetAllOpType (t : HybmEntityTagInfo) : Z := map_fold (λ _ op acc, Z.lor acc op) 0 (tagOpInfo_ t).

(** ** Theorems *)

(** An entry as it is written. *)
Definition entry (tag1 : bytes) (op : Z) (tag2 : bytes) : bytes := join tag1 (join (GetOpTypeStr op) tag2).
Definition known_op (op : Z) : Prop :=
  op ∈ [HYBM_DOP_TYPE_SDMA; HYBM_DOP_TYPE_DEVICE_RDMA; HYBM_DOP_TYPE_HOST_RDMA; HYBM_DOP_TYPE_HOST_TCP; HYBM_DOP_TYPE_HOST_URMA; HYBM_DOP_TYPE_MTE].
Definition no_colon (s : bytes) : Prop := forallb (λ b, negb (is_char 58 b)) s = true.

Lemma cut_join x y : no_colon x → cut (join x y) = Some (x, y).
Proof.
  unfold no_colon, join. induction x as [|b x IH]; [done|]. cbn. intros [Hb Hx]%andb_true_iff. apply negb_true_iff in Hb.
  rewrite Hb, IH by done. done.
Qed.
Lemma tag_no_colon t : tagPattern t = true → no_colon t.
Proof.
  intros [_ H]%andb_true_iff. unfold no_colon. rewrite !forallb_forall in *. intros b Hb. specialize (H b Hb).
  unfold tag_char, is_upper, between, isdigit, is_char in *. lia.
Qed.
Lemma join_inj a b c d : tagPattern a = true → tagPattern c = true → join a b = join c d → a = c ∧ b = d.
Proof. intros Ha Hc E. apply (f_equal cut) in E. rewrite !cut_join in E by by apply tag_no_colon. by simplify_eq. Qed.
Lemma op_name op : known_op op → no_colon (GetOpTypeStr op) ∧ matches op_char 8 12 (GetOpTypeStr op) = true ∧ str2OpTypeMap (GetOpTypeStr op) = Some op.
Proof.
  unfold known_op. intros H. repeat (apply elem_of_cons in H as [-> |H]; [by vm_compute|]). by apply not_elem_of_nil in H.
Qed.
Lemma add_entry_eq t a op b : tagPattern a = true → tagPattern b = true → known_op op →
  AddOneTagOpInfo t (entry a op b) =
  (mkTags (rankTagInfo_ t) (<[join a b := Z.lor (GetTag2TagOpType t a b) op]> (tagOpInfo_ t)), BM_OK).
Proof.
  intros Ha Hb (Hc & Hm & Hs)%op_name. unfold AddOneTagOpInfo, tagOpInfoPattern, entry. rewrite cut_join by by apply tag_no_colon.
  cbn [mbind option_bind]. rewrite cut_join by done. cbn [mbind option_bind]. rewrite Ha, Hm, Hb. cbn [andb]. by rewrite Hs.
Qed.

(** An entry adds its protocol to the pair, whichever way round the pair is asked for,
    unless it was also configured the other way round; other pairs are not touched. *)
Theorem add_entry_spec t a op b x y : tagPattern a = true → tagPattern b = true → tagPattern x = true → tagPattern y = true → known_op op →
  let t' := (AddOneTagOpInfo t (entry a op b)).1 in
  GetTag2TagOpType t' a b = Z.lor (GetTag2TagOpType t a b) op ∧
  (a = b ∨ tagOpInfo_ t !! join b a = None → GetTag2TagOpType t' b a = Z.lor (GetTag2TagOpType t b a) op) ∧
  ((x, y) ≠ (a, b) → (x, y) ≠ (b, a) → GetTag2TagOpType t' x y = GetTag2TagOpType t x y).
Proof.
  intros Ha Hb Hx Hy Hop. cbv zeta. rewrite add_entry_eq by done. unfold GetTag2TagOpType. cbn [fst tagOpInfo_]. split_and!.
  - by rewrite lookup_insert_eq.
  - intros Hba. destruct (decide (a = b)) as [-> |Hne]; [by rewrite lookup_insert_eq|]. destruct Hba as [|Hba]; [done|].
    rewrite lookup_insert_ne, Hba, lookup_insert_eq by (intros E; apply join_inj in E; naive_solver). done.
  - intros H1 H2. rewrite !lookup_insert_ne by (intros E; apply join_inj in E; naive_solver). done.
Qed.

(** Configured both ways round, the two orders of a pair have different protocols:
    the two ranks of a link do not agree on what it uses. *)
Theorem protocols_can_differ : let tag s := bytes_of_str s in
  ∃ t, AddTagOpInfo (mkTags {[0 := tag "a"%string; 1 := tag "b"%string]} ∅)
         (tag "a:HOST_RDMA:b,b:DEVICE_RDMA:a"%string) = (t, BM_OK) ∧
    GetRank2RankOpType t 0 1 = HYBM_DOP_TYPE_HOST_RDMA ∧
    GetRank2RankOpType t 1 0 = Z.lor HYBM_DOP_TYPE_HOST_RDMA HYBM_DOP_TYPE_DEVICE_RDMA.
Proof. eexists. split_and!; vm_compute; reflexivity. Qed.
