(* ===== verification/HcomTransport.v ===== *)
(** * The host transport (transport/host/host_hcom_transport_manager)

    One-sided reads and writes between the registered memory of the ranks over the
    hcom library.  A method is a program over [HCall]: the calls of the library,
    which is not part of the sources, those of the thread's counter stream, whose
    counter the completion callbacks change concurrently, and [Other], a call of
    the data operation that is not for the transport.  [HUndefined] is an access
    out of the range of a vector or an undefined operation of a callee.

    [no_xpu] is the build without a device; [junk] the value of uninitialised
    members.  An [unordered_map] of options is the list of its entries in the
    order of its iteration.  The mutexes are not modelled: a method is one thread
    of control, interleaved with the completions only. *)
From Stdlib Require Import Strings.Byte Strings.String.
From stdpp Require Import base numbers list gmap.
From S2P Require Import Prelude RangePool VaManager Fabric HostDataOp StrUtil HcomHelper.
Local Open Scope Z_scope.
Local Open Scope mf_scope.
Abbreviation length := List.length.

Definition BM_NOT_SUPPORTED : Z := -100.
Definition REG_MR_FLAG_SELF : Z := 0x4.
Definition TT_HCOM : Z := 1.
Definition KEY_SIZE : nat := 14.
Definition HCOM_IOV_BATCH_SIZE : Z := 4.
Definition UB_SEGMENT_ADDR_ALIGN_SIZE : Z := 4096.
Definition HCOM_TRANS_EP_SIZE : Z := 1.
Definition kMaxRetries : nat := 3.

(** ** The counter of a thread's transfers (host_hcom_counter_stream.h) *)
Record HostHcomCounterStream := mkStream { num_ : Z }.
(** The new counter, and whether the waiters are notified. *)
Definition FinishOne (s : HostHcomCounterStream) (notify : bool) : HostHcomCounterStream * bool :=
  let s := mkStream (i32 (num_ s - 1)) in (s, notify && (num_ s <=? 0)).
Definition SubmitTasks (s : HostHcomCounterStream) (taskNum : Z) : HostHcomCounterStream :=
  mkStream (i32 (num_ s + taskNum)).
Definition Reset (s : HostHcomCounterStream) : HostHcomCounterStream := mkStream 0.
(** The wait is over when the predicate holds; [None] is to keep waiting. *)
Definition stream_Synchronize (s : HostHcomCounterStream) : option HostHcomCounterStream :=
  if num_ s <=? 0 then Some (mkStream 0) else None.

(** ** Keys *)

(** 64-bit words; the 16 bytes of [eid] are two of them. *)
Record OneSideKey := mkKey { keys : list Z; tokens : list Z; eid : list Z }.
Definition zeroKey : OneSideKey := mkKey (repeat 0 4) (repeat 0 4) (repeat 0 2).
(** The 28 words of a [TransportMemoryKey]. *)
Abbreviation TransportMemoryKey := (list Z).
Definition zeroMemoryKey : TransportMemoryKey := repeat 0 (2 * KEY_SIZE).
Definition copy_n (from : list Z) (n : nat) (to : list Z) (at_ : nat) : list Z :=
  take at_ to ++ take n from ++ drop (at_ + n) to.

Record HcomMemoryRegion := mkRegion { addr : Z; size : Z; lKey : TransportMemoryKey; mr : Z }.
Record OneSideRequest := mkReq { lAddress : Z; rAddress : Z; reqLKey : OneSideKey; reqRKey : OneSideKey; reqSize : Z }.

(** ** What is asked for *)
Record HAns := mkAns { ret : Z; out : Z; outKey : OneSideKey; outIfs : option (list (option Z)) }.
Inductive HCall :=
| HUndefined
| Other (c : Call)
| GetIfAddrs
| ServiceCreate (type : Z)
| ServiceSetTlsOptions (service : Z)
| SetUbsMode (service : Z)
| ServiceRegisterChannelBrokerHandler (service : Z)
| ServiceRegisterHandlers (service : Z)
| ServiceSetDeviceIpMask (service : Z) (ipMask : bytes)
| ServiceBind (service : Z) (nic : bytes)
| ServiceStart (service : Z)
| ServiceDestroy (service : Z)
| SetExternalLogger
| CloseTlsLib
| ServiceRegisterAssignMemoryRegion (service addr size : Z)
| ServiceGetMemoryRegionInfo (mr : Z)
| ServiceDestroyMemoryRegion (service mr : Z)
| ImportUrmaSeg (service addr size : Z) (key : OneSideKey)
| ServiceConnect (service : Z) (url payLoad : bytes) (linkCount : Z)
| ServiceDisConnect (service channel : Z)
| ChannelGet (channel : Z) (req : OneSideRequest) (callback : bool)
| ChannelPut (channel : Z) (req : OneSideRequest) (callback : bool)
| ChannelGetV (channel : Z) (iov : list OneSideRequest)
| ChannelPutV (channel : Z) (iov : list OneSideRequest)
| HasStream
| NewStream
| StreamSubmitTasks (taskNum : Z)
| StreamFinishOne (notify : bool)
| StreamSynchronize
| SleepFor (seconds : Z).
Abbreviation hprog := (program HCall HAns).
Definition hcall (c : HCall) : hprog HAns := Act c Ret.
Definition hret (c : HCall) : hprog Z := Act c (λ a, Ret (ret a)).
Definition hundefined {A} (a : A) : hprog A := Act HUndefined (λ _, Ret a).
(** [l[i]] *)
Definition at_index {A B} (l : list A) (i : Z) (b : B) (k : A → hprog B) : hprog B :=
  match l !! Z.to_nat i with Some x => k x | None => hundefined b end.

Record TransportOptions := mkOpts { o_rankId : Z; o_rankCount : Z; o_protocol : Z; o_nic : bytes }.
Record TransportMemoryRegion := mkTmr { mr_addr : Z; mr_size : Z; mr_flags : Z }.
Record TransportRankPrepareInfo := mkInfo { nic : bytes; memKeys : list TransportMemoryKey }.
Abbreviation PrepareOptions := (list (Z * TransportRankPrepareInfo)).

Record HcomTransportManager := mkHcom {
  bmOptype_ : Z;
  localNic_ : bytes;
  localIp_ : bytes;
  rpcService_ : Z;
  rankId_ : Z;
  rankCount_ : Z;
  mrs_ : list (list HcomMemoryRegion);
  nics_ : list bytes;
  channels_ : list Z;
}.
Definition hcom_new : HcomTransportManager := mkHcom 0 [] [] 0 U32_MAX 0 [] [] [].
Definition set_mrs (m : HcomTransportManager) l :=
  mkHcom (bmOptype_ m) (localNic_ m) (localIp_ m) (rpcService_ m) (rankId_ m) (rankCount_ m) l (nics_ m) (channels_ m).
Definition set_nics (m : HcomTransportManager) l :=
  mkHcom (bmOptype_ m) (localNic_ m) (localIp_ m) (rpcService_ m) (rankId_ m) (rankCount_ m) (mrs_ m) l (channels_ m).
Definition set_channels (m : HcomTransportManager) l :=
  mkHcom (bmOptype_ m) (localNic_ m) (localIp_ m) (rpcService_ m) (rankId_ m) (rankCount_ m) (mrs_ m) (nics_ m) l.
Definition set_local (m : HcomTransportManager) nic ip :=
  mkHcom (bmOptype_ m) nic ip (rpcService_ m) (rankId_ m) (rankCount_ m) (mrs_ m) (nics_ m) (channels_ m).
Definition set_service (m : HcomTransportManager) s :=
  mkHcom (bmOptype_ m) (localNic_ m) (localIp_ m) s (rankId_ m) (rankCount_ m) (mrs_ m) (nics_ m) (channels_ m).

Section Hcom.
Context (no_xpu : bool) (junk : OneSideKey).

Definition HCOM_MAX_SLICE_SIZE : Z := if no_xpu then 1024 * 1024 * 1024 else 1024 * 1024.

(** The two overloads of [CopyHcomOneSideKey]. *)
Definition key_to_memory (from : OneSideKey) (to : TransportMemoryKey) : TransportMemoryKey :=
  let to := copy_n (tokens from) 4 (copy_n (keys from) 4 to 0) 4 in
  if no_xpu then copy_n (eid from) 2 to 8 else to.
Definition key_of_memory (from : TransportMemoryKey) (to : OneSideKey) : OneSideKey :=
  mkKey (copy_n from 4 (keys to) 0) (copy_n (drop 4 from) 4 (tokens to) 0)
    (if no_xpu then copy_n (drop 8 from) 2 (eid to) 0 else eid to).
(** [std::copy_n] of the keys alone: the rest of [to] stays as it was. *)
Definition copy_keys (from : TransportMemoryKey) (to : OneSideKey) : OneSideKey :=
  mkKey (copy_n from 4 (keys to) 0) (tokens to) (eid to).

(** ** Opening and closing *)

(** The list of interfaces is asked for here, whether or not the card has a mask. *)
Definition CheckTransportOptions (m : HcomTransportManager) (options : TransportOptions)
    : hprog (HcomTransportManager * Z) :=
  a ← hcall GetIfAddrs;
  match AnalysisNic (outIfs a) (o_nic options) (mkNic [] (localIp_ m) 0) with
  | None => hundefined (m, BM_ERROR)
  | Some (ret, n) =>
      if negb (ret =? BM_OK) then Ret (set_local m (localNic_ m) (ipStr n), ret) else
      let hcomAutoPort := u32 (port n + o_rankId options) in
      Ret (set_local m (protocol n ++ ipStr n ++ ":"%byte :: to_string hcomAutoPort) (ipStr n), BM_OK)
  end.

Definition OpenDevice (m : HcomTransportManager) (options : TransportOptions) : hprog (HcomTransportManager * Z) :=
  if negb (rpcService_ m =? 0) then Ret (m, BM_OK) else
  '(m, checked) ← CheckTransportOptions m options;
  if negb (checked =? BM_OK) then Ret (m, BM_INVALID_PARAM) else
  let type := HybmDopTransHcomProtocol (o_protocol options) in
  a ← hcall (ServiceCreate type);
  let m := set_service m (out a) in
  if negb (ret a =? 0) then Ret (m, BM_DL_FUNCTION_FAILED) else
  let s := rpcService_ m in
  _ ← hcall (ServiceSetTlsOptions s);
  _ ← hcall (SetUbsMode s);
  _ ← hcall (ServiceRegisterChannelBrokerHandler s);
  _ ← hcall (ServiceRegisterHandlers s);
  _ ← (if negb (type =? C_SERVICE_UBC) then hret (ServiceSetDeviceIpMask s (localIp_ m ++ bytes_of_str "/32")) else Ret 0);
  _ ← hcall (ServiceBind s (localNic_ m));
  started ← hret (ServiceStart s);
  if negb (started =? 0) then
    hcall (ServiceDestroy s) ≫= λ _, Ret (set_service m 0, BM_DL_FUNCTION_FAILED)
  else
    let n := Z.to_nat (o_rankCount options) in
    Ret (mkHcom (o_protocol options) (localNic_ m) (localIp_ m) s (o_rankId options) (o_rankCount options)
           (repeat [] n) (repeat [] n) (repeat 0 n), BM_OK).

Definition DisConnectHcomChannel (m : HcomTransportManager) (rankId ch : Z) : hprog HcomTransportManager :=
  if (length (channels_ m) =? 0)%nat then Ret m else
  if (rankCount_ m <=? rankId) || (ch =? 0) then Ret m else
  _ ← (if negb (rpcService_ m =? 0) then hret (ServiceDisConnect (rpcService_ m) ch) else Ret 0);
  at_index (channels_ m) rankId m (λ c,
    Ret (if c =? ch then set_channels m (<[Z.to_nat rankId := 0]> (channels_ m)) else m)).

Fixpoint close_channels (m : HcomTransportManager) (ranks : list Z) : hprog HcomTransportManager :=
  match ranks with
  | [] => Ret m
  | i :: ranks =>
      at_index (channels_ m) i m (λ c,
        m ← (if negb (c =? 0) then DisConnectHcomChannel m i c else Ret m);
        close_channels m ranks)
  end.
Definition CloseDevice (m : HcomTransportManager) : hprog (HcomTransportManager * Z) :=
  _ ← hcall SetExternalLogger;
  if rpcService_ m =? 0 then Ret (m, BM_OK) else
  m ← close_channels m (seqZ 0 (rankCount_ m));
  _ ← hcall CloseTlsLib;
  Ret (mkHcom (bmOptype_ m) [] [] 0 U32_MAX 0 [] [] [], BM_OK).

(** ** Memory regions *)
Fixpoint find_region (l : list HcomMemoryRegion) (a : Z) : option HcomMemoryRegion :=
  match l with
  | [] => None
  | r :: l => if (addr r <=? a) && (a <? addr r +64 size r) then Some r else find_region l a
  end.
(** [None] is BM_ERROR. *)
Definition GetMemoryRegionByAddr (m : HcomTransportManager) (rankId a : Z) : hprog (option HcomMemoryRegion) :=
  at_index (mrs_ m) rankId None (λ l, Ret (find_region l a)).

Definition add_region (m : HcomTransportManager) (r : HcomMemoryRegion) (l : list HcomMemoryRegion) : HcomTransportManager :=
  set_mrs m (<[Z.to_nat (rankId_ m) := l ++ [r]]> (mrs_ m)).

(** The build with a device. *)
Definition RegisterMemoryRegion_xpu (m : HcomTransportManager) (va : HybmVaManager) (r : TransportMemoryRegion)
    : hprog (HcomTransportManager * HybmVaManager * Z) :=
  if rpcService_ m =? 0 then Ret (m, va, BM_ERROR) else
  if (mr_addr r =? 0) || (mr_size r =? 0) then Ret (m, va, BM_INVALID_PARAM) else
  if negb (has_bit (mr_flags r) REG_MR_FLAG_DRAM) then Ret (m, va, BM_OK) else
  info ← GetMemoryRegionByAddr m (rankId_ m) (mr_addr r);
  if bool_decide (is_Some info) then Ret (m, va, BM_ERROR) else
  a ← hcall (ServiceRegisterAssignMemoryRegion (rpcService_ m) (mr_addr r) (mr_size r));
  if negb (ret a =? 0) then Ret (m, va, BM_DL_FUNCTION_FAILED) else
  let memoryRegion := out a in
  a ← hcall (ServiceGetMemoryRegionInfo memoryRegion);
  if negb (ret a =? 0) then
    hcall (ServiceDestroyMemoryRegion (rpcService_ m) memoryRegion) ≫= λ _, Ret (m, va, BM_DL_FUNCTION_FAILED)
  else
  let mrInfo := mkRegion (mr_addr r) (mr_size r) (copy_n (keys (outKey a)) 4 zeroMemoryKey 0) memoryRegion in
  at_index (mrs_ m) (rankId_ m) (m, va, BM_ERROR) (λ l,
  let m := add_region m mrInfo l in
  if negb (has_bit (mr_flags r) REG_MR_FLAG_SELF) then
    let type := if has_bit (mr_flags r) REG_MR_FLAG_DRAM then HYBM_MEM_TYPE_HOST else HYBM_MEM_TYPE_DEVICE in
    let '(va, ret) := AddVaInfoFromExternal_local va (mkBase (addr mrInfo) (mr_size r) type (mr_addr r)) (rankId_ m) in
    if negb (ret =? BM_OK) then
      hcall (ServiceDestroyMemoryRegion (rpcService_ m) memoryRegion) ≫= λ _, Ret (m, va, ret)
    else Ret (m, va, BM_OK)
  else Ret (m, va, BM_OK)).

(** The build without. *)
Definition RegisterMemoryRegion_no_xpu (m : HcomTransportManager) (va : HybmVaManager) (r : TransportMemoryRegion)
    : hprog (HcomTransportManager * HybmVaManager * Z) :=
  if rpcService_ m =? 0 then Ret (m, va, BM_ERROR) else
  if (mr_addr r =? 0) || (mr_size r =? 0) then Ret (m, va, BM_INVALID_PARAM) else
  if negb (has_bit (mr_flags r) REG_MR_FLAG_DRAM) then Ret (m, va, BM_OK) else
  if (bmOptype_ m =? HYBM_DOP_TYPE_HOST_URMA) && negb (Z.land (mr_addr r) (UB_SEGMENT_ADDR_ALIGN_SIZE - 1) =? 0)
  then Ret (m, va, BM_INVALID_PARAM) else
  info ← GetMemoryRegionByAddr m (rankId_ m) (mr_addr r);
  if bool_decide (is_Some info) then Ret (m, va, BM_ERROR) else
  a ← hcall (ServiceRegisterAssignMemoryRegion (rpcService_ m) (mr_addr r) (mr_size r));
  if negb (ret a =? 0) then Ret (m, va, BM_ERROR) else
  let memoryRegion := out a in
  a ← hcall (ServiceGetMemoryRegionInfo memoryRegion);
  if negb (ret a =? 0) then Ret (m, va, BM_ERROR) else
  let mrInfo := mkRegion (mr_addr r) (mr_size r) (key_to_memory (outKey a) zeroMemoryKey) memoryRegion in
  at_index (mrs_ m) (rankId_ m) (m, va, BM_ERROR) (λ l, Ret (add_region m mrInfo l, va, BM_OK)).
Definition RegisterMemoryRegion (m : HcomTransportManager) (va : HybmVaManager) (r : TransportMemoryRegion)
    : hprog (HcomTransportManager * HybmVaManager * Z) :=
  if no_xpu then RegisterMemoryRegion_no_xpu m va r else RegisterMemoryRegion_xpu m va r.

(** The first region that starts at the address, and the list without it. *)
Fixpoint erase_region (l : list HcomMemoryRegion) (a : Z) : option (HcomMemoryRegion * list HcomMemoryRegion) :=
  match l with
  | [] => None
  | r :: l => if addr r =? a then Some (r, l) else '(x, l) ← erase_region l a; Some (x, r :: l)
  end.
Definition UnregisterMemoryRegion (m : HcomTransportManager) (va : HybmVaManager) (a : Z)
    : hprog (HcomTransportManager * HybmVaManager * Z) :=
  if a =? 0 then Ret (m, va, BM_INVALID_PARAM) else
  if rpcService_ m =? 0 then Ret (m, va, BM_ERROR) else
  match RemoveOneVaInfo va a with
  | None => hundefined (m, va, BM_ERROR)
  | Some va =>
      at_index (mrs_ m) (rankId_ m) (m, va, BM_ERROR) (λ l,
      match erase_region l a with
      | Some (r, l) =>
          _ ← hcall (ServiceDestroyMemoryRegion (rpcService_ m) (mr r));
          Ret (set_mrs m (<[Z.to_nat (rankId_ m) := l]> (mrs_ m)), va, BM_OK)
      | None => Ret (m, va, BM_OK)
      end)
  end.

Definition QueryHasRegistered (m : HcomTransportManager) (a n : Z) : hprog bool :=
  at_index (mrs_ m) (rankId_ m) false (λ l,
    Ret (existsb (λ r, (addr r <=? a) && (a +64 n <=? addr r +64 size r)) l)).

(** [RegMemoryKeyUnion]: the words of a key seen as a [RegMemoryKey]. *)
Definition host_key (type a : Z) (k : OneSideKey) (n : Z) : TransportMemoryKey :=
  [type; a] ++ keys k ++ tokens k ++ eid k ++ [n] ++ repeat 0 15.
Definition word (k : TransportMemoryKey) (i : nat) : Z := default 0 (k !! i).
Definition hostKey_lAddress (k : TransportMemoryKey) : Z := word k 1.
Definition hostKey_lKey (k : TransportMemoryKey) : OneSideKey :=
  mkKey (take 4 (drop 2 k)) (take 4 (drop 6 k)) (take 2 (drop 10 k)).
Definition hostKey_size (k : TransportMemoryKey) : Z := word k 12.

Definition QueryMemoryKey (m : HcomTransportManager) (a : Z) (key : TransportMemoryKey) : hprog (Z * TransportMemoryKey) :=
  r ← GetMemoryRegionByAddr m (rankId_ m) a;
  Ret match r with
      | None => (BM_ERROR, key)
      | Some r => (BM_OK, host_key TT_HCOM (addr r) (key_of_memory (lKey r) zeroKey) (size r))
      end.

(** ** The regions and channels of the other ranks *)
Fixpoint update_rank_keys (m : HcomTransportManager) (rankId : Z) (l : list TransportMemoryKey)
    : hprog (HcomTransportManager * Z) :=
  match l with
  | [] => Ret (m, BM_OK)
  | memKey :: l =>
      if hostKey_size memKey =? 0 then update_rank_keys m rankId l else
      '(ret, k) ← (if has_bit (bmOptype_ m) HYBM_DOP_TYPE_HOST_URMA then
                     a ← hcall (ImportUrmaSeg (rpcService_ m) (hostKey_lAddress memKey) (hostKey_size memKey) (hostKey_lKey memKey));
                     Ret (ret a, outKey a)
                   else Ret (0, hostKey_lKey memKey));
      if negb (ret =? 0) then Ret (m, ret) else
      let mrInfo := mkRegion (hostKey_lAddress memKey) (hostKey_size memKey) (key_to_memory k zeroMemoryKey) 0 in
      at_index (mrs_ m) rankId (m, BM_ERROR) (λ _,
        update_rank_keys (set_mrs m (<[Z.to_nat rankId := [mrInfo]]> (mrs_ m))) rankId l)
  end.
Fixpoint UpdateRankMrInfos (m : HcomTransportManager) (opt : PrepareOptions) : hprog (HcomTransportManager * Z) :=
  match opt with
  | [] => Ret (m, BM_OK)
  | (rankId, info) :: opt =>
      if rankId =? rankId_ m then UpdateRankMrInfos m opt else
      '(m, ret) ← update_rank_keys m rankId (memKeys info);
      if negb (ret =? BM_OK) then Ret (m, ret) else UpdateRankMrInfos m opt
  end.

Fixpoint set_rank_nics (m : HcomTransportManager) (opt : PrepareOptions) : hprog HcomTransportManager :=
  match opt with
  | [] => Ret m
  | (rankId, info) :: opt =>
      at_index (nics_ m) rankId m (λ _, set_rank_nics (set_nics m (<[Z.to_nat rankId := nic info]> (nics_ m))) opt)
  end.
Definition known_ranks (m : HcomTransportManager) (opt : PrepareOptions) : bool :=
  forallb (λ x, x.1 <? rankCount_ m) opt.
Definition Prepare (m : HcomTransportManager) (opt : PrepareOptions) : hprog (HcomTransportManager * Z) :=
  if negb (known_ranks m opt) then Ret (m, BM_INVALID_PARAM) else
  m ← set_rank_nics m opt; UpdateRankMrInfos m opt.
Definition RemoveRanks (m : HcomTransportManager) (removedRanks : list Z) : hprog (HcomTransportManager * Z) := Ret (m, BM_OK).

Definition ConnectHcomChannel (m : HcomTransportManager) (rankId : Z) (url : bytes) : hprog (HcomTransportManager * Z) :=
  at_index (channels_ m) rankId (m, BM_ERROR) (λ c,
  if negb (c =? 0) then Ret (m, BM_OK) else
  let linkCount := if StartWith url UBC_PROTOCOL_PREFIX then 1 else HCOM_TRANS_EP_SIZE in
  a ← hcall (ServiceConnect (rpcService_ m) url (to_string rankId) linkCount);
  if negb (ret a =? 0) then Ret (m, BM_DL_FUNCTION_FAILED) else
  Ret (set_channels m (<[Z.to_nat rankId := out a]> (channels_ m)), BM_OK)).

Fixpoint connect_ranks (m : HcomTransportManager) (ranks : list Z) : hprog (HcomTransportManager * Z) :=
  match ranks with
  | [] => Ret (m, BM_OK)
  | i :: ranks =>
      if rankId_ m =? i then connect_ranks m ranks else
      at_index (nics_ m) i (m, BM_ERROR) (λ url,
      if (length url =? 0)%nat then connect_ranks m ranks else
      '(m, ret) ← ConnectHcomChannel m i url;
      if negb (ret =? BM_OK) then Ret (m, ret) else connect_ranks m ranks)
  end.
Definition Connect (m : HcomTransportManager) : hprog (HcomTransportManager * Z) :=
  if rpcService_ m =? 0 then Ret (m, BM_ERROR) else connect_ranks m (seqZ 0 (rankCount_ m)).
Definition AsyncConnect (m : HcomTransportManager) : hprog (HcomTransportManager * Z) := Ret (m, BM_OK).
Definition WaitForConnected (m : HcomTransportManager) (timeoutNs : Z) : hprog (HcomTransportManager * Z) := Ret (m, BM_OK).

Fixpoint find_rank (opt : PrepareOptions) (i : Z) : option TransportRankPrepareInfo :=
  match opt with
  | [] => None
  | (r, info) :: opt => if r =? i then Some info else find_rank opt i
  end.
Fixpoint connect_new_ranks (m : HcomTransportManager) (opt : PrepareOptions) (ranks : list Z)
    : hprog (HcomTransportManager * Z) :=
  match ranks with
  | [] => Ret (m, BM_OK)
  | i :: ranks =>
      if i =? rankId_ m then connect_new_ranks m opt ranks else
      at_index (channels_ m) i (m, BM_ERROR) (λ c,
      match (if c =? 0 then find_rank opt i else None) with
      | None => connect_new_ranks m opt ranks
      | Some info =>
          at_index (nics_ m) i (m, BM_ERROR) (λ _,
          let m := set_nics m (<[Z.to_nat i := nic info]> (nics_ m)) in
          '(m, ret) ← ConnectHcomChannel m i (nic info);
          if negb (ret =? BM_OK) then Ret (m, ret) else connect_new_ranks m opt ranks)
      end)
  end.
Definition UpdateRankConnectInfos (m : HcomTransportManager) (opt : PrepareOptions) : hprog (HcomTransportManager * Z) :=
  connect_new_ranks m opt (seqZ 0 (rankCount_ m)).
Definition UpdateRankOptions (m : HcomTransportManager) (opt : PrepareOptions) : hprog (HcomTransportManager * Z) :=
  if negb (known_ranks m opt) then Ret (m, BM_INVALID_PARAM) else
  '(m, ret) ← UpdateRankMrInfos m opt;
  if negb (ret =? BM_OK) then Ret (m, ret) else UpdateRankConnectInfos m opt.
Definition GetNic (m : HcomTransportManager) : bytes := localNic_ m.

(** The handler of a broken channel: the library passes the payload back. *)
Definition HcomChannelDisconnected (m : HcomTransportManager) (rankId ch : Z) : hprog HcomTransportManager :=
  at_index (channels_ m) rankId m (λ c,
    Ret (if c =? ch then set_channels m (<[Z.to_nat rankId := 0]> (channels_ m)) else m)).
Definition TransportRpcHcomEndPointBroken (m : HcomTransportManager) (ch : Z) (payLoad : bytes)
    : hprog (HcomTransportManager * Z) :=
  match String2Uint32 payLoad with
  | None => Ret (m, BM_ERROR)
  | Some rankId => m ← HcomChannelDisconnected m rankId ch; Ret (m, BM_OK)
  end.
Definition ForceReConnectHcomChannel (m : HcomTransportManager) (rankId : Z) : hprog HcomTransportManager :=
  if rankCount_ m <=? rankId then Ret m else
  at_index (channels_ m) rankId m (λ _,
  let m := set_channels m (<[Z.to_nat rankId := 0]> (channels_ m)) in
  at_index (nics_ m) rankId m (λ url, '(m, _) ← ConnectHcomChannel m rankId url; Ret m)).

(** ** Transfers *)

(** Whether the local key is copied whole, or its keys alone over uninitialised memory. *)
Definition local_key (whole : bool) (r : HcomMemoryRegion) : OneSideKey :=
  if whole then key_of_memory (lKey r) junk else copy_keys (lKey r) junk.
(** The keys for a request, or the error to return. *)
Definition request_keys (whole : bool) (m : HcomTransportManager) (rankId lAddr rAddr : Z)
    : hprog (option (OneSideKey * OneSideKey)) :=
  l ← GetMemoryRegionByAddr m (rankId_ m) lAddr;
  match l with
  | None => Ret None
  | Some l =>
      r ← GetMemoryRegionByAddr m rankId rAddr;
      Ret (r ← r; Some (local_key whole l, key_of_memory (lKey r) junk))
  end.
(** The checks every transfer starts with: the channel to the rank. *)
Definition with_channel (m : HcomTransportManager) (rankId : Z) (k : Z → hprog Z) : hprog Z :=
  if rpcService_ m =? 0 then Ret BM_ERROR else
  if negb (rankId <? rankCount_ m) then Ret BM_INVALID_PARAM else
  at_index (channels_ m) rankId BM_ERROR (λ channel, if channel =? 0 then Ret BM_ERROR else k channel).

Definition Inner (op : Z → OneSideRequest → bool → HCall) (m : HcomTransportManager) (rankId lAddr rAddr n : Z) : hprog Z :=
  with_channel m rankId (λ channel,
  ks ← request_keys false m rankId lAddr rAddr;
  match ks with
  | None => Ret BM_ERROR
  | Some (lk, rk) => hret (op channel (mkReq lAddr rAddr lk rk (u32 n)) false)
  end).
Definition InnerReadRemote := Inner ChannelGet.
Definition InnerWriteRemote := Inner ChannelPut.

Fixpoint retry (attempts : nat) (op : HcomTransportManager → hprog Z) (m : HcomTransportManager) (rankId attempt : Z)
    : hprog (HcomTransportManager * Z) :=
  match attempts with
  | O => Ret (m, BM_ERROR)
  | S attempts =>
      ret ← op m;
      if ret =? BM_OK then Ret (m, BM_OK) else
      broken ← (if 0 <? ret then Ret true else at_index (channels_ m) rankId true (λ c, Ret (c =? 0)));
      m ← (if broken : bool then ForceReConnectHcomChannel m rankId else Ret m);
      _ ← (if attempt <? Z.of_nat kMaxRetries - 1 then hret (SleepFor (attempt + 1)) else Ret 0);
      retry attempts op m rankId (attempt + 1)
  end.
Definition ReadRemote (m : HcomTransportManager) (rankId lAddr rAddr n : Z) : hprog (HcomTransportManager * Z) :=
  retry kMaxRetries (λ m, InnerReadRemote m rankId lAddr rAddr n) m rankId 0.
Definition WriteRemote (m : HcomTransportManager) (rankId lAddr rAddr n : Z) : hprog (HcomTransportManager * Z) :=
  retry kMaxRetries (λ m, InnerWriteRemote m rankId lAddr rAddr n) m rankId 0.

Definition PrepareThreadLocalStream : hprog Z :=
  a ← hcall HasStream;
  if negb (ret a =? 0) then Ret BM_OK else
  _ ← hcall NewStream; Ret BM_OK.
Definition Synchronize (rankId : Z) : hprog Z :=
  a ← hcall HasStream;
  if ret a =? 0 then Ret BM_OK else
  _ ← hcall StreamSynchronize; Ret BM_OK.

(** A task with a callback: a rejected one is taken back, and what was accepted
    before it is waited for. *)
Definition submit_task (m : HcomTransportManager) (c : HCall) : hprog Z :=
  _ ← hcall (StreamSubmitTasks 1);
  ret ← hret c;
  if negb (ret =? 0) then
    hcall (StreamFinishOne false) ≫= λ _, Synchronize (rankId_ m) ≫= λ _, Ret ret
  else Ret ret.

(** The loop over the slices of a transfer. *)
Fixpoint slices (fuel : nat) (m : HcomTransportManager) (op : Z → Z → Z → HCall) (lAddr rAddr remain offset ret : Z)
    : hprog Z :=
  if remain <=? 0 then Ret ret else
  match fuel with
  | O => hundefined ret
  | S fuel =>
      let sliceSize := u32 (if HCOM_MAX_SLICE_SIZE <? remain then HCOM_MAX_SLICE_SIZE else remain) in
      ret ← submit_task m (op (lAddr +64 offset) (rAddr +64 offset) sliceSize);
      if negb (ret =? 0) then Ret ret else
      slices fuel m op lAddr rAddr (remain -64 sliceSize) (offset +64 sliceSize) ret
  end.
Definition slice_fuel (n : Z) : nat := Z.to_nat (n / HCOM_MAX_SLICE_SIZE + 1).

Definition RemoteAsync (op : Z → OneSideRequest → bool → HCall) (whole : bool) (m : HcomTransportManager)
    (rankId lAddr rAddr n : Z) : hprog Z :=
  with_channel m rankId (λ channel,
  ks ← request_keys whole m rankId lAddr rAddr;
  match ks with
  | None => Ret BM_ERROR
  | Some (lk, rk) =>
      ret ← PrepareThreadLocalStream;
      if negb (ret =? BM_OK) then Ret ret else
      a ← hcall HasStream;
      if HcomTransport.ret a =? 0 then Ret BM_ERROR else
      slices (slice_fuel n) m (λ l r k, op channel (mkReq l r lk rk k) true) lAddr rAddr n 0 ret
  end).
Definition ReadRemoteAsync := RemoteAsync ChannelGet true.
Definition WriteRemoteAsync := RemoteAsync ChannelPut false.

(** The requests of one scatter-gather list; an address is looked up by where the
    transfer starts. *)
Fixpoint iov_requests (whole : bool) (m : HcomTransportManager) (rankId : Z) (l r : CopyItem → Z) (d : CopyDescriptor)
    (indices : list Z) : hprog (Z + list OneSideRequest) :=
  match indices with
  | [] => Ret (inr [])
  | i :: indices =>
      at_index d i (inl BM_ERROR) (λ x,
      ks ← request_keys whole m rankId (l x) (r x);
      match ks with
      | None => Ret (inl BM_ERROR)
      | Some (lk, rk) =>
          ret ← PrepareThreadLocalStream;
          if negb (ret =? BM_OK) then Ret (inl ret) else
          rest ← iov_requests whole m rankId l r d indices;
          Ret match rest with
              | inl e => inl e
              | inr reqs => inr (mkReq (l x) (r x) lk rk (u32 (count x)) :: reqs)
              end
      end)
  end.
Fixpoint batch_tasks (fuel : nat) (op : list OneSideRequest → HCall) (whole : bool) (m : HcomTransportManager) (rankId : Z)
    (l r : CopyItem → Z) (d : CopyDescriptor) (allBatch batchs index : Z) : hprog Z :=
  if batchs <=? index then Ret BM_OK else
  match fuel with
  | O => hundefined BM_OK
  | S fuel =>
      let first := u32 (index * HCOM_IOV_BATCH_SIZE) in
      let last := Z.min allBatch (u32 ((index + 1) * HCOM_IOV_BATCH_SIZE)) in
      sglReq ← iov_requests whole m rankId l r d (seqZ first (last - first));
      match sglReq with
      | inl e => Ret e
      | inr iov =>
          a ← hcall HasStream;
          if ret a =? 0 then Ret BM_ERROR else
          ret ← submit_task m (op iov);
          if negb (ret =? BM_OK) then Ret ret else
          batch_tasks fuel op whole m rankId l r d allBatch batchs (u32 (index + 1))
      end
  end.
Definition RemoteBatchAsync (op : Z → list OneSideRequest → HCall) (whole : bool) (m : HcomTransportManager) (rankId : Z)
    (l r : CopyItem → Z) (d : CopyDescriptor) : hprog Z :=
  with_channel m rankId (λ channel,
  let allBatch := u32 (Z.of_nat (length d)) in
  let batchs := u32 (allBatch + HCOM_IOV_BATCH_SIZE - 1) / HCOM_IOV_BATCH_SIZE in
  batch_tasks (Z.to_nat batchs) (op channel) whole m rankId l r d allBatch batchs 0).
(** Here the local ends of a read are in [globalAddrs]. *)
Definition ReadRemoteBatchAsync (m : HcomTransportManager) (rankId : Z) (d : CopyDescriptor) : hprog Z :=
  if (length d =? 0)%nat then Ret BM_INVALID_PARAM else
  RemoteBatchAsync ChannelGetV true m rankId globalAddr localAddr d.
Definition WriteRemoteBatchAsync (m : HcomTransportManager) (rankId : Z) (d : CopyDescriptor) : hprog Z :=
  RemoteBatchAsync ChannelPutV false m rankId localAddr globalAddr d.

(** ** The transport manager of the data operation

    How the calls of the data operation are answered by this manager; the others
    are passed on. *)
Record HostState := mkHost { tm : HcomTransportManager; vam : HybmVaManager }.
Definition keep (st : HostState) (p : hprog Z) : hprog (HostState * Z) := r ← p; Ret (st, r).
Definition moved (st : HostState) (p : hprog (HcomTransportManager * Z)) : hprog (HostState * Z) :=
  '(m, r) ← p; Ret (mkHost m (vam st), r).
Definition changed (p : hprog (HcomTransportManager * HybmVaManager * Z)) : hprog (HostState * Z) :=
  '(m, va, r) ← p; Ret (mkHost m va, r).
Definition handle (st : HostState) (c : Call) : hprog (HostState * Z) :=
  let m := tm st in
  match c with
  | HostDataOp.RegisterMemoryRegion a n flags => changed (RegisterMemoryRegion m (vam st) (mkTmr a n flags))
  | HostDataOp.UnregisterMemoryRegion a => changed (UnregisterMemoryRegion m (vam st) a)
  | HostDataOp.QueryHasRegistered a n => keep st (b ← QueryHasRegistered m a n; Ret (if b : bool then 1 else 0))
  | HostDataOp.ReadRemote r l a n => moved st (ReadRemote m r l a n)
  | HostDataOp.WriteRemote r l a n => moved st (WriteRemote m r l a n)
  | HostDataOp.ReadRemoteAsync r l a n => keep st (ReadRemoteAsync m r l a n)
  | HostDataOp.WriteRemoteAsync r l a n => keep st (WriteRemoteAsync m r l a n)
  | HostDataOp.ReadRemoteBatchAsync r d => keep st (ReadRemoteBatchAsync m r d)
  | HostDataOp.WriteRemoteBatchAsync r d => keep st (WriteRemoteBatchAsync m r d)
  | HostDataOp.Synchronize r => keep st (Synchronize r)
  | c => keep st (hret (Other c))
  end.
(** A program of the data operation over this transport. *)
Fixpoint over {A} (st : HostState) (p : prog A) : hprog (HostState * A) :=
  match p with
  | Ret a => Ret (st, a)
  | Act c k => '(st, r) ← handle st c; over st (k r)
  end.
End Hcom.
