(* ===== verification/HcomTransportSpec.v ===== *)
(** * The host transport: the theorems

    The contract of the hcom library ([hstep]) and the proof that the transport
    manager keeps, over it, the contract the data operation relies on
    ([HostDataOpSpec.fabric_step]); with it, a program of the data operation run
    over this transport has every property it was proved to have over the fabric. *)
From Stdlib Require Import Strings.Byte Strings.String.
From stdpp Require Import base numbers list gmap relations.
From S2P Require Import Prelude RangePool RangePoolSpec VaManager VaManagerSpec Fabric HostDataOp HostDataOpSpec StrUtil HcomHelper HcomTransport.
Local Open Scope Z_scope.
Local Open Scope mf_scope.

(** ** The world of one thread

    The fabric, and the thread's counter stream: every transfer with a callback is
    a flight tagged with its rank, and the callback runs when it is over. *)
Record HWorld := mkHW { hw : World; stream_ : option HostHcomCounterStream }.
Definition is_ranked (f : Flight) : bool := match f_tag f with TRank _ => true | _ => false end.
Definition ranked (w : World) : nat := length (List.filter is_ranked (flights w)).
(** The stream after [k] callbacks. *)
Definition ran (k : nat) (s : option HostHcomCounterStream) : option HostHcomCounterStream :=
  Nat.iter k (λ s, (FinishOne s true).1) <$> s.
(** Time passes: copies make progress, callbacks run. *)
Definition idle (h h' : HWorld) : Prop :=
  adv (hw h) (hw h') ∧ stream_ h' = ran (ranked (hw h) - ranked (hw h')) (stream_ h).
(** What the library can have outstanding. *)
Definition CAPACITY : Z := 2 ^ 31 - 2.

(** ** The address manager beside it

    Where it is asked about an address it must not be empty: one entry stays, and
    an entry is at the address it describes. *)
Record va_keep (g0 : Z) (va : HybmVaManager) : Prop := {
  vk_entry : is_Some (byGva va !! g0);
  vk_same : ∀ l i, byLva va !! l = Some i → lva (base i) = gva (base i);
}.
Lemma GetGvaByLva_same g0 va a : va_keep g0 va → 0 ≤ a < 2 ^ 64 → GetGvaByLva va a = 0 ∨ GetGvaByLva va a = a.
Proof.
  intros Hk Ha. unfold GetGvaByLva. destruct (a =? 0); [by left|]. pose proof (prev_upper_bound_last (byLva va) a) as Hp.
  destruct (iter_eqb _ _); [by left|]. rewrite Hp. destruct (last_where _ _) as [[k i]|] eqn:E; [|by left].
  apply last_where_Some in E as (E & _). destruct (ContainsByLva i a); [right|by left].
  rewrite (vk_same _ _ Hk _ _ E). unfold u64. rewrite Z.add_mod_idemp_r by lia.
  replace (gva (base i) + (a - gva (base i))) with a by lia. by apply Z.mod_small.
Qed.
Lemma remove_keep g0 va a : va_keep g0 va → 0 ≤ a < 2 ^ 64 → a ≠ g0 → ∃ va', RemoveOneVaInfo va a = Some va' ∧ va_keep g0 va'.
Proof.
  intros Hk Ha Hne. pose proof (GetGvaByLva_same _ _ _ Hk Ha) as Hg. unfold RemoveOneVaInfo.
  assert (∃ b, IsGva va a = Some b) as [b Eb].
  { unfold IsGva. destruct (a =? 0); [by eexists|]. pose proof (at_or_before_spec (byGva va) a) as Hs.
    destruct (at_or_before _ _); [by eexists|]. destruct (vk_entry _ _ Hk) as [x Hx]. by rewrite Hs, lookup_empty in Hx. }
  rewrite Eb. change (Some b ≫= ?f) with (f b). cbv beta zeta. set (g := if b then a else _).
  assert (g = 0 ∨ g = a) as Hga by (unfold g; destruct b; auto). destruct (Z.eqb_spec g 0) as [|Hg0]; [by eexists|].
  destruct Hga as [|Hga]; [done|]. destruct (byGva va !! g) as [info|] eqn:Ei; [|by eexists]. eexists. split; [done|].
  destruct Hk as [Hk1 Hk2]. split; cbn.
  - rewrite lookup_delete_ne by congruence. done.
  - intros l i. destruct (byLva va !! lva (base info)) as [j|]; [|by eauto]. destruct (_ =? g); [|by eauto].
    intros [_ H]%lookup_delete_Some. eauto.
Qed.
Lemma add_keep g0 va a n t r : va_keep g0 va → va_keep g0 (AddVaInfoFromExternal_local va (mkBase a n t a) r).1.
Proof.
  intros [Hk1 Hk2]. unfold AddVaInfoFromExternal_local, AddVaInfoFromExternal.
  assert (∀ info, lva (base info) = gva (base info) → va_keep g0 (AddVaInfo va info).1) as Hadd.
  { intros info Hi. unfold AddVaInfo. repeat (case_match; [by split|]). split; cbn.
    - destruct (decide (gva (base info) = g0)) as [<-|Hne]; [rewrite lookup_insert_eq; by eexists|by rewrite lookup_insert_ne].
    - intros l i [[_ <-]|[_ Hl]]%lookup_insert_Some; eauto. }
  specialize (Hadd (VaManager.mkInfo (mkBase a n t a) (INVALID_RANK_ID =? INVALID_RANK_ID) r INVALID_RANK_ID) eq_refl).
  destruct (AddVaInfo _ _) as [va' x]. by destruct (x =? BM_OK).
Qed.

(** ** The contract of the library

    [me] is the calling rank, [who] the rank that listens at a url, [peer] the rank
    at the other end of a channel, [rankCount] the number of ranks. *)
Section Contract.
Context (me : Z) (who : bytes → Z) (peer : Z → Z) (rankCount : Z).

Definition get_moves (ch : Z) (r : OneSideRequest) : list Move :=
  moves (me, lAddress r) (peer ch, rAddress r) (reqSize r).
Definition put_moves (ch : Z) (r : OneSideRequest) : list Move :=
  moves (peer ch, rAddress r) (me, lAddress r) (reqSize r).

(** A call that returns when the transfer is over; one that fails has made some of
    it, and will make no more. *)
Definition transfer (ms : list Move) (h h' : HWorld) (ret : Z) : Prop :=
  ∃ part, part ⊆ ms ∧ (ret = 0 → part = ms) ∧ copy_ok TNow part (hw h) (hw h') ∧
    stream_ h' = ran (ranked (hw h) - ranked (hw h')) (stream_ h).
(** A call with a callback: one transfer, or none. *)
Definition submits (ch : Z) (ms : list Move) (h h' : HWorld) (ret : Z) : Prop :=
  (ret = 0 ∧ ∃ h1 todo, idle h h1 ∧ (∀ mv, mv ∈ todo ↔ mv ∈ ms) ∧
     let h2 := mkHW (post (hw h1) [mkFlight (TRank (peer ch)) todo]) (stream_ h1) in
     Z.of_nat (ranked (hw h2)) ≤ CAPACITY ∧ idle h2 h') ∨
  (ret ≠ 0 ∧ idle h h').
(** A method of the stream, at some moment of the call. *)
Definition updates (f : HostHcomCounterStream → HostHcomCounterStream → Prop) (h h' : HWorld) : Prop :=
  ∃ h1 s s', idle h h1 ∧ stream_ h1 = Some s ∧ f s s' ∧ h' = mkHW (hw h1) (Some s').

(** What is handed to the library on connecting, to be handed back, at either end of
    the channel, when it breaks. *)
Definition handed (payLoad : bytes) : Prop := ∃ r, 0 ≤ r < rankCount ∧ payLoad = to_string r.
Definition hok (h : HWorld) (c : HCall) : Prop :=
  match c with
  | ServiceConnect _ _ payLoad _ => handed payLoad
  | HUndefined => False
  | Other c => c ≠ Undefined
  | ChannelGet ch _ _ | ChannelPut ch _ _ => ch ≠ 0
  | ChannelGetV ch iov | ChannelPutV ch iov => ch ≠ 0 ∧ (0 < length iov <= 4)%nat
  | StreamSubmitTasks _ | StreamFinishOne _ | StreamSynchronize => is_Some (stream_ h)
  | _ => True
  end.
Definition hstep (h : HWorld) (c : HCall) (h' : HWorld) (a : HAns) : Prop :=
  match c with
  | HUndefined => False
  | Other c =>
      fabric_step me (hw h) c (hw h') (ret a) ∧ (ranked (hw h') <= ranked (hw h))%nat ∧
      stream_ h' = ran (ranked (hw h) - ranked (hw h')) (stream_ h)
  | ChannelGet ch r false => transfer (get_moves ch r) h h' (ret a)
  | ChannelPut ch r false => transfer (put_moves ch r) h h' (ret a)
  | ChannelGet ch r true => submits ch (get_moves ch r) h h' (ret a)
  | ChannelPut ch r true => submits ch (put_moves ch r) h h' (ret a)
  | ChannelGetV ch iov => submits ch (iov ≫= get_moves ch) h h' (ret a)
  | ChannelPutV ch iov => submits ch (iov ≫= put_moves ch) h h' (ret a)
  | HasStream => idle h h' ∧ ret a = match stream_ h with Some _ => 1 | None => 0 end
  | NewStream => ∃ h1, idle h h1 ∧ h' = mkHW (hw h1) (Some (mkStream 0))
  | StreamSubmitTasks n => updates (λ s s', s' = SubmitTasks s n) h h'
  | StreamFinishOne b => updates (λ s s', s' = (FinishOne s b).1) h h'
  | StreamSynchronize => updates (λ s s', stream_Synchronize s = Some s') h h'
  | ServiceCreate _ => idle h h' ∧ (ret a = 0 → out a ≠ 0)
  | ServiceConnect _ url _ _ => idle h h' ∧ (ret a = 0 → url ≠ [] ∧ out a ≠ 0 ∧ peer (out a) = who url)
  | _ => idle h h'
  end.
Abbreviation hwp p h Q := (wp hok hstep p h Q).

(** ** The counter *)

(** The counter is [k] ahead of the transfers in flight. *)
Definition counted (k : Z) (h : HWorld) : Prop :=
  Z.of_nat (ranked (hw h)) ≤ CAPACITY ∧
  match stream_ h with
  | Some s => num_ s = Z.of_nat (ranked (hw h)) + k
  | None => ranked (hw h) = O ∧ k = 0
  end.

Lemma ranked_adv1 w w' : adv1 w w' → (ranked w' <= ranked w)%nat.
Proof.
  intros [m e fs1 tag t1 d s t2 again fs2|m e fs1 tag fs2]; unfold ranked; cbn [flights]; rewrite !List.filter_app, !length_app; cbn.
  - by destruct (is_ranked _).
  - destruct (is_ranked _); cbn; lia.
Qed.
Lemma ranked_adv w w' : adv w w' → (ranked w' <= ranked w)%nat.
Proof. induction 1 as [|? ? ? H%ranked_adv1 _ IH]; lia. Qed.

Lemma ran_num k s : - 2 ^ 31 ≤ num_ s - Z.of_nat k → num_ s < 2 ^ 31 →
  num_ (Nat.iter k (λ s, (FinishOne s true).1) s) = num_ s - Z.of_nat k.
Proof.
  induction k as [|k IH]; intros H1 H2; [cbn; lia|]. rewrite Nat.iter_succ. unfold FinishOne at 1. cbn [fst num_].
  rewrite IH, i32_small; lia.
Qed.
(** Callbacks keep the counter in step with the flights. *)
Lemma counted_ran k w w' s : (ranked w' <= ranked w)%nat → 0 ≤ k ≤ 1 → counted k (mkHW w s) →
  counted k (mkHW w' (ran (ranked w - ranked w') s)).
Proof.
  unfold counted, CAPACITY. cbn. intros Hr Hk [Hc Hs]. split; [lia|]. destruct s as [s|]; cbn; [|lia].
  rewrite ran_num; lia.
Qed.
Lemma counted_idle k h h' : idle h h' → 0 ≤ k ≤ 1 → counted k h → counted k h'.
Proof.
  destruct h as [w s], h' as [w' s']. intros [Ha Hs] Hk Hc. cbn in *. subst s'. apply counted_ran; [by apply ranked_adv|done..].
Qed.
Lemma ranked_quiet r w : ranked w = O → quiet (TRank r) w.
Proof.
  intros Hr f Hf Ht. unfold ranked in Hr. apply length_zero_iff_nil in Hr.
  assert (f ∈ List.filter is_ranked (flights w)) as Hin.
  { apply list_elem_of_In, filter_In. split; [by apply list_elem_of_In|]. unfold is_ranked. by rewrite Ht. }
  rewrite Hr in Hin. by apply not_elem_of_nil in Hin.
Qed.
Lemma idle_refl h : idle h h.
Proof. split; [done|]. rewrite Nat.sub_diag. unfold ran. by destruct (stream_ h). Qed.
Lemma idle_trans h h1 h2 : idle h h1 → idle h1 h2 → idle h h2.
Proof.
  intros [Ha Hs] [Hb Ht]. split; [by etrans|]. rewrite Ht, Hs. unfold ran. rewrite <- option_fmap_compose.
  apply ranked_adv in Ha, Hb. replace (ranked (hw h) - ranked (hw h2))%nat with (ranked (hw h1) - ranked (hw h2) + (ranked (hw h) - ranked (hw h1)))%nat by lia.
  apply option_fmap_ext. intros s. cbn. by rewrite Nat.iter_add.
Qed.
Lemma idle_stream h h' : idle h h' → is_Some (stream_ h') ↔ is_Some (stream_ h).
Proof. intros [_ ->]. unfold ran. by rewrite fmap_is_Some. Qed.

Lemma hwp_call c h Q : hok h c → (∀ h' a, hstep h c h' a → Q a h') → hwp (hcall c) h Q.
Proof. intros Hc HQ. split; [done|]. intros h' a Hs. by apply HQ. Qed.
Lemma hwp_ret c h Q : hok h c → (∀ h' a, hstep h c h' a → Q (ret a) h') → hwp (hret c) h Q.
Proof. intros Hc HQ. split; [done|]. intros h' a Hs. by apply HQ. Qed.

(** ** Waiting *)
Lemma update_counted k n f h h' : 0 ≤ k ≤ 1 → counted k h → updates f h h' → 
  (∀ s s', num_ s ≤ CAPACITY + k → 0 ≤ num_ s → f s s' → num_ s' = num_ s + n) →
  adv (hw h) (hw h') ∧ is_Some (stream_ h') ∧ counted (k + n) h'.
Proof.
  intros Hk Hc (h1 & s & s' & Hi & Hs & Hf & ->) Hn. pose proof (counted_idle k _ _ Hi Hk Hc) as [Hb Hcs]. rewrite Hs in Hcs.
  split_and!; [apply Hi|by eexists|]. split; [done|]. cbn. rewrite (Hn s s'); [lia|lia|lia|done].
Qed.

(** The wait is over when no transfer is in flight. *)
Lemma synchronize_wp r h : counted 0 h →
  hwp (Synchronize r) h (λ x h', x = 0 ∧ counted 0 h' ∧ adv (hw h) (hw h') ∧ ranked (hw h') = O ∧ (is_Some (stream_ h) → is_Some (stream_ h'))).
Proof.
  intros Hc. apply wp_seq, hwp_call; [done|]. intros h1 a [Hi Ha]. rewrite Ha.
  pose proof (counted_idle 0 _ _ Hi ltac:(lia) Hc) as Hc1. pose proof (idle_stream _ _ Hi) as Hst. destruct (stream_ h) as [s0|] eqn:E.
  - cbn [Z.eqb]. apply wp_seq, hwp_call; [by apply Hst|]. intros h2 a2 Hu. destruct Hu as (h3 & s & s' & Hi3 & Hs & Hf & ->).
    pose proof (counted_idle 0 _ _ Hi3 ltac:(lia) Hc1) as [Hb Hcs]. rewrite Hs in Hcs. unfold stream_Synchronize in Hf.
    destruct (Z.leb_spec (num_ s) 0); [|done]. simplify_eq. unfold counted. cbn.
    split_and!; [done|done|lia|etrans; [apply Hi|apply Hi3]|lia|by eexists].
  - cbn. destruct Hc as [_ Hc]. rewrite E in Hc. split_and!; [done|done|apply Hi| |by intros []].
    destruct Hi as [Ha1 _]. apply ranked_adv in Ha1. lia.
Qed.

(** ** Submitting *)
Definition result (t : Tag) (ms : list Move) (w w' : World) (r : Z) : Prop :=
  (r = 0 ∧ copy_ok t ms w w') ∨ (r ≠ 0 ∧ ∃ part, part ⊆ ms ∧ sent t part w w').
Lemma result_copies e t ms w w' r : result t ms w w' r → copies t ms (flagged e w) (flagged (e || negb (r =? 0)) w') r.
Proof.
  intros [[-> Hc]|(Hr & part & Hp & Hs)]; [apply copies_flagged; by left|]. right. split; [done|].
  apply Z.eqb_neq in Hr. rewrite Hr, orb_true_r. apply (sent_failed t part ms (flagged e w) (flagged e w')); [by apply sent_flagged|done].
Qed.

Lemma result_none t ms w w' e : e ≠ 0 → adv w w' → result t ms w w' e.
Proof. intros He Ha. right. split; [done|]. exists []. split; [set_solver|]. by apply sent_nil. Qed.

(** A call that submits one transfer. *)
Definition submitter (c : HCall) (ch : Z) (ms : list Move) : Prop :=
  ∀ h, hok h c ∧ ∀ h' a, hstep h c h' a → submits ch ms h h' (ret a).
Definition streaming (h : HWorld) : Prop := counted 0 h ∧ is_Some (stream_ h).

Lemma submits_sent ch ms h h' r : counted 1 h → is_Some (stream_ h) → submits ch ms h h' r →
  is_Some (stream_ h') ∧ if decide (r = 0) then counted 0 h' ∧ sent (TRank (peer ch)) ms (hw h) (hw h') else counted 1 h' ∧ adv (hw h) (hw h').
Proof.
  intros Hc Hst [(-> & h1 & todo & Hi & Hms & Hcap & Hi2)|(Hr & Hi)].
  - pose proof (counted_idle 1 _ _ Hi ltac:(lia) Hc) as [Hb Hcs]. assert (is_Some (stream_ h1)) as [s Hs] by by apply (idle_stream _ _ Hi).
    split; [apply (idle_stream _ _ Hi2); by eexists|]. rewrite decide_True by done. rewrite Hs in *. split.
    + eapply counted_idle; [exact Hi2|lia|]. split; [done|]. cbn. rewrite Hcs. unfold ranked. cbn. rewrite List.filter_app, length_app. cbn. lia.
    + exists (hw h1), [mkFlight (TRank (peer ch)) todo]. split_and!; [apply Hi| |by repeat constructor|apply Hi2].
      intros mv. cbn. rewrite app_nil_r. apply Hms.
  - split; [by apply (idle_stream _ _ Hi)|]. rewrite decide_False by done. split; [|apply Hi]. eapply counted_idle; [exact Hi|lia|done].
Qed.
Lemma submit_task_wp m c ch ms h : submitter c ch ms → streaming h →
  hwp (submit_task m c) h (λ r h', streaming h' ∧
    if decide (r = 0) then sent (TRank (peer ch)) ms (hw h) (hw h') else adv (hw h) (hw h')).
Proof.
  intros Hsub [Hc Hst]. apply wp_seq, hwp_call; [done|]. intros h1 a1 Hu.
  destruct (update_counted 0 1 _ _ _ ltac:(lia) Hc Hu) as (Ha1 & Hst1 & Hc1).
  { intros s s' H1 H2 ->. unfold CAPACITY in *. cbn. rewrite i32_small; lia. }
  apply wp_seq, hwp_ret; [apply Hsub|]. intros h2 a2 Hs2. apply Hsub in Hs2. cbn in Hc1.
  destruct (submits_sent _ _ _ _ _ Hc1 Hst1 Hs2) as [Hst2 H2]. destruct (Z.eqb_spec (ret a2) 0) as [E|E]; cbn [negb].
  - rewrite decide_True in H2 by done. cbn. rewrite decide_True by done. split; [by split; [apply H2|]|]. by eapply sent_adv_l, H2.
  - rewrite decide_False in H2 by done. destruct H2 as [Hc2 Ha2]. apply wp_seq, hwp_call; [done|]. intros h3 a3 Hu3.
    destruct (update_counted 1 (-1) _ _ _ ltac:(lia) Hc2 Hu3) as (Ha3 & Hst3 & Hc3).
    { intros s s' H1 H2 ->. unfold CAPACITY in *. cbn. rewrite i32_small; lia. }
    apply wp_seq. eapply wp_mono; [by apply synchronize_wp|]. intros x h4 (_ & Hc4 & Ha4 & _ & Hst4). cbn.
    rewrite decide_False by done. split; [by split; auto|]. etrans; [exact Ha1|]. etrans; [exact Ha2|]. by etrans.
Qed.
(** ** The manager *)
Section Manager.
Context (no_xpu : bool) (junk : OneSideKey).
Context (Hme : 0 ≤ me < rankCount).

(** An open manager: a vector entry per rank, and every channel and card leads to
    the rank it is listed for. *)
Record hcom_inv (m : HcomTransportManager) : Prop := {
  hi_service : rpcService_ m ≠ 0;
  hi_me : rankId_ m = me;
  hi_count : rankCount_ m = rankCount;
  hi_mrs : Z.of_nat (length (mrs_ m)) = rankCount;
  hi_nics : Z.of_nat (length (nics_ m)) = rankCount;
  hi_channels : Z.of_nat (length (channels_ m)) = rankCount;
  hi_peer : ∀ i c, channels_ m !! i = Some c → c ≠ 0 → peer c = Z.of_nat i;
  hi_who : ∀ i url, nics_ m !! i = Some url → url ≠ [] → who url = Z.of_nat i;
}.

Lemma at_index_wp {A B} (l : list A) i (b : B) k h Q : 0 ≤ i < Z.of_nat (length l) →
  (∀ x, l !! Z.to_nat i = Some x → hwp (k x) h Q) → hwp (at_index l i b k) h Q.
Proof.
  intros Hi Hk. unfold at_index. destruct (lookup_lt_is_Some_2 l (Z.to_nat i)) as [x E]; [lia|]. rewrite E. by apply Hk.
Qed.
Lemma set_channel_inv m i c : hcom_inv m → (c ≠ 0 → peer c = Z.of_nat i) → hcom_inv (set_channels m (<[i := c]> (channels_ m))).
Proof.
  intros [] Hc. split; cbn; rewrite ?length_insert; try done. intros j c'.
  rewrite list_lookup_insert. case_decide as E; [intros [= <-]; by destruct E as [-> _]|eauto].
Qed.

Lemma with_channel_wp m r k h (Q : Z → HWorld → Prop) : hcom_inv m → 0 ≤ r → (∀ e, e ≠ 0 → Q e h) →
  (∀ ch, r < rankCount → ch ≠ 0 → peer ch = r → hwp (k ch) h Q) → hwp (with_channel m r k) h Q.
Proof.
  intros Hm Hr He Hk. unfold with_channel. rewrite (proj2 (Z.eqb_neq _ _) (hi_service _ Hm)).
  destruct (Z.ltb_spec r (rankCount_ m)) as [Hlt|Hge]; cbn [negb]; [|by apply He]. rewrite (hi_count _ Hm) in Hlt.
  apply at_index_wp; [rewrite (hi_channels _ Hm); lia|]. intros ch Hch. destruct (Z.eqb_spec ch 0) as [-> |Hne]; [by apply He|].
  apply Hk; [done..|]. rewrite (hi_peer _ Hm _ _ Hch Hne). lia.
Qed.
Lemma request_keys_wp whole m r l a h Q : hcom_inv m → 0 ≤ r < rankCount → (∀ ks, Q ks h) →
  hwp (request_keys no_xpu junk whole m r l a) h Q.
Proof.
  intros Hm Hr HQ. unfold request_keys, GetMemoryRegionByAddr. apply wp_seq.
  apply at_index_wp; [rewrite (hi_me _ Hm), (hi_mrs _ Hm); lia|]. intros ls _. cbn. destruct (find_region ls l); [|apply HQ].
  apply wp_seq. apply at_index_wp; [rewrite (hi_mrs _ Hm); lia|]. intros rs _. apply HQ.
Qed.

(** *** Transfers the caller waits for *)
Definition chan_op (get : bool) : Z → OneSideRequest → bool → HCall := if get then ChannelGet else ChannelPut.
Definition xfer (get : bool) (r l a n : Z) : list Move := if get then moves (me, l) (r, a) n else moves (r, a) (me, l) n.

Lemma chan_op_now get ch req h h' x : hstep h (chan_op get ch req false) h' x →
  transfer (xfer get (peer ch) (lAddress req) (rAddress req) (reqSize req)) h h' (ret x).
Proof. by destruct get. Qed.

Lemma inner_wp get m r l a n h : hcom_inv m → counted 0 h → 0 ≤ r → 0 ≤ n < 2 ^ 32 →
  hwp (Inner no_xpu junk (chan_op get) m r l a n) h (λ x h', counted 0 h' ∧ result TNow (xfer get r l a n) (hw h) (hw h') x).
Proof.
  intros Hm Hc Hr Hn. apply with_channel_wp; [done..| |].
  { intros e He. split; [done|]. by apply result_none. }
  intros ch Hlt Hch Hp. apply wp_seq, request_keys_wp; [done|lia|]. intros [[lk rk]|]; [|split; [done|by apply result_none]].
  apply hwp_ret; [by destruct get|]. intros h' x (part & Hsub & Hall & Hcp & Hst)%chan_op_now. cbn in Hsub, Hall.
  rewrite u32_small, Hp in Hsub, Hall by done. apply copy_ok_sent in Hcp as [Hse Hq]. split.
  - destruct h as [w s], h' as [w' s']. cbn in *. subst s'. destruct Hse as (w1 & fs & Ha & _ & Ht & Ha'). apply counted_ran; [|lia|done].
    apply ranked_adv in Ha, Ha'. unfold ranked, post in *. cbn in Ha'. rewrite List.filter_app, length_app in Ha'.
    assert (List.filter is_ranked fs = []) as Ef; [|rewrite Ef in Ha'; cbn in Ha'; lia].
    clear -Ht. induction Ht as [|f fs E _ IH]; [done|]. cbn. unfold is_ranked at 1. by rewrite E.
  - destruct (decide (ret x = 0)) as [E|E]; [left|right; by eauto]. split; [done|]. rewrite (Hall E) in Hse. by apply copy_ok_sent.
Qed.

Lemma connect_wp m r url h : hcom_inv m → 0 ≤ r < rankCount → (url ≠ [] → who url = r) →
  hwp (ConnectHcomChannel m r url) h (λ x h', hcom_inv x.1 ∧ idle h h').
Proof.
  intros Hm Hr Hurl. apply at_index_wp; [rewrite (hi_channels _ Hm); lia|]. intros c _.
  destruct (negb (c =? 0)); [split; [done|apply idle_refl]|]. apply wp_seq, hwp_call; [by exists r|]. intros h' a [Hi Hok].
  destruct (Z.eqb_spec (ret a) 0) as [E|E]; cbn [negb]; cbn; split; [|done|done|done].
  destruct (Hok E) as (Hu & Ho & Hp). apply set_channel_inv; [done|]. intros _. rewrite Hp, Hurl by done. lia.
Qed.
Lemma reconnect_wp m r h : hcom_inv m → 0 ≤ r → hwp (ForceReConnectHcomChannel m r) h (λ m' h', hcom_inv m' ∧ idle h h').
Proof.
  intros Hm Hr. unfold ForceReConnectHcomChannel. rewrite (hi_count _ Hm). destruct (Z.leb_spec rankCount r); [split; [done|apply idle_refl]|].
  apply at_index_wp; [rewrite (hi_channels _ Hm); lia|]. intros c _.
  assert (hcom_inv (set_channels m (<[Z.to_nat r := 0]> (channels_ m)))) as Hm' by by apply set_channel_inv.
  apply at_index_wp; [rewrite (hi_nics _ Hm'); lia|]. intros url Hurl. apply wp_seq.
  eapply wp_mono; [apply connect_wp; [done|lia|]|by intros [m' x] h' [? ?]].
  intros Hne. rewrite (hi_who _ Hm' _ _ Hurl Hne). lia.
Qed.

Lemma result_then ms part w w1 w2 r : part ⊆ ms → sent TNow part w w1 → result TNow ms w1 w2 r → result TNow ms w w2 r.
Proof.
  intros Hp Hs [[-> [Hs2 Hq]%copy_ok_sent]|(Hr & part2 & Hp2 & Hs2)].
  - left. split; [done|]. apply copy_ok_sent. split; [|done]. eapply sent_same; [|by eapply sent_app]. intros mv.
    rewrite elem_of_app. set_solver.
  - right. split; [done|]. exists (part ++ part2). split; [set_solver|]. by eapply sent_app.
Qed.
Lemma retry_wp ms op n m r i h : 0 ≤ r < rankCount →
  (∀ m h, hcom_inv m → counted 0 h → hwp (op m) h (λ x h', counted 0 h' ∧ result TNow ms (hw h) (hw h') x)) →
  hcom_inv m → counted 0 h →
  hwp (retry n op m r i) h (λ x h', hcom_inv x.1 ∧ counted 0 h' ∧ result TNow ms (hw h) (hw h') x.2).
Proof.
  intros Hr Hop. revert m i h. induction n as [|n IH]; intros m i h Hm Hc; cbn [retry].
  { split_and!; [done|done|by apply result_none]. }
  apply wp_seq. eapply wp_mono; [by apply Hop|]. intros x h1 [Hc1 Hres].
  destruct (Z.eqb_spec x BM_OK) as [-> |Hx]; [by split_and!|].
  destruct Hres as [[? _]|(_ & part & Hsub & Hse)]; [done|].
  apply wp_seq, (wp_mono _ _ _ _ (λ _ h', h' = h1)).
  { destruct (0 <? x); [done|]. apply at_index_wp; [rewrite (hi_channels _ Hm); lia|]. done. }
  intros broken h2 ->. apply wp_seq, (wp_mono _ _ _ _ (λ m' h', hcom_inv m' ∧ idle h1 h')).
  { destruct broken; [apply reconnect_wp; [done|lia]|]. split; [done|apply idle_refl]. }
  intros m2 h2 [Hm2 Hi2]. apply wp_seq, (wp_mono _ _ _ _ (λ _ h', idle h2 h')).
  { destruct (i <? _); [|apply idle_refl]. apply hwp_ret; [done|]. by intros h' a Hs. }
  intros _ h3 Hi3. assert (idle h1 h3) as Hi by by eapply idle_trans.
  eapply wp_mono; [apply IH; [done|by eapply counted_idle]|]. intros y h4 (Hm4 & Hc4 & Hres4). split_and!; [done..|].
  eapply result_then; [exact Hsub| |exact Hres4]. eapply sent_adv_r; [exact Hse|apply Hi].
Qed.

Lemma remote_wp get m r l a n h : hcom_inv m → counted 0 h → 0 ≤ r < rankCount → 0 ≤ n < 2 ^ 32 →
  hwp (retry kMaxRetries (λ m, Inner no_xpu junk (chan_op get) m r l a n) m r 0) h
    (λ x h', hcom_inv x.1 ∧ counted 0 h' ∧ result TNow (xfer get r l a n) (hw h) (hw h') x.2).
Proof. intros. apply retry_wp; [done| |done..]. intros. apply inner_wp; [done..|lia|done]. Qed.
(** *** Transfers with a callback *)
Lemma prepare_stream_wp h : counted 0 h →
  hwp PrepareThreadLocalStream h (λ x h', x = 0 ∧ streaming h' ∧ adv (hw h) (hw h')).
Proof.
  intros Hc. apply wp_seq, hwp_call; [done|]. intros h1 a [Hi Ha]. rewrite Ha.
  pose proof (counted_idle 0 _ _ Hi ltac:(lia) Hc) as Hc1. pose proof (idle_stream _ _ Hi) as Hst. destruct (stream_ h) as [s0|] eqn:E.
  { cbn. split_and!; [done|split; [done|by apply Hst]|apply Hi]. }
  cbn [Z.eqb negb]. apply wp_seq, hwp_call; [done|]. intros h2 a2 (h3 & Hi3 & ->). cbn.
  pose proof (idle_trans _ _ _ Hi Hi3) as [Ha3 _]. pose proof (ranked_adv _ _ Ha3).
  destruct Hc as [Hb Hc]. rewrite E in Hc. split_and!; [done| |done]. unfold streaming, counted. cbn. split; [lia|by eexists].
Qed.
Lemma has_stream_wp h (Q : HAns → HWorld → Prop) : streaming h →
  (∀ h' a, streaming h' → adv (hw h) (hw h') → ret a ≠ 0 → Q a h') → hwp (hcall HasStream) h Q.
Proof.
  intros [Hc Hst] HQ. apply hwp_call; [done|]. intros h' a [Hi Ha]. apply HQ.
  - split; [by eapply counted_idle|by apply (idle_stream _ _ Hi)].
  - apply Hi.
  - rewrite Ha. by destruct Hst as [? ->].
Qed.
Lemma result_app r A B w w1 w2 x : sent (TRank r) A w w1 → result (TRank r) B w1 w2 x → result (TRank r) (A ++ B) w w2 x.
Proof.
  intros Hs [[-> [Hs2 _]%copy_ok_sent]|(Hr & part & Hp & Hs2)].
  - left. split; [done|]. apply copy_ok_sent. split; [by eapply sent_app|done].
  - right. split; [done|]. exists (A ++ part). split; [set_solver|]. by eapply sent_app.
Qed.
Lemma result_late r ms w w1 w2 x : adv w w1 → result (TRank r) ms w1 w2 x → result (TRank r) ms w w2 x.
Proof. intros Ha Hr. by apply (result_app r [] ms w w1 w2 x); [apply sent_nil|]. Qed.
Lemma result_all r ms w w' : sent (TRank r) ms w w' → result (TRank r) ms w w' 0.
Proof. intros Hs. left. split; [done|]. by apply copy_ok_sent. Qed.

Lemma chan_op_submitter get ch req : ch ≠ 0 →
  submitter (chan_op get ch req true) ch (xfer get (peer ch) (lAddress req) (rAddress req) (reqSize req)).
Proof. intros Hch h. by destruct get. Qed.
Lemma xfer_split get r l a n k : 0 ≤ k ≤ n → xfer get r l a n = xfer get r l a k ++ xfer get r (l + k) (a + k) (n - k).
Proof. intros Hk. unfold xfer. destruct get; by rewrite (moves_split _ _ n k Hk). Qed.

Lemma slice_size : 0 < HCOM_MAX_SLICE_SIZE no_xpu < 2 ^ 32.
Proof. unfold HCOM_MAX_SLICE_SIZE. destruct no_xpu; lia. Qed.
Lemma slices_wp get ch lk rk m l a n fuel off h : ch ≠ 0 → n < 2 ^ 64 → 0 ≤ l → 0 ≤ a → l + n ≤ 2 ^ 64 → a + n ≤ 2 ^ 64 → 0 ≤ off ≤ n → streaming h →
  n - off ≤ HCOM_MAX_SLICE_SIZE no_xpu * Z.of_nat fuel →
  hwp (slices no_xpu fuel m (λ l r k, chan_op get ch (mkReq l r lk rk k) true) l a (n - off) off 0) h (λ x h', streaming h' ∧
    result (TRank (peer ch)) (xfer get (peer ch) (l + off) (a + off) (n - off)) (hw h) (hw h') x).
Proof.
  intros Hch Hn64 Hl0 Ha0 Hl Ha. pose proof slice_size as HS. set (S := HCOM_MAX_SLICE_SIZE no_xpu) in *. revert off h.
  induction fuel as [|fuel IH]; intros off h Hoff Hst Hfuel; cbn [slices].
  all: destruct (Z.leb_spec (n - off) 0); [|try lia].
  1, 2: split; [done|]; apply result_all; replace (n - off) with 0 by lia;
    assert (xfer get (peer ch) (l + off) (a + off) 0 = []) as -> by (by destruct get); by apply sent_nil.
  fold S. set (k := Z.min S (n - off)). replace (if S <? n - off then S else n - off) with k by (destruct (Z.ltb_spec S (n - off)); lia).
  cbv zeta. rewrite (u32_small k) by lia. rewrite (u64_small (l + off)), (u64_small (a + off)) by lia.
  apply wp_seq. eapply wp_mono; [by apply submit_task_wp, Hst; apply chan_op_submitter|]. cbn [lAddress rAddress reqSize].
  intros x h1 [Hst1 Hx]. destruct (Z.eqb_spec x 0) as [-> |Hne]; cbn [negb].
  - rewrite decide_True in Hx by done. rewrite (u64_small (n - off - k)), (u64_small (off + k)) by lia. replace (n - off - k) with (n - (off + k)) by lia.
    eapply wp_mono; [apply IH; [lia|done|]|].
    + nia.
    + intros y h2 [Hst2 Hy]. split; [done|]. rewrite (xfer_split _ _ _ _ _ k) by lia. eapply result_app; [exact Hx|].
      rewrite <- !Z.add_assoc. replace (n - off - k) with (n - (off + k)) by lia. done.
  - rewrite decide_False in Hx by done. cbn. split; [done|]. by apply result_none.
Qed.
Lemma async_wp get whole m r l a n h : hcom_inv m → counted 0 h → 0 ≤ r → 0 ≤ n < 2 ^ 64 → 0 ≤ l → 0 ≤ a → l + n ≤ 2 ^ 64 → a + n ≤ 2 ^ 64 →
  hwp (RemoteAsync no_xpu junk (chan_op get) whole m r l a n) h (λ x h', counted 0 h' ∧ result (TRank r) (xfer get r l a n) (hw h) (hw h') x).
Proof.
  intros Hm Hc Hr Hn Hl0 Ha0 Hl Ha. apply with_channel_wp; [done..| |].
  { intros e He. split; [done|]. by apply result_none. }
  intros ch Hlt Hch Hp. apply wp_seq, request_keys_wp; [done|lia|]. intros [[lk rk]|]; [|split; [done|by apply result_none]].
  apply wp_seq. eapply wp_mono; [by apply prepare_stream_wp|]. intros x h1 (-> & Hst1 & Ha1). cbn [Z.eqb negb BM_OK].
  apply wp_seq, has_stream_wp; [done|]. intros h2 x Hst2 Ha2 Hx. rewrite (proj2 (Z.eqb_neq _ _) Hx).
  rewrite <- (Z.sub_0_r n) at 2. eapply wp_mono; [apply slices_wp; try done; [lia|lia|]|].
  - unfold slice_fuel. rewrite Z.sub_0_r. pose proof slice_size as HS. pose proof (Z.div_pos n (HCOM_MAX_SLICE_SIZE no_xpu)).
    pose proof (Z.mul_succ_div_gt n (HCOM_MAX_SLICE_SIZE no_xpu)). rewrite Z2Nat.id; lia.
  - intros y h3 [[Hc3 _] Hres]. split; [done|]. rewrite !Z.add_0_r, Z.sub_0_r, Hp in Hres.
    eapply result_late; [|exact Hres]. by etrans.
Qed.
(** *** Batches *)
Definition local_end (get : bool) : CopyItem → Z := if get then globalAddr else localAddr.
Definition remote_end (get : bool) : CopyItem → Z := if get then localAddr else globalAddr.
Definition item_moves (get : bool) (r : Z) (x : CopyItem) : list Move := xfer get r (local_end get x) (remote_end get x) (count x).
Definition chan_opv (get : bool) : Z → list OneSideRequest → HCall := if get then ChannelGetV else ChannelPutV.
Definition small (x : CopyItem) : Prop := 0 ≤ count x < 2 ^ 32.

Lemma chan_opv_submitter get ch iov : ch ≠ 0 → (0 < length iov <= 4)%nat →
  submitter (chan_opv get ch iov) ch (iov ≫= λ q, xfer get (peer ch) (lAddress q) (rAddress q) (reqSize q)).
Proof. intros Hch Hl h. by destruct get. Qed.

(** The requests of the items at consecutive indices. *)
Lemma iov_wp get whole m r d i items h : hcom_inv m → 0 ≤ r < rankCount → 0 ≤ i → items `prefix_of` drop (Z.to_nat i) d →
  Forall small items → counted 0 h →
  hwp (iov_requests no_xpu junk whole m r (local_end get) (remote_end get) d (seqZ i (Z.of_nat (length items)))) h (λ res h',
    counted 0 h' ∧ adv (hw h) (hw h') ∧ (is_Some (stream_ h) → is_Some (stream_ h')) ∧
    match res with
    | inl e => e ≠ 0
    | inr iov => length iov = length items ∧ (items ≠ [] → is_Some (stream_ h')) ∧
        (iov ≫= λ q, xfer get r (lAddress q) (rAddress q) (reqSize q)) = (items ≫= item_moves get r)
    end).
Proof.
  intros Hm Hr. revert i h. induction items as [|x items IH]; intros i h Hi [d' Hd] Hsm Hc; [by split_and!|].
  rewrite (seqZ_cons i) by (cbn; lia). replace (Z.pred (Z.of_nat (length (x :: items)))) with (Z.of_nat (length items)) by (cbn; lia).
  cbn [iov_requests]. inversion Hsm as [|? ? Hx Hsm']. subst. cbn in Hd.
  assert (d !! Z.to_nat i = Some x) as Ed.
  { rewrite <- (Nat.add_0_r (Z.to_nat i)), <- lookup_drop, Hd. done. }
  apply at_index_wp; [apply lookup_lt_Some in Ed; lia|]. intros y Ey. simplify_eq.
  apply wp_seq, request_keys_wp; [done..|]. intros [[lk rk]|]; [|by split_and!].
  apply wp_seq. eapply wp_mono; [by apply prepare_stream_wp|]. intros z h1 (-> & [Hc1 Hst1] & Ha1). cbn [Z.eqb negb BM_OK].
  apply wp_seq. eapply wp_mono; [apply IH; [lia| |done|done]|].
  { exists d'. replace (Z.to_nat (Z.succ i)) with (Z.to_nat i + 1)%nat by lia. by rewrite <- drop_drop, Hd. }
  intros res h2 (Hc2 & Ha2 & Hst2 & Hres). cbn. split_and!; [done|by etrans|by auto|].
  destruct res as [e|iov]; [done|]. destruct Hres as (Hl & _ & Hms). cbn. split_and!; [by rewrite Hl|by auto|].
  rewrite Hms, u32_small by apply Hx. done.
Qed.
Lemma batch_tasks_wp get ch whole m d fuel index h : hcom_inv m → 0 ≤ peer ch < rankCount → ch ≠ 0 → Forall small d →
  Z.of_nat (length d) + 4 ≤ 2 ^ 32 → 0 ≤ index → Z.of_nat fuel + index = (Z.of_nat (length d) + 3) / 4 → counted 0 h →
  hwp (batch_tasks no_xpu junk fuel (chan_opv get ch) whole m (peer ch) (local_end get) (remote_end get) d
         (Z.of_nat (length d)) ((Z.of_nat (length d) + 3) / 4) index) h (λ x h', counted 0 h' ∧
    result (TRank (peer ch)) (drop (Z.to_nat (4 * index)) d ≫= item_moves get (peer ch)) (hw h) (hw h') x).
Proof.
  intros Hm Hr Hch Hd Hlen. set (len := Z.of_nat (length d)) in *. revert index h.
  induction fuel as [|fuel IH]; intros index h Hi Hf Hc; cbn [batch_tasks]; pose proof (Z.div_mod (len + 3) 4 ltac:(lia));
    pose proof (Z.mod_pos_bound (len + 3) 4 ltac:(lia)).
  { destruct (Z.leb_spec ((len + 3) / 4) index); [|lia]. split; [done|]. apply result_all. rewrite drop_ge by lia. by apply sent_nil. }
  destruct (Z.leb_spec ((len + 3) / 4) index); [lia|]. unfold HCOM_IOV_BATCH_SIZE. cbv zeta.
  rewrite !u32_small by lia. set (items := take 4 (drop (Z.to_nat (4 * index)) d)).
  assert (Z.min len ((index + 1) * 4) - index * 4 = Z.of_nat (length items)) as ->.
  { unfold items. rewrite length_take, length_drop. lia. }
  assert (0 < length items <= 4)%nat as Hl by (unfold items; rewrite length_take, length_drop; lia).
  apply wp_seq. eapply wp_mono; [apply iov_wp; [done|done|lia| |by apply Forall_take, Forall_drop|done]|].
  { replace (Z.to_nat (index * 4)) with (Z.to_nat (4 * index)) by lia. apply prefix_take. }
  intros [e|iov] h1 (Hc1 & Ha1 & _ & Hres); [split; [done|by apply result_none]|]. destruct Hres as (Hli & Hst & Hms).
  assert (items ≠ []) as Hne by (intros E; rewrite E in Hl; cbn in Hl; lia). specialize (Hst Hne).
  apply wp_seq, has_stream_wp; [done|]. intros h2 a Hst2 Ha2 Ha. rewrite (proj2 (Z.eqb_neq _ _) Ha).
  apply wp_seq. eapply wp_mono; [apply submit_task_wp; [apply chan_opv_submitter; [done|lia]|done]|].
  intros x h3 [[Hc3 Hst3] Hx]. unfold BM_OK. destruct (Z.eqb_spec x 0) as [-> |Hxne]; cbn [negb].
  - rewrite decide_True in Hx by done. rewrite Hms in Hx. eapply wp_mono; [apply IH; [lia|lia|done]|].
    intros y h4 [Hc4 Hy]. split; [done|]. rewrite <- (take_drop 4 (drop _ d)), drop_drop. fold items. rewrite bind_app.
    replace (Z.to_nat (4 * index) + 4)%nat with (Z.to_nat (4 * (index + 1))) by lia.
    eapply result_app; [|exact Hy]. eapply sent_adv_l; [|exact Hx]. by etrans.
  - rewrite decide_False in Hx by done. split; [done|]. apply result_none; [done|]. etrans; [exact Ha1|]. by etrans.
Qed.
Lemma batch_wp get whole m r d h : hcom_inv m → counted 0 h → 0 ≤ r → Forall small d → Z.of_nat (length d) + 4 ≤ 2 ^ 32 →
  hwp (RemoteBatchAsync no_xpu junk (chan_opv get) whole m r (local_end get) (remote_end get) d) h
    (λ x h', counted 0 h' ∧ result (TRank r) (d ≫= item_moves get r) (hw h) (hw h') x).
Proof.
  intros Hm Hc Hr Hd Hlen. apply with_channel_wp; [done..| |].
  { intros e He. split; [done|]. by apply result_none. }
  intros ch Hlt Hch <-. unfold HCOM_IOV_BATCH_SIZE. cbv zeta. rewrite (u32_small (Z.of_nat (length d))) by lia.
  rewrite u32_small by lia. replace (Z.of_nat (length d) + 4 - 1) with (Z.of_nat (length d) + 3) by lia.
  pose proof (Z.div_pos (Z.of_nat (length d) + 3) 4). pose proof (batch_tasks_wp get ch whole m d) as Hb.
  apply Hb; try done; lia.
Qed.
(** *** Memory regions *)
Lemma set_mrs_inv m i l : hcom_inv m → hcom_inv (set_mrs m (<[i := l]> (mrs_ m))).
Proof. intros []. split; cbn; rewrite ?length_insert; done. Qed.
Lemma pass_wp c h (Q : HAns → HWorld → Prop) : (∀ h, hok h c ∧ ∀ h' a, hstep h c h' a → idle h h') →
  (∀ a h', idle h h' → Q a h') → hwp (hcall c) h Q.
Proof. intros Hc HQ. apply hwp_call; [apply Hc|]. intros h' a Hs. by eapply HQ, Hc. Qed.

(** *** Setting up *)

(** An option that names a rank by its own card. *)
Definition good_option (x : Z * TransportRankPrepareInfo) : Prop := 0 ≤ x.1 ∧ (nic x.2 ≠ [] → who (nic x.2) = x.1).
Definition ready_as (h : HWorld) (x : HcomTransportManager * Z) (h' : HWorld) : Prop := hcom_inv x.1 ∧ idle h h'.
Lemma ready_now m x h : hcom_inv m → ready_as h (m, x) h.
Proof. intros. split; [done|apply idle_refl]. Qed.
Lemma ready_late h h1 x h2 : idle h h1 → ready_as h1 x h2 → ready_as h x h2.
Proof. intros Hi [? ?]. split; [done|by eapply idle_trans]. Qed.

Ltac pass_on Hi :=
  apply wp_seq, pass_wp; [done|]; let H := fresh in intros ? ? H; apply (idle_trans _ _ _ Hi) in H; clear Hi; rename H into Hi.
Lemma OpenDevice_wp m options h : rpcService_ m = 0 → o_rankId options = me → o_rankCount options = rankCount →
  (∀ ifs out, is_Some (AnalysisNic ifs (o_nic options) out)) →
  hwp (OpenDevice m options) h (λ x h', idle h h' ∧ (x.2 = BM_OK → hcom_inv x.1)).
Proof.
  intros Hm Hid Hn Hnic. unfold OpenDevice. rewrite Hm. cbn [Z.eqb negb]. apply wp_seq, (wp_mono _ _ _ _ (λ _ h', idle h h')).
  { apply wp_seq, pass_wp; [done|]. intros a h' Hi. destruct (Hnic (outIfs a) (mkNic [] (localIp_ m) 0)) as [[x n] ->]. by destruct (negb _). }
  intros [m1 checked] h1 Hi1. destruct (negb (checked =? BM_OK)); [by split|].
  apply wp_seq, hwp_call; [done|]. intros h2 a [Hi2 Ha]. apply (idle_trans _ _ _ Hi1) in Hi2. cbv zeta.
  destruct (Z.eqb_spec (ret a) 0) as [E|E]; cbn [negb]; [|by split].
  do 4 pass_on Hi2. apply wp_seq, (wp_mono _ _ _ _ (λ _ h', idle h h')).
  { destruct (negb _); [|done]. apply hwp_ret; [done|]. intros h4 a4 Hi4. by eapply idle_trans. }
  intros _ h4 Hi4. pass_on Hi4. apply wp_seq, hwp_ret; [done|]. intros h6 a6 Hi6. apply (idle_trans _ _ _ Hi4) in Hi6.
  destruct (negb _); [by pass_on Hi6|]. cbn. split; [done|]. intros _. split; cbn; rewrite ?repeat_length; try done; [by apply Ha|lia..| |].
  - intros i c ->%list_elem_of_lookup_2%list_elem_of_In%repeat_spec. done.
  - intros i url ->%list_elem_of_lookup_2%list_elem_of_In%repeat_spec. done.
Qed.
Lemma set_rank_nics_wp opt m h Q : hcom_inv m → Forall good_option opt → known_ranks m opt = true → (∀ m, hcom_inv m → Q m h) →
  hwp (set_rank_nics m opt) h Q.
Proof.
  intros Hm Ho. revert m Hm. induction Ho as [|[r info] opt [Hr Hw] _ IH]; intros m Hm Hk HQ; cbn [set_rank_nics]; [by apply HQ|].
  cbn in Hk, Hr, Hw. apply andb_true_iff in Hk as [Hlt Hk]. apply Z.ltb_lt in Hlt. rewrite (hi_count _ Hm) in Hlt.
  apply at_index_wp; [rewrite (hi_nics _ Hm); lia|]. intros _ _. apply IH; [|done|done].
  destruct Hm. split; cbn; rewrite ?length_insert; try done. intros i url. rewrite list_lookup_insert.
  case_decide as E; [intros [= <-] Hne|by eauto]. destruct E as [<- _]. rewrite Hw by done. lia.
Qed.
Lemma update_keys_wp l m r h : hcom_inv m → 0 ≤ r < rankCount → hwp (update_rank_keys no_xpu m r l) h (ready_as h).
Proof.
  intros Hm Hr. revert m h Hm. induction l as [|k l IH]; intros m h Hm; cbn [update_rank_keys]; [by apply ready_now|].
  destruct (_ =? 0); [by apply IH|]. apply wp_seq. apply (wp_mono _ _ _ _ (λ _ h', idle h h')).
  { destruct (has_bit _ _); [|apply idle_refl]. apply wp_seq, pass_wp; [done|]. by intros a h' Hi. }
  intros [x k'] h1 Hi. destruct (negb _); [by split|]. apply at_index_wp; [rewrite (hi_mrs _ Hm); lia|]. intros _ _.
  eapply wp_mono; [by apply IH, set_mrs_inv|]. intros y h2 Hy. by eapply ready_late.
Qed.
Lemma UpdateRankMrInfos_wp opt m h : hcom_inv m → Forall good_option opt → known_ranks m opt = true →
  hwp (UpdateRankMrInfos no_xpu m opt) h (ready_as h).
Proof.
  intros Hm Ho Hk. assert (Forall (λ x, 0 ≤ x.1 < rankCount) opt) as Hr.
  { unfold known_ranks in Hk. rewrite forallb_forall in Hk. apply Forall_forall. intros x Hx. rewrite Forall_forall in Ho.
    destruct (Ho x Hx) as [Hx0 _]. apply list_elem_of_In, Hk, Z.ltb_lt in Hx. rewrite (hi_count _ Hm) in Hx. lia. }
  clear Ho Hk. revert m h Hm. induction Hr as [|[r info] opt Hr _ IH]; intros m h Hm; cbn [UpdateRankMrInfos]; [by apply ready_now|].
  destruct (_ =? _); [by apply IH|]. apply wp_seq. eapply wp_mono; [by apply update_keys_wp|]. intros [m' x] h1 [Hm' Hi].
  destruct (negb _); [by split|]. eapply wp_mono; [by apply IH|]. intros y h2 Hy. by eapply ready_late.
Qed.
Lemma Prepare_wp opt m h : hcom_inv m → Forall good_option opt → hwp (Prepare no_xpu m opt) h (ready_as h).
Proof.
  intros Hm Ho. unfold Prepare. destruct (known_ranks m opt) eqn:Hk; [|by apply ready_now]. apply wp_seq, set_rank_nics_wp; [done..|].
  intros m' Hm'. apply UpdateRankMrInfos_wp; [done..|]. unfold known_ranks in *. by rewrite (hi_count _ Hm'), <- (hi_count _ Hm).
Qed.
Lemma connect_ranks_wp ranks m h : hcom_inv m → Forall (λ i, 0 ≤ i < rankCount) ranks → hwp (connect_ranks m ranks) h (ready_as h).
Proof.
  intros Hm Hr. revert m h Hm. induction Hr as [|i ranks Hi _ IH]; intros m h Hm; cbn [connect_ranks]; [by apply ready_now|].
  destruct (_ =? i); [by apply IH|]. apply at_index_wp; [rewrite (hi_nics _ Hm); lia|]. intros url Hurl.
  destruct (Nat.eqb_spec (length url) 0); [by apply IH|]. apply wp_seq. eapply wp_mono; [apply connect_wp; [done..|]|].
  { intros Hne. rewrite (hi_who _ Hm _ _ Hurl Hne). lia. }
  intros [m' x] h1 [Hm' Hi1]. destruct (negb _); [by split|]. eapply wp_mono; [by apply IH|]. intros y h2 Hy. by eapply ready_late.
Qed.
Lemma all_ranks : Forall (λ i, 0 ≤ i < rankCount) (seqZ 0 rankCount).
Proof. apply Forall_forall. intros i Hi%elem_of_seqZ. lia. Qed.
Lemma Connect_wp m h : hcom_inv m → hwp (Connect m) h (ready_as h).
Proof.
  intros Hm. unfold Connect. destruct (_ =? 0); [by apply ready_now|]. rewrite (hi_count _ Hm). by apply connect_ranks_wp, all_ranks.
Qed.
Lemma find_rank_good opt i info : Forall good_option opt → find_rank opt i = Some info → nic info ≠ [] → who (nic info) = i.
Proof.
  induction 1 as [|[r x] opt [_ Hx] _ IH]; cbn; [done|]. destruct (Z.eqb_spec r i) as [-> |]; [intros [= <-]; by apply Hx|done].
Qed.
Lemma connect_new_wp opt ranks m h : hcom_inv m → Forall good_option opt → Forall (λ i, 0 ≤ i < rankCount) ranks →
  hwp (connect_new_ranks m opt ranks) h (ready_as h).
Proof.
  intros Hm Ho Hr. revert m h Hm. induction Hr as [|i ranks Hi _ IH]; intros m h Hm; cbn [connect_new_ranks]; [by apply ready_now|].
  destruct (i =? _); [by apply IH|]. apply at_index_wp; [rewrite (hi_channels _ Hm); lia|]. intros c Hc.
  destruct (if c =? 0 then find_rank opt i else None) as [info|] eqn:E; [|by apply IH].
  assert (nic info ≠ [] → who (nic info) = i) as Hw by (destruct (c =? 0); [by eapply find_rank_good|done]).
  apply at_index_wp; [rewrite (hi_nics _ Hm); lia|]. intros _ _.
  assert (hcom_inv (set_nics m (<[Z.to_nat i := nic info]> (nics_ m)))) as Hm1.
  { destruct Hm. split; cbn; rewrite ?length_insert; try done. intros j url. rewrite list_lookup_insert.
    case_decide as Ej; [intros [= <-] Hne|by eauto]. destruct Ej as [<- _]. rewrite Hw by done. lia. }
  apply wp_seq. eapply wp_mono; [by apply connect_wp|]. intros [m' x] h1 [Hm' Hi1]. destruct (negb _); [by split|].
  eapply wp_mono; [by apply IH|]. intros y h2 Hy. by eapply ready_late.
Qed.
Lemma UpdateRankOptions_wp opt m h : hcom_inv m → Forall good_option opt → hwp (UpdateRankOptions no_xpu m opt) h (ready_as h).
Proof.
  intros Hm Ho. unfold UpdateRankOptions. destruct (known_ranks m opt) eqn:Hk; [|by apply ready_now].
  apply wp_seq. eapply wp_mono; [by apply UpdateRankMrInfos_wp|]. intros [m' x] h1 [Hm' Hi1]. cbn in Hm'. destruct (negb _); [by split|].
  unfold UpdateRankConnectInfos. rewrite (hi_count _ Hm'). eapply wp_mono; [by apply connect_new_wp, all_ranks|].
  intros y h2 Hy. by eapply ready_late.
Qed.
Lemma EndPointBroken_wp m ch payLoad h : hcom_inv m → handed payLoad → rankCount ≤ 2 ^ 32 →
  hwp (TransportRpcHcomEndPointBroken m ch payLoad) h (ready_as h).
Proof.
  intros Hm (r & Hr & ->) Hc. unfold TransportRpcHcomEndPointBroken, String2Uint32.
  rewrite String2Uint_to_string; [|unfold U64_MAX; lia|unfold U32_MAX; lia|apply u32_small; lia]. apply wp_seq.
  apply at_index_wp; [rewrite (hi_channels _ Hm); lia|]. intros c _. destruct (c =? ch); apply ready_now; [by apply set_channel_inv|done].
Qed.

(** What happens to an open manager besides transfers. *)
Inductive ManagerOp := MPrepare (opt : PrepareOptions) | MConnect | MUpdate (opt : PrepareOptions) | MBroken (ch : Z) (payLoad : bytes).
Definition good_op (o : ManagerOp) : Prop :=
  match o with
  | MPrepare opt | MUpdate opt => Forall good_option opt
  | MConnect => True
  | MBroken _ payLoad => handed payLoad
  end.
Definition manage (m : HcomTransportManager) (o : ManagerOp) : hprog (HcomTransportManager * Z) :=
  match o with
  | MPrepare opt => Prepare no_xpu m opt
  | MConnect => Connect m
  | MUpdate opt => UpdateRankOptions no_xpu m opt
  | MBroken ch payLoad => TransportRpcHcomEndPointBroken m ch payLoad
  end.
Fixpoint manage_all (m : HcomTransportManager) (ops : list ManagerOp) : hprog HcomTransportManager :=
  match ops with
  | [] => Ret m
  | o :: ops => '(m, _) ← manage m o; manage_all m ops
  end.
Definition opened (options : TransportOptions) (ops : list ManagerOp) : hprog (option HcomTransportManager) :=
  '(m, r) ← OpenDevice hcom_new options;
  if r =? BM_OK then Some <$> manage_all m ops else Ret None.

Lemma manage_all_wp ops m h : hcom_inv m → rankCount ≤ 2 ^ 32 → Forall good_op ops → hwp (manage_all m ops) h (λ m' h', hcom_inv m' ∧ idle h h').
Proof.
  intros Hm Hc Ho. revert m h Hm. induction Ho as [|o ops Ho _ IH]; intros m h Hm; cbn [manage_all]; [split; [done|apply idle_refl]|].
  apply wp_seq, (wp_mono _ _ _ _ (ready_as h)).
  { destruct o; cbn [manage]; [by apply Prepare_wp|by apply Connect_wp|by apply UpdateRankOptions_wp|by apply EndPointBroken_wp]. }
  intros [m' x] h1 [Hm' Hi]. eapply wp_mono; [by apply IH|]. intros m2 h2 [Hm2 Hi2]. split; [done|by eapply idle_trans].
Qed.

(** A broken channel with the number of a rank there is not indexes the vector of
    channels out of its range. *)
Theorem broken_channel_out_of_range m ch r h : hcom_inv m → rankCount ≤ r < 2 ^ 32 →
  ¬ hwp (TransportRpcHcomEndPointBroken m ch (to_string r)) h (λ _ _, True).
Proof.
  intros Hm Hr. unfold TransportRpcHcomEndPointBroken, String2Uint32.
  rewrite String2Uint_to_string; [|unfold U64_MAX; lia|unfold U32_MAX; lia|apply u32_small; lia].
  unfold HcomChannelDisconnected, at_index. rewrite lookup_ge_None_2 by (rewrite <- (hi_channels _ Hm) in Hr; lia). by intros [].
Qed.

(** C34: once the device is open, over any prepare, connect and update with options
    that name each rank by its own card, and over channels that break, the library
    handing back what it was handed on connecting, in whatever order and with
    whatever errors: no vector is indexed out of its range, every rank keeps its
    entry in each of them, a channel listed for a rank leads to that rank, and every
    connection is made with the number of a rank there is ([hok]). *)
Theorem hcom_stays_ready options ops h : o_rankId options = me → o_rankCount options = rankCount → rankCount ≤ 2 ^ 32 →
  (∀ ifs out, is_Some (AnalysisNic ifs (o_nic options) out)) → Forall good_op ops →
  hwp (opened options ops) h (λ x h', idle h h' ∧ ∀ m, x = Some m → hcom_inv m).
Proof.
  intros Hid Hn Hc Hnic Ho. apply wp_seq. eapply wp_mono; [by apply OpenDevice_wp|]. intros [m r] h1 [Hi Hm]. cbn in Hm.
  destruct (Z.eqb_spec r BM_OK) as [E|]; [|by split]. apply wp_seq. eapply wp_mono; [apply manage_all_wp; [by apply Hm|done..]|].
  intros m2 h2 [Hm2 Hi2]. split; [by eapply idle_trans|]. by intros ? [= <-].
Qed.

Section Regions.
Context (g0 : Z).
Definition kept (h : HWorld) (x : HcomTransportManager * HybmVaManager * Z) (h' : HWorld) : Prop :=
  hcom_inv x.1.1 ∧ va_keep g0 x.1.2 ∧ idle h h'.
Lemma kept_same h m va x : hcom_inv m → va_keep g0 va → kept h (m, va, x) h.
Proof. intros. split_and!; [done..|apply idle_refl]. Qed.
Lemma kept_intro h m va x h' : hcom_inv m → va_keep g0 va → idle h h' → kept h (m, va, x) h'.
Proof. by split. Qed.
Lemma find_region_wp m a h (Q : option HcomMemoryRegion → HWorld → Prop) : hcom_inv m → (∀ x, Q x h) →
  hwp (GetMemoryRegionByAddr m (rankId_ m) a) h Q.
Proof. intros Hm HQ. apply at_index_wp; [rewrite (hi_me _ Hm), (hi_mrs _ Hm); lia|]. intros l _. apply HQ. Qed.
Lemma register_wp m va r h : hcom_inv m → va_keep g0 va → hwp (RegisterMemoryRegion no_xpu m va r) h (kept h).
Proof.
  intros Hm Hk. unfold RegisterMemoryRegion. destruct no_xpu; unfold RegisterMemoryRegion_xpu, RegisterMemoryRegion_no_xpu.
  all: repeat (case_match; [by apply kept_same|]).
  all: apply wp_seq, find_region_wp; [done|]; intros x; case_bool_decide; [by apply kept_same|].
  all: apply wp_seq, pass_wp; [done|]; intros a1 h1 Hi1; destruct (negb (ret a1 =? 0)); [done|]; cbv zeta.
  all: apply wp_seq, pass_wp; [done|]; intros a2 h2 Hi2; pose proof (idle_trans _ _ _ Hi1 Hi2) as Hi; destruct (negb (ret a2 =? 0)).
  - done.
  - apply at_index_wp; [rewrite (hi_me _ Hm), (hi_mrs _ Hm); lia|]. intros l _. apply kept_intro; [by apply set_mrs_inv|done..].
  - apply wp_seq, pass_wp; [done|]. intros a3 h3 Hi3. apply kept_intro; [done..|by eapply idle_trans].
  - apply at_index_wp; [rewrite (hi_me _ Hm), (hi_mrs _ Hm); lia|]. intros l _.
    match goal with |- context[add_region m ?x l] => assert (hcom_inv (add_region m x l)) as Hm' by (by apply set_mrs_inv); revert Hm'; generalize (add_region m x l) end.
    intros m' Hm'. destruct (negb (has_bit (mr_flags r) REG_MR_FLAG_SELF)); [|by apply kept_intro].
    match goal with |- context[AddVaInfoFromExternal_local va (mkBase ?a ?n ?t ?b) ?r] => pose proof (add_keep g0 va a n t r Hk) as Hk' end.
    cbn [addr] in *. destruct (AddVaInfoFromExternal_local _ _ _) as [va' x'] eqn:Ex. cbn in Hk'.
    destruct (negb (x' =? BM_OK)); [|by apply kept_intro]. apply wp_seq, pass_wp; [done|]. intros a3 h3 Hi3. apply kept_intro; [done..|by eapply idle_trans].
Qed.
Lemma unregister_wp m va a h : hcom_inv m → va_keep g0 va → 0 ≤ a < 2 ^ 64 → a ≠ g0 → hwp (UnregisterMemoryRegion m va a) h (kept h).
Proof.
  intros Hm Hk Ha Hne. unfold UnregisterMemoryRegion. repeat (case_match; [by apply kept_same|]).
  destruct (remove_keep _ _ _ Hk Ha Hne) as (va' & -> & Hk').
  apply at_index_wp; [rewrite (hi_me _ Hm), (hi_mrs _ Hm); lia|]. intros l _. destruct (erase_region l a) as [[r l']|]; [|by apply kept_same].
  apply wp_seq, pass_wp; [done|]. intros a1 h1 Hi1. apply kept_intro; [by apply set_mrs_inv|done..].
Qed.

(** ** The refinement *)

(** The calls the manager can answer: ranks there are, transfers whose size fits
    the 32 bits of a request, memory that does not wrap around. *)
Definition accept (c : Call) : Prop :=
  match c with
  | HostDataOp.UnregisterMemoryRegion a => 0 ≤ a < 2 ^ 64 ∧ a ≠ g0
  | HostDataOp.ReadRemote r l a n | HostDataOp.WriteRemote r l a n => 0 ≤ r < rankCount ∧ 0 ≤ n < 2 ^ 32
  | HostDataOp.ReadRemoteAsync r l a n | HostDataOp.WriteRemoteAsync r l a n =>
      0 ≤ r ∧ 0 ≤ n < 2 ^ 64 ∧ 0 ≤ l ∧ 0 ≤ a ∧ l + n ≤ 2 ^ 64 ∧ a + n ≤ 2 ^ 64
  | HostDataOp.ReadRemoteBatchAsync r d | HostDataOp.WriteRemoteBatchAsync r d =>
      0 ≤ r ∧ Forall small d ∧ Z.of_nat (length d) + 4 ≤ 2 ^ 32
  | _ => True
  end.
Record host_inv (st : HostState) (h : HWorld) : Prop := {
  ho_tm : hcom_inv (tm st);
  ho_va : va_keep g0 (vam st);
  ho_counted : counted 0 h;
}.
(** What the data operation expects of the call has happened. *)
Definition refines (c : Call) (h : HWorld) (x : HostState * Z) (h' : HWorld) : Prop :=
  host_inv x.1 h' ∧ ∀ e, ∃ e', fabric_step me (flagged e (hw h)) c (flagged e' (hw h')) x.2.

Lemma refines_copies c t ms h st x h' : effect me c = ECopy t ms → host_inv st h' → result t ms (hw h) (hw h') x → refines c h (st, x) h'.
Proof. intros He Hi Hr. split; [done|]. intros e. eexists. unfold fabric_step. rewrite He. by apply result_copies. Qed.
Lemma refines_pass c h st x h' : effect me c = EPass → host_inv st h' → adv (hw h) (hw h') → refines c h (st, x) h'.
Proof. intros He Hi Hr. split; [done|]. intros e. exists e. unfold fabric_step. rewrite He. by apply adv_flagged. Qed.
Lemma keep_wp st p h (Q : HostState * Z → HWorld → Prop) : hwp p h (λ x, Q (st, x)) → hwp (keep st p) h Q.
Proof. intros Hp. by apply wp_seq. Qed.
Lemma changed_wp c st p h : effect me c = EPass → host_inv st h → hwp p h (kept h) → hwp (changed p) h (refines c h).
Proof.
  intros He [_ _ Hc] Hp. apply wp_seq. eapply wp_mono; [exact Hp|]. intros [[m va] x] h' (Hm & Hk & Hi). apply refines_pass; [done| |apply Hi].
  split; [done..|]. by eapply counted_idle.
Qed.
Lemma moved_wp c st p t ms h : effect me c = ECopy t ms → host_inv st h →
  hwp p h (λ x h', hcom_inv x.1 ∧ counted 0 h' ∧ result t ms (hw h) (hw h') x.2) → hwp (moved st p) h (refines c h).
Proof.
  intros He Hi Hp. apply wp_seq. eapply wp_mono; [exact Hp|]. intros [m x] h' (Hm & Hc & Hr).
  eapply refines_copies; [done| |done]. split; [done|apply (ho_va _ _ Hi)|done].
Qed.
Lemma posted_wp c st p t ms h : effect me c = ECopy t ms → host_inv st h →
  hwp p h (λ x h', counted 0 h' ∧ result t ms (hw h) (hw h') x) → hwp (keep st p) h (refines c h).
Proof.
  intros He [Hm Hk _] Hp. apply keep_wp. eapply wp_mono; [exact Hp|]. intros x h' (Hc & Hr). by eapply refines_copies.
Qed.
Lemma other_wp c st h : c ≠ Undefined → host_inv st h → hwp (keep st (hret (Other c))) h (refines c h).
Proof.
  intros Hc [Hm Hk Hco]. apply keep_wp, hwp_ret; [done|]. intros h' a (Hs & Hr & Hst). split.
  - split; [done..|]. destruct h as [w s], h' as [w' s']. cbn in *. subst s'. by apply counted_ran.
  - intros e. unfold fabric_step in *. cbn. destruct (effect me c).
    + eexists. by apply copies_flagged.
    + eexists. by apply stops_flagged.
    + eexists. by apply waits_flagged.
    + exists e. by apply adv_flagged.
Qed.
(** *** Call by call *)
Lemma call_refines st c h : host_inv st h → c ≠ Undefined → accept c → hwp (handle no_xpu junk st c) h (refines c h).
Proof.
  intros Hi Hc Ha. pose proof Hi as [Hm Hk Hco]. destruct c; cbn [handle accept] in *; try (by apply other_wp).
  - eapply changed_wp; [done..|]. by apply register_wp.
  - destruct Ha. eapply changed_wp; [done..|]. by apply unregister_wp.
  - apply keep_wp, wp_seq, at_index_wp; [rewrite (hi_me _ Hm), (hi_mrs _ Hm); lia|]. intros l _. by apply refines_pass.
  - destruct Ha. eapply moved_wp; [done..|]. by apply (remote_wp true).
  - destruct Ha. eapply moved_wp; [done..|]. by apply (remote_wp false).
  - destruct Ha as (?&?&?&?&?&?). eapply posted_wp; [done..|]. by apply (async_wp true).
  - destruct Ha as (?&?&?&?&?&?). eapply posted_wp; [done..|]. by apply (async_wp false).
  - destruct Ha as (?&?&?). eapply posted_wp; [done..|]. unfold ReadRemoteBatchAsync. destruct (Nat.eqb_spec (length d) 0) as [El|_].
    + split; [done|]. by apply result_none.
    + by apply (batch_wp true).
  - destruct Ha as (?&?&?). eapply posted_wp; [done..|]. by apply (batch_wp false).
  - apply keep_wp. eapply wp_mono; [by apply synchronize_wp|]. intros x h' (-> & Hc' & Ha' & Hr & _). split; [by split|].
    intros e. exists e. unfold fabric_step. cbn. exists (flagged e (hw h')). split; [by apply adv_flagged|]. left.
    split_and!; [done| |done]. by apply ranked_quiet.
Qed.

(** C19: the transport manager over the hcom library keeps the contract the data
    operation relies on, for the calls it can answer ([accept]: ranks there are, sizes
    of synchronous transfers and of batch entries below 4 GiB, ranges that do not wrap,
    and not the release of the region [g0]), while the library completes what it has
    accepted without error and keeps fewer than 2^31 - 1 transfers in flight: a transfer that reports success has moved
    exactly its bytes, or will have when the rank is waited for, in slices, in
    scatter-gather lists and over retries and reconnections; one that fails has
    moved no others; a wait returns when nothing of the thread is in flight; no call
    leaves the vectors or the four entries of a list; and the manager is ready for
    the next call. *)
Theorem hcom_refines_fabric st c h : host_inv st h → c ≠ Undefined → accept c → hwp (handle no_xpu junk st c) h (refines c h).
Proof. apply call_refines. Qed.

(** A program of the data operation keeps, over the transport, what holds of it over
    the fabric. *)
Lemma over_wp {A} (p : prog A) st h e (Q : A → World → Prop) : calls accept p → host_inv st h →
  wp fabric_ok (fabric_step me) p (flagged e (hw h)) Q →
  hwp (over no_xpu junk st p) h (λ x h', host_inv x.1 h' ∧ ∃ e, Q x.2 (flagged e (hw h'))).
Proof.
  revert st h e. induction p as [a|c k IH]; intros st h e Hp Hi Hw; cbn [over].
  { split; [done|]. by exists e. }
  destruct Hp as [Ha Hp], Hw as [Hok Hw]. apply wp_seq. eapply wp_mono; [by apply call_refines|].
  intros [st' r] h' [Hi' Hs]. destruct (Hs e) as [e' Hs']. by apply (IH r st' h' e'), Hw.
Qed.
End Regions.
End Manager.
End Contract.

(** ** A copy from end to end *)
Section EndToEnd.
Context (swapSize g0 rankCount : Z) (Hswap : swapSize < 2 ^ 32).
Abbreviation acc p := (calls (accept rankCount g0) p).

Lemma with_swap_calls op n body : (∀ tmp, acc (body tmp)) → acc (with_swap op n body).
Proof.
  intros Hb. unfold with_swap. destruct (rdmaSwapMemoryAllocator_ op) as [p|]; [|by split]. destruct (pool_Allocate p n) as [p' e].
  destruct (startAddress e =? nullptr); [done|]. by apply calls_seq.
Qed.
Lemma chunk_loop_calls fuel chunk op s d rest off ret : (∀ s d n tmp, 0 < n ≤ swapSize → acc (chunk s d n tmp)) → 0 < swapSize →
  acc (chunk_loop swapSize fuel chunk op s d rest off ret).
Proof.
  intros Hc H0. revert op rest off ret. induction fuel as [|fuel IH]; intros op rest off ret; cbn [chunk_loop];
    (destruct (Z.leb_spec rest 0); [done|]); [by split|]. apply calls_seq.
  - apply with_swap_calls. intros tmp. apply Hc. lia.
  - intros [op' r]. by destruct (negb _).
Qed.

Context (op : HostDataOpRDMA) (params : hybm_copy_params) (direction : hybm_data_copy_direction) (options : ExtOptions).
Context (Hsize : 0 < swapSize) (Hranks : 0 ≤ srcRankId options < rankCount ∧ 0 ≤ destRankId options < rankCount).
Context (Haddr : ∀ a, a = src params ∨ a = dest params → 0 ≤ a < 2 ^ 64 ∧ a ≠ g0).

Lemma local_addr_calls (f : Z → prog (HostDataOpRDMA * Z)) : (∀ a, a = src params ∨ a = dest params → acc (f a)) →
  acc (GetLocalMrAddr params direction ≫= f).
Proof.
  intros Hf. unfold GetLocalMrAddr. destruct direction; try (apply Hf; by (left + right)).
  split; [done|]. intros o. cbn -[Z.leb]. destruct (o <=? _); apply Hf; auto.
Qed.
Lemma copy_to_calls host : acc (copy_to swapSize op (src params) (dest params) (dataSize params) options host).
Proof.
  unfold copy_to. destruct (_ =? _); [by split|]. destruct (transportManager_ op); [|done]. apply chunk_loop_calls; [|done].
  intros s d n tmp Hn. apply calls_seq; [by split|]. intros r. destruct (negb _); [done|]. split; [|done]. split; [apply Hranks|lia].
Qed.
Lemma copy_from_calls host : acc (copy_from swapSize op (src params) (dest params) (dataSize params) options host).
Proof.
  unfold copy_from. destruct (_ =? _); [by split|]. destruct (transportManager_ op); [|done]. apply chunk_loop_calls; [|done].
  intros s d n tmp Hn. apply calls_seq; [split; [|done]; split; [apply Hranks|lia]|]. intros r. destruct (negb _); [done|]. by split.
Qed.
Lemma DataCopy_calls : acc (DataCopy swapSize op params direction options).
Proof.
  unfold DataCopy. destruct (negb (inited_ op)); [done|]. apply calls_seq.
  { unfold PreRegisterLocalMr. destruct (_ || _); [done|]. apply calls_seq.
    - unfold GetLocalMrAddr. by destruct direction.
    - intros a. split; [done|]. intros r. cbn. destruct (negb _); [done|]. by split. }
  intros _. apply calls_seq.
  - unfold CopyHost2Gva, CopyDevice2Gva, CopyGva2Host, CopyGva2Device, CopyGva2Gva.
    destruct direction; try done; auto using copy_to_calls, copy_from_calls.
    destruct (_ =? _); [apply copy_to_calls|]. destruct (_ =? _); [apply copy_from_calls|done].
  - intros [op' r]. destruct (negb _); [by split|]. apply local_addr_calls. intros a Ha. split; [by apply Haddr|done].
Qed.
End EndToEnd.

(** C20: a data copy in a supported direction over the host transport and the hcom
    library, from the call of the user to the requests on the wire, with a swap space
    below 4 GiB (a chunk of the 4 GiB the NO_XPU build takes would not fit the size of
    a request), ranks there are, and memory that is not the region [g0] registered for
    good: success means that the destination holds
    the bytes of the source, nothing but the destination and the swap space is
    written, on errors too, and the swap space and the transport are as ready
    afterwards as they were before. *)
Theorem data_copy_over_hcom no_xpu junk who peer rankCount g0 swapSize op p live X st h params direction options :
  ready swapSize op p live → supported op direction options → job_fits params →
  (∀ l, swap_of (HostDataOp.rankId_ op) p l → ¬ X l) →
  orderly (copy_plan op direction options params) (either X (swap_of (HostDataOp.rankId_ op) p)) →
  still (mem (hw h)) X (hw h) →
  swapSize < 2 ^ 32 → 0 ≤ HostDataOp.rankId_ op < rankCount →
  0 ≤ srcRankId options < rankCount → 0 ≤ destRankId options < rankCount → src params ≠ g0 → dest params ≠ g0 →
  host_inv (HostDataOp.rankId_ op) who peer rankCount g0 st h →
  wp (hok rankCount) (hstep (HostDataOp.rankId_ op) who peer) (over no_xpu junk st (DataCopy swapSize op params direction options)) h
    (λ x h', host_inv (HostDataOp.rankId_ op) who peer rankCount g0 x.1 h' ∧ x.2.1 = op ∧
      (∀ l, ¬ X l → ¬ swap_of (HostDataOp.rankId_ op) p l → l ∉ (copy_plan op direction options params).*1 →
         mem (hw h') l = mem (hw h) l) ∧
      (x.2.2 = BM_OK → ∀ d s, (d, s) ∈ copy_plan op direction options params → mem (hw h') d = mem (hw h) s)).
Proof.
  intros Hready Hsup Hfits HSX Ho Hst Hsw Hme Hsrc Hdst Hns Hnd Hi. pose proof Hfits as (Hn & Hfs & Hfd).
  assert (still (mem (hw h)) X (flagged false (hw h))) as Hst' by (by destruct Hst; split).
  pose proof (DataCopy_copied swapSize op p live X (flagged false (hw h)) params direction options Hready Hsup Hfits HSX Ho Hst') as Hw.
  eapply wp_mono; [eapply over_wp; [done| |exact Hi|exact Hw]|].
  - apply DataCopy_calls; [done|apply Hready|done|]. unfold fits in *. intros a [-> | ->]; split; lia || done.
  - intros [st' [op' r]] h' (Hi' & e & Hop & Hfr & Hok & _). split_and!; [done..|]. intros Hr. by apply Hok.
Qed.

(** ** Keys

    The manager of a rank hands out the key of a region, and another rank's manager
    takes it: what the second one then sends with its requests is what the library
    gave the first one for the region. *)
Definition region_of (no_xpu : bool) (k : TransportMemoryKey) : HcomMemoryRegion :=
  mkRegion (hostKey_lAddress k) (hostKey_size k) (key_to_memory no_xpu (hostKey_lKey k) zeroMemoryKey) 0.
(** The last of the keys that has a size. *)
Definition last_key (ks : list TransportMemoryKey) : option TransportMemoryKey :=
  last (List.filter (λ k, negb (hostKey_size k =? 0)) ks).
Definition take_keys (no_xpu : bool) (m : HcomTransportManager) (r : Z) (ks : list TransportMemoryKey) : HcomTransportManager :=
  match last_key ks with
  | Some k => set_mrs m (<[Z.to_nat r := [region_of no_xpu k]]> (mrs_ m))
  | None => m
  end.
Lemma update_keys_last no_xpu m r ks : 0 ≤ r < Z.of_nat (length (mrs_ m)) → has_bit (bmOptype_ m) HYBM_DOP_TYPE_HOST_URMA = false →
  update_rank_keys no_xpu m r ks = Ret (take_keys no_xpu m r ks, BM_OK).
Proof.
  intros Hr Hb. revert m Hr Hb. induction ks as [|k ks IH]; intros m Hr Hb; [done|]. cbn [update_rank_keys].
  unfold take_keys, last_key. cbn [List.filter]. destruct (Z.eqb_spec (hostKey_size k) 0) as [E|E]; cbn [negb]; [by apply IH|].
  rewrite Hb. cbn. unfold at_index. destruct (lookup_lt_is_Some_2 (mrs_ m) (Z.to_nat r)) as [x Ex]; [lia|]. rewrite Ex.
  rewrite IH by (cbn; rewrite ?length_insert; done). unfold take_keys, last_key.
  destruct (List.filter _ ks) as [|k' ks'] eqn:Ef; [done|]. rewrite !last_cons.
  destruct (last (k' :: ks')) as [k2|] eqn:El; [|by apply last_None in El]. rewrite last_cons in El.
  destruct (last ks'); simplify_eq; cbn; rewrite list_insert_insert_eq; done.
Qed.

Lemma key_words (l : list Z) : (10 <= length l)%nat →
  ∃ k0 k1 k2 k3 t0 t1 t2 t3 e0 e1 rest, l = [k0; k1; k2; k3; t0; t1; t2; t3; e0; e1] ++ rest.
Proof.
  intros Hl. do 10 (destruct l as [|? l]; [cbn in Hl; lia|]). by repeat eexists.
Qed.
(** The key a region is handed out with, read back. *)
Lemma region_roundtrip no_xpu r : (10 <= length (lKey r))%nat →
  let k := host_key TT_HCOM (addr r) (key_of_memory no_xpu (lKey r) zeroKey) (size r) in
  hostKey_size k = size r ∧ addr (region_of no_xpu k) = addr r ∧ size (region_of no_xpu k) = size r ∧
  ∀ junk, key_of_memory no_xpu (lKey (region_of no_xpu k)) junk = key_of_memory no_xpu (lKey r) junk.
Proof.
  intros (k0 & k1 & k2 & k3 & t0 & t1 & t2 & t3 & e0 & e1 & rest & E)%key_words. cbv zeta. rewrite E. by destruct no_xpu.
Qed.

(** C33: the exchange of a memory key.  The key rank [m1] hands out for an address of a
    region that is not empty is taken by the manager [m2] of another rank, without
    HOST_URMA, last, behind any other keys of [m1]: [m2] then finds the region for every address of it and for no other, and the key it
    sends with a request is the one [m1] holds from the library. *)
Theorem memory_key_exchange no_xpu m1 m2 l a r n pre junk :
  mrs_ m1 !! Z.to_nat (rankId_ m1) = Some l → find_region l a = Some r → size r ≠ 0 → (10 <= length (lKey r))%nat →
  0 ≤ rankId_ m1 < Z.of_nat (length (mrs_ m2)) → rankId_ m1 ≠ rankId_ m2 →
  has_bit (bmOptype_ m2) HYBM_DOP_TYPE_HOST_URMA = false →
  ∃ key m2', QueryMemoryKey no_xpu m1 a zeroMemoryKey = Ret (BM_OK, key) ∧
    UpdateRankMrInfos no_xpu m2 [(rankId_ m1, mkInfo n (pre ++ [key]))] = Ret (m2', BM_OK) ∧
    ∀ x, ∃ found, GetMemoryRegionByAddr m2' (rankId_ m1) x = Ret found ∧
      (is_Some found ↔ addr r ≤ x < addr r +64 size r) ∧
      ∀ r', found = Some r' → key_of_memory no_xpu (lKey r') junk = key_of_memory no_xpu (lKey r) junk.
Proof.
  intros Hl Hr Hsz Hk Hid Hne Hb. destruct (region_roundtrip no_xpu r Hk) as (Es & Ea & Ez & Ek).
  set (key := host_key TT_HCOM (addr r) (key_of_memory no_xpu (lKey r) zeroKey) (size r)) in *.
  assert (last_key (pre ++ [key]) = Some key) as Elast.
  { unfold last_key. rewrite List.filter_app. cbn [List.filter]. rewrite Es, (proj2 (Z.eqb_neq _ _) Hsz). apply last_snoc. }
  exists key, (take_keys no_xpu m2 (rankId_ m1) (pre ++ [key])). split_and!.
  - unfold QueryMemoryKey, GetMemoryRegionByAddr, at_index. rewrite Hl. cbn. by rewrite Hr.
  - cbn [UpdateRankMrInfos]. rewrite (proj2 (Z.eqb_neq _ _) Hne), update_keys_last by done. done.
  - intros x. unfold GetMemoryRegionByAddr, at_index, take_keys. rewrite Elast. cbn [mrs_ set_mrs].
    rewrite list_lookup_insert_eq by lia. eexists. split; [done|]. cbn [find_region]. rewrite Ea, Ez.
    destruct (Z.leb_spec (addr r) x), (Z.ltb_spec x (addr r +64 size r)); cbn [andb].
    1: split; [split; [by intros _|intros _; by eexists]|by intros r' [= <-]].
    all: split; [split; [by intros []|lia]|done].
Qed.

(** Of several keys of a rank only the last is kept: the other regions of the rank
    are not found. *)
Theorem earlier_keys_forgotten no_xpu m r n k1 k2 x :
  0 ≤ r < Z.of_nat (length (mrs_ m)) → r ≠ rankId_ m → has_bit (bmOptype_ m) HYBM_DOP_TYPE_HOST_URMA = false →
  hostKey_size k1 ≠ 0 → hostKey_size k2 ≠ 0 → ¬ hostKey_lAddress k2 ≤ x < hostKey_lAddress k2 +64 hostKey_size k2 →
  ∃ m', UpdateRankMrInfos no_xpu m [(r, mkInfo n [k1; k2])] = Ret (m', BM_OK) ∧ GetMemoryRegionByAddr m' r x = Ret None.
Proof.
  intros Hr Hne Hb H1 H2 Hx. exists (take_keys no_xpu m r [k1; k2]). split.
  - cbn [UpdateRankMrInfos memKeys]. rewrite (proj2 (Z.eqb_neq _ _) Hne), update_keys_last by done. done.
  - unfold GetMemoryRegionByAddr, at_index, take_keys, last_key. cbn [List.filter].
    rewrite (proj2 (Z.eqb_neq _ _) H1), (proj2 (Z.eqb_neq _ _) H2). cbn [negb last mrs_ set_mrs]. rewrite list_lookup_insert_eq by lia.
    cbn. destruct (Z.leb_spec (hostKey_lAddress k2) x), (Z.ltb_spec x (hostKey_lAddress k2 +64 hostKey_size k2)); cbn; lia || done.
Qed.

(** A request has 32 bits for the size: a longer transfer is cut to its remainder,
    and a multiple of 4 GiB to nothing. *)
Theorem remote_size_cut no_xpu junk m r l a n :
  ReadRemote no_xpu junk m r l a n = ReadRemote no_xpu junk m r l a (n mod 2 ^ 32) ∧
  WriteRemote no_xpu junk m r l a n = WriteRemote no_xpu junk m r l a (n mod 2 ^ 32).
Proof.
  unfold ReadRemote, WriteRemote, InnerReadRemote, InnerWriteRemote, Inner, u32. by rewrite Z.mod_mod by lia.
Qed.

(** ** A library that answers at once

    Whatever is in flight arrives before the call does anything; transfers are over
    when the call returns. *)
Section Lib.
Context (me : Z) (who : bytes → Z) (peer : Z → Z).
Definition settled (h : HWorld) : HWorld := mkHW (settle (hw h)) (ran (ranked (hw h)) (stream_ h)).
Definition answer (r x : Z) : HAns := mkAns r x zeroKey None.
Definition done_at_once (h : HWorld) (ms : list Move) : HWorld :=
  mkHW (mkWorld (move_all (mem (hw h)) ms) [] (failed (hw h))) (stream_ h).
Definition lib (h : HWorld) (c : HCall) : HWorld * HAns :=
  let h := settled h in
  match c with
  | Other c => let '(w, r) := at_once me (hw h) c in (mkHW w (stream_ h), answer r 0)
  | ChannelGet ch r false => (done_at_once h (get_moves me peer ch r), answer 0 0)
  | ChannelPut ch r false => (done_at_once h (put_moves me peer ch r), answer 0 0)
  | HasStream => (h, answer (match stream_ h with Some _ => 1 | None => 0 end) 0)
  | NewStream => (mkHW (hw h) (Some (mkStream 0)), answer 0 0)
  | ServiceCreate _ => (h, answer 0 1)
  | ServiceConnect _ _ _ _ => (h, answer 1 0)
  | ServiceRegisterAssignMemoryRegion _ _ _ => (h, answer 0 77)
  | _ => (h, answer 0 0)
  end.
(** The calls it models. *)
Definition answered (c : HCall) : bool :=
  match c with
  | ChannelGet _ _ true | ChannelPut _ _ true | ChannelGetV _ _ | ChannelPutV _ _ => false
  | StreamSubmitTasks _ | StreamFinishOne _ | StreamSynchronize => false
  | _ => true
  end.

Lemma settled_idle h : idle h (settled h).
Proof. split; [apply settle_adv|]. cbn. by rewrite Nat.sub_0_r. Qed.
Lemma done_transfer h ms : transfer ms h (done_at_once (settled h) ms) 0.
Proof.
  exists ms. split_and!; [done|done| |cbn; by rewrite Nat.sub_0_r]. apply copy_ok_sent.
  split; [|by intros _ f ?%not_elem_of_nil]. eapply sent_adv_l; [apply (settle_adv (hw h))|].
  pose proof (copy_at_once TNow ms (mem (settle (hw h))) (failed (hw h))) as [Hs _]%copy_ok_sent. exact Hs.
Qed.
Lemma fabric_step_late w w1 c w2 r : adv w w1 → fabric_step me w1 c w2 r → fabric_step me w c w2 r.
Proof.
  intros Ha. unfold fabric_step. destruct (effect me c) as [t ms|ms|t|].
  - intros [[-> [Hs Hq]%copy_ok_sent]|[Hr (w3 & fs & w4 & Hb & Hrest)]].
    + left. split; [done|]. apply copy_ok_sent. split; [by eapply sent_adv_l|done].
    + right. split; [done|]. exists w3, fs, w4. split; [by etrans|done].
  - assert (∀ part w3, copy_ok TNow part w1 w3 → copy_ok TNow part w w3) as Hl.
    { intros part w3 [Hs Hq]%copy_ok_sent. apply copy_ok_sent. split; [by eapply sent_adv_l|done]. }
    intros [[-> Hs]|[Hr (part & w3 & Hp & Hs & ->)]]; [left; auto|right]. split; [done|]. exists part, w3. auto.
  - intros (w3 & Hb & Hrest). exists w3. split; [by etrans|done].
  - intros Hb. by etrans.
Qed.
Lemma at_once_ranked w c : flights w = [] → ranked (at_once me w c).1 = O.
Proof.
  destruct w as [m fs e]. cbn. intros ->. unfold at_once. destruct (effect me c); [| |done..]; by destruct (decide _).
Qed.
Lemma lib_step n h c : hok n h c → answered c = true → hstep me who peer h c (lib h c).1 (lib h c).2.
Proof.
  intros Hok Hc. pose proof (settled_idle h) as Hi. destruct c; try done; cbn -[settled done_at_once transfer]; try exact Hi; try (split; [exact Hi|done]).
  - pose proof (at_once_step me (settle (hw h)) c Hok) as Hs. pose proof (at_once_ranked (settle (hw h)) c eq_refl) as Hr.
    cbn. destruct (at_once me (settle (hw h)) c) as [w r]. cbn in *. rewrite Hr, Nat.sub_0_r.
    split_and!; [eapply fabric_step_late; [apply settle_adv|done]|lia|done].
  - destruct callback; [done|apply done_transfer].
  - destruct callback; [done|apply done_transfer].
  - split; [done|]. unfold settled, ran. cbn. by destruct (stream_ h).
  - by exists (settled h).
Qed.
End Lib.

(** ** On concrete inputs *)
Definition demo_region (a n : Z) : HcomMemoryRegion := mkRegion a n (seqZ 1 28) 9.
Definition demo_hcom : HcomTransportManager :=
  mkHcom HYBM_DOP_TYPE_HOST_RDMA [] [] 1 0 2
    [[demo_region 0x100000 RDMA_SWAP_SPACE_SIZE]; [demo_region 0 0x1000]] [[]; ["x"%byte]] [0; 5].
Definition demo_va : HybmVaManager :=
  (AddVaInfoFromExternal_local va_new (mkBase 0x100000 RDMA_SWAP_SPACE_SIZE HYBM_MEM_TYPE_HOST 0x100000) 0).1.
Definition demo_host : HostState := mkHost demo_hcom demo_va.
Definition demo_h : HWorld := mkHW demo_world None.
Definition one {A} (_ : A) : Z := 1.

Lemma demo_hcom_inv : hcom_inv 0 one one 2 demo_hcom.
Proof.
  split; try done.
  - by intros [|[|[|i]]] c [= <-].
  - by intros [|[|[|i]]] url [= <-].
Qed.
Lemma demo_va_keep : va_keep 0x100000 demo_va.
Proof.
  split; [by eexists|]. intros l i. unfold demo_va. cbn [AddVaInfoFromExternal_local AddVaInfoFromExternal]. intros Hl.
  assert (map_Forall (λ _ i, lva (base i) = gva (base i)) (byLva demo_va)) as Hall by (apply (bool_decide_unpack _); vm_compute; exact I).
  by apply (Hall l).
Qed.
Lemma demo_host_inv : host_inv 0 one one 2 0x100000 demo_host demo_h.
Proof. split; [apply demo_hcom_inv|apply demo_va_keep|]. split; [done|by split]. Qed.

(** A write of three bytes reaches the other rank. *)
Lemma hcom_refines_fabric_witness :
  let c := HostDataOp.WriteRemote 1 0x100000 20 3 in
  let x := run (lib 0 one) (handle false zeroKey demo_host c) demo_h in
  x.2.2 = BM_OK ∧ refines 0 one one 2 0x100000 c demo_h x.2 x.1.
Proof.
  split; [vm_compute; reflexivity|].
  refine (wp_run_path (hok 2) (hstep 0 one one) answered (lib 0 one) _ _ _ (lib_step 0 one one 2) _
    (hcom_refines_fabric 0 one one 2 false zeroKey ltac:(lia) 0x100000 demo_host _ demo_h demo_host_inv _ _)).
  - vm_compute. reflexivity.
  - discriminate.
  - cbn. lia.
Defined.

Definition demo_options : TransportOptions := mkOpts 0 2 HYBM_DOP_TYPE_HOST_RDMA (tcp_nic [127; 0; 0; 1] [] 9000).
Definition demo_ops : list ManagerOp := [MPrepare [(1, mkInfo ["x"%byte] [])]; MConnect; MBroken 5 (to_string 1)].
Lemma hcom_stays_ready_witness :
  let x := run (lib 0 one) (opened false demo_options demo_ops) demo_h in
  ∃ m, x.2 = Some m ∧ localNic_ m = tcp_nic [127; 0; 0; 1] [] 9000 ∧ hcom_inv 0 one one 2 m.
Proof.
  assert (Forall (good_op one 2) demo_ops) as Hops.
  { constructor; [repeat constructor; cbn; lia|]. constructor; [done|]. constructor; [|done]. exists 1. split; [lia|done]. }
  pose proof (hcom_stays_ready 0 one one 2 false ltac:(lia) demo_options demo_ops demo_h eq_refl eq_refl ltac:(lia)
    (λ ifs out, ltac:(unfold demo_options; cbn [o_nic]; rewrite analysis_nic_plain by (unfold octet; lia || done); by eexists)) Hops) as Hw.
  apply (wp_run_path _ _ answered (lib 0 one) _ _ _ (lib_step 0 one one 2)) in Hw; [|vm_compute; reflexivity].
  assert (localNic_ <$> (run (lib 0 one) (opened false demo_options demo_ops) demo_h).2 = Some (tcp_nic [127; 0; 0; 1] [] 9000)) as En
    by (vm_compute; reflexivity).
  revert Hw En. generalize (run (lib 0 one) (opened false demo_options demo_ops) demo_h). intros [h' [m|]] [_ Hm] En; [|done].
  exists m. split; [done|]. split; [by simplify_eq/=|by apply Hm].
Defined.

Lemma data_copy_over_hcom_witness :
  let x := run (lib 0 one) (over false zeroKey demo_host demo_copy) demo_h in
  x.2.2.2 = BM_OK ∧ mem (hw x.1) (1, 21) = mem demo_world (0, 11).
Proof.
  assert ((run (lib 0 one) (over false zeroKey demo_host demo_copy) demo_h).2.2.2 = BM_OK) as Hret by (vm_compute; reflexivity).
  pose proof (data_copy_over_hcom false zeroKey one one 2 0x100000 RDMA_SWAP_SPACE_SIZE demo_op
    (pool_create 0x100000 RDMA_SWAP_SPACE_SIZE) ∅ none demo_host demo_h
    (mkParams 10 20 3) HYBM_LOCAL_HOST_TO_GLOBAL_HOST (mkOptions 0 1 0) demo_ready
    (or_introl I) ltac:(vm_compute; intuition discriminate) (λ l _ H, H) demo_orderly demo_still
    ltac:(vm_compute; reflexivity) ltac:(cbn; lia) ltac:(cbn; lia) ltac:(cbn; lia) ltac:(discriminate) ltac:(discriminate) demo_host_inv) as Hw.
  apply (wp_run_path _ _ answered (lib 0 one) _ _ _ (lib_step 0 one one 2)) in Hw; [|vm_compute; reflexivity]. fold demo_copy in Hw.
  revert Hret Hw. generalize (run (lib 0 one) (over false zeroKey demo_host demo_copy) demo_h). intros x Hret (_ & _ & _ & Hok). split; [exact Hret|].
  apply (Hok Hret (1, 21) (0, 11)). apply elem_of_moves. exists 1. split_and!; reflexivity || lia.
Defined.

Lemma memory_key_exchange_witness : ∃ key m', QueryMemoryKey false demo_hcom 0x100800 zeroMemoryKey = Ret (BM_OK, key) ∧
  UpdateRankMrInfos false (mkHcom 0 [] [] 1 1 2 [[]; []] [[]; []] [0; 0]) [(0, mkInfo [] [key])] = Ret (m', BM_OK) ∧
  ∃ r, GetMemoryRegionByAddr m' 0 0x100900 = Ret (Some r) ∧ keys (key_of_memory false (lKey r) zeroKey) = [1; 2; 3; 4].
Proof.
  destruct (memory_key_exchange false demo_hcom (mkHcom 0 [] [] 1 1 2 [[]; []] [[]; []] [0; 0])
    [demo_region 0x100000 RDMA_SWAP_SPACE_SIZE] 0x100800 (demo_region 0x100000 RDMA_SWAP_SPACE_SIZE) [] [] zeroKey
    eq_refl eq_refl ltac:(discriminate) ltac:(apply Nat.leb_le; vm_compute; reflexivity) ltac:(cbn; lia) ltac:(discriminate) eq_refl) as (key & m' & E1 & E2 & Hx).
  exists key, m'. split; [exact E1|]. split; [exact E2|]. destruct (Hx 0x100900) as (found & Ef & [_ Hin] & Hk).
  destruct Hin as [r Er]; [vm_compute; intuition discriminate|]. exists r. rewrite <- Er. split; [exact Ef|]. by rewrite (Hk r Er).
Defined.

(** A write of 4 GiB reports success and moves nothing. *)
Theorem long_write_moves_nothing :
  let x := run (lib 0 one) (WriteRemote true zeroKey demo_hcom 1 0x100000 20 (2 ^ 32)) demo_h in
  x.2.2 = BM_OK ∧ mem (hw x.1) (1, 20) = mem demo_world (1, 20) ∧ mem demo_world (1, 20) ≠ mem demo_world (0, 0x100000).
Proof. split_and!; [vm_compute; reflexivity..|]. vm_compute. discriminate. Qed.

(** A registration that fails because the address is another rank's leaves the region,
    whose handle has been given back, in the list: it counts as registered. *)
Theorem failed_registration_stays :
  let va := (AddVaInfoFromExternal va_new (mkBase 0x5000 0x1000 HYBM_MEM_TYPE_HOST 0x5000) 0 1).1 in
  let x := run (lib 0 one) ('(m, va, r) ← RegisterMemoryRegion false demo_hcom va (mkTmr 0x5000 0x1000 REG_MR_FLAG_DRAM);
                            b ← QueryHasRegistered m 0x5000 0x1000; Ret (r, b)) demo_h in
  x.2 = (BM_ERROR, true).
Proof. vm_compute. reflexivity. Qed.
