(* ===== verification/ComposeTransport.v ===== *)
(** * Two transports as one (transport/compose, transport/hybm_transport_manager)

    The compose manager drives a host and a device transport manager through their
    common interface, [TransportManager]; a rank is reached over the transports its
    tag allows.  A method is a program over the methods of the two managers;
    [CUndefined] is a call through a null pointer. *)
From Stdlib Require Import Strings.Byte Strings.String.
From stdpp Require Import base numbers list gmap.
From S2P Require Import Prelude VaManager HostDataOp StrUtil HcomHelper TagInfo HcomTransport.
Local Open Scope Z_scope.
Local Open Scope mf_scope.

(** ** The interface *)
Inductive TMethod :=
| TOpenDevice (options : TransportOptions)
| TCloseDevice
| TGetNic
| TRegisterMemoryRegion (r : TransportMemoryRegion)
| TUnregisterMemoryRegion (a : Z)
| TQueryMemoryKey (a : Z) (key : TransportMemoryKey)
| TPrepare (opt : PrepareOptions)
| TRemoveRanks (ranks : list Z)
| TConnect
| TAsyncConnect
| TWaitForConnected (timeoutNs : Z)
| TUpdateRankOptions (opt : PrepareOptions)
| TData (c : Call).
Record TAns := mkT { tret : Z; tnic : bytes; tkey : TransportMemoryKey }.
Inductive CCall := CUndefined | ToHost (t : TMethod) | ToDevice (t : TMethod).
Abbreviation cprog := (program CCall TAns).
Definition ccall (c : CCall) : cprog TAns := Act c Ret.
Definition cret (c : CCall) : cprog Z := Act c (λ a, Ret (tret a)).
Definition cundefined {A} (a : A) : cprog A := Act CUndefined (λ _, Ret a).

(** ** ConnectWithOptions, of every manager *)
Section Connected.
Context {S : Type} (prepare update : S → PrepareOptions → cprog (S * Z)) (connect : S → cprog (S * Z)).
Definition ConnectWithOptions (s : S) (connected_ : bool) (options : PrepareOptions) : cprog (S * bool * Z) :=
  if negb connected_ then
    '(s, ret) ← prepare s options;
    if negb (ret =? BM_OK) then Ret (s, connected_, ret) else
    '(s, ret) ← connect s;
    if negb (ret =? BM_OK) then Ret (s, connected_, ret) else Ret (s, true, BM_OK)
  else '(s, ret) ← update s options; Ret (s, connected_, ret).
End Connected.

(** ** The compose manager *)
Definition NIC_DELIMITER : byte := ";"%byte.
Definition HOST_TRANSPORT_TYPE : bytes := bytes_of_str "host#".
Definition DEVICE_TRANSPORT_TYPE : bytes := bytes_of_str "device#".
Definition HOST_PROTOCOL : Z :=
  Z.lor (Z.lor HYBM_DOP_TYPE_HOST_TCP HYBM_DOP_TYPE_HOST_RDMA) HYBM_DOP_TYPE_HOST_URMA.

(** The regions by their address, largest first; a manager is there or not. *)
Record ComposeTransportManager := mkCompose {
  deviceTransportManager_ : bool;
  hostTransportManager_ : bool;
  nicInfo_ : bytes;
  c_mrs_ : gmap Z Z;
  options_ : TransportOptions;
  tagManager_ : HybmEntityTagInfo;
}.
Definition compose_new (tag : HybmEntityTagInfo) : ComposeTransportManager := mkCompose false false [] ∅ (mkOpts 0 0 0 []) tag.
Definition set_regions (m : ComposeTransportManager) l :=
  mkCompose (deviceTransportManager_ m) (hostTransportManager_ m) (nicInfo_ m) l (options_ m) (tagManager_ m).

Definition OpenHostTransport (m : ComposeTransportManager) (options : TransportOptions) : cprog (ComposeTransportManager * Z) :=
  if hostTransportManager_ m then Ret (m, BM_ERROR) else
  ret ← cret (ToHost (TOpenDevice options));
  Ret (mkCompose (deviceTransportManager_ m) true (nicInfo_ m) (c_mrs_ m) (options_ m) (tagManager_ m), ret).
Definition OpenDeviceTransport (m : ComposeTransportManager) (options : TransportOptions) : cprog (ComposeTransportManager * Z) :=
  if deviceTransportManager_ m then Ret (m, BM_ERROR) else
  ret ← cret (ToDevice (TOpenDevice options));
  Ret (mkCompose true (hostTransportManager_ m) (nicInfo_ m) (c_mrs_ m) (options_ m) (tagManager_ m), ret).

Definition CloseDevice (m : ComposeTransportManager) : cprog Z :=
  _ ← (if deviceTransportManager_ m then cret (ToDevice TCloseDevice) else Ret 0);
  _ ← (if hostTransportManager_ m then cret (ToHost TCloseDevice) else Ret 0);
  Ret BM_OK.

(** The part of the card for one transport. *)
Definition nic_part (m : ComposeTransportManager) (used present : bool) (c : CCall) (type : bytes) : cprog (option bytes) :=
  if negb used then Ret (Some []) else
  if negb present then CloseDevice m ≫= λ _, Ret None else
  a ← ccall c; Ret (Some (type ++ tnic a ++ [NIC_DELIMITER])).
Definition OpenDevice (m : ComposeTransportManager) (options : TransportOptions) : cprog (ComposeTransportManager * Z) :=
  let m := mkCompose (deviceTransportManager_ m) (hostTransportManager_ m) (nicInfo_ m) (c_mrs_ m) options (tagManager_ m) in
  let useHost := has_bit (o_protocol options) HOST_PROTOCOL in
  let useDevice := has_bit (o_protocol options) HYBM_DOP_TYPE_DEVICE_RDMA in
  '(m, ret) ← (if useHost then OpenHostTransport m options else Ret (m, BM_OK));
  if negb (ret =? BM_OK) then CloseDevice m ≫= λ _, Ret (m, BM_ERROR) else
  '(m, ret) ← (if useDevice then OpenDeviceTransport m options else Ret (m, BM_OK));
  if negb (ret =? BM_OK) then CloseDevice m ≫= λ _, Ret (m, BM_ERROR) else
  host ← nic_part m useHost (hostTransportManager_ m) (ToHost TGetNic) HOST_TRANSPORT_TYPE;
  match host with
  | None => Ret (m, BM_ERROR)
  | Some host =>
      device ← nic_part m useDevice (deviceTransportManager_ m) (ToDevice TGetNic) DEVICE_TRANSPORT_TYPE;
      match device with
      | None => Ret (m, BM_ERROR)
      | Some device =>
          Ret (mkCompose (deviceTransportManager_ m) (hostTransportManager_ m) (host ++ device) (c_mrs_ m) (options_ m)
                 (tagManager_ m), BM_OK)
      end
  end.
Definition GetNic (m : ComposeTransportManager) : bytes := nicInfo_ m.

(** A method of each manager that is there, the first error ends it. *)
Definition on (present : bool) (c : CCall) : cprog Z := if present then cret c else Ret BM_OK.
Definition on_both (first : bool) (c1 : CCall) (second : bool) (c2 : CCall) : cprog Z :=
  ret ← on first c1; if negb (ret =? BM_OK) then Ret ret else on second c2.

Definition RegisterMemoryRegion (m : ComposeTransportManager) (r : TransportMemoryRegion) : cprog (ComposeTransportManager * Z) :=
  ret ← on_both (deviceTransportManager_ m) (ToDevice (TRegisterMemoryRegion r))
          (hostTransportManager_ m) (ToHost (TRegisterMemoryRegion r));
  if negb (ret =? BM_OK) then Ret (m, ret) else
  Ret (set_regions m (match c_mrs_ m !! mr_addr r with
                      | Some _ => c_mrs_ m
                      | None => <[mr_addr r := mr_size r]> (c_mrs_ m)
                      end), BM_OK).
Definition UnregisterMemoryRegion (m : ComposeTransportManager) (a : Z) : cprog (ComposeTransportManager * Z) :=
  match c_mrs_ m !! a with
  | None => Ret (m, BM_INVALID_PARAM)
  | Some _ =>
      ret ← on_both (deviceTransportManager_ m) (ToDevice (TUnregisterMemoryRegion a))
              (hostTransportManager_ m) (ToHost (TUnregisterMemoryRegion a));
      if negb (ret =? BM_OK) then Ret (m, ret) else Ret (set_regions m (delete a (c_mrs_ m)), BM_OK)
  end.
(** In a map ordered by [std::greater] the lower bound is the last region that
    starts at or before the address. *)
Definition QueryHasRegistered (m : ComposeTransportManager) (a n : Z) : bool :=
  match last_where (λ k, k <=? a) (c_mrs_ m) with
  | None => false
  | Some (start, sz) => negb (start +64 sz <? a +64 n)
  end.

(** ** Keys and cards of both transports in one *)
Definition ReadHcomMemoryKey (input output : TransportMemoryKey) : TransportMemoryKey := copy_n (drop KEY_SIZE input) KEY_SIZE output 0.
Definition ReadDeviceRdmaMemoryKey (input output : TransportMemoryKey) : TransportMemoryKey := copy_n input KEY_SIZE output 0.
Definition WriteHcomMemoryKey (input output : TransportMemoryKey) : TransportMemoryKey := copy_n input KEY_SIZE output KEY_SIZE.
Definition WriteDeviceRdmaMemoryKey (input output : TransportMemoryKey) : TransportMemoryKey := copy_n input KEY_SIZE output 0.

(** A failing host query leaves the zeroed key. *)
Definition QueryMemoryKey (m : ComposeTransportManager) (a : Z) (key : TransportMemoryKey) : cprog (Z * TransportMemoryKey) :=
  '(ret, key) ←
    (if deviceTransportManager_ m then
       t ← ccall (ToDevice (TQueryMemoryKey a zeroMemoryKey));
       if negb (tret t =? BM_OK) then Ret (tret t, key) else Ret (BM_OK, WriteDeviceRdmaMemoryKey (tkey t) key)
     else Ret (BM_OK, key));
  if negb (ret =? BM_OK) then Ret (ret, key) else
  if hostTransportManager_ m then
    t ← ccall (ToHost (TQueryMemoryKey a zeroMemoryKey)); Ret (BM_OK, WriteHcomMemoryKey (tkey t) key)
  else Ret (BM_OK, key).

(** The last card with the prefix; empty when there is none. *)
Definition nic_of (type nicList : bytes) : bytes :=
  foldl (λ acc s, if StartWith s type then drop (length type) s else acc) [] (Split nicList NIC_DELIMITER).
Definition op_type (m : ComposeTransportManager) (rankId : Z) : Z :=
  GetRank2RankOpType (tagManager_ m) rankId (o_rankId (options_ m)).
Definition GetHostPrepareOptions (m : ComposeTransportManager) (opt : PrepareOptions) : PrepareOptions :=
  (λ x, (x.1, mkInfo (nic_of HOST_TRANSPORT_TYPE (nic x.2)) ((λ k, ReadHcomMemoryKey k zeroMemoryKey) <$> memKeys x.2))) <$>
  List.filter (λ x, has_bit (op_type m x.1) HOST_PROTOCOL) opt.
(** The device manager gets the whole keys. *)
Definition GetDevicePrepareOptions (m : ComposeTransportManager) (opt : PrepareOptions) : PrepareOptions :=
  (λ x, (x.1, mkInfo (nic_of DEVICE_TRANSPORT_TYPE (nic x.2)) (memKeys x.2))) <$>
  List.filter (λ x, has_bit (op_type m x.1) HYBM_DOP_TYPE_DEVICE_RDMA) opt.

Definition Prepare (m : ComposeTransportManager) (opt : PrepareOptions) : cprog Z :=
  on_both (hostTransportManager_ m) (ToHost (TPrepare (GetHostPrepareOptions m opt)))
    (deviceTransportManager_ m) (ToDevice (TPrepare (GetDevicePrepareOptions m opt))).
(** Both are tried; the last error, or success, counts. *)
Definition RemoveRanks (m : ComposeTransportManager) (ranks : list Z) : cprog Z :=
  r1 ← on (hostTransportManager_ m) (ToHost (TRemoveRanks ranks));
  r2 ← on (deviceTransportManager_ m) (ToDevice (TRemoveRanks ranks));
  Ret (if negb (r2 =? BM_OK) then r2 else r1).
Definition Connect (m : ComposeTransportManager) : cprog Z :=
  on_both (hostTransportManager_ m) (ToHost TConnect) (deviceTransportManager_ m) (ToDevice TConnect).
Definition AsyncConnect (m : ComposeTransportManager) : cprog Z :=
  on_both (hostTransportManager_ m) (ToHost TAsyncConnect) (deviceTransportManager_ m) (ToDevice TAsyncConnect).
Definition WaitForConnected (m : ComposeTransportManager) (timeoutNs : Z) : cprog Z :=
  on_both (hostTransportManager_ m) (ToHost (TWaitForConnected timeoutNs))
    (deviceTransportManager_ m) (ToDevice (TWaitForConnected timeoutNs)).
(** The result of the device, when there is one, replaces that of the host. *)
Definition UpdateRankOptions (m : ComposeTransportManager) (opt : PrepareOptions) : cprog Z :=
  ret ← on (hostTransportManager_ m) (ToHost (TUpdateRankOptions (GetHostPrepareOptions m opt)));
  if deviceTransportManager_ m then cret (ToDevice (TUpdateRankOptions (GetDevicePrepareOptions m opt))) else Ret ret.

(** ** Transfers *)

(** The device first, the host when that fails. *)
Definition either_way (m : ComposeTransportManager) (rankId : Z) (hostChecked : bool) (c : Call) : cprog Z :=
  let opType := op_type m rankId in
  ret ← (if has_bit opType HYBM_DOP_TYPE_DEVICE_RDMA && deviceTransportManager_ m then cret (ToDevice (TData c)) else Ret BM_ERROR);
  if ret =? BM_OK then Ret BM_OK else
  if has_bit opType HOST_PROTOCOL && (hostTransportManager_ m || negb hostChecked) then
    ret ← (if hostTransportManager_ m then cret (ToHost (TData c)) else cundefined BM_ERROR);
    Ret (if ret =? BM_OK then BM_OK else BM_ERROR)
  else Ret BM_ERROR.
Definition ReadRemote m r l a n := either_way m r false (HostDataOp.ReadRemote r l a n).
Definition WriteRemote m r l a n := either_way m r false (HostDataOp.WriteRemote r l a n).
Definition ReadRemoteAsync m r l a n := either_way m r false (HostDataOp.ReadRemoteAsync r l a n).
Definition WriteRemoteAsync m r l a n := either_way m r false (HostDataOp.WriteRemoteAsync r l a n).
Definition Synchronize m r := either_way m r true (HostDataOp.Synchronize r).

(** Batches only over the host. *)
Definition host_batch (m : ComposeTransportManager) (rankId : Z) (c : Call) : cprog Z :=
  let opType := op_type m rankId in
  if has_bit opType HYBM_DOP_TYPE_DEVICE_RDMA then Ret BM_NOT_SUPPORTED else
  if has_bit opType HOST_PROTOCOL then
    ret ← (if hostTransportManager_ m then cret (ToHost (TData c)) else cundefined BM_ERROR);
    Ret (if ret =? BM_OK then BM_OK else BM_ERROR)
  else Ret BM_ERROR.
Definition ReadRemoteBatchAsync m r d := host_batch m r (HostDataOp.ReadRemoteBatchAsync r d).
Definition WriteRemoteBatchAsync m r d := host_batch m r (HostDataOp.WriteRemoteBatchAsync r d).
