(* ===== verification/ComposeTransportSpec.v ===== *)
(** * Two transports as one: the theorems

    Where a rank is reached over one transport the compose manager keeps the
    contract the data operation relies on, whatever the other ranks use; where both
    are allowed it does not: its wait follows the device alone. *)
From Stdlib Require Import Strings.Byte Strings.String.
From stdpp Require Import base numbers list gmap relations.
From S2P Require Import Prelude VaManager Fabric HostDataOp HostDataOpSpec StrUtil HcomHelper TagInfo HcomTransport HcomTransportSpec ComposeTransport.
Local Open Scope Z_scope.
Local Open Scope mf_scope.

(** ** Lanes

    A transfer of the device is waited for by the device: its tag is the negative
    of the rank. *)
Definition lane (t : Tag) : Tag := match t with TRank r => TRank (-1 - r) | t => t end.
Definition unlane (t : Tag) : Tag := match t with TRank k => TRank (if k <? 0 then -1 - k else k) | t => t end.

(** The fabric seen by the data operation: the rank of a transfer, not its lane. *)
Definition retag (w : World) : World := mkWorld (mem w) ((λ f, mkFlight (unlane (f_tag f)) (f_todo f)) <$> flights w) (failed w).
Lemma adv_retag w w' : adv w w' → adv (retag w) (retag w').
Proof.
  induction 1 as [|w w1 w2 Ha _ IH]; [done|]. eapply rtc_l; [|exact IH]. destruct Ha; unfold retag; cbn; rewrite !fmap_app, ?fmap_cons; constructor.
Qed.
Lemma sent_retag t ms w w' : sent t ms w w' → sent (unlane t) ms (retag w) (retag w').
Proof.
  intros (w1 & fs & Ha & Hm & Ht & Ha'). exists (retag w1), ((λ f, mkFlight (unlane (f_tag f)) (f_todo f)) <$> fs).
  split_and!; [by apply adv_retag| | |].
  - intros mv. rewrite <- Hm. clear. induction fs as [|f fs IH]; [done|]. cbn. by rewrite !elem_of_app, IH.
  - apply Forall_fmap. eapply Forall_impl; [exact Ht|]. by intros f <-.
  - apply adv_retag in Ha'. unfold post, retag in *. cbn in *. by rewrite <- fmap_app.
Qed.
Section Lanes.
Context (me : Z) (m : ComposeTransportManager).
Definition dev_used (r : Z) : bool := has_bit (op_type m r) HYBM_DOP_TYPE_DEVICE_RDMA && deviceTransportManager_ m.
Definition host_used (r : Z) : bool := has_bit (op_type m r) HOST_PROTOCOL.

(** The contract of a transport manager, as the host manager keeps it. *)
Definition lane_step (f : Tag → Tag) (w : World) (c : Call) (w' : World) (r : Z) : Prop :=
  match effect me c with
  | ECopy t ms => result (f t) ms w w' r
  | EStop ms => result TNow ms w w' r
  | EWait t => adv w w' ∧ (r = 0 → quiet (f t) w')
  | EPass => adv w w'
  end.
Definition cok (w : World) (c : CCall) : Prop := c ≠ CUndefined.
Definition cstep (w : World) (c : CCall) (w' : World) (a : TAns) : Prop :=
  match c with
  | CUndefined => False
  | ToHost (TData c) => lane_step (λ t, t) w c w' (tret a)
  | ToDevice (TData c) => lane_step lane w c w' (tret a)
  | _ => adv w w'
  end.
Abbreviation cwp p w Q := (wp cok cstep p w Q).

(** Every transfer is in the lane of its rank. *)
Definition tag_ok (t : Tag) : Prop := match t with TRank k => if k <? 0 then dev_used (-1 - k) = true else dev_used k = false | _ => True end.
Definition in_lanes (w : World) : Prop := ∀ f, f ∈ flights w → tag_ok (f_tag f).

Lemma in_lanes_adv w w' : adv w w' → in_lanes w → in_lanes w'.
Proof. intros Ha Hl f Hf. destruct (adv_tag _ _ _ Ha Hf) as (f0 & Hf0 & <-). by apply Hl. Qed.
Lemma in_lanes_sent t ms w w' : sent t ms w w' → tag_ok t → in_lanes w → in_lanes w'.
Proof.
  intros (w1 & fs & Ha & _ & Ht & Ha') Htag Hl. eapply in_lanes_adv; [exact Ha'|]. intros f [Hf|Hf]%elem_of_app.
  - by apply (in_lanes_adv _ _ Ha Hl).
  - rewrite Forall_forall in Ht. by rewrite (Ht f Hf).
Qed.
(** The lane of a rank: the device's or the host's. *)
Definition lane_of (r : Z) : Tag → Tag := if dev_used r then lane else λ t, t.
Definition of_rank (r : Z) (t : Tag) : Prop := t = TNow ∨ t = TRank r.
Lemma lane_ok r t : 0 ≤ r → of_rank r t → tag_ok (lane_of r t) ∧ unlane (lane_of r t) = t.
Proof.
  unfold lane_of. intros Hr [-> | ->]; destruct (dev_used r) eqn:E; cbn; [done..| |].
  - rewrite (proj2 (Z.ltb_lt (-1 - r) 0)) by lia. split; [|f_equal; lia]. replace (-1 - (-1 - r)) with r by lia. done.
  - rewrite (proj2 (Z.ltb_ge r 0)) by lia. done.
Qed.
(** Waiting in the lane of the rank is waiting for the rank. *)
Lemma quiet_retag r t w : 0 ≤ r → of_rank r t → in_lanes w → quiet (lane_of r t) w → quiet t (retag w).
Proof.
  intros Hr Ht Hl Hq g (f & -> & Hf)%list_elem_of_fmap. cbn. intros E. apply (Hq f Hf). specialize (Hl f Hf). unfold lane_of.
  destruct Ht as [-> | ->]; destruct (f_tag f) as [| | |k] eqn:Ek; try done; cbn in E; [by destruct (dev_used r)|].
  cbn in Hl. destruct (Z.ltb_spec k 0); simplify_eq; rewrite Hl; cbn; [f_equal; lia|done].
Qed.

Definition refines (c : Call) (w : World) (r : Z) (w' : World) : Prop :=
  in_lanes w' ∧ ∀ e, ∃ e', fabric_step me (flagged e (retag w)) c (flagged e' (retag w')) r.

(** One answer of the transport of the rank, passed on as success or an error. *)
Definition about (r : Z) (c : Call) : Prop :=
  match effect me c with ECopy t _ | EWait t => of_rank r t | EStop _ | EPass => False end.
Lemma lane_refines r c w w' x y : 0 ≤ r → about r c → in_lanes w → lane_step (lane_of r) w c w' x → (y = 0 ↔ x = 0) → refines c w y w'.
Proof.
  unfold about, lane_step, refines, fabric_step. intros Hr Hc Hl Hs Hy. destruct (effect me c) as [t ms|ms|t|]; [|done| |done];
    destruct (lane_ok r t Hr Hc) as [Htag Hun].
  - assert (in_lanes w') as Hl'.
    { destruct Hs as [[_ [Hs _]%copy_ok_sent]|(_ & part & _ & Hs)]; by eapply in_lanes_sent. }
    split; [done|]. intros e. eexists. apply result_copies. destruct Hs as [[Hx [Hs Hq]%copy_ok_sent]|(Hx & part & Hp & Hs)].
    + left. split; [tauto|]. apply copy_ok_sent. split; [rewrite <- Hun; by apply sent_retag|].
      intros ->. apply (quiet_retag r); [done..|]. apply Hq. unfold lane_of. by destruct (dev_used r).
    + right. split; [tauto|]. exists part. split; [done|]. rewrite <- Hun. by apply sent_retag.
  - destruct Hs as [Ha Hq]. assert (in_lanes w') as Hl' by by eapply in_lanes_adv. split; [done|]. intros e.
    destruct (decide (y = 0)) as [Ey|Ey].
    + exists e. exists (flagged e (retag w')). split; [by apply adv_flagged, adv_retag|]. left. split_and!; [done| |done].
      apply (quiet_retag r); [done..|]. tauto.
    + exists true. exists (flagged e (retag w')). split; [by apply adv_flagged, adv_retag|]. right. by split.
Qed.
Lemma error_refines r c w y : about r c → in_lanes w → y ≠ 0 → refines c w y w.
Proof.
  unfold about, refines, fabric_step. intros Hc Hl Hy. split; [done|]. intros e. destruct (effect me c) as [t ms|ms|t|]; [|done| |done].
  - eexists. by apply result_copies, result_none.
  - exists true. exists (flagged e (retag w)). split; [done|]. right. by split.
Qed.

(** The transports a rank can be reached over are at most one, and there. *)
Definition one_transport (r : Z) : Prop :=
  (dev_used r = true → host_used r = false) ∧ (host_used r = true → hostTransportManager_ m = true).
Lemma either_way_wp r checked c w : 0 ≤ r → one_transport r → about r c → in_lanes w → cwp (either_way m r checked c) w (refines c w).
Proof.
  intros Hr [H1 H2] Hc Hl. unfold either_way. fold (dev_used r) (host_used r). destruct (dev_used r) eqn:Ed; apply wp_seq.
  - rewrite (H1 eq_refl). split; [done|]. intros w' a Hs. assert (lane_step (lane_of r) w c w' (tret a)) as Hs' by (unfold lane_of; by rewrite Ed).
    cbn. unfold BM_OK. destruct (Z.eqb_spec (tret a) 0) as [E|E]; eapply lane_refines; try done.
  - cbn [wp]. change (BM_ERROR =? BM_OK) with false. cbv iota. destruct (host_used r) eqn:Eh; [|cbn; by eapply error_refines].
    rewrite (H2 eq_refl). cbn [andb orb]. apply wp_seq. split; [done|]. intros w' a Hs.
    assert (lane_step (lane_of r) w c w' (tret a)) as Hs' by (unfold lane_of; by rewrite Ed).
    cbn. unfold BM_OK. destruct (Z.eqb_spec (tret a) 0) as [E|E]; eapply lane_refines; try done.
Qed.
Lemma host_batch_wp r c w : 0 ≤ r → one_transport r → about r c → in_lanes w → cwp (host_batch m r c) w (refines c w).
Proof.
  intros Hr [H1 H2] Hc Hl. unfold host_batch. fold (host_used r).
  destruct (has_bit (op_type m r) HYBM_DOP_TYPE_DEVICE_RDMA) eqn:Ed; [by eapply error_refines|].
  destruct (host_used r) eqn:Eh; [|by eapply error_refines]. rewrite (H2 eq_refl). apply wp_seq. split; [done|]. intros w' a Hs.
  assert (lane_step (lane_of r) w c w' (tret a)) as Hs' by (unfold lane_of, dev_used; by rewrite Ed).
  cbn. unfold BM_OK. destruct (Z.eqb_spec (tret a) 0) as [E|E]; eapply lane_refines; try done.
Qed.
End Lanes.

(** The transfers of the data operation, by the method that makes them. *)
Definition transfer_of (m : ComposeTransportManager) (c : Call) : option (Z * cprog Z) :=
  match c with
  | HostDataOp.ReadRemote r l a n => Some (r, ReadRemote m r l a n)
  | HostDataOp.WriteRemote r l a n => Some (r, WriteRemote m r l a n)
  | HostDataOp.ReadRemoteAsync r l a n => Some (r, ReadRemoteAsync m r l a n)
  | HostDataOp.WriteRemoteAsync r l a n => Some (r, WriteRemoteAsync m r l a n)
  | HostDataOp.ReadRemoteBatchAsync r d => Some (r, ReadRemoteBatchAsync m r d)
  | HostDataOp.WriteRemoteBatchAsync r d => Some (r, WriteRemoteBatchAsync m r d)
  | HostDataOp.Synchronize r => Some (r, Synchronize m r)
  | _ => None
  end.
(** C21: with two transports, each keeping the contract for its own transfers, the
    compose manager keeps the contract the data operation relies on for every rank
    that is reached over one of them, whatever the others use; no call goes through
    a null manager. *)
Theorem compose_refines_fabric me m c r p w : transfer_of m c = Some (r, p) → 0 ≤ r → one_transport m r → in_lanes m w →
  wp cok (cstep me) p w (refines me m c w).
Proof.
  intros Hp Hr H1 Hl. destruct c; try discriminate Hp; injection Hp as <- <-.
  1,2,3,4,7: by apply either_way_wp; [..|(by left) || (by right)|].
  all: by apply host_batch_wp; [..|by right|].
Qed.

(** ** What is published and read back *)
Definition no_delimiter (s : bytes) : Prop := NIC_DELIMITER ∉ s.
Lemma split_first a rest item : no_delimiter a →
  split_from NIC_DELIMITER (a ++ NIC_DELIMITER :: rest) item = (item ++ a) :: split_from NIC_DELIMITER rest [].
Proof.
  unfold no_delimiter. revert item. induction a as [|b a IH]; intros item Ha; cbn [app split_from].
  - rewrite decide_True by done. by rewrite app_nil_r.
  - apply not_elem_of_cons in Ha as [Hb Ha]. rewrite decide_False by congruence. rewrite IH by done. by rewrite <- app_assoc.
Qed.
(** The card of a rank with both transports. *)
Definition both_nics (h d : bytes) : bytes :=
  (HOST_TRANSPORT_TYPE ++ h ++ [NIC_DELIMITER]) ++ (DEVICE_TRANSPORT_TYPE ++ d ++ [NIC_DELIMITER]).
Lemma StartWith_app p s : StartWith (p ++ s) p = true.
Proof. unfold StartWith. rewrite take_app_length, length_app, (proj2 (Nat.leb_le _ _)) by lia. by rewrite bool_decide_true. Qed.
Lemma nic_of_both h d : no_delimiter h → no_delimiter d →
  nic_of HOST_TRANSPORT_TYPE (both_nics h d) = h ∧ nic_of DEVICE_TRANSPORT_TYPE (both_nics h d) = d.
Proof.
  intros Hh Hd. assert (Split (both_nics h d) NIC_DELIMITER = [HOST_TRANSPORT_TYPE ++ h; DEVICE_TRANSPORT_TYPE ++ d]) as E.
  { unfold Split. assert (both_nics h d = (HOST_TRANSPORT_TYPE ++ h) ++ NIC_DELIMITER :: (DEVICE_TRANSPORT_TYPE ++ d) ++ NIC_DELIMITER :: []) as ->
      by (unfold both_nics; by rewrite <- !app_assoc).
    rewrite !split_first; [done|..]; unfold no_delimiter in *; rewrite elem_of_app; intros [Hc|Hc]; try done; revert Hc;
      apply (bool_decide_unpack _); vm_compute; exact I. }
  unfold nic_of. rewrite E. cbn [foldl]. rewrite !StartWith_app, !drop_app_length. by split.
Qed.

Lemma take_copy n from to : (n <= length from)%nat → take n (copy_n from n to 0) = take n from.
Proof. intros Hl. unfold copy_n. rewrite take_0, app_nil_l. rewrite take_app_le by (rewrite length_take; lia). by rewrite take_take, Nat.min_id. Qed.
Definition both_keys (hk dk key : TransportMemoryKey) : TransportMemoryKey := WriteHcomMemoryKey hk (WriteDeviceRdmaMemoryKey dk key).
Lemma both_keys_halves hk dk key : length hk = 28%nat → length dk = 28%nat → length key = 28%nat →
  take 14 (both_keys hk dk key) = take 14 dk ∧ ReadHcomMemoryKey (both_keys hk dk key) zeroMemoryKey = take 14 hk ++ repeat 0 14.
Proof.
  intros Hh Hd Hk. set (k1 := WriteDeviceRdmaMemoryKey dk key). assert (length k1 = 28%nat ∧ take 14 k1 = take 14 dk) as [H1 H2].
  { unfold k1, WriteDeviceRdmaMemoryKey, KEY_SIZE. split; [|apply take_copy; lia].
    unfold copy_n. rewrite take_0, app_nil_l, length_app, length_take, length_drop. lia. }
  assert (both_keys hk dk key = take 14 dk ++ take 14 hk) as ->.
  { unfold both_keys, WriteHcomMemoryKey, copy_n, KEY_SIZE. fold k1. rewrite H2, (drop_ge k1) by lia. by rewrite app_nil_r. }
  assert (length (take 14 dk) = 14%nat) as L by (rewrite length_take; lia). split; [by apply take_app_length'|].
  unfold ReadHcomMemoryKey, KEY_SIZE. rewrite drop_app_length' by done. unfold copy_n. rewrite take_0, app_nil_l, take_take. done.
Qed.

(** C22: with both transports a rank publishes one card and one key for the two; the
    others take them apart again: the host manager is given the host's card and
    exactly the host's key, the device manager the device's card and a key that
    starts with the device's. *)
Theorem compose_exchange_roundtrip m r h d hk dk key a :
  no_delimiter h → no_delimiter d → length hk = 28%nat → length dk = 28%nat → length key = 28%nat → drop 14 hk = repeat 0 14 →
  let answers (w : unit) (c : CCall) := (tt, match c with ToHost _ => mkT BM_OK h hk | _ => mkT BM_OK d dk end) in
  let both := mkCompose true true (nicInfo_ m) (c_mrs_ m) (options_ m) (tagManager_ m) in
  let open := mkOpts (o_rankId (options_ m)) (o_rankCount (options_ m)) (Z.lor HOST_PROTOCOL HYBM_DOP_TYPE_DEVICE_RDMA) (o_nic (options_ m)) in
  ∃ card k,
    nicInfo_ (run answers (OpenDevice (compose_new (tagManager_ m)) open) tt).2.1 = card ∧
    run answers (QueryMemoryKey both a key) tt = (tt, (BM_OK, k)) ∧
    (has_bit (op_type m r) HOST_PROTOCOL = true → GetHostPrepareOptions m [(r, mkInfo card [k])] = [(r, mkInfo h [hk])]) ∧
    (has_bit (op_type m r) HYBM_DOP_TYPE_DEVICE_RDMA = true →
       GetDevicePrepareOptions m [(r, mkInfo card [k])] = [(r, mkInfo d [k])] ∧ take 14 k = take 14 dk).
Proof.
  intros Hh Hd Lh Ld Lk Hz answers both open. destruct (nic_of_both h d Hh Hd) as [Eh Ed].
  destruct (both_keys_halves hk dk key Lh Ld Lk) as [Kd Kh]. exists (both_nics h d), (both_keys hk dk key). split_and!; [done|done| |].
  - intros Hb. unfold GetHostPrepareOptions. cbn [List.filter fst]. rewrite Hb. cbn [fmap list_fmap fst snd nic memKeys].
    rewrite Eh, Kh, <- Hz, take_drop. done.
  - intros Hb. unfold GetDevicePrepareOptions. cbn [List.filter fst]. rewrite Hb. cbn [fmap list_fmap fst snd nic memKeys]. rewrite Ed. done.
Qed.
(** The keys of the host manager are such keys. *)
Lemma host_key_half n a k sz : length (keys k) = 4%nat → length (tokens k) = 4%nat → length (eid k) = 2%nat →
  length (host_key n a k sz) = 28%nat ∧ drop 14 (host_key n a k sz) = repeat 0 14.
Proof.
  intros H1 H2 H3. destruct k as [ks ts es]. cbn in *.
  do 5 (destruct ks as [|? ks]; [cbn in H1; lia || idtac|]); try (cbn in H1; lia).
  all: do 5 (destruct ts as [|? ts]; [cbn in H2; lia || idtac|]); try (cbn in H2; lia).
  all: do 3 (destruct es as [|? es]; [cbn in H3; lia || idtac|]); try (cbn in H3; lia). done.
Qed.

(** ** On concrete inputs *)
Definition demo_tags (op : Z) : HybmEntityTagInfo :=
  mkTags {[0 := ["a"%byte]; 1 := ["b"%byte]]} {[join ["a"%byte] ["b"%byte] := op]}.
Definition demo_compose (op : Z) : ComposeTransportManager :=
  mkCompose true true [] ∅ (mkOpts 0 2 (Z.lor HOST_PROTOCOL HYBM_DOP_TYPE_DEVICE_RDMA) []) (demo_tags op).
Definition BOTH : Z := Z.lor HYBM_DOP_TYPE_HOST_RDMA HYBM_DOP_TYPE_DEVICE_RDMA.

(** Transports that copy at once. *)
Definition lane_at_once (me : Z) (w : World) (c : CCall) : World * TAns :=
  match c with
  | ToHost (TData c) | ToDevice (TData c) =>
      let w := settle w in
      match effect me c with
      | ECopy _ ms | EStop ms => (mkWorld (move_all (mem w) ms) [] (failed w), mkT 0 [] [])
      | _ => (w, mkT 0 [] [])
      end
  | _ => (w, mkT 0 [] [])
  end.
Lemma lane_at_once_data me f w c : lane_step me f w c (lane_at_once me w (ToHost (TData c))).1 (tret (lane_at_once me w (ToHost (TData c))).2).
Proof.
  cbn. unfold lane_step. pose proof (settle_adv w) as Ha. assert (∀ t ms, result t ms w (mkWorld (move_all (mem (settle w)) ms) [] (failed w)) 0) as Hc.
  { intros t ms. left. split; [done|]. apply copy_ok_sent. split; [|by intros _ f0 ?%not_elem_of_nil]. eapply sent_adv_l; [exact Ha|].
    pose proof (copy_at_once t ms (mem (settle w)) (failed w)) as [Hs _]%copy_ok_sent. exact Hs. }
  destruct (effect me c) as [t ms|ms|t|]; cbn; [apply Hc|apply Hc|split; [done|by intros _ f0 ?%not_elem_of_nil]|done].
Qed.
Lemma lane_at_once_step me w c : cok w c → cstep me w c (lane_at_once me w c).1 (lane_at_once me w c).2.
Proof. intros Hok. destruct c as [|[]|[]]; try (by apply rtc_refl); try done; apply (lane_at_once_data me). Qed.

Lemma compose_refines_fabric_witness :
  let c := HostDataOp.WriteRemote 1 10 20 3 in let m := demo_compose HYBM_DOP_TYPE_HOST_RDMA in
  let x := run (lane_at_once 0) (WriteRemote m 1 10 20 3) demo_world in
  x.2 = BM_OK ∧ refines 0 m c demo_world x.2 x.1.
Proof.
  split; [vm_compute; reflexivity|].
  refine (wp_run cok (cstep 0) (lane_at_once 0) _ _ _ (lane_at_once_step 0)
    (compose_refines_fabric 0 (demo_compose HYBM_DOP_TYPE_HOST_RDMA) (HostDataOp.WriteRemote 1 10 20 3) 1 _ demo_world eq_refl ltac:(lia) _ _)).
  - split; [vm_compute; discriminate|done].
  - by intros f ?%not_elem_of_nil.
Defined.

Lemma compose_exchange_roundtrip_witness : ∃ k,
  GetHostPrepareOptions (demo_compose BOTH) [(1, mkInfo (both_nics ["h"%byte] ["d"%byte]) [k])] =
    [(1, mkInfo ["h"%byte] [host_key TT_HCOM 0x1000 zeroKey 0x200])] ∧ take 14 k = repeat 7 14.
Proof.
  assert (no_delimiter ["h"%byte] ∧ no_delimiter ["d"%byte]) as [Hh Hd] by (split; apply (bool_decide_unpack _); vm_compute; exact I).
  destruct (compose_exchange_roundtrip (demo_compose BOTH) 1 ["h"%byte] ["d"%byte] (host_key TT_HCOM 0x1000 zeroKey 0x200) (repeat 7 28)
    (repeat 0 28) 0x1000 Hh Hd eq_refl eq_refl eq_refl eq_refl) as (card & k & Ec & Ek & H1 & H2).
  exists k. assert (card = both_nics ["h"%byte] ["d"%byte]) as -> by (rewrite <- Ec; vm_compute; reflexivity).
  split; [apply H1; vm_compute; reflexivity|]. apply H2. vm_compute. reflexivity.
Defined.

(** Where both transports are allowed, a write the device refuses goes over the host;
    the wait that follows asks the device alone, and returns before it has arrived. *)
Definition write_and_wait (m : ComposeTransportManager) : cprog (Z * Z) :=
  r1 ← WriteRemoteAsync m 1 10 20 3; r2 ← Synchronize m 1; Ret (r1, r2).
Theorem fallback_not_waited_for :
  may (cstep 0) (write_and_wait (demo_compose BOTH)) demo_world (λ x w,
    x = (BM_OK, BM_OK) ∧ mem w (1, 20) = mem demo_world (1, 20) ∧ mem demo_world (1, 20) ≠ mem demo_world (0, 10)).
Proof.
  exists demo_world, (mkT (-1) [] []). split; [by apply result_none|].
  exists (post demo_world [mkFlight (TRank 1) (moves (1, 20) (0, 10) 3)]), (mkT 0 [] []). split.
  { left. split; [done|]. apply copy_ok_sent. split; [|done]. exists demo_world, [mkFlight (TRank 1) (moves (1, 20) (0, 10) 3)].
    split_and!; [done| |by repeat constructor|done]. intros mv. cbn. by rewrite ?app_nil_r. }
  exists (post demo_world [mkFlight (TRank 1) (moves (1, 20) (0, 10) 3)]), (mkT 0 [] []). split.
  { split; [done|]. intros _ f. cbn. by intros ->%list_elem_of_singleton. }
  split_and!; [done|done|]. vm_compute. discriminate.
Qed.
(** A wait that fails on the device is a success when the host has nothing to wait for. *)
Theorem failed_wait_hidden :
  may (cstep 0) (write_and_wait (demo_compose BOTH)) demo_world (λ x w,
    x = (BM_OK, BM_OK) ∧ mem w (1, 20) = mem demo_world (1, 20) ∧ mem demo_world (1, 20) ≠ mem demo_world (0, 10)).
Proof.
  exists (post demo_world [mkFlight (TRank (-2)) (moves (1, 20) (0, 10) 3)]), (mkT 0 [] []). split.
  { left. split; [done|]. apply copy_ok_sent. split; [|done]. exists demo_world, [mkFlight (TRank (-2)) (moves (1, 20) (0, 10) 3)].
    split_and!; [done| |by repeat constructor|done]. intros mv. cbn. by rewrite ?app_nil_r. }
  exists (post demo_world [mkFlight (TRank (-2)) (moves (1, 20) (0, 10) 3)]), (mkT (-1) [] []). split; [by split|].
  exists (post demo_world [mkFlight (TRank (-2)) (moves (1, 20) (0, 10) 3)]), (mkT 0 [] []). split.
  { split; [done|]. intros _ f. cbn. by intros ->%list_elem_of_singleton. }
  split_and!; [done|done|]. vm_compute. discriminate.
Qed.

(** A manager that has been opened cannot be opened again, closed or not, and whatever
    its transports answer. *)
Theorem compose_reopen_refused m options : hostTransportManager_ m = true → has_bit (o_protocol options) HOST_PROTOCOL = true →
  wp (λ _ _, True) (λ (_ : unit) _ _ _, True) (CloseDevice m ≫= λ _, OpenDevice m options) tt (λ x _, x.2 = BM_ERROR).
Proof.
  intros Hm Hb. unfold CloseDevice, OpenDevice, OpenHostTransport, CloseDevice, on, cret. rewrite Hb, Hm.
  destruct (deviceTransportManager_ m); cbn; repeat (split; [done|]; intros); done.
Qed.
(** The failure of the host to take the options of new ranks is lost when there is a
    device that takes them. *)
Theorem update_error_lost m opt : hostTransportManager_ m = true → deviceTransportManager_ m = true →
  (run (λ (_ : unit) c, (tt, mkT (match c with ToHost _ => BM_ERROR | _ => BM_OK end) [] [])) (UpdateRankOptions m opt) tt).2 = BM_OK.
Proof. intros Hh Hd. unfold UpdateRankOptions, on. by rewrite Hh, Hd. Qed.
