(* ===== verification/ComposeDataOp.v ===== *)
(** * The composed data operator (data_operation/host/hybm_compose_data_op)

    One operator in front of those over SDMA, device RDMA and host RDMA: a copy is
    tried with each operator the tags of its ranks allow, in the order of their
    priority, until one succeeds.

    A method is a program over the methods of the three operators; the tags are the
    entity's, which change while it imports.  [OUndefined] is an index behind the
    arrays of a batch. *)
From stdpp Require Import base numbers list gmap.
From S2P Require Import Prelude VaManager HostDataOp HcomHelper TagInfo HcomTransport.
Local Open Scope Z_scope.

Definition HYBM_TYPE_AI_CORE_INITIATE : Z := 0.
Definition HOST_DOP_TYPES : Z := Z.lor (Z.lor HYBM_DOP_TYPE_HOST_RDMA HYBM_DOP_TYPE_HOST_URMA) HYBM_DOP_TYPE_HOST_TCP.
Definition allows (types type : Z) : bool := negb (Z.land types type =? 0).

(** ** What is asked for *)
Inductive Operator := OpSdma | OpDevRdma | OpHostRdma.
(** The options of a copy; the groups of a batch are the entries of the unordered
    map from pairs of ranks to indices, in the order of its iteration. *)
Record CopyOptions := mkCopyOptions { ext : ExtOptions; flags : Z; groupMap : list (Z * Z * list nat) }.
Inductive OCall :=
| OUndefined
| OInitialize (k : Operator)
| OUnInitialize (k : Operator)
| ODataCopy (k : Operator) (params : hybm_copy_params) (direction : hybm_data_copy_direction) (o : CopyOptions)
| OBatchDataCopy (k : Operator) (jobs : list hybm_copy_params) (direction : hybm_data_copy_direction) (o : CopyOptions)
| ODataCopyAsync (k : Operator) (params : hybm_copy_params) (direction : hybm_data_copy_direction) (o : CopyOptions)
| OWait (k : Operator) (waitId : Z).
Abbreviation oprog := (program OCall Z).
Definition ocall (c : OCall) : oprog Z := Act c Ret.
Definition oundefined {A} (a : A) : oprog A := Act OUndefined (λ _, Ret a).

(** Which of the operators exist. *)
Record HostComposeDataOp := mkComposeOp {
  bmType : Z;
  bmDataOpType : Z;
  sdmaDataOperator_ : bool;
  devRdmaDataOperator_ : bool;
  hostRdmaDataOperator_ : bool;
}.
Definition compose_new (type dataOpType : Z) : HostComposeDataOp := mkComposeOp type dataOpType false false false.
Definition set_ops (c : HostComposeDataOp) (sdma dev host : bool) : HostComposeDataOp :=
  mkComposeOp (bmType c) (bmDataOpType c) sdma dev host.

(** ** Start and end *)
Definition Initialize (c : HostComposeDataOp) : oprog (HostComposeDataOp * Z) :=
  if bmType c =? HYBM_TYPE_AI_CORE_INITIATE then Ret (c, BM_OK) else
  ret ← (if allows (bmDataOpType c) HYBM_DOP_TYPE_SDMA then ocall (OInitialize OpSdma) else Ret BM_OK);
  if negb (ret =? BM_OK) then Ret (set_ops c false (devRdmaDataOperator_ c) (hostRdmaDataOperator_ c), ret) else
  let c := if allows (bmDataOpType c) HYBM_DOP_TYPE_SDMA then set_ops c true (devRdmaDataOperator_ c) (hostRdmaDataOperator_ c) else c in
  ret ← (if allows (bmDataOpType c) HYBM_DOP_TYPE_DEVICE_RDMA then ocall (OInitialize OpDevRdma) else Ret BM_OK);
  if negb (ret =? BM_OK) then Ret (set_ops c false false (hostRdmaDataOperator_ c), ret) else
  let c := if allows (bmDataOpType c) HYBM_DOP_TYPE_DEVICE_RDMA then set_ops c (sdmaDataOperator_ c) true (hostRdmaDataOperator_ c) else c in
  ret ← (if allows (bmDataOpType c) HOST_DOP_TYPES then ocall (OInitialize OpHostRdma) else Ret BM_OK);
  if negb (ret =? BM_OK) then Ret (set_ops c false false false, ret) else
  let c := if allows (bmDataOpType c) HOST_DOP_TYPES then set_ops c (sdmaDataOperator_ c) (devRdmaDataOperator_ c) true else c in
  Ret (c, BM_OK).
Definition UnInitialize (c : HostComposeDataOp) : oprog HostComposeDataOp :=
  _ ← (if hostRdmaDataOperator_ c then ocall (OUnInitialize OpHostRdma) else Ret 0);
  _ ← (if devRdmaDataOperator_ c then ocall (OUnInitialize OpDevRdma) else Ret 0);
  _ ← (if sdmaDataOperator_ c then ocall (OUnInitialize OpSdma) else Ret 0);
  Ret (set_ops c false false false).

(** ** Choosing *)
Definition GetPrioritedDataOperators (c : HostComposeDataOp) (tags : HybmEntityTagInfo) (o : ExtOptions) : list (Z * Operator) :=
  let opTypes := GetRank2RankOpType tags (srcRankId o) (destRankId o) in
  let add (there : bool) type k := if there && allows opTypes type then [(type, k)] else [] in
  add (sdmaDataOperator_ c) HYBM_DOP_TYPE_SDMA OpSdma ++
  add (devRdmaDataOperator_ c) HYBM_DOP_TYPE_DEVICE_RDMA OpDevRdma ++
  add (hostRdmaDataOperator_ c) HYBM_DOP_TYPE_HOST_RDMA OpHostRdma ++
  add (hostRdmaDataOperator_ c) HYBM_DOP_TYPE_HOST_URMA OpHostRdma ++
  add (hostRdmaDataOperator_ c) HYBM_DOP_TYPE_HOST_TCP OpHostRdma.

(** Each operator in turn until one succeeds; [try] is given the last result. *)
Fixpoint first_success (try : Z → Z * Operator → oprog Z) (ops : list (Z * Operator)) (result : Z) : oprog Z :=
  match ops with
  | [] => Ret result
  | op :: ops => result ← try result op; if result =? BM_OK then Ret result else first_success try ops result
  end.
Definition with_operators (c : HostComposeDataOp) (tags : HybmEntityTagInfo) (o : CopyOptions) (try : Z → Z * Operator → oprog Z) : oprog Z :=
  match GetPrioritedDataOperators c tags (ext o) with
  | [] => Ret BM_INVALID_PARAM
  | availableOps => first_success try availableOps BM_ERROR
  end.

(** ** Copying *)
Definition DataCopy (c : HostComposeDataOp) (tags : HybmEntityTagInfo) (params : hybm_copy_params)
    (direction : hybm_data_copy_direction) (o : CopyOptions) : oprog Z :=
  with_operators c tags o (λ _ op, ocall (ODataCopy op.2 params direction o)).
Definition DataCopyAsync (c : HostComposeDataOp) (tags : HybmEntityTagInfo) (params : hybm_copy_params)
    (direction : hybm_data_copy_direction) (o : CopyOptions) : oprog Z :=
  with_operators c tags o (λ _ op, ocall (ODataCopyAsync op.2 params direction o)).

(** The groups of a batch one after another, until one fails. *)
Fixpoint copy_groups (k : Operator) (jobs : list hybm_copy_params) (direction : hybm_data_copy_direction) (o : CopyOptions)
    (groups : list (Z * Z * list nat)) (result : Z) : oprog Z :=
  match groups with
  | [] => Ret result
  | (p2pInfo, indices) :: groups =>
      match mapM (λ idx, jobs !! idx) indices with
      | None => oundefined result
      | Some group =>
          let copyOptions := mkCopyOptions (mkOptions p2pInfo.1 p2pInfo.2 (stream (ext o))) (flags o) [] in
          result ← ocall (OBatchDataCopy k group direction copyOptions);
          if negb (result =? BM_OK) then Ret result else copy_groups k jobs direction o groups result
      end
  end.
Definition BatchDataCopy (c : HostComposeDataOp) (tags : HybmEntityTagInfo) (jobs : list hybm_copy_params)
    (direction : hybm_data_copy_direction) (o : CopyOptions) : oprog Z :=
  with_operators c tags o (λ result op,
    if op.1 =? HYBM_DOP_TYPE_SDMA then ocall (OBatchDataCopy op.2 jobs direction o)
    else copy_groups op.2 jobs direction o (groupMap o) result).
Definition Wait (c : HostComposeDataOp) (waitId : Z) : oprog Z :=
  if sdmaDataOperator_ c then ocall (OWait OpSdma waitId) else Ret BM_ERROR.
