(* ===== verification/ComposeDataOpSpec.v ===== *)
(** * The composed data operator: the theorems

    The operators behind the composed one are the programs of [HostDataOp],
    [DeviceDataOp] and [SdmaDataOp] themselves, run over the fabric: a copy that
    succeeds with any of them, after others have refused it or have failed without
    leaving part of it under way, is exact.  That a failed operator may leave
    something under way is tracked, not assumed away:
    [DeviceBatchSpec.device_batch_left_running] shows one that does. *)
From Stdlib Require Import Strings.Byte Strings.String.
From stdpp Require Import base numbers list gmap relations.
From S2P Require Import Prelude RangePool RangePoolSpec VaManager HcomHelper TagInfo HcomTransport Fabric HostDataOp HostDataOpSpec DeviceDataOp DeviceDataOpSpec DeviceBatchSpec SdmaDataOp SdmaDataOpSpec ComposeDataOp.
Local Open Scope Z_scope.
Local Open Scope mf_scope.

(** ** Attempts *)

(** A copy of [ms] with [S] as scratch memory while others write [X]: whatever the
    result, nothing of it is under way any more. *)
Record tidy (X S : Loc → Prop) (ms : list Move) (w w' : World) (r : Z) : Prop := {
  ti_still : still (mem w') X w';
  ti_frame : ∀ l, ¬ X l → ¬ S l → l ∉ ms.*1 → mem w' l = mem w l;
  ti_moved : r = 0 → ∀ d s, (d, s) ∈ ms → mem w' d = mem w s;
}.
Lemma tidy_did X S ms w w' r : r = 0 → tidy X S ms w w' r → did (mem w) X S ms w'.
Proof. intros -> [H1 H2 H3]. split; [by apply H3|done|done]. Qed.
(** A second attempt. *)
Lemma tidy_again X S ms w w1 w2 r1 r2 : orderly ms (either X S) → tidy X S ms w w1 r1 → tidy X S ms w1 w2 r2 → tidy X S ms w w2 r2.
Proof.
  intros Ho [A1 A2 A3] [B1 B2 B3]. split; [done| |].
  - intros l HX HS Hn. by rewrite B2, A2.
  - intros Hr d s Hd. rewrite (B3 Hr d s Hd). destruct (or_X _ _ Ho d s Hd) as [_ N]. unfold either in N.
    apply A2; [tauto..|]. apply (or_src _ _ Ho d s Hd).
Qed.
(** One part of a copy after another; the second may be left out when the first fails. *)
Lemma tidy_app X S ms1 ms2 w w1 w2 r1 r2 : orderly (ms1 ++ ms2) (either X S) → tidy X S ms1 w w1 r1 → tidy X S ms2 w1 w2 r2 →
  r1 = 0 → tidy X S (ms1 ++ ms2) w w2 r2.
Proof.
  intros Ho H1 H2 Hr1. pose proof H1 as [A1 A2 A3]. pose proof H2 as [B1 B2 B3]. split; [done| |].
  - intros l HX HS Hn. rewrite fmap_app in Hn. rewrite B2, A2; try done; set_solver.
  - intros Hr2. eapply did_moved, did_app; [exact Ho|exact (tidy_did _ _ _ _ _ _ Hr1 H1)|exact (tidy_did _ _ _ _ _ _ Hr2 H2)].
Qed.
Lemma tidy_part X S ms1 ms2 w w1 r : r ≠ 0 → tidy X S ms1 w w1 r → tidy X S (ms1 ++ ms2) w w1 r.
Proof. intros Hr [A1 A2 _]. split; [done| |done]. intros l HX HS Hn. rewrite fmap_app in Hn. apply A2; try done; set_solver. Qed.
Lemma tidy_none X S ms w r : still (mem w) X w → r ≠ 0 ∨ ms = [] → tidy X S ms w w r.
Proof. intros Hs Hr. split; [done..|]. intros -> d s Hd. destruct Hr as [?| ->]; [done|by apply not_elem_of_nil in Hd]. Qed.

(** What an operator leaves, whether it fails or not; when it fails, part of the copy
    may be under way. *)
Record made (X S : Loc → Prop) (ms : list Move) (w : World) (r : Z) (w' : World) : Prop := {
  ma_frame : ∀ l, ¬ X l → ¬ S l → l ∉ ms.*1 → mem w' l = mem w l;
  ma_moved : r = 0 → (∀ d s, (d, s) ∈ ms → mem w' d = mem w s) ∧ still (mem w') X w';
}.
Lemma made_tidy X S ms w w' r : made X S ms w r w' → (r ≠ 0 → still (mem w') X w') → tidy X S ms w w' r.
Proof. intros [Hf Hm] Hs. split; [|done|by intros ?; apply Hm]. destruct (decide (r = 0)) as [E|E]; [by apply Hm|by apply Hs]. Qed.
Lemma made_wider X S S' ms w r w' : (∀ l, S l → S' l) → made X S ms w r w' → made X S' ms w r w'.
Proof. intros HS [Hf Hm]. split; [|done]. intros l HX HS' Hn. apply Hf; [done| |done]. by intros ?%HS. Qed.
Lemma copied_made op p X E w ms x w' : HostDataOpSpec.copied op p X E (mem w) ms x w' → made X (swap_of (HostDataOp.rankId_ op) p) ms w x.2 w'.
Proof.
  intros (_ & Hf & Hm & _). split; [done|]. intros Hr. destruct (Hm Hr) as [H1 H2]. split; [done|].
  split; [by right; apply H2|done|by intros d s ?%not_elem_of_nil].
Qed.
Lemma sdma_made X S w ms r w' : sdma_copied X S (mem w) ms r w' → made X S ms w r w'.
Proof.
  intros [Hs Hd]. split; [|intros Hr; by destruct (Hd Hr)].
  intros l HX HS Hn. apply (fo_frame _ _ _ _ _ Hs); [tauto|apply not_elem_of_nil].
Qed.

(** ** The operators

    [me] is the caller's rank, [X] what others write, [S] the scratch memory of the
    operators: the swap spaces and, over SDMA, the memory [T] the device gives out. *)
Definition byte_plan (ranks : Z * Z) (j : hybm_copy_params) : list Move :=
  moves (ranks.2, dest j) (ranks.1, src j) (dataSize j).
Definition ranks_of (o : ExtOptions) : Z * Z := (srcRankId o, destRankId o).
(** Local memory is named by the caller's rank. *)
Definition named (me : Z) (d : hybm_data_copy_direction) (ranks : Z * Z) : Prop :=
  (from_local d = true → ranks.1 = me) ∧ (to_local d = true → ranks.2 = me).

(** The lengths a batch over SDMA can copy: joined into tasks, 4 GiB are not reached in
    all; handed to the kernel or copied by way of the device, by no entry. *)
Definition sdma_lengths (d : hybm_data_copy_direction) (flags : Z) (jobs : list hybm_copy_params) : Prop :=
  if via_device d then Forall (λ j, dataSize j < 2 ^ 32) jobs else
  if has_flag flags COPY_EXTEND_FLAG
  then Z.of_nat (List.length jobs) + HYBM_SINGLE_PARAM_NUM ≤ 2 ^ 32 ∧ Forall (λ j, dataSize j < 2 ^ 32) jobs
  else total jobs < 2 ^ 32.

Record Operators := mkOperators {
  o_swap : Z; o_host : HostDataOpRDMA; o_dev : DataOpDeviceRDMA; o_sdma : HostDataOpSDMA;
  o_order : gmap Z CopyDescriptor → list (Z * CopyDescriptor); o_spaces : list GvaSpace;
  (* the arrays of a batch, at their addresses *)
  o_arrays : list hybm_copy_params → hybm_batch_copy_params;
}.

Section Operators.
Context (me : Z) (X S T : Loc → Prop) (ops : Operators).
Context (hpool dpool : RbtreeRangePool) (hlive dlive : gmap Z Z).
Context (HSX : ∀ l, S l → ¬ X l).

(** An operator that has been started; its scratch memory is in [S]. *)
Definition ready_op (k : Operator) : Prop :=
  match k with
  | OpHostRdma => HostDataOpSpec.ready (o_swap ops) (o_host ops) hpool hlive ∧ HostDataOp.rankId_ (o_host ops) = me ∧
      ∀ l, swap_of me hpool l → S l
  | OpDevRdma => DeviceDataOpSpec.ready (o_dev ops) dpool dlive ∧ HostDataOp.rankId_ (o_dev ops) = me ∧
      ∀ l, swap_of me dpool l → S l
  | OpSdma => ∀ l, T l → S l
  end.
(** A copy the operator makes, or refuses: addresses that do not wrap; local memory
    named by the caller's rank; over SDMA, both ends at the caller's rank, not
    asynchronous, and a length it can copy. *)
Definition able (k : Operator) (d : hybm_data_copy_direction) (ranks : Z * Z) (flags : Z) (j : hybm_copy_params) : Prop :=
  ready_op k ∧ job_fits j ∧
  match k with
  | OpSdma => ranks = (me, me) ∧ has_flag flags ASYNC_COPY_FLAG = false ∧
      (if via_device d then dataSize j < 2 ^ 32 else copyable flags (dataSize j))
  | _ => named me d ranks
  end.

(** The host operator refuses the directions it does not know, and two global ends
    neither of which is the caller's. *)
Lemma host_refuses w j d o ms : HostDataOpSpec.ready (o_swap ops) (o_host ops) hpool hlive → HostDataOp.rankId_ (o_host ops) = me →
  ¬ supported (o_host ops) d o → orderly ms (either X (swap_of me hpool)) → still (mem w) X w →
  wp fabric_ok (fabric_step me) (HostDataOp.DataCopy (o_swap ops) (o_host ops) j d o) w
    (λ x w', made X (swap_of me hpool) ms w x.2 w').
Proof.
  intros Hready <- Hun Ho Hs. eapply wp_mono; [|intros x w'; by apply (copied_made _ _ _ True)].
  apply (does_copied _ _ _ _ (swap_of (HostDataOp.rankId_ (o_host ops)) hpool)); [done| |done].
  set (Y l := X l ∨ swap_of (HostDataOp.rankId_ (o_host ops)) hpool l ∨ l ∈ ms.*1).
  assert (∀ l, X l → Y l) as HXY by (intros l ?; by left).
  assert (does_op (o_host ops) X Y True (swap_of (HostDataOp.rankId_ (o_host ops)) hpool) ms (Ret (o_host ops, BM_INVALID_PARAM))) as Hr.
  { intros w0 Hw0. split; [done|]. split_and!; [by eapply still_widen|done|by right]. }
  unfold HostDataOp.DataCopy. rewrite (rd_inited _ _ _ _ Hready). cbn [negb].
  apply (does_around (o_host ops) X Y _ HXY _ _ _ _ (λ op ret, if negb (transportManager_ op) then undefined (op, ret) else
    addr ← GetLocalMrAddr j d; _ ← call (UnregisterMemoryRegion addr); Ret (op, ret))).
  - by eapply orderly_none.
  - apply PreRegister_passes.
  - unfold supported in Hun. destruct d; cbn in Hun; try tauto; try exact Hr.
    unfold CopyGva2Gva. destruct (Z.eqb_spec (srcRankId o) (HostDataOp.rankId_ (o_host ops))); [tauto|].
    destruct (Z.eqb_spec (destRankId o) (HostDataOp.rankId_ (o_host ops))); [tauto|exact Hr].
  - intros ret w' Q HQ. rewrite (HostDataOpSpec.rd_transport _ _ _ _ Hready). cbn [negb]. apply wp_seq, GetLocalMrAddr_passes. intros a w1 A1.
    apply wp_seq, passes_call; [done..|]. intros r w2 A2. apply HQ. unfold adv in *. by transitivity w1.
Qed.

Lemma host_copy_made w j d o flags : able OpHostRdma d (ranks_of o) flags j → orderly (byte_plan (ranks_of o) j) (either X S) → still (mem w) X w →
  wp fabric_ok (fabric_step me) (snd <$> HostDataOp.DataCopy (o_swap ops) (o_host ops) j d o) w (made X S (byte_plan (ranks_of o) j) w).
Proof.
  intros ((Hready & Hme & HS) & Hj & Hnf & Hnt) Ho Hs. set (ms := byte_plan (ranks_of o) j) in *. apply wp_seq.
  assert (orderly ms (either X (swap_of me hpool))) as Ho'.
  { eapply orderly_less; [exact Ho|]. intros l [?|?]; [by left|right; by apply HS]. }
  eapply (wp_mono _ _ _ _ (λ x w', made X (swap_of me hpool) ms w x.2 w')).
  - assert (supported (o_host ops) d o ∨ ¬ supported (o_host ops) d o) as [Hsup|Hun].
    { unfold supported. destruct d; cbn; try (left; tauto); try (right; intros [[]|[[]|[? _]]]; discriminate).
      destruct (decide (srcRankId o = HostDataOp.rankId_ (o_host ops))), (decide (destRankId o = HostDataOp.rankId_ (o_host ops))); [left; tauto..|].
      right. intros [[]|[[]|[_ [?|?]]]]; done. }
    + assert (HostDataOpSpec.copy_plan (o_host ops) d o j = ms) as Em.
      { unfold HostDataOpSpec.copy_plan, HostDataOpSpec.rank_to, HostDataOpSpec.rank_from, ms, byte_plan. rewrite Hme. cbn in *.
        destruct d; cbn in *; rewrite ?Hnf, ?Hnt by done; done. }
      subst me. eapply wp_mono; [apply (DataCopy_copied _ _ hpool hlive X w); try done; [by intros l ?%HS; apply HSX|by rewrite Em]|].
      intros x w'. rewrite Em. apply copied_made.
    + by apply host_refuses.
  - intros x w' Hx. by eapply made_wider.
Qed.

Lemma dev_refuses w j d o ms : DeviceDataOpSpec.known d = false ∨ both_global d = true ∧ ¬ involved (o_dev ops) o →
  wp fabric_ok (fabric_step me) (DeviceDataOp.DataCopy (o_dev ops) j d o) w (λ x w', made X (swap_of me dpool) ms w x.2 w').
Proof.
  intros Hun. assert (∀ e, e ≠ 0 → made X (swap_of me dpool) ms w e w) as He by (intros e ?; by split).
  destruct d; cbn in Hun; try (destruct Hun as [?|[? _]]; discriminate); try (by apply He).
  all: destruct Hun as [?|[_ Hun]]; [discriminate|]; unfold involved in Hun.
  all: unfold DeviceDataOp.DataCopy, CopyGH2GH, CopyGH2GD, CopyGD2GH, CopyGD2GD, global_to_global, keep_op, CopyRDMA.
  all: destruct (Z.eqb_spec (srcRankId o) (HostDataOp.rankId_ (o_dev ops))); [tauto|].
  all: destruct (Z.eqb_spec (destRankId o) (HostDataOp.rankId_ (o_dev ops))); [tauto|]; by apply He.
Qed.
Lemma dev_copy_made w j d o flags : able OpDevRdma d (ranks_of o) flags j → orderly (byte_plan (ranks_of o) j) (either X S) → still (mem w) X w →
  wp fabric_ok (fabric_step me) (snd <$> DeviceDataOp.DataCopy (o_dev ops) j d o) w (made X S (byte_plan (ranks_of o) j) w).
Proof.
  intros ((Hready & Hme & HS) & Hj & Hnf & Hnt) Ho Hs. set (ms := byte_plan (ranks_of o) j) in *. apply wp_seq.
  assert (orderly ms (either X (swap_of me dpool))) as Ho'.
  { eapply orderly_less; [exact Ho|]. intros l [?|?]; [by left|right; by apply HS]. }
  eapply (wp_mono _ _ _ _ (λ x w', made X (swap_of me dpool) ms w x.2 w')).
  - assert ((known d = true ∧ involved (o_dev ops) o) ∨ (known d = false ∨ both_global d = true ∧ ¬ involved (o_dev ops) o)) as [[Hk Hin]|Hun].
    { unfold involved. cbn in Hnf, Hnt. rewrite Hme. destruct (known d) eqn:Ek; [|tauto].
      destruct (decide (srcRankId o = me)) as [|Hne1]; [tauto|]. destruct (decide (destRankId o = me)) as [|Hne2]; [tauto|]. right. right. split; [|tauto].
      unfold known in Ek. destruct (from_local d); [by destruct Hne1; apply Hnf|]. destruct (to_local d); [by destruct Hne2; apply Hnt|]. done. }
    + assert (DeviceDataOpSpec.copy_plan (o_dev ops) d o j = ms) as Em.
      { unfold DeviceDataOpSpec.copy_plan, rank_to, rank_from, ms, byte_plan. rewrite Hme. cbn in *.
        destruct (from_local d), (to_local d); cbn in *; rewrite ?Hnf, ?Hnt by done; done. }
      subst me. eapply wp_mono; [apply (device_DataCopy_copied _ dpool dlive X w); try done; [by intros l ?%HS; apply HSX|by rewrite Em]|].
      intros x w'. rewrite Em. apply copied_made.
    + by apply dev_refuses.
  - intros x w' Hx. by eapply made_wider.
Qed.

Lemma sdma_copy_made w j d o flags : able OpSdma d (ranks_of o) flags j → orderly (byte_plan (ranks_of o) j) (either X S) → still (mem w) X w →
  wp sdma_ok (sdma_step T me) (SdmaDataOp.DataCopy (o_sdma ops) j d o flags) w (made X S (byte_plan (ranks_of o) j) w).
Proof.
  intros (HS & Hj & -> & Hfl & Hsz) Ho Hs. cbn in HS. eapply (wp_mono _ _ _ _ (made X T (byte_plan (me, me) j) w)); [|intros r w'; by apply made_wider].
  assert (∀ e, e ≠ 0 → made X T (byte_plan (me, me) j) w e w) as He by (intros e ?; by split).
  destruct (sdma_inited (o_sdma ops)) eqn:Ei; [|unfold SdmaDataOp.DataCopy; rewrite Ei; by apply He].
  destruct (sdma_known d) eqn:Ek.
  - eapply wp_mono; [apply (sdma_DataCopy_copied me X T _ j d o flags w); try done; [by intros l ?%HS; apply HSX|]|].
    + eapply orderly_less; [exact Ho|]. intros l [?|?]; [by left|right; by apply HS].
    + intros r w'. apply sdma_made.
  - unfold SdmaDataOp.DataCopy. rewrite Ei, Hfl. cbn [negb]. destruct d; try discriminate Ek; by apply He.
Qed.

(** The entries of a batch between the two ranks: what the operator finds their owners
    to be in its address spaces are those ranks; of two global ends one is the
    caller's, over host RDMA. *)
Definition found (k : Operator) (d : hybm_data_copy_direction) (ranks : Z * Z) (j : hybm_copy_params) : Prop :=
  let o := mkOptions ranks.1 ranks.2 0 in
  match k with
  | OpHostRdma => HostDataOpSpec.batch_to (o_host ops) (o_spaces ops) d o j = ranks.2 ∧
      HostDataOpSpec.batch_from (o_host ops) (o_spaces ops) d o j = ranks.1 ∧
      (d = HYBM_GLOBAL_HOST_TO_GLOBAL_HOST → ranks.1 = me ∨ ranks.2 = me)
  | OpDevRdma => batch_to (o_dev ops) (o_spaces ops) d o j = ranks.2 ∧ batch_from (o_dev ops) (o_spaces ops) d o j = ranks.1
  | OpSdma => True
  end.
Definition group_able (k : Operator) (d : hybm_data_copy_direction) (ranks : Z * Z) (j : hybm_copy_params) : Prop :=
  job_fits j ∧ dataSize j < 2 ^ 63 ∧ named me d ranks ∧ found k d ranks j.
Context (Horder : ∀ m, o_order ops m ≡ₚ map_to_list m) (Harrays : ∀ l, batch (o_arrays ops l) = l).

Lemma bind_same {A B} (f g : A → list B) l : (∀ a, a ∈ l → f a = g a) → l ≫= f = l ≫= g.
Proof.
  induction l as [|a l IH]; intros H; [done|]. rewrite !bind_cons, (H a), IH; [done| |by left]. intros b Hb. apply H. by right.
Qed.
Lemma host_batch_refuses w jobs d o ms : ready_op OpHostRdma →
  match d with
  | HYBM_LOCAL_HOST_TO_GLOBAL_HOST | HYBM_GLOBAL_HOST_TO_GLOBAL_HOST | HYBM_LOCAL_DEVICE_TO_GLOBAL_HOST
  | HYBM_GLOBAL_HOST_TO_LOCAL_HOST | HYBM_GLOBAL_HOST_TO_LOCAL_DEVICE => False
  | _ => True
  end → orderly ms (either X (swap_of me hpool)) → still (mem w) X w →
  wp fabric_ok (fabric_step me) (HostDataOp.BatchDataCopy (o_swap ops) (o_order ops) (o_host ops) (o_spaces ops) (o_arrays ops jobs) d o) w
    (λ x w', made X (swap_of me hpool) ms w x.2 w').
Proof.
  intros (Hready & <- & _) Hun Ho Hs. eapply wp_mono; [|intros x w'; by apply (copied_made _ _ _ True)].
  apply (does_copied _ _ _ _ (swap_of (HostDataOp.rankId_ (o_host ops)) hpool)); [done| |done].
  set (Y l := X l ∨ swap_of (HostDataOp.rankId_ (o_host ops)) hpool l ∨ l ∈ ms.*1).
  assert (∀ l, X l → Y l) as HXY by (intros l ?; by left).
  assert (does_op (o_host ops) X Y True (swap_of (HostDataOp.rankId_ (o_host ops)) hpool) ms (Ret (o_host ops, BM_INVALID_PARAM))) as Hr.
  { intros w0 Hw0. split; [done|]. split_and!; [by eapply still_widen|done|by right]. }
  unfold HostDataOp.BatchDataCopy. rewrite (rd_inited _ _ _ _ Hready). cbn [negb].
  apply (does_around (o_host ops) X Y _ HXY _ _ _ _ (λ op ret, _ ← BatchUnRegisterLocalMr op (o_arrays ops jobs) d; Ret (op, ret))).
  - by eapply orderly_none.
  - apply BatchPreRegister_passes.
  - by destruct d.
  - intros ret w' Q HQ. apply wp_seq, BatchUnRegister_passes; [apply Hready|]. intros a w1 A1. by apply HQ.
Qed.
Lemma host_batch_made w jobs d o : ready_op OpHostRdma → jobs ≠ [] → Forall (group_able OpHostRdma d (ranks_of o)) jobs →
  orderly (jobs ≫= byte_plan (ranks_of o)) (either X S) → still (mem w) X w →
  wp fabric_ok (fabric_step me) (snd <$> HostDataOp.BatchDataCopy (o_swap ops) (o_order ops) (o_host ops) (o_spaces ops) (o_arrays ops jobs) d o) w
    (made X S (jobs ≫= byte_plan (ranks_of o)) w).
Proof.
  intros Hready Hne Hj Ho Hs. set (ms := jobs ≫= byte_plan (ranks_of o)) in *. apply wp_seq.
  pose proof Hready as (Hr & Hme & HS). rewrite Forall_forall in Hj.
  assert (orderly ms (either X (swap_of me hpool))) as Ho'.
  { eapply orderly_less; [exact Ho|]. intros l [?|?]; [by left|right; by apply HS]. }
  eapply (wp_mono _ _ _ _ (λ x w', made X (swap_of me hpool) ms w x.2 w')); [|intros x w' Hx; by eapply made_wider].
  assert (∃ j, j ∈ jobs) as [j0 Hj0] by (destruct jobs as [|j l]; [done|exists j; by left]).
  destruct (Hj j0 Hj0) as (_ & _ & (Hnf & Hnt) & _ & _ & Hgg).
  assert (HostDataOpSpec.batch_plan (o_host ops) (o_spaces ops) d o (batch (o_arrays ops jobs)) = ms) as Em.
  { rewrite Harrays. apply bind_same. intros j (_ & _ & _ & E1 & E2 & _)%Hj. 
    transitivity (moves (HostDataOpSpec.batch_to (o_host ops) (o_spaces ops) d (mkOptions (ranks_of o).1 (ranks_of o).2 0) j, dest j)
      (HostDataOpSpec.batch_from (o_host ops) (o_spaces ops) d (mkOptions (ranks_of o).1 (ranks_of o).2 0) j, src j) (dataSize j)); [by destruct d|].
    by rewrite E1, E2. }
  destruct d; try (apply host_batch_refuses; done).
  all: pose proof (BatchDataCopy_copied (o_swap ops) (o_host ops) hpool hlive X w (o_order ops) (o_spaces ops) (o_arrays ops jobs)) as Hw.
  all: match goal with |- wp _ _ (HostDataOp.BatchDataCopy _ _ _ _ _ ?d ?o) _ _ => specialize (Hw d o) end; rewrite Hme, Em in Hw.
  all: eapply wp_mono; [apply Hw; try done|intros x w' Hc%copied_made; by rewrite Hme in Hc].
  all: try (rewrite Harrays; apply Forall_forall; intros j (Hf & ? & _)%Hj; destruct Hf; done).
  all: try (by intros l ?%HS; apply HSX).
  all: cbn in *; rewrite ?Hme; auto.
Qed.
Lemma dev_batch_made w jobs d o : ready_op OpDevRdma → jobs ≠ [] → Forall (group_able OpDevRdma d (ranks_of o)) jobs →
  orderly (jobs ≫= byte_plan (ranks_of o)) (either X S) → still (mem w) X w →
  wp fabric_ok (fabric_step me) (snd <$> DeviceDataOp.BatchDataCopy (o_order ops) (o_dev ops) (o_spaces ops) jobs d o) w
    (made X S (jobs ≫= byte_plan (ranks_of o)) w).
Proof.
  intros (Hr & Hme & HS) Hne Hj Ho Hs. set (ms := jobs ≫= byte_plan (ranks_of o)) in *. apply wp_seq. rewrite Forall_forall in Hj.
  assert (orderly ms (either X (swap_of me dpool))) as Ho'.
  { eapply orderly_less; [exact Ho|]. intros l [?|?]; [by left|right; by apply HS]. }
  eapply (wp_mono _ _ _ _ (λ x w', made X (swap_of me dpool) ms w x.2 w')); [|intros x w' Hx; by eapply made_wider].
  assert (∃ j, j ∈ jobs) as [j0 Hj0] by (destruct jobs as [|j l]; [done|exists j; by left]).
  destruct (Hj j0 Hj0) as (_ & _ & (Hnf & Hnt) & _). cbn in Hnf, Hnt.
  assert (batch_plan (o_dev ops) (o_spaces ops) d o jobs = ms) as Em.
  { apply bind_same. intros j (_ & _ & _ & E1 & E2)%Hj.
    transitivity (moves (batch_to (o_dev ops) (o_spaces ops) d (mkOptions (ranks_of o).1 (ranks_of o).2 0) j, dest j)
      (batch_from (o_dev ops) (o_spaces ops) d (mkOptions (ranks_of o).1 (ranks_of o).2 0) j, src j) (dataSize j)); [by destruct d|].
    by rewrite E1, E2. }
  destruct (known d) eqn:Ek; [|destruct d; try discriminate Ek; by split].
  pose proof (device_BatchDataCopy_copied (o_dev ops) dpool dlive X w (o_order ops) (o_spaces ops) jobs d o) as Hw. rewrite Hme, Em in Hw.
  eapply wp_mono; [apply Hw; try done|intros x w' Hc%copied_made; by rewrite Hme in Hc].
  - split_and!; rewrite ?Hme; done.
  - apply Forall_forall. intros j (Hf & _)%Hj. exact Hf.
  - by intros l ?%HS; apply HSX.
Qed.
Lemma sdma_batch_made w jobs d o flags : ready_op OpSdma → has_flag flags ASYNC_COPY_FLAG = false → Forall job_fits jobs →
  sdma_lengths d flags jobs →
  orderly (jobs ≫= byte_plan (me, me)) (either X S) → still (mem w) X w →
  wp sdma_ok (sdma_step T me) (snd <$> SdmaDataOp.BatchDataCopy (o_sdma ops) jobs d o flags) w (made X S (jobs ≫= byte_plan (me, me)) w).
Proof.
  intros HS Hfl Hj Hsz Ho Hs. apply wp_seq. cbn in HS. eapply wp_mono; [apply (sdma_BatchDataCopy_copied me X T (o_sdma ops) jobs d o flags w); try done|].
  - by intros l ?%HS; apply HSX.
  - eapply orderly_less; [exact Ho|]. intros l [?|?]; [by left|right; by apply HS].
  - intros x w' Hx. eapply made_wider; [exact HS|]. by apply sdma_made.
Qed.

(** ** The world of the composed operator

    A call of an operator is a run of its program over the fabric.  The flag of the
    world tells that an operator has failed and left part of a copy under way; the
    objects of the operators are as before after a call that finds nothing left
    ([HostDataOpSpec.copied]), and nothing is claimed of one that does. *)
Definition code_of (c : OCall) : option (Operator * prog Z) :=
  match c with
  | ODataCopy OpSdma j d o => Some (OpSdma, SdmaDataOp.DataCopy (o_sdma ops) j d (ext o) (flags o))
  | ODataCopy OpDevRdma j d o => Some (OpDevRdma, snd <$> DeviceDataOp.DataCopy (o_dev ops) j d (ext o))
  | ODataCopy OpHostRdma j d o => Some (OpHostRdma, snd <$> HostDataOp.DataCopy (o_swap ops) (o_host ops) j d (ext o))
  | OBatchDataCopy OpSdma jobs d o => Some (OpSdma, snd <$> SdmaDataOp.BatchDataCopy (o_sdma ops) jobs d (ext o) (flags o))
  | OBatchDataCopy OpDevRdma jobs d o =>
      Some (OpDevRdma, snd <$> DeviceDataOp.BatchDataCopy (o_order ops) (o_dev ops) (o_spaces ops) jobs d (ext o))
  | OBatchDataCopy OpHostRdma jobs d o =>
      Some (OpHostRdma, snd <$> HostDataOp.BatchDataCopy (o_swap ops) (o_order ops) (o_host ops) (o_spaces ops) (o_arrays ops jobs) d (ext o))
  | _ => None
  end.
Definition cwp (k : Operator) (p : prog Z) (w : World) (Q : Z → World → Prop) : Prop :=
  match k with OpSdma => wp sdma_ok (sdma_step T me) p w Q | _ => wp fabric_ok (fabric_step me) p w Q end.
Definition cleads (k : Operator) (p : prog Z) (w : World) (r : Z) (w' : World) : Prop :=
  match k with OpSdma => leads (sdma_step T me) p w r w' | _ => leads (fabric_step me) p w r w' end.
Lemma cwp_leads k p w Q r w' : cwp k p w Q → cleads k p w r w' → Q r w'.
Proof. destruct k; apply wp_leads. Qed.
Lemma cwp_mono k p w (Q R : Z → World → Prop) : cwp k p w Q → (∀ r w', Q r w' → R r w') → cwp k p w R.
Proof. destruct k; apply wp_mono. Qed.

(** Only copies are asked for, and while nothing is left under way the program of the
    operator does nothing undefined. *)
Definition ook (x : World * bool) (c : OCall) : Prop :=
  ∃ k p, code_of c = Some (k, p) ∧ (x.2 = false → cwp k p x.1 (λ _ _, True)).
Definition ostep (x : World * bool) (c : OCall) (x' : World * bool) (r : Z) : Prop :=
  ∃ k p, code_of c = Some (k, p) ∧ cleads k p x.1 r x'.1 ∧
    if x'.2 then x.2 = true ∨ (r ≠ 0 ∧ ¬ still (mem x'.1) X x'.1) else x.2 = false ∧ (r ≠ 0 → still (mem x'.1) X x'.1).
Abbreviation owp p x Q := (wp ook ostep p x Q).
Definition settled (x : World * bool) : Prop := x.2 = false → still (mem x.1) X x.1.
(** What a copy leaves, unless something is left under way. *)
Definition leaves (ms : list Move) (x : World * bool) (r : Z) (x' : World * bool) : Prop :=
  x'.2 = false → x.2 = false ∧ tidy X S ms x.1 x'.1 r.
Lemma leaves_settled ms x r x' : leaves ms x r x' → settled x'.
Proof. intros Hl E. by destruct (Hl E) as [_ [Hs _ _]]. Qed.

Lemma copy_call ms c k p x : code_of c = Some (k, p) → settled x → (∀ w, still (mem w) X w → cwp k p w (made X S ms w)) →
  owp (ocall c) x (leaves ms x).
Proof.
  intros Hc Hs Hp. split.
  - exists k, p. split; [done|]. intros E. eapply cwp_mono; [by apply Hp, Hs|done].
  - intros x' r (k' & p' & Hc' & Hl & Hb). simplify_eq. intros E. rewrite E in Hb. destruct Hb as [E0 Hst]. split; [done|].
    apply made_tidy; [|done]. eapply cwp_leads; [apply Hp, Hs, E0|exact Hl].
Qed.

(** Attempts of one copy. *)
Lemma first_success_wp ms try l result x0 x : orderly ms (either X S) → result ≠ 0 → l ≠ [] ∨ leaves ms x0 result x →
  (∀ x result op, op ∈ l → result ≠ 0 → settled x → owp (try result op) x (leaves ms x)) →
  settled x → x0 = x ∨ leaves ms x0 result x → owp (first_success try l result) x (leaves ms x0).
Proof.
  intros Ho. revert result x. induction l as [|op l IH]; intros result x Hr Hne Htry Hs Hx; cbn [first_success].
  { by destruct Hne as [?|Ht]. }
  apply wp_seq. eapply wp_mono; [apply Htry; [by left|done..]|]. intros r x1 Hl.
  assert (leaves ms x0 r x1) as H01.
  { destruct Hx as [-> |Hx]; [done|]. intros E1. destruct (Hl E1) as [E Ht]. destruct (Hx E) as [E0 Ht0]. split; [done|]. by eapply tidy_again. }
  unfold BM_OK. destruct (Z.eqb_spec r 0) as [-> |Hr1]; [done|].
  apply IH; [done|by right| |by eapply leaves_settled|by right]. intros. apply Htry; [by right|done..].
Qed.
Lemma with_operators_wp ms c tags o try x : orderly ms (either X S) → settled x →
  (∀ x result op, op ∈ GetPrioritedDataOperators c tags (ext o) → result ≠ 0 → settled x → owp (try result op) x (leaves ms x)) →
  owp (with_operators c tags o try) x (leaves ms x).
Proof.
  intros Ho Hs Htry. unfold with_operators. destruct (GetPrioritedDataOperators c tags (ext o)) as [|op l] eqn:E.
  { intros Ex. split; [done|]. apply tidy_none; [by apply Hs|by left]. }
  apply first_success_wp; [done|done|by left| |done|by left]. intros. apply Htry; [by rewrite <- E in *|done..].
Qed.

(** A copy through the composed operator, whose ends and scratch memory do not
    overlap and which every operator the tags allow can make or refuses: success
    means that the bytes are where they should be, although operators of higher
    priority may have been tried before, and nothing else is written, as long as no
    operator that failed has left part of the copy under way. *)
Theorem compose_copy_exact c tags j d o x :
  (∀ op, op ∈ GetPrioritedDataOperators c tags (ext o) → able op.2 d (ranks_of (ext o)) (flags o) j) →
  orderly (byte_plan (ranks_of (ext o)) j) (either X S) → settled x →
  owp (DataCopy c tags j d o) x (leaves (byte_plan (ranks_of (ext o)) j) x).
Proof.
  intros Hable Ho Hs. apply with_operators_wp; [done..|]. intros x1 result [type k] Hop Hr Hs1. specialize (Hable _ Hop). cbn [snd] in *.
  destruct k; (eapply copy_call; [done|done|]; intros w Hw); [by apply sdma_copy_made|by eapply dev_copy_made|by eapply host_copy_made].
Qed.

(** *** Batches *)
Definition of_group (jobs : list hybm_copy_params) (g : Z * Z * list nat) : list Move :=
  g.2 ≫= λ i, match jobs !! i with Some j => byte_plan g.1 j | None => [] end.
Definition of_groups (jobs : list hybm_copy_params) (gs : list (Z * Z * list nat)) : list Move := gs ≫= of_group jobs.
(** The entries of the groups are there. *)
Definition indexed (jobs : list hybm_copy_params) (gs : list (Z * Z * list nat)) : Prop :=
  Forall (λ g, g.2 ≠ [] ∧ Forall (λ i, is_Some (jobs !! i)) g.2) gs.
Lemma group_taken jobs (p2p : Z * Z) ixs group : mapM (λ i, jobs !! i) ixs = Some group → group ≫= byte_plan p2p = of_group jobs (p2p, ixs).
Proof.
  intros Hg%mapM_Some_1. unfold of_group. cbn [fst snd]. induction Hg as [|i j ixs group Hj Hg IH]; [done|].
  rewrite !bind_cons, Hj. by f_equal.
Qed.
(** The conditions of a batch over each operator, as of one copy; over SDMA all
    entries lie at the caller's rank, and those joined into tasks are below 4 GiB in
    all. *)
Definition batch_able (k : Operator) (d : hybm_data_copy_direction) (o : CopyOptions) (jobs : list hybm_copy_params) : Prop :=
  ready_op k ∧
  match k with
  | OpSdma => has_flag (flags o) ASYNC_COPY_FLAG = false ∧ Forall job_fits jobs ∧
      sdma_lengths d (flags o) jobs ∧
      of_groups jobs (groupMap o) ≡ₚ jobs ≫= byte_plan (me, me)
  | _ => Forall (λ g, ∀ i j, i ∈ g.2 → jobs !! i = Some j → group_able k d g.1 j) (groupMap o)
  end.
Lemma copy_groups_wp k jobs d o gs result x : k ≠ OpSdma → ready_op k → indexed jobs gs →
  Forall (λ g, ∀ i j, i ∈ g.2 → jobs !! i = Some j → group_able k d g.1 j) gs →
  orderly (of_groups jobs gs) (either X S) → settled x →
  owp (copy_groups k jobs d o gs result) x (leaves (of_groups jobs gs) x).
Proof.
  intros Hk Hready Hix. revert result x. induction Hix as [|[p2p ixs] gs [Hgne Hg] Hix IH]; intros result x Hable Ho Hs; cbn [copy_groups].
  { intros Ex. split; [done|]. apply tidy_none; [by apply Hs|by right]. }
  apply Forall_cons in Hable as [Hab Hable]. unfold of_groups in *. rewrite bind_cons in *.
  destruct (mapM_is_Some_2 (λ i, jobs !! i) ixs Hg) as [group Em]. rewrite Em. apply wp_seq.
  set (o' := mkOptions p2p.1 p2p.2 (stream (ext o))). set (ms := of_group jobs (p2p, ixs)) in *.
  pose proof (orderly_app_l _ _ _ Ho) as Ho1.
  assert (ms = group ≫= byte_plan (ranks_of o')) as Ems by (unfold ranks_of, o'; cbn; rewrite <- surjective_pairing; symmetry; by apply group_taken).
  assert (Forall (group_able k d (ranks_of o')) group) as Hgr.
  { apply Forall_forall. intros j Hj. unfold ranks_of, o'. cbn. rewrite <- surjective_pairing. apply mapM_Some_1 in Em.
    apply list_elem_of_lookup_1 in Hj as [n Hn]. destruct (Forall2_lookup_r _ _ _ _ _ Em Hn) as (i & Hi & Hji). apply (Hab i); [by eapply list_elem_of_lookup_2|done]. }
  assert (group ≠ []) as Hgne' by (intros ->; apply mapM_Some_1, Forall2_nil_inv_r in Em; done).
  eapply wp_mono.
  { apply (copy_call ms _ k (default (Ret 0) (snd <$> code_of (OBatchDataCopy k group d (mkCopyOptions o' (flags o) [])))) x); [by destruct k|done|].
    intros w Hw. rewrite Ems in *. destruct k; [done|by apply dev_batch_made|by apply host_batch_made]. }
  intros r x1 Hl. cbn. unfold BM_OK. destruct (Z.eqb_spec r 0) as [-> |Hr]; cbn [negb].
  - eapply wp_mono; [apply IH; [done|by eapply orderly_app_r|by eapply leaves_settled]|]. intros r2 x2 Hl2 E2.
    destruct (Hl2 E2) as [E1 Ht2], (Hl E1) as [E0 Ht1]. split; [done|]. by eapply tidy_app.
  - intros E1. destruct (Hl E1) as [E0 Ht]. split; [done|]. by apply tidy_part.
Qed.
Lemma priorited_sdma c tags o type k : (type, k) ∈ GetPrioritedDataOperators c tags o → type = HYBM_DOP_TYPE_SDMA ↔ k = OpSdma.
Proof.
  unfold GetPrioritedDataOperators. rewrite !elem_of_app.
  intros [H|[H|[H|[H|H]]]]; destruct (_ && _) in H; apply list_elem_of_singleton in H || apply not_elem_of_nil in H; simplify_eq; done.
Qed.
(** A batch through the composed operator, grouped by the ranks of its entries, which
    every operator the tags allow can make or refuses: success means that every group
    has been copied between its ranks, by one operator, and nothing else is written,
    as long as no operator that failed has left part of the batch under way. *)
Theorem compose_batch_exact c tags jobs d o x :
  (∀ op, op ∈ GetPrioritedDataOperators c tags (ext o) → batch_able op.2 d o jobs) →
  indexed jobs (groupMap o) → orderly (of_groups jobs (groupMap o)) (either X S) → settled x →
  owp (BatchDataCopy c tags jobs d o) x (leaves (of_groups jobs (groupMap o)) x).
Proof.
  intros Hable Hix Ho Hs. apply with_operators_wp; [done..|]. intros x1 result [type k] Hop Hr Hs1. specialize (Hable _ Hop). cbn [fst snd] in *.
  pose proof (priorited_sdma _ _ _ _ _ Hop) as Hk. destruct Hable as [Hready Hable].
  destruct (Z.eqb_spec type HYBM_DOP_TYPE_SDMA) as [E|E].
  - rewrite (proj1 Hk E) in *. destruct Hable as (Hfl & Hj & Hsz & Hperm). eapply copy_call; [done|done|]. intros w Hw.
    eapply cwp_mono; [apply sdma_batch_made; try done; by eapply orderly_perm|]. intros r w' [Hf Hm]. split.
    + intros l HX HS Hn. apply Hf; try done. by rewrite <- Hperm.
    + intros Hr'. destruct (Hm Hr') as [Hm1 Hm2]. split; [|done]. intros d' s' Hin. apply Hm1. by rewrite <- Hperm.
  - apply copy_groups_wp; try done; [tauto|]. by destruct k; [tauto|..].
Qed.
End Operators.

(** ** Choosing *)

(** The operators of a batch are chosen by the ranks of its options, not by those of
    its groups. *)
Theorem compose_batch_untagged c tags jobs d o : rankTagInfo_ tags !! srcRankId (ext o) = None →
  BatchDataCopy c tags jobs d o = Ret BM_INVALID_PARAM.
Proof.
  intros Hn. unfold BatchDataCopy, with_operators, GetPrioritedDataOperators, GetRank2RankOpType. rewrite Hn.
  unfold allows. cbn. by rewrite !andb_false_r.
Qed.
(** Without an operator over SDMA, a batch without groups fails. *)
Theorem compose_batch_empty c tags jobs d o : sdmaDataOperator_ c = false → groupMap o = [] →
  ∃ r, BatchDataCopy c tags jobs d o = Ret r ∧ r ≠ BM_OK.
Proof.
  intros Hs Hg. unfold BatchDataCopy, with_operators, GetPrioritedDataOperators. rewrite Hs, Hg. cbn [andb app].
  destruct (devRdmaDataOperator_ c && _), (hostRdmaDataOperator_ c); cbn [andb app];
    repeat match goal with |- context [allows ?x ?y] => destruct (allows x y) end; cbn; eexists; (split; [reflexivity|done]).
Qed.

(** ** Runs

    The operator over host RDMA copies at once; every call of the others fails. *)
Definition failing (me : Z) (w : World) (c : Call) : World * Z :=
  match effect me c with EPass => (w, -1) | EStop _ => (fail (settle w), -1) | _ => (fail w, -1) end.
Lemma failing_step me w c : fabric_step me w c (failing me w c).1 (failing me w c).2.
Proof.
  unfold fabric_step, failing. destruct (effect me c) as [t ms|ms|t|]; cbn.
  - right. split; [done|]. exists w, [], w. split_and!; [done|by intros mv ?%not_elem_of_nil| |done]. destruct w. unfold post. cbn. by rewrite app_nil_r.
  - by apply (stops_none ms w (-1)).
  - exists w. split; [done|]. by right.
  - done.
Qed.
Lemma failing_flights me w c : flights w = [] → flights (failing me w c).1 = [].
Proof. intros H. unfold failing. by destruct (effect me c). Qed.
Lemma at_once_flights me w c : flights w = [] → flights (at_once me w c).1 = [].
Proof. intros H. unfold at_once. rewrite H. by destruct (effect me c). Qed.
Lemma no_flights_still w : flights w = [] → still (mem w) none w.
Proof. intros H. split; [intros f; by rewrite H, elem_of_nil|done|by intros ? ? ?%not_elem_of_nil]. Qed.

Definition demo_dpool : RbtreeRangePool := pool_create 0x80000000 swapSize.
Definition demo_dev : DataOpDeviceRDMA := mkOp true 0 0x80000000 true (Some demo_dpool).
Definition demo_hpool : RbtreeRangePool := pool_create 0x100000 HostDataOp.RDMA_SWAP_SPACE_SIZE.
Definition demo_ops : Operators :=
  mkOperators HostDataOp.RDMA_SWAP_SPACE_SIZE demo_op demo_dev demo_sdma map_to_list [] (mkBatch 0x500 0x600).
Definition demo_scratch : Loc → Prop := swap_of 0 (pool_create 0x100000 0x90000000).
Definition demo_env (k : Operator) : World → Call → World * Z := match k with OpHostRdma => at_once 0 | _ => failing 0 end.
Definition demo_operators (x : World * bool) (c : OCall) : World * bool * Z :=
  match code_of demo_ops c with
  | Some (k, p) => let y := run (demo_env k) p x.1 in (y.1, x.2, y.2)
  | None => (x, -1)
  end.
Definition at_rest (x : World * bool) : Prop := flights x.1 = [] ∧ x.2 = false.
Lemma demo_env_leads k p w Q : flights w = [] → cwp 0 none k p w Q →
  cleads 0 none k p w (run (demo_env k) p w).2 (run (demo_env k) p w).1 ∧ flights (run (demo_env k) p w).1 = [].
Proof.
  intros Hw. destruct k; cbn [cwp cleads demo_env]; intros Hp.
  - eapply (wp_run_leads _ _ (λ w, flights w = [])); [|done|exact Hp]. intros w0 c H0 _. split; [|by apply failing_flights].
    split; [apply failing_step|]. unfold failing. by destruct c.
  - eapply (wp_run_leads _ _ (λ w, flights w = [])); [|done|exact Hp]. intros w0 c H0 _. split; [apply failing_step|by apply failing_flights].
  - eapply (wp_run_leads _ _ (λ w, flights w = [])); [|done|exact Hp]. intros w0 c H0 Hc. split; [by apply at_once_step|by apply at_once_flights].
Qed.
Lemma demo_operators_step x c : at_rest x → ook 0 none demo_ops x c →
  ostep 0 none none demo_ops x c (demo_operators x c).1 (demo_operators x c).2 ∧ at_rest (demo_operators x c).1.
Proof.
  intros [Hw Hx] (k & p & Hc & Hp). specialize (Hp Hx). destruct (demo_env_leads k p x.1 _ Hw Hp) as [Hl Hf].
  unfold demo_operators. rewrite Hc. cbn. split; [|done]. exists k, p. split; [done|]. split; [exact Hl|]. cbn. rewrite Hx. split; [done|].
  intros _. by apply no_flights_still.
Qed.
Lemma demo_ready_op k : k ≠ OpSdma → ready_op 0 demo_scratch none demo_ops demo_hpool demo_dpool ∅ ∅ k.
Proof.
  destruct k; [done|..]; intros _; cbn; (split; [|split; [done|]]).
  - split; [done..|]. by apply pool_create_inv.
  - intros l [? ?]. unfold demo_scratch, swap_of, demo_dpool, demo_hpool, RDMA_SWAP_SPACE_SIZE, HostDataOp.RDMA_SWAP_SPACE_SIZE in *. cbn in *. lia.
  - apply demo_ready.
  - intros l [? ?]. unfold demo_scratch, swap_of, demo_dpool, demo_hpool, RDMA_SWAP_SPACE_SIZE, HostDataOp.RDMA_SWAP_SPACE_SIZE in *. cbn in *. lia.
Qed.
Definition demo_fits (j : hybm_copy_params) : Prop :=
  (0 ≤ dataSize j ∧ dataSize j < 2 ^ 63) ∧ (0 ≤ src j ∧ src j + dataSize j < 2 ^ 64) ∧ 0 ≤ dest j ∧ dest j + dataSize j < 2 ^ 64.
#[global] Instance demo_fits_dec j : Decision (demo_fits j).
Proof. unfold demo_fits. apply _. Defined.
Lemma demo_group_able k ranks j : k ≠ OpSdma → ranks.1 = 0 → demo_fits j → group_able 0 demo_ops k HYBM_LOCAL_HOST_TO_GLOBAL_HOST ranks j.
Proof.
  intros Hk Hr Hj. unfold demo_fits in Hj. split; [unfold job_fits, fits; lia|]. split; [lia|]. split; [split; [done|discriminate]|]. destruct k; [done| |]; cbn; by rewrite Hr.
Qed.
Lemma nothing_else l : demo_scratch l → ¬ none l.
Proof. by intros _ []. Qed.

Definition demo_tags : HybmEntityTagInfo := (TagInfoInit (mkTags {[1 := bytes_of_str "b"%string]} ∅) 0 (bytes_of_str "a"%string) (bytes_of_str "a:DEVICE_RDMA:b,a:HOST_RDMA:b"%string)).1.
Definition demo_compose : HostComposeDataOp := mkComposeOp 1 0 false true true.
Definition demo_options : CopyOptions := mkCopyOptions (mkOptions 0 1 0) 0 [((0, 1), [0%nat; 2%nat]); ((0, 2), [1%nat])].
Lemma demo_no_sdma tags o op : op ∈ GetPrioritedDataOperators demo_compose tags o → op.2 ≠ OpSdma.
Proof.
  unfold GetPrioritedDataOperators. cbn [demo_compose sdmaDataOperator_ andb app]. rewrite !elem_of_app.
  intros [H|[H|[H|H]]]; destruct (_ && _) in H; apply list_elem_of_singleton in H || apply not_elem_of_nil in H; by subst op || done.
Qed.
Lemma compose_copy_exact_witness : let x := run demo_operators
    (DataCopy demo_compose demo_tags (mkParams 10 20 3) HYBM_LOCAL_HOST_TO_GLOBAL_HOST demo_options) (demo_world, false) in
  x.2 = BM_OK ∧ mem x.1.1 (1, 21) = mem demo_world (0, 11) ∧ failed x.1.1 = true.
Proof.
  pose proof (compose_copy_exact 0 none demo_scratch none demo_ops demo_hpool demo_dpool ∅ ∅ nothing_else
    demo_compose demo_tags (mkParams 10 20 3) HYBM_LOCAL_HOST_TO_GLOBAL_HOST demo_options (demo_world, false)) as Hw.
  apply (wp_run_inv _ _ at_rest demo_operators _ _ _ demo_operators_step) in Hw; [|exact (conj eq_refl eq_refl)|..].
  - assert (∀ P Q R : Prop, P ∧ R ∧ (P → Q) → P ∧ Q ∧ R) as Hand by tauto. apply Hand.
    split; [vm_compute; reflexivity|]. split; [vm_compute; reflexivity|]. intros Hret.
    destruct Hw as [_ Ht]; [vm_compute; reflexivity|]. apply (ti_moved _ _ _ _ _ _ Ht Hret (1, 21) (0, 11)). apply elem_of_moves. exists 1. split_and!; reflexivity || lia.
  - intros op Hop%demo_no_sdma. split; [by apply demo_ready_op|]. split; [vm_compute; intuition discriminate|]. destruct op as [type []]; [by destruct Hop|split; [reflexivity|discriminate]..].
  - apply orderly_for_ok. apply (bool_decide_unpack _). vm_compute. exact I.
  - intros _. exact demo_still.
Defined.
Definition demo_jobs : list hybm_copy_params := [mkParams 10 20 3; mkParams 13 20 2; mkParams 15 23 2].
Lemma compose_batch_exact_witness : let x := run demo_operators
    (BatchDataCopy demo_compose demo_tags demo_jobs HYBM_LOCAL_HOST_TO_GLOBAL_HOST demo_options) (demo_world, false) in
  x.2 = BM_OK ∧ mem x.1.1 (2, 21) = mem demo_world (0, 14).
Proof.
  pose proof (compose_batch_exact 0 none demo_scratch none demo_ops demo_hpool demo_dpool ∅ ∅ nothing_else ltac:(done) ltac:(done)
    demo_compose demo_tags demo_jobs HYBM_LOCAL_HOST_TO_GLOBAL_HOST demo_options (demo_world, false)) as Hw.
  apply (wp_run_inv _ _ at_rest demo_operators _ _ _ demo_operators_step) in Hw; [|exact (conj eq_refl eq_refl)|..].
  - assert (∀ P Q : Prop, P ∧ (P → Q) → P ∧ Q) as Hand by tauto. apply Hand. split; [vm_compute; reflexivity|]. intros Hret.
    destruct Hw as [_ Ht]; [vm_compute; reflexivity|]. apply (ti_moved _ _ _ _ _ _ Ht Hret (2, 21) (0, 14)). apply (bool_decide_unpack _). vm_compute. exact I.
  - intros op Hop%demo_no_sdma. split; [by apply demo_ready_op|].
    assert (Forall (λ g, ∀ i j, i ∈ g.2 → demo_jobs !! i = Some j → group_able 0 demo_ops op.2 HYBM_LOCAL_HOST_TO_GLOBAL_HOST g.1 j) (groupMap demo_options)) as H; [|destruct op as [type []]; [by destruct Hop|exact H..]].
    apply Forall_forall. intros g Hg i j _ Hj. apply demo_group_able; [done| |].
    + revert g Hg. apply Forall_forall. by repeat constructor.
    + apply list_elem_of_lookup_2 in Hj. revert j Hj. apply Forall_forall. apply (bool_decide_unpack _). vm_compute. exact I.
  - repeat constructor; try done; by eexists.
  - apply orderly_for_ok. apply (bool_decide_unpack _). vm_compute. exact I.
  - intros _. exact demo_still.
Defined.
