(* ===== verification/Entity.v ===== *)
(** * The entity (entity/hybm_entity_default)

    The object behind a handle of the big-memory interface: it owns the segments
    for host and device memory, the transport manager, the data operator and the
    tags of the ranks, and orders the calls to them.

    A method is a program over the methods of these parts and of the device
    runtime; a part is there or not ([bool]), its state belongs to it.  The tag
    manager, which transport and operator share, is plain data here.  [EUndefined]
    is a call through a null pointer, a character array without an end or an access
    behind one.  Methods that take the import mutex are called by one thread at a
    time. *)
From Stdlib Require Import Strings.Byte Strings.String.
From stdpp Require Import base numbers list gmap.
From S2P Require Import Prelude RangePool VaManager MemSlice StrUtil HostDataOp HcomHelper TagInfo HcomTransport ComposeDataOp.
Local Open Scope Z_scope.
Local Open Scope mf_scope.

(** ** Constants *)
Definition TB : Z := 2 ^ 40.
Definition LARGE_PAGE_SIZE : Z := 2 * 1024 * 1024.
Definition HYBM_ENTITY_NUM_MAX : Z := 511.
Definition HYBM_DEVICE_VA_START : Z := 0x100000000000.
Definition HYBM_DEVICE_VA_SIZE : Z := 0x80000000000.
Definition HYBM_HBM_START_ADDR : Z := HYBM_DEVICE_VA_START.
Definition HYBM_HBM_END_ADDR : Z := HYBM_DEVICE_VA_START + HYBM_DEVICE_VA_SIZE.
Definition SVM_END_ADDR : Z := HYBM_DEVICE_VA_START + HYBM_DEVICE_VA_SIZE - 2 ^ 30.
Definition HYBM_DEVICE_PRE_META_SIZE : Z := 128.
Definition HYBM_DEVICE_GLOBAL_META_SIZE : Z := HYBM_DEVICE_PRE_META_SIZE.
Definition HYBM_DEVICE_META_SIZE : Z := HYBM_DEVICE_PRE_META_SIZE * HYBM_ENTITY_NUM_MAX + HYBM_DEVICE_GLOBAL_META_SIZE.
Definition HYBM_DEVICE_USER_CONTEXT_PRE_SIZE : Z := 64 * 1024.
Definition HYBM_DEVICE_INFO_SIZE : Z := HYBM_DEVICE_USER_CONTEXT_PRE_SIZE * HYBM_ENTITY_NUM_MAX + HYBM_DEVICE_META_SIZE.
Definition HYBM_DEVICE_META_ADDR : Z := SVM_END_ADDR - HYBM_DEVICE_INFO_SIZE.
Definition HYBM_DEVICE_USER_CONTEXT_ADDR : Z := HYBM_DEVICE_META_ADDR + HYBM_DEVICE_META_SIZE.
Definition ENTITY_EXPORT_INFO_MAGIC : Z := 0xAABB1234FFFFEE00.
Definition HBM_SLICE_EXPORT_INFO_MAGIC : Z := 0xAABB1234FFFFEE01.
Definition DRAM_SLICE_MAGIC : Z := 0xAABB1234FFFFEE02.
Definition VMM_BASE_DRAM_SLICE_EXPORT_INFO_MAGIC : Z := 0xAABB1234FFFFEE04.
Definition INFO_VERSION : Z := 1.
Definition IsDramSlice (magic : Z) : bool := (magic =? DRAM_SLICE_MAGIC) || (magic =? VMM_BASE_DRAM_SLICE_EXPORT_INFO_MAGIC).
Definition Valid48BitsAddress (address : Z) : Z := Z.land address 0xffffffffffff.
Definition HYBM_FLAG_EXPORT_ENTITY : Z := 1.
Definition HYBM_FLAG_CREATE_WITH_SHM : Z := 2 ^ 8.
Definition HYBM_SCENE_TRANS : Z := 2 ^ 1.
Definition HYBM_ROLE_PEER : Z := 0.
Definition REG_MR_FLAG_HBM : Z := 2.
Definition BM_NOT_SUPPORTED : Z := -100.

(** ** What is exchanged between ranks *)
Record EntityExportInfo := mkExport { x_magic : Z; x_version : Z; x_rankId : Z; x_role : Z; x_nic : bytes; x_tag : bytes }.
Record SliceExportTransportKey := mkTKey { k_magic : Z; k_rankId : Z; k_address : Z; k_key : TransportMemoryKey }.
Definition NIC_SIZE : nat := 64.
Definition TAG_SIZE : nat := 32.
Definition sizeof_EntityExportInfo : Z := 120.
Definition sizeof_SliceExportTransportKey : Z := 248.

(** A string in a zeroed array of [n] characters, and back: [None] when no end is
    found in the array. *)
Definition to_array (n : nat) (s : bytes) : bytes := s ++ repeat x00 (n - List.length s).
Fixpoint c_string (a : bytes) : option bytes :=
  match a with
  | [] => None
  | b :: a => if is_char 0 b then Some [] else cons b <$> c_string a
  end.

(** The bytes of the two structures. *)
Definition entity_bytes (i : EntityExportInfo) : bytes :=
  le_bytes 8 (x_magic i) ++ le_bytes 8 (x_version i) ++ le_bytes 2 (x_rankId i) ++ le_bytes 2 (x_role i) ++ le_bytes 4 0 ++ x_nic i ++ x_tag i.
Definition at_bytes (b : bytes) (off n : nat) : bytes := take n (drop off b).
Definition entity_of_bytes (b : bytes) : EntityExportInfo :=
  mkExport (le_val (at_bytes b 0 8)) (le_val (at_bytes b 8 8)) (le_val (at_bytes b 16 2)) (le_val (at_bytes b 18 2))
    (at_bytes b 24 NIC_SIZE) (at_bytes b 88 TAG_SIZE).
Definition key_bytes (k : SliceExportTransportKey) : bytes :=
  le_bytes 8 (k_magic k) ++ le_bytes 2 (k_rankId k) ++ le_bytes 6 0 ++ le_bytes 8 (k_address k) ++ (k_key k ≫= le_bytes 8).
Definition key_of_bytes (b : bytes) : SliceExportTransportKey :=
  mkTKey (le_val (at_bytes b 0 8)) (le_val (at_bytes b 8 2)) (le_val (at_bytes b 16 8))
    ((λ i, le_val (at_bytes b (24 + 8 * i) 8)) <$> seq 0 (2 * KEY_SIZE)).

(** What the transport is told about a rank. *)
Record PeerInfo := mkPeer { p_nic : bytes; p_role : Z; p_memKeys : list TransportMemoryKey }.
Abbreviation PeerOptions := (list (Z * PeerInfo)).

(** ** The parts *)
Inductive Seg := Hbm | Dram.
#[global] Instance Seg_eq_dec : EqDecision Seg.
Proof. solve_decision. Defined.
Inductive SegType := MST_HBM | MST_DRAM | MST_HBM_USER.
Record SegmentOptions := mkSeg {
  sg_segType : SegType; sg_size : Z; sg_maxSize : Z; sg_rankId : Z; sg_rankCnt : Z; sg_dataOpType : Z; sg_flags : Z;
  sg_shmFd : Z; sg_shared : bool }.
Record OpenOptions := mkOpen {
  tr_rankId : Z; tr_rankCount : Z; tr_protocol : Z; tr_role : Z; tr_initialType : Z; tr_nic : bytes }.
Record HybmDeviceMeta := mkMeta {
  entityId : Z; m_rankId : Z; rankSize : Z; extraContextSize : Z; symmetricSize : Z; qpInfoAddress : Z }.

Inductive ECall :=
| EUndefined
| EHasInited
| ELoadExtendLibrary (device : bool)
(* the thread's own flag, and the runtime *)
| EIsSetDevice | EAclrtSetDevice | EMarkSetDevice
| EWriteMeta (addr : Z) (info : HybmDeviceMeta)
| EWriteContext (addr context size : Z)
(* a segment *)
| ESegCreate (k : Seg) (o : SegmentOptions)
| ESegDestroy (k : Seg)
| ESegReserve (k : Seg)
| ESegUnReserve (k : Seg)
| ESegAlloc (k : Seg) (size : Z)
| ESegRegister (k : Seg) (ptr size : Z)
| ESegRelease (k : Seg) (slice : MemSlice)
| ESegGetSlice (k : Seg) (slice : Z)
| ESegMemoryType (k : Seg)
| ESegExport (k : Seg)
| ESegExportSlice (k : Seg) (slice : MemSlice)
| ESegExportSliceSize (k : Seg)
| ESegImport (k : Seg) (infos : list bytes)
| ESegMmap (k : Seg)
| ESegUnmap (k : Seg)
| ESegRemoveImported (k : Seg) (ranks : list Z)
| ESegInRange (k : Seg) (ptr length : Z)
| ESegRankByAddr (k : Seg) (ptr length : Z)
| ESegSdmaReaches (k : Seg) (rank : Z)
(* the transport manager *)
| ETrCreate
| ETrOpenDevice (o : OpenOptions)
| ETrCloseDevice
| ETrGetNic
| ETrGetQpInfo
| ETrRegister (r : TransportMemoryRegion)
| ETrUnregister (addr : Z)
| ETrQueryMemoryKey (addr : Z) (key : TransportMemoryKey)
| ETrPrepare (o : PeerOptions)
| ETrConnect
| ETrUpdateRankOptions (o : PeerOptions)
| ETrConnectWithOptions (o : PeerOptions)
| ETrRemoveRanks (ranks : list Z)
(* the data operator, which reads the tags *)
| EOpInitialize (type dataOpType : Z)
| EOpDestroy
| EOpUpdateGvaSpace (memType gva spaceLen rankCnt : Z)
| EOpDataCopy (tags : HybmEntityTagInfo) (params : hybm_copy_params) (direction : hybm_data_copy_direction) (o : CopyOptions)
| EOpBatchDataCopy (tags : HybmEntityTagInfo) (jobs : list hybm_copy_params) (direction : hybm_data_copy_direction) (o : CopyOptions)
| EOpWait (waitId : Z)
| EOpCleanUp.
(** The result and what comes back beside it; a flag is 0 or not. *)
Record EAns := mkAns { e_ret : Z; e_val : Z; e_bytes : bytes; e_slice : option MemSlice; e_key : TransportMemoryKey }.
Definition plain (r : Z) : EAns := mkAns r 0 [] None [].
Abbreviation eprog := (program ECall EAns).
Definition ecall (c : ECall) : eprog EAns := Act c Ret.
Definition eret (c : ECall) : eprog Z := Act c (λ a, Ret (e_ret a)).
Definition eflag (c : ECall) : eprog bool := Act c (λ a, Ret (negb (e_ret a =? 0))).
Definition eundefined {A} (a : A) : eprog A := Act EUndefined (λ _, Ret a).

(** ** State *)
Record hybm_options := mkHybm {
  ho_bmType : Z; ho_memType : Z; ho_bmDataOpType : Z; ho_rankCount : Z; ho_rankId : Z;
  ho_maxHBMSize : Z; ho_maxDRAMSize : Z; ho_deviceVASpace : Z; ho_hostVASpace : Z;
  ho_scene : Z; ho_globalUniqueAddress : bool; ho_role : Z; ho_flags : Z;
  ho_transUrl : bytes; ho_tag : bytes; ho_tagOpInfo : bytes; ho_dramShmFd : Z }.
Definition zero_options : hybm_options := mkHybm 0 0 0 0 0 0 0 0 0 0 false 0 0 [] [] [] 0.

Record MemEntityDefault := mkEntity {
  initialized_ : bool;
  id_ : Z;
  eo : hybm_options;
  hbmGva_ : Z;
  dramGva_ : Z;
  hbmSegment_ : bool;
  dramSegment_ : bool;
  dataOperator_ : bool;
  transportPrepared_ : bool;
  transportManager_ : bool;
  importedRanks_ : gmap Z EntityExportInfo;
  importedMemories_ : gmap Z (list TransportMemoryKey);
  tagManager_ : option HybmEntityTagInfo;
}.
Definition entity_new (id : Z) : MemEntityDefault := mkEntity false id zero_options 0 0 false false false false false ∅ ∅ None.

Definition set_einit (e : MemEntityDefault) b := mkEntity b (id_ e) (eo e) (hbmGva_ e) (dramGva_ e) (hbmSegment_ e) (dramSegment_ e)
  (dataOperator_ e) (transportPrepared_ e) (transportManager_ e) (importedRanks_ e) (importedMemories_ e) (tagManager_ e).
Definition set_eopts (e : MemEntityDefault) o t := mkEntity (initialized_ e) (id_ e) o (hbmGva_ e) (dramGva_ e) (hbmSegment_ e) (dramSegment_ e)
  (dataOperator_ e) (transportPrepared_ e) (transportManager_ e) (importedRanks_ e) (importedMemories_ e) t.
Definition set_egva (e : MemEntityDefault) g d := mkEntity (initialized_ e) (id_ e) (eo e) g d (hbmSegment_ e) (dramSegment_ e)
  (dataOperator_ e) (transportPrepared_ e) (transportManager_ e) (importedRanks_ e) (importedMemories_ e) (tagManager_ e).
Definition set_eparts (e : MemEntityDefault) h d o t := mkEntity (initialized_ e) (id_ e) (eo e) (hbmGva_ e) (dramGva_ e) h d
  o (transportPrepared_ e) t (importedRanks_ e) (importedMemories_ e) (tagManager_ e).
Definition set_eprep (e : MemEntityDefault) p := mkEntity (initialized_ e) (id_ e) (eo e) (hbmGva_ e) (dramGva_ e) (hbmSegment_ e) (dramSegment_ e)
  (dataOperator_ e) p (transportManager_ e) (importedRanks_ e) (importedMemories_ e) (tagManager_ e).
Definition set_eimports (e : MemEntityDefault) r m := mkEntity (initialized_ e) (id_ e) (eo e) (hbmGva_ e) (dramGva_ e) (hbmSegment_ e) (dramSegment_ e)
  (dataOperator_ e) (transportPrepared_ e) (transportManager_ e) r m (tagManager_ e).
Definition set_etags (e : MemEntityDefault) t := set_eopts e (eo e) t.
Definition there (e : MemEntityDefault) (k : Seg) : bool := match k with Hbm => hbmSegment_ e | Dram => dramSegment_ e end.
(** A call of a segment through its pointer. *)
Definition on_seg {A} (e : MemEntityDefault) (k : Seg) (p : eprog A) (a : A) : eprog A := if there e k then p else eundefined a.

(** ** Start *)
Definition CheckOptions (options : option hybm_options) : Z :=
  match options with
  | None => BM_INVALID_PARAM
  | Some o =>
      if ho_rankCount o <=? ho_rankId o then BM_INVALID_PARAM else
      if allows (ho_flags o) HYBM_FLAG_CREATE_WITH_SHM && (ho_dramShmFd o <? 0) then BM_INVALID_PARAM else BM_OK
  end.

Definition with_tag (o : hybm_options) (tag : bytes) : hybm_options := mkHybm (ho_bmType o) (ho_memType o) (ho_bmDataOpType o) (ho_rankCount o)
  (ho_rankId o) (ho_maxHBMSize o) (ho_maxDRAMSize o) (ho_deviceVASpace o) (ho_hostVASpace o) (ho_scene o) (ho_globalUniqueAddress o)
  (ho_role o) (ho_flags o) (ho_transUrl o) tag (ho_tagOpInfo o) (ho_dramShmFd o).
Definition with_op_type (o : hybm_options) (t : Z) : hybm_options := mkHybm (ho_bmType o) (ho_memType o) t (ho_rankCount o)
  (ho_rankId o) (ho_maxHBMSize o) (ho_maxDRAMSize o) (ho_deviceVASpace o) (ho_hostVASpace o) (ho_scene o) (ho_globalUniqueAddress o)
  (ho_role o) (ho_flags o) (ho_transUrl o) (ho_tag o) (ho_tagOpInfo o) (ho_dramShmFd o).
Definition with_fd (o : hybm_options) (fd : Z) : hybm_options := mkHybm (ho_bmType o) (ho_memType o) (ho_bmDataOpType o) (ho_rankCount o)
  (ho_rankId o) (ho_maxHBMSize o) (ho_maxDRAMSize o) (ho_deviceVASpace o) (ho_hostVASpace o) (ho_scene o) (ho_globalUniqueAddress o)
  (ho_role o) (ho_flags o) (ho_transUrl o) (ho_tag o) (ho_tagOpInfo o) fd.

Definition defaultTag : bytes := bytes_of_str "HYBM_DEFAULT_TAG_FOR_EMPTY"%string.
(** The operations of the options as entries of the rank's tag with itself. *)
Definition compatible_types : list Z :=
  [HYBM_DOP_TYPE_DEVICE_RDMA; HYBM_DOP_TYPE_SDMA; HYBM_DOP_TYPE_MTE; HYBM_DOP_TYPE_HOST_RDMA; HYBM_DOP_TYPE_HOST_TCP; HYBM_DOP_TYPE_HOST_URMA].
Definition compatibleInfo (localTag : bytes) (types : Z) : bytes :=
  compatible_types ≫= λ t, if allows types t then localTag ++ ":"%byte :: GetOpTypeStr t ++ ":"%byte :: localTag ++ [","%byte] else [].
Definition InitTagManager (e : MemEntityDefault) : MemEntityDefault * Z :=
  match tagManager_ e with
  | Some _ => (e, BM_OK)
  | None =>
      let localTag := if bool_decide (ho_tag (eo e) = []) then defaultTag else ho_tag (eo e) in
      let o := with_tag (eo e) localTag in
      let '(t, ret) := TagInfoInit tags_new (ho_rankId o) (ho_tag o) (ho_tagOpInfo o) in
      if negb (ret =? BM_OK) then (set_eopts e o (Some t), BM_INVALID_PARAM) else
      let '(t, ret) := AddTagOpInfo t (compatibleInfo localTag (ho_bmDataOpType o)) in
      if negb (ret =? BM_OK) then (set_eopts e o (Some t), BM_INVALID_PARAM) else
      (set_eopts e (with_op_type o (GetAllOpType t)) (Some t), BM_OK)
  end.

Definition LoadExtendLibrary (e : MemEntityDefault) : eprog Z :=
  ret ← (if allows (ho_bmDataOpType (eo e)) HYBM_DOP_TYPE_DEVICE_RDMA then eret (ELoadExtendLibrary true) else Ret 0);
  if negb (ret =? 0) then Ret ret else
  ret ← (if allows (ho_bmDataOpType (eo e)) HOST_DOP_TYPES then eret (ELoadExtendLibrary false) else Ret 0);
  if negb (ret =? 0) then Ret ret else Ret BM_OK.

Definition InitHbmSegment (e : MemEntityDefault) : eprog (MemEntityDefault * Z) :=
  let o := eo e in
  let trans := ho_scene o =? HYBM_SCENE_TRANS in
  if negb trans && (ho_maxHBMSize o =? 0) then Ret (e, BM_OK) else
  let options := mkSeg (if trans then MST_HBM_USER else MST_HBM) (if trans then 0 else ho_deviceVASpace o) (if trans then 0 else ho_maxHBMSize o)
    (ho_rankId o) (ho_rankCount o) (ho_bmDataOpType o) (ho_flags o) (-1) true in
  segment ← eflag (ESegCreate Hbm options);
  let e := set_eparts e segment (dramSegment_ e) (dataOperator_ e) (transportManager_ e) in
  Ret (e, if negb segment then BM_ERROR else BM_OK).
Definition InitDramSegment (e : MemEntityDefault) : eprog (MemEntityDefault * Z) :=
  let o := eo e in
  if ho_maxDRAMSize o =? 0 then Ret (e, BM_OK) else
  let options := mkSeg MST_DRAM (ho_hostVASpace o) (ho_maxDRAMSize o) (ho_rankId o) (ho_rankCount o) (ho_bmDataOpType o) (ho_flags o)
    (ho_dramShmFd o) (negb (allows (ho_bmDataOpType o) HYBM_DOP_TYPE_DEVICE_RDMA)) in
  segment ← eflag (ESegCreate Dram options);
  let e := set_eparts e (hbmSegment_ e) segment (dataOperator_ e) (transportManager_ e) in
  Ret (e, if negb segment then BM_ERROR else BM_OK).
Definition InitSegment (e : MemEntityDefault) : eprog (MemEntityDefault * Z) :=
  '(e, ret) ← (if allows (ho_memType (eo e)) HYBM_MEM_TYPE_DEVICE then InitHbmSegment e else Ret (e, BM_OK));
  if negb (ret =? BM_OK) then Ret (e, ret) else
  if negb (allows (ho_memType (eo e)) HYBM_MEM_TYPE_HOST) then Ret (e, BM_OK) else
  '(e, ret) ← InitDramSegment e;
  if negb (ret =? BM_OK) then Ret (e, ret) else
  if negb (ho_scene (eo e) =? HYBM_SCENE_TRANS) then Ret (e, BM_OK) else
  ret ← on_seg e Dram (eret (ESegReserve Dram)) 0;
  Ret (e, if negb (ret =? BM_OK) then ret else BM_OK).

Definition InitTransManager (e : MemEntityDefault) : eprog (MemEntityDefault * Z) :=
  let o := eo e in
  if ho_rankCount o <=? 1 then Ret (e, BM_OK) else
  if negb (allows (ho_bmDataOpType o) (Z.lor HYBM_DOP_TYPE_DEVICE_RDMA HOST_DOP_TYPES)) then Ret (e, BM_OK) else
  manager ← eflag ETrCreate;
  if negb manager then Ret (set_eparts e (hbmSegment_ e) (dramSegment_ e) (dataOperator_ e) false, BM_ERROR) else
  ret ← eret (ETrOpenDevice (mkOpen (ho_rankId o) (ho_rankCount o) (ho_bmDataOpType o) (ho_role o) (ho_bmType o) (ho_transUrl o)));
  Ret (set_eparts e (hbmSegment_ e) (dramSegment_ e) (dataOperator_ e) (ret =? 0), ret).
Definition InitDataOperator (e : MemEntityDefault) : eprog (MemEntityDefault * Z) :=
  if ho_bmType (eo e) =? HYBM_TYPE_AI_CORE_INITIATE then Ret (e, BM_OK) else
  let e := set_eparts e (hbmSegment_ e) (dramSegment_ e) true (transportManager_ e) in
  ret ← eret (EOpInitialize (ho_bmType (eo e)) (ho_bmDataOpType (eo e)));
  Ret (e, ret).

Definition Initialize (e : MemEntityDefault) (options : option hybm_options) : eprog (MemEntityDefault * Z) :=
  if initialized_ e then Ret (e, BM_OK) else
  if negb ((0 <=? id_ e) && (id_ e <? HYBM_ENTITY_NUM_MAX)) then Ret (e, BM_INVALID_PARAM) else
  if negb (CheckOptions options =? BM_OK) then Ret (e, BM_INVALID_PARAM) else
  let o := default (eo e) options in
  let o := if allows (ho_flags o) HYBM_FLAG_CREATE_WITH_SHM then o else with_fd o (-1) in
  let '(e, ret) := InitTagManager (set_eopts e o (tagManager_ e)) in
  if negb (ret =? BM_OK) then Ret (e, BM_ERROR) else
  ret ← LoadExtendLibrary e;
  if negb (ret =? BM_OK) then Ret (e, BM_ERROR) else
  '(e, ret) ← InitSegment e;
  if negb (ret =? BM_OK) then Ret (e, BM_ERROR) else
  '(e, ret) ← InitTransManager e;
  if negb (ret =? BM_OK) then Ret (e, BM_ERROR) else
  '(e, ret) ← InitDataOperator e;
  if negb (ret =? BM_OK) then Ret (e, BM_ERROR) else
  Ret (set_einit e true, BM_OK).

Definition ReleaseResources (e : MemEntityDefault) : eprog MemEntityDefault :=
  if negb (initialized_ e) then Ret e else
  _ ← (if hbmSegment_ e then eret (ESegDestroy Hbm) else Ret 0);
  _ ← (if dramSegment_ e then eret (ESegDestroy Dram) else Ret 0);
  _ ← (if dataOperator_ e then eret EOpDestroy else Ret 0);
  _ ← (if transportManager_ e then eret ETrCloseDevice else Ret 0);
  Ret (set_einit (set_eparts e false false false false) false).
Definition UnInitialize := ReleaseResources.

(** ** The address space *)
Definition UnReserveMemorySpace (e : MemEntityDefault) : eprog Z :=
  if negb (initialized_ e) then Ret BM_OK else
  _ ← (if hbmSegment_ e then eret (ESegUnReserve Hbm) else Ret 0);
  _ ← (if dramSegment_ e then eret (ESegUnReserve Dram) else Ret 0);
  Ret BM_OK.
Definition reserve (e : MemEntityDefault) (k : Seg) : eprog (MemEntityDefault * Z) :=
  a ← ecall (ESegReserve k);
  let e := match k with Hbm => set_egva e (e_val a) (dramGva_ e) | Dram => set_egva e (hbmGva_ e) (e_val a) end in
  if negb (e_ret a =? BM_OK) then Ret (e, e_ret a) else
  _ ← (if dataOperator_ e then eret (EOpUpdateGvaSpace (match k with Hbm => HYBM_MEM_TYPE_DEVICE | Dram => HYBM_MEM_TYPE_HOST end) (e_val a)
         (match k with Hbm => ho_maxHBMSize (eo e) | Dram => ho_maxDRAMSize (eo e) end) (ho_rankCount (eo e))) else Ret 0);
  Ret (e, BM_OK).
Definition ReserveMemorySpace (e : MemEntityDefault) : eprog (MemEntityDefault * Z) :=
  if negb (initialized_ e) then Ret (e, BM_NOT_INITIALIZED) else
  '(e, ret) ← (if hbmSegment_ e then reserve e Hbm else Ret (e, BM_OK));
  if negb (ret =? BM_OK) then Ret (e, ret) else
  '(e, ret) ← (if dramSegment_ e then reserve e Dram else Ret (e, BM_OK));
  if negb (ret =? BM_OK) then _ ← UnReserveMemorySpace e; Ret (e, ret) else Ret (e, BM_OK).
Definition GetReservedMemoryPtr (e : MemEntityDefault) (memType : Z) : Z :=
  if memType =? HYBM_MEM_TYPE_DEVICE then hbmGva_ e else if memType =? HYBM_MEM_TYPE_HOST then dramGva_ e else nullptr.

(** ** What kernels on the device read *)
Definition SetHybmDeviceInfo (e : MemEntityDefault) : eprog HybmDeviceMeta :=
  qp ← (if transportManager_ e then Act ETrGetQpInfo (λ a, Ret (e_val a)) else Ret 0);
  Ret (mkMeta (id_ e) (ho_rankId (eo e)) (ho_rankCount (eo e)) 0 (ho_deviceVASpace (eo e)) qp).
Definition UpdateHybmDeviceInfo (e : MemEntityDefault) (extCtxSize : Z) : eprog Z :=
  if negb (ho_bmType (eo e) =? HYBM_TYPE_AI_CORE_INITIATE) then Ret BM_OK else
  let addr := u64 (HYBM_DEVICE_META_ADDR + HYBM_DEVICE_GLOBAL_META_SIZE + id_ e * HYBM_DEVICE_PRE_META_SIZE) in
  info ← SetHybmDeviceInfo e;
  ret ← eret (EWriteMeta addr (mkMeta (entityId info) (m_rankId info) (rankSize info) extCtxSize (symmetricSize info) (qpInfoAddress info)));
  Ret (if negb (ret =? BM_OK) then BM_ERROR else BM_OK).
Definition SetExtraContext (e : MemEntityDefault) (context size : Z) : eprog Z :=
  if negb (initialized_ e) then Ret BM_NOT_INITIALIZED else
  if context =? nullptr then Ret BM_INVALID_PARAM else
  if HYBM_DEVICE_USER_CONTEXT_PRE_SIZE <? size then Ret BM_INVALID_PARAM else
  let addr := u64 (HYBM_DEVICE_USER_CONTEXT_ADDR + id_ e * HYBM_DEVICE_USER_CONTEXT_PRE_SIZE) in
  ret ← eret (EWriteContext addr context size);
  if negb (ret =? BM_OK) then Ret BM_ERROR else UpdateHybmDeviceInfo e size.

(** ** Slices *)

(** A slice the segment says it has made; without one its use is undefined. *)
Definition made (a : EAns) (k : MemSlice → eprog (Z * Z)) : eprog (Z * Z) :=
  match e_slice a with Some s => k s | None => eundefined (0, nullptr) end.
(** The result and the handle. *)
Definition AllocLocalMemory (e : MemEntityDefault) (size mType : Z) : eprog (Z * Z) :=
  if negb (initialized_ e) then Ret (BM_NOT_INITIALIZED, nullptr) else
  if negb (size mod LARGE_PAGE_SIZE =? 0) then Ret (BM_INVALID_PARAM, nullptr) else
  let k := if mType =? HYBM_MEM_TYPE_DEVICE then Hbm else Dram in
  if negb (there e k) then Ret (BM_INVALID_PARAM, nullptr) else
  a ← ecall (ESegAlloc k size);
  if negb (e_ret a =? 0) then Ret (e_ret a, nullptr) else
  made a (λ realSlice,
    type ← Act (ESegMemoryType k) (λ a, Ret (e_val a));
    let mrFlags := if type =? HYBM_MEM_TYPE_DEVICE then REG_MR_FLAG_HBM else REG_MR_FLAG_DRAM in
    let slice := ConvertToId realSlice in
    ret ← (if transportManager_ e && (0 <? size)
           then eret (ETrRegister (mkTmr (vAddress_ realSlice) (size_ realSlice) (Z.lor mrFlags REG_MR_FLAG_SELF))) else Ret 0);
    if negb (ret =? 0) then _ ← eret (ESegRelease k realSlice); Ret (ret, slice) else
    ret ← UpdateHybmDeviceInfo e 0;
    Ret (ret, slice)).
Definition RegisterLocalMemory (e : MemEntityDefault) (ptr size : Z) : eprog (Z * Z) :=
  if (ptr =? nullptr) || (size =? 0) || (TB <? size) then Ret (BM_INVALID_PARAM, nullptr) else
  let isHbm := (HYBM_HBM_START_ADDR <=? ptr) && (ptr <? HYBM_HBM_END_ADDR) in
  let k := if (ho_scene (eo e) =? HYBM_SCENE_TRANS) || negb (dramSegment_ e) then Hbm else Dram in
  if negb (there e k) then Ret (BM_INVALID_PARAM, nullptr) else
  a ← ecall (ESegRegister k ptr size);
  if negb (e_ret a =? 0) then Ret (e_ret a, nullptr) else
  made a (λ realSlice,
    ret ← (if transportManager_ e
           then eret (ETrRegister (mkTmr (vAddress_ realSlice) size (if isHbm then REG_MR_FLAG_HBM else REG_MR_FLAG_DRAM))) else Ret 0);
    Ret (if negb (ret =? 0) then (ret, nullptr) else (BM_OK, ConvertToId realSlice))).

(** The slice of a handle, looked for in the device segment first. *)
Definition get_slice (e : MemEntityDefault) (k : Seg) (slice : Z) : eprog (option MemSlice) :=
  if there e k then Act (ESegGetSlice k slice) (λ a, Ret (e_slice a)) else Ret None.
Definition find_slice (e : MemEntityDefault) (slice : Z) : eprog (option (Seg * MemSlice)) :=
  h ← get_slice e Hbm slice;
  if h is Some s then Ret (Some (Hbm, s)) else
  d ← get_slice e Dram slice;
  Ret (if d is Some s then Some (Dram, s) else None).
Definition FreeLocalMemory (e : MemEntityDefault) (slice : Z) : eprog Z :=
  if negb (initialized_ e) then Ret BM_INVALID_PARAM else
  memSlice ← find_slice e slice;
  match memSlice with
  | None => Ret BM_OK
  | Some (k, s) =>
      _ ← eret (ESegRelease k s);
      _ ← (if transportManager_ e then eret (ETrUnregister (vAddress_ s)) else Ret 0);
      Ret BM_OK
  end.
Definition GetSliceVa (e : MemEntityDefault) (slice : Z) : eprog Z :=
  memSlice ← find_slice e slice;
  Ret (match memSlice with Some (_, s) => vAddress_ s | None => nullptr end).

(** ** Export: the result and what has been written *)
Definition append (desc : hybm_exchange_info) (data : bytes) : eprog (hybm_exchange_info * Z) :=
  match Writer_Append desc data with Some x => Ret x | None => eundefined (desc, 0) end.
Definition ExportEntityInfo (e : MemEntityDefault) (desc : hybm_exchange_info) : eprog (hybm_exchange_info * Z) :=
  if negb (initialized_ e) then Ret (desc, BM_NOT_INITIALIZED) else
  nic ← (if transportManager_ e then Act ETrGetNic (λ a, Ret (e_bytes a)) else Ret []);
  if transportManager_ e && (Z.of_nat NIC_SIZE <=? len nic) then Ret (desc, BM_ERROR) else
  let exportInfo := mkExport ENTITY_EXPORT_INFO_MAGIC INFO_VERSION (u16 (ho_rankId (eo e))) (u16 (ho_role (eo e)))
    (to_array NIC_SIZE nic) (to_array TAG_SIZE (ho_tag (eo e))) in
  '(desc, ret) ← append desc (entity_bytes exportInfo);
  if negb (ret =? 0) then Ret (desc, BM_ERROR) else
  if negb (ho_scene (eo e) =? HYBM_SCENE_TRANS) then Ret (desc, BM_OK) else
  if negb (hbmSegment_ e) then Ret (desc, BM_ERROR) else
  a ← ecall (ESegExport Hbm);
  if negb (e_ret a =? BM_OK) then Ret (desc, BM_ERROR) else
  '(desc, ret) ← append desc (e_bytes a);
  Ret (desc, if negb (ret =? 0) then BM_ERROR else BM_OK).
Definition ExportWithoutSlice (e : MemEntityDefault) (desc : hybm_exchange_info) (flags : Z) : eprog (hybm_exchange_info * Z) :=
  a ← (if hbmSegment_ e then ecall (ESegExport Hbm) else Ret (plain BM_ERROR));
  if negb (e_ret a =? BM_OK) && negb (e_ret a =? BM_NOT_SUPPORTED) then Ret (desc, e_ret a) else
  '(desc, ret) ← (if allows flags HYBM_FLAG_EXPORT_ENTITY then ExportEntityInfo e desc else Ret (desc, 0));
  if negb (ret =? 0) then Ret (desc, ret) else
  '(desc, ret) ← append desc (e_bytes a);
  Ret (desc, if negb (ret =? 0) then BM_ERROR else BM_OK).
Definition ExportSliceInfo (e : MemEntityDefault) (slice : Z) (desc : hybm_exchange_info) (flags : Z) : eprog (hybm_exchange_info * Z) :=
  if negb (initialized_ e) then Ret (desc, BM_NOT_INITIALIZED) else
  if slice =? nullptr then ExportWithoutSlice e desc flags else
  realSlice ← find_slice e slice;
  match realSlice with
  | None => Ret (desc, BM_INVALID_PARAM)
  | Some (k, s) =>
      let exportMagic := match k with Hbm => HBM_SLICE_EXPORT_INFO_MAGIC | Dram => DRAM_SLICE_MAGIC end in
      a ← ecall (ESegExportSlice k s);
      if negb (e_ret a =? 0) then Ret (desc, e_ret a) else
      '(desc, ret) ←
        (if transportManager_ e then
           q ← (if 0 <? size_ s then ecall (ETrQueryMemoryKey (vAddress_ s) zeroMemoryKey) else Ret (mkAns 0 0 [] None zeroMemoryKey));
           if negb (e_ret q =? 0) then Ret (desc, e_ret q) else
           append desc (key_bytes (mkTKey exportMagic (u16 (ho_rankId (eo e))) (vAddress_ s) (e_key q)))
         else Ret (desc, 0));
      if negb (ret =? 0) then Ret (desc, ret) else
      '(desc, ret) ← append desc (e_bytes a);
      Ret (desc, if negb (ret =? 0) then BM_ERROR else BM_OK)
  end.
(** [size] is written when the call succeeds. *)
Definition GetExportSliceInfoSize (e : MemEntityDefault) (size : Z) : eprog (Z * Z) :=
  let k := if hbmSegment_ e then Hbm else Dram in
  if negb (there e k) then Ret (BM_ERROR, size) else
  a ← ecall (ESegExportSliceSize k);
  if negb (e_ret a =? 0) then Ret (e_ret a, size) else
  Ret (BM_OK, if transportManager_ e then u64 (e_val a + sizeof_SliceExportTransportKey) else e_val a).

(** ** Import *)
Definition SetThreadAclDevice : eprog Z :=
  isSet ← eflag EIsSetDevice;
  if (isSet : bool) then Ret BM_OK else
  ret ← eret EAclrtSetDevice;
  if negb (ret =? BM_OK) then Ret ret else
  _ ← eret EMarkSetDevice; Ret BM_OK.

(** Reading from a descriptor; the readers remember how far they have come. *)
Definition test_magic (r : ExchangeInfoReader) : eprog (Z + Z) :=
  match Reader_Test r 8 with
  | Some (inr b) => Ret (inr (le_val b))
  | Some (inl err) => Ret (inl err)
  | None => eundefined (inl 0)
  end.
Definition read_bytes (r : ExchangeInfoReader) (n : Z) : eprog (ExchangeInfoReader * (Z + bytes)) :=
  match Reader_Read r n with Some x => Ret x | None => eundefined (r, inl 0) end.
Definition left_string (r : ExchangeInfoReader) : eprog (ExchangeInfoReader * bytes) :=
  match Reader_LeftToString r with Some x => Ret x | None => eundefined (r, []) end.
Fixpoint left_all (rs : list ExchangeInfoReader) : eprog (list bytes) :=
  match rs with [] => Ret [] | r :: rs => '(_, b) ← left_string r; l ← left_all rs; Ret (b :: l) end.

(** The order in which unordered maps are walked. *)
Section Orders.
Context (rank_order : gmap Z EntityExportInfo → list (Z * EntityExportInfo)).

Fixpoint add_tags (t : HybmEntityTagInfo) (ranks : list (Z * EntityExportInfo)) : eprog (HybmEntityTagInfo * Z) :=
  match ranks with
  | [] => Ret (t, BM_OK)
  | (rankId, info) :: ranks =>
      match c_string (x_tag info) with
      | None => eundefined (t, BM_OK)
      | Some tag => let '(t, ret) := AddRankTag t rankId tag in if negb (ret =? BM_OK) then Ret (t, ret) else add_tags t ranks
      end
  end.
Definition ImportForTagManager (e : MemEntityDefault) : eprog (MemEntityDefault * Z) :=
  match rank_order (importedRanks_ e), tagManager_ e with
  | [], _ => Ret (e, BM_OK)
  | _, None => eundefined (e, BM_OK)
  | ranks, Some t => '(t, ret) ← add_tags t ranks; Ret (set_etags e (Some t), ret)
  end.

(** What is known of the ranks in [ranks], with the keys of [mems]. *)
Fixpoint peers (mems : gmap Z (list TransportMemoryKey)) (ranks : list (Z * EntityExportInfo)) : eprog PeerOptions :=
  match ranks with
  | [] => Ret []
  | (rankId, info) :: ranks =>
      match c_string (x_nic info) with
      | None => eundefined []
      | Some nic => l ← peers mems ranks; Ret ((rankId, mkPeer nic (x_role info) (default [] (mems !! rankId))) :: l)
      end
  end.
Definition ImportForTransportManager (e : MemEntityDefault) : eprog (MemEntityDefault * Z) :=
  if negb (transportManager_ e) then Ret (e, BM_OK) else
  prepareOptions ← peers ∅ (rank_order (importedRanks_ e));
  ret ← (if transportPrepared_ e then eret (ETrUpdateRankOptions prepareOptions) else
         ret ← eret (ETrPrepare prepareOptions);
         if negb (ret =? BM_OK) then Ret ret else eret ETrConnect);
  if negb (ret =? BM_OK) then Ret (e, ret) else Ret (set_eprep e true, 0).

Fixpoint read_infos (rs : list ExchangeInfoReader) : eprog (list ExchangeInfoReader * option (list EntityExportInfo)) :=
  match rs with
  | [] => Ret ([], Some [])
  | r :: rs =>
      '(r, x) ← read_bytes r sizeof_EntityExportInfo;
      match x with
      | inl _ => Ret (r :: rs, None)
      | inr b => '(rs, l) ← read_infos rs; Ret (r :: rs, option_map (cons (entity_of_bytes b)) l)
      end
  end.
Definition record_ranks (m : gmap Z EntityExportInfo) (infos : list EntityExportInfo) : gmap Z EntityExportInfo :=
  foldl (λ m i, <[x_rankId i := i]> m) m infos.
(** [desc]: the readers, at least one. *)
Definition ImportEntityExchangeInfo (e : MemEntityDefault) (desc : list ExchangeInfoReader) : eprog (MemEntityDefault * Z) :=
  if negb (initialized_ e) then Ret (e, BM_NOT_INITIALIZED) else
  '(desc, deserializedInfos) ← read_infos desc;
  match deserializedInfos with
  | None => Ret (e, BM_INVALID_PARAM)
  | Some infos =>
      let e := set_eimports e (record_ranks (importedRanks_ e) infos) (importedMemories_ e) in
      '(e, ret) ← ImportForTagManager e;
      if negb (ret =? BM_OK) then Ret (e, BM_ERROR) else
      '(e, ret) ← ImportForTransportManager e;
      if negb (ret =? BM_OK) then Ret (e, BM_ERROR) else
      if negb (ho_scene (eo e) =? HYBM_SCENE_TRANS) then Ret (e, BM_OK) else
      if negb (hbmSegment_ e) then Ret (e, BM_ERROR) else
      match desc with
      | [] => eundefined (e, BM_ERROR)
      | r :: _ =>
          '(_, info) ← left_string r;
          ret ← eret (ESegImport Hbm [info]);
          Ret (e, if negb (ret =? BM_OK) then BM_ERROR else BM_OK)
      end
  end.

(** One descriptor after another; an early return leaves what has been recorded. *)
Fixpoint ImportForTransportPrecheck (e : MemEntityDefault) (desc : list ExchangeInfoReader) (importInfoEntity : bool)
    : eprog (MemEntityDefault * list ExchangeInfoReader * bool * Z) :=
  match desc with
  | [] => Ret (e, [], importInfoEntity, BM_OK)
  | r :: desc =>
      magic ← test_magic r;
      match magic with
      | inl _ => Ret (e, r :: desc, importInfoEntity, BM_ERROR)
      | inr magic =>
          if magic =? ENTITY_EXPORT_INFO_MAGIC then
            '(r, x) ← read_bytes r sizeof_EntityExportInfo;
            match x with
            | inl err => Ret (e, r :: desc, importInfoEntity, err)
            | inr b =>
                let info := entity_of_bytes b in
                '(e, desc, i, ret) ← ImportForTransportPrecheck
                  (set_eimports e (<[x_rankId info := info]> (importedRanks_ e)) (importedMemories_ e)) desc true;
                Ret (e, r :: desc, i, ret)
            end
          else if (magic =? DRAM_SLICE_MAGIC) || (magic =? HBM_SLICE_EXPORT_INFO_MAGIC) then
            '(r, x) ← read_bytes r sizeof_SliceExportTransportKey;
            match x with
            | inl err => Ret (e, r :: desc, importInfoEntity, err)
            | inr b =>
                let transportKey := key_of_bytes b in
                let old := if ho_globalUniqueAddress (eo e) then [] else default [] (importedMemories_ e !! k_rankId transportKey) in
                '(e, desc, i, ret) ← ImportForTransportPrecheck
                  (set_eimports e (importedRanks_ e) (<[k_rankId transportKey := old ++ [k_key transportKey]]> (importedMemories_ e)))
                  desc importInfoEntity;
                Ret (e, r :: desc, i, ret)
            end
          else Ret (e, r :: desc, importInfoEntity, BM_ERROR)
      end
  end.
(** Ranks of the own role are left out, unless it is that of a peer. *)
Definition other_role (e : MemEntityDefault) (x : Z * EntityExportInfo) : bool :=
  (ho_role (eo e) =? HYBM_ROLE_PEER) || negb (x_role x.2 =? ho_role (eo e)).
Definition ImportForTransport (e : MemEntityDefault) (desc : list ExchangeInfoReader)
    : eprog (MemEntityDefault * list ExchangeInfoReader * Z) :=
  '(e, desc, importInfoEntity, ret) ← ImportForTransportPrecheck e desc false;
  if negb (ret =? BM_OK) then Ret (e, desc, ret) else
  transOptions ← peers (importedMemories_ e) (List.filter (other_role e) (rank_order (importedRanks_ e)));
  '(e, ret) ← (if (importInfoEntity : bool) then ImportForTagManager e else Ret (e, BM_OK));
  if negb (ret =? BM_OK) then Ret (e, desc, BM_ERROR) else
  ret ← (if transportManager_ e then eret (ETrConnectWithOptions transOptions) else Ret 0);
  if negb (ret =? 0) then Ret (e, desc, ret) else
  ret ← (if (importInfoEntity : bool) then UpdateHybmDeviceInfo e 0 else Ret BM_OK);
  Ret (e, desc, ret).
(** [desc]: the readers, at least one. *)
Definition ImportExchangeInfo (e : MemEntityDefault) (desc : list ExchangeInfoReader) : eprog (MemEntityDefault * Z) :=
  if negb (initialized_ e) then Ret (e, BM_NOT_INITIALIZED) else
  ret ← SetThreadAclDevice;
  if negb (ret =? BM_OK) then Ret (e, BM_ERROR) else
  '(e, desc, ret) ← (if transportManager_ e then ImportForTransport e desc else Ret (e, desc, BM_OK));
  if negb (ret =? BM_OK) then Ret (e, ret) else
  match desc with
  | [] => eundefined (e, BM_ERROR)
  | r :: _ =>
      if Reader_LeftBytes r =? 0 then Ret (e, BM_OK) else
      magic ← test_magic r;
      match magic with
      | inl _ => Ret (e, BM_OK)
      | inr magic =>
          let k := if IsDramSlice magic then Dram else Hbm in
          infos ← left_all desc;
          ret ← on_seg e k (eret (ESegImport k infos)) BM_OK;
          Ret (e, if negb (ret =? BM_OK) then ret else BM_OK)
      end
  end.
End Orders.

Definition Unmap (e : MemEntityDefault) : eprog unit :=
  if negb (initialized_ e) then Ret tt else
  _ ← (if hbmSegment_ e then eret (ESegUnmap Hbm) else Ret 0);
  _ ← (if dramSegment_ e then eret (ESegUnmap Dram) else Ret 0);
  Ret tt.
Definition Mmap (e : MemEntityDefault) : eprog Z :=
  if negb (initialized_ e) then Ret BM_NOT_INITIALIZED else
  ret ← (if hbmSegment_ e && negb (ho_scene (eo e) =? HYBM_SCENE_TRANS) then eret (ESegMmap Hbm) else Ret BM_OK);
  if negb (ret =? BM_OK) then Ret ret else
  if dramSegment_ e then eret (ESegMmap Dram) else Ret BM_OK.

Definition erase_ranks {A} (ranks : list Z) (m : gmap Z A) : gmap Z A := foldl (λ m r, delete r m) m ranks.
Definition RemoveImported (e : MemEntityDefault) (ranks : list Z) : eprog (MemEntityDefault * Z) :=
  if negb (initialized_ e) then Ret (e, BM_NOT_INITIALIZED) else
  ret ← (if hbmSegment_ e then eret (ESegRemoveImported Hbm ranks) else Ret BM_OK);
  if negb (ret =? BM_OK) then Ret (e, ret) else
  ret ← (if dramSegment_ e then eret (ESegRemoveImported Dram ranks) else Ret BM_OK);
  if negb (ret =? BM_OK) then Ret (e, ret) else
  _ ← (if dataOperator_ e then eret EOpCleanUp else Ret 0);
  if negb (transportManager_ e) then Ret (e, BM_OK) else
  let e := set_eimports e (erase_ranks ranks (importedRanks_ e)) (erase_ranks ranks (importedMemories_ e)) in
  _ ← eret (ETrRemoveRanks ranks);
  Ret (e, BM_OK).

(** ** Copies *)

(** The rank an address belongs to, host memory first; its own when it is in no
    segment. *)
Definition locate (e : MemEntityDefault) (addr length : Z) : eprog Z :=
  d ← (if dramSegment_ e then ecall (ESegRankByAddr Dram addr length) else Ret (plain 0));
  if negb (e_ret d =? 0) then Ret (e_val d) else
  h ← (if hbmSegment_ e then ecall (ESegRankByAddr Hbm addr length) else Ret (plain 0));
  if negb (e_ret h =? 0) then Ret (e_val h) else Ret (ho_rankId (eo e)).
(** The new addresses and the ranks. *)
Definition LocateAddrAndRank (e : MemEntityDefault) (j : hybm_copy_params) : eprog (hybm_copy_params * (Z * Z)) :=
  sr ← locate e (src j) (dataSize j);
  dr ← locate e (dest j) (dataSize j);
  Ret (mkParams (Valid48BitsAddress (src j)) (Valid48BitsAddress (dest j)) (dataSize j), (sr, dr)).
Definition tags_of (e : MemEntityDefault) : HybmEntityTagInfo := default tags_new (tagManager_ e).
Definition CopyData (e : MemEntityDefault) (params : hybm_copy_params) (direction : hybm_data_copy_direction) (stream flags : Z) : eprog Z :=
  if negb (initialized_ e) then Ret BM_NOT_INITIALIZED else
  ret ← SetThreadAclDevice;
  if negb (ret =? BM_OK) then Ret BM_ERROR else
  '(params, p2pInfo) ← LocateAddrAndRank e params;
  let options := mkCopyOptions (mkOptions p2pInfo.1 p2pInfo.2 stream) flags [] in
  let params := if negb (ho_scene (eo e) =? HYBM_SCENE_TRANS)
    then mkParams (Valid48BitsAddress (src params)) (Valid48BitsAddress (dest params)) (dataSize params) else params in
  if dataOperator_ e then eret (EOpDataCopy (tags_of e) params direction options) else eundefined BM_ERROR.

(** The entries with their new addresses, and the indices by pair of ranks. *)
Fixpoint locate_all (e : MemEntityDefault) (jobs : list hybm_copy_params) (i : nat) (groups : gmap (Z * Z) (list nat))
    : eprog (list hybm_copy_params * gmap (Z * Z) (list nat)) :=
  match jobs with
  | [] => Ret ([], groups)
  | j :: jobs =>
      '(j, p2pInfo) ← LocateAddrAndRank e j;
      '(jobs, groups) ← locate_all e jobs (S i) (<[p2pInfo := default [] (groups !! p2pInfo) ++ [i]]> groups);
      Ret (j :: jobs, groups)
  end.
(** [group_order]: the order in which the groups are walked. *)
Definition BatchCopyData (group_order : gmap (Z * Z) (list nat) → list (Z * Z * list nat)) (e : MemEntityDefault)
    (jobs : list hybm_copy_params) (direction : hybm_data_copy_direction) (stream flags : Z) : eprog Z :=
  if negb (initialized_ e) then Ret BM_NOT_INITIALIZED else
  ret ← SetThreadAclDevice;
  if negb (ret =? BM_OK) then Ret BM_ERROR else
  if negb (dataOperator_ e) then Ret BM_ERROR else
  '(jobs, groups) ← locate_all e jobs 0 ∅;
  eret (EOpBatchDataCopy (tags_of e) jobs direction (mkCopyOptions (mkOptions 0 0 stream) flags (group_order groups))).
Definition Wait (e : MemEntityDefault) : eprog Z :=
  if negb (initialized_ e) then Ret BM_NOT_INITIALIZED else
  if dataOperator_ e then eret (EOpWait 0) else eundefined BM_ERROR.
Definition CheckAddressInEntity (e : MemEntityDefault) (ptr length : Z) : eprog bool :=
  if negb (initialized_ e) then Ret false else
  h ← (if hbmSegment_ e then eflag (ESegInRange Hbm ptr length) else Ret false);
  if (h : bool) then Ret true else if dramSegment_ e then eflag (ESegInRange Dram ptr length) else Ret false.

Definition SdmaReaches (e : MemEntityDefault) (remoteRank : Z) : eprog bool :=
  if hbmSegment_ e then eflag (ESegSdmaReaches Hbm remoteRank) else
  if dramSegment_ e then eflag (ESegSdmaReaches Dram remoteRank) else Ret false.
Definition CanReachDataOperators (e : MemEntityDefault) (remoteRank : Z) : eprog Z :=
  let types := ho_bmDataOpType (eo e) in
  sdma ← (if allows types HYBM_DOP_TYPE_SDMA then SdmaReaches e remoteRank else Ret false);
  let only t := if allows types t then t else 0 in
  Ret (Z.lor (if (sdma : bool) then Z.lor HYBM_DOP_TYPE_MTE HYBM_DOP_TYPE_SDMA else 0)
    (Z.lor (only HYBM_DOP_TYPE_DEVICE_RDMA) (Z.lor (only HYBM_DOP_TYPE_HOST_RDMA) (only HYBM_DOP_TYPE_HOST_URMA)))).
