(* ===== verification/EntityApi.v ===== *)
(** * The interface of the entities (hybm_big_mem_entry.cpp, hybm_data_op_entry.cpp, entity/hybm_entity_factory)

    A handle is the address of an entity; the factory finds the entity of a handle
    and owns it.  [heap] is the memory behind the handles, so that the use of a
    handle after its entity is gone shows as [EUndefined].  An absent argument is
    [None] or [nullptr]. *)
From Stdlib Require Import Strings.Byte.
From stdpp Require Import base numbers list gmap.
From S2P Require Import Prelude RangePool VaManager MemSlice HostDataOp HcomTransport ComposeDataOp Entity.
Local Open Scope Z_scope.

(** ** The factory *)
Record MemEntityFactory := mkFactory {
  engines_ : gmap Z Z;
  enginesFromAddress_ : gmap Z Z;
  heap : gmap Z MemEntityDefault;
}.
Definition set_heap (f : MemEntityFactory) h : MemEntityFactory := mkFactory (engines_ f) (enginesFromAddress_ f) h.
(** [fresh] is the address of a new entity. *)
Definition GetOrCreateEngine (f : MemEntityFactory) (id fresh : Z) : MemEntityFactory * Z :=
  match engines_ f !! id with
  | Some p => (f, p)
  | None => (mkFactory (<[id := fresh]> (engines_ f)) (<[fresh := id]> (enginesFromAddress_ f)) (<[fresh := entity_new id]> (heap f)), fresh)
  end.
Definition FindEngineByPtr (f : MemEntityFactory) (p : Z) : option Z :=
  id ← enginesFromAddress_ f !! p;
  engines_ f !! id.
(** The entity goes with its last owner, the factory. *)
Definition RemoveEngine (f : MemEntityFactory) (p : Z) : MemEntityFactory * bool :=
  match enginesFromAddress_ f !! p with
  | None => (f, false)
  | Some id => (mkFactory (delete id (engines_ f)) (delete p (enginesFromAddress_ f))
      (match engines_ f !! id with Some q => delete q (heap f) | None => heap f end), true)
  end.

(** ** From a handle to its entity *)
Definition at_address {A} (f : MemEntityFactory) (p : Z) (k : MemEntityDefault → eprog (MemEntityDefault * A)) (bad : A)
    : eprog (MemEntityFactory * A) :=
  match heap f !! p with
  | None => eundefined (f, bad)
  | Some e => '(e, a) ← k e; Ret (set_heap f (<[p := e]> (heap f)), a)
  end.
Definition with_entity {A} (f : MemEntityFactory) (p : Z) (bad : A) (k : MemEntityDefault → eprog (MemEntityDefault * A))
    : eprog (MemEntityFactory * A) :=
  if p =? nullptr then Ret (f, bad) else
  match FindEngineByPtr f p with
  | None => Ret (f, bad)
  | Some q => at_address f q k bad
  end.
(** A method that leaves the entity as it is. *)
Definition asked {A} (e : MemEntityDefault) (p : eprog A) : eprog (MemEntityDefault * A) := a ← p; Ret (e, a).
(** A method that gives a handle of a slice, or none. *)
Definition handle_of (x : Z * Z) : Z := if negb (x.1 =? 0) then nullptr else x.2.

(** ** Big memory *)
Definition hybm_create_entity (f : MemEntityFactory) (id : Z) (options : option hybm_options) (fresh : Z) : eprog (MemEntityFactory * Z) :=
  inited ← eflag EHasInited;
  if negb inited then Ret (f, nullptr) else
  let '(f, p) := GetOrCreateEngine f id fresh in
  '(f, ret) ← at_address f p (λ e, Initialize e options) BM_ERROR;
  if negb (ret =? 0) then Ret ((RemoveEngine f p).1, nullptr) else Ret (f, p).
Definition hybm_destroy_entity (f : MemEntityFactory) (p : Z) : eprog MemEntityFactory :=
  if p =? nullptr then Ret f else
  match FindEngineByPtr f p with
  | None => Ret f
  | Some q => '(f, _) ← at_address f q (λ e, e ← UnInitialize e; Ret (e, tt)) tt; Ret (RemoveEngine f p).1
  end.
Definition hybm_reserve_mem_space f p := with_entity f p BM_INVALID_PARAM ReserveMemorySpace.
Definition hybm_unreserve_mem_space f p := with_entity f p BM_INVALID_PARAM (λ e, asked e (UnReserveMemorySpace e)).
(** The handle is taken as a pointer to the entity. *)
Definition hybm_get_memory_ptr (f : MemEntityFactory) (p mType : Z) : eprog (MemEntityFactory * Z) :=
  if p =? nullptr then Ret (f, nullptr) else at_address f p (λ e, Ret (e, GetReservedMemoryPtr e mType)) nullptr.
Definition hybm_get_slice_va f p slice := with_entity f p nullptr (λ e, asked e (GetSliceVa e slice)).
Definition hybm_alloc_local_memory f p mType size :=
  with_entity f p nullptr (λ e, asked e (x ← AllocLocalMemory e size mType; Ret (handle_of x))).
Definition hybm_free_local_memory f p slice :=
  with_entity f p BM_INVALID_PARAM (λ e, asked e (if slice =? nullptr then Ret BM_INVALID_PARAM else FreeLocalMemory e slice)).
Definition hybm_register_local_memory f p ptr size :=
  with_entity f p nullptr (λ e, asked e (x ← RegisterLocalMemory e ptr size; Ret (handle_of x))).
Definition hybm_export (f : MemEntityFactory) (p slice flags : Z) (exInfo : option hybm_exchange_info)
    : eprog (MemEntityFactory * (option hybm_exchange_info * Z)) :=
  with_entity f p (exInfo, BM_INVALID_PARAM) (λ e, asked e
    match exInfo with
    | None => Ret (exInfo, BM_INVALID_PARAM)
    | Some info =>
        let writer := Writer_new info in
        '(d, ret) ← (if allows flags HYBM_FLAG_EXPORT_ENTITY then ExportEntityInfo e writer else ExportSliceInfo e slice writer flags);
        Ret (Some d, ret)
    end).
Definition hybm_export_slice_size (f : MemEntityFactory) (p : Z) (size : option Z) : eprog (MemEntityFactory * (Z * option Z)) :=
  with_entity f p (BM_INVALID_PARAM, size) (λ e, asked e
    match size with
    | None => Ret (BM_INVALID_PARAM, size)
    | Some n => '(ret, n) ← GetExportSliceInfoSize e n; Ret (ret, Some n)
    end).
Definition readers (infos : list hybm_exchange_info) : list ExchangeInfoReader := (λ i, Reader_Reset (Reader_new None) (Some i)) <$> infos.
(** The overload on the descriptors themselves; no reader is made of none. *)
Definition ImportExchangeInfo_infos (rank_order : gmap Z EntityExportInfo → list (Z * EntityExportInfo)) (e : MemEntityDefault)
    (allExInfo : list hybm_exchange_info) : eprog (MemEntityDefault * Z) :=
  if negb (initialized_ e) then Ret (e, BM_NOT_INITIALIZED) else
  match allExInfo with
  | [] => Ret (e, BM_ERROR)
  | _ => ImportExchangeInfo rank_order e (readers allExInfo)
  end.
Definition hybm_import (rank_order : gmap Z EntityExportInfo → list (Z * EntityExportInfo)) (f : MemEntityFactory) (p : Z)
    (allExInfo : option (list hybm_exchange_info)) (flags : Z) : eprog (MemEntityFactory * Z) :=
  with_entity f p BM_INVALID_PARAM (λ e,
    match allExInfo with
    | None | Some [] => Ret (e, BM_INVALID_PARAM)
    | Some infos =>
        if allows flags HYBM_FLAG_EXPORT_ENTITY then ImportEntityExchangeInfo rank_order e (readers infos)
        else ImportExchangeInfo rank_order e (readers infos)
    end).
Definition hybm_mmap f p := with_entity f p BM_INVALID_PARAM (λ e, asked e (Mmap e)).
Definition hybm_entity_reach_types f p rank :=
  with_entity f p (BM_INVALID_PARAM, 0) (λ e, asked e (t ← CanReachDataOperators e rank; Ret (BM_OK, t))).
Definition hybm_remove_imported f p rank := with_entity f p BM_INVALID_PARAM (λ e, RemoveImported e [rank]).
Definition hybm_set_extra_context f p context size :=
  with_entity f p BM_INVALID_PARAM (λ e, asked e (if context =? nullptr then Ret BM_INVALID_PARAM else SetExtraContext e context size)).
Definition hybm_unmap f p := with_entity f p tt (λ e, asked e (Unmap e)).

(** ** Copies *)

(** Which ends of a copy must lie in the entity: the source, the destination. *)
Definition g_checkMap (direction : hybm_data_copy_direction) : bool * bool :=
  match direction with
  | HYBM_LOCAL_HOST_TO_GLOBAL_HOST | HYBM_LOCAL_HOST_TO_GLOBAL_DEVICE
  | HYBM_LOCAL_DEVICE_TO_GLOBAL_HOST | HYBM_LOCAL_DEVICE_TO_GLOBAL_DEVICE => (false, true)
  | HYBM_GLOBAL_HOST_TO_GLOBAL_HOST | HYBM_GLOBAL_HOST_TO_GLOBAL_DEVICE
  | HYBM_GLOBAL_DEVICE_TO_GLOBAL_HOST | HYBM_GLOBAL_DEVICE_TO_GLOBAL_DEVICE => (true, true)
  | HYBM_GLOBAL_HOST_TO_LOCAL_HOST | HYBM_GLOBAL_HOST_TO_LOCAL_DEVICE
  | HYBM_GLOBAL_DEVICE_TO_LOCAL_HOST | HYBM_GLOBAL_DEVICE_TO_LOCAL_DEVICE => (true, false)
  | _ => (false, false)
  end.
Definition is_auto (d : hybm_data_copy_direction) : bool := match d with HYBM_DATA_COPY_DIRECTION_AUTO => true | _ => false end.
Definition is_butt (d : hybm_data_copy_direction) : bool := match d with HYBM_DATA_COPY_DIRECTION_BUTT => true | _ => false end.
(** The direction asked for, or the one that the addresses of the first entry have. *)
Definition infer (va : HybmVaManager) (direction : hybm_data_copy_direction) (j : hybm_copy_params) : eprog hybm_data_copy_direction :=
  if is_auto direction then
    match InferCopyDirection va (src j) (dest j) with Some d => Ret d | None => eundefined direction end
  else Ret direction.
Definition address_valid (e : MemEntityDefault) (direction : hybm_data_copy_direction) (j : hybm_copy_params) : eprog bool :=
  d ← (if (g_checkMap direction).2 then CheckAddressInEntity e (dest j) (dataSize j) else Ret true);
  if (g_checkMap direction).1 then
    if (d : bool) then CheckAddressInEntity e (src j) (dataSize j) else Ret false
  else Ret d.

(** The trace of the addresses in front of the checks is left out. *)
Definition hybm_data_copy (va : HybmVaManager) (f : MemEntityFactory) (p : Z) (params : option hybm_copy_params)
    (direction : hybm_data_copy_direction) (stream flags : Z) : eprog (MemEntityFactory * Z) :=
  if p =? nullptr then Ret (f, BM_INVALID_PARAM) else
  match params with
  | None => Ret (f, BM_INVALID_PARAM)
  | Some j =>
      if (src j =? nullptr) || (dest j =? nullptr) || (dataSize j =? 0) || is_butt direction then Ret (f, BM_INVALID_PARAM) else
      direction ← infer va direction j;
      if is_butt direction then Ret (f, BM_INVALID_PARAM) else
      with_entity f p BM_INVALID_PARAM (λ e, asked e
        (valid ← address_valid e direction j;
         if negb valid then Ret BM_INVALID_PARAM else CopyData e j direction stream flags))
  end.
(** The handle is taken as a pointer to the entity. *)
Definition hybm_wait (f : MemEntityFactory) (p : Z) : eprog (MemEntityFactory * Z) :=
  if p =? nullptr then Ret (f, BM_INVALID_PARAM) else at_address f p (λ e, asked e (Wait e)) BM_ERROR.

Fixpoint entries_valid (e : MemEntityDefault) (direction : hybm_data_copy_direction) (jobs : list hybm_copy_params) : eprog bool :=
  match jobs with
  | [] => Ret true
  | j :: jobs =>
      if (src j =? nullptr) || (dest j =? nullptr) then Ret false else
      valid ← address_valid e direction j;
      if negb valid then Ret false else entries_valid e direction jobs
  end.
(** The handle is taken as a pointer to the entity. *)
Definition hybm_data_batch_copy (group_order : gmap (Z * Z) (list nat) → list (Z * Z * list nat)) (va : HybmVaManager) (f : MemEntityFactory)
    (p : Z) (params : option (list hybm_copy_params)) (direction : hybm_data_copy_direction) (stream flags : Z) : eprog (MemEntityFactory * Z) :=
  if p =? nullptr then Ret (f, BM_INVALID_PARAM) else
  match params with
  | None | Some [] => Ret (f, BM_INVALID_PARAM)
  | Some ((j :: _) as jobs) =>
      if is_butt direction then Ret (f, BM_INVALID_PARAM) else
      direction ← infer va direction j;
      if is_butt direction then Ret (f, BM_INVALID_PARAM) else
      at_address f p (λ e, asked e
        (valid ← entries_valid e direction jobs;
         if negb valid then Ret BM_INVALID_PARAM else BatchCopyData group_order e jobs direction stream flags)) BM_ERROR
  end.
