(* ===== verification/EntitySpec.v ===== *)
(** * Entities: copies

    From the interface down to the fabric: a copy asked for by its global addresses
    is made between the ranks that own them.  The entity calls its segments, of
    which only the questions matter here, and the composed operator, whose program
    runs in its place over the programs of the operators behind it. *)
From Stdlib Require Import Strings.Byte Strings.String.
From stdpp Require Import base numbers list gmap relations.
From S2P Require Import Prelude RangePool VaManager MemSlice ConnSegment Fabric SdmaDataOp HostDataOp HostDataOpSpec HcomTransport TagInfo ComposeDataOp ComposeDataOpSpec Entity EntityApi.
Local Open Scope Z_scope.
Local Open Scope mf_scope.

Lemma still_rebase m0 X w : still m0 X w → still (mem w) X w.
Proof. intros [H1 H2 H3]. split; [done|done|by intros d s ?%not_elem_of_nil]. Qed.
Lemma tidy_from X S ms w w1 w2 r : orderly ms (either X S) → still (mem w) X w1 → tidy X S ms w1 w2 r → tidy X S ms w w2 r.
Proof.
  intros Ho Hs [T1 T2 T3]. assert (∀ l, ¬ X l → mem w1 l = mem w l) as Hf by (intros l Hl; apply (fo_frame _ _ _ _ _ Hs); [done|apply not_elem_of_nil]).
  split; [done| |].
  - intros l HX HS Hn. by rewrite T2, Hf.
  - intros Hr d s Hin. rewrite (T3 Hr d s Hin). apply Hf. intros HX. apply (or_X _ _ Ho _ _ Hin). by left.
Qed.
Lemma tidy_idle X S ms w w1 r : still (mem w) X w1 → r ≠ 0 → tidy X S ms w w1 r.
Proof.
  intros Hs Hr. split; [by eapply still_rebase| |done]. intros l HX _ _. apply (fo_frame _ _ _ _ _ Hs); [done|apply not_elem_of_nil].
Qed.
Lemma tidy_perm X S ms ms' w w' r : ms ≡ₚ ms' → tidy X S ms w w' r → tidy X S ms' w w' r.
Proof.
  intros Hp [T1 T2 T3]. split; [done| |].
  - intros l HX HS Hn. apply T2; try done. by rewrite Hp.
  - intros Hr d s Hin. apply T3; [done|]. by rewrite Hp.
Qed.

Section Copies.
Context (me : Z) (X S T : Loc → Prop) (ops : Operators) (hpool dpool : RbtreeRangePool) (hlive dlive : gmap Z Z) (comp : HostComposeDataOp).
Context (HSX : ∀ l, S l → ¬ X l) (Horder : ∀ m, o_order ops m ≡ₚ map_to_list m) (Harrays : ∀ l, batch (o_arrays ops l) = l).
(** What the segments answer. *)
Context (in_range : Seg → Z → Z → bool) (rank_at : Seg → Z → Z → option Z).

(** The world is that of [ComposeDataOpSpec]: the fabric, and whether an operator that
    failed has left something under way. *)
Definition State : Type := World * bool.
Definition passed (x x' : State) : Prop := adv x.1 x'.1 ∧ x'.2 = x.2.
Definition eok (x : State) (c : ECall) : Prop :=
  match c with
  | EUndefined => False
  | EOpDataCopy tags j d o => wp (ook me T ops) (ostep me X T ops) (ComposeDataOp.DataCopy comp tags j d o) x (λ _ _, True)
  | EOpBatchDataCopy tags jobs d o => wp (ook me T ops) (ostep me X T ops) (ComposeDataOp.BatchDataCopy comp tags jobs d o) x (λ _ _, True)
  | _ => True
  end.
Definition estep (x : State) (c : ECall) (x' : State) (a : EAns) : Prop :=
  match c with
  | ESegInRange k ptr n => passed x x' ∧ (e_ret a ≠ 0 ↔ in_range k ptr n = true)
  | ESegRankByAddr k ptr n => passed x x' ∧ match rank_at k ptr n with Some r => e_ret a ≠ 0 ∧ e_val a = r | None => e_ret a = 0 end
  | EOpDataCopy tags j d o => leads (ostep me X T ops) (ComposeDataOp.DataCopy comp tags j d o) x (e_ret a) x'
  | EOpBatchDataCopy tags jobs d o => leads (ostep me X T ops) (ComposeDataOp.BatchDataCopy comp tags jobs d o) x (e_ret a) x'
  | _ => passed x x'
  end.
Abbreviation ewp p w Q := (wp eok estep p w Q).

(** Who owns the memory at an address, and whether the entity covers it. *)
Definition owner (e : MemEntityDefault) (a n : Z) : Z :=
  match (if dramSegment_ e then rank_at Dram a n else None) with
  | Some r => r
  | None => default (ho_rankId (eo e)) (if hbmSegment_ e then rank_at Hbm a n else None)
  end.
Definition in_entity (e : MemEntityDefault) (a n : Z) : bool :=
  initialized_ e && ((hbmSegment_ e && in_range Hbm a n) || (dramSegment_ e && in_range Dram a n)).
Definition ends (e : MemEntityDefault) (j : hybm_copy_params) : Z * Z := (owner e (src j) (dataSize j), owner e (dest j) (dataSize j)).
Definition masked (j : hybm_copy_params) : hybm_copy_params :=
  mkParams (Valid48BitsAddress (src j)) (Valid48BitsAddress (dest j)) (dataSize j).
Definition covered (e : MemEntityDefault) (d : hybm_data_copy_direction) (j : hybm_copy_params) : bool :=
  ((negb (g_checkMap d).1) || in_entity e (src j) (dataSize j)) && ((negb (g_checkMap d).2) || in_entity e (dest j) (dataSize j)).
Definition chosen (va : HybmVaManager) (d : hybm_data_copy_direction) (j : hybm_copy_params) : option hybm_data_copy_direction :=
  if is_auto d then InferCopyDirection va (src j) (dest j) else Some d.

(** ** The questions *)
Definition calm (m0 : Memory) (x : State) : Prop := still m0 X x.1 ∧ x.2 = false.
Lemma ask_still {A} c (k : EAns → eprog A) m0 w Q : (∀ x, eok x c) → (∀ w w' a, estep w c w' a → passed w w') → calm m0 w →
  (∀ a w w', estep w c w' a → calm m0 w' → ewp (k a) w' Q) → ewp (Act c k) w Q.
Proof.
  intros Hc Ha [Hs Hb] Hk. split; [done|]. intros w' a Hst. eapply Hk; [exact Hst|]. destruct (Ha _ _ _ Hst) as [Hadv E].
  split; [by eapply still_adv|congruence].
Qed.
Lemma locate_wp e a n m0 w (Q : Z → State → Prop) : calm m0 w → (∀ w', calm m0 w' → Q (owner e a n) w') → ewp (locate e a n) w Q.
Proof.
  intros Hs HQ. unfold locate, owner in *. apply wp_seq.
  assert (∀ k b w, calm m0 w → ewp (if b : bool then ecall (ESegRankByAddr k a n) else Ret (plain 0)) w
    (λ x w', calm m0 w' ∧ match (if b then rank_at k a n else None) with Some r => e_ret x ≠ 0 ∧ e_val x = r | None => e_ret x = 0 end)) as Hk.
  { intros k [] w0 H0; [|by split]. apply (ask_still _ _ m0); [done| |done|]; [by intros ? ? ? [? _]|]. by intros x _ w' [_ Hx] Hw'. }
  eapply wp_mono; [by apply Hk|]. intros x w1 [H1 Hx]. cbn beta in *. destruct (if dramSegment_ e then _ else _) as [r|].
  - destruct Hx as [Hx <-]. apply Z.eqb_neq in Hx. rewrite Hx. by apply HQ.
  - rewrite Hx. cbn [negb Z.eqb]. apply wp_seq. eapply wp_mono; [by apply Hk|]. intros y w2 [H2 Hy]. destruct (if hbmSegment_ e then _ else _) as [r|].
    + destruct Hy as [Hy <-]. apply Z.eqb_neq in Hy. rewrite Hy. by apply HQ.
    + rewrite Hy. by apply HQ.
Qed.
Lemma check_wp e a n m0 w (Q : bool → State → Prop) : calm m0 w → (∀ w', calm m0 w' → Q (in_entity e a n) w') →
  ewp (CheckAddressInEntity e a n) w Q.
Proof.
  intros Hs HQ. unfold CheckAddressInEntity, in_entity in *. destruct (initialized_ e); [|by apply HQ]. cbn [negb andb] in *.
  assert (∀ k b w, calm m0 w → ewp (if b : bool then eflag (ESegInRange k a n) else Ret false) w
    (λ x w', calm m0 w' ∧ x = b && in_range k a n)) as Hk.
  { intros k [] w0 H0; [|by split]. apply (ask_still _ _ m0); [done| |done|]; [by intros ? ? ? [? _]|].
    intros x _ w' [_ Hx] Hw'. split; [done|]. cbn. destruct (in_range k a n), (Z.eqb_spec (e_ret x) 0); intuition. }
  apply wp_seq. eapply wp_mono; [by apply Hk|]. intros x w1 [H1 ->]. cbn beta.
  destruct (hbmSegment_ e && in_range Hbm a n); [by apply HQ|]. eapply wp_mono; [by apply Hk|]. intros y w2 [H2 ->]. by apply HQ.
Qed.
Lemma device_wp m0 w (Q : Z → State → Prop) : calm m0 w → (∀ r w', calm m0 w' → Q r w') → ewp SetThreadAclDevice w Q.
Proof.
  intros Hs HQ. unfold SetThreadAclDevice. apply (ask_still _ _ m0); [done|by intros|done|]. intros x _ w1 _ H1. cbn.
  destruct (negb _); [by apply HQ|]. apply (ask_still _ _ m0); [done|by intros|done|]. intros y _ w2 _ H2. cbn.
  destruct (negb _); [by apply HQ|]. apply (ask_still _ _ m0); [done|by intros|done|]. intros z _ w3 _ H3. by apply HQ.
Qed.
Lemma locate_both_wp e j m0 w (Q : hybm_copy_params * (Z * Z) → State → Prop) : calm m0 w →
  (∀ w', calm m0 w' → Q (masked j, ends e j) w') → ewp (LocateAddrAndRank e j) w Q.
Proof. intros Hs HQ. apply wp_seq. eapply locate_wp; [done|]. intros w1 H1. apply wp_seq. eapply locate_wp; [done|]. intros w2 H2. by apply HQ. Qed.
Lemma valid_wp e d j m0 w (Q : bool → State → Prop) : calm m0 w → (∀ w', calm m0 w' → Q (covered e d j) w') → ewp (address_valid e d j) w Q.
Proof.
  intros Hs HQ. unfold address_valid, covered in *. apply wp_seq. destruct (g_checkMap d) as [cs cd]. cbn [fst snd] in *.
  assert (∀ w', calm m0 w' → ewp (if cs then if negb cd || in_entity e (dest j) (dataSize j) then CheckAddressInEntity e (src j) (dataSize j) else Ret false else Ret (negb cd || in_entity e (dest j) (dataSize j))) w' Q) as Hrest.
  { intros w' Hw'. destruct cs; cbn [negb orb] in *; [|by apply HQ]. destruct (negb cd || _) eqn:E.
    - eapply check_wp; [done|]. intros w2 H2. specialize (HQ w2 H2). by rewrite andb_true_r in HQ.
    - specialize (HQ w' Hw'). by rewrite andb_false_r in HQ. }
  destruct cd; cbn [negb orb] in *; [|by apply Hrest]. eapply check_wp; [done|]. intros w1 H1. by apply Hrest.
Qed.

Lemma mask_mask j : mkParams (Valid48BitsAddress (src (masked j))) (Valid48BitsAddress (dest (masked j))) (dataSize (masked j)) = masked j.
Proof. unfold masked, Valid48BitsAddress. cbn. by rewrite <- !Z.land_assoc. Qed.
Lemma infer_wp va d j m0 w (Q : hybm_data_copy_direction → State → Prop) : calm m0 w → chosen va d j ≠ None →
  (∀ d', chosen va d j = Some d' → Q d' w) → ewp (infer va d j) w Q.
Proof. intros Hs Hne HQ. unfold infer, chosen in *. destruct (is_auto d); [|by apply HQ]. destruct (InferCopyDirection _ _ _); [by apply HQ|done]. Qed.

(** What the call leaves, from memory [w], unless an operator that failed has left
    something under way. *)
Definition left_tidy (ms : list Move) (w : World) (r : Z) (x' : State) : Prop := x'.2 = false → tidy X S ms w x'.1 r.
Lemma left_idle ms w r x' : calm (mem w) x' → r ≠ 0 → left_tidy ms w r x'.
Proof. intros [Hs _] Hr _. by apply tidy_idle. Qed.
Lemma left_from ms w x1 r x' : orderly ms (either X S) → calm (mem w) x1 → leaves X S ms x1 r x' → left_tidy ms w r x'.
Proof. intros Ho [Hs _] Hl E. destruct (Hl E) as [_ Ht]. by eapply tidy_from. Qed.
Lemma calm_settled m0 x : calm m0 x → settled X x.
Proof. intros [Hs _] _. by eapply still_rebase. Qed.

(** Every operator the tags allow between the two ranks makes the copy or refuses it. *)
Definition copy_able (e : MemEntityDefault) (d : hybm_data_copy_direction) (stream flags : Z) (j : hybm_copy_params) : Prop :=
  ∀ op, op ∈ GetPrioritedDataOperators comp (tags_of e) (mkOptions (ends e j).1 (ends e j).2 stream) →
    able me S T ops hpool dpool hlive dlive op.2 d (ends e j) flags (masked j).

(** One copy of an entity that knows its operator. *)
Lemma copy_data_wp e j d stream flags w x1 : dataOperator_ e = true → copy_able e d stream flags j →
  orderly (byte_plan (ends e j) (masked j)) (either X S) → calm (mem w) x1 →
  ewp (CopyData e j d stream flags) x1 (left_tidy (byte_plan (ends e j) (masked j)) w).
Proof.
  intros Hop Hable Ho Hs. unfold CopyData. destruct (initialized_ e); [|by apply left_idle]. cbn [negb]. apply wp_seq. eapply device_wp; [done|].
  intros r x2 H2. destruct (negb (r =? BM_OK)); [by apply left_idle|]. apply wp_seq. eapply locate_both_wp; [done|]. intros x3 H3. cbv beta iota zeta.
  rewrite Hop, mask_mask. replace (if negb _ then masked j else masked j) with (masked j) by (by destruct (negb _)).
  set (o := mkCopyOptions (mkOptions (ends e j).1 (ends e j).2 stream) flags []).
  assert (ranks_of (ext o) = ends e j) as Er by done.
  pose proof (compose_copy_exact me X S T ops hpool dpool hlive dlive HSX comp (tags_of e) (masked j) d o x3) as Hw. rewrite Er in Hw.
  specialize (Hw Hable Ho (calm_settled _ _ H3)). split; [by eapply wp_mono|]. intros x4 a Hl.
  eapply left_from; [done|exact H3|]. exact (wp_leads _ _ _ _ _ _ _ Hw Hl).
Qed.

(** C10: a copy asked for through the interface by two addresses that are apart and
    apart from the scratch memory, which each operator the tags of the two ranks
    allow makes or refuses ([able]: addresses that do not wrap, local memory at the
    caller's rank, over SDMA both ends there, no asynchronous copy and a length it
    can copy).  Unless an operator that was tried and failed has left part of the
    copy under way: success means that the bytes of the source, in the memory of the
    rank its address belongs to, are at the destination, in the memory of the rank
    that address belongs to; nothing else is written, on errors too, and nothing is
    left under way, nor anything undefined done.  In any case the entity is as before,
    and success means that the ends that must be global lie in the entity. *)
Theorem entity_copy_exact va f p e j d stream flags w :
  FindEngineByPtr f p = Some p → heap f !! p = Some e → dataOperator_ e = true → chosen va d j ≠ None →
  (∀ d', chosen va d j = Some d' → copy_able e d' stream flags j) →
  orderly (byte_plan (ends e j) (masked j)) (either X S) → still (mem w) X w →
  ewp (hybm_data_copy va f p (Some j) d stream flags) (w, false) (λ y x', y.1 = f ∧
    (x'.2 = false → tidy X S (byte_plan (ends e j) (masked j)) w x'.1 y.2) ∧
    (y.2 = BM_OK → ∃ d', chosen va d j = Some d' ∧ covered e d' j = true)).
Proof.
  intros Hf He Hop Hch Hable Ho Hs. unfold hybm_data_copy. assert (calm (mem w) (w, false)) as H0 by done.
  assert (∀ x', calm (mem w) x' → f = f ∧ left_tidy (byte_plan (ends e j) (masked j)) w BM_INVALID_PARAM x' ∧
    (BM_INVALID_PARAM = BM_OK → ∃ d', chosen va d j = Some d' ∧ covered e d' j = true)) as Hbad by (intros x' H'; split_and!; [done|by apply left_idle|done]).
  destruct (p =? nullptr) eqn:Ep; [by apply Hbad|]. destruct (_ || _ || _ || _); [by apply Hbad|].
  apply wp_seq. eapply infer_wp; [done..|]. intros d' Hd'. destruct (is_butt d'); [by apply Hbad|].
  unfold with_entity. rewrite Ep, Hf. unfold at_address. rewrite He. apply wp_seq, wp_seq, wp_seq. eapply valid_wp; [done|]. intros x1 H1.
  assert (set_heap f (<[p := e]> (heap f)) = f) as Hsame by (rewrite insert_id by done; by destruct f).
  destruct (covered e d' j) eqn:Ec; cbn [negb]; [|cbn; rewrite Hsame; by apply Hbad].
  eapply wp_mono; [by apply (copy_data_wp e j d' stream flags w x1); [|apply Hable|..]|].
  intros r x2 Ht. cbn. rewrite Hsame. split_and!; [done|done|]. by exists d'.
Qed.

(** ** Batches *)

(** The groups of a batch, as pairs of ranks and the indices with them. *)
Fixpoint grouped (e : MemEntityDefault) (jobs : list hybm_copy_params) (i : nat) (gs : gmap (Z * Z) (list nat)) : gmap (Z * Z) (list nat) :=
  match jobs with
  | [] => gs
  | j :: jobs => grouped e jobs (Datatypes.S i) (<[ends e j := default [] (gs !! ends e j) ++ [i]]> gs)
  end.
Lemma locate_all_wp e jobs m0 w : ∀ i gs (Q : list hybm_copy_params * gmap (Z * Z) (list nat) → State → Prop), calm m0 w →
  (∀ w', calm m0 w' → Q (masked <$> jobs, grouped e jobs i gs) w') → ewp (locate_all e jobs i gs) w Q.
Proof.
  revert w. induction jobs as [|j jobs IH]; intros w i gs Q Hs HQ; [by apply HQ|]. cbn [locate_all]. apply wp_seq.
  eapply locate_both_wp; [done|]. intros w1 H1. cbn beta iota. apply wp_seq. apply IH; [done|]. intros w2 H2. by apply HQ.
Qed.
Definition flat (gs : list (Z * Z * list nat)) : list (Z * Z * nat) := gs ≫= λ g, pair g.1 <$> g.2.
Lemma flat_perm gs gs' : gs ≡ₚ gs' → flat gs ≡ₚ flat gs'.
Proof. intros H. unfold flat. by rewrite H. Qed.
Lemma flat_add (gs : gmap (Z * Z) (list nat)) p i : flat (map_to_list (<[p := default [] (gs !! p) ++ [i]]> gs)) ≡ₚ (p, i) :: flat (map_to_list gs).
Proof.
  destruct (gs !! p) as [l|] eqn:E; cbn [default].
  - rewrite <- (insert_delete_eq gs). rewrite (flat_perm _ _ (map_to_list_insert _ _ _ (lookup_delete_eq gs p))).
    rewrite <- (insert_id gs p l E) at 2. rewrite <- (insert_delete_eq gs).
    rewrite (flat_perm _ _ (map_to_list_insert _ _ _ (lookup_delete_eq gs p))). cbn [flat]. unfold flat. cbn.
    rewrite fmap_app. cbn. by rewrite <- Permutation_middle, app_nil_r || (rewrite <- app_assoc; cbn; by rewrite <- Permutation_middle).
  - rewrite (flat_perm _ _ (map_to_list_insert _ _ _ E)). done.
Qed.
Lemma grouped_all e jobs i gs : flat (map_to_list (grouped e jobs i gs)) ≡ₚ imap (λ k j, (ends e j, (i + k)%nat)) jobs ++ flat (map_to_list gs).
Proof.
  revert i gs. induction jobs as [|j jobs IH]; intros i gs; [done|]. cbn [grouped imap]. rewrite IH, flat_add. rewrite Nat.add_0_r. cbn.
  rewrite <- Permutation_middle. apply perm_skip. apply Permutation_app_tail.
  erewrite imap_ext; [reflexivity|]. intros k j' _. cbn. f_equal. lia.
Qed.
Definition batch_moves (e : MemEntityDefault) (jobs : list hybm_copy_params) : list Move :=
  jobs ≫= λ j, byte_plan (ends e j) (masked j).
Definition of_index (jobs : list hybm_copy_params) (x : Z * Z * nat) : list Move :=
  match jobs !! x.2 with Some j => byte_plan x.1 j | None => [] end.
Lemma of_groups_flat jobs gs : of_groups jobs gs = flat gs ≫= of_index jobs.
Proof.
  induction gs as [|[p l] gs IH]; [done|]. cbn [flat]. unfold of_groups, flat in *. cbn. rewrite bind_app. f_equal; [|exact IH].
  unfold of_group. cbn. clear IH. induction l as [|i l IH]; [done|]. cbn. by rewrite IH.
Qed.
Lemma indices_plan e pre jobs : imap (λ k j, (ends e j, (length pre + k)%nat)) jobs ≫= of_index (masked <$> pre ++ jobs) = batch_moves e jobs.
Proof.
  revert pre. induction jobs as [|j jobs IH]; intros pre; [done|]. cbn [imap]. unfold batch_moves. cbn. f_equal.
  - unfold of_index. cbn. rewrite Nat.add_0_r, list_lookup_fmap, lookup_app_r, Nat.sub_diag by done. done.
  - replace (pre ++ j :: jobs) with ((pre ++ [j]) ++ jobs) by (by rewrite <- app_assoc).
    etransitivity; [|apply (IH (pre ++ [j]))]. rewrite length_app. f_equal. apply imap_ext. intros k j' _. cbn. f_equal. lia.
Qed.
(** The groups hold every entry exactly once. *)
Lemma groups_plan e jobs gs : gs ≡ₚ map_to_list (grouped e jobs 0 ∅) → of_groups (masked <$> jobs) gs ≡ₚ batch_moves e jobs.
Proof.
  intros Hp. rewrite of_groups_flat, (flat_perm _ _ Hp), grouped_all, map_to_list_empty. unfold flat. cbn. rewrite app_nil_r.
  by apply reflexive_eq, (indices_plan e [] jobs).
Qed.
(** An entry of a group is one of the batch, and the ranks of the group are its own. *)
Lemma groups_ends e jobs gs p l i : gs ≡ₚ map_to_list (grouped e jobs 0 ∅) → (p, l) ∈ gs → i ∈ l →
  ∃ j, jobs !! i = Some j ∧ p = ends e j.
Proof.
  intros Hp Hg Hi.
  assert ((p, i) ∈ flat gs) as Hin by (apply list_elem_of_bind; exists (p, l); split; [by apply list_elem_of_fmap; exists i|done]).
  rewrite (flat_perm _ _ Hp), grouped_all, map_to_list_empty in Hin. unfold flat in Hin. cbn in Hin. rewrite app_nil_r in Hin.
  apply elem_of_lookup_imap in Hin as (k & j & [= -> ->] & Hj). by exists j.
Qed.
Lemma grouped_full e jobs i gs : map_Forall (λ _ l, l ≠ []) gs → map_Forall (λ _ l, l ≠ []) (grouped e jobs i gs).
Proof.
  revert i gs. induction jobs as [|j jobs IH]; intros i gs H; [done|]. cbn. apply IH, map_Forall_insert_2; [|done].
  intros E. apply (f_equal List.length) in E. rewrite length_app in E. cbn in E. lia.
Qed.
Lemma groups_indexed e jobs gs : gs ≡ₚ map_to_list (grouped e jobs 0 ∅) → indexed (masked <$> jobs) gs.
Proof.
  intros Hp. unfold indexed. rewrite Forall_forall. intros [p l] Hg. split.
  - rewrite Hp in Hg. apply elem_of_map_to_list in Hg. by apply (grouped_full e jobs 0 ∅ (map_Forall_empty _) p l).
  - rewrite Forall_forall. intros i Hi. destruct (groups_ends e jobs gs p l i Hp Hg Hi) as (j & Hj & _). rewrite list_lookup_fmap, Hj. by eexists.
Qed.
Lemma entries_wp e d jobs m0 w (Q : bool → State → Prop) : calm m0 w →
  (∀ b w', (b = true → Forall (λ j, covered e d j = true) jobs) → calm m0 w' → Q b w') → ewp (entries_valid e d jobs) w Q.
Proof.
  revert w Q. induction jobs as [|j jobs IH]; intros w Q Hs HQ; [by apply HQ|]. cbn [entries_valid]. destruct (_ || _); [by apply HQ|].
  apply wp_seq. eapply valid_wp; [done|]. intros w1 H1. destruct (covered e d j) eqn:E; cbn [negb]; [|by apply HQ].
  apply IH; [done|]. intros b w2 Hb. apply HQ. intros ->. by constructor; [|apply Hb].
Qed.

(** Every operator the tags allow, for a batch between the ranks 0 and 0, makes the
    copies of the batch or refuses them. *)
Definition entries_able (e : MemEntityDefault) (d : hybm_data_copy_direction) (stream flags : Z) (jobs : list hybm_copy_params) : Prop :=
  ∀ op, op ∈ GetPrioritedDataOperators comp (tags_of e) (mkOptions 0 0 stream) →
    ready_op me S T ops hpool dpool hlive dlive op.2 ∧
    match op.2 with
    | OpSdma => has_flag flags ASYNC_COPY_FLAG = false ∧ Forall job_fits (masked <$> jobs) ∧ sdma_lengths d flags (masked <$> jobs) ∧
        Forall (λ j, ends e j = (me, me)) jobs
    | k => Forall (λ j, group_able me ops k d (ends e j) (masked j)) jobs
    end.
Lemma entries_batch e d stream flags jobs gs : entries_able e d stream flags jobs → gs ≡ₚ map_to_list (grouped e jobs 0 ∅) →
  ∀ op, op ∈ GetPrioritedDataOperators comp (tags_of e) (mkOptions 0 0 stream) →
    batch_able me S T ops hpool dpool hlive dlive op.2 d (mkCopyOptions (mkOptions 0 0 stream) flags gs) (masked <$> jobs).
Proof.
  intros Hable Hp op Hop. destruct (Hable op Hop) as [Hready Hk]. split; [done|].
  assert (∀ k, Forall (λ j, group_able me ops k d (ends e j) (masked j)) jobs →
    Forall (λ g, ∀ i j, i ∈ g.2 → (masked <$> jobs) !! i = Some j → group_able me ops k d g.1 j) gs) as Hgs.
  { intros k Hall. apply Forall_forall. intros [p l] Hg i j' Hi Hj'. destruct (groups_ends e jobs gs p l i Hp Hg Hi) as (j & Hj & ->).
    rewrite list_lookup_fmap, Hj in Hj'. injection Hj' as <-. rewrite Forall_forall in Hall. apply Hall. by eapply list_elem_of_lookup_2. }
  destruct op as [type []]; cbn [snd] in *; [|by apply Hgs..]. destruct Hk as (Hfl & Hj & Hsz & Hends). split_and!; [done..|].
  cbn [groupMap]. rewrite (groups_plan e jobs gs Hp). unfold batch_moves. rewrite list_fmap_bind. apply reflexive_eq, bind_same.
  intros j Hin. rewrite Forall_forall in Hends. cbn. by rewrite (Hends j Hin).
Qed.

(** C9: a batch asked for through the interface, its destinations apart from one
    another, the sources and the scratch memory, which each operator the tags allow
    makes or refuses ([entries_able]: addresses that do not wrap, local memory at the
    caller's rank, owners found in the address spaces of the operator to be those of
    the segments, one of two global ends at the caller's over host RDMA; over SDMA
    all ends there, no asynchronous copy, and below 4 GiB).  The entries are grouped
    by the ranks that own their two addresses, and the groups copied in whatever
    order.  Unless an operator that was tried and failed has left part of the batch
    under way: success means that every entry has been copied between the memories of
    its two ranks; nothing else is written, on errors too, and nothing is left under
    way, nor anything undefined done.  In any case the entity is as before, and success
    means that every end that must be global lies in the entity. *)
Theorem entity_batch_exact group_order va f p e j jobs d stream flags w :
  (∀ gs, group_order gs ≡ₚ map_to_list gs) → heap f !! p = Some e → dataOperator_ e = true → chosen va d j ≠ None →
  (∀ d', chosen va d j = Some d' → entries_able e d' stream flags (j :: jobs)) →
  orderly (batch_moves e (j :: jobs)) (either X S) → still (mem w) X w →
  ewp (hybm_data_batch_copy group_order va f p (Some (j :: jobs)) d stream flags) (w, false)
    (λ y x', y.1 = f ∧ (x'.2 = false → tidy X S (batch_moves e (j :: jobs)) w x'.1 y.2) ∧
      (y.2 = BM_OK → ∃ d', chosen va d j = Some d' ∧ Forall (λ j, covered e d' j = true) (j :: jobs))).
Proof.
  intros Hord He Hop Hch Hable Ho Hs. unfold hybm_data_batch_copy. set (all := j :: jobs) in *.
  assert (calm (mem w) (w, false)) as H0 by done.
  set (Q := λ (y : MemEntityFactory * Z) x', y.1 = f ∧ left_tidy (batch_moves e all) w y.2 x' ∧
    (y.2 = BM_OK → ∃ d', chosen va d j = Some d' ∧ Forall (λ j, covered e d' j = true) all)).
  assert (∀ r x', r ≠ 0 → calm (mem w) x' → Q (f, r) x') as Hbad by (intros r x' Hr H'; split_and!; [done|by apply left_idle|done]).
  destruct (p =? nullptr); [by apply Hbad|]. destruct (is_butt d); [by apply Hbad|].
  apply wp_seq. eapply infer_wp; [done..|]. intros d' Hd'. destruct (is_butt d'); [by apply Hbad|].
  unfold at_address. rewrite He. apply wp_seq, wp_seq, wp_seq. eapply entries_wp; [done|]. intros b x1 Hb H1.
  assert (set_heap f (<[p := e]> (heap f)) = f) as Hsame by (rewrite insert_id by done; by destruct f).
  assert (∀ r x', Q (f, r) x' → wp eok estep (Ret r) x' (λ r x', wp eok estep (Ret (e, r)) x' (λ y x', Q (set_heap f (<[p := y.1]> (heap f)), y.2) x'))) as Hret
    by (intros r x' HQ; cbn; by rewrite Hsame).
  destruct b; cbn [negb]; [|by apply Hret, Hbad].
  unfold BatchCopyData. destruct (initialized_ e); cbn [negb]; [|by apply Hret, Hbad]. apply wp_seq. eapply device_wp; [done|].
  intros r x2 H2. destruct (negb (r =? BM_OK)); [by apply Hret, Hbad|]. rewrite Hop. cbn [negb]. apply wp_seq.
  eapply locate_all_wp; [done|]. intros x3 H3. specialize (Hord (grouped e all 0 ∅)). set (gs := group_order (grouped e all 0 ∅)) in *.
  pose proof (groups_plan e all gs Hord) as Hperm.
  pose proof (compose_batch_exact me X S T ops hpool dpool hlive dlive HSX Horder Harrays comp (tags_of e) (masked <$> all) d'
    (mkCopyOptions (mkOptions 0 0 stream) flags gs) x3 (entries_batch e d' stream flags all gs (Hable d' Hd') Hord) (groups_indexed e all gs Hord)
    ltac:(by eapply orderly_perm) (calm_settled _ _ H3)) as Hw.
  split; [by eapply wp_mono|]. intros x4 a Hl. cbn. rewrite Hsame. split_and!; [done| |by exists d'; split; [done|apply Hb]].
  pose proof (wp_leads _ _ _ _ _ _ _ Hw Hl) as Hlv. eapply left_from; [done|exact H3|]. intros E. destruct (Hlv E) as [E3 Ht].
  split; [done|]. by apply (tidy_perm _ _ _ _ _ _ _ Hperm).
Qed.
End Copies.

(** ** Host memory of all ranks in one range *)
Definition conn_range (s : HybmConnBasedSegment) (k : Seg) (a n : Z) : bool := match k with Dram => MemoryInRange s a n | Hbm => false end.
Definition conn_rank (s : HybmConnBasedSegment) (k : Seg) (a n : Z) : option Z :=
  match k with Dram => let x := GetRankIdByAddr s a n in if x.1 then Some x.2 else None | Hbm => None end.
(** An address in the part of a rank belongs to that rank. *)
Lemma owner_of_part s e r a n : dramSegment_ e = true → let g := globalVirtualAddress_ s in let m := maxSize (ConnSegment.options_ s) in
  0 < m → 0 ≤ r < 2 ^ 32 → 0 ≤ g → g + totalVirtualSize_ s < 2 ^ 64 → (r + 1) * m ≤ totalVirtualSize_ s → 0 ≤ n →
  g + r * m ≤ a → a + n ≤ g + (r + 1) * m → a < g + (r + 1) * m →
  owner (conn_rank s) e a n = r ∧ (initialized_ e = true → in_entity (conn_range s) e a n = true).
Proof.
  intros Hd g m Hm Hr Hg Ht Hfit Hn Ha1 Ha2 Ha3.
  assert (MemoryInRange s a n = true) as Hin.
  { unfold MemoryInRange. fold g. destruct (Z.ltb_spec a g); [nia|]. rewrite !u64_small by nia. destruct (Z.ltb_spec (g + totalVirtualSize_ s) (a + n)); [nia|done]. }
  unfold owner, in_entity, conn_rank, conn_range, GetRankIdByAddr. rewrite Hd, Hin. cbn [negb fst snd andb orb]. fold g m. split; [|by intros ->; rewrite andb_false_r].
  rewrite (u64_small (a - g)) by nia. replace ((a - g) / m) with r; [by apply u32_small|]. apply (Z.div_unique _ _ _ (a - g - r * m)); nia.
Qed.

(** ** Runs *)
Definition demo_g : Z := 0x280000000000.
Definition demo_segment : HybmConnBasedSegment := mkConn (ConnSegment.mkOptions HYBM_MST_DRAM LARGE_PAGE_SIZE 0 2 (-1)) demo_g (2 * LARGE_PAGE_SIZE) demo_g 0 0 ∅ ∅ [] ∅.
Definition demo_hybm : hybm_options := mkHybm 1 HYBM_MEM_TYPE_HOST 8 2 0 0 LARGE_PAGE_SIZE 0 (2 * LARGE_PAGE_SIZE) 1 true 0 0 [] [] [] (-1).
(** Also the operators of a batch, which are chosen by the ranks 0 and 0. *)
Definition demo_entity_tags : HybmEntityTagInfo := (AddTagOpInfo demo_tags (bytes_of_str "a:HOST_RDMA:a"%string)).1.
Definition demo_entity : MemEntityDefault := mkEntity true 3 demo_hybm 0 demo_g false true true true true ∅ ∅ (Some demo_entity_tags).
Definition demo_factory : MemEntityFactory := mkFactory {[3 := 77]} {[77 := 3]} {[77 := demo_entity]}.
(** The segment above, and the operators of [ComposeDataOpSpec]. *)
Definition demo_parts (x : State) (c : ECall) : State * EAns :=
  match c with
  | ESegInRange k a n => (x, plain (Z.b2z (conn_range demo_segment k a n)))
  | ESegRankByAddr k a n => (x, match conn_rank demo_segment k a n with Some r => mkAns 1 r [] None [] | None => plain 0 end)
  | EOpDataCopy tags j d o => let y := run demo_operators (ComposeDataOp.DataCopy demo_compose tags j d o) x in (y.1, plain y.2)
  | EOpBatchDataCopy tags jobs d o => let y := run demo_operators (ComposeDataOp.BatchDataCopy demo_compose tags jobs d o) x in (y.1, plain y.2)
  | _ => (x, plain 0)
  end.
Lemma demo_parts_step x c : at_rest x → eok 0 none none demo_ops demo_compose x c →
  estep 0 none none demo_ops demo_compose (conn_range demo_segment) (conn_rank demo_segment) x c (demo_parts x c).1 (demo_parts x c).2 ∧
  at_rest (demo_parts x c).1.
Proof.
  intros Hx. assert (passed x x) as Hp by done. destruct c; cbn [eok estep demo_parts fst snd]; intros Hok; try done.
  - split; [|done]. split; [done|]. cbn. by destruct (conn_range _ _ _ _).
  - split; [|done]. split; [done|]. by destruct (conn_rank _ _ _ _).
  - exact (wp_run_leads _ _ at_rest demo_operators _ x _ demo_operators_step Hx Hok).
  - exact (wp_run_leads _ _ at_rest demo_operators _ x _ demo_operators_step Hx Hok).
Qed.
Lemma demo_at_rest : at_rest (demo_world, false).
Proof. by split. Qed.
Definition demo_to (rank a n : Z) (from : Z) : hybm_copy_params := mkParams from (demo_g + rank * LARGE_PAGE_SIZE + a) n.
Definition demo_job1 : hybm_copy_params := demo_to 1 20 3 10.
Definition demo_chosen {d d' : hybm_data_copy_direction} : Some d = Some d' → d' = d.
Proof. by intros [= ->]. Defined.
Lemma entity_copy_exact_witness :
  let x := run demo_parts (hybm_data_copy va_new demo_factory 77 (Some demo_job1) HYBM_LOCAL_HOST_TO_GLOBAL_HOST 0 0) (demo_world, false) in
  x.2.2 = BM_OK ∧ mem x.1.1 (1, demo_g + LARGE_PAGE_SIZE + 21) = mem demo_world (0, 11).
Proof.
  pose proof (entity_copy_exact 0 none demo_scratch none demo_ops demo_hpool demo_dpool ∅ ∅ demo_compose nothing_else
    (conn_range demo_segment) (conn_rank demo_segment) va_new demo_factory 77
    demo_entity demo_job1 HYBM_LOCAL_HOST_TO_GLOBAL_HOST 0 0 demo_world) as Hw.
  apply (wp_run_inv _ _ at_rest demo_parts _ _ _ demo_parts_step demo_at_rest) in Hw;
    [|vm_compute; reflexivity|vm_compute; reflexivity|reflexivity|discriminate| | |exact demo_still].
  - assert (∀ P Q : Prop, P ∧ (P → Q) → P ∧ Q) as Hand by tauto. apply Hand. split; [vm_compute; reflexivity|]. intros Hret.
    destruct Hw as (_ & Ht & _). apply (ti_moved _ _ _ _ _ _ (Ht ltac:(vm_compute; reflexivity)) Hret). apply (bool_decide_unpack _). vm_compute. exact I.
  - intros d' ->%demo_chosen op Hop%demo_no_sdma. split; [by apply demo_ready_op|]. split; [vm_compute; intuition discriminate|].
    destruct op as [type []]; [by destruct Hop|split; [vm_compute; reflexivity|discriminate]..].
  - apply orderly_for_ok. apply (bool_decide_unpack _). vm_compute. exact I.
Defined.
Definition demo_batch : list hybm_copy_params := [demo_to 1 20 3 10; demo_to 0 7 2 13; demo_to 1 30 2 15].
Lemma entity_batch_exact_witness :
  let x := run demo_parts (hybm_data_batch_copy map_to_list va_new demo_factory 77 (Some demo_batch) HYBM_LOCAL_HOST_TO_GLOBAL_HOST 0 0) (demo_world, false) in
  x.2.2 = BM_OK ∧ mem x.1.1 (1, demo_g + LARGE_PAGE_SIZE + 31) = mem demo_world (0, 16).
Proof.
  pose proof (entity_batch_exact 0 none demo_scratch none demo_ops demo_hpool demo_dpool ∅ ∅ demo_compose nothing_else ltac:(done) ltac:(done)
    (conn_range demo_segment) (conn_rank demo_segment) map_to_list va_new demo_factory 77
    demo_entity (demo_to 1 20 3 10) [demo_to 0 7 2 13; demo_to 1 30 2 15] HYBM_LOCAL_HOST_TO_GLOBAL_HOST 0 0 demo_world) as Hw.
  apply (wp_run_inv _ _ at_rest demo_parts _ _ _ demo_parts_step demo_at_rest) in Hw;
    [|done|vm_compute; reflexivity|reflexivity|discriminate| | |exact demo_still].
  - assert (∀ P Q : Prop, P ∧ (P → Q) → P ∧ Q) as Hand by tauto. apply Hand. split; [vm_compute; reflexivity|]. intros Hret.
    destruct Hw as (_ & Ht & _). apply (ti_moved _ _ _ _ _ _ (Ht ltac:(vm_compute; reflexivity)) Hret). apply (bool_decide_unpack _). vm_compute. exact I.
  - intros d' ->%demo_chosen op Hop%demo_no_sdma. split; [by apply demo_ready_op|].
    assert (Forall (λ j, group_able 0 demo_ops op.2 HYBM_LOCAL_HOST_TO_GLOBAL_HOST (ends (conn_rank demo_segment) demo_entity j) (masked j)) demo_batch) as H;
      [|destruct op as [type []]; [by destruct Hop|exact H..]].
    apply Forall_forall. intros j Hj. apply demo_group_able; [done| |].
    + revert j Hj. apply Forall_forall. apply (bool_decide_unpack _). vm_compute. exact I.
    + revert j Hj. apply Forall_forall. apply (bool_decide_unpack _). vm_compute. exact I.
  - apply orderly_for_ok. apply (bool_decide_unpack _). vm_compute. exact I.
Defined.
