(* ===== verification/EntityImportSpec.v ===== *)
(** * Entities: exchange

    What ranks export reaches the transport of the rank that imports it: the network
    card, the role and the memory keys of every rank, and its tag the tag manager.
    [Card] and [Msg] are what a descriptor says; the entity's tables are those of the
    messages received. *)
From Stdlib Require Import Strings.Byte Strings.String.
From stdpp Require Import base numbers list gmap relations.
From S2P Require Import Prelude RangePool VaManager MemSlice StrUtil Fabric HostDataOp HcomHelper TagInfo HcomTransport ComposeDataOp Entity EntityApi EntitySpec.
Local Open Scope Z_scope.
Local Open Scope mf_scope.

(** ** Messages *)
Record Card := mkCard { c_rank : Z; c_role : Z; c_nic : bytes; c_tag : bytes }.
Definition no_nul (s : bytes) : Prop := forallb (λ b, negb (is_char 0 b)) s = true.
Record card_ok (c : Card) : Prop := {
  co_rank : 0 ≤ c_rank c < 2 ^ 16;
  co_role : 0 ≤ c_role c < 2 ^ 16;
  co_nic : (length (c_nic c) < NIC_SIZE)%nat ∧ no_nul (c_nic c);
  co_tag : tagPattern (c_tag c) = true;
}.
Definition card_info (c : Card) : EntityExportInfo :=
  mkExport ENTITY_EXPORT_INFO_MAGIC INFO_VERSION (c_rank c) (c_role c) (to_array NIC_SIZE (c_nic c)) (to_array TAG_SIZE (c_tag c)).
(** A card or a memory key, and what the segment has added. *)
Inductive Msg := MCard (c : Card) (rest : bytes) | MKey (k : Seg) (rank addr : Z) (key : TransportMemoryKey) (rest : bytes).
Definition magic_of (k : Seg) : Z := match k with Hbm => HBM_SLICE_EXPORT_INFO_MAGIC | Dram => DRAM_SLICE_MAGIC end.
Definition head_bytes (m : Msg) : bytes :=
  match m with MCard c _ => entity_bytes (card_info c) | MKey k r a key _ => Entity.key_bytes (mkTKey (magic_of k) r a key) end.
Definition rest_of (m : Msg) : bytes := match m with MCard _ rest | MKey _ _ _ _ rest => rest end.
Definition key_ok (key : TransportMemoryKey) : Prop := length key = (2 * KEY_SIZE)%nat ∧ Forall (λ z, 0 ≤ z < 2 ^ 64) key.
Definition msg_ok (m : Msg) : Prop :=
  match m with MCard c _ => card_ok c | MKey _ r a key _ => 0 ≤ r < 2 ^ 16 ∧ 0 ≤ a < 2 ^ 64 ∧ key_ok key end.
Definition holds (d : hybm_exchange_info) (m : Msg) : Prop := ex_ok d ∧ used d = head_bytes m ++ rest_of m ∧ msg_ok m.

(** ** Arrays of characters *)
Lemma c_string_array n s : no_nul s → (length s < n)%nat → c_string (to_array n s) = Some s.
Proof.
  unfold to_array, no_nul. revert n. induction s as [|b s IH]; intros n Hs Hl; cbn in *.
  - destruct n; [lia|done].
  - apply andb_true_iff in Hs as [Hb%negb_true_iff Hs]. rewrite Hb. destruct n as [|n]; [lia|]. cbn. rewrite IH by (done || lia). done.
Qed.
Lemma length_array n s : (length s ≤ n)%nat → length (to_array n s) = n.
Proof. intros H. unfold to_array. rewrite length_app, repeat_length. lia. Qed.
Lemma tag_no_nul s : tagPattern s = true → no_nul s ∧ (length s < TAG_SIZE)%nat.
Proof.
  unfold tagPattern, matches, no_nul. rewrite !andb_true_iff, Nat.leb_le, Nat.leb_le, !forallb_forall. intros [[_ H1] H2].
  split; [|unfold TAG_SIZE; lia]. intros b Hb. specialize (H2 b Hb). clear -H2. destruct b; done.
Qed.

(** ** Bytes of the structures *)
Lemma at_app (a b c : bytes) off n : length a = off → length b = n → at_bytes (a ++ b ++ c) off n = b.
Proof. intros <- <-. unfold at_bytes. by rewrite drop_app_length, take_app_length. Qed.
Lemma field_at (a : bytes) n z c off : length a = off → 0 ≤ z < 256 ^ Z.of_nat n → le_val (at_bytes (a ++ le_bytes n z ++ c) off n) = z.
Proof. intros Ha Hz. rewrite at_app; [by apply le_val_le_bytes_small|done|apply length_le_bytes]. Qed.
Lemma length_card c : card_ok c → length (entity_bytes (card_info c)) = 120%nat.
Proof.
  intros H. destruct (co_nic _ H) as [Hn _]. destruct (tag_no_nul _ (co_tag _ H)) as [_ Ht]. unfold entity_bytes. cbn [card_info x_magic x_version x_rankId x_role x_nic x_tag].
  rewrite !length_app, !length_le_bytes, !length_array by lia. done.
Qed.
Lemma card_read c : card_ok c → entity_of_bytes (entity_bytes (card_info c)) = card_info c.
Proof.
  intros H. destruct (co_nic _ H) as [Hn _]. destruct (tag_no_nul _ (co_tag _ H)) as [_ Ht]. pose proof (co_rank _ H). pose proof (co_role _ H).
  unfold entity_of_bytes, entity_bytes. set (nic := to_array NIC_SIZE (c_nic c)). set (tag := to_array TAG_SIZE (c_tag c)).
  assert (length nic = NIC_SIZE) as Ln by (apply length_array; lia). assert (length tag = TAG_SIZE) as Lt by (apply length_array; lia).
  cbn [card_info x_magic x_version x_rankId x_role x_nic x_tag]. fold nic tag. unfold card_info. fold nic tag. f_equal.
  - rewrite (app_assoc (le_bytes 8 _)). apply (field_at _ 2); [by rewrite length_app, !length_le_bytes|done].
  - rewrite (app_assoc (le_bytes 8 _)), (app_assoc _ (le_bytes 2 (c_rank c))). apply (field_at _ 2); [by rewrite !length_app, !length_le_bytes|done].
  - rewrite (app_assoc (le_bytes 8 _)), (app_assoc _ (le_bytes 2 (c_rank c))), (app_assoc _ (le_bytes 2 (c_role c))), (app_assoc _ (le_bytes 4 0)).
    apply at_app; [by rewrite !length_app, !length_le_bytes|done].
  - rewrite (app_assoc (le_bytes 8 _)), (app_assoc _ (le_bytes 2 (c_rank c))), (app_assoc _ (le_bytes 2 (c_role c))), (app_assoc _ (le_bytes 4 0)), (app_assoc _ nic).
    rewrite <- (app_nil_r tag) at 1. apply at_app; [by rewrite !length_app, !length_le_bytes, Ln|done].
Qed.
Lemma length_key_words key : length (key ≫= le_bytes 8) = (8 * length key)%nat.
Proof. induction key as [|z key IH]; [done|]. rewrite bind_cons, length_app, length_le_bytes, IH. cbn [length]. lia. Qed.
Lemma words_read key : ∀ (pre : bytes), Forall (λ z, 0 ≤ z < 2 ^ 64) key →
  (λ i, le_val (at_bytes (pre ++ (key ≫= le_bytes 8)) (length pre + 8 * i) 8)) <$> seq 0 (length key) = key.
Proof.
  induction key as [|z key IH]; intros pre Hk; [done|]. apply Forall_cons in Hk as [Hz Hk]. cbn [length seq fmap list_fmap]. f_equal.
  - apply (field_at pre 8); [lia|done].
  - rewrite <- (IH (pre ++ le_bytes 8 z)) at 2 by done. rewrite <- fmap_S_seq, <- list_fmap_compose. apply list_fmap_ext. intros _ i _. unfold compose.
    rewrite length_app, length_le_bytes. cbn [mbind list_bind]. rewrite <- app_assoc. do 2 f_equal. lia.
Qed.
Lemma length_key k r a key : key_ok key → length (Entity.key_bytes (mkTKey (magic_of k) r a key)) = 248%nat.
Proof. intros [Hl _]. unfold Entity.key_bytes. cbn [k_magic k_rankId k_address k_key]. rewrite !length_app, !length_le_bytes, length_key_words, Hl. done. Qed.
Lemma key_read k r a key : 0 ≤ r < 2 ^ 16 → 0 ≤ a < 2 ^ 64 → key_ok key →
  key_of_bytes (Entity.key_bytes (mkTKey (magic_of k) r a key)) = mkTKey (magic_of k) r a key.
Proof.
  intros Hr Ha [Hl Hk]. unfold key_of_bytes, Entity.key_bytes. cbn [k_magic k_rankId k_address k_key]. f_equal.
  - apply (field_at [] 8); [done|by destruct k].
  - by apply (field_at (le_bytes 8 _) 2); [apply length_le_bytes|].
  - rewrite (app_assoc (le_bytes 8 _)), (app_assoc _ (le_bytes 6 0)). apply (field_at _ 8); [by rewrite !length_app, !length_le_bytes|done].
  - rewrite (app_assoc (le_bytes 8 _)), (app_assoc _ (le_bytes 6 0)), (app_assoc _ (le_bytes 8 a)).
    set (pre := _ ++ le_bytes 8 a). assert (length pre = 24%nat) as Lp by (unfold pre; by rewrite !length_app, !length_le_bytes).
    etransitivity; [|apply (words_read key pre Hk)]. by rewrite Lp, Hl.
Qed.

(** ** Reading a message *)
Definition start_at (d : hybm_exchange_info) : ExchangeInfoReader := mkReader (Some d) 0.
Definition behind_head (d : hybm_exchange_info) (m : Msg) : ExchangeInfoReader := mkReader (Some d) (len (head_bytes m)).
Definition head_size (m : Msg) : Z := match m with MCard _ _ => sizeof_EntityExportInfo | MKey _ _ _ _ _ => sizeof_SliceExportTransportKey end.
Lemma len_head d m : holds d m → len (head_bytes m) = head_size m.
Proof.
  intros (_ & _ & Hm). unfold len. destruct m; cbn [head_bytes head_size msg_ok] in *; [by rewrite length_card|]. destruct Hm as (_ & _ & ?). by rewrite length_key.
Qed.
Lemma used_len d : ex_ok d → len (used d) = descLen d.
Proof. intros [H1 H2]. unfold used, len in *. rewrite length_take. lia. Qed.
Lemma read_front d m : holds d m → Reader_Read (start_at d) (head_size m) = Some (behind_head d m, inr (head_bytes m)).
Proof.
  intros Hh. pose proof (len_head _ _ Hh) as Hl. destruct Hh as (Hd & Hu & _). unfold start_at, behind_head.
  rewrite (read_used d 0 _ (head_bytes m)); [by rewrite Z.add_0_l|done|done| |done|by exists [], (rest_of m)].
  rewrite <- (used_len d Hd), Hu, len_app. pose proof (len_nonneg (rest_of m)). lia.
Qed.
Lemma test_head d m : holds d m → Reader_Test (start_at d) 8 = Some (inr (le_bytes 8 (match m with MCard _ _ => ENTITY_EXPORT_INFO_MAGIC | MKey k _ _ _ _ => magic_of k end))).
Proof.
  intros (Hd & Hu & Hm). set (z := match m with MCard _ _ => _ | _ => _ end). assert (∃ post, used d = le_bytes 8 z ++ post) as [post Hp].
  { rewrite Hu. unfold z. destruct m; cbn [head_bytes]; unfold entity_bytes, Entity.key_bytes; rewrite <- app_assoc; by eexists. }
  assert (Reader_Read (start_at d) 8 = Some (mkReader (Some d) (0 + len (le_bytes 8 z)), inr (le_bytes 8 z))) as Hr.
  { apply read_used; [done|done| |by rewrite len_le_bytes|by exists [], post].
    rewrite <- (used_len d Hd), Hp, len_app, !len_le_bytes. pose proof (len_nonneg post). lia. }
  unfold Reader_Read in Hr. destruct (Reader_Test (start_at d) 8) as [[|b]|]; cbn in Hr; by simplify_eq.
Qed.
Lemma magic_read z : 0 ≤ z < 2 ^ 64 → le_val (le_bytes 8 z) = z.
Proof. intros. by apply le_val_le_bytes_small. Qed.
Lemma left_rest d m : holds d m → ∃ r, Reader_LeftToString (behind_head d m) = Some (r, rest_of m).
Proof.
  intros Hh. pose proof (len_head _ _ Hh) as Hl. destruct Hh as (Hd & Hu & _). unfold Reader_LeftToString, behind_head. cbn [exchangeInfo_ readOffset_].
  pose proof (used_len d Hd) as Ul. rewrite Hu, len_app in Ul. pose proof (len_nonneg (rest_of m)).
  destruct (Z.leb_spec (descLen d) (len (head_bytes m))) as [Hle|Hgt].
  - assert (rest_of m = []) as -> by (apply length_zero_iff_nil; unfold len in *; lia). by eexists.
  - destruct Hd as [Hd1 Hd2]. destruct (Z.leb_spec (descLen d) DESC_SIZE); [|lia]. eexists. do 2 f_equal.
    assert (drop (length (head_bytes m)) (used d) = rest_of m) as <- by (rewrite Hu; by rewrite drop_app_length).
    unfold used. rewrite skipn_firstn_comm. unfold len. f_equal; [lia|]. by rewrite Nat2Z.id.
Qed.
Lemma left_count d m : holds d m → Reader_LeftBytes (behind_head d m) = len (rest_of m).
Proof.
  intros Hh. pose proof (len_head _ _ Hh) as Hl. destruct Hh as (Hd & Hu & _). unfold Reader_LeftBytes, behind_head. cbn [exchangeInfo_ readOffset_].
  pose proof (used_len d Hd) as Ul. rewrite Hu, len_app in Ul. pose proof (len_nonneg (rest_of m)).
  destruct (Z.leb_spec (descLen d) (len (head_bytes m))); lia.
Qed.
(** What is left begins with the magic of the segment, if it is long enough for one. *)
Lemma test_rest d m : holds d m → Reader_Test (behind_head d m) 8 = Some (if len (rest_of m) <? 8 then inl (-1) else inr (take 8 (rest_of m))).
Proof.
  intros Hh. pose proof (len_head _ _ Hh) as Hl. destruct Hh as (Hd & Hu & _). unfold Reader_Test, behind_head. cbn [exchangeInfo_ readOffset_].
  pose proof (used_len d Hd) as Ul. rewrite Hu, len_app in Ul. pose proof (len_nonneg (rest_of m)). pose proof (len_nonneg (head_bytes m)).
  destruct Hd as [Hd1 Hd2]. unfold DESC_SIZE in *. rewrite u64_small by lia.
  destruct (Z.ltb_spec (descLen d) (len (head_bytes m) + 8)), (Z.ltb_spec (len (rest_of m)) 8); try lia; [done|].
  destruct (Z.leb_spec (len (head_bytes m) + 8) 512); [|lia]. do 2 f_equal.
  assert (drop (length (head_bytes m)) (used d) = rest_of m) as <- by (rewrite Hu; by rewrite drop_app_length).
  unfold used. rewrite skipn_firstn_comm, take_take. unfold len in *. rewrite Nat2Z.id. f_equal. lia.
Qed.

(** ** What the entity has learned *)
Definition Tables : Type := gmap Z Card * gmap Z (list TransportMemoryKey).
Definition learn (uniq : bool) (x : Tables) (m : Msg) : Tables :=
  match m with
  | MCard c _ => (<[c_rank c := c]> x.1, x.2)
  | MKey _ r _ key _ => (x.1, <[r := (if uniq then [] else default [] (x.2 !! r)) ++ [key]]> x.2)
  end.
Definition learned (e : MemEntityDefault) (x : Tables) (ms : list Msg) : Tables := foldl (learn (ho_globalUniqueAddress (eo e))) x ms.
Definition with_tables (e : MemEntityDefault) (x : Tables) : MemEntityDefault := set_eimports e (card_info <$> x.1) x.2.
Definition is_card (m : Msg) : bool := match m with MCard _ _ => true | _ => false end.
Definition all_known (x : Tables) : Prop := map_Forall (λ r c, card_ok c ∧ c_rank c = r) x.1.
Lemma learned_known e x ms : all_known x → Forall msg_ok ms → all_known (learned e x ms).
Proof.
  unfold learned. revert x. induction ms as [|m ms IH]; intros x Hx Hm; [done|]. apply Forall_cons in Hm as [Hm Hms]. cbn. apply IH; [|done].
  destruct m; cbn; [|done]. by apply map_Forall_insert_2.
Qed.

Lemma precheck_eq e ds ms : Forall2 holds ds ms → ∀ x b, ImportForTransportPrecheck (with_tables e x) (start_at <$> ds) b =
  Ret (with_tables e (learned e x ms), zip_with behind_head ds ms, b || existsb is_card ms, BM_OK).
Proof.
  unfold learned. induction 1 as [|d m ds ms Hh Hf IH]; intros x b; cbn [fmap list_fmap ImportForTransportPrecheck]; [by rewrite orb_false_r|].
  unfold test_magic. rewrite (test_head _ _ Hh). pose proof (read_front _ _ Hh) as Hrd. destruct Hh as (_ & _ & Hm).
  destruct m as [c rest|k r a key rest]; cbn [mbind program_bind foldl existsb is_card zip_with].
  - rewrite magic_read by done. rewrite Z.eqb_refl. unfold read_bytes. cbn [head_size] in Hrd. rewrite Hrd. cbn [mbind program_bind].
    cbn [head_bytes]. rewrite card_read by done. match goal with |- context [ImportForTransportPrecheck ?E _ _] =>
      replace E with (with_tables e (learn (ho_globalUniqueAddress (eo e)) x (MCard c rest))) by (unfold with_tables; cbn; by rewrite fmap_insert) end.
    rewrite IH. cbn. by rewrite orb_true_r.
  - rewrite magic_read by (by destruct k). assert ((magic_of k =? ENTITY_EXPORT_INFO_MAGIC) = false) as -> by (by destruct k).
    assert ((magic_of k =? DRAM_SLICE_MAGIC) || (magic_of k =? HBM_SLICE_EXPORT_INFO_MAGIC) = true) as -> by (by destruct k).
    unfold read_bytes. cbn [head_size] in Hrd. rewrite Hrd. cbn [mbind program_bind]. destruct Hm as (Hr & Ha & Hk).
    cbn [head_bytes]. rewrite key_read by done. match goal with |- context [ImportForTransportPrecheck ?E _ _] =>
      replace E with (with_tables e (learn (ho_globalUniqueAddress (eo e)) x (MKey k r a key rest))) by done end.
    by rewrite IH.
Qed.

(** ** Telling the tags and the transport *)
Definition peer_of (mems : gmap Z (list TransportMemoryKey)) (x : Z * Card) : Z * PeerInfo :=
  (x.1, mkPeer (c_nic x.2) (c_role x.2) (default [] (mems !! x.1))).
Definition wanted (e : MemEntityDefault) (x : Z * Card) : bool := (ho_role (eo e) =? HYBM_ROLE_PEER) || negb (c_role x.2 =? ho_role (eo e)).
(** The ranks of other roles, or all for a peer, with their keys. *)
Definition told (e : MemEntityDefault) (x : Tables) : PeerOptions := peer_of x.2 <$> List.filter (wanted e) (map_to_list x.1).
Definition as_info (x : Z * Card) : Z * EntityExportInfo := (x.1, card_info x.2).
Definition tags_with (t : HybmEntityTagInfo) (l : list (Z * Card)) : HybmEntityTagInfo :=
  mkTags (foldl (λ m x, <[x.1 := c_tag x.2]> m) (rankTagInfo_ t) l) (tagOpInfo_ t).

Lemma add_tags_eq l : Forall (λ x, card_ok x.2) l → ∀ t, add_tags t (as_info <$> l) = Ret (tags_with t l, BM_OK).
Proof.
  induction 1 as [|x l Hx Hl IH]; intros t; [by destruct t|]. cbn [fmap list_fmap add_tags as_info].
  destruct (tag_no_nul _ (co_tag _ Hx)) as [Hn Ht]. cbn [card_info x_tag]. rewrite c_string_array by done.
  unfold AddRankTag. rewrite (co_tag _ Hx). destruct (Nat.eqb_spec (length (c_tag x.2)) 0) as [E|_].
  { exfalso. pose proof (co_tag _ Hx) as Hp. unfold tagPattern, matches in Hp. by rewrite E in Hp. }
  cbn [negb]. cbn. by rewrite IH.
Qed.
Lemma peers_eq mems l : Forall (λ x, card_ok x.2) l → peers mems (as_info <$> l) = Ret (peer_of mems <$> l).
Proof.
  induction 1 as [|x l Hx Hl IH]; [done|]. cbn [fmap list_fmap peers as_info]. destruct (co_nic _ Hx) as [Hl' Hn].
  cbn [card_info x_nic]. rewrite c_string_array by done. by rewrite IH.
Qed.
Lemma tags_with_lookup t l r c : NoDup l.*1 → (r, c) ∈ l → rankTagInfo_ (tags_with t l) !! r = Some (c_tag c).
Proof.
  unfold tags_with. cbn. generalize (rankTagInfo_ t). induction l as [|[r0 c0] l IH]; intros m Hn Hin; [by apply not_elem_of_nil in Hin|].
  apply NoDup_cons in Hn as [Hr Hn]. cbn [foldl fst snd]. apply elem_of_cons in Hin as [[= -> ->]|Hin]; [|by apply IH].
  assert (∀ m, foldl (λ m x, <[x.1 := c_tag x.2]> m) m l !! r0 = m !! r0) as ->; [|by rewrite lookup_insert_eq].
  clear IH. induction l as [|[r1 c1] l IH]; intros m'; [done|]. cbn. cbn in Hr. rewrite IH; [|set_solver|by apply NoDup_cons in Hn as [_ Hn]].
  apply lookup_insert_ne. set_solver.
Qed.
(** Whatever the order in which the table is walked. *)
Lemma walked rank_order (T : gmap Z Card) : (∀ m, rank_order m ≡ₚ map_to_list m) →
  ∃ l, l ≡ₚ map_to_list T ∧ rank_order (card_info <$> T) = as_info <$> l.
Proof.
  intros Hord. specialize (Hord (card_info <$> T)). rewrite map_to_list_fmap in Hord. apply Permutation_map_inv in Hord as (l & E & Hp).
  exists l. by rewrite Hp, E.
Qed.
Lemma filter_info e l : List.filter (other_role e) (as_info <$> l) = as_info <$> List.filter (wanted e) l.
Proof.
  induction l as [|x l IH]; [done|]. cbn [fmap list_fmap List.filter]. change (other_role e (as_info x)) with (wanted e x).
  destruct (wanted e x); cbn [fmap list_fmap]; by rewrite IH.
Qed.
Lemma filter_perm {A} (f : A → bool) l l' : l ≡ₚ l' → List.filter f l ≡ₚ List.filter f l'.
Proof.
  induction 1 as [|x l l' _ IH|x y l|l1 l2 l3 _ IH1 _ IH2]; cbn; [done| | |by etransitivity].
  - destruct (f x); [by apply perm_skip|done].
  - destruct (f x), (f y); try done. apply perm_swap.
Qed.

(** ** An import *)
Definition notable (c : ECall) : list ECall := match c with ETrConnectWithOptions _ | ESegImport _ _ => [c] | _ => [] end.
Definition tok (_ : list ECall) (c : ECall) : Prop := c ≠ EUndefined.
Definition tstep (w : list ECall) (c : ECall) (w' : list ECall) (_ : EAns) : Prop := w' = w ++ notable c.
Abbreviation twp p w Q := (wp tok tstep p w Q).
(** The segment gets what the messages end with, if the first says which it is. *)
Definition rest_seg (m : Msg) : Seg := if IsDramSlice (le_val (take 8 (rest_of m))) then Dram else Hbm.
Definition seg_import (ms : list Msg) : list ECall :=
  match ms with
  | [] => []
  | m :: _ => if len (rest_of m) <? 8 then [] else [ESegImport (rest_seg m) (rest_of <$> ms)]
  end.
Lemma left_all_eq ds ms : Forall2 holds ds ms → left_all (zip_with behind_head ds ms) = Ret (rest_of <$> ms).
Proof.
  induction 1 as [|d m ds ms Hh _ IH]; [done|]. cbn [zip_with left_all]. unfold left_string. destruct (left_rest _ _ Hh) as [r ->]. cbn. by rewrite IH.
Qed.
Lemma readers_start ds : readers ds = start_at <$> ds.
Proof. done. Qed.
Lemma quiet_twp {A} c (k : EAns → eprog A) w Q : c ≠ EUndefined → notable c = [] → (∀ a, twp (k a) w Q) → twp (Act c k) w Q.
Proof. intros Hc Hn Hk. split; [done|]. intros w' a ->. by rewrite Hn, app_nil_r. Qed.
Lemma device_twp w Q : (∀ r, Q r w) → twp SetThreadAclDevice w Q.
Proof.
  intros HQ. apply quiet_twp; [done..|]. intros a. cbn. destruct (negb _); [by apply HQ|]. apply quiet_twp; [done..|]. intros b. cbn.
  destruct (negb _); [by apply HQ|]. apply quiet_twp; [done..|]. intros c. by apply HQ.
Qed.
Lemma update_twp e n w Q : (∀ r, Q r w) → twp (UpdateHybmDeviceInfo e n) w Q.
Proof.
  intros HQ. unfold UpdateHybmDeviceInfo. destruct (negb _); [by apply HQ|]. cbv zeta. apply wp_seq. unfold SetHybmDeviceInfo. apply wp_seq.
  destruct (transportManager_ e); [apply quiet_twp; [done..|]; intros a|]; (split; [done|]); intros w' b ->; cbn; rewrite app_nil_r; by apply HQ.
Qed.

Section Importing.
Context (rank_order : gmap Z EntityExportInfo → list (Z * EntityExportInfo)) (e : MemEntityDefault) (t : HybmEntityTagInfo).
Context (Hord : ∀ m, rank_order m ≡ₚ map_to_list m) (Htag : tagManager_ e = Some t).

(** The tags after the tables [x] have been imported, with a card or without. *)
Definition tags_after (x : Tables) (card : bool) (t' : HybmEntityTagInfo) : Prop :=
  tagOpInfo_ t' = tagOpInfo_ t ∧ if card then ∀ r c, x.1 !! r = Some c → rankTagInfo_ t' !! r = Some (c_tag c) else t' = t.
Definition retagged (x : Tables) (t' : HybmEntityTagInfo) : MemEntityDefault := set_etags (with_tables e x) (Some t').
Lemma retagged_same x : retagged x t = with_tables e x.
Proof. unfold retagged, set_etags, set_eopts, with_tables, set_eimports. cbn. by rewrite <- Htag. Qed.
Lemma cards_of (x : Tables) l : all_known x → l ≡ₚ map_to_list x.1 → Forall (λ y, card_ok y.2) l.
Proof. intros Hk Hl. apply Forall_forall. intros [r c] Hy. rewrite Hl in Hy. apply elem_of_map_to_list in Hy. apply (Hk _ _ Hy). Qed.
Lemma import_tags x (card : bool) w (Q : MemEntityDefault * Z → list ECall → Prop) : all_known x →
  (∀ t', tags_after x card t' → Q (retagged x t', BM_OK) w) →
  twp (if card then ImportForTagManager rank_order (with_tables e x) else Ret (with_tables e x, BM_OK)) w Q.
Proof.
  intros Hk HQ. destruct card; [|rewrite <- retagged_same; by apply HQ]. destruct (walked rank_order x.1 Hord) as (l & Hl & Ew).
  assert (tags_after x true (tags_with t l)) as Ht.
  { split; [done|]. intros r c Hr. apply tags_with_lookup; [rewrite Hl; apply NoDup_fst_map_to_list|rewrite Hl; by apply elem_of_map_to_list]. }
  unfold ImportForTagManager. change (importedRanks_ (with_tables e x)) with (card_info <$> x.1). rewrite Ew.
  change (tagManager_ (with_tables e x)) with (tagManager_ e). rewrite Htag. pose proof (cards_of x l Hk Hl) as Hc. destruct l as [|y l].
  - rewrite <- retagged_same. apply HQ. replace t with (tags_with t []) by (by destruct t). done.
  - change (twp ('(t, ret) ← add_tags t (as_info <$> y :: l); Ret (set_etags (with_tables e x) (Some t), ret)) w Q).
    rewrite add_tags_eq by done. by apply HQ.
Qed.

Lemma for_transport_twp x ds ms w : transportManager_ e = true → all_known x → Forall2 holds ds ms → all_known (learned e x ms) →
  twp (ImportForTransport rank_order (with_tables e x) (start_at <$> ds)) w (λ y w', y.2 = BM_OK →
    ∃ o t', y.1 = (retagged (learned e x ms) t', zip_with behind_head ds ms) ∧ o ≡ₚ told e (learned e x ms) ∧
      w' = w ++ [ETrConnectWithOptions o] ∧ tags_after (learned e x ms) (existsb is_card ms) t').
Proof.
  intros Htr Hk Hds Hk'. unfold ImportForTransport. rewrite (precheck_eq e ds ms Hds). set (x' := learned e x ms) in *. cbn [mbind program_bind orb negb Z.eqb].
  destruct (walked rank_order x'.1 Hord) as (l & Hl & Ew). pose proof (cards_of x' l Hk' Hl) as Hc.
  change (importedRanks_ (with_tables e x')) with (card_info <$> x'.1). rewrite Ew. change (importedMemories_ (with_tables e x')) with x'.2.
  change (other_role (with_tables e x')) with (other_role e). rewrite filter_info, peers_eq.
  2: { apply Forall_forall. intros y Hy. apply list_elem_of_In, filter_In in Hy as [Hy _]. rewrite Forall_forall in Hc. apply Hc. by apply list_elem_of_In. }
  cbn [mbind program_bind]. apply wp_seq, import_tags; [done|]. intros t' Ht'. cbn [negb Z.eqb BM_OK].
  cbn [retagged set_etags set_eopts transportManager_ with_tables set_eimports]. rewrite Htr.
  split; [done|]. intros w1 a ->. cbn [notable program_bind]. destruct (Z.eqb_spec (e_ret a) 0) as [_|Hno]; cbn [negb];
    [|intros Hr; by destruct Hno].
  apply wp_seq.
  assert (∀ Q, (∀ r, Q r (w ++ [ETrConnectWithOptions (peer_of x'.2 <$> List.filter (wanted e) l)])) →
    twp (if existsb is_card ms then UpdateHybmDeviceInfo (retagged x' t') 0 else Ret BM_OK) (w ++ [ETrConnectWithOptions (peer_of x'.2 <$> List.filter (wanted e) l)]) Q) as Hup
    by (intros Q HQ; destruct (existsb is_card ms); [by apply update_twp|by apply HQ]).
  apply Hup. intros r Hr. exists (peer_of x'.2 <$> List.filter (wanted e) l), t'. split_and!; [done| |done|done]. unfold told. by rewrite (filter_perm _ _ _ Hl).
Qed.

(** Everything an import does. *)
Lemma import_twp x ds ms w : initialized_ e = true → transportManager_ e = true → all_known x → Forall2 holds ds ms → ms ≠ [] →
  (∀ m, head ms = Some m → 8 ≤ len (rest_of m) → there e (rest_seg m) = true) →
  twp (ImportExchangeInfo rank_order (with_tables e x) (readers ds)) w (λ y w', y.2 = BM_OK →
    ∃ o t', y.1 = retagged (learned e x ms) t' ∧ o ≡ₚ told e (learned e x ms) ∧ w' = w ++ ETrConnectWithOptions o :: seg_import ms ∧
      tags_after (learned e x ms) (existsb is_card ms) t').
Proof.
  intros Hin Htr Hkn Hds Hne Hseg. assert (Forall msg_ok ms) as Hms.
  { clear -Hds. induction Hds as [|d m ds ms (_ & _ & Hm) _ IH]; by constructor. }
  unfold ImportExchangeInfo. cbn [with_tables set_eimports initialized_ transportManager_]. rewrite Hin, Htr. cbn [negb].
  apply wp_seq, device_twp. intros r0. destruct (Z.eqb_spec r0 BM_OK) as [_|]; cbn [negb]; [|by intros [=]].
  apply wp_seq. rewrite readers_start. fold (with_tables e x). eapply wp_mono; [by apply (for_transport_twp x ds ms); [..|apply learned_known]|].
  intros [[e' ds'] r] w1 H1. cbn [fst snd] in H1. destruct (Z.eqb_spec r BM_OK) as [->|Hno]; cbn [negb]; [|intros Hr; by destruct Hno].
  destruct (H1 eq_refl) as (o & t' & [= -> ->] & Ho & -> & Ht'). destruct Hds as [|d m ds ms Hh Hds]; [done|]. cbn [zip_with].
  rewrite (left_count _ _ Hh). assert (seg_import (m :: ms) = [] → ∃ o0 t'0, retagged (learned e x (m :: ms)) t' = retagged (learned e x (m :: ms)) t'0 ∧
    o0 ≡ₚ told e (learned e x (m :: ms)) ∧ w ++ [ETrConnectWithOptions o] = w ++ ETrConnectWithOptions o0 :: seg_import (m :: ms) ∧
    tags_after (learned e x (m :: ms)) (existsb is_card (m :: ms)) t'0) as Hnone by (intros E; exists o, t'; by rewrite E).
  cbn [seg_import] in *. destruct (Z.eqb_spec (len (rest_of m)) 0) as [E0|_]; [intros _; apply Hnone; by rewrite E0|].
  unfold test_magic. rewrite (test_rest _ _ Hh). destruct (Z.ltb_spec (len (rest_of m)) 8) as [_|Hlong]; [intros _; by apply Hnone|]. cbn [mbind program_bind].
  change (behind_head d m :: zip_with behind_head ds ms) with (zip_with behind_head (d :: ds) (m :: ms)). rewrite left_all_eq by (by constructor). cbn [mbind program_bind].
  fold (rest_seg m). unfold on_seg. assert (∀ k, there (retagged (learned e x (m :: ms)) t') k = there e k) as -> by (by intros []).
  rewrite Hseg by done. apply wp_seq. split; [by destruct (rest_seg m)|]. intros w2 a ->. cbn [notable wp]. destruct (Z.eqb_spec (e_ret a) BM_OK) as [_|Hno]; cbn [negb]; [|intros Hr; by destruct Hno].
  intros _. exists o, t'. by rewrite <- app_assoc.
Qed.
End Importing.

(** ** An export *)

(** What the parts of the exporting rank answer. *)
Record View := mkView { v_nic : bytes; v_seg : bytes; v_slice : Seg * MemSlice; v_key : TransportMemoryKey }.
Definition xstep (v : View) (_ : unit) (c : ECall) (_ : unit) (a : EAns) : Prop :=
  match c with
  | ETrGetNic => e_bytes a = v_nic v
  | ESegExport _ | ESegExportSlice _ _ => e_bytes a = v_seg v
  | ESegGetSlice k _ => e_slice a = if decide (k = (v_slice v).1) then Some (v_slice v).2 else None
  | ETrQueryMemoryKey _ _ => e_key a = v_key v
  | _ => True
  end.
Definition xok (_ : unit) (c : ECall) : Prop := c ≠ EUndefined.
Abbreviation xwp v p Q := (wp xok (xstep v) p tt Q).
(** A rank as it is after it has started, with a transport. *)
Record exporter (e : MemEntityDefault) : Prop := {
  ex_init : initialized_ e = true;
  ex_trans : transportManager_ e = true;
  ex_rank : 0 ≤ ho_rankId (eo e) < 2 ^ 16;
  ex_role : 0 ≤ ho_role (eo e) < 2 ^ 16;
  ex_tag : tagPattern (ho_tag (eo e)) = true;
}.
(** Every segment pads what it exports to at most this size. *)
Definition SEG_INFO_MAX : Z := 184.
Definition card_of (e : MemEntityDefault) (nic : bytes) : Card := mkCard (ho_rankId (eo e)) (ho_role (eo e)) nic (ho_tag (eo e)).
Definition trans_rest (e : MemEntityDefault) (seg : bytes) : bytes := if ho_scene (eo e) =? HYBM_SCENE_TRANS then seg else [].

Lemma append_ret d data (k : hybm_exchange_info * Z → eprog (hybm_exchange_info * Z)) v Q : ex_ok d → descLen d + len data ≤ DESC_SIZE →
  (∀ d', ex_ok d' → used d' = used d ++ data → descLen d' = descLen d + len data → xwp v (k (d', 0)) Q) → xwp v (append d data ≫= k) Q.
Proof. intros Hd Hl HQ. unfold append. destruct (append_used d data Hd Hl) as (d' & -> & H1 & H2 & H3). by apply HQ. Qed.
Lemma writer_ok d : len (desc d) = DESC_SIZE → ex_ok (Writer_new d) ∧ used (Writer_new d) = [] ∧ descLen (Writer_new d) = 0.
Proof. intros Hd. unfold ex_ok, used, Writer_new. cbn. by rewrite take_0. Qed.

Lemma export_card_wp e v d0 : exporter e → no_nul (v_nic v) → len (v_seg v) ≤ SEG_INFO_MAX → len (desc d0) = DESC_SIZE →
  xwp v (ExportEntityInfo e (Writer_new d0)) (λ y _, y.2 = BM_OK → holds y.1 (MCard (card_of e (v_nic v)) (trans_rest e (v_seg v)))).
Proof.
  intros He Hnic Hseg Hd. pose proof He as [Hi Ht Hr Hro Htag]. destruct (writer_ok d0 Hd) as (Hw & Hu & Hl). unfold ExportEntityInfo. rewrite Hi, Ht. cbn [negb].
  split; [done|]. intros [] a Ha. cbn in Ha. cbn [mbind program_bind andb]. rewrite Ha. destruct (Z.leb_spec (Z.of_nat NIC_SIZE) (len (v_nic v))) as [|Hn]; [by intros [=]|].
  rewrite !u16_small by done. set (c := card_of e (v_nic v)).
  assert (card_ok c) as Hc by (split; cbn; [done|done|split; [unfold len in Hn; lia|done]|done]).
  change (mkExport _ _ _ _ _ _) with (card_info c). assert (len (entity_bytes (card_info c)) = 120) as Hlen by (unfold len; by rewrite length_card).
  unfold DESC_SIZE, SEG_INFO_MAX in *. apply append_ret; [done|unfold DESC_SIZE; lia|]. intros d1 H1 U1 L1. rewrite Hu in U1. cbn [app] in U1. cbn [negb Z.eqb].
  destruct (ho_scene (eo e) =? HYBM_SCENE_TRANS) eqn:Es; cbn [negb].
  - destruct (hbmSegment_ e); cbn [negb]; [|by intros [=]]. split; [done|]. intros [] b Hb. cbn in Hb. cbn [mbind program_bind].
    destruct (Z.eqb_spec (e_ret b) BM_OK); cbn [negb]; [|by intros [=]]. rewrite Hb. apply append_ret; [done|unfold DESC_SIZE; lia|]. intros d2 H2 U2 L2. cbn [negb Z.eqb].
    intros _. split_and!; [done| |done]. unfold trans_rest. rewrite Es. cbn [rest_of head_bytes fst]. by rewrite U2, U1.
  - intros _. split_and!; [done| |done]. unfold trans_rest. rewrite Es. cbn [rest_of head_bytes fst]. by rewrite U1, app_nil_r.
Qed.
Lemma find_slice_wp e v slice (Q : option (Seg * MemSlice) → unit → Prop) : Q None tt → Q (Some (v_slice v)) tt → xwp v (find_slice e slice) Q.
Proof.
  intros H0 H1. destruct v as [nic seg [k s] key]. cbn in *. unfold find_slice. apply wp_seq.
  assert (∀ k' (Q : option MemSlice → unit → Prop), Q None tt → (k' = k → Q (Some s) tt) → xwp (mkView nic seg (k, s) key) (get_slice e k' slice) Q) as Hg.
  { intros k' Q' HN HS. unfold get_slice. destruct (there e k'); [|done]. split; [done|]. intros [] a Ha. cbn in *. rewrite Ha. case_decide; [by apply HS|done]. }
  apply Hg; [|by intros <-]. apply wp_seq, Hg; [done|by intros <-].
Qed.
Lemma export_slice_wp e v slice flags d0 : exporter e → key_ok (v_key v) → len (v_seg v) ≤ SEG_INFO_MAX → len (desc d0) = DESC_SIZE →
  0 ≤ vAddress_ (v_slice v).2 < 2 ^ 64 → 0 < size_ (v_slice v).2 → slice ≠ nullptr →
  xwp v (ExportSliceInfo e slice (Writer_new d0) flags) (λ y _, y.2 = BM_OK →
    holds y.1 (MKey (v_slice v).1 (ho_rankId (eo e)) (vAddress_ (v_slice v).2) (v_key v) (v_seg v))).
Proof.
  intros He Hkey Hseg Hd Ha Hs Hne. pose proof He as [Hi Ht Hr _ _]. destruct (writer_ok d0 Hd) as (Hw & Hu & Hl). unfold ExportSliceInfo. rewrite Hi, Ht. cbn [negb].
  apply Z.eqb_neq in Hne. rewrite Hne. apply wp_seq, find_slice_wp; [by intros [=]|]. destruct (v_slice v) as [k s]. cbn [fst snd] in *.
  split; [done|]. intros [] a Hseg'. cbn in Hseg'. cbn [mbind program_bind]. destruct (Z.eqb_spec (e_ret a) 0) as [_|Hno]; cbn [negb]; [|intros Hx; by destruct Hno].
  destruct (Z.ltb_spec 0 (size_ s)); [|lia]. split; [done|]. intros [] q Hq. cbn in Hq. cbn [program_bind].
  destruct (Z.eqb_spec (e_ret q) 0) as [_|Hno]; cbn [negb].
  2: { apply Z.eqb_neq in Hno as Hb. cbn. rewrite Hb. cbn. intros Hx. by destruct Hno. }
  rewrite Hq, u16_small by done. set (m := MKey k (ho_rankId (eo e)) (vAddress_ s) (v_key v) (v_seg v)).
  change (match k with Hbm => HBM_SLICE_EXPORT_INFO_MAGIC | Dram => DRAM_SLICE_MAGIC end) with (magic_of k).
  change (Entity.key_bytes _) with (head_bytes m). assert (len (head_bytes m) = 248) as Hlen by (unfold len, m; cbn [head_bytes]; by rewrite length_key).
  unfold DESC_SIZE, SEG_INFO_MAX in *. apply (append_ret (Writer_new d0) (head_bytes m)); [done|unfold DESC_SIZE; lia|]. intros d1 H1 U1 L1.
  rewrite Hu in U1. cbn [negb Z.eqb]. rewrite Hseg'. apply append_ret; [done|unfold DESC_SIZE; lia|]. intros d2 H2 U2 L2.
  cbn [negb Z.eqb]. intros _. split_and!; [done|cbn [fst]; by rewrite U2, U1|done].
Qed.

(** A descriptor that a rank has exported, and what it says. *)
Inductive sent : hybm_exchange_info → Msg → Prop :=
| sent_card e v d0 d : exporter e → no_nul (v_nic v) → len (v_seg v) ≤ SEG_INFO_MAX → len (desc d0) = DESC_SIZE →
    leads (xstep v) (ExportEntityInfo e (Writer_new d0)) tt (d, BM_OK) tt → sent d (MCard (card_of e (v_nic v)) (trans_rest e (v_seg v)))
| sent_key e v slice flags d0 d : exporter e → key_ok (v_key v) → len (v_seg v) ≤ SEG_INFO_MAX → len (desc d0) = DESC_SIZE →
    0 ≤ vAddress_ (v_slice v).2 < 2 ^ 64 → 0 < size_ (v_slice v).2 → slice ≠ nullptr →
    leads (xstep v) (ExportSliceInfo e slice (Writer_new d0) flags) tt (d, BM_OK) tt →
    sent d (MKey (v_slice v).1 (ho_rankId (eo e)) (vAddress_ (v_slice v).2) (v_key v) (v_seg v)).
Lemma sent_holds d m : sent d m → holds d m.
Proof.
  intros [e v d0 d' He Hn Hs Hd Hl|e v slice flags d0 d' He Hk Hs Hd Ha Hz Hne Hl].
  - exact (wp_leads xok (xstep v) _ _ _ _ _ (export_card_wp e v d0 He Hn Hs Hd) Hl eq_refl).
  - exact (wp_leads xok (xstep v) _ _ _ _ _ (export_slice_wp e v slice flags d0 He Hk Hs Hd Ha Hz Hne) Hl eq_refl).
Qed.


(** With a global address space the keys of a rank are forgotten at every descriptor,
    not once in an import: of two slices of a rank only the second can be reached. *)
Theorem keys_of_one_import_lost e x k1 k2 r a1 a2 key1 key2 s1 s2 : ho_globalUniqueAddress (eo e) = true →
  (learned e x [MKey k1 r a1 key1 s1; MKey k2 r a2 key2 s2]).2 !! r = Some [key2].
Proof. intros Hu. unfold learned. rewrite Hu. cbn. by rewrite lookup_insert_eq. Qed.

(** ** A run *)
Definition peer_entity : MemEntityDefault := mkEntity true 3 (mkHybm 1 HYBM_MEM_TYPE_HOST 8 2 1 0 LARGE_PAGE_SIZE 0 0 1 true 0 0 [] (bytes_of_str "b"%string) [] (-1))
  0 0 false true true true true ∅ ∅ (Some tags_new).
Definition peer_view : View := mkView (bytes_of_str "host#tcp://10.0.0.1:9000"%string) (le_bytes 8 DRAM_SLICE_MAGIC)
  (Dram, mkSlice 5 0 MEM_TYPE_HOST_DRAM MEM_PT_TYPE_SVM 4096 8192) (repeat 7 28).
Definition view_env (v : View) (u : unit) (c : ECall) : unit * EAns :=
  (u, match c with
      | ETrGetNic => mkAns 0 0 (v_nic v) None []
      | ESegExport _ | ESegExportSlice _ _ => mkAns 0 0 (v_seg v) None []
      | ESegGetSlice k _ => mkAns 0 0 [] (if decide (k = (v_slice v).1) then Some (v_slice v).2 else None) []
      | ETrQueryMemoryKey _ _ => mkAns 0 0 [] None (v_key v)
      | _ => plain 0
      end).
Lemma view_env_step v u c : xstep v u c (view_env v u c).1 (view_env v u c).2.
Proof. by destruct c. Qed.
Definition blank : hybm_exchange_info := mkEx (repeat x00 512) 0.
Definition card_desc : hybm_exchange_info := (run (view_env peer_view) (ExportEntityInfo peer_entity (Writer_new blank)) tt).2.1.
Definition slice_desc : hybm_exchange_info := (run (view_env peer_view) (ExportSliceInfo peer_entity 99 (Writer_new blank) 0) tt).2.1.
Definition demo_msgs : list Msg := [MCard (card_of peer_entity (v_nic peer_view)) []; MKey Dram 1 4096 (repeat 7 28) (v_seg peer_view)].
Lemma peer_exporter : exporter peer_entity.
Proof. split; [done|done|cbn; lia|cbn; lia|vm_compute; reflexivity]. Qed.
Lemma leads_view {A} v (p : eprog A) a : (run (view_env v) p tt).2 = a → leads (xstep v) p tt a tt.
Proof.
  intros <-. destruct (leads_run (xstep v) (λ _, True) (view_env v) p tt) as [Hl _]; [|done|].
  - intros u c _. split; [apply view_env_step|done].
  - by destruct (run (view_env v) p tt) as [[] b].
Qed.
Lemma demo_sent : Forall2 sent [card_desc; slice_desc] demo_msgs.
Proof.
  constructor; [|constructor; [|constructor]].
  - apply (sent_card peer_entity peer_view blank); [exact peer_exporter|vm_compute; reflexivity|vm_compute; discriminate|reflexivity|].
    apply leads_view. vm_compute. reflexivity.
  - apply (sent_key peer_entity peer_view 99 0 blank); [exact peer_exporter| |vm_compute; discriminate|reflexivity|cbn; lia|cbn; lia|discriminate|].
    + split; [reflexivity|]. cbn. repeat constructor; lia.
    + apply leads_view. vm_compute. reflexivity.
Qed.
Definition log_env (w : list ECall) (c : ECall) : list ECall * EAns := (w ++ notable c, plain 0).
