(* ===== verification/EntityApiSpec.v ===== *)
(** * Entities: the interface is safe

    Callers use handles in any order, whatever the parts of the entities answer: no
    null pointer is used, no descriptor is read or written behind its end, and the
    factory finds exactly the entities that are alive. *)
From Stdlib Require Import Strings.Byte Strings.String.
From stdpp Require Import base numbers list gmap relations.
From S2P Require Import Prelude RangePool VaManager MemSlice StrUtil Fabric HostDataOp HcomHelper TagInfo HcomTransport ComposeDataOp Entity EntityApi EntitySpec EntityImportSpec.
Local Open Scope Z_scope.
Local Open Scope mf_scope.

(** ** Any answers *)
Definition aok (_ : unit) (c : ECall) : Prop := c ≠ EUndefined.
(** A segment that has made a slice gives it; what it exports is padded to a size, and
    begins with a magic of its kind of memory. *)
Definition of_kind (k : Seg) (b : bytes) : Prop := 8 ≤ len b → IsDramSlice (le_val (take 8 b)) = bool_decide (k = Dram).
Definition astep (_ : unit) (c : ECall) (_ : unit) (a : EAns) : Prop :=
  match c with
  | ESegAlloc _ _ | ESegRegister _ _ _ => e_ret a = 0 → is_Some (e_slice a)
  | ESegExport _ => len (e_bytes a) ≤ SEG_INFO_MAX
  | ESegExportSlice k _ => len (e_bytes a) ≤ SEG_INFO_MAX ∧ of_kind k (e_bytes a)
  | ETrQueryMemoryKey _ _ => e_ret a = 0 → length (e_key a) = (2 * KEY_SIZE)%nat
  | _ => True
  end.
Abbreviation awp p Q := (wp aok astep p tt Q).

(** ** A well-formed entity *)
Definition terminated (s : bytes) : Prop := is_Some (c_string s).
Definition info_ok (i : EntityExportInfo) : Prop := terminated (x_nic i) ∧ terminated (x_tag i).
(** What the methods of a started entity keep: the options and which parts are there. *)
Definition Shape : Type := hybm_options * (bool * bool * bool * bool).
Definition shape_of (e : MemEntityDefault) : Shape := (eo e, (hbmSegment_ e, dramSegment_ e, dataOperator_ e, transportManager_ e)).
Record entity_ok (sh : Shape) (e : MemEntityDefault) : Prop := {
  ei_init : initialized_ e = true;
  ei_imports : map_Forall (λ _ i, info_ok i) (importedRanks_ e);
  ei_tags : is_Some (tagManager_ e);
  ei_tag : tagPattern (ho_tag (eo e)) = true;
  ei_operator : ho_bmType (eo e) ≠ HYBM_TYPE_AI_CORE_INITIATE → dataOperator_ e = true;
  ei_shape : shape_of e = sh;
}.
Arguments ei_init {sh} e _.
Arguments ei_imports {sh} e _.
Arguments ei_tags {sh} e _.
Arguments ei_tag {sh} e _.
Arguments ei_operator {sh} e _ _.
Arguments ei_shape {sh} e _.
Definition entity_inv (e : MemEntityDefault) : Prop := entity_ok (shape_of e) e.
Definition host_initiated (e : MemEntityDefault) : Prop := ho_bmType (eo e) ≠ HYBM_TYPE_AI_CORE_INITIATE.

(** Step by step through a program, every way it can go. *)
Ltac walk1 :=
  match goal with
  | |- wp _ _ (Ret ?a) ?w ?Q => change (Q a w)
  | |- wp _ _ (_ ≫= _) _ _ => apply wp_seq
  | |- wp _ _ (Act _ _) _ _ => split; [discriminate|intros [] ? ?]
  | |- wp _ _ (eret _) _ _ => unfold eret
  | |- wp _ _ (eflag _) _ _ => unfold eflag
  | |- wp _ _ (ecall _) _ _ => unfold ecall
  | |- wp _ _ (if ?b then _ else _) _ _ => destruct b eqn:?
  | |- wp _ _ (let '(_, _) := ?x in _) _ _ => destruct x eqn:?
  | |- wp _ _ (match ?x with _ => _ end) _ _ => destruct x eqn:?
  end; cbv beta iota zeta.
Ltac walk := repeat walk1; try done.

(** ** Start *)
Definition kept (e e' : MemEntityDefault) : Prop := eo e' = eo e ∧ importedRanks_ e' = importedRanks_ e ∧ tagManager_ e' = tagManager_ e.
Definition trans_has_dram (o : hybm_options) : Prop :=
  ho_scene o = HYBM_SCENE_TRANS → allows (ho_memType o) HYBM_MEM_TYPE_HOST = true → ho_maxDRAMSize o ≠ 0.
Lemma hbm_safe e : awp (InitHbmSegment e) (λ x _, kept e x.1).
Proof. unfold InitHbmSegment. walk. Qed.
Lemma dram_safe e : awp (InitDramSegment e) (λ x _, kept e x.1 ∧ (x.2 = BM_OK → ho_maxDRAMSize (eo e) ≠ 0 → dramSegment_ x.1 = true)).
Proof.
  unfold InitDramSegment. walk1; [cbn; split; [done|]; intros _ ?; by apply Z.eqb_eq in Heqb|].
  split; [done|]. intros [] a _. cbn [wp program_bind]. split; [done|]. by destruct (negb (e_ret a =? 0)).
Qed.
Lemma segment_safe e : trans_has_dram (eo e) → awp (InitSegment e) (λ x _, kept e x.1).
Proof.
  intros Ht. unfold InitSegment. apply wp_seq.
  apply (wp_mono _ _ _ _ (λ x _, kept e x.1)); [destruct (allows _ _); [apply hbm_safe|done]|]. intros [e1 r1] [] K1. cbn [fst] in K1.
  destruct (negb (r1 =? BM_OK)); [done|]. destruct (negb (allows _ _)) eqn:Em; [done|]. apply negb_false_iff in Em.
  apply wp_seq. eapply wp_mono; [apply dram_safe|]. intros [e2 r2] [] [K2 Hd]. cbn [fst snd] in *.
  assert (kept e e2) as K by (destruct K1 as (?&?&?), K2 as (?&?&?); split_and!; congruence).
  destruct (Z.eqb_spec r2 BM_OK); cbn [negb]; [|done]. destruct (Z.eqb_spec (ho_scene (eo e2)) HYBM_SCENE_TRANS) as [Es|]; cbn [negb]; [|done].
  unfold on_seg. cbn [there]. rewrite Hd; [walk|done|]. destruct K as [Ke _], K1 as [Ke1 _]. rewrite Ke1 in *. apply Ht; [by rewrite <- Ke|done].
Qed.
Lemma transport_safe e : awp (InitTransManager e) (λ x _, kept e x.1).
Proof. unfold InitTransManager. walk. Qed.
Lemma operator_safe e : awp (InitDataOperator e) (λ x _, kept e x.1 ∧ (host_initiated e → dataOperator_ x.1 = true)).
Proof.
  unfold InitDataOperator. destruct (Z.eqb_spec (ho_bmType (eo e)) HYBM_TYPE_AI_CORE_INITIATE) as [E|]; [by split|]. walk.
Qed.
Lemma library_safe e Q : (∀ r, Q r tt) → awp (LoadExtendLibrary e) Q.
Proof. intros HQ. unfold LoadExtendLibrary. walk; apply HQ. Qed.
Lemma tag_made e : tagManager_ e = None → (InitTagManager e).2 = BM_OK →
  is_Some (tagManager_ (InitTagManager e).1) ∧ tagPattern (ho_tag (eo (InitTagManager e).1)) = true ∧ importedRanks_ (InitTagManager e).1 = importedRanks_ e ∧
  (trans_has_dram (eo e) → trans_has_dram (eo (InitTagManager e).1)) ∧ ho_bmType (eo (InitTagManager e).1) = ho_bmType (eo e).
Proof.
  intros Hn. unfold InitTagManager. rewrite Hn. cbv zeta. set (tag := if bool_decide _ then defaultTag else ho_tag (eo e)).
  assert (length tag ≠ 0%nat) as Hne by (unfold tag; case_bool_decide; [done|]; by intros ?%length_zero_iff_nil).
  unfold TagInfoInit, AddRankTag. cbn [with_tag ho_tag]. apply Nat.eqb_neq in Hne. rewrite Hne.
  destruct (tagPattern tag) eqn:Et; cbn [negb]; [|done]. cbn [Z.eqb BM_OK negb].
  destruct (AddTagOpInfo _ _) as [t1 r1]. destruct (negb (r1 =? BM_OK)); [done|]. destruct (AddTagOpInfo t1 _) as [t2 r2]. destruct (negb (r2 =? BM_OK)); [done|].
  intros _. split_and!; [by eexists|done|done|done|done].
Qed.
Lemma initialize_safe id options : (∀ o, options = Some o → trans_has_dram o) →
  awp (Initialize (entity_new id) options) (λ x _, x.2 = BM_OK → entity_inv x.1 ∧ ∀ o, options = Some o → ho_bmType (eo x.1) = ho_bmType o).
Proof.
  intros Ho. unfold Initialize. cbn [entity_new initialized_ id_ tagManager_]. destruct (negb _); [done|].
  destruct options as [o|]; [|done]. cbn [default]. destruct (negb (CheckOptions _ =? BM_OK)); [done|].
  set (e0 := set_eopts _ _ None). assert (trans_has_dram (eo e0)) as Ht by (unfold e0; cbn; destruct (allows _ _); exact (Ho o eq_refl)).
  assert (ho_bmType (eo e0) = ho_bmType o) as Hbt by (unfold e0; cbn; by destruct (allows _ _)).
  pose proof (tag_made e0 eq_refl) as Hm. destruct (InitTagManager e0) as [e1 r]. cbn [fst snd] in Hm. destruct (Z.eqb_spec r BM_OK) as [->|]; cbn [negb]; [|done].
  destruct (Hm eq_refl) as (Hs & Htag & Hi & Hd & Hb). apply wp_seq, library_safe. intros rl. destruct (negb (rl =? BM_OK)); [done|].
  apply wp_seq. eapply wp_mono; [by apply segment_safe, Hd|]. intros [e2 r2] [] (K21 & K22 & K23). cbn [fst] in *. destruct (negb (r2 =? BM_OK)); [done|].
  apply wp_seq. eapply wp_mono; [apply transport_safe|]. intros [e3 r3] [] (K31 & K32 & K33). cbn [fst] in *. destruct (negb (r3 =? BM_OK)); [done|].
  apply wp_seq. eapply wp_mono; [apply operator_safe|]. intros [e4 r4] [] [(K41 & K42 & K43) Hop]. cbn [fst] in *. destruct (negb (r4 =? BM_OK)); [done|].
  intros _. split; [|intros o' [= <-]; cbn; by rewrite K41, K31, K21, Hb].
  split; cbn; [done|rewrite K42, K32, K22, Hi; apply map_Forall_empty|by rewrite K43, K33, K23|by rewrite K41, K31, K21| |done].
  intros Hne. apply Hop. unfold host_initiated. by rewrite <- K41.
Qed.

(** ** Methods that leave the entity alone *)
Abbreviation safe p := (awp p (λ _ _, True)).
Section Shaped.
Context (sh : Shape).
Lemma reserve_safe e k : entity_ok sh e → awp (reserve e k) (λ x _, entity_ok sh x.1).
Proof. intros [H1 H2 H3 H4 H5 H6]. unfold reserve. destruct k; walk. Qed.
Lemma unreserve_safe e : safe (UnReserveMemorySpace e).
Proof. unfold UnReserveMemorySpace. walk. Qed.
Lemma reserve_all_safe e : entity_ok sh e → awp (ReserveMemorySpace e) (λ x _, entity_ok sh x.1).
Proof.
  intros He. unfold ReserveMemorySpace. rewrite (ei_init _ He). cbn [negb]. apply wp_seq.
  apply (wp_mono _ _ _ _ (λ x _, entity_ok sh x.1)); [destruct (hbmSegment_ e); [by apply reserve_safe|done]|]. intros [e1 r1] [] H1. destruct (negb _); [done|].
  apply wp_seq. apply (wp_mono _ _ _ _ (λ x _, entity_ok sh x.1)); [destruct (dramSegment_ e1); [by apply reserve_safe|done]|]. intros [e2 r2] [] H2.
  destruct (negb _); [|done]. apply wp_seq. eapply wp_mono; [apply unreserve_safe|]. by intros.
Qed.
Lemma update_safe e n (Q : Z → unit → Prop) : (∀ r, Q r tt) → awp (UpdateHybmDeviceInfo e n) Q.
Proof. intros HQ. unfold UpdateHybmDeviceInfo, SetHybmDeviceInfo. walk; apply HQ. Qed.
Lemma context_safe e c n : safe (SetExtraContext e c n).
Proof. unfold SetExtraContext. walk. by apply update_safe. Qed.
Lemma made_safe a k : is_Some (e_slice a) → (∀ s, safe (k s)) → safe (made a k).
Proof. intros [s Hs] Hk. unfold made. rewrite Hs. apply Hk. Qed.
Lemma alloc_safe e size mt : safe (AllocLocalMemory e size mt).
Proof.
  unfold AllocLocalMemory. destruct (negb _); [done|]. destruct (negb _); [done|]. cbv zeta. destruct (negb (there _ _)); [done|]. split; [done|].
  intros [] a Ha. cbn [program_bind mbind]. destruct (Z.eqb_spec (e_ret a) 0) as [E|]; cbn [negb]; [|done]. apply made_safe; [by apply Ha|].
  intros s. walk; by apply update_safe.
Qed.
Lemma register_safe e ptr size : safe (RegisterLocalMemory e ptr size).
Proof.
  unfold RegisterLocalMemory. destruct (_ || _ || _); [done|]. cbv zeta. destruct (negb (there _ _)); [done|]. split; [done|].
  intros [] a Ha. cbn [program_bind mbind]. destruct (Z.eqb_spec (e_ret a) 0) as [E|]; cbn [negb]; [|done]. apply made_safe; [by apply Ha|]. intros s. walk.
Qed.
Lemma find_safe e slice (Q : option (Seg * MemSlice) → unit → Prop) : (∀ x, Q x tt) → awp (find_slice e slice) Q.
Proof. intros HQ. unfold find_slice, get_slice. walk; apply HQ. Qed.
Lemma free_safe e slice : safe (FreeLocalMemory e slice).
Proof. unfold FreeLocalMemory. destruct (negb _); [done|]. apply wp_seq, find_safe. intros [[k s]|]; walk. Qed.
Lemma slice_va_safe e slice : safe (GetSliceVa e slice).
Proof. apply wp_seq, find_safe. done. Qed.
Lemma export_size_safe e n : safe (GetExportSliceInfoSize e n).
Proof. unfold GetExportSliceInfoSize. walk. Qed.
Lemma mmap_safe e : safe (Mmap e).
Proof. unfold Mmap. walk. Qed.
Lemma unmap_safe e : safe (Unmap e).
Proof. unfold Unmap. walk. Qed.
Lemma reach_safe e r : safe (CanReachDataOperators e r).
Proof. unfold CanReachDataOperators, SdmaReaches. walk. Qed.
Lemma erase_forall {A} (P : Z → A → Prop) ranks m : map_Forall P m → map_Forall P (erase_ranks ranks m).
Proof. unfold erase_ranks. revert m. induction ranks as [|r ranks IH]; intros m Hm; [done|]. cbn. by apply IH, map_Forall_delete. Qed.
Lemma remove_safe e ranks : entity_ok sh e → awp (RemoveImported e ranks) (λ x _, entity_ok sh x.1).
Proof.
  intros He. pose proof He as [H1 H2 H3 H4 H5 H6]. unfold RemoveImported. rewrite H1. cbn [negb]. walk; split; cbn;
    first [done|by apply erase_forall|intros Hx; specialize (H5 Hx); congruence].
Qed.
Lemma wait_safe e : entity_ok sh e → host_initiated e → safe (Wait e).
Proof. intros He Hh. unfold Wait. rewrite (ei_operator _ He Hh). walk. Qed.
Lemma device_safe (Q : Z → unit → Prop) : (∀ r, Q r tt) → awp SetThreadAclDevice Q.
Proof. intros HQ. unfold SetThreadAclDevice. walk; apply HQ. Qed.
Lemma locate_safe e j (Q : hybm_copy_params * (Z * Z) → unit → Prop) : (∀ x, Q x tt) → awp (LocateAddrAndRank e j) Q.
Proof. intros HQ. unfold LocateAddrAndRank, locate. walk; apply HQ. Qed.
Lemma copy_safe e j d st fl : entity_ok sh e → host_initiated e → safe (CopyData e j d st fl).
Proof.
  intros He Hh. unfold CopyData. destruct (negb _); [done|]. apply wp_seq, device_safe. intros r. destruct (negb _); [done|].
  apply wp_seq, locate_safe. intros [j' p]. rewrite (ei_operator _ He Hh). walk.
Qed.
Lemma locate_all_safe e jobs : ∀ i gs (Q : list hybm_copy_params * gmap (Z * Z) (list nat) → unit → Prop), (∀ x, Q x tt) → awp (locate_all e jobs i gs) Q.
Proof.
  induction jobs as [|j jobs IH]; intros i gs Q HQ; [apply HQ|]. cbn [locate_all]. apply wp_seq, locate_safe. intros [j' p]. apply wp_seq, IH.
  intros [js g]. apply HQ.
Qed.
Lemma batch_safe order e jobs d st fl : safe (BatchCopyData order e jobs d st fl).
Proof.
  unfold BatchCopyData. destruct (negb _); [done|]. apply wp_seq, device_safe. intros r. destruct (negb _); [done|]. destruct (negb _); [done|].
  apply wp_seq, locate_all_safe. intros [js g]. walk.
Qed.
Lemma valid_safe e d j (Q : bool → unit → Prop) : (∀ b, Q b tt) → awp (address_valid e d j) Q.
Proof. intros HQ. unfold address_valid, CheckAddressInEntity. walk; apply HQ. Qed.
Lemma entries_safe e d jobs (Q : bool → unit → Prop) : (∀ b, Q b tt) → awp (entries_valid e d jobs) Q.
Proof. intros HQ. induction jobs as [|j jobs IH]; [apply HQ|]. cbn [entries_valid]. destruct (_ || _); [apply HQ|]. apply wp_seq, valid_safe. intros []; [done|apply HQ]. Qed.

(** ** Export *)
Definition is_card (d : hybm_exchange_info) : Prop := le_val (take 8 (desc d)) = ENTITY_EXPORT_INFO_MAGIC.
Lemma take_desc d data seg : ex_ok d → used d = data ++ seg → (8 ≤ length data)%nat → take 8 (desc d) = take 8 data.
Proof.
  intros [Hl Hd] Hu H8. unfold DESC_SIZE, len in *. assert (length (used d) = Z.to_nat (descLen d)) as Hlu by (unfold used; rewrite length_take; lia).
  rewrite Hu, length_app in Hlu. transitivity (take 8 (used d)); [unfold used; rewrite take_take; f_equal; lia|]. by rewrite Hu, take_app_le by lia.
Qed.
Lemma card_of d i seg : ex_ok d → used d = entity_bytes i ++ seg → x_magic i = ENTITY_EXPORT_INFO_MAGIC → is_card d.
Proof.
  intros Hd Hu Hm. unfold is_card. rewrite (take_desc d _ _ Hd Hu) by (unfold entity_bytes; rewrite !length_app, !length_le_bytes; lia).
  unfold entity_bytes. rewrite take_app_length' by by rewrite length_le_bytes. by rewrite Hm, le_val_le_bytes_small.
Qed.
Lemma append_safe d data (k : hybm_exchange_info * Z → eprog (hybm_exchange_info * Z)) Q : ex_ok d → descLen d + len data ≤ DESC_SIZE →
  (∀ d', ex_ok d' → descLen d' = descLen d + len data → used d' = used d ++ data → awp (k (d', 0)) Q) → awp (append d data ≫= k) Q.
Proof. intros Hd Hl HQ. unfold append. destruct (append_used d data Hd Hl) as (d' & -> & H1 & H2 & H3). by apply HQ. Qed.
Lemma entity_bytes_len m v r ro nic tag : (length nic ≤ NIC_SIZE)%nat → (length tag ≤ TAG_SIZE)%nat →
  len (entity_bytes (mkExport m v r ro (to_array NIC_SIZE nic) (to_array TAG_SIZE tag))) = 120.
Proof. intros Hn Ht. unfold len, entity_bytes. cbn [x_magic x_version x_rankId x_role x_nic x_tag]. rewrite !length_app, !length_le_bytes, !length_array by done. done. Qed.
Lemma export_entity_safe e d : entity_ok sh e → ex_ok d → descLen d ≤ 0 →
  awp (ExportEntityInfo e d) (λ x _, x.2 = 0 → ex_ok x.1 ∧ descLen x.1 ≤ 120 + SEG_INFO_MAX ∧ is_card x.1).
Proof.
  intros He Hd Hl. unfold ExportEntityInfo. rewrite (ei_init _ He). cbn [negb]. destruct (tag_no_nul _ (ei_tag _ He)) as [_ Ht].
  apply wp_seq. apply (wp_mono _ _ _ _ (λ nic _, transportManager_ e = false → nic = [])).
  { destruct (transportManager_ e); [|done]. split; [done|]. by intros [] a _. }
  intros nic [] Hnic. destruct (transportManager_ e && (Z.of_nat NIC_SIZE <=? len nic)) eqn:En; [by intros [=]|].
  assert (length nic < NIC_SIZE)%nat as Hn.
  { destruct (transportManager_ e); [|rewrite Hnic by done; unfold NIC_SIZE; cbn; lia]. cbn [andb] in En. apply Z.leb_gt in En. unfold len in En. lia. }
  assert (∀ m v r ro, len (entity_bytes (mkExport m v r ro (to_array NIC_SIZE nic) (to_array TAG_SIZE (ho_tag (eo e))))) = 120) as El
    by (intros; apply entity_bytes_len; lia).
  cbv zeta. pose proof Hd as [_ Hd']. apply append_safe; [done|rewrite El; unfold DESC_SIZE; lia|]. intros d1 H1 L1 U1. rewrite El in L1. cbn [negb Z.eqb].
  assert (used d = []) as U0 by (unfold used; by rewrite Z2Nat.nonpos). rewrite U0 in U1. cbn [app] in U1.
  unfold SEG_INFO_MAX in *. destruct (negb _); [intros _; cbn; split_and!; [done|lia|eapply (card_of d1 _ []); [done|by rewrite app_nil_r|done]]|]. destruct (negb _); [by intros [=]|].
  split; [done|]. intros [] a Ha. cbn in Ha. unfold SEG_INFO_MAX in Ha. cbn [mbind program_bind]. destruct (negb _); [by intros [=]|].
  apply append_safe; [done|unfold DESC_SIZE; lia|]. intros d2 H2 L2 U2. intros _. cbn.
  split_and!; [done|lia|]. rewrite U1 in U2. by eapply (card_of d2).
Qed.
Lemma writer_safe d : len (desc d) = DESC_SIZE → ex_ok (Writer_new d) ∧ descLen (Writer_new d) ≤ 0.
Proof. intros Hd. destruct (writer_ok d Hd) as (H1 & _ & ->). done. Qed.
Lemma export_slice_safe e slice flags d : entity_ok sh e → len (desc d) = DESC_SIZE → safe (ExportSliceInfo e slice (Writer_new d) flags).
Proof.
  intros He Hd. destruct (writer_safe d Hd) as [Hw Hl]. pose proof Hw as [_ Hw']. unfold ExportSliceInfo. rewrite (ei_init _ He). cbn [negb]. destruct (slice =? nullptr).
  - unfold ExportWithoutSlice. apply wp_seq. apply (wp_mono _ _ _ _ (λ a _, len (e_bytes a) ≤ SEG_INFO_MAX)).
    { destruct (hbmSegment_ e); [|by unfold SEG_INFO_MAX]. split; [done|]. by intros [] a Ha. }
    intros a [] Ha. destruct (negb _ && negb _); [done|]. apply wp_seq.
    apply (wp_mono _ _ _ _ (λ x _, x.2 = 0 → ex_ok x.1 ∧ descLen x.1 ≤ 120 + SEG_INFO_MAX)).
    { destruct (allows flags _); [eapply wp_mono; [by apply export_entity_safe|]; naive_solver|]. intros _. cbn. unfold SEG_INFO_MAX. split; [done|lia]. }
    intros [d1 r] [] H1. cbn [fst snd] in H1. destruct (Z.eqb_spec r 0) as [E|]; cbn [negb]; [|done]. destruct (H1 E) as [H2 H3]. unfold SEG_INFO_MAX in *.
    apply append_safe; [done|unfold DESC_SIZE; lia|done].
  - apply wp_seq, find_safe. intros [[k s]|]; [|done]. cbv zeta. split; [done|]. intros [] a Ha. cbn in Ha. cbn [mbind program_bind]. destruct (negb _); [done|].
    apply wp_seq. apply (wp_mono _ _ _ _ (λ x _, x.2 = 0 → ex_ok x.1 ∧ descLen x.1 ≤ 248)).
    { destruct (transportManager_ e); [|intros _; split; [done|cbn in *; lia]]. apply wp_seq.
      apply (wp_mono _ _ _ _ (λ q _, e_ret q = 0 → length (e_key q) = (2 * KEY_SIZE)%nat)).
      { destruct (0 <? size_ s); [|done]. split; [done|]. by intros [] q Hq. }
      intros q [] Hq. destruct (Z.eqb_spec (e_ret q) 0) as [E|Hne]; cbn [negb]; [|by intros ?]. set (data := Entity.key_bytes _).
      assert (len data = 248) as El by (unfold data, len, Entity.key_bytes; cbn [k_magic k_rankId k_address k_key]; rewrite !length_app, !length_le_bytes, length_key_words, Hq by done; done).
      unfold append. destruct (append_used _ data Hw) as (d1 & -> & H1 & _ & H3); [unfold DESC_SIZE; lia|]. intros _. cbn [fst]. split; [done|lia]. }
    intros [d1 r] [] H1. cbn [fst snd] in H1. destruct (Z.eqb_spec r 0) as [E|]; cbn [negb]; [|done]. destruct (H1 E) as [H2 H3]. unfold SEG_INFO_MAX in *.
    apply append_safe; [done|unfold DESC_SIZE; lia|done].
Qed.

(** ** Import *)
Definition read_ok (r : ExchangeInfoReader) : Prop := ∃ d, exchangeInfo_ r = Some d ∧ ex_ok d ∧ 0 ≤ readOffset_ r ≤ descLen d.
(** A descriptor in its array, whose strings end, should it be a card. *)
Definition readable (d : hybm_exchange_info) : Prop := ex_ok d ∧ (is_card d → info_ok (entity_of_bytes (take 120 (desc d)))).
Lemma test_safe r n : read_ok r → 0 ≤ n ≤ 512 → is_Some (Reader_Test r n).
Proof.
  intros (d & Hd & [H1 H2] & H3) Hn. unfold Reader_Test, DESC_SIZE in *. rewrite Hd, u64_small by lia.
  destruct (Z.ltb_spec (descLen d) (readOffset_ r + n)); [done|]. destruct (Z.leb_spec (readOffset_ r + n) 512); [done|lia].
Qed.
Lemma read_safe r n : read_ok r → 0 ≤ n ≤ 512 → ∃ r' x, Reader_Read r n = Some (r', x) ∧ read_ok r' ∧
  (∀ b, x = inr b → r' = mkReader (exchangeInfo_ r) (readOffset_ r + n) ∧ ∀ d, exchangeInfo_ r = Some d → b = take (Z.to_nat n) (drop (Z.to_nat (readOffset_ r)) (desc d))).
Proof.
  intros (d & Hd & [H1 H2] & H3) Hn. unfold Reader_Read, Reader_Test, DESC_SIZE in *. rewrite Hd, u64_small by lia.
  destruct (Z.ltb_spec (descLen d) (readOffset_ r + n)); [eexists _, _; split; [done|]; split; [by exists d; unfold ex_ok, DESC_SIZE|done]|].
  destruct (Z.leb_spec (readOffset_ r + n) 512); [|lia]. cbn. rewrite u32_small by lia. eexists _, _. split; [done|]. split.
  - exists d. cbn. unfold ex_ok, DESC_SIZE. split_and!; [done|lia..].
  - intros b [= <-]. split; [done|]. by intros d' [= ->].
Qed.
Lemma left_safe r (Q : ExchangeInfoReader * bytes → unit → Prop) : read_ok r → (∀ x, Q x tt) → awp (left_string r) Q.
Proof.
  intros (d & Hd & [H1 H2] & H3) HQ. unfold left_string, Reader_LeftToString. rewrite Hd. destruct (_ <=? _); [apply HQ|].
  destruct (Z.leb_spec (descLen d) DESC_SIZE); [apply HQ|lia].
Qed.
Lemma left_all_safe rs (Q : list bytes → unit → Prop) : Forall read_ok rs → (∀ x, Q x tt) → awp (left_all rs) Q.
Proof.
  intros Hr. revert Q. induction Hr as [|r rs Hr _ IH]; intros Q HQ; [apply HQ|]. cbn [left_all]. apply wp_seq, left_safe; [done|]. intros [r' b].
  apply wp_seq, IH. intros l. apply HQ.
Qed.
Lemma start_ok d : readable d → read_ok (start_at d).
Proof. intros [Hd _]. exists d. split_and!; [done|done|done|]. destruct Hd. cbn. lia. Qed.
Lemma starts_ok ds : Forall readable ds → Forall read_ok (start_at <$> ds).
Proof. intros H. apply Forall_fmap. eapply Forall_impl; [done|exact start_ok]. Qed.
Lemma read_card d r' b : readable d → is_card d → Reader_Read (start_at d) 120 = Some (r', inr b) → info_ok (entity_of_bytes b).
Proof.
  intros Hd Hc Hr. destruct (read_safe (start_at d) 120 (start_ok d Hd) ltac:(lia)) as (r1 & x & E & _ & Hx). rewrite E in Hr. simplify_eq.
  destruct (Hx b eq_refl) as [_ Hb]. rewrite (Hb d eq_refl). by apply Hd.
Qed.

(** How much of a descriptor the transport takes. *)
Definition taken (d : hybm_exchange_info) : Z :=
  if le_val (take 8 (desc d)) =? ENTITY_EXPORT_INFO_MAGIC then sizeof_EntityExportInfo else sizeof_SliceExportTransportKey.
Definition sh_there (sh : Shape) (k : Seg) : bool := match k with Hbm => sh.2.1.1.1 | Dram => sh.2.1.1.2 end.
Definition taken_sh (sh : Shape) (d : hybm_exchange_info) : Z := if sh.2.2 then taken d else 0.
Definition taken_by (e : MemEntityDefault) (d : hybm_exchange_info) : Z := taken_sh (shape_of e) d.
(** What is left names a segment that is there. *)
Definition names_there (sh : Shape) (d : hybm_exchange_info) : Prop :=
  ∀ b, Reader_Test (mkReader (Some d) (taken_sh sh d)) 8 = Some (inr b) → sh_there sh (if IsDramSlice (le_val b) then Dram else Hbm) = true.
Definition named (e : MemEntityDefault) : hybm_exchange_info → Prop := names_there (shape_of e).

Section Imports.
Context (rank_order : gmap Z EntityExportInfo → list (Z * EntityExportInfo)) (Hord : ∀ m, rank_order m ≡ₚ map_to_list m).
Definition terminated_all (e : MemEntityDefault) : Prop := map_Forall (λ _ i, info_ok i) (importedRanks_ e).
Lemma ordered_ok e : terminated_all e → Forall (λ x, info_ok x.2) (rank_order (importedRanks_ e)).
Proof. intros He. rewrite Hord. apply Forall_forall. intros [r i] Hi%elem_of_map_to_list. by apply (He r i). Qed.
Lemma add_tags_safe l t (Q : HybmEntityTagInfo * Z → unit → Prop) : Forall (λ x, info_ok x.2) l → (∀ x, Q x tt) → awp (add_tags t l) Q.
Proof.
  intros Hl HQ. revert t. induction Hl as [|[r i] l [_ [s Hs]] _ IH]; intros t; [apply HQ|]. cbn [add_tags]. cbn in Hs. rewrite Hs.
  destruct (AddRankTag t r s) as [t' ret]. destruct (negb _); [apply HQ|apply IH].
Qed.
Lemma import_tags_safe e : entity_ok sh e → awp (ImportForTagManager rank_order e) (λ x _, ∃ t, x.1 = set_etags e (Some t)).
Proof.
  intros He. pose proof (ordered_ok e (ei_imports _ He)) as Hl. destruct (ei_tags _ He) as [t Ht]. unfold ImportForTagManager.
  assert (e = set_etags e (Some t)) as Esame by (unfold set_etags, set_eopts; rewrite <- Ht; by destruct e).
  destruct (rank_order (importedRanks_ e)) as [|x l]; [by exists t|]. rewrite Ht. apply wp_seq, add_tags_safe; [done|]. intros [t' r]. by exists t'.
Qed.
Lemma peers_safe mems l (Q : PeerOptions → unit → Prop) : Forall (λ x, info_ok x.2) l → (∀ x, Q x tt) → awp (peers mems l) Q.
Proof.
  intros Hl. revert Q. induction Hl as [|[r i] l [[s Hs] _] _ IH]; intros Q HQ; [apply HQ|]. cbn [peers]. cbn in Hs. rewrite Hs. apply wp_seq, IH. intros x. apply HQ.
Qed.
Lemma tags_inv e t : entity_ok sh e → entity_ok sh (set_etags e (Some t)).
Proof. intros [H1 H2 H3 H4 H5 H6]. by split. Qed.
Lemma prep_inv e b : entity_ok sh e → entity_ok sh (set_eprep e b).
Proof. intros [H1 H2 H3 H4 H5 H6]. by split. Qed.
Lemma import_transport_safe e : entity_ok sh e → awp (ImportForTransportManager rank_order e) (λ x _, entity_ok sh x.1).
Proof.
  intros He. unfold ImportForTransportManager. destruct (negb _); [done|]. apply wp_seq, peers_safe; [apply ordered_ok, (ei_imports _ He)|]. intros o.
  walk; by apply prep_inv.
Qed.
Lemma read_infos_safe ds : Forall readable ds → Forall is_card ds → awp (read_infos (start_at <$> ds)) (λ x _, Forall read_ok x.1 ∧ length x.1 = length ds ∧
  ∀ l, x.2 = Some l → Forall info_ok l).
Proof.
  induction 1 as [|d ds Hd Hds IH]; cbn [fmap list_fmap read_infos]; [intros _; split_and!; [done|done|by intros l [= <-]]|]. intros [Hc Hcs]%Forall_cons.
  unfold read_bytes. destruct (read_safe (start_at d) 120 (start_ok d Hd) ltac:(lia)) as (r & x & E & Hr & Hx). change sizeof_EntityExportInfo with 120. rewrite E.
  cbn [mbind program_bind]. destruct x as [err|b].
  - split_and!; [constructor; [done|by apply starts_ok]|cbn; by rewrite length_fmap|done].
  - apply wp_seq. eapply wp_mono; [by apply IH|]. intros [rs l] [] (H1 & H2 & H3). cbn [fst snd] in *. split_and!; [by constructor|cbn; by rewrite H2|].
    intros l' Hl'. cbn in Hl'. destruct l as [l|]; [|done]. cbn in Hl'. simplify_eq. constructor; [by eapply read_card|by apply H3].
Qed.
Lemma record_ok m infos : map_Forall (λ _ i, info_ok i) m → Forall info_ok infos → map_Forall (λ _ i, info_ok i) (record_ranks m infos).
Proof. unfold record_ranks. intros Hm Hi. revert m Hm. induction Hi as [|i infos Hi _ IH]; intros m Hm; [done|]. cbn. apply IH. by apply map_Forall_insert_2. Qed.
Lemma imports_inv e r m : entity_ok sh e → map_Forall (λ _ i, info_ok i) r → entity_ok sh (set_eimports e r m).
Proof. intros [H1 H2 H3 H4 H5 H6] Hr. by split. Qed.
Lemma import_entity_safe e ds : entity_ok sh e → Forall readable ds → Forall is_card ds → ds ≠ [] → awp (ImportEntityExchangeInfo rank_order e (readers ds)) (λ x _, entity_ok sh x.1).
Proof.
  intros He Hds Hcs Hne. unfold ImportEntityExchangeInfo. rewrite (ei_init _ He). cbn [negb]. rewrite readers_start. apply wp_seq. eapply wp_mono; [by apply read_infos_safe|].
  intros [rs [infos|]] [] (H1 & H2 & H3); cbn [fst snd] in *; [|done]. specialize (H3 _ eq_refl). cbv zeta. set (e1 := set_eimports _ _ _).
  assert (entity_ok sh e1) as He1 by (apply imports_inv; [done|apply record_ok; [apply (ei_imports _ He)|done]]).
  apply wp_seq. eapply wp_mono; [by apply import_tags_safe|]. intros [e2 r2] [] [t Ht]. cbn in Ht. subst e2. pose proof (tags_inv e1 t He1) as He2. destruct (negb _); [done|].
  apply wp_seq. eapply wp_mono; [by apply import_transport_safe|]. intros [e3 r3] [] He3. destruct (negb _); [done|]. destruct (negb _); [done|]. destruct (negb _); [done|].
  destruct rs as [|r rs]; [by destruct ds|]. apply wp_seq, left_safe; [by apply Forall_cons in H1 as [H1 _]|]. intros [r' b]. walk.
Qed.
Lemma test_start d b : readable d → Reader_Test (start_at d) 8 = Some (inr b) → b = take 8 (desc d).
Proof.
  intros Hd. destruct (read_safe (start_at d) 8 (start_ok d Hd) ltac:(lia)) as (r1 & x & E & _ & Hx). unfold Reader_Read in E.
  intros Ht. rewrite Ht in E. cbn in E. simplify_eq. destruct (Hx b eq_refl) as [_ Hb]. by rewrite (Hb d eq_refl).
Qed.
Lemma precheck_safe ds : Forall readable ds → ∀ e b, entity_ok sh e → awp (ImportForTransportPrecheck e (start_at <$> ds) b)
  (λ x _, let '(e', rs, _, ret) := x in entity_ok sh e' ∧ (∃ r m, e' = set_eimports e r m) ∧ Forall read_ok rs ∧ length rs = length ds ∧
    (ret = BM_OK → head rs = (λ d, mkReader (Some d) (taken d)) <$> head ds)).
Proof.
  induction 1 as [|d ds Hd Hds IH]; intros e b He; cbn [fmap list_fmap ImportForTransportPrecheck].
  { split_and!; [done| |done|done|done]. exists (importedRanks_ e), (importedMemories_ e). by destruct e. }
  assert (∀ err, err ≠ BM_OK → ∀ r, read_ok r → entity_ok sh e ∧ (∃ r m, e = set_eimports e r m) ∧ Forall read_ok (r :: (start_at <$> ds)) ∧
    length (r :: (start_at <$> ds)) = length (d :: ds) ∧ (err = BM_OK → Some r = Some (mkReader (Some d) (taken d)))) as Hstop.
  { intros err Herr r Hr. split_and!; [done| |constructor; [done|by apply starts_ok]|cbn; by rewrite length_fmap|done]. exists (importedRanks_ e), (importedMemories_ e). by destruct e. }
  unfold test_magic. pose proof (start_ok d Hd) as Hst. destruct (test_safe (start_at d) 8 Hst ltac:(lia)) as [[err|mg] Emg]; rewrite Emg; cbn [mbind program_bind]; [by apply Hstop|].
  apply (test_start d mg Hd) in Emg as ->.
  assert (∀ n e1 b1, 0 ≤ n ≤ 512 → n = taken d → (∀ r' bs, Reader_Read (start_at d) n = Some (r', inr bs) → entity_ok sh (e1 bs) ∧ ∃ r m, e1 bs = set_eimports e r m) →
    awp ('(r, x) ← read_bytes (start_at d) n; match x with inl err => Ret (e, r :: (start_at <$> ds), b, err) | inr bs =>
      '(e', desc, i, ret) ← ImportForTransportPrecheck (e1 bs) (start_at <$> ds) b1; Ret (e', r :: desc, i, ret) end)
    (λ x _, let '(e', rs, _, ret) := x in entity_ok sh e' ∧ (∃ r m, e' = set_eimports e r m) ∧ Forall read_ok rs ∧ length rs = length (d :: ds) ∧
      (ret = BM_OK → head rs = Some (mkReader (Some d) (taken d))))) as Hread.
  { intros n e1 b1 Hn Ht He1. unfold read_bytes. destruct (read_safe (start_at d) n Hst Hn) as (r & x & E & Hr & Hx). rewrite E. cbn [mbind program_bind].
    destruct x as [err|bs]; [apply Hstop; [|done]|].
    { unfold Reader_Read in E. destruct (Reader_Test (start_at d) n) as [[err'|]|] eqn:Et; cbn in E; simplify_eq. unfold Reader_Test in Et. cbn in Et. by repeat case_match; simplify_eq. }
    destruct (He1 _ _ E) as [Hi1 (r1 & m1 & Es)]. apply wp_seq. eapply wp_mono; [by apply IH|]. intros [[[e' rs] i] ret] [] (A1 & (r2 & m2 & ->) & A3 & A4 & A5).
    split_and!; [done| |by constructor|cbn; by rewrite A4|]. { exists r2, m2. by rewrite Es. }
    intros _. cbn. destruct (Hx _ eq_refl) as [-> _]. by rewrite <- Ht. }
  destruct (Z.eqb_spec (le_val (take 8 (desc d))) ENTITY_EXPORT_INFO_MAGIC) as [Em|Em].
  - apply (Hread 120); [lia|unfold taken; by rewrite Em|]. intros r' bs Hb. split; [|by eexists _, _]. apply imports_inv; [done|].
    apply map_Forall_insert_2; [by eapply read_card|apply (ei_imports _ He)].
  - destruct (_ || _); [|by apply Hstop]. apply (Hread 248 (λ bs, set_eimports e (importedRanks_ e) (<[k_rankId (key_of_bytes bs) := (if ho_globalUniqueAddress (eo e) then [] else default [] (importedMemories_ e !! k_rankId (key_of_bytes bs))) ++ [k_key (key_of_bytes bs)]]> (importedMemories_ e)))); [lia| |].
    + unfold taken. apply Z.eqb_neq in Em. by rewrite Em.
    + intros r' bs _. split; [|by eexists _, _]. apply imports_inv; [done|apply (ei_imports _ He)].
Qed.
Lemma transport_import_safe e ds : entity_ok sh e → transportManager_ e = true → Forall readable ds → awp (ImportForTransport rank_order e (start_at <$> ds))
  (λ x _, let '(e', rs, ret) := x in entity_ok sh e' ∧ (∀ k, there e' k = there e k) ∧ Forall read_ok rs ∧
    (ret = BM_OK → head rs = (λ d, mkReader (Some d) (taken_by e d)) <$> head ds)).
Proof.
  intros He Htr Hds. unfold taken_by, taken_sh. cbn [shape_of snd]. rewrite Htr. unfold ImportForTransport. apply wp_seq. eapply wp_mono; [by apply precheck_safe|].
  intros [[[e1 rs] i] ret] [] (He1 & (r & m & ->) & Hrs & _ & Hh). set (e1 := set_eimports e r m) in *.
  destruct (Z.eqb_spec ret BM_OK) as [->|Hne]; cbn [negb]; [|by split_and!].
  specialize (Hh eq_refl). apply wp_seq, peers_safe.
  { apply Forall_forall. intros z Hz. apply list_elem_of_In, filter_In in Hz as [Hz _]. apply list_elem_of_In in Hz.
    by apply (proj1 (Forall_forall _ _) (ordered_ok e1 (ei_imports _ He1))). }
  intros o. apply wp_seq. apply (wp_mono _ _ _ _ (λ x _, entity_ok sh x.1 ∧ ∀ k, there x.1 k = there e k)).
  { destruct i; [|done]. eapply wp_mono; [by apply import_tags_safe|]. intros [e2 r2] [] [t Ht]. cbn in Ht. subst e2. split; [by apply tags_inv|done]. }
  intros [e2 r2] [] [He2 Hk]. cbn [fst] in *. destruct (negb (r2 =? BM_OK)); [by split_and!|]. apply wp_seq.
  apply (wp_mono _ _ _ _ (λ _ _, True)); [destruct (transportManager_ e2); walk|]. intros r3 [] _. destruct (negb (r3 =? 0)); [by split_and!|].
  apply wp_seq. apply (wp_mono _ _ _ _ (λ _ _, True)); [destruct i; [by apply update_safe|done]|]. by intros r4 [] _.
Qed.
Lemma import_safe e d ds : entity_ok sh e → Forall readable (d :: ds) → named e d → awp (ImportExchangeInfo rank_order e (readers (d :: ds))) (λ x _, entity_ok sh x.1).
Proof.
  intros He Hds Hn. unfold ImportExchangeInfo. rewrite (ei_init _ He), readers_start. cbn [negb]. apply wp_seq, device_safe. intros r. destruct (negb _); [done|].
  apply wp_seq. apply (wp_mono _ _ _ _ (λ x _, let '(e', rs, ret) := x in entity_ok sh e' ∧ (∀ k, there e' k = there e k) ∧ Forall read_ok rs ∧
    (ret = BM_OK → head rs = Some (mkReader (Some d) (taken_by e d))))).
  { destruct (transportManager_ e) eqn:Et; [by apply (transport_import_safe e (d :: ds))|]. split_and!; [done|done|by apply starts_ok|].
    intros _. unfold taken_by, taken_sh. cbn [shape_of snd]. by rewrite Et. }
  intros [[e1 rs] ret] [] (He1 & Hk & Hrs & Hh). destruct (Z.eqb_spec ret BM_OK) as [->|]; cbn [negb]; [|done]. specialize (Hh eq_refl).
  destruct rs as [|r1 rs]; [done|]. injection Hh as ->. destruct (Reader_LeftBytes _ =? 0); [done|]. pose proof (Forall_inv Hrs) as Hr. unfold test_magic.
  destruct (test_safe _ 8 Hr ltac:(lia)) as [[err|mg] Emg]; rewrite Emg; cbn [mbind program_bind]; [done|].
  cbv zeta. apply wp_seq, left_all_safe; [done|]. intros infos. pose proof (Hn mg Emg) as Hth. change (there e (if IsDramSlice (le_val mg) then Dram else Hbm) = true) in Hth.
  unfold on_seg. rewrite Hk, Hth. walk.
Qed.
End Imports.
End Shaped.

(** ** What an exported slice names *)
Lemma test_behind d pre seg b : ex_ok d → used d = pre ++ seg → Reader_Test (mkReader (Some d) (len pre)) 8 = Some (inr b) → 8 ≤ len seg ∧ b = take 8 seg.
Proof.
  intros [Hl Hd] Hu. unfold Reader_Test. cbn [exchangeInfo_ readOffset_]. unfold DESC_SIZE, len in *.
  assert (length (used d) = Z.to_nat (descLen d)) as Hlen by (unfold used; rewrite length_take; lia). rewrite Hu, length_app in Hlen.
  rewrite u64_small by lia. destruct (Z.ltb_spec (descLen d) (Z.of_nat (length pre) + 8)); [done|]. destruct (Z.leb_spec (Z.of_nat (length pre) + 8) 512); [|done].
  intros [= <-]. split; [lia|]. rewrite Nat2Z.id.
  transitivity (take 8 (drop (length pre) (used d))); [|by rewrite Hu, drop_app_length].
  unfold used. rewrite skipn_firstn_comm, take_take. f_equal. lia.
Qed.
Lemma key_front magic r a key : length key = 28%nat → len (Entity.key_bytes (mkTKey magic r a key)) = 248 ∧
  take 8 (Entity.key_bytes (mkTKey magic r a key)) = le_bytes 8 magic.
Proof.
  intros Hk. unfold Entity.key_bytes, len. cbn [k_magic k_rankId k_address k_key]. rewrite !length_app, !length_le_bytes, length_key_words, Hk. split; [done|].
  by rewrite take_app_length' by by rewrite length_le_bytes.
Qed.
(** With a transport a descriptor of a slice begins with the slice's key. *)
Lemma taken_key d magic r a key seg : ex_ok d → used d = Entity.key_bytes (mkTKey magic r a key) ++ seg → length key = 28%nat → 0 ≤ magic < 2 ^ 64 →
  magic ≠ ENTITY_EXPORT_INFO_MAGIC → taken d = 248.
Proof.
  intros Hd Hu Hk Hm Hne. destruct (key_front magic r a key Hk) as [Hlen Hf]. unfold taken. rewrite (take_desc d _ _ Hd Hu), Hf by (unfold len in Hlen; lia).
  rewrite le_val_le_bytes_small by (cbn; lia). apply Z.eqb_neq in Hne. by rewrite Hne.
Qed.
Lemma found_safe e slice (Q : option (Seg * MemSlice) → unit → Prop) : Q None tt → (∀ k s, there e k = true → Q (Some (k, s)) tt) → awp (find_slice e slice) Q.
Proof.
  intros H0 H1. unfold find_slice, get_slice. apply wp_seq. destruct (there e Hbm) eqn:Eh; cbn [wp].
  - split; [done|]. intros [] a _. cbn [wp]. destruct (e_slice a); [by apply H1|]. apply wp_seq. destruct (there e Dram) eqn:Ed; [|done].
    split; [done|]. intros [] b _. cbn. destruct (e_slice b); [by apply H1|done].
  - apply wp_seq. destruct (there e Dram) eqn:Ed; [|done]. split; [done|]. intros [] b _. cbn. destruct (e_slice b); [by apply H1|done].
Qed.
Lemma export_slice_named sh e slice flags d : entity_ok sh e → len (desc d) = DESC_SIZE → slice ≠ nullptr →
  awp (ExportSliceInfo e slice (Writer_new d) flags) (λ x _, x.2 = 0 → ex_ok x.1 ∧ names_there sh x.1).
Proof.
  intros He Hd Hne. destruct (writer_ok d Hd) as (Hw & Hu0 & Hl). unfold ExportSliceInfo. rewrite (ei_init _ He). apply Z.eqb_neq in Hne. rewrite Hne. cbn [negb].
  apply wp_seq, found_safe; [done|]. intros k s Hk. cbv zeta. split; [done|]. intros [] a [Ha Hkind]. cbn [mbind program_bind]. unfold SEG_INFO_MAX in Ha.
  destruct (Z.eqb_spec (e_ret a) 0) as [_|Hr]; cbn [negb]; [|by intros ?]. set (magic := match k with Hbm => _ | Dram => _ end).
  assert (∀ d2 pre, ex_ok d2 → used d2 = pre ++ e_bytes a → len pre = taken_sh sh d2 → names_there sh d2) as Hend.
  { intros d2 pre H2 U2 Ht b Hb. rewrite <- Ht in Hb. destruct (test_behind d2 pre (e_bytes a) b H2 U2 Hb) as [H8 ->]. rewrite (Hkind H8).
    destruct He as [_ _ _ _ _ <-]. destruct k; [by rewrite bool_decide_eq_false_2|by rewrite bool_decide_eq_true_2]. }
  apply wp_seq. apply (wp_mono _ _ _ _ (λ x _, x.2 = 0 → ex_ok x.1 ∧ ∃ pre, used x.1 = pre ∧ descLen x.1 = len pre ∧ len pre ≤ 248 ∧
    if transportManager_ e then ∃ r ad key, length key = 28%nat ∧ pre = Entity.key_bytes (mkTKey magic r ad key) else pre = [])).
  { destruct (transportManager_ e); [|intros _; split; [done|]; by exists []]. apply wp_seq.
    apply (wp_mono _ _ _ _ (λ q _, e_ret q = 0 → length (e_key q) = 28%nat)).
    { destruct (0 <? size_ s); [|done]. split; [done|]. by intros [] q Hq. }
    intros q [] Hq. destruct (Z.eqb_spec (e_ret q) 0) as [E|Hn]; cbn [negb]; [|by intros ?]. specialize (Hq E).
    destruct (key_front magic (u16 (ho_rankId (eo e))) (vAddress_ s) (e_key q) Hq) as [Hlen _]. unfold append.
    destruct (append_used (Writer_new d) (Entity.key_bytes (mkTKey magic (u16 (ho_rankId (eo e))) (vAddress_ s) (e_key q))) Hw) as (d1 & -> & H1 & U1 & L1); [unfold DESC_SIZE; lia|].
    intros _. cbn [fst]. rewrite Hu0 in U1. cbn [app] in U1. split; [done|]. eexists. split; [exact U1|]. rewrite L1, Hl, Hlen.
    split_and!; [done|done|]. by eexists _, _, _. }
  intros [d1 ret] [] H1. cbn [fst snd] in H1. destruct (Z.eqb_spec ret 0) as [E|Hn]; cbn [negb]; [|by intros ?].
  destruct (H1 E) as (Hd1 & pre & Hu & Hdl & Hle & Hpre). unfold append. destruct (append_used d1 (e_bytes a) Hd1) as (d2 & -> & H2 & U2 & _); [unfold DESC_SIZE; lia|].
  cbn [program_bind mbind]. intros _. cbn [fst]. split; [done|]. rewrite Hu in U2. apply (Hend d2 pre H2 U2). destruct He as [_ _ _ _ _ <-]. unfold taken_sh. cbn [shape_of snd].
  destruct (transportManager_ e); [|by rewrite Hpre]. destruct Hpre as (r & ad & key & Hkey & ->). rewrite (taken_key d2 _ _ _ _ _ H2 U2 Hkey).
  - by apply key_front.
  - by destruct k.
  - by destruct k.
Qed.

(** ** The factory *)

(** A handle is known exactly while its entity is there; ids and handles correspond;
    every entity is started. *)
Record factory_inv (f : MemEntityFactory) : Prop := {
  fi_ids : ∀ id p, engines_ f !! id = Some p ↔ enginesFromAddress_ f !! p = Some id;
  fi_alive : ∀ p, is_Some (heap f !! p) ↔ is_Some (enginesFromAddress_ f !! p);
  fi_null : heap f !! nullptr = None;
  fi_entities : map_Forall (λ _ e, entity_inv e) (heap f);
}.
Definition factory_new : MemEntityFactory := mkFactory ∅ ∅ ∅.
Lemma factory_new_inv : factory_inv factory_new.
Proof. split; cbn; [intros id p; by rewrite !lookup_empty|intros p; by rewrite !lookup_empty|done|apply map_Forall_empty]. Qed.
Lemma find_alive f p q : factory_inv f → FindEngineByPtr f p = Some q → q = p ∧ is_Some (heap f !! p).
Proof.
  intros [Hids Hal _ _]. unfold FindEngineByPtr. destruct (enginesFromAddress_ f !! p) as [id|] eqn:E; [|done]. cbn.
  apply Hids in E as E'. rewrite E'. intros [= <-]. split; [done|]. by apply Hal; eexists.
Qed.
Lemma set_heap_inv f p e e' : factory_inv f → heap f !! p = Some e → entity_inv e' → factory_inv (set_heap f (<[p := e']> (heap f))).
Proof.
  intros [Hids Hal Hn He] Hp He'. split; cbn; [done| | |by apply map_Forall_insert_2].
  - intros q. rewrite <- Hal. destruct (decide (q = p)) as [->|]; [rewrite lookup_insert_eq, Hp; split; by eexists|by rewrite lookup_insert_ne].
  - rewrite lookup_insert_ne; [done|]. intros ->. congruence.
Qed.
(** The same entities, each with its options and parts. *)
Record same_shapes (f f' : MemEntityFactory) : Prop := {
  ss_ids : engines_ f' = engines_ f;
  ss_ptrs : enginesFromAddress_ f' = enginesFromAddress_ f;
  ss_shapes : shape_of <$> heap f' = shape_of <$> heap f;
}.
#[global] Instance same_shapes_preorder : PreOrder same_shapes.
Proof. split; [by intros f|]. intros f g h [H1 H2 H3] [H4 H5 H6]. split; congruence. Qed.
Lemma ok_inv sh e : entity_ok sh e → entity_inv e.
Proof. intros He. unfold entity_inv. by rewrite (ei_shape _ He). Qed.
Lemma set_heap_shapes f p e e' : heap f !! p = Some e → shape_of e' = shape_of e → same_shapes f (set_heap f (<[p := e']> (heap f))).
Proof. intros Hp He. split; [done|done|]. cbn. rewrite fmap_insert, He, <- fmap_insert. by rewrite insert_id. Qed.
Definition alive (f : MemEntityFactory) (p : Z) : Prop := p = nullptr ∨ is_Some (heap f !! p).
Definition for_entity (f : MemEntityFactory) (p : Z) (P : MemEntityDefault → Prop) : Prop := ∀ e, heap f !! p = Some e → P e.
Definition kept_in (f : MemEntityFactory) {A} (x : MemEntityFactory * A) (_ : unit) : Prop := factory_inv x.1 ∧ same_shapes f x.1.
Lemma at_safe {A} f p (k : MemEntityDefault → eprog (MemEntityDefault * A)) bad (Q : A → Prop) : factory_inv f → is_Some (heap f !! p) →
  (∀ e, heap f !! p = Some e → entity_inv e → awp (k e) (λ x _, entity_ok (shape_of e) x.1 ∧ Q x.2)) →
  awp (at_address f p k bad) (λ x _, kept_in f x tt ∧ Q x.2).
Proof.
  intros Hf [e He] Hk. unfold at_address. rewrite He. apply wp_seq. eapply wp_mono; [by apply Hk; [|apply (fi_entities _ Hf p)]|].
  intros [e' a] [] [He' HQ]. split; [|done]. split; [by eapply set_heap_inv; [..|eapply ok_inv]|eapply set_heap_shapes; [done|by apply (ei_shape _ He')]].
Qed.
Lemma with_safe_that {A} f p (bad : A) k (Q : A → Prop) : factory_inv f → Q bad →
  (∀ e, heap f !! p = Some e → entity_inv e → awp (k e) (λ x _, entity_ok (shape_of e) x.1 ∧ Q x.2)) →
  awp (with_entity f p bad k) (λ x _, kept_in f x tt ∧ Q x.2).
Proof.
  intros Hf Hb Hk. unfold with_entity. destruct (p =? nullptr); [by split; [split|]|]. destruct (FindEngineByPtr f p) as [q|] eqn:Eq; [|by split; [split|]].
  apply (find_alive f p q Hf) in Eq as [-> Ha]. by apply at_safe.
Qed.
Lemma with_safe {A} f p (bad : A) k : factory_inv f →
  (∀ e, heap f !! p = Some e → entity_inv e → awp (k e) (λ x _, entity_ok (shape_of e) x.1)) → awp (with_entity f p bad k) (kept_in f).
Proof.
  intros Hf Hk. eapply wp_mono; [apply (with_safe_that f p bad k (λ _, True) Hf I)|by intros x [] [H _]].
  intros e Hp He. eapply wp_mono; [by apply Hk|]. done.
Qed.
Lemma asked_safe_that {A} e (q : eprog A) (Q : A → Prop) : entity_inv e → awp q (λ a _, Q a) → awp (asked e q) (λ x _, entity_ok (shape_of e) x.1 ∧ Q x.2).
Proof. intros He Hq. apply wp_seq. eapply wp_mono; [exact Hq|]. done. Qed.
Lemma asked_safe {A} e (q : eprog A) : entity_inv e → safe q → awp (asked e q) (λ x _, entity_ok (shape_of e) x.1).
Proof. intros He Hq. apply wp_seq. eapply wp_mono; [exact Hq|]. done. Qed.
Lemma removed_inv f p id h : (∀ i q, engines_ f !! i = Some q ↔ enginesFromAddress_ f !! q = Some i) → (∀ q, is_Some (heap f !! q) ↔ is_Some (enginesFromAddress_ f !! q)) →
  heap f !! nullptr = None → enginesFromAddress_ f !! p = Some id → h = delete p (heap f) → map_Forall (λ _ e, entity_inv e) h →
  factory_inv (mkFactory (delete id (engines_ f)) (delete p (enginesFromAddress_ f)) h).
Proof.
  intros Hids Hal Hn Hp -> He. split; cbn; [| | |done].
  - intros i q. apply Hids in Hp as Hi. destruct (decide (i = id)) as [->|Hne].
    + rewrite lookup_delete_eq. split; [done|]. intros [Hqp Hq]%lookup_delete_Some. apply Hids in Hq. congruence.
    + rewrite lookup_delete_ne by done. destruct (decide (q = p)) as [->|]; [|by rewrite lookup_delete_ne].
      rewrite lookup_delete_eq. split; [|done]. intros Hq%Hids. congruence.
  - intros q. destruct (decide (q = p)) as [->|]; [by rewrite !lookup_delete_eq|rewrite !lookup_delete_ne by done; apply Hal].
  - destruct (decide (nullptr = p)) as [<-|]; [by rewrite lookup_delete_eq|by rewrite lookup_delete_ne].
Qed.
Lemma remove_inv f p id e : factory_inv f → enginesFromAddress_ f !! p = Some id →
  factory_inv (RemoveEngine (set_heap f (<[p := e]> (heap f))) p).1.
Proof.
  intros [Hids Hal Hn He] Hp. unfold RemoveEngine. cbn. rewrite Hp. apply Hids in Hp as Hi. rewrite Hi. cbn.
  apply removed_inv; [done|done|done|done|by rewrite delete_insert_eq|]. rewrite delete_insert_eq. by apply map_Forall_delete.
Qed.
(** An entity goes, and nothing else does. *)
Definition without (f : MemEntityFactory) (id p : Z) : MemEntityFactory :=
  mkFactory (delete id (engines_ f)) (delete p (enginesFromAddress_ f)) (delete p (heap f)).
Lemma destroy_safe f p : factory_inv f → awp (hybm_destroy_entity f p) (λ f' _, factory_inv f' ∧
  (f' = f ∧ heap f !! p = None ∨ ∃ id, enginesFromAddress_ f !! p = Some id ∧ f' = without f id p)).
Proof.
  intros Hf. unfold hybm_destroy_entity. destruct (Z.eqb_spec p nullptr) as [->|]; [split; [done|]; left; split; [done|apply (fi_null _ Hf)]|].
  destruct (FindEngineByPtr f p) as [q|] eqn:Eq.
  2: { split; [done|]. left. split; [done|]. apply eq_None_not_Some. rewrite (fi_alive _ Hf). intros [id Hid]. unfold FindEngineByPtr in Eq. rewrite Hid in Eq. cbn in Eq.
       apply (fi_ids _ Hf) in Hid. congruence. }
  apply (find_alive f p q Hf) in Eq as [-> Ha]. apply (fi_alive _ Hf) in Ha as [id Hid]. pose proof (proj2 (fi_alive _ Hf p) (ex_intro _ id Hid)) as [e He].
  unfold at_address. rewrite He. apply wp_seq, wp_seq, wp_seq. apply (wp_mono _ _ _ _ (λ _ _, True)); [unfold UnInitialize, ReleaseResources; walk|].
  intros e' [] _. split; [by eapply remove_inv|]. right. exists id. split; [done|]. unfold RemoveEngine. cbn. rewrite Hid. apply (fi_ids _ Hf) in Hid as ->.
  cbn. unfold without. by rewrite delete_insert_eq.
Qed.
(** A new entity. *)
Definition with_new (f : MemEntityFactory) (id p : Z) (e : MemEntityDefault) : MemEntityFactory :=
  mkFactory (<[id := p]> (engines_ f)) (<[p := id]> (enginesFromAddress_ f)) (<[p := e]> (heap f)).
Lemma with_new_inv f id p e : factory_inv f → engines_ f !! id = None → heap f !! p = None → p ≠ nullptr → entity_inv e → factory_inv (with_new f id p e).
Proof.
  intros Hf Eid Hfr Hnn He. assert (enginesFromAddress_ f !! p = None) as Hfa by (apply eq_None_not_Some; rewrite <- (fi_alive _ Hf), Hfr; by intros [? ?]).
  destruct Hf as [Hids Hal Hn Hes]. split; cbn.
  - intros i q. destruct (decide (i = id)) as [->|Hi].
    + rewrite lookup_insert_eq. destruct (decide (q = p)) as [->|]; [by rewrite lookup_insert_eq|]. rewrite lookup_insert_ne by done.
      split; [by intros [= ->]|]. intros ?%Hids. congruence.
    + rewrite lookup_insert_ne by done. destruct (decide (q = p)) as [->|]; [|by rewrite lookup_insert_ne]. rewrite lookup_insert_eq.
      split; [intros ?%Hids; congruence|congruence].
  - intros q. destruct (decide (q = p)) as [->|]; [rewrite !lookup_insert_eq; split; by eexists|by rewrite !lookup_insert_ne].
  - by rewrite lookup_insert_ne.
  - by apply map_Forall_insert_2.
Qed.
Lemma create_safe f id options fresh : factory_inv f → (∀ o, options = Some o → trans_has_dram o) → heap f !! fresh = None → fresh ≠ nullptr →
  awp (hybm_create_entity f id options fresh) (λ x _, factory_inv x.1 ∧ (x.1 = f ∧ (x.2 = nullptr ∨ engines_ f !! id = Some x.2) ∨
    x.2 = fresh ∧ engines_ f !! id = None ∧ ∃ e, x.1 = with_new f id fresh e ∧ ∀ o, options = Some o → ho_bmType (eo e) = ho_bmType o)).
Proof.
  intros Hf Ho Hfr Hnn. unfold hybm_create_entity. split; [done|]. intros [] a _. cbn [program_bind]. destruct (negb _); [by split; [|left; split; [|left]]|].
  unfold GetOrCreateEngine. destruct (engines_ f !! id) as [p|] eqn:Eid.
  - apply (fi_ids _ Hf) in Eid as Ead. assert (is_Some (heap f !! p)) as [e He] by (apply (fi_alive _ Hf); by eexists).
    pose proof (fi_entities _ Hf p e He) as Hi. unfold at_address. rewrite He. unfold Initialize. rewrite (ei_init _ Hi). cbn. unfold set_heap.
    rewrite insert_id by done. destruct f. split; [done|]. left. split; [done|by right].
  - assert (enginesFromAddress_ f !! fresh = None) as Hfa by (apply eq_None_not_Some; rewrite <- (fi_alive _ Hf), Hfr; by intros [? ?]).
    unfold at_address. cbn [heap engines_ enginesFromAddress_]. rewrite lookup_insert_eq. apply wp_seq, wp_seq. eapply wp_mono; [by apply initialize_safe|].
    intros [e r] [] He. cbn [fst snd] in He. unfold set_heap. cbn [wp heap engines_ enginesFromAddress_]. rewrite insert_insert_eq.
    destruct (Z.eqb_spec r 0) as [->|Hr]; cbn [negb].
    + destruct (He eq_refl) as [He1 He2]. split; [by apply with_new_inv|]. right. split_and!; [done|done|]. by exists e.
    + unfold RemoveEngine. cbn [fst enginesFromAddress_ engines_ heap]. rewrite !lookup_insert_eq. cbn [fst snd]. rewrite !delete_insert_id by done.
      destruct f. by split; [|left; split; [|left]].
Qed.

(** ** Calls of the interface *)
Inductive ApiOp :=
| OCreate (id : Z) (options : option hybm_options) (fresh : Z)
| ODestroy (p : Z)
| OReserve (p : Z)
| OUnreserve (p : Z)
| OGetPtr (p mType : Z)
| OSliceVa (p slice : Z)
| OAlloc (p mType size : Z)
| OFree (p slice : Z)
| ORegister (p ptr size : Z)
| OExport (p slice flags : Z) (info : option hybm_exchange_info)
| OExportSize (p : Z) (size : option Z)
| OImport (p : Z) (infos : option (list hybm_exchange_info)) (flags : Z)
| OMmap (p : Z)
| OReach (p rank : Z)
| ORemoveImported (p rank : Z)
| OContext (p context size : Z)
| OUnmap (p : Z)
| OCopy (p : Z) (params : option hybm_copy_params) (d : hybm_data_copy_direction) (stream flags : Z)
| OWait (p : Z)
| OBatch (p : Z) (params : option (list hybm_copy_params)) (d : hybm_data_copy_direction) (stream flags : Z).
Definition left_over {A} (p : eprog (MemEntityFactory * A)) : eprog MemEntityFactory := x ← p; Ret x.1.

Section Api.
Context (rank_order : gmap Z EntityExportInfo → list (Z * EntityExportInfo)) (Hord : ∀ m, rank_order m ≡ₚ map_to_list m).
Context (group_order : gmap (Z * Z) (list nat) → list (Z * Z * list nat)) (va : HybmVaManager).
Definition api_run (f : MemEntityFactory) (op : ApiOp) : eprog MemEntityFactory :=
  match op with
  | OCreate id o fresh => left_over (hybm_create_entity f id o fresh)
  | ODestroy p => hybm_destroy_entity f p
  | OReserve p => left_over (hybm_reserve_mem_space f p)
  | OUnreserve p => left_over (hybm_unreserve_mem_space f p)
  | OGetPtr p t => left_over (hybm_get_memory_ptr f p t)
  | OSliceVa p s => left_over (hybm_get_slice_va f p s)
  | OAlloc p t n => left_over (hybm_alloc_local_memory f p t n)
  | OFree p s => left_over (hybm_free_local_memory f p s)
  | ORegister p a n => left_over (hybm_register_local_memory f p a n)
  | OExport p s fl i => left_over (hybm_export f p s fl i)
  | OExportSize p n => left_over (hybm_export_slice_size f p n)
  | OImport p i fl => left_over (hybm_import rank_order f p i fl)
  | OMmap p => left_over (hybm_mmap f p)
  | OReach p r => left_over (hybm_entity_reach_types f p r)
  | ORemoveImported p r => left_over (hybm_remove_imported f p r)
  | OContext p c n => left_over (hybm_set_extra_context f p c n)
  | OUnmap p => left_over (hybm_unmap f p)
  | OCopy p j d st fl => left_over (hybm_data_copy va f p j d st fl)
  | OWait p => left_over (hybm_wait f p)
  | OBatch p js d st fl => left_over (hybm_data_batch_copy group_order va f p js d st fl)
  end.
(** What a caller owes: the addresses of a copy whose direction is to be found out are
    of known types; a descriptor is a whole one, and one of an entity where the flags
    say so; the three calls that use the handle
    without a look-up get a handle that is alive; no copies of an entity whose cores
    start them; and a transfer entity with host memory has some.  Handles are
    otherwise any numbers. *)
Definition classified (d : hybm_data_copy_direction) (j : hybm_copy_params) : Prop :=
  is_auto d = true → is_Some (InferCopyDirection va (src j) (dest j)).
Definition op_ok (f : MemEntityFactory) (op : ApiOp) : Prop :=
  match op with
  | OCreate _ o fresh => (∀ x, o = Some x → trans_has_dram x) ∧ heap f !! fresh = None ∧ fresh ≠ nullptr
  | OGetPtr p _ => alive f p
  | OExport _ _ _ i => ∀ d, i = Some d → len (desc d) = DESC_SIZE
  | OImport p i fl => ∀ d ds, i = Some (d :: ds) → Forall readable (d :: ds) ∧
      if allows fl HYBM_FLAG_EXPORT_ENTITY then Forall is_card (d :: ds) else for_entity f p (λ e, named e d)
  | OCopy p j d _ _ => for_entity f p host_initiated ∧ ∀ x, j = Some x → classified d x
  | OWait p => alive f p ∧ for_entity f p host_initiated
  | OBatch p js d _ _ => alive f p ∧ ∀ x l, js = Some (x :: l) → classified d x
  | _ => True
  end.
Lemma infer_safe d j (Q : hybm_data_copy_direction → unit → Prop) : classified d j → (∀ d', Q d' tt) → awp (infer va d j) Q.
Proof. intros Hc HQ. unfold infer. destruct (is_auto d) eqn:Ea; [|apply HQ]. destruct (Hc Ea) as [d' ->]. apply HQ. Qed.
Lemma handle_safe (q : eprog (Z * Z)) : safe q → safe (x ← q; Ret (handle_of x)).
Proof. intros Hq. apply wp_seq. eapply wp_mono; [exact Hq|]. done. Qed.
Lemma same_kept {A} f (a : A) : factory_inv f → kept_in f (f, a) tt.
Proof. by split. Qed.
Lemma with_kept {A} f p (bad : A) k : factory_inv f →
  (∀ e, heap f !! p = Some e → entity_inv e → safe (k e)) → awp (with_entity f p bad (λ e, asked e (k e))) (kept_in f).
Proof. intros Hf Hk. apply with_safe; [done|]. intros e Hp He. by apply asked_safe; [|apply Hk]. Qed.
Lemma at_kept {A} f p (k : MemEntityDefault → eprog A) bad : factory_inv f → is_Some (heap f !! p) →
  (∀ e, heap f !! p = Some e → entity_inv e → safe (k e)) → awp (at_address f p (λ e, asked e (k e)) bad) (kept_in f).
Proof.
  intros Hf Hp Hk. eapply wp_mono; [apply (at_safe f p _ bad (λ _, True) Hf Hp)|by intros x [] [H _]].
  intros e He Hi. eapply wp_mono; [apply asked_safe; [done|by apply Hk]|]. done.
Qed.
Lemma get_ptr_safe f p t : factory_inv f → alive f p → awp (hybm_get_memory_ptr f p t) (kept_in f).
Proof.
  intros Hf Ha. unfold hybm_get_memory_ptr. destruct (Z.eqb_spec p nullptr); [by apply same_kept|].
  apply (at_kept f p (λ e, Ret (GetReservedMemoryPtr e t))); [done|by destruct Ha|done].
Qed.
Lemma alloc_api_safe f p t n : factory_inv f → awp (hybm_alloc_local_memory f p t n) (kept_in f).
Proof. intros Hf. apply with_kept; [done|]. intros. apply handle_safe, alloc_safe. Qed.
Lemma free_api_safe f p slice : factory_inv f → awp (hybm_free_local_memory f p slice) (kept_in f).
Proof. intros Hf. apply with_kept; [done|]. intros. destruct (_ =? _); [done|apply free_safe]. Qed.
Lemma register_api_safe f p a n : factory_inv f → awp (hybm_register_local_memory f p a n) (kept_in f).
Proof. intros Hf. apply with_kept; [done|]. intros. apply handle_safe, register_safe. Qed.
Lemma unreserve_api_safe f p : factory_inv f → awp (hybm_unreserve_mem_space f p) (kept_in f).
Proof. intros Hf. apply with_kept; [done|]. intros. apply unreserve_safe. Qed.
Lemma reserve_api_safe f p : factory_inv f → awp (hybm_reserve_mem_space f p) (kept_in f).
Proof. intros Hf. apply with_safe; [done|]. intros e _ He. by apply reserve_all_safe. Qed.
Lemma remove_api_safe f p r : factory_inv f → awp (hybm_remove_imported f p r) (kept_in f).
Proof. intros Hf. apply with_safe; [done|]. intros e _ He. by apply remove_safe. Qed.
Lemma mmap_api_safe f p : factory_inv f → awp (hybm_mmap f p) (kept_in f).
Proof. intros Hf. apply with_kept; [done|]. intros. apply mmap_safe. Qed.
Lemma export_safe f p s fl i : factory_inv f → (∀ d, i = Some d → len (desc d) = DESC_SIZE) → awp (hybm_export f p s fl i) (kept_in f).
Proof.
  intros Hf Hi. apply with_kept; [done|]. intros e _ He. destruct i as [d|]; [|done]. specialize (Hi d eq_refl). apply wp_seq.
  destruct (writer_safe d Hi) as [Hw Hl]. apply (wp_mono _ _ _ _ (λ _ _, True)); [|by intros [? ?]].
  destruct (allows fl _); [|by eapply export_slice_safe]. eapply wp_mono; [by eapply export_entity_safe|]. done.
Qed.
Lemma export_api_that f p e slice fl d (P : hybm_exchange_info → Prop) : factory_inv f → heap f !! p = Some e →
  (entity_inv e → awp (if allows fl HYBM_FLAG_EXPORT_ENTITY then ExportEntityInfo e (Writer_new d) else ExportSliceInfo e slice (Writer_new d) fl) (λ x _, x.2 = 0 → P x.1)) →
  awp (hybm_export f p slice fl (Some d)) (λ x _, kept_in f x tt ∧ (x.2.2 = 0 → ∃ d', x.2.1 = Some d' ∧ P d')).
Proof.
  intros Hf Hp HP. apply (with_safe_that f p _ _ (λ x, x.2 = 0 → ∃ d', x.1 = Some d' ∧ P d')); [done|by intros [=]|].
  intros e' Hp' He. rewrite Hp in Hp'. injection Hp' as <-. apply (asked_safe_that e _ (λ x, x.2 = 0 → ∃ d', x.1 = Some d' ∧ P d')); [done|]. apply wp_seq.
  eapply wp_mono; [by apply HP|]. intros [d1 r] [] H. intros E. exists d1. split; [done|by apply H].
Qed.
Lemma export_api_named f p e slice d : factory_inv f → heap f !! p = Some e → len (desc d) = DESC_SIZE → slice ≠ nullptr →
  awp (hybm_export f p slice 0 (Some d)) (λ x _, kept_in f x tt ∧ (x.2.2 = 0 → ∃ d', x.2.1 = Some d' ∧ ex_ok d' ∧ names_there (shape_of e) d')).
Proof. intros Hf Hp Hd Hs. apply (export_api_that f p e); [done|done|]. intros He. by apply (export_slice_named (shape_of e)). Qed.
Lemma export_api_card f p e slice d : factory_inv f → heap f !! p = Some e → len (desc d) = DESC_SIZE →
  awp (hybm_export f p slice HYBM_FLAG_EXPORT_ENTITY (Some d)) (λ x _, kept_in f x tt ∧ (x.2.2 = 0 → ∃ d', x.2.1 = Some d' ∧ ex_ok d' ∧ is_card d')).
Proof.
  intros Hf Hp Hd. apply (export_api_that f p e); [done|done|]. intros He. destruct (writer_safe d Hd) as [Hw Hl].
  eapply wp_mono; [by apply (export_entity_safe (shape_of e))|]. naive_solver.
Qed.
Lemma import_api_safe f p i fl : factory_inv f →
  (∀ d ds, i = Some (d :: ds) → Forall readable (d :: ds) ∧
      if allows fl HYBM_FLAG_EXPORT_ENTITY then Forall is_card (d :: ds) else for_entity f p (λ e, named e d)) →
  awp (hybm_import rank_order f p i fl) (kept_in f).
Proof.
  intros Hf Hop. apply with_safe; [done|]. intros e Hp He. destruct i as [[|d ds]|]; [done| |done]. destruct (Hop d ds eq_refl) as [Hr Hn].
  destruct (allows fl _); [by apply import_entity_safe|]. by apply import_safe; [..|apply Hn].
Qed.
Lemma copy_api_safe f p j d st fl : factory_inv f → for_entity f p host_initiated → (∀ x, j = Some x → classified d x) →
  awp (hybm_data_copy va f p j d st fl) (kept_in f).
Proof.
  intros Hf Hh Hc. unfold hybm_data_copy. destruct (p =? nullptr); [by apply same_kept|]. destruct j as [j|]; [|by apply same_kept].
  destruct (_ || _ || _ || _); [by apply same_kept|]. apply wp_seq, infer_safe; [by apply Hc|]. intros d'. destruct (is_butt d'); [by apply same_kept|].
  apply with_kept; [done|]. intros e Hp He. apply wp_seq, valid_safe. intros []; cbn [negb]; [|done]. by eapply copy_safe; [|apply Hh].
Qed.
Lemma wait_api_safe f p : factory_inv f → alive f p → for_entity f p host_initiated → awp (hybm_wait f p) (kept_in f).
Proof.
  intros Hf Ha Hh. unfold hybm_wait. destruct (Z.eqb_spec p nullptr); [by apply same_kept|]. apply at_kept; [done|by destruct Ha|]. intros e Hp He.
  by eapply wait_safe; [|apply Hh].
Qed.
Lemma batch_api_safe f p js d st fl : factory_inv f → alive f p → (∀ x l, js = Some (x :: l) → classified d x) →
  awp (hybm_data_batch_copy group_order va f p js d st fl) (kept_in f).
Proof.
  intros Hf Ha Hc. unfold hybm_data_batch_copy. destruct (Z.eqb_spec p nullptr); [by apply same_kept|]. destruct js as [[|j js]|]; try by apply same_kept.
  destruct (is_butt d); [by apply same_kept|]. apply wp_seq, infer_safe; [by eapply Hc|]. intros d'. destruct (is_butt d'); [by apply same_kept|].
  apply at_kept; [done|by destruct Ha|]. intros e _ He. apply wp_seq, entries_safe. intros []; cbn [negb]; [|done]. apply batch_safe.
Qed.
Lemma left_kept {A} f (p : eprog (MemEntityFactory * A)) : awp p (kept_in f) → awp (left_over p) (λ f' _, factory_inv f').
Proof. intros Hp. apply wp_seq. eapply wp_mono; [exact Hp|]. by intros x [] [H _]. Qed.
Lemma api_keeps f op : factory_inv f → op_ok f op → awp (api_run f op) (λ f' _, factory_inv f').
Proof.
  intros Hf Hop. destruct op; cbn [op_ok] in Hop.
  1: { apply wp_seq. destruct Hop as (H1 & H2 & H3). eapply wp_mono; [by apply create_safe|]. by intros x [] [H _]. }
  1: { eapply wp_mono; [by apply destroy_safe|]. by intros x [] [H _]. }
  all: apply (left_kept f).
  - by apply reserve_api_safe.
  - by apply unreserve_api_safe.
  - by apply get_ptr_safe.
  - apply with_kept; [done|]. intros. apply slice_va_safe.
  - by apply alloc_api_safe.
  - by apply free_api_safe.
  - by apply register_api_safe.
  - by apply export_safe.
  - apply with_kept; [done|]. intros. destruct size as [n|]; [|done]. apply wp_seq. eapply wp_mono; [apply export_size_safe|]. by intros [? ?].
  - by apply import_api_safe.
  - by apply mmap_api_safe.
  - apply with_kept; [done|]. intros. apply wp_seq. eapply wp_mono; [apply reach_safe|]. done.
  - by apply remove_api_safe.
  - apply with_kept; [done|]. intros. destruct (_ =? _); [done|apply context_safe].
  - apply with_kept; [done|]. intros. apply unmap_safe.
  - destruct Hop. by apply copy_api_safe.
  - destruct Hop. by apply wait_api_safe.
  - destruct Hop. by apply batch_api_safe.
Qed.

(** The factories that calls lead to. *)
Inductive api_reach : MemEntityFactory → Prop :=
| reach_start : api_reach factory_new
| reach_call f op f' : api_reach f → op_ok f op → leads astep (api_run f op) tt f' tt → api_reach f'.

End Api.

(** ** A run *)
Definition api_env (u : unit) (c : ECall) : unit * EAns :=
  (u, match c with
      | EHasInited | ESegCreate _ _ | ETrCreate => plain 1
      | ESegAlloc _ _ | ESegRegister _ _ _ => mkAns 0 0 [] (Some (v_slice peer_view).2) []
      | ETrQueryMemoryKey _ _ => mkAns 0 0 [] None (v_key peer_view)
      | _ => plain 0
      end).
Lemma api_env_step u c : astep u c (api_env u c).1 (api_env u c).2.
Proof. destruct c; cbn -[len]; try first [done|by eexists|unfold SEG_INFO_MAX; lia]. unfold of_kind, len, SEG_INFO_MAX. cbn. split; [lia|]. intros H; lia. Qed.
Definition demo_options : hybm_options :=
  mkHybm 1 HYBM_MEM_TYPE_HOST 8 2 1 0 LARGE_PAGE_SIZE 0 0 1 true 0 0 [] (bytes_of_str "b"%string) [] (-1).
Definition after (ops : list ApiOp) (f : MemEntityFactory) : MemEntityFactory :=
  foldl (λ f op, (run api_env (api_run map_to_list map_to_list va_new f op) tt).2) f ops.
Lemma api_step f op : api_reach map_to_list map_to_list va_new f → op_ok va_new f op → api_reach map_to_list map_to_list va_new (after [op] f).
Proof.
  intros Hr Hop. eapply reach_call; [exact Hr|exact Hop|]. destruct (leads_run astep (λ _, True) api_env (api_run map_to_list map_to_list va_new f op) tt) as [Hl _]; [|done|].
  - intros u c _. split; [apply api_env_step|done].
  - cbn [after foldl]. revert Hl. by destruct (run api_env (api_run map_to_list map_to_list va_new f op) tt) as [[] f'].
Qed.
Definition demo_calls : list ApiOp :=
  [OCreate 3 (Some demo_options) 77; OReserve 77; OAlloc 77 2 LARGE_PAGE_SIZE; OExport 77 99 0 (Some blank); OImport 77 (Some [slice_desc; card_desc]) 0;
   OWait 77; ODestroy 77; OUnmap 77].
Lemma demo_readable : Forall readable [slice_desc; card_desc].
Proof.
  repeat constructor; try (vm_compute; first [reflexivity|discriminate]); unfold terminated; apply is_Some_alt; vm_compute; exact I.
Qed.
Fixpoint all_ok (f : MemEntityFactory) (ops : list ApiOp) : Prop :=
  match ops with [] => True | op :: ops => op_ok va_new f op ∧ all_ok (after [op] f) ops end.
Lemma after_reach ops f : api_reach map_to_list map_to_list va_new f → all_ok f ops → api_reach map_to_list map_to_list va_new (after ops f).
Proof. revert f. induction ops as [|op ops IH]; intros f Hr; [done|]. intros [H1 H2]. apply (IH (after [op] f)); [by apply api_step|done]. Qed.
Lemma demo_ok : all_ok factory_new demo_calls.
Proof.
  assert (∀ (f : MemEntityFactory) e, heap f !! 77 = Some e → alive f 77) as Hal by (intros f e He; right; by exists e).
  unfold demo_calls. cbn [all_ok op_ok]. split_and!; try exact I.
  - intros x [= <-] _ _. discriminate.
  - reflexivity.
  - discriminate.
  - intros d [= <-]. reflexivity.
  - intros d ds [= <- <-]. split; [exact demo_readable|]. intros e He. vm_compute in He. injection He as <-.
    intros b Hb. vm_compute in Hb. injection Hb as <-. vm_compute. reflexivity.
  - right. apply is_Some_alt. vm_compute. exact I.
  - intros e He. vm_compute in He. injection He as <-. discriminate.
Qed.

(** ** What a caller owes is needed *)

(** A handle of an entity that is gone: the calls that look the handle up refuse it,
    the others use it. *)
Theorem stale_handle_used f p : factory_inv f → p ≠ nullptr → heap f !! p = None →
  hybm_mmap f p = Ret (f, BM_INVALID_PARAM) ∧ (∃ k, hybm_wait f p = Act EUndefined k) ∧ (∀ t, ∃ k, hybm_get_memory_ptr f p t = Act EUndefined k).
Proof.
  intros Hf Hp%Z.eqb_neq Hh. unfold hybm_mmap, with_entity, hybm_wait, hybm_get_memory_ptr, at_address, eundefined. rewrite Hp, Hh. split; [|by split; eauto].
  assert (enginesFromAddress_ f !! p = None) as Ha by (apply eq_None_not_Some; rewrite <- (fi_alive _ Hf), Hh; by intros [? ?]).
  unfold FindEngineByPtr. by rewrite Ha.
Qed.
(** A transfer entity with host memory of no size: the segment that is not there is used. *)
Theorem trans_without_dram_crashes e : ho_scene (eo e) = HYBM_SCENE_TRANS → ho_memType (eo e) = HYBM_MEM_TYPE_HOST → ho_maxDRAMSize (eo e) = 0 →
  dramSegment_ e = false → ∃ k, InitSegment e = Act EUndefined k.
Proof.
  intros Hs Hm Hd Hn. unfold InitSegment. rewrite Hm. change (allows HYBM_MEM_TYPE_HOST HYBM_MEM_TYPE_DEVICE) with false. cbn [mbind program_bind Z.eqb negb].
  rewrite Hm. change (allows HYBM_MEM_TYPE_HOST HYBM_MEM_TYPE_HOST) with true. unfold InitDramSegment. rewrite Hd. cbn. rewrite Hs. cbn.
  unfold on_seg. cbn. rewrite Hn. by eexists.
Qed.
