(* ===== verification/MessagePacker.v ===== *)
(** * The store's wire format (src/src/smem/csrc/config_store/tcp_store/smem_message_packer)

    A message is packed as its total size, the caller's 8 bytes, the type, the
    counted and sized keys and the counted and sized values, all little-endian.
    [Unpack] reads at offsets of a raw buffer: a read that ends past the buffer
    is [Oob], a rejected message (return value -1) is [Fail]. *)
From Stdlib Require Import Strings.Byte Strings.String.
From stdpp Require Import base numbers list strings.
From S2P Require Import Prelude.
Local Open Scope Z_scope.
Local Open Scope mf_scope.

Definition MAX_KEY_COUNT : Z := 10.
Definition MAX_KEY_SIZE : Z := 2048.
Definition MAX_VALUE_COUNT : Z := 10.
Definition MAX_VALUE_SIZE : Z := 64 * 1024 * 1024.

Inductive MessageType :=
| SET | GET | ADD | REMOVE | APPEND | CAS | WRITE | WATCH_RANK_STATE | HEARTBEAT | INVALID_MSG.
#[global] Instance MessageType_eq_dec : EqDecision MessageType.
Proof. solve_decision. Defined.

Definition mt_code (t : MessageType) : Z :=
  match t with
  | SET => 0 | GET => 1 | ADD => 2 | REMOVE => 3 | APPEND => 4 | CAS => 5 | WRITE => 6
  | WATCH_RANK_STATE => 7 | HEARTBEAT => 8 | INVALID_MSG => 9
  end.
Definition mt_of_code (z : Z) : option MessageType :=
  List.find (λ t, mt_code t =? z)
    [SET; GET; ADD; REMOVE; APPEND; CAS; WRITE; WATCH_RANK_STATE; HEARTBEAT; INVALID_MSG].

Record SmemMessage := mkMsg {
  mt : MessageType;
  userDef : Z;
  keys : list string;
  values : list bytes;
}.

(** The constructors: [userDef] starts as -1. *)
Definition msg (t : MessageType) (ks : list string) (vs : list bytes) : SmemMessage :=
  mkMsg t (-1) ks vs.

(** ** Packing *)
Definition slen (s : string) : Z := len (bytes_of_str s).

Definition PackValue (dest : bytes) (sizeofT : nat) (value : Z) : bytes :=
  dest ++ le_bytes sizeofT value.
Definition PackBytes (dest : bytes) (b : bytes) : bytes :=
  PackValue dest 8 (len b) ++ b.
Definition PackString (dest : bytes) (str : string) : bytes :=
  let dest1 := PackValue dest 8 (slen str) in
  if (slen str =? 0) then dest1 else dest1 ++ bytes_of_str str.

Definition baseSize : Z := 4 * 8 + 2.
Definition packed_size (m : SmemMessage) : Z :=
  foldl (λ t v, t +64 (8 +64 len v))
    (foldl (λ t k, t +64 (8 +64 slen k)) baseSize (keys m)) (values m).

Definition Pack (m : SmemMessage) : bytes :=
  let r := PackValue [] 8 (packed_size m) in
  let r := PackValue r 8 (userDef m) in
  let r := PackValue r 2 (mt_code (mt m)) in
  let r := PackValue r 8 (len (keys m)) in
  let r := foldl PackString r (keys m) in
  let r := PackValue r 8 (len (values m)) in
  foldl PackBytes r (values m).

(** [PackPod] and [UnpackPod] of a [n]-byte integer; the read has no size check. *)
Definition PackPod (n : nat) (v : Z) : bytes := le_bytes n v.
Definition UnpackPod (n : nat) (vec : bytes) : option Z :=
  if (n <=? List.length vec)%nat then Some (le_val (take n vec)) else None.

(** ** Unpacking *)
Inductive Parsed (A : Type) := Val (a : A) | Fail | Oob.
Arguments Val {A} a.
Arguments Fail {A}.
Arguments Oob {A}.

Definition p_bind {A B} (x : Parsed A) (f : A → Parsed B) : Parsed B :=
  match x with Val a => f a | Fail => Fail | Oob => Oob end.
Notation "x <- e ;; f" := (p_bind e (λ x, f)) (at level 100, e at next level, right associativity) : mf_scope.
Notation "'reject_if' b ;; f" := (if (b : bool) then Fail else f) (at level 100, b at level 99, right associativity) : mf_scope.

(** The [n] bytes at [pos] as an unsigned integer. *)
Definition read_at (buffer : bytes) (pos n : nat) : Parsed Z :=
  if (pos + n <=? List.length buffer)%nat then Val (le_val (take n (drop pos buffer))) else Oob.

Definition Full (buffer : bytes) : Parsed bool :=
  if len buffer <? baseSize then Val false else
  totalSize <- read_at buffer 0 8;;
  Val (totalSize <=? len buffer).

Definition MessageSize (buffer : bytes) : Parsed Z :=
  if len buffer <? 4 * 8 + 2 then Val (-1) else
  totalSize <- read_at buffer 0 8;;
  Val (i64 totalSize).

(** One of the two loops of [Unpack]: [count] sized fields of at most [maxSize]
    bytes; the result is the fields and the position behind them. *)
Fixpoint unpack_fields (maxSize : Z) (count : nat) (buffer : bytes) (length : nat)
    (acc : list bytes) : Parsed (list bytes * nat) :=
  match count with
  | O => Val (acc, length)
  | S count' =>
      fieldSize <- read_at buffer length 8;;
      let length := (length + 8)%nat in
      reject_if (maxSize <? fieldSize) || (len buffer <? Z.of_nat length +64 fieldSize);;
      let field := take (Z.to_nat fieldSize) (drop length buffer) in
      unpack_fields maxSize count' buffer (length + Z.to_nat fieldSize)%nat (acc ++ [field])
  end.

Definition Unpack (buffer : bytes) : Parsed (SmemMessage * Z) :=
  full <- Full buffer;;
  reject_if negb full;;
  totalSize <- read_at buffer 0 8;;
  userDef <- read_at buffer 8 8;;
  code <- read_at buffer 16 2;;
  match mt_of_code (i16 code) with
  | None => Fail
  | Some t =>
      keyCount <- read_at buffer 18 8;;
      reject_if MAX_KEY_COUNT <? keyCount;;
      ks <- unpack_fields MAX_KEY_SIZE (Z.to_nat keyCount) buffer 26 [];;
      valueCount <- read_at buffer ks.2 8;;
      reject_if MAX_VALUE_COUNT <? valueCount;;
      vs <- unpack_fields MAX_VALUE_SIZE (Z.to_nat valueCount) buffer (ks.2 + 8)%nat [];;
      reject_if negb (totalSize =? Z.of_nat vs.2);;
      Val (mkMsg t (i64 userDef) (str_of_bytes <$> ks.1) vs.1, i64 totalSize)
  end.

(** What the sender keeps to: the limits that [Unpack] enforces. *)
Definition wf_msg (m : SmemMessage) : Prop :=
  - 2 ^ 63 ≤ userDef m < 2 ^ 63 ∧
  len (keys m) ≤ MAX_KEY_COUNT ∧ Forall (λ k, slen k ≤ MAX_KEY_SIZE) (keys m) ∧
  len (values m) ≤ MAX_VALUE_COUNT ∧ Forall (λ v, len v ≤ MAX_VALUE_SIZE) (values m).

(** * Lemmas *)
Definition field (b : bytes) : bytes := le_bytes 8 (len b) ++ b.
Definition fields (bs : list bytes) : bytes := concat (field <$> bs).
Definition key_bytes (m : SmemMessage) : list bytes := bytes_of_str <$> keys m.

Definition header (total : Z) (m : SmemMessage) : bytes :=
  le_bytes 8 total ++ le_bytes 8 (userDef m) ++ le_bytes 2 (mt_code (mt m)) ++
  le_bytes 8 (len (keys m)).

Lemma PackString_eq dest s : PackString dest s = dest ++ field (bytes_of_str s).
Proof.
  unfold PackString, PackValue, field, slen.
  destruct (bytes_of_str s) as [|b l]; cbn [len List.length]; [by rewrite app_nil_r|].
  rewrite (proj2 (Z.eqb_neq _ _)) by (unfold len; cbn [List.length]; lia).
  by rewrite <- app_assoc.
Qed.
Lemma PackBytes_eq dest b : PackBytes dest b = dest ++ field b.
Proof. unfold PackBytes, PackValue, field. by rewrite <- app_assoc. Qed.

Lemma foldl_PackString ks dest :
  foldl PackString dest ks = dest ++ fields (bytes_of_str <$> ks).
Proof.
  revert dest. induction ks as [|k ks IH]; intros dest; cbn.
  - by rewrite app_nil_r.
  - rewrite IH, PackString_eq. unfold fields. by rewrite <- app_assoc.
Qed.
Lemma foldl_PackBytes vs dest : foldl PackBytes dest vs = dest ++ fields vs.
Proof.
  revert dest. induction vs as [|v vs IH]; intros dest; cbn.
  - by rewrite app_nil_r.
  - rewrite IH, PackBytes_eq. unfold fields. by rewrite <- app_assoc.
Qed.

Lemma Pack_eq m :
  Pack m = header (packed_size m) m ++ fields (key_bytes m) ++
           le_bytes 8 (len (values m)) ++ fields (values m).
Proof.
  unfold Pack. rewrite foldl_PackBytes, foldl_PackString. unfold PackValue, header, key_bytes.
  rewrite <- !app_assoc. done.
Qed.

Lemma len_fields_cons b bs : len (fields (b :: bs)) = 8 + len b + len (fields bs).
Proof.
  change (fields (b :: bs)) with (field b ++ fields bs). unfold field.
  rewrite !len_app, len_le_bytes. lia.
Qed.

Lemma len_fields_bound bs c :
  Forall (λ b, len b ≤ c) bs → 0 ≤ len (fields bs) ≤ len bs * (8 + c).
Proof.
  induction 1 as [|b bs Hb _ IH]; [by cbn|].
  rewrite len_fields_cons. pose proof (len_nonneg b).
  assert (len (b :: bs) = 1 + len bs) as -> by (unfold len; cbn; lia). nia.
Qed.

(** The size loop of [Pack] does not wrap for messages within the limits. *)
Lemma foldl_size {A} (l : list A) (f : A → bytes) t :
  0 ≤ t → t + len (fields (f <$> l)) < 2 ^ 64 →
  foldl (λ t k, t +64 (8 +64 len (f k))) t l = t + len (fields (f <$> l)).
Proof.
  revert t. induction l as [|x l IH]; intros t Ht Hb; [by rewrite Z.add_0_r|].
  cbn [foldl fmap list_fmap] in *. rewrite len_fields_cons in *.
  pose proof (len_nonneg (f x)). pose proof (len_nonneg (fields (f <$> l))).
  rewrite !u64_small by (rewrite ?u64_small; lia).
  rewrite IH by lia. lia.
Qed.

Lemma packed_size_eq m :
  wf_msg m → packed_size m = len (Pack m) ∧ baseSize ≤ len (Pack m) < 2 ^ 40.
Proof.
  intros (_ & Hk & Hks & Hv & Hvs).
  assert (0 ≤ len (fields (key_bytes m)) ≤ 10 * (8 + 2048)) as Hkb.
  { assert (Forall (λ b, len b ≤ 2048) (key_bytes m)) as Hf.
    { unfold key_bytes. rewrite Forall_fmap. eapply Forall_impl; [exact Hks|]. done. }
    apply len_fields_bound in Hf. unfold MAX_KEY_COUNT in Hk.
    assert (len (key_bytes m) = len (keys m)) by (unfold len, key_bytes; by rewrite length_fmap).
    pose proof (len_nonneg (keys m)). nia. }
  assert (0 ≤ len (fields (values m)) ≤ 10 * (8 + MAX_VALUE_SIZE)) as Hvb.
  { apply len_fields_bound in Hvs. unfold MAX_VALUE_COUNT in Hv.
    pose proof (len_nonneg (values m)). unfold MAX_VALUE_SIZE in *. nia. }
  assert (len (Pack m) = baseSize + len (fields (key_bytes m)) + len (fields (values m))) as Hlen.
  { rewrite Pack_eq. unfold header, baseSize. rewrite !len_app, !len_le_bytes. lia. }
  unfold baseSize, MAX_VALUE_SIZE in *. split; [|lia]. rewrite Hlen. unfold packed_size, slen.
  pose proof (foldl_size (keys m) bytes_of_str baseSize) as E1.
  fold (key_bytes m) in E1. rewrite E1 by (unfold baseSize; lia).
  pose proof (foldl_size (values m) id) as E2. rewrite list_fmap_id in E2.
  unfold id in E2. rewrite E2; unfold baseSize; lia.
Qed.

(** ** Reads at the end of a known prefix *)
Lemma read_at_app pre b rest n :
  List.length b = n → read_at (pre ++ b ++ rest) (List.length pre) n = Val (le_val b).
Proof.
  intros <-. unfold read_at. rewrite !length_app.
  rewrite (proj2 (Nat.leb_le _ _)) by lia.
  rewrite drop_app_length, take_app_length. done.
Qed.

Lemma read_at_le pre n z rest :
  0 ≤ z < 256 ^ Z.of_nat n →
  read_at (pre ++ le_bytes n z ++ rest) (List.length pre) n = Val z.
Proof.
  intros Hz. rewrite read_at_app by apply length_le_bytes. by rewrite le_val_le_bytes_small.
Qed.

Lemma unpack_fields_app maxSize bs pre rest acc :
  0 ≤ maxSize < 2 ^ 32 → Forall (λ b, len b ≤ maxSize) bs →
  len pre + len (fields bs) < 2 ^ 63 →
  unpack_fields maxSize (List.length bs) (pre ++ fields bs ++ rest) (List.length pre) acc
  = Val (acc ++ bs, List.length (pre ++ fields bs)).
Proof.
  intros Hmax Hf. revert pre acc.
  induction Hf as [|b bs Hb _ IH]; intros pre acc Hlen; cbn [List.length unpack_fields].
  { cbn. by rewrite !app_nil_r. }
  rewrite len_fields_cons in Hlen. pose proof (len_nonneg b). pose proof (len_nonneg pre).
  pose proof (len_nonneg (fields bs)).
  assert (fields (b :: bs) = le_bytes 8 (len b) ++ b ++ fields bs) as ->.
  { change (fields (b :: bs)) with (field b ++ fields bs). unfold field. by rewrite <- app_assoc. }
  rewrite <- !app_assoc. rewrite read_at_le by (cbn; lia). cbn [p_bind].
  rewrite (proj2 (Z.ltb_ge _ _)) by lia. cbn [orb].
  rewrite u64_small by (unfold len in *; lia).
  rewrite (proj2 (Z.ltb_ge _ _)).
  2: { rewrite !len_app, len_le_bytes. pose proof (len_nonneg rest). unfold len in *. lia. }
  set (pre' := pre ++ le_bytes 8 (len b)).
  assert (List.length pre + 8 = List.length pre')%nat as Hp'.
  { unfold pre'. rewrite length_app, length_le_bytes. done. }
  assert (pre ++ le_bytes 8 (len b) ++ b ++ fields bs ++ rest = pre' ++ b ++ fields bs ++ rest) as ->.
  { unfold pre'. by rewrite <- app_assoc. }
  rewrite Hp', drop_app_length.
  assert (Z.to_nat (len b) = List.length b) as -> by (unfold len; lia).
  rewrite take_app_length.
  replace (List.length pre' + List.length b)%nat with (List.length (pre' ++ b))
    by (by rewrite length_app).
  rewrite (app_assoc pre' b). rewrite IH.
  - unfold pre'. rewrite <- !app_assoc. done.
  - unfold pre'. rewrite !len_app, len_le_bytes. lia.
Qed.

Lemma read_at_pos buf pre n z rest pos :
  buf = pre ++ le_bytes n z ++ rest → List.length pre = pos →
  read_at buf pos n = Val (z mod 256 ^ Z.of_nat n).
Proof.
  intros -> <-. rewrite read_at_app by apply length_le_bytes. by rewrite le_val_le_bytes.
Qed.

Lemma mt_of_code_code t : mt_of_code (mt_code t) = Some t.
Proof. by destruct t. Qed.
Lemma mt_code_of_code z t : mt_of_code z = Some t → mt_code t = z.
Proof. unfold mt_of_code. intros [_ ?]%List.find_some. lia. Qed.
Lemma mt_code_range t : 0 ≤ mt_code t < 10.
Proof. destruct t; cbn; lia. Qed.

Lemma i64_mod z : - 2 ^ 63 ≤ z < 2 ^ 63 → i64 (z mod 2 ^ 64) = z.
Proof.
  intros Hz. unfold i64, to_signed. rewrite Z.mod_mod by lia.
  change (if z mod 2 ^ 64 <? 2 ^ (64 - 1) then z mod 2 ^ 64 else z mod 2 ^ 64 - 2 ^ 64)
    with (to_signed 64 z).
  by apply i64_small.
Qed.
Lemma i64_mod_eq z : i64 z mod 2 ^ 64 = z mod 2 ^ 64.
Proof.
  unfold i64, to_signed. case_match; [apply Z.mod_mod; lia|].
  replace (z mod 2 ^ 64 - 2 ^ 64) with (z mod 2 ^ 64 + (-1) * 2 ^ 64) by lia.
  rewrite Z_mod_plus_full. apply Z.mod_mod. lia.
Qed.
Lemma i64_range z : - 2 ^ 63 ≤ i64 z < 2 ^ 63.
Proof.
  unfold i64, to_signed. pose proof (Z.mod_pos_bound z (2 ^ 64) ltac:(lia)).
  change (2 ^ (64 - 1)) with (2 ^ 63). destruct (_ <? _) eqn:?; lia.
Qed.

Lemma wf_key_bytes m :
  wf_msg m → Forall (λ b, len b ≤ MAX_KEY_SIZE) (key_bytes m).
Proof. intros (_&_&H&_). unfold key_bytes. by rewrite Forall_fmap. Qed.

Lemma str_key_bytes m : str_of_bytes <$> key_bytes m = keys m.
Proof.
  unfold key_bytes. rewrite <- list_fmap_compose.
  etransitivity; [|apply list_fmap_id]. apply list_fmap_ext.
  intros ? k _. apply str_of_bytes_of_str.
Qed.

(** ** Unpacking what was packed *)
Section UnpackPack.
Context (m : SmemMessage) (rest : bytes) (Hwf : wf_msg m).
Let buf := Pack m ++ rest.
Let total := packed_size m.
Let h1 := le_bytes 8 total.
Let h2 := le_bytes 8 (userDef m).
Let h3 := le_bytes 2 (mt_code (mt m)).
Let h4 := le_bytes 8 (len (keys m)).
Let pre := h1 ++ h2 ++ h3 ++ h4.
Let kb := fields (key_bytes m).
Let c2 := le_bytes 8 (len (values m)).
Let vb := fields (values m).

Lemma buf_layout : buf = h1 ++ h2 ++ h3 ++ h4 ++ kb ++ c2 ++ vb ++ rest.
Proof. unfold buf. rewrite Pack_eq. unfold header. rewrite <- !app_assoc. done. Qed.

Lemma buf_pre : buf = pre ++ kb ++ c2 ++ vb ++ rest.
Proof. rewrite buf_layout. unfold pre. by rewrite <- !app_assoc. Qed.

Lemma len_Pack : len (Pack m) = 26 + len kb + 8 + len vb.
Proof. rewrite Pack_eq. unfold header. rewrite !len_app, !len_le_bytes. fold kb vb. lia. Qed.

Lemma Full_packed : Full buf = Val true.
Proof.
  pose proof (packed_size_eq m Hwf) as [Hsize Hbnd]. pose proof (len_nonneg rest).
  unfold Full. rewrite (read_at_pos buf [] 8 total _ 0 buf_layout eq_refl).
  assert (len buf = len (Pack m) + len rest) as Hlb by (unfold buf; apply len_app).
  rewrite (proj2 (Z.ltb_ge _ _)) by lia. cbn [p_bind].
  rewrite Z.mod_small by (change (256 ^ Z.of_nat 8) with (2 ^ 64); unfold baseSize, total in *; lia).
  rewrite (proj2 (Z.leb_le _ _)); [done|]. unfold total. lia.
Qed.

Lemma read_head :
  read_at buf 0 8 = Val total ∧ read_at buf 8 8 = Val (userDef m mod 2 ^ 64) ∧
  read_at buf 16 2 = Val (mt_code (mt m)) ∧ read_at buf 18 8 = Val (len (keys m)).
Proof.
  pose proof (packed_size_eq m Hwf) as [Hsize Hbnd]. pose proof (mt_code_range (mt m)).
  pose proof Hwf as (_ & Hk & _). unfold MAX_KEY_COUNT in Hk. pose proof (len_nonneg (keys m)).
  split_and!.
  - rewrite (read_at_pos buf [] 8 total _ 0 buf_layout eq_refl), Z.mod_small; [done|].
    change (256 ^ Z.of_nat 8) with (2 ^ 64). unfold baseSize, total in *. lia.
  - apply (read_at_pos buf h1 8 (userDef m) (h3 ++ h4 ++ kb ++ c2 ++ vb ++ rest) 8);
      [apply buf_layout|done].
  - rewrite (read_at_pos buf (h1 ++ h2) 2 (mt_code (mt m)) (h4 ++ kb ++ c2 ++ vb ++ rest) 16);
      [|by rewrite buf_layout, <- !app_assoc|done].
    rewrite Z.mod_small; [done|cbn; lia].
  - rewrite (read_at_pos buf (h1 ++ h2 ++ h3) 8 (len (keys m)) (kb ++ c2 ++ vb ++ rest) 18);
      [|by rewrite buf_layout, <- !app_assoc|done].
    rewrite Z.mod_small; [done|cbn; lia].
Qed.

Lemma read_keys :
  unpack_fields MAX_KEY_SIZE (Z.to_nat (len (keys m))) buf 26 [] =
  Val (key_bytes m, List.length (pre ++ kb)).
Proof.
  pose proof (packed_size_eq m Hwf) as [_ Hbnd]. pose proof len_Pack.
  assert (Z.to_nat (len (keys m)) = List.length (key_bytes m)) as ->.
  { unfold len, key_bytes. rewrite length_fmap. lia. }
  pose proof (unpack_fields_app MAX_KEY_SIZE (key_bytes m) pre (c2 ++ vb ++ rest) []) as Ek.
  change (List.length pre) with 26%nat in Ek. fold kb in Ek. rewrite <- buf_pre in Ek.
  apply Ek; [unfold MAX_KEY_SIZE; lia|by apply wf_key_bytes|].
  change (len pre) with 26. pose proof (len_nonneg vb). lia.
Qed.

Lemma read_values :
  read_at buf (List.length (pre ++ kb)) 8 = Val (len (values m)) ∧
  unpack_fields MAX_VALUE_SIZE (Z.to_nat (len (values m))) buf (List.length (pre ++ kb) + 8)%nat []
  = Val (values m, Z.to_nat total).
Proof.
  pose proof (packed_size_eq m Hwf) as [Hsize Hbnd]. pose proof len_Pack as Hl.
  pose proof Hwf as (_ & _ & _ & Hv & Hvf). unfold MAX_VALUE_COUNT in Hv.
  pose proof (len_nonneg (values m)). split.
  - rewrite (read_at_pos buf (pre ++ kb) 8 (len (values m)) (vb ++ rest));
      [|by rewrite buf_pre, <- !app_assoc|done].
    rewrite Z.mod_small; [done|cbn; lia].
  - assert (Z.to_nat (len (values m)) = List.length (values m)) as -> by (unfold len; lia).
    pose proof (unpack_fields_app MAX_VALUE_SIZE (values m) (pre ++ kb ++ c2) rest []) as Ev.
    fold vb in Ev.
    assert ((pre ++ kb ++ c2) ++ vb ++ rest = buf) as Hb3 by (rewrite buf_pre; by rewrite <- !app_assoc).
    assert (List.length (pre ++ kb ++ c2) = List.length (pre ++ kb) + 8)%nat as Hl3.
    { rewrite !length_app. unfold c2. rewrite length_le_bytes. lia. }
    rewrite Hb3, Hl3 in Ev. rewrite Ev; [|unfold MAX_VALUE_SIZE; lia|done|].
    + cbn [app]. do 2 f_equal. apply Nat2Z.inj. rewrite Z2Nat.id by (unfold baseSize, total in *; lia).
      fold (len ((pre ++ kb ++ c2) ++ vb)). rewrite !len_app. unfold c2.
      rewrite len_le_bytes. change (len pre) with 26. unfold total. lia.
    + rewrite !len_app. unfold c2. rewrite len_le_bytes. change (len pre) with 26. lia.
Qed.

Lemma Unpack_Pack : Unpack buf = Val (m, len (Pack m)).
Proof.
  pose proof (packed_size_eq m Hwf) as [Hsize Hbnd]. pose proof (mt_code_range (mt m)).
  destruct read_head as (R1 & R2 & R3 & R4), read_values as [R5 R6].
  pose proof Hwf as (Hud & Hk & _ & Hv & _).
  unfold Unpack. rewrite Full_packed. cbn [p_bind negb]. rewrite R1, R2, R3. cbn [p_bind].
  unfold i16. rewrite to_signed_small by lia. rewrite mt_of_code_code, R4. cbn [p_bind].
  rewrite (proj2 (Z.ltb_ge _ _)) by lia. rewrite read_keys. cbn [p_bind fst snd].
  rewrite R5. cbn [p_bind]. rewrite (proj2 (Z.ltb_ge _ _)) by lia. rewrite R6. cbn [p_bind fst snd].
  rewrite Z2Nat.id, Z.eqb_refl by (unfold baseSize, total in *; lia). cbn [negb].
  rewrite i64_mod, i64_small by (unfold baseSize, total in *; lia).
  rewrite str_key_bytes. unfold total. rewrite Hsize. by destruct m.
Qed.
End UnpackPack.

(** ** Repacking what was unpacked *)
Lemma read_at_inv buf pos n z :
  read_at buf pos n = Val z →
  (pos + n ≤ List.length buf)%nat ∧ 0 ≤ z < 256 ^ Z.of_nat n ∧
  take (pos + n) buf = take pos buf ++ le_bytes n z.
Proof.
  unfold read_at. destruct (_ <=? _)%nat eqn:E; [|done]. apply Nat.leb_le in E. intros [= <-].
  assert (List.length (take n (drop pos buf)) = n) as Hl.
  { rewrite length_take, length_drop. lia. }
  pose proof (le_val_range (take n (drop pos buf))) as Hr. rewrite Hl in Hr.
  split_and!; [done|lia..|].
  rewrite <- Hl at 2. rewrite le_bytes_le_val, take_take_drop. done.
Qed.

Lemma unpack_fields_inv maxSize count buf pos acc r pos' :
  0 ≤ maxSize < 2 ^ 32 → len buf < 2 ^ 63 → (pos ≤ List.length buf)%nat →
  unpack_fields maxSize count buf pos acc = Val (r, pos') →
  ∃ bs, r = acc ++ bs ∧ List.length bs = count ∧ Forall (λ b, len b ≤ maxSize) bs ∧
    (pos' ≤ List.length buf)%nat ∧ take pos' buf = take pos buf ++ fields bs.
Proof.
  intros Hmax Hbuf. revert pos acc.
  induction count as [|count IH]; intros pos acc Hpos; cbn [unpack_fields].
  { intros [= <- <-]. exists []. rewrite !app_nil_r. done. }
  destruct (read_at buf pos 8) as [sz| |] eqn:Er; cbn [p_bind]; [|done..].
  apply read_at_inv in Er as (Hp8 & Hsz & Ht8).
  destruct (maxSize <? sz) eqn:E1; cbn [orb]; [done|]. apply Z.ltb_ge in E1.
  change (256 ^ Z.of_nat 8) with (2 ^ 64) in Hsz.
  rewrite u64_small by (unfold len in *; lia).
  destruct (len buf <? _) eqn:E2; [done|].
  apply Z.ltb_ge in E2. unfold len in E2.
  set (f := take (Z.to_nat sz) (drop (pos + 8) buf)).
  assert (len f = sz) as Hf.
  { unfold len, f. rewrite length_take, length_drop, Nat.min_l; lia. }
  intros (bs & -> & Hlen & Hall & Hpos' & Htake)%IH; [|lia].
  exists (f :: bs). split_and!.
  - by rewrite <- app_assoc.
  - cbn. by rewrite Hlen.
  - constructor; [lia|done].
  - done.
  - change (fields (f :: bs)) with (field f ++ fields bs). unfold field. rewrite Hf.
    rewrite Htake.
    replace (take (pos + 8 + Z.to_nat sz) buf) with (take (pos + 8) buf ++ f)
      by (unfold f; apply take_take_drop).
    rewrite Ht8, <- !app_assoc. done.
Qed.

Ltac parse_step H :=
  match type of H with
  | p_bind ?e _ = Val _ =>
      let E := fresh "E" in destruct e as [?| |] eqn:E; cbn [p_bind] in H; [|discriminate H..]
  | (if ?b then Fail else _) = Val _ =>
      let E := fresh "E" in destruct b eqn:E; [discriminate H|]
  end.

Lemma le_bytes_mod n z : le_bytes n z = le_bytes n (z mod 256 ^ Z.of_nat n).
Proof.
  rewrite <- le_val_le_bytes.
  pose proof (le_bytes_le_val (le_bytes n z)) as E. by rewrite length_le_bytes in E.
Qed.

Lemma le_bytes_i64 z : 0 ≤ z < 2 ^ 64 → le_bytes 8 (i64 z) = le_bytes 8 z.
Proof.
  intros Hz. rewrite (le_bytes_mod 8 (i64 z)).
  change (256 ^ Z.of_nat 8) with (2 ^ 64). by rewrite i64_mod_eq, Z.mod_small.
Qed.

Lemma i16_code z t : 0 ≤ z < 2 ^ 16 → mt_of_code (i16 z) = Some t → z = mt_code t.
Proof.
  intros Hz E%mt_code_of_code. pose proof (mt_code_range t). rewrite E in *.
  unfold i16, to_signed in *. rewrite Z.mod_small in * by lia.
  destruct (z <? 2 ^ (16 - 1)) eqn:?; lia.
Qed.

(** A message whose fields have been read one behind the other is what [Pack]
    writes, and its size is the number of bytes read. *)
Lemma repack buf t ud ks vs total :
  wf_msg (mkMsg t ud (str_of_bytes <$> ks) vs) →
  take (Z.to_nat total) buf =
    le_bytes 8 total ++ le_bytes 8 ud ++ le_bytes 2 (mt_code t) ++ le_bytes 8 (len ks) ++
    fields ks ++ le_bytes 8 (len vs) ++ fields vs →
  0 ≤ total ≤ len buf →
  let m := mkMsg t ud (str_of_bytes <$> ks) vs in
  total = len (Pack m) ∧ take (Z.to_nat total) buf = Pack m.
Proof.
  intros Hwf Ht Hb m. fold m in Hwf. pose proof (packed_size_eq m Hwf) as [Hsize _].
  assert (key_bytes m = ks) as Hkb.
  { unfold key_bytes, m. cbn [keys]. rewrite <- list_fmap_compose.
    etransitivity; [|apply list_fmap_id]. apply list_fmap_ext.
    intros ? k _. apply bytes_of_str_of_bytes. }
  assert (len (keys m) = len ks) as Hlk by (unfold len, m; cbn [keys]; by rewrite length_fmap).
  assert (total = len (Pack m)) as Htot.
  { assert (len (take (Z.to_nat total) buf) = total) as <-.
    { unfold len in *. rewrite length_take_le; lia. }
    rewrite Ht, Pack_eq. unfold header. rewrite Hkb. cbn [userDef mt values m].
    rewrite !len_app, !len_le_bytes. lia. }
  split; [done|]. rewrite Ht, Pack_eq, Hsize, <- Htot, Hkb. unfold header.
  rewrite Hlk. cbn [userDef mt values m]. rewrite <- !app_assoc. done.
Qed.

Lemma Unpack_inv buf m n :
  len buf < 2 ^ 63 → Unpack buf = Val (m, n) →
  wf_msg m ∧ n = len (Pack m) ∧ n ≤ len buf ∧ take (Z.to_nat n) buf = Pack m.
Proof.
  intros Hbuf H. unfold Unpack in H. parse_step H. parse_step H. clear E E0.
  parse_step H; rename a0 into total, E into R1. parse_step H; rename a0 into ud, E into R2.
  parse_step H; rename a0 into code, E into R3.
  destruct (mt_of_code _) as [t|] eqn:Et; [|done].
  parse_step H; rename a0 into kc, E into R4. parse_step H; rename E into Hkc.
  parse_step H; rename E into Rk; destruct a0 as [ks n1].
  cbn [fst snd] in H. parse_step H; rename a0 into vc, E into R5.
  parse_step H; rename E into Hvc. parse_step H; rename E into Rv; destruct a0 as [vs n0].
  cbn [fst snd] in H. parse_step H; rename E into Htot.
  injection H as <- <-. apply negb_false_iff, Z.eqb_eq in Htot.
  apply read_at_inv in R1 as (P1 & B1 & T1), R2 as (P2 & B2 & T2), R3 as (P3 & B3 & T3),
    R4 as (P4 & B4 & T4), R5 as (P5 & B5 & T5).
  apply unpack_fields_inv in Rk as (ks' & -> & Lk & Fk & Pk & Tk); [|unfold MAX_KEY_SIZE; lia|done|done].
  apply unpack_fields_inv in Rv as (vs' & -> & Lv & Fv & Pv & Tv); [|unfold MAX_VALUE_SIZE; lia|done|done].
  apply i16_code in Et; [|done]. rewrite Et in T3.
  change (256 ^ Z.of_nat 8) with (2 ^ 64) in *.
  assert (kc = len ks') as -> by (unfold len; lia). assert (vc = len vs') as -> by (unfold len; lia).
  assert (i64 total = total) as -> by (apply i64_small; unfold len in Hbuf; lia).
  cbn [app].
  assert (wf_msg (mkMsg t (i64 ud) (str_of_bytes <$> ks') vs')) as Hwf.
  { split_and!; cbn [userDef keys values]; try apply i64_range; [|..|lia|done].
    - unfold len. rewrite length_fmap. fold (len ks'). lia.
    - rewrite Forall_fmap. eapply Forall_impl; [exact Fk|]. intros b Hb. cbn.
      unfold slen. by rewrite bytes_of_str_of_bytes. }
  assert (total ≤ len buf) by (unfold len; lia).
  edestruct (repack buf t (i64 ud) ks' vs' total) as [E1 E2]; [done| |lia|done].
  rewrite Htot, Nat2Z.id, Tv, T5, Tk. change 26%nat with (18 + 8)%nat. rewrite T4.
  change 18%nat with (16 + 2)%nat. rewrite T3. change 16%nat with (8 + 8)%nat. rewrite T2.
  change 8%nat with (0 + 8)%nat at 1. rewrite T1. rewrite <- Htot, le_bytes_i64 by done.
  rewrite <- !app_assoc. done.
Qed.

(** * Properties *)

(** C32: a message within the limits is read back exactly, whatever bytes follow
    it in the buffer, and the returned length is the length of its encoding. *)
Theorem unpack_pack_roundtrip m rest :
  wf_msg m → Unpack (Pack m ++ rest) = Val (m, len (Pack m)).
Proof. intros. by apply Unpack_Pack. Qed.

Definition sample_msg : SmemMessage :=
  mkMsg CAS 7 ["key"%string] [[Byte.x01]; []; [Byte.xff; Byte.x00]].
Lemma sample_wf : wf_msg sample_msg.
Proof.
  unfold wf_msg, MAX_KEY_COUNT, MAX_KEY_SIZE, MAX_VALUE_COUNT, MAX_VALUE_SIZE.
  unfold sample_msg, slen, len; cbn -[Z.pow]. split_and!; [lia..| |lia|]; repeat constructor; cbn; lia.
Qed.
Lemma unpack_pack_roundtrip_witness :
  Unpack (Pack sample_msg ++ [Byte.x2a]) = Val (sample_msg, len (Pack sample_msg)).
Proof. apply unpack_pack_roundtrip. exact sample_wf. Defined.

(** The encoding is canonical: whenever Unpack accepts a buffer, the message
    is within the limits, the consumed prefix is exactly what Pack writes for it
    and lies inside the buffer. *)
Theorem unpack_accepts_only_packed buf m n :
  len buf < 2 ^ 63 → Unpack buf = Val (m, n) →
  wf_msg m ∧ n = len (Pack m) ∧ n ≤ len buf ∧ take (Z.to_nat n) buf = Pack m.
Proof. apply Unpack_inv. Qed.

Lemma unpack_accepts_only_packed_witness :
  take (Z.to_nat (len (Pack sample_msg))) (Pack sample_msg ++ [Byte.x2a]) = Pack sample_msg.
Proof.
  refine (proj2 (proj2 (proj2 (unpack_accepts_only_packed (Pack sample_msg ++ [Byte.x2a])
    sample_msg (len (Pack sample_msg)) _ _)))).
  - vm_compute. reflexivity.
  - vm_compute. reflexivity.
Defined.

(** On a stream that starts with a packed message, Full answers true exactly
    when the whole message has arrived, and never reads past what has arrived. *)
Theorem full_iff_arrived m rest k :
  wf_msg m → (k ≤ List.length (Pack m ++ rest))%nat →
  Full (take k (Pack m ++ rest)) = Val (len (Pack m) <=? Z.of_nat k).
Proof.
  intros Hwf Hk. pose proof (packed_size_eq m Hwf) as [Hsize Hbnd].
  unfold Full. assert (len (take k (Pack m ++ rest)) = Z.of_nat k) as Hl.
  { unfold len. rewrite length_take_le; lia. }
  rewrite Hl. destruct (Z.of_nat k <? baseSize) eqn:E.
  - f_equal. symmetry. apply Z.leb_gt. lia.
  - assert (take k (Pack m ++ rest) =
      [] ++ le_bytes 8 (packed_size m) ++ drop 8 (take k (Pack m ++ rest))) as Hs.
    { rewrite Pack_eq. unfold header. rewrite <- !app_assoc. cbn [app].
      set (tail := le_bytes 8 (userDef m) ++ _).
      rewrite take_app_ge by (rewrite length_le_bytes; unfold baseSize in E; lia).
      rewrite (drop_app_length' _ _ 8) by (by rewrite length_le_bytes). done. }
    rewrite (read_at_pos _ _ _ _ _ 0 Hs eq_refl). cbn [p_bind].
    rewrite Z.mod_small by (change (256 ^ Z.of_nat 8) with (2 ^ 64); unfold baseSize in *; lia).
    by rewrite Hsize.
Qed.

Lemma full_iff_arrived_witness : Full (take 40 (Pack sample_msg ++ [])) = Val false.
Proof.
  refine (full_iff_arrived sample_msg [] 40 sample_wf _). apply Nat.leb_le. vm_compute. reflexivity.
Defined.

(** The sizes and the value count are read without a check against the
    buffer: a 34-byte buffer that is Full and announces one empty key makes
    Unpack read the value count past the end of the buffer. *)
Theorem unpack_reads_out_of_bounds :
  ∃ buf, len buf = 34 ∧ Full buf = Val true ∧ Unpack buf = Oob.
Proof.
  exists (le_bytes 8 34 ++ le_bytes 8 0 ++ le_bytes 2 0 ++ le_bytes 8 1 ++ le_bytes 8 0).
  vm_compute. auto.
Qed.
