(* ===== verification/StoreBackend.v ===== *)
(** * The configuration store's backend (src/src/smem/csrc/config_store/backend)

    [ConfigStoreBackend] is the interface the store server keeps its data behind;
    an out parameter of the source is an argument (its value before) and a
    result (its value after).  [BackendLaws] states the documented contract over
    the map a backend stands for; the local memory backend implements it.  The
    lock guard is modelled over the same interface. *)
From Stdlib Require Import Strings.Byte Strings.String.
From stdpp Require Import base numbers list gmap strings.
From S2P Require Import Prelude.
Local Open Scope Z_scope.

(** ** config_store_errno.h, smem_types.h *)
Definition SUCCESS : Z := 0.
Definition ERROR : Z := -1.
Definition INVALID_MESSAGE : Z := -400.
Definition INVALID_KEY : Z := -401.
Definition NOT_EXIST : Z := -404.
Definition RESTORE : Z := -405.
Definition TIMEOUT : Z := -601.
Definition IO_ERROR : Z := -602.

Definition SM_OK : Z := 0.
Definition SM_ERROR : Z := -1.
Definition SM_INVALID_PARAM : Z := -2000.
Definition SM_MALLOC_FAILED : Z := -2001.
Definition SM_NEW_OBJECT_FAILED : Z := -2002.
Definition SM_NOT_STARTED : Z := -2003.
Definition SM_TIMEOUT : Z := -2004.
Definition SM_REPEAT_CALL : Z := -2005.
Definition SM_DUPLICATED_OBJECT : Z := -2006.
Definition SM_OBJECT_NOT_EXISTS : Z := -2007.
Definition SM_NOT_INITIALIZED : Z := -2008.
Definition SM_RESOURCE_IN_USE : Z := -2009.
Definition SM_RECONNECT : Z := -2010.
Definition SM_GET_OBJIECT : Z := -2011.

(** ** The interface *)
Class ConfigStoreBackend (B : Type) := {
  bk_Get : B → string → bytes → Z * bytes;
  bk_Put : B → string → bytes → Z → B * Z;
  bk_Delete : B → string → B * Z;
  bk_Exist : B → string → Z;
  bk_Clear : B → B;
  bk_Acquire : B → string → B * Z;
  bk_Release : B → string → B * Z;
  bk_TryAcquire : B → string → Z → B * Z;
}.

(** The documented contract: Get, Exist and Delete answer SUCCESS exactly for
    the stored keys, NOT_EXIST otherwise, and a Put that does not answer SUCCESS
    has stored nothing. *)
Class BackendLaws (B : Type) `{ConfigStoreBackend B} := {
  view : B → gmap string bytes;
  get_law : ∀ b k out, bk_Get b k out =
    match view b !! k with Some v => (SUCCESS, v) | None => (NOT_EXIST, out) end;
  exist_law : ∀ b k, bk_Exist b k =
    match view b !! k with Some _ => SUCCESS | None => NOT_EXIST end;
  put_law : ∀ b k v ttl b' rc, bk_Put b k v ttl = (b', rc) →
    (rc = SUCCESS ∧ view b' = <[k := v]> (view b)) ∨ (rc = ERROR ∧ view b' = view b);
  delete_law : ∀ b k b' rc, bk_Delete b k = (b', rc) →
    view b' = delete k (view b) ∧
    rc = match view b !! k with Some _ => SUCCESS | None => NOT_EXIST end;
  clear_law : ∀ b, view (bk_Clear b) = ∅;
}.

(** ** smem_local_memory_backend *)
Abbreviation LocalMemory := (gmap string bytes).

Definition local_Get (kv : LocalMemory) (key : string) (outValue : bytes) : Z * bytes :=
  match kv !! key with
  | None => (NOT_EXIST, outValue)
  | Some v => (SUCCESS, v)
  end.
Definition local_Put (kv : LocalMemory) (key : string) (value : bytes) (ttlSeconds : Z)
    : LocalMemory * Z := (<[key := value]> kv, SUCCESS).
Definition local_Delete (kv : LocalMemory) (key : string) : LocalMemory * Z :=
  (delete key kv, if bool_decide (is_Some (kv !! key)) then SUCCESS else NOT_EXIST).
Definition local_Exist (kv : LocalMemory) (key : string) : Z :=
  if bool_decide (is_Some (kv !! key)) then SUCCESS else NOT_EXIST.
Definition local_Clear (kv : LocalMemory) : LocalMemory := ∅.
(** The lock operations are not implemented. *)
Definition local_Lock (kv : LocalMemory) (name : string) : LocalMemory * Z := (kv, ERROR).
Definition local_TryLock (kv : LocalMemory) (name : string) (timeoutMs : Z) : LocalMemory * Z :=
  (kv, ERROR).

#[global] Instance local_backend : ConfigStoreBackend LocalMemory := {
  bk_Get := local_Get;
  bk_Put := local_Put;
  bk_Delete := local_Delete;
  bk_Exist := local_Exist;
  bk_Clear := local_Clear;
  bk_Acquire := local_Lock;
  bk_Release := local_Lock;
  bk_TryAcquire := local_TryLock;
}.

#[global] Program Instance local_backend_laws : BackendLaws LocalMemory := {
  view := λ kv, kv;
}.
Next Obligation. intros kv k out. cbn. unfold local_Get. destruct (kv !! k); reflexivity. Qed.
Next Obligation. intros kv k. cbn. unfold local_Exist. destruct (kv !! k); reflexivity. Qed.
Next Obligation. intros kv k v ttl b' rc. cbn. intros [= <- <-]. by left. Qed.
Next Obligation. intros kv k b' rc. cbn. intros [= <- <-]. split; [done|]. destruct (kv !! k); reflexivity. Qed.
Next Obligation. done. Qed.

(** ** DistributedLockGuard *)
Record LockGuard := mkGuard { g_backend : bool; g_name : string; g_isLocked : bool }.

Section Guard.
Context {B : Type} `{ConfigStoreBackend B}.

(** [has] is whether the backend pointer is set. *)
Definition guard_acquire (b : B) (has : bool) (name : string) : B * LockGuard :=
  if negb has then (b, mkGuard has name false) else
  let '(b', result) := bk_Acquire b name in
  if result =? SUCCESS then (b', mkGuard has name true) else (b', mkGuard has name false).
Definition guard_try (b : B) (has : bool) (name : string) (timeout : Z) : B * LockGuard * Z :=
  if negb has then (b, mkGuard has name false, ERROR) else
  let '(b', result) := bk_TryAcquire b name timeout in
  (b', mkGuard has name (result =? SUCCESS), result).
Definition guard_destroy (b : B) (g : LockGuard) : B :=
  if g_isLocked g && g_backend g then (bk_Release b (g_name g)).1 else b.
(** Move construction: the new guard and what is left in the old one. *)
Definition guard_move (other : LockGuard) : LockGuard * LockGuard :=
  (mkGuard (g_backend other) (g_name other) (g_isLocked other),
   mkGuard false EmptyString false).
Definition guard_move_assign (b : B) (self other : LockGuard) : B * LockGuard * LockGuard :=
  let b' := if g_isLocked self && g_backend self then (bk_Release b (g_name self)).1 else b in
  (b', mkGuard (g_backend other) (g_name other) (g_isLocked other),
   mkGuard false EmptyString false).
Definition guard_Unlock (b : B) (g : LockGuard) : B * LockGuard :=
  if g_isLocked g && g_backend g
  then ((bk_Release b (g_name g)).1, mkGuard (g_backend g) (g_name g) false) else (b, g).
End Guard.

(** A backend that counts, per name, the acquisitions not yet released. *)
Record Counting := mkCounting { c_held : gmap string Z }.
Definition c_count (b : Counting) (n : string) : Z := default 0 (c_held b !! n).
Definition c_add (b : Counting) (n : string) (d : Z) : Counting :=
  mkCounting (<[n := c_count b n + d]> (c_held b)).
#[global] Instance counting_backend : ConfigStoreBackend Counting := {
  bk_Get := λ b k out, (NOT_EXIST, out);
  bk_Put := λ b k v t, (b, ERROR);
  bk_Delete := λ b k, (b, NOT_EXIST);
  bk_Exist := λ b k, NOT_EXIST;
  bk_Clear := id;
  bk_Acquire := λ b n, (c_add b n 1, SUCCESS);
  bk_Release := λ b n, (c_add b n (-1), SUCCESS);
  bk_TryAcquire := λ b n t, if t =? 0 then (b, TIMEOUT) else (c_add b n 1, SUCCESS);
}.

(** The life of guards: creation, moves, unlocking and destruction. *)
Inductive guard_step : Counting * list LockGuard → Counting * list LockGuard → Prop :=
| gs_acquire b gs has n b' g :
    guard_acquire b has n = (b', g) → guard_step (b, gs) (b', g :: gs)
| gs_try b gs has n t b' g rc :
    guard_try b has n t = (b', g, rc) → guard_step (b, gs) (b', g :: gs)
| gs_move b gs1 gs2 g g' old :
    guard_move g = (g', old) → guard_step (b, gs1 ++ g :: gs2) (b, gs1 ++ g' :: old :: gs2)
| gs_assign b gs1 gs2 gs3 s o b' s' o' :
    guard_move_assign b s o = (b', s', o') →
    guard_step (b, gs1 ++ s :: gs2 ++ o :: gs3) (b', gs1 ++ s' :: gs2 ++ o' :: gs3)
| gs_unlock b gs1 gs2 g b' g' :
    guard_Unlock b g = (b', g') → guard_step (b, gs1 ++ g :: gs2) (b', gs1 ++ g' :: gs2)
| gs_destroy b gs1 gs2 g :
    guard_step (b, gs1 ++ g :: gs2) (guard_destroy b g, gs1 ++ gs2).

Definition holds (n : string) (g : LockGuard) : bool :=
  g_isLocked g && g_backend g && bool_decide (g_name g = n).
Fixpoint holders (n : string) (gs : list LockGuard) : Z :=
  match gs with
  | [] => 0
  | g :: gs' => (if holds n g then 1 else 0) + holders n gs'
  end.

Lemma holders_app n gs gs' : holders n (gs ++ gs') = holders n gs + holders n gs'.
Proof. induction gs as [|g gs IH]; cbn; lia. Qed.

Lemma c_count_add b m d n : c_count (c_add b m d) n = c_count b n + (if bool_decide (m = n) then d else 0).
Proof.
  unfold c_count, c_add. cbn. rewrite lookup_insert. destruct (decide (m = n)) as [->|].
  - by rewrite bool_decide_true.
  - rewrite bool_decide_false by done. lia.
Qed.

Lemma guard_step_balance s s' n :
  guard_step s s' → c_count s.1 n = holders n s.2 → c_count s'.1 n = holders n s'.2.
Proof.
  destruct 1 as [b gs has m b' g E|b gs has m t b' g rc E|b gs1 gs2 g g' old E
    |b gs1 gs2 gs3 s o b' s' o' E|b gs1 gs2 g b' g' E|b gs1 gs2 g]; cbn [fst snd]; intros Hb.
  - unfold guard_acquire in E. destruct has; cbn in E; simplify_eq; cbn;
      unfold holds; cbn; rewrite ?c_count_add, Hb; [case_bool_decide|]; lia.
  - unfold guard_try in E. destruct has; cbn in E; [|simplify_eq; cbn; lia].
    destruct (t =? 0); cbn in E; simplify_eq; cbn; unfold holds; cbn; rewrite ?c_count_add, Hb;
      [|case_bool_decide]; lia.
  - unfold guard_move in E. simplify_eq. rewrite holders_app in *. cbn in *. unfold holds in *. cbn in *. lia.
  - unfold guard_move_assign in E. rewrite holders_app in *. cbn [holders] in *.
    rewrite holders_app in *. cbn [holders] in *. simplify_eq. unfold holds in *. cbn in *.
    destruct (g_isLocked s && g_backend s); cbn in *; rewrite ?c_count_add, Hb;
      repeat case_bool_decide; cbn; lia.
  - unfold guard_Unlock in E. rewrite holders_app in *. cbn [holders] in *. unfold holds in *.
    destruct (g_isLocked g && g_backend g) eqn:El; simplify_eq; cbn in *;
      rewrite ?El, ?c_count_add, Hb; repeat case_bool_decide; cbn; lia.
  - unfold guard_destroy. rewrite holders_app in *. cbn [holders] in *. unfold holds in *.
    destruct (g_isLocked g && g_backend g) eqn:El; cbn in *; rewrite ?c_count_add, Hb;
      repeat case_bool_decide; cbn; lia.
Qed.

(** * Properties *)

(** Whatever guards are created, moved, assigned, unlocked and destroyed,
    the number of unreleased acquisitions of a name is the number of guards that
    hold it: every lock is released exactly once, and none after the last guard
    is gone. *)
Theorem lock_guard_balanced gs b n :
  rtc guard_step (mkCounting ∅, []) (b, gs) →
  c_count b n = holders n gs ∧ (gs = [] → c_count b n = 0).
Proof.
  intros Hr. assert (c_count b n = holders n gs) as E.
  { assert (∀ s s', rtc guard_step s s' → c_count s.1 n = holders n s.2 →
      c_count s'.1 n = holders n s'.2) as Hgen.
    { induction 1; eauto using guard_step_balance. }
    apply (Hgen _ _ Hr). reflexivity. }
  split; [done|]. intros ->. done.
Qed.

Lemma lock_guard_balanced_witness : c_count (c_add (c_add (mkCounting ∅) "l" 1) "l" (-1)) "l" = 0.
Proof.
  refine (proj2 (lock_guard_balanced [] _ "l" _) eq_refl).
  eapply rtc_l; [apply (gs_acquire _ _ true "l"); reflexivity|].
  eapply rtc_l; [apply (gs_destroy _ [] [])|]. apply rtc_refl.
Defined.
