(* ===== verification/StoreServer.v ===== *)
(** * The store server (src/src/smem/csrc/config_store/tcp_store/smem_tcp_config_store_server)

    The server's state, its request handlers, its link handlers and one pass of
    each of its three threads, as functions of the state.  The mutex makes each
    critical section atomic; what a handler sends after releasing it is returned
    as the list of replies, in order.  A handler answers the new state, the
    replies and the source's return value; [None] is a memory error.

    Not from the source: the clock and the transport (whether a link is
    established) are arguments, the external operation and link handlers are
    functions kept in the state, and the iteration order of an unordered
    container is the order of [elements] or an argument. *)
From Stdlib Require Import Strings.Byte Strings.String.
From stdpp Require Import base numbers list gmap strings.
From S2P Require Import Prelude StrUtil MessagePacker StoreBackend.
Local Open Scope Z_scope.
Local Open Scope mf_scope.

Definition AutoRankingStr : string := "AutoRanking#".
Definition WATCH_RANK_DOWN_KEY : string := "WATCH_RANK_DOWN_KEY".
Definition HEARTBEAT_INTERVAL : Z := 2000.
Definition HEARTBEAT_TIMEOUT : Z := 3.
Definition MAX_U16_INDEX : Z := 65535.
Definition MAX_KEY_LEN_SERVER : Z := 2048.

(** A request's link and sequence number. *)
Record ReqCtx := mkCtx { rq_link : Z; rq_seq : Z }.
Record Reply := mkReply { rp_ctx : ReqCtx; rp_code : Z; rp_body : bytes }.
Record StoreWaitContext := mkWait {
  w_id : Z; w_timeoutMs : Z; w_key : string; w_ctx : ReqCtx }.

Definition text (s : string) : bytes := bytes_of_str s.
Definition rank_bytes (r : Z) : bytes := le_bytes 4 r.

Section Server.
Context {B : Type} `{ConfigStoreBackend B}.

(** linkId, key, value and backend to result, value and backend. *)
Definition OpHandler : Type := Z → string → bytes → B → Z * bytes * B.
Definition BrokenHandler : Type := Z → B → B.

Record AccStoreServer := mkServer {
  backend : B;
  waitCtx : gmap Z StoreWaitContext;
  keyWaiters : gmap string (gset Z);
  timedWaiters : gmap Z (gset Z);
  rankStateWaiters : gmap Z StoreWaitContext;
  rankStateTaskQueue : list Z;
  worldSize : Z;
  rankIndex : Z;
  aliveRankSet : gset Z;
  externalOpHandlerMap : gmap Z OpHandler;
  externalBrokenHandler : option BrokenHandler;
  heartBeatMap : gmap Z Z;
  idGen : Z;
}.

Definition server_new (world : Z) (b : B) : AccStoreServer :=
  mkServer b ∅ ∅ ∅ ∅ [] world 0 ∅ ∅ None ∅ 1.

(** *** Field updates *)
Definition set_backend (s : AccStoreServer) b : AccStoreServer :=
  mkServer b (waitCtx s) (keyWaiters s) (timedWaiters s) (rankStateWaiters s)
    (rankStateTaskQueue s) (worldSize s) (rankIndex s) (aliveRankSet s)
    (externalOpHandlerMap s) (externalBrokenHandler s) (heartBeatMap s) (idGen s).
Definition set_waiters (s : AccStoreServer) w k t i : AccStoreServer :=
  mkServer (backend s) w k t (rankStateWaiters s)
    (rankStateTaskQueue s) (worldSize s) (rankIndex s) (aliveRankSet s)
    (externalOpHandlerMap s) (externalBrokenHandler s) (heartBeatMap s) i.
Definition set_ranks (s : AccStoreServer) world idx alive : AccStoreServer :=
  mkServer (backend s) (waitCtx s) (keyWaiters s) (timedWaiters s) (rankStateWaiters s)
    (rankStateTaskQueue s) world idx alive
    (externalOpHandlerMap s) (externalBrokenHandler s) (heartBeatMap s) (idGen s).
Definition set_watch (s : AccStoreServer) rw q i : AccStoreServer :=
  mkServer (backend s) (waitCtx s) (keyWaiters s) (timedWaiters s) rw q
    (worldSize s) (rankIndex s) (aliveRankSet s)
    (externalOpHandlerMap s) (externalBrokenHandler s) (heartBeatMap s) i.
Definition set_handlers (s : AccStoreServer) ops br : AccStoreServer :=
  mkServer (backend s) (waitCtx s) (keyWaiters s) (timedWaiters s) (rankStateWaiters s)
    (rankStateTaskQueue s) (worldSize s) (rankIndex s) (aliveRankSet s)
    ops br (heartBeatMap s) (idGen s).
Definition set_heartbeat (s : AccStoreServer) hb : AccStoreServer :=
  mkServer (backend s) (waitCtx s) (keyWaiters s) (timedWaiters s) (rankStateWaiters s)
    (rankStateTaskQueue s) (worldSize s) (rankIndex s) (aliveRankSet s)
    (externalOpHandlerMap s) (externalBrokenHandler s) hb (idGen s).

(** *** Registration *)
Definition RegisterOpHandler (s : AccStoreServer) (opcode : Z) (h : OpHandler) : AccStoreServer :=
  set_handlers s (<[opcode := h]> (externalOpHandlerMap s)) (externalBrokenHandler s).
Definition RegisterBrokenLinkCHandler (s : AccStoreServer) (h : option BrokenHandler)
    : AccStoreServer := set_handlers s (externalOpHandlerMap s) h.

(** *** Waiters *)

(** The waiter leaves its timer bucket, which is erased when it was the last. *)
Definition drop_timed (tw : gmap Z (gset Z)) (c : StoreWaitContext) : gmap Z (gset Z) :=
  match tw !! w_timeoutMs c with
  | None => tw
  | Some ids =>
      let ids' := ids ∖ {[ w_id c ]} in
      if decide (ids' = ∅) then delete (w_timeoutMs c) tw else <[w_timeoutMs c := ids']> tw
  end.
Definition take_out (st : gmap Z StoreWaitContext * gmap Z (gset Z) * list ReqCtx) (id : Z)
    : gmap Z StoreWaitContext * gmap Z (gset Z) * list ReqCtx :=
  let '(wc, tw, out) := st in
  match wc !! id with
  | None => st
  | Some c => (delete id wc, drop_timed tw c, out ++ [w_ctx c])
  end.
Definition GetOutWaitersInLock (s : AccStoreServer) (ids : gset Z) : AccStoreServer * list ReqCtx :=
  let '(wc, tw, out) := foldl take_out (waitCtx s, timedWaiters s, []) (elements ids) in
  (set_waiters s wc (keyWaiters s) tw (idGen s), out).

(** Look the key up in [keyWaiters], take its waiters out and erase the entry. *)
Definition take_key_waiters (s : AccStoreServer) (key : string) : AccStoreServer * list ReqCtx :=
  match keyWaiters s !! key with
  | None => (s, [])
  | Some ids =>
      let '(s1, out) := GetOutWaitersInLock s ids in
      (set_waiters s1 (waitCtx s1) (delete key (keyWaiters s1)) (timedWaiters s1) (idGen s1), out)
  end.

Definition WakeupWaiters (established : Z → bool) (waiters : list ReqCtx) (value : bytes)
    : list Reply :=
  let response := Pack (msg GET [] [value]) in
  (λ c, mkReply c SUCCESS response) <$> List.filter (λ c, established (rq_link c)) waiters.

Definition ExecuteHandle (s : AccStoreServer) (opCode : MessageType) (linkId : Z) (key : string)
    (value : bytes) : Z * bytes * B :=
  match externalOpHandlerMap s !! mt_code opCode with
  | None => (SM_OK, value, backend s)
  | Some h => h linkId key value (backend s)
  end.

(** *** SET *)
Definition SetHandler (established : Z → bool) (s : AccStoreServer) (ctx : ReqCtx)
    (request : SmemMessage) : AccStoreServer * list Reply * Z :=
  match keys request, values request with
  | [key], [value] =>
      if MAX_KEY_LEN_SERVER <? slen key then (s, [], INVALID_KEY) else
      let '(er, value, b) := ExecuteHandle s SET (rq_link ctx) key value in
      let s := set_backend s b in
      if negb (er =? SM_OK) then (s, [mkReply ctx ERROR (text "failed")], ERROR) else
      let '(s, woken) :=
        if negb (bk_Exist (backend s) key =? SUCCESS) then take_key_waiters s key else (s, []) in
      let '(b, ret) := bk_Put (backend s) key value 0 in
      let s := set_backend s b in
      (s, mkReply ctx ret (text (if ret =? SUCCESS then "success" else "error"))
            :: WakeupWaiters established woken value, SM_OK)
  | _, _ =>
      (s, [mkReply ctx INVALID_MESSAGE (text "invalid request: key value should be one")],
       SM_INVALID_PARAM)
  end.

(** *** The automatic rank *)

(** The loop that looks for a free rank: [None] when the fuel runs out. *)
Fixpoint find_rank (fuel : nat) (alive : gset Z) (world idx : Z) : option Z :=
  match fuel with
  | O => None
  | S fuel' =>
      let idx := idx mod world in
      if decide (idx ∈ alive) then find_rank fuel' alive world (idx +32 1) else Some idx
  end.

Definition FindOrInsertRank (s : AccStoreServer) (ctx : ReqCtx) (key : string)
    : option (AccStoreServer * list Reply * Z) :=
  let rankingKey := (key ++ str_of_bytes (to_string (rq_link ctx)))%string in
  let '(ret, oldValue) := bk_Get (backend s) rankingKey [] in
  if ret =? SUCCESS then
    Some (s, [mkReply ctx SUCCESS (Pack (msg GET [] [oldValue]))], SM_OK) else
  if worldSize s <=? Z.of_nat (size (aliveRankSet s)) then
    Some (s, [mkReply ctx ERROR (text "error: worldSize rankSize bigger than worldSize.")], SM_ERROR)
  else
    r ← find_rank (Z.to_nat (2 * worldSize s)) (aliveRankSet s) (worldSize s) (rankIndex s);
    let s := set_ranks s (worldSize s) r (aliveRankSet s ∪ {[ r ]}) in
    let '(b, ret) := bk_Put (backend s) rankingKey (rank_bytes r) 0 in
    Some (set_backend s b, [mkReply ctx ret (Pack (msg GET [] [rank_bytes r]))], 0).

(** *** GET *)
Definition enqueue_waiter (s : AccStoreServer) (ctx : ReqCtx) (key : string) (timeoutMs : Z)
    (timed : bool) : AccStoreServer :=
  let id := idGen s in
  let wc := <[id := mkWait id timeoutMs key ctx]> (waitCtx s) in
  let kw := <[key := default ∅ (keyWaiters s !! key) ∪ {[ id ]}]> (keyWaiters s) in
  let tw := if timed
            then <[timeoutMs := default ∅ (timedWaiters s !! timeoutMs) ∪ {[ id ]}]> (timedWaiters s)
            else timedWaiters s in
  set_waiters s wc kw tw (idGen s +64 1).

Definition GetHandler (now : Z) (s : AccStoreServer) (ctx : ReqCtx) (request : SmemMessage)
    : option (AccStoreServer * list Reply * Z) :=
  match keys request, values request with
  | [key], [] =>
      if MAX_KEY_LEN_SERVER <? slen key then Some (s, [], INVALID_KEY) else
      if String.prefix AutoRankingStr key then FindOrInsertRank s ctx key else
      let '(ret, oldValue) := bk_Get (backend s) key [] in
      if ret =? SUCCESS then
        Some (s, [mkReply ctx SUCCESS (Pack (msg GET [] [oldValue]))], SM_OK) else
      let '(er, outValue, b) := ExecuteHandle s GET (rq_link ctx) key [] in
      let s := set_backend s b in
      if er =? SM_GET_OBJIECT then
        Some (s, [mkReply ctx RESTORE (Pack (msg GET [] [outValue]))], SM_OK) else
      if userDef request =? 0 then
        Some (s, [mkReply ctx NOT_EXIST (text "<not exist>")], SM_ERROR) else
      Some (enqueue_waiter s ctx key (now + userDef request) (0 <? userDef request), [], SM_OK)
  | _, _ =>
      Some (s, [mkReply ctx INVALID_MESSAGE
                  (text "invalid request: key should be one and no values.")], SM_INVALID_PARAM)
  end.

(** *** ADD *)

(** The number a stored value stands for; [None] when it is not a number. *)
Definition stored_number (v : bytes) : option Z :=
  match String2Long v with
  | None => None
  | Some n => if (n =? 0) && negb (bool_decide (v = text "0")) then None else Some n
  end.

Definition AddHandler (established : Z → bool) (s : AccStoreServer) (ctx : ReqCtx)
    (request : SmemMessage) : AccStoreServer * list Reply * Z :=
  match keys request, values request with
  | [key], [value] =>
      if MAX_KEY_LEN_SERVER <? slen key then (s, [], INVALID_KEY) else
      match String2Long value with
      | None => (s, [], SM_ERROR)
      | Some valueNum =>
          if negb (bool_decide (value = to_string valueNum)) then
            (s, [mkReply ctx INVALID_MESSAGE (text "invalid request: value should be a number.")],
             SM_ERROR) else
          let '(er, value, b) :=
            if 0 <? valueNum then ExecuteHandle s ADD (rq_link ctx) key value
            else (SM_OK, value, backend s) in
          let s := set_backend s b in
          if negb (er =? SM_OK) then (s, [mkReply ctx ERROR (text "failed")], ERROR) else
          let '(ret, oldValue) := bk_Get (backend s) key [] in
          if negb (ret =? SUCCESS) then
            let '(s, woken) := take_key_waiters s key in
            let '(b, ret) := bk_Put (backend s) key value 0 in
            (set_backend s b,
             mkReply ctx ret (to_string valueNum) :: WakeupWaiters established woken value, SM_OK)
          else
            match stored_number oldValue with
            | None =>
                (s, [mkReply ctx INVALID_MESSAGE (text "oldValueStr should be a number.")], SM_ERROR)
            | Some storedValueNum =>
                let sum := i64 (storedValueNum + valueNum) in
                let '(b, _) := bk_Put (backend s) key (to_string sum) 0 in
                (set_backend s b, [mkReply ctx ret (to_string sum)], SM_OK)
            end
      end
  | _, _ =>
      (s, [mkReply ctx INVALID_MESSAGE (text "invalid request: key value should be one.")],
       SM_INVALID_PARAM)
  end.

(** *** REMOVE *)
Definition RemoveHandler (s : AccStoreServer) (ctx : ReqCtx) (request : SmemMessage)
    : AccStoreServer * list Reply * Z :=
  match keys request, values request with
  | [key], [] =>
      if MAX_KEY_LEN_SERVER <? slen key then (s, [], INVALID_KEY) else
      if bk_Exist (backend s) key =? SUCCESS then
        (set_backend s (bk_Delete (backend s) key).1, [mkReply ctx SUCCESS (text "success")], SM_OK)
      else (s, [mkReply ctx NOT_EXIST (text "not exist")], SM_OK)
  | _, _ =>
      (s, [mkReply ctx INVALID_MESSAGE (text "invalid request: key should be one and no values.")],
       SM_INVALID_PARAM)
  end.

(** *** APPEND *)
Definition AppendHandler (established : Z → bool) (s : AccStoreServer) (ctx : ReqCtx)
    (request : SmemMessage) : AccStoreServer * list Reply * Z :=
  match keys request, values request with
  | [key], [value] =>
      if MAX_KEY_LEN_SERVER <? slen key then (s, [], INVALID_KEY) else
      let '(ret, oldValue) := bk_Get (backend s) key [] in
      let '(s, woken, newSize, ret) :=
        if ret =? SUCCESS then
          let newValue := oldValue ++ value in
          let '(b, ret) := bk_Put (backend s) key newValue 0 in
          (set_backend s b, [], len newValue, ret)
        else
          let '(s, woken) := take_key_waiters s key in
          let '(b, ret) := bk_Put (backend s) key value 0 in
          (set_backend s b, woken, len value, ret) in
      let '(er, _, b) := ExecuteHandle s APPEND (rq_link ctx) key value in
      let s := set_backend s b in
      if negb (er =? SM_OK) then (s, [mkReply ctx ERROR (text "failed")], ERROR) else
      (s, mkReply ctx ret (to_string newSize) :: WakeupWaiters established woken value, SM_OK)
  | _, _ =>
      (s, [mkReply ctx INVALID_MESSAGE (text "invalid request: key & value should be one.")],
       SM_INVALID_PARAM)
  end.

(** *** WRITE *)

(** [std::copy_n] of [data] over [cur] from [off] on, which must hold it. *)
Definition splice (cur : bytes) (off : nat) (data : bytes) : bytes :=
  take off cur ++ data ++ drop (off + List.length data) cur.
Definition resize (v : bytes) (n : nat) : bytes :=
  take n v ++ replicate (n - List.length v) Byte.x00.

Definition WriteHandler (s : AccStoreServer) (ctx : ReqCtx) (request : SmemMessage)
    : option (AccStoreServer * list Reply * Z) :=
  match keys request, values request with
  | [key], [value] =>
      if MAX_KEY_LEN_SERVER <? slen key then Some (s, [], INVALID_KEY) else
      offset ← UnpackPod 4 value;
      let realVal := drop 4 value in
      if MAX_U16_INDEX * len realVal <? offset then Some (s, [], INVALID_KEY) else
      let total := (Z.to_nat offset + List.length realVal)%nat in
      let '(ret, oldValue) := bk_Get (backend s) key [] in
      let '(s, ret) :=
        if negb (ret =? SUCCESS) then
          let '(b, ret) := bk_Put (backend s) key (replicate total Byte.x00) 0 in (set_backend s b, ret)
        else (s, ret) in
      if negb (ret =? SUCCESS) then Some (s, [mkReply ctx ERROR (text "failed")], ERROR) else
      let '(_, curValue) := bk_Get (backend s) key oldValue in
      let curValue := if (List.length curValue <? total)%nat then resize curValue total else curValue in
      let curValue := splice curValue (Z.to_nat offset) realVal in
      let '(er, _, b) := ExecuteHandle s WRITE (rq_link ctx) key value in
      let s := set_backend s b in
      if negb (er =? SM_OK) then Some (s, [mkReply ctx ERROR (text "failed")], ERROR) else
      let '(b, ret) := bk_Put (backend s) key curValue 0 in
      let s := set_backend s b in
      if negb (ret =? SUCCESS) then Some (s, [mkReply ctx ERROR (text "failed")], ERROR) else
      Some (s, [mkReply ctx SUCCESS (text "success")], SM_OK)
  | _, _ =>
      Some (s, [mkReply ctx INVALID_MESSAGE (text "invalid request: key & value should be one.")],
            SM_INVALID_PARAM)
  end.

(** *** CAS *)
Definition CasHandler (established : Z → bool) (s : AccStoreServer) (ctx : ReqCtx)
    (request : SmemMessage) : AccStoreServer * list Reply * Z :=
  match keys request, values request with
  | [key], [expected; exchange] =>
      if MAX_KEY_LEN_SERVER <? slen key then (s, [], INVALID_KEY) else
      let '(ret, oldValue) := bk_Get (backend s) key [] in
      let '(s, woken, exists_, ret) :=
        if ret =? SUCCESS then
          if decide (expected = oldValue) then
            let '(b, ret) := bk_Put (backend s) key exchange 0 in (set_backend s b, [], oldValue, ret)
          else (s, [], oldValue, ret)
        else
          if decide (expected = []) then
            let '(b, ret) := bk_Put (backend s) key exchange 0 in
            let '(s, woken) := take_key_waiters (set_backend s b) key in (s, woken, [], ret)
          else (s, [], [], SUCCESS) in
      (s, mkReply ctx ret (Pack (msg CAS [] [exists_])) :: WakeupWaiters established woken exchange,
       SM_OK)
  | _, _ =>
      (s, [mkReply ctx INVALID_MESSAGE (text "invalid request: count(key)=1 & count(value)=2")],
       SM_INVALID_PARAM)
  end.

(** *** WATCH_RANK_STATE, HEARTBEAT *)
Definition WatchRankStateHandler (s : AccStoreServer) (ctx : ReqCtx) (request : SmemMessage)
    : AccStoreServer * list Reply * Z :=
  match keys request with
  | [key] =>
      if decide (key = WATCH_RANK_DOWN_KEY) then
        let w := mkWait (idGen s) (-1) WATCH_RANK_DOWN_KEY ctx in
        match rankStateWaiters s !! rq_link ctx with
        | Some _ => (set_watch s (rankStateWaiters s) (rankStateTaskQueue s) (idGen s +64 1), [],
                     SM_REPEAT_CALL)
        | None => (set_watch s (<[rq_link ctx := w]> (rankStateWaiters s)) (rankStateTaskQueue s)
                     (idGen s +64 1), [], SM_OK)
        end
      else (s, [mkReply ctx INVALID_MESSAGE (text "invalid request: key should be")], SM_INVALID_PARAM)
  | _ => (s, [mkReply ctx INVALID_MESSAGE (text "invalid request: key should be")], SM_INVALID_PARAM)
  end.

Definition HeartbeatHandler (nowTime : Z) (s : AccStoreServer) (ctx : ReqCtx) (request : SmemMessage)
    : AccStoreServer * list Reply * Z :=
  match keys request, values request with
  | [], [] => (set_heartbeat s (<[rq_link ctx := nowTime]> (heartBeatMap s)), [], SM_OK)
  | _, _ => (s, [], SM_INVALID_PARAM)
  end.

(** *** Dispatch *)
Record Env := mkEnv {
  e_established : Z → bool;  (* the transport's link state *)
  e_now : Z;                 (* steady clock, ms *)
  e_time : Z;                (* system clock, ms *)
}.

Definition handle (e : Env) (s : AccStoreServer) (ctx : ReqCtx) (request : SmemMessage)
    : option (AccStoreServer * list Reply * Z) :=
  match mt request with
  | SET => Some (SetHandler (e_established e) s ctx request)
  | GET => GetHandler (e_now e) s ctx request
  | ADD => Some (AddHandler (e_established e) s ctx request)
  | REMOVE => Some (RemoveHandler s ctx request)
  | APPEND => Some (AppendHandler (e_established e) s ctx request)
  | CAS => Some (CasHandler (e_established e) s ctx request)
  | WRITE => WriteHandler s ctx request
  | WATCH_RANK_STATE => Some (WatchRankStateHandler s ctx request)
  | HEARTBEAT => Some (HeartbeatHandler (e_time e) s ctx request)
  | INVALID_MSG =>
      Some (s, [mkReply ctx INVALID_MESSAGE (text "invalid request message type")], SM_ERROR)
  end.

Definition ReceiveMessageHandler (e : Env) (s : AccStoreServer) (ctx : ReqCtx) (data : option bytes)
    : option (AccStoreServer * list Reply * Z) :=
  match data with
  | None => Some (s, [mkReply ctx INVALID_MESSAGE (text "request no body")], SM_INVALID_PARAM)
  | Some body =>
      match Unpack body with
      | Oob => None
      | Fail => Some (s, [mkReply ctx INVALID_MESSAGE (text "invalid request")], SM_ERROR)
      | Val (m, size) =>
          if size <? 0
          then Some (s, [mkReply ctx INVALID_MESSAGE (text "invalid request")], SM_ERROR)
          else handle e s ctx m
      end
  end.

(** *** Links *)
Definition LinkConnectedHandler (s : AccStoreServer) (linkId reqRankId : Z) : AccStoreServer * Z :=
  let world := u32 (Z.shiftr reqRankId 32) in
  let rankId := u32 (Z.land reqRankId 0xFFFFFFFF) in
  let s := if worldSize s =? U32_MAX then set_ranks s world (rankIndex s) (aliveRankSet s) else s in
  if U32_MAX <=? rankId then (s, SM_OK) else
  let key := (AutoRankingStr ++ str_of_bytes (to_string linkId))%string in
  let '(b, ret) := bk_Put (backend s) key (rank_bytes rankId) 0 in
  let s := set_backend s b in
  if negb (ret =? SUCCESS) then (s, ret) else
  (set_ranks s (worldSize s) (rankIndex s) (aliveRankSet s ∪ {[ rankId ]}), SM_OK).

(** What is cleared when the last ranked link breaks. *)
Definition clear_all (s : AccStoreServer) : AccStoreServer :=
  mkServer (bk_Clear (backend s)) ∅ ∅ ∅ ∅ [] (worldSize s) 0 (aliveRankSet s)
    (externalOpHandlerMap s) (externalBrokenHandler s) (heartBeatMap s) (idGen s).

(** The stored rank is copied over a 4-byte buffer, whatever its size. *)
Definition LinkBrokenHandler (s : AccStoreServer) (linkId : Z) : option (AccStoreServer * Z) :=
  let key := (AutoRankingStr ++ str_of_bytes (to_string linkId))%string in
  let '(ret, outValue) := bk_Get (backend s) key [] in
  if (ret =? SUCCESS) && (4 <? List.length outValue)%nat then None else
  let rankId := if ret =? SUCCESS then le_val outValue else U32_MAX in
  let '(s, ok) :=
    if ret =? SUCCESS then
      let s := set_ranks s (worldSize s) (rankIndex s) (aliveRankSet s ∖ {[ rankId ]}) in
      let '(b, dret) := bk_Delete (backend s) key in (set_backend s b, dret =? SUCCESS)
    else (s, true) in
  if negb ok then Some (s, SM_ERROR) else
  let s := set_heartbeat s (delete linkId (heartBeatMap s)) in
  let s :=
    match externalBrokenHandler s with
    | Some h => set_backend s (h linkId (backend s))
    | None => if decide (aliveRankSet s = ∅) then clear_all s else s
    end in
  let s := set_watch s (delete linkId (rankStateWaiters s)) (rankStateTaskQueue s) (idGen s) in
  if rankId =? U32_MAX then Some (s, SM_OK) else
  Some (set_watch s (rankStateWaiters s) (rankStateTaskQueue s ++ [rankId]) (idGen s), SM_OK).

(** The checker thread's own handler. *)
Definition LinkBrokenHandler_id (s : AccStoreServer) (linkId : Z) : AccStoreServer :=
  let s := match externalBrokenHandler s with
           | Some h => set_backend s (h linkId (backend s))
           | None => s
           end in
  set_heartbeat s (delete linkId (heartBeatMap s)).

(** *** Threads: one pass with the mutex held, then the replies *)

(** [begin] is the first bucket in the iteration order of the unordered map. *)
Fixpoint expired_ids (fuel : nat) (begin : gmap Z (gset Z) → option (Z * gset Z)) (timestamp : Z)
    (tw : gmap Z (gset Z)) (acc : gset Z) : gmap Z (gset Z) * gset Z :=
  match fuel with
  | O => (tw, acc)
  | S fuel' =>
      match begin tw with
      | None => (tw, acc)
      | Some (t, ids) =>
          if timestamp <? t then (tw, acc)
          else expired_ids fuel' begin timestamp (delete t tw) (acc ∪ ids)
      end
  end.

Definition timer_pass (begin : gmap Z (gset Z) → option (Z * gset Z)) (e : Env) (s : AccStoreServer)
    : AccStoreServer * list Reply :=
  let '(tw, ids) := expired_ids (size (timedWaiters s)) begin (e_now e) (timedWaiters s) ∅ in
  let s := set_waiters s (waitCtx s) (keyWaiters s) tw (idGen s) in
  let '(s, ctxs) := GetOutWaitersInLock s ids in
  (s, (λ c, mkReply c TIMEOUT (text "<timeout>")) <$>
        List.filter (λ c, e_established e (rq_link c)) ctxs).

Definition rank_state_pass (e : Env) (s : AccStoreServer) : AccStoreServer * list Reply :=
  match rankStateTaskQueue s with
  | [] => (s, [])
  | rankId :: q =>
      let response := Pack (msg WATCH_RANK_STATE [] [rank_bytes rankId]) in
      (set_watch s (rankStateWaiters s) q (idGen s),
       (λ w, mkReply (w_ctx w) SUCCESS response) <$>
         List.filter (λ w, e_established e (rq_link (w_ctx w))) (map_to_list (rankStateWaiters s)).*2)
  end.

Definition heartbeat_lost (curTime last : Z) : bool :=
  HEARTBEAT_TIMEOUT <? Z.quot (curTime - last) HEARTBEAT_INTERVAL.
Definition checker_pass (e : Env) (s : AccStoreServer) : AccStoreServer :=
  let broken := List.filter (λ h, heartbeat_lost (e_time e) h.2) (map_to_list (heartBeatMap s)) in
  let s := set_heartbeat s (foldl (λ m h, delete h.1 m) (heartBeatMap s) broken) in
  foldl (λ s h, LinkBrokenHandler_id s h.1) s broken.
End Server.
