(* ===== verification/StoreServerSpec.v ===== *)
(** * Correctness of the store server

    Proved against the backend contract [BackendLaws], for a server without
    external handlers (those are code outside the store):
    - the automatic rank: the search ends and yields a free rank;
    - the waiters: every parked GET is found through its key and waits for an
      absent key, in every reachable state; creating the key answers exactly its
      waiters and removes them;
    - the store refines a plain key-value map;
    - the timer. *)
From Stdlib Require Import Strings.Byte Strings.String.
From stdpp Require Import base numbers list gmap strings.
From S2P Require Import Prelude StrUtil MessagePacker StoreBackend StoreServer.
Local Open Scope Z_scope.

(** ** The search for a free rank *)
Lemma find_rank_None fuel alive world idx :
  0 < world < 2 ^ 32 → 0 ≤ idx → find_rank fuel alive world idx = None →
  ∀ i, 0 ≤ i < Z.of_nat fuel → (idx + i) mod world ∈ alive.
Proof.
  intros Hw. revert idx. induction fuel as [|fuel IH]; intros idx Hidx Hn i Hi; [lia|].
  cbn [find_rank] in Hn. destruct (decide _) as [Hin|]; [|done].
  pose proof (Z.mod_pos_bound idx world ltac:(lia)) as Hm.
  destruct (decide (i = 0)) as [->|Hne]; [by rewrite Z.add_0_r|].
  rewrite u32_small in Hn by lia.
  specialize (IH (idx mod world + 1) ltac:(lia) Hn (i - 1) ltac:(lia)).
  replace (idx mod world + 1 + (i - 1)) with (idx mod world + i) in IH by lia.
  by rewrite Zplus_mod_idemp_l in IH.
Qed.

Lemma find_rank_Some fuel alive world idx r :
  0 < world → find_rank fuel alive world idx = Some r → 0 ≤ r < world ∧ r ∉ alive.
Proof.
  intros Hw. revert idx. induction fuel as [|fuel IH]; intros idx; cbn [find_rank]; [done|].
  destruct (decide _); [apply IH|]. intros [= <-]. split; [|done]. apply Z.mod_pos_bound. lia.
Qed.

Lemma find_rank_ends alive world idx :
  0 < world < 2 ^ 32 → 0 ≤ idx → Z.of_nat (size alive) < world →
  ∃ r, find_rank (Z.to_nat (2 * world)) alive world idx = Some r.
Proof.
  intros Hw Hidx Hsz. destruct (find_rank _ alive world idx) as [r|] eqn:E; [eauto|]. exfalso.
  pose proof (find_rank_None _ _ _ _ Hw Hidx E) as Hall.
  assert ((list_to_set (seqZ 0 world) : gset Z) ⊆ alive) as Hsub.
  { intros r. rewrite elem_of_list_to_set, elem_of_seqZ. intros Hr.
    pose proof (Z.mod_pos_bound (r - idx) world ltac:(lia)).
    specialize (Hall ((r - idx) mod world) ltac:(lia)).
    rewrite Zplus_mod_idemp_r in Hall. replace (idx + (r - idx)) with r in Hall by lia.
    by rewrite Z.mod_small in Hall by lia. }
  apply subseteq_size in Hsub. rewrite size_list_to_set in Hsub by apply NoDup_seqZ.
  rewrite length_seqZ in Hsub. lia.
Qed.

(** ** Taking waiters out *)
Section TakeOut.
Implicit Types wc : gmap Z StoreWaitContext.

Definition ids_ok wc : Prop := ∀ i c, wc !! i = Some c → w_id c = i.

Lemma omap_delete_notin id (l : list Z) wc : id ∉ l → omap (delete id wc !!.) l = omap (wc !!.) l.
Proof.
  induction l as [|j l IH]; intros Hni; cbn; [done|]. apply not_elem_of_cons in Hni as [Hne Hni].
  rewrite lookup_delete_ne by congruence. by rewrite IH.
Qed.

Lemma drop_timed_elem tw c t i :
  (∃ ids, drop_timed tw c !! t = Some ids ∧ i ∈ ids) ↔
  (∃ ids, tw !! t = Some ids ∧ i ∈ ids) ∧ ¬ (i = w_id c ∧ w_timeoutMs c = t).
Proof.
  unfold drop_timed. destruct (tw !! w_timeoutMs c) as [ids0|] eqn:Et.
  - destruct (decide _) as [He|He].
    + rewrite lookup_delete. case_decide; [|naive_solver]. subst t. rewrite Et. split; [naive_solver|].
      intros [(ids & [= <-] & Hi) Hn]. assert (i ∈ ids0 ∖ {[w_id c]}) as Hx by set_solver.
      rewrite He in Hx. by apply not_elem_of_empty in Hx.
    + rewrite lookup_insert. case_decide; [|naive_solver]. subst t. rewrite Et. split.
      * intros (ids & [= <-] & [Hi Hn]%elem_of_difference). set_solver.
      * intros [(ids & [= <-] & Hi) Hn]. eexists. split; [done|]. set_solver.
  - split; [|naive_solver]. intros (ids & Hids & Hi). split; [eauto|]. intros [_ <-]. congruence.
Qed.

Lemma take_out_list (l : list Z) wc tw out :
  NoDup l → ids_ok wc →
  let '(wc', tw', out') := foldl take_out (wc, tw, out) l in
  (∀ i, wc' !! i = if decide (i ∈ l) then None else wc !! i) ∧
  out' = out ++ (w_ctx <$> omap (wc !!.) l) ∧
  (∀ t i, (∃ ids, tw' !! t = Some ids ∧ i ∈ ids) ↔
     (∃ ids, tw !! t = Some ids ∧ i ∈ ids) ∧
     ¬ (i ∈ l ∧ ∃ c, wc !! i = Some c ∧ w_timeoutMs c = t)).
Proof.
  intros Hnd. revert wc tw out.
  induction Hnd as [|id l Hni _ IH]; intros wc tw out Hok; cbn [foldl].
  { split_and!; [intros i; by rewrite decide_False by apply not_elem_of_nil|by rewrite app_nil_r|].
    intros t i. split; [|tauto]. intros Hx. split; [done|]. intros [[]%elem_of_nil _]. }
  unfold take_out at 2. destruct (wc !! id) as [c|] eqn:Hc.
  - set (tw1 := drop_timed tw c). pose proof (drop_timed_elem tw c) as Htw1.
    rewrite (Hok _ _ Hc) in Htw1.
    assert (ids_ok (delete id wc)) as Hok'.
    { intros i c' [_ Hi]%lookup_delete_Some. by apply Hok. }
    specialize (IH (delete id wc) tw1 (out ++ [w_ctx c]) Hok').
    destruct (foldl take_out _ l) as [[wc' tw'] out']. destruct IH as (IH1 & IH2 & IH3). split_and!.
    + intros i. rewrite IH1. rewrite lookup_delete. repeat case_decide; set_solver.
    + rewrite IH2. cbn [omap list_omap]. rewrite Hc. cbn [fmap list_fmap]. rewrite <- app_assoc. cbn.
      do 3 f_equal. apply omap_delete_notin. done.
    + intros t i. rewrite IH3. unfold tw1. rewrite Htw1, lookup_delete, elem_of_cons.
      destruct (decide (id = i)) as [->|Hne]; [|naive_solver].
      rewrite Hc. naive_solver.
  - specialize (IH wc tw out Hok). destruct (foldl take_out _ l) as [[wc' tw'] out'].
    destruct IH as (IH1 & IH2 & IH3). split_and!.
    + intros i. rewrite IH1. destruct (decide (i = id)) as [->|]; repeat case_decide; set_solver.
    + rewrite IH2. cbn [omap list_omap]. by rewrite Hc.
    + intros t i. rewrite IH3. rewrite elem_of_cons. naive_solver.
Qed.
End TakeOut.

(** The contexts taken out by a set of ids are those of the waiters it names. *)
Lemma omap_lookup_filter {A} (m : gmap Z A) (l : list Z) :
  NoDup l →
  omap (λ i, m !! i) l ≡ₚ (map_to_list (filter (λ p, p.1 ∈ l) m)).*2.
Proof.
  induction 1 as [|a l Hni _ IH]; cbn [omap list_omap].
  - assert (filter (λ p : Z * A, p.1 ∈ []) m = ∅) as ->; [|by rewrite map_to_list_empty].
    apply map_empty. intros i. apply map_lookup_filter_None. right. intros x _. apply not_elem_of_nil.
  - destruct (m !! a) as [c|] eqn:Ha.
    + assert (filter (λ p : Z * A, p.1 ∈ a :: l) m = <[a := c]> (filter (λ p, p.1 ∈ l) m)) as ->.
      { apply map_eq. intros i. apply option_eq. intros x.
        rewrite lookup_insert, map_lookup_filter_Some. cbn. case_decide as E.
        - subst. rewrite Ha, elem_of_cons. naive_solver.
        - rewrite map_lookup_filter_Some, elem_of_cons. cbn. naive_solver. }
      rewrite map_to_list_insert; [by rewrite IH|].
      apply map_lookup_filter_None. right. cbn. done.
    + rewrite IH. f_equiv. assert (filter (λ p : Z * A, p.1 ∈ a :: l) m = filter (λ p, p.1 ∈ l) m) as ->; [|done].
      apply map_filter_ext. intros i x Hi. cbn. rewrite elem_of_cons. naive_solver.
Qed.

(** ** The waiters' invariant *)
Record wait_inv (kv : gmap string bytes) (wc : gmap Z StoreWaitContext)
    (kw : gmap string (gset Z)) (tw : gmap Z (gset Z)) (gen : Z) : Prop := {
  wi_id : ∀ i c, wc !! i = Some c → w_id c = i ∧ i < gen;
  wi_key : ∀ i c, wc !! i = Some c → ∃ ids, kw !! w_key c = Some ids ∧ i ∈ ids;
  wi_kw : ∀ k ids i, kw !! k = Some ids → i ∈ ids →
    i < gen ∧ ∀ c, wc !! i = Some c → w_key c = k;
  wi_absent : ∀ i c, wc !! i = Some c → kv !! w_key c = None;
  wi_plain : ∀ i c, wc !! i = Some c → String.prefix AutoRankingStr (w_key c) = false;
  wi_timed : ∀ t ids i, tw !! t = Some ids → i ∈ ids →
    ∃ c, wc !! i = Some c ∧ w_timeoutMs c = t;
}.

Section WaitInv.
Context (kv : gmap string bytes) (wc : gmap Z StoreWaitContext).
Context (kw : gmap string (gset Z)) (tw : gmap Z (gset Z)) (gen : Z).
Context (Hinv : wait_inv kv wc kw tw gen).

Lemma wi_ids_ok : ids_ok wc.
Proof. intros i c Hc. by apply (wi_id _ _ _ _ _ Hinv). Qed.

Lemma wi_put k v :
  (∀ i c, wc !! i = Some c → w_key c ≠ k) → wait_inv (<[k := v]> kv) wc kw tw gen.
Proof.
  intros Hk. destruct Hinv. split; [done..| |done|done].
  intros i c Hc. rewrite lookup_insert_ne; [eauto|]. intros E. by eapply Hk.
Qed.

(** Overwriting a stored key cannot concern a waiter. *)
Lemma wi_overwrite k v : is_Some (kv !! k) → wait_inv (<[k := v]> kv) wc kw tw gen.
Proof.
  intros [w Hw]. apply wi_put. intros i c Hc <-.
  pose proof (wi_absent _ _ _ _ _ Hinv _ _ Hc). congruence.
Qed.

Lemma wi_put_ranking k v :
  String.prefix AutoRankingStr k = true → wait_inv (<[k := v]> kv) wc kw tw gen.
Proof.
  intros Hp. apply wi_put. intros i c Hc <-.
  pose proof (wi_plain _ _ _ _ _ Hinv _ _ Hc). congruence.
Qed.

Lemma wi_delete k : wait_inv (delete k kv) wc kw tw gen.
Proof.
  destruct Hinv. split; [done..| |done|done].
  intros i c Hc. rewrite lookup_delete. case_decide; [done|eauto].
Qed.

Lemma wi_enqueue k ctx t (timed : bool) :
  kv !! k = None → String.prefix AutoRankingStr k = false →
  wait_inv kv (<[gen := mkWait gen t k ctx]> wc)
    (<[k := default ∅ (kw !! k) ∪ {[ gen ]}]> kw)
    (if timed then <[t := default ∅ (tw !! t) ∪ {[ gen ]}]> tw else tw) (gen + 1).
Proof.
  intros Hk Hp.
  assert (wc !! gen = None) as Hfresh.
  { destruct (wc !! gen) eqn:E; [|done]. apply (wi_id _ _ _ _ _ Hinv) in E. lia. }
  destruct Hinv as [Hid Hkey Hkw Habs Hpl Htm]. split.
  - intros i c. rewrite lookup_insert. case_decide; [intros [= <-]; cbn; lia|].
    intros Hc. apply Hid in Hc. lia.
  - intros i c. rewrite lookup_insert. case_decide.
    + intros [= <-]. subst. cbn. rewrite lookup_insert_eq. eexists. split; [done|set_solver].
    + intros Hc. destruct (Hkey _ _ Hc) as (ids & Hids & Hi). rewrite lookup_insert.
      case_decide as E; [|eauto]. rewrite <- E in Hids. rewrite Hids. eexists. split; [done|set_solver].
  - intros k' ids i. rewrite lookup_insert. case_decide as E.
    + intros [= <-] [Hi|Hi]%elem_of_union.
      * destruct (kw !! k) as [ids0|] eqn:Hk0; cbn in Hi; [|set_solver].
        destruct (Hkw _ _ _ Hk0 Hi) as [Hlt Hc]. split; [lia|]. intros c.
        rewrite lookup_insert_ne by lia. subst. apply Hc.
      * apply elem_of_singleton in Hi as ->. split; [lia|]. intros c.
        rewrite lookup_insert_eq. intros [= <-]. done.
    + intros Hids Hi. destruct (Hkw _ _ _ Hids Hi) as [Hlt Hc]. split; [lia|]. intros c.
      rewrite lookup_insert_ne by lia. apply Hc.
  - intros i c. rewrite lookup_insert. case_decide; [by intros [= <-]|apply Habs].
  - intros i c. rewrite lookup_insert. case_decide; [by intros [= <-]|apply Hpl].
  - assert (∀ t' ids i, tw !! t' = Some ids → i ∈ ids →
      ∃ c, <[gen := mkWait gen t k ctx]> wc !! i = Some c ∧ w_timeoutMs c = t') as Hold.
    { intros t' ids i Hids Hi. destruct (Htm _ _ _ Hids Hi) as (c & Hc & Ht). exists c.
      rewrite lookup_insert_ne by congruence. done. }
    intros t' ids i. destruct timed; [|apply Hold]. rewrite lookup_insert. case_decide as E; [|apply Hold].
    intros [= <-] [Hi|Hi]%elem_of_union.
    + destruct (tw !! t) as [ids0|] eqn:Ht0; cbn in Hi; [|set_solver]. subst. by eapply Hold.
    + apply elem_of_singleton in Hi as ->. eexists. rewrite lookup_insert_eq. done.
Qed.

(** Taking out the waiters that [sel] names keeps the invariant; [kw'] may have
    lost the keys of the removed waiters. *)
Lemma wi_take_out (sel : list Z) kw' :
  NoDup sel → kw' ⊆ kw →
  (∀ i c, wc !! i = Some c → i ∉ sel → kw' !! w_key c = kw !! w_key c) →
  let '(wc', tw', out) := foldl take_out (wc, tw, []) sel in
  wait_inv kv wc' kw' tw' gen ∧
  (∀ i c, wc' !! i = Some c ↔ wc !! i = Some c ∧ i ∉ sel) ∧
  out ≡ₚ w_ctx <$> (map_to_list (filter (λ p, p.1 ∈ sel) wc)).*2.
Proof.
  intros Hnd Hsub Hkw'. pose proof (take_out_list sel wc tw [] Hnd wi_ids_ok) as Hto.
  destruct (foldl take_out _ sel) as [[wc' tw'] out]. destruct Hto as (H1 & H2 & H3).
  assert (∀ i c, wc' !! i = Some c ↔ wc !! i = Some c ∧ i ∉ sel) as Hwc.
  { intros i c. rewrite H1. case_decide; naive_solver. }
  split_and!; [|done|].
  - destruct Hinv as [Hid Hkey Hkw Habs Hpl Htm]. split.
    + intros i c [Hc _]%Hwc. by apply Hid.
    + intros i c [Hc Hni]%Hwc. rewrite (Hkw' _ _ Hc Hni). by apply Hkey.
    + intros k ids i Hk Hi. pose proof (lookup_weaken _ _ _ _ Hk Hsub) as Hk'.
      destruct (Hkw _ _ _ Hk' Hi) as [? Hc]. split; [done|]. intros c [? _]%Hwc. by apply Hc.
    + intros i c [Hc _]%Hwc. by eapply Habs.
    + intros i c [Hc _]%Hwc. by eapply Hpl.
    + intros t ids i Ht Hi. destruct (proj1 (H3 t i)) as [(ids' & Ht' & Hi') Hn]; [eauto|].
      destruct (Htm _ _ _ Ht' Hi') as (c & Hc & Hct). exists c. rewrite Hwc. naive_solver.
  - rewrite H2. cbn [app]. f_equiv. by apply omap_lookup_filter.
Qed.
End WaitInv.

(** ** The key-value specification *)
Inductive KvOp :=
| KSet (k : string) (v : bytes)
| KGet (k : string)
| KAdd (k : string) (n : Z)
| KRemove (k : string)
| KAppend (k : string) (v : bytes)
| KCas (k : string) (expected exchange : bytes).

Definition op_key (op : KvOp) : string :=
  match op with
  | KSet k _ | KGet k | KAdd k _ | KRemove k | KAppend k _ | KCas k _ _ => k
  end.

(** The map after the operation, and the answer; no answer parks the caller. *)
Definition kv_apply (kv : gmap string bytes) (op : KvOp) : gmap string bytes * option (Z * bytes) :=
  match op with
  | KSet k v => (<[k := v]> kv, Some (SUCCESS, text "success"))
  | KGet k =>
      match kv !! k with
      | Some v => (kv, Some (SUCCESS, Pack (msg GET [] [v])))
      | None => (kv, None)
      end
  | KAdd k n =>
      match kv !! k with
      | None => (<[k := to_string n]> kv, Some (SUCCESS, to_string n))
      | Some v =>
          match stored_number v with
          | Some m => (<[k := to_string (i64 (m + n))]> kv, Some (SUCCESS, to_string (i64 (m + n))))
          | None => (kv, Some (INVALID_MESSAGE, text "oldValueStr should be a number."))
          end
      end
  | KRemove k =>
      match kv !! k with
      | Some _ => (delete k kv, Some (SUCCESS, text "success"))
      | None => (kv, Some (NOT_EXIST, text "not exist"))
      end
  | KAppend k v =>
      let v' := default [] (kv !! k) ++ v in
      (<[k := v']> kv, Some (SUCCESS, to_string (len v')))
  | KCas k expected exchange =>
      let old := default [] (kv !! k) in
      (if decide (expected = old) then <[k := exchange]> kv else kv,
       Some (SUCCESS, Pack (msg CAS [] [old])))
  end.

(** The request that asks for an operation; a GET waits [wait] ms, or for ever. *)
Definition op_msg (op : KvOp) (wait : Z) : SmemMessage :=
  match op with
  | KSet k v => msg SET [k] [v]
  | KGet k => mkMsg GET wait [k] []
  | KAdd k n => msg ADD [k] [to_string n]
  | KRemove k => msg REMOVE [k] []
  | KAppend k v => msg APPEND [k] [v]
  | KCas k expected exchange => msg CAS [k] [expected; exchange]
  end.

Definition op_ok (op : KvOp) : Prop :=
  slen (op_key op) ≤ MAX_KEY_LEN_SERVER ∧
  match op with
  | KGet k => String.prefix AutoRankingStr k = false
  | KAdd _ n => I64_MIN ≤ n ≤ I64_MAX
  | _ => True
  end.

(** The value under which the operation creates its key, if it does. *)
Definition created (kv : gmap string bytes) (op : KvOp) : option bytes :=
  match kv !! op_key op with
  | Some _ => None
  | None => (kv_apply kv op).1 !! op_key op
  end.

Definition waiters_of (wc : gmap Z StoreWaitContext) (k : string) : list ReqCtx :=
  w_ctx <$> (map_to_list (filter (λ p, w_key p.2 = k) wc)).*2.

Definition own_reply (ctx : ReqCtx) (r : option (Z * bytes)) : list Reply :=
  match r with Some (code, body) => [mkReply ctx code body] | None => [] end.

Lemma WakeupWaiters_spec est ws v :
  WakeupWaiters est ws v =
  (λ c, mkReply c SUCCESS (Pack (msg GET [] [v]))) <$> filter (λ c, est (rq_link c) = true) ws.
Proof.
  unfold WakeupWaiters. f_equal. induction ws as [|c ws IH]; [done|].
  cbn [List.filter]. rewrite filter_cons. destruct (est (rq_link c)); cbn; by rewrite IH.
Qed.

#[global] Instance WakeupWaiters_Permutation est :
  Proper ((≡ₚ) ==> eq ==> (≡ₚ)) (WakeupWaiters est).
Proof.
  intros l l' Hl v v' <-. unfold WakeupWaiters. apply fmap_Permutation.
  induction Hl; cbn; repeat case_match; try done; [by constructor|by constructor|by etransitivity].
Qed.

(** ** The server against its specification *)
Section Refine.
Context {B : Type} `{ConfigStoreBackend B} {laws : BackendLaws B}.
Context (reliable : ∀ (b : B) k v, (bk_Put b k v 0).2 = SUCCESS).
Implicit Types s : @AccStoreServer B.

Definition srv_inv s : Prop :=
  wait_inv (view (backend s)) (waitCtx s) (keyWaiters s) (timedWaiters s) (idGen s) ∧
  0 < idGen s < 2 ^ 64 - 1.
Definition quiet s : Prop := externalOpHandlerMap s = ∅ ∧ externalBrokenHandler s = None.

Lemma ExecuteHandle_quiet s op l k v : quiet s → ExecuteHandle s op l k v = (SM_OK, v, backend s).
Proof. intros [E _]. unfold ExecuteHandle. by rewrite E. Qed.

Lemma set_backend_id s : set_backend s (backend s) = s.
Proof. by destruct s. Qed.

Lemma put_reliable b k v : ∃ b', bk_Put b k v 0 = (b', SUCCESS) ∧ view b' = <[k := v]> (view b).
Proof.
  destruct (bk_Put b k v 0) as [b' rc] eqn:E. pose proof (reliable b k v) as Hr.
  rewrite E in Hr. cbn in Hr. subst. exists b'. split; [done|].
  apply put_law in E as [[_ ?]|[? _]]; done.
Qed.

Lemma take_key_waiters_spec s k s' out :
  srv_inv s → take_key_waiters s k = (s', out) →
  srv_inv s' ∧ (∃ wc tw, s' = set_waiters s wc (delete k (keyWaiters s)) tw (idGen s)) ∧
  (∀ i c, waitCtx s' !! i = Some c ↔ waitCtx s !! i = Some c ∧ w_key c ≠ k) ∧
  out ≡ₚ waiters_of (waitCtx s) k.
Proof.
  intros [Hinv Hgen]. unfold take_key_waiters. destruct (keyWaiters s !! k) as [ids|] eqn:Hk.
  - unfold GetOutWaitersInLock.
    pose proof (wi_take_out _ _ _ _ _ Hinv (elements ids) (delete k (keyWaiters s))) as Hto.
    destruct (foldl take_out _ _) as [[wc tw] o].
    assert (∀ i c, waitCtx s !! i = Some c → i ∈ elements ids ↔ w_key c = k) as Hids.
    { intros i c Hc. rewrite elem_of_elements. split.
      - intros Hi. by apply (wi_kw _ _ _ _ _ Hinv _ _ _ Hk Hi).
      - intros <-. destruct (wi_key _ _ _ _ _ Hinv _ _ Hc) as (ids' & Hids' & ?). congruence. }
    intros [= <- <-]. destruct Hto as (Hi & Hwc & Hout).
    + apply NoDup_elements.
    + apply delete_subseteq.
    + intros i c Hc Hni. rewrite lookup_delete_ne; [done|]. intros Ek. apply Hni. apply (Hids _ _ Hc). done.
    + split_and!.
      * split; [exact Hi|exact Hgen].
      * eauto.
      * intros i c. cbn. rewrite Hwc. pose proof (Hids i c). naive_solver.
      * rewrite Hout. unfold waiters_of. do 2 f_equiv.
        assert (filter (λ p, p.1 ∈ elements ids) (waitCtx s) = filter (λ p, w_key p.2 = k) (waitCtx s)) as ->;
          [|done].
        apply map_filter_ext. intros i c Hc. cbn. by apply Hids.
  - intros [= <- <-].
    assert (∀ i c, waitCtx s !! i = Some c → w_key c ≠ k) as Hno.
    { intros i c Hc <-. destruct (wi_key _ _ _ _ _ Hinv _ _ Hc) as (? & ? & _). congruence. }
    split_and!; [done| | |].
    + exists (waitCtx s), (timedWaiters s). rewrite delete_id by done. by destruct s.
    + naive_solver.
    + unfold waiters_of. assert (filter (λ p, w_key p.2 = k) (waitCtx s) = ∅) as ->.
      { apply map_empty. intros i. apply map_lookup_filter_None. right. intros c Hc. by eapply Hno. }
      by rewrite map_to_list_empty.
Qed.

(** Creating a key: its waiters are taken out, then it is stored. *)
Lemma create_key s k v :
  srv_inv s → quiet s →
  ∃ s1 out b, take_key_waiters s k = (s1, out) ∧ backend s1 = backend s ∧ idGen s1 = idGen s ∧
    bk_Put (backend s1) k v 0 = (b, SUCCESS) ∧
    view b = <[k := v]> (view (backend s)) ∧ srv_inv (set_backend s1 b) ∧
    quiet (set_backend s1 b) ∧ out ≡ₚ waiters_of (waitCtx s) k.
Proof.
  intros Hinv Hq. destruct (take_key_waiters s k) as [s1 out] eqn:E.
  destruct (take_key_waiters_spec _ _ _ _ Hinv E) as ([Hi Hg] & (wc & tw & ->) & Hwc & Hout).
  destruct (put_reliable (backend s) k v) as (b & Eb & Hv).
  eexists _, _, b. split; [done|]. split; [done|]. split; [done|]. split; [exact Eb|]. split_and!; [done| | |done].
  - split; [|done]. cbn in *. rewrite Hv. apply wi_put; [done|]. intros i c Hc. by apply Hwc in Hc as [_ ?].
  - done.
Qed.

(** Storing under a key that exists. *)
Lemma overwrite_key s k v :
  srv_inv s → quiet s → is_Some (view (backend s) !! k) →
  ∃ b, bk_Put (backend s) k v 0 = (b, SUCCESS) ∧ view b = <[k := v]> (view (backend s)) ∧
    srv_inv (set_backend s b) ∧ quiet (set_backend s b).
Proof.
  intros [Hi Hg] Hq Hk. destruct (put_reliable (backend s) k v) as (b & Eb & Hv).
  exists b. split_and!; [done|done| |done]. split; [|done]. cbn. rewrite Hv. by apply wi_overwrite.
Qed.

Definition refines (est : Z → bool) s (ctx : ReqCtx) (op : KvOp)
    (r : option (@AccStoreServer B * list Reply * Z)) : Prop :=
  let kv := view (backend s) in
  ∃ s' wakes ret,
    r = Some (s', own_reply ctx (kv_apply kv op).2 ++ wakes, ret) ∧
    view (backend s') = (kv_apply kv op).1 ∧ srv_inv s' ∧ quiet s' ∧
    idGen s ≤ idGen s' ≤ idGen s + 1 ∧
    wakes ≡ₚ match created kv op with
             | Some v => WakeupWaiters est (waiters_of (waitCtx s) (op_key op)) v
             | None => []
             end.

Lemma key_len_ok k : slen k ≤ MAX_KEY_LEN_SERVER → (MAX_KEY_LEN_SERVER <? slen k) = false.
Proof. intros. apply Z.ltb_ge. lia. Qed.

Ltac finish_refines :=
  split_and!; try done; cbn [idGen set_backend];
  try (match goal with Ho : _ ≡ₚ waiters_of _ _ |- _ => by rewrite Ho end); lia.

Lemma Set_refines est s ctx k v :
  srv_inv s → quiet s → op_ok (KSet k v) →
  refines est s ctx (KSet k v) (Some (SetHandler est s ctx (op_msg (KSet k v) 0))).
Proof.
  intros Hi Hq [Hk _]. unfold refines, SetHandler. cbn [op_msg msg keys values].
  cbn [op_key] in Hk. rewrite (key_len_ok _ Hk), ExecuteHandle_quiet, set_backend_id, exist_law by done. cbn [Z.eqb SM_OK negb].
  cbn [kv_apply fst snd own_reply op_key app].
  unfold created. cbn [op_key kv_apply fst]. rewrite lookup_insert_eq.
  destruct (view (backend s) !! k) as [old|] eqn:E; cbn [Z.eqb SUCCESS NOT_EXIST negb].
  - destruct (overwrite_key s k v Hi Hq ltac:(eauto)) as (b & -> & Hv & Hi' & Hq').
    eexists _, _, _. split; [reflexivity|]. finish_refines.
  - destruct (create_key s k v Hi Hq) as (s1 & out & b & -> & _ & Hid & -> & Hv & Hi' & Hq' & Hout).
    eexists _, _, _. split; [reflexivity|]. finish_refines.
Qed.

Lemma Get_refines now est s ctx k wait :
  srv_inv s → quiet s → op_ok (KGet k) → wait ≠ 0 → idGen s < 2 ^ 64 - 2 →
  refines est s ctx (KGet k) (GetHandler now s ctx (op_msg (KGet k) wait)).
Proof.
  intros [Hi Hg] Hq [Hk Hp] Hw Hgen. unfold refines, GetHandler. cbn [op_msg keys values userDef].
  cbn [op_key] in Hk. rewrite (key_len_ok _ Hk), Hp, get_law. cbn [kv_apply op_key]. unfold created. cbn [op_key kv_apply].
  destruct (view (backend s) !! k) as [old|] eqn:E; cbn [Z.eqb SUCCESS NOT_EXIST fst snd].
  - eexists _, [], _. split; [reflexivity|]. finish_refines.
  - rewrite ExecuteHandle_quiet, set_backend_id by done. cbn [Z.eqb SM_OK SM_GET_OBJIECT].
    rewrite (proj2 (Z.eqb_neq wait 0)) by done.
    eexists _, [], _. split; [reflexivity|]. split_and!; [done| |done|cbn..|by rewrite E].
    2, 3: rewrite u64_small by lia; lia.
    unfold enqueue_waiter, srv_inv. cbn. rewrite u64_small by lia. split; [|lia].
    by apply wi_enqueue.
Qed.

Lemma Add_refines est s ctx k n :
  srv_inv s → quiet s → op_ok (KAdd k n) →
  refines est s ctx (KAdd k n) (Some (AddHandler est s ctx (op_msg (KAdd k n) 0))).
Proof.
  intros Hi Hq [Hk Hn]. unfold refines, AddHandler. cbn [op_msg msg keys values].
  cbn [op_key] in Hk. rewrite (key_len_ok _ Hk), String2Long_to_string by done.
  rewrite bool_decide_true by done. cbn [negb].
  assert ((if 0 <? n then ExecuteHandle s ADD (rq_link ctx) k (to_string n)
           else (SM_OK, to_string n, backend s)) = (SM_OK, to_string n, backend s)) as ->.
  { rewrite ExecuteHandle_quiet by done. by destruct (0 <? n). }
  rewrite set_backend_id, get_law. cbn [Z.eqb SM_OK negb].
  unfold created. cbn [op_key kv_apply].
  destruct (view (backend s) !! k) as [old|] eqn:E; cbn [Z.eqb SUCCESS NOT_EXIST negb].
  - destruct (stored_number old) as [m|]; cbn [fst snd own_reply].
    + destruct (overwrite_key s k (to_string (i64 (m + n))) Hi Hq ltac:(eauto))
        as (b & -> & Hv & Hi' & Hq').
      eexists _, [], _. split; [reflexivity|]. finish_refines.
    + eexists _, [], _. split; [reflexivity|]. finish_refines.
  - destruct (create_key s k (to_string n) Hi Hq) as (s1 & out & b & -> & _ & Hid & -> & Hv & Hi' & Hq' & Hout).
    cbn [fst snd own_reply]. rewrite lookup_insert_eq.
    eexists _, _, _. split; [reflexivity|]. finish_refines.
Qed.

Lemma Remove_refines est s ctx k :
  srv_inv s → quiet s → op_ok (KRemove k) →
  refines est s ctx (KRemove k) (Some (RemoveHandler s ctx (op_msg (KRemove k) 0))).
Proof.
  intros [Hi Hg] Hq [Hk _]. unfold refines, RemoveHandler. cbn [op_msg msg keys values].
  cbn [op_key] in Hk. rewrite (key_len_ok _ Hk), exist_law. unfold created. cbn [op_key kv_apply].
  destruct (view (backend s) !! k) as [old|] eqn:E; cbn [Z.eqb SUCCESS NOT_EXIST fst snd own_reply].
  - destruct (bk_Delete (backend s) k) as [b rc] eqn:Ed. apply delete_law in Ed as [Hv _].
    eexists _, [], _. split; [reflexivity|]. split_and!; [done| |done|cbn; lia|cbn; lia|done].
    split; [|done]. cbn. rewrite Hv. by apply wi_delete.
  - eexists _, [], _. split; [reflexivity|]. rewrite E. finish_refines.
Qed.

Lemma Append_refines est s ctx k v :
  srv_inv s → quiet s → op_ok (KAppend k v) →
  refines est s ctx (KAppend k v) (Some (AppendHandler est s ctx (op_msg (KAppend k v) 0))).
Proof.
  intros Hi Hq [Hk _]. unfold refines, AppendHandler. cbn [op_msg msg keys values].
  cbn [op_key] in Hk. rewrite (key_len_ok _ Hk), get_law. unfold created. cbn [op_key kv_apply fst snd own_reply].
  destruct (view (backend s) !! k) as [old|] eqn:E;
    cbn [Z.eqb SUCCESS NOT_EXIST negb default from_option id app].
  - destruct (overwrite_key s k (old ++ v) Hi Hq ltac:(eauto)) as (b & -> & Hv & Hi' & Hq').
    rewrite ExecuteHandle_quiet, set_backend_id by done. cbn [Z.eqb SM_OK negb].
    eexists _, _, _. split; [reflexivity|]. finish_refines.
  - destruct (create_key s k v Hi Hq) as (s1 & out & b & -> & _ & Hid & -> & Hv & Hi' & Hq' & Hout).
    rewrite ExecuteHandle_quiet, set_backend_id by done. cbn [Z.eqb SM_OK negb].
    rewrite lookup_insert_eq. eexists _, _, _. split; [reflexivity|]. finish_refines.
Qed.

(** CAS stores first and takes the waiters out afterwards. *)
Lemma take_key_waiters_backend s b k :
  take_key_waiters (set_backend s b) k =
  (set_backend (take_key_waiters s k).1 b, (take_key_waiters s k).2).
Proof.
  unfold take_key_waiters. cbn. destruct (keyWaiters s !! k) as [ids|]; [|done].
  unfold GetOutWaitersInLock. cbn. by destruct (foldl take_out _ _) as [[wc tw] o].
Qed.

Lemma Cas_refines est s ctx k expected exchange :
  srv_inv s → quiet s → op_ok (KCas k expected exchange) →
  refines est s ctx (KCas k expected exchange)
    (Some (CasHandler est s ctx (op_msg (KCas k expected exchange) 0))).
Proof.
  intros Hi Hq [Hk _]. unfold refines, CasHandler. cbn [op_msg msg keys values].
  cbn [op_key] in Hk. rewrite (key_len_ok _ Hk), get_law. unfold created. cbn [op_key kv_apply fst snd own_reply].
  destruct (view (backend s) !! k) as [old|] eqn:E;
    cbn [Z.eqb SUCCESS NOT_EXIST negb default from_option id app].
  - destruct (decide (expected = old)) as [->|Hne].
    + destruct (overwrite_key s k exchange Hi Hq ltac:(eauto)) as (b & -> & Hv & Hi' & Hq').
      eexists _, _, _. split; [reflexivity|]. finish_refines.
    + eexists _, _, _. split; [reflexivity|]. finish_refines.
  - destruct (decide (expected = [])) as [->|Hne].
    + destruct (create_key s k exchange Hi Hq) as (s1 & out & b & Et & Eb & Hid & Ep & Hv & Hi' & Hq' & Hout).
      rewrite Eb in Ep. rewrite Ep, take_key_waiters_backend, Et. cbn [fst snd].
      rewrite !decide_True by done. rewrite lookup_insert_eq. eexists _, _, _. split; [reflexivity|]. finish_refines.
    + rewrite !decide_False by done. rewrite E. eexists _, _, _. split; [reflexivity|]. finish_refines.
Qed.

Lemma handle_refines e s ctx op wait :
  srv_inv s → quiet s → op_ok op → wait ≠ 0 → idGen s < 2 ^ 64 - 2 →
  refines (e_established e) s ctx op (handle e s ctx (op_msg op wait)).
Proof.
  intros Hi Hq Hop Hw Hg. destruct op; cbn [handle op_msg mt msg].
  - by apply Set_refines.
  - by apply Get_refines.
  - by apply Add_refines.
  - by apply Remove_refines.
  - by apply Append_refines.
  - by apply Cas_refines.
Qed.
End Refine.

(** ** Requests on the wire *)
Definition op_small (op : KvOp) : Prop :=
  match op with
  | KSet _ v | KAppend _ v => len v ≤ MAX_VALUE_SIZE
  | KCas _ a b => len a ≤ MAX_VALUE_SIZE ∧ len b ≤ MAX_VALUE_SIZE
  | _ => True
  end.

Lemma len_dec_digits fuel z acc : len (dec_digits fuel z acc) ≤ len acc + Z.of_nat fuel.
Proof.
  revert z acc. induction fuel as [|fuel IH]; intros z acc; cbn [dec_digits]; [lia|].
  assert (∀ b, len (b :: acc) = len acc + 1) as Hc by (intros; unfold len; cbn [List.length]; lia).
  case_match; [rewrite Hc; lia|]. etransitivity; [apply IH|]. rewrite Hc. lia.
Qed.
Lemma len_to_string z : len (to_string z) ≤ 21.
Proof.
  unfold to_string. case_match.
  - pose proof (len_dec_digits 20 (- z) []). unfold len in *. cbn [List.length] in *. lia.
  - pose proof (len_dec_digits 20 z []). unfold len in *. cbn [List.length] in *. lia.
Qed.

Lemma op_msg_wf op wait :
  op_ok op → op_small op → - 2 ^ 63 ≤ wait < 2 ^ 63 → wf_msg (op_msg op wait).
Proof.
  intros [Hk _] Hv Hw. unfold wf_msg, MAX_KEY_LEN_SERVER, MAX_KEY_COUNT, MAX_VALUE_COUNT, MAX_KEY_SIZE in *.
  pose proof (len_to_string).
  destruct op; cbn [op_msg msg userDef keys values op_key op_small] in *; split_and!;
    try lia; try (unfold len; cbn; lia); repeat constructor; try done; try lia; try tauto.
  etransitivity; [apply H|]. unfold MAX_VALUE_SIZE. lia.
Qed.

Section Runs.
Context {B : Type} `{ConfigStoreBackend B} {laws : BackendLaws B}.
Context (reliable : ∀ (b : B) k v, (bk_Put b k v 0).2 = SUCCESS).
Implicit Types s : @AccStoreServer B.

Lemma Receive_Pack e s ctx m :
  wf_msg m → ReceiveMessageHandler e s ctx (Some (Pack m)) = handle e s ctx m.
Proof.
  intros Hwf. unfold ReceiveMessageHandler.
  pose proof (Unpack_Pack m [] Hwf) as E. rewrite app_nil_r in E. rewrite E.
  rewrite (proj2 (Z.ltb_ge _ _)) by apply len_nonneg. done.
Qed.

(** The requests of all clients, in the order in which the server handles them. *)
Fixpoint serve (e : Env) s (reqs : list (ReqCtx * KvOp * Z))
    : option (@AccStoreServer B * list (list Reply)) :=
  match reqs with
  | [] => Some (s, [])
  | (ctx, op, wait) :: reqs' =>
      '(s1, out, _) ← ReceiveMessageHandler e s ctx (Some (Pack (op_msg op wait)));
      '(s2, outs) ← serve e s1 reqs';
      Some (s2, out :: outs)
  end.

Fixpoint kv_serve (kv : gmap string bytes) (reqs : list (ReqCtx * KvOp * Z))
    : gmap string bytes * list (list Reply) :=
  match reqs with
  | [] => (kv, [])
  | (ctx, op, _) :: reqs' =>
      let '(kv1, r) := kv_apply kv op in
      let '(kv2, rs) := kv_serve kv1 reqs' in (kv2, own_reply ctx r :: rs)
  end.

Definition req_ok (r : ReqCtx * KvOp * Z) : Prop :=
  op_ok r.1.2 ∧ op_small r.1.2 ∧ r.2 ≠ 0 ∧ - 2 ^ 63 ≤ r.2 < 2 ^ 63.

Lemma serve_refines e s reqs :
  srv_inv s → quiet s → Forall req_ok reqs → idGen s + len reqs < 2 ^ 64 - 2 →
  ∃ s' outs, serve e s reqs = Some (s', outs) ∧
    view (backend s') = (kv_serve (view (backend s)) reqs).1 ∧ srv_inv s' ∧ quiet s' ∧
    Forall2 (λ out own, own `prefix_of` out) outs (kv_serve (view (backend s)) reqs).2.
Proof.
  intros Hi Hq Hall. revert s Hi Hq.
  induction Hall as [|[[ctx op] wait] reqs (Hok & Hsm & Hw & Hr) _ IH]; intros s Hi Hq Hg.
  { eexists _, _. split; [reflexivity|]. done. }
  assert (len ((ctx, op, wait) :: reqs) = 1 + len reqs) as Hl by (unfold len; cbn [List.length]; lia).
  cbn [serve kv_serve]. rewrite Receive_Pack by (by apply op_msg_wf).
  pose proof (len_nonneg reqs).
  destruct (handle_refines reliable e s ctx op wait Hi Hq Hok Hw ltac:(lia))
    as (s1 & wakes & ret & -> & Hv & Hi1 & Hq1 & Hg1 & _). cbn [mbind option_bind].
  destruct (IH s1 Hi1 Hq1 ltac:(lia)) as (s2 & outs & -> & Hv2 & Hi2 & Hq2 & Hf).
  cbn [mbind option_bind]. rewrite Hv in *.
  destruct (kv_apply (view (backend s)) op) as [kv1 r]. cbn [fst snd] in *.
  destruct (kv_serve kv1 reqs) as [kv2 rs]. cbn [fst snd] in *.
  eexists _, _. split; [reflexivity|]. split_and!; [done..|]. constructor; [|done].
  by apply prefix_app_r.
Qed.
End Runs.

(** * Properties *)

Lemma local_reliable (b : gmap string bytes) k v : (bk_Put b k v 0).2 = SUCCESS.
Proof. reflexivity. Qed.

Lemma server_new_ok world : srv_inv (server_new world (∅ : gmap string bytes)).
Proof. split; [|cbn; lia]. split; cbn; intros *; by rewrite lookup_empty. Qed.

(** C3: the store is a key-value map.  Whatever valid requests its clients send,
    in whatever order the server takes them, the packed requests are all handled
    without a memory error, the backend ends as the sequential specification
    says, and each caller gets the specified answer first (SET, GET, ADD, REMOVE,
    APPEND and CAS, over any backend that keeps its contract and whose writes
    succeed). *)
Theorem store_refines_kv {B} `{ConfigStoreBackend B} {laws : BackendLaws B}
    (e : Env) (s : @AccStoreServer B) reqs :
  (∀ (b : B) k v, (bk_Put b k v 0).2 = SUCCESS) →
  srv_inv s → quiet s → Forall req_ok reqs → idGen s + len reqs < 2 ^ 64 - 2 →
  ∃ s' outs, serve e s reqs = Some (s', outs) ∧
    view (backend s') = (kv_serve (view (backend s)) reqs).1 ∧ srv_inv s' ∧ quiet s' ∧
    Forall2 (λ out own, own `prefix_of` out) outs (kv_serve (view (backend s)) reqs).2.
Proof. intros. by apply serve_refines. Qed.

Definition env0 : Env := mkEnv (λ _, true) 1000 5000.
Definition reqs0 : list (ReqCtx * KvOp * Z) :=
  [(mkCtx 1 1, KGet "k", -1); (mkCtx 2 1, KAdd "k" 5, -1); (mkCtx 3 1, KAdd "k" (-7), -1)].

Lemma store_refines_kv_witness :
  ∃ s' outs, serve env0 (server_new 8 (∅ : gmap string bytes)) reqs0 = Some (s', outs) ∧
    backend s' = {[ "k"%string := to_string (-2) ]}.
Proof.
  destruct (store_refines_kv env0 (server_new 8 (∅ : gmap string bytes)) reqs0)
    as (s' & outs & E & Hv & _).
  - exact local_reliable.
  - apply server_new_ok.
  - done.
  - unfold reqs0, req_ok, op_ok, op_small, slen, len, MAX_KEY_LEN_SERVER, I64_MIN, I64_MAX.
    repeat constructor; cbn; lia || done.
  - vm_compute. reflexivity.
  - exists s', outs. split; [exact E|]. cbn in Hv. rewrite Hv. vm_compute. reflexivity.
Defined.

(** C35: creating a key wakes exactly its waiters.  When SET, ADD, APPEND or CAS
    stores a key that was absent, the replies behind the caller's own are, up to
    order, one per parked GET on that key whose link is up, carrying the stored
    value; when the key existed or stays absent nobody is woken; and afterwards
    every parked GET still waits for an absent key and is found through it. *)
Theorem store_wakes_exactly {B} `{ConfigStoreBackend B} {laws : BackendLaws B}
    (e : Env) (s : @AccStoreServer B) ctx op wait :
  (∀ (b : B) k v, (bk_Put b k v 0).2 = SUCCESS) →
  srv_inv s → quiet s → op_ok op → wait ≠ 0 → idGen s < 2 ^ 64 - 2 →
  ∃ s' wakes ret,
    handle e s ctx (op_msg op wait) =
      Some (s', own_reply ctx (kv_apply (view (backend s)) op).2 ++ wakes, ret) ∧
    wakes ≡ₚ match created (view (backend s)) op with
             | Some v =>
                 (λ c, mkReply c SUCCESS (Pack (msg GET [] [v]))) <$>
                   filter (λ c, e_established e (rq_link c) = true)
                     (waiters_of (waitCtx s) (op_key op))
             | None => []
             end ∧
    (∀ i c, waitCtx s' !! i = Some c → view (backend s') !! w_key c = None ∧
       ∃ ids, keyWaiters s' !! w_key c = Some ids ∧ i ∈ ids).
Proof.
  intros Hrel Hi Hq Hok Hw Hg.
  destruct (handle_refines Hrel e s ctx op wait Hi Hq Hok Hw Hg)
    as (s' & wakes & ret & E & _ & [Hi' _] & _ & _ & Hwk).
  exists s', wakes, ret. split; [done|]. split.
  { rewrite Hwk. destruct (created _ _); [|done]. by rewrite WakeupWaiters_spec. }
  intros i c Hc.
  split; [by eapply (wi_absent _ _ _ _ _ Hi')|by eapply (wi_key _ _ _ _ _ Hi')].
Qed.

Definition parked : @AccStoreServer (gmap string bytes) :=
  enqueue_waiter (server_new 8 ∅) (mkCtx 1 1) "k" 2000 true.
Lemma parked_inv : srv_inv parked.
Proof.
  destruct (server_new_ok 8) as [Hi _]. split; [|vm_compute; done].
  exact (wi_enqueue _ _ _ _ _ Hi "k" (mkCtx 1 1) 2000 true eq_refl eq_refl).
Qed.

Lemma store_wakes_exactly_witness :
  ∃ s' wakes ret,
    handle env0 parked (mkCtx 2 1) (msg SET ["k"%string] [[Byte.x2a]]) =
      Some (s', [mkReply (mkCtx 2 1) SUCCESS (text "success")] ++ wakes, ret) ∧
    wakes ≡ₚ [mkReply (mkCtx 1 1) SUCCESS (Pack (msg GET [] [[Byte.x2a]]))].
Proof.
  destruct (store_wakes_exactly env0 parked (mkCtx 2 1) (KSet "k" [Byte.x2a]) (-1))
    as (s' & wakes & ret & E & Hw & _).
  - exact local_reliable.
  - exact parked_inv.
  - done.
  - split; [vm_compute; discriminate|done].
  - done.
  - vm_compute. reflexivity.
  - exists s', wakes, ret. split; [exact E|exact Hw].
Defined.

(** C39: automatic ranking ends and gives every link its own rank.  A link that
    already has one is answered the stored bytes without a change; otherwise,
    when fewer ranks than the world size are alive, the search loop ends (twice
    the world size bounds it), the answered rank is below the world size, was not
    alive, is alive afterwards and is stored for the link; when the world is full
    the request is refused. *)
Theorem find_or_insert_rank {B} `{ConfigStoreBackend B} {laws : BackendLaws B}
    (s : @AccStoreServer B) ctx key :
  (∀ (b : B) k v, (bk_Put b k v 0).2 = SUCCESS) →
  0 ≤ worldSize s < 2 ^ 32 → 0 ≤ rankIndex s →
  let rankingKey := (key ++ str_of_bytes (to_string (rq_link ctx)))%string in
  match view (backend s) !! rankingKey with
  | Some v => FindOrInsertRank s ctx key =
      Some (s, [mkReply ctx SUCCESS (Pack (msg GET [] [v]))], SM_OK)
  | None =>
      if worldSize s <=? Z.of_nat (size (aliveRankSet s)) then
        ∃ body, FindOrInsertRank s ctx key = Some (s, [mkReply ctx ERROR body], SM_ERROR)
      else
        ∃ s' r, FindOrInsertRank s ctx key =
            Some (s', [mkReply ctx SUCCESS (Pack (msg GET [] [rank_bytes r]))], SM_OK) ∧
          0 ≤ r < worldSize s ∧ (r ∉ aliveRankSet s) ∧
          aliveRankSet s' = aliveRankSet s ∪ {[ r ]} ∧
          view (backend s') = <[rankingKey := rank_bytes r]> (view (backend s)) ∧
          le_val (rank_bytes r) = r
  end.
Proof.
  intros Hrel Hw Hidx rankingKey. unfold FindOrInsertRank. fold rankingKey. rewrite get_law.
  destruct (view (backend s) !! rankingKey) as [v|] eqn:E; cbn [Z.eqb SUCCESS NOT_EXIST]; [done|].
  destruct (worldSize s <=? _) eqn:Ew; [eauto|]. apply Z.leb_gt in Ew.
  destruct (find_rank_ends (aliveRankSet s) (worldSize s) (rankIndex s)) as (r & Er); [lia..|].
  rewrite Er. cbn [mbind option_bind].
  apply find_rank_Some in Er as [Hr Hfree]; [|lia].
  destruct (put_reliable Hrel (backend s) rankingKey (rank_bytes r)) as (b & Eb & Hv).
  cbn [backend set_ranks]. rewrite Eb. eexists _, r. split; [reflexivity|].
  split_and!; try done; try lia. apply le_val_le_bytes_small. change (256 ^ Z.of_nat 4) with (2 ^ 32). lia.
Qed.

Lemma find_or_insert_rank_witness :
  let s := server_new 4 (∅ : gmap string bytes) in
  ∃ s' r, FindOrInsertRank s (mkCtx 9 1) AutoRankingStr =
      Some (s', [mkReply (mkCtx 9 1) SUCCESS (Pack (msg GET [] [rank_bytes r]))], SM_OK) ∧ 0 ≤ r < 4.
Proof.
  intros s. destruct (find_or_insert_rank s (mkCtx 9 1) AutoRankingStr) as (s' & r & E & Hr & _).
  - exact local_reliable.
  - cbn. lia.
  - cbn. lia.
  - exists s', r. split; [exact E|exact Hr].
Defined.

(** ** WRITE *)
Lemma length_splice cur off data :
  (off + List.length data ≤ List.length cur)%nat → List.length (splice cur off data) = List.length cur.
Proof. intros. unfold splice. rewrite !length_app, length_take_le, length_drop by lia. lia. Qed.

Lemma lookup_splice_in cur off data i :
  (off ≤ i < off + List.length data)%nat → (off + List.length data ≤ List.length cur)%nat →
  splice cur off data !! i = data !! (i - off)%nat.
Proof.
  intros Hi Hl. unfold splice. rewrite lookup_app_r by (rewrite length_take_le; lia).
  rewrite length_take_le by lia. rewrite lookup_app_l by lia. done.
Qed.

Lemma lookup_splice_out cur off data i :
  (i < off ∨ off + List.length data ≤ i)%nat → (off + List.length data ≤ List.length cur)%nat →
  splice cur off data !! i = cur !! i.
Proof.
  intros Hi Hl. unfold splice. destruct (decide (i < off)%nat) as [Hlt|Hge].
  - rewrite lookup_app_l by (rewrite length_take_le; lia). by rewrite lookup_take_lt.
  - rewrite lookup_app_r by (rewrite length_take_le; lia). rewrite length_take_le by lia.
    rewrite lookup_app_r by lia. rewrite lookup_drop. f_equal. lia.
Qed.

Lemma length_resize v n : List.length (resize v n) = n.
Proof. unfold resize. rewrite length_app, length_take, length_replicate. lia. Qed.

Lemma resize_grow v n : (List.length v ≤ n)%nat → resize v n = v ++ replicate (n - List.length v) Byte.x00.
Proof. intros. unfold resize. by rewrite take_ge. Qed.

(** What a WRITE at an offset leaves: the old value, zero-extended as needed,
    with the written bytes laid over it. *)
Definition write_result (old : bytes) (off : nat) (data : bytes) : bytes :=
  splice (resize old (Nat.max (List.length old) (off + List.length data))) off data.

Lemma write_value cur off data :
  splice (if (List.length cur <? off + List.length data)%nat
          then resize cur (off + List.length data) else cur) off data
  = write_result cur off data.
Proof.
  unfold write_result. destruct (_ <? _)%nat eqn:E.
  - apply Nat.ltb_lt in E. by rewrite Nat.max_r by lia.
  - apply Nat.ltb_ge in E. rewrite Nat.max_l by lia. rewrite resize_grow by lia.
    by rewrite Nat.sub_diag, app_nil_r.
Qed.

Lemma Write_spec {B} `{ConfigStoreBackend B} {laws : BackendLaws B}
    (s : @AccStoreServer B) ctx k off data :
  (∀ (b : B) k v, (bk_Put b k v 0).2 = SUCCESS) → quiet s →
  slen k ≤ MAX_KEY_LEN_SERVER → 0 ≤ off < 2 ^ 32 → off ≤ MAX_U16_INDEX * len data →
  ∃ b, WriteHandler s ctx (msg WRITE [k] [le_bytes 4 off ++ data]) =
      Some (set_backend s b, [mkReply ctx SUCCESS (text "success")], SM_OK) ∧
    view b = <[k := write_result (default [] (view (backend s) !! k)) (Z.to_nat off) data]>
               (view (backend s)).
Proof.
  intros Hrel Hq Hk Hoff Hmax. unfold WriteHandler. cbn [msg keys values].
  rewrite (key_len_ok _ Hk). unfold UnpackPod.
  assert ((4 <=? List.length (le_bytes 4 off ++ data))%nat = true) as ->.
  { apply Nat.leb_le. rewrite length_app, length_le_bytes. lia. }
  rewrite take_app_length' by (by rewrite length_le_bytes).
  rewrite drop_app_length' by (by rewrite length_le_bytes).
  rewrite le_val_le_bytes_small by (change (256 ^ Z.of_nat 4) with (2 ^ 32); lia).
  cbn [mbind option_bind]. rewrite (proj2 (Z.ltb_ge _ _)) by lia. rewrite get_law.
  destruct (view (backend s) !! k) as [old|] eqn:E; cbn [Z.eqb SUCCESS NOT_EXIST negb].
  - rewrite get_law, E. rewrite ExecuteHandle_quiet, set_backend_id by done. cbn [Z.eqb SM_OK negb].
    rewrite write_value.
    destruct (put_reliable Hrel (backend s) k (write_result old (Z.to_nat off) data)) as (b & -> & Hv).
    exists b. done.
  - set (zeros := replicate _ _).
    destruct (put_reliable Hrel (backend s) k zeros) as (b1 & E1 & Hv1). rewrite E1.
    cbn [Z.eqb SUCCESS negb backend set_backend]. rewrite get_law, Hv1, lookup_insert_eq.
    rewrite ExecuteHandle_quiet by done. cbn [Z.eqb SM_OK negb].
    assert (List.length zeros = (Z.to_nat off + List.length data)%nat) as Hz by apply length_replicate.
    rewrite (proj2 (Nat.ltb_ge _ _)) by lia.
    assert (splice zeros (Z.to_nat off) data = write_result [] (Z.to_nat off) data) as ->.
    { unfold write_result. f_equal. rewrite resize_grow by (cbn; lia). cbn [List.length app].
      unfold zeros. f_equal. lia. }
    destruct (put_reliable Hrel b1 k (write_result [] (Z.to_nat off) data)) as (b & Eb & Hv).
    cbn [backend set_backend]. rewrite Eb. exists b. split; [done|]. rewrite Hv, Hv1. by rewrite insert_insert_eq.
Qed.

(** WRITE lays its bytes over the stored value at the given offset, the value
    is zero-extended when it is too short or absent, and every other byte is
    kept: the value afterwards is as long as the longer of the two, has the
    written bytes in place and the old ones elsewhere. *)
Theorem write_overlays {B} `{ConfigStoreBackend B} {laws : BackendLaws B}
    (s : @AccStoreServer B) ctx k off data :
  (∀ (b : B) k v, (bk_Put b k v 0).2 = SUCCESS) → quiet s →
  slen k ≤ MAX_KEY_LEN_SERVER → 0 ≤ off < 2 ^ 32 → off ≤ MAX_U16_INDEX * len data →
  let old := default [] (view (backend s) !! k) in
  ∃ s' v, WriteHandler s ctx (msg WRITE [k] [le_bytes 4 off ++ data]) =
      Some (s', [mkReply ctx SUCCESS (text "success")], SM_OK) ∧
    view (backend s') = <[k := v]> (view (backend s)) ∧
    List.length v = Nat.max (List.length old) (Z.to_nat off + List.length data) ∧
    (∀ i, (Z.to_nat off ≤ i < Z.to_nat off + List.length data)%nat →
       v !! i = data !! (i - Z.to_nat off)%nat) ∧
    (∀ i, (i < List.length old)%nat → (i < Z.to_nat off ∨ Z.to_nat off + List.length data ≤ i)%nat →
       v !! i = old !! i) ∧
    (∀ i, (List.length old ≤ i < Z.to_nat off)%nat → v !! i = Some Byte.x00).
Proof.
  intros Hrel Hq Hk Hoff Hmax old.
  destruct (Write_spec s ctx k off data Hrel Hq Hk Hoff Hmax) as (b & E & Hv). fold old in Hv.
  eexists _, _. split; [exact E|]. split; [exact Hv|]. unfold write_result.
  set (n := Nat.max _ _). set (o := Z.to_nat off) in *.
  assert (List.length (resize old n) = n) as Hn by apply length_resize.
  split_and!.
  - rewrite length_splice; [done|]. rewrite Hn. lia.
  - intros i Hi. rewrite lookup_splice_in by (rewrite ?Hn; lia). done.
  - intros i Hi Hout. rewrite lookup_splice_out by (rewrite ?Hn; lia).
    rewrite resize_grow by lia. by rewrite lookup_app_l.
  - intros i Hi. rewrite lookup_splice_out by (rewrite ?Hn; lia).
    rewrite resize_grow by lia. rewrite lookup_app_r by lia. apply lookup_replicate_2. lia.
Qed.

Lemma write_overlays_witness :
  ∃ s' (v : bytes), WriteHandler (server_new 8 (∅ : gmap string bytes)) (mkCtx 1 1)
      (msg WRITE ["k"%string] [le_bytes 4 2 ++ [Byte.x2a]]) =
      Some (s', [mkReply (mkCtx 1 1) SUCCESS (text "success")], SM_OK) ∧ List.length v = 3%nat.
Proof.
  destruct (write_overlays (server_new 8 (∅ : gmap string bytes)) (mkCtx 1 1) "k" 2 [Byte.x2a])
    as (s' & v & E & _ & Hl & _).
  - exact local_reliable.
  - done.
  - vm_compute. discriminate.
  - lia.
  - vm_compute. discriminate.
  - exists s', v. split; [exact E|exact Hl].
Defined.

(** A WRITE that creates a key wakes nobody: the GETs parked on it stay
    parked, although the key now exists, and get no reply. *)
Theorem write_strands_waiters {B} `{ConfigStoreBackend B} {laws : BackendLaws B}
    (s : @AccStoreServer B) ctx k off data i c :
  (∀ (b : B) k v, (bk_Put b k v 0).2 = SUCCESS) → quiet s →
  slen k ≤ MAX_KEY_LEN_SERVER → 0 ≤ off < 2 ^ 32 → off ≤ MAX_U16_INDEX * len data →
  waitCtx s !! i = Some c → w_key c = k →
  ∃ s', WriteHandler s ctx (msg WRITE [k] [le_bytes 4 off ++ data]) =
      Some (s', [mkReply ctx SUCCESS (text "success")], SM_OK) ∧
    is_Some (view (backend s') !! w_key c) ∧ waitCtx s' !! i = Some c.
Proof.
  intros Hrel Hq Hk Hoff Hmax Hc <-.
  destruct (Write_spec s ctx (w_key c) off data Hrel Hq Hk Hoff Hmax) as (b & E & Hv).
  eexists. split; [exact E|]. split; [|exact Hc]. cbn. rewrite Hv, lookup_insert_eq. eauto.
Qed.

Lemma write_strands_waiters_witness :
  ∃ s', WriteHandler parked (mkCtx 2 1) (msg WRITE ["k"%string] [le_bytes 4 0 ++ [Byte.x2a]]) =
      Some (s', [mkReply (mkCtx 2 1) SUCCESS (text "success")], SM_OK) ∧
    is_Some (view (backend s') !! "k"%string) ∧ waitCtx s' !! 1 = Some (mkWait 1 2000 "k" (mkCtx 1 1)).
Proof.
  apply (write_strands_waiters parked (mkCtx 2 1) "k" 0 [Byte.x2a] 1 (mkWait 1 2000 "k" (mkCtx 1 1))).
  - exact local_reliable.
  - done.
  - vm_compute. discriminate.
  - lia.
  - vm_compute. discriminate.
  - vm_compute. reflexivity.
  - reflexivity.
Defined.

(** ** The timer *)

(** [begin] yields some bucket of the map, if it has any. *)
Definition is_begin (begin : gmap Z (gset Z) → option (Z * gset Z)) : Prop :=
  ∀ tw, match begin tw with
        | None => tw = ∅
        | Some (t, ids) => tw !! t = Some ids
        end.
(** [begin] yields the earliest bucket, as an ordered map would. *)
Definition is_earliest (begin : gmap Z (gset Z) → option (Z * gset Z)) : Prop :=
  ∀ tw t ids, begin tw = Some (t, ids) → ∀ t' ids', tw !! t' = Some ids' → t ≤ t'.

Lemma expired_ids_spec fuel begin now tw acc tw' ids :
  is_begin begin → expired_ids fuel begin now tw acc = (tw', ids) →
  tw' ⊆ tw ∧
  (∀ i, i ∈ ids ↔ i ∈ acc ∨ ∃ t b, tw !! t = Some b ∧ i ∈ b ∧ tw' !! t = None) ∧
  (∀ t b, tw !! t = Some b → tw' !! t = None → t ≤ now).
Proof.
  intros Hb. revert tw acc. induction fuel as [|fuel IH]; intros tw acc; cbn [expired_ids].
  { intros [= <- <-]. split_and!; [done| |naive_solver]. intros i. naive_solver. }
  pose proof (Hb tw) as Ht. destruct (begin tw) as [[t b]|].
  2: { intros [= <- <-]. split_and!; [done|naive_solver|naive_solver]. }
  destruct (now <? t) eqn:E.
  { intros [= <- <-]. split_and!; [done|naive_solver|naive_solver]. }
  intros (H1 & H2 & H3)%IH. split_and!.
  - etransitivity; [exact H1|apply delete_subseteq].
  - assert (tw' !! t = None) as Hn.
    { destruct (tw' !! t) eqn:Et; [|done]. pose proof (lookup_weaken _ _ _ _ Et H1) as Hx.
      by rewrite lookup_delete_eq in Hx. }
    intros i. rewrite H2, elem_of_union. split.
    + intros [[?|?]|(t' & b' & [? ?]%lookup_delete_Some & ?)]; [by left|right; eauto|right; naive_solver].
    + intros [?|(t' & b' & Ht' & Hi & Hn')]; [by left; left|].
      destruct (decide (t' = t)) as [->|Hne]; [left; right; congruence|].
      right. exists t', b'. rewrite lookup_delete_ne by done. done.
  - intros t' b' Ht' Hn'. destruct (decide (t' = t)) as [->|Hne]; [lia|].
    eapply H3; [|done]. rewrite lookup_delete_ne by done. exact Ht'.
Qed.

Lemma expired_ids_all fuel begin now tw acc tw' ids :
  is_begin begin → is_earliest begin → (size tw ≤ fuel)%nat →
  expired_ids fuel begin now tw acc = (tw', ids) →
  ∀ t b, tw !! t = Some b → t ≤ now → tw' !! t = None.
Proof.
  intros Hb He. revert tw acc. induction fuel as [|fuel IH]; intros tw acc Hsz E t b Ht Hle.
  { assert (tw = ∅) as -> by (apply map_size_empty_inv; lia). by rewrite lookup_empty in Ht. }
  cbn [expired_ids] in E. pose proof (Hb tw) as Hbt.
  destruct (begin tw) as [[t0 b0]|] eqn:Eb; [|by rewrite Hbt, lookup_empty in Ht].
  pose proof (He _ _ _ Eb _ _ Ht). rewrite (proj2 (Z.ltb_ge now t0)) in E by lia.
  pose proof (expired_ids_spec _ _ _ _ _ _ _ Hb E) as (Hsub & _ & _).
  destruct (decide (t = t0)) as [->|Hne].
  - destruct (tw' !! t0) eqn:Et; [|done]. pose proof (lookup_weaken _ _ _ _ Et Hsub) as Hx.
    by rewrite lookup_delete_eq in Hx.
  - eapply (IH (delete t0 tw)); [|exact E| |exact Hle].
    + rewrite map_size_delete_Some by eauto. lia.
    + by rewrite lookup_delete_ne.
Qed.

Section Timer.
Context {B : Type} `{ConfigStoreBackend B} {laws : BackendLaws B}.
Implicit Types s : @AccStoreServer B.

Lemma timer_pass_spec begin e s s' out :
  is_begin begin → srv_inv s → timer_pass begin e s = (s', out) →
  srv_inv s' ∧ backend s' = backend s ∧
  (∀ i c, waitCtx s' !! i = Some c → waitCtx s !! i = Some c) ∧
  (∀ i c, waitCtx s !! i = Some c → waitCtx s' !! i = None →
     w_timeoutMs c ≤ e_now e ∧ ∃ ids, timedWaiters s !! w_timeoutMs c = Some ids ∧ i ∈ ids) ∧
  (is_earliest begin → ∀ i c ids, waitCtx s !! i = Some c →
     timedWaiters s !! w_timeoutMs c = Some ids → i ∈ ids → w_timeoutMs c ≤ e_now e →
     waitCtx s' !! i = None) ∧
  (∀ r, r ∈ out ↔ ∃ i c, waitCtx s !! i = Some c ∧ waitCtx s' !! i = None ∧
     e_established e (rq_link (w_ctx c)) = true ∧ r = mkReply (w_ctx c) TIMEOUT (text "<timeout>")).
Proof.
  intros Hb [Hi Hg] E. unfold timer_pass in E.
  destruct (expired_ids _ _ _ _ _) as [tw ids] eqn:Ex.
  pose proof (expired_ids_spec _ _ _ _ _ _ _ Hb Ex) as (Hsub & Hids & Hexp).
  assert (wait_inv (view (backend s)) (waitCtx s) (keyWaiters s) tw (idGen s)) as Hi1.
  { destruct Hi. split; try done. intros t b i Ht. eapply wi_timed0. by eapply lookup_weaken. }
  unfold GetOutWaitersInLock in E. cbn [waitCtx timedWaiters set_waiters keyWaiters idGen] in E.
  pose proof (wi_take_out _ _ _ _ _ Hi1 (elements ids) (keyWaiters s)
    (NoDup_elements _) ltac:(done) ltac:(done)) as Hto.
  destruct (foldl take_out _ _) as [[wc tw'] o]. destruct Hto as (Hi2 & Hwc & Hout).
  injection E as <- <-. cbn [waitCtx set_waiters backend].
  assert (∀ i c, waitCtx s !! i = Some c → (wc !! i = None ↔ i ∈ ids)) as Hgone.
  { intros i c Hc. rewrite <- elem_of_elements. destruct (wc !! i) as [c'|] eqn:Ec.
    - apply Hwc in Ec as [_ ?]. split; [done|tauto].
    - split; [|done]. intros _. destruct (decide (i ∈ elements ids)) as [|Hn]; [done|].
      assert (wc !! i = Some c) by (by apply Hwc). congruence. }
  split_and!.
  - split; [exact Hi2|exact Hg].
  - done.
  - intros i c Hc. by apply Hwc in Hc as [? _].
  - intros i c Hc Hn. rewrite (Hgone _ _ Hc), Hids in Hn. destruct Hn as [[]%not_elem_of_empty|(t & b & Ht & Hib & Hnt)].
    destruct (wi_timed _ _ _ _ _ Hi _ _ _ Ht Hib) as (c' & Hc' & <-). simplify_eq.
    split; [by eapply Hexp|eauto].
  - intros He i c b Hc Ht Hib Hle. apply (Hgone _ _ Hc), Hids. right.
    eexists _, _. split; [exact Ht|]. split; [done|].
    eapply (expired_ids_all _ begin); [done|done| |exact Ex|exact Ht|done]. lia.
  - intros r. rewrite list_elem_of_fmap. setoid_rewrite list_elem_of_In.
    setoid_rewrite filter_In. setoid_rewrite <- list_elem_of_In. setoid_rewrite Hout.
    setoid_rewrite list_elem_of_fmap. split.
    + intros (cx & -> & (c & -> & Hin) & Hest).
      apply list_elem_of_fmap in Hin as ([i c'] & -> & [Hc Hsel]%elem_of_map_to_list%map_lookup_filter_Some).
      cbn in *. exists i, c'. split_and!; [done| |done|done]. apply (Hgone _ _ Hc). by apply elem_of_elements.
    + intros (i & c & Hc & Hn & Hest & ->). exists (w_ctx c). split; [done|]. split; [|done].
      exists c. split; [done|]. apply list_elem_of_fmap. exists (i, c). split; [done|].
      apply elem_of_map_to_list, map_lookup_filter_Some. split; [done|]. cbn.
      apply elem_of_elements. by apply (Hgone _ _ Hc).
Qed.
End Timer.

(** One pass of the timer, whatever the iteration order of its buckets, only
    times out waiters whose deadline has passed: exactly the waiters it removes
    (and whose link is up) are answered TIMEOUT, the store and the other waiters
    are untouched and the waiter indexes stay consistent.  Visiting the buckets
    in time order, it would remove every expired timed waiter. *)
Theorem timer_only_expired {B} `{ConfigStoreBackend B} {laws : BackendLaws B}
    begin e (s s' : @AccStoreServer B) out :
  is_begin begin → srv_inv s → timer_pass begin e s = (s', out) →
  srv_inv s' ∧ backend s' = backend s ∧
  (∀ i c, waitCtx s' !! i = Some c → waitCtx s !! i = Some c) ∧
  (∀ i c, waitCtx s !! i = Some c → waitCtx s' !! i = None →
     w_timeoutMs c ≤ e_now e ∧ ∃ ids, timedWaiters s !! w_timeoutMs c = Some ids ∧ i ∈ ids) ∧
  (is_earliest begin → ∀ i c ids, waitCtx s !! i = Some c →
     timedWaiters s !! w_timeoutMs c = Some ids → i ∈ ids → w_timeoutMs c ≤ e_now e →
     waitCtx s' !! i = None) ∧
  (∀ r, r ∈ out ↔ ∃ i c, waitCtx s !! i = Some c ∧ waitCtx s' !! i = None ∧
     e_established e (rq_link (w_ctx c)) = true ∧ r = mkReply (w_ctx c) TIMEOUT (text "<timeout>")).
Proof. apply timer_pass_spec. Qed.

(** Two iteration orders of the buckets: earliest first and latest first. *)
Definition first_bucket (tw : gmap Z (gset Z)) : option (Z * gset Z) := map_begin tw.
Definition last_bucket (tw : gmap Z (gset Z)) : option (Z * gset Z) := last_where (λ _, true) tw.
Lemma first_bucket_begin : is_begin first_bucket ∧ is_earliest first_bucket.
Proof.
  unfold first_bucket, map_begin. split.
  - intros tw. destruct (first_where _ tw) as [[t ids]|] eqn:E.
    + by apply first_where_Some in E as (? & _).
    + apply map_empty. intros t. destruct (tw !! t) eqn:Et; [|done].
      by pose proof (proj1 (first_where_None _ _) E _ _ Et).
  - intros tw t ids E t' ids' Ht'. apply first_where_Some in E as (_ & _ & Hmin). eauto.
Qed.
Lemma last_bucket_begin : is_begin last_bucket.
Proof.
  intros tw. unfold last_bucket. destruct (last_where _ tw) as [[t ids]|] eqn:E.
  - by apply last_where_Some in E as (? & _).
  - apply map_empty. intros t. destruct (tw !! t) eqn:Et; [|done].
    by pose proof (proj1 (last_where_None _ _) E _ _ Et).
Qed.

Lemma timer_only_expired_witness :
  let r := timer_pass first_bucket (mkEnv (λ _, true) 3000 0) parked in
  waitCtx r.1 !! 1 = None.
Proof.
  intros r. destruct (timer_only_expired first_bucket (mkEnv (λ _, true) 3000 0) parked r.1 r.2)
    as (_ & _ & _ & _ & Hall & _).
  - apply first_bucket_begin.
  - exact parked_inv.
  - apply surjective_pairing.
  - apply (Hall (proj2 first_bucket_begin) 1 (mkWait 1 2000 "k" (mkCtx 1 1)) {[ 1 ]});
      [vm_compute; reflexivity|vm_compute; reflexivity|set_solver|cbn; lia].
Defined.

(** The buckets are kept in an unordered map and the pass stops at the first
    bucket that is not due: with an iteration order that shows a later bucket
    first, an expired waiter is neither removed nor answered, here at 3000 ms
    with a deadline of 2000 ms behind a bucket of 9000 ms. *)
Theorem timer_misses_expired :
  ∃ begin, is_begin begin ∧
  let s := enqueue_waiter parked (mkCtx 2 1) "j" 9000 true in
  timer_pass begin (mkEnv (λ _, true) 3000 0) s = (s, []) ∧
  waitCtx s !! 1 = Some (mkWait 1 2000 "k" (mkCtx 1 1)).
Proof. exists last_bucket. split; [apply last_bucket_begin|]. vm_compute. auto. Qed.

(** A client can store any value under another link's ranking key; when that
    link breaks, the value is copied over a 4-byte stack buffer whatever its
    length, here 5 bytes set for link 7. *)
Theorem link_broken_overflow :
  let s := server_new 8 (∅ : gmap string bytes) in
  ∃ s', handle env0 s (mkCtx 3 1) (msg SET ["AutoRanking#7"%string] [replicate 5 Byte.x00]) =
      Some (s', [mkReply (mkCtx 3 1) SUCCESS (text "success")], SM_OK) ∧
    LinkBrokenHandler s' 7 = None.
Proof.
  intros s. exists (set_backend s {[ "AutoRanking#7"%string := replicate 5 Byte.x00 ]}).
  split; reflexivity.
Qed.

(** When the backend refuses the write of a sum, ADD still answers SUCCESS
    with the new value (the result of Put is assigned to a shadowing variable):
    the caller is told a number that is not stored. *)
Theorem add_reports_lost_update {B} `{ConfigStoreBackend B} {laws : BackendLaws B}
    est (s : @AccStoreServer B) ctx k n old m b' :
  quiet s → slen k ≤ MAX_KEY_LEN_SERVER → I64_MIN ≤ n ≤ I64_MAX →
  view (backend s) !! k = Some old → stored_number old = Some m →
  bk_Put (backend s) k (to_string (i64 (m + n))) 0 = (b', ERROR) →
  ∃ s', AddHandler est s ctx (msg ADD [k] [to_string n]) =
      (s', [mkReply ctx SUCCESS (to_string (i64 (m + n)))], SM_OK) ∧
    view (backend s') = view (backend s).
Proof.
  intros Hq Hk Hn Ho Hm Hp. unfold AddHandler. cbn [msg keys values].
  rewrite (key_len_ok _ Hk), String2Long_to_string by done. rewrite bool_decide_true by done. cbn [negb].
  assert ((if 0 <? n then ExecuteHandle s ADD (rq_link ctx) k (to_string n)
           else (SM_OK, to_string n, backend s)) = (SM_OK, to_string n, backend s)) as ->.
  { rewrite ExecuteHandle_quiet by done. by destruct (0 <? n). }
  rewrite set_backend_id, get_law, Ho. cbn [Z.eqb SM_OK SUCCESS negb]. rewrite Hm, Hp.
  eexists. split; [reflexivity|]. cbn. apply put_law in Hp as [[? _]|[_ ?]]; done.
Qed.

(** A backend that refuses every write. *)
Record ReadOnly := mkReadOnly { ro_map : gmap string bytes }.
#[global] Instance read_only_backend : ConfigStoreBackend ReadOnly := {
  bk_Get := λ b k out, match ro_map b !! k with Some v => (SUCCESS, v) | None => (NOT_EXIST, out) end;
  bk_Put := λ b k v t, (b, ERROR);
  bk_Delete := λ b k, (mkReadOnly (delete k (ro_map b)),
                       match ro_map b !! k with Some _ => SUCCESS | None => NOT_EXIST end);
  bk_Exist := λ b k, match ro_map b !! k with Some _ => SUCCESS | None => NOT_EXIST end;
  bk_Clear := λ _, mkReadOnly ∅;
  bk_Acquire := λ b n, (b, ERROR);
  bk_Release := λ b n, (b, ERROR);
  bk_TryAcquire := λ b n t, (b, ERROR);
}.
#[global] Program Instance read_only_laws : BackendLaws ReadOnly := { view := ro_map }.
Next Obligation. done. Qed.
Next Obligation. done. Qed.
Next Obligation. intros b k v t b' rc [= <- <-]. by right. Qed.
Next Obligation. intros b k b' rc [= <- <-]. done. Qed.
Next Obligation. done. Qed.

Definition ro_server : @AccStoreServer ReadOnly :=
  server_new 8 (mkReadOnly {[ "k"%string := to_string 1 ]}).
Lemma add_reports_lost_update_witness :
  ∃ s', AddHandler (λ _, true) ro_server (mkCtx 1 1) (msg ADD ["k"%string] [to_string 2]) =
      (s', [mkReply (mkCtx 1 1) SUCCESS (to_string (i64 (1 + 2)))], SM_OK) ∧
    view (backend s') = view (backend ro_server).
Proof.
  apply (add_reports_lost_update (λ _, true) ro_server (mkCtx 1 1) "k" 2 (to_string 1) 1 (backend ro_server)).
  - done.
  - vm_compute. discriminate.
  - unfold I64_MIN, I64_MAX. lia.
  - reflexivity.
  - vm_compute. reflexivity.
  - reflexivity.
Defined.
