(* ===== verification/StoreClient.v ===== *)
(** * The store client (src/src/smem/csrc/config_store/tcp_store: smem_tcp_config_store, smem_prefix_config_store)

    Two layers of [TcpConfigStore], and the prefix store over it:
    - the operations: the request each one packs and how it reads the response.
      They are functions of [SendMessageBlocked], the call that sends a packed
      request and waits; it answers no response when the send or the link fails.
      An out parameter is [Some] value when the operation assigns it; a result
      [None] is a memory error (a response that [Unpack] reads past its end);
    - the pending requests: [msgClientContext_], with the callers blocked in
      [SendMessageBlocked] and the watches, as a state machine over the
      transport's events.

    [client_call] is one operation of the interface the group engine uses, and
    [kv_exec] what it means on the map behind the server. *)
From Stdlib Require Import Strings.Byte Strings.String.
From stdpp Require Import base numbers list gmap strings.
From S2P Require Import Prelude StrUtil MessagePacker StoreBackend StoreServer StoreServerSpec.
Local Open Scope Z_scope.
Local Open Scope mf_scope.

Definition MAX_KEY_LEN_CLIENT : Z := 1024.
Definition WORLD_SIZE_SHIFT : Z := 32.
Definition CONNECT_RETRY_MAX_TIMES : Z := 60.
Definition ACC_LINK_ERROR : Z := -11.

(** A response: the header's result and the body, if there is a data pointer. *)
Record Response := mkResp { header_result : Z; resp_data : option bytes }.

Definition bad_key (key : string) : bool := (slen key =? 0) || (MAX_KEY_LEN_CLIENT <? slen key).

(** The first value of a packed response body; [Fail] for a body that [Unpack]
    rejects or that has no value. *)
Definition response_value (data : bytes) : Parsed bytes :=
  r <- Unpack data;;
  reject_if r.2 <? 0;;
  match values r.1 with
  | [] => Fail
  | v :: _ => Val v
  end.

(** ** The operations *)
Section Ops.
Context {St : Type} (SendMessageBlocked : St → bytes → St * option Response).

Definition Set_ (st : St) (key : string) (value : bytes) : St * Z :=
  if bad_key key then (st, INVALID_KEY) else
  let '(st, response) := SendMessageBlocked st (Pack (msg SET [key] [value])) in
  match response with
  | None => (st, IO_ERROR)
  | Some response => (st, header_result response)
  end.

Definition GetReal (st : St) (key : string) (timeoutMs : Z) : St * option (Z * option bytes) :=
  if bad_key key then (st, Some (INVALID_KEY, None)) else
  let '(st, response) := SendMessageBlocked st (Pack (mkMsg GET timeoutMs [key] [])) in
  match response with
  | None => (st, Some (IO_ERROR, None))
  | Some response =>
      let responseCode := header_result response in
      if negb (responseCode =? 0) && negb (responseCode =? RESTORE)
      then (st, Some (responseCode, None)) else
      match resp_data response with
      | None => (st, Some (SM_MALLOC_FAILED, None))
      | Some data =>
          match response_value data with
          | Oob => (st, None)
          | Fail => (st, Some (-1, None))
          | Val v => (st, Some (responseCode, Some v))
          end
      end
  end.

(** [errno == ERANGE] behind [String2Int]; an empty string leaves it [stale]. *)
Definition errno_erange (stale : bool) (data : bytes) : bool :=
  match data with
  | [] => stale
  | _ => match strtoll data with Some (_, erange, _) => erange | None => false end
  end.

Definition Add (stale : bool) (st : St) (key : string) (increment : Z) : St * (Z * option Z) :=
  if bad_key key then (st, (INVALID_KEY, None)) else
  let '(st, response) := SendMessageBlocked st (Pack (msg ADD [key] [to_string increment])) in
  match response with
  | None => (st, (IO_ERROR, None))
  | Some response =>
      let responseCode := header_result response in
      if negb (responseCode =? 0) then (st, (responseCode, None)) else
      match resp_data response with
      | None => (st, (IO_ERROR, None))
      | Some data =>
          let ret := String2Long data in
          let value := default 0 ret in
          if errno_erange stale data then (st, (IO_ERROR, Some value)) else
          if ((value =? 0) && negb (bool_decide (data = text "0"))) || negb (bool_decide (is_Some ret))
          then (st, (ERROR, Some value)) else (st, (SUCCESS, Some value))
      end
  end.

Definition Remove (st : St) (key : string) : St * Z :=
  if bad_key key then (st, INVALID_KEY) else
  let '(st, response) := SendMessageBlocked st (Pack (msg REMOVE [key] [])) in
  match response with
  | None => (st, IO_ERROR)
  | Some response => (st, header_result response)
  end.

Definition Append (st : St) (key : string) (value : bytes) : St * (Z * option Z) :=
  if bad_key key then (st, (INVALID_KEY, None)) else
  let '(st, response) := SendMessageBlocked st (Pack (msg APPEND [key] [value])) in
  match response with
  | None => (st, (IO_ERROR, None))
  | Some response =>
      let responseCode := header_result response in
      if negb (responseCode =? 0) then (st, (responseCode, None)) else
      match resp_data response with
      | None => (st, (IO_ERROR, None))
      | Some data =>
          match String2Long data with
          | None => (st, (ERROR, None))
          | Some tmpValue => (st, (SUCCESS, Some (u64 tmpValue)))
          end
      end
  end.

Definition Write (st : St) (key : string) (value : bytes) (offset : Z) : St * Z :=
  if bad_key key then (st, INVALID_KEY) else
  let '(st, response) := SendMessageBlocked st (Pack (msg WRITE [key] [le_bytes 4 offset ++ value])) in
  match response with
  | None => (st, IO_ERROR)
  | Some response => (st, header_result response)
  end.

Definition Cas (st : St) (key : string) (expect value : bytes) : St * option (Z * option bytes) :=
  if bad_key key then (st, Some (INVALID_KEY, None)) else
  let '(st, response) := SendMessageBlocked st (Pack (msg CAS [key] [expect; value])) in
  match response with
  | None => (st, Some (IO_ERROR, None))
  | Some response =>
      let responseCode := header_result response in
      if negb (responseCode =? 0) then (st, Some (responseCode, None)) else
      match resp_data response with
      | None => (st, Some (SM_MALLOC_FAILED, None))
      | Some data =>
          match response_value data with
          | Oob => (st, None)
          | Fail => (st, Some (-1, None))
          | Val v => (st, Some (0, Some v))
          end
      end
  end.
End Ops.

(** ** The prefix store *)
Record PrefixConfigStore := mkPrefix { keyPrefix : string }.
Definition GetCompleteKey (p : PrefixConfigStore) (key : string) : string := (keyPrefix p ++ key)%string.
(** The core store below has the empty prefix. *)
Definition GetCommonPrefix (p : PrefixConfigStore) : string := (keyPrefix p ++ "")%string.
Definition PrefixStore (base : option PrefixConfigStore) (prefix : string) : PrefixConfigStore :=
  match base with
  | None => mkPrefix ("" ++ prefix)
  | Some base => mkPrefix (GetCommonPrefix base ++ prefix)
  end.
(** Every operation of the prefix store is the base store's at the complete key. *)
Definition at_key (p : PrefixConfigStore) (op : KvOp) : KvOp :=
  match op with
  | KSet k v => KSet (GetCompleteKey p k) v
  | KGet k => KGet (GetCompleteKey p k)
  | KAdd k n => KAdd (GetCompleteKey p k) n
  | KRemove k => KRemove (GetCompleteKey p k)
  | KAppend k v => KAppend (GetCompleteKey p k) v
  | KCas k expect value => KCas (GetCompleteKey p k) expect value
  end.

(** ** The interface: an operation's code and out parameters *)
Record Outcome := mkOut { o_code : Z; o_val : option bytes; o_num : option Z }.

Definition client_call {St} (send : St → bytes → St * option Response) (stale : bool)
    (st : St) (op : KvOp) (wait : Z) : St * option Outcome :=
  match op with
  | KSet k v => let '(st, c) := Set_ send st k v in (st, Some (mkOut c None None))
  | KGet k => let '(st, r) := GetReal send st k wait in (st, (λ r, mkOut r.1 r.2 None) <$> r)
  | KAdd k n => let '(st, (c, v)) := Add send stale st k n in (st, Some (mkOut c None v))
  | KRemove k => let '(st, c) := Remove send st k in (st, Some (mkOut c None None))
  | KAppend k v => let '(st, (c, n)) := Append send st k v in (st, Some (mkOut c None n))
  | KCas k expect value =>
      let '(st, r) := Cas send st k expect value in (st, (λ r, mkOut r.1 r.2 None) <$> r)
  end.

(** What the operation means on the stored map; [None] blocks the caller. *)
Definition kv_outcome (kv : gmap string bytes) (op : KvOp) (wait : Z) : option Outcome :=
  match op with
  | KSet _ _ => Some (mkOut SUCCESS None None)
  | KGet k =>
      match kv !! k with
      | Some v => Some (mkOut SUCCESS (Some v) None)
      | None => if wait =? 0 then Some (mkOut NOT_EXIST None None) else None
      end
  | KAdd k n =>
      match kv !! k with
      | None => Some (mkOut SUCCESS None (Some n))
      | Some v =>
          match stored_number v with
          | Some m => Some (mkOut SUCCESS None (Some (i64 (m + n))))
          | None => Some (mkOut INVALID_MESSAGE None None)
          end
      end
  | KRemove k =>
      Some (mkOut (match kv !! k with Some _ => SUCCESS | None => NOT_EXIST end) None None)
  | KAppend k v => Some (mkOut SUCCESS None (Some (len (default [] (kv !! k) ++ v))))
  | KCas k _ _ => Some (mkOut SUCCESS (Some (default [] (kv !! k))) None)
  end.
Definition kv_exec (kv : gmap string bytes) (op : KvOp) (wait : Z)
    : option (gmap string bytes * Outcome) :=
  (λ o, ((kv_apply kv op).1, o)) <$> kv_outcome kv op wait.

(** ** Connecting *)
Definition conn_rankId (worldSize rankId : Z) : Z :=
  if 0 <=? rankId then Z.lor (u64 (Z.shiftl worldSize WORLD_SIZE_SHIFT)) rankId
  else Z.lor (u64 (Z.shiftl worldSize WORLD_SIZE_SHIFT)) U32_MAX.

(** ** Pending requests

    [ClientWait] lives as long as its caller is in [SendMessageBlocked], whose
    mutex and condition variable it refers to; [cl_waiting] are those callers. *)
Inductive ClientContext :=
| ClientWait
| ClientWatchKey (key : string)
| ClientWatchRank.

Definition Blocking (c : ClientContext) : bool :=
  match c with ClientWait => true | _ => false end.
(** The watches are made with [oneTime = false]. *)
Definition OnlyOneTime (c : ClientContext) : bool :=
  match c with ClientWait => true | _ => false end.

Inductive Event :=
| Finished (seqNo : Z) (response : option Response)
| NotifyKey (seqNo : Z) (result : Z) (key : string) (value : bytes)
| NotifyRank (seqNo : Z) (rank : Z).

Record Client := mkClient {
  cl_link : bool;                               (* accClientLink_ != nullptr *)
  cl_isConnect : bool;
  msgClientContext : gmap Z ClientContext;
  cl_waiting : gset Z;
  reqSeqGen : Z;
}.

(** What the watch's callback is called with. *)
Definition notify (seqNo : Z) (c : ClientContext) (res : Z) (value : bytes) : list Event :=
  match c with
  | ClientWatchKey key => [NotifyKey seqNo res key value]
  | ClientWatchRank =>
      if (res =? SM_OK) && (len value =? 4) then [NotifyRank seqNo (le_val value)] else []
  | ClientWait => []
  end.

(** [None]: the context's caller is gone, its mutex is dead. *)
Definition SetFinished (waiting : gset Z) (seqNo : Z) (c : ClientContext) (response : Response)
    : option (list Event) :=
  match c with
  | ClientWait =>
      if decide (seqNo ∈ waiting) then Some [Finished seqNo (Some response)] else None
  | _ =>
      match resp_data response with
      | None => Some []
      | Some data =>
          match response_value data with
          | Oob => None
          | Fail => Some (notify seqNo c IO_ERROR [])
          | Val v => Some (notify seqNo c SUCCESS v)
          end
      end
  end.
Definition SetFailedFinish (waiting : gset Z) (seqNo : Z) (c : ClientContext) : option (list Event) :=
  match c with
  | ClientWait => if decide (seqNo ∈ waiting) then Some [Finished seqNo None] else None
  | _ => Some (notify seqNo c IO_ERROR [])
  end.

(** A finished caller leaves [SendMessageBlocked]. *)
Definition finished_seqs (events : list Event) : list Z :=
  omap (λ e, match e with Finished s _ => Some s | _ => None end) events.
Definition resume (c : Client) (ctxs : gmap Z ClientContext) (events : list Event) : Client :=
  mkClient (cl_link c) (cl_isConnect c) ctxs
    (cl_waiting c ∖ list_to_set (finished_seqs events)) (reqSeqGen c).

(** The transport's answer to a send and to the one retried after a reconnect. *)
Definition LocalNonBlockSend (first second : Z) : Z :=
  if first =? ACC_LINK_ERROR then second else first.

(** [std::unordered_map::emplace] keeps an entry that is there. *)
Definition ctx_emplace (m : gmap Z ClientContext) (k : Z) (c : ClientContext) : gmap Z ClientContext :=
  match m !! k with Some _ => m | None => <[k := c]> m end.

(** Up to the wait: the number of the request that now waits, or no response. *)
Definition SendMessageBlocked (c : Client) (first second : Z) : Client * option Z :=
  let seqNo := reqSeqGen c in
  let gen := seqNo +32 1 in
  if negb (cl_link c)
  then (mkClient (cl_link c) (cl_isConnect c) (msgClientContext c) (cl_waiting c) gen, None) else
  let ctxs := ctx_emplace (msgClientContext c) seqNo ClientWait in
  if negb (LocalNonBlockSend first second =? SM_OK)
  then (mkClient (cl_link c) (cl_isConnect c) ctxs (cl_waiting c) gen, None)
  else (mkClient (cl_link c) (cl_isConnect c) ctxs (cl_waiting c ∪ {[ seqNo ]}) gen, Some seqNo).

Definition SendWatchRequest (c : Client) (ctx : ClientContext) (first second : Z)
    : Client * Z * option Z :=
  let seqNo := reqSeqGen c in
  let gen := seqNo +32 1 in
  if negb (cl_link c)
  then (mkClient (cl_link c) (cl_isConnect c) (msgClientContext c) (cl_waiting c) gen,
        SM_NOT_INITIALIZED, None) else
  let c' := mkClient (cl_link c) (cl_isConnect c) (ctx_emplace (msgClientContext c) seqNo ctx)
              (cl_waiting c) gen in
  let ret := LocalNonBlockSend first second in
  if negb (ret =? SM_OK) then (c', ret, None) else (c', SM_OK, Some seqNo).

(** The packed request goes with the send. *)
Definition Watch_key (c : Client) (key : string) (first second : Z) : Client * Z * option Z :=
  if bad_key key then (c, INVALID_KEY, None) else
  SendWatchRequest c (ClientWatchKey key) first second.
Definition Watch_key_request (key : string) : bytes := Pack (msg GET [key] []).
Definition WATCH_RANK_LINK_DOWN : Z := 0.
Definition Watch_rank (c : Client) (type first second : Z) : Client * Z * option Z :=
  if negb (type =? WATCH_RANK_LINK_DOWN) then (c, SM_INVALID_PARAM, None) else
  SendWatchRequest c ClientWatchRank first second.
Definition Watch_rank_request : bytes := Pack (msg WATCH_RANK_STATE [WATCH_RANK_DOWN_KEY] []).

Definition Unwatch (c : Client) (wid : Z) : Client * Z :=
  match msgClientContext c !! wid with
  | Some ctx =>
      if Blocking ctx then (c, NOT_EXIST) else
      (mkClient (cl_link c) (cl_isConnect c) (delete wid (msgClientContext c))
         (cl_waiting c) (reqSeqGen c), SM_OK)
  | None => (c, NOT_EXIST)
  end.

Definition ReceiveResponseHandler (c : Client) (seqNo : Z) (response : Response)
    : option (Client * list Event * Z) :=
  match msgClientContext c !! seqNo with
  | None => Some (c, [], SM_ERROR)
  | Some ctx =>
      let ctxs := if OnlyOneTime ctx then delete seqNo (msgClientContext c) else msgClientContext c in
      events ← SetFinished (cl_waiting c) seqNo ctx response;
      Some (resume c ctxs events, events, SM_OK)
  end.

(** The pending contexts are taken out and failed, in any order. *)
Fixpoint fail_all (waiting : gset Z) (ctxs : list (Z * ClientContext)) : option (list Event) :=
  match ctxs with
  | [] => Some []
  | (seqNo, ctx) :: ctxs' =>
      e ← SetFailedFinish waiting seqNo ctx; es ← fail_all waiting ctxs'; Some (e ++ es)
  end.
Definition client_LinkBrokenHandler (c : Client) : option (Client * list Event * Z) :=
  events ← fail_all (cl_waiting c) (map_to_list (msgClientContext c));
  Some (resume (mkClient (cl_link c) false ∅ (cl_waiting c) (reqSeqGen c)) ∅ events, events, SM_OK).

(** [ReConnectAfterBroken]: the retries it asks for, its result, and whether the
    reconnect handler runs. *)
Definition ReConnectAfterBroken (reconnectRetryTimes : Z) (has_handler : bool) (connect : Z → Z)
    : Z * bool :=
  let retryMaxTimes := if reconnectRetryTimes <? 0 then CONNECT_RETRY_MAX_TIMES else reconnectRetryTimes in
  let result := connect retryMaxTimes in
  if negb (result =? 0) then (result, false) else (SM_OK, has_handler).

(** One round of the heart-beat thread: what it sends, with which number. *)
Definition HeartBeat (c : Client) : option (Z * bytes) :=
  if cl_isConnect c then Some (0, Pack (msg HEARTBEAT [] [])) else None.
