(* ===== verification/StoreClientSpec.v ===== *)
(** * Correctness of the store client

    - Through the packed requests and replies, each client operation is the
      operation [kv_exec] of the map behind the server.
    - Prefix stores are views of that map; stores whose prefixes do not extend
      one another do not see each other.
    - Pending requests: a blocked caller is finished once, by its response or by
      the broken link. *)
From Stdlib Require Import Strings.Byte Strings.String.
From stdpp Require Import base numbers list gmap strings.
From S2P Require Import Prelude StrUtil MessagePacker StoreBackend StoreServer StoreServerSpec StoreClient.
Local Open Scope Z_scope.

(** ** The client and the server *)
#[global] Instance ReqCtx_eq_dec : EqDecision ReqCtx.
Proof. solve_decision. Defined.

Section Link.
Context {B : Type} `{ConfigStoreBackend B} {laws : BackendLaws B}.
Context (reliable : ∀ (b : B) k v, (bk_Put b k v 0).2 = SUCCESS).
Implicit Types s : @AccStoreServer B.

(** A request delivered to the server, and the reply that carries its number. *)
Definition serve_one (e : Env) (ctx : ReqCtx) s (body : bytes) : @AccStoreServer B * option Response :=
  match ReceiveMessageHandler e s ctx (Some body) with
  | None => (s, None)
  | Some (s', replies, _) =>
      (s', (λ r, mkResp (rp_code r) (Some (rp_body r))) <$>
             List.find (λ r, bool_decide (rp_ctx r = ctx)) replies)
  end.

Lemma serve_one_own e ctx s m s' code body wakes ret :
  wf_msg m → handle e s ctx m = Some (s', mkReply ctx code body :: wakes, ret) →
  serve_one e ctx s (Pack m) = (s', Some (mkResp code (Some body))).
Proof.
  intros Hwf E. unfold serve_one. rewrite Receive_Pack, E by done. cbn [List.find rp_ctx].
  by rewrite bool_decide_true.
Qed.

Lemma response_value_Pack t v : len v ≤ MAX_VALUE_SIZE → response_value (Pack (msg t [] [v])) = Val v.
Proof.
  intros Hv. unfold response_value.
  assert (wf_msg (msg t [] [v])) as Hwf.
  { unfold wf_msg, MAX_KEY_COUNT, MAX_VALUE_COUNT. cbn [userDef keys values msg]. split_and!; try lia.
    - unfold len; cbn; lia.
    - constructor.
    - unfold len; cbn; lia.
    - by repeat constructor. }
  pose proof (Unpack_Pack _ [] Hwf) as E. rewrite app_nil_r in E. rewrite E. cbn [p_bind fst snd].
  rewrite (proj2 (Z.ltb_ge _ _)) by apply len_nonneg. done.
Qed.

Lemma add_reads_number stale z :
  I64_MIN ≤ z ≤ I64_MAX →
  String2Long (to_string z) = Some z ∧ errno_erange stale (to_string z) = false ∧
  ((z =? 0) && negb (bool_decide (to_string z = text "0"))) = false.
Proof.
  intros Hz. pose proof (String2Long_to_string z Hz) as E. split_and!; [done| |].
  - unfold errno_erange. unfold String2Long, String2Int in E.
    destruct (to_string z) as [|b l]; [done|].
    destruct (strtoll (b :: l)) as [[[r er] rest]|]; [|done].
    destruct (negb (at_end rest)); [done|]. by destruct er.
  - destruct (z =? 0) eqn:E0; [|done]. apply Z.eqb_eq in E0 as ->. vm_compute. done.
Qed.

(** The reply of a refined handler is the response the client sees. *)
Lemma op_response e ctx s op wait code body :
  srv_inv s → quiet s → op_ok op → op_small op → wait ≠ 0 → - 2 ^ 63 ≤ wait < 2 ^ 63 →
  idGen s < 2 ^ 64 - 2 → (kv_apply (view (backend s)) op).2 = Some (code, body) →
  ∃ s', serve_one e ctx s (Pack (op_msg op wait)) = (s', Some (mkResp code (Some body))) ∧
    view (backend s') = (kv_apply (view (backend s)) op).1 ∧ srv_inv s' ∧ quiet s'.
Proof.
  intros Hi Hq Hok Hsm Hw Hr Hg Ha.
  destruct (handle_refines reliable e s ctx op wait Hi Hq Hok Hw Hg)
    as (s' & wakes & ret & E & Hv & Hi' & Hq' & _).
  rewrite Ha in E. cbn [own_reply app] in E. exists s'. split_and!; [|done..].
  eapply serve_one_own; [|exact E]. by apply op_msg_wf.
Qed.

(** A GET that finds its key, or that does not wait. *)
Lemma get_response e ctx s k wait :
  quiet s → op_ok (KGet k) → - 2 ^ 63 ≤ wait < 2 ^ 63 →
  (is_Some (view (backend s) !! k) ∨ wait = 0) →
  serve_one e ctx s (Pack (mkMsg GET wait [k] [])) =
    (s, Some match view (backend s) !! k with
             | Some v => mkResp SUCCESS (Some (Pack (msg GET [] [v])))
             | None => mkResp NOT_EXIST (Some (text "<not exist>"))
             end).
Proof.
  intros Hq Hok Hr Ha. pose proof (op_msg_wf (KGet k) wait Hok I Hr) as Hwf. destruct Hok as [Hk Hp].
  assert (∃ code body ret,
    GetHandler (e_now e) s ctx (mkMsg GET wait [k] []) = Some (s, [mkReply ctx code body], ret) ∧
    mkResp code (Some body) = match view (backend s) !! k with
             | Some v => mkResp SUCCESS (Some (Pack (msg GET [] [v])))
             | None => mkResp NOT_EXIST (Some (text "<not exist>"))
             end) as (code & body & ret & E & <-).
  { unfold GetHandler. cbn [keys values userDef op_key] in *. rewrite (key_len_ok _ Hk), Hp, get_law.
    destruct (view (backend s) !! k) as [v|]; cbn [Z.eqb SUCCESS NOT_EXIST].
    - eexists _, _, _. done.
    - destruct Ha as [[? ?]| ->]; [done|].
      rewrite ExecuteHandle_quiet, set_backend_id by done. eexists _, _, _. done. }
  by eapply serve_one_own.
Qed.

Lemma i64_bounds z : I64_MIN ≤ i64 z ≤ I64_MAX.
Proof. pose proof (i64_range z). unfold I64_MIN, I64_MAX. lia. Qed.

Definition stored_small s (k : string) : Prop :=
  ∀ v, view (backend s) !! k = Some v → len v ≤ MAX_VALUE_SIZE.

Section Calls.
Context (e : Env) (ctx : ReqCtx) (stale : bool) (s : @AccStoreServer B).
Context (Hi : srv_inv s) (Hq : quiet s) (Hg : idGen s < 2 ^ 64 - 2).
Local Abbreviation kv := (view (backend s)).
Local Abbreviation call := (client_call (serve_one e ctx) stale s).
Definition returns (r : @AccStoreServer B * option Outcome) (kv' : gmap string bytes) (o : Outcome) : Prop :=
  ∃ s', r = (s', Some o) ∧ view (backend s') = kv' ∧ srv_inv s' ∧ quiet s'.

Lemma own_response op code body :
  op_ok op → op_small op → (kv_apply kv op).2 = Some (code, body) →
  ∃ s', serve_one e ctx s (Pack (op_msg op (-1))) = (s', Some (mkResp code (Some body))) ∧
    view (backend s') = (kv_apply kv op).1 ∧ srv_inv s' ∧ quiet s'.
Proof. intros. apply op_response; done || lia. Qed.

Lemma call_Set k v wait :
  op_ok (KSet k v) → op_small (KSet k v) → bad_key k = false →
  returns (call (KSet k v) wait) (<[k := v]> kv) (mkOut SUCCESS None None).
Proof.
  intros Hok Hsm Hkey. destruct (own_response _ _ _ Hok Hsm eq_refl) as (s' & E & Hs').
  exists s'. split; [|exact Hs']. cbn [client_call]. unfold Set_. cbn [op_msg] in E. by rewrite Hkey, E.
Qed.

Lemma call_Get k wait o :
  op_ok (KGet k) → bad_key k = false → stored_small s k → - 2 ^ 63 ≤ wait < 2 ^ 63 →
  kv_outcome kv (KGet k) wait = Some o → returns (call (KGet k) wait) kv o.
Proof.
  intros Hok Hkey Hst Hr Ho. exists s. split; [|done]. cbn [client_call]. unfold GetReal.
  rewrite Hkey, get_response; [|done..|].
  - cbn [kv_outcome] in Ho. destruct (kv !! k) as [v|] eqn:Ev.
    + cbn [header_result resp_data Z.eqb SUCCESS negb andb].
      rewrite response_value_Pack by eauto. by injection Ho as <-.
    + destruct (wait =? 0); [|done]. by injection Ho as <-.
  - cbn [kv_outcome] in Ho. destruct (kv !! k); [eauto|]. destruct (Z.eqb_spec wait 0); [by right|done].
Qed.

Lemma call_Add k n wait o :
  op_ok (KAdd k n) → bad_key k = false → kv_outcome kv (KAdd k n) wait = Some o →
  returns (call (KAdd k n) wait) (kv_apply kv (KAdd k n)).1 o.
Proof.
  intros Hok Hkey Ho. pose proof (proj2 Hok) as Hn. cbn in Hn.
  assert (∃ code body, (kv_apply kv (KAdd k n)).2 = Some (code, body) ∧
    ((∃ z, I64_MIN ≤ z ≤ I64_MAX ∧ code = SUCCESS ∧ body = to_string z ∧ o = mkOut SUCCESS None (Some z)) ∨
     (code = INVALID_MESSAGE ∧ o = mkOut INVALID_MESSAGE None None))) as (code & body & Ha & Hcase).
  { cbn [kv_apply kv_outcome] in *. destruct (kv !! k) as [v|].
    - destruct (stored_number v) as [m|]; injection Ho as <-; eexists _, _; (split; [done|]).
      + left. eexists. split; [apply i64_bounds|done].
      + right. done.
    - injection Ho as <-. eexists _, _. split; [done|]. left. eauto. }
  destruct (own_response _ _ _ Hok I Ha) as (s' & E & Hs'). exists s'. split; [|exact Hs'].
  cbn [client_call]. unfold Add. cbn [op_msg] in E. rewrite Hkey, E. cbn [header_result resp_data].
  destruct Hcase as [(z & Hz & -> & -> & ->)|[-> ->]]; [|done]. cbn [Z.eqb SUCCESS negb].
  destruct (add_reads_number stale z Hz) as (-> & -> & Hzero). cbn [default from_option id].
  rewrite Hzero. rewrite bool_decide_true by eauto. done.
Qed.

Lemma call_Remove k wait o :
  op_ok (KRemove k) → bad_key k = false → kv_outcome kv (KRemove k) wait = Some o →
  returns (call (KRemove k) wait) (kv_apply kv (KRemove k)).1 o.
Proof.
  intros Hok Hkey Ho.
  assert (∃ body, (kv_apply kv (KRemove k)).2 = Some (o_code o, body) ∧ o = mkOut (o_code o) None None)
    as (body & Ha & ->).
  { cbn [kv_apply kv_outcome] in *. destruct (kv !! k); injection Ho as <-; eauto. }
  destruct (own_response _ _ _ Hok I Ha) as (s' & E & Hs'). exists s'. split; [|exact Hs'].
  cbn [client_call]. unfold Remove. cbn [op_msg] in E. by rewrite Hkey, E.
Qed.

Lemma call_Append k v wait :
  op_ok (KAppend k v) → op_small (KAppend k v) → bad_key k = false → stored_small s k →
  returns (call (KAppend k v) wait) (kv_apply kv (KAppend k v)).1
    (mkOut SUCCESS None (Some (len (default [] (kv !! k) ++ v)))).
Proof.
  intros Hok Hsm Hkey Hst. destruct (own_response _ _ _ Hok Hsm eq_refl) as (s' & E & Hs').
  exists s'. split; [|exact Hs']. cbn [client_call]. unfold Append. cbn [op_msg] in E. rewrite Hkey, E.
  cbn [header_result resp_data Z.eqb SUCCESS negb].
  assert (0 ≤ len (default [] (kv !! k) ++ v) ≤ 2 * MAX_VALUE_SIZE) as Hlen.
  { split; [apply len_nonneg|]. rewrite len_app. cbn in Hsm. unfold stored_small in Hst.
    destruct (kv !! k) as [old|]; cbn [default from_option id].
    - specialize (Hst _ eq_refl). lia.
    - change (len (@nil byte)) with 0. unfold MAX_VALUE_SIZE in *. lia. }
  unfold MAX_VALUE_SIZE in Hlen.
  rewrite String2Long_to_string by (unfold I64_MIN, I64_MAX; lia). by rewrite u64_small by lia.
Qed.

Lemma call_Cas k a b wait :
  op_ok (KCas k a b) → op_small (KCas k a b) → bad_key k = false → stored_small s k →
  returns (call (KCas k a b) wait) (kv_apply kv (KCas k a b)).1
    (mkOut SUCCESS (Some (default [] (kv !! k))) None).
Proof.
  intros Hok Hsm Hkey Hst. destruct (own_response _ _ _ Hok Hsm eq_refl) as (s' & E & Hs').
  exists s'. split; [|exact Hs']. cbn [client_call]. unfold Cas. cbn [op_msg] in E. rewrite Hkey, E.
  cbn [header_result resp_data Z.eqb SUCCESS negb]. rewrite response_value_Pack; [done|].
  unfold stored_small in Hst. destruct (kv !! k) as [old|]; cbn; [by apply Hst|vm_compute; discriminate].
Qed.

Lemma client_call_exec op wait kv' o :
  op_ok op → op_small op → bad_key (op_key op) = false → stored_small s (op_key op) →
  - 2 ^ 63 ≤ wait < 2 ^ 63 → kv_exec kv op wait = Some (kv', o) → returns (call op wait) kv' o.
Proof.
  intros Hok Hsm Hkey Hst Hr Hx. unfold kv_exec in Hx. apply fmap_Some in Hx as (o' & Ho & [= -> ->]).
  destruct op as [k v|k|k n|k|k v|k a b]; cbn [op_key] in *.
  - injection Ho as <-. by apply call_Set.
  - assert ((kv_apply kv (KGet k)).1 = kv) as -> by (cbn; by destruct (kv !! k)). by apply call_Get.
  - by eapply call_Add.
  - by eapply call_Remove.
  - injection Ho as <-. by apply call_Append.
  - injection Ho as <-. by apply call_Cas.
Qed.
End Calls.
End Link.

(** ** Prefixes *)
Lemma string_prefix_app p q a b :
  (p ++ a)%string = (q ++ b)%string → String.prefix p q = true ∨ String.prefix q p = true.
Proof.
  revert q. induction p as [|x p IH]; intros [|y q]; cbn; [tauto..|].
  intros [= -> E]. destruct (Ascii.ascii_dec y y); [|done]. eauto.
Qed.

Lemma str_app_nil_r (a : string) : (a ++ "")%string = a.
Proof. induction a as [|x a IH]; [done|]. exact (f_equal (String x) IH). Qed.
Lemma str_app_assoc (a b c : string) : ((a ++ b) ++ c)%string = (a ++ (b ++ c))%string.
Proof. induction a as [|x a IH]; [done|]. exact (f_equal (String x) IH). Qed.

Lemma op_key_at_key p op : op_key (at_key p op) = GetCompleteKey p (op_key op).
Proof. by destruct op. Qed.

(** An operation touches its own key only, and depends on nothing else. *)
Lemma kv_apply_other kv op k : k ≠ op_key op → (kv_apply kv op).1 !! k = kv !! k.
Proof.
  intros Hne. destruct op; cbn [op_key kv_apply] in *; repeat case_match; cbn [fst];
    rewrite ?lookup_insert_ne, ?lookup_delete_ne by congruence; done.
Qed.
Lemma kv_apply_at_key p kv sub op :
  sub !! op_key op = kv !! GetCompleteKey p (op_key op) →
  (kv_apply sub op).1 !! op_key op = (kv_apply kv (at_key p op)).1 !! GetCompleteKey p (op_key op).
Proof.
  intros E. destruct op; cbn [op_key kv_apply at_key] in *; rewrite <- ?E; repeat case_match; cbn [fst];
    rewrite ?lookup_insert_eq, ?lookup_delete_eq; congruence.
Qed.
Lemma kv_outcome_at_key p kv sub op wait :
  sub !! op_key op = kv !! GetCompleteKey p (op_key op) →
  kv_outcome kv (at_key p op) wait = kv_outcome sub op wait.
Proof. intros E. destruct op; cbn [op_key kv_outcome at_key] in *; by rewrite <- ?E. Qed.

(** ** Pending requests *)
Inductive ClientStep :=
| CSend (first second : Z)
| CWatch (ctx : ClientContext) (first second : Z)
| CUnwatch (wid : Z)
| CResponse (seqNo : Z) (response : Response)
| CBroken.

(** The client behind the step, the events, and the caller that began to wait. *)
Definition pending_step (c : Client) (st : ClientStep) : option (Client * list Event * option Z) :=
  match st with
  | CSend first second => let '(c', w) := SendMessageBlocked c first second in Some (c', [], w)
  | CWatch ctx first second => Some ((SendWatchRequest c ctx first second).1.1, [], None)
  | CUnwatch wid => Some ((Unwatch c wid).1, [], None)
  | CResponse seqNo response =>
      '(c', es, _) ← ReceiveResponseHandler c seqNo response; Some (c', es, None)
  | CBroken => '(c', es, _) ← client_LinkBrokenHandler c; Some (c', es, None)
  end.
Fixpoint client_run (c : Client) (sts : list ClientStep) : option (Client * list Event * list Z) :=
  match sts with
  | [] => Some (c, [], [])
  | st :: sts' =>
      '(c1, es, w) ← pending_step c st;
      '(c2, es', ws) ← client_run c1 sts';
      Some (c2, es ++ es', option_list w ++ ws)
  end.

(** A blocking send is accepted by the transport; a response is well formed. *)
Definition step_ok (st : ClientStep) : Prop :=
  match st with
  | CSend first second => LocalNonBlockSend first second = SM_OK
  | CWatch ctx _ _ => Blocking ctx = false
  | CResponse _ r => ∀ data, resp_data r = Some data → response_value data ≠ Oob
  | _ => True
  end.

Record cl_inv (c : Client) : Prop := {
  ci_waiting : ∀ s, s ∈ cl_waiting c ↔ msgClientContext c !! s = Some ClientWait;
  ci_gen : ∀ s x, msgClientContext c !! s = Some x → s < reqSeqGen c;
  ci_range : 0 ≤ reqSeqGen c;
}.

Lemma ctx_emplace_fresh m k c : m !! k = None → ctx_emplace m k c = <[k := c]> m.
Proof. unfold ctx_emplace. by intros ->. Qed.

Lemma ci_fresh c : cl_inv c → msgClientContext c !! reqSeqGen c = None.
Proof.
  intros Hc. destruct (_ !! _) as [x|] eqn:E; [|done]. apply (ci_gen _ Hc) in E. lia.
Qed.

(** Adding a context under the next number. *)
Lemma ci_emplace c x waiting :
  cl_inv c → waiting = (if Blocking x then cl_waiting c ∪ {[ reqSeqGen c ]} else cl_waiting c) →
  cl_inv (mkClient (cl_link c) (cl_isConnect c) (ctx_emplace (msgClientContext c) (reqSeqGen c) x)
            waiting (reqSeqGen c + 1)).
Proof.
  intros Hc ->. pose proof (ci_fresh _ Hc) as Hf. rewrite ctx_emplace_fresh by done.
  destruct Hc as [Hw Hg Hr]. split; cbn [cl_waiting msgClientContext reqSeqGen].
  - intros s. rewrite lookup_insert. case_decide as E.
    + subst s. destruct x; cbn [Blocking]; [set_solver|..]; (split; [|done]); rewrite Hw; congruence.
    + destruct (Blocking x); rewrite <- Hw; set_solver.
  - intros s y. rewrite lookup_insert. case_decide; [lia|]. intros Hy%Hg. lia.
  - lia.
Qed.

Lemma fail_all_spec waiting l :
  (∀ s x, (s, x) ∈ l → Blocking x = true → s ∈ waiting) → NoDup l.*1 →
  ∃ es, fail_all waiting l = Some es ∧ NoDup (finished_seqs es) ∧
    ∀ s, s ∈ finished_seqs es ↔ (s, ClientWait) ∈ l.
Proof.
  induction l as [|[s x] l IH]; intros Hw Hnd; cbn [fail_all].
  { exists []. split; [done|]. split; [constructor|]. intros s. split; by intros []%elem_of_nil. }
  cbn in Hnd. apply NoDup_cons in Hnd as [Hni Hnd].
  destruct IH as (es & -> & Hn & Hin); [intros ?? Hin; apply Hw; by right|done|].
  assert (∃ e, SetFailedFinish waiting s x = Some e ∧
    finished_seqs e = if Blocking x then [s] else []) as (e & -> & He).
  { destruct x; cbn [SetFailedFinish Blocking notify].
    - rewrite decide_True by (apply (Hw s ClientWait); [by left|done]). eauto.
    - eauto.
    - cbn. eauto. }
  cbn [mbind option_bind]. eexists. split; [done|].
  unfold finished_seqs in *. rewrite omap_app, He.
  assert (s ∉ omap (λ e, match e with Finished s _ => Some s | _ => None end) es) as Hns.
  { rewrite Hin. intros Hx. apply Hni. apply list_elem_of_fmap. by exists (s, ClientWait). }
  split.
  - destruct (Blocking x); [by constructor|done].
  - intros s'. rewrite elem_of_app, Hin, elem_of_cons.
    destruct x; cbn [Blocking]; rewrite ?list_elem_of_singleton, ?elem_of_nil; naive_solver.
Qed.

Definition step_spec (c c' : Client) (es : list Event) (w : option Z) : Prop :=
  cl_inv c' ∧ reqSeqGen c ≤ reqSeqGen c' ≤ reqSeqGen c + 1 ∧
  NoDup (finished_seqs es) ∧ (∀ s, s ∈ finished_seqs es → s ∈ cl_waiting c) ∧
  (∀ s, s ∈ cl_waiting c' ↔ (s ∈ cl_waiting c ∧ s ∉ finished_seqs es) ∨ w = Some s) ∧
  (∀ s, w = Some s → s = reqSeqGen c ∧ reqSeqGen c' = reqSeqGen c + 1).

(** A step that finishes nobody and starts no wait. *)
Lemma quiet_step c c' :
  cl_inv c' → reqSeqGen c ≤ reqSeqGen c' ≤ reqSeqGen c + 1 → cl_waiting c' = cl_waiting c →
  step_spec c c' [] None.
Proof.
  intros Hi Hg Hw. split_and!; [done|lia|lia|constructor| | |done].
  - by intros s []%elem_of_nil.
  - intros s. rewrite Hw. split; [|naive_solver]. intros Hs. left. split; [done|apply not_elem_of_nil].
Qed.

Lemma ci_skip c :
  cl_inv c → cl_inv (mkClient (cl_link c) (cl_isConnect c) (msgClientContext c) (cl_waiting c) (reqSeqGen c + 1)).
Proof. intros [Hw Hg Hr]. split; cbn; [done| |lia]. intros s x Hx%Hg. lia. Qed.

Lemma send_step c first second :
  cl_inv c → reqSeqGen c < 2 ^ 32 - 1 → LocalNonBlockSend first second = SM_OK →
  ∃ c' w, SendMessageBlocked c first second = (c', w) ∧ step_spec c c' [] w.
Proof.
  intros Hi Hg Hs. pose proof (ci_range _ Hi). unfold SendMessageBlocked. rewrite Hs, u32_small by lia.
  destruct (cl_link c) eqn:El; cbn [negb Z.eqb SM_OK].
  - eexists _, _. split; [reflexivity|]. rewrite <- El.
    split_and!; cbn [reqSeqGen cl_waiting]; try lia; [by apply ci_emplace|constructor| | |].
    + by intros s []%elem_of_nil.
    + intros s. rewrite elem_of_union, elem_of_singleton. split; [|naive_solver].
      intros [?| ->]; [left; split; [done|apply not_elem_of_nil]|by right].
    + intros s [= <-]. done.
  - eexists _, _. split; [reflexivity|]. rewrite <- El. by apply quiet_step; [apply ci_skip|cbn; lia|].
Qed.

Lemma watch_step c x first second :
  cl_inv c → reqSeqGen c < 2 ^ 32 - 1 → Blocking x = false →
  step_spec c (SendWatchRequest c x first second).1.1 [] None.
Proof.
  intros Hi Hg Hx. pose proof (ci_range _ Hi). unfold SendWatchRequest. rewrite u32_small by lia.
  destruct (cl_link c) eqn:El; cbn [negb]; rewrite <- El.
  - assert (step_spec c (mkClient (cl_link c) (cl_isConnect c)
      (ctx_emplace (msgClientContext c) (reqSeqGen c) x) (cl_waiting c) (reqSeqGen c + 1)) [] None) as Hq.
    { apply quiet_step; [|cbn; lia|done]. apply ci_emplace; [done|]. by rewrite Hx. }
    by destruct (negb _).
  - by apply quiet_step; [apply ci_skip|cbn; lia|].
Qed.

Lemma unwatch_step c wid : cl_inv c → step_spec c (Unwatch c wid).1 [] None.
Proof.
  intros Hi. unfold Unwatch. assert (step_spec c c [] None) as Hq by (apply quiet_step; [done|lia|done]).
  destruct (_ !! wid) as [x|] eqn:E; [|done]. destruct (Blocking x) eqn:Eb; [done|].
  apply quiet_step; cbn; [|lia|done]. destruct Hi as [Hw Hg Hr]. split; cbn; [| |lia].
  - intros s. rewrite Hw, lookup_delete. case_decide; [|done]. subst. rewrite E. split; [|done].
    intros [= ->]. done.
  - intros s y [_ Hy]%lookup_delete_Some. eauto.
Qed.

(** Taking contexts out together with the callers they belong to. *)
Lemma finish_step c ctxs es :
  cl_inv c → ctxs ⊆ msgClientContext c → NoDup (finished_seqs es) →
  (∀ s, s ∈ finished_seqs es ↔ msgClientContext c !! s = Some ClientWait ∧ ctxs !! s = None) →
  step_spec c (resume c ctxs es) es None.
Proof.
  intros [Hw Hg Hr] Hsub Hnd Hfin. unfold resume.
  split_and!; cbn [reqSeqGen cl_waiting]; try lia; [|done| | |done].
  - split; cbn [cl_waiting msgClientContext reqSeqGen]; [| |lia].
    + intros s. rewrite elem_of_difference, elem_of_list_to_set, Hfin, Hw.
      destruct (ctxs !! s) as [x|] eqn:E; [|naive_solver].
      pose proof (lookup_weaken _ _ _ _ E Hsub). naive_solver.
    + intros s x Hx. eapply Hg. by eapply lookup_weaken.
  - intros s [Hs _]%Hfin. by apply Hw.
  - intros s. rewrite elem_of_difference, elem_of_list_to_set. naive_solver.
Qed.

Lemma response_step c seqNo r :
  cl_inv c → (∀ data, resp_data r = Some data → response_value data ≠ Oob) →
  ∃ c' es rc, ReceiveResponseHandler c seqNo r = Some (c', es, rc) ∧ step_spec c c' es None.
Proof.
  intros Hi Hr. unfold ReceiveResponseHandler. destruct (msgClientContext c !! seqNo) as [x|] eqn:E.
  2: { eexists _, _, _. split; [done|]. apply quiet_step; [done|lia|done]. }
  assert (∃ es, SetFinished (cl_waiting c) seqNo x r = Some es ∧
    finished_seqs es = if Blocking x then [seqNo] else []) as (es & Es & Hes).
  { destruct x; cbn [SetFinished Blocking].
    - rewrite decide_True by (by apply (ci_waiting _ Hi)). eauto.
    - destruct (resp_data r) as [d|]; [|eauto]. specialize (Hr d eq_refl).
      destruct (response_value d); [| |done]; cbn; eauto.
    - destruct (resp_data r) as [d|]; [|eauto]. specialize (Hr d eq_refl).
      destruct (response_value d); [| |done]; cbn [notify]; [case_match|]; eauto. }
  rewrite Es. cbn [mbind option_bind]. eexists _, _, _. split; [reflexivity|]. apply finish_step; [done| | |].
  - destruct (OnlyOneTime x); [apply delete_subseteq|done].
  - rewrite Hes. destruct (Blocking x); [apply NoDup_singleton|constructor].
  - intros s. rewrite Hes.
    destruct x; cbn [Blocking OnlyOneTime]; rewrite ?list_elem_of_singleton, ?elem_of_nil, ?lookup_delete_None;
      [|naive_solver..].
    split; [intros ->; by auto|]. intros [Hs [->|Hn]]; [done|]. congruence.
Qed.

Lemma broken_step c :
  cl_inv c → ∃ c' es rc, client_LinkBrokenHandler c = Some (c', es, rc) ∧ step_spec c c' es None ∧
    cl_waiting c' = ∅.
Proof.
  intros Hi. unfold client_LinkBrokenHandler.
  destruct (fail_all_spec (cl_waiting c) (map_to_list (msgClientContext c))) as (es & -> & Hnd & Hin).
  { intros s x Hx%elem_of_map_to_list Hb. apply (ci_waiting _ Hi). by destruct x. }
  { apply NoDup_fst_map_to_list. }
  cbn [mbind option_bind]. eexists _, _, _. split; [reflexivity|].
  assert (∀ s, s ∈ finished_seqs es ↔ msgClientContext c !! s = Some ClientWait) as Hfin.
  { intros s. by rewrite Hin, elem_of_map_to_list. }
  destruct (finish_step c ∅ es Hi (map_empty_subseteq _) Hnd) as ([H1 H2 H3] & Hrest).
  { intros s. rewrite Hfin, lookup_empty. tauto. }
  split; [split; [by split|exact Hrest]|]. apply set_eq. intros s. cbn.
  rewrite elem_of_difference, elem_of_list_to_set, Hfin, (ci_waiting _ Hi). set_solver.
Qed.

Lemma pending_step_inv c st :
  cl_inv c → step_ok st → reqSeqGen c < 2 ^ 32 - 1 →
  ∃ c' es w, pending_step c st = Some (c', es, w) ∧ step_spec c c' es w.
Proof.
  intros Hi Hok Hg. destruct st; cbn [pending_step step_ok] in *.
  - destruct (send_step c first second Hi Hg Hok) as (c' & w & -> & Hs). eauto 6.
  - eexists _, _, _. split; [done|]. by apply watch_step.
  - eexists _, _, _. split; [done|]. by apply unwatch_step.
  - destruct (response_step c seqNo response Hi Hok) as (c' & es & rc & -> & Hs). eexists _, _, _. done.
  - destruct (broken_step c Hi) as (c' & es & rc & -> & Hs & _). eexists _, _, _. done.
Qed.

Lemma client_run_inv sts c :
  cl_inv c → Forall step_ok sts → reqSeqGen c + len sts < 2 ^ 32 →
  ∃ c' es ws, client_run c sts = Some (c', es, ws) ∧ cl_inv c' ∧
    NoDup (finished_seqs es) ∧
    (∀ s, s ∈ finished_seqs es → s ∈ cl_waiting c ∨ reqSeqGen c ≤ s) ∧
    (∀ s, s ∈ ws → reqSeqGen c ≤ s) ∧
    (∀ s, s ∈ cl_waiting c' ↔ (s ∈ cl_waiting c ∨ s ∈ ws) ∧ s ∉ finished_seqs es) ∧
    (∀ s, s ∈ finished_seqs es → s ∈ cl_waiting c ∨ s ∈ ws).
Proof.
  intros Hi Hok. revert c Hi. induction Hok as [|st sts Hst _ IH]; intros c Hi Hg.
  { exists c, [], []. split; [done|]. split; [done|]. split; [constructor|].
    split_and!; intros s; rewrite ?elem_of_nil; tauto. }
  assert (len (st :: sts) = 1 + len sts) as Hl by (unfold len; cbn [List.length]; lia).
  pose proof (len_nonneg sts). pose proof (ci_range _ Hi).
  destruct (pending_step_inv c st Hi Hst ltac:(lia)) as (c1 & es & w & E & Hi1 & Hg1 & Hnd & Hsub & Hw & Hws).
  destruct (IH c1 Hi1 ltac:(lia)) as (c2 & es' & ws & E' & Hi2 & Hnd' & Hold & Hnew & Hw' & Hfin).
  cbn [client_run]. rewrite E. cbn [mbind option_bind]. rewrite E'. cbn [mbind option_bind].
  eexists _, _, _. split; [done|]. split; [done|].
  unfold finished_seqs in *. rewrite omap_app.
  set (f := omap _ es) in *. set (f' := omap _ es') in *.
  assert (∀ s, s ∈ cl_waiting c → s < reqSeqGen c) as Hlt.
  { intros s Hs%(ci_waiting _ Hi). by eapply ci_gen. }
  assert (∀ s, s ∈ option_list w ↔ w = Some s) as Hol.
  { intros s. destruct w; cbn; [rewrite list_elem_of_singleton; naive_solver|].
    rewrite elem_of_nil. naive_solver. }
  split_and!.
  - apply NoDup_app. split_and!; [done| |done]. intros s Hs Hs'.
    apply Hold in Hs' as [Hs'|Hs']; [apply Hw in Hs' as [[_ ?]| ->]; [done|]|].
    + apply Hsub, Hlt in Hs. destruct (Hws s eq_refl). lia.
    + apply Hsub, Hlt in Hs. lia.
  - intros s [Hs|Hs]%elem_of_app; [by left; apply Hsub|].
    apply Hold in Hs as [Hs|Hs]; [|right; lia].
    apply Hw in Hs as [[? _]| ->]; [by left|]. destruct (Hws s eq_refl). right; lia.
  - intros s [Hs|Hs]%elem_of_app; [|apply Hnew in Hs; lia]. apply Hol in Hs as ->.
    destruct (Hws s eq_refl). lia.
  - intros s. rewrite Hw', Hw, !elem_of_app, Hol.
    assert (s ∈ f → w = Some s → False) as Hx.
    { intros Hs ->. apply Hsub, Hlt in Hs. destruct (Hws s eq_refl). lia. }
    assert (s ∈ f → s ∈ ws → False) as Hy.
    { intros Hs Hs2%Hnew. apply Hsub, Hlt in Hs. lia. }
    tauto.
  - intros s. rewrite !elem_of_app, Hol. intros [Hs|Hs]; [by left; apply Hsub|].
    apply Hfin in Hs as [Hs|Hs]; [|tauto]. apply Hw in Hs. tauto.
Qed.

(** * Properties *)

(** C25: the client, the wire format and the server together are the key-value
    map.  Whatever SET, GET, ADD, REMOVE, APPEND or CAS a client calls with a
    valid key, when the map has an answer, the packed request is served and the
    packed reply is read back as exactly the specified code and out parameters,
    and the map behind the server is the specified one. *)
Theorem client_is_kv {B} `{ConfigStoreBackend B} {laws : BackendLaws B}
    e ctx stale (s : @AccStoreServer B) op wait kv' o :
  (∀ (b : B) k v, (bk_Put b k v 0).2 = SUCCESS) →
  srv_inv s → quiet s → idGen s < 2 ^ 64 - 2 →
  op_ok op → op_small op → bad_key (op_key op) = false → stored_small s (op_key op) →
  - 2 ^ 63 ≤ wait < 2 ^ 63 → kv_exec (view (backend s)) op wait = Some (kv', o) →
  ∃ s', client_call (serve_one e ctx) stale s op wait = (s', Some o) ∧
    view (backend s') = kv' ∧ srv_inv s' ∧ quiet s'.
Proof. intros. by eapply client_call_exec. Qed.

Lemma client_is_kv_witness :
  let s := set_backend (server_new 8 (∅ : gmap string bytes)) {[ "k"%string := to_string 41 ]} in
  ∃ s', client_call (serve_one env0 (mkCtx 1 1)) false s (KAdd "k" 1) (-1) =
      (s', Some (mkOut SUCCESS None (Some 42))) ∧
    view (backend s') = {[ "k"%string := to_string 42 ]}.
Proof.
  intros s.
  destruct (client_is_kv env0 (mkCtx 1 1) false s (KAdd "k" 1) (-1)
    (<["k"%string := to_string 42]> {[ "k"%string := to_string 41 ]}) (mkOut SUCCESS None (Some 42)))
    as (s' & E & Hv & _).
  - exact local_reliable.
  - split; [|vm_compute; done]. split; intros *; cbn; by rewrite lookup_empty.
  - done.
  - vm_compute. done.
  - split; [vm_compute; discriminate|]. unfold I64_MIN, I64_MAX. lia.
  - exact I.
  - reflexivity.
  - intros v Hv. vm_compute in Hv. injection Hv as <-. vm_compute. discriminate.
  - lia.
  - vm_compute. reflexivity.
  - exists s'. split; [exact E|]. rewrite Hv. vm_compute. reflexivity.
Defined.

(** A prefix store is a store of its own.  An operation through it is the
    same operation, with the same outcome, on the map of the keys below its
    prefix; it leaves every key of a store untouched whose prefix neither extends
    its prefix nor is extended by it; and a store nested in another one has the
    joined prefix. *)
Theorem prefix_store_isolated p kv op wait kv' o :
  kv_exec kv (at_key p op) wait = Some (kv', o) →
  (∀ sub : gmap string bytes, (∀ k, sub !! k = kv !! GetCompleteKey p k) →
     ∃ sub', kv_exec sub op wait = Some (sub', o) ∧ ∀ k, sub' !! k = kv' !! GetCompleteKey p k) ∧
  (∀ q k, String.prefix (keyPrefix p) (keyPrefix q) = false →
     String.prefix (keyPrefix q) (keyPrefix p) = false →
     kv' !! GetCompleteKey q k = kv !! GetCompleteKey q k) ∧
  (∀ x k, GetCompleteKey (PrefixStore (Some p) x) k = GetCompleteKey p (x ++ k)%string).
Proof.
  unfold kv_exec. intros (o' & Ho & [= -> ->])%fmap_Some. split_and!.
  - intros sub Hsub. exists (kv_apply sub op).1.
    rewrite <- (kv_outcome_at_key p kv) by done. rewrite Ho. split; [done|]. intros k.
    destruct (decide (k = op_key op)) as [->|Hne]; [by apply kv_apply_at_key|].
    rewrite !kv_apply_other; [done| |done]. rewrite op_key_at_key. intros E. apply Hne.
    by eapply (inj (String.append (keyPrefix p))).
  - intros q k Hpq Hqp. apply kv_apply_other. rewrite op_key_at_key. intros E.
    destruct (string_prefix_app _ _ _ _ E); congruence.
  - intros x k. unfold GetCompleteKey, PrefixStore, GetCommonPrefix. cbn.
    by rewrite str_app_nil_r, str_app_assoc.
Qed.

Lemma prefix_store_isolated_witness :
  let kv : gmap string bytes := {[ "D_k"%string := to_string 1; "S_k"%string := to_string 2 ]} in
  ∃ kv' o, kv_exec kv (at_key (mkPrefix "D_") (KAdd "k" 5)) (-1) = Some (kv', o) ∧
    kv' !! GetCompleteKey (mkPrefix "S_") "k" = Some (to_string 2).
Proof.
  intros kv. eexists (<["D_k"%string := to_string 6]> kv), (mkOut SUCCESS None (Some 6)).
  assert (kv_exec kv (at_key (mkPrefix "D_") (KAdd "k" 5)) (-1) =
    Some (<["D_k"%string := to_string 6]> kv, mkOut SUCCESS None (Some 6))) as E by reflexivity.
  split; [exact E|].
  destruct (prefix_store_isolated (mkPrefix "D_") kv (KAdd "k" 5) (-1) _ _ E) as (_ & Hother & _).
  rewrite (Hother (mkPrefix "S_") "k"%string eq_refl eq_refl). reflexivity.
Defined.

(** No caller hangs and none is answered twice.  In every run in which the
    transport accepts the blocking sends, with responses, unsolicited or repeated
    ones too, watches and broken links in any order, each caller that began to
    wait is finished at most once, and at every moment exactly those that are not
    finished wait, each still reachable by its number; a broken link finishes
    all of them. *)
Theorem pending_finished_once sts c :
  cl_inv c → cl_waiting c = ∅ → Forall step_ok sts → reqSeqGen c + len sts < 2 ^ 32 →
  ∃ c' es ws, client_run c sts = Some (c', es, ws) ∧
    NoDup (finished_seqs es) ∧
    (∀ s, s ∈ finished_seqs es → s ∈ ws) ∧
    (∀ s, s ∈ cl_waiting c' ↔ s ∈ ws ∧ s ∉ finished_seqs es) ∧
    (∀ s, s ∈ cl_waiting c' → msgClientContext c' !! s = Some ClientWait) ∧
    ∃ c'' es' rc, client_LinkBrokenHandler c' = Some (c'', es', rc) ∧ cl_waiting c'' = ∅ ∧
      ∀ s, s ∈ cl_waiting c' ↔ s ∈ finished_seqs es'.
Proof.
  intros Hi He Hok Hg. destruct (client_run_inv sts c Hi Hok Hg)
    as (c' & es & ws & E & Hi' & Hnd & _ & _ & Hw & Hfin).
  exists c', es, ws. rewrite He in Hw, Hfin. split_and!; [done|done| | | |].
  - intros s Hs%Hfin. set_solver.
  - intros s. rewrite Hw. set_solver.
  - intros s. apply (ci_waiting _ Hi').
  - destruct (broken_step c' Hi') as (c'' & es' & rc & Eb & (_ & _ & _ & Hs1 & Hs2 & _) & Hnone).
    exists c'', es', rc. split_and!; [done|done|]. intros s. split; [|apply Hs1].
    intros Hs. destruct (decide (s ∈ finished_seqs es')) as [|Hn]; [done|].
    assert (s ∈ cl_waiting c'') as Hx by (apply Hs2; auto). by rewrite Hnone in Hx.
Qed.

Definition client_new : Client := mkClient true true ∅ ∅ 0.
Lemma client_new_inv : cl_inv client_new.
Proof. split; cbn; [|by intros *; rewrite lookup_empty|lia]. intros s. rewrite lookup_empty. set_solver. Qed.

Lemma pending_finished_once_witness :
  ∃ c' es ws,
    client_run client_new [CSend 0 0; CSend 0 0; CResponse 1 (mkResp 0 None); CResponse 1 (mkResp 0 None)]
      = Some (c', es, ws) ∧ NoDup (finished_seqs es).
Proof.
  destruct (pending_finished_once
    [CSend 0 0; CSend 0 0; CResponse 1 (mkResp 0 None); CResponse 1 (mkResp 0 None)] client_new)
    as (c' & es & ws & E & Hnd & _).
  - exact client_new_inv.
  - done.
  - repeat constructor; done.
  - vm_compute. done.
  - eauto.
Defined.

(** A blocking send that the transport refuses leaves its context behind:
    the caller returns without a response, its mutex and condition variable die
    with its frame, and the next broken link, or a response with that number,
    uses them. *)
Theorem failed_send_dangles c first second :
  cl_inv c → cl_link c = true → reqSeqGen c < 2 ^ 32 - 1 → LocalNonBlockSend first second ≠ SM_OK →
  ∃ c', SendMessageBlocked c first second = (c', None) ∧
    (∀ r, ReceiveResponseHandler c' (reqSeqGen c) r = None) ∧
    client_LinkBrokenHandler c' = None.
Proof.
  intros Hi Hl Hg Hf. pose proof (ci_range _ Hi). pose proof (ci_fresh _ Hi) as Hfr.
  unfold SendMessageBlocked. rewrite Hl, u32_small, ctx_emplace_fresh by (done || lia).
  rewrite (proj2 (Z.eqb_neq _ _) Hf). cbn [negb]. eexists. split; [done|].
  assert (reqSeqGen c ∉ cl_waiting c) as Hnw by (rewrite (ci_waiting _ Hi); congruence).
  split.
  - intros r. unfold ReceiveResponseHandler. cbn [msgClientContext]. rewrite lookup_insert_eq.
    cbn [SetFinished cl_waiting]. by rewrite decide_False.
  - unfold client_LinkBrokenHandler. cbn [msgClientContext cl_waiting].
    assert (∀ l, (reqSeqGen c, ClientWait) ∈ l → fail_all (cl_waiting c) l = None) as Hfail.
    { induction l as [|[s x] l IH]; intros Hin; [by apply elem_of_nil in Hin|].
      apply elem_of_cons in Hin as [[= <- <-]|Hin]; cbn [fail_all].
      - cbn. by rewrite decide_False.
      - rewrite (IH Hin). by destruct (SetFailedFinish _ _ _). }
    rewrite Hfail; [done|]. apply elem_of_map_to_list. by rewrite lookup_insert_eq.
Qed.

Lemma failed_send_dangles_witness :
  ∃ c', SendMessageBlocked client_new (-11) (-7) = (c', None) ∧ client_LinkBrokenHandler c' = None.
Proof.
  destruct (failed_send_dangles client_new (-11) (-7)) as (c' & E & _ & Hb);
    [exact client_new_inv|done|cbn; lia|done|eauto].
Defined.
