(* ===== verification/GroupEngine.v ===== *)
(** * The group engine (src/src/smem/csrc/net/smem_net_group_engine)

    Barrier, all-gather, number allocation and dynamic membership of a group of
    ranks, built on the shared store.  A method is a program [prog] over the
    calls it makes: operations of the store (in the engine's prefix store),
    watches, and the callbacks given with the options; the continuation of a call
    takes its outcome, an out parameter being [None] when the call did not assign
    it.  The listening thread is modelled by one round of its loop.

    Not from the source: the sleeps, the logs and the performance traces are left
    out; a method runs without the interference of the engine's other threads
    (the source holds [groupEventHandleMutex_] for joining and leaving, and
    nothing for the collectives). *)
From Stdlib Require Import Strings.Byte Strings.String.
From stdpp Require Import base numbers list gmap strings.
From S2P Require Import Prelude StrUtil MessagePacker StoreBackend StoreServer StoreServerSpec StoreClient.
Local Open Scope Z_scope.
Local Open Scope mf_scope.

(** ** Programs over the store *)
Inductive Cmd :=
| Kv (op : KvOp) (wait : Z)
| WatchKey (key : string)
| WatchRank
| UnwatchId (wid : Z)
| Callback (join : bool) (rank : Z)
| ExitHandler (status : Z).

Abbreviation prog := (program Cmd Outcome).

Definition call (c : Cmd) : prog Outcome := Act c Ret.
Definition st (op : KvOp) : prog Outcome := call (Kv op (-1)).

(** ** Constants *)
Definition SMEM_GROUP_SET_STR : bytes := text "ok".
Definition SMEM_GROUP_EXIT_KEY : string := "EXIT".
Definition SMEM_GROUP_LISTEN_EVENT_KEY : string := "EVENT".
Definition SMEM_GROUP_DYNAMIC_SIZE_KEY : string := "DSIZE".
Definition SMEM_GROUP_CAS_ALLOC_NUM_KEY : string := "AT_NUM".
Definition SMEM_ALLOC_NUM_SIZE : Z := 1024.
Definition SMEM_ALLOC_NUM_BUF_LEN : Z := (SMEM_ALLOC_NUM_SIZE + 7) / 8.
Definition SMEM_GATHER_PREFIX_SIZE : Z := 4.
Definition UINT_BIT : Z := 8.
Definition GROUP_DYNAMIC_SIZE_BIT_LEN : Z := 30.
Definition GROUP_DYNAMIC_SIZE_BIT_MASK : Z := Z.shiftl 1 30 - 1.
Definition USER_GROUP_KEY_LEN_MAX : Z := 64.
Definition REMOVE_INTERVAL : Z := 2.
Definition MAX_RANK_COUNT : Z := 1024.
Definition BITS_COUNT_IN_U64 : Z := 64.
Definition RANK_BITS_U64_COUNT : Z := MAX_RANK_COUNT / BITS_COUNT_IN_U64.
Definition MAX_RETRY : nat := Z.to_nat 100000.

(** ** State *)
Record SmemGroupOption := mkOpt {
  rankSize : Z; rank : Z; timeoutMs : Z; dynamic : bool;
  joinCb : bool; leaveCb : bool;               (* whether the callback is set *)
}.
Record GroupVersions := mkVer { groupVersion : Z; allGatherGroupSn : Z; barrierGroupSn : Z }.

Inductive GroupEvent :=
| LUNCH_JOIN_LEAVE_EVENT (value : bytes)
| REMOTE_DOWN_EVENT (remoteRankId : Z).
Record GroupListen := mkListen {
  watchId : Z; ctx_ret : Z; events : list GroupEvent; listenLinkStatusWatchId : Z }.

Record Engine := mkEngine {
  option_ : SmemGroupOption;
  versions : GroupVersions;
  listen : GroupListen;
  joined_ : bool;
  groupStoped_ : bool;
  globalExitHandler_ : bool;
  joinedRanksBitmap_ : list Z;
  userGroupGatherSn_ : gmap string Z;
  userGroupBarrierSn_ : gmap string Z;
  allocedSet_ : gset Z;
}.

Definition engine_new (o : SmemGroupOption) : Engine :=
  mkEngine
    (if dynamic o then mkOpt 1 (rank o) (timeoutMs o) (dynamic o) (joinCb o) (leaveCb o) else o)
    (mkVer 0 0 0) (mkListen U32_MAX SM_OK [] U32_MAX) (negb (dynamic o)) false false
    (replicate (Z.to_nat RANK_BITS_U64_COUNT) 0) ∅ ∅ ∅.

Definition set_versions (e : Engine) (v : GroupVersions) : Engine :=
  mkEngine (option_ e) v (listen e) (joined_ e) (groupStoped_ e) (globalExitHandler_ e)
    (joinedRanksBitmap_ e) (userGroupGatherSn_ e) (userGroupBarrierSn_ e) (allocedSet_ e).
Definition set_listen (e : Engine) (l : GroupListen) : Engine :=
  mkEngine (option_ e) (versions e) l (joined_ e) (groupStoped_ e) (globalExitHandler_ e)
    (joinedRanksBitmap_ e) (userGroupGatherSn_ e) (userGroupBarrierSn_ e) (allocedSet_ e).
Definition set_rankSize (e : Engine) (n : Z) : Engine :=
  let o := option_ e in
  mkEngine (mkOpt n (rank o) (timeoutMs o) (dynamic o) (joinCb o) (leaveCb o)) (versions e)
    (listen e) (joined_ e) (groupStoped_ e) (globalExitHandler_ e)
    (joinedRanksBitmap_ e) (userGroupGatherSn_ e) (userGroupBarrierSn_ e) (allocedSet_ e).
Definition set_flags (e : Engine) (joined stoped exit : bool) : Engine :=
  mkEngine (option_ e) (versions e) (listen e) joined stoped exit
    (joinedRanksBitmap_ e) (userGroupGatherSn_ e) (userGroupBarrierSn_ e) (allocedSet_ e).
Definition set_bitmap (e : Engine) (b : list Z) : Engine :=
  mkEngine (option_ e) (versions e) (listen e) (joined_ e) (groupStoped_ e) (globalExitHandler_ e)
    b (userGroupGatherSn_ e) (userGroupBarrierSn_ e) (allocedSet_ e).
Definition set_userSn (e : Engine) (g b : gmap string Z) : Engine :=
  mkEngine (option_ e) (versions e) (listen e) (joined_ e) (groupStoped_ e) (globalExitHandler_ e)
    (joinedRanksBitmap_ e) g b (allocedSet_ e).
Definition set_alloced (e : Engine) (a : gset Z) : Engine :=
  mkEngine (option_ e) (versions e) (listen e) (joined_ e) (groupStoped_ e) (globalExitHandler_ e)
    (joinedRanksBitmap_ e) (userGroupGatherSn_ e) (userGroupBarrierSn_ e) a.

Definition num_str (z : Z) : string := str_of_bytes (to_string z).
(** [prefix + "_" + std::to_string(sn) + suffix] *)
Definition sn_key (prefix : string) (sn : Z) (suffix : string) : string :=
  (prefix ++ "_" ++ num_str sn ++ suffix)%string.

(** ** Barrier *)
Definition barrier_get (waitKey : string) (timeout : Z) : prog Z :=
  r ← call (Kv (KGet waitKey) (i64 timeout));
  if negb (o_code r =? SM_OK) then Ret SM_ERROR else
  if decide (default [] (o_val r) = SMEM_GROUP_SET_STR) then Ret SM_OK else Ret SM_ERROR.
(** The last one sets the key the others wait for. *)
Definition barrier_set (val size : Z) (waitKey : string) (timeout : Z) : prog Z :=
  if val =? size then
    r ← st (KSet waitKey SMEM_GROUP_SET_STR);
    if negb (o_code r =? SM_OK) then Ret SM_ERROR else barrier_get waitKey timeout
  else barrier_get waitKey timeout.
(** The first one removes the keys of the round before the last. *)
Definition barrier_body (prefix : string) (sn size timeout : Z) : prog Z :=
  let addKey := sn_key prefix sn "_BA" in
  let waitKey := sn_key prefix sn "_BW" in
  r ← st (KAdd addKey 1);
  if negb (o_code r =? SM_OK) then Ret SM_ERROR else
  let val := default 0 (o_num r) in
  if (val =? 1) && (REMOVE_INTERVAL <? sn) then
    let removeSn := sn -32 REMOVE_INTERVAL in
    _ ← st (KRemove (sn_key prefix removeSn "_BA"));
    _ ← st (KRemove (sn_key prefix removeSn "_BW"));
    barrier_set val size waitKey timeout
  else barrier_set val size waitKey timeout.

Definition with_barrierSn (e : Engine) (sn : Z) : Engine :=
  set_versions e (mkVer (groupVersion (versions e)) (allGatherGroupSn (versions e)) sn).
Definition GroupBarrier (e : Engine) : prog (Engine * Z) :=
  let sn := barrierGroupSn (versions e) +32 1 in
  (λ ret, (with_barrierSn e sn, ret)) <$>
    barrier_body (num_str (groupVersion (versions e))) sn (rankSize (option_ e)) (timeoutMs (option_ e)).

(** The checks of the collectives with a caller's key; [None] is the null pointer. *)
Definition user_key_ok (e : Engine) (key : option string) (size rankId : Z) : option string :=
  match key with
  | None => None
  | Some k =>
      if negb (slen k <? USER_GROUP_KEY_LEN_MAX) then None else
      if negb (size <=? rankSize (option_ e)) then None else
      if negb (rankId <? size) then None else Some k
  end.
Definition GroupBarrier_key (e : Engine) (key : option string) (size rankId : Z) : prog (Engine * Z) :=
  match user_key_ok e key size rankId with
  | None => Ret (e, SM_INVALID_PARAM)
  | Some userKey =>
      let localSn := default 0 (userGroupBarrierSn_ e !! userKey) +32 1 in
      let e' := set_userSn e (userGroupGatherSn_ e) (<[userKey := localSn]> (userGroupBarrierSn_ e)) in
      (λ ret, (e', ret)) <$> barrier_body userKey localSn size (timeoutMs (option_ e))
  end.

(** ** All-gather *)
Definition GatherFillRank (rank : Z) (data : bytes) : bytes := le_bytes 4 rank ++ data.

(** [std::sort] on pairs: the lexicographic order is total, so the sorted
    sequence is unique. *)
Definition pair_leb (a b : Z * Z) : bool := (a.1 <? b.1) || ((a.1 =? b.1) && (a.2 <=? b.2)).
Fixpoint sort_insert (x : Z * Z) (l : list (Z * Z)) : list (Z * Z) :=
  match l with
  | [] => [x]
  | y :: l' => if pair_leb x y then x :: l else y :: sort_insert x l'
  end.
Definition sort_pairs (l : list (Z * Z)) : list (Z * Z) := foldr sort_insert [] l.

Definition slice (v : bytes) (off n : Z) : bytes := take (Z.to_nat n) (drop (Z.to_nat off) v).

(** The contents of [recvBuf] behind the copies. *)
Definition SortGatherRecv (vec : bytes) (preSize rankSize : Z) : bytes :=
  let unitSize := preSize +32 SMEM_GATHER_PREFIX_SIZE in
  let offset :=
    (λ i, let idx := i *32 unitSize in (le_val (slice vec idx 4), idx +32 SMEM_GATHER_PREFIX_SIZE))
      <$> seqZ 0 rankSize in
  concat ((λ o, slice vec o.2 preSize) <$> sort_pairs offset).

(** Wait for the last one, read all frames, sort them. *)
Definition gather_finish (addKey waitKey : string) (timeout inputSize size sendSize : Z)
    : prog (Z * option bytes) :=
  g ← call (Kv (KGet waitKey) (i64 timeout));
  if negb (o_code g =? SM_OK) then Ret (SM_ERROR, None) else
  if negb (bool_decide (default [] (o_val g) = SMEM_GROUP_SET_STR)) then Ret (SM_ERROR, None) else
  d ← call (Kv (KGet addKey) (i64 timeout));
  let output := default [] (o_val d) in
  if negb (o_code d =? SM_OK) || negb (len output =? u64 (inputSize * size)) then Ret (SM_ERROR, None) else
  Ret (SM_OK, Some (SortGatherRecv output sendSize size)).

(** [removePrefix], [removeSn]: where the first one cleans up. *)
Definition gather_body (prefix : string) (sn : Z) (removePrefix : string) (removeSn : Z)
    (size timeout rank : Z) (sendBuf : bytes) : prog (Z * option bytes) :=
  let addKey := sn_key prefix sn "_GA" in
  let waitKey := sn_key prefix sn "_GW" in
  let input := GatherFillRank rank sendBuf in
  r ← st (KAppend addKey input);
  if negb (o_code r =? SM_OK) then Ret (SM_ERROR, None) else
  let val := default 0 (o_num r) in
  _ ← (if (val =? len input) && (REMOVE_INTERVAL <? removeSn) then
         let rmSn := removeSn -32 REMOVE_INTERVAL in
         _ ← st (KRemove (sn_key removePrefix rmSn "_GA"));
         st (KRemove (sn_key removePrefix rmSn "_GW"))
       else Ret (mkOut SM_OK None None));
  s ← (if val =? u64 (len input * size) then st (KSet waitKey SMEM_GROUP_SET_STR)
       else Ret (mkOut SM_OK None None));
  if negb (o_code s =? SM_OK) then Ret (SM_ERROR, None) else
  gather_finish addKey waitKey timeout (len input) size (len sendBuf).

Definition GroupAllGather (e : Engine) (sendBuf : bytes) (recvSize : Z)
    : prog (Engine * (Z * option bytes)) :=
  let size := rankSize (option_ e) in
  if negb (len sendBuf *32 size =? recvSize) then Ret (e, (SM_INVALID_PARAM, None)) else
  let v := versions e in
  let sn := allGatherGroupSn v +32 1 in
  let e' := set_versions e (mkVer (groupVersion v) sn (barrierGroupSn v)) in
  (λ r, (e', r)) <$>
    gather_body (num_str (groupVersion v)) sn (num_str (groupVersion v)) sn
      size (timeoutMs (option_ e)) (rank (option_ e)) sendBuf.

(** The clean-up of this one counts with the group's own number. *)
Definition GroupAllGather_key (e : Engine) (key : option string) (size rankId : Z) (sendBuf : bytes)
    (recvSize : Z) : prog (Engine * (Z * option bytes)) :=
  match user_key_ok e key size rankId with
  | None => Ret (e, (SM_INVALID_PARAM, None))
  | Some userKey =>
      if negb (len sendBuf *32 size =? recvSize) then Ret (e, (SM_INVALID_PARAM, None)) else
      let localSn := default 0 (userGroupGatherSn_ e !! userKey) +32 1 in
      let e' := set_userSn e (<[userKey := localSn]> (userGroupGatherSn_ e)) (userGroupBarrierSn_ e) in
      (λ r, (e', r)) <$>
        gather_body userKey localSn (num_str (groupVersion (versions e))) (allGatherGroupSn (versions e))
          size (timeoutMs (option_ e)) rankId sendBuf
  end.

(** ** Leaving the process together *)
Definition GroupBroadcastExit (status : Z) : prog Z :=
  r ← st (KSet SMEM_GROUP_EXIT_KEY (to_string status));
  if negb (o_code r =? SM_OK) then Ret SM_ERROR else Ret (o_code r).

Definition RegisterExit (e : Engine) (exit : bool) : prog (Engine * Z) :=
  if globalExitHandler_ e then Ret (e, SM_INVALID_PARAM) else
  if negb exit then Ret (e, SM_INVALID_PARAM) else
  r ← call (WatchKey SMEM_GROUP_EXIT_KEY);
  if negb (o_code r =? SM_OK)
  then Ret (set_flags e (joined_ e) (groupStoped_ e) false, o_code r)
  else Ret (set_flags e (joined_ e) (groupStoped_ e) true, SM_OK).

(** [std::stol]: no conversion or a value out of range throws. *)
Definition stol (value : bytes) : option Z :=
  match strtoll value with
  | Some (v, false, _) => Some v
  | _ => None
  end.
Definition RankExit (e : Engine) (result : Z) (value : bytes) : prog unit :=
  if (result =? SUCCESS) && globalExitHandler_ e then
    match value, stol value with
    | [], _ => Ret tt
    | _, None => Ret tt
    | _, Some tempVal =>
        if (tempVal <? - 2 ^ 31) || (2 ^ 31 - 1 <? tempVal) then Ret tt else
        _ ← call (ExitHandler tempVal); Ret tt
    end
  else Ret tt.

(** ** Numbers

    The bitmap of the numbers in use is a value of the store, changed by CAS.
    The loops have no bound of their own, hence the fuel; an index behind the end
    of the bitmap is a [BadRead]. *)
Inductive LoopRes (A : Type) := Done (a : A) | BadRead | OutOfFuel.
Arguments Done {A} a.
Arguments BadRead {A}.
Arguments OutOfFuel {A}.

Definition bit_mask (i : Z) : Z := Z.shiftl 1 (i mod UINT_BIT).
Definition byte_index (i : Z) : nat := Z.to_nat (i / UINT_BIT).
Definition flip_bit (value : bytes) (i : Z) : bytes :=
  match value !! byte_index i with
  | Some b => <[byte_index i := byte_of_Z (Z.lxor (Z_of_byte b) (bit_mask i))]> value
  | None => value
  end.
Fixpoint first_free (value : bytes) (i : Z) (n : nat) : LoopRes (option Z) :=
  match n with
  | O => Done None
  | S n' =>
      match value !! byte_index i with
      | None => BadRead
      | Some b =>
          if Z.land (Z_of_byte b) (bit_mask i) =? 0 then Done (Some i) else first_free value (i + 1) n'
      end
  end.
Definition zero_buf : bytes := replicate (Z.to_nat SMEM_ALLOC_NUM_BUF_LEN) Byte.x00.

Fixpoint alloc_loop (fuel : nat) (e : Engine) (expect old value : bytes) : prog (LoopRes (Engine * Z)) :=
  match fuel with
  | O => Ret OutOfFuel
  | S fuel' =>
      let '(expect, old) := (old, expect) in
      let value := if (len expect =? 0) then value else expect in
      match first_free value 0 (Z.to_nat SMEM_ALLOC_NUM_SIZE) with
      | BadRead => Ret BadRead
      | OutOfFuel => Ret OutOfFuel
      | Done None => Ret (Done (e, SM_ERROR))
      | Done (Some num) =>
          let value := flip_bit value num in
          r ← st (KCas SMEM_GROUP_CAS_ALLOC_NUM_KEY expect value);
          let old := default old (o_val r) in
          if negb (o_code r =? 0) || negb (bool_decide (old = expect))
          then alloc_loop fuel' e expect old value
          else Ret (Done (set_alloced e (allocedSet_ e ∪ {[ num ]}), num))
      end
  end.
Definition AllocNumber (fuel : nat) (e : Engine) : prog (LoopRes (Engine * Z)) :=
  alloc_loop fuel e [] [] zero_buf.

Fixpoint release_loop (fuel : nat) (e : Engine) (val : Z) (expect old value : bytes)
    : prog (LoopRes (Engine * Z)) :=
  match fuel with
  | O => Ret OutOfFuel
  | S fuel' =>
      let '(expect, old) := (old, expect) in
      let value := if (len expect =? 0) then value else expect in
      match value !! byte_index val with
      | None => Ret BadRead
      | Some b =>
          if Z.land (Z.shiftr (Z_of_byte b) (val mod UINT_BIT)) 1 =? 1 then
            let value := flip_bit value val in
            r ← st (KCas SMEM_GROUP_CAS_ALLOC_NUM_KEY expect value);
            let old := default old (o_val r) in
            if (o_code r =? 0) && bool_decide (old = expect)
            then release_loop fuel' e val expect old value
            else Ret (Done (e, SM_OK))
          else Ret (Done (e, SM_OK))
      end
  end.
Definition ReleaseNumber (fuel : nat) (e : Engine) (val : Z) : prog (LoopRes (Engine * Z)) :=
  if decide (val ∈ allocedSet_ e) then
    let e := set_alloced e (allocedSet_ e ∖ {[ val ]}) in
    release_loop fuel e val [] [] (flip_bit zero_buf val)
  else Ret (Done (e, SM_OBJECT_NOT_EXISTS)).

(** ** The bitmap of joined ranks *)
Definition word_index (r : Z) : nat := Z.to_nat (r / BITS_COUNT_IN_U64).
Definition word_mask (r : Z) : Z := Z.shiftl 1 (r mod BITS_COUNT_IN_U64).
Definition bitmap_clear (bm : list Z) (rankId : Z) : list Z :=
  alter (λ w, Z.land w (U64_MAX - word_mask rankId)) (word_index rankId) bm.
Definition ClearBitmapForRank (e : Engine) (rankId : Z) : Engine :=
  if MAX_RANK_COUNT <=? rankId then e else set_bitmap e (bitmap_clear (joinedRanksBitmap_ e) rankId).
Definition TestBitmapForRank (e : Engine) (rankId : Z) : bool :=
  if MAX_RANK_COUNT <=? rankId then false else
  match joinedRanksBitmap_ e !! word_index rankId with
  | Some w => negb (Z.land w (word_mask rankId) =? 0)
  | None => false
  end.
Definition bitmap_set (bm : list Z) (rankId : Z) : list Z :=
  if MAX_RANK_COUNT <=? rankId then bm else
  alter (λ w, Z.lor w (word_mask rankId)) (word_index rankId) bm.
Definition SetBitmapFromRanks (e : Engine) (rankIds : list Z) : Engine :=
  set_bitmap e (foldl bitmap_set (replicate (Z.to_nat RANK_BITS_U64_COUNT) 0) rankIds).

(** ** Versions and events *)
Definition SplitSizeAndVersion (val : Z) : Z * Z :=
  let unsignedVal := u64 val in
  (i32 (Z.shiftr unsignedVal GROUP_DYNAMIC_SIZE_BIT_LEN),
   i32 (Z.land unsignedVal GROUP_DYNAMIC_SIZE_BIT_MASK)).
Definition MergeSizeAndVersion (ver size : Z) : Z :=
  i64 (Z.lor (Z.shiftl (u32 ver) GROUP_DYNAMIC_SIZE_BIT_LEN) (u32 size)).

(** [JoinLeaveEventValue]: join or leave, and the rank. *)
Record JoinLeaveEventValue := mkEvent { ev_join : bool; ev_rank : Z }.
Definition ToString (v : JoinLeaveEventValue) : bytes :=
  byte_of_Z (if ev_join v then 74 else 76) :: to_string (ev_rank v).
(** [>> evt >> rankId] of a string stream: white space, a character, white space,
    a number; a failed read leaves the character as it was, or stores 0 or the
    maximum in the number. *)
Definition Parse (str : bytes) : option JoinLeaveEventValue :=
  let '(evt, rest) :=
    match skip_space str with
    | [] => (byte_of_Z 74, None)
    | b :: rest => (b, Some rest)
    end in
  let rankId :=
    match rest with
    | None => 0
    | Some rest =>
        match strtoull rest with
        | None => 0
        | Some (v, _, _) => if U32_MAX <? v then U32_MAX else v
        end
    end in
  let v := mkEvent (is_char 74 evt) rankId in
  if decide (ToString v = str) then Some v else None.

Definition UpdateGroupVersion (e : Engine) (ver : Z) : Engine :=
  set_versions e (mkVer (i32 ver) 0 0).

Fixpoint clean_keys (n : nat) (i : Z) (prefix : string) (sn : Z) (sufA sufW : string) : prog unit :=
  match n with
  | O => Ret tt
  | S n' =>
      if sn <? i then Ret tt else
      _ ← st (KRemove (sn_key prefix (sn -32 i) sufA));
      _ ← st (KRemove (sn_key prefix (sn -32 i) sufW));
      clean_keys n' (i + 1) prefix sn sufA sufW
  end.
Definition GroupSnClean (e : Engine) : prog unit :=
  let v := versions e in
  let prefix := num_str (groupVersion v) in
  _ ← clean_keys (Z.to_nat REMOVE_INTERVAL) 0 prefix (allGatherGroupSn v) "_GA" "_GW";
  clean_keys (Z.to_nat REMOVE_INTERVAL) 0 prefix (barrierGroupSn v) "_BA" "_BW".

(** ** Listening *)
Definition set_watchId (e : Engine) (wid : Z) : Engine :=
  let l := listen e in set_listen e (mkListen wid (ctx_ret l) (events l) (listenLinkStatusWatchId l)).
Definition set_linkWatch (e : Engine) (wid : Z) : Engine :=
  let l := listen e in set_listen e (mkListen (watchId l) (ctx_ret l) (events l) wid).
Definition push_event (e : Engine) (ret : Z) (evs : list GroupEvent) : Engine :=
  let l := listen e in set_listen e (mkListen (watchId l) ret (events l ++ evs) (listenLinkStatusWatchId l)).

(** The callbacks of the two watches. *)
Definition GroupWatchCb (e : Engine) (result : Z) (key : string) (value : bytes) : Engine :=
  let ctxRet := if negb (result =? SM_OK) then SM_ERROR
                else if decide (key = SMEM_GROUP_LISTEN_EVENT_KEY) then SM_OK else SM_ERROR in
  push_event e ctxRet (if ctxRet =? SM_OK then [LUNCH_JOIN_LEAVE_EVENT value] else []).
Definition RemoteRankLinkDownCb (e : Engine) (remoteRankId : Z) : Engine :=
  push_event e SM_OK [REMOTE_DOWN_EVENT remoteRankId].

(** Whether the loop has to come back without waiting. *)
Definition ReWatch (e : Engine) : prog (Engine * bool) :=
  r ← call (WatchKey SMEM_GROUP_LISTEN_EVENT_KEY);
  if negb (o_code r =? SM_OK) then
    if 0 <? listenLinkStatusWatchId (listen e) then
      _ ← call (UnwatchId (listenLinkStatusWatchId (listen e)));
      Ret (set_linkWatch e U32_MAX, true)
    else Ret (e, true)
  else
    let wid := default U32_MAX (o_num r) in
    let e := set_listen e (mkListen wid SM_OK (events (listen e)) (listenLinkStatusWatchId (listen e))) in
    if listenLinkStatusWatchId (listen e) =? U32_MAX then
      r ← call WatchRank;
      if negb (o_code r =? SM_OK) then
        _ ← call (UnwatchId (watchId (listen e))); Ret (set_watchId e U32_MAX, true)
      else Ret (set_linkWatch e (default wid (o_num r)), false)
    else Ret (e, false).

(** Another rank joins or leaves. *)
Definition JoinLeaveEventProcess (e : Engine) (value prevEvent : bytes) : prog (Engine * bytes) :=
  let e := set_watchId e U32_MAX in
  match Parse value with
  | None => Ret (e, prevEvent)
  | Some eVal =>
      if decide (value = prevEvent) then Ret (e, prevEvent) else
      let prevEvent := value in
      r ← st (KAdd SMEM_GROUP_DYNAMIC_SIZE_KEY 0);
      if negb (o_code r =? SM_OK) then Ret (e, prevEvent) else
      let sizePair := SplitSizeAndVersion (default 0 (o_num r)) in
      let e := UpdateGroupVersion e (sizePair.1 + 1) in
      if ev_join eVal then
        let e := set_rankSize e (u32 (sizePair.2 + 1)) in
        if joinCb (option_ e) then _ ← call (Callback true (ev_rank eVal)); Ret (e, prevEvent)
        else Ret (e, prevEvent)
      else
        let e := set_rankSize e (u32 (sizePair.2 - 1)) in
        if leaveCb (option_ e)
        then _ ← call (Callback false (ev_rank eVal)); Ret (ClearBitmapForRank e (ev_rank eVal), prevEvent)
        else Ret (ClearBitmapForRank e (ev_rank eVal), prevEvent)
  end.

(** [None]: the leave callback is called although it is not set. *)
Definition LinkDownUpdateMeta (e : Engine) (rankId : Z) : prog (option Engine) :=
  r ← st (KAdd SMEM_GROUP_DYNAMIC_SIZE_KEY 0);
  if negb (o_code r =? SM_OK) then Ret (Some e) else
  let tmpVal := default 0 (o_num r) in
  let version := (SplitSizeAndVersion tmpVal).1 in
  e ← (if negb (version =? groupVersion (versions e)) then
         let e := UpdateGroupVersion e (groupVersion (versions e) + 1) in
         Ret (set_rankSize e (rankSize (option_ e) -32 1))
       else
         let version := i32 (version + 1) in
         let e := set_rankSize e (rankSize (option_ e) -32 1) in
         let e := UpdateGroupVersion e version in
         let newVal := MergeSizeAndVersion version (i32 (rankSize (option_ e))) in
         _ ← st (KCas SMEM_GROUP_DYNAMIC_SIZE_KEY (to_string tmpVal) (to_string newVal));
         Ret e);
  if leaveCb (option_ e) then _ ← call (Callback false rankId); Ret (Some e) else Ret None.

Definition RankLinkDownEventProcess (e : Engine) (rankId : Z) : prog (option Engine * bytes) :=
  let prevEvent := to_string (rank (option_ e)) ++ text "L" ++ to_string rankId in
  r ← call (Kv (KGet SMEM_GROUP_LISTEN_EVENT_KEY) 0);
  if negb (o_code r =? SUCCESS) && negb (o_code r =? NOT_EXIST) then Ret (Some e, prevEvent) else
  if negb (TestBitmapForRank e rankId) then Ret (Some e, prevEvent) else
  let currentEventValue := default [] (o_val r) in
  let finish (e : option Engine) := Ret ((λ e, ClearBitmapForRank e rankId) <$> e, prevEvent) in
  match currentEventValue with
  | [] => e ← LinkDownUpdateMeta e rankId; finish e
  | _ =>
      match Parse currentEventValue with
      | None => Ret (Some e, prevEvent)
      | Some eventValue =>
          if negb (rankId =? ev_rank eventValue) then
            Ret (Some (push_event e (ctx_ret (listen e)) [LUNCH_JOIN_LEAVE_EVENT currentEventValue]),
                 prevEvent)
          else
            c ← st (KCas SMEM_GROUP_LISTEN_EVENT_KEY currentEventValue (text "unlinked"));
            if negb (o_code c =? SUCCESS) then Ret (Some e, prevEvent) else
            e ← LinkDownUpdateMeta e rankId;
            if bool_decide (is_Some e) && bool_decide (default [] (o_val c) = currentEventValue)
            then _ ← st (KRemove SMEM_GROUP_LISTEN_EVENT_KEY); finish e
            else finish e
      end
  end.

Fixpoint process_events (e : Engine) (prevEvent : bytes) (evs : list GroupEvent)
    : prog (option Engine * bytes) :=
  match evs with
  | [] => Ret (Some e, prevEvent)
  | LUNCH_JOIN_LEAVE_EVENT value :: evs' =>
      r ← JoinLeaveEventProcess e value prevEvent; process_events r.1 r.2 evs'
  | REMOTE_DOWN_EVENT rankId :: evs' =>
      r ← RankLinkDownEventProcess e rankId;
      match r.1 with
      | Some e => process_events e r.2 evs'
      | None => Ret (None, r.2)
      end
  end.

(** One round of the listening loop.  [during_wait] is what the watches'
    callbacks do to the engine before the wait ends, [ret] the wait's result. *)
Definition GroupListenEvent (e : Engine) (prevEvent : bytes) (during_wait : Engine → Engine) (ret : Z)
    : prog (option Engine * bytes) :=
  if negb (joined_ e) then Ret (Some e, prevEvent) else
  w ← (if watchId (listen e) =? U32_MAX then ReWatch e else Ret (e, false));
  if (w.2 : bool) then Ret (Some w.1, prevEvent) else
  let e := during_wait w.1 in
  let currentEvents := events (listen e) in
  let contextRet := ctx_ret (listen e) in
  let e := set_listen e (mkListen (watchId (listen e)) contextRet [] (listenLinkStatusWatchId (listen e))) in
  if groupStoped_ e then Ret (Some e, prevEvent) else
  if negb (ret =? SM_OK) then Ret (Some e, prevEvent) else
  if negb (contextRet =? SM_OK) then
    _ ← call (UnwatchId (watchId (listen e)));
    _ ← call (UnwatchId (listenLinkStatusWatchId (listen e)));
    Ret (Some (set_linkWatch (set_watchId e U32_MAX) U32_MAX), prevEvent)
  else
  if negb (joined_ e) then Ret (Some e, prevEvent) else
  process_events e prevEvent currentEvents.

Definition StartListenEvent (e : Engine) : prog (Engine * Z) :=
  r ← call WatchRank;
  if negb (o_code r =? SM_OK) then Ret (e, o_code r) else
  Ret (set_linkWatch e (default 0 (o_num r)), SM_OK).

(** ** Creating and destroying the engine *)
Definition group_prefix (dynamic : bool) : string := if dynamic then "D_" else "S_".
Definition GroupCreate (base : option PrefixConfigStore) (opts : SmemGroupOption)
    : PrefixConfigStore * prog (option Engine) :=
  (PrefixStore base (group_prefix (dynamic opts)),
   let group := engine_new opts in
   if dynamic opts then
     r ← StartListenEvent group;
     if r.2 =? SM_OK then Ret (Some r.1) else Ret None
   else Ret (Some group)).
Definition engine_destroy (e : Engine) : prog Engine :=
  let e := set_flags e (joined_ e) true (globalExitHandler_ e) in
  _ ← (if negb (watchId (listen e) =? U32_MAX) then call (UnwatchId (watchId (listen e)))
       else Ret (mkOut SM_OK None None));
  if negb (listenLinkStatusWatchId (listen e) =? U32_MAX)
  then _ ← call (UnwatchId (listenLinkStatusWatchId (listen e))); Ret (set_linkWatch e U32_MAX)
  else Ret e.

(** ** Joining and leaving *)

(** Take the event key; after [MAX_RETRY] attempts the method goes on without it. *)
Fixpoint take_event (n : nat) (val : bytes) (old : bytes) : prog unit :=
  match n with
  | O => Ret tt
  | S n' =>
      r ← st (KCas SMEM_GROUP_LISTEN_EVENT_KEY [] val);
      let old := default old (o_val r) in
      if (o_code r =? SM_OK) && (bool_decide (old = []) || bool_decide (old = val))
      then Ret tt else take_event n' val old
  end.

Definition join_exit (e : Engine) (ret : Z) : prog (Engine * Z) :=
  r2 ← st (KRemove SMEM_GROUP_LISTEN_EVENT_KEY);
  if Z.lor ret (o_code r2) =? SM_OK
  then Ret (set_flags e true (groupStoped_ e) (globalExitHandler_ e), SM_OK)
  else Ret (e, SM_ERROR).

Definition GroupJoin (e : Engine) : prog (Engine * Z) :=
  if negb (dynamic (option_ e)) then Ret (e, SM_INVALID_PARAM) else
  if joined_ e then Ret (e, SM_OK) else
  let val := text "J" ++ to_string (rank (option_ e)) in
  _ ← take_event MAX_RETRY val [];
  r ← st (KAdd SMEM_GROUP_DYNAMIC_SIZE_KEY 0);
  if negb (o_code r =? SM_OK) then join_exit e (o_code r) else
  let tmp := default 0 (o_num r) in
  _ ← GroupSnClean e;
  let e := UpdateGroupVersion e ((SplitSizeAndVersion tmp).1 + 1) in
  let e := set_rankSize e (u32 ((SplitSizeAndVersion tmp).2 + 1)) in
  c ← (if joinCb (option_ e) then call (Callback true (rank (option_ e))) else Ret (mkOut SM_OK None None));
  if negb (o_code c =? SM_OK) then join_exit e (o_code c) else
  r ← st (KAdd SMEM_GROUP_DYNAMIC_SIZE_KEY (Z.lor (Z.shiftl 1 GROUP_DYNAMIC_SIZE_BIT_LEN) 1));
  join_exit e (o_code r).

Definition leave_exit (e : Engine) (ret : Z) : prog (Engine * Z) :=
  r2 ← st (KRemove SMEM_GROUP_LISTEN_EVENT_KEY);
  Ret (set_flags e false (groupStoped_ e) (globalExitHandler_ e),
       if Z.lor ret (o_code r2) =? SM_OK then SM_OK else SM_ERROR).

(** [uninit] is what the out parameter of a failed ADD holds. *)
Definition GroupLeave (uninit : Z) (e : Engine) : prog (Engine * Z) :=
  if negb (dynamic (option_ e)) then Ret (e, SM_INVALID_PARAM) else
  if negb (joined_ e) then Ret (e, SM_NOT_STARTED) else
  let e := set_flags e (joined_ e) true (globalExitHandler_ e) in
  _ ← call (UnwatchId (watchId (listen e)));
  let val := text "L" ++ to_string (rank (option_ e)) in
  _ ← take_event MAX_RETRY val [];
  c ← (if leaveCb (option_ e) then call (Callback false (rank (option_ e))) else Ret (mkOut SM_OK None None));
  if negb (o_code c =? SM_OK) then leave_exit e (o_code c) else
  r ← st (KAdd SMEM_GROUP_DYNAMIC_SIZE_KEY GROUP_DYNAMIC_SIZE_BIT_MASK);
  let tmpVal := default uninit (o_num r) in
  _ ← GroupSnClean e;
  let e := UpdateGroupVersion e ((SplitSizeAndVersion tmpVal).1 + 1) in
  leave_exit e (o_code r).

Definition LinkReconnectHandler (e : Engine) : prog (Engine * Z) :=
  w ← call WatchRank;
  let e := if o_code w =? SM_OK then set_linkWatch e (default 0 (o_num w)) else e in
  r ← st (KAdd SMEM_GROUP_DYNAMIC_SIZE_KEY 0);
  if negb (o_code r =? SM_OK) then Ret (e, o_code r) else
  let tmpVal := default 0 (o_num r) in
  let newVal := MergeSizeAndVersion (groupVersion (versions e)) (i32 (rankSize (option_ e))) in
  _ ← st (KCas SMEM_GROUP_DYNAMIC_SIZE_KEY (to_string tmpVal) (to_string newVal));
  Ret (e, SM_OK).

(** * Lemmas *)
Lemma bytes_of_str_app a b : bytes_of_str (a ++ b)%string = bytes_of_str a ++ bytes_of_str b.
Proof. induction a as [|c a IH]; [done|]. exact (f_equal (cons _) IH). Qed.

(** The keys of a prefix are told apart by their number and their suffix. *)
Lemma sn_key_inj prefix s t a b :
  0 ≤ s < 2 ^ 32 → 0 ≤ t < 2 ^ 32 →
  (match bytes_of_str a with x :: _ => isdigit x = false | [] => True end) →
  (match bytes_of_str b with x :: _ => isdigit x = false | [] => True end) →
  sn_key prefix s a = sn_key prefix t b → s = t ∧ a = b.
Proof.
  intros Hs Ht Ha Hb E. unfold sn_key in E.
  apply (inj (String.append prefix)) in E. apply (inj (String.append "_")) in E.
  apply (f_equal bytes_of_str) in E. rewrite !bytes_of_str_app in E.
  unfold num_str in E. rewrite !bytes_of_str_of_bytes in E.
  pose proof (scan_number_to_string s _ ltac:(lia) Ha) as H1.
  pose proof (scan_number_to_string t _ ltac:(lia) Hb) as H2.
  rewrite E, H2 in H1. injection H1 as _ H1 H3. split; [lia|].
  rewrite <- (str_of_bytes_of_str a), <- (str_of_bytes_of_str b). by rewrite H3.
Qed.

Lemma stored_number_to_string z : I64_MIN ≤ z ≤ I64_MAX → stored_number (to_string z) = Some z.
Proof.
  intros Hz. unfold stored_number. rewrite String2Long_to_string by done.
  destruct (Z.eqb_spec z 0) as [->|]; [|done]. reflexivity.
Qed.
