(* ===== verification/GroupBarrierSpec.v ===== *)
(** * The barrier as a protocol of all ranks

    The ranks of a group run [GroupBarrier] round after round against the one
    store; [sys_step] interleaves their calls and store operations, and lets
    operations fail, with or without having taken effect.  The programs are first
    shown to be a small state machine per rank ([body_unfold]); on it:
    - safety, with failures: nobody returns from a round before all entered it;
    - without failures every run ends, with all rounds returned successfully:
      the removal of old keys never takes a key that is still waited for. *)
From Stdlib Require Import Strings.Byte Strings.String.
From stdpp Require Import base numbers list gmap strings.
From S2P Require Import Prelude StrUtil MessagePacker StoreBackend StoreServer StoreServerSpec.
From S2P Require Import StoreClient StoreClientSpec GroupEngine.
Local Open Scope Z_scope.

(** ** The system *)
Inductive Cur :=
| Idle (e : Engine)
| Running (pr : prog (Engine * Z)).
(** [r_calls]: the rounds the rank has entered; [r_log]: what its calls returned. *)
Record RankSt := mkRank { r_cur : Cur; r_calls : Z; r_log : list Z }.
Record Sys := mkSys { s_kv : gmap string bytes; s_ranks : list RankSt }.

Inductive sys_step (p : PrefixConfigStore) (faulty : bool) (K : Z) : Sys → Sys → Prop :=
| s_call kv rs i e n log :
    rs !! i = Some (mkRank (Idle e) n log) → n < K →
    sys_step p faulty K (mkSys kv rs) (mkSys kv (<[i := mkRank (Running (GroupBarrier e)) (n + 1) log]> rs))
| s_act kv rs i op w k n log kv' o :
    rs !! i = Some (mkRank (Running (Act (Kv op w) k)) n log) →
    kv_exec kv (at_key p op) w = Some (kv', o) →
    sys_step p faulty K (mkSys kv rs) (mkSys kv' (<[i := mkRank (Running (k o)) n log]> rs))
| s_fault kv rs i op w k n log kv' code :
    faulty = true → rs !! i = Some (mkRank (Running (Act (Kv op w) k)) n log) →
    (kv' = kv ∨ kv' = (kv_apply kv (at_key p op)).1) → code ≠ SM_OK →
    sys_step p faulty K (mkSys kv rs)
      (mkSys kv' (<[i := mkRank (Running (k (mkOut code None None))) n log]> rs))
| s_return kv rs i e c n log :
    rs !! i = Some (mkRank (Running (Ret (e, c))) n log) →
    sys_step p faulty K (mkSys kv rs) (mkSys kv (<[i := mkRank (Idle e) n (log ++ [c])]> rs)).

Definition sys_init (kv : gmap string bytes) (es : list Engine) : Sys :=
  mkSys kv ((λ e, mkRank (Idle e) 0 []) <$> es).

Section Protocol.
Context (p : PrefixConfigStore) (N g T K : Z).
Context (HN : 1 ≤ N < 2 ^ 31) (HK : 0 ≤ K < 2 ^ 32 - 1).

Definition bak (s : Z) : string := sn_key (num_str g) s "_BA".
Definition bwk (s : Z) : string := sn_key (num_str g) s "_BW".
Definition BA (s : Z) : string := GetCompleteKey p (bak s).
Definition BW (s : Z) : string := GetCompleteKey p (bwk s).

(** ** One rank as a state machine *)
Inductive phase := PIdle | PAdd | PRem1 | PRem2 | PSet | PGet | PRet (c : Z).

Definition after_rem (val : Z) : phase := if val =? N then PSet else PGet.
Definition after_add (s val : Z) : phase :=
  if (val =? 1) && (REMOVE_INTERVAL <? s) then PRem1 else after_rem val.
Definition phase_op (s : Z) (ph : phase) : option (KvOp * Z) :=
  match ph with
  | PAdd => Some (KAdd (bak s) 1, -1)
  | PRem1 => Some (KRemove (bak (u32 (s - 2))), -1)
  | PRem2 => Some (KRemove (bwk (u32 (s - 2))), -1)
  | PSet => Some (KSet (bwk s) SMEM_GROUP_SET_STR, -1)
  | PGet => Some (KGet (bwk s), i64 T)
  | _ => None
  end.
Definition phase_next (s : Z) (ph : phase) (o : Outcome) : phase :=
  match ph with
  | PAdd => if negb (o_code o =? SM_OK) then PRet SM_ERROR else after_add s (default 0 (o_num o))
  | PRem1 => PRem2
  | PRem2 => after_rem 1
  | PSet => if negb (o_code o =? SM_OK) then PRet SM_ERROR else PGet
  | PGet =>
      if negb (o_code o =? SM_OK) then PRet SM_ERROR else
      if decide (default [] (o_val o) = SMEM_GROUP_SET_STR) then PRet SM_OK else PRet SM_ERROR
  | ph => ph
  end.

(** The program that is left in a phase. *)
Definition body (s : Z) (ph : phase) : prog Z :=
  match ph with
  | PAdd => barrier_body (num_str g) s N T
  | PRem1 => _ ← st (KRemove (bak (u32 (s - 2)))); _ ← st (KRemove (bwk (u32 (s - 2))));
             barrier_set 1 N (bwk s) T
  | PRem2 => _ ← st (KRemove (bwk (u32 (s - 2)))); barrier_set 1 N (bwk s) T
  | PSet => barrier_set N N (bwk s) T
  | PGet => barrier_get (bwk s) T
  | PRet c => Ret c
  | PIdle => Ret SM_OK
  end.

Lemma body_after_rem s val : body s (after_rem val) = barrier_set val N (bwk s) T.
Proof.
  unfold after_rem. destruct (Z.eqb_spec val N) as [->|Hne]; [done|]. cbn [body]. unfold barrier_set.
  by rewrite (proj2 (Z.eqb_neq _ _)).
Qed.

Lemma body_unfold s ph op w :
  phase_op s ph = Some (op, w) →
  ∃ k, body s ph = Act (Kv op w) k ∧ ∀ o, k o = body s (phase_next s ph o).
Proof.
  destruct ph; try done; intros [= <- <-]; cbn [body].
  - eexists. split; [reflexivity|]. intros o. cbn -[barrier_set].
    destruct (o_code o =? SM_OK); [|done]. cbn -[barrier_set]. unfold after_add, REMOVE_INTERVAL.
    destruct (default 0 (o_num o) =? 1) eqn:Ev; cbn [andb]; [|exact (eq_sym (body_after_rem s _))].
    apply Z.eqb_eq in Ev. rewrite Ev. destruct (2 <? s); [done|exact (eq_sym (body_after_rem s _))].
  - eexists. split; [reflexivity|]. done.
  - eexists. split; [reflexivity|]. intros o. cbn [phase_next]. by rewrite body_after_rem.
  - unfold barrier_set. rewrite Z.eqb_refl. eexists. split; [reflexivity|]. intros o.
    cbn. by destruct (o_code o =? SM_OK).
  - eexists. split; [reflexivity|]. intros o. cbn. destruct (o_code o =? SM_OK); [|done]. cbn.
    by destruct (decide _).
Qed.

(** ** The abstract ranks *)
Record ARank := mkA { a_e : Engine; a_sn : Z; a_ph : phase; a_log : list Z }.
Definition conc (a : ARank) : RankSt :=
  mkRank match a_ph a with
         | PIdle => Idle (with_barrierSn (a_e a) (a_sn a))
         | ph => Running ((λ ret, (with_barrierSn (a_e a) (a_sn a), ret)) <$> body (a_sn a) ph)
         end (a_sn a) (a_log a).
Definition a_move (a : ARank) (ph : phase) : ARank := mkA (a_e a) (a_sn a) ph (a_log a).

(** The state machine's moves: calls, operations, failures, returns. *)
Inductive a_step (faulty : bool) (kv : gmap string bytes) (a : ARank) : gmap string bytes → ARank → Prop :=
| a_call : a_ph a = PIdle → a_sn a < K →
    a_step faulty kv a kv (mkA (a_e a) (a_sn a + 1) PAdd (a_log a))
| a_act op w kv' o :
    phase_op (a_sn a) (a_ph a) = Some (op, w) → kv_exec kv (at_key p op) w = Some (kv', o) →
    a_step faulty kv a kv' (a_move a (phase_next (a_sn a) (a_ph a) o))
| a_fault op w kv' code :
    faulty = true → phase_op (a_sn a) (a_ph a) = Some (op, w) →
    (kv' = kv ∨ kv' = (kv_apply kv (at_key p op)).1) → code ≠ SM_OK →
    a_step faulty kv a kv' (a_move a (phase_next (a_sn a) (a_ph a) (mkOut code None None)))
| a_return c : a_ph a = PRet c → a_step faulty kv a kv (mkA (a_e a) (a_sn a) PIdle (a_log a ++ [c])).

Definition a_ok (a : ARank) : Prop :=
  rankSize (option_ (a_e a)) = N ∧ groupVersion (versions (a_e a)) = g ∧ timeoutMs (option_ (a_e a)) = T ∧
  0 ≤ a_sn a ≤ K ∧ (a_ph a ≠ PIdle → 1 ≤ a_sn a) ∧
  (a_ph a = PRem1 ∨ a_ph a = PRem2 → 2 < a_sn a) ∧
  len (a_log a) = match a_ph a with PIdle => a_sn a | _ => a_sn a - 1 end.

Lemma conc_running a op w :
  phase_op (a_sn a) (a_ph a) = Some (op, w) →
  ∃ k, conc a = mkRank (Running (Act (Kv op w) k)) (a_sn a) (a_log a) ∧
    ∀ o, mkRank (Running (k o)) (a_sn a) (a_log a) = conc (a_move a (phase_next (a_sn a) (a_ph a) o)).
Proof.
  intros Hop. destruct (body_unfold _ _ _ _ Hop) as (k & Hb & Hk).
  exists (λ o, program_bind _ _ _ _ (λ r, Ret (with_barrierSn (a_e a) (a_sn a), r)) (k o)). split.
  - unfold conc. destruct (a_ph a); try done; by rewrite Hb.
  - intros o. rewrite Hk. unfold conc. cbn [a_move a_ph a_sn a_e a_log].
    assert (phase_next (a_sn a) (a_ph a) o ≠ PIdle) as Hne.
    { destruct (a_ph a); cbn [phase_next]; unfold after_add, after_rem; repeat case_match; done. }
    by destruct (phase_next (a_sn a) (a_ph a) o).
Qed.

Lemma phase_op_dec s ph :
  (∃ op w, phase_op s ph = Some (op, w)) ∨ ph = PIdle ∨ ∃ c, ph = PRet c.
Proof. destruct ph; cbn; eauto 6. Qed.

Lemma conc_phase a r :
  conc a = r →
  (a_ph a = PIdle ∧ r_cur r = Idle (with_barrierSn (a_e a) (a_sn a))) ∨
  (∃ c, a_ph a = PRet c ∧ r_cur r = Running (Ret (with_barrierSn (a_e a) (a_sn a), c))) ∨
  (∃ op w k, phase_op (a_sn a) (a_ph a) = Some (op, w) ∧ r_cur r = Running (Act (Kv op w) k) ∧
     ∀ o, mkRank (Running (k o)) (a_sn a) (a_log a) = conc (a_move a (phase_next (a_sn a) (a_ph a) o))).
Proof.
  intros <-. destruct (phase_op_dec (a_sn a) (a_ph a)) as [(op & w & Hop)|[Hi|[c Hc]]].
  - right; right. destruct (conc_running _ _ _ Hop) as (k & -> & Hk). eauto 8.
  - left. unfold conc. by rewrite Hi.
  - right; left. exists c. split; [done|]. unfold conc. by rewrite Hc.
Qed.

(** Every step of the system is a move of one abstract rank, and conversely. *)
Lemma sys_step_abs faulty kv l S' :
  Forall a_ok l → sys_step p faulty K (mkSys kv (conc <$> l)) S' →
  ∃ i a a' kv', l !! i = Some a ∧ a_step faulty kv a kv' a' ∧ S' = mkSys kv' (conc <$> <[i := a']> l).
Proof.
  intros Hok Hs. inversion Hs as [? ? i e n log Hi Hn|? ? i op w k n log kv' o Hi Hx
    |? ? i op w k n log kv' code Hf Hi Hkv Hc|? ? i e c n log Hi]; subst;
    apply list_lookup_fmap_Some in Hi as (a & Hi' & Ha);
    pose proof (Forall_lookup_1 _ _ _ _ Hok Ha) as (H1 & H2 & H3 & H4 & _).
  - symmetry in Hi'. destruct (conc_phase _ _ Hi') as [[Hp He]|[(c & _ & ?)|(? & ? & ? & _ & ? & _)]]; [|done..].
    injection Hi' as _ Hn' Hl'. injection He as ->.
    exists i, a, (mkA (a_e a) (a_sn a + 1) PAdd (a_log a)), kv. split; [done|].
    split; [constructor; [done|lia]|]. f_equal. rewrite list_fmap_insert. f_equal.
    unfold conc. cbn [a_ph a_sn a_e a_log body]. subst n log. f_equal.
    unfold GroupBarrier. cbn [with_barrierSn set_versions versions barrierGroupSn groupVersion option_].
    by rewrite u32_small, H1, H2, H3 by lia.
  - symmetry in Hi'. destruct (conc_phase _ _ Hi') as [[_ ?]|[(c & _ & ?)|(op' & w' & k' & Hop & He & Hk)]]; [done..|].
    injection He as <- <- <-. injection Hi' as _ Hn' Hl'.
    exists i, a, (a_move a (phase_next (a_sn a) (a_ph a) o)), kv'. split; [done|].
    split; [by econstructor|]. f_equal. rewrite list_fmap_insert, <- Hk. by subst.
  - symmetry in Hi'. destruct (conc_phase _ _ Hi') as [[_ ?]|[(c & _ & ?)|(op' & w' & k' & Hop & He & Hk)]]; [done..|].
    injection He as <- <- <-. injection Hi' as _ Hn' Hl'.
    exists i, a, (a_move a (phase_next (a_sn a) (a_ph a) (mkOut code None None))), kv'. split; [done|].
    split; [by econstructor|]. f_equal. rewrite list_fmap_insert, <- Hk. by subst.
  - symmetry in Hi'. destruct (conc_phase _ _ Hi') as [[_ ?]|[(c' & Hp & He)|(? & ? & ? & _ & ? & _)]]; [done| |done].
    injection He as -> ->. injection Hi' as _ Hn' Hl'.
    exists i, a, (mkA (a_e a) (a_sn a) PIdle (a_log a ++ [c'])), kv. split; [done|].
    split; [by constructor|]. f_equal. rewrite list_fmap_insert. by subst.
Qed.

Lemma abs_sys_step faulty kv l i a a' kv' :
  Forall a_ok l → l !! i = Some a → a_step faulty kv a kv' a' →
  ∃ S', sys_step p faulty K (mkSys kv (conc <$> l)) S'.
Proof.
  intros Hok Ha Hs.
  assert ((conc <$> l) !! i = Some (conc a)) as Hi by (by rewrite list_lookup_fmap, Ha).
  inversion Hs as [Hp Hlt|op w kv1 o Hop Hx|op w kv1 code Hf Hop Hkv Hc|c Hp]; subst.
  - eexists. eapply s_call; [|exact Hlt]. rewrite Hi. unfold conc. by rewrite Hp.
  - destruct (conc_running _ _ _ Hop) as (k & E & _). eexists. eapply s_act; [|exact Hx].
    rewrite Hi. by rewrite E.
  - destruct (conc_running _ _ _ Hop) as (k & E & _). eexists. eapply s_fault; [done| |exact Hkv|exact Hc].
    rewrite Hi. by rewrite E.
  - eexists. eapply s_return. rewrite Hi. unfold conc. by rewrite Hp.
Qed.

(** ** Keys and counts *)
Lemma BA_inj s t : 0 ≤ s < 2 ^ 32 → 0 ≤ t < 2 ^ 32 → BA s = BA t → s = t.
Proof.
  intros Hs Ht E. apply (inj (String.append (keyPrefix p))) in E.
  by apply sn_key_inj in E as [? _].
Qed.
Lemma BW_inj s t : 0 ≤ s < 2 ^ 32 → 0 ≤ t < 2 ^ 32 → BW s = BW t → s = t.
Proof.
  intros Hs Ht E. apply (inj (String.append (keyPrefix p))) in E.
  by apply sn_key_inj in E as [? _].
Qed.
Lemma BA_BW s t : 0 ≤ s < 2 ^ 32 → 0 ≤ t < 2 ^ 32 → BA s ≠ BW t.
Proof.
  intros Hs Ht E. apply (inj (String.append (keyPrefix p))) in E.
  by apply sn_key_inj in E as [_ ?].
Qed.

Definition is_add (ph : phase) : bool := match ph with PAdd => true | _ => false end.
(** The rank has counted itself in round [s]. *)
Definition added (s : Z) (a : ARank) : bool :=
  (s <? a_sn a) || ((s =? a_sn a) && negb (is_add (a_ph a))).
Definition all_added (s : Z) (l : list ARank) : Prop := ∀ i a, l !! i = Some a → added s a = true.
Definition cnt (s : Z) (l : list ARank) : Z := foldr (λ a n, (if added s a then 1 else 0) + n) 0 l.

Lemma cnt_insert s l i a a' :
  l !! i = Some a →
  cnt s (<[i := a']> l) = cnt s l - (if added s a then 1 else 0) + (if added s a' then 1 else 0).
Proof.
  revert i. induction l as [|b l IH]; intros [|i] Hi; try done.
  - injection Hi as ->. cbn. lia.
  - specialize (IH i Hi). change (<[S i := a']> (b :: l)) with (b :: <[i := a']> l).
    cbn [cnt foldr]. fold (cnt s l) (cnt s (<[i := a']> l)). lia.
Qed.
Lemma cnt_bounds s l : 0 ≤ cnt s l ≤ len l.
Proof.
  induction l as [|a l IH]; [by cbn|]. unfold len in *. cbn [cnt foldr List.length] in *.
  change (foldr _ 0 l) with (cnt s l). destruct (added s a); lia.
Qed.
Lemma cnt_full s l : len l ≤ cnt s l → all_added s l.
Proof.
  induction l as [|b l IH]; intros Hc i a Hi; [done|]. pose proof (cnt_bounds s l).
  unfold len in *. cbn [cnt foldr List.length] in *. change (foldr _ 0 l) with (cnt s l) in *.
  destruct i as [|i]; cbn in Hi.
  - injection Hi as ->. destruct (added s a); [done|lia].
  - eapply IH; [|exact Hi]. destruct (added s b); lia.
Qed.
Lemma all_added_cnt s l : all_added s l → cnt s l = len l.
Proof.
  induction l as [|b l IH]; intros Ha; [done|]. unfold len in *. cbn [cnt foldr List.length].
  change (foldr _ 0 l) with (cnt s l). rewrite (Ha 0%nat b eq_refl), IH; [lia|].
  intros i a Hi. by apply (Ha (S i)).
Qed.
Lemma cnt_pos s l i a : l !! i = Some a → added s a = true → 1 ≤ cnt s l.
Proof.
  revert i. induction l as [|b l IH]; intros [|i] Hi Ha; try done; cbn [cnt foldr];
    change (foldr _ 0 l) with (cnt s l).
  - injection Hi as ->. rewrite Ha. pose proof (cnt_bounds s l). lia.
  - specialize (IH _ Hi Ha). destruct (added s b); lia.
Qed.
Lemma cnt_ex s l : 0 < cnt s l → ∃ i a, l !! i = Some a ∧ added s a = true.
Proof.
  induction l as [|b l IH]; [by cbn|]. cbn [cnt foldr]. change (foldr _ 0 l) with (cnt s l).
  destruct (added s b) eqn:E; [intros _; by exists 0%nat, b|]. intros Hc.
  destruct IH as (i & a & Hi & Ha); [lia|]. by exists (S i), a.
Qed.

(** ** Safety *)
Lemma after_add_not s val : after_add s val ≠ PIdle ∧ after_add s val ≠ PAdd.
Proof. unfold after_add, after_rem. repeat case_match; done. Qed.
Lemma after_add_rem s val : after_add s val = PRem1 ∨ after_add s val = PRem2 → 2 < s.
Proof.
  unfold after_add, after_rem, REMOVE_INTERVAL. destruct (Z.ltb_spec 2 s); [done|].
  rewrite andb_false_r. case_match; naive_solver.
Qed.

Lemma phase_next_ok s ph op w o :
  phase_op s ph = Some (op, w) → (ph = PRem1 ∨ ph = PRem2 → 2 < s) →
  phase_next s ph o ≠ PIdle ∧ phase_next s ph o ≠ PAdd ∧
  (phase_next s ph o = PRem1 ∨ phase_next s ph o = PRem2 → 2 < s).
Proof.
  intros Hop Hr. destruct ph; try done; cbn [phase_next].
  - case_match; [naive_solver|]. destruct (after_add_not s (default 0 (o_num o))).
    split_and!; [done..|apply after_add_rem].
  - naive_solver.
  - unfold after_rem. case_match; naive_solver.
  - case_match; naive_solver.
  - repeat case_match; naive_solver.
Qed.

Lemma a_step_ok faulty kv a kv' a' : a_ok a → a_step faulty kv a kv' a' → a_ok a'.
Proof.
  intros (H1 & H2 & H3 & H4 & H5 & H6 & H7) Hs.
  assert (∀ op w o, phase_op (a_sn a) (a_ph a) = Some (op, w) →
    a_ok (a_move a (phase_next (a_sn a) (a_ph a) o))) as Hmove.
  { intros op w o Hop. destruct (phase_next_ok _ _ _ _ o Hop H6) as (Hi & Ha & Hr).
    assert (a_ph a ≠ PIdle) as Hne by (by intros E; rewrite E in Hop).
    split_and!; cbn [a_move a_e a_sn a_ph a_log]; try done; try tauto; try lia.
    destruct (a_ph a); try done; destruct (phase_next _ _ o); done. }
  inversion Hs as [Hp Hlt|op w kv1 o Hop Hx|op w kv1 code Hf Hop Hkv Hc|c Hp]; subst; [|by eauto..|].
  - rewrite Hp in *. split_and!; cbn; try done; try lia. naive_solver.
  - rewrite Hp in *. split_and!; cbn [a_e a_sn a_ph a_log]; try done; try lia; [naive_solver|].
    rewrite len_app. unfold len at 2. cbn. lia.
Qed.

(** A move never takes back a count. *)
Lemma a_step_mono faulty kv a kv' a' s :
  a_step faulty kv a kv' a' → added s a = true → added s a' = true.
Proof.
  unfold added. intros Hs.
  assert (∀ op w o, phase_op (a_sn a) (a_ph a) = Some (op, w) → phase_next (a_sn a) (a_ph a) o ≠ PAdd) as Hn.
  { intros op w o Hop. destruct (a_ph a); try done; cbn [phase_next]; unfold after_add, after_rem;
      repeat case_match; done. }
  inversion Hs as [Hp Hlt|op w kv1 o Hop Hx|op w kv1 code Hf Hop Hkv Hc|c Hp]; subst;
    cbn [a_move a_sn a_ph]; rewrite ?orb_true_iff, ?andb_true_iff.
  - lia.
  - specialize (Hn _ _ o Hop). destruct (phase_next _ _ _); naive_solver.
  - specialize (Hn _ _ (mkOut code None None) Hop). destruct (phase_next _ _ _); naive_solver.
  - naive_solver.
Qed.

Lemma mono_all l i a a' s :
  l !! i = Some a → (added s a = true → added s a' = true) → all_added s l → all_added s (<[i := a']> l).
Proof.
  intros Hi Hm Hall j b Hj. destruct (decide (i = j)) as [<-|Hne].
  - rewrite list_lookup_insert_eq in Hj by (by eapply lookup_lt_Some). injection Hj as <-. eauto.
  - rewrite list_lookup_insert_ne in Hj by done. eauto.
Qed.
Lemma mono_cnt l i a a' s :
  l !! i = Some a → (added s a = true → added s a' = true) → cnt s l ≤ cnt s (<[i := a']> l).
Proof.
  intros Hi Hm. rewrite (cnt_insert s l i a a' Hi). destruct (added s a); [rewrite Hm by done|destruct (added s a')]; lia.
Qed.

Record safe (kv : gmap string bytes) (l : list ARank) : Prop := {
  sf_len : len l = N;
  sf_ok : Forall a_ok l;
  sf_ba : ∀ s v, 1 ≤ s ≤ K → kv !! BA s = Some v → ∃ n, v = to_string n ∧ 1 ≤ n ≤ cnt s l;
  sf_bw : ∀ s v, 1 ≤ s ≤ K → kv !! BW s = Some v → all_added s l;
  sf_set : ∀ i a, l !! i = Some a → a_ph a = PSet ∨ a_ph a = PRet SM_OK → all_added (a_sn a) l;
  sf_log : ∀ i a n, l !! i = Some a → a_log a !! n = Some SM_OK → all_added (Z.of_nat n + 1) l;
}.

Lemma safe_update faulty kv l i a kv' a' :
  safe kv l → l !! i = Some a → a_step faulty kv a kv' a' →
  let l' := <[i := a']> l in
  (∀ s v, 1 ≤ s ≤ K → kv' !! BA s = Some v →
     kv !! BA s = Some v ∨ ∃ n, v = to_string n ∧ 1 ≤ n ≤ cnt s l') →
  (∀ s v, 1 ≤ s ≤ K → kv' !! BW s = Some v → kv !! BW s = Some v ∨ all_added s l') →
  (a_ph a' = PSet ∨ a_ph a' = PRet SM_OK → all_added (a_sn a') l') →
  (∀ n, a_log a' !! n = Some SM_OK → a_log a !! n = Some SM_OK ∨ all_added (Z.of_nat n + 1) l') →
  safe kv' l'.
Proof.
  intros [Hlen Hok Hba Hbw Hset Hlog] Hi Hs l' H1 H2 H3 H4.
  pose proof (λ s, a_step_mono _ _ _ _ _ s Hs) as Hm.
  assert (∀ s, all_added s l → all_added s l') as Hall by (intros s; apply (mono_all l i a); [done|apply Hm]).
  assert (∀ s, cnt s l ≤ cnt s l') as Hcnt by (intros s; apply (mono_cnt l i a); [done|apply Hm]).
  split.
  - unfold len, l'. by rewrite length_insert.
  - apply Forall_insert; [done|]. eapply a_step_ok; [|exact Hs]. by eapply Forall_lookup_1.
  - intros s v Hs' Hv. apply H1 in Hv as [Hv|Hv]; [|done|done]. apply Hba in Hv as (n & -> & Hn); [|done].
    exists n. specialize (Hcnt s). split; [done|lia].
  - intros s v Hs' Hv. apply H2 in Hv as [Hv|Hv]; [|done|done]. apply Hall. by eapply Hbw.
  - intros j b Hj Hb. unfold l' in Hj. destruct (decide (i = j)) as [<-|Hne].
    + rewrite list_lookup_insert_eq in Hj by (by eapply lookup_lt_Some). injection Hj as <-. auto.
    + rewrite list_lookup_insert_ne in Hj by done. eauto.
  - intros j b n Hj Hb. unfold l' in Hj. destruct (decide (i = j)) as [<-|Hne].
    + rewrite list_lookup_insert_eq in Hj by (by eapply lookup_lt_Some). injection Hj as <-.
      apply H4 in Hb as [Hb|Hb]; [|done]. eauto.
    + rewrite list_lookup_insert_ne in Hj by done. eauto.
Qed.

(** What the operations do to the keys. *)
Lemma kv_remove kv k : (kv_apply kv (KRemove k)).1 = delete k kv.
Proof. cbn. destruct (kv !! k) eqn:E; [done|]. cbn. by rewrite delete_id. Qed.

Lemma add_effect kv l s w :
  safe kv l → 1 ≤ s ≤ K →
  ∃ m, 0 ≤ m ≤ cnt s l ∧ (kv_apply kv (KAdd (BA s) 1)).1 = <[BA s := to_string (m + 1)]> kv ∧
    kv_outcome kv (KAdd (BA s) 1) w = Some (mkOut SUCCESS None (Some (m + 1))) ∧
    match kv !! BA s with None => m = 0 | Some v => v = to_string m end.
Proof.
  intros Hsf Hs. pose proof (cnt_bounds s l) as Hc. pose proof (sf_len _ _ Hsf) as Hl. cbn.
  destruct (kv !! BA s) as [v|] eqn:E.
  - destruct (sf_ba _ _ Hsf _ _ Hs E) as (n & -> & Hn). exists n.
    rewrite stored_number_to_string by (unfold I64_MIN, I64_MAX; lia).
    rewrite i64_small by lia. split_and!; [lia|lia|done..].
  - exists 0. split_and!; [lia|lia|done..].
Qed.

Lemma u32_sn s : 2 < s ≤ K → u32 (s - 2) = s - 2.
Proof. intros. apply u32_small. lia. Qed.

(** The keys behind an operation that took effect or not, by phase. *)
Lemma added_self a ph : ph ≠ PAdd → added (a_sn a) (a_move a ph) = true.
Proof.
  intros Hph. unfold added, a_move. cbn. rewrite Z.eqb_refl, Z.ltb_irrefl. by destruct ph.
Qed.

Section SafeOp.
Context (faulty : bool) (kv kv' : gmap string bytes) (l : list ARank) (i : nat) (a : ARank).
Context (op : KvOp) (w : Z) (o : Outcome).
Local Abbreviation s0 := (a_sn a).
Local Abbreviation a' := (a_move a (phase_next (a_sn a) (a_ph a) o)).
Local Abbreviation l' := (<[i := a_move a (phase_next (a_sn a) (a_ph a) o)]> l).
Context (Hsf : safe kv l) (Hi : l !! i = Some a) (Hop : phase_op s0 (a_ph a) = Some (op, w)).
Context (Hkv : kv' = kv ∨ kv' = (kv_apply kv (at_key p op)).1).
Context (Ho : o_code o = SM_OK →
  kv' = (kv_apply kv (at_key p op)).1 ∧ kv_outcome kv (at_key p op) w = Some o).
Context (Hs : a_step faulty kv a kv' a').

Lemma op_range : 1 ≤ s0 ≤ K ∧ len l' = N ∧ (a_ph a = PRem1 ∨ a_ph a = PRem2 → u32 (s0 - 2) = s0 - 2).
Proof.
  destruct (Forall_lookup_1 _ _ _ _ (sf_ok _ _ Hsf) Hi) as (_ & _ & _ & Hr & H1 & H2 & _).
  assert (a_ph a ≠ PIdle) as Hni by (by intros E; rewrite E in Hop). specialize (H1 Hni).
  split; [lia|]. split.
  - unfold len. rewrite length_insert. apply (sf_len _ _ Hsf).
  - intros Hp. specialize (H2 Hp). apply u32_sn. lia.
Qed.

Lemma op_self : l' !! i = Some a' ∧ added s0 a' = true.
Proof.
  split; [apply list_lookup_insert_eq; by eapply lookup_lt_Some|]. apply added_self.
  destruct (a_ph a); try done; cbn [phase_next]; repeat case_match; try done.
  - apply after_add_not.
  - unfold after_rem. by case_match.
Qed.

(** The obligations that are left when keys were only removed. *)
Lemma safe_shrink :
  kv' ⊆ kv → (a_ph a' = PSet ∨ a_ph a' = PRet SM_OK → all_added s0 l') → safe kv' l'.
Proof.
  intros Hsub Hph. eapply safe_update; [done|done|exact Hs| | |exact Hph|by left].
  - intros s v _ Hv. left. by eapply lookup_weaken.
  - intros s v _ Hv. left. by eapply lookup_weaken.
Qed.

Lemma cnt_add : a_ph a = PAdd → cnt s0 l' = cnt s0 l + 1.
Proof.
  intros Eph. rewrite (cnt_insert _ _ _ _ _ Hi), (proj2 op_self).
  assert (added s0 a = false) as ->; [|lia]. unfold added. by rewrite Eph, Z.ltb_irrefl, Z.eqb_refl.
Qed.

Lemma safe_add : a_ph a = PAdd → safe kv' l'.
Proof.
  intros Eph. destruct op_range as (Hr & Hlen & _). pose proof (cnt_add Eph) as Hcnt.
  assert (op = KAdd (bak s0) 1 ∧ w = -1) as [-> ->] by (rewrite Eph in Hop; by injection Hop).
  cbn [at_key] in *. fold (BA s0) in *.
  destruct (add_effect kv l s0 (-1) Hsf Hr) as (m & Hm & Heff & Hout & _).
  eapply safe_update; [done|done|exact Hs| | | |by left].
  - intros s v Hs' Hv. destruct Hkv as [->| ->]; [by left|]. rewrite Heff, lookup_insert in Hv.
    case_decide as E; [|by left]. apply BA_inj in E; [|lia..]. subst s. injection Hv as <-.
    right. exists (m + 1). split; [done|lia].
  - intros s v Hs' Hv. destruct Hkv as [->| ->]; [by left|]. rewrite Heff in Hv.
    rewrite lookup_insert_ne in Hv by (apply BA_BW; lia). by left.
  - intros Hph. cbn [a_move a_ph a_sn] in *. rewrite Eph in Hph. cbn [phase_next] in Hph.
    destruct (Z.eqb_spec (o_code o) SM_OK) as [Hc|]; [|naive_solver]. cbn [negb] in Hph.
    destruct (Ho Hc) as [_ Ho']. rewrite Hout in Ho'. injection Ho' as <-. cbn [o_num default] in Hph.
    apply cnt_full. rewrite Hlen, Hcnt.
    unfold after_add, after_rem in Hph. cbn in Hph. repeat case_match; naive_solver lia.
Qed.

Lemma safe_rem : a_ph a = PRem1 ∨ a_ph a = PRem2 → safe kv' l'.
Proof.
  intros Eph. destruct op_range as (Hr & Hlen & _). destruct op_self as [Hi' Ha'].
  assert (kv' ⊆ kv) as Hsub.
  { assert (∃ k, op = KRemove k) as [k ->].
    { destruct Eph as [E|E]; rewrite E in Hop; injection Hop as <- <-; eauto. }
    cbn [at_key] in Hkv. rewrite kv_remove in Hkv. destruct Hkv as [->| ->]; [done|apply delete_subseteq]. }
  apply safe_shrink; [done|]. intros Hph. apply cnt_full. rewrite Hlen.
  pose proof (cnt_pos _ _ _ _ Hi' Ha') as Hc. cbn [a_move a_ph] in Hph.
  destruct Eph as [E|E]; rewrite E in Hph; cbn [phase_next] in Hph; [naive_solver|].
  unfold after_rem in Hph. destruct (Z.eqb_spec 1 N); [lia|naive_solver].
Qed.

Lemma safe_set_op : a_ph a = PSet → safe kv' l'.
Proof.
  intros Eph. destruct op_range as (Hr & Hlen & _).
  assert (op = KSet (bwk s0) SMEM_GROUP_SET_STR) as -> by (rewrite Eph in Hop; by injection Hop).
  cbn [at_key kv_apply fst] in Hkv. fold (BW s0) in *.
  assert (all_added s0 l') as Hall.
  { eapply mono_all; [done|by apply (a_step_mono _ _ _ _ _ _ Hs)|]. apply (sf_set _ _ Hsf _ _ Hi). by left. }
  eapply safe_update; [done|done|exact Hs| | |by intros _|by left].
  - intros s v Hs' Hv. destruct Hkv as [->| ->]; [by left|].
    rewrite lookup_insert_ne in Hv by (intros E; symmetry in E; revert E; apply BA_BW; lia). by left.
  - intros s v Hs' Hv. destruct Hkv as [->| ->]; [by left|].
    rewrite lookup_insert in Hv. case_decide as E; [|by left]. apply BW_inj in E; [|lia..]. subst s. by right.
Qed.

Lemma safe_get : a_ph a = PGet → safe kv' l'.
Proof.
  intros Eph. destruct op_range as (Hr & Hlen & _).
  assert (op = KGet (bwk s0) ∧ w = i64 T) as [Eo Ew] by (rewrite Eph in Hop; by injection Hop).
  assert (kv' = kv) as Hsame.
  { destruct Hkv as [?|Hkv']; [done|]. rewrite Hkv', Eo. cbn. by destruct (kv !! _). }
  apply safe_shrink; [by rewrite Hsame|]. intros Hph.
  cbn [a_move a_ph] in Hph. rewrite Eph in Hph. cbn [phase_next] in Hph.
  destruct (Z.eqb_spec (o_code o) SM_OK) as [Hc|]; [|naive_solver]. destruct (Ho Hc) as [_ Ho'].
  rewrite Eo in Ho'. cbn [at_key kv_outcome] in Ho'. fold (BW s0) in Ho'.
  eapply mono_all; [done|by apply (a_step_mono _ _ _ _ _ _ Hs)|].
  destruct (kv !! BW s0) as [v|] eqn:E; [by eapply (sf_bw _ _ Hsf)|].
  case_match; [|done]. injection Ho' as <-. done.
Qed.

Lemma safe_op : safe kv' l'.
Proof.
  assert (a_ph a = PAdd ∨ (a_ph a = PRem1 ∨ a_ph a = PRem2) ∨ a_ph a = PSet ∨ a_ph a = PGet)
    as [E|[E|[E|E]]].
  { clear -Hop. destruct (a_ph a); try done; tauto. }
  - by apply safe_add.
  - by apply safe_rem.
  - by apply safe_set_op.
  - by apply safe_get.
Qed.
End SafeOp.

Lemma safe_step faulty kv l i a kv' a' :
  safe kv l → l !! i = Some a → a_step faulty kv a kv' a' → safe kv' (<[i := a']> l).
Proof.
  intros Hsf Hi Hs. pose proof Hs as Hs'.
  inversion Hs' as [Hp Hlt|op w kv1 o Hop Hx|op w kv1 code Hf Hop Hkv Hc|c Hp]; subst.
  - eapply safe_update; [done|done|exact Hs|by left|by left|naive_solver|by left].
  - unfold kv_exec in Hx. apply fmap_Some in Hx as (o' & Ho & [= -> ->]).
    eapply safe_op; [done|done|exact Hop|by right|done|exact Hs].
  - eapply safe_op; [done|done|exact Hop|exact Hkv|by intros ?|exact Hs].
  - eapply safe_update; [done|done|exact Hs|by left|by left|naive_solver|].
    intros n Hn. cbn [a_log] in Hn. apply lookup_app_Some in Hn as [Hn|[Hge Hn]]; [by left|]. right.
    apply list_lookup_singleton_Some in Hn as [Hn ->].
    destruct (Forall_lookup_1 _ _ _ _ (sf_ok _ _ Hsf) Hi) as (_ & _ & _ & _ & _ & _ & Hlog).
    rewrite Hp in Hlog. replace (Z.of_nat n + 1) with (a_sn a) by (unfold len in Hlog; lia).
    eapply mono_all; [done|by apply (a_step_mono _ _ _ _ _ _ Hs)|]. apply (sf_set _ _ Hsf _ _ Hi). by right.
Qed.

(** ** Runs *)
Definition engine_ok (e : Engine) : Prop :=
  rankSize (option_ e) = N ∧ groupVersion (versions e) = g ∧ timeoutMs (option_ e) = T ∧
  barrierGroupSn (versions e) = 0.
Definition kv_clean (kv : gmap string bytes) : Prop :=
  ∀ s, 1 ≤ s ≤ K → kv !! BA s = None ∧ kv !! BW s = None.
Definition a_init (es : list Engine) : list ARank := (λ e, mkA e 0 PIdle []) <$> es.

Lemma init_conc kv es :
  Forall engine_ok es → sys_init kv es = mkSys kv (conc <$> a_init es).
Proof.
  intros Hes. unfold sys_init, a_init. f_equal. rewrite <- list_fmap_compose.
  apply list_fmap_ext. intros i e He. apply (Forall_lookup_1 _ _ _ _ Hes) in He as (_ & _ & _ & H0).
  cbn. f_equal. f_equal. destruct e as [o [v ga b] li j st' ex bm ug ub al]. cbn in H0. by subst b.
Qed.

Lemma a_init_lookup es i a : a_init es !! i = Some a → ∃ e, es !! i = Some e ∧ a = mkA e 0 PIdle [].
Proof. intros (e & -> & He)%list_lookup_fmap_Some. eauto. Qed.

Lemma safe_init kv es :
  len es = N → Forall engine_ok es → kv_clean kv → safe kv (a_init es).
Proof.
  intros Hl Hes Hkv. split.
  - unfold len, a_init. by rewrite length_fmap.
  - apply Forall_lookup_2. intros i a (e & He & ->)%a_init_lookup.
    apply (Forall_lookup_1 _ _ _ _ Hes) in He as (? & ? & ? & _).
    split_and!; cbn; try done; lia || naive_solver.
  - intros s v Hs. by rewrite (proj1 (Hkv s Hs)).
  - intros s v Hs. by rewrite (proj2 (Hkv s Hs)).
  - intros i a (e & He & ->)%a_init_lookup. cbn. naive_solver.
  - intros i a n (e & He & ->)%a_init_lookup. cbn. done.
Qed.

Lemma safe_reach faulty kv es S :
  len es = N → Forall engine_ok es → kv_clean kv → rtc (sys_step p faulty K) (sys_init kv es) S →
  ∃ kv' l, S = mkSys kv' (conc <$> l) ∧ safe kv' l.
Proof.
  intros Hl Hes Hkv Hr. rewrite init_conc in Hr by done.
  pose proof (safe_init kv es Hl Hes Hkv) as Hsf. remember (a_init es) as l eqn:El. clear El Hes Hkv Hl.
  remember (mkSys kv (conc <$> l)) as S0 eqn:E0. revert kv l E0 Hsf.
  induction Hr as [S0|S0 S1 S2 H1 _ IH]; intros kv l -> Hsf; [eauto|].
  apply sys_step_abs in H1 as (i & a & a' & kv' & Hi & Hs & ->); [|by apply sf_ok in Hsf].
  eapply IH; [done|]. by eapply safe_step.
Qed.

(** ** Progress *)
Definition pending (ph : phase) : Prop := ph = PSet ∨ (N = 1 ∧ (ph = PRem1 ∨ ph = PRem2)).

Record live (kv : gmap string bytes) (l : list ARank) : Prop := {
  lv_safe : safe kv l;
  lv_ok : ∀ i a, l !! i = Some a →
    Forall (λ c, c = SM_OK) (a_log a) ∧ ∀ c, a_ph a = PRet c → c = SM_OK;
  lv_ba : ∀ s, 1 ≤ s ≤ K → 0 < cnt (s + 2) l ∨
    kv !! BA s = if cnt s l =? 0 then None else Some (to_string (cnt s l));
  lv_val : ∀ s v, 1 ≤ s ≤ K → kv !! BW s = Some v → v = SMEM_GROUP_SET_STR;
  lv_bw : ∀ s, 1 ≤ s ≤ K → kv !! BW s = None →
    ¬ all_added s l ∨ (∃ i a, l !! i = Some a ∧ a_sn a = s ∧ pending (a_ph a)) ∨ 0 < cnt (s + 2) l;
}.

(** A rank beyond a round has returned from it, so everybody counted. *)
Lemma live_behind kv l i a s :
  live kv l → l !! i = Some a → 1 ≤ s < a_sn a → all_added s l.
Proof.
  intros [Hsf Hok _ _ _] Hi Hs.
  destruct (Forall_lookup_1 _ _ _ _ (sf_ok _ _ Hsf) Hi) as (_ & _ & _ & _ & _ & _ & Hlog).
  destruct (Hok _ _ Hi) as [Hall _].
  destruct (lookup_lt_is_Some_2 (a_log a) (Z.to_nat (s - 1))) as [c Hc].
  { unfold len in Hlog. destruct (a_ph a); lia. }
  pose proof (Forall_lookup_1 _ _ _ _ Hall Hc) as ->.
  replace s with (Z.of_nat (Z.to_nat (s - 1)) + 1) by lia. by eapply (sf_log _ _ Hsf).
Qed.
Lemma live_ahead kv l i a s :
  live kv l → l !! i = Some a → 1 ≤ s → added (s + 1) a = false → cnt (s + 2) l = 0.
Proof.
  intros Hlv Hi Hs Ha. pose proof (cnt_bounds (s + 2) l).
  destruct (Z_le_gt_dec (cnt (s + 2) l) 0) as [|Hgt]; [lia|].
  destruct (cnt_ex (s + 2) l ltac:(lia)) as (j & b & Hj & Hb).
  assert (all_added (s + 1) l) as Hall.
  { eapply live_behind; [done|exact Hj|]. unfold added in Hb. lia. }
  rewrite (Hall _ _ Hi) in Ha. done.
Qed.

(** What is left to show for a move that counts nobody. *)
Lemma live_quiet kv l i a kv' a' :
  live kv l → l !! i = Some a → a_step false kv a kv' a' →
  let l' := <[i := a']> l in
  (∀ s, 1 ≤ s → added s a' = added s a) →
  Forall (λ c, c = SM_OK) (a_log a') → (∀ c, a_ph a' = PRet c → c = SM_OK) →
  (∀ s, 1 ≤ s ≤ K → kv' !! BA s = kv !! BA s ∨ 0 < cnt (s + 2) l) →
  (∀ s v, 1 ≤ s ≤ K → kv' !! BW s = Some v → v = SMEM_GROUP_SET_STR) →
  (∀ s, 1 ≤ s ≤ K → kv' !! BW s = None → kv !! BW s = None ∨ 0 < cnt (s + 2) l) →
  (pending (a_ph a) → (a_sn a' = a_sn a ∧ pending (a_ph a')) ∨ is_Some (kv' !! BW (a_sn a))) →
  live kv' l'.
Proof.
  intros Hlv Hi Hs l' Hadd Hlog Hret Hba Hval Hbw Hpend.
  pose proof Hlv as [Hsf Hok Lba Lval Lbw].
  assert (l' !! i = Some a') as Hi' by (apply list_lookup_insert_eq; by eapply lookup_lt_Some).
  assert (∀ s, 1 ≤ s → cnt s l' = cnt s l) as Hcnt.
  { intros s Hs'. unfold l'. rewrite (cnt_insert _ _ _ _ _ Hi), Hadd by done. lia. }
  split.
  - by eapply safe_step.
  - intros j b Hj. unfold l' in Hj. destruct (decide (i = j)) as [<-|Hne].
    + rewrite list_lookup_insert_eq in Hj by (by eapply lookup_lt_Some). injection Hj as <-. done.
    + rewrite list_lookup_insert_ne in Hj by done. eauto.
  - intros s Hs'. rewrite !Hcnt by lia. destruct (Hba s Hs') as [->|?]; [eauto|by left].
  - done.
  - intros s Hs' Hn. rewrite !Hcnt by lia. destruct (Hbw s Hs' Hn) as [Hn'|?]; [|tauto].
    destruct (Lbw s Hs' Hn') as [Hna|[(j & b & Hj & Hsn & Hp)|?]]; [| |tauto].
    + left. intros Hall. apply Hna, cnt_full. rewrite <- Hcnt by lia.
      rewrite (all_added_cnt _ _ Hall). unfold len, l'. by rewrite length_insert.
    + right; left. destruct (decide (i = j)) as [<-|Hne].
      * assert (b = a) as -> by congruence. subst s. destruct (Hpend Hp) as [[Hsn Hp']|[v Hv]]; [|congruence].
        eauto 6.
      * exists j, b. unfold l'. rewrite list_lookup_insert_ne by done. done.
Qed.

Lemma added_move s a ph : is_add ph = is_add (a_ph a) → added s (a_move a ph) = added s a.
Proof. intros E. unfold added. cbn. by rewrite E. Qed.

Lemma added_beyond s a : a_sn a < s → added s a = false.
Proof.
  intros Hs. unfold added. rewrite (proj2 (Z.ltb_ge _ _)), (proj2 (Z.eqb_neq s (a_sn a))) by lia. done.
Qed.

Lemma live_call kv l i a :
  live kv l → l !! i = Some a → a_ph a = PIdle → a_sn a < K →
  live kv (<[i := mkA (a_e a) (a_sn a + 1) PAdd (a_log a)]> l).
Proof.
  intros Hlv Hi Hp Hlt. destruct (lv_ok _ _ Hlv _ _ Hi) as [Hlog _].
  eapply live_quiet; [done|done|by constructor| |done|done|by left|apply (lv_val _ _ Hlv)|by left|].
  - intros s Hs. unfold added. cbn. rewrite Hp. cbn. lia.
  - rewrite Hp. unfold pending. naive_solver.
Qed.

Lemma live_return kv l i a c :
  live kv l → l !! i = Some a → a_ph a = PRet c →
  live kv (<[i := mkA (a_e a) (a_sn a) PIdle (a_log a ++ [c])]> l).
Proof.
  intros Hlv Hi Hp. destruct (lv_ok _ _ Hlv _ _ Hi) as [Hlog Hret]. pose proof (Hret _ Hp) as ->.
  eapply live_quiet; [done|done|by constructor| | |done|by left|apply (lv_val _ _ Hlv)|by left|].
  - intros s Hs. unfold added. cbn. by rewrite Hp.
  - cbn. apply Forall_app. auto.
  - rewrite Hp. unfold pending. naive_solver.
Qed.

Section LiveOp.
Context (HT : i64 T ≠ 0).
Context (kv : gmap string bytes) (l : list ARank) (i : nat) (a : ARank).
Context (op : KvOp) (w : Z) (o : Outcome).
Local Abbreviation s0 := (a_sn a).
Local Abbreviation a' := (a_move a (phase_next (a_sn a) (a_ph a) o)).
Local Abbreviation kv' := (kv_apply kv (at_key p op)).1.
Context (Hlv : live kv l) (Hi : l !! i = Some a) (Hop : phase_op s0 (a_ph a) = Some (op, w)).
Context (Ho : kv_outcome kv (at_key p op) w = Some o).

Lemma live_astep : a_step false kv a kv' a'.
Proof. eapply a_act; [exact Hop|]. unfold kv_exec. by rewrite Ho. Qed.
Lemma live_range : 1 ≤ s0 ≤ K ∧ (a_ph a = PRem1 ∨ a_ph a = PRem2 → u32 (s0 - 2) = s0 - 2 ∧ 2 < s0).
Proof.
  destruct (Forall_lookup_1 _ _ _ _ (sf_ok _ _ (lv_safe _ _ Hlv)) Hi) as (_ & _ & _ & Hr & H1 & H2 & _).
  assert (a_ph a ≠ PIdle) as Hni by (by intros E; rewrite E in Hop). specialize (H1 Hni).
  split; [lia|]. intros Hp. specialize (H2 Hp). rewrite u32_sn; lia.
Qed.
Lemma live_log : Forall (λ c, c = SM_OK) (a_log a).
Proof. by destruct (lv_ok _ _ Hlv _ _ Hi). Qed.
Lemma live_self : a_ph a ≠ PAdd → 0 < cnt s0 l.
Proof.
  intros Hna. pose proof (cnt_pos s0 l i a Hi) as Hc. apply Z.lt_le_trans with 1; [lia|]. apply Hc.
  unfold added. rewrite Z.eqb_refl, Z.ltb_irrefl. by destruct (a_ph a).
Qed.

(** Removing a key of the round before the last. *)
Lemma live_rem1 : a_ph a = PRem1 → live kv' (<[i := a']> l).
Proof.
  intros Eph. destruct live_range as [Hr Hu]. destruct Hu as [Hu H2]; [auto|].
  assert (kv' = delete (BA (s0 - 2)) kv) as Hkv.
  { assert (op = KRemove (bak (u32 (s0 - 2)))) as -> by (rewrite Eph in Hop; by injection Hop).
    cbn [at_key]. by rewrite kv_remove, Hu. }
  pose proof (live_self ltac:(by rewrite Eph)) as Hself.
  eapply live_quiet; [done|done|exact live_astep| |exact live_log| | | | |].
  - intros s Hs. apply added_move. by rewrite Eph.
  - cbn. rewrite Eph. done.
  - intros s Hs. rewrite Hkv. destruct (decide (s = s0 - 2)) as [->|Hne].
    + right. by replace (s0 - 2 + 2) with s0 by lia.
    + left. apply lookup_delete_ne. intros E. apply BA_inj in E; lia.
  - intros s v Hs. rewrite Hkv, lookup_delete_ne by (apply BA_BW; lia). by apply (lv_val _ _ Hlv).
  - intros s Hs. rewrite Hkv, lookup_delete_ne by (apply BA_BW; lia). by left.
  - rewrite Eph. unfold pending. intros [?|[? _]]; [done|]. left. cbn. auto.
Qed.

Lemma live_rem2 : a_ph a = PRem2 → live kv' (<[i := a']> l).
Proof.
  intros Eph. destruct live_range as [Hr Hu]. destruct Hu as [Hu H2]; [auto|].
  assert (kv' = delete (BW (s0 - 2)) kv) as Hkv.
  { assert (op = KRemove (bwk (u32 (s0 - 2)))) as -> by (rewrite Eph in Hop; by injection Hop).
    cbn [at_key]. by rewrite kv_remove, Hu. }
  pose proof (live_self ltac:(by rewrite Eph)) as Hself.
  assert (∀ x y, 0 ≤ x < 2 ^ 32 → 0 ≤ y < 2 ^ 32 → BW x ≠ BA y) as Hne'
    by (intros x y Hx Hy E; symmetry in E; revert E; by apply BA_BW).
  eapply live_quiet; [done|done|exact live_astep| |exact live_log| | | | |].
  - intros s Hs. apply added_move. rewrite Eph. cbn. unfold after_rem. by case_match.
  - cbn. rewrite Eph. cbn. unfold after_rem. by case_match.
  - intros s Hs. rewrite Hkv, lookup_delete_ne by (apply Hne'; lia). by left.
  - intros s v Hs. rewrite Hkv. intros [_ Hv]%lookup_delete_Some. by apply (lv_val _ _ Hlv s v Hs).
  - intros s Hs Hn. rewrite Hkv in Hn. destruct (decide (s = s0 - 2)) as [->|Hne].
    + right. by replace (s0 - 2 + 2) with s0 by lia.
    + left. by rewrite lookup_delete_ne in Hn by (intros E; apply BW_inj in E; lia).
  - rewrite Eph. unfold pending. intros [?|[? _]]; [done|]. left. cbn.
    unfold after_rem. rewrite (proj2 (Z.eqb_eq 1 N)) by lia. auto.
Qed.

Lemma live_set : a_ph a = PSet → live kv' (<[i := a']> l).
Proof.
  intros Eph. destruct live_range as [Hr _].
  assert (op = KSet (bwk s0) SMEM_GROUP_SET_STR ∧ w = -1) as [Eo Ew] by (rewrite Eph in Hop; by injection Hop).
  assert (kv' = <[BW s0 := SMEM_GROUP_SET_STR]> kv) as Hkv by (by rewrite Eo).
  assert (o = mkOut SUCCESS None None) as Eout by (rewrite Eo in Ho; cbn in Ho; congruence).
  eapply live_quiet; [done|done|exact live_astep| |exact live_log| | | | |].
  - intros s Hs. apply added_move. rewrite Eph. cbn. by case_match.
  - cbn. rewrite Eph, Eout. done.
  - intros s Hs. rewrite Hkv. left. apply lookup_insert_ne. intros E. symmetry in E. revert E. apply BA_BW; lia.
  - intros s v Hs. rewrite Hkv, lookup_insert. case_decide; [naive_solver|]. by apply (lv_val _ _ Hlv).
  - intros s Hs. rewrite Hkv, lookup_insert. case_decide; [done|by left].
  - intros _. right. rewrite Hkv, lookup_insert_eq. eauto.
Qed.

Lemma live_get : a_ph a = PGet → live kv' (<[i := a']> l).
Proof.
  intros Eph. destruct live_range as [Hr _].
  assert (op = KGet (bwk s0) ∧ w = i64 T) as [Eo Ew] by (rewrite Eph in Hop; by injection Hop).
  assert (kv' = kv) as Hkv by (rewrite Eo; cbn; by destruct (kv !! _)).
  assert (o = mkOut SUCCESS (Some SMEM_GROUP_SET_STR) None) as Eout.
  { rewrite Eo, Ew in Ho. cbn [at_key kv_outcome] in Ho. fold (BW s0) in Ho.
    destruct (kv !! BW s0) as [v|] eqn:E.
    - rewrite (lv_val _ _ Hlv s0 v Hr E) in Ho. congruence.
    - destruct (Z.eqb_spec (i64 T) 0); done. }
  eapply live_quiet; [done|done|exact live_astep| |exact live_log| | | | |]; rewrite ?Hkv.
  - intros s Hs. apply added_move. rewrite Eph, Eout. done.
  - cbn. rewrite Eph, Eout. cbn. by intros c [= <-].
  - by left.
  - apply (lv_val _ _ Hlv).
  - by left.
  - rewrite Eph. unfold pending. naive_solver.
Qed.

(** The addition is the one transition that changes how many ranks have added. *)
Section LiveAdd.
Context (Eph : a_ph a = PAdd).
Local Abbreviation l' := (<[i := a']> l).

Lemma live_add_effect :
  kv' = <[BA s0 := to_string (cnt s0 l + 1)]> kv ∧ a_ph a' = after_add s0 (cnt s0 l + 1).
Proof.
  destruct live_range as [Hr _]. pose proof (lv_safe _ _ Hlv) as Hsf.
  assert (op = KAdd (bak s0) 1 ∧ w = -1) as [Eo Ew] by (rewrite Eph in Hop; by injection Hop).
  destruct (add_effect kv l s0 (-1) Hsf Hr) as (m & Hm & Heff & Hout & Hbase).
  assert (m = cnt s0 l) as ->.
  { pose proof (sf_len _ _ Hsf) as Hlen. destruct (lv_ba _ _ Hlv s0 Hr) as [Hpos|Hb].
    - rewrite (live_ahead _ _ _ _ s0 Hlv Hi) in Hpos; [lia|lia|]. apply added_beyond. lia.
    - rewrite Hb in Hbase. pose proof (cnt_bounds s0 l). destruct (Z.eqb_spec (cnt s0 l) 0); [lia|].
      apply to_string_inj in Hbase; [done|unfold I64_MIN, I64_MAX; lia..]. }
  split; [rewrite Eo; exact Heff|].
  assert (o = mkOut SUCCESS None (Some (cnt s0 l + 1))) as Eout.
  { rewrite Eo, Ew in Ho. cbn [at_key] in Ho. fold (BA s0) in Ho. congruence. }
  cbn. by rewrite Eph, Eout.
Qed.

Lemma live_add_cnt s : cnt s l' = cnt s l + if decide (s = s0) then 1 else 0.
Proof.
  destruct live_add_effect as [_ Eph']. destruct (after_add_not s0 (cnt s0 l + 1)) as [_ Hna].
  assert (added s a' = if decide (s = s0) then true else added s a) as Hadd.
  { unfold added. rewrite Eph', Eph. cbn [a_move a_sn is_add].
    case_decide; [subst; rewrite Z.eqb_refl; destruct (after_add (a_sn a) _); rewrite ?orb_true_r; done|].
    rewrite (proj2 (Z.eqb_neq s s0)) by done. done. }
  rewrite (cnt_insert _ _ _ _ _ Hi), Hadd. case_decide; [|destruct (added s a); lia].
  subst. assert (added s0 a = false) as -> by (unfold added; rewrite Eph, Z.ltb_irrefl, Z.eqb_refl; done).
  lia.
Qed.

Lemma live_add_full s : all_added s l' → cnt s l' = len l.
Proof. intros Hall. rewrite (all_added_cnt _ _ Hall). unfold len. by rewrite length_insert. Qed.

(** The round that nobody has announced yet: the last rank to add is on its way
    to set the wait key; the other rounds keep their reason. *)
Lemma live_add_bw s : 1 ≤ s ≤ K → kv !! BW s = None →
  ¬ all_added s l' ∨ (∃ j b, l' !! j = Some b ∧ a_sn b = s ∧ pending (a_ph b)) ∨ 0 < cnt (s + 2) l'.
Proof.
  intros Hs Hn. pose proof (live_add_cnt s) as Hc. pose proof (sf_len _ _ (lv_safe _ _ Hlv)) as Hlen.
  destruct (decide (s = s0)) as [->|Hne].
  - destruct (decide (cnt s0 l' = N)) as [HN'|HN'].
    + right; left. exists i, a'.
      split_and!; [apply list_lookup_insert_eq; by eapply lookup_lt_Some|done|].
      destruct live_add_effect as [_ ->]. unfold after_add, after_rem, pending.
      rewrite (proj2 (Z.eqb_eq _ N)) by lia.
      destruct (Z.eqb_spec (cnt s0 l + 1) 1); cbn [andb]; [|by left].
      destruct (REMOVE_INTERVAL <? s0); [|by left]. right. split; [lia|by left].
    + left. intros Hall. apply HN'. by rewrite (live_add_full _ Hall).
  - destruct (lv_bw _ _ Hlv s Hs Hn) as [Hx|[(j & b & Hj & Hsn & Hp)|Hx]].
    + left. intros Hall. apply Hx, cnt_full. rewrite (live_add_full _ Hall) in Hc. lia.
    + right; left. exists j, b. destruct (decide (i = j)) as [<-|Hij].
      { assert (b = a) as -> by congruence. done. }
      rewrite list_lookup_insert_ne by done. done.
    + right; right. rewrite live_add_cnt. case_decide; lia.
Qed.

Lemma live_add : live kv' l'.
Proof.
  destruct live_range as [Hr _]. destruct live_add_effect as [Hkv Eph'].
  pose proof live_add_cnt as Hcnt. split.
  - eapply safe_step; [apply (lv_safe _ _ Hlv)|done|exact live_astep].
  - intros j b Hj. destruct (decide (i = j)) as [<-|Hne].
    + rewrite list_lookup_insert_eq in Hj by (by eapply lookup_lt_Some). injection Hj as <-.
      split; [exact live_log|]. intros c. rewrite Eph'. unfold after_add, after_rem. repeat case_match; done.
    + rewrite list_lookup_insert_ne in Hj by done. by eapply (lv_ok _ _ Hlv).
  - intros s Hs. rewrite Hkv. destruct (decide (s = s0)) as [->|Hne].
    + right. rewrite lookup_insert_eq, Hcnt, decide_True by done. pose proof (cnt_bounds s0 l).
      rewrite (proj2 (Z.eqb_neq _ 0)) by lia. done.
    + rewrite lookup_insert_ne by (intros E; apply BA_inj in E; lia).
      rewrite (Hcnt s), (decide_False (P := s = s0)), Z.add_0_r by done.
      destruct (lv_ba _ _ Hlv s Hs) as [?|?]; [|by right]. left. rewrite Hcnt. case_decide; lia.
  - intros s v Hs. rewrite Hkv, lookup_insert_ne by (apply BA_BW; lia). by apply (lv_val _ _ Hlv).
  - intros s Hs Hn. rewrite Hkv, lookup_insert_ne in Hn by (apply BA_BW; lia). by apply live_add_bw.
Qed.
End LiveAdd.

Lemma live_op : live kv' (<[i := a']> l).
Proof.
  assert (a_ph a = PAdd ∨ a_ph a = PRem1 ∨ a_ph a = PRem2 ∨ a_ph a = PSet ∨ a_ph a = PGet)
    as [E|[E|[E|[E|E]]]].
  { clear -Hop. destruct (a_ph a); try done; tauto. }
  - by apply live_add.
  - by apply live_rem1.
  - by apply live_rem2.
  - by apply live_set.
  - by apply live_get.
Qed.
End LiveOp.

Lemma live_step kv l i a kv' a' :
  i64 T ≠ 0 → live kv l → l !! i = Some a → a_step false kv a kv' a' → live kv' (<[i := a']> l).
Proof.
  intros HT Hlv Hi Hs.
  inversion Hs as [Hp Hlt|op w kv1 o Hop Hx|op w kv1 code Hf Hop Hkv Hc|c Hp]; subst.
  - by apply live_call.
  - unfold kv_exec in Hx. apply fmap_Some in Hx as (o' & Ho & [= -> ->]). by eapply live_op.
  - done.
  - by apply live_return.
Qed.

Lemma live_init kv es :
  len es = N → Forall engine_ok es → kv_clean kv → live kv (a_init es).
Proof.
  intros Hl Hes Hkv. pose proof (safe_init kv es Hl Hes Hkv) as Hsf.
  assert (∀ s, 1 ≤ s → cnt s (a_init es) = 0) as Hc.
  { intros s Hs. pose proof (cnt_bounds s (a_init es)). destruct (Z_le_gt_dec (cnt s (a_init es)) 0); [lia|].
    destruct (cnt_ex s (a_init es) ltac:(lia)) as (i & a & (e & _ & ->)%a_init_lookup & Ha).
    unfold added in Ha. cbn in Ha. lia. }
  split; [done| | | |].
  - intros i a (e & _ & ->)%a_init_lookup. split; [constructor|done].
  - intros s Hs. right. rewrite Hc by lia. apply (Hkv s Hs).
  - intros s v Hs. by rewrite (proj2 (Hkv s Hs)).
  - intros s Hs _. left. intros Hall. pose proof (all_added_cnt _ _ Hall) as E.
    rewrite Hc, (sf_len _ _ Hsf) in E by lia. lia.
Qed.

(** A rank that cannot move has finished all rounds. *)
Lemma live_stuck kv l :
  i64 T ≠ 0 → live kv l → (∀ i a kv' a', l !! i = Some a → ¬ a_step false kv a kv' a') →
  ∀ i a, l !! i = Some a → a_ph a = PIdle ∧ a_sn a = K.
Proof.
  intros HT Hlv Hst.
  assert (∀ i a, l !! i = Some a →
    (a_ph a = PIdle ∧ a_sn a = K) ∨ (a_ph a = PGet ∧ 1 ≤ a_sn a ≤ K ∧ kv !! BW (a_sn a) = None)) as Hcase.
  { intros i a Hi.
    destruct (Forall_lookup_1 _ _ _ _ (sf_ok _ _ (lv_safe _ _ Hlv)) Hi) as (_ & _ & _ & Hr & H1 & _).
    destruct (a_ph a) eqn:Eph.
    1: { destruct (Z_lt_le_dec (a_sn a) K); [exfalso; eapply Hst; [exact Hi|by apply a_call]|left; split; [done|lia]]. }
    all: try (specialize (H1 ltac:(done))).
    6: { exfalso. eapply Hst; [exact Hi|by eapply a_return]. }
    2, 3, 4: exfalso; eapply Hst; [exact Hi|]; eapply a_act; [rewrite Eph; reflexivity|reflexivity].
    - destruct (add_effect kv l (a_sn a) (-1) (lv_safe _ _ Hlv) ltac:(lia)) as (m & _ & _ & Hout & _).
      exfalso. eapply Hst; [exact Hi|]. eapply a_act; [rewrite Eph; reflexivity|].
      unfold kv_exec. cbn [at_key]. fold (BA (a_sn a)). by rewrite Hout.
    - destruct (kv !! BW (a_sn a)) as [v|] eqn:E; [|right; split; [done|]; split; [lia|done]].
      exfalso. eapply Hst; [exact Hi|]. eapply a_act; [rewrite Eph; reflexivity|].
      unfold kv_exec. cbn [at_key kv_outcome]. fold (BW (a_sn a)). by rewrite E. }
  assert (∀ n i a, l !! i = Some a → a_ph a = PGet → (Z.to_nat (a_sn a) ≤ n)%nat → False) as Hno.
  { induction n as [|n IH]; intros i a Hi Eph Hn;
      (destruct (Hcase i a Hi) as [[? _]|(_ & Hr & Habs)]; [congruence|]); [lia|].
    destruct (lv_bw _ _ Hlv _ Hr Habs) as [Hx|[(j & b & Hj & Hsn & Hp)|Hx]].
    - apply Hx. intros j b Hj. destruct (Hcase j b Hj) as [[Hb HbK]|(Hb & Hbr & _)]; unfold added; rewrite Hb; cbn.
      + lia.
      + destruct (Z_lt_le_dec (a_sn b) (a_sn a)); [exfalso; eapply (IH j b); [done|done|lia]|lia].
    - unfold pending in Hp. destruct (Hcase j b Hj) as [[Hb _]|[Hb _]]; rewrite Hb in Hp; naive_solver.
    - rewrite (live_ahead _ _ _ _ (a_sn a) Hlv Hi) in Hx; [lia|lia|].
      apply added_beyond. lia. }
  intros i a Hi. destruct (Hcase i a Hi) as [?|[Hp _]]; [done|]. exfalso. by eapply Hno.
Qed.

(** ** The end of every run *)
Definition weight (ph : phase) : Z :=
  match ph with PIdle => 0 | PRet _ => 1 | PGet => 2 | PSet => 3 | PRem2 => 4 | PRem1 => 5 | PAdd => 6 end.
Definition left (a : ARank) : Z := 7 * (K - a_sn a) + weight (a_ph a).
Definition total (l : list ARank) : Z := foldr (λ a n, left a + n) 0 l.

Lemma a_step_left kv a kv' a' : a_step false kv a kv' a' → left a' + 1 ≤ left a.
Proof.
  unfold left. intros Hs.
  inversion Hs as [Hp Hlt|op w kv1 o Hop Hx|op w kv1 code Hf Hop Hkv Hc|c Hp]; subst; try done; cbn [a_move a_sn a_ph].
  - rewrite Hp. cbn. lia.
  - destruct (a_ph a); try done; cbn [phase_next]; unfold after_add, after_rem; repeat case_match; cbn; lia.
  - rewrite Hp. cbn. lia.
Qed.
Lemma total_insert l i a a' : l !! i = Some a → total (<[i := a']> l) = total l - left a + left a'.
Proof.
  revert i. induction l as [|b l IH]; intros [|i] Hi; try done.
  - injection Hi as ->. cbn. lia.
  - specialize (IH i Hi). change (<[S i := a']> (b :: l)) with (b :: <[i := a']> l).
    cbn [total foldr]. fold (total l) (total (<[i := a']> l)). lia.
Qed.
Lemma total_nonneg l : Forall a_ok l → 0 ≤ total l.
Proof.
  induction 1 as [|a l (_ & _ & _ & Hr & _) _ IH]; [done|]. cbn [total foldr]. fold (total l).
  unfold left. assert (0 ≤ weight (a_ph a)) by (by destruct (a_ph a)). lia.
Qed.
Lemma total_init es : total (a_init es) = 7 * K * len es.
Proof.
  induction es as [|e es IH]; [by rewrite Z.mul_0_r|]. cbn [a_init fmap list_fmap total foldr].
  fold (a_init es) (total (a_init es)). rewrite IH. unfold left, len. cbn [a_sn a_ph weight List.length]. lia.
Qed.

Lemma live_run n kv l S :
  i64 T ≠ 0 → live kv l → nsteps (sys_step p false K) n (mkSys kv (conc <$> l)) S →
  ∃ kv' l', S = mkSys kv' (conc <$> l') ∧ live kv' l' ∧ total l' + Z.of_nat n ≤ total l.
Proof.
  intros HT. revert kv l. induction n as [|n IH]; intros kv l Hlv Hn; inversion Hn as [|? ? S1 ? H1 Hn']; subst.
  { exists kv, l. split; [done|]. split; [done|lia]. }
  apply sys_step_abs in H1 as (i & a & a' & kv1 & Hi & Hs & ->); [|by destruct Hlv as [[]]].
  destruct (IH kv1 (<[i := a']> l)) as (kv' & l' & -> & Hlv' & Ht); [by eapply live_step|done|].
  exists kv', l'. split; [done|]. split; [done|].
  rewrite (total_insert _ _ _ _ Hi) in Ht. pose proof (a_step_left _ _ _ _ Hs). lia.
Qed.
End Protocol.

(** * Properties *)

(** C1: a barrier holds everybody back.  N ranks call GroupBarrier any number of
    times, their store operations interleave in any order and may fail or time
    out at any point, having taken effect or not: when some rank's call number
    n + 1 has returned successfully, every rank has entered its call number n + 1. *)
Theorem barrier_safe p faulty K N g T kv es S i j ri rj n :
  1 ≤ N < 2 ^ 31 → 0 ≤ K < 2 ^ 32 - 1 → len es = N → Forall (engine_ok N g T) es → kv_clean p g K kv →
  rtc (sys_step p faulty K) (sys_init kv es) S →
  s_ranks S !! i = Some ri → s_ranks S !! j = Some rj → r_log ri !! n = Some SM_OK →
  Z.of_nat n + 1 ≤ r_calls rj.
Proof.
  intros HN HK Hl Hes Hkv Hr Hi Hj Hn.
  destruct (safe_reach p N g T K HN HK faulty kv es S Hl Hes Hkv Hr) as (kv' & l & -> & Hsf).
  cbn [s_ranks] in Hi, Hj.
  apply list_lookup_fmap_Some in Hi as (a & -> & Ha). apply list_lookup_fmap_Some in Hj as (b & -> & Hb).
  pose proof (sf_log _ _ _ _ _ _ _ Hsf _ _ _ Ha Hn _ _ Hb) as Hadd. unfold added in Hadd. cbn. lia.
Qed.

(** C2: without failures the barrier always completes.  Whatever the
    interleaving, K rounds of N ranks end after at most 7 K N steps, and the only
    states in which nothing can move are those in which every rank has returned
    K times, each time successfully: the keys of old rounds are removed without
    ever taking one that somebody still counts on or waits for. *)
Theorem barrier_completes p K N g T kv es k S :
  1 ≤ N < 2 ^ 31 → 0 ≤ K < 2 ^ 32 - 1 → len es = N → Forall (engine_ok N g T) es → kv_clean p g K kv →
  i64 T ≠ 0 → nsteps (sys_step p false K) k (sys_init kv es) S →
  Z.of_nat k ≤ 7 * K * N ∧
  ((∀ S', ¬ sys_step p false K S S') →
   ∀ i r, s_ranks S !! i = Some r →
     (∃ e, r_cur r = Idle e) ∧ r_log r = replicate (Z.to_nat K) SM_OK).
Proof.
  intros HN HK Hl Hes Hkv HT Hr. rewrite (init_conc N g T) in Hr by done.
  pose proof (live_init p N g T K HN HK kv es Hl Hes Hkv) as Hlv.
  destruct (live_run p N g T K HN HK k kv _ S HT Hlv Hr) as (kv' & l & -> & Hlv' & Ht).
  pose proof (sf_ok _ _ _ _ _ _ _ (lv_safe _ _ _ _ _ _ _ Hlv')) as Hok. split.
  { rewrite total_init, Hl in Ht. pose proof (total_nonneg _ _ _ _ _ Hok). lia. }
  intros Hst i r Hi. cbn [s_ranks] in Hi. apply list_lookup_fmap_Some in Hi as (a & -> & Ha).
  destruct (live_stuck p N g T K HN HK kv' l HT Hlv') with i a as [Hp Hsn]; [|done|].
  { intros j b kv1 b' Hb Hs. destruct (abs_sys_step p N g T K false kv' l j b b' kv1 Hok Hb Hs) as [S' HS].
    by eapply Hst. }
  split; [unfold conc; rewrite Hp; eauto|]. cbn [conc r_log].
  destruct (Forall_lookup_1 _ _ _ _ Hok Ha) as (_ & _ & _ & _ & _ & _ & Hlog). rewrite Hp, Hsn in Hlog.
  destruct (lv_ok _ _ _ _ _ _ _ Hlv' _ _ Ha) as [Hall _].
  symmetry. apply replicate_as_Forall. split; [unfold len in Hlog; lia|]. eapply Forall_impl; [exact Hall|done].
Qed.

(** Two ranks of a static group, in the store of the prefix "S_". *)
Definition engine2 (r : Z) : Engine := engine_new (mkOpt 2 r 5000 false false false).
Definition pair2 : list Engine := [engine2 0; engine2 1].
Lemma pair2_ok : Forall (engine_ok 2 0 5000) pair2.
Proof. repeat constructor. Qed.
Lemma pair2_clean K : kv_clean (mkPrefix "S_") 0 K ∅.
Proof. intros s Hs. split; apply lookup_empty. Qed.

(** One step of the rank [i], computed. *)
Definition do_step (p : PrefixConfigStore) (i : nat) (S : Sys) : Sys :=
  match s_ranks S !! i with
  | Some (mkRank (Idle e) n log) =>
      mkSys (s_kv S) (<[i := mkRank (Running (GroupBarrier e)) (n + 1) log]> (s_ranks S))
  | Some (mkRank (Running (Ret (e, c))) n log) =>
      mkSys (s_kv S) (<[i := mkRank (Idle e) n (log ++ [c])]> (s_ranks S))
  | Some (mkRank (Running (Act (Kv op w) k)) n log) =>
      match kv_exec (s_kv S) (at_key p op) w with
      | Some (kv', o) => mkSys kv' (<[i := mkRank (Running (k o)) n log]> (s_ranks S))
      | None => S
      end
  | _ => S
  end.
Definition can_step (p : PrefixConfigStore) (K : Z) (i : nat) (S : Sys) : bool :=
  match s_ranks S !! i with
  | Some (mkRank (Idle e) n log) => n <? K
  | Some (mkRank (Running (Ret _)) n log) => true
  | Some (mkRank (Running (Act (Kv op w) k)) n log) =>
      bool_decide (is_Some (kv_exec (s_kv S) (at_key p op) w))
  | _ => false
  end.
Lemma do_step_sound p faulty K i S : can_step p K i S = true → sys_step p faulty K S (do_step p i S).
Proof.
  unfold can_step, do_step. destruct S as [kv rs]. cbn [s_ranks s_kv].
  destruct (rs !! i) as [[[e|[[e c]|[op w| | | | |] k]] n log]|] eqn:Hi; try done.
  - intros Hn. apply Z.ltb_lt in Hn. by constructor.
  - intros _. by constructor.
  - intros Hx. apply bool_decide_eq_true in Hx as [[kv' o] Hx]. rewrite Hx. by econstructor.
Qed.
Fixpoint can_run (p : PrefixConfigStore) (K : Z) (sch : list nat) (S : Sys) : bool :=
  match sch with [] => true | i :: sch' => can_step p K i S && can_run p K sch' (do_step p i S) end.
Definition do_run (p : PrefixConfigStore) (sch : list nat) (S : Sys) : Sys := foldl (λ S i, do_step p i S) S sch.
Lemma do_run_sound p faulty K sch S :
  can_run p K sch S = true → nsteps (sys_step p faulty K) (List.length sch) S (do_run p sch S).
Proof.
  revert S. induction sch as [|i sch IH]; intros S; cbn; [constructor|].
  intros [H1 H2]%andb_true_iff. econstructor; [by apply do_step_sound|]. by apply IH.
Qed.

(** Both enter, rank 0 counts and waits, rank 1 counts, releases and returns. *)
Definition schedule2 : list nat := [0; 1; 0; 1; 1; 1; 1]%nat.

Lemma barrier_safe_witness :
  ∃ S ri rj, rtc (sys_step (mkPrefix "S_") true 1) (sys_init ∅ pair2) S ∧
    s_ranks S !! 1%nat = Some ri ∧ s_ranks S !! 0%nat = Some rj ∧ r_log ri !! 0%nat = Some SM_OK ∧
    1 ≤ r_calls rj.
Proof.
  set (S := do_run (mkPrefix "S_") schedule2 (sys_init ∅ pair2)).
  assert (rtc (sys_step (mkPrefix "S_") true 1) (sys_init ∅ pair2) S) as Hr.
  { eapply rtc_nsteps_2. apply (do_run_sound _ _ _ schedule2). vm_compute. reflexivity. }
  destruct (s_ranks S !! 1%nat) as [ri|] eqn:Hi; [|by vm_compute in Hi].
  destruct (s_ranks S !! 0%nat) as [rj|] eqn:Hj; [|by vm_compute in Hj].
  assert (r_log ri !! 0%nat = Some SM_OK) as Hl.
  { assert (option_map r_log (s_ranks S !! 1%nat) = Some [SM_OK]) as E by (vm_compute; reflexivity).
    rewrite Hi in E. cbn in E. injection E as E. by rewrite E. }
  exists S, ri, rj. split; [done|]. split; [done|]. split; [done|]. split; [done|].
  apply (barrier_safe (mkPrefix "S_") true 1 2 0 5000 ∅ pair2 S 1 0 ri rj 0);
    [lia|lia|done|exact pair2_ok|apply pair2_clean|done..].
Defined.

Lemma barrier_completes_witness :
  ∃ S, nsteps (sys_step (mkPrefix "S_") false 1) 9 (sys_init ∅ pair2) S ∧ 9 ≤ 7 * 1 * 2.
Proof.
  assert (nsteps (sys_step (mkPrefix "S_") false 1) 9 (sys_init ∅ pair2)
    (do_run (mkPrefix "S_") [0; 1; 0; 1; 1; 1; 1; 0; 0]%nat (sys_init ∅ pair2))) as Hn
    by (apply (do_run_sound _ _ _ [0; 1; 0; 1; 1; 1; 1; 0; 0]%nat); vm_compute; reflexivity).
  eexists. split; [exact Hn|].
  eapply (barrier_completes (mkPrefix "S_") 1 2 0 5000 ∅ pair2 9);
    [lia|lia|done|exact pair2_ok|apply pair2_clean|done|exact Hn].
Defined.
