(* ===== verification/GroupEngineSpec.v ===== *)
(** * Correctness of the group engine's other methods

    All-gather's result does not depend on the order of arrival; numbers are
    allocated atomically, and never released; joining and leaving keep the
    shared version and size in step with what every member computes. *)
From Stdlib Require Import Strings.Byte Strings.String Sorted.
From stdpp Require Import base numbers list gmap strings sorting.
From S2P Require Import Prelude StrUtil MessagePacker StoreBackend StoreServer StoreServerSpec.
From S2P Require Import StoreClient StoreClientSpec GroupEngine.
Local Open Scope Z_scope.

(** ** All-gather *)
Lemma pair_leb_total x y : pair_leb x y = false → pair_leb y x = true.
Proof. unfold pair_leb. destruct x, y. cbn. lia. Qed.
Lemma pair_leb_fst x y : pair_leb x y = true → x.1 ≤ y.1.
Proof. unfold pair_leb. destruct x, y. cbn. lia. Qed.

Lemma sort_insert_perm x l : sort_insert x l ≡ₚ x :: l.
Proof.
  induction l as [|y l IH]; [done|]. cbn. case_match; [done|]. rewrite IH. constructor.
Qed.
Lemma sort_pairs_perm l : sort_pairs l ≡ₚ l.
Proof.
  unfold sort_pairs. induction l as [|x l IH]; [done|]. cbn [foldr]. by rewrite sort_insert_perm, IH.
Qed.
Definition le_fst {A} (x y : Z * A) : Prop := x.1 ≤ y.1.
Lemma sort_insert_sorted x l :
  StronglySorted le_fst l → StronglySorted le_fst (sort_insert x l).
Proof.
  induction 1 as [|y l Hs IH Hall]; cbn; [by repeat constructor|]. case_match eqn:E.
  - apply pair_leb_fst in E. constructor; [by constructor|]. constructor; [done|].
    eapply Forall_impl; [exact Hall|]. unfold le_fst. intros z Hz. lia.
  - apply pair_leb_total, pair_leb_fst in E. constructor; [done|].
    rewrite sort_insert_perm. by constructor.
Qed.
Lemma sort_pairs_sorted l : StronglySorted le_fst (sort_pairs l).
Proof. unfold sort_pairs. induction l; cbn; [constructor|]. by apply sort_insert_sorted. Qed.

(** The frames of the ranks, in the order in which they were appended. *)
Definition frame (f : Z * bytes) : bytes := GatherFillRank f.1 f.2.

Section Gather.
Context (sz : Z) (fs : list (Z * bytes)).
Context (Hsz : Forall (λ f, 0 ≤ f.1 < 2 ^ 32 ∧ len f.2 = sz) fs).
Context (Hfit : 0 ≤ sz) (Htot : (sz + 4) * len fs < 2 ^ 32).

Lemma len_frame f : f ∈ fs → len (frame f) = sz + 4.
Proof using Hsz.
  clear Hfit Htot.
  intros Hf. apply (proj1 (Forall_forall _ _) Hsz) in Hf as [_ Hl]. unfold frame, GatherFillRank.
  rewrite len_app, len_le_bytes. lia.
Qed.

Lemma len_frames (pre : list (Z * bytes)) : pre ⊆ fs → len (concat (frame <$> pre)) = len pre * (sz + 4).
Proof using Hsz.
  clear Hfit Htot.
  induction pre as [|f pre IH]; intros Hsub; [done|]. cbn [fmap list_fmap concat].
  rewrite len_app, len_frame, IH by (set_solver). unfold len. cbn [List.length]. lia.
Qed.

Local Abbreviation vec := (concat (frame <$> fs)).

(** Rank and data of the frame behind a prefix of the frames. *)
Lemma slice_frame pre f post :
  fs = pre ++ f :: post →
  slice vec (len pre * (sz + 4)) 4 = le_bytes 4 f.1 ∧
  slice vec (len pre * (sz + 4) + 4) sz = f.2.
Proof.
  intros E.
  assert (vec = concat (frame <$> pre) ++ le_bytes 4 f.1 ++ f.2 ++ concat (frame <$> post)) as Hv.
  { rewrite E, fmap_app, fmap_cons, concat_app. cbn [concat].
    unfold frame at 2, GatherFillRank. by rewrite <- !app_assoc. }
  assert (pre ⊆ fs ∧ f ∈ fs) as [Hpre Hf] by (rewrite E; set_solver).
  pose proof (len_frames pre Hpre) as Hl. rewrite Hv.
  apply (proj1 (Forall_forall _ _) Hsz) in Hf as [_ Hd]. unfold len in *. unfold slice. split.
  - rewrite drop_app_length' by lia. change (Z.to_nat 4) with 4%nat. by rewrite take_app_length' by (by rewrite length_le_bytes).
  - rewrite app_assoc, drop_app_length' by (rewrite length_app, length_le_bytes; lia).
    by rewrite take_app_length' by lia.
Qed.

Definition offset_of (i : Z) : Z * Z :=
  let idx := u32 (i * u32 (sz + 4)) in (le_val (slice vec idx 4), u32 (idx + 4)).

Lemma offsets_frames pre post :
  fs = pre ++ post →
  (λ i, ((offset_of i).1, slice vec (offset_of i).2 sz)) <$> seqZ (len pre) (len post) = post.
Proof.
  revert pre. induction post as [|f post IH]; intros pre E; [done|].
  assert (len (f :: post) = len post + 1) as Hl by (unfold len; cbn [List.length]; lia).
  assert (len fs = len pre + len post + 1) as Hfs by (rewrite E, len_app, Hl; lia).
  pose proof (len_nonneg post). pose proof (len_nonneg pre).
  rewrite Hl, seqZ_cons by lia. cbn [fmap list_fmap]. destruct (slice_frame _ _ _ E) as [Hr Hd].
  assert ((len pre + 1) * (sz + 4) < 2 ^ 32) as Hb by nia.
  assert (offset_of (len pre) = (f.1, len pre * (sz + 4) + 4)) as ->.
  { unfold offset_of. rewrite (u32_small (sz + 4)), (u32_small (len pre * (sz + 4))) by nia.
    rewrite u32_small by nia. rewrite Hr, le_val_le_bytes_small; [done|].
    change (256 ^ Z.of_nat 4) with (2 ^ 32). assert (f ∈ fs) as Hf by (rewrite E; set_solver).
    by apply (proj1 (Forall_forall _ _) Hsz) in Hf as [? _]. }
  cbn [fst snd]. rewrite Hd. f_equal; [by destruct f|].
  replace (Z.pred (len post + 1)) with (len post) by lia.
  replace (Z.succ (len pre)) with (len (pre ++ [f])) by (rewrite len_app; unfold len; cbn [List.length]; lia).
  apply IH. by rewrite <- app_assoc.
Qed.

Lemma SortGatherRecv_sorted (fs' : list (Z * bytes)) :
  NoDup fs.*1 → fs' ≡ₚ fs → StronglySorted le_fst fs' →
  SortGatherRecv vec sz (len fs) = concat fs'.*2.
Proof.
  intros Hnd Hp Hs. unfold SortGatherRecv, SMEM_GATHER_PREFIX_SIZE. f_equal.
  change ((λ i : Z, _) <$> seqZ 0 (len fs)) with (offset_of <$> seqZ 0 (len fs)).
  set (P := offset_of <$> seqZ 0 (len fs)).
  set (h := λ o : Z * Z, (o.1, slice vec o.2 sz)).
  assert (h <$> P = fs) as HP.
  { unfold P, h. rewrite <- list_fmap_compose. exact (offsets_frames [] fs eq_refl). }
  assert (h <$> sort_pairs P = fs') as <-.
  { eapply (StronglySorted_unique_strong le_fst); [| |exact Hs|].
    - intros x y Hx Hy H1 H2. unfold le_fst in *.
      assert (x ∈ fs) as Hxf by (rewrite <- HP, <- (sort_pairs_perm P); done).
      assert (y ∈ fs) as Hyf by (by rewrite <- Hp).
      apply list_elem_of_lookup in Hxf as [i Hi]. apply list_elem_of_lookup in Hyf as [j Hj].
      assert (i = j) as ->; [|congruence].
      eapply (NoDup_lookup fs.*1 i j x.1); [done|by rewrite list_lookup_fmap, Hi|].
      rewrite list_lookup_fmap, Hj. cbn. f_equal. lia.
    - pose proof (sort_pairs_sorted P) as HS. induction HS as [|z l _ IH Hall]; cbn; [constructor|].
      constructor; [done|]. apply Forall_fmap. eapply Forall_impl; [exact Hall|]. done.
    - by rewrite sort_pairs_perm, HP, Hp. }
  rewrite <- list_fmap_compose. done.
Qed.
End Gather.

(** ** Running a method alone

    Its store operations in a row; the watches and callbacks succeed. *)
Fixpoint run {A} (p : PrefixConfigStore) (kv : gmap string bytes) (pr : prog A)
    : option (gmap string bytes * A) :=
  match pr with
  | Ret a => Some (kv, a)
  | Act (Kv op w) k =>
      match kv_exec kv (at_key p op) w with
      | Some (kv', o) => run p kv' (k o)
      | None => None
      end
  | Act _ k => run p kv (k (mkOut SM_OK None None))
  end.

Lemma run_bind {A B} p kv (pr : prog A) (f : A → prog B) :
  run p kv (pr ≫= f) = '(kv', a) ← run p kv pr; run p kv' (f a).
Proof.
  revert kv. induction pr as [a|c k IH]; intros kv; [done|]. cbn [mbind program_bind run].
  destruct c; try apply IH. destruct (kv_exec kv _ _) as [[kv' o]|]; [apply IH|done].
Qed.
Lemma run_fmap {A B} p kv (pr : prog A) (f : A → B) :
  run p kv (f <$> pr) = '(kv', a) ← run p kv pr; Some (kv', f a).
Proof. apply (run_bind p kv pr (λ a, Ret (f a))). Qed.
Lemma run_st {B} p kv op kv' o (f : Outcome → prog B) :
  kv_exec kv (at_key p op) (-1) = Some (kv', o) → run p kv (st op ≫= f) = run p kv' (f o).
Proof. intros E. cbn. by rewrite E. Qed.
Lemma run_call {B} p kv op w kv' o (f : Outcome → prog B) :
  kv_exec kv (at_key p op) w = Some (kv', o) → run p kv (call (Kv op w) ≫= f) = run p kv' (f o).
Proof. intros E. cbn. by rewrite E. Qed.

Lemma exec_remove kv k w :
  ∃ c, kv_exec kv (KRemove k) w = Some (delete k kv, mkOut c None None).
Proof.
  unfold kv_exec. cbn. destruct (kv !! k) eqn:E; eexists; [done|]. cbn. by rewrite delete_id.
Qed.
Lemma run_remove {B} p kv k (f : Outcome → prog B) :
  ∃ o, run p kv (st (KRemove k) ≫= f) = run p (delete (GetCompleteKey p k) kv) (f o).
Proof.
  destruct (exec_remove kv (GetCompleteKey p k) (-1)) as [c E]. eexists. by apply run_st.
Qed.

Lemma run_rem {B} p kv k (pr : prog B) :
  run p kv (st (KRemove k) ≫= λ _, pr) = run p (delete (GetCompleteKey p k) kv) pr.
Proof. by destruct (run_remove p kv k (λ _, pr)) as [_ ->]. Qed.

Section GatherRun.
Context (p : PrefixConfigStore) (kv : gmap string bytes) (g sn T sz : Z).
Context (before : list (Z * bytes)) (r : Z) (d : bytes).
Local Abbreviation fs := (before ++ [(r, d)]).
Context (Hsz : Forall (λ f, 0 ≤ f.1 < 2 ^ 32 ∧ len f.2 = sz) fs).
Context (Hfit : 0 ≤ sz) (Htot : (sz + 4) * len fs < 2 ^ 32).
Context (Hsn : 1 ≤ sn < 2 ^ 32).
Local Abbreviation GA := (sn_key (num_str g) sn "_GA").
Local Abbreviation GW := (sn_key (num_str g) sn "_GW").
Local Abbreviation vec := (concat (frame <$> fs)).
Context (fs' : list (Z * bytes)) (Hnd : NoDup fs.*1) (Hp : fs' ≡ₚ fs) (Hs : StronglySorted le_fst fs').

Lemma key_ne s t a b :
  0 ≤ s < 2 ^ 32 → 0 ≤ t < 2 ^ 32 →
  (match bytes_of_str a with x :: _ => isdigit x = false | [] => True end) →
  (match bytes_of_str b with x :: _ => isdigit x = false | [] => True end) →
  s ≠ t ∨ a ≠ b →
  GetCompleteKey p (sn_key (num_str g) s a) ≠ GetCompleteKey p (sn_key (num_str g) t b).
Proof.
  intros Hs1 Ht Ha Hb Hne E. apply (inj (String.append (keyPrefix p))) in E.
  apply sn_key_inj in E as [? ?]; try done. tauto.
Qed.

(** Whoever waits reads the sorted data once the last one has released them. *)
Lemma finish_run kv1 :
  kv1 !! GetCompleteKey p GA = Some vec → kv1 !! GetCompleteKey p GW = Some SMEM_GROUP_SET_STR →
  run p kv1 (gather_finish GA GW T (sz + 4) (len fs) sz) = Some (kv1, (SM_OK, Some (concat fs'.*2))).
Proof.
  intros HA HW. unfold gather_finish.
  rewrite (run_call p kv1 _ _ kv1 (mkOut SUCCESS (Some SMEM_GROUP_SET_STR) None)).
  2: { unfold kv_exec. cbn [at_key kv_outcome kv_apply]. rewrite HW. done. }
  cbn [o_code o_val default negb Z.eqb SUCCESS SM_OK]. rewrite bool_decide_true by done. cbn [negb].
  rewrite (run_call p kv1 _ _ kv1 (mkOut SUCCESS (Some vec) None)).
  2: { unfold kv_exec. cbn [at_key kv_outcome kv_apply]. rewrite HA. done. }
  cbn [o_code o_val default negb Z.eqb SUCCESS SM_OK orb from_option id].
  rewrite (len_frames sz fs Hsz fs) by done.
  rewrite u64_small by (pose proof (len_nonneg fs); nia). rewrite (Z.mul_comm (len fs)), Z.eqb_refl.
  cbn [negb run]. by rewrite (SortGatherRecv_sorted sz fs Hsz Hfit Htot fs' Hnd Hp Hs).
Qed.

Lemma gather_run :
  default [] (kv !! GetCompleteKey p GA) = concat (frame <$> before) →
  ∃ kv', run p kv (gather_body (num_str g) sn (num_str g) sn (len fs) T r d) =
      Some (kv', (SM_OK, Some (concat fs'.*2))) ∧
    kv' !! GetCompleteKey p GA = Some vec ∧ kv' !! GetCompleteKey p GW = Some SMEM_GROUP_SET_STR.
Proof.
  intros Hkv. unfold gather_body. set (input := GatherFillRank r d).
  assert (len input = sz + 4) as Hin by (apply (len_frame sz fs Hsz (r, d)); set_solver).
  assert (len d = sz) as Hd by (apply Forall_app in Hsz as [_ H]; inversion H; naive_solver).
  assert (concat (frame <$> before) ++ input = vec) as Hvec.
  { rewrite fmap_app, concat_app. cbn. by rewrite app_nil_r. }
  assert (len vec = (sz + 4) * len fs) as Hlen by (rewrite (len_frames sz fs Hsz fs) by done; lia).
  set (kv1 := <[GetCompleteKey p GA := vec]> kv).
  rewrite (run_st p kv _ kv1 (mkOut SUCCESS None (Some (len vec)))).
  2: { unfold kv_exec. cbn [at_key kv_outcome kv_apply]. rewrite Hkv, Hvec. done. }
  cbn [o_code o_num default negb Z.eqb SUCCESS SM_OK from_option id]. rewrite run_bind.
  assert (∃ kv2 x, run p kv1 (if (len vec =? len input) && (REMOVE_INTERVAL <? sn)
      then _ ← st (KRemove (sn_key (num_str g) (u32 (sn - REMOVE_INTERVAL)) "_GA"));
           st (KRemove (sn_key (num_str g) (u32 (sn - REMOVE_INTERVAL)) "_GW"))
      else Ret (mkOut SM_OK None None)) = Some (kv2, x) ∧ kv2 !! GetCompleteKey p GA = Some vec)
    as (kv2 & x & -> & HA).
  { destruct (_ && _) eqn:Ec.
    - apply andb_true_iff in Ec as [_ H2]. apply Z.ltb_lt in H2. unfold REMOVE_INTERVAL in *.
      rewrite u32_small by lia.
      rewrite run_rem.
      destruct (run_remove p (delete (GetCompleteKey p (sn_key (num_str g) (sn - 2) "_GA")) kv1)
        (sn_key (num_str g) (sn - 2) "_GW") Ret) as [o2 E2].
      eexists _, _. split; [exact E2|].
      rewrite !lookup_delete_ne by (apply key_ne; try done; try lia; left; lia). apply lookup_insert_eq.
    - exists kv1, (mkOut SM_OK None None). split; [done|]. apply lookup_insert_eq. }
  cbn [mbind option_bind].
  rewrite Hin, Hlen, u64_small by (pose proof (len_nonneg fs); nia). rewrite Z.eqb_refl.
  rewrite (run_st p kv2 _ (<[GetCompleteKey p GW := SMEM_GROUP_SET_STR]> kv2) (mkOut SUCCESS None None)) by done.
  cbn [o_code negb Z.eqb SUCCESS SM_OK]. rewrite Hd.
  eexists. split; [apply finish_run|]; rewrite ?lookup_insert_eq, ?lookup_insert_ne; try done;
    apply key_ne; try done; try lia; by right.
Qed.
End GatherRun.

(** ** Numbers *)
Definition num_bit (v : bytes) (i : Z) : bool :=
  match v !! byte_index i with
  | Some b => Z.testbit (Z_of_byte b) (i mod UINT_BIT)
  | None => false
  end.
Definition is_bitmap (v : bytes) : Prop := len v = SMEM_ALLOC_NUM_BUF_LEN.

Lemma land_bit z k : 0 ≤ k → (Z.land z (Z.shiftl 1 k) =? 0) = negb (Z.testbit z k).
Proof.
  intros Hk. rewrite Z.shiftl_1_l. destruct (Z.testbit z k) eqn:E; cbn.
  - apply Z.eqb_neq. intros H0. assert (Z.testbit (Z.land z (2 ^ k)) k = true) as Ht
      by (rewrite Z.land_spec, E, Z.pow2_bits_true by lia; done).
    by rewrite H0, Z.bits_0 in Ht.
  - apply Z.eqb_eq. apply Z.bits_inj'. intros n Hn. rewrite Z.land_spec, Z.bits_0.
    destruct (decide (n = k)) as [->|Hne]; [by rewrite E|].
    rewrite (Z.pow2_bits_false k n) by lia. apply andb_false_r.
Qed.

Lemma bitmap_byte v i : is_bitmap v → 0 ≤ i < SMEM_ALLOC_NUM_SIZE → ∃ b, v !! byte_index i = Some b.
Proof.
  intros Hv Hi. unfold is_bitmap, SMEM_ALLOC_NUM_BUF_LEN, SMEM_ALLOC_NUM_SIZE, len in *.
  change ((1024 + 7) / 8) with 128 in Hv. apply lookup_lt_is_Some_2. unfold byte_index, UINT_BIT.
  assert (i / 8 < 128) by (apply Z.div_lt_upper_bound; lia). pose proof (Z.div_pos i 8 ltac:(lia) ltac:(lia)). lia.
Qed.

Lemma first_free_spec v i n :
  is_bitmap v → 0 ≤ i → i + Z.of_nat n ≤ SMEM_ALLOC_NUM_SIZE →
  match first_free v i n with
  | Done (Some j) => i ≤ j < i + Z.of_nat n ∧ num_bit v j = false ∧ ∀ k, i ≤ k < j → num_bit v k = true
  | Done None => ∀ k, i ≤ k < i + Z.of_nat n → num_bit v k = true
  | _ => False
  end.
Proof.
  intros Hv. revert i. induction n as [|n IH]; intros i Hi Hn; cbn [first_free]; [lia|].
  destruct (bitmap_byte v i Hv ltac:(lia)) as [b Hb]. rewrite Hb. unfold bit_mask.
  rewrite land_bit by (apply Z.mod_pos_bound; done).
  assert (num_bit v i = Z.testbit (Z_of_byte b) (i mod UINT_BIT)) as Hbit by (unfold num_bit; by rewrite Hb).
  rewrite <- Hbit. destruct (num_bit v i) eqn:E; cbn [negb].
  - specialize (IH (i + 1) ltac:(lia) ltac:(lia)).
    assert (∀ k, i ≤ k → k = i ∨ i + 1 ≤ k) as Hk by lia.
    destruct (first_free v (i + 1) n) as [[j|]| |]; [|..]; try done.
    + destruct IH as (Hj & Hfree & Hall). split; [lia|]. split; [done|]. intros k Hk'.
      destruct (Hk k ltac:(lia)) as [->|?]; [done|]. apply Hall. lia.
    + intros k Hk'. destruct (Hk k ltac:(lia)) as [->|?]; [done|]. apply IH. lia.
  - split; [lia|]. split; [done|]. lia.
Qed.

Lemma flip_bit_spec v i j :
  is_bitmap v → 0 ≤ i < SMEM_ALLOC_NUM_SIZE → 0 ≤ j →
  num_bit (flip_bit v i) j = if decide (i = j) then negb (num_bit v i) else num_bit v j.
Proof.
  intros Hv Hi Hj. destruct (bitmap_byte v i Hv Hi) as [b Hb]. unfold num_bit, flip_bit. rewrite Hb.
  pose proof (Z.mod_pos_bound j 8 ltac:(lia)) as Hmj. pose proof (Z.mod_pos_bound i 8 ltac:(lia)) as Hmi.
  destruct (decide (byte_index i = byte_index j)) as [Eb|Hne].
  - rewrite <- Eb, Hb, list_lookup_insert_eq by (by eapply lookup_lt_Some).
    rewrite Z_of_byte_of_Z. change 256 with (2 ^ 8).
    rewrite Z.mod_pow2_bits_low by (unfold UINT_BIT; lia). rewrite Z.lxor_spec. unfold bit_mask, UINT_BIT.
    rewrite Z.shiftl_1_l.
    assert (i / 8 = j / 8) as Ediv.
    { unfold byte_index, UINT_BIT in Eb. pose proof (Z.div_pos i 8 ltac:(lia) ltac:(lia)).
      pose proof (Z.div_pos j 8 ltac:(lia) ltac:(lia)). lia. }
    pose proof (Z.div_mod i 8 ltac:(lia)). pose proof (Z.div_mod j 8 ltac:(lia)).
    destruct (decide (i = j)) as [->|Hij].
    + rewrite Z.pow2_bits_true by lia. by rewrite xorb_true_r.
    + rewrite (Z.pow2_bits_false (i mod 8) (j mod 8)) by lia. by rewrite xorb_false_r.
  - rewrite list_lookup_insert_ne by done. case_decide; [by subst|done].
Qed.

Lemma flip_is_bitmap v i : is_bitmap v → is_bitmap (flip_bit v i).
Proof.
  unfold is_bitmap, flip_bit. intros Hv. destruct (v !! byte_index i); [|done]. unfold len.
  by rewrite length_insert.
Qed.
Lemma zero_is_bitmap : is_bitmap zero_buf.
Proof. done. Qed.
Lemma num_bit_zero i : num_bit zero_buf i = false.
Proof.
  unfold num_bit, zero_buf. destruct (_ !! _) as [b|] eqn:E; [|done].
  apply lookup_replicate in E as [-> _]. apply Z.bits_0.
Qed.

(** A method whose operations find the store in the states [kvs], one after the
    other: other ranks change it in between.  The result, and the store behind
    the last operation. *)
Fixpoint run_in {A} (p : PrefixConfigStore) (kvs : list (gmap string bytes)) (last : gmap string bytes)
    (pr : prog A) : option (gmap string bytes * A) :=
  match pr with
  | Ret a => Some (last, a)
  | Act (Kv op w) k =>
      match kvs with
      | [] => None
      | kv :: kvs' =>
          match kv_exec kv (at_key p op) w with
          | Some (kv', o) => run_in p kvs' kv' (k o)
          | None => None
          end
      end
  | Act _ k => run_in p kvs last (k (mkOut SM_OK None None))
  end.

Definition AT (p : PrefixConfigStore) : string := GetCompleteKey p SMEM_GROUP_CAS_ALLOC_NUM_KEY.
(** The numbers in use: none when there is no bitmap yet. *)
Definition in_use (p : PrefixConfigStore) (kv : gmap string bytes) (i : Z) : bool :=
  num_bit (default [] (kv !! AT p)) i.
Definition has_bitmap (p : PrefixConfigStore) (kv : gmap string bytes) : Prop :=
  ∃ v, kv !! AT p = Some v ∧ is_bitmap v.

(** The number is free in [kv] and [kv'] is [kv] with it taken. *)
Definition takes (p : PrefixConfigStore) (kv kv' : gmap string bytes) (num : Z) : Prop :=
  0 ≤ num < SMEM_ALLOC_NUM_SIZE ∧ in_use p kv num = false ∧ has_bitmap p kv' ∧
  (∀ i, 0 ≤ i → in_use p kv' i = bool_decide (i = num) || in_use p kv i) ∧
  (∀ k, k ≠ AT p → kv' !! k = kv !! k).

Lemma takes_flip p kv v num :
  kv !! AT p = Some v ∨ (kv !! AT p = None ∧ v = zero_buf) → is_bitmap v →
  0 ≤ num < SMEM_ALLOC_NUM_SIZE → num_bit v num = false →
  takes p kv (<[AT p := flip_bit v num]> kv) num.
Proof.
  intros Hkv Hv Hn Hfree.
  assert (∀ i, in_use p kv i = num_bit v i) as Huse.
  { intros i. unfold in_use. destruct Hkv as [->|[-> ->]]; [done|]. rewrite num_bit_zero. done. }
  split; [done|]. split; [by rewrite Huse|]. split; [|split].
  - eexists. split; [apply lookup_insert_eq|]. by apply flip_is_bitmap.
  - intros i Hi. unfold in_use at 1. rewrite lookup_insert_eq. cbn. rewrite flip_bit_spec by done.
    rewrite Huse. destruct (decide (num = i)) as [->|Hne]; [by rewrite Hfree, bool_decide_true|].
    by rewrite bool_decide_false by done.
  - intros k Hk. by rewrite lookup_insert_ne.
Qed.

Definition all_used (v : bytes) : Prop := ∀ i, 0 ≤ i < SMEM_ALLOC_NUM_SIZE → num_bit v i = true.

Lemma bitmap_nonempty v : is_bitmap v → (len v =? 0) = false ∧ v ≠ [].
Proof. intros Hv. unfold is_bitmap in Hv. split; [by rewrite Hv|]. by intros ->. Qed.

(** One turn of the loop with a bitmap to start from. *)
Lemma alloc_turn fuel e expect v value :
  is_bitmap v →
  (all_used v ∧ alloc_loop (S fuel) e expect v value = Ret (Done (e, SM_ERROR))) ∨
  (∃ num, 0 ≤ num < SMEM_ALLOC_NUM_SIZE ∧ num_bit v num = false ∧
     alloc_loop (S fuel) e expect v value =
       (r ← st (KCas SMEM_GROUP_CAS_ALLOC_NUM_KEY v (flip_bit v num));
        if negb (o_code r =? 0) || negb (bool_decide (default expect (o_val r) = v))
        then alloc_loop fuel e v (default expect (o_val r)) (flip_bit v num)
        else Ret (Done (set_alloced e (allocedSet_ e ∪ {[ num ]}), num)))).
Proof.
  intros Hv. cbn [alloc_loop]. rewrite (proj1 (bitmap_nonempty v Hv)).
  pose proof (first_free_spec v 0 (Z.to_nat SMEM_ALLOC_NUM_SIZE) Hv ltac:(lia) ltac:(done)) as Hf.
  change (0 + Z.of_nat (Z.to_nat SMEM_ALLOC_NUM_SIZE)) with SMEM_ALLOC_NUM_SIZE in Hf.
  destruct (first_free v 0 _) as [[num|]| |]; [| |done|done].
  - right. exists num. destruct Hf as (Hn & Hfree & _). done.
  - left. done.
Qed.

Definition alloc_result (p : PrefixConfigStore) (e : Engine) (seen : list (gmap string bytes))
    (kv' : gmap string bytes) (e' : Engine) (num : Z) : Prop :=
  (num = SM_ERROR ∧ e' = e ∧ ∃ kv, kv ∈ seen ∧ all_used (default [] (kv !! AT p))) ∨
  (e' = set_alloced e (allocedSet_ e ∪ {[ num ]}) ∧ ∃ kv, kv ∈ seen ∧ takes p kv kv' num).

Lemma exec_cas kv k expected exchange w :
  kv_exec kv (KCas k expected exchange) w =
  Some (if decide (expected = default [] (kv !! k)) then <[k := exchange]> kv else kv,
        mkOut SUCCESS (Some (default [] (kv !! k))) None).
Proof. reflexivity. Qed.

Lemma alloc_loop_run p fuel e expect value kvs last kv0 v kv' e' num :
  kv0 !! AT p = Some v → is_bitmap v → Forall (has_bitmap p) kvs →
  run_in p kvs last (alloc_loop fuel e expect v value) = Some (kv', Done (e', num)) →
  alloc_result p e (kv0 :: kvs) kv' e' num.
Proof.
  revert expect value kvs last kv0 v. induction fuel as [|fuel IH]; intros expect value kvs last kv0 v Hkv0 Hv Hall; [done|].
  destruct (alloc_turn fuel e expect v value Hv) as [[Hfull ->]|(n & Hn & Hfree & ->)].
  { intros [= _ <- <-]. left. split_and!; [done..|]. exists kv0. rewrite Hkv0. split; [by left|done]. }
  destruct Hall as [|kv kvs (w & Hw & Hwb) Hall]; [done|].
  cbn [mbind program_bind st call run_in at_key]. fold (AT p). rewrite exec_cas, Hw.
  cbn [o_code o_val default from_option id Z.eqb SUCCESS negb orb].
  destruct (decide (v = w)) as [->|Hne].
  - rewrite bool_decide_true by done. intros [= <- <- <-]. right. split; [done|]. exists kv.
    split; [by right; left|]. apply takes_flip; auto.
  - rewrite bool_decide_false by done. cbn [negb]. intros Hrun.
    specialize (IH v (flip_bit v n) kvs kv kv w Hw Hwb Hall Hrun).
    unfold alloc_result in *. destruct IH as [(? & ? & x & Hx & ?)|(? & x & Hx & ?)].
    + left. split_and!; [done..|]. exists x. split; [by right|done].
    + right. split; [done|]. exists x. split; [by right|done].
Qed.

(** The first turn proposes number 0 for an absent bitmap. *)
Lemma alloc_first fuel e :
  AllocNumber (S fuel) e =
    (λ none : bytes,
     r ← st (KCas SMEM_GROUP_CAS_ALLOC_NUM_KEY none (flip_bit zero_buf 0));
     if negb (o_code r =? 0) || negb (bool_decide (default none (o_val r) = none))
     then alloc_loop fuel e none (default none (o_val r)) (flip_bit zero_buf 0)
     else Ret (Done (set_alloced e (allocedSet_ e ∪ {[ 0 ]}), 0))) [].
Proof.
  unfold AllocNumber. cbn [alloc_loop]. change (len (@nil byte) =? 0) with true. cbv iota.
  assert (first_free zero_buf 0 (Z.to_nat SMEM_ALLOC_NUM_SIZE) = Done (Some 0)) as -> by (vm_compute; reflexivity).
  reflexivity.
Qed.

Lemma alloc_run p fuel e kv kvs last kv' e' num :
  (kv !! AT p = None ∨ has_bitmap p kv) → Forall (has_bitmap p) kvs →
  run_in p (kv :: kvs) last (AllocNumber fuel e) = Some (kv', Done (e', num)) →
  alloc_result p e (kv :: kvs) kv' e' num.
Proof.
  intros Hkv Hall. destruct fuel as [|fuel]; [done|]. rewrite alloc_first.
  cbn [mbind program_bind st call run_in at_key]. fold (AT p). rewrite exec_cas.
  cbn [o_code o_val default from_option id Z.eqb SUCCESS negb orb].
  destruct Hkv as [Hn|(w & Hw & Hwb)].
  - rewrite Hn. cbn. intros [= <- <- <-]. right. split; [done|]. exists kv. split; [by left|].
    apply takes_flip; [by right|exact zero_is_bitmap|unfold SMEM_ALLOC_NUM_SIZE; lia|apply num_bit_zero].
  - rewrite Hw. destruct (bitmap_nonempty w Hwb) as [_ Hne]. rewrite decide_False, bool_decide_false by done.
    cbn [negb]. by apply alloc_loop_run.
Qed.

Lemma alloc_undisturbed p e kv :
  (kv !! AT p = None ∨ has_bitmap p kv) →
  ∃ kv' e' num, run_in p [kv; kv] kv (AllocNumber 2 e) = Some (kv', Done (e', num)).
Proof.
  intros Hkv. rewrite alloc_first. cbn [mbind program_bind st call run_in at_key]. fold (AT p). rewrite exec_cas.
  cbn [o_code o_val default from_option id Z.eqb SUCCESS negb orb].
  destruct Hkv as [Hn|(w & Hw & Hwb)].
  - rewrite Hn. cbn. eauto.
  - rewrite Hw. destruct (bitmap_nonempty w Hwb) as [_ Hne]. rewrite decide_False, bool_decide_false by done.
    cbn [negb default from_option id]. destruct (alloc_turn 0 e [] w (flip_bit zero_buf 0) Hwb) as [[_ ->]|(n & _ & _ & ->)].
    { cbn. eauto. }
    cbn [mbind program_bind st call run_in at_key]. fold (AT p). rewrite exec_cas, Hw.
    cbn [o_code o_val default from_option id Z.eqb SUCCESS negb orb].
    rewrite bool_decide_true by done. cbn. eauto.
Qed.

(** ** Versions *)
Definition enc (v s : Z) : Z := v * 2 ^ 30 + s.
Lemma split_enc v s : 0 ≤ v < 2 ^ 31 → 0 ≤ s < 2 ^ 30 → SplitSizeAndVersion (enc v s) = (v, s).
Proof.
  intros Hv Hs. unfold SplitSizeAndVersion, enc, GROUP_DYNAMIC_SIZE_BIT_LEN, GROUP_DYNAMIC_SIZE_BIT_MASK.
  rewrite u64_small by lia. rewrite Z.shiftr_div_pow2 by lia.
  change (Z.shiftl 1 30 - 1) with (Z.ones 30). rewrite Z.land_ones by lia.
  rewrite Z.div_add_l, Z.div_small by lia.
  replace (v * 2 ^ 30 + s) with (s + v * 2 ^ 30) by lia. rewrite Z_mod_plus_full, Z.mod_small by lia.
  rewrite !i32_small by lia. f_equal. lia.
Qed.
Lemma merge_enc v s : 0 ≤ v < 2 ^ 31 → 0 ≤ s < 2 ^ 30 → MergeSizeAndVersion v s = enc v s.
Proof.
  intros Hv Hs. unfold MergeSizeAndVersion, enc, GROUP_DYNAMIC_SIZE_BIT_LEN.
  rewrite !u32_small by lia. rewrite Z.shiftl_mul_pow2 by lia.
  assert (Z.lor (v * 2 ^ 30) s = v * 2 ^ 30 + s) as ->; [|apply i64_small; lia].
  rewrite <- Z.shiftl_mul_pow2 by lia. symmetry. rewrite Z.add_nocarry_lxor, <- Z.lxor_lor; [done| |].
  all: apply Z.bits_inj'; intros n Hn; rewrite Z.land_spec, Z.bits_0;
    destruct (Z_lt_le_dec n 30); [rewrite Z.shiftl_spec_low by lia; done|];
    rewrite (Z.bits_above_log2 s n), andb_false_r; [done|lia|];
    destruct (decide (s = 0)) as [->|]; [cbn; lia|]; apply Z.log2_lt_pow2; [lia|];
    apply Z.lt_le_trans with (2 ^ 30); [lia|]; apply Z.pow_le_mono_r; lia.
Qed.

Definition DS (p : PrefixConfigStore) : string := GetCompleteKey p SMEM_GROUP_DYNAMIC_SIZE_KEY.
Definition EV (p : PrefixConfigStore) : string := GetCompleteKey p SMEM_GROUP_LISTEN_EVENT_KEY.
(** The stored version and size; none is version 0 of nobody. *)
Definition dsize (p : PrefixConfigStore) (kv : gmap string bytes) (v s : Z) : Prop :=
  0 ≤ v < 2 ^ 31 ∧ 0 ≤ s < 2 ^ 30 ∧
  (kv !! DS p = Some (to_string (enc v s)) ∨ (kv !! DS p = None ∧ v = 0 ∧ s = 0)).

Lemma DS_EV p : DS p ≠ EV p.
Proof. intros E. apply (inj (String.append (keyPrefix p))) in E. done. Qed.

Lemma sn_key_last p prefix t suf a x y :
  last (bytes_of_str suf) = Some x → last (bytes_of_str a) = Some y → x ≠ y →
  GetCompleteKey p a ≠ GetCompleteKey p (sn_key prefix t suf).
Proof.
  intros Hs Ha Hne E. apply (inj (String.append (keyPrefix p))) in E. subst a. unfold sn_key in Ha.
  rewrite !bytes_of_str_app, !app_assoc, last_app, Hs in Ha. congruence.
Qed.

Lemma exec_dsize p kv v s n w :
  dsize p kv v s → - 2 ^ 61 ≤ n ≤ 2 ^ 61 →
  kv_exec kv (KAdd (DS p) n) w =
  Some (<[DS p := to_string (enc v s + n)]> kv, mkOut SUCCESS None (Some (enc v s + n))).
Proof.
  intros (Hv & Hs & Hd) Hn. unfold kv_exec. cbn [kv_outcome kv_apply].
  destruct Hd as [->|(-> & -> & ->)]; [|done].
  rewrite stored_number_to_string by (unfold I64_MIN, I64_MAX, enc; lia).
  rewrite i64_small by (unfold enc; lia). done.
Qed.

Lemma clean_keys_run p kv n i prefix sn a b :
  ∃ kv', run p kv (clean_keys n i prefix sn a b) = Some (kv', tt) ∧
    ∀ k, (∀ t, k ≠ GetCompleteKey p (sn_key prefix t a) ∧ k ≠ GetCompleteKey p (sn_key prefix t b)) →
      kv' !! k = kv !! k.
Proof.
  revert kv i. induction n as [|n IH]; intros kv i; cbn [clean_keys]; [eauto|].
  destruct (sn <? i); [cbn; eauto|].
  rewrite !run_rem.
  destruct (IH (delete (GetCompleteKey p (sn_key prefix (u32 (sn - i)) b))
    (delete (GetCompleteKey p (sn_key prefix (u32 (sn - i)) a)) kv)) (i + 1)) as (kv' & E & Hk).
  exists kv'. split; [exact E|]. intros k Hne. rewrite Hk by done.
  destruct (Hne (u32 (sn - i))) as [H1 H2]. by rewrite !lookup_delete_ne by congruence.
Qed.

Lemma clean_run p kv e :
  ∃ kv', run p kv (GroupSnClean e) = Some (kv', tt) ∧ kv' !! DS p = kv !! DS p ∧ kv' !! EV p = kv !! EV p.
Proof.
  unfold GroupSnClean. rewrite run_bind.
  edestruct clean_keys_run as (kv1 & -> & H1). cbn [mbind option_bind].
  edestruct clean_keys_run as (kv2 & -> & H2). eexists. split; [done|].
  split; rewrite H2, H1; try done; intros t; split; eapply sn_key_last; done.
Qed.

Lemma take_event_free {B} p kv n val (f : unit → prog B) :
  kv !! EV p = None →
  run p kv (take_event (S n) val [] ≫= f) = run p (<[EV p := val]> kv) (f tt).
Proof.
  intros Hn. cbn [take_event]. rewrite run_bind.
  erewrite run_st by (cbn [at_key]; fold (EV p); rewrite exec_cas, Hn; reflexivity).
  cbn [o_code o_val default from_option id]. rewrite !bool_decide_true by done. done.
Qed.
Lemma MAX_RETRY_S : ∃ n, MAX_RETRY = S n.
Proof. exists (Nat.pred MAX_RETRY). unfold MAX_RETRY. lia. Qed.

Lemma dsize_other p kv kv' v s : dsize p kv v s → kv' !! DS p = kv !! DS p → dsize p kv' v s.
Proof. unfold dsize. by intros (? & ? & ?) ->. Qed.
Lemma dsize_insert p kv v s : 0 ≤ v < 2 ^ 31 → 0 ≤ s < 2 ^ 30 → dsize p (<[DS p := to_string (enc v s)]> kv) v s.
Proof. intros. split_and!; try lia. left. apply lookup_insert_eq. Qed.

(** Who joins. *)
Definition joiner (e : Engine) : Prop := dynamic (option_ e) = true ∧ joined_ e = false.
Definition member_at (e : Engine) (v s : Z) : Prop :=
  groupVersion (versions e) = v ∧ rankSize (option_ e) = s.

Lemma join_run p kv e v s :
  joiner e → kv !! EV p = None → dsize p kv v s → v + 1 < 2 ^ 31 → s + 1 < 2 ^ 30 →
  ∃ kv' e', run p kv (GroupJoin e) = Some (kv', (e', SM_OK)) ∧
    dsize p kv' (v + 1) (s + 1) ∧ kv' !! EV p = None ∧ member_at e' (v + 1) (s + 1) ∧ joined_ e' = true.
Proof.
  intros [Hd Hj] Hev Hds Hv1 Hs1. pose proof Hds as (Hv & Hs & _). unfold GroupJoin. rewrite Hd, Hj. cbn [negb].
  destruct MAX_RETRY_S as [n ->]. rewrite take_event_free by done.
  set (kv1 := <[EV p := _]> kv).
  assert (dsize p kv1 v s) as Hds1.
  { eapply dsize_other; [exact Hds|]. apply lookup_insert_ne. intros E. by apply (DS_EV p). }
  erewrite run_st by (cbn [at_key]; fold (DS p); apply (exec_dsize p kv1 v s 0 _ Hds1); lia).
  cbn [o_code o_num default from_option id negb Z.eqb SUCCESS SM_OK]. rewrite Z.add_0_r.
  set (kv2 := <[DS p := to_string (enc v s)]> kv1). rewrite run_bind.
  destruct (clean_run p kv2 e) as (kv3 & -> & HD3 & HE3). cbn [mbind option_bind].
  rewrite split_enc by done. cbn [fst snd].
  set (e1 := set_rankSize _ _).
  assert (member_at e1 (v + 1) (s + 1)) as Hm.
  { split; cbn; [rewrite i32_small by lia; lia|]. apply u32_small. lia. }
  assert (dsize p kv3 v s) as Hds3.
  { eapply dsize_other; [|exact HD3]. by apply dsize_insert. }
  rewrite run_bind.
  assert (run p kv3 (if joinCb (option_ e1) then call (Callback true (rank (option_ e1)))
    else Ret (mkOut SM_OK None None)) = Some (kv3, mkOut SM_OK None None)) as ->.
  { by destruct (joinCb (option_ e1)). }
  cbn [mbind option_bind o_code negb Z.eqb SM_OK].
  change (Z.lor (Z.shiftl 1 GROUP_DYNAMIC_SIZE_BIT_LEN) 1) with (2 ^ 30 + 1).
  erewrite run_st by (cbn [at_key]; fold (DS p); apply (exec_dsize p kv3 v s (2 ^ 30 + 1) _ Hds3); lia).
  replace (enc v s + (2 ^ 30 + 1)) with (enc (v + 1) (s + 1)) by (unfold enc; lia).
  unfold join_exit. destruct (exec_remove (<[DS p := to_string (enc (v + 1) (s + 1))]> kv3) (EV p) (-1)) as [c Ec].
  assert (c = SUCCESS) as ->.
  { unfold kv_exec in Ec. cbn in Ec. rewrite lookup_insert_ne, HE3 in Ec by apply DS_EV.
    unfold kv2 in Ec. rewrite lookup_insert_ne in Ec by apply DS_EV.
    unfold kv1 in Ec. rewrite lookup_insert_eq in Ec. cbn in Ec. congruence. }
  erewrite run_st by (cbn [at_key]; fold (EV p); exact Ec).
  cbn [run o_code Z.lor Z.eqb SUCCESS SM_OK]. eexists _, _. split; [reflexivity|].
  split; [|split; [apply lookup_delete_eq|split; [exact Hm|done]]].
  eapply dsize_other; [apply (dsize_insert p kv3); lia|]. rewrite lookup_delete_ne; [done|].
  intros E. by apply (DS_EV p).
Qed.

Lemma ToString_text j r : ToString (mkEvent j r) = text (if j then "J" else "L") ++ to_string r.
Proof. by destruct j. Qed.
Lemma Parse_ToString ev : 0 ≤ ev_rank ev < 2 ^ 32 → Parse (ToString ev) = Some ev.
Proof.
  destruct ev as [j r]. cbn [ev_rank]. intros Hr. unfold Parse.
  assert (skip_space (ToString (mkEvent j r)) = ToString (mkEvent j r)) as -> by (by destruct j).
  unfold ToString at 1. cbn [ev_join ev_rank]. unfold strtoull.
  pose proof (scan_number_to_string r [] ltac:(lia) I) as E. rewrite app_nil_r in E. rewrite E.
  rewrite Z.abs_eq, (proj2 (Z.ltb_ge _ _)) by (unfold U64_MAX; lia).
  rewrite (proj2 (Z.ltb_ge r 0)) by lia. rewrite (proj2 (Z.ltb_ge U32_MAX r)) by (unfold U32_MAX; lia).
  assert (is_char 74 (byte_of_Z (if j then 74 else 76)) = j) as -> by (by destruct j).
  by rewrite decide_True.
Qed.

(** Who stays and hears of it, while the other holds the event. *)
Lemma member_run p kv m j r prev v s :
  dsize p kv v s → 0 ≤ r < 2 ^ 32 → ToString (mkEvent j r) ≠ prev → v + 1 < 2 ^ 31 →
  0 ≤ s + (if j : bool then 1 else -1) →
  ∃ kv' m', run p kv (JoinLeaveEventProcess m (ToString (mkEvent j r)) prev) =
      Some (kv', (m', ToString (mkEvent j r))) ∧
    member_at m' (v + 1) (s + if j then 1 else -1) ∧ dsize p kv' v s.
Proof.
  intros Hds Hr Hne Hv1 Hs1. pose proof Hds as (Hv & Hs & _). unfold JoinLeaveEventProcess.
  rewrite Parse_ToString by done. rewrite decide_False by done.
  erewrite run_st by (cbn [at_key]; fold (DS p); apply (exec_dsize p kv v s 0 _ Hds); lia).
  cbn [o_code o_num default from_option id negb Z.eqb SUCCESS SM_OK]. rewrite Z.add_0_r, split_enc by done.
  cbn [fst snd ev_join ev_rank].
  assert (dsize p (<[DS p := to_string (enc v s)]> kv) v s) as Hds' by (by apply dsize_insert).
  destruct j.
  - set (m1 := set_rankSize _ _). assert (member_at m1 (v + 1) (s + 1)) as Hm.
    { split; cbn; [rewrite i32_small by lia; lia|]. apply u32_small. lia. }
    destruct (joinCb (option_ m1)); cbn [mbind program_bind call run]; eauto 6.
  - set (m1 := set_rankSize _ _). assert (member_at m1 (v + 1) (s + -1)) as Hm.
    { split; cbn; [rewrite i32_small by lia; lia|]. rewrite u32_small by lia. lia. }
    assert (member_at (ClearBitmapForRank m1 r) (v + 1) (s + -1)) as Hm'.
    { unfold ClearBitmapForRank. by destruct (_ <=? _). }
    destruct (leaveCb (option_ m1)); cbn [mbind program_bind call run]; eauto 6.
Qed.

(** Who leaves. *)
Lemma leave_run p kv uninit e v s :
  dynamic (option_ e) = true → joined_ e = true → kv !! EV p = None → dsize p kv v s →
  v + 1 < 2 ^ 31 → 1 ≤ s →
  ∃ kv' e', run p kv (GroupLeave uninit e) = Some (kv', (e', SM_OK)) ∧
    dsize p kv' (v + 1) (s - 1) ∧ kv' !! EV p = None ∧ joined_ e' = false.
Proof.
  intros Hd Hj Hev Hds Hv1 Hs1. pose proof Hds as (Hv & Hs & _). unfold GroupLeave. rewrite Hd, Hj. cbn [negb].
  rewrite run_bind. cbn [call run mbind option_bind].
  destruct MAX_RETRY_S as [n ->]. rewrite take_event_free by done.
  set (kv1 := <[EV p := _]> kv). set (e1 := set_flags e true true _).
  assert (dsize p kv1 v s) as Hds1.
  { eapply dsize_other; [exact Hds|]. apply lookup_insert_ne. intros E. by apply (DS_EV p). }
  rewrite run_bind.
  assert (run p kv1 (if leaveCb (option_ e1) then call (Callback false (rank (option_ e1)))
    else Ret (mkOut SM_OK None None)) = Some (kv1, mkOut SM_OK None None)) as ->.
  { by destruct (leaveCb (option_ e1)). }
  cbn [mbind option_bind o_code negb Z.eqb SM_OK].
  change GROUP_DYNAMIC_SIZE_BIT_MASK with (2 ^ 30 - 1).
  erewrite run_st by (cbn [at_key]; fold (DS p); apply (exec_dsize p kv1 v s (2 ^ 30 - 1) _ Hds1); lia).
  replace (enc v s + (2 ^ 30 - 1)) with (enc (v + 1) (s - 1)) by (unfold enc; lia).
  set (kv2 := <[DS p := _]> kv1). rewrite run_bind.
  destruct (clean_run p kv2 e1) as (kv3 & -> & HD3 & HE3). cbn [mbind option_bind o_code].
  unfold leave_exit. destruct (exec_remove kv3 (EV p) (-1)) as [c Ec].
  assert (c = SUCCESS) as ->.
  { unfold kv_exec in Ec. cbn in Ec. rewrite HE3 in Ec.
    unfold kv2 in Ec. rewrite lookup_insert_ne in Ec by apply DS_EV.
    unfold kv1 in Ec. rewrite lookup_insert_eq in Ec. cbn in Ec. congruence. }
  erewrite run_st by (cbn [at_key]; fold (EV p); exact Ec).
  cbn [run o_code Z.lor Z.eqb SUCCESS SM_OK]. eexists _, _. split; [reflexivity|].
  split; [|split; [apply lookup_delete_eq|done]].
  eapply dsize_other; [apply (dsize_insert p kv1); lia|]. fold kv2. rewrite <- HD3.
  apply lookup_delete_ne. intros E. by apply (DS_EV p).
Qed.

Lemma shiftr_bit z k : (Z.land (Z.shiftr z k) 1 =? 1) = Z.testbit z k.
Proof.
  change 1 with (Z.ones 1) at 1. rewrite Z.land_ones by lia. change (2 ^ 1) with 2.
  rewrite Zmod_odd, <- Z.bit0_odd, Z.shiftr_spec by lia. rewrite Z.add_0_l. by destruct (Z.testbit z k).
Qed.

(** * Properties *)

(** C36: all-gather gives everybody the same data, in rank order.  Whatever the
    order in which the ranks append their frames, the last one releases the
    others and returns the data sorted by rank, and each waiting rank that then
    goes on returns exactly the same. *)
Theorem allgather_complete p kv e before d sz fs' :
  let fs := before ++ [(rank (option_ e), d)] in
  let sn := allGatherGroupSn (versions e) + 1 in
  let T := timeoutMs (option_ e) in
  let GA := sn_key (num_str (groupVersion (versions e))) sn "_GA" in
  let GW := sn_key (num_str (groupVersion (versions e))) sn "_GW" in
  Forall (λ f, 0 ≤ f.1 < 2 ^ 32 ∧ len f.2 = sz) fs → 0 ≤ sz → (sz + 4) * len fs < 2 ^ 32 →
  0 ≤ allGatherGroupSn (versions e) < 2 ^ 32 - 1 → rankSize (option_ e) = len fs →
  NoDup fs.*1 → fs' ≡ₚ fs → StronglySorted le_fst fs' →
  default [] (kv !! GetCompleteKey p GA) = concat (frame <$> before) →
  ∃ kv' e', run p kv (GroupAllGather e d (sz * len fs)) =
      Some (kv', (e', (SM_OK, Some (concat fs'.*2)))) ∧
    run p kv' (gather_finish GA GW T (sz + 4) (len fs) sz) = Some (kv', (SM_OK, Some (concat fs'.*2))).
Proof.
  intros fs sn T GA GW Hsz Hfit Htot Hsn Hsize Hnd Hp Hs Hkv.
  assert (len d = sz) as Hd by (apply Forall_app in Hsz as [_ H]; inversion H; naive_solver).
  unfold GroupAllGather. rewrite Hsize, Hd, u32_small by (pose proof (len_nonneg fs); nia).
  rewrite Z.eqb_refl. cbn [negb]. rewrite u32_small by lia. rewrite run_fmap.
  destruct (gather_run p kv (groupVersion (versions e)) sn T sz before (rank (option_ e)) d
    Hsz Hfit Htot ltac:(unfold sn; lia) fs' Hnd Hp Hs Hkv) as (kv' & E & HA & HW).
  fold fs sn T in E |- *. rewrite E. cbn [mbind option_bind]. eexists _, _. split; [reflexivity|].
  by apply (finish_run p _ sn T sz before (rank (option_ e)) d Hsz Hfit Htot).
Qed.

(** Rank 1 of two arrives last. *)
Definition gather_engine : Engine := engine_new (mkOpt 2 1 5000 false false false).
Lemma allgather_complete_witness :
  let p := mkPrefix "S_" in
  let kv : gmap string bytes := {[ GetCompleteKey p "0_1_GA" := frame (0, [Byte.x2a]) ]} in
  ∃ kv' e', run p kv (GroupAllGather gather_engine [Byte.x2b] 2) =
    Some (kv', (e', (SM_OK, Some [Byte.x2a; Byte.x2b]))).
Proof.
  intros p kv.
  destruct (allgather_complete p kv gather_engine [(0, [Byte.x2a])] [Byte.x2b] 1
    [(0, [Byte.x2a]); (1, [Byte.x2b])]) as (kv' & e' & E & _).
  - repeat constructor; cbn; lia.
  - lia.
  - vm_compute. reflexivity.
  - cbn. lia.
  - reflexivity.
  - cbn. repeat constructor; set_solver.
  - reflexivity.
  - repeat constructor; unfold le_fst; cbn; lia.
  - vm_compute. reflexivity.
  - exists kv', e'. exact E.
Defined.

(** A number is allocated atomically.  Whatever other ranks do to the bitmap
    between the attempts, a call that returns a number has, with its successful
    CAS, taken a number that was free in the store at that moment and changed
    nothing else, and a call that returns an error has seen every number in use;
    undisturbed, two attempts are enough. *)
Theorem alloc_number_atomic p fuel e kv kvs last kv' e' num :
  (kv !! AT p = None ∨ has_bitmap p kv) → Forall (has_bitmap p) kvs →
  run_in p (kv :: kvs) last (AllocNumber fuel e) = Some (kv', Done (e', num)) →
  alloc_result p e (kv :: kvs) kv' e' num ∧
  ∃ kv2 e2 num2, run_in p [kv; kv] kv (AllocNumber 2 e) = Some (kv2, Done (e2, num2)).
Proof. intros Hkv Hall Hrun. split; [by eapply alloc_run|by apply alloc_undisturbed]. Qed.

Lemma alloc_number_atomic_witness :
  let p := mkPrefix "S_" in
  let kv : gmap string bytes := {[ AT p := flip_bit zero_buf 0 ]} in
  ∃ kv' e', run_in p [kv; kv] ∅ (AllocNumber 2 (engine_new (mkOpt 2 0 5000 false false false))) =
      Some (kv', Done (e', 1)) ∧
    alloc_result p (engine_new (mkOpt 2 0 5000 false false false)) [kv; kv] kv' e' 1.
Proof.
  intros p kv. set (e := engine_new (mkOpt 2 0 5000 false false false)).
  assert (has_bitmap p kv) as Hb.
  { eexists. split; [vm_compute; reflexivity|]. vm_compute. reflexivity. }
  assert (run_in p [kv; kv] ∅ (AllocNumber 2 e) =
    Some (<[AT p := flip_bit (flip_bit zero_buf 0) 1]> kv,
          Done (set_alloced e (allocedSet_ e ∪ {[ 1 ]}), 1))) as E by (vm_compute; reflexivity).
  eexists _, _. split; [exact E|].
  apply (alloc_number_atomic p 2 e kv [kv] ∅ _ _ 1); [by right|by repeat constructor|exact E].
Defined.

(** A released number stays in use.  The loop of ReleaseNumber repeats while
    its CAS succeeds and ends when it fails, so with the bitmap in the store it
    makes one attempt that expects no bitmap, and returns success without having
    changed anything; the number can not be allocated again. *)
Theorem release_never_releases p kv fuel e val v :
  kv !! AT p = Some v → v ≠ [] → val ∈ allocedSet_ e → 0 ≤ val < SMEM_ALLOC_NUM_SIZE →
  run p kv (ReleaseNumber (S fuel) e val) =
    Some (kv, Done (set_alloced e (allocedSet_ e ∖ {[ val ]}), SM_OK)).
Proof.
  intros Hv Hne Hin Hval. unfold ReleaseNumber. rewrite decide_True by done. cbn [release_loop].
  change (len (@nil byte) =? 0) with true. cbv iota.
  destruct (bitmap_byte (flip_bit zero_buf val) val) as [b Hb]; [by apply flip_is_bitmap|done|].
  rewrite Hb, shiftr_bit.
  pose proof (flip_bit_spec zero_buf val val zero_is_bitmap Hval ltac:(lia)) as Hbit.
  rewrite decide_True, num_bit_zero in Hbit by done. unfold num_bit in Hbit. rewrite Hb in Hbit. rewrite Hbit. cbn [negb].
  erewrite run_st by (cbn [at_key]; fold (AT p); rewrite exec_cas, Hv; reflexivity).
  cbn [o_code o_val default from_option id]. rewrite decide_False by done.
  rewrite bool_decide_false by done. done.
Qed.

Lemma release_never_releases_witness :
  let p := mkPrefix "S_" in
  let kv : gmap string bytes := {[ AT p := flip_bit zero_buf 0 ]} in
  let e := set_alloced (engine_new (mkOpt 2 0 5000 false false false)) {[ 0 ]} in
  run p kv (ReleaseNumber 10 e 0) = Some (kv, Done (set_alloced e (allocedSet_ e ∖ {[ 0 ]}), SM_OK)).
Proof.
  intros p kv e. apply (release_never_releases p kv 9 e 0 (flip_bit zero_buf 0)).
  - vm_compute. reflexivity.
  - discriminate.
  - cbn. set_solver.
  - unfold SMEM_ALLOC_NUM_SIZE. lia.
Defined.


