(* ===== verification/SmemBm.v ===== *)
(** * Big memory (src/src/smem/csrc/smem_bm)

    What an application calls to pool memory: an entry owns an entity of the hybm
    interface and a group of ranks, the manager finds the entry of a handle.

    The methods are programs over what the entities call ([SE]), the group engine and
    the store factory.  The group engine runs the two handlers [JoinHandle] and
    [LeaveHandle] itself, while a rank joins or from its listening thread, so they are
    operations of their own; the size of the group stays while one runs.  A handle is
    an address; [bm_entries] is the memory behind the handles. *)
From Stdlib Require Import Strings.Byte Strings.String.
From stdpp Require Import base numbers list gmap sorting.
From S2P Require Import Prelude RangePool VaManager MemSlice SmemTypes StrUtil HostDataOp HcomHelper TagInfo HcomTransport ComposeDataOp Entity EntityApi StoreBackend.
Local Open Scope Z_scope.
Local Open Scope mf_scope.

(** ** What is called *)
Inductive SCall :=
| SE (c : ECall)
| SUndefined
| SHybmInit (deviceId flags : Z)
| SHybmUninit
(* the group of an entry *)
| SGroupCreate (id rankSize rankId timeoutMs : Z) (dynamic : bool)
| SGroupRankSize (id : Z)
| SGroupAllGather (id : Z) (sendBuf : bytes) (recvSize : Z)
| SGroupBarrier (id : Z)
| SGroupJoin (id : Z)
| SGroupLeave (id : Z)
| SGroupSetBitmap (id : Z) (ranks : list Z)
| SGroupSnClean (id : Z)
(* the store *)
| SExtractUrl
| SSetTlsInfo
| SCreateStore (server : bool) (worldSize rankId connMaxRetry : Z)
| SCreateStoreClient (worldSize : Z)
| SPrefixStore (prefix : bytes)
| SGetFailedReason
| SIsLocalIp
| SGetAutoRank
| SSetRankId (rankId : Z)
| SDestroyStore.
Abbreviation sprog := (program SCall EAns).
Definition scall (c : SCall) : sprog EAns := Act c Ret.
Definition sret (c : SCall) : sprog Z := Act c (λ a, Ret (e_ret a)).
Definition sflag (c : SCall) : sprog bool := Act c (λ a, Ret (negb (e_ret a =? 0))).
Definition sundefined {A} (a : A) : sprog A := Act SUndefined (λ _, Ret a).
Fixpoint lift {A} (p : eprog A) : sprog A :=
  match p with
  | Ret a => Ret a
  | Act c k => Act (SE c) (λ o, lift (k o))
  end.

(** ** Helpers *)
Definition TransHybmMemType (localDRAMSize localHBMSize : Z) : Z :=
  Z.lor (if 0 <? localDRAMSize then HYBM_MEM_TYPE_HOST else 0) (if 0 <? localHBMSize then HYBM_MEM_TYPE_DEVICE else 0).
Definition TransHybmDataOpType (t : Z) : Z :=
  Z.lor (if allows t SMEMB_DATA_OP_SDMA then HYBM_DOP_TYPE_SDMA else 0)
  (Z.lor (if allows t SMEMB_DATA_OP_DEVICE_RDMA then HYBM_DOP_TYPE_DEVICE_RDMA else 0)
  (Z.lor (if allows t SMEMB_DATA_OP_HOST_RDMA then HYBM_DOP_TYPE_HOST_RDMA else 0)
  (Z.lor (if allows t SMEMB_DATA_OP_HOST_URMA then HYBM_DOP_TYPE_HOST_URMA else 0)
         (if allows t SMEMB_DATA_OP_HOST_TCP then HYBM_DOP_TYPE_HOST_TCP else 0)))).
Definition zero_info : hybm_exchange_info := mkEx (repeat x00 512) 0.
(** A descriptor in a buffer that is gathered, and the descriptors in the result. *)
Definition sizeof_info : Z := 516.
Definition info_bytes (d : hybm_exchange_info) : bytes := desc d ++ le_bytes 4 (descLen d).
Definition info_at (b : bytes) (i : nat) : hybm_exchange_info := mkEx (at_bytes b (516 * i) 512) (le_val (at_bytes b (516 * i + 512) 4)).
Definition infos_of (b : bytes) (n : Z) : list hybm_exchange_info := info_at b <$> seq 0 (Z.to_nat n).

(** ** An entry *)
Record SmemBmEntryOptions := mkBmOptions { bo_id : Z; bo_rank : Z; bo_rankSize : Z; controlOperationTimeout : Z }.
Record SmemBmEntry := mkBmEntry {
  be_inited : bool;
  globalGroup_ : bool;
  be_entity : Z;
  hostGva_ : Z;
  deviceGva_ : Z;
  be_options : SmemBmEntryOptions;
  coreOptions_ : hybm_options;
  hbmSliceInfo_ : hybm_exchange_info;
  dramSliceInfo_ : hybm_exchange_info;
  entityInfo_ : hybm_exchange_info;
  dramSlice_ : Z;
  hbmSlice_ : Z;
  registedSlice_ : gmap Z (Z * Z);
}.
Definition bm_new (o : SmemBmEntryOptions) : SmemBmEntry :=
  mkBmEntry false false nullptr nullptr nullptr o zero_options zero_info zero_info zero_info nullptr nullptr ∅.
Definition set_group (b : SmemBmEntry) g : SmemBmEntry := mkBmEntry (be_inited b) g (be_entity b) (hostGva_ b) (deviceGva_ b) (be_options b)
  (coreOptions_ b) (hbmSliceInfo_ b) (dramSliceInfo_ b) (entityInfo_ b) (dramSlice_ b) (hbmSlice_ b) (registedSlice_ b).
Definition set_entity (b : SmemBmEntry) p : SmemBmEntry := mkBmEntry (be_inited b) (globalGroup_ b) p (hostGva_ b) (deviceGva_ b) (be_options b)
  (coreOptions_ b) (hbmSliceInfo_ b) (dramSliceInfo_ b) (entityInfo_ b) (dramSlice_ b) (hbmSlice_ b) (registedSlice_ b).
Definition set_hbm (b : SmemBmEntry) i s : SmemBmEntry := mkBmEntry (be_inited b) (globalGroup_ b) (be_entity b) (hostGva_ b) (deviceGva_ b) (be_options b)
  (coreOptions_ b) i (dramSliceInfo_ b) (entityInfo_ b) (dramSlice_ b) s (registedSlice_ b).
Definition set_dram (b : SmemBmEntry) i s : SmemBmEntry := mkBmEntry (be_inited b) (globalGroup_ b) (be_entity b) (hostGva_ b) (deviceGva_ b) (be_options b)
  (coreOptions_ b) (hbmSliceInfo_ b) i (entityInfo_ b) s (hbmSlice_ b) (registedSlice_ b).
Definition set_entityInfo (b : SmemBmEntry) i : SmemBmEntry := mkBmEntry (be_inited b) (globalGroup_ b) (be_entity b) (hostGva_ b) (deviceGva_ b)
  (be_options b) (coreOptions_ b) (hbmSliceInfo_ b) (dramSliceInfo_ b) i (dramSlice_ b) (hbmSlice_ b) (registedSlice_ b).
Definition set_ready (b : SmemBmEntry) o h d : SmemBmEntry := mkBmEntry true (globalGroup_ b) (be_entity b) h d (be_options b)
  o (hbmSliceInfo_ b) (dramSliceInfo_ b) (entityInfo_ b) (dramSlice_ b) (hbmSlice_ b) (registedSlice_ b).
Definition set_registed (b : SmemBmEntry) r : SmemBmEntry := mkBmEntry (be_inited b) (globalGroup_ b) (be_entity b) (hostGva_ b) (deviceGva_ b)
  (be_options b) (coreOptions_ b) (hbmSliceInfo_ b) (dramSliceInfo_ b) (entityInfo_ b) (dramSlice_ b) (hbmSlice_ b) r.
Definition set_closed (b : SmemBmEntry) : SmemBmEntry := mkBmEntry false (globalGroup_ b) nullptr (hostGva_ b) (deviceGva_ b) (be_options b)
  (coreOptions_ b) (hbmSliceInfo_ b) (dramSliceInfo_ b) (entityInfo_ b) nullptr nullptr ∅.
Definition Id (b : SmemBmEntry) : Z := bo_id (be_options b).

(** The registered memories in the order of their addresses. *)
Definition key_le (a b : Z * (Z * Z)) : Prop := a.1 ≤ b.1.
#[global] Instance key_le_dec : RelDecision key_le.
Proof. intros a b. unfold key_le. apply _. Defined.
Fixpoint free_all (f : MemEntityFactory) (p : Z) (l : list (Z * (Z * Z))) : sprog MemEntityFactory :=
  match l with
  | [] => Ret f
  | (_, (_, slice)) :: l => '(f, _) ← lift (hybm_free_local_memory f p slice); free_all f p l
  end.
Definition UnInitalize (f : MemEntityFactory) (b : SmemBmEntry) : sprog (MemEntityFactory * SmemBmEntry) :=
  if negb (be_inited b) then Ret (f, b) else
  if be_entity b =? nullptr then Ret (f, b) else
  '(f, _) ← (if negb (hbmSlice_ b =? nullptr) then lift (hybm_free_local_memory f (be_entity b) (hbmSlice_ b)) else Ret (f, 0));
  f ← free_all f (be_entity b) (merge_sort key_le (map_to_list (registedSlice_ b)));
  '(f, _) ← lift (hybm_unreserve_mem_space f (be_entity b));
  f ← lift (hybm_destroy_entity f (be_entity b));
  Ret (f, set_closed b).

(** The slice of a kind of memory, and its descriptor. *)
Definition alloc_export (f : MemEntityFactory) (p mType maxSize size : Z) (info : hybm_exchange_info) (old : Z)
    : sprog (MemEntityFactory * hybm_exchange_info * Z * Z) :=
  if negb (0 <? maxSize) then Ret (f, info, old, 0) else
  '(f, slice) ← lift (hybm_alloc_local_memory f p mType size);
  if slice =? nullptr then Ret (f, info, old, SM_ERROR) else
  '(f, (info, ret)) ← (λ x : MemEntityFactory * (option hybm_exchange_info * Z), (x.1, (default info x.2.1, x.2.2))) <$>
    lift (hybm_export f p slice 0 (Some info));
  Ret (f, info, slice, ret).
(** [fresh] is the address of a new entity. *)
Definition bm_Initialize (f : MemEntityFactory) (b : SmemBmEntry) (options : hybm_options) (fresh : Z)
    : sprog (MemEntityFactory * SmemBmEntry * Z) :=
  if be_inited b then Ret (f, b, SM_OK) else
  group ← sflag (SGroupCreate (Id b) (ho_rankCount options) (ho_rankId options) (u64 (controlOperationTimeout (be_options b) * SECOND_TO_MILLSEC)) true);
  if negb group then Ret (f, b, SM_ERROR) else
  let b := set_group b true in
  let failed f b ret := '(f, b) ← UnInitalize f b; Ret (f, set_group b false, ret) in
  '(f, p) ← lift (hybm_create_entity f (u16 (Id b * 2 + 1)) (Some options) fresh);
  if p =? nullptr then failed f b SM_ERROR else
  '(f, ret) ← lift (hybm_reserve_mem_space f p);
  if negb (ret =? 0) then f ← lift (hybm_destroy_entity f p); failed f b SM_ERROR else
  let b := set_entity b p in
  '(f, info, slice, ret) ← alloc_export f p HYBM_MEM_TYPE_DEVICE (ho_maxHBMSize options) (ho_deviceVASpace options) zero_info (hbmSlice_ b);
  let b := set_hbm b info slice in
  if negb (ret =? 0) then failed f b ret else
  '(f, info, slice, ret) ← alloc_export f p HYBM_MEM_TYPE_HOST (ho_maxDRAMSize options) (ho_hostVASpace options) zero_info (dramSlice_ b);
  let b := set_dram b info slice in
  if negb (ret =? 0) then failed f b ret else
  '(f, x) ← lift (hybm_export f p nullptr HYBM_FLAG_EXPORT_ENTITY (Some zero_info));
  let b := set_entityInfo b (default zero_info x.1) in
  if negb (x.2 =? 0) then failed f b x.2 else
  '(f, h) ← lift (hybm_get_memory_ptr f p HYBM_MEM_TYPE_HOST);
  '(f, d) ← lift (hybm_get_memory_ptr f p HYBM_MEM_TYPE_DEVICE);
  Ret (f, set_ready b options h d, 0).

(** ** Joining and leaving *)
Section Handlers.
Context (rank_order : gmap Z EntityExportInfo → list (Z * EntityExportInfo)).
(** The descriptors of all ranks, gathered into a buffer for [ho_rankCount] of them, and imported. *)
Definition exchange (f : MemEntityFactory) (b : SmemBmEntry) (info : hybm_exchange_info) (flags : Z) : sprog (MemEntityFactory * Z) :=
  n ← sret (SGroupRankSize (Id b));
  a ← scall (SGroupAllGather (Id b) (info_bytes info) (u32 (sizeof_info * n)));
  if negb (e_ret a =? 0) then Ret (f, SM_ERROR) else
  if ho_rankCount (coreOptions_ b) <? n then sundefined (f, SM_ERROR) else
  '(f, ret) ← lift (hybm_import rank_order f (be_entity b) (Some (infos_of (e_bytes a) n)) flags);
  if negb (ret =? 0) then Ret (f, SM_ERROR) else
  ret ← sret (SGroupBarrier (Id b));
  Ret (f, if negb (ret =? 0) then SM_ERROR else SM_OK).
Definition ExchangeSliceForJoin (f : MemEntityFactory) (b : SmemBmEntry) (sliceInfo : hybm_exchange_info) : sprog (MemEntityFactory * Z) :=
  if descLen sliceInfo =? 0 then Ret (f, SM_OK) else exchange f b sliceInfo 0.
Definition ExchangeEntityForJoin (f : MemEntityFactory) (b : SmemBmEntry) : sprog (MemEntityFactory * Z) :=
  exchange f b (entityInfo_ b) HYBM_FLAG_EXPORT_ENTITY.
Definition rank_at (buf : bytes) (i : nat) : Z := le_val (at_bytes buf (4 * i) 4).
Definition JoinHandle (f : MemEntityFactory) (b : SmemBmEntry) : sprog (MemEntityFactory * Z) :=
  if negb (be_inited b) then Ret (f, SM_NOT_INITIALIZED) else
  n ← sret (SGroupRankSize (Id b));
  a ← scall (SGroupAllGather (Id b) (le_bytes 4 (bo_rank (be_options b))) (u32 (4 * n)));
  if negb (e_ret a =? 0) then Ret (f, SM_ERROR) else
  '(f, ret) ← ExchangeEntityForJoin f b;
  if negb (ret =? SM_OK) then Ret (f, ret) else
  '(f, ret) ← ExchangeSliceForJoin f b (hbmSliceInfo_ b);
  if negb (ret =? SM_OK) then Ret (f, ret) else
  '(f, ret) ← ExchangeSliceForJoin f b (dramSliceInfo_ b);
  if negb (ret =? SM_OK) then Ret (f, ret) else
  '(f, ret) ← lift (hybm_mmap f (be_entity b));
  if negb (ret =? 0) then Ret (f, SM_ERROR) else
  _ ← scall (SGroupSetBitmap (Id b) (rank_at (e_bytes a) <$> seq 0 (Z.to_nat n)));
  Ret (f, SM_OK).
Definition LeaveHandle (f : MemEntityFactory) (b : SmemBmEntry) (rk : Z) : sprog (MemEntityFactory * Z) :=
  if negb (be_inited b) then Ret (f, SM_NOT_INITIALIZED) else
  '(f, ret) ← lift (hybm_remove_imported f (be_entity b) rk);
  Ret (f, if negb (ret =? 0) then SM_ERROR else SM_OK).
End Handlers.
Definition Join (b : SmemBmEntry) : sprog Z :=
  if negb (be_inited b) then Ret SM_NOT_INITIALIZED else
  if negb (globalGroup_ b) then sundefined SM_ERROR else sret (SGroupJoin (Id b)).
Definition Leave (b : SmemBmEntry) : sprog Z :=
  if negb (be_inited b) then Ret SM_NOT_INITIALIZED else
  if negb (globalGroup_ b) then sundefined SM_ERROR else sret (SGroupLeave (Id b)).

(** ** Addresses and copies *)
Definition AddrInHostGva (b : SmemBmEntry) (address size : Z) : bool :=
  if hostGva_ b =? nullptr then false else
  let totalSize := u64 (ho_maxDRAMSize (coreOptions_ b) * ho_rankCount (coreOptions_ b)) in
  if hostGva_ b +64 totalSize <? address +64 size then false else
  if address <? hostGva_ b then false else true.
Definition AddrInDeviceGva (b : SmemBmEntry) (address size : Z) : bool :=
  if deviceGva_ b =? nullptr then false else
  let totalSize := u64 (ho_maxHBMSize (coreOptions_ b) * ho_rankCount (coreOptions_ b)) in
  if deviceGva_ b +64 totalSize <? address +64 size then false else
  if address <? deviceGva_ b then false else true.
Definition GetHybmMemTypeFromGva (b : SmemBmEntry) (addr size : Z) : smem_bm_mem_type :=
  if AddrInHostGva b addr size then SMEM_MEM_TYPE_HOST else
  if AddrInDeviceGva b addr size then SMEM_MEM_TYPE_DEVICE else SMEM_MEM_TYPE_BUTT.
(** [None]: a division by zero. *)
Definition GetRankIdByGva (b : SmemBmEntry) (gva : Z) : option Z :=
  if AddrInHostGva b gva 1 then
    if ho_hostVASpace (coreOptions_ b) =? 0 then None else Some (u32 ((gva -64 hostGva_ b) / ho_hostVASpace (coreOptions_ b)))
  else if AddrInDeviceGva b gva 1 then
    if ho_deviceVASpace (coreOptions_ b) =? 0 then None else Some (u32 ((gva -64 deviceGva_ b) / ho_deviceVASpace (coreOptions_ b)))
  else Some U32_MAX.

Definition directMap (src dest : smem_bm_mem_type) : hybm_data_copy_direction :=
  match src, dest with
  | SMEM_MEM_TYPE_LOCAL_DEVICE, SMEM_MEM_TYPE_DEVICE => HYBM_LOCAL_DEVICE_TO_GLOBAL_DEVICE
  | SMEM_MEM_TYPE_LOCAL_DEVICE, SMEM_MEM_TYPE_HOST => HYBM_LOCAL_DEVICE_TO_GLOBAL_HOST
  | SMEM_MEM_TYPE_LOCAL_HOST, SMEM_MEM_TYPE_DEVICE => HYBM_LOCAL_HOST_TO_GLOBAL_DEVICE
  | SMEM_MEM_TYPE_LOCAL_HOST, SMEM_MEM_TYPE_HOST => HYBM_LOCAL_HOST_TO_GLOBAL_HOST
  | SMEM_MEM_TYPE_DEVICE, SMEM_MEM_TYPE_LOCAL_DEVICE => HYBM_GLOBAL_DEVICE_TO_LOCAL_DEVICE
  | SMEM_MEM_TYPE_DEVICE, SMEM_MEM_TYPE_LOCAL_HOST => HYBM_GLOBAL_DEVICE_TO_LOCAL_HOST
  | SMEM_MEM_TYPE_DEVICE, SMEM_MEM_TYPE_DEVICE => HYBM_GLOBAL_DEVICE_TO_GLOBAL_DEVICE
  | SMEM_MEM_TYPE_DEVICE, SMEM_MEM_TYPE_HOST => HYBM_GLOBAL_DEVICE_TO_GLOBAL_HOST
  | SMEM_MEM_TYPE_HOST, SMEM_MEM_TYPE_LOCAL_DEVICE => HYBM_GLOBAL_HOST_TO_LOCAL_DEVICE
  | SMEM_MEM_TYPE_HOST, SMEM_MEM_TYPE_LOCAL_HOST => HYBM_GLOBAL_HOST_TO_LOCAL_HOST
  | SMEM_MEM_TYPE_HOST, SMEM_MEM_TYPE_DEVICE => HYBM_GLOBAL_HOST_TO_GLOBAL_DEVICE
  | SMEM_MEM_TYPE_HOST, SMEM_MEM_TYPE_HOST => HYBM_GLOBAL_HOST_TO_GLOBAL_HOST
  | _, _ => HYBM_DATA_COPY_DIRECTION_BUTT
  end.
Definition TransToHybmDirection (b : SmemBmEntry) (smemDirect : smem_bm_copy_type) (src srcSize dest destSize : Z) : hybm_data_copy_direction :=
  let srcMemType := GetHybmMemTypeFromGva b src srcSize in
  let destMemType := GetHybmMemTypeFromGva b dest destSize in
  match smemDirect with
  | SMEMB_COPY_L2G => directMap SMEM_MEM_TYPE_LOCAL_DEVICE destMemType
  | SMEMB_COPY_G2L => directMap srcMemType SMEM_MEM_TYPE_LOCAL_DEVICE
  | SMEMB_COPY_G2H | SMEMB_COPY_GH2H => directMap srcMemType SMEM_MEM_TYPE_LOCAL_HOST
  | SMEMB_COPY_H2G | SMEMB_COPY_H2GH => directMap SMEM_MEM_TYPE_LOCAL_HOST destMemType
  | _ => directMap srcMemType destMemType
  end.
Definition is_auto_type (t : smem_bm_copy_type) : bool := match t with SMEMB_COPY_AUTO => true | _ => false end.
Definition is_butt_type (t : smem_bm_copy_type) : bool := match t with SMEMB_COPY_BUTT => true | _ => false end.
Definition direct_of (b : SmemBmEntry) (t : smem_bm_copy_type) (j : hybm_copy_params) : hybm_data_copy_direction :=
  if is_auto_type t then HYBM_DATA_COPY_DIRECTION_AUTO else TransToHybmDirection b t (src j) (dataSize j) (dest j) (dataSize j).
Definition bm_DataCopy (va : HybmVaManager) (f : MemEntityFactory) (b : SmemBmEntry) (j : hybm_copy_params) (t : smem_bm_copy_type) (flags : Z)
    : sprog (MemEntityFactory * Z) :=
  if (src j =? nullptr) || (dest j =? nullptr) || (dataSize j =? 0) || is_butt_type t then Ret (f, SM_INVALID_PARAM) else
  if negb (be_inited b) then Ret (f, SM_NOT_INITIALIZED) else
  if is_butt (direct_of b t j) then Ret (f, SM_INVALID_PARAM) else
  lift (hybm_data_copy va f (be_entity b) (Some j) (direct_of b t j) nullptr flags).
Definition bm_Wait (f : MemEntityFactory) (b : SmemBmEntry) : sprog (MemEntityFactory * Z) :=
  if negb (be_inited b) then Ret (f, SM_NOT_INITIALIZED) else lift (hybm_wait f (be_entity b)).
(** [None]: no array of sources or destinations; the sizes are given. *)
Definition DataCopyBatch (group_order : gmap (Z * Z) (list nat) → list (Z * Z * list nat)) (va : HybmVaManager) (f : MemEntityFactory)
    (b : SmemBmEntry) (params : option (list hybm_copy_params)) (t : smem_bm_copy_type) (flags : Z) : sprog (MemEntityFactory * Z) :=
  match params with
  | None | Some [] => Ret (f, SM_INVALID_PARAM)
  | Some ((j :: _) as jobs) =>
      if is_butt_type t then Ret (f, SM_INVALID_PARAM) else
      if negb (be_inited b) then Ret (f, SM_NOT_INITIALIZED) else
      if is_butt (direct_of b t j) then Ret (f, SM_INVALID_PARAM) else
      lift (hybm_data_batch_copy group_order va f (be_entity b) (Some jobs) (direct_of b t j) nullptr flags)
  end.
Definition RegisterMem (f : MemEntityFactory) (b : SmemBmEntry) (addr size : Z) : sprog (MemEntityFactory * SmemBmEntry * Z) :=
  if negb (be_inited b) then Ret (f, b, SM_NOT_INITIALIZED) else
  match registedSlice_ b !! addr with
  | Some (n, _) => Ret (f, b, if negb (n =? size) then SM_ERROR else SM_OK)
  | None =>
      '(f, slice) ← lift (hybm_register_local_memory f (be_entity b) addr size);
      if negb (slice =? nullptr) then Ret (f, set_registed b (<[addr := (size, slice)]> (registedSlice_ b)), SM_OK) else Ret (f, b, SM_ERROR)
  end.
Definition UnRegisterMem (f : MemEntityFactory) (b : SmemBmEntry) (addr : Z) : sprog (MemEntityFactory * SmemBmEntry * Z) :=
  if negb (be_inited b) then Ret (f, b, SM_NOT_INITIALIZED) else
  match registedSlice_ b !! addr with
  | Some (_, slice) =>
      '(f, ret) ← lift (hybm_free_local_memory f (be_entity b) slice);
      if negb (ret =? 0) then Ret (f, b, SM_ERROR) else Ret (f, set_registed b (delete addr (registedSlice_ b)), SM_OK)
  | None => Ret (f, b, SM_OK)
  end.

(** ** The manager and the entry points *)
Record smem_bm_config_t := mkBmConfig {
  initTimeout : Z; createTimeout : Z; c_controlOperationTimeout : Z; startConfigStoreServer : bool; startConfigStoreOnly : bool;
  dynamicWorldSize : bool; unifiedAddressSpace : bool; autoRanking : bool; c_rankId : Z; c_flags : Z; hcomUrl : bytes }.
Definition smem_bm_config_init : smem_bm_config_t :=
  mkBmConfig SMEM_DEFAUT_WAIT_TIME SMEM_DEFAUT_WAIT_TIME SMEM_DEFAUT_WAIT_TIME true false false true true (2 ^ 16 - 1) 0 [].
Definition SMEM_BM_TIMEOUT_MAX : Z := U32_MAX.
Definition SmemBmConfigCheck (config : option smem_bm_config_t) : Z :=
  match config with
  | None => SM_INVALID_PARAM
  | Some c =>
      let ok t := negb (t =? 0) && (t <=? SMEM_BM_TIMEOUT_MAX) in
      if unifiedAddressSpace c && ok (initTimeout c) && ok (createTimeout c) && ok (c_controlOperationTimeout c) then 0 else SM_INVALID_PARAM
  end.
Record Bm := mkBm {
  bm_factory : MemEntityFactory;
  bm_entries : gmap Z SmemBmEntry;
  ptr2EntryMap_ : gmap Z Z;
  entryIdMap_ : gmap Z Z;
  config_ : smem_bm_config_t;
  worldSize_ : Z;
  deviceId_ : Z;
  mgr_inited : bool;
  confStore_ : bool;
  g_smemBmInited : bool;
}.
Definition set_mgr (s : Bm) c w d i st : Bm := mkBm (bm_factory s) (bm_entries s) (ptr2EntryMap_ s) (entryIdMap_ s) c w d i st (g_smemBmInited s).
Definition set_store (s : Bm) st : Bm := set_mgr s (config_ s) (worldSize_ s) (deviceId_ s) (mgr_inited s) st.
Definition set_factory (s : Bm) f : Bm :=
  mkBm f (bm_entries s) (ptr2EntryMap_ s) (entryIdMap_ s) (config_ s) (worldSize_ s) (deviceId_ s) (mgr_inited s) (confStore_ s) (g_smemBmInited s).
Definition set_maps (s : Bm) e p i : Bm := mkBm (bm_factory s) e p i (config_ s) (worldSize_ s) (deviceId_ s) (mgr_inited s) (confStore_ s) (g_smemBmInited s).
Definition set_global (s : Bm) g : Bm :=
  mkBm (bm_factory s) (bm_entries s) (ptr2EntryMap_ s) (entryIdMap_ s) (config_ s) (worldSize_ s) (deviceId_ s) (mgr_inited s) (confStore_ s) g.
Definition zero_config : smem_bm_config_t := mkBmConfig 0 0 0 false false false false false 0 0 [].
Definition bm_start : Bm := mkBm (mkFactory ∅ ∅ ∅) ∅ ∅ ∅ zero_config 0 0 false false false.

Definition RacingForStoreServer (s : Bm) : sprog (Bm * Z) :=
  a ← scall SIsLocalIp;
  if negb (e_ret a =? SM_OK) then Ret (s, SM_ERROR) else
  if e_val a =? 0 then Ret (s, SM_OK) else
  store ← sflag (SCreateStore true (worldSize_ s) (-1) (-1));
  let s := set_store s store in
  if (store : bool) then Ret (s, SM_OK) else
  r ← sret SGetFailedReason;
  Ret (s, if r =? SM_RESOURCE_IN_USE then SM_OK else r).
Definition PrepareStore (s : Bm) : sprog (Bm * Z) :=
  ret ← sret SExtractUrl;
  if negb (ret =? SM_OK) then Ret (s, SM_INVALID_PARAM) else
  _ ← scall SSetTlsInfo;
  '(s, ret) ← (if negb (autoRanking (config_ s)) then
      if negb (c_rankId (config_ s) <? worldSize_ s) then Ret (s, SM_INVALID_PARAM) else
      store ← sflag (SCreateStore ((c_rankId (config_ s) =? 0) && startConfigStoreServer (config_ s)) (worldSize_ s) (c_rankId (config_ s)) (-1));
      let s := set_store s store in
      if negb store then r ← sret SGetFailedReason; Ret (s, r) else Ret (s, SM_OK)
    else
      '(s, ret) ← (if startConfigStoreServer (config_ s) then RacingForStoreServer s else Ret (s, SM_OK));
      if negb (ret =? SM_OK) then Ret (s, ret) else
      if confStore_ s then Ret (s, SM_OK) else
      store ← sflag (SCreateStoreClient (worldSize_ s));
      let s := set_store s store in
      if negb store then r ← sret SGetFailedReason; Ret (s, r) else Ret (s, SM_OK));
  if negb (ret =? SM_OK) then Ret (s, ret) else
  store ← sflag (SPrefixStore (bytes_of_str "SMEM_BM_"%string));
  Ret (set_store s store, SM_OK).
Definition with_rank (c : smem_bm_config_t) (r : Z) : smem_bm_config_t :=
  mkBmConfig (initTimeout c) (createTimeout c) (c_controlOperationTimeout c) (startConfigStoreServer c) (startConfigStoreOnly c) (dynamicWorldSize c)
    (unifiedAddressSpace c) (autoRanking c) r (c_flags c) (hcomUrl c).
Definition AutoRanking (s : Bm) : sprog (Bm * Z) :=
  if negb (confStore_ s) then sundefined (s, SM_ERROR) else
  a ← scall SGetAutoRank;
  if (e_ret a =? SM_OK) && (len (e_bytes a) =? 4) then
    let r := u16 (le_val (e_bytes a)) in
    _ ← scall (SSetRankId r);
    Ret (set_mgr s (with_rank (config_ s) r) (worldSize_ s) (deviceId_ s) (mgr_inited s) (confStore_ s), SM_OK)
  else Ret (s, SM_ERROR).
Definition mgr_Initialize (s : Bm) (worldSize deviceId : Z) (config : smem_bm_config_t) : sprog (Bm * Z) :=
  if mgr_inited s then Ret (s, SM_OK) else
  if worldSize =? 0 then Ret (s, SM_INVALID_PARAM) else
  let s := set_mgr s config worldSize deviceId (mgr_inited s) (confStore_ s) in
  '(s, ret) ← PrepareStore s;
  if negb (ret =? SM_OK) then Ret (s, ret) else
  '(s, ret) ← (if autoRanking (config_ s) then AutoRanking s else Ret (s, SM_OK));
  if negb (ret =? SM_OK) then Ret (s, ret) else
  Ret (set_mgr s (config_ s) (worldSize_ s) (deviceId_ s) true (confStore_ s), SM_OK).
Definition mgr_Destroy (s : Bm) : sprog Bm :=
  let s := set_mgr s (config_ s) (worldSize_ s) (deviceId_ s) false false in
  _ ← scall SDestroyStore;
  Ret s.
(** [fresh] is the address of a new entry; the text of a prefix is "(", the id, ")_". *)
Definition CreateEntryById (s : Bm) (id fresh : Z) : sprog (Bm * Z) :=
  if negb (mgr_inited s) then Ret (s, SM_NOT_STARTED) else
  match entryIdMap_ s !! id with
  | Some _ => Ret (s, SM_DUPLICATED_OBJECT)
  | None =>
      let opt := mkBmOptions id (c_rankId (config_ s)) (Z.b2z (dynamicWorldSize (config_ s))) (c_controlOperationTimeout (config_ s)) in
      store ← sflag (SPrefixStore (bytes_of_str "("%string ++ to_string id ++ bytes_of_str ")_"%string));
      if negb store then Ret (s, SM_ERROR) else
      Ret (set_maps s (<[fresh := bm_new opt]> (bm_entries s)) (<[fresh := fresh]> (ptr2EntryMap_ s)) (<[id := fresh]> (entryIdMap_ s)), SM_OK)
  end.
Definition GetEntryByPtr (s : Bm) (ptr : Z) : option SmemBmEntry :=
  if negb (mgr_inited s) then None else q ← ptr2EntryMap_ s !! ptr; bm_entries s !! q.
Definition GetEntryById (s : Bm) (id : Z) : option SmemBmEntry :=
  if negb (mgr_inited s) then None else q ← entryIdMap_ s !! id; bm_entries s !! q.
(** The entry goes when both maps have let go of it. *)
Definition RemoveEntryByPtr (s : Bm) (ptr : Z) : sprog (Bm * Z) :=
  if negb (mgr_inited s) then Ret (s, SM_NOT_STARTED) else
  match ptr2EntryMap_ s !! ptr with
  | None => Ret (s, SM_OBJECT_NOT_EXISTS)
  | Some q =>
      match bm_entries s !! q with
      | None => sundefined (s, SM_ERROR)
      | Some b =>
          let s := set_maps s (bm_entries s) (delete ptr (ptr2EntryMap_ s)) (delete (Id b) (entryIdMap_ s)) in
          '(f, _) ← UnInitalize (bm_factory s) b;
          Ret (set_maps (set_factory s f) (delete q (bm_entries s)) (ptr2EntryMap_ s) (entryIdMap_ s), SM_OK)
      end
  end.

Definition smem_bm_init (s : Bm) (storeURL : bool) (worldSize deviceId : Z) (config : option smem_bm_config_t) : sprog (Bm * Z) :=
  if (worldSize =? 0) || (SMEM_WORLD_SIZE_MAX <? worldSize) || negb storeURL then Ret (s, SM_INVALID_PARAM) else
  if negb (SmemBmConfigCheck config =? 0) then Ret (s, SM_INVALID_PARAM) else
  if g_smemBmInited s then Ret (s, SM_OK) else
  let c := default zero_config config in
  '(s, ret) ← mgr_Initialize s worldSize deviceId c;
  if negb (ret =? 0) then Ret (s, SM_ERROR) else
  ret ← sret (SHybmInit deviceId (c_flags c));
  if negb (ret =? 0) then s ← mgr_Destroy s; Ret (s, SM_ERROR) else
  Ret (set_global s true, SM_OK).
Definition smem_bm_uninit (s : Bm) : sprog Bm :=
  if negb (g_smemBmInited s) then Ret s else
  _ ← scall SHybmUninit;
  s ← mgr_Destroy s;
  Ret (set_global s false).
Definition smem_bm_get_rank_id (s : Bm) : Z := c_rankId (config_ s).

Record smem_bm_create_option_t := mkCreate {
  o_maxDramSize : Z; o_maxHbmSize : Z; o_localDRAMSize : Z; o_localHBMSize : Z; o_dataOpType : Z; o_flags : Z; o_tag : bytes;
  o_tagOpInfo : bytes; o_dramShmFd : Z }.
Definition SmemBmDataOpCheck (dataOpType : Z) : bool :=
  allows dataOpType (Z.lor SMEMB_DATA_OP_SDMA (Z.lor SMEMB_DATA_OP_HOST_RDMA (Z.lor SMEMB_DATA_OP_HOST_URMA
    (Z.lor SMEMB_DATA_OP_HOST_TCP SMEMB_DATA_OP_DEVICE_RDMA)))).
Definition SmemBmCreateOptionCheck (option : option smem_bm_create_option_t) : bool :=
  match option with
  | None => false
  | Some o =>
      negb ((o_maxDramSize o =? 0) && (o_maxHbmSize o =? 0)) && (o_localDRAMSize o <=? SMEM_LOCAL_DRAM_SIZE_MAX) &&
      (o_localHBMSize o <=? SMEM_LOCAL_HBM_SIZE_MAX) && (o_localDRAMSize o <=? o_maxDramSize o) && (o_localHBMSize o <=? o_maxHbmSize o) &&
      (negb (allows (o_flags o) SMEM_BM_FLAG_CREATE_WITH_SHM) || ((0 <=? o_dramShmFd o) && (0 <? o_localDRAMSize o)))
  end.
(** The flags and the descriptor of the shared memory. *)
Definition SmemBmFillDramFdInOptions (o : smem_bm_create_option_t) (flags : Z) : Z * Z :=
  if (0 <=? o_dramShmFd o) && allows (o_flags o) SMEM_BM_FLAG_CREATE_WITH_SHM
  then (Z.lor flags HYBM_FLAG_CREATE_WITH_SHM, o_dramShmFd o) else (Z.ldiff flags HYBM_FLAG_CREATE_WITH_SHM, -1).
Definition HYBM_TYPE_HOST_INITIATE : Z := 1.
Definition HYBM_SCENE_DEFAULT : Z := 2 ^ 0.
Definition bm_options (s : Bm) (o : smem_bm_create_option_t) : hybm_options :=
  let x := SmemBmFillDramFdInOptions o (o_flags o) in
  mkHybm HYBM_TYPE_HOST_INITIATE (TransHybmMemType (o_maxDramSize o) (o_maxHbmSize o)) (TransHybmDataOpType (o_dataOpType o))
    (u16 (worldSize_ s)) (c_rankId (config_ s)) (o_maxHbmSize o) (o_maxDramSize o) (o_localHBMSize o) (o_localDRAMSize o)
    HYBM_SCENE_DEFAULT false HYBM_ROLE_PEER x.1 (hcomUrl (config_ s)) (o_tag o) (o_tagOpInfo o) x.2.
Definition put_entry (s : Bm) (ptr : Z) (b : SmemBmEntry) : Bm := set_maps s (<[ptr := b]> (bm_entries s)) (ptr2EntryMap_ s) (entryIdMap_ s).
(** [ascend_npu]: built for the device.  [fresh], [fresh_entity]: the addresses of new objects. *)
Definition smem_bm_create2 (ascend_npu : bool) (s : Bm) (id : Z) (option : option smem_bm_create_option_t) (fresh fresh_entity : Z) : sprog (Bm * Z) :=
  if negb (g_smemBmInited s) then Ret (s, nullptr) else
  if negb (SmemBmCreateOptionCheck option) then Ret (s, nullptr) else
  match option with
  | None => Ret (s, nullptr)
  | Some o =>
      if negb (SmemBmDataOpCheck (o_dataOpType o)) then Ret (s, nullptr) else
      '(s, ret) ← CreateEntryById s id fresh;
      if negb (ret =? 0) then Ret (s, nullptr) else
      let options := bm_options s o in
      if negb ascend_npu && (allows (ho_bmDataOpType options) HYBM_DOP_TYPE_SDMA || allows (ho_bmDataOpType options) HYBM_DOP_TYPE_DEVICE_RDMA)
      then Ret (s, nullptr) else
      if 64 <? len (hcomUrl (config_ s)) then Ret (s, nullptr) else
      match bm_entries s !! fresh with
      | None => sundefined (s, nullptr)
      | Some b =>
          '(f, b, ret) ← bm_Initialize (bm_factory s) b options fresh_entity;
          let s := put_entry (set_factory s f) fresh b in
          Ret (s, if negb (ret =? 0) then nullptr else fresh)
      end
  end.
Definition smem_bm_create (ascend_npu : bool) (s : Bm) (id dataOpType localDRAMSize localHBMSize flags fresh fresh_entity : Z) : sprog (Bm * Z) :=
  smem_bm_create2 ascend_npu s id (Some (mkCreate localDRAMSize localHBMSize localDRAMSize localHBMSize dataOpType
    (Z.ldiff flags SMEM_BM_FLAG_CREATE_WITH_SHM) [] [] (-1))) fresh fresh_entity.

(** The entry of a handle. *)
Definition with_entry {A} (s : Bm) (handle : Z) (bad : A) (k : SmemBmEntry → sprog (MemEntityFactory * SmemBmEntry * A)) : sprog (Bm * A) :=
  match GetEntryByPtr s handle with
  | None => Ret (s, bad)
  | Some b => '(f, b, a) ← k b; Ret (put_entry (set_factory s f) handle b, a)
  end.
Definition keeping {A} (b : SmemBmEntry) (p : sprog (MemEntityFactory * A)) : sprog (MemEntityFactory * SmemBmEntry * A) := '(f, a) ← p; Ret (f, b, a).
Definition checked {A} (s : Bm) (handle : Z) (a1 a2 a3 : A) (k : SmemBmEntry → sprog (MemEntityFactory * SmemBmEntry * A)) : sprog (Bm * A) :=
  if handle =? nullptr then Ret (s, a1) else
  if negb (g_smemBmInited s) then Ret (s, a2) else with_entry s handle a3 k.
Definition smem_bm_destroy (s : Bm) (handle : Z) : sprog Bm :=
  if (handle =? nullptr) || negb (g_smemBmInited s) then Ret s else
  match GetEntryByPtr s handle with
  | None => Ret s
  | Some b =>
      '(f, b) ← UnInitalize (bm_factory s) b;
      '(s, _) ← RemoveEntryByPtr (put_entry (set_factory s f) handle b) handle;
      Ret s
  end.
Definition smem_bm_join (s : Bm) (handle : Z) : sprog (Bm * Z) :=
  checked s handle SM_INVALID_PARAM SM_NOT_INITIALIZED SM_INVALID_PARAM (λ b, keeping b (r ← Join b; Ret (bm_factory s, r))).
Definition smem_bm_leave (s : Bm) (handle : Z) : sprog (Bm * Z) :=
  checked s handle SM_INVALID_PARAM SM_NOT_INITIALIZED SM_INVALID_PARAM (λ b, keeping b (r ← Leave b; Ret (bm_factory s, r))).
Definition smem_bm_get_local_mem_size_by_mem_type (s : Bm) (handle : Z) (memType : smem_bm_mem_type) : Z :=
  if handle =? nullptr then 0 else
  match GetEntryByPtr s handle with
  | None => 0
  | Some b => match memType with
              | SMEM_MEM_TYPE_DEVICE => ho_deviceVASpace (coreOptions_ b)
              | SMEM_MEM_TYPE_HOST => ho_hostVASpace (coreOptions_ b)
              | _ => 0
              end
  end.
Definition smem_bm_ptr_by_mem_type (s : Bm) (handle : Z) (memType : smem_bm_mem_type) (peerRankId : Z) : Z :=
  if (handle =? nullptr) || negb (g_smemBmInited s) then nullptr else
  match GetEntryByPtr s handle with
  | None => nullptr
  | Some b =>
      if negb (peerRankId <? ho_rankCount (coreOptions_ b)) then nullptr else
      match memType with
      | SMEM_MEM_TYPE_DEVICE => deviceGva_ b +64 u64 (ho_maxHBMSize (coreOptions_ b) * peerRankId)
      | SMEM_MEM_TYPE_HOST => hostGva_ b +64 u64 (ho_maxDRAMSize (coreOptions_ b) * peerRankId)
      | _ => nullptr
      end
  end.
Definition smem_bm_copy (va : HybmVaManager) (s : Bm) (handle : Z) (params : option hybm_copy_params) (t : smem_bm_copy_type) (flags : Z)
    : sprog (Bm * Z) :=
  match params with
  | None => Ret (s, SM_INVALID_PARAM)
  | Some j => checked s handle SM_INVALID_PARAM SM_NOT_INITIALIZED SM_INVALID_PARAM (λ b, keeping b (bm_DataCopy va (bm_factory s) b j t flags))
  end.
(** [None]: no parameters. *)
Definition smem_bm_copy_batch (group_order : gmap (Z * Z) (list nat) → list (Z * Z * list nat)) (va : HybmVaManager) (s : Bm) (handle : Z)
    (params : option (option (list hybm_copy_params))) (t : smem_bm_copy_type) (flags : Z) : sprog (Bm * Z) :=
  match params with
  | None => Ret (s, SM_INVALID_PARAM)
  | Some p => checked s handle SM_INVALID_PARAM SM_NOT_INITIALIZED SM_INVALID_PARAM
                (λ b, keeping b (DataCopyBatch group_order va (bm_factory s) b p t flags))
  end.
Definition smem_bm_wait (s : Bm) (handle : Z) : sprog (Bm * Z) :=
  checked s handle SM_INVALID_PARAM SM_NOT_INITIALIZED SM_INVALID_PARAM (λ b, keeping b (bm_Wait (bm_factory s) b)).
Definition smem_bm_get_rank_id_by_gva (s : Bm) (handle gva : Z) : sprog (Bm * Z) :=
  checked s handle (u32 SM_INVALID_PARAM) (u32 SM_NOT_INITIALIZED) (u32 SM_INVALID_PARAM) (λ b, keeping b
    (match GetRankIdByGva b gva with Some r => Ret (bm_factory s, r) | None => sundefined (bm_factory s, 0) end)).
Definition smem_bm_register_user_mem (s : Bm) (handle addr size : Z) : sprog (Bm * Z) :=
  if addr =? 0 then Ret (s, SM_INVALID_PARAM) else
  checked s handle SM_INVALID_PARAM SM_NOT_INITIALIZED SM_INVALID_PARAM (λ b, RegisterMem (bm_factory s) b addr size).
Definition smem_bm_unregister_user_mem (s : Bm) (handle addr : Z) : sprog (Bm * Z) :=
  if addr =? 0 then Ret (s, SM_INVALID_PARAM) else
  checked s handle SM_INVALID_PARAM SM_NOT_INITIALIZED SM_INVALID_PARAM (λ b, UnRegisterMem (bm_factory s) b addr).
(** The handlers of the group of an entry. *)
Definition on_join rank_order (s : Bm) (ptr : Z) : sprog (Bm * Z) :=
  match bm_entries s !! ptr with
  | None => sundefined (s, SM_ERROR)
  | Some b => '(f, r) ← JoinHandle rank_order (bm_factory s) b; Ret (set_factory s f, r)
  end.
Definition on_leave (s : Bm) (ptr rk : Z) : sprog (Bm * Z) :=
  match bm_entries s !! ptr with
  | None => sundefined (s, SM_ERROR)
  | Some b => '(f, r) ← LeaveHandle (bm_factory s) b rk; Ret (set_factory s f, r)
  end.
