(* ===== verification/SmemBmSpec.v ===== *)
(** * Big memory: calls in any order are safe, and what addresses mean *)
From Stdlib Require Import Strings.Byte Strings.String.
From stdpp Require Import base numbers list gmap sorting relations.
From S2P Require Import Prelude RangePool VaManager MemSlice SmemTypes StrUtil Fabric HostDataOp HcomHelper TagInfo HcomTransport ComposeDataOp Entity EntityApi EntitySpec EntityImportSpec EntityApiSpec StoreBackend SmemBm.
Local Open Scope Z_scope.
Local Open Scope mf_scope.

(** ** The environment *)

(** What a group gathers: whole descriptors, of the kind that the own one is of. *)
Definition gathered (own : hybm_exchange_info) (l : list hybm_exchange_info) : Prop :=
  Forall readable l ∧ (is_card own → Forall is_card l) ∧ ∀ d ds, l = d :: ds → ∀ sh, names_there sh own → names_there sh d.
Definition sok (_ : gmap Z Z) (c : SCall) : Prop := c ≠ SUndefined ∧ c ≠ SE EUndefined.
(** The state holds the number of ranks a group has been made for: it has no more. *)
Definition sstep (w : gmap Z Z) (c : SCall) (w' : gmap Z Z) (a : EAns) : Prop :=
  match c with
  | SE c => w' = w ∧ astep tt c tt a
  | SGroupCreate id n _ _ _ => w' = <[id := u32 n]> w
  | SGroupRankSize id => w' = w ∧ 0 ≤ e_ret a ≤ default 0 (w !! id)
  | SGroupAllGather id buf n => w' = w ∧ (e_ret a = 0 → ∀ own, ex_ok own → buf = info_bytes own → gathered own (infos_of (e_bytes a) (n / sizeof_info)))
  | SPrefixStore _ => w' = w ∧ e_ret a ≠ 0
  | _ => w' = w
  end.
Abbreviation swp p w Q := (wp sok sstep p w Q).
Lemma lift_swp {A} (p : eprog A) w (Q : A → gmap Z Z → Prop) : awp p (λ a _, Q a w) → swp (lift p) w Q.
Proof.
  induction p as [a|c k IH]; [done|]. intros [Hok Hp]. split; [split; [done|by intros [= ->]]|]. intros w' o [-> Ho]. by apply IH, Hp.
Qed.

(** ** Entries and their entities *)
Definition hosts (f : MemEntityFactory) : Prop :=
  ∀ i p e, engines_ f !! i = Some p → i mod 2 = 1 → heap f !! p = Some e → host_initiated e.
Definition finv (f : MemEntityFactory) : Prop := factory_inv f ∧ hosts f.
(** Every entity but the one of an id is as before. *)
Definition extends (id : Z) (f f' : MemEntityFactory) : Prop :=
  ∀ i p, i ≠ id → engines_ f !! i = Some p → engines_ f' !! i = Some p ∧ shape_of <$> heap f' !! p = shape_of <$> heap f !! p.
#[global] Instance extends_preorder id : PreOrder (extends id).
Proof.
  split; [by intros f i p|]. intros f g h H1 H2 i p Hi Hp. destruct (H1 i p Hi Hp) as [H3 H4]. destruct (H2 i p Hi H3) as [H5 H6]. split; [done|congruence].
Qed.
Lemma shape_at f f' p : same_shapes f f' → shape_of <$> heap f' !! p = shape_of <$> heap f !! p.
Proof. intros [_ _ Hs]. by rewrite <- !lookup_fmap, Hs. Qed.
Lemma alive_shapes f f' p e : same_shapes f f' → heap f !! p = Some e → ∃ e', heap f' !! p = Some e' ∧ shape_of e' = shape_of e.
Proof. intros Hs He. pose proof (shape_at f f' p Hs) as Hx. rewrite He in Hx. destruct (heap f' !! p) as [e'|]; [|done]. exists e'. cbn in Hx. split; [done|congruence]. Qed.
Lemma shapes_extend id f f' : same_shapes f f' → extends id f f'.
Proof. intros Hs i p _ Hp. split; [by rewrite (ss_ids _ _ Hs)|by apply shape_at]. Qed.
Lemma shapes_hosts f f' : same_shapes f f' → hosts f → hosts f'.
Proof.
  intros Hs Hh i p e Hi Ho He. rewrite (ss_ids _ _ Hs) in Hi. pose proof (shape_at f f' p Hs) as Hp. rewrite He in Hp. cbn in Hp.
  destruct (heap f !! p) as [e0|] eqn:E0; [|done]. cbn in Hp. injection Hp as Heo _. unfold host_initiated. rewrite Heo. by eapply Hh.
Qed.
Lemma without_finv f id p : finv f → enginesFromAddress_ f !! p = Some id → factory_inv (without f id p) → finv (without f id p) ∧ extends id f (without f id p).
Proof.
  intros [Hf Hh] Hp Hf'. split; [split; [done|]|].
  - intros i q e Hi Ho He. cbn in Hi, He. apply lookup_delete_Some in Hi as [_ Hi]. apply lookup_delete_Some in He as [_ He]. by eapply Hh.
  - intros i q Hi Hq. cbn. rewrite lookup_delete_ne by done. split; [done|]. rewrite lookup_delete_ne; [done|]. intros ->. apply (fi_ids _ Hf) in Hq. congruence.
Qed.
Lemma with_new_finv f id p e : finv f → engines_ f !! id = None → heap f !! p = None → factory_inv (with_new f id p e) → host_initiated e →
  finv (with_new f id p e) ∧ extends id f (with_new f id p e).
Proof.
  intros [Hf Hh] Hid Hp Hf' He. split; [split; [done|]|].
  - intros i q e' Hi Ho He'. cbn in Hi, He'. destruct (decide (i = id)) as [->|]; [rewrite lookup_insert_eq in Hi; injection Hi as <-; rewrite lookup_insert_eq in He'; congruence|].
    rewrite lookup_insert_ne in Hi by done. rewrite lookup_insert_ne in He'; [by eapply Hh|]. intros ->. apply (fi_ids _ Hf) in Hi.
    assert (is_Some (heap f !! q)) as [x Hx] by (apply (fi_alive _ Hf); by eexists). congruence.
  - intros i q Hi Hq. cbn. rewrite lookup_insert_ne by done. split; [done|]. rewrite lookup_insert_ne; [done|]. intros ->. apply (fi_ids _ Hf) in Hq.
    assert (is_Some (heap f !! q)) as [x Hx] by (apply (fi_alive _ Hf); by eexists). congruence.
Qed.
(** A call of the interface that makes and destroys no entity. *)
Lemma hyb {A} f (p : eprog (MemEntityFactory * A)) w (Q : MemEntityFactory * A → gmap Z Z → Prop) : finv f → awp p (kept_in f) →
  (∀ f' a, finv f' → same_shapes f f' → Q (f', a) w) → swp (lift p) w Q.
Proof.
  intros [Hf Hh] Hp HQ. apply lift_swp. eapply wp_mono; [exact Hp|]. intros [f' a] [] [H1 H2]. apply HQ; [|done]. split; [done|by eapply shapes_hosts].
Qed.

(** An entry that is ready: its entity is there, of the shape its descriptors name. *)
Definition eid (b : SmemBmEntry) : Z := Id b * 2 + 1.
Record entry_ready (f : MemEntityFactory) (w : gmap Z Z) (b : SmemBmEntry) : Prop := {
  er_group : globalGroup_ b = true;
  er_engine : engines_ f !! eid b = Some (be_entity b);
  er_names : ∀ sh, shape_of <$> heap f !! be_entity b = Some sh →
    (descLen (hbmSliceInfo_ b) ≠ 0 → names_there sh (hbmSliceInfo_ b)) ∧ (descLen (dramSliceInfo_ b) ≠ 0 → names_there sh (dramSliceInfo_ b));
  er_infos : ex_ok (hbmSliceInfo_ b) ∧ ex_ok (dramSliceInfo_ b) ∧ ex_ok (entityInfo_ b) ∧ is_card (entityInfo_ b);
  er_size : w !! Id b = Some (ho_rankCount (coreOptions_ b)) ∧ 0 ≤ ho_rankCount (coreOptions_ b) < 2 ^ 16;
}.
Lemma ready_alive f w b : finv f → entry_ready f w b → is_Some (heap f !! be_entity b).
Proof. intros [Hf _] Hr. apply (fi_alive _ Hf). exists (eid b). by apply (fi_ids _ Hf), er_engine with w. Qed.
Lemma ready_host f w b : finv f → entry_ready f w b → for_entity f (be_entity b) host_initiated.
Proof. intros [_ Hh] Hr e He. eapply Hh; [by eapply er_engine|unfold eid; by rewrite Z.add_comm, Z.mod_add|done]. Qed.
Lemma ready_shapes f f' w b : same_shapes f f' → entry_ready f w b → entry_ready f' w b.
Proof.
  intros Hs [H1 H2 H3 H4 H5]. split; [done|by rewrite (ss_ids _ _ Hs)| |done|done]. intros sh Hsh. apply H3. by rewrite <- (shape_at f f').
Qed.
Lemma ready_extends id f f' w b : extends id f f' → eid b ≠ id → entry_ready f w b → entry_ready f' w b.
Proof.
  intros He Hne [H1 H2 H3 H4 H5]. destruct (He _ _ Hne H2) as [H6 H7]. split; [done|done| |done|done]. intros sh Hsh. apply H3. by rewrite <- H7.
Qed.
Definition entry_ok (f : MemEntityFactory) (w : gmap Z Z) (b : SmemBmEntry) : Prop := be_inited b = true → entry_ready f w b.
(** What a method of an entry leaves: its entity, its group, and nothing else may have changed. *)
Record method_post (f : MemEntityFactory) (w : gmap Z Z) (b : SmemBmEntry) (f' : MemEntityFactory) (w' : gmap Z Z) (b' : SmemBmEntry) : Prop := {
  mp_inv : finv f';
  mp_rest : extends (eid b) f f';
  mp_options : be_options b' = be_options b;
  mp_groups : ∀ i, i ≠ Id b → w' !! i = w !! i;
  mp_ok : entry_ok f' w' b';
}.
Lemma post_shapes f w b f' b' : finv f' → same_shapes f f' → be_options b' = be_options b → (entry_ready f w b → entry_ok f w b') → entry_ready f w b →
  method_post f w b f' w b'.
Proof.
  intros Hf Hs Ho Hb Hr. split; [done|by apply shapes_extend|done|done|]. intros Hi. eapply ready_shapes; [done|]. by apply Hb.
Qed.
Lemma post_same f w b : finv f → entry_ok f w b → method_post f w b f w b.
Proof. intros Hf Hb. by split. Qed.
(** Nothing of an entry that [entry_ready] is about has changed. *)
Lemma ready_keep f w b b' : be_options b' = be_options b → be_entity b' = be_entity b → globalGroup_ b' = globalGroup_ b → coreOptions_ b' = coreOptions_ b →
  hbmSliceInfo_ b' = hbmSliceInfo_ b → dramSliceInfo_ b' = dramSliceInfo_ b → entityInfo_ b' = entityInfo_ b → entry_ready f w b → entry_ready f w b'.
Proof.
  intros E1 E2 E3 E4 E5 E6 E7 [H1 H2 H3 H4 H5]. split; unfold eid, Id in *; rewrite ?E1, ?E2, ?E3, ?E4, ?E5, ?E6, ?E7; done.
Qed.

(** ** Closing *)
Lemma free_all_wp f p l w : finv f → swp (free_all f p l) w (λ f' w', w' = w ∧ finv f' ∧ same_shapes f f').
Proof.
  revert f. induction l as [|[a [n slice]] l IH]; intros f Hf; [done|]. cbn [free_all]. apply wp_seq, (hyb f); [done|apply free_api_safe; by destruct Hf|].
  intros f1 r Hf1 Hs1. eapply wp_mono; [by apply IH|]. intros f2 w2 (-> & Hf2 & Hs2). split_and!; [done|done|by etransitivity].
Qed.
Lemma destroy_wp f p id w : finv f → engines_ f !! id = Some p →
  swp (lift (hybm_destroy_entity f p)) w (λ f' w', w' = w ∧ finv f' ∧ extends id f f').
Proof.
  intros Hf Hid. apply lift_swp. destruct Hf as [Hf Hh]. eapply wp_mono; [by apply destroy_safe|]. intros f' [] [Hf' [[-> Hp]|(id' & Hp & ->)]].
  - by split_and!.
  - apply (fi_ids _ Hf) in Hid. rewrite Hid in Hp. injection Hp as <-. destruct (without_finv f id p) as [H1 H2]; [by split|done|done|]. by split_and!.
Qed.
Lemma uninit_wp f b w : finv f → entry_ok f w b →
  swp (UnInitalize f b) w (λ x w', w' = w ∧ method_post f w b x.1 w x.2 ∧ be_inited x.2 = false).
Proof.
  intros Hf Hb. unfold UnInitalize. destruct (be_inited b) eqn:Ei; cbn [negb]; [|split_and!; [done|by apply post_same|done]]. specialize (Hb Ei).
  destruct (Z.eqb_spec (be_entity b) nullptr) as [E|_].
  { destruct (ready_alive _ _ _ Hf Hb) as [e He]. rewrite E, (fi_null _ (proj1 Hf)) in He. done. }
  apply wp_seq. apply (wp_mono _ _ _ _ (λ x w', w' = w ∧ finv x.1 ∧ same_shapes f x.1)).
  { destruct (negb _); [|done]. apply (hyb f); [done|apply free_api_safe; by destruct Hf|done]. }
  intros [f1 r] w1 (-> & Hf1 & Hs1). apply wp_seq. eapply wp_mono; [by apply free_all_wp|]. intros f2 w2 (-> & Hf2 & Hs2).
  apply wp_seq, (hyb f2); [done|apply unreserve_api_safe; by destruct Hf2|]. intros f3 r3 Hf3 Hs3.
  assert (same_shapes f f3) as Hs by (etransitivity; [|done]; by etransitivity). pose proof (ready_shapes _ _ _ _ Hs Hb) as Hb3.
  apply wp_seq. eapply wp_mono; [by apply (destroy_wp f3 _ (eid b)), (er_engine _ _ _ Hb3)|]. intros f4 w4 (-> & Hf4 & He4).
  split_and!; [done| |done]. split; [done|etransitivity; [by apply shapes_extend|done]|done|done|done].
Qed.

(** ** Starting *)
Lemma alloc_export_wp f p e mType maxSize size old w : finv f → heap f !! p = Some e →
  swp (alloc_export f p mType maxSize size zero_info old) w (λ x w', w' = w ∧ let '(f', info, _, ret) := x in finv f' ∧ same_shapes f f' ∧
    (ret = 0 → ex_ok info ∧ (descLen info ≠ 0 → names_there (shape_of e) info))).
Proof.
  intros Hf Hp. unfold alloc_export. destruct (negb _); [by split_and!|]. apply wp_seq, (hyb f); [done|apply alloc_api_safe; by destruct Hf|].
  intros f1 slice Hf1 Hs1. destruct (Z.eqb_spec slice nullptr) as [->|Hne]; [by split_and!|]. destruct (alive_shapes _ _ _ _ Hs1 Hp) as (e1 & Hp1 & Hse).
  apply wp_seq. unfold fmap. cbn [program_fmap]. apply wp_seq, lift_swp.
  eapply wp_mono; [apply (export_api_named f1 p e1); [by destruct Hf1|done|reflexivity|done]|]. intros [f2 [d r]] [] [[Hf2 Hs2] Hn]. cbn [wp fst snd] in *.
  split; [done|]. split_and!; [split; [done|by eapply shapes_hosts; [|apply Hf1]]|by etransitivity|]. intros Hr.
  destruct (Hn Hr) as (d' & -> & H1 & H2). rewrite Hse in H2. by split.
Qed.
Lemma create_wp f id o fresh w : finv f → trans_has_dram o → heap f !! fresh = None → fresh ≠ nullptr → ho_bmType o ≠ HYBM_TYPE_AI_CORE_INITIATE →
  swp (lift (hybm_create_entity f id (Some o) fresh)) w (λ x w', w' = w ∧ finv x.1 ∧ extends id f x.1 ∧ (x.2 ≠ nullptr → engines_ x.1 !! id = Some x.2)).
Proof.
  intros Hf Ho Hfr Hn Hb. apply lift_swp. destruct Hf as [Hf Hh]. eapply wp_mono; [apply create_safe; [done|by intros ? [= <-]|done|done]|].
  intros [f' p] [] [Hf' [[E Hp]|(Hp & Hid & e & E & He)]]; cbn [fst snd] in *; subst f'.
  - split_and!; [done|by split|done|]. by destruct Hp.
  - subst p. destruct (with_new_finv f id fresh e) as [H1 H2]; [by split|done|done|done|unfold host_initiated; by rewrite (He o)|].
    split_and!; [done|done|done|]. intros _. cbn. by rewrite lookup_insert_eq.
Qed.
Lemma failed_wp f w b f1 w1 b1 ret : finv f1 → extends (eid b) f f1 → be_options b1 = be_options b → be_inited b1 = false → (∀ i, i ≠ Id b → w1 !! i = w !! i) →
  swp ('(f, b) ← UnInitalize f1 b1; Ret (f, set_group b false, ret)) w1 (λ (x : MemEntityFactory * SmemBmEntry * Z) w', method_post f w b x.1.1 w' x.1.2).
Proof.
  intros Hf He Ho Hi Hw. unfold UnInitalize. rewrite Hi. cbn [negb program_bind mbind wp fst snd]. split; [done|done|done|done|].
  intros Hc. cbn in Hc. congruence.
Qed.
Lemma init_wp f b o fresh w : finv f → entry_ok f w b → 0 ≤ Id b < 2 ^ 15 → ho_bmType o ≠ HYBM_TYPE_AI_CORE_INITIATE → trans_has_dram o →
  0 ≤ ho_rankCount o < 2 ^ 16 → heap f !! fresh = None → fresh ≠ nullptr →
  swp (bm_Initialize f b o fresh) w (λ x w', method_post f w b x.1.1 w' x.1.2).
Proof.
  intros Hf Hb Hid Hbt Ho Hc Hfr Hn. unfold bm_Initialize. destruct (be_inited b) eqn:Ei; [by apply post_same|].
  split; [done|]. intros w1 a ->. cbn [program_bind]. set (w1 := <[Id b := u32 (ho_rankCount o)]> w).
  assert (∀ i, i ≠ Id b → w1 !! i = w !! i) as Hw by (intros i Hi; unfold w1; by rewrite lookup_insert_ne).
  destruct (negb (negb _)).
  { split; [done|done|done|done|]. intros Hi. cbn in Hi. congruence. }
  cbv zeta. set (b1 := set_group b true). assert (u16 (Id b1 * 2 + 1) = eid b) as Hu by (change (Id b1) with (Id b); unfold eid; apply u16_small; lia). rewrite Hu.
  apply wp_seq. eapply wp_mono; [by apply create_wp|]. intros [f1 p] w2 (-> & Hf1 & He1 & Hp). cbn [fst snd] in *.
  destruct (Z.eqb_spec p nullptr) as [->|Hpn]; [by apply failed_wp|]. specialize (Hp Hpn).
  apply wp_seq, (hyb f1); [done|apply reserve_api_safe; by destruct Hf1|]. intros f2 r2 Hf2 Hs2. assert (extends (eid b) f f2) as He2 by (etransitivity; [done|by apply shapes_extend]).
  assert (engines_ f2 !! eid b = Some p) as Hp2 by (by rewrite (ss_ids _ _ Hs2)).
  destruct (negb (r2 =? 0)).
  { apply wp_seq. eapply wp_mono; [by apply (destroy_wp f2 p (eid b))|]. intros f3 w3 (-> & Hf3 & He3). apply failed_wp; [done|by etransitivity|done|done|done]. }
  assert (is_Some (heap f2 !! p)) as [e He] by (apply (fi_alive _ (proj1 Hf2)); exists (eid b); by apply (fi_ids _ (proj1 Hf2))).
  apply wp_seq. eapply wp_mono; [by apply (alloc_export_wp f2 p e)|]. intros [[[f3 i3] s3] r3] w3 (-> & Hf3 & Hs3 & Hn3).
  assert (extends (eid b) f f3) as He3 by (etransitivity; [done|by apply shapes_extend]).
  destruct (Z.eqb_spec r3 0) as [->|]; cbn [negb]; [|by apply failed_wp]. destruct (Hn3 eq_refl) as [Hx3 Hn3'].
  destruct (alive_shapes _ _ _ _ Hs3 He) as (e3 & Hh3 & Hse).
  apply wp_seq. eapply wp_mono; [by apply (alloc_export_wp f3 p e3)|]. intros [[[f4 i4] s4] r4] w4 (-> & Hf4 & Hs4 & Hn4).
  assert (extends (eid b) f f4) as He4 by (etransitivity; [done|by apply shapes_extend]).
  destruct (Z.eqb_spec r4 0) as [->|]; cbn [negb]; [|by apply failed_wp]. destruct (Hn4 eq_refl) as [Hx4 Hn4'].
  destruct (alive_shapes _ _ _ _ Hs4 Hh3) as (e4 & Hh4 & _). apply wp_seq, lift_swp.
  eapply wp_mono; [apply (export_api_card f4 p e4); [by destruct Hf4|done|done]|]. intros [f5 x5] [] [[Hi5 Hs5] Hc5].
  assert (finv f5) as Hf5 by (split; [done|by eapply shapes_hosts; [|apply Hf4]]). cbn [fst snd] in Hs5, Hc5.
  assert (extends (eid b) f f5) as He5 by (etransitivity; [done|by apply shapes_extend]). destruct (Z.eqb_spec x5.2 0) as [E5|]; cbn [negb]; [|by apply failed_wp].
  assert (same_shapes f3 f5) as Hs35 by (by etransitivity). destruct (alive_shapes _ _ _ _ Hs35 Hh3) as (e5 & Ha5 & _).
  apply wp_seq, (hyb f5); [done|apply get_ptr_safe; [by destruct Hf5|by right; exists e5]|]. intros f6 h6 Hf6 Hs6.
  destruct (alive_shapes _ _ _ _ Hs6 Ha5) as (e6 & Ha6 & _).
  apply wp_seq, (hyb f6); [done|apply get_ptr_safe; [by destruct Hf6|by right; exists e6]|]. intros f7 h7 Hf7 Hs7.
  assert (same_shapes f3 f7) as Hs37 by (etransitivity; [done|by etransitivity]).
  split; [done|etransitivity; [exact He3|by apply shapes_extend]|done|done|]. intros _. split; cbn.
  - done.
  - change (eid _) with (eid b). by rewrite (ss_ids _ _ Hs37), (ss_ids _ _ Hs3).
  - intros sh Hsh. pose proof (shape_at f3 f7 p Hs37) as Hx. rewrite Hx, Hh3 in Hsh. injection Hsh as <-. split; [by rewrite Hse|done].
  - destruct (Hc5 E5) as (d5 & -> & H5 & H6). by split_and!.
  - change (Id _) with (Id b). unfold w1. rewrite lookup_insert_eq, u32_small by lia. done.
Qed.

(** ** Joining, leaving, copying *)
Definition same_post (f : MemEntityFactory) (w : gmap Z Z) {A} (x : MemEntityFactory * A) (w' : gmap Z Z) : Prop := w' = w ∧ finv x.1 ∧ same_shapes f x.1.
Lemma same_mk {A} f w f' (a : A) : finv f' → same_shapes f f' → same_post f w (f', a) w.
Proof. by split; [|split]. Qed.
Lemma same_stay {A} f w (a : A) : finv f → same_post f w (f, a) w.
Proof. intros Hf. by apply same_mk. Qed.
Lemma same_trans {A B} f w f1 (p : sprog (MemEntityFactory * A)) (k : MemEntityFactory * A → sprog (MemEntityFactory * B)) : same_shapes f f1 →
  swp p w (same_post f1 w) → (∀ f2 a, finv f2 → same_shapes f f2 → swp (k (f2, a)) w (same_post f w)) → swp (p ≫= k) w (same_post f w).
Proof.
  intros Hs Hp Hk. apply wp_seq. eapply wp_mono; [exact Hp|]. intros [f2 a] w2 (-> & Hf2 & Hs2). apply Hk; [done|by etransitivity].
Qed.
Lemma hyb_same {A} f (p : eprog (MemEntityFactory * A)) w : finv f → awp p (kept_in f) → swp (lift p) w (same_post f w).
Proof. intros Hf Hp. by apply (hyb f). Qed.
Section Calls.
Context (rank_order : gmap Z EntityExportInfo → list (Z * EntityExportInfo)) (Hord : ∀ m, rank_order m ≡ₚ map_to_list m).
Context (group_order : gmap (Z * Z) (list nat) → list (Z * Z * list nat)) (va : HybmVaManager).
Lemma exchange_wp f b info flags w : finv f → entry_ready f w b →
  ex_ok info → (if allows flags HYBM_FLAG_EXPORT_ENTITY then is_card info else ∀ sh, shape_of <$> heap f !! be_entity b = Some sh → names_there sh info) →
  swp (exchange rank_order f b info flags) w (same_post f w).
Proof.
  intros Hf Hr Hi Hn. unfold exchange. split; [done|]. intros w1 a [-> Ha]. cbn [program_bind mbind]. destruct (er_size _ _ _ Hr) as [Hw Hc]. rewrite Hw in Ha. cbn in Ha.
  set (n := e_ret a) in *. split; [done|]. intros w1 g [-> Hg]. cbn [program_bind mbind].
  assert (u32 (sizeof_info * n) / sizeof_info = n) as Hdiv by (unfold sizeof_info in *; rewrite u32_small by lia; rewrite Z.mul_comm; by apply Z.div_mul). rewrite Hdiv in Hg.
  destruct (Z.eqb_spec (e_ret g) 0) as [Eg|]; cbn [negb]; [|by apply same_stay]. destruct (Hg Eg info Hi eq_refl) as (Hread & Hcard & Hkind).
  destruct (Z.ltb_spec (ho_rankCount (coreOptions_ b)) n); [lia|]. eapply (same_trans f w f); [done| |].
  - apply hyb_same; [done|]. apply import_api_safe; [done|by destruct Hf|]. intros d ds [= E]. rewrite <- E. split; [done|].
    destruct (allows flags _); [by apply Hcard|]. intros e He. apply (Hkind d ds E), Hn. by rewrite He.
  - intros f2 r Hf2 Hs2. cbn. destruct (negb (r =? 0)); [by apply same_mk|]. split; [done|]. intros w2 c ->. cbn. by apply same_mk.
Qed.
Lemma exchange_slice_wp f b info w : finv f → entry_ready f w b → ex_ok info →
  (∀ sh, shape_of <$> heap f !! be_entity b = Some sh → descLen info ≠ 0 → names_there sh info) → swp (ExchangeSliceForJoin rank_order f b info) w (same_post f w).
Proof.
  intros Hf Hr Hi Hn. unfold ExchangeSliceForJoin. destruct (Z.eqb_spec (descLen info) 0); [by apply same_stay|]. apply exchange_wp; [done|done|done|].
  intros sh Hsh. by apply Hn.
Qed.
Lemma join_wp f b w : finv f → entry_ok f w b → swp (JoinHandle rank_order f b) w (same_post f w).
Proof.
  intros Hf Hb. unfold JoinHandle. destruct (be_inited b) eqn:Ei; cbn [negb]; [|by apply same_stay]. specialize (Hb Ei).
  split; [done|]. intros w1 a [-> _]. cbn [program_bind mbind]. split; [done|]. intros w1 g [-> _]. cbn [program_bind mbind].
  destruct (negb _); [by apply same_stay|]. destruct (er_infos _ _ _ Hb) as (Hh & Hd & Hen & Hc).
  apply (same_trans f w f); [done|by apply exchange_wp|]. intros f1 r1 Hf1 Hs1. cbn.
  destruct (negb _); [by apply same_mk|]. pose proof (ready_shapes _ _ _ _ Hs1 Hb) as Hb1.
  apply (same_trans f w f1); [done|apply exchange_slice_wp; [done|done|done|]; intros sh Hsh; by apply (er_names _ _ _ Hb1)|]. intros f2 r2 Hf2 Hs2. cbn.
  destruct (negb _); [by apply same_mk|]. pose proof (ready_shapes _ _ _ _ Hs2 Hb) as Hb2.
  apply (same_trans f w f2); [done|apply exchange_slice_wp; [done|done|done|]; intros sh Hsh; by apply (er_names _ _ _ Hb2)|]. intros f3 r3 Hf3 Hs3. cbn.
  destruct (negb _); [by apply same_mk|]. apply (same_trans f w f3); [done|by apply hyb_same; [|apply mmap_api_safe; destruct Hf3]|]. intros f4 r4 Hf4 Hs4. cbn.
  destruct (negb _); [by apply same_mk|]. split; [done|]. intros w2 c ->. by apply same_mk.
Qed.
Lemma leave_wp f b rk w : finv f → swp (LeaveHandle f b rk) w (same_post f w).
Proof.
  intros Hf. unfold LeaveHandle. destruct (negb _); [by apply same_stay|]. apply (same_trans f w f); [done|by apply hyb_same; [|apply remove_api_safe; destruct Hf]|].
  intros f1 r1 Hf1 Hs1. by apply same_mk.
Qed.
(** The addresses of a copy whose direction is to be found out are of known types. *)
Definition bm_classified (t : smem_bm_copy_type) (j : hybm_copy_params) : Prop := t = SMEMB_COPY_AUTO → is_Some (InferCopyDirection va (src j) (dest j)).
Lemma direct_classified b t j : bm_classified t j → classified va (direct_of b t j) j.
Proof.
  intros Hc Ha. apply Hc. unfold direct_of, TransToHybmDirection in Ha. destruct t; try done; cbn [is_auto_type] in Ha; cbv zeta in Ha;
    destruct (GetHybmMemTypeFromGva b (src j) (dataSize j)); try done; destruct (GetHybmMemTypeFromGva b (dest j) (dataSize j)); done.
Qed.
Lemma copy_wp f b j t flags w : finv f → entry_ok f w b → bm_classified t j → swp (bm_DataCopy va f b j t flags) w (same_post f w).
Proof.
  intros Hf Hb Hc. unfold bm_DataCopy. destruct (_ || _ || _ || _); [by apply same_stay|]. destruct (be_inited b) eqn:Ei; cbn [negb]; [|by apply same_stay].
  specialize (Hb Ei). destruct (is_butt _); [by apply same_stay|]. apply hyb_same; [done|]. apply copy_api_safe; [by destruct Hf|by eapply ready_host|].
  intros x [= <-]. by apply direct_classified.
Qed.
Lemma bm_wait_wp f b w : finv f → entry_ok f w b → swp (bm_Wait f b) w (same_post f w).
Proof.
  intros Hf Hb. unfold bm_Wait. destruct (be_inited b) eqn:Ei; cbn [negb]; [|by apply same_stay]. specialize (Hb Ei). apply hyb_same; [done|].
  apply wait_api_safe; [by destruct Hf|right; by eapply ready_alive|by eapply ready_host].
Qed.
Lemma bm_batch_wp f b js t flags w : finv f → entry_ok f w b → (∀ j l, js = Some (j :: l) → bm_classified t j) →
  swp (DataCopyBatch group_order va f b js t flags) w (same_post f w).
Proof.
  intros Hf Hb Hc. unfold DataCopyBatch. destruct js as [[|j js]|]; try by apply same_stay. destruct (is_butt_type t); [by apply same_stay|].
  destruct (be_inited b) eqn:Ei; cbn [negb]; [|by apply same_stay]. specialize (Hb Ei). destruct (is_butt _); [by apply same_stay|]. apply hyb_same; [done|].
  apply batch_api_safe; [by destruct Hf|right; by eapply ready_alive|]. intros x l [= <- <-]. eapply direct_classified, Hc. done.
Qed.
End Calls.
Lemma post_kept f w b f' b' : finv f' → same_shapes f f' → entry_ok f w b → be_inited b' = be_inited b → be_options b' = be_options b → be_entity b' = be_entity b →
  globalGroup_ b' = globalGroup_ b → coreOptions_ b' = coreOptions_ b → hbmSliceInfo_ b' = hbmSliceInfo_ b → dramSliceInfo_ b' = dramSliceInfo_ b →
  entityInfo_ b' = entityInfo_ b → method_post f w b f' w b'.
Proof.
  intros Hf Hs Hb E0 E1 E2 E3 E4 E5 E6 E7. split; [done|by apply shapes_extend|done|done|]. intros Hi. rewrite E0 in Hi. eapply ready_shapes; [done|].
  by eapply ready_keep, Hb.
Qed.
Definition entry_post (f : MemEntityFactory) (w : gmap Z Z) (b : SmemBmEntry) {A} (x : MemEntityFactory * SmemBmEntry * A) (w' : gmap Z Z) : Prop :=
  method_post f w b x.1.1 w' x.1.2.
Lemma bm_register_wp f b a n w : finv f → entry_ok f w b → swp (RegisterMem f b a n) w (entry_post f w b).
Proof.
  intros Hf Hb. unfold RegisterMem. destruct (negb _); [by apply post_same|]. destruct (registedSlice_ b !! a) as [[? ?]|]; [by apply post_same|].
  apply wp_seq, (hyb f); [done|apply register_api_safe; by destruct Hf|]. intros f1 s Hf1 Hs. destruct (negb _); by apply post_kept.
Qed.
Lemma bm_unregister_wp f b a w : finv f → entry_ok f w b → swp (UnRegisterMem f b a) w (entry_post f w b).
Proof.
  intros Hf Hb. unfold UnRegisterMem. destruct (negb _); [by apply post_same|]. destruct (registedSlice_ b !! a) as [[? ?]|]; [|by apply post_same].
  apply wp_seq, (hyb f); [done|apply free_api_safe; by destruct Hf|]. intros f1 s Hf1 Hs. destruct (negb _); by apply post_kept.
Qed.
Lemma keeping_wp {A} f b (p : sprog (MemEntityFactory * A)) w : entry_ok f w b → swp p w (same_post f w) → swp (keeping b p) w (entry_post f w b).
Proof. intros Hb Hp. apply wp_seq. eapply wp_mono; [exact Hp|]. intros [f1 a] w1 (-> & Hf1 & Hs1). by apply post_kept. Qed.

(** ** The manager *)
Record bm_inv (s : Bm) (w : gmap Z Z) : Prop := {
  bi_fac : finv (bm_factory s);
  bi_ptrs : ∀ p q, ptr2EntryMap_ s !! p = Some q → q = p;
  bi_alive : ∀ p, is_Some (bm_entries s !! p) ↔ is_Some (ptr2EntryMap_ s !! p);
  bi_ids : ∀ id p, entryIdMap_ s !! id = Some p ↔ ∃ b, bm_entries s !! p = Some b ∧ Id b = id;
  bi_range : map_Forall (λ _ b, 0 ≤ Id b < 2 ^ 15) (bm_entries s);
  bi_ok : map_Forall (λ _ b, entry_ok (bm_factory s) w b) (bm_entries s);
}.
Definition core (s : Bm) := (bm_factory s, bm_entries s, ptr2EntryMap_ s, entryIdMap_ s).
Lemma core_mgr s c ws d i st : core (set_mgr s c ws d i st) = core s.
Proof. done. Qed.
Lemma core_inv s s' w : core s' = core s → bm_inv s w → bm_inv s' w.
Proof. intros [= E1 E2 E3 E4] [H1 H2 H3 H4 H5 H6]. split; rewrite ?E1, ?E2, ?E3, ?E4; done. Qed.
Lemma entry_at s w p b : bm_inv s w → GetEntryByPtr s p = Some b → bm_entries s !! p = Some b.
Proof.
  intros Hs. unfold GetEntryByPtr. destruct (negb _); [done|]. destruct (ptr2EntryMap_ s !! p) as [q|] eqn:Eq; [|done]. by apply (bi_ptrs _ _ Hs) in Eq as ->.
Qed.
Lemma other_id s w p q b c : bm_inv s w → bm_entries s !! p = Some b → bm_entries s !! q = Some c → q ≠ p → Id c ≠ Id b.
Proof.
  intros Hs Hp Hq Hne E. assert (entryIdMap_ s !! Id b = Some p) as H1 by (apply (bi_ids _ _ Hs); eauto).
  assert (entryIdMap_ s !! Id c = Some q) as H2 by (apply (bi_ids _ _ Hs); eauto). rewrite E in H2. congruence.
Qed.
Lemma ready_groups f w w' b : w' !! Id b = w !! Id b → entry_ready f w b → entry_ready f w' b.
Proof. intros Hw [H1 H2 H3 H4 [H5 H6]]. split; [done|done|done|done|]. by rewrite Hw. Qed.
(** The other entries do not notice a method of one. *)
Lemma rest_ok s w p b f' w' b' : bm_inv s w → bm_entries s !! p = Some b → method_post (bm_factory s) w b f' w' b' →
  ∀ q c, q ≠ p → bm_entries s !! q = Some c → entry_ok f' w' c.
Proof.
  intros Hs Hp [_ Hx _ Hw _] q c Hne Hq Hi. pose proof (other_id _ _ _ _ _ _ Hs Hp Hq Hne) as Hid. eapply ready_groups; [by apply Hw|].
  eapply ready_extends; [exact Hx|unfold eid; lia|]. by apply (bi_ok _ _ Hs q c Hq).
Qed.
Lemma put_inv s w p b f' w' b' : bm_inv s w → bm_entries s !! p = Some b → method_post (bm_factory s) w b f' w' b' → bm_inv (put_entry (set_factory s f') p b') w'.
Proof.
  intros Hs Hp Hm. pose proof (rest_ok _ _ _ _ _ _ _ Hs Hp Hm) as Hr. destruct Hm as [Hf Hx Ho Hw Hb]. assert (Id b' = Id b) as Hid by (unfold Id; by rewrite Ho).
  split; cbn; [done|apply (bi_ptrs _ _ Hs)| | | |].
  - intros q. rewrite <- (bi_alive _ _ Hs q). destruct (decide (q = p)) as [->|]; [rewrite lookup_insert_eq, Hp; split; by eexists|by rewrite lookup_insert_ne].
  - intros id q. rewrite (bi_ids _ _ Hs). destruct (decide (q = p)) as [->|]; [|by rewrite lookup_insert_ne].
    rewrite lookup_insert_eq, Hp. split; intros (c & [= <-] & <-); by eexists.
  - apply map_Forall_insert_2; [rewrite Hid; by apply (bi_range _ _ Hs p)|apply (bi_range _ _ Hs)].
  - intros q c Hq. destruct (decide (q = p)) as [->|Hne]; [rewrite lookup_insert_eq in Hq; by injection Hq as <-|]. rewrite lookup_insert_ne in Hq by done. by eapply Hr.
Qed.
(** The state that is left is well formed. *)
Definition bm_left {A} (x : Bm * A) (w' : gmap Z Z) : Prop := bm_inv x.1 w'.
Lemma checked_wp {A} s w h (a1 a2 a3 : A) k : bm_inv s w → (∀ b, bm_entries s !! h = Some b → swp (k b) w (entry_post (bm_factory s) w b)) →
  swp (checked s h a1 a2 a3 k) w bm_left.
Proof.
  intros Hs Hk. unfold checked, with_entry. destruct (h =? nullptr); [done|]. destruct (negb _); [done|]. destruct (GetEntryByPtr s h) as [b|] eqn:Eb; [|done].
  apply (entry_at _ w) in Eb; [|done]. apply wp_seq. eapply wp_mono; [by apply Hk|]. intros [[f b'] a] w' Hm. by eapply put_inv.
Qed.
Lemma checked_keeping {A} s w h (a1 a2 a3 : A) p : bm_inv s w →
  (∀ b, bm_entries s !! h = Some b → entry_ok (bm_factory s) w b → swp (p b) w (same_post (bm_factory s) w)) →
  swp (checked s h a1 a2 a3 (λ b, keeping b (p b))) w bm_left.
Proof. intros Hs Hp. apply checked_wp; [done|]. intros b Hb. pose proof (bi_ok _ _ Hs _ _ Hb) as Hok. apply keeping_wp; [done|by apply Hp]. Qed.
Lemma core_left {A} s w (p : sprog (Bm * A)) : bm_inv s w → swp p w (λ x w', w' = w ∧ core x.1 = core s) → swp p w bm_left.
Proof. intros Hs Hp. eapply wp_mono; [exact Hp|]. intros [s' a] w' [-> Hc]. by eapply core_inv. Qed.
(** An entry without its entity may go. *)
Lemma drop_inv s w p b : bm_inv s w → bm_entries s !! p = Some b →
  bm_inv (set_maps s (delete p (bm_entries s)) (delete p (ptr2EntryMap_ s)) (delete (Id b) (entryIdMap_ s))) w.
Proof.
  intros Hs Hp. split; cbn; [apply Hs| | | | |].
  - intros q r. rewrite lookup_delete_Some. intros [_ H]. by apply (bi_ptrs _ _ Hs).
  - intros q. destruct (decide (q = p)) as [->|]; [by rewrite !lookup_delete_eq|]. rewrite !lookup_delete_ne by done. apply (bi_alive _ _ Hs).
  - intros id q. rewrite lookup_delete_Some, (bi_ids _ _ Hs). setoid_rewrite lookup_delete_Some. split.
    + intros [Hne (c & Hc & Hid)]. exists c. split; [split; [|done]|done]. intros ->. congruence.
    + intros (c & [Hne Hc] & Hid). split; [|by exists c]. intros <-. by eapply (other_id s w p q); [..|symmetry].
  - apply map_Forall_delete, (bi_range _ _ Hs).
  - apply map_Forall_delete, (bi_ok _ _ Hs).
Qed.
Lemma remove_wp s w p : bm_inv s w → swp (RemoveEntryByPtr s p) w bm_left.
Proof.
  intros Hs. unfold RemoveEntryByPtr. destruct (negb _); [done|]. destruct (ptr2EntryMap_ s !! p) as [q|] eqn:Eq; [|done].
  pose proof (bi_ptrs _ _ Hs _ _ Eq) as ->. assert (is_Some (bm_entries s !! p)) as [b Hb] by (apply (bi_alive _ _ Hs); by eexists). rewrite Hb. cbn -[UnInitalize].
  apply wp_seq. eapply wp_mono; [apply uninit_wp; [apply Hs|by apply (bi_ok _ _ Hs p)]|]. intros [f b'] w' (-> & Hm & Hi). cbn [fst snd] in *.
  pose proof (put_inv _ _ _ _ _ _ _ Hs Hb Hm) as Hs'. pose proof (drop_inv _ w p b' Hs') as Hd. cbn in Hd. rewrite lookup_insert_eq in Hd. specialize (Hd eq_refl).
  assert (Id b' = Id b) as Hid by (unfold Id; by rewrite (mp_options _ _ _ _ _ _ Hm)). rewrite Hid, delete_insert_eq in Hd. exact Hd.
Qed.
Lemma smem_destroy_wp s w h : bm_inv s w → swp (smem_bm_destroy s h) w (λ s', bm_inv s').
Proof.
  intros Hs. unfold smem_bm_destroy. destruct (_ || _); [done|]. destruct (GetEntryByPtr s h) as [b|] eqn:Eb; [|done]. apply (entry_at _ w) in Eb; [|done].
  apply wp_seq. eapply wp_mono; [apply uninit_wp; [apply Hs|by apply (bi_ok _ _ Hs h)]|]. intros [f b'] w' (-> & Hm & Hi). cbn [fst snd] in *.
  apply wp_seq. eapply wp_mono; [eapply remove_wp, put_inv; done|]. by intros [s' r] w' Hl.
Qed.

(** ** Starting the manager and making entries *)
Lemma ask_core {A} s w (c : SCall) (k : EAns → sprog (Bm * A)) : sok w c → (∀ w' a, sstep w c w' a → w' = w ∧ swp (k a) w (λ x w', w' = w ∧ core x.1 = core s)) →
  swp (Act c k) w (λ x w', w' = w ∧ core x.1 = core s).
Proof. intros Hc Hk. split; [done|]. intros w' a Ha. by destruct (Hk w' a Ha) as [-> H]. Qed.
Ltac skip := match goal with |- wp _ _ (if ?x then _ else _) _ _ => destruct x; [done|] end.
Ltac ask := split; [done|]; intros ? ? ->; cbn [mbind program_bind].
Lemma racing_wp s w : swp (RacingForStoreServer s) w (λ x w', w' = w ∧ core x.1 = core s).
Proof. unfold RacingForStoreServer. ask. destruct (negb _); [done|]. destruct (_ =? 0); [done|]. ask. destruct (negb _); [done|]. by ask. Qed.
Lemma prepare_wp s w : swp (PrepareStore s) w (λ x w', w' = w ∧ core x.1 = core s ∧ (x.2 = SM_OK → confStore_ x.1 = true)).
Proof.
  unfold PrepareStore. ask. destruct (negb _); [done|]. ask. apply wp_seq. apply (wp_mono _ _ _ _ (λ (x : Bm * Z) w', w' = w ∧ core x.1 = core s)).
  - destruct (negb (autoRanking _)).
    + destruct (negb _); [done|]. ask. case_match; [by ask|done].
    + apply wp_seq. eapply (wp_mono _ _ _ _ (λ (x : Bm * Z) w', w' = w ∧ core x.1 = core s)); [case_match; [apply racing_wp|done]|].
      intros [s1 r] w1 [-> Hc]. cbn [fst] in Hc. destruct (negb _); [done|]. destruct (confStore_ s1); [done|]. ask. case_match; [by ask|done].
  - intros [s1 r] w1 [-> Hc]. cbn [fst] in Hc. destruct (Z.eqb_spec r SM_OK) as [->|]; cbn [negb]; [|by split_and!]. split; [done|]. intros w' a [-> Ha]. cbn.
    split_and!; [done|done|]. intros _. by destruct (Z.eqb_spec (e_ret a) 0).
Qed.
Lemma ranking_wp s w : confStore_ s = true → swp (AutoRanking s) w (λ x w', w' = w ∧ core x.1 = core s).
Proof. intros Hc. unfold AutoRanking. rewrite Hc. cbn [negb]. ask. case_match; [by ask|done]. Qed.
Lemma mgr_init_wp s w ws d c : swp (mgr_Initialize s ws d c) w (λ x w', w' = w ∧ core x.1 = core s).
Proof.
  unfold mgr_Initialize. destruct (mgr_inited s); [done|]. destruct (ws =? 0); [done|]. cbv zeta. apply wp_seq.
  eapply wp_mono; [apply prepare_wp|]. intros [s1 r] w1 (-> & Hc & Hst). cbn [fst snd] in *. change (core (set_mgr s c ws d (mgr_inited s) (confStore_ s))) with (core s) in Hc.
  destruct (Z.eqb_spec r SM_OK) as [->|]; cbn [negb]; [|done]. apply wp_seq. eapply (wp_mono _ _ _ _ (λ (x : Bm * Z) w', w' = w ∧ core x.1 = core s)).
  - destruct (autoRanking _); [|done]. eapply wp_mono; [by apply ranking_wp, Hst|]. intros [s2 r2] w2 [-> H2]. split; [done|]. by rewrite H2.
  - intros [s2 r2] w2 [-> H2]. cbn [fst] in H2. by destruct (negb _).
Qed.
Lemma mgr_destroy_wp s w : swp (mgr_Destroy s) w (λ s' w', w' = w ∧ core s' = core s).
Proof. unfold mgr_Destroy. by ask. Qed.
Lemma smem_init_wp s w u ws d c : swp (smem_bm_init s u ws d c) w (λ x w', w' = w ∧ core x.1 = core s).
Proof.
  unfold smem_bm_init. do 3 skip. apply wp_seq. eapply wp_mono; [apply mgr_init_wp|]. intros [s1 r] w1 [-> Hc]. cbn [fst snd] in *.
  skip. ask. destruct (negb _); [|done]. apply wp_seq. eapply wp_mono; [apply mgr_destroy_wp|]. intros s2 w2 [-> H2]. split; [done|]. by rewrite <- Hc.
Qed.
Lemma smem_uninit_wp s w : swp (smem_bm_uninit s) w (λ s' w', w' = w ∧ core s' = core s).
Proof. unfold smem_bm_uninit. destruct (negb _); [done|]. ask. apply wp_seq. eapply wp_mono; [apply mgr_destroy_wp|]. by intros s2 w2 [-> H2]. Qed.
Lemma new_inv s w id fresh o : bm_inv s w → entryIdMap_ s !! id = None → bm_entries s !! fresh = None → 0 ≤ id < 2 ^ 15 → bo_id o = id →
  bm_inv (set_maps s (<[fresh := bm_new o]> (bm_entries s)) (<[fresh := fresh]> (ptr2EntryMap_ s)) (<[id := fresh]> (entryIdMap_ s))) w.
Proof.
  intros Hs Hid Hfr Hr Ho. split; cbn; [apply Hs| | | | |].
  - intros p q. destruct (decide (p = fresh)) as [->|]; [rewrite lookup_insert_eq; congruence|]. rewrite lookup_insert_ne by done. apply (bi_ptrs _ _ Hs).
  - intros p. destruct (decide (p = fresh)) as [->|]; [rewrite !lookup_insert_eq; split; by eexists|]. rewrite !lookup_insert_ne by done. apply (bi_alive _ _ Hs).
  - intros i p. destruct (decide (p = fresh)) as [->|Hp].
    + rewrite (lookup_insert_eq (bm_entries s)). destruct (decide (i = id)) as [->|Hi]; [rewrite lookup_insert_eq; split; [intros _; by eexists|done]|].
      rewrite lookup_insert_ne by done. rewrite (bi_ids _ _ Hs). split; [intros (c & Hc & _); congruence|]. intros (c & [= <-] & E). change (bo_id o = i) in E. congruence.
    + rewrite (lookup_insert_ne (bm_entries s)) by done. rewrite <- (bi_ids _ _ Hs). destruct (decide (i = id)) as [->|Hi]; [rewrite lookup_insert_eq, Hid; split; congruence|].
      by rewrite lookup_insert_ne.
  - apply map_Forall_insert_2; [unfold Id; cbn; by rewrite Ho|apply (bi_range _ _ Hs)].
  - by apply map_Forall_insert_2; [|apply (bi_ok _ _ Hs)].
Qed.
Lemma create_entry_wp s w id fresh : bm_inv s w → 0 ≤ id < 2 ^ 15 → bm_entries s !! fresh = None →
  swp (CreateEntryById s id fresh) w (λ x w', w' = w ∧ bm_inv x.1 w ∧ bm_factory x.1 = bm_factory s ∧
    (x.2 = 0 → ∃ b, bm_entries x.1 !! fresh = Some b)).
Proof.
  intros Hs Hr Hfr. unfold CreateEntryById. destruct (negb _); [by split_and!|]. destruct (entryIdMap_ s !! id) as [q|] eqn:Eid; [by split_and!|]. cbv zeta.
  split; [done|]. intros w' a [-> Ha]. cbn [program_bind mbind]. destruct (negb (negb _)); [by split_and!|]. split_and!; [done|by apply new_inv|done|].
  intros _. eexists. cbn. by rewrite lookup_insert_eq.
Qed.
Lemma bm_options_ok s o : ho_bmType (bm_options s o) ≠ HYBM_TYPE_AI_CORE_INITIATE ∧ trans_has_dram (bm_options s o) ∧ 0 ≤ ho_rankCount (bm_options s o) < 2 ^ 16.
Proof. split; [done|split; [done|]]; apply Z.mod_pos_bound; lia. Qed.
Lemma smem_create_wp npu s w id o fresh fe : bm_inv s w → 0 ≤ id < 2 ^ 15 → bm_entries s !! fresh = None → heap (bm_factory s) !! fe = None → fe ≠ nullptr →
  swp (smem_bm_create2 npu s id o fresh fe) w bm_left.
Proof.
  intros Hs Hid Hfr Hfe Hn. unfold smem_bm_create2. do 2 skip. destruct o as [o|]; [|done]. skip.
  apply wp_seq. eapply wp_mono; [by apply create_entry_wp|]. intros [s1 r] w1 (-> & Hs1 & Hf1 & He). cbn [fst snd] in *.
  destruct (Z.eqb_spec r 0) as [->|]; cbn [negb]; [|done]. cbv zeta. do 2 skip. destruct (He eq_refl) as [b Hb]. rewrite Hb.
  destruct (bm_options_ok s1 o) as (H1 & H2 & H3). apply wp_seq. eapply wp_mono.
  { apply (init_wp (bm_factory s1) b); [apply Hs1|by apply (bi_ok _ _ Hs1 fresh)|by apply (bi_range _ _ Hs1 fresh)|done|done|done|by rewrite Hf1|done]. }
  intros [[f b'] r'] w' Hm. by eapply put_inv.
Qed.

(** ** Calls in any order *)
Inductive BmOp :=
| BInit (storeURL : bool) (worldSize deviceId : Z) (config : option smem_bm_config_t)
| BUninit
| BCreate (npu : bool) (id : Z) (option : option smem_bm_create_option_t) (fresh fresh_entity : Z)
| BDestroy (handle : Z)
| BJoin (handle : Z)
| BLeave (handle : Z)
| BCopy (handle : Z) (params : option hybm_copy_params) (t : smem_bm_copy_type) (flags : Z)
| BBatch (handle : Z) (params : option (option (list hybm_copy_params))) (t : smem_bm_copy_type) (flags : Z)
| BWait (handle : Z)
| BRank (handle gva : Z)
| BRegister (handle addr size : Z)
| BUnregister (handle addr : Z)
| BOnJoin (ptr : Z)
| BOnLeave (ptr rk : Z).
Definition bm_rest {A} (p : sprog (Bm * A)) : sprog Bm := x ← p; Ret x.1.
Section Runs.
Context (rank_order : gmap Z EntityExportInfo → list (Z * EntityExportInfo)) (Hord : ∀ m, rank_order m ≡ₚ map_to_list m).
Context (group_order : gmap (Z * Z) (list nat) → list (Z * Z * list nat)) (va : HybmVaManager).
Definition bm_run (s : Bm) (op : BmOp) : sprog Bm :=
  match op with
  | BInit u n d c => bm_rest (smem_bm_init s u n d c)
  | BUninit => smem_bm_uninit s
  | BCreate npu id o fresh fe => bm_rest (smem_bm_create2 npu s id o fresh fe)
  | BDestroy h => smem_bm_destroy s h
  | BJoin h => bm_rest (smem_bm_join s h)
  | BLeave h => bm_rest (smem_bm_leave s h)
  | BCopy h p t fl => bm_rest (smem_bm_copy va s h p t fl)
  | BBatch h p t fl => bm_rest (smem_bm_copy_batch group_order va s h p t fl)
  | BWait h => bm_rest (smem_bm_wait s h)
  | BRank h g => bm_rest (smem_bm_get_rank_id_by_gva s h g)
  | BRegister h a n => bm_rest (smem_bm_register_user_mem s h a n)
  | BUnregister h a => bm_rest (smem_bm_unregister_user_mem s h a)
  | BOnJoin p => bm_rest (on_join rank_order s p)
  | BOnLeave p rk => bm_rest (on_leave s p rk)
  end.
(** What a caller owes: ids below 2^15, addresses of new objects that are new, copies
    whose direction is to be found out between addresses of known types, and a rank is
    not asked for where the local size is zero; the group engine runs the handlers of
    entries that are there.  Handles are any numbers. *)
Definition bm_op_ok (s : Bm) (op : BmOp) : Prop :=
  match op with
  | BCreate _ id _ fresh fe => 0 ≤ id < 2 ^ 15 ∧ bm_entries s !! fresh = None ∧ heap (bm_factory s) !! fe = None ∧ fe ≠ nullptr
  | BCopy _ (Some j) t _ => bm_classified va t j
  | BBatch _ (Some (Some (j :: _))) t _ => bm_classified va t j
  | BRank h g => ∀ b, bm_entries s !! h = Some b → is_Some (GetRankIdByGva b g)
  | BOnJoin p | BOnLeave p _ => is_Some (bm_entries s !! p)
  | _ => True
  end.
Lemma rest_wp {A} (p : sprog (Bm * A)) w : swp p w bm_left → swp (bm_rest p) w (λ s' w', bm_inv s' w').
Proof. intros Hp. apply wp_seq. eapply wp_mono; [exact Hp|]. by intros [s a] w' H. Qed.
Lemma group_wp s w (q : sprog Z) : bm_inv s w → swp q w (λ _ w', w' = w) → swp (r ← q; Ret (bm_factory s, r)) w (same_post (bm_factory s) w).
Proof. intros Hs Hq. apply wp_seq. eapply wp_mono; [exact Hq|]. intros r w' ->. apply same_stay, Hs. Qed.
Lemma handler_wp s w p {A} (k : SmemBmEntry → sprog (MemEntityFactory * A)) (bad : A) : bm_inv s w → is_Some (bm_entries s !! p) →
  (∀ b, entry_ok (bm_factory s) w b → swp (k b) w (same_post (bm_factory s) w)) →
  swp (match bm_entries s !! p with None => sundefined (s, bad) | Some b => '(f, r) ← k b; Ret (set_factory s f, r) end) w bm_left.
Proof.
  intros Hs [b Hb] Hk. rewrite Hb. pose proof (bi_ok _ _ Hs _ _ Hb) as Hok. apply wp_seq. eapply wp_mono; [by apply Hk|]. intros [f a] w' (-> & Hf & Hsh).
  pose proof (put_inv s w p b f w b Hs Hb) as Hi. unfold put_entry in Hi. cbn in Hi. rewrite insert_id in Hi by done. by apply Hi, post_kept.
Qed.
Lemma bm_keeps s w op : bm_inv s w → bm_op_ok s op → swp (bm_run s op) w (λ s' w', bm_inv s' w').
Proof.
  intros Hs. pose proof (bi_fac _ _ Hs) as Hf. destruct op; cbn [bm_run bm_op_ok]; intros Hop; try apply rest_wp.
  - apply (core_left s); [done|apply smem_init_wp].
  - eapply wp_mono; [apply smem_uninit_wp|]. intros s' w' [-> Hc]. by eapply core_inv.
  - apply smem_create_wp; naive_solver.
  - by apply smem_destroy_wp.
  - apply checked_keeping; [done|]. intros b _ Hb. apply group_wp; [done|]. unfold Join. destruct (be_inited b) eqn:Ei; [|done]. cbn [negb].
    rewrite (er_group _ _ _ (Hb Ei)). by ask.
  - apply checked_keeping; [done|]. intros b _ Hb. apply group_wp; [done|]. unfold Leave. destruct (be_inited b) eqn:Ei; [|done]. cbn [negb].
    rewrite (er_group _ _ _ (Hb Ei)). by ask.
  - destruct params as [j|]; [|done]. apply checked_keeping; [done|]. intros b _ Hb. by apply copy_wp.
  - destruct params as [js|]; [|done]. apply checked_keeping; [done|]. intros b _ Hb. apply bm_batch_wp; [done|done|]. by intros j l ->.
  - apply checked_keeping; [done|]. intros b _ Hb. by apply bm_wait_wp.
  - apply checked_keeping; [done|]. intros b Hh _. destruct (Hop b Hh) as [r ->]. by apply same_stay.
  - unfold smem_bm_register_user_mem. skip. apply checked_wp; [done|]. intros b Hb. apply bm_register_wp; [done|]. by apply (bi_ok _ _ Hs handle).
  - unfold smem_bm_unregister_user_mem. skip. apply checked_wp; [done|]. intros b Hb. apply bm_unregister_wp; [done|]. by apply (bi_ok _ _ Hs handle).
  - apply handler_wp; [done|done|]. intros b Hb. by apply join_wp.
  - apply handler_wp; [done|done|]. intros b Hb. by apply leave_wp.
Qed.
Inductive bm_reach : Bm → gmap Z Z → Prop :=
| bm_reach_start : bm_reach bm_start ∅
| bm_reach_call s w op s' w' : bm_reach s w → bm_op_ok s op → leads sstep (bm_run s op) w s' w' → bm_reach s' w'.
Lemma bm_start_inv : bm_inv bm_start ∅.
Proof.
  split; cbn; [split; [apply factory_new_inv|done]|done|intros p; split; by intros [? [=]]|intros id p|apply map_Forall_empty..].
  split; [done|]. by intros (b & ? & _).
Qed.

End Runs.

(** ** A run *)
Definition strings_endb (d : hybm_exchange_info) : bool :=
  let i := entity_of_bytes (take 120 (desc d)) in
  negb (le_val (take 8 (desc d)) =? ENTITY_EXPORT_INFO_MAGIC) || (bool_decide (is_Some (c_string (x_nic i))) && bool_decide (is_Some (c_string (x_tag i)))).
(** Segments that hold one slice. *)
Definition segment_env (c : ECall) : EAns :=
  match c with
  | ESegGetSlice _ _ => mkAns 0 0 [] (Some (v_slice peer_view).2) []
  | ESegExportSlice k _ => mkAns 0 0 (match k with Dram => v_seg peer_view | Hbm => [] end) None []
  | ESegReserve _ => mkAns 0 (2 ^ 40) [] None []
  | ETrGetNic => mkAns 0 0 (v_nic peer_view) None []
  | _ => (api_env tt c).2
  end.
Lemma segment_env_step c : astep tt c tt (segment_env c).
Proof.
  pose proof (api_env_step tt c) as H. destruct c; try exact H; try done. cbn. destruct k; (split; [unfold len, SEG_INFO_MAX; cbn; lia|]); [|done].
  unfold of_kind, len. cbn. lia.
Qed.
(** A group that one rank has joined. *)
Definition bm_env (w : gmap Z Z) (c : SCall) : gmap Z Z * EAns :=
  match c with
  | SE c => (w, segment_env c)
  | SGroupCreate id n _ _ _ => (<[id := u32 n]> w, plain 1)
  | SGroupRankSize id => (w, plain (Z.min 1 (default 0 (w !! id))))
  | SGroupAllGather _ buf n =>
      (w, if (n =? 4) || ((n =? sizeof_info) && strings_endb (info_at buf 0)) then mkAns 0 0 buf None [] else plain (-1))
  | SPrefixStore _ | SCreateStore _ _ _ _ | SCreateStoreClient _ => (w, plain 1)
  | SGetAutoRank => (w, mkAns 0 0 (le_bytes 4 0) None [])
  | _ => (w, plain 0)
  end.
Lemma info_at_bytes d : ex_ok d → info_at (info_bytes d) 0 = d.
Proof.
  intros [Hl Hd]. unfold info_at, info_bytes, at_bytes, DESC_SIZE, len in *. change (516 * 0)%nat with 0%nat. rewrite drop_0, Nat.add_0_l.
  rewrite take_app_length', drop_app_length' by lia. rewrite take_ge by by rewrite length_le_bytes. rewrite le_val_le_bytes_small by (cbn; lia). by destruct d.
Qed.
Lemma bm_env_step w c : map_Forall (λ _ n, 0 ≤ n) w → sstep w c (bm_env w c).1 (bm_env w c).2 ∧ map_Forall (λ _ n, 0 ≤ n) (bm_env w c).1.
Proof.
  intros Hw. destruct c; cbn -[u32 segment_env le_bytes]; try done.
  - split; [|done]. split; [done|apply segment_env_step].
  - split; [done|]. apply map_Forall_insert_2; [apply Z.mod_pos_bound; lia|done].
  - split; [|done]. split; [done|]. destruct (w !! id) as [n|] eqn:E; cbn; [|done]. pose proof (Hw id n E). cbn in *. lia.
  - split; [|done]. split; [done|]. destruct (Z.eqb_spec recvSize 4) as [->|_]; [intros _ own _ _; by split_and!|].
    destruct (Z.eqb_spec recvSize sizeof_info) as [->|_]; [|done]. destruct (strings_endb _) eqn:Es; [|done]. intros _ own Ho ->. cbn [e_bytes orb andb].
    rewrite Z.div_same by done. change (infos_of (info_bytes own) 1) with [info_at (info_bytes own) 0]. rewrite info_at_bytes in Es |- * by done.
    split_and!; [|by constructor|by intros d ds [= <- <-]]. constructor; [|done]. split; [done|]. intros Hc. unfold is_card in Hc. unfold strings_endb in Es. rewrite Hc, Z.eqb_refl in Es.
    apply andb_true_iff in Es as [H1%bool_decide_eq_true H2%bool_decide_eq_true]. by split.
Qed.

Definition bm_after (ops : list BmOp) (x : gmap Z Z * Bm) : gmap Z Z * Bm :=
  foldl (λ x op, run bm_env (bm_run map_to_list map_to_list va_new x.2 op) x.1) x ops.
Fixpoint bm_all_ok (x : gmap Z Z * Bm) (ops : list BmOp) : Prop :=
  match ops with [] => True | op :: ops => bm_op_ok va_new x.2 op ∧ bm_all_ok (bm_after [op] x) ops end.
Lemma bm_after_reach ops x : bm_reach map_to_list map_to_list va_new x.2 x.1 → map_Forall (λ _ n, 0 ≤ n) x.1 → bm_all_ok x ops →
  bm_reach map_to_list map_to_list va_new (bm_after ops x).2 (bm_after ops x).1.
Proof.
  revert x. induction ops as [|op ops IH]; intros x Hr Hx; [done|]. intros [H1 H2].
  destruct (leads_run sstep (map_Forall (λ _ n, 0 ≤ n)) bm_env (bm_run map_to_list map_to_list va_new x.2 op) x.1) as [Hl Hp]; [intros; by apply bm_env_step|done|].
  apply (IH (bm_after [op] x)); [by eapply bm_reach_call|done|done].
Qed.
Definition demo_bm_options : smem_bm_create_option_t := mkCreate LARGE_PAGE_SIZE 0 LARGE_PAGE_SIZE 0 SMEMB_DATA_OP_HOST_RDMA 0 (bytes_of_str "b"%string) [] (-1).
Definition demo_bm_calls : list BmOp :=
  [BInit true 2 0 (Some smem_bm_config_init); BCreate true 7 (Some demo_bm_options) 100 200; BJoin 100; BOnJoin 100; BRegister 100 4096 64;
   BCopy 100 (Some (mkParams 4096 (2 ^ 40) 64)) SMEMB_COPY_H2G 0; BRank 100 (2 ^ 40); BOnLeave 100 1; BUnregister 100 4096; BWait 100; BDestroy 100; BWait 100].
Lemma demo_bm_ok : bm_all_ok (∅, bm_start) demo_bm_calls.
Proof.
  assert (∀ (s : Bm) (b : bool), b = true → bool_decide (is_Some (bm_entries s !! 100)) = b → is_Some (bm_entries s !! 100)) as Hal
    by (intros s b -> H; by apply bool_decide_eq_true in H).
  unfold demo_bm_calls. cbn [bm_all_ok bm_op_ok]. split; [exact I|].
  split; [split; [split; [discriminate|reflexivity]|split; [vm_compute; reflexivity|split; [vm_compute; reflexivity|discriminate]]]|].
  split; [exact I|]. split; [eapply Hal; [reflexivity|vm_compute; reflexivity]|]. split; [exact I|]. split; [discriminate|].
  split; [intros b Hb; vm_compute in Hb; injection Hb as <-; apply is_Some_alt; vm_compute; exact I|].
  split; [eapply Hal; [reflexivity|vm_compute; reflexivity]|]. repeat (split; [exact I|]). exact I.
Qed.

(** ** Addresses *)

(** The memory of an entry lies in the address space. *)
Record placed (b : SmemBmEntry) : Prop := {
  pl_host : 0 < hostGva_ b;
  pl_max : 0 < ho_maxDRAMSize (coreOptions_ b);
  pl_count : ho_rankCount (coreOptions_ b) < 2 ^ 16;
  pl_end : hostGva_ b + ho_maxDRAMSize (coreOptions_ b) * ho_rankCount (coreOptions_ b) < 2 ^ 64;
}.
Lemma in_host b rank off : placed b → 0 ≤ rank < ho_rankCount (coreOptions_ b) → 0 ≤ off < ho_maxDRAMSize (coreOptions_ b) →
  AddrInHostGva b (hostGva_ b + ho_maxDRAMSize (coreOptions_ b) * rank + off) 1 = true.
Proof.
  intros [H1 H2 H3 H4] Hr Ho. unfold AddrInHostGva, nullptr. set (n := ho_rankCount _) in *. set (m := ho_maxDRAMSize _) in *. set (g := hostGva_ b) in *.
  assert (m * rank + off < m * n) by nia. assert (0 ≤ m * rank) by nia. rewrite (u64_small (m * n)) by nia. rewrite !u64_small by lia.
  destruct (Z.eqb_spec g 0); [lia|]. destruct (Z.ltb_spec (g + m * n) (g + m * rank + off + 1)); [lia|]. by destruct (Z.ltb_spec (g + m * rank + off) g); [lia|].
Qed.
(** C30: the address of a rank's host memory is in the range that the entry's memory
    has, and the rank that is found for any address of that memory is the offset over
    the size of the caller's own memory: the rank itself when every rank gives as much
    as it may, another one for addresses behind the caller's own size. *)
Theorem bm_rank_of_pointer s h b rank off : h ≠ nullptr → g_smemBmInited s = true → GetEntryByPtr s h = Some b → placed b →
  0 ≤ rank < ho_rankCount (coreOptions_ b) → 0 ≤ off < ho_maxDRAMSize (coreOptions_ b) →
  let gva := smem_bm_ptr_by_mem_type s h SMEM_MEM_TYPE_HOST rank + off in
  let local := smem_bm_get_local_mem_size_by_mem_type s h SMEM_MEM_TYPE_HOST in
  GetHybmMemTypeFromGva b gva 1 = SMEM_MEM_TYPE_HOST ∧
  (local = ho_maxDRAMSize (coreOptions_ b) → GetRankIdByGva b gva = Some rank) ∧
  (0 < local < ho_maxDRAMSize (coreOptions_ b) → rank = 0 → off = local → GetRankIdByGva b gva = Some 1) ∧
  (local = 0 → GetRankIdByGva b gva = None).
Proof.
  intros Hh Hg He Hp Hr Ho. pose proof (in_host b rank off Hp Hr Ho) as Hin. destruct Hp as [H1 H2 H3 H4]. unfold smem_bm_ptr_by_mem_type, smem_bm_get_local_mem_size_by_mem_type.
  apply Z.eqb_neq in Hh. rewrite Hh, Hg, He. cbn [orb negb]. destruct (Z.ltb_spec rank (ho_rankCount (coreOptions_ b))); [|lia]. cbn [negb].
  set (n := ho_rankCount _) in *. set (m := ho_maxDRAMSize _) in *. set (g := hostGva_ b) in *. set (l := ho_hostVASpace _).
  assert (m * rank + off < m * n) by nia. assert (0 ≤ m * rank) by nia. rewrite (u64_small (m * rank)), (u64_small (g + m * rank)) by lia.
  cbv zeta. unfold GetHybmMemTypeFromGva, GetRankIdByGva. rewrite Hin. fold g l. split; [done|].
  replace (g + m * rank + off -64 g) with (m * rank + off) by (rewrite u64_small by lia; lia).
  split_and!; [intros ->|intros Hl -> ->|intros ->; done].
  - destruct (Z.eqb_spec m 0); [lia|]. rewrite Z.mul_comm, Z.div_add_l, Z.div_small, Z.add_0_r by lia. by rewrite u32_small by lia.
  - destruct (Z.eqb_spec l 0); [lia|]. by rewrite Z.mul_0_r, Z.add_0_l, Z.div_same by lia.
Qed.
Definition demo_ready : Bm := (bm_after (take 2 demo_bm_calls) (∅, bm_start)).2.
Definition demo_entry : SmemBmEntry := default (bm_new (mkBmOptions 0 0 0 0)) (bm_entries demo_ready !! 100).
Lemma demo_placed : placed demo_entry.
Proof. split; vm_compute; reflexivity. Qed.
Lemma bm_rank_of_pointer_witness :
  smem_bm_ptr_by_mem_type demo_ready 100 SMEM_MEM_TYPE_HOST 1 = 2 ^ 40 + LARGE_PAGE_SIZE ∧
  GetRankIdByGva demo_entry (smem_bm_ptr_by_mem_type demo_ready 100 SMEM_MEM_TYPE_HOST 1 + 5) = Some 1.
Proof.
  split; [vm_compute; reflexivity|].
  refine (proj1 (proj2 (bm_rank_of_pointer demo_ready 100 demo_entry 1 5 _ _ _ demo_placed _ _)) _);
    [discriminate|vm_compute; reflexivity|vm_compute; reflexivity| | |vm_compute; reflexivity].
  - split; [discriminate|vm_compute; reflexivity].
  - split; [discriminate|vm_compute; reflexivity].
Defined.

(** ** What the code does not do *)

(** A copy between local device memory and the global host space, which has a type of
    its own, is refused; the type with only one end named takes it. *)
Theorem host_space_refused va f b j flags : be_inited b = true → src j ≠ nullptr → dest j ≠ nullptr → dataSize j ≠ 0 →
  GetHybmMemTypeFromGva b (src j) (dataSize j) = SMEM_MEM_TYPE_BUTT → GetHybmMemTypeFromGva b (dest j) (dataSize j) = SMEM_MEM_TYPE_HOST →
  bm_DataCopy va f b j SMEMB_COPY_L2GH flags = Ret (f, SM_INVALID_PARAM) ∧
  bm_DataCopy va f b j SMEMB_COPY_L2G flags = lift (hybm_data_copy va f (be_entity b) (Some j) HYBM_LOCAL_DEVICE_TO_GLOBAL_HOST nullptr flags).
Proof.
  intros Hi H1 H2 H3 Hs Hd. apply Z.eqb_neq in H1, H2, H3. unfold bm_DataCopy, direct_of, TransToHybmDirection. cbn [is_butt_type is_auto_type]. by rewrite H1, H2, H3, Hi, Hs, Hd.
Qed.
(** Nothing undoes the part of a start that succeeded when a later one fails: the
    entity stays behind, and the id of the entry stays taken. *)
Definition no_memory (w : gmap Z Z) (c : SCall) : gmap Z Z * EAns :=
  match c with SE (ESegAlloc _ _) => (w, plain (-1)) | _ => bm_env w c end.
Definition create_in env (id fresh fe : Z) (x : gmap Z Z * Bm) : gmap Z Z * (Bm * Z) := run env (smem_bm_create2 true x.2 id (Some demo_bm_options) fresh fe) x.1.
Theorem failed_start_leaks :
  let x := bm_after (take 1 demo_bm_calls) (∅, bm_start) in
  let y := create_in no_memory 7 100 200 x in
  let z := create_in bm_env 7 101 201 (y.1, y.2.1) in
  y.2.2 = nullptr ∧ engines_ (bm_factory y.2.1) !! 15 = Some 200 ∧ z.2.2 = nullptr ∧
  (run bm_env (CreateEntryById y.2.1 7 101) y.1).2.2 = SM_DUPLICATED_OBJECT.
Proof. vm_compute. repeat split; reflexivity. Qed.
(** The id of an entity has 16 bits, that of an entry 32: entries whose ids are 2^15
    apart share an entity.  When one of them is destroyed the other one still says it
    is ready, and waiting for its copies uses the entity that is gone. *)
Definition shared_entity : gmap Z Z * Bm :=
  let y := create_in bm_env 7 100 200 (bm_after (take 1 demo_bm_calls) (∅, bm_start)) in
  let z := create_in bm_env (7 + 2 ^ 15) 101 201 (y.1, y.2.1) in (z.1, z.2.1).
Theorem ids_alias :
  let x := shared_entity in
  let y := bm_after [BDestroy 100] x in
  be_entity <$> bm_entries x.2 !! 100 = Some 200 ∧ be_entity <$> bm_entries x.2 !! 101 = Some 200 ∧
  be_inited <$> GetEntryByPtr y.2 101 = Some true ∧ be_entity <$> GetEntryByPtr y.2 101 = Some 200 ∧ heap (bm_factory y.2) !! 200 = None ∧
  ¬ swp (smem_bm_wait y.2 101) y.1 (λ _ _, True).
Proof.
  cbv zeta. split; [vm_compute; reflexivity|]. split; [vm_compute; reflexivity|]. split; [vm_compute; reflexivity|]. split; [vm_compute; reflexivity|].
  split; [vm_compute; reflexivity|].
  assert (∃ k, smem_bm_wait (bm_after [BDestroy 100] shared_entity).2 101 = Act (SE EUndefined) k) as [k ->] by (eexists; vm_compute; reflexivity).
  by intros [[_ H] _].
Qed.
