(* ===== verification/AccQueue.v ===== *)
(** * Messages and the send queue of a link (src/src/acc_links/csrc)

    The message header of acc_def.h and the linked message queue of
    acc_tcp_link_complex_default.h at the level of its pointers: a heap of nodes,
    a head and a tail pointer and a size.  An operation answers [None] when it
    reads or writes through a null or freed pointer.  The mutex of the queue makes
    each operation one step.  [oom] is the failure of a [new (std::nothrow)]; an
    address is chosen as any fresh one. *)
From Stdlib Require Import Strings.Byte.
From stdpp Require Import base numbers list gmap.
From S2P Require Import Prelude.
Local Open Scope Z_scope.
Local Open Scope mf_scope.

(** ** Result codes and limits (acc_def.h) *)
Definition ACC_OK : Z := 0.
Definition ACC_ERROR : Z := -1.
Definition ACC_NEW_OBJECT_FAIL : Z := -2.
Definition ACC_MALLOC_FAIL : Z := -3.
Definition ACC_INVALID_PARAM : Z := -4.
Definition ACC_NOT_INITIALIZED : Z := -5.
Definition ACC_TIMEOUT : Z := -6.
Definition ACC_CONNECTION_NOT_READY : Z := -7.
Definition ACC_EPOLL_ERROR : Z := -8.
Definition ACC_QUEUE_IS_FULL : Z := -10.
Definition ACC_LINK_ERROR : Z := -11.
Definition ACC_LINK_EAGAIN : Z := -12.
Definition ACC_LINK_MSG_READY : Z := -13.
Definition ACC_LINK_MSG_SENT : Z := -14.
Definition ACC_LINK_MSG_INVALID : Z := -15.
Definition ACC_LINK_NEED_RECONN : Z := -16.
Definition MAX_RECV_BODY_LEN : Z := 10 * 1024 * 1024.
Definition UNO_256 : Z := 256.

(** ** The header: 16 bytes in memory, no padding *)
Record AccMsgHeader := mkHeader {
  htype : Z;      (* int16_t *)
  hresult : Z;    (* int16_t *)
  bodyLen : Z;    (* uint32_t *)
  hseqNo : Z;     (* uint32_t *)
  hcrc : Z;       (* uint32_t *)
}.
Definition sizeof_header : Z := 16.

Definition header_bytes (h : AccMsgHeader) : bytes :=
  le_bytes 2 (htype h) ++ le_bytes 2 (hresult h) ++ le_bytes 4 (bodyLen h) ++
  le_bytes 4 (hseqNo h) ++ le_bytes 4 (hcrc h).
(** The same memory read as the struct. *)
Definition header_of (b : bytes) : AccMsgHeader :=
  mkHeader (i16 (le_val (take 2 b))) (i16 (le_val (take 2 (drop 2 b))))
    (le_val (take 4 (drop 4 b))) (le_val (take 4 (drop 8 b))) (le_val (take 4 (drop 12 b))).

(** ** Nodes *)
Abbreviation loc := positive.
Record AccLinkedMessageNode := mkNode {
  next : option loc;
  nheader : AccMsgHeader;
  ndata : bytes;          (* the data buffer, DataLen() bytes *)
  cbCtx : Z;              (* the caller's context pointer, passed through *)
  headerRemain : Z;       (* uint32_t *)
  dataRemain : Z;         (* uint32_t *)
}.
Definition new_node (h : AccMsgHeader) (d : bytes) (ctx : Z) : AccLinkedMessageNode :=
  mkNode None h d ctx sizeof_header (len d).

Definition with_next (n : AccLinkedMessageNode) (l : option loc) : AccLinkedMessageNode :=
  mkNode l (nheader n) (ndata n) (cbCtx n) (headerRemain n) (dataRemain n).
Definition with_remain (n : AccLinkedMessageNode) (hr dr : Z) : AccLinkedMessageNode :=
  mkNode (next n) (nheader n) (ndata n) (cbCtx n) hr dr.

Definition HeaderSent (n : AccLinkedMessageNode) : bool := headerRemain n =? 0.
Definition DataSent (n : AccLinkedMessageNode) : bool := dataRemain n =? 0.
Definition Sent (n : AccLinkedMessageNode) : bool := (headerRemain n =? 0) && (dataRemain n =? 0).
(** What is left behind the pointers that the writer is given. *)
Definition HeaderPtrToBeSend (n : AccLinkedMessageNode) : bytes :=
  drop (Z.to_nat (sizeof_header - headerRemain n)) (header_bytes (nheader n)).
Definition DataPtrToBeSend (n : AccLinkedMessageNode) : bytes :=
  drop (Z.to_nat (len (ndata n) - dataRemain n)) (ndata n).
Definition HeaderAllSent (n : AccLinkedMessageNode) (size : Z) : AccLinkedMessageNode * bool :=
  if headerRemain n <=? size then (with_remain n 0 (dataRemain n), true)
  else (with_remain n (headerRemain n -32 size) (dataRemain n), false).
Definition DataAllSent (n : AccLinkedMessageNode) (size : Z) : AccLinkedMessageNode * bool :=
  if dataRemain n <=? size then (with_remain n (headerRemain n) 0, true)
  else (with_remain n (headerRemain n) (dataRemain n -32 size), false).

(** ** The queue *)
Abbreviation Heap := (gmap loc AccLinkedMessageNode).
Record AccLinkedMessageQueue := mkQueue {
  sizeCap_ : Z;
  size_ : Z;
  headNode_ : option loc;
  tailNode_ : option loc;
}.
Definition queue_new (queueCap : Z) : AccLinkedMessageQueue := mkQueue queueCap 0 None None.
Definition with_list (q : AccLinkedMessageQueue) (size : Z) (hd tl : option loc) : AccLinkedMessageQueue :=
  mkQueue (sizeCap_ q) size hd tl.
Definition GetSize (q : AccLinkedMessageQueue) : Z := size_ q.

(** [d]: the buffer, [None] for the null pointer. *)
Definition EnqueueBack (oom : bool) (hp : Heap) (q : AccLinkedMessageQueue) (h : AccMsgHeader)
    (d : option bytes) (ctx : Z) : option (Heap * AccLinkedMessageQueue * Z) :=
  match d with
  | None => Some (hp, q, ACC_INVALID_PARAM)
  | Some d =>
      if oom then Some (hp, q, ACC_NEW_OBJECT_FAIL) else
      let l := fresh (dom hp) in
      let hp1 := <[l := new_node h d ctx]> hp in
      if sizeCap_ q <=? size_ q then Some (delete l hp1, q, ACC_QUEUE_IS_FULL) else
      match headNode_ q with
      | None => Some (hp1, with_list q (size_ q +32 1) (Some l) (Some l), ACC_OK)
      | Some _ =>
          currentTail ← tailNode_ q;
          n ← hp1 !! currentTail;
          Some (<[currentTail := with_next n (Some l)]> hp1,
                with_list q (size_ q +32 1) (headNode_ q) (Some l), ACC_OK)
      end
  end.

Definition DequeueFront (hp : Heap) (q : AccLinkedMessageQueue)
    : option (AccLinkedMessageQueue * option loc) :=
  if size_ q =? 0 then Some (q, None) else
  let tmpNode := headNode_ q in
  if size_ q =? 1 then Some (with_list q (size_ q -32 1) None None, tmpNode) else
  l ← tmpNode;
  n ← hp !! l;
  Some (with_list q (size_ q -32 1) (next n) (tailNode_ q), Some l).

Definition EnqueueFront (hp : Heap) (q : AccLinkedMessageQueue) (node : option loc)
    : option (Heap * AccLinkedMessageQueue * Z) :=
  match node with
  | None => Some (hp, q, ACC_INVALID_PARAM)
  | Some l =>
      match headNode_ q with
      | None => Some (hp, with_list q (size_ q +32 1) (Some l) (Some l), ACC_OK)
      | Some hd =>
          n ← hp !! l;
          Some (<[l := with_next n (Some hd)]> hp,
                with_list q (size_ q +32 1) (Some l) (tailNode_ q), ACC_OK)
      end
  end.

Definition TakeAwayMessages (q : AccLinkedMessageQueue) : AccLinkedMessageQueue * option loc :=
  (with_list q 0 None None, headNode_ q).

(** [delete node] *)
Definition free_node (hp : Heap) (l : loc) : option Heap :=
  _ ← hp !! l; Some (delete l hp).

(** The loop that walks a chain and deletes it, as in the destructor; the nodes
    met are returned in order.  [None] also when the fuel runs out. *)
Fixpoint delete_chain (fuel : nat) (hp : Heap) (node : option loc)
    : option (Heap * list AccLinkedMessageNode) :=
  match node with
  | None => Some (hp, [])
  | Some l =>
      match fuel with
      | O => None
      | S fuel' =>
          n ← hp !! l;
          r ← delete_chain fuel' (delete l hp) (next n);
          Some (r.1, n :: r.2)
      end
  end.
Definition queue_destroy (hp : Heap) (q : AccLinkedMessageQueue) : option Heap :=
  r ← delete_chain (size hp) hp (headNode_ q); Some r.1.
