(* ===== verification/AccQueueSpec.v ===== *)
(** * The send queue is a FIFO queue

    The pointer-level queue of [AccQueue] against a list of messages, with the one
    node that the link's worker may have taken out and pushes back in front.  Any
    thread enqueues; only the worker dequeues, so between its dequeue and its push
    there are only enqueues: under that discipline no stale pointer is followed,
    although a dequeued node keeps its [next] pointer. *)
From Stdlib Require Import Strings.Byte.
From stdpp Require Import base numbers list gmap.
From S2P Require Import Prelude AccQueue.
Local Open Scope Z_scope.
Local Open Scope mf_scope.

(** ** The abstract queue *)

(** A message with what is left of it to send: a node without its pointer. *)
Abbreviation Msg := AccLinkedMessageNode.
Definition unlinked (v : Msg) : Prop := next v = None.

(** The nodes at [ls], linked in order, hold the messages [vs]. *)
Fixpoint chain (hp : Heap) (ls : list loc) (vs : list Msg) : Prop :=
  match ls, vs with
  | [], [] => True
  | l :: ls', v :: vs' => hp !! l = Some (with_next v (head ls')) ∧ unlinked v ∧ chain hp ls' vs'
  | _, _ => False
  end.

Record queue_rep (hp : Heap) (q : AccLinkedMessageQueue) (ls : list loc) (vs : list Msg) : Prop := {
  qr_chain : chain hp ls vs;
  qr_nodup : NoDup ls;
  qr_head : headNode_ q = head ls;
  qr_tail : tailNode_ q = last ls;
  qr_size : size_ q = len ls;
}.

(** The node that the worker holds: outside the queue, its pointer null or to the
    node behind it. *)
Definition held_rep (hp : Heap) (ls : list loc) (held : option (loc * Msg)) : Prop :=
  match held with
  | None => True
  | Some (l, v) => (l ∉ ls) ∧ unlinked v ∧
      ∃ nx, hp !! l = Some (with_next v nx) ∧ (nx = None ∨ nx = head ls)
  end.

(** ** Chains *)
Lemma chain_length hp ls vs : chain hp ls vs → length ls = length vs.
Proof. revert vs. induction ls; intros [|??]; cbn; naive_solver. Qed.

Lemma chain_ne hp ls vs l n : l ∉ ls → chain hp ls vs → chain (<[l := n]> hp) ls vs.
Proof.
  revert vs. induction ls as [|l' ls IH]; intros [|v vs]; cbn; try done.
  intros Hl (H1 & H2 & H3). apply not_elem_of_cons in Hl as [Hne Hl].
  rewrite lookup_insert_ne by done. auto.
Qed.

Lemma chain_delete hp ls vs l : l ∉ ls → chain hp ls vs → chain (delete l hp) ls vs.
Proof.
  revert vs. induction ls as [|l' ls IH]; intros [|v vs]; cbn; try done.
  intros Hl (H1 & H2 & H3). apply not_elem_of_cons in Hl as [Hne Hl].
  rewrite lookup_delete_ne by done. auto.
Qed.

Lemma chain_dom hp ls vs l : chain hp ls vs → l ∈ ls → l ∈ dom hp.
Proof.
  revert vs. induction ls as [|l' ls IH]; intros [|v vs]; cbn; try done; [set_solver|].
  intros (H1 & _ & H3) [->|Hl]%elem_of_cons; [|by eapply IH].
  apply elem_of_dom. eauto.
Qed.

(** Linking a new node behind the last one. *)
Lemma chain_snoc hp ls vs tl l v :
  chain hp ls vs → NoDup ls → last ls = Some tl → l ∉ ls → unlinked v → hp !! l = Some v →
  ∃ n, hp !! tl = Some n ∧ chain (<[tl := with_next n (Some l)]> hp) (ls ++ [l]) (vs ++ [v]).
Proof.
  revert vs. induction ls as [|l' ls IH]; intros [|v' vs] Hc Hnd Hlast Hl Hv Hlk; try done.
  destruct Hc as (H1 & H2 & H3). apply NoDup_cons in Hnd as [Hnin Hnd].
  apply not_elem_of_cons in Hl as [Hne Hl]. destruct ls as [|l2 ls].
  - cbn in Hlast. injection Hlast as <-. destruct vs; [|done]. exists (with_next v' None).
    split; [done|]. cbn. rewrite lookup_insert_eq, lookup_insert_ne by done.
    rewrite Hlk. split_and!; try done. f_equal. unfold unlinked in Hv. destruct v; cbn in *; by subst.
  - destruct (IH vs) as (n & Hn & Hc'); try done.
    exists n. split; [done|]. cbn [app chain]. split_and!; [|done|done].
    rewrite lookup_insert_ne; [done|]. intros ->. by apply Hnin, last_Some_elem_of.
Qed.

Lemma delete_chain_spec hp ls vs fuel :
  chain hp ls vs → NoDup ls → (length ls ≤ fuel)%nat →
  ∃ hp' ns, delete_chain fuel hp (head ls) = Some (hp', ns) ∧
    (λ n, with_next n None) <$> ns = vs ∧ (∀ l, hp' !! l = if decide (l ∈ ls) then None else hp !! l).
Proof.
  revert hp vs fuel. induction ls as [|l ls IH]; intros hp [|v vs] fuel Hc Hnd Hf; try done.
  { destruct fuel; cbn; eauto. }
  destruct fuel as [|fuel]; [cbn in Hf; lia|].
  destruct Hc as (H1 & H2 & H3). apply NoDup_cons in Hnd as [Hnin Hnd].
  destruct (IH (delete l hp) vs fuel) as (hp' & ns & E & Ens & Hhp);
    [by apply chain_delete|done|cbn in Hf; lia|].
  cbn. rewrite H1. cbn. rewrite E. cbn. eexists _, _. split; [done|]. split.
  - cbn. rewrite Ens. f_equal. unfold unlinked in H2. destruct v; cbn in *; by subst.
  - intros l'. rewrite Hhp. destruct (decide (l' = l)) as [->|Hne].
    + rewrite lookup_delete_eq, (decide_True (P := l ∈ l :: ls)) by set_solver. by case_decide.
    + rewrite lookup_delete_ne by done. repeat case_decide; set_solver.
Qed.

(** ** Each operation *)
Lemma link_rest_none v : unlinked v → with_next v None = v.
Proof. unfold unlinked. destruct v; cbn. by intros ->. Qed.

Section Ops.
Context (hp : Heap) (q : AccLinkedMessageQueue) (ls : list loc) (vs : list Msg).
Context (held : option (loc * Msg)).
Context (Hq : queue_rep hp q ls vs) (Hh : held_rep hp ls held) (Hsz : len ls < 2 ^ 32 - 1).

Lemma len_vs : len vs = len ls.
Proof. unfold len. by rewrite (chain_length _ _ _ (qr_chain _ _ _ _ Hq)). Qed.

(** A full queue refuses, otherwise the message is the last one; what the worker
    holds is untouched. *)
Lemma EnqueueBack_spec h d ctx :
  ∃ hp' q' ls' r, EnqueueBack false hp q h (Some d) ctx = Some (hp', q', r) ∧
    sizeCap_ q' = sizeCap_ q ∧ held_rep hp' ls' held ∧
    ls ⊆ ls' ∧ (∀ l, l ∈ dom hp' → l ∈ dom hp ∨ l ∈ ls') ∧
    if sizeCap_ q <=? len vs then r = ACC_QUEUE_IS_FULL ∧ ls' = ls ∧ q' = q ∧ queue_rep hp' q' ls' vs
    else r = ACC_OK ∧ queue_rep hp' q' ls' (vs ++ [new_node h d ctx]).
Proof.
  destruct Hq as [Hc Hnd Hhd Htl Hsize]. rewrite len_vs.
  unfold EnqueueBack. set (l := fresh (dom hp)).
  assert (l ∉ dom hp) as Hfr by apply is_fresh.
  assert (hp !! l = None) as Hno by (by apply not_elem_of_dom).
  assert (l ∉ ls) as Hnin by (intros Hl; by eapply Hfr, chain_dom).
  rewrite Hsize. destruct (sizeCap_ q <=? len ls).
  { eexists _, _, ls, _. split; [done|]. rewrite delete_insert_id by done.
    split_and!; auto. }
  rewrite u32_small by (pose proof (len_nonneg ls); lia).
  assert (∀ hp2, (∀ l' n, l' ∉ ls → hp !! l' = Some n → hp2 !! l' = Some n) →
    held_rep hp2 (ls ++ [l]) held) as Hheld.
  { intros hp2 Hp. destruct held as [[lh vh]|]; [|done].
    destruct Hh as (H1 & H2 & nx & H3 & H4).
    split; [|split; [done|]].
    - rewrite elem_of_app, list_elem_of_singleton. intros [? | ->]; [done|congruence].
    - exists nx. split; [by apply Hp|]. destruct H4 as [-> | ->]; [by left|].
      destruct ls; [by left|by right]. }
  rewrite Hhd. destruct ls as [|l0 ls0] eqn:Els; cbn [head].
  - destruct vs; [|done]. eexists _, _, [l], _. split; [done|]. cbn. split; [done|]. split; [|split; [set_solver|split; [set_solver|split; [done|]]]].
    + apply Hheld. intros l' n _ Hl'. rewrite lookup_insert_ne; [done|congruence].
    + split; cbn; try done; [|apply NoDup_singleton]. by rewrite lookup_insert_eq.
  - rewrite <- Els in *. destruct (last ls) as [tl|] eqn:Elast; [|by apply last_None in Elast; congruence].
    rewrite Htl. cbn.
    destruct (chain_snoc (<[l := new_node h d ctx]> hp) ls vs tl l (new_node h d ctx)) as (n & Hn & Hc');
      try done; [by apply chain_ne|by rewrite lookup_insert_eq|].
    rewrite Hn. cbn. eexists _, _, (ls ++ [l]), _. split; [done|]. cbn. split; [done|]. split; [|split; [set_solver|split; [|split; [done|]]]].
    + apply Hheld. intros l' n' Hl' Hlk. rewrite !lookup_insert_ne; [done|congruence|].
      intros ->. by apply Hl', last_Some_elem_of.
    + intros l'. apply last_Some_elem_of in Elast. set_solver.
    + split; cbn; [done| | | |].
      * apply NoDup_app. split_and!; [done|set_solver|apply NoDup_singleton].
      * by rewrite ?Hhd, Els.
      * by rewrite last_snoc.
      * rewrite len_app. done.
Qed.

Lemma DequeueFront_spec :
  match vs with
  | [] => DequeueFront hp q = Some (q, None)
  | v :: vs' => ∃ q' l ls', DequeueFront hp q = Some (q', Some l) ∧ ls = l :: ls' ∧
      sizeCap_ q' = sizeCap_ q ∧ queue_rep hp q' ls' vs' ∧ held_rep hp ls' (Some (l, v))
  end.
Proof.
  clear Hh held.
  destruct Hq as [Hc Hnd Hhd Htl Hsize]. unfold DequeueFront. rewrite Hsize, Hhd.
  destruct ls as [|l ls'], vs as [|v vs']; try done. destruct Hc as (H1 & H2 & H3).
  apply NoDup_cons in Hnd as [Hnin Hnd]. change (len (l :: ls')) with (Z.of_nat (S (length ls'))).
  rewrite (proj2 (Z.eqb_neq _ 0)) by lia. unfold len in Hsz. cbn [length] in Hsz.
  assert (held_rep hp ls' (Some (l, v))) as Hheld.
  { split; [done|]. split; [done|]. exists (head ls'). auto. }
  rewrite u32_small by lia. destruct (Z.eqb_spec (Z.of_nat (S (length ls'))) 1) as [E|E].
  - destruct ls' as [|l2 ls2]; [|cbn in E; lia]. destruct vs'; [|done].
    eexists _, l, []. split_and!; done.
  - destruct ls' as [|l2 ls2]; [cbn in E; lia|]. cbn [head mbind option_bind]. rewrite H1. cbn.
    eexists _, l, (l2 :: ls2). do 3 (split; [done|]). split; [|done].
    split; try done. unfold len. cbn [size_ with_list length]. lia.
Qed.
End Ops.

(** The worker puts the node back, with what is left of it. *)
Lemma EnqueueFront_spec hp q ls vs l v :
  queue_rep hp q ls vs → held_rep hp ls (Some (l, v)) → len ls < 2 ^ 32 - 1 →
  ∃ hp' q', EnqueueFront hp q (Some l) = Some (hp', q', ACC_OK) ∧
    sizeCap_ q' = sizeCap_ q ∧ dom hp' = dom hp ∧ queue_rep hp' q' (l :: ls) (v :: vs).
Proof.
  intros [Hc Hnd Hhd Htl Hsize] (Hnin & Hv & nx & Hl & Hnx) Hsz. unfold EnqueueFront.
  assert (u32 (size_ q + 1) = len (l :: ls)) as Hsz'.
  { rewrite Hsize, u32_small by (pose proof (len_nonneg ls); lia). unfold len. cbn [length]. lia. }
  rewrite Hhd, Hsz'. destruct ls as [|l2 ls2]; cbn [head].
  - destruct vs; [|done]. eexists _, _. split; [done|]. split; [done|]. split; [done|].
    split; cbn; try done; [|apply NoDup_singleton]. destruct Hnx as [-> | ->]; done.
  - rewrite Hl. cbn [mbind option_bind]. eexists _, _. split; [done|]. split; [done|].
    split; [rewrite dom_insert_L; apply elem_of_dom_2 in Hl; set_solver|].
    split; cbn [with_list headNode_ tailNode_ size_]; [|by apply NoDup_cons|done|by rewrite Htl|done].
    split; [by rewrite lookup_insert_eq|]. split; [done|]. by apply chain_ne.
Qed.

(** Updating and deleting the held node leaves the queue alone. *)
Lemma held_update hp q ls vs l v hr dr :
  queue_rep hp q ls vs → held_rep hp ls (Some (l, v)) →
  ∃ n, hp !! l = Some n ∧ queue_rep (<[l := with_remain n hr dr]> hp) q ls vs ∧
    held_rep (<[l := with_remain n hr dr]> hp) ls (Some (l, with_remain v hr dr)).
Proof.
  intros [Hc Hnd Hhd Htl Hsize] (Hnin & Hv & nx & Hl & Hnx). eexists. split; [done|]. split.
  - split; try done. by apply chain_ne.
  - split; [done|]. split; [done|]. exists nx. rewrite lookup_insert_eq. done.
Qed.
Lemma held_free hp q ls vs l v :
  queue_rep hp q ls vs → held_rep hp ls (Some (l, v)) →
  free_node hp l = Some (delete l hp) ∧ queue_rep (delete l hp) q ls vs.
Proof.
  intros [Hc Hnd Hhd Htl Hsize] (Hnin & Hv & nx & Hl & Hnx). unfold free_node. rewrite Hl.
  split; [done|]. split; try done. by apply chain_delete.
Qed.

(** ** Runs

    The calls that reach one queue: enqueues from any thread, and the worker's
    dequeue, the update of what is left of the node it holds, its push back or its
    deletion, and the flush of a broken link (the queue's messages are taken away
    and walked). *)
Inductive QOp :=
| QSend (oom : bool) (h : AccMsgHeader) (d : option bytes) (ctx : Z)
| QTake
| QUpdate (hr dr : Z)
| QPush
| QDrop
| QFlush.
Inductive QOut :=
| RCode (r : Z)
| RNode (n : option Msg)
| RNodes (ns : list Msg)
| RUnit.

Abbreviation erase := (λ n, with_next n None).

(** The code. *)
Definition q_exec (s : Heap * AccLinkedMessageQueue * option loc) (o : QOp)
    : option (Heap * AccLinkedMessageQueue * option loc * QOut) :=
  let '(hp, q, held) := s in
  match o, held with
  | QSend oom h d ctx, _ =>
      r ← EnqueueBack oom hp q h d ctx; Some (r.1.1, r.1.2, held, RCode r.2)
  | QTake, None =>
      r ← DequeueFront hp q;
      match r.2 with
      | None => Some (hp, r.1, None, RNode None)
      | Some l => n ← hp !! l; Some (hp, r.1, Some l, RNode (Some (erase n)))
      end
  | QUpdate hr dr, Some l => n ← hp !! l; Some (<[l := with_remain n hr dr]> hp, q, held, RUnit)
  | QPush, Some l => r ← EnqueueFront hp q (Some l); Some (r.1.1, r.1.2, None, RCode r.2)
  | QDrop, Some l => hp' ← free_node hp l; Some (hp', q, None, RUnit)
  | QFlush, None =>
      let '(q', l) := TakeAwayMessages q in
      r ← delete_chain (size hp) hp l; Some (r.1, q', None, RNodes (erase <$> r.2))
  | _, _ => None
  end.

(** A bounded FIFO queue with the message that is being sent. *)
Definition a_exec (cap : Z) (s : list Msg * option Msg) (o : QOp)
    : option (list Msg * option Msg * QOut) :=
  let '(vs, held) := s in
  match o, held with
  | QSend _ _ None _, _ => Some (vs, held, RCode ACC_INVALID_PARAM)
  | QSend true _ _ _, _ => Some (vs, held, RCode ACC_NEW_OBJECT_FAIL)
  | QSend false h (Some d) ctx, _ =>
      if cap <=? len vs then Some (vs, held, RCode ACC_QUEUE_IS_FULL)
      else Some (vs ++ [new_node h d ctx], held, RCode ACC_OK)
  | QTake, None =>
      match vs with
      | [] => Some ([], None, RNode None)
      | v :: vs' => Some (vs', Some v, RNode (Some v))
      end
  | QUpdate hr dr, Some v => Some (vs, Some (with_remain v hr dr), RUnit)
  | QPush, Some v => Some (v :: vs, None, RCode ACC_OK)
  | QDrop, Some _ => Some (vs, None, RUnit)
  | QFlush, None => Some ([], None, RNodes vs)
  | _, _ => None
  end.

Section Run.
Context {St : Type} (exec : St → QOp → option (St * QOut)).
Fixpoint q_run (s : St) (ops : list QOp) : option (St * list QOut) :=
  match ops with
  | [] => Some (s, [])
  | o :: ops' => r ← exec s o; r' ← q_run r.1 ops'; Some (r'.1, r.2 :: r'.2)
  end.
End Run.

(** The invariant of a run: the queue and the held node are all the heap has. *)
Record q_rel (cap : Z) (c : Heap * AccLinkedMessageQueue * option loc) (a : list Msg * option Msg) : Prop := {
  rel_cap : sizeCap_ c.1.2 = cap;
  rel_rep : ∃ ls h, queue_rep c.1.1 c.1.2 ls a.1 ∧ held_rep c.1.1 ls h ∧
    fst <$> h = c.2 ∧ snd <$> h = a.2 ∧
    ∀ l, l ∈ dom c.1.1 → l ∈ ls ∨ c.2 = Some l;
  rel_len : len a.1 ≤ cap + (if a.2 is Some _ then 0 else 1);
}.

Lemma q_rel_init cap : 0 ≤ cap → q_rel cap (∅, queue_new cap, None) ([], None).
Proof.
  intros Hc. split; cbn; [done| |unfold len; cbn; lia]. exists [], None. split_and!; try done.
  by split; try constructor.
Qed.

Lemma flush_spec hp q ls vs :
  queue_rep hp q ls vs → (∀ l, l ∈ dom hp → l ∈ ls) →
  ∃ ns, delete_chain (size hp) hp (headNode_ q) = Some (∅, ns) ∧ erase <$> ns = vs.
Proof.
  intros [Hc Hnd Hhd Htl Hsize] Hd. rewrite Hhd.
  destruct (delete_chain_spec hp ls vs (size hp) Hc Hnd) as (hp' & ns & E & Ens & Hhp).
  - rewrite <- size_dom, <- (size_list_to_set (C := gset loc)) by done.
    apply subseteq_size. intros l Hl. apply elem_of_list_to_set in Hl. by eapply chain_dom.
  - exists ns. split; [|done]. rewrite E. do 2 f_equal. apply map_empty. intros l. rewrite Hhp.
    case_decide as Hl; [done|]. apply not_elem_of_dom. auto.
Qed.

Section Step.
Context (cap : Z) (Hcap : 0 ≤ cap < 2 ^ 16).
Context (hp : Heap) (q : AccLinkedMessageQueue) (ls : list loc) (vs : list Msg) (h : option (loc * Msg)).
Context (Hc : sizeCap_ q = cap) (Hq : queue_rep hp q ls vs) (Hh : held_rep hp ls h).
Context (Hd : ∀ l, l ∈ dom hp → l ∈ ls ∨ fst <$> h = Some l).
Context (Hl : len vs ≤ cap + (if snd <$> h is Some _ then 0 else 1)).

Lemma small_ls : len ls < 2 ^ 32 - 1.
Proof. rewrite <- (len_vs _ _ _ _ Hq). destruct h; cbn in Hl; lia. Qed.

Lemma sim_send oom hd d ctx a' out :
  a_exec cap (vs, snd <$> h) (QSend oom hd d ctx) = Some (a', out) →
  ∃ c', q_exec (hp, q, fst <$> h) (QSend oom hd d ctx) = Some (c', out) ∧ q_rel cap c' a'.
Proof.
  pose proof small_ls as Hs.
  assert (q_rel cap (hp, q, fst <$> h) (vs, snd <$> h)) as Hsame.
  { split; cbn; [done|by exists ls, h|done]. }
  destruct d as [d|], oom; try (intros [= <- <-]; eexists; split; [reflexivity|done]).
  destruct (EnqueueBack_spec hp q ls vs h Hq Hh Hs hd d ctx)
    as (hp' & q' & ls' & r & E & Ec & Hh' & Hsub & Hdom & Hr).
  cbn [a_exec q_exec]. rewrite E. cbn. rewrite <- Hc. destruct (sizeCap_ q <=? len vs) eqn:Hfull.
  - destruct Hr as (-> & -> & -> & Hq'). intros [= <- <-]. eexists. split; [done|].
    split; cbn; [congruence| |by rewrite Hc]. exists ls, h. split_and!; try done.
    intros l [?%Hd|?]%Hdom; auto.
  - destruct Hr as [-> Hq']. intros [= <- <-]. eexists. split; [done|].
    split; cbn; [congruence| |].
    + exists ls', h. split_and!; try done. intros l [[Hin|?]%Hd|?]%Hdom; auto.
    + rewrite len_app. unfold len at 2. cbn [length]. destruct (snd <$> h); lia.
Qed.
End Step.

Local Arguments EnqueueFront : simpl never.
Local Arguments free_node : simpl never.
Local Arguments delete_chain : simpl never.

Lemma sim_worker cap c a o a' out :
  0 ≤ cap < 2 ^ 16 → q_rel cap c a → (∀ oom h d ctx, o ≠ QSend oom h d ctx) →
  a_exec cap a o = Some (a', out) → ∃ c', q_exec c o = Some (c', out) ∧ q_rel cap c' a'.
Proof.
  intros Hcap [Hc (ls & h & Hq & Hh & Hf & Hs & Hd) Hl] Hns.
  destruct c as [[hp q] hl], a as [vs hv]. cbn in *. subst hl hv.
  assert (len ls < 2 ^ 32 - 1) as Hsm by (rewrite <- (len_vs _ _ _ _ Hq); destruct h; cbn in Hl; lia).
  destruct o as [oom hd d ctx| |hr dr| | |], h as [[l v]|]; cbn [a_exec q_exec fmap option_fmap option_map fst snd];
    try done; [by edestruct Hns..| | | | |].
  - pose proof (DequeueFront_spec hp q ls vs Hq Hsm) as Hdq. destruct vs as [|v vs].
    + rewrite Hdq. intros [= <- <-]. eexists. split; [done|]. split; cbn; [done| |done]. by exists ls, None.
    + destruct Hdq as (q' & l & ls' & E & -> & Ec & Hq' & Hh'). rewrite E. cbn.
      destruct Hh' as (Hnin & Hv & nx & Hlk & Hnx). rewrite Hlk. intros [= <- <-]. eexists. split.
      { cbn [mbind option_bind]. change (with_next (with_next v nx) None) with (with_next v None).
        by rewrite link_rest_none. }
      split; cbn; [congruence| |rewrite len_cons in Hl; cbn in Hl; lia].
      exists ls', (Some (l, v)). split_and!; try done; [naive_solver|].
      intros l' [[-> | ?]%elem_of_cons|[=]]%Hd; auto.
  - destruct (held_update hp q ls vs l v hr dr Hq Hh) as (n & Hn & Hq' & Hh').
    rewrite Hn. intros [= <- <-]. eexists. split; [done|]. split; cbn; [done| |done].
    exists ls, (Some (l, with_remain v hr dr)). split_and!; try done; [apply Hh'..|].
    intros l'. rewrite dom_insert_L. intros [->%elem_of_singleton|?]%elem_of_union; auto.
  - destruct (EnqueueFront_spec hp q ls vs l v Hq Hh Hsm) as (hp' & q' & E & Ec & Hdom & Hq').
    rewrite E. intros [= <- <-]. eexists. split; [done|]. split; cbn; [congruence| |rewrite len_cons; cbn in Hl; lia].
    exists (l :: ls), None. split_and!; try done. intros l'. rewrite Hdom.
    intros [?|[= ->]]%Hd; left; set_solver.
  - destruct (held_free hp q ls vs l v Hq Hh) as [E Hq']. rewrite E.
    intros [= <- <-]. eexists. split; [done|]. split; cbn; [done| |cbn in Hl; lia].
    exists ls, None. split_and!; try done. intros l'. rewrite dom_delete_L.
    intros [[?|[= ->]]%Hd ?]%elem_of_difference; set_solver.
  - destruct (flush_spec hp q ls vs Hq) as (ns & E & Ens); [intros l' [?|?]%Hd; done|].
    rewrite E. intros [= <- <-]. eexists. split; [by cbn; rewrite Ens|].
    assert (with_list q 0 None None = queue_new cap) as -> by (unfold with_list; by rewrite Hc).
    apply q_rel_init. lia.
Qed.

Lemma q_step_sim cap c a o a' out :
  0 ≤ cap < 2 ^ 16 → q_rel cap c a → a_exec cap a o = Some (a', out) →
  ∃ c', q_exec c o = Some (c', out) ∧ q_rel cap c' a'.
Proof.
  intros Hcap Hr E. destruct o as [oom hd d ctx| | | | |]; try by eapply sim_worker.
  destruct Hr as [Hc (ls & h & Hq & Hh & Hf & Hs & Hd) Hl], c as [[hp q] hl], a as [vs hv].
  cbn [fst snd] in *. subst hl hv. by eapply sim_send.
Qed.

Lemma q_run_sim cap ops c a a' outs :
  0 ≤ cap < 2 ^ 16 → q_rel cap c a → q_run (a_exec cap) a ops = Some (a', outs) →
  ∃ c', q_run q_exec c ops = Some (c', outs) ∧ q_rel cap c' a'.
Proof.
  intros Hcap. revert c a outs. induction ops as [|o ops IH]; intros c a outs Hr; cbn.
  { intros [= <- <-]. eauto. }
  intros ([a1 o1] & E1 & ([a2 os] & E2 & [= <- <-])%bind_Some)%bind_Some.
  destruct (q_step_sim _ _ _ _ _ _ Hcap Hr E1) as (c1 & F1 & Hr1).
  destruct (IH _ _ _ Hr1 E2) as (c2 & F2 & Hr2). exists c2. by rewrite F1; cbn; rewrite F2.
Qed.

(** * Properties *)

(** C38: the pointer-level queue is a bounded FIFO queue.  For every sequence of
    calls in which only one worker dequeues (what it holds it updates, pushes back
    in front or deletes before it dequeues again) and anybody enqueues at any
    moment, the queue never follows a null, stale or freed pointer, answers
    exactly as a list bounded by its capacity would, and when the worker holds
    nothing, destroying the queue frees every node there is. *)
Theorem queue_refines_fifo cap ops vs held outs :
  0 ≤ cap < 2 ^ 16 →
  q_run (a_exec cap) ([], None) ops = Some ((vs, held), outs) →
  ∃ hp q l, q_run q_exec (∅, queue_new cap, None) ops = Some ((hp, q, l), outs) ∧
    GetSize q = len vs ∧ (held = None → queue_destroy hp q = Some ∅).
Proof.
  intros Hcap E.
  destruct (q_run_sim cap ops (∅, queue_new cap, None) ([], None) (vs, held) outs)
    as ([[hp q] l] & F & Hr); [done|apply q_rel_init; lia|done|].
  exists hp, q, l. split; [done|]. destruct Hr as [_ (ls & h & Hq & Hh & Hf & Hs & Hd) _]. cbn in *.
  split; [unfold GetSize; by rewrite (qr_size _ _ _ _ Hq), (len_vs _ _ _ _ Hq)|].
  intros ->. destruct h; [done|]. cbn in Hf. subst l.
  destruct (flush_spec hp q ls vs Hq) as (ns & E' & _); [intros l' [?|?]%Hd; done|].
  unfold queue_destroy. by rewrite E'.
Qed.

Lemma queue_refines_fifo_witness :
  ∃ hp q l,
    q_run q_exec (∅, queue_new 2, None)
      [QSend false (mkHeader 1 0 1 7 0) (Some [Byte.x01]) 0;
       QSend false (mkHeader 1 0 1 8 0) (Some [Byte.x02]) 0; QTake;
       QSend false (mkHeader 1 0 1 9 0) (Some [Byte.x03]) 0;
       QSend false (mkHeader 1 0 1 5 0) (Some [Byte.x04]) 0; QUpdate 0 1; QPush; QFlush]
    = Some ((hp, q, l),
        [RCode ACC_OK; RCode ACC_OK; RNode (Some (new_node (mkHeader 1 0 1 7 0) [Byte.x01] 0));
         RCode ACC_OK; RCode ACC_QUEUE_IS_FULL; RUnit; RCode ACC_OK;
         RNodes [with_remain (new_node (mkHeader 1 0 1 7 0) [Byte.x01] 0) 0 1;
                 new_node (mkHeader 1 0 1 8 0) [Byte.x02] 0;
                 new_node (mkHeader 1 0 1 9 0) [Byte.x03] 0]]) ∧
    GetSize q = 0 ∧ (None (A := Msg) = None → queue_destroy hp q = Some ∅).
Proof.
  eapply (queue_refines_fifo 2 _ []).
  - lia.
  - vm_compute. reflexivity.
Defined.
