(* ===== verification/AccLink.v ===== *)
(** * The links (src/src/acc_links/csrc)

    A link of the TCP message transport: the receive state machine and the send
    path of acc_tcp_link_complex_default, the data buffer of acc_tcp_shared_buf,
    the blocking calls of acc_tcp_link_default.h and the worker's treatment of one
    epoll event (acc_tcp_worker.h).

    The socket is a class: what recv, write, send and their TLS counterparts
    answer is an argument.  [alloc] is the outcome of a [new (std::nothrow)]:
    failed, or memory with some content.  An access outside a buffer or through a
    null or freed pointer is [None]. *)
From Stdlib Require Import Strings.Byte.
From stdpp Require Import base numbers list gmap.
From S2P Require Import Prelude AccQueue.
Local Open Scope Z_scope.
Local Open Scope mf_scope.

Definition EPERM : Z := 1.
Definition EINTR : Z := 4.
Definition EBADF : Z := 9.
Definition EAGAIN : Z := 11.
Definition EPIPE : Z := 32.
Definition ENETDOWN : Z := 100.
Definition ENETUNREACH : Z := 101.
Definition ECONNRESET : Z := 104.
Definition EISCONN : Z := 106.
Definition ENOTCONN : Z := 107.
Definition ETIMEDOUT : Z := 110.
Definition ECONNREFUSED : Z := 111.
Definition MIN_MSG_TYPE : Z := 0.
Definition MAX_MSG_TYPE : Z := 48.

(** ** The socket *)
Class Socket (K : Type) := {
  sock_recv : K → Z → K * Z * bytes;   (* up to n bytes: result and what was read *)
  SslRead : K → Z → K * Z * bytes;
  sock_write : K → bytes → K * Z;
  SslWrite : K → bytes → K * Z;
  errno : K → Z;
  SslGetError : K → Z → Z;
}.

(** What the manual pages say: a positive result is the number of bytes moved,
    which are the next ones of the stream; any other result moves nothing.
    [incoming] is what is still to be read of all the peer sends, [outgoing] what
    has been written so far. *)
Class SocketLaws (K : Type) `{Socket K} := {
  incoming : K → bytes;
  outgoing : K → bytes;
  recv_law (ssl : bool) k n k' r b :
    (if ssl then SslRead k n else sock_recv k n) = (k', r, b) →
    outgoing k' = outgoing k ∧
    (0 < r → len b = r ∧ r ≤ n ∧ incoming k = b ++ incoming k') ∧
    (r ≤ 0 → incoming k' = incoming k);
  write_law (ssl : bool) k d k' r :
    (if ssl then SslWrite k d else sock_write k d) = (k', r) →
    incoming k' = incoming k ∧
    (0 < r → r ≤ len d ∧ outgoing k' = outgoing k ++ take (Z.to_nat r) d) ∧
    (r ≤ 0 → outgoing k' = outgoing k);
}.

(** ** The data buffer *)
Record AccDataBuffer := mkBuffer {
  dataSize_ : Z;
  memSize_ : Z;
  bdata_ : option bytes;     (* null, or memSize_ bytes *)
}.
Definition new_mem (alloc : option byte) (n : Z) : option bytes :=
  junk ← alloc; Some (replicate (Z.to_nat n) junk).
Definition buffer_new (alloc : option byte) (memSize : Z) : AccDataBuffer :=
  mkBuffer 0 memSize (new_mem alloc memSize).
Definition AllocIfNeed (alloc : option byte) (b : AccDataBuffer) (newSize : Z) : AccDataBuffer * bool :=
  if MAX_RECV_BODY_LEN <? newSize then (b, false) else
  let grown := mkBuffer (dataSize_ b) (Z.max (memSize_ b) newSize)
                 (new_mem alloc (Z.max (memSize_ b) newSize)) in
  match bdata_ b with
  | None => (grown, bool_decide (is_Some (bdata_ grown)))
  | Some _ =>
      if memSize_ b <? newSize then (grown, bool_decide (is_Some (bdata_ grown))) else (b, true)
  end.
Definition SetDataSize (b : AccDataBuffer) (size : Z) : AccDataBuffer :=
  mkBuffer size (memSize_ b) (bdata_ b).

(** ** The link *)
Record AccLinkReceiveState := mkRecv {
  headerToBeReceived : Z;   (* uint16_t *)
  bodyToBeReceived : Z;     (* ssize_t *)
}.
Definition recv_state_new : AccLinkReceiveState := mkRecv sizeof_header (-1).
Definition ShouldReceiveHeader (s : AccLinkReceiveState) : bool := 0 <? headerToBeReceived s.
Definition ReceivedHeaderLen (s : AccLinkReceiveState) : Z :=
  if headerToBeReceived s <? sizeof_header then sizeof_header - headerToBeReceived s else 0.
Definition ResetHeader (s : AccLinkReceiveState) : AccLinkReceiveState := mkRecv sizeof_header (-1).
Definition BodySatisfied (s : AccLinkReceiveState) (newReceivedSize : Z) : AccLinkReceiveState * bool :=
  let b := if newReceivedSize <? bodyToBeReceived s then bodyToBeReceived s - newReceivedSize else 0 in
  (mkRecv (headerToBeReceived s) b, b =? 0).
Definition HeaderSatisfied (s : AccLinkReceiveState) (newReceivedHeader : Z) : AccLinkReceiveState * bool :=
  let h := if newReceivedHeader <? headerToBeReceived s then headerToBeReceived s - newReceivedHeader else 0 in
  (mkRecv h (bodyToBeReceived s), h =? 0).

Record AccTcpLinkComplexDefault := mkLink {
  established_ : bool;
  receiveState_ : AccLinkReceiveState;
  header_ : bytes;                           (* the memory of the header *)
  data_ : option AccDataBuffer;
  queue_ : option AccLinkedMessageQueue;
  seqNo_ : Z;                                (* uint32_t *)
  workerIndex_ : Z;
  worker_ : bool;                            (* the worker pointer is set *)
}.
Definition set_rx (L : AccTcpLinkComplexDefault) (s : AccLinkReceiveState) (h : bytes)
    (d : option AccDataBuffer) : AccTcpLinkComplexDefault :=
  mkLink (established_ L) s h d (queue_ L) (seqNo_ L) (workerIndex_ L) (worker_ L).
Definition set_queue (L : AccTcpLinkComplexDefault) (q : option AccLinkedMessageQueue)
    : AccTcpLinkComplexDefault :=
  mkLink (established_ L) (receiveState_ L) (header_ L) (data_ L) q (seqNo_ L) (workerIndex_ L) (worker_ L).
Definition set_seqNo (L : AccTcpLinkComplexDefault) (n : Z) : AccTcpLinkComplexDefault :=
  mkLink (established_ L) (receiveState_ L) (header_ L) (data_ L) (queue_ L) n (workerIndex_ L) (worker_ L).
Definition link_new : AccTcpLinkComplexDefault :=
  mkLink false recv_state_new (header_bytes (mkHeader 0 0 0 0 0)) None None 0 0 false.

(** [alloc]: of the buffer; the queue and the worker pointer are given. *)
Definition Initialize (alloc : option byte) (L : AccTcpLinkComplexDefault)
    (sendQueueCap workIndex : Z) (worker : bool) : AccTcpLinkComplexDefault * Z :=
  if negb (sendQueueCap <? UNO_256) then (L, ACC_INVALID_PARAM) else
  if negb worker then (L, ACC_INVALID_PARAM) else
  let L := set_queue L (Some (queue_new sendQueueCap)) in
  let d := buffer_new alloc 1024 in
  let L := set_rx L (receiveState_ L) (header_ L) (Some d) in
  match bdata_ d with
  | None => (L, ACC_NEW_OBJECT_FAIL)
  | Some _ =>
      (mkLink true recv_state_new (header_bytes (mkHeader 0 0 0 0 0)) (Some d) (queue_ L) (seqNo_ L)
         (u32 workIndex) true, ACC_OK)
  end.
Definition UnInitialize (L : AccTcpLinkComplexDefault) : AccTcpLinkComplexDefault :=
  mkLink (established_ L) (receiveState_ L) (header_ L) None None (seqNo_ L) (workerIndex_ L) false.
(** The compare-and-swap of [established_]. *)
Definition Break (L : AccTcpLinkComplexDefault) : AccTcpLinkComplexDefault * bool :=
  (mkLink false (receiveState_ L) (header_ L) (data_ L) (queue_ L) (seqNo_ L) (workerIndex_ L) (worker_ L),
   established_ L).

(** ** Receiving *)
Section Link.
Context {K : Type} `{Socket K}.
Context (ssl : bool).          (* ssl_ is not null *)

Definition PollInRecv (k : K) (n : Z) : K * Z * bytes :=
  if ssl then SslRead k n else sock_recv k n.
Definition PollOutWrite (k : K) (d : bytes) : K * Z :=
  if ssl then SslWrite k d else sock_write k d.

(** Bytes [b] stored at [off]. *)
Definition poke (mem : bytes) (off : Z) (b : bytes) : bytes :=
  take (Z.to_nat off) mem ++ b ++ drop (Z.to_nat off + length b) mem.
(** Receive up to [n] bytes to offset [off] of [mem]. *)
Definition recv_into (k : K) (mem : bytes) (off n : Z) : option (K * Z * bytes) :=
  if (off <? 0) || (n <? 0) || (len mem <? off + n) then None else
  let '(k, r, b) := PollInRecv k n in
  Some (k, r, if 0 <? r then poke mem off b else mem).

Definition recv_failed (k : K) : Z :=
  if (errno k =? ECONNRESET) || (errno k =? 0) then ACC_LINK_ERROR
  else if errno k =? EAGAIN then ACC_LINK_EAGAIN else ACC_LINK_ERROR.

Definition poll_in_body (k : K) (L : AccTcpLinkComplexDefault)
    : option (K * AccTcpLinkComplexDefault * Z) :=
  buf ← data_ L;
  mem ← bdata_ buf;
  let bl := bodyLen (header_of (header_ L)) in
  let s := receiveState_ L in
  r ← recv_into k mem (bl -64 u64 (bodyToBeReceived s)) (bodyToBeReceived s);
  let '(k, result, mem) := r in
  let buf := mkBuffer (dataSize_ buf) (memSize_ buf) (Some mem) in
  if 0 <? result then
    let '(s, full) := BodySatisfied s result in
    if full : bool then Some (k, set_rx L (ResetHeader s) (header_ L) (Some (SetDataSize buf bl)), ACC_LINK_MSG_READY)
    else Some (k, set_rx L s (header_ L) (Some buf), ACC_LINK_EAGAIN)
  else Some (k, set_rx L s (header_ L) (Some buf), recv_failed k).

Definition HandlePollIn (alloc : option byte) (k : K) (L : AccTcpLinkComplexDefault)
    : option (K * AccTcpLinkComplexDefault * Z) :=
  let s := receiveState_ L in
  if ShouldReceiveHeader s then
    r ← recv_into k (header_ L) (ReceivedHeaderLen s) (headerToBeReceived s);
    let '(k, result, hdr) := r in
    if 0 <? result then
      let '(s, full) := HeaderSatisfied s (u16 result) in
      if full : bool then
        buf ← data_ L;
        let bl := bodyLen (header_of hdr) in
        let '(buf, ok) := AllocIfNeed alloc buf bl in
        if negb ok then Some (k, set_rx L (ResetHeader s) hdr (Some buf), ACC_MALLOC_FAIL) else
        poll_in_body k
          (set_rx L (mkRecv (headerToBeReceived s) bl) hdr (Some (SetDataSize buf 0)))
      else Some (k, set_rx L s hdr (data_ L), ACC_LINK_EAGAIN)
    else Some (k, set_rx L s hdr (data_ L), recv_failed k)
  else poll_in_body k L.

(** ** Sending *)
Definition SendPostProcess (errorNumber : Z) : Z :=
  if errorNumber =? ECONNRESET then ACC_LINK_ERROR
  else if (errorNumber =? EAGAIN) || (errorNumber =? EPIPE) then ACC_LINK_EAGAIN
  else ACC_LINK_ERROR.

(** The outcome of a send: the code, and the header and context of the message,
    when there is one. *)
Definition PollOut : Type := Z * option (AccMsgHeader * Z).

(** First the message is taken out of the queue; other threads may enqueue
    between this and the rest. *)
Definition poll_out_take (hp : Heap) (L : AccTcpLinkComplexDefault)
    : option (AccTcpLinkComplexDefault * (PollOut + loc)) :=
  match queue_ L with
  | None => Some (L, inl (ACC_NOT_INITIALIZED, None))
  | Some q =>
      r ← DequeueFront hp q;
      Some (set_queue L (Some r.1), match r.2 with None => inl (ACC_OK, None) | Some l => inr l end)
  end.

Definition push_back (hp : Heap) (L : AccTcpLinkComplexDefault) (l : loc)
    : option (Heap * AccTcpLinkComplexDefault) :=
  q ← queue_ L;
  r ← EnqueueFront hp q (Some l);
  Some (r.1.1, set_queue L (Some r.1.2)).

(** One write for the part of the message that is due: [body] or header. *)
Definition poll_out_data (hp : Heap) (k : K) (L : AccTcpLinkComplexDefault) (l : loc)
    : option (Heap * K * AccTcpLinkComplexDefault * PollOut) :=
  n ← hp !! l;
  let info := Some (nheader n, cbCtx n) in
  if negb (DataSent n) then
    let '(k, result) := PollOutWrite k (take (Z.to_nat (dataRemain n)) (DataPtrToBeSend n)) in
    if 0 <? result then
      let '(n, all) := DataAllSent n (u32 result) in
      let hp := <[l := n]> hp in
      if negb all then r ← push_back hp L l; Some (r.1, k, r.2, (ACC_LINK_EAGAIN, info))
      else hp ← free_node hp l; Some (hp, k, L, (ACC_LINK_MSG_SENT, info))
    else hp ← free_node hp l; Some (hp, k, L, (SendPostProcess (errno k), info))
  else hp ← free_node hp l; Some (hp, k, L, (ACC_OK, info)).

Definition poll_out_send (hp : Heap) (k : K) (L : AccTcpLinkComplexDefault) (l : loc)
    : option (Heap * K * AccTcpLinkComplexDefault * PollOut) :=
  n ← hp !! l;
  if Sent n then Some (hp, k, L, (ACC_OK, None)) else
  let info := Some (nheader n, cbCtx n) in
  if negb (HeaderSent n) then
    let '(k, result) := PollOutWrite k (take (Z.to_nat (headerRemain n)) (HeaderPtrToBeSend n)) in
    if 0 <? result then
      let '(n, all) := HeaderAllSent n (u32 result) in
      let hp := <[l := n]> hp in
      if negb all then r ← push_back hp L l; Some (r.1, k, r.2, (ACC_LINK_EAGAIN, info)) else
      if DataSent n then hp ← free_node hp l; Some (hp, k, L, (ACC_LINK_MSG_SENT, info))
      else poll_out_data hp k L l
    else hp ← free_node hp l; Some (hp, k, L, (SendPostProcess (errno k), info))
  else poll_out_data hp k L l.

Definition HandlePollOut (hp : Heap) (k : K) (L : AccTcpLinkComplexDefault)
    : option (Heap * K * AccTcpLinkComplexDefault * PollOut) :=
  r ← poll_out_take hp L;
  match r.2 with
  | inl out => Some (hp, k, r.1, out)
  | inr l => poll_out_send hp k r.1 l
  end.

(** [epoll]: the result of the worker's ModifyLink. *)
Definition EnqueueAndModifyEpoll (oom : bool) (epoll : Z) (hp : Heap) (L : AccTcpLinkComplexDefault)
    (h : AccMsgHeader) (d : option bytes) (ctx : Z) : option (Heap * AccTcpLinkComplexDefault * Z) :=
  if negb (worker_ L) then Some (hp, L, ACC_ERROR) else
  q ← queue_ L;
  r ← EnqueueBack oom hp q h d ctx;
  let '(hp, q, result) := r in
  let L := set_queue L (Some q) in
  if negb (result =? ACC_OK) then Some (hp, L, result) else Some (hp, L, epoll).

(** The three sends: with the link's own number, a given number, and an op code. *)
Definition send_refused (L : AccTcpLinkComplexDefault) (msgType : Z) (d : option bytes) : option Z :=
  if negb ((MIN_MSG_TYPE <=? msgType) && (msgType <? MAX_MSG_TYPE)) then Some ACC_INVALID_PARAM else
  if bool_decide (d = None) then Some ACC_INVALID_PARAM else
  if negb (established_ L) then Some ACC_LINK_ERROR else None.
Definition NonBlockSend (oom : bool) (epoll : Z) (hp : Heap) (L : AccTcpLinkComplexDefault)
    (msgType : Z) (d : option bytes) (ctx : Z) : option (Heap * AccTcpLinkComplexDefault * Z) :=
  match send_refused L msgType d with
  | Some code => Some (hp, L, code)
  | None =>
      EnqueueAndModifyEpoll oom epoll hp (set_seqNo L (seqNo_ L +32 1))
        (mkHeader msgType 0 (u32 (len (default [] d))) (seqNo_ L) 0) d ctx
  end.
Definition NonBlockSend_seq (oom : bool) (epoll : Z) (hp : Heap) (L : AccTcpLinkComplexDefault)
    (msgType seqNo : Z) (d : option bytes) (ctx : Z) : option (Heap * AccTcpLinkComplexDefault * Z) :=
  match send_refused L msgType d with
  | Some code => Some (hp, L, code)
  | None =>
      EnqueueAndModifyEpoll oom epoll hp L (mkHeader msgType 0 (u32 (len (default [] d))) seqNo 0) d ctx
  end.
Definition NonBlockSend_op (oom : bool) (epoll : Z) (hp : Heap) (L : AccTcpLinkComplexDefault)
    (msgType opCode seqNo : Z) (d : option bytes) (ctx : Z)
    : option (Heap * AccTcpLinkComplexDefault * Z) :=
  match send_refused L msgType d with
  | Some code => Some (hp, L, code)
  | None =>
      EnqueueAndModifyEpoll oom epoll hp L (mkHeader msgType opCode (u32 (len (default [] d))) seqNo 0) d ctx
  end.

(** The reply through the context of a request with header [hd]; [L] is [None] for
    a null link. *)
Definition Reply (oom : bool) (epoll : Z) (hp : Heap) (L : option AccTcpLinkComplexDefault)
    (hd : AccMsgHeader) (result : Z) (d : option bytes)
    : option (Heap * option AccTcpLinkComplexDefault * Z) :=
  match d, L with
  | None, _ => Some (hp, L, ACC_INVALID_PARAM)
  | _, None => Some (hp, L, ACC_LINK_ERROR)
  | Some b, Some L0 =>
      if negb (established_ L0) then Some (hp, L, ACC_LINK_ERROR) else
      r ← EnqueueAndModifyEpoll oom epoll hp L0 (mkHeader (htype hd) result (u32 (len b)) (hseqNo hd) 0) d 0;
      Some (r.1.1, Some r.1.2, r.2)
  end.

(** ** One event of the worker

    What the worker does with the result: the calls it makes, in order. *)
Inductive Action :=
| NewRequest (h : AccMsgHeader) (d : bytes)
| RequestSent (res : Z) (h : AccMsgHeader) (ctx : Z)
| LinkBroken
| ModifyLink (events : Z).
Definition EPOLLIN : Z := 1.
Definition EPOLLOUT : Z := 4.
Definition EPOLLWRNORM : Z := 256.
Definition EPOLLET : Z := 2 ^ 31.
Definition EV_ALL : Z := Z.lor (Z.lor EPOLLIN EPOLLOUT) EPOLLET.
Definition MSG_SENT : Z := 0.
Definition MSG_LINK_BROKEN : Z := 2.

(** The message that the request context shows: the header and the data buffer up
    to its data size. *)
Definition ready_message (L : AccTcpLinkComplexDefault) : AccMsgHeader * bytes :=
  (header_of (header_ L),
   default [] (buf ← data_ L; mem ← bdata_ buf; Some (take (Z.to_nat (dataSize_ buf)) mem))).

Definition ProcessEvent (alloc : option byte) (hp : Heap) (k : K) (L : AccTcpLinkComplexDefault)
    (events : Z) : option (Heap * K * AccTcpLinkComplexDefault * list Action) :=
  if negb (Z.land events EPOLLIN =? 0) then
    r ← HandlePollIn alloc k L;
    let '(k, L, result) := r in
    let acts :=
      if result =? ACC_LINK_MSG_READY
      then [NewRequest (ready_message L).1 (ready_message L).2; ModifyLink EV_ALL]
      else if result =? ACC_LINK_EAGAIN then [ModifyLink EV_ALL]
      else if result =? ACC_LINK_ERROR then [LinkBroken] else [] in
    Some (hp, k, L, acts)
  else if negb (Z.land events EPOLLOUT =? 0) then
    r ← HandlePollOut hp k L;
    let '(hp, k, L, (result, info)) := r in
    let acts :=
      if result =? ACC_LINK_MSG_SENT
      then match info with Some (h, ctx) => [RequestSent MSG_SENT h ctx] | None => [] end
             ++ [ModifyLink EV_ALL]
      else if result =? ACC_LINK_EAGAIN then [ModifyLink EV_ALL]
      else if result =? ACC_LINK_ERROR then [ModifyLink EPOLLWRNORM] else [] in
    Some (hp, k, L, acts)
  else if negb (Z.land events EPOLLWRNORM =? 0) then Some (hp, k, L, [LinkBroken])
  else Some (hp, k, L, []).

(** ** The blocking calls

    The loops have no bound in the source (an interrupted call is repeated);
    [None] when the fuel is used up.  On a socket send(2) without flags is
    write(2). *)
Definition g_errnoToReconn : list Z :=
  [EPERM; EINTR; EBADF; EAGAIN; EPIPE; ECONNRESET; EISCONN; ENOTCONN; ETIMEDOUT; ENETDOWN; ENETUNREACH;
   ECONNREFUSED].
Definition SSL_ERROR_SSL : Z := 1.
Definition SSL_ERROR_SYSCALL : Z := 5.
Definition SSL_ERROR_ZERO_RETURN : Z := 6.
Definition g_errnoToReconnSsl : list Z := [SSL_ERROR_SSL; SSL_ERROR_ZERO_RETURN].
Definition set_count (x : Z) (l : list Z) : Z := if decide (x ∈ l) then 1 else 0.

Definition plain_error (k : K) : Z :=
  if 0 <? set_count (- errno k) g_errnoToReconn then ACC_LINK_NEED_RECONN else - errno k.
Definition ssl_error (k : K) (result : Z) : Z :=
  let sslErr := SslGetError k result in
  if 0 <? set_count sslErr g_errnoToReconnSsl then ACC_LINK_NEED_RECONN else
  if (sslErr =? SSL_ERROR_SYSCALL) && (0 <? set_count (- errno k) g_errnoToReconn)
  then ACC_LINK_NEED_RECONN else ACC_LINK_MSG_INVALID.

(** [data]: what remains to be sent. *)
Fixpoint block_send_loop (fuel : nat) (k : K) (data : bytes) : option (K * Z) :=
  match data with
  | [] => Some (k, ACC_OK)
  | _ =>
      match fuel with
      | O => None
      | S fuel' =>
          let '(k, result) := PollOutWrite k data in
          if ssl then
            if result <=? 0 then Some (k, ssl_error k result)
            else block_send_loop fuel' k (drop (Z.to_nat result) data)
          else
            if result <? 0 then
              if errno k =? EINTR then block_send_loop fuel' k data else Some (k, plain_error k)
            else block_send_loop fuel' k (drop (Z.to_nat result) data)
      end
  end.
(** [fd]: fd_ is not -1. *)
Definition BlockSend (fuel : nat) (fd : bool) (k : K) (data : option bytes) : option (K * Z) :=
  if negb fd then Some (k, ACC_CONNECTION_NOT_READY) else
  match data with
  | None => Some (k, ACC_INVALID_PARAM)
  | Some d => if len d =? 0 then Some (k, ACC_INVALID_PARAM) else block_send_loop fuel k d
  end.

(** [got]: what has been stored so far of the demanded length. *)
Fixpoint block_recv_loop (fuel : nat) (k : K) (remain : Z) (got : bytes) : option (K * Z * bytes) :=
  if remain =? 0 then Some (k, ACC_OK, got) else
  match fuel with
  | O => None
  | S fuel' =>
      let '(k, result, b) := PollInRecv k remain in
      let remain' := if remain <? result then 0 else remain -32 result in
      if ssl then
        if result <=? 0 then Some (k, ssl_error k result, got)
        else block_recv_loop fuel' k remain' (got ++ b)
      else
        if result <? 0 then
          if errno k =? EINTR then block_recv_loop fuel' k remain got else Some (k, plain_error k, got)
        else if result =? 0 then Some (k, ACC_LINK_ERROR, got)
        else block_recv_loop fuel' k remain' (got ++ b)
  end.
Definition BlockRecv (fuel : nat) (fd : bool) (k : K) (demandLen : Z) : option (K * Z * bytes) :=
  if negb fd then Some (k, ACC_CONNECTION_NOT_READY, []) else
  if demandLen =? 0 then Some (k, ACC_INVALID_PARAM, []) else block_recv_loop fuel k demandLen [].
End Link.
