(* ===== verification/AccLinkSpec.v ===== *)
(** * Links deliver messages

    The framing of [AccLink]: the receiver rebuilds from the byte stream exactly
    the messages that the sender's queue accepted, in order, however the stream is
    cut into reads and writes. *)
From Stdlib Require Import Strings.Byte.
From stdpp Require Import base numbers list gmap.
From S2P Require Import Prelude AccQueue AccQueueSpec AccLink.
Local Open Scope Z_scope.
Local Open Scope mf_scope.

(** ** Frames *)
Definition wf_header (h : AccMsgHeader) : Prop :=
  - 2 ^ 15 ≤ htype h < 2 ^ 15 ∧ - 2 ^ 15 ≤ hresult h < 2 ^ 15 ∧
  0 ≤ bodyLen h < 2 ^ 32 ∧ 0 ≤ hseqNo h < 2 ^ 32 ∧ 0 ≤ hcrc h < 2 ^ 32.
Definition Message : Type := AccMsgHeader * bytes.
Definition valid_msg (m : Message) : Prop :=
  wf_header m.1 ∧ bodyLen m.1 = len m.2 ∧ 1 ≤ len m.2 ≤ MAX_RECV_BODY_LEN.
Definition frame (m : Message) : bytes := header_bytes m.1 ++ m.2.
Definition frames (ms : list Message) : bytes := concat (frame <$> ms).

Arguments frames : simpl never.

Lemma length_header h : length (header_bytes h) = 16%nat.
Proof. unfold header_bytes. by rewrite !length_app, !length_le_bytes. Qed.

Lemma i16_word z : - 2 ^ 15 ≤ z < 2 ^ 15 → i16 (z mod 2 ^ 16) = z.
Proof.
  intros Hz. unfold i16. rewrite <- (to_signed_small 16 z) at 2 by lia.
  unfold to_signed. by rewrite Z.mod_mod by lia.
Qed.

Lemma header_roundtrip h : wf_header h → header_of (header_bytes h) = h.
Proof.
  intros (H1 & H2 & H3 & H4 & H5). destruct h as [t r b s c]. cbn in H1, H2, H3, H4, H5.
  assert (header_of (header_bytes (mkHeader t r b s c)) =
    mkHeader (i16 (le_val (le_bytes 2 t))) (i16 (le_val (le_bytes 2 r)))
      (le_val (le_bytes 4 b)) (le_val (le_bytes 4 s)) (le_val (le_bytes 4 c))) as -> by reflexivity.
  rewrite !le_val_le_bytes. change (256 ^ Z.of_nat 2) with (2 ^ 16). change (256 ^ Z.of_nat 4) with (2 ^ 32).
  rewrite !i16_word, !Z.mod_small by lia. done.
Qed.

Lemma length_frame m : length (frame m) = (16 + length m.2)%nat.
Proof. unfold frame. by rewrite length_app, length_header. Qed.
Lemma frames_cons m ms : frames (m :: ms) = frame m ++ frames ms.
Proof. done. Qed.
Lemma frames_app ms ms' : frames (ms ++ ms') = frames ms ++ frames ms'.
Proof. unfold frames. by rewrite fmap_app, concat_app. Qed.

(** ** Stored bytes *)
Lemma poke_length mem off b :
  0 ≤ off → off + len b ≤ len mem → length (poke mem off b) = length mem.
Proof.
  intros Ho Hb. unfold poke, len in *. rewrite !length_app, length_take, length_drop. lia.
Qed.
Lemma poke_take mem off b pre :
  length pre = Z.to_nat off → take (Z.to_nat off) mem = pre → (Z.to_nat off ≤ length mem)%nat →
  take (Z.to_nat off + length b) (poke mem off b) = pre ++ b.
Proof.
  intros Hl Ht Hm. unfold poke. rewrite Ht, app_assoc. rewrite take_app_length'; [done|].
  rewrite length_app. lia.
Qed.

(** ** Receiving *)
Section Receive.
Context {K : Type} `{Socket K} {laws : SocketLaws K} (ssl : bool).

(** The socket hands out something whenever there is something. *)
Definition eager : Prop :=
  ∀ k n, 0 < n → incoming k ≠ [] → 0 < (PollInRecv ssl k n).1.2.

Record rx_mem (L : AccTcpLinkComplexDefault) (buf : AccDataBuffer) (mem : bytes) : Prop := {
  rm_data : data_ L = Some buf;
  rm_mem : bdata_ buf = Some mem;
  rm_size : len mem = memSize_ buf;
  rm_header : length (header_ L) = 16%nat;
}.

(** [pre] is what has been received of the current frame. *)
Definition in_header (L : AccTcpLinkComplexDefault) (pre : bytes) : Prop :=
  headerToBeReceived (receiveState_ L) = 16 - len pre ∧ len pre < 16 ∧
  take (length pre) (header_ L) = pre.
Definition in_body (L : AccTcpLinkComplexDefault) (buf : AccDataBuffer) (mem pre : bytes) : Prop :=
  let bl := bodyLen (header_of (header_ L)) in
  headerToBeReceived (receiveState_ L) = 0 ∧ (16 ≤ length pre)%nat ∧ header_ L = take 16 pre ∧
  bodyToBeReceived (receiveState_ L) = 16 + bl - len pre ∧ len pre < 16 + bl ∧
  bl ≤ memSize_ buf ∧ bl ≤ MAX_RECV_BODY_LEN ∧ take (length pre - 16) mem = drop 16 pre.
Definition rx_inv (L : AccTcpLinkComplexDefault) (pre : bytes) : Prop :=
  ∃ buf mem, rx_mem L buf mem ∧ (in_header L pre ∨ in_body L buf mem pre).

Lemma recv_into_spec k mem off n :
  0 ≤ off → 0 ≤ n → off + n ≤ len mem →
  ∃ k' r b, recv_into ssl k mem off n = Some (k', r, if 0 <? r then poke mem off b else mem) ∧
    (0 < r → len b = r ∧ r ≤ n ∧ incoming k = b ++ incoming k') ∧
    (r ≤ 0 → incoming k' = incoming k) ∧ (eager → 0 < n → incoming k ≠ [] → 0 < r).
Proof.
  intros Ho Hn Hm. unfold recv_into.
  rewrite (proj2 (Z.ltb_ge off 0)), (proj2 (Z.ltb_ge n 0)), (proj2 (Z.ltb_ge (len mem) _)) by lia.
  cbn [orb]. destruct (PollInRecv ssl k n) as [[k' r] b] eqn:E. exists k', r, b.
  destruct (recv_law ssl k n k' r b E) as (_ & H1 & H2). split_and!; try done.
  intros He Hn0 Hi. specialize (He k n Hn0 Hi). by rewrite E in He.
Qed.

Lemma recv_failed_code (k : K) : recv_failed k = ACC_LINK_EAGAIN ∨ recv_failed k = ACC_LINK_ERROR.
Proof. unfold recv_failed. repeat case_match; auto. Qed.

Definition waiting (r : Z) : Prop := r = ACC_LINK_EAGAIN ∨ r = ACC_LINK_ERROR.

Lemma poll_in_body_step k L buf mem pre :
  rx_mem L buf mem → in_body L buf mem pre →
  ∃ k' L' r b, poll_in_body ssl k L = Some (k', L', r) ∧ incoming k = b ++ incoming k' ∧
    (eager → incoming k ≠ [] → b ≠ [] ∧ r ≠ ACC_LINK_ERROR) ∧
    (r = ACC_LINK_MSG_READY ∧ len (pre ++ b) = 16 + bodyLen (header_of (take 16 pre)) ∧
       ready_message L' = (header_of (take 16 pre), drop 16 (pre ++ b)) ∧ rx_inv L' []
     ∨ waiting r ∧ rx_inv L' (pre ++ b)).
Proof.
  intros [Hd Hm Hs Hhl] (Hh & Hp & Hhd & Hb & Hlt & Hbl & Hmax & Ht). unfold poll_in_body.
  rewrite Hd. cbn [mbind option_bind]. rewrite Hm. cbn [mbind option_bind].
  set (bl := bodyLen (header_of (header_ L))) in *.
  assert (len pre = Z.of_nat (length pre)) as Hlp by done.
  unfold MAX_RECV_BODY_LEN in Hmax.
  assert (bl -64 u64 (bodyToBeReceived (receiveState_ L)) = len pre - 16) as ->.
  { rewrite Hb, (u64_small (16 + bl - len pre)) by lia. rewrite u64_small by lia. lia. }
  rewrite Hb.
  destruct (recv_into_spec k mem (len pre - 16) (16 + bl - len pre)) as (k' & r & b & -> & Hpos & Hneg & Hea); [lia..|].
  cbn [mbind option_bind]. destruct (Z.ltb_spec 0 r) as [Hr|Hr].
  - destruct (Hpos Hr) as (Hlb & Hrn & Hin). exists k'.
    assert (Z.to_nat (len pre - 16) = length pre - 16)%nat as Hoff by lia.
    pose proof (poke_length mem (len pre - 16) b ltac:(lia) ltac:(lia)) as Hpl.
    assert (take (length pre - 16 + length b) (poke mem (len pre - 16) b) = drop 16 (pre ++ b)) as Hpt.
    { rewrite <- Hoff, (poke_take _ _ _ (drop 16 pre)); [|rewrite length_drop; lia|by rewrite Hoff|unfold len in *; lia].
      rewrite drop_app_le by lia. done. }
    unfold BodySatisfied. rewrite Hb.
    destruct (Z.ltb_spec r (16 + bl - len pre)) as [Hmore|Hfull].
    + rewrite (proj2 (Z.eqb_neq _ 0)) by lia. eexists _, _, b. split; [done|]. split; [done|].
      split; [intros _ _; split; [intros ->; unfold len in Hlb; cbn in Hlb; lia|done]|]. right. split; [by left|].
      exists (mkBuffer (dataSize_ buf) (memSize_ buf) (Some (poke mem (len pre - 16) b))), (poke mem (len pre - 16) b). split.
      { split; cbn; try done. unfold len in *. by rewrite Hpl. }
      right. unfold in_body. cbn [receiveState_ header_ set_rx headerToBeReceived bodyToBeReceived memSize_].
      fold bl. rewrite length_app, len_app. split_and!; try done; try lia.
      * by rewrite take_app_le by lia.
      * rewrite <- Hpt. f_equal. lia.
    + rewrite Z.eqb_refl. eexists _, _, b. split; [done|]. split; [done|].
      split; [intros _ _; split; [intros ->; unfold len in Hlb; cbn in Hlb; lia|done]|]. left. split; [done|].
      rewrite <- Hhd. fold bl. split; [rewrite len_app; lia|]. split.
      * unfold ready_message. cbn [header_ data_ set_rx mbind option_bind bdata_ SetDataSize dataSize_ default].
        f_equal. rewrite <- Hpt. fold bl. unfold id. f_equal. unfold len in *. lia.
      * eexists _, _. split; [split; cbn; try done; unfold len in *; by rewrite Hpl|]. left. split_and!; done.
  - eexists k', _, _, []. split; [done|]. rewrite (Hneg Hr). split; [done|]. split.
    { intros He Hi. specialize (Hea He ltac:(lia) Hi). lia. }
    right. split; [apply recv_failed_code|]. rewrite app_nil_r.
    eexists _, mem. split; [by split|]. right. split_and!; done.
Qed.

Lemma AllocIfNeed_spec j buf mem n :
  bdata_ buf = Some mem → len mem = memSize_ buf → 0 ≤ n ≤ MAX_RECV_BODY_LEN →
  ∃ buf' mem', AllocIfNeed (Some j) buf n = (buf', true) ∧ bdata_ buf' = Some mem' ∧
    len mem' = memSize_ buf' ∧ n ≤ memSize_ buf'.
Proof.
  intros Hb Hm Hn. pose proof (len_nonneg mem). unfold AllocIfNeed.
  rewrite (proj2 (Z.ltb_ge _ n)), Hb by lia. destruct (Z.ltb_spec (memSize_ buf) n) as [Hlt|Hge].
  - eexists _, _. split; [done|]. cbn. split; [done|]. unfold len. rewrite length_replicate. lia.
  - by exists buf, mem.
Qed.

(** ** A stream of frames *)
Lemma frame_header m pre x y :
  (16 ≤ length pre)%nat → pre ++ x = frame m ++ y → take 16 pre = header_bytes m.1.
Proof.
  intros Hp E. rewrite <- (take_app_le pre x 16) by done. rewrite E. unfold frame.
  rewrite <- app_assoc, take_app_le by (rewrite length_header; lia).
  rewrite take_ge by (rewrite length_header; lia). done.
Qed.

(** The result of a call against the frames that are still to come. *)
Definition poll_in_ok (k k' : K) (L' : AccTcpLinkComplexDefault) (r : Z) (ms : list Message) : Prop :=
  (eager → incoming k ≠ [] →
     (length (incoming k') < length (incoming k))%nat ∧ r ≠ ACC_LINK_ERROR) ∧
  (r = ACC_LINK_MSG_READY ∧ (∃ m ms', ms = m :: ms' ∧ ready_message L' = m ∧
     incoming k' = frames ms' ∧ rx_inv L' [])
   ∨ waiting r ∧ ∃ pre', pre' ++ incoming k' = frames ms ∧ rx_inv L' pre').

Lemma poll_in_body_ok k0 k L buf mem pre m ms :
  rx_mem L buf mem → in_body L buf mem pre → valid_msg m →
  pre ++ incoming k = frames (m :: ms) →
  (length (incoming k) < length (incoming k0))%nat ∨ incoming k = incoming k0 →
  ∃ k' L' r, poll_in_body ssl k L = Some (k', L', r) ∧ poll_in_ok k0 k' L' r (m :: ms).
Proof.
  intros Hm Hb (Hwf & Hbl & Hsz) E Hk0. pose proof Hb as (_ & Hp & Hhd & _ & Hlt & _).
  assert (incoming k ≠ []) as Hne.
  { intros E0. rewrite E0, frames_cons in E. rewrite Hhd, (frame_header m _ _ _ Hp E), header_roundtrip in Hlt by done.
    apply (f_equal length) in E. rewrite app_nil_r, length_app, length_frame in E. unfold len in *. lia. }
  destruct (poll_in_body_step k L buf mem pre Hm Hb) as (k' & L' & r & b & -> & Hin & Hea & Hres).
  exists k', L', r. split; [done|]. rewrite Hin, app_assoc in E. rewrite frames_cons in E. split.
  - intros He _. destruct (Hea He Hne) as [Hb0 Hr]. split; [|done].
    pose proof (f_equal length Hin) as Hl. rewrite length_app in Hl. destruct b; [done|].
    cbn in Hl. destruct Hk0 as [?|Hk0]; [lia|]. rewrite <- Hk0. lia.
  - pose proof (frame_header m pre (b ++ incoming k') (frames ms) Hp) as Hh.
    rewrite app_assoc in Hh. specialize (Hh E).
    rewrite Hh, header_roundtrip in Hres by done.
    destruct Hres as [(-> & Hl & Hrm & Hinv)|[Hw Hinv]].
    + left. split; [done|]. exists m, ms. split; [done|].
      apply app_inj_1 in E as [E1 E2]; [|rewrite length_frame; unfold len in *; lia].
      split_and!; try done. rewrite Hrm, E1. by destruct m.
    + right. split; [done|]. eauto.
Qed.

(** The header is complete: [hd] has its sixteen bytes. *)
Definition header_done (alloc : option byte) (k : K) (L : AccTcpLinkComplexDefault) (hd : bytes)
    : option (K * AccTcpLinkComplexDefault * Z) :=
  buf ← data_ L;
  let bl := bodyLen (header_of hd) in
  let '(buf, ok) := AllocIfNeed alloc buf bl in
  if negb ok then Some (k, set_rx L (mkRecv sizeof_header (-1)) hd (Some buf), ACC_MALLOC_FAIL) else
  poll_in_body ssl k (set_rx L (mkRecv 0 bl) hd (Some (SetDataSize buf 0))).

Lemma header_done_ok j k0 k L buf mem hd ms :
  rx_mem L buf mem → length hd = 16%nat → hd ++ incoming k = frames ms → Forall valid_msg ms →
  (length (incoming k) < length (incoming k0))%nat →
  ∃ k' L' r, header_done (Some j) k L hd = Some (k', L', r) ∧ poll_in_ok k0 k' L' r ms.
Proof.
  intros Hm Hl16 E Hv Hprog. destruct ms as [|m ms'].
  { apply (f_equal length) in E. rewrite length_app, Hl16 in E. unfold frames in E. cbn in E. lia. }
  apply Forall_cons in Hv as [Hvm Hv]. pose proof Hvm as (Hwf & Hbl & Hsz).
  assert (header_of hd = m.1) as Hho.
  { rewrite <- (take_ge hd 16) by lia. rewrite frames_cons in E.
    rewrite (frame_header m hd _ _ ltac:(lia) E). by apply header_roundtrip. }
  unfold header_done. rewrite (rm_data _ _ _ Hm), Hho. cbn [mbind option_bind].
  destruct (AllocIfNeed_spec j buf mem (bodyLen m.1) (rm_mem _ _ _ Hm) (rm_size _ _ _ Hm) ltac:(lia))
    as (buf' & mem' & -> & Hb' & Hm' & Hn').
  cbn [negb]. eapply poll_in_body_ok; [| |exact Hvm|done|by left].
  - by split; cbn.
  - unfold in_body. cbn [receiveState_ header_ set_rx headerToBeReceived bodyToBeReceived memSize_ SetDataSize].
    rewrite Hho. unfold len at 1 2. rewrite Hl16. split_and!; try done; try lia.
    + by rewrite take_ge by lia.
    + by rewrite drop_ge by lia.
Qed.

(** The header after [b] has been stored behind [pre]. *)
Lemma header_stored (hd pre b : bytes) :
  length hd = 16%nat → take (length pre) hd = pre → len pre + len b ≤ 16 →
  length (poke hd (len pre) b) = 16%nat ∧ take (length (pre ++ b)) (poke hd (len pre) b) = pre ++ b ∧
  (len pre + len b = 16 → poke hd (len pre) b = pre ++ b).
Proof.
  intros Hl Ht Hlen. unfold len in Hlen.
  assert (length (poke hd (len pre) b) = 16%nat) as Hpl.
  { rewrite poke_length; unfold len; lia. }
  assert (take (length (pre ++ b)) (poke hd (len pre) b) = pre ++ b) as Hpt.
  { pose proof (poke_take hd (len pre) b pre) as Hp. unfold len in *. rewrite !Nat2Z.id in Hp.
    rewrite length_app. apply Hp; [done|done|lia]. }
  split_and!; [done|done|]. intros Hf. rewrite <- Hpt, take_ge; [done|].
  rewrite Hpl, length_app. unfold len in Hf. lia.
Qed.

(** In the header: either it is still not complete, or the body is next. *)
Lemma poll_in_header_step alloc k L buf mem pre :
  rx_mem L buf mem → in_header L pre →
  (∃ k' L' r pre', HandlePollIn ssl alloc k L = Some (k', L', r) ∧ waiting r ∧
     pre' ++ incoming k' = pre ++ incoming k ∧ rx_mem L' buf mem ∧ in_header L' pre' ∧
     (eager → incoming k ≠ [] → (length (incoming k') < length (incoming k))%nat ∧ r ≠ ACC_LINK_ERROR)) ∨
  (∃ k' hd, HandlePollIn ssl alloc k L = header_done alloc k' L hd ∧ length hd = 16%nat ∧
     hd ++ incoming k' = pre ++ incoming k ∧ (length (incoming k') < length (incoming k))%nat).
Proof.
  intros Hm (Hh & Hlt & Ht). unfold HandlePollIn, ShouldReceiveHeader.
  rewrite Hh, (proj2 (Z.ltb_lt 0 _)) by lia. pose proof (len_nonneg pre) as Hp0.
  assert (ReceivedHeaderLen (receiveState_ L) = len pre) as ->.
  { unfold ReceivedHeaderLen, sizeof_header. rewrite Hh. case_match; lia. }
  pose proof (rm_header _ _ _ Hm) as Hhl.
  destruct (recv_into_spec k (header_ L) (len pre) (16 - len pre)) as (k' & r & b & -> & Hpos & Hneg & Hea);
    [lia|lia|unfold len; lia|].
  cbn [mbind option_bind]. destruct (Z.ltb_spec 0 r) as [Hr|Hr].
  2: { left. eexists k', _, _, pre. split; [done|]. specialize (Hneg Hr). split; [apply recv_failed_code|].
    split; [by rewrite Hneg|]. split; [by destruct Hm|]. split; [done|].
    intros He Hi. specialize (Hea He ltac:(lia) Hi). lia. }
  destruct (Hpos Hr) as (Hlb & Hrn & Hin). rewrite u16_small by lia. unfold HeaderSatisfied. rewrite Hh.
  destruct (header_stored (header_ L) pre b Hhl Ht ltac:(lia)) as (Hpl & Hpt & Hall).
  assert (length (incoming k') < length (incoming k))%nat as Hprog.
  { rewrite Hin, length_app. unfold len in Hlb. lia. }
  rewrite Hin, app_assoc. destruct (Z.ltb_spec r (16 - len pre)) as [Hmore|Hfull].
  - left. rewrite (proj2 (Z.eqb_neq _ 0)) by lia. eexists _, _, _, (pre ++ b). split; [done|]. split; [by left|].
    split; [done|]. split; [destruct Hm; by split; cbn|]. split.
    + unfold in_header. cbn. rewrite len_app. split_and!; [lia|lia|done].
    + intros _ _. rewrite <- Hin. done.
  - right. rewrite Z.eqb_refl, Hall by lia. exists k', (pre ++ b). split; [done|].
    split; [rewrite length_app; unfold len in *; lia|]. split; [done|]. by rewrite <- Hin.
Qed.

Lemma HandlePollIn_header j k L buf mem pre ms :
  rx_mem L buf mem → in_header L pre → pre ++ incoming k = frames ms → Forall valid_msg ms →
  ∃ k' L' r, HandlePollIn ssl (Some j) k L = Some (k', L', r) ∧ poll_in_ok k k' L' r ms.
Proof.
  intros Hm Hst E Hv. destruct (poll_in_header_step (Some j) k L buf mem pre Hm Hst)
    as [(k' & L' & r & pre' & -> & Hw & E' & Hm' & Hst' & Hp)|(k' & hd & -> & Hl & E' & Hp)].
  - exists k', L', r. split; [done|]. split; [done|]. right. split; [done|]. exists pre'.
    split; [by rewrite E'|]. exists buf, mem. auto.
  - eapply header_done_ok; [done|done|by rewrite E'|done|done].
Qed.

Lemma HandlePollIn_ok j k L pre ms :
  rx_inv L pre → pre ++ incoming k = frames ms → Forall valid_msg ms →
  ∃ k' L' r, HandlePollIn ssl (Some j) k L = Some (k', L', r) ∧ poll_in_ok k k' L' r ms.
Proof.
  intros (buf & mem & Hm & [Hst|Hb]) E Hv; [by eapply HandlePollIn_header|].
  unfold HandlePollIn, ShouldReceiveHeader. pose proof Hb as (-> & Hp & _). cbn.
  destruct ms as [|m ms]; [|apply Forall_cons in Hv as [Hvm Hv]; eapply poll_in_body_ok; eauto].
  apply (f_equal length) in E. rewrite length_app in E. unfold frames in E. cbn in E. lia.
Qed.

(** A partial frame is not a whole number of frames. *)
Lemma rx_inv_partial L pre ms :
  rx_inv L pre → pre = frames ms → Forall valid_msg ms → ms = [].
Proof.
  intros (buf & mem & Hm & Hst) -> Hv. destruct ms as [|m ms]; [done|exfalso].
  apply Forall_cons in Hv as [(Hwf & Hbl & Hsz) Hv]. rewrite frames_cons in Hst.
  assert (len (frame m ++ frames ms) = 16 + len m.2 + len (frames ms)) as Hl.
  { rewrite len_app. unfold len. rewrite length_frame. lia. }
  pose proof (len_nonneg (frames ms)). pose proof (len_nonneg m.2).
  destruct Hst as [(_ & Hlt & _)|(_ & Hp & Hhd & _ & Hlt & _)]; [lia|].
  rewrite Hhd, (frame_header m _ [] (frames ms)), header_roundtrip in Hlt; [lia|done|done|by rewrite app_nil_r].
Qed.

(** The worker's input events, one after the other, until the link is broken. *)
Fixpoint receive_run (n : nat) (j : byte) (k : K) (L : AccTcpLinkComplexDefault) (got : list Message)
    : option (K * AccTcpLinkComplexDefault * list Message) :=
  match n with
  | O => Some (k, L, got)
  | S n' =>
      r ← HandlePollIn ssl (Some j) k L;
      let '(k, L, code) := r in
      if code =? ACC_LINK_MSG_READY then receive_run n' j k L (got ++ [ready_message L])
      else if code =? ACC_LINK_EAGAIN then receive_run n' j k L got
      else Some (k, L, got)
  end.

Lemma receive_run_ok n j k L pre ms got :
  rx_inv L pre → pre ++ incoming k = frames ms → Forall valid_msg ms →
  ∃ k' L' now later pre', receive_run n j k L got = Some (k', L', got ++ now) ∧ ms = now ++ later ∧
    rx_inv L' pre' ∧ pre' ++ incoming k' = frames later.
Proof.
  revert k L pre ms got. induction n as [|n IH]; intros k L pre ms got Hi E Hv.
  { exists k, L, [], ms, pre. by rewrite app_nil_r. }
  destruct (HandlePollIn_ok j k L pre ms Hi E Hv) as (k1 & L1 & r & E1 & _ & Hres).
  cbn. rewrite E1. cbn. destruct Hres as [(-> & m & ms' & -> & <- & E2 & Hi2)|(Hw & pre2 & E2 & Hi2)]; cbn.
  - apply Forall_cons in Hv as [_ Hv].
    destruct (IH k1 L1 [] ms' (got ++ [ready_message L1]) Hi2 E2 Hv) as (k' & L' & now & later & pre' & -> & -> & ? & ?).
    exists k', L', (ready_message L1 :: now), later, pre'. by rewrite <- app_assoc.
  - destruct Hw as [-> | ->]; cbn; [by eapply IH|].
    exists k1, L1, [], ms, pre2. by rewrite app_nil_r.
Qed.

(** With a socket that is never empty-handed, as many events as there are bytes
    are enough, unless the link breaks. *)
Lemma receive_run_live n j k L pre ms got :
  eager → rx_inv L pre → pre ++ incoming k = frames ms → Forall valid_msg ms →
  (length (incoming k) ≤ n)%nat →
  ∃ k' L', receive_run n j k L got = Some (k', L', got ++ ms) ∧ incoming k' = [].
Proof.
  intros He. revert k L pre ms got. induction n as [|n IH]; intros k L pre ms got Hi E Hv Hn.
  { destruct (incoming k) eqn:Ek; [|cbn in Hn; lia]. exists k, L. rewrite app_nil_r in E.
    rewrite (rx_inv_partial L pre ms Hi E Hv), app_nil_r. by rewrite Ek. }
  destruct (decide (incoming k = [])) as [Ek|Ek].
  { rewrite Ek, app_nil_r in E. pose proof (rx_inv_partial L pre ms Hi E Hv) as ->.
    destruct (receive_run_ok (S n) j k L pre [] got) as (k' & L' & now & later & pre' & E1 & E2 & _ & E3);
      [done|by rewrite Ek, app_nil_r|done|].
    symmetry in E2. apply app_eq_nil in E2 as [-> ->]. apply app_eq_nil in E3 as [_ ?]. eauto. }
  destruct (HandlePollIn_ok j k L pre ms Hi E Hv) as (k1 & L1 & r & E1 & Hp & Hres).
  destruct (Hp He Ek) as [Hlt Hr]. cbn. rewrite E1. cbn.
  destruct Hres as [(-> & m & ms' & -> & <- & E2 & Hi2)|([-> | ->] & pre2 & E2 & Hi2)]; cbn; [| |done].
  - apply Forall_cons in Hv as [_ Hv].
    destruct (IH k1 L1 [] ms' (got ++ [ready_message L1]) Hi2 E2 Hv) as (k' & L' & -> & ?); [lia|].
    exists k', L'. by rewrite <- app_assoc.
  - eapply IH; eauto. lia.
Qed.
End Receive.

(** ** Sending *)
Definition node_msg (v : Msg) : Message := (nheader v, ndata v).
Definition node_rest (v : Msg) : bytes := HeaderPtrToBeSend v ++ DataPtrToBeSend v.
(** A message in the queue: something is left to send, the body only after the
    header. *)
Record tx_node (v : Msg) : Prop := {
  tn_valid : valid_msg (node_msg v);
  tn_hr : 0 ≤ headerRemain v ≤ 16;
  tn_dr : 0 < dataRemain v ≤ len (ndata v);
  tn_order : 0 < headerRemain v → dataRemain v = len (ndata v);
}.

Lemma node_rest_new h d ctx : node_rest (new_node h d ctx) = frame (h, d).
Proof.
  unfold node_rest, HeaderPtrToBeSend, DataPtrToBeSend, new_node, frame, sizeof_header. cbn [headerRemain dataRemain nheader ndata fst snd].
  by rewrite !Z.sub_diag, !drop_0.
Qed.
Lemma tx_node_new h d ctx : valid_msg (h, d) → tx_node (new_node h d ctx).
Proof. intros Hv. split; cbn; unfold sizeof_header; try lia; [done|]. destruct Hv as (_ & _ & ?). cbn in *. lia. Qed.

Lemma length_header_ptr v : tx_node v → len (HeaderPtrToBeSend v) = headerRemain v.
Proof.
  intros [_ Hr _ _]. unfold HeaderPtrToBeSend, len, sizeof_header. rewrite length_drop, length_header. lia.
Qed.
Lemma length_data_ptr v : tx_node v → len (DataPtrToBeSend v) = dataRemain v.
Proof. intros [_ _ Hr _]. unfold DataPtrToBeSend, len in *. rewrite length_drop. lia. Qed.
Lemma take_all (b : bytes) n : len b = n → take (Z.to_nat n) b = b.
Proof. intros <-. apply take_ge. unfold len. lia. Qed.

Section Send.
Context {K : Type} `{Socket K} {laws : SocketLaws K} (ssl : bool).
(** The socket takes at least one byte of whatever is written. *)
Definition roomy : Prop := ∀ k d, d ≠ [] → 0 < (PollOutWrite ssl k d).2.
Context (Hroom : roomy).

Lemma write_spec k d :
  d ≠ [] → ∃ k' r, PollOutWrite ssl k d = (k', r) ∧ 0 < r ≤ len d ∧ outgoing k' = outgoing k ++ take (Z.to_nat r) d.
Proof.
  intros Hd. destruct (PollOutWrite ssl k d) as [k' r] eqn:E. exists k', r. split; [done|].
  specialize (Hroom k d Hd). rewrite E in Hroom. cbn in Hroom.
  destruct (write_law ssl k d k' r E) as (_ & H1 & _). destruct (H1 Hroom). split; [lia|done].
Qed.

Section Put.
Context (hp : Heap) (L : AccTcpLinkComplexDefault) (q : AccLinkedMessageQueue) (ls : list loc)
  (vs : list Msg) (l : loc) (v : Msg).
Context (HL : queue_ L = Some q) (Hq : queue_rep hp q ls vs) (Hh : held_rep hp ls (Some (l, v))).
Context (Hsz : len ls < 2 ^ 32 - 1) (Hv : tx_node v).

(** After a write the message is sent and gone, or is in front again with less to
    send. *)
Definition put_ok (k : K) (hp' : Heap) (k' : K) (L' : AccTcpLinkComplexDefault) (out : PollOut) : Prop :=
  out.2 = Some (nheader v, cbCtx v) ∧
  (out.1 = ACC_LINK_MSG_SENT ∧ L' = L ∧ queue_rep hp' q ls vs ∧ outgoing k' = outgoing k ++ node_rest v
   ∨ out.1 = ACC_LINK_EAGAIN ∧ ∃ q' v', L' = set_queue L (Some q') ∧ sizeCap_ q' = sizeCap_ q ∧
       queue_rep hp' q' (l :: ls) (v' :: vs) ∧ node_msg v' = node_msg v ∧ tx_node v' ∧
       outgoing k' ++ node_rest v' = outgoing k ++ node_rest v).

Lemma push_back_ok k k' v' hp1 :
  queue_rep hp1 q ls vs → held_rep hp1 ls (Some (l, v')) → tx_node v' → node_msg v' = node_msg v →
  outgoing k' ++ node_rest v' = outgoing k ++ node_rest v →
  ∃ hp' L', push_back hp1 L l = Some (hp', L') ∧
    put_ok k hp' k' L' (ACC_LINK_EAGAIN, Some (nheader v, cbCtx v)).
Proof.
  intros Hq1 Hh1 Hv' Hm Ho. unfold push_back. rewrite HL. cbn [mbind option_bind].
  destruct (EnqueueFront_spec hp1 q ls vs l v' Hq1 Hh1 Hsz) as (hp' & q' & -> & Hc & _ & Hq').
  cbn [mbind option_bind fst snd]. eexists _, _. split; [done|]. split; [done|]. right. split; [done|].
  exists q', v'. done.
Qed.

Lemma poll_out_data_ok k :
  headerRemain v = 0 →
  ∃ hp' k' L' out, poll_out_data ssl hp k L l = Some (hp', k', L', out) ∧ put_ok k hp' k' L' out.
Proof.
  intros H0. pose proof Hh as (Hnin & Hun & nx & Hlk & Hnx). unfold poll_out_data.
  rewrite Hlk. cbn [mbind option_bind]. unfold DataSent. cbn [dataRemain with_next].
  destruct Hv as [Hval Hhr Hdr Hord]. rewrite (proj2 (Z.eqb_neq (dataRemain v) 0)) by lia. cbn [negb].
  change (DataPtrToBeSend (with_next v nx)) with (DataPtrToBeSend v).
  rewrite (take_all _ _ (length_data_ptr v Hv)).
  pose proof (length_data_ptr v Hv) as Hl.
  destruct (write_spec k (DataPtrToBeSend v)) as (k' & r & -> & Hr & Hout).
  { intros E. rewrite E in Hl. unfold len in Hl. cbn in Hl. lia. }
  rewrite Hl in Hr. rewrite (proj2 (Z.ltb_lt 0 r)) by lia.
  destruct Hval as (Hwf & Hbl & Hb). cbn [node_msg fst snd] in Hb. unfold MAX_RECV_BODY_LEN in Hb.
  rewrite (u32_small r) by lia. unfold DataAllSent. cbn [dataRemain headerRemain with_next].
  assert (node_rest v = DataPtrToBeSend v) as Erest.
  { unfold node_rest. rewrite <- (app_nil_l (DataPtrToBeSend v)) at 2. f_equal.
    apply nil_length_inv. pose proof (length_header_ptr v Hv). unfold len in *. lia. }
  destruct (Z.leb_spec (dataRemain v) r) as [Hall|Hpart].
  - destruct (held_update hp q ls vs l v (headerRemain v) 0 Hq Hh) as (n & Hn & Hq1 & Hh1).
    rewrite Hlk in Hn. injection Hn as <-. cbn [negb].
    destruct (held_free _ _ _ _ _ _ Hq1 Hh1) as [-> Hq2]. cbn [mbind option_bind].
    eexists _, _, _, _. split; [done|]. split; [done|]. left. split_and!; try done.
    rewrite Hout, Erest. f_equal. apply take_ge. unfold len in Hl. lia.
  - rewrite u32_small by lia.
    destruct (held_update hp q ls vs l v (headerRemain v) (dataRemain v - r) Hq Hh) as (n & Hn & Hq1 & Hh1).
    rewrite Hlk in Hn. injection Hn as <-. cbn [negb].
    destruct (push_back_ok k k' (with_remain v (headerRemain v) (dataRemain v - r)) _ Hq1 Hh1) as (hp' & L' & -> & Hok).
    + split; cbn; try lia. done.
    + done.
    + rewrite Hout, Erest, <- app_assoc. f_equal. unfold node_rest.
      assert (HeaderPtrToBeSend (with_remain v (headerRemain v) (dataRemain v - r)) = []) as ->.
      { unfold HeaderPtrToBeSend. cbn. rewrite H0. done. }
      cbn [app]. unfold DataPtrToBeSend. cbn [dataRemain ndata with_remain].
      replace (Z.to_nat (len (ndata v) - (dataRemain v - r)))
        with (Z.to_nat (len (ndata v) - dataRemain v) + Z.to_nat r)%nat by lia.
      rewrite <- drop_drop. apply take_drop.
    + cbn [mbind option_bind fst snd]. eexists _, _, _, _. done.
Qed.
End Put.

(** Header bytes that are left, cut at a write. *)
Lemma node_rest_header v r :
  tx_node v → 0 ≤ r ≤ headerRemain v →
  node_rest v = take (Z.to_nat r) (HeaderPtrToBeSend v)
                ++ node_rest (with_remain v (headerRemain v - r) (dataRemain v)).
Proof.
  intros [_ Hhr _ _] Hr. unfold node_rest. rewrite app_assoc. f_equal.
  unfold HeaderPtrToBeSend, sizeof_header. cbn [headerRemain nheader with_remain].
  replace (Z.to_nat (16 - (headerRemain v - r))) with (Z.to_nat (16 - headerRemain v) + Z.to_nat r)%nat by lia.
  rewrite <- drop_drop. by rewrite take_drop.
Qed.

Lemma poll_out_send_ok hp L q ls vs l v k :
  queue_ L = Some q → queue_rep hp q ls vs → held_rep hp ls (Some (l, v)) → len ls < 2 ^ 32 - 1 → tx_node v →
  ∃ hp' k' L' out, poll_out_send ssl hp k L l = Some (hp', k', L', out) ∧ put_ok L q ls vs l v k hp' k' L' out.
Proof.
  intros HL Hq Hh Hsz Hv. pose proof Hh as (Hnin & Hun & nx & Hlk & Hnx). pose proof Hv as [Hval Hhr Hdr Hord].
  unfold poll_out_send. rewrite Hlk. cbn [mbind option_bind]. unfold Sent, HeaderSent. cbn [headerRemain dataRemain with_next].
  rewrite (proj2 (Z.eqb_neq (dataRemain v) 0)), andb_false_r by lia.
  destruct (Z.eqb_spec (headerRemain v) 0) as [E0|E0]; cbn [negb]; [by eapply poll_out_data_ok|].
  change (HeaderPtrToBeSend (with_next v nx)) with (HeaderPtrToBeSend v).
  pose proof (length_header_ptr v Hv) as Hl. rewrite (take_all _ _ Hl).
  destruct (write_spec k (HeaderPtrToBeSend v)) as (k' & r & -> & Hr & Hout).
  { intros E. rewrite E in Hl. unfold len in Hl. cbn in Hl. lia. }
  rewrite Hl in Hr. rewrite (proj2 (Z.ltb_lt 0 r)), (u32_small r) by lia.
  pose proof (node_rest_header v r Hv ltac:(lia)) as Hrest.
  destruct (held_update hp q ls vs l v (headerRemain v - r) (dataRemain v) Hq Hh) as (n & Hn & Hq1 & Hh1).
  rewrite Hlk in Hn. injection Hn as <-.
  assert (0 < headerRemain v - r → tx_node (with_remain v (headerRemain v - r) (dataRemain v))) as Htx.
  { intros ?. split; cbn; try done; lia. }
  unfold HeaderAllSent. cbn [headerRemain dataRemain with_next].
  destruct (Z.leb_spec (headerRemain v) r) as [Hall|Hpart]; cbn [negb].
  - assert (r = headerRemain v) as -> by lia. rewrite Z.sub_diag in *.
    unfold DataSent. cbn [dataRemain with_remain with_next]. rewrite (proj2 (Z.eqb_neq (dataRemain v) 0)) by lia.
    destruct (poll_out_data_ok _ L q ls vs l _ HL Hq1 Hh1 Hsz) with (k := k') as (hp' & k2 & L' & out & E & Hi & Hok);
      [split; cbn; try done; lia|done|].
    exists hp', k2, L', out. split; [exact E|]. split; [done|]. cbn [node_msg nheader ndata with_remain] in Hok.
    rewrite Hrest, app_assoc, <- Hout. exact Hok.
  - rewrite u32_small by lia.
    destruct (push_back_ok L q ls vs l v HL Hsz k k' _ _ Hq1 Hh1 (Htx ltac:(lia))) as (hp' & L' & -> & Hok).
    + done.
    + by rewrite Hout, Hrest, <- app_assoc.
    + cbn [mbind option_bind fst snd]. eauto 10.
Qed.

(** *** The sender

    The state of a link that sends: the messages its queue has accepted, the
    headers reported as sent, and the node the worker has in its hands.  Other
    threads may send between the worker's taking a message out and its writing. *)
Record TxSys := mkTx {
  t_heap : Heap;
  t_link : AccTcpLinkComplexDefault;
  t_sock : K;
  t_held : option loc;
  t_accepted : list Message;
  t_sent : list AccMsgHeader;
}.
Definition accept (code : Z) (m : Message) (acc : list Message) : list Message :=
  if code =? ACC_OK then acc ++ [m] else acc.
Definition sendable (d : bytes) : Prop := 1 ≤ len d ≤ MAX_RECV_BODY_LEN.

Inductive tx_step : TxSys → TxSys → Prop :=
| tx_send hp L k held acc sent t d ctx hp' L' code :
    sendable d → NonBlockSend false ACC_OK hp L t (Some d) ctx = Some (hp', L', code) →
    tx_step (mkTx hp L k held acc sent)
      (mkTx hp' L' k held (accept code (mkHeader t 0 (len d) (seqNo_ L) 0, d) acc) sent)
| tx_send_seq hp L k held acc sent t sn d ctx hp' L' code :
    sendable d → 0 ≤ sn < 2 ^ 32 →
    NonBlockSend_seq false ACC_OK hp L t sn (Some d) ctx = Some (hp', L', code) →
    tx_step (mkTx hp L k held acc sent)
      (mkTx hp' L' k held (accept code (mkHeader t 0 (len d) sn 0, d) acc) sent)
| tx_send_op hp L k held acc sent t op sn d ctx hp' L' code :
    sendable d → 0 ≤ sn < 2 ^ 32 → - 2 ^ 15 ≤ op < 2 ^ 15 →
    NonBlockSend_op false ACC_OK hp L t op sn (Some d) ctx = Some (hp', L', code) →
    tx_step (mkTx hp L k held acc sent)
      (mkTx hp' L' k held (accept code (mkHeader t op (len d) sn 0, d) acc) sent)
| tx_reply hp L k held acc sent hd res d hp' L' code :
    sendable d → wf_header hd → - 2 ^ 15 ≤ res < 2 ^ 15 →
    Reply false ACC_OK hp (Some L) hd res (Some d) = Some (hp', Some L', code) →
    tx_step (mkTx hp L k held acc sent)
      (mkTx hp' L' k held (accept code (mkHeader (htype hd) res (len d) (hseqNo hd) 0, d) acc) sent)
| tx_take hp L k acc sent L' out :
    poll_out_take hp L = Some (L', out) →
    tx_step (mkTx hp L k None acc sent)
      (mkTx hp L' k (match out with inl _ => None | inr l => Some l end) acc sent)
| tx_put hp L k acc sent l hp' k' L' code info :
    poll_out_send ssl hp k L l = Some (hp', k', L', (code, info)) →
    tx_step (mkTx hp L k (Some l) acc sent)
      (mkTx hp' L' k' None acc
         (if code =? ACC_LINK_MSG_SENT then sent ++ option_list (fst <$> info) else sent)).

(** The messages on their way: the one in the worker's hands, then the queue. *)
Definition on_way (h : option (loc * Msg)) (vs : list Msg) : list Msg := option_list (snd <$> h) ++ vs.

Record tx_inv (s : TxSys) (q : AccLinkedMessageQueue) (ls : list loc) (vs : list Msg)
    (h : option (loc * Msg)) : Prop := {
  ti_queue : queue_ (t_link s) = Some q;
  ti_link : worker_ (t_link s) = true ∧ 0 ≤ seqNo_ (t_link s) < 2 ^ 32;
  ti_cap : sizeCap_ q < 2 ^ 16;
  ti_rep : queue_rep (t_heap s) q ls vs;
  ti_held : held_rep (t_heap s) ls h;
  ti_loc : fst <$> h = t_held s;
  ti_len : len vs ≤ Z.max 0 (sizeCap_ q) + (if h is Some _ then 0 else 1);
  ti_nodes : Forall tx_node (on_way h vs);
  ti_valid : Forall valid_msg (t_accepted s);
  ti_out : outgoing (t_sock s) ++ concat (node_rest <$> on_way h vs) = frames (t_accepted s);
  ti_sent : ∃ sent, t_accepted s = sent ++ (node_msg <$> on_way h vs) ∧ t_sent s = fst <$> sent;
}.

Lemma tx_inv_small s q ls vs h : tx_inv s q ls vs h → len ls < 2 ^ 32 - 1.
Proof.
  intros Hi. rewrite <- (len_vs _ _ _ _ (ti_rep _ _ _ _ _ Hi)).
  pose proof (ti_len _ _ _ _ _ Hi). pose proof (ti_cap _ _ _ _ _ Hi). destruct h; lia.
Qed.

(** Every send ends in the queue. *)
Lemma tx_enqueue_inv hp L k held acc sent q ls vs h hd d ctx sn hp' L' code :
  tx_inv (mkTx hp L k held acc sent) q ls vs h → valid_msg (hd, d) → 0 ≤ sn < 2 ^ 32 →
  EnqueueAndModifyEpoll false ACC_OK hp (set_seqNo L sn) hd (Some d) ctx = Some (hp', L', code) →
  ∃ q' ls' vs', tx_inv (mkTx hp' L' k held (accept code (hd, d) acc) sent) q' ls' vs' h.
Proof.
  intros Hi Hv Hsn. pose proof (tx_inv_small _ _ _ _ _ Hi) as Hsm.
  destruct Hi as [Hq [Hw _] Hcap Hrep Hh Hloc Hlen Hnodes Hval Hout (sn0 & Hacc & Hsent)]. cbn in *.
  unfold EnqueueAndModifyEpoll. cbn [worker_ queue_ set_seqNo]. rewrite Hw, Hq. cbn [negb mbind option_bind].
  destruct (EnqueueBack_spec hp q ls vs h Hrep Hh Hsm hd d ctx)
    as (hp1 & q1 & ls1 & r & -> & Ec & Hh' & _ & _ & Hr). cbn [mbind option_bind].
  destruct (sizeCap_ q <=? len vs) eqn:Hfull.
  - destruct Hr as (-> & -> & -> & Hrep'). cbn. intros [= <- <- <-]. exists q, ls, vs.
    split; cbn; try done. eauto.
  - destruct Hr as [-> Hrep']. cbn. intros [= <- <- <-]. exists q1, ls1, (vs ++ [new_node hd d ctx]).
    assert (on_way h (vs ++ [new_node hd d ctx]) = on_way h vs ++ [new_node hd d ctx]) as Eow
      by (unfold on_way; by rewrite app_assoc).
    change (accept ACC_OK (hd, d) acc) with (acc ++ [(hd, d)]).
    split; cbn; rewrite ?Eow; try done.
    + by rewrite Ec.
    + rewrite Ec, len_app. apply Z.leb_gt in Hfull. unfold len at 2. cbn [length]. destruct h; lia.
    + apply Forall_app. split; [done|]. apply Forall_singleton. by apply tx_node_new.
    + apply Forall_app. split; [done|]. by apply Forall_singleton.
    + rewrite fmap_app, concat_app, frames_app, app_assoc, Hout. f_equal.
      unfold frames. cbn. rewrite !app_nil_r. apply node_rest_new.
    + exists sn0. rewrite fmap_app, Hacc. split; [by rewrite <- app_assoc|done].
Qed.

Lemma accepted_header L t d :
  send_refused L t (Some d) = None → sendable d → 0 ≤ t < 48 ∧ u32 (len d) = len d.
Proof.
  unfold send_refused, MIN_MSG_TYPE, MAX_MSG_TYPE, sendable, MAX_RECV_BODY_LEN. intros Hr Hd.
  split; [|apply u32_small; lia]. destruct (0 <=? t) eqn:?, (t <? 48) eqn:?; cbn in Hr; try done. lia.
Qed.
Lemma valid_header t op sn d :
  - 2 ^ 15 ≤ t < 2 ^ 15 → - 2 ^ 15 ≤ op < 2 ^ 15 → 0 ≤ sn < 2 ^ 32 → sendable d →
  valid_msg (mkHeader t op (len d) sn 0, d).
Proof.
  unfold sendable, MAX_RECV_BODY_LEN. intros. unfold valid_msg, wf_header, MAX_RECV_BODY_LEN. cbn. lia.
Qed.
Lemma set_seqNo_same L : set_seqNo L (seqNo_ L) = L.
Proof. by destruct L. Qed.

(** The checks of the sends come before the queue. *)
Lemma tx_send_inv hp L k held acc sent q ls vs h hp' L' code t op sn sn' d ctx :
  tx_inv (mkTx hp L k held acc sent) q ls vs h → sendable d → 0 ≤ sn < 2 ^ 32 → 0 ≤ sn' < 2 ^ 32 →
  - 2 ^ 15 ≤ op < 2 ^ 15 →
  match send_refused L t (Some d) with
  | Some c => Some (hp, L, c)
  | None => EnqueueAndModifyEpoll false ACC_OK hp (set_seqNo L sn') (mkHeader t op (u32 (len d)) sn 0) (Some d) ctx
  end = Some (hp', L', code) →
  ∃ q' ls' vs', tx_inv (mkTx hp' L' k held (accept code (mkHeader t op (len d) sn 0, d) acc) sent) q' ls' vs' h.
Proof.
  intros Hi Hd Hsn Hsn' Hop. destruct (send_refused L t (Some d)) as [c|] eqn:Er.
  - intros [= <- <- <-]. assert (accept c (mkHeader t op (len d) sn 0, d) acc = acc) as ->; [|eauto].
    unfold accept. unfold send_refused in Er. repeat case_match; simplify_eq; done.
  - destruct (accepted_header L t d Er Hd) as [Ht ->]. intros E.
    eapply tx_enqueue_inv; [done| |exact Hsn'|exact E]. apply valid_header; [lia|done..].
Qed.

Lemma tx_take_inv hp L k acc sent q ls vs L' out :
  tx_inv (mkTx hp L k None acc sent) q ls vs None → poll_out_take hp L = Some (L', out) →
  ∃ q' ls' vs' h', tx_inv (mkTx hp L' k (match out with inl _ => None | inr l => Some l end) acc sent) q' ls' vs' h'.
Proof.
  intros Hi. pose proof (tx_inv_small _ _ _ _ _ Hi) as Hsm.
  destruct Hi as [Hq [Hw Hsn] Hcap Hrep Hh Hloc Hlen Hnodes Hval Hout Hsent]. cbn in *.
  unfold poll_out_take. rewrite Hq.
  pose proof (DequeueFront_spec hp q ls vs Hrep Hsm) as Hdq. destruct vs as [|v vs].
  - rewrite Hdq. cbn. intros [= <- <-]. exists q, ls, [], None. by split.
  - destruct Hdq as (q' & l & ls' & -> & -> & Hc & Hrep' & Hh'). cbn [mbind option_bind fst snd].
    intros [= <- <-]. exists q', ls', vs, (Some (l, v)).
    split; cbn [t_heap t_link t_sock t_held t_accepted t_sent queue_ set_queue worker_ seqNo_]; try done.
    + by rewrite Hc.
    + rewrite len_cons in Hlen. rewrite Hc. lia.
Qed.

Lemma tx_put_inv hp L k acc sent q ls vs h l hp' k' L' code info :
  tx_inv (mkTx hp L k (Some l) acc sent) q ls vs h →
  poll_out_send ssl hp k L l = Some (hp', k', L', (code, info)) →
  ∃ q' ls' vs', tx_inv (mkTx hp' L' k' None acc
    (if code =? ACC_LINK_MSG_SENT then sent ++ option_list (fst <$> info) else sent)) q' ls' vs' None.
Proof.
  intros Hi. pose proof (tx_inv_small _ _ _ _ _ Hi) as Hsm.
  destruct Hi as [Hq [Hw Hsn] Hcap Hrep Hh Hloc Hlen Hnodes Hval Hout (sn0 & Hacc & Hsent)]. cbn in *.
  destruct h as [[l0 v]|]; [|done]. cbn in Hloc. injection Hloc as ->.
  apply Forall_cons in Hnodes as [Hv Hnodes].
  destruct (poll_out_send_ok hp L q ls vs l v k Hq Hrep Hh Hsm Hv)
    as (hp1 & k1 & L1 & [c i] & -> & Hinfo & Hok). intros [= -> -> -> -> ->]. cbn in Hinfo. subst info.
  cbn [option_list fmap option_fmap option_map fst] in *.
  change (on_way (Some (l, v)) vs) with (v :: vs) in *. cbn [fmap list_fmap concat] in Hout, Hacc.
  destruct Hok as [(Ec & -> & Hrep' & Ho)|(Ec & q' & v' & -> & Hc & Hrep' & Hm & Hv' & Ho)]; cbn in Ec; subst code; cbn.
  - exists q, ls, vs. split; cbn; try done; [lia|by rewrite Ho, <- app_assoc|].
    exists (sn0 ++ [node_msg v]). rewrite Hacc, fmap_app, <- Hsent. by rewrite <- app_assoc.
  - exists q', (l :: ls), (v' :: vs). split; cbn; try done.
    + by rewrite Hc.
    + rewrite Hc, len_cons. lia.
    + by apply Forall_cons.
    + by rewrite app_assoc, Ho, <- app_assoc.
    + exists sn0. by rewrite Hm.
Qed.

Lemma tx_step_inv s s' q ls vs h :
  tx_step s s' → tx_inv s q ls vs h → ∃ q' ls' vs' h', tx_inv s' q' ls' vs' h'.
Proof.
  intros Hs Hi. pose proof (ti_link _ _ _ _ _ Hi) as [_ Hsn].
  destruct Hs as [hp L k held acc sent t d ctx hp' L' code Hd E
    |hp L k held acc sent t sn d ctx hp' L' code Hd Hn E
    |hp L k held acc sent t op sn d ctx hp' L' code Hd Hn Hop E
    |hp L k held acc sent hd res d hp' L' code Hd Hwf Hres E
    |hp L k acc sent L' out E|hp L k acc sent l hp' k' L' code info E]; cbn in Hsn.
  - edestruct (tx_send_inv hp L) as (? & ? & ? & ?); [done|done|exact Hsn| | |exact E|eauto]; [apply u32_range|lia].
  - edestruct (tx_send_inv hp L) as (? & ? & ? & ?); [done|done|exact Hn|exact Hsn| |by rewrite set_seqNo_same|eauto]; lia.
  - edestruct (tx_send_inv hp L) as (? & ? & ? & ?); [done|done|exact Hn|exact Hsn|exact Hop|by rewrite set_seqNo_same|eauto].
  - unfold Reply in E. destruct (negb (established_ L)).
    { injection E as <- <- <-. change (accept ACC_LINK_ERROR ?m acc) with acc. eauto. }
    apply bind_Some in E as ([[hp1 L1] c1] & E & [= <- <- <-]). rewrite <- (set_seqNo_same L) in E.
    rewrite u32_small in E by (unfold sendable, MAX_RECV_BODY_LEN in Hd; lia).
    destruct Hwf as (Ht & _ & _ & Hq & _).
    edestruct (tx_enqueue_inv hp L) as (? & ? & ? & ?); [done| |exact Hsn|exact E|eauto]. by apply valid_header.
  - assert (h = None) as ->. { pose proof (ti_loc _ _ _ _ _ Hi) as Hl. by destruct h. }
    eapply tx_take_inv; eauto.
  - edestruct tx_put_inv as (? & ? & ? & ?); eauto.
Qed.
End Send.

Lemma tx_run_inv {K} `{Socket K} {laws : SocketLaws K} ssl (Hroom : roomy ssl) (s s' : TxSys) q ls vs h :
  rtc (tx_step ssl) s s' → tx_inv s q ls vs h → ∃ q' ls' vs' h', tx_inv s' q' ls' vs' h'.
Proof.
  intros Hr. revert q ls vs h. induction Hr as [s|s s1 s' Hs _ IH]; intros q ls vs h Hi; [eauto|].
  destruct (tx_step_inv ssl Hroom s s1 q ls vs h Hs Hi) as (? & ? & ? & ? & Hi1). by eapply IH.
Qed.

(** ** A fresh link *)
Definition link_up (j : byte) (cap : Z) : AccTcpLinkComplexDefault :=
  (Initialize (Some j) link_new cap 0 true).1.

Lemma link_up_queue j cap : cap < 256 →
  link_up j cap = mkLink true recv_state_new (header_bytes (mkHeader 0 0 0 0 0))
    (Some (mkBuffer 0 1024 (Some (replicate 1024 j)))) (Some (queue_new cap)) 0 0 true.
Proof.
  intros Hc. unfold link_up, Initialize, UNO_256. rewrite (proj2 (Z.ltb_lt _ _)) by lia. done.
Qed.

Lemma rx_inv_init j cap : cap < 256 → rx_inv (link_up j cap) [].
Proof.
  intros Hc. rewrite link_up_queue by done. eexists _, _. split; [by split|]. left. by split_and!.
Qed.

Lemma tx_inv_init {K} `{Socket K} {laws : SocketLaws K} j cap (k : K) :
  0 ≤ cap < 256 → outgoing k = [] →
  tx_inv (mkTx ∅ (link_up j cap) k None [] []) (queue_new cap) [] [] None.
Proof.
  intros Hc Ho. rewrite link_up_queue by lia. split; cbn; try done; [lia| |unfold len; cbn; lia|by rewrite Ho|by exists []].
  split; try done. apply NoDup_nil_2.
Qed.

(** * Properties *)

(** C26: a link whose queue holds fewer than 256 messages delivers what it accepts,
    once and in order.  Whatever threads send, messages with a body that is not empty
    and not too long, at whatever moment, also between the worker's taking a message
    out and writing it, and however the socket cuts the writes, as long as each
    write takes at least a byte: the accepted messages are the ones reported as
    sent, in order, followed by those still queued, and what is on the wire is a
    prefix of their frames.  Once nothing is queued everything is on the wire; a
    peer that reads it, in whatever pieces, gets a prefix of the accepted
    messages, gets all of them as soon as it has read everything, and when its
    socket hands out bytes while it has any, as many calls as there are bytes are
    enough.  No buffer is exceeded and no freed node is touched. *)
Theorem link_delivers_in_order {K} `{Socket K} {laws : SocketLaws K} ssl j cap (k0 : K) s :
  roomy ssl → 0 ≤ cap < 256 → outgoing k0 = [] →
  rtc (tx_step ssl) (mkTx ∅ (link_up j cap) k0 None [] []) s →
  (∃ sent pending, t_accepted s = sent ++ pending ∧ t_sent s = fst <$> sent ∧
     outgoing (t_sock s) `prefix_of` frames (t_accepted s)) ∧
  (GetSize <$> queue_ (t_link s) = Some 0 → t_held s = None →
   t_sent s = fst <$> t_accepted s ∧ outgoing (t_sock s) = frames (t_accepted s) ∧
   ∀ rk n j', incoming rk = outgoing (t_sock s) →
     ∃ rk' L' got, receive_run ssl n j' rk (link_up j' cap) [] = Some (rk', L', got) ∧
       got `prefix_of` t_accepted s ∧ (incoming rk' = [] → got = t_accepted s) ∧
       (eager ssl → (length (incoming rk) ≤ n)%nat → got = t_accepted s)).
Proof.
  intros Hroom Hcap Ho Hr.
  assert (∃ q ls vs h, tx_inv s q ls vs h) as (q & ls & vs & h & Hi).
  { eapply (tx_run_inv ssl Hroom); [exact Hr|]. by apply tx_inv_init. }
  destruct Hi as [Hq _ _ Hrep Hh Hloc _ _ Hval Hout (sent & Hacc & Hsent)]. split.
  { exists sent, (node_msg <$> on_way h vs). split; [done|]. split; [done|]. rewrite <- Hout. by apply prefix_app_r. }
  rewrite Hq. intros [= Hsz] Hheld. unfold GetSize in Hsz. rewrite (qr_size _ _ _ _ Hrep) in Hsz.
  rewrite <- (len_vs _ _ _ _ Hrep) in Hsz. destruct vs; [|rewrite len_cons in Hsz; pose proof (len_nonneg vs); lia].
  rewrite Hheld in Hloc. destruct h; [done|]. cbn in Hout, Hacc. rewrite app_nil_r in Hout, Hacc. subst sent.
  split; [done|]. split; [done|]. intros rk n j' Hrk. rewrite Hrk, Hout.
  pose proof (rx_inv_init j' cap ltac:(lia)) as Hrx.
  destruct (receive_run_ok ssl n j' rk (link_up j' cap) [] (t_accepted s) []) as (rk' & L' & now & later & pre' & E & Em & Hi' & E');
    [done|by rewrite Hrk|done|].
  exists rk', L', now. split; [done|]. split; [rewrite Em; by apply prefix_app_r|]. split.
  - intros Hnil. rewrite Hnil, app_nil_r in E'. rewrite Em in Hval. apply Forall_app in Hval as [_ Hval].
    rewrite (rx_inv_partial L' pre' later Hi' E' Hval), app_nil_r in Em. done.
  - intros He Hn. destruct (receive_run_live ssl n j' rk (link_up j' cap) [] (t_accepted s) []) as (rk2 & L2 & E2 & _);
      [done|done|by rewrite Hrk|done|by rewrite Hrk, Hout|].
    rewrite E in E2. by injection E2.
Qed.

(** ** Two sockets

    A pipe that hands out at most seven bytes at a time and takes at most five; a
    narrow one also stops taking when its buffer is full. *)
Record Pipe := mkPipe { p_in : bytes; p_out : bytes; p_errno : Z }.
Definition pipe_recv (k : Pipe) (n : Z) : Pipe * Z * bytes :=
  let b := take (Nat.min 7 (Z.to_nat n)) (p_in k) in
  if len b =? 0 then (mkPipe (p_in k) (p_out k) EAGAIN, -1, [])
  else (mkPipe (drop (length b) (p_in k)) (p_out k) (p_errno k), len b, b).
Definition pipe_write (k : Pipe) (d : bytes) : Pipe * Z :=
  let b := take 5 d in
  if len b =? 0 then (k, 0) else (mkPipe (p_in k) (p_out k ++ b) (p_errno k), len b).
#[global] Instance Pipe_socket : Socket Pipe :=
  {| sock_recv := pipe_recv; SslRead := pipe_recv; sock_write := pipe_write; SslWrite := pipe_write;
     errno := p_errno; SslGetError := λ _ _, SSL_ERROR_SYSCALL |}.

Record Narrow := mkNarrow { n_pipe : Pipe; n_room : nat }.
Definition narrow_write (k : Narrow) (d : bytes) : Narrow * Z :=
  let b := take (n_room k) d in
  let p := n_pipe k in
  if len b =? 0 then (mkNarrow (mkPipe (p_in p) (p_out p) EAGAIN) (n_room k), -1)
  else (mkNarrow (mkPipe (p_in p) (p_out p ++ b) (p_errno p)) (n_room k - length b), len b).
Definition narrow_recv (k : Narrow) (n : Z) : Narrow * Z * bytes :=
  let '(p, r, b) := pipe_recv (n_pipe k) n in (mkNarrow p (n_room k), r, b).
#[global] Instance Narrow_socket : Socket Narrow :=
  {| sock_recv := narrow_recv; SslRead := narrow_recv; sock_write := narrow_write; SslWrite := narrow_write;
     errno := λ k, p_errno (n_pipe k); SslGetError := λ _ _, SSL_ERROR_SYSCALL |}.

Lemma take_then_drop {A} (l : list A) n : take n l ++ drop (length (take n l)) l = l.
Proof.
  rewrite length_take. destruct (Nat.min_spec n (length l)) as [[? ->]|[? ->]]; [apply take_drop|].
  rewrite take_ge, drop_all by lia. apply app_nil_r.
Qed.

Lemma pipe_recv_law k n k' r b :
  pipe_recv k n = (k', r, b) →
  p_out k' = p_out k ∧ (0 < r → len b = r ∧ r ≤ n ∧ p_in k = b ++ p_in k') ∧ (r ≤ 0 → p_in k' = p_in k).
Proof.
  unfold pipe_recv. set (c := take _ (p_in k)).
  assert (len c ≤ n ∨ len c = 0) as Hc by (unfold c, len; rewrite length_take; lia).
  pose proof (len_nonneg c).
  destruct (Z.eqb_spec (len c) 0) as [E|E]; intros [= <- <- <-]; cbn [p_in p_out]; (split_and!; [done|intros ?|intros ?]); try lia.
  - done.
  - split_and!; [done|lia|]. symmetry. apply take_then_drop.
Qed.

#[global] Instance Pipe_laws : SocketLaws Pipe.
Proof.
  refine {| incoming := p_in; outgoing := p_out |}.
  - intros [] k n k' r b; apply pipe_recv_law.
  - intros ssl k d k' r E. assert (pipe_write k d = (k', r)) as E' by (by destruct ssl). clear E.
    revert E'. unfold pipe_write. set (c := take 5 d). pose proof (len_nonneg c).
    assert (len c ≤ len d ∧ take (Z.to_nat (len c)) d = c) as [Hc Ht].
    { unfold c, len. rewrite Nat2Z.id, length_take. split; [lia|].
      destruct (Nat.min_spec 5 (length d)) as [[? ->]|[? ->]]; [done|]. by rewrite !take_ge by lia. }
    destruct (Z.eqb_spec (len c) 0) as [E|E]; intros [= <- <-]; cbn [p_in p_out n_pipe]; (split_and!; [done|intros ?|intros ?]); try lia.
    + done.
    + by rewrite Ht.
Defined.

#[global] Instance Narrow_laws : SocketLaws Narrow.
Proof.
  refine {| incoming k := p_in (n_pipe k); outgoing k := p_out (n_pipe k) |}.
  - intros ssl k n k' r b E. assert (narrow_recv k n = (k', r, b)) as E' by (by destruct ssl). clear E.
    unfold narrow_recv in E'. destruct (pipe_recv (n_pipe k) n) as [[p r0] b0] eqn:E. injection E' as <- <- <-.
    by apply pipe_recv_law in E.
  - intros ssl k d k' r E. assert (narrow_write k d = (k', r)) as E' by (by destruct ssl). clear E.
    revert E'. unfold narrow_write. set (c := take (n_room k) d). pose proof (len_nonneg c).
    assert (len c ≤ len d ∧ take (Z.to_nat (len c)) d = c) as [Hc Ht].
    { unfold c, len. rewrite Nat2Z.id, length_take. split; [lia|].
      destruct (Nat.min_spec (n_room k) (length d)) as [[? ->]|[? ->]]; [done|]. by rewrite !take_ge by lia. }
    destruct (Z.eqb_spec (len c) 0) as [E|E]; intros [= <- <-]; cbn [p_in p_out n_pipe]; (split_and!; [done|intros ?|intros ?]); try lia.
    + done.
    + by rewrite Ht.
Defined.

Lemma pipe_roomy : roomy (K := Pipe) false.
Proof.
  intros k [|x d] Hd; [done|]. change (0 < (pipe_write k (x :: d)).2). unfold pipe_write.
  assert (0 < len (take 5 (x :: d))) by (unfold len; cbn [take length]; lia).
  rewrite (proj2 (Z.eqb_neq _ 0)) by lia. cbn [fst snd]. lia.
Qed.
Lemma pipe_eager : eager (K := Pipe) false.
Proof.
  intros k n Hn Hi. change (0 < (pipe_recv k n).1.2). unfold pipe_recv. cbn [incoming Pipe_laws] in Hi. destruct (p_in k) as [|x l]; [done|].
  assert (0 < len (take (7 `min` Z.to_nat n) (x :: l))) by (unfold len; rewrite length_take; cbn [length]; lia).
  rewrite (proj2 (Z.eqb_neq _ 0)) by lia. cbn [fst snd]. lia.
Qed.

Definition hello : Message := (mkHeader 3 0 2 0 0, [Byte.x68; Byte.x69]).

Ltac tx_go := eapply rtc_l; [eapply tx_take; vm_compute; reflexivity|];
  eapply rtc_l; [eapply tx_put; vm_compute; reflexivity|].
Lemma link_delivers_in_order_witness :
  ∃ s rk' L', rtc (tx_step false) (mkTx ∅ (link_up Byte.x00 32) (mkPipe [] [] 0) None [] []) s ∧
    p_out (t_sock s) = frames [hello] ∧
    receive_run false 20 Byte.x00 (mkPipe (frames [hello]) [] 0) (link_up Byte.x00 32) []
      = Some (rk', L', [hello]).
Proof.
  eassert (rtc (tx_step false) (mkTx ∅ (link_up Byte.x00 32) (mkPipe [] [] 0) None [] [])
    (mkTx _ _ _ _ [hello] _)) as Hr.
  { eapply rtc_l; [eapply (tx_send _ _ _ _ _ _ _ 3 [Byte.x68; Byte.x69] 0);
      [vm_compute; split; discriminate|vm_compute; reflexivity]|].
    tx_go. tx_go. tx_go. tx_go. apply rtc_refl. }
  destruct (link_delivers_in_order (laws := Pipe_laws) false Byte.x00 32 (mkPipe [] [] 0) _ pipe_roomy
    ltac:(lia) eq_refl Hr) as [_ Hd].
  destruct (Hd eq_refl eq_refl) as (_ & Ho & Hrx).
  destruct (Hrx (mkPipe (frames [hello]) [] 0) 20%nat Byte.x00 ltac:(symmetry; exact Ho))
    as (rk' & L' & got & E & _ & _ & Hall).
  rewrite (Hall pipe_eager) in E by (vm_compute; lia).
  eexists _, rk', L'. split; [exact Hr|]. split; [exact Ho|exact E].
Defined.

(** A full socket buffer loses the message that is being sent.  When the
    header goes out and the write of the body is answered with EAGAIN, the worker
    is told to try again, but the message has been deleted: it is neither queued
    nor reported, and its header stays on the wire without a body. *)
Theorem send_eagain_loses_message {K} `{Socket K} {laws : SocketLaws K} ssl hp L q ls vs l v (k k1 k2 : K) r :
  queue_ L = Some q → queue_rep hp q ls vs → held_rep hp ls (Some (l, v)) → tx_node v →
  0 < headerRemain v →
  PollOutWrite ssl k (HeaderPtrToBeSend v) = (k1, headerRemain v) →
  PollOutWrite ssl k1 (DataPtrToBeSend v) = (k2, r) → r ≤ 0 → errno k2 = EAGAIN →
  ∃ hp', poll_out_send ssl hp k L l = Some (hp', k2, L, (ACC_LINK_EAGAIN, Some (nheader v, cbCtx v))) ∧
    hp' !! l = None ∧ queue_rep hp' q ls vs ∧ outgoing k2 = outgoing k ++ HeaderPtrToBeSend v.
Proof.
  intros HL Hq Hh Hv Hr0 W1 W2 Hr He. pose proof Hh as (_ & _ & nx & Hlk & _).
  pose proof Hv as [_ Hhr Hdr _]. pose proof (length_header_ptr v Hv) as Hl.
  unfold poll_out_send. rewrite Hlk. cbn [mbind option_bind]. unfold Sent, HeaderSent.
  cbn [headerRemain dataRemain with_next]. rewrite (proj2 (Z.eqb_neq (headerRemain v) 0)) by lia. cbn [negb andb].
  change (HeaderPtrToBeSend (with_next v nx)) with (HeaderPtrToBeSend v). rewrite (take_all _ _ Hl), W1.
  rewrite (proj2 (Z.ltb_lt 0 _)), u32_small by lia. unfold HeaderAllSent. cbn [headerRemain dataRemain with_next].
  rewrite Z.leb_refl. unfold DataSent at 1. cbn [negb dataRemain with_remain with_next].
  rewrite (proj2 (Z.eqb_neq (dataRemain v) 0)) by lia.
  destruct (held_update hp q ls vs l v 0 (dataRemain v) Hq Hh) as (n & Hn & Hq1 & Hh1).
  rewrite Hlk in Hn. injection Hn as <-. unfold poll_out_data. rewrite lookup_insert_eq. cbn [mbind option_bind].
  unfold DataSent. cbn [dataRemain with_remain with_next]. rewrite (proj2 (Z.eqb_neq (dataRemain v) 0)) by lia.
  change (DataPtrToBeSend (with_remain (with_next v nx) 0 (dataRemain v))) with (DataPtrToBeSend v).
  rewrite (take_all _ _ (length_data_ptr v Hv)), W2. cbn [negb]. rewrite (proj2 (Z.ltb_ge 0 r)), He by lia.
  destruct (held_free _ _ _ _ _ _ Hq1 Hh1) as [-> Hq2]. cbn [mbind option_bind].
  eexists. split; [done|]. split; [by rewrite lookup_delete_eq|]. split; [done|].
  destruct (write_law ssl _ _ _ _ W2) as (_ & _ & ->); [|done].
  destruct (write_law ssl _ _ _ _ W1) as (_ & Hw & _). destruct (Hw Hr0) as [_ ->]. f_equal.
  apply take_all, Hl.
Qed.

Definition narrow_queue : AccLinkedMessageQueue := queue_new 32.
Definition narrow_heap : Heap := {[ 1%positive := new_node hello.1 hello.2 0 ]}.
Lemma send_eagain_loses_message_witness :
  ∃ hp' k2, poll_out_send false narrow_heap (mkNarrow (mkPipe [] [] 0) 16) (link_up Byte.x00 32) 1%positive
      = Some (hp', k2, link_up Byte.x00 32, (ACC_LINK_EAGAIN, Some (hello.1, 0))) ∧
    hp' !! 1%positive = None ∧ p_out (n_pipe k2) = header_bytes hello.1.
Proof.
  edestruct (send_eagain_loses_message (laws := Narrow_laws) false narrow_heap (link_up Byte.x00 32) narrow_queue
    [] [] 1%positive (new_node hello.1 hello.2 0) (mkNarrow (mkPipe [] [] 0) 16)) as (hp' & E & Hl & _ & Ho).
  - reflexivity.
  - split; try done. apply NoDup_nil_2.
  - split; [apply not_elem_of_nil|]. split; [done|]. exists None. split; [by vm_compute|by left].
  - apply tx_node_new. vm_compute. repeat split; discriminate.
  - vm_compute. reflexivity.
  - vm_compute. reflexivity.
  - vm_compute. reflexivity.
  - vm_compute. discriminate.
  - vm_compute. reflexivity.
  - eexists _, _. split; [exact E|]. split; [exact Hl|]. exact Ho.
Defined.

(** ** Empty bodies *)

(** The link waits for a body of no bytes. *)
Definition stuck (L : AccTcpLinkComplexDefault) : Prop :=
  headerToBeReceived (receiveState_ L) = 0 ∧ bodyToBeReceived (receiveState_ L) = 0 ∧
  bodyLen (header_of (header_ L)) = 0 ∧ ∃ buf mem, data_ L = Some buf ∧ bdata_ buf = Some mem.

Lemma stuck_body {K} `{Socket K} {laws : SocketLaws K} ssl (k : K) L :
  stuck L → ∃ k' L' r, poll_in_body ssl k L = Some (k', L', r) ∧ waiting r ∧ stuck L'.
Proof.
  intros (Hh & Hb & Hl & buf & mem & Hd & Hm). unfold poll_in_body.
  rewrite Hd. cbn [mbind option_bind]. rewrite Hm, Hb, Hl. cbn [mbind option_bind].
  change (u64 (0 - u64 0)) with 0. unfold recv_into. pose proof (len_nonneg mem).
  rewrite (proj2 (Z.ltb_ge (len mem) _)) by lia. cbn [Z.ltb orb Z.compare].
  destruct (PollInRecv ssl k 0) as [[k' r] b] eqn:E. cbn [mbind option_bind].
  destruct (recv_law ssl k 0 k' r b E) as (_ & Hpos & _). destruct (Z.ltb_spec 0 r) as [Hr|Hr].
  { destruct (Hpos Hr). lia. }
  eexists _, _, _. split; [done|]. split; [apply recv_failed_code|]. split_and!; try done. eauto.
Qed.

Lemma stuck_run {K} `{Socket K} {laws : SocketLaws K} ssl n j (k : K) L got :
  stuck L → ∃ k' L', receive_run ssl n j k L got = Some (k', L', got).
Proof.
  revert k L. induction n as [|n IH]; intros k L Hs; cbn [receive_run]; [eauto|].
  pose proof Hs as (Hh & _). unfold HandlePollIn, ShouldReceiveHeader. rewrite Hh. cbn [Z.ltb Z.compare].
  destruct (stuck_body ssl k L Hs) as (k' & L' & r & -> & [-> | ->] & Hs'); cbn; eauto.
Qed.

(** The header of an empty message arrives: the link gets stuck. *)
Lemma empty_body_run {K} `{Socket K} {laws : SocketLaws K} ssl n j (k : K) L buf mem pre h rest :
  wf_header h → bodyLen h = 0 → rx_mem L buf mem → in_header L pre →
  pre ++ incoming k = header_bytes h ++ rest →
  ∃ k' L', receive_run ssl n j k L [] = Some (k', L', []).
Proof.
  intros Hwf Hb. revert k L pre. induction n as [|n IH]; intros k L pre Hm Hst E; cbn [receive_run]; [eauto|].
  destruct (poll_in_header_step ssl (Some j) k L buf mem pre Hm Hst)
    as [(k' & L' & r & pre' & -> & [-> | ->] & E' & Hm' & Hst' & _)|(k' & hd & -> & Hl & E' & _)]; cbn.
  - eapply IH; [exact Hm'|exact Hst'|by rewrite E'].
  - eauto.
  - rewrite E in E'. apply app_inj_1 in E' as [-> _]; [|by rewrite length_header].
    unfold header_done. rewrite (rm_data _ _ _ Hm), header_roundtrip, Hb by done. cbn [mbind option_bind].
    destruct (AllocIfNeed_spec j buf mem 0 (rm_mem _ _ _ Hm) (rm_size _ _ _ Hm)) as (buf' & mem' & -> & Hb' & _);
      [unfold MAX_RECV_BODY_LEN; lia|].
    cbn [negb]. edestruct (stuck_body ssl k') as (k2 & L2 & r & -> & Hw & Hs2).
    { split_and!; [done..| |by eexists _, mem']. cbn [header_ set_rx]. by rewrite header_roundtrip. }
    cbn. destruct Hw as [-> | ->]; cbn; [by apply stuck_run|eauto].
Qed.

(** A message with an empty body blocks its link.  The sender takes it and
    reports it as sent; the receiver then asks the socket for no bytes, takes the
    answer for a failure, and never delivers it nor anything behind it, whatever
    arrives and however often it is called. *)
Theorem empty_body_blocks_link {K} `{Socket K} {laws : SocketLaws K} ssl n j cap h rest (k : K) :
  cap < 256 → wf_header h → bodyLen h = 0 → incoming k = header_bytes h ++ rest →
  ∃ k' L', receive_run ssl n j k (link_up j cap) [] = Some (k', L', []).
Proof.
  intros Hc Hwf Hb E. rewrite link_up_queue by done.
  eapply (empty_body_run ssl n j k _ _ _ []); [done|done| | |exact E]; [by split|by split_and!].
Qed.

Lemma empty_body_blocks_link_witness :
  ∃ k' L', receive_run false 100 Byte.x00
    (mkPipe (header_bytes (mkHeader 3 0 0 7 0) ++ frames [hello]) [] 0) (link_up Byte.x00 32) []
    = Some (k', L', []).
Proof.
  apply (empty_body_blocks_link (laws := Pipe_laws) false 100 Byte.x00 32 (mkHeader 3 0 0 7 0) (frames [hello])).
  - lia.
  - vm_compute. repeat split; discriminate.
  - reflexivity.
  - reflexivity.
Defined.

(** ** The blocking receive *)
Section Blocking.
Context {K : Type} `{Socket K} {laws : SocketLaws K} (ssl : bool).
(** A call that fails sets errno. *)
Definition fails_loudly : Prop :=
  ∀ k n k' r b, PollInRecv ssl k n = (k', r, b) → r < 0 → 0 < errno k'.
Context (Hloud : fails_loudly).

Lemma plain_error_code k : 0 < errno k → plain_error k = - errno k.
Proof.
  intros He. unfold plain_error, set_count. case_decide as Hd; [|done].
  exfalso. revert Hd. unfold g_errnoToReconn. rewrite !elem_of_cons, elem_of_nil.
  unfold EPERM, EINTR, EBADF, EAGAIN, EPIPE, ECONNRESET, EISCONN, ENOTCONN, ETIMEDOUT, ENETDOWN, ENETUNREACH, ECONNREFUSED.
  lia.
Qed.
Lemma ssl_error_code (k : K) r : ssl_error k r = ACC_LINK_NEED_RECONN ∨ ssl_error k r = ACC_LINK_MSG_INVALID.
Proof. unfold ssl_error. repeat case_match; auto. Qed.

(** What a call of the blocking receive may end with. *)
Definition recv_end (k' : K) (remain : Z) (code : Z) (b : bytes) : Prop :=
  (code = ACC_OK → len b = remain) ∧
  (ssl = false → code = ACC_OK ∨ code = ACC_LINK_ERROR ∨ code = - errno k').

Lemma block_recv_loop_ok fuel k remain got k' code g :
  0 ≤ remain < 2 ^ 32 → block_recv_loop ssl fuel k remain got = Some (k', code, g) →
  ∃ b, g = got ++ b ∧ incoming k = b ++ incoming k' ∧ recv_end k' remain code b.
Proof.
  revert k remain got. induction fuel as [|fuel IH]; intros k remain got Hr; cbn [block_recv_loop];
    destruct (Z.eqb_spec remain 0) as [->|Hne]; try done.
  1, 2: intros [= <- <- <-]; exists []; rewrite app_nil_r; split_and!; try done; split; auto.
  destruct (PollInRecv ssl k remain) as [[k1 r] b] eqn:E.
  destruct (recv_law ssl k remain k1 r b E) as (_ & Hpos & Hneg).
  assert (∀ c, r ≤ 0 → c ≠ ACC_OK → (ssl = false → c = ACC_LINK_ERROR ∨ c = - errno k1) →
    Some (k1, c, got) = Some (k', code, g) →
    ∃ b, g = got ++ b ∧ incoming k = b ++ incoming k' ∧ recv_end k' remain code b) as Hend.
  { intros c Hle Hc Hs [= <- <- <-]. exists []. rewrite app_nil_r, (Hneg Hle). split_and!; try done.
    split; [done|]. intros Hf. auto. }
  assert (0 < r → block_recv_loop ssl fuel k1 (if remain <? r then 0 else remain -32 r) (got ++ b) = Some (k', code, g) →
    ∃ b, g = got ++ b ∧ incoming k = b ++ incoming k' ∧ recv_end k' remain code b) as Hgo.
  { intros Hp. destruct (Hpos Hp) as (Hl & Hle & Hin). rewrite (proj2 (Z.ltb_ge remain r)), u32_small by lia.
    intros (b' & -> & Hin' & Hok & Hc)%IH; [|lia]. exists (b ++ b'). rewrite Hin, Hin', !app_assoc. split_and!; try done.
    split; [|done]. intros Ho. rewrite len_app, (Hok Ho). lia. }
  destruct ssl eqn:Es.
  - destruct (Z.leb_spec r 0) as [Hle|Hgt]; [|auto]. apply Hend; [done| |done].
    destruct (ssl_error_code k1 r) as [-> | ->]; done.
  - destruct (Z.ltb_spec r 0) as [Hlt|Hge].
    + specialize (Hloud k remain k1 r b). rewrite Es in Hloud. specialize (Hloud E Hlt).
      destruct (errno k1 =? EINTR).
      * intros (b' & -> & Hin' & Hok)%IH; [|lia]. rewrite Hneg in Hin' by lia. eauto.
      * rewrite plain_error_code by done. apply Hend; [lia|unfold ACC_OK; lia|by right].
    + destruct (Z.eqb_spec r 0) as [->|]; [apply Hend; auto; done|]. apply Hgo. lia.
Qed.

Lemma block_recv_loop_live fuel k remain got :
  eager ssl → 0 ≤ remain < 2 ^ 32 → remain ≤ len (incoming k) → remain ≤ Z.of_nat fuel →
  ∃ k', block_recv_loop ssl fuel k remain got = Some (k', ACC_OK, got ++ take (Z.to_nat remain) (incoming k)).
Proof.
  intros He. revert k remain got. induction fuel as [|fuel IH]; intros k remain got Hr Hl Hf; cbn [block_recv_loop];
    destruct (Z.eqb_spec remain 0) as [->|Hne]; try (by exists k; rewrite app_nil_r); [lia|].
  destruct (PollInRecv ssl k remain) as [[k1 r] b] eqn:E.
  destruct (recv_law ssl k remain k1 r b E) as (_ & Hpos & _).
  assert (0 < r) as Hp.
  { specialize (He k remain ltac:(lia)). rewrite E in He. apply He. intros E0. rewrite E0 in Hl. unfold len in Hl. cbn in Hl. lia. }
  destruct (Hpos Hp) as (Hlb & Hle & Hin). rewrite (proj2 (Z.ltb_ge remain r)), u32_small by lia.
  rewrite (proj2 (Z.leb_gt r 0)), (proj2 (Z.ltb_ge r 0)), (proj2 (Z.eqb_neq r 0)) by lia.
  rewrite Hin, len_app in Hl.
  destruct (IH k1 (remain - r) (got ++ b)) as (k' & E'); [lia..|]. exists k'.
  assert (take (Z.to_nat remain) (incoming k) = b ++ take (Z.to_nat (remain - r)) (incoming k1)) as ->.
  { rewrite Hin, take_app, take_ge by (unfold len in Hlb; lia). do 2 f_equal. unfold len in Hlb. lia. }
  rewrite app_assoc. by destruct ssl.
Qed.
End Blocking.

(** The blocking receive is exact.  Whatever it returns, the bytes it stored
    are the next ones of the stream and nothing else was consumed; on success they
    are exactly as many as demanded; without TLS it ends only with success, a
    closed link or the negative errno (never asking for a reconnection); and when
    the bytes are there, as many rounds as bytes are enough. *)
Theorem block_recv_exact {K} `{Socket K} {laws : SocketLaws K} ssl n (k : K) :
  0 < n < 2 ^ 32 → fails_loudly ssl →
  (∀ fuel k' code got, BlockRecv ssl fuel true k n = Some (k', code, got) →
     incoming k = got ++ incoming k' ∧ (code = ACC_OK → len got = n) ∧
     (ssl = false → code = ACC_OK ∨ code = ACC_LINK_ERROR ∨ code = - errno k')) ∧
  (eager ssl → n ≤ len (incoming k) → ∀ fuel, n ≤ Z.of_nat fuel →
     ∃ k', BlockRecv ssl fuel true k n = Some (k', ACC_OK, take (Z.to_nat n) (incoming k))).
Proof.
  intros Hn Hloud. unfold BlockRecv. rewrite (proj2 (Z.eqb_neq n 0)) by lia. cbn [negb]. split.
  - intros fuel k' code got (b & -> & Hin & Hok & Hc)%block_recv_loop_ok; [done|done|lia].
  - intros He Hl fuel Hf. by apply (block_recv_loop_live ssl fuel k n []); [|lia|..].
Qed.

Lemma block_recv_exact_witness :
  ∃ k', BlockRecv false 16 true (mkPipe (frames [hello]) [] 0) 16 = Some (k', ACC_OK, header_bytes hello.1).
Proof.
  destruct (block_recv_exact (laws := Pipe_laws) false 16 (mkPipe (frames [hello]) [] 0)) as [_ Hlive].
  - lia.
  - intros k n k' r b. change (PollInRecv false k n) with (pipe_recv k n). unfold pipe_recv.
    destruct (_ =? 0); intros [= <- <- <-]; [done|]. intros Hlt. unfold len in Hlt. lia.
  - apply (Hlive pipe_eager); [vm_compute; discriminate|lia].
Defined.
