(* ===== verification/TransFault.v ===== *)
(** * The trans registry: server side (src/src/smem/csrc/smem_trans/smem_trans_fault_handler)

    The ranks of a transfer session publish their devices and memory slices in
    tables kept in the store.  The fault handler hangs into the store server: it
    follows the operations of each link, and when a link breaks it marks the
    records of that link as abnormal and keeps their slots for later ranks.

    The handler is one object of the server process that its registered
    functions share; here it is kept beside the backend ([Hosted]), so that the
    handlers the server model takes can read and change it.

    Not from the source: [undefined] is set where the source does what the
    language leaves undefined (a division by zero, a write behind a value, an
    overflow of [int]); [junk] stands for the members a new [RankInfo] leaves
    uninitialised. *)
From Stdlib Require Import Strings.Byte Strings.String.
From stdpp Require Import base numbers list gmap strings.
From S2P Require Import Prelude StrUtil MessagePacker StoreBackend StoreServer.
Local Open Scope Z_scope.

(** ** Keys (smem_trans_store_helper.h) *)
Definition AUTO_RANK_KEY_PREFIX : string := "auto_ranking_key_".
Definition CLUSTER_RANKS_INFO_KEY : string := "cluster_ranks_info".
Definition SENDER_COUNT_KEY : string := "count_for_senders".
Definition SENDER_DEVICE_INFO_KEY : string := "devices_info_for_senders".
Definition SENDER_GET_DEVICE_ID_KEY : string := "get_devices_id_for_senders".
Definition RECEIVER_COUNT_KEY : string := "receiver_for_senders".
Definition RECEIVER_DEVICE_INFO_KEY : string := "devices_info_for_receivers".
Definition RECEIVER_GET_DEVICE_ID_KEY : string := "get_devices_id_for_receivers".
Definition RECEIVER_TOTAL_SLICE_COUNT_KEY : string := "receivers_total_slices_count".
Definition RECEIVER_SLICES_INFO_KEY : string := "receivers_all_slices_info".
Definition RECEIVER_GET_SLICES_ID_KEY : string := "get_receivers_all_slices_id".
Definition SENDER_TOTAL_SLICE_COUNT_KEY : string := "senders_total_slices_count".
Definition SENDER_SLICES_INFO_KEY : string := "senders_all_slices_info".
Definition SENDER_GET_SLICES_ID_KEY : string := "get_senders_all_slices_id".

(** [enum DataStatusType : uint8_t] *)
Definition ABNORMAL : byte := Byte.x00.
Definition NORMAL : byte := Byte.x01.

(** [s.find(sub) != std::string::npos] *)
Fixpoint contains (sub s : string) : bool :=
  String.prefix sub s || match s with EmptyString => false | String _ s' => contains sub s' end.

(** ** State *)
Record ConfigServerDeviceInfo := mkDInfo {
  deviceInfoId : Z; deiviceInfoUint : Z; deviceInfoKey : string; deviceCountKey : string }.
Record ConfigServerSliceInfo := mkSInfo {
  sliceInfoUint : Z; sliceInfoId : list Z; sliceInfoKey : string; sliceCountKey : string }.
Record RankInfo := mkRankInfo {
  rankId : Z; rankName : string; dInfo : ConfigServerDeviceInfo; sInfo : ConfigServerSliceInfo }.
Definition RankInfo_new (junk rId : Z) (rName : string) : RankInfo :=
  mkRankInfo rId rName (mkDInfo 0 junk "" "") (mkSInfo junk [] "" "").

Record SmemStoreFaultHandler := mkFault {
  linkIdToRankInfoMap_ : gmap Z RankInfo;
  faultRankIdQueue_ : list Z;
  faultDeviceIdQueue_ : list Z * list Z;    (* first->sender, second->receiver *)
  faultSliceIdQueue_ : list Z * list Z;
  undefined : bool;
}.
Definition fault_new : SmemStoreFaultHandler := mkFault ∅ [] ([], []) ([], []) false.

Definition set_links (f : SmemStoreFaultHandler) m : SmemStoreFaultHandler :=
  mkFault m (faultRankIdQueue_ f) (faultDeviceIdQueue_ f) (faultSliceIdQueue_ f) (undefined f).
Definition set_rankq (f : SmemStoreFaultHandler) q : SmemStoreFaultHandler :=
  mkFault (linkIdToRankInfoMap_ f) q (faultDeviceIdQueue_ f) (faultSliceIdQueue_ f) (undefined f).
Definition set_deviceq (f : SmemStoreFaultHandler) q : SmemStoreFaultHandler :=
  mkFault (linkIdToRankInfoMap_ f) (faultRankIdQueue_ f) q (faultSliceIdQueue_ f) (undefined f).
Definition set_sliceq (f : SmemStoreFaultHandler) q : SmemStoreFaultHandler :=
  mkFault (linkIdToRankInfoMap_ f) (faultRankIdQueue_ f) (faultDeviceIdQueue_ f) q (undefined f).
Definition set_undefined (f : SmemStoreFaultHandler) : SmemStoreFaultHandler :=
  mkFault (linkIdToRankInfoMap_ f) (faultRankIdQueue_ f) (faultDeviceIdQueue_ f) (faultSliceIdQueue_ f) true.
Definition with_dInfo (r : RankInfo) (d : ConfigServerDeviceInfo) : RankInfo :=
  mkRankInfo (rankId r) (rankName r) d (sInfo r).
Definition with_sInfo (r : RankInfo) (i : ConfigServerSliceInfo) : RankInfo :=
  mkRankInfo (rankId r) (rankName r) (dInfo r) i.

(** A rank or slot number as two bytes, low byte first. *)
Definition id_bytes (id : Z) : bytes := [byte_of_Z (Z.land id 255); byte_of_Z (Z.shiftr id 8)].
Definition id_of_bytes (b0 b1 : byte) : Z := Z.lor (Z_of_byte b0) (u16 (Z.shiftl (Z_of_byte b1) 8)).

(** ** The operation handlers, on the handler's own state *)
Definition BuildLinkIdToRankInfoMap (junk linkId : Z) (key : string) (value : bytes)
    (f : SmemStoreFaultHandler) : Z * SmemStoreFaultHandler :=
  if contains AUTO_RANK_KEY_PREFIX key then
    match value with
    | [b0; b1] =>
        (SM_OK, set_links f (<[linkId := RankInfo_new junk (id_of_bytes b0 b1) key]> (linkIdToRankInfoMap_ f)))
    | _ => (SM_ERROR, f)
    end
  else (SM_OK, f).

(** The link must have been recorded by its SET of the ranking key. *)
Definition update_link (linkId : Z) (g : RankInfo → RankInfo) (f : SmemStoreFaultHandler)
    : Z * SmemStoreFaultHandler :=
  match linkIdToRankInfoMap_ f !! linkId with
  | None => (SM_INVALID_PARAM, f)
  | Some r => (SM_OK, set_links f (<[linkId := g r]> (linkIdToRankInfoMap_ f)))
  end.

Definition AddRankInfoMap (linkId : Z) (key : string) (f : SmemStoreFaultHandler)
    : Z * SmemStoreFaultHandler :=
  if contains SENDER_COUNT_KEY key || contains RECEIVER_COUNT_KEY key then
    update_link linkId (λ r, let d := dInfo r in
      with_dInfo r (mkDInfo (deviceInfoId d) (deiviceInfoUint d) (deviceInfoKey d) key)) f
  else if contains SENDER_TOTAL_SLICE_COUNT_KEY key || contains RECEIVER_TOTAL_SLICE_COUNT_KEY key then
    update_link linkId (λ r, let i := sInfo r in
      with_sInfo r (mkSInfo (sliceInfoUint i) (sliceInfoId i) (sliceInfoKey i) key)) f
  else (SM_OK, f).

(** What WRITE and APPEND record: the slot, the size of a record and the table. *)
Definition note_record (linkId index size : Z) (key : string) (f : SmemStoreFaultHandler)
    : Z * SmemStoreFaultHandler :=
  if contains SENDER_DEVICE_INFO_KEY key || contains RECEIVER_DEVICE_INFO_KEY key then
    update_link linkId (λ r,
      with_dInfo r (mkDInfo index (u16 size) key (deviceCountKey (dInfo r)))) f
  else if contains SENDER_SLICES_INFO_KEY key || contains RECEIVER_SLICES_INFO_KEY key then
    update_link linkId (λ r,
      with_sInfo r (mkSInfo (u16 size) (sliceInfoId (sInfo r) ++ [index]) key (sliceCountKey (sInfo r)))) f
  else (SM_OK, f).

Definition WriteRankInfoMap (linkId : Z) (key : string) (value : bytes) (f : SmemStoreFaultHandler)
    : Z * SmemStoreFaultHandler :=
  let realValSize := len value - 4 in
  if realValSize <=? 0 then (SM_OK, set_undefined f) else
  let offset := le_val (take 4 value) in
  note_record linkId (u16 (offset / realValSize)) realValSize key f.

Definition AppendRankInfoMap (linkId : Z) (key : string) (value : bytes) (stored : Z * bytes)
    (f : SmemStoreFaultHandler) : Z * SmemStoreFaultHandler :=
  let '(ret, oldValue) := stored in
  if negb (ret =? SUCCESS) then (SM_INVALID_PARAM, f) else
  if len value =? 0 then (SM_OK, set_undefined f) else
  note_record linkId (u16 (len oldValue / len value - 1)) (len value) key f.

(** A slot left by a broken link, for a GET of one of the keys that ask for one. *)
Definition GetFromFaultInfo (key : string) (value : bytes) (f : SmemStoreFaultHandler)
    : Z * bytes * SmemStoreFaultHandler :=
  let give id f := (SM_GET_OBJIECT, value ++ id_bytes id, f) in
  let '(ds, dr) := faultDeviceIdQueue_ f in
  let '(ss, sr) := faultSliceIdQueue_ f in
  let none := (SM_OBJECT_NOT_EXISTS, value, f) in
  match faultRankIdQueue_ f, contains AUTO_RANK_KEY_PREFIX key with
  | id :: q, true => give id (set_rankq f q)
  | _, _ =>
  match ds, contains SENDER_GET_DEVICE_ID_KEY key with
  | id :: q, true => give id (set_deviceq f (q, dr))
  | _, _ =>
  match dr, contains RECEIVER_GET_DEVICE_ID_KEY key with
  | id :: q, true => give id (set_deviceq f (ds, q))
  | _, _ =>
  match ss, contains SENDER_GET_SLICES_ID_KEY key with
  | id :: q, true => give id (set_sliceq f (q, sr))
  | _, _ =>
  match sr, contains RECEIVER_GET_SLICES_ID_KEY key with
  | id :: q, true => give id (set_sliceq f (ss, q))
  | _, _ => none
  end end end end end.

(** ** A broken link *)
Section Clear.
Context {B : Type} `{ConfigStoreBackend B}.

(** [value[unit * id] = ABNORMAL], the product in [int]. *)
Definition mark_abnormal (value : bytes) (unit id : Z) : option bytes :=
  let offset := unit * id in
  if (2 ^ 31 <=? offset) || (len value <=? offset) then None
  else Some (<[Z.to_nat offset := ABNORMAL]> value).

(** The stored number less [n]. *)
Definition lower_count (b : B) (key : string) (n : Z) (oldValue : bytes) : B :=
  let '(ret, oldValue) := bk_Get b key oldValue in
  if ret =? SUCCESS then
    match String2Long oldValue with
    | Some valueNum => (bk_Put b key (to_string (i64 (valueNum - n))) 0).1
    | None => b
    end
  else b.

Definition push_device (f : SmemStoreFaultHandler) (key : string) (id : Z) : SmemStoreFaultHandler :=
  let '(s, r) := faultDeviceIdQueue_ f in
  if contains SENDER_DEVICE_INFO_KEY key then set_deviceq f (s ++ [id], r) else set_deviceq f (s, r ++ [id]).
Definition push_slice (f : SmemStoreFaultHandler) (key : string) (id : Z) : SmemStoreFaultHandler :=
  let '(s, r) := faultSliceIdQueue_ f in
  if contains SENDER_SLICES_INFO_KEY key then set_sliceq f (s ++ [id], r) else set_sliceq f (s, r ++ [id]).

Definition ClearDeviceInfo (rankInfo : RankInfo) (b : B) (f : SmemStoreFaultHandler)
    : B * SmemStoreFaultHandler :=
  let d := dInfo rankInfo in
  let '(ret, oldValue) := bk_Get b (deviceInfoKey d) [] in
  if ret =? SUCCESS then
    let f := push_device f (deviceInfoKey d) (deviceInfoId d) in
    match mark_abnormal oldValue (deiviceInfoUint d) (deviceInfoId d) with
    | None => (b, set_undefined f)
    | Some value =>
        let '(b, ret) := bk_Put b (deviceInfoKey d) value 0 in
        if negb (ret =? SUCCESS) then (b, f) else (lower_count b (deviceCountKey d) 1 value, f)
    end
  else (lower_count b (deviceCountKey d) 1 oldValue, f).

Fixpoint mark_slices (value : bytes) (unit : Z) (key : string) (ids : list Z) (f : SmemStoreFaultHandler)
    : option (bytes * SmemStoreFaultHandler) :=
  match ids with
  | [] => Some (value, f)
  | id :: ids' => v ← mark_abnormal value unit id; mark_slices v unit key ids' (push_slice f key id)
  end.

Definition ClearSliceInfo (rankInfo : RankInfo) (b : B) (f : SmemStoreFaultHandler)
    : B * SmemStoreFaultHandler :=
  let i := sInfo rankInfo in
  let n := len (sliceInfoId i) in
  let '(ret, oldValue) := bk_Get b (sliceInfoKey i) [] in
  if ret =? SUCCESS then
    match mark_slices oldValue (sliceInfoUint i) (sliceInfoKey i) (sliceInfoId i) f with
    | None => (b, set_undefined f)
    | Some (value, f) =>
        let '(b, ret) := bk_Put b (sliceInfoKey i) value 0 in
        if negb (ret =? SUCCESS) then (b, f) else (lower_count b (sliceCountKey i) n value, f)
    end
  else (lower_count b (sliceCountKey i) n oldValue, f).

Definition ClearFaultInfo (linkId : Z) (b : B) (f : SmemStoreFaultHandler) : B * SmemStoreFaultHandler :=
  match linkIdToRankInfoMap_ f !! linkId with
  | None => (b, f)
  | Some rankInfo =>
      let '(b, f) := ClearDeviceInfo rankInfo b f in
      let '(b, f) := ClearSliceInfo rankInfo b f in
      let '(b, _) := bk_Delete b (rankName rankInfo) in
      let f := set_rankq f (faultRankIdQueue_ f ++ [rankId rankInfo]) in
      (b, set_links f (delete linkId (linkIdToRankInfoMap_ f)))
  end.

(** ** Hanging into the server *)
Record Hosted := mkHosted { h_store : B; h_fault : SmemStoreFaultHandler }.
Definition over_store {A} (r : B * A) (h : Hosted) : Hosted * A := (mkHosted r.1 (h_fault h), r.2).
#[global] Instance hosted_backend : ConfigStoreBackend Hosted := {
  bk_Get h := bk_Get (h_store h);
  bk_Put h k v ttl := over_store (bk_Put (h_store h) k v ttl) h;
  bk_Delete h k := over_store (bk_Delete (h_store h) k) h;
  bk_Exist h := bk_Exist (h_store h);
  bk_Clear h := mkHosted (bk_Clear (h_store h)) (h_fault h);
  bk_Acquire h n := over_store (bk_Acquire (h_store h) n) h;
  bk_Release h n := over_store (bk_Release (h_store h) n) h;
  bk_TryAcquire h n t := over_store (bk_TryAcquire (h_store h) n t) h;
}.

Definition setHandler (junk : Z) : @OpHandler Hosted := λ linkId key value h,
  let '(ret, f) := BuildLinkIdToRankInfoMap junk linkId key value (h_fault h) in
  (ret, value, mkHosted (h_store h) f).
Definition getHandler : @OpHandler Hosted := λ linkId key value h,
  let '(ret, value, f) := GetFromFaultInfo key value (h_fault h) in
  (ret, value, mkHosted (h_store h) f).
Definition addHandler : @OpHandler Hosted := λ linkId key value h,
  let '(ret, f) := AddRankInfoMap linkId key (h_fault h) in (ret, value, mkHosted (h_store h) f).
Definition writeHandler : @OpHandler Hosted := λ linkId key value h,
  let '(ret, f) := WriteRankInfoMap linkId key value (h_fault h) in (ret, value, mkHosted (h_store h) f).
Definition appendHandler : @OpHandler Hosted := λ linkId key value h,
  let '(ret, f) := AppendRankInfoMap linkId key value (bk_Get (h_store h) key []) (h_fault h) in
  (ret, value, mkHosted (h_store h) f).
Definition clearHandler : @BrokenHandler Hosted := λ linkId h,
  let '(b, f) := ClearFaultInfo linkId (h_store h) (h_fault h) in mkHosted b f.

Definition RegisterHandlerToStore (junk : Z) (s : @AccStoreServer Hosted) : @AccStoreServer Hosted :=
  let s := RegisterOpHandler s (mt_code SET) (setHandler junk) in
  let s := RegisterOpHandler s (mt_code GET) getHandler in
  let s := RegisterOpHandler s (mt_code ADD) addHandler in
  let s := RegisterOpHandler s (mt_code WRITE) writeHandler in
  let s := RegisterOpHandler s (mt_code APPEND) appendHandler in
  RegisterBrokenLinkCHandler s (Some clearHandler).
End Clear.
Arguments Hosted : clear implicits.
