(* ===== verification/TransHelper.v ===== *)
(** * The trans registry: client side (src/src/smem/csrc/smem_trans/smem_trans_store_helper)

    How a rank takes its rank number, publishes its device and its memory slices
    in the tables of its role, writes them again to a restarted server, and finds
    what has changed in the tables of the other role.  A method is a [program]
    over the operations of the store; [None] as its result is an access behind a
    value.

    A table is the concatenation of records of one size, each a status byte and
    the data.  Not from the source: the objects that are copied as memory (the
    configuration, the exchange information, the slice information) are their
    bytes; the callback of a search is returned instead of called, since its
    result is only logged. *)
From Stdlib Require Import Strings.Byte Strings.String.
From stdpp Require Import base numbers list gmap strings.
From S2P Require Import Prelude SmemTypes StrUtil MessagePacker StoreBackend StoreServer StoreServerSpec StoreClient TransFault.
Local Open Scope Z_scope.
Local Open Scope mf_scope.

(** ** The store operations the helper uses *)
Inductive StoreOp :=
| OSet (k : string) (v : bytes)
| OGet (k : string) (timeoutMs : Z)
| OAdd (k : string) (n : Z)
| OAppend (k : string) (v : bytes)
| OWrite (k : string) (v : bytes) (offset : Z).
Abbreviation store_prog := (program StoreOp Outcome).
Definition do_op (op : StoreOp) : store_prog Outcome := Act op Ret.

(** A program carried out call by call; [None]: a call has no answer. *)
Fixpoint run_calls {St A} (call : St → StoreOp → St * option Outcome) (st : St) (p : store_prog A) : St * option A :=
  match p with
  | Ret a => (st, Some a)
  | Act op k =>
      match call st op with
      | (st, Some o) => run_calls call st (k o)
      | (st, None) => (st, None)
      end
  end.

Definition sop_at (p : PrefixConfigStore) (op : StoreOp) : StoreOp :=
  match op with
  | OSet k v => OSet (GetCompleteKey p k) v
  | OGet k t => OGet (GetCompleteKey p k) t
  | OAdd k n => OAdd (GetCompleteKey p k) n
  | OAppend k v => OAppend (GetCompleteKey p k) v
  | OWrite k v o => OWrite (GetCompleteKey p k) v o
  end.
Definition store_call {St} (send : St → bytes → St * option Response) (stale : bool)
    (st : St) (op : StoreOp) : St * option Outcome :=
  match op with
  | OSet k v => let '(st, c) := Set_ send st k v in (st, Some (mkOut c None None))
  | OGet k t => let '(st, r) := GetReal send st k t in (st, (λ r, mkOut r.1 r.2 None) <$> r)
  | OAdd k n => let '(st, (c, v)) := Add send stale st k n in (st, Some (mkOut c None v))
  | OAppend k v => let '(st, (c, n)) := Append send st k v in (st, Some (mkOut c None n))
  | OWrite k v o => let '(st, c) := Write send st k v o in (st, Some (mkOut c None None))
  end.

(** ** State *)
Inductive smem_trans_role := SMEM_TRANS_NONE | SMEM_TRANS_SENDER | SMEM_TRANS_RECEIVER | SMEM_TRANS_BOTH | SMEM_TRANS_BUTT.
#[global] Instance smem_trans_role_eq_dec : EqDecision smem_trans_role.
Proof. solve_decision. Defined.

Record StoreKeys := mkKeys {
  k_deviceCount : string; k_sliceCount : string; k_deviceInfo : string; k_sliceInfo : string;
  k_getDeviceId : string; k_getSliceId : string }.
Definition senderStoreKeys : StoreKeys :=
  mkKeys SENDER_COUNT_KEY SENDER_TOTAL_SLICE_COUNT_KEY SENDER_DEVICE_INFO_KEY
         SENDER_SLICES_INFO_KEY SENDER_GET_DEVICE_ID_KEY SENDER_GET_SLICES_ID_KEY.
Definition receiveStoreKeys : StoreKeys :=
  mkKeys RECEIVER_COUNT_KEY RECEIVER_TOTAL_SLICE_COUNT_KEY RECEIVER_DEVICE_INFO_KEY
         RECEIVER_SLICES_INFO_KEY RECEIVER_GET_DEVICE_ID_KEY RECEIVER_GET_SLICES_ID_KEY.

(** [sizeof(StoredSliceInfo)]: session 24, address 8, size 8, rank 2 and padding. *)
Definition sizeof_slice : Z := 48.

Record SmemStoreHelper := mkHelper {
  name_ : string;
  localKeys_ : StoreKeys;
  remoteKeys_ : StoreKeys;
  deviceExpSize_ : Z;
  sliceExpSize_ : Z;
  storeRankIdInfo_ : Z * bytes;
  storeDeviceInfo_ : Z * bytes;
  storeSliceInfo_ : list (Z * bytes);
  remoteDeviceInfoLastTime_ : bytes;
  remoteSlicesInfoLastTime_ : bytes;
}.
Definition set_keys (h : SmemStoreHelper) l r : SmemStoreHelper :=
  mkHelper (name_ h) l r (deviceExpSize_ h) (sliceExpSize_ h) (storeRankIdInfo_ h) (storeDeviceInfo_ h)
    (storeSliceInfo_ h) (remoteDeviceInfoLastTime_ h) (remoteSlicesInfoLastTime_ h).
Definition set_deviceExpSize (h : SmemStoreHelper) n : SmemStoreHelper :=
  mkHelper (name_ h) (localKeys_ h) (remoteKeys_ h) n (sliceExpSize_ h) (storeRankIdInfo_ h) (storeDeviceInfo_ h)
    (storeSliceInfo_ h) (remoteDeviceInfoLastTime_ h) (remoteSlicesInfoLastTime_ h).
Definition SetSliceExportSize (h : SmemStoreHelper) n : SmemStoreHelper :=
  mkHelper (name_ h) (localKeys_ h) (remoteKeys_ h) (deviceExpSize_ h) n (storeRankIdInfo_ h) (storeDeviceInfo_ h)
    (storeSliceInfo_ h) (remoteDeviceInfoLastTime_ h) (remoteSlicesInfoLastTime_ h).
Definition set_rankInfo (h : SmemStoreHelper) i : SmemStoreHelper :=
  mkHelper (name_ h) (localKeys_ h) (remoteKeys_ h) (deviceExpSize_ h) (sliceExpSize_ h) i (storeDeviceInfo_ h)
    (storeSliceInfo_ h) (remoteDeviceInfoLastTime_ h) (remoteSlicesInfoLastTime_ h).
Definition set_deviceInfo (h : SmemStoreHelper) i : SmemStoreHelper :=
  mkHelper (name_ h) (localKeys_ h) (remoteKeys_ h) (deviceExpSize_ h) (sliceExpSize_ h) (storeRankIdInfo_ h) i
    (storeSliceInfo_ h) (remoteDeviceInfoLastTime_ h) (remoteSlicesInfoLastTime_ h).
Definition add_sliceInfo (h : SmemStoreHelper) i : SmemStoreHelper :=
  mkHelper (name_ h) (localKeys_ h) (remoteKeys_ h) (deviceExpSize_ h) (sliceExpSize_ h) (storeRankIdInfo_ h)
    (storeDeviceInfo_ h) (storeSliceInfo_ h ++ [i]) (remoteDeviceInfoLastTime_ h) (remoteSlicesInfoLastTime_ h).
Definition set_lastDevices (h : SmemStoreHelper) c : SmemStoreHelper :=
  mkHelper (name_ h) (localKeys_ h) (remoteKeys_ h) (deviceExpSize_ h) (sliceExpSize_ h) (storeRankIdInfo_ h)
    (storeDeviceInfo_ h) (storeSliceInfo_ h) c (remoteSlicesInfoLastTime_ h).
Definition set_lastSlices (h : SmemStoreHelper) c : SmemStoreHelper :=
  mkHelper (name_ h) (localKeys_ h) (remoteKeys_ h) (deviceExpSize_ h) (sliceExpSize_ h) (storeRankIdInfo_ h)
    (storeDeviceInfo_ h) (storeSliceInfo_ h) (remoteDeviceInfoLastTime_ h) c.

Definition no_keys : StoreKeys := mkKeys "" "" "" "" "" "".
Definition helper_new (name : string) : SmemStoreHelper :=
  mkHelper name no_keys no_keys 0 0 (0, []) (0, []) [] [] [].

(** The keys by role; the rest of Initialize creates the store client. *)
Definition helper_Initialize (h : SmemStoreHelper) (role : smem_trans_role) : Z * SmemStoreHelper :=
  match role with
  | SMEM_TRANS_SENDER => (SM_OK, set_keys h senderStoreKeys receiveStoreKeys)
  | SMEM_TRANS_RECEIVER => (SM_OK, set_keys h receiveStoreKeys senderStoreKeys)
  | _ => (SM_INVALID_PARAM, h)
  end.

(** A call's result: the helper and the code; [None] is an access behind a value. *)
Abbreviation Called := (option (SmemStoreHelper * Z)).

(** ** Rank numbers *)
Definition rank_key (h : SmemStoreHelper) : string := (AUTO_RANK_KEY_PREFIX ++ name_ h)%string.

Definition RecoverRankInformation (h : SmemStoreHelper) (rankIdValue cfg : bytes) (key : string)
    : store_prog Called :=
  match rankIdValue with
  | b0 :: b1 :: _ =>
      let rankId := id_of_bytes b0 b1 in
      r ← do_op (OWrite CLUSTER_RANKS_INFO_KEY cfg (u32 (rankId * len cfg)));
      if negb (o_code r =? SUCCESS) then Ret (Some (h, o_code r)) else
      let h := set_rankInfo h (rankId, cfg) in
      r ← do_op (OSet key (id_bytes rankId));
      Ret (Some (h, o_code r))
  | _ => Ret None
  end.

(** The rank number as the last part of GenerateRankId reads it. *)
Definition read_rank (h : SmemStoreHelper) (rankIdValue : bytes) (isRestore : bool)
    : option (SmemStoreHelper * Z * Z) :=
  if negb (len rankIdValue =? 2) && negb isRestore then Some (h, SM_ERROR, 0) else
  match rankIdValue with
  | b0 :: b1 :: _ => Some (h, SM_OK, id_of_bytes b0 b1)
  | _ => None
  end.

(** The helper, the code and the rank number. *)
Definition GenerateRankId (h : SmemStoreHelper) (cfg : bytes)
    : store_prog (option (SmemStoreHelper * Z * Z)) :=
  let key := rank_key h in
  g ← do_op (OGet key 0);
  let rankIdValue := default [Byte.x00; Byte.x00] (o_val g) in
  if o_code g =? NOT_EXIST then
    a ← do_op (OAppend CLUSTER_RANKS_INFO_KEY cfg);
    if negb (o_code a =? SUCCESS) then Ret (Some (h, SM_ERROR, 0)) else
    let rankId := u16 (u16 (default 0 (o_num a) / len cfg) - 1) in
    let h := set_rankInfo h (rankId, cfg) in
    r ← do_op (OSet key (id_bytes rankId));
    if negb (o_code r =? SUCCESS) then Ret (Some (h, SM_ERROR, rankId)) else
    Ret (read_rank h (id_bytes rankId) false)
  else if o_code g =? RESTORE then
    r ← RecoverRankInformation h rankIdValue cfg key;
    match r with
    | None => Ret None
    | Some (h, ret) =>
        if negb (ret =? SUCCESS) then Ret (Some (h, SM_ERROR, 0)) else Ret (read_rank h rankIdValue true)
    end
  else if o_code g =? SUCCESS then Ret (read_rank h rankIdValue false)
  else Ret (Some (h, SM_ERROR, 0)).

Definition ReRegisterToServer (h : SmemStoreHelper) (rankId : Z) : store_prog Z :=
  let key := rank_key h in
  g ← do_op (OGet key 0);
  let check (ret : Z) (rankIdValue : bytes) : Z :=
    if ret =? SUCCESS then if len rankIdValue =? 2 then SM_OK else SM_ERROR else SM_ERROR in
  if o_code g =? NOT_EXIST then
    let '(first, second) := storeRankIdInfo_ h in
    r ← do_op (OWrite CLUSTER_RANKS_INFO_KEY second (u32 (len second * first)));
    if negb (o_code r =? SUCCESS) then Ret SM_ERROR else
    r ← do_op (OSet key (id_bytes rankId));
    if negb (o_code r =? SUCCESS) then Ret SM_ERROR else
    Ret (check (o_code r) (id_bytes rankId))
  else Ret (check (o_code g) (default [Byte.x00; Byte.x00] (o_val g))).

(** ** Publishing *)

(** The slot of the record: one given back by the server, written over, or a new
    one at the end; the code is that of the last operation. *)
Definition count_up (h : SmemStoreHelper) (key : string) : store_prog Called :=
  r ← do_op (OAdd key 1);
  Ret (Some (h, if negb (o_code r =? 0) then SM_ERROR else SM_OK)).

Definition StoreDeviceInfo (h : SmemStoreHelper) (info : bytes) : store_prog Called :=
  let h := set_deviceExpSize h (len info) in
  let value := NORMAL :: info in
  g ← do_op (OGet (k_getDeviceId (localKeys_ h)) 0);
  if o_code g =? RESTORE then
    match default [] (o_val g) with
    | b0 :: b1 :: _ =>
        let deviceId := id_of_bytes b0 b1 in
        r ← do_op (OWrite (k_deviceInfo (localKeys_ h)) value (u32 (deviceId * len value)));
        if negb (o_code r =? 0) then Ret (Some (h, SM_ERROR)) else
        count_up (set_deviceInfo h (deviceId, value)) (k_deviceCount (localKeys_ h))
    | _ => Ret None
    end
  else
    r ← do_op (OAppend (k_deviceInfo (localKeys_ h)) value);
    if negb (o_code r =? 0) then Ret (Some (h, SM_ERROR)) else
    let offset := u16 (default 0 (o_num r) / len value - 1) in
    count_up (set_deviceInfo h (offset, value)) (k_deviceCount (localKeys_ h)).

Definition ReStoreDeviceInfo (h : SmemStoreHelper) : store_prog Z :=
  let '(first, second) := storeDeviceInfo_ h in
  r ← do_op (OWrite (k_deviceInfo (localKeys_ h)) second (u32 (first * len second)));
  if negb (o_code r =? 0) then Ret SM_ERROR else
  r ← do_op (OAdd (k_deviceCount (localKeys_ h)) 1);
  if negb (o_code r =? 0) then Ret SM_ERROR else Ret SM_OK.

Definition StoreSliceInfo (h : SmemStoreHelper) (info sliceInfo : bytes) : store_prog Called :=
  let value := NORMAL :: sliceInfo ++ info in
  g ← do_op (OGet (k_getSliceId (localKeys_ h)) 0);
  if o_code g =? RESTORE then
    match default [] (o_val g) with
    | b0 :: b1 :: _ =>
        let sliceId := id_of_bytes b0 b1 in
        r ← do_op (OWrite (k_sliceInfo (localKeys_ h)) value (u32 (sliceId * len value)));
        if negb (o_code r =? 0) then Ret (Some (h, SM_ERROR)) else
        count_up (add_sliceInfo h (sliceId, value)) (k_sliceCount (localKeys_ h))
    | _ => Ret None
    end
  else
    r ← do_op (OAppend (k_sliceInfo (localKeys_ h)) value);
    let valueOffset := u16 (default 0 (o_num r) / len value - 1) in
    let h := add_sliceInfo h (valueOffset, value) in
    if negb (o_code r =? 0) then Ret (Some (h, SM_ERROR)) else
    count_up h (k_sliceCount (localKeys_ h)).

Fixpoint restore_slices (keys : StoreKeys) (slices : list (Z * bytes)) : store_prog Z :=
  match slices with
  | [] => Ret SM_OK
  | (first, second) :: slices' =>
      r ← do_op (OWrite (k_sliceInfo keys) second (u32 (first * len second)));
      if negb (o_code r =? 0) then Ret SM_ERROR else
      r ← do_op (OAdd (k_sliceCount keys) 1);
      if negb (o_code r =? 0) then Ret SM_ERROR else restore_slices keys slices'
  end.
Definition ReStoreSliceInfo (h : SmemStoreHelper) : store_prog Z :=
  restore_slices (localKeys_ h) (storeSliceInfo_ h).

(** ** Finding what changed

    The helper keeps the tables of the other role as it last saw them.  A record
    is at a multiple of its size; [off] is the place of its status byte. *)
Definition status (v : bytes) (off : nat) : byte := nth off v ABNORMAL.
Definition data_at (v : bytes) (off : nat) (size : nat) : bytes := take size (drop (S off) v).
Definition put_status (v : bytes) (off : nat) (s : byte) : bytes := splice v off [s].
Definition put_data (v : bytes) (off : nat) (d : bytes) : bytes := splice v (S off) d.

(** The cached table and what is to be added. *)
Definition compare_device (size : nat) (values : bytes) (st : bytes * list bytes) (i : nat)
    : bytes * list bytes :=
  let '(cur, addInfo) := st in
  let p := (i * S size)%nat in
  let newData := data_at values p size in
  if bool_decide (status cur p = NORMAL) && bool_decide (status values p = NORMAL) then
    if decide (data_at cur p size = newData) then (cur, addInfo)
    else (put_data cur p newData, addInfo ++ [newData])
  else if bool_decide (status cur p = NORMAL) then (put_status cur p ABNORMAL, addInfo)
  else if bool_decide (status values p = NORMAL) then
    (put_data (put_status cur p NORMAL) p newData, addInfo ++ [newData])
  else (cur, addInfo).
Definition CompareAndUpdateDeviceInfo (size minCount : nat) (values : bytes) (st : bytes * list bytes)
    : bytes * list bytes := foldl (compare_device size values) st (seq 0 minCount).

Definition add_device (size : nat) (values : bytes) (st : bytes * list bytes) (i : nat)
    : bytes * list bytes :=
  let '(cur, addInfo) := st in
  let p := (i * S size)%nat in
  let newData := data_at values p size in
  if bool_decide (status values p = NORMAL) then
    (put_data (put_status cur p NORMAL) p newData, addInfo ++ [newData])
  else (put_data (put_status cur p ABNORMAL) p newData, addInfo).

(** [uint32_t count = value.size() / (size + 1)] *)
Definition records (v : bytes) (size : nat) : nat := Z.to_nat (u32 (len v / (Z.of_nat size + 1))).

Definition ExtraDeviceChangeInfo (size : nat) (cur values : bytes) : bytes * list bytes :=
  if decide (cur = values) then (cur, []) else
  let newCount := records values size in
  let curCount := records cur size in
  let minCount := Nat.min newCount curCount in
  let '(cur, addInfo) := CompareAndUpdateDeviceInfo size minCount values (cur, []) in
  if (curCount <? newCount)%nat then
    foldl (add_device size values) (resize cur (List.length values), addInfo)
      (seq minCount (newCount - minCount))
  else (cur, addInfo).

(** A slice record's data is the slice information followed by the exchange
    information; the changes are the exchange information and the slice
    information to add, and the slice information to remove. *)
Record SliceChange := mkChange {
  addInfo : list bytes; addStoreSs : list bytes; removeStoreSs : list bytes }.
Definition slice_add (c : SliceChange) (d : bytes) : SliceChange :=
  mkChange (addInfo c ++ [drop (Z.to_nat sizeof_slice) d])
    (addStoreSs c ++ [take (Z.to_nat sizeof_slice) d]) (removeStoreSs c).
Definition slice_remove (c : SliceChange) (d : bytes) : SliceChange :=
  mkChange (addInfo c) (addStoreSs c) (removeStoreSs c ++ [take (Z.to_nat sizeof_slice) d]).

Definition compare_slice (size : nat) (values : bytes) (st : bytes * SliceChange) (i : nat)
    : bytes * SliceChange :=
  let '(cur, c) := st in
  let p := (i * S size)%nat in
  let newData := data_at values p size in
  if bool_decide (status cur p = NORMAL) && bool_decide (status values p = NORMAL) then
    if decide (data_at cur p size = newData) then (cur, c)
    else (put_data cur p newData, slice_add c newData)
  else if bool_decide (status cur p = NORMAL) then
    (put_status cur p ABNORMAL, slice_remove c (data_at cur p size))
  else if bool_decide (status values p = NORMAL) then
    (put_data (put_status cur p NORMAL) p newData, slice_add c newData)
  else (cur, c).
Definition CompareAndUpdateSliceInfo (size minCount : nat) (values : bytes) (st : bytes * SliceChange)
    : bytes * SliceChange := foldl (compare_slice size values) st (seq 0 minCount).

Definition add_slice (size : nat) (values : bytes) (st : bytes * SliceChange) (i : nat)
    : bytes * SliceChange :=
  let '(cur, c) := st in
  let p := (i * S size)%nat in
  let newData := data_at values p size in
  if bool_decide (status values p = NORMAL) then
    (put_data (put_status cur p NORMAL) p newData, slice_add c newData)
  else (put_data (put_status cur p ABNORMAL) p newData, c).

Definition ExtraSliceChangeInfo (size : nat) (cur values : bytes) : bytes * SliceChange :=
  if decide (cur = values) then (cur, mkChange [] [] []) else
  let newCount := records values size in
  let curCount := records cur size in
  let minCount := Nat.min newCount curCount in
  let '(cur, c) := CompareAndUpdateSliceInfo size minCount values (cur, mkChange [] [] []) in
  if (curCount <? newCount)%nat then
    foldl (add_slice size values) (resize cur (List.length values), c)
      (seq minCount (newCount - minCount))
  else (cur, c).

(** The helper, and what the callback is called with, if it is. *)
Definition FindNewRemoteRanks (h : SmemStoreHelper) : store_prog (SmemStoreHelper * option (list bytes)) :=
  if deviceExpSize_ h =? 0 then Ret (h, None) else
  r ← do_op (OAdd (k_deviceCount (remoteKeys_ h)) 0);
  if negb (o_code r =? 0) then Ret (h, None) else
  if (default 0 (o_num r) =? 0) && (len (remoteDeviceInfoLastTime_ h) =? 0) then Ret (h, None) else
  g ← do_op (OGet (k_deviceInfo (remoteKeys_ h)) (-1));
  if negb (o_code g =? 0) then Ret (h, None) else
  let '(cur, addInfo) :=
    ExtraDeviceChangeInfo (Z.to_nat (deviceExpSize_ h)) (remoteDeviceInfoLastTime_ h) (default [] (o_val g)) in
  Ret (set_lastDevices h cur, Some addInfo).

Definition FindNewRemoteSlices (h : SmemStoreHelper) : store_prog (SmemStoreHelper * option SliceChange) :=
  if sliceExpSize_ h =? 0 then Ret (h, None) else
  r ← do_op (OAdd (k_sliceCount (remoteKeys_ h)) 0);
  if negb (o_code r =? 0) then Ret (h, None) else
  if (default 0 (o_num r) =? 0) && (len (remoteSlicesInfoLastTime_ h) =? 0) then Ret (h, None) else
  g ← do_op (OGet (k_sliceInfo (remoteKeys_ h)) (-1));
  if negb (o_code g =? 0) then Ret (h, None) else
  let '(cur, c) :=
    ExtraSliceChangeInfo (Z.to_nat (sliceExpSize_ h + sizeof_slice)) (remoteSlicesInfoLastTime_ h)
      (default [] (o_val g)) in
  Ret (set_lastSlices h cur, Some c).

(** ** The entry's use of the helper (smem_trans_entry.cpp)

    The answers of the hybm entity are arguments: the code and the bytes of
    hybm_export, the code and the size of hybm_export_slice_size. *)
Definition ExportExchangeInfo (h : SmemStoreHelper) (export : Z * bytes) (slice_size : Z * Z)
    : store_prog Called :=
  if negb (export.1 =? SM_OK) then Ret (Some (h, SM_ERROR)) else
  if negb (slice_size.1 =? SM_OK) then Ret (Some (h, SM_ERROR)) else
  StoreDeviceInfo (SetSliceExportSize h slice_size.2) export.2.

(** [parsed]: the name is an address and a port; [npu]: the build has device
    support; [created]: hybm_create_entity gave an entity. *)
Definition trans_Initialize (h : SmemStoreHelper) (role : smem_trans_role) (parsed : bool) (cfg : bytes)
    (npu : bool) (dataOpType : Z) (created : bool) (export : Z * bytes) (slice_size : Z * Z)
    : store_prog (option (SmemStoreHelper * Z * Z)) :=
  if negb parsed then Ret (Some (h, SM_INVALID_PARAM, 0)) else
  let '(ret, h) := helper_Initialize h role in
  if negb (ret =? SM_OK) then Ret (Some (h, ret, 0)) else
  r ← GenerateRankId h cfg;
  match r with
  | None => Ret None
  | Some (h, ret, rankId) =>
      if negb (ret =? SM_OK) then Ret (Some (h, ret, rankId)) else
      if negb (Z.land dataOpType SMEMB_DATA_OP_SDMA =? 0) && negb npu then Ret (Some (h, SM_ERROR, rankId)) else
      if negb (Z.land dataOpType SMEMB_DATA_OP_DEVICE_RDMA =? 0) && negb npu then Ret (Some (h, SM_ERROR, rankId)) else
      if negb created then Ret (Some (h, SM_ERROR, rankId)) else
      x ← ExportExchangeInfo h export slice_size;
      match x with
      | None => Ret None
      | Some (h, ret) => Ret (Some (h, if negb (ret =? SM_OK) then SM_ERROR else SM_OK, rankId))
      end
  end.

Definition ReInitialize (h : SmemStoreHelper) (rankId : Z) : store_prog Z :=
  ret ← ReRegisterToServer h rankId;
  if negb (ret =? SM_OK) then Ret ret else
  ret ← ReStoreDeviceInfo h;
  if negb (ret =? SM_OK) then Ret ret else
  ReStoreSliceInfo h.

(** One round of the thread that watches the connection: the connection status
    before and after, the result of a reconnection, and the round's result. *)
Definition WatchConnectTaskOneLoop (h : SmemStoreHelper) (rankId : Z) (isConnect : bool)
    (ReConnectAfterBroken : Z) : store_prog (bool * Z) :=
  if isConnect then Ret (isConnect, SM_OK) else
  if negb (ReConnectAfterBroken =? SM_OK) then Ret (isConnect, SM_ERROR) else
  status ← ReInitialize h rankId;
  Ret (true, if negb (status =? SM_OK) then SM_ERROR else SM_OK).
