(* ===== verification/TransEntry.v ===== *)
(** * The trans entry (src/src/smem/csrc/smem_trans/smem_trans_entry)

    What a user of a transfer session calls: memories are registered with the
    hybm entity and published in the registry, the slices that the other role has
    published are imported and recorded, and addresses of the other side are
    translated for a copy.

    The hybm library is the class [HybmApi]: a state and the calls the entry
    makes.  Pointers and handles are numbers, 0 is null.  Not from the source:
    the name parser (a URL extraction and inet_pton) is a parameter, and so are
    the 6 padding bytes of a stored slice. *)
From Stdlib Require Import Strings.Byte Strings.String.
From stdpp Require Import base numbers list gmap strings sorting.
From S2P Require Import Prelude StoreBackend TransHelper VaManager SmemTypes.
Local Open Scope Z_scope.
Local Open Scope mf_scope.

#[global] Instance byte_countable : Countable byte := inj_countable Byte.to_N Byte.of_N Byte.of_to_N.

(** ** The hybm library, as the entry calls it *)
Class HybmApi (E : Type) := {
  hybm_entity_null : E → bool;
  hybm_register_local_memory : E → Z → Z → E * Z;             (* address, size; slice *)
  hybm_alloc_local_memory : E → Z → E * Z;                    (* size; slice *)
  hybm_get_slice_va : E → Z → Z;
  hybm_free_local_memory : E → Z → Z → E * Z;                 (* slice, size; code *)
  hybm_export : E → Z → E * Z * bytes;                        (* slice; code, description *)
  hybm_import_entities : E → list bytes → E * Z;
  hybm_import : E → list bytes → E * Z * list Z;              (* code, mapped addresses *)
  hybm_remove_imported : E → Z → E * Z;                       (* rank *)
  hybm_mmap : E → E;
  hybm_data_batch_copy : E → list (Z * Z * Z) → hybm_data_copy_direction → Z → Z → E * Z;
                                                              (* (source, destination, size), stream, flag *)
}.

(** ** State *)
Record LocalMapAddress := mkLocal { address : Z; size : Z }.
#[global] Instance LocalMapAddress_eq_dec : EqDecision LocalMapAddress.
Proof. solve_decision. Defined.

Record SmemTransEntry {E} := mkEntry {
  entity_ : E;
  rankId_ : Z;
  workerUniqueId_ : bytes;
  sliceInfoSize_ : Z;
  storeHelper_ : SmemStoreHelper;
  remoteSlices_ : gmap bytes (gmap Z LocalMapAddress);
  nameToWorkerId : gmap string bytes;
  addrToSliceMap_ : gmap Z Z;
}.
Arguments SmemTransEntry : clear implicits.
Arguments mkEntry {E}.

Definition ASYNC_COPY_FLAG : Z := 1.
Definition COPY_EXTEND_FLAG : Z := 2.
Definition TRANS_RESERVE_DRAM_VA_SIZE : Z := 1024 * 1024 * 1024 * 128.

(** The fields of a stored slice in its 48 bytes. *)
Definition ss_session (s : bytes) : bytes := take 24 s.
Definition ss_address (s : bytes) : Z := le_val (take 8 (drop 24 s)).
Definition ss_size (s : bytes) : Z := le_val (take 8 (drop 32 s)).
Definition ss_rankId (s : bytes) : Z := le_val (take 2 (drop 40 s)).
Definition StoredSliceInfo (padding session : bytes) (address size rankId : Z) : bytes :=
  session ++ le_bytes 8 address ++ le_bytes 8 size ++ le_bytes 2 rankId ++ padding.

(** ** Memory ranges *)
Definition NPU_PAGE_SIZE : Z := 2 * 1024 * 1024.
Definition NPU_PAGE_MASK : Z := U64_MAX - (NPU_PAGE_SIZE - 1).
Definition AlignMemory (m : Z * Z) : Z * Z :=
  let '(pointer, size) := m in
  let alignPtr := Z.land pointer NPU_PAGE_MASK in
  let diff := pointer - alignPtr in
  let size := u64 (size + diff) in
  let size := Z.land (u64 (size + NPU_PAGE_SIZE - 1)) NPU_PAGE_MASK in
  (alignPtr, size).

(** [operator<=] of a pair of pointer and size, for [std::sort]. *)
Definition mem_le (a b : Z * Z) : Prop := a.1 < b.1 ∨ (a.1 = b.1 ∧ a.2 ≤ b.2).
#[global] Instance mem_le_dec a b : Decision (mem_le a b).
Proof. unfold mem_le. apply _. Defined.

Fixpoint combine_loop (result : list (Z * Z)) (current : Z * Z) (input : list (Z * Z)) : list (Z * Z) :=
  match input with
  | [] => result ++ [current]
  | m :: input' =>
      if m.1 <=? u64 (current.1 + current.2) then
        let diff := m.1 - current.1 in
        if U64_MAX - m.2 <? u64 diff then combine_loop (result ++ [current]) m input'
        else combine_loop result (current.1, Z.max current.2 (u64 (diff + m.2))) input'
      else combine_loop (result ++ [current]) m input'
  end.
(** [None]: the first element of an empty vector is read. *)
Definition CombineMemories (input : list (Z * Z)) : option (list (Z * Z)) :=
  match merge_sort mem_le input with
  | [] => None
  | current :: rest => Some (combine_loop [] current rest)
  end.

Section Entry.
Context {E} `{HybmApi E} (ParseTransName : string → option bytes) (padding : bytes).
Local Abbreviation entry := (SmemTransEntry E).

Definition set_entity (t : entry) e : entry :=
  mkEntry e (rankId_ t) (workerUniqueId_ t) (sliceInfoSize_ t) (storeHelper_ t) (remoteSlices_ t) (nameToWorkerId t)
    (addrToSliceMap_ t).
Definition set_helper (t : entry) h : entry :=
  mkEntry (entity_ t) (rankId_ t) (workerUniqueId_ t) (sliceInfoSize_ t) h (remoteSlices_ t) (nameToWorkerId t)
    (addrToSliceMap_ t).
Definition set_remote (t : entry) r : entry :=
  mkEntry (entity_ t) (rankId_ t) (workerUniqueId_ t) (sliceInfoSize_ t) (storeHelper_ t) r (nameToWorkerId t)
    (addrToSliceMap_ t).
Definition set_names (t : entry) n : entry :=
  mkEntry (entity_ t) (rankId_ t) (workerUniqueId_ t) (sliceInfoSize_ t) (storeHelper_ t) (remoteSlices_ t) n
    (addrToSliceMap_ t).
Definition set_addrs (t : entry) a : entry :=
  mkEntry (entity_ t) (rankId_ t) (workerUniqueId_ t) (sliceInfoSize_ t) (storeHelper_ t) (remoteSlices_ t)
    (nameToWorkerId t) a.
(** Result of a call that uses the store; [None] is an access behind a value. *)
Local Abbreviation Done A := (store_prog (option (entry * A))).

(** ** Registering memory *)
Definition RegisterOneMemory (t : entry) (address size : Z) : Done Z :=
  let '(e, slice) := hybm_register_local_memory (entity_ t) address size in
  let t := set_entity t e in
  if slice =? 0 then Ret (Some (t, SM_ERROR)) else
  let '(e, ret, info) := hybm_export (entity_ t) slice in
  let t := set_entity t e in
  if negb (ret =? 0) then
    Ret (Some (set_entity t (hybm_free_local_memory (entity_ t) slice size).1, SM_ERROR)) else
  if negb (len info =? sliceInfoSize_ t) then
    Ret (Some (set_entity t (hybm_free_local_memory (entity_ t) slice size).1, SM_ERROR)) else
  let sliceInfo := StoredSliceInfo padding (workerUniqueId_ t) address size (rankId_ t) in
  x ← StoreSliceInfo (storeHelper_ t) info sliceInfo;
  match x with
  | None => Ret None
  | Some (h, ret) => Ret (Some (set_helper t h, if negb (ret =? 0) then SM_ERROR else SM_OK))
  end.

Definition RegisterLocalMemory (t : entry) (address size : Z) : Done Z :=
  if hybm_entity_null (entity_ t) then Ret (Some (t, SM_ERROR)) else
  if (address =? 0) || (size =? 0) then Ret (Some (t, SM_INVALID_PARAM)) else
  let '(address, size) := AlignMemory (address, size) in
  RegisterOneMemory t address size.

Fixpoint register_all (t : entry) (mm : list (Z * Z)) : Done Z :=
  match mm with
  | [] => Ret (Some (t, SM_OK))
  | m :: mm' =>
      x ← RegisterOneMemory t m.1 m.2;
      match x with
      | None => Ret None
      | Some (t, ret) => if negb (ret =? 0) then Ret (Some (t, ret)) else register_all t mm'
      end
  end.
Definition RegisterLocalMemories (t : entry) (regMemories : list (Z * Z)) : Done Z :=
  if hybm_entity_null (entity_ t) then Ret (Some (t, SM_ERROR)) else
  if decide (regMemories = []) then Ret (Some (t, SM_OK)) else
  if existsb (λ m, (m.1 =? 0) || (m.2 =? 0)) regMemories then Ret (Some (t, SM_INVALID_PARAM)) else
  match CombineMemories (AlignMemory <$> regMemories) with
  | None => Ret None
  | Some mm => register_all t mm
  end.

(** ** Memory of the session *)
Definition StoreSlice (t : entry) (slice vaAddr : Z) : entry := set_addrs t (<[vaAddr := slice]> (addrToSliceMap_ t)).
Definition RemoveSlice (t : entry) (addr : Z) : entry * Z :=
  if addr =? 0 then (t, 0) else
  match addrToSliceMap_ t !! addr with
  | None => (t, 0)
  | Some slice => (set_addrs t (delete addr (addrToSliceMap_ t)), slice)
  end.

Definition MallocDram (t : entry) (size : Z) : Done Z :=
  if size =? 0 then Ret (Some (t, 0)) else
  if TRANS_RESERVE_DRAM_VA_SIZE <? size then Ret (Some (t, 0)) else
  let '(e, slice) := hybm_alloc_local_memory (entity_ t) size in
  let t := set_entity t e in
  if slice =? 0 then Ret (Some (t, 0)) else
  let vaAddr := hybm_get_slice_va (entity_ t) slice in
  if vaAddr =? 0 then Ret (Some (t, 0)) else
  let t := StoreSlice t slice vaAddr in
  let '(e, ret, info) := hybm_export (entity_ t) slice in
  let t := set_entity t e in
  if negb (ret =? 0) then
    Ret (Some (set_entity t (hybm_free_local_memory (entity_ t) slice size).1, 0)) else
  if negb (len info =? sliceInfoSize_ t) then
    Ret (Some (set_entity t (hybm_free_local_memory (entity_ t) slice size).1, 0)) else
  let sliceInfo := StoredSliceInfo padding (workerUniqueId_ t) vaAddr size (rankId_ t) in
  x ← StoreSliceInfo (storeHelper_ t) info sliceInfo;
  match x with
  | None => Ret None
  | Some (h, ret) => Ret (Some (set_helper t h, if negb (ret =? 0) then 0 else vaAddr))
  end.
Definition FreeDram (t : entry) (address : Z) : entry * Z :=
  if address =? 0 then (t, SM_INVALID_PARAM) else
  let '(t, slice) := RemoveSlice t address in
  if slice =? 0 then (t, SM_ERROR) else
  let '(e, ret) := hybm_free_local_memory (entity_ t) slice 0 in
  (set_entity t e, ret).

(** ** Transfers *)
Definition ParseNameToUniqueId (t : entry) (name : string) : entry * option bytes :=
  match nameToWorkerId t !! name with
  | Some unique => (t, Some unique)
  | None =>
      match ParseTransName name with
      | None => (t, None)
      | Some unique => (set_names t (<[name := unique]> (nameToWorkerId t)), Some unique)
      end
  end.

(** The map is ordered by [std::greater]: its lower bound is the last key not
    above the address. *)
Definition map_address (slices : gmap Z LocalMapAddress) (remoteAddr dataSize : Z) : option Z :=
  match last_where (λ k, k <=? remoteAddr) slices with
  | None => None
  | Some (first, second) =>
      if u64 (first + size second) <? u64 (remoteAddr + dataSize) then None else
      let mapped := u64 (address second + (remoteAddr - first)) in
      if mapped =? 0 then None else Some mapped
  end.

(** Arrays are [None] when null. *)
Definition BatchSyncTransfer (t : entry) (localAddrs : option (list Z)) (remoteUniqueId : string)
    (remoteAddrs dataSizes : option (list Z)) (batchSize : Z) (opcode : smem_bm_copy_type) (stream flags : Z)
    : entry * Z :=
  match localAddrs, remoteAddrs, dataSizes with
  | Some localAddrs, Some remoteAddrs, Some dataSizes =>
      if batchSize =? 0 then (t, SM_INVALID_PARAM) else
      if negb ((flags =? 0) || (flags =? COPY_EXTEND_FLAG)) then (t, SM_INVALID_PARAM) else
      let n := Z.to_nat batchSize in
      let local := take n localAddrs in
      let remote := take n remoteAddrs in
      let sizes := take n dataSizes in
      if existsb (λ a, a =? 0) local || existsb (λ a, a =? 0) remote || existsb (λ a, a =? 0) sizes
      then (t, SM_INVALID_PARAM) else
      let '(t, unique) := ParseNameToUniqueId t remoteUniqueId in
      match unique with
      | None => (t, -1)
      | Some unique =>
          match remoteSlices_ t !! unique with
          | None => (t, SM_INVALID_PARAM)
          | Some slices =>
              match mapM (λ x, map_address slices x.1 x.2) (zip remote sizes) with
              | None => (t, SM_INVALID_PARAM)
              | Some mapped =>
                  let flag := Z.lor flags (if stream =? 0 then 0 else ASYNC_COPY_FLAG) in
                  match opcode with
                  | SMEMB_COPY_L2G =>
                      let '(e, ret) := hybm_data_batch_copy (entity_ t) (zip (zip local mapped) sizes)
                        HYBM_LOCAL_DEVICE_TO_GLOBAL_DEVICE stream flag in (set_entity t e, ret)
                  | SMEMB_COPY_G2L =>
                      let '(e, ret) := hybm_data_batch_copy (entity_ t) (zip (zip mapped local) sizes)
                        HYBM_GLOBAL_DEVICE_TO_LOCAL_DEVICE stream flag in (set_entity t e, ret)
                  | _ => (t, SM_INVALID_PARAM)
                  end
              end
          end
      end
  | _, _, _ => (t, SM_INVALID_PARAM)
  end.
Definition SyncTransfer (t : entry) (localAddr : Z) (remoteUniqueId : string) (remoteAddr dataSize : Z)
    (opcode : smem_bm_copy_type) (stream flags : Z) : entry * Z :=
  BatchSyncTransfer t (Some [localAddr]) remoteUniqueId (Some [remoteAddr]) (Some [dataSize]) 1 opcode stream flags.

(** ** Watching the other role *)
Definition cleanup_one (r : gmap bytes (gmap Z LocalMapAddress)) (s : bytes) : gmap bytes (gmap Z LocalMapAddress) :=
  match r !! ss_session s with
  | None => r
  | Some m =>
      match m !! ss_address s with
      | None => r
      | Some _ =>
          let m := delete (ss_address s) m in
          if decide (m = ∅) then delete (ss_session s) r else <[ss_session s := m]> r
      end
  end.
Definition CleanupRemoteSlices (r : gmap bytes (gmap Z LocalMapAddress)) (rmSs : list bytes) :=
  foldl cleanup_one r rmSs.
Definition RemoveRanks (e : E) (rankSet : gset Z) : E :=
  foldl (λ e rank, (hybm_remove_imported e rank).1) e (merge_sort Z.le (elements rankSet)).

(** [operator[]] creates the inner map; [emplace] keeps an entry that is there. *)
Definition add_remote (r : gmap bytes (gmap Z LocalMapAddress)) (x : bytes * Z) : gmap bytes (gmap Z LocalMapAddress) :=
  let '(s, addr) := x in
  let m := default ∅ (r !! ss_session s) in
  <[ss_session s := match m !! ss_address s with
                    | Some _ => m
                    | None => <[ss_address s := mkLocal addr (ss_size s)]> m
                    end]> r.

Definition importNewSlices (t : entry) (c : SliceChange) : entry * Z :=
  let t :=
    if decide (removeStoreSs c = []) then t else
    let t := set_remote t (CleanupRemoteSlices (remoteSlices_ t) (removeStoreSs c)) in
    set_entity t (RemoveRanks (entity_ t) (list_to_set (ss_rankId <$> removeStoreSs c))) in
  if decide (addInfo c = []) then (t, 0) else
  let '(e, ret, addresses) := hybm_import (entity_ t) (addInfo c) in
  let t := set_entity t e in
  if negb (ret =? 0) then (t, ret) else
  let t := set_remote t (foldl add_remote (remoteSlices_ t) (zip (addStoreSs c) addresses)) in
  (set_entity t (hybm_mmap (entity_ t)), 0).
Definition WatchTaskFindNewSlices (t : entry) : store_prog entry :=
  x ← FindNewRemoteSlices (storeHelper_ t);
  let '(h, c) := x in
  let t := set_helper t h in
  Ret (match c with None => t | Some c => (importNewSlices t c).1 end).

Definition importNewRanks (t : entry) (addInfo : list bytes) : entry * Z :=
  if decide (addInfo = []) then (t, 0) else
  let '(e, ret) := hybm_import_entities (entity_ t) addInfo in (set_entity t e, ret).
Definition WatchTaskFindNewRanks (t : entry) : store_prog entry :=
  x ← FindNewRemoteRanks (storeHelper_ t);
  let '(h, c) := x in
  let t := set_helper t h in
  Ret (match c with None => t | Some c => (importNewRanks t c).1 end).

(** [times] is a static variable of the function. *)
Definition WatchTaskOneLoop (times : Z) (t : entry) (serverStatus : bool) : store_prog (Z * entry) :=
  if negb serverStatus then Ret (0, t) else
  t ← WatchTaskFindNewRanks t;
  t ← (if 2 <=? times then WatchTaskFindNewSlices t else Ret t);
  Ret (times + 1, t).
End Entry.
