(* ===== verification/TransHelperSpec.v ===== *)
(** * Correctness of the registry's tables and searches

    - The searches for changes, which patch the cached table byte by byte, compute
      exactly the difference of the two tables as lists of records.
    - Where a slot has changed hands between two searches, the slice that was in
      it is not reported as removed. *)
From Stdlib Require Import Strings.Byte Strings.String.
From stdpp Require Import base numbers list gmap strings.
From S2P Require Import Prelude SmemTypes StrUtil MessagePacker StoreBackend StoreServer StoreServerSpec StoreClient.
From S2P Require Import TransFault TransHelper.
Local Open Scope Z_scope.

(** ** Tables as lists of records *)
Abbreviation Rec := (byte * bytes)%type.
Definition rec_bytes (r : Rec) : bytes := r.1 :: r.2.
Definition enc (rs : list Rec) : bytes := concat (rec_bytes <$> rs).
Definition table (size : nat) (rs : list Rec) : Prop := Forall (λ r, List.length r.2 = size) rs.
Definition normal (r : Rec) : Prop := r.1 = NORMAL.
#[global] Instance normal_dec r : Decision (normal r).
Proof. unfold normal. apply _. Defined.

Lemma enc_app a b : enc (a ++ b) = enc a ++ enc b.
Proof. unfold enc. by rewrite fmap_app, concat_app. Qed.
Lemma enc_cons r rs : enc (r :: rs) = r.1 :: r.2 ++ enc rs.
Proof. done. Qed.

Section Tables.
Context (size : nat).
Local Abbreviation table := (table size).

Lemma length_enc rs : table rs → List.length (enc rs) = (List.length rs * S size)%nat.
Proof.
  induction 1 as [|[s d] rs Hd _ IH]; [done|]. rewrite enc_cons. cbn [List.length fst snd] in *.
  rewrite length_app, IH, Hd. lia.
Qed.
Lemma table_app a b : table (a ++ b) ↔ table a ∧ table b.
Proof. apply Forall_app. Qed.
Lemma table_lookup rs i r : table rs → rs !! i = Some r → List.length r.2 = size.
Proof. exact (Forall_lookup_1 (λ r, List.length r.2 = size) rs i r). Qed.

Lemma enc_inj a b : table a → table b → enc a = enc b → a = b.
Proof.
  intros Ha. revert b. induction Ha as [|[s d] a Hd Ha IH]; intros b Hb; destruct Hb as [|[s' d'] b Hd' Hb];
    [done|discriminate|discriminate|]. rewrite !enc_cons. cbn [fst snd] in *.
  intros [= -> E]. apply app_inj_1 in E as [-> E]; [|congruence]. f_equal. by apply IH.
Qed.

Lemma records_enc rs : table rs → len rs < 2 ^ 32 → records (enc rs) size = List.length rs.
Proof.
  intros Ht Hl. unfold records, len in *. rewrite length_enc by done.
  replace (Z.of_nat (List.length rs * S size) / (Z.of_nat size + 1)) with (Z.of_nat (List.length rs)).
  - unfold u32. rewrite Z.mod_small by lia. lia.
  - rewrite Nat2Z.inj_mul. replace (Z.of_nat (S size)) with (Z.of_nat size + 1) by lia.
    rewrite Z.div_mul by lia. done.
Qed.

(** The accesses of the searches, at a record. *)
Section At.
Context (pre post : list Rec) (s : byte) (d : bytes) (Hpre : table pre) (Hd : List.length d = size).
Local Abbreviation p := (List.length pre * S size)%nat.
Local Abbreviation tab s d := (enc (pre ++ (s, d) :: post)).

Lemma at_split s' d' : tab s' d' = enc pre ++ s' :: d' ++ enc post.
Proof. by rewrite enc_app. Qed.
Lemma at_status : status (tab s d) p = s.
Proof. unfold status. rewrite at_split, <- length_enc by done. by rewrite nth_middle. Qed.
Lemma at_data : data_at (tab s d) p size = d.
Proof.
  unfold data_at. rewrite at_split, <- length_enc by done.
  rewrite (cons_middle s), (app_assoc (enc pre)), drop_app_length' by (rewrite length_app; cbn; lia).
  by rewrite take_app_length'.
Qed.
Lemma at_put_status s' : put_status (tab s d) p s' = tab s' d.
Proof.
  unfold put_status, splice. rewrite !at_split, <- length_enc by done. rewrite take_app_length. do 2 f_equal.
  rewrite (cons_middle s), (app_assoc (enc pre)), drop_app_length' by (rewrite length_app; done). done.
Qed.
Lemma at_put_data d' : List.length d' = size → put_data (tab s d) p d' = tab s d'.
Proof.
  intros Hd'. unfold put_data, splice. rewrite !at_split, <- length_enc by done.
  rewrite (cons_middle s), (app_assoc (enc pre)). rewrite take_app_length' by (rewrite length_app; cbn; lia).
  rewrite <- app_assoc. do 3 f_equal. rewrite (app_assoc (enc pre ++ [s])).
  rewrite (drop_app_length' (_ ++ d)) by (rewrite !length_app; cbn; lia). done.
Qed.
End At.
End Tables.

(** A record written over another, and the status byte alone. *)
Lemma enc_write size rs i s d :
  table size rs → (i < List.length rs)%nat → List.length d = size →
  write_result (enc rs) (i * S size) (s :: d) = enc (<[i := (s, d)]> rs).
Proof.
  intros Ht Hi Hd. destruct (lookup_lt_is_Some_2 rs i Hi) as [[s0 d0] Hr].
  pose proof (table_lookup _ _ _ _ Ht Hr) as Hd0. cbn in Hd0.
  rewrite <- (take_drop_middle rs i (s0, d0)) at 1 by done. rewrite insert_take_drop by done.
  assert (table size (take i rs)) as Htk by (by apply Forall_take).
  assert (i * S size = List.length (enc (take i rs)))%nat as Ei.
  { rewrite (length_enc size) by done. by rewrite length_take_le by lia. }
  unfold write_result. rewrite !at_split, Ei. cbn [List.length]. rewrite resize_grow by lia.
  rewrite !length_app. cbn [List.length]. rewrite !length_app, Hd, Hd0.
  rewrite (proj2 (Nat.sub_0_le _ _)) by lia. cbn [replicate]. rewrite app_nil_r.
  unfold splice. rewrite take_app_length. do 2 f_equal. cbn [List.length].
  rewrite (cons_middle s0), (app_assoc (enc _)), (app_assoc (_ ++ [s0])).
  rewrite drop_app_length' by (rewrite !length_app; cbn; lia). done.
Qed.
Lemma enc_mark size rs i s d :
  table size rs → rs !! i = Some (s, d) → <[(i * S size)%nat := ABNORMAL]> (enc rs) = enc (<[i := (ABNORMAL, d)]> rs).
Proof.
  intros Ht Hr. assert (i < List.length rs)%nat as Hi by (by eapply lookup_lt_Some).
  rewrite <- (take_drop_middle rs i (s, d)) at 1 by done. rewrite (insert_take_drop rs i) by done.
  assert (table size (take i rs)) as Htk by (by apply Forall_take).
  assert (i * S size = List.length (enc (take i rs)))%nat as ->.
  { rewrite (length_enc size) by done. by rewrite length_take_le by lia. }
  rewrite !at_split. by rewrite insert_app_r_alt, Nat.sub_diag by lia.
Qed.

(** ** The difference of two tables *)

(** The cached record behind a search, from the old one and the stored one. *)
Definition keep (o : option Rec) (r : Rec) : Rec :=
  if decide (normal r) then r else
  match o with
  | Some c => if decide (normal c) then (ABNORMAL, c.2) else c
  | None => (ABNORMAL, r.2)
  end.
Definition updated (c n : list Rec) : list Rec :=
  imap (λ i r, keep (c !! i) r) n ++ drop (List.length n) c.

(** The slots whose stored record is normal and not the cached one; those whose
    cached record is normal and the stored one not. *)
Definition added (c n : list Rec) : list bytes :=
  omap (λ i, r ← n !! i; if decide (normal r ∧ c !! i ≠ Some r) then Some r.2 else None) (seq 0 (List.length n)).
Definition removed (c n : list Rec) : list bytes :=
  omap (λ i, r ← c !! i; r' ← n !! i; if decide (normal r ∧ ¬ normal r') then Some r.2 else None)
    (seq 0 (List.length n)).

(** ** The searches, over what they collect *)
Section Search.
Context {A : Type} (addf remf : A → bytes → A) (size : nat).

Definition gen_compare (values : bytes) (st : bytes * A) (i : nat) : bytes * A :=
  let '(cur, a) := st in
  let p := (i * S size)%nat in
  let newData := data_at values p size in
  if bool_decide (status cur p = NORMAL) && bool_decide (status values p = NORMAL) then
    if decide (data_at cur p size = newData) then (cur, a) else (put_data cur p newData, addf a newData)
  else if bool_decide (status cur p = NORMAL) then
    (put_status cur p ABNORMAL, remf a (data_at cur p size))
  else if bool_decide (status values p = NORMAL) then
    (put_data (put_status cur p NORMAL) p newData, addf a newData)
  else (cur, a).
Definition gen_add (values : bytes) (st : bytes * A) (i : nat) : bytes * A :=
  let '(cur, a) := st in
  let p := (i * S size)%nat in
  let newData := data_at values p size in
  if bool_decide (status values p = NORMAL) then
    (put_data (put_status cur p NORMAL) p newData, addf a newData)
  else (put_data (put_status cur p ABNORMAL) p newData, a).
Definition gen_search (a : A) (cur values : bytes) : bytes * A :=
  if decide (cur = values) then (cur, a) else
  let newCount := records values size in
  let curCount := records cur size in
  let minCount := Nat.min newCount curCount in
  let '(cur, a) := foldl (gen_compare values) (cur, a) (seq 0 minCount) in
  if (curCount <? newCount)%nat then
    foldl (gen_add values) (resize cur (List.length values), a) (seq minCount (newCount - minCount))
  else (cur, a).

(** The same on records. *)
Definition collect (c n : list Rec) (a : A) (i : nat) : A :=
  match n !! i with
  | None => a
  | Some r =>
      if decide (normal r ∧ c !! i ≠ Some r) then addf a r.2 else
      match c !! i with
      | Some o => if decide (normal o ∧ ¬ normal r) then remf a o.2 else a
      | None => a
      end
  end.

Lemma keep_length (o : option Rec) r :
  List.length r.2 = size → (∀ c, o = Some c → List.length c.2 = size) → List.length (keep o r).2 = size.
Proof. intros Hr Ho. unfold keep. repeat case_decide; [done|]. destruct o; [case_decide|]; cbn; eauto. Qed.

Lemma compare_at pre o post npre r npost a :
  List.length pre = List.length npre → table size pre → table size npre →
  List.length o.2 = size → List.length r.2 = size →
  gen_compare (enc (npre ++ r :: npost)) (enc (pre ++ o :: post), a) (List.length npre) =
  (enc (pre ++ keep (Some o) r :: post),
   if decide (normal r ∧ Some o ≠ Some r) then addf a r.2 else
   if decide (normal o ∧ ¬ normal r) then remf a o.2 else a).
Proof.
  destruct o as [so d], r as [sr d']. cbn [snd]. intros Hl Hp Hn Ho Hr. unfold gen_compare, keep, normal.
  rewrite <- Hl, (at_data size pre), (at_status size pre) by done. rewrite Hl.
  rewrite (at_status size npre), (at_data size npre) by done. rewrite <- Hl. cbn [fst snd].
  destruct (decide (sr = NORMAL)) as [->|Hsr]; destruct (decide (so = NORMAL)) as [->|Hso];
    rewrite ?(bool_decide_true (NORMAL = NORMAL)), ?(bool_decide_false (sr = _)), ?(bool_decide_false (so = _)) by done;
    cbn [andb].
  - destruct (decide (d = d')) as [->|Hd].
    + rewrite decide_False by naive_solver. by rewrite decide_False by naive_solver.
    + rewrite decide_True by naive_solver. by rewrite at_put_data by done.
  - rewrite decide_True by naive_solver. by rewrite at_put_status, at_put_data by done.
  - rewrite decide_False by naive_solver. rewrite decide_True by done. by rewrite at_put_status by done.
  - rewrite !decide_False by naive_solver. done.
Qed.

Lemma add_at pre z post npre r npost a :
  List.length pre = List.length npre → table size pre → table size npre →
  List.length z.2 = size → List.length r.2 = size →
  gen_add (enc (npre ++ r :: npost)) (enc (pre ++ z :: post), a) (List.length npre) =
  (enc (pre ++ keep None r :: post), if decide (normal r) then addf a r.2 else a).
Proof.
  destruct z as [sz d], r as [sr d']. cbn [snd]. intros Hl Hp Hn Ho Hr. unfold gen_add, keep, normal.
  rewrite (at_status size npre), (at_data size npre) by done. rewrite <- Hl. cbn [fst snd].
  destruct (decide (sr = NORMAL)) as [->|Hsr];
    rewrite ?(bool_decide_true (NORMAL = NORMAL)), ?(bool_decide_false (sr = _)) by done;
    by rewrite at_put_status, at_put_data by done.
Qed.

Definition kept (c n : list Rec) (k : nat) : list Rec := imap (λ i r, keep (c !! i) r) (take k n).

Lemma length_kept c n k : (k ≤ List.length n)%nat → List.length (kept c n k) = k.
Proof. intros. unfold kept. by rewrite length_imap, length_take_le. Qed.
Lemma kept_S c n k r : n !! k = Some r → kept c n (S k) = kept c n k ++ [keep (c !! k) r].
Proof.
  intros E. unfold kept. rewrite (take_S_r _ _ _ E), imap_app. cbn. do 3 f_equal.
  apply lookup_lt_Some in E. rewrite length_take_le by lia. f_equal. lia.
Qed.
Lemma kept_table c n k : table size c → table size n → table size (kept c n k).
Proof.
  intros Hc Hn. apply Forall_lookup. intros i x. unfold kept. rewrite list_lookup_imap.
  intros (r & Hr & ->)%fmap_Some. apply lookup_take_Some in Hr as [Hr _].
  apply keep_length; [by eapply (table_lookup _ n)|]. intros o Ho. by eapply (table_lookup _ c).
Qed.

Lemma compare_loop c n a k :
  table size c → table size n → (k ≤ List.length c)%nat → (k ≤ List.length n)%nat →
  foldl (gen_compare (enc n)) (enc c, a) (seq 0 k) =
  (enc (kept c n k ++ drop k c), foldl (collect c n) a (seq 0 k)).
Proof.
  intros Hc Hn. induction k as [|k IH]; intros Hkc Hkn; [done|].
  rewrite seq_S, !foldl_app, IH by lia. cbn [foldl Nat.add].
  destruct (lookup_lt_is_Some_2 c k) as [o Ho]; [lia|]. destruct (lookup_lt_is_Some_2 n k) as [r Hr]; [lia|].
  pose proof (compare_at (kept c n k) o (drop (S k) c) (take k n) r (drop (S k) n)
    (foldl (collect c n) a (seq 0 k))) as E.
  rewrite length_take_le, <- (drop_S n r k Hr), take_drop, <- (drop_S c o k Ho) in E by lia. rewrite E.
  - rewrite (kept_S _ _ _ _ Hr), Ho, <- app_assoc. f_equal. unfold collect. by rewrite Hr, Ho.
  - by rewrite length_kept by lia.
  - by apply kept_table.
  - by apply Forall_take.
  - by eapply (table_lookup _ c).
  - by eapply (table_lookup _ n).
Qed.

Definition zero_rec : Rec := (Byte.x00, replicate size Byte.x00).
Lemma enc_zeros k : enc (replicate k zero_rec) = replicate (k * S size) Byte.x00.
Proof. induction k as [|k IH]; [done|]. cbn [replicate]. rewrite enc_cons, IH. cbn. by rewrite replicate_add. Qed.

Lemma add_loop c n a k :
  table size c → table size n → (List.length c + k ≤ List.length n)%nat →
  foldl (gen_add (enc n))
    (enc (kept c n (List.length c) ++ replicate (List.length n - List.length c) zero_rec), a)
    (seq (List.length c) k) =
  (enc (kept c n (List.length c + k) ++ replicate (List.length n - List.length c - k) zero_rec),
   foldl (collect c n) a (seq (List.length c) k)).
Proof.
  intros Hc Hn. induction k as [|k IH]; intros Hk.
  { by rewrite Nat.add_0_r, Nat.sub_0_r. }
  rewrite seq_S, !foldl_app, IH by lia. cbn [foldl]. set (m := (List.length c + k)%nat).
  destruct (lookup_lt_is_Some_2 n m) as [r Hr]; [lia|].
  assert (c !! m = None) as Ho by (apply lookup_ge_None_2; lia).
  replace (List.length n - List.length c - k)%nat with (S (List.length n - List.length c - S k)) by lia.
  cbn [replicate].
  pose proof (add_at (kept c n m) zero_rec (replicate (List.length n - List.length c - S k) zero_rec)
    (take m n) r (drop (S m) n) (foldl (collect c n) a (seq (List.length c) k))) as E.
  rewrite length_take_le, <- (drop_S n r m Hr), take_drop in E by lia. rewrite E.
  - replace (List.length c + S k)%nat with (S m) by lia.
    rewrite (kept_S _ _ _ _ Hr), Ho, <- app_assoc. f_equal. unfold collect. rewrite Hr, Ho.
    destruct (decide (normal r)); [rewrite decide_True by done|rewrite decide_False by tauto]; done.
  - by rewrite length_kept by lia.
  - by apply kept_table.
  - by apply Forall_take.
  - apply length_replicate.
  - by eapply (table_lookup _ n).
Qed.

Lemma updated_kept c n : updated c n = kept c n (List.length n) ++ drop (List.length n) c.
Proof. unfold updated, kept. by rewrite take_ge by lia. Qed.
Lemma updated_id c : updated c c = c.
Proof.
  unfold updated. rewrite drop_all, app_nil_r. apply list_eq. intros i. rewrite list_lookup_imap.
  destruct (c !! i) as [r|]; [|done]. cbn. unfold keep. by repeat case_decide.
Qed.
Lemma collect_id c a js : foldl (collect c c) a js = a.
Proof.
  revert a. induction js as [|i js IH]; intros a; [done|]. cbn. rewrite IH. unfold collect.
  destruct (c !! i) as [r|]; [|done]. rewrite !decide_False by tauto. done.
Qed.
Lemma updated_table c n : table size c → table size n → table size (updated c n).
Proof.
  intros Hc Hn. rewrite updated_kept. apply Forall_app. split; [by apply kept_table|by apply Forall_drop].
Qed.

Lemma resize_enc u n :
  table size u → table size n → (List.length u ≤ List.length n)%nat →
  resize (enc u) (List.length (enc n)) = enc (u ++ replicate (List.length n - List.length u) zero_rec).
Proof.
  intros Hu Hn Hl. assert (List.length u * S size ≤ List.length n * S size)%nat as Hm by (apply Nat.mul_le_mono_r; lia).
  rewrite resize_grow; rewrite !(length_enc size) by done; [|done]. rewrite enc_app, enc_zeros. do 2 f_equal.
  by rewrite Nat.mul_sub_distr_r.
Qed.

Lemma gen_search_spec a c n :
  table size c → table size n → len c < 2 ^ 32 → len n < 2 ^ 32 →
  gen_search a (enc c) (enc n) = (enc (updated c n), foldl (collect c n) a (seq 0 (List.length n))).
Proof.
  intros Hc Hn Lc Ln. unfold gen_search. destruct (decide _) as [E|_].
  { apply (enc_inj size) in E as ->; [|done..]. by rewrite updated_id, collect_id. }
  rewrite !records_enc by done. rewrite compare_loop by (done || lia).
  rewrite updated_kept. destruct (_ <? _)%nat eqn:El.
  - apply Nat.ltb_lt in El. rewrite Nat.min_r by lia. rewrite drop_all, app_nil_r.
    rewrite resize_enc; [|by apply kept_table|done|rewrite length_kept; lia]. rewrite length_kept by lia.
    rewrite add_loop by (done || lia). rewrite (drop_ge c) by lia. f_equal.
    + do 2 f_equal; [f_equal; lia|].
      by replace (List.length n - List.length c - (List.length n - List.length c))%nat with O by lia.
    + rewrite <- foldl_app, <- seq_app. do 2 f_equal. lia.
  - apply Nat.ltb_ge in El. by rewrite Nat.min_l by lia.
Qed.
End Search.

Section Collect.
Context (c n : list Rec).
Definition add_of (i : nat) : option bytes :=
  r ← n !! i; if decide (normal r ∧ c !! i ≠ Some r) then Some r.2 else None.
Definition rem_of (i : nat) : option bytes :=
  r ← c !! i; r' ← n !! i; if decide (normal r ∧ ¬ normal r') then Some r.2 else None.

Lemma collect_cases {A} (addf remf : A → bytes → A) a i :
  collect addf remf c n a i =
  match add_of i, rem_of i with Some d, _ => addf a d | None, Some d => remf a d | None, None => a end.
Proof.
  unfold collect, add_of, rem_of. destruct (n !! i) as [r|] eqn:En; cbn.
  - repeat case_decide; [done|..]; destruct (c !! i) as [o|]; cbn; repeat case_decide; done.
  - by destruct (c !! i).
Qed.
Lemma one_of i d : add_of i = Some d → rem_of i = None.
Proof.
  unfold add_of, rem_of. destruct (n !! i) as [r|] eqn:En; [|done]. cbn. case_decide as Hr; [|done].
  intros _. destruct (c !! i) as [o|]; [|done]. cbn. rewrite decide_False by tauto. done.
Qed.

Lemma collect_devices l js :
  foldl (collect (λ a d, a ++ [d]) (λ a _, a) c n) l js = l ++ omap add_of js.
Proof.
  revert l. induction js as [|i js IH]; intros l; cbn; [by rewrite app_nil_r|].
  rewrite IH, collect_cases. destruct (add_of i); [by rewrite <- app_assoc|]. by destruct (rem_of i).
Qed.
Lemma collect_slices ch js :
  foldl (collect slice_add slice_remove c n) ch js =
  mkChange (addInfo ch ++ (drop 48 <$> omap add_of js)) (addStoreSs ch ++ (take 48 <$> omap add_of js))
    (removeStoreSs ch ++ (take 48 <$> omap rem_of js)).
Proof.
  revert ch. induction js as [|i js IH]; intros ch; cbn [foldl omap list_omap].
  { destruct ch. cbn. by rewrite !app_nil_r. }
  rewrite IH, collect_cases. pose proof (one_of i) as Ho.
  destruct (add_of i) as [d|]; [rewrite (Ho d eq_refl)|destruct (rem_of i)];
    cbn [slice_add slice_remove addInfo addStoreSs removeStoreSs fmap list_fmap]; rewrite <- ?app_assoc; done.
Qed.
End Collect.

Lemma updated_lookup c n i r : n !! i = Some r → updated c n !! i = Some (keep (c !! i) r).
Proof.
  intros E. unfold updated. rewrite lookup_app_l by (rewrite length_imap; by eapply lookup_lt_Some).
  by rewrite list_lookup_imap, E.
Qed.
Lemma updated_beyond c n i : (List.length n ≤ i)%nat → updated c n !! i = c !! i.
Proof.
  intros Hi. unfold updated. rewrite lookup_app_r by (by rewrite length_imap). rewrite length_imap, lookup_drop.
  f_equal. lia.
Qed.
Lemma keep_normal o r : normal (keep o r) ↔ normal r.
Proof.
  unfold keep. case_decide; [done|]. destruct o as [o|]; [case_decide|]; cbn; split; done || tauto.
Qed.

Section Idem.
Context (size : nat) (c n : list Rec) (Hc : table size c) (Hn : table size n).
Context (Lc : len c < 2 ^ 32) (Ln : len n < 2 ^ 32).

Lemma search_devices : ExtraDeviceChangeInfo size (enc c) (enc n) = (enc (updated c n), added c n).
Proof.
  change (gen_search (λ a d, a ++ [d]) (λ a _, a) size [] (enc c) (enc n) = (enc (updated c n), added c n)).
  rewrite gen_search_spec by done. f_equal. apply collect_devices.
Qed.
Lemma search_slices :
  ExtraSliceChangeInfo size (enc c) (enc n) =
  (enc (updated c n), mkChange (drop 48 <$> added c n) (take 48 <$> added c n) (take 48 <$> removed c n)).
Proof.
  change (gen_search slice_add slice_remove size (mkChange [] [] []) (enc c) (enc n) =
    (enc (updated c n), mkChange (drop 48 <$> added c n) (take 48 <$> added c n) (take 48 <$> removed c n))).
  rewrite gen_search_spec by done. f_equal. apply collect_slices.
Qed.
Lemma len_updated : len (updated c n) < 2 ^ 32.
Proof. unfold len, updated in *. rewrite length_app, length_imap, length_drop. lia. Qed.
End Idem.

Lemma updated_idem c n : updated (updated c n) n = updated c n.
Proof.
  apply list_eq. intros i. destruct (n !! i) as [r|] eqn:E.
  - rewrite !(updated_lookup _ _ _ _ E). unfold keep. repeat case_match; try done; tauto.
  - rewrite updated_beyond; [done|]. by apply lookup_ge_None_1.
Qed.
Lemma added_updated c n : added (updated c n) n = [].
Proof.
  unfold added. apply omap_none. intros i. destruct (n !! i) as [r|] eqn:E; [|done]. cbn.
  rewrite (updated_lookup _ _ _ _ E). rewrite decide_False; [done|]. unfold keep. intros [Hr Hne].
  by rewrite decide_True in Hne.
Qed.
Lemma removed_updated c n : removed (updated c n) n = [].
Proof.
  unfold removed. apply omap_none. intros i. destruct (n !! i) as [r|] eqn:E.
  - rewrite (updated_lookup _ _ _ _ E). cbn. rewrite decide_False; [done|]. rewrite keep_normal. tauto.
  - by destruct (updated c n !! i).
Qed.

(** C29: the searches, which patch the cached table in place, compute exactly the
    difference of the cached table [c] and the stored table [n].  The devices
    (slices) to add are those of the slots whose stored record is normal and not
    the cached one, in slot order, and the slices to remove those of the slots
    that were normal and are not any more.  Afterwards every normal record of
    the store is cached, every other one is cached as not normal, slots behind
    the end of a shorter table are kept, and a second search finds nothing. *)
Theorem search_exact size c n :
  table size c → table size n → len c < 2 ^ 32 → len n < 2 ^ 32 →
  let u := updated c n in
  ExtraDeviceChangeInfo size (enc c) (enc n) = (enc u, added c n) ∧
  ExtraSliceChangeInfo size (enc c) (enc n) =
    (enc u, mkChange (drop 48 <$> added c n) (take 48 <$> added c n) (take 48 <$> removed c n)) ∧
  table size u ∧
  (∀ i r, n !! i = Some r →
     if decide (normal r) then u !! i = Some r else ∃ o, u !! i = Some o ∧ ¬ normal o) ∧
  (∀ i, (List.length n ≤ i)%nat → u !! i = c !! i) ∧
  ExtraDeviceChangeInfo size (enc u) (enc n) = (enc u, []) ∧
  ExtraSliceChangeInfo size (enc u) (enc n) = (enc u, mkChange [] [] []).
Proof.
  intros Hc Hn Lc Ln u.
  assert (table size u) as Hu by (by apply updated_table).
  assert (len u < 2 ^ 32) as Lu by (by apply len_updated).
  split_and!; [by apply search_devices|by apply search_slices|done|..].
  - intros i r E. unfold u. rewrite (updated_lookup _ _ _ _ E). case_decide as Hnr.
    + unfold keep. by rewrite decide_True.
    + eexists. split; [done|]. by rewrite keep_normal.
  - intros i Hi. by apply updated_beyond.
  - rewrite search_devices by done. unfold u. by rewrite updated_idem, added_updated.
  - rewrite search_slices by done. unfold u. by rewrite updated_idem, added_updated, removed_updated.
Qed.

(** Slot 0 recycled, slot 1 lost, slot 2 unchanged, slot 3 new. *)
Definition slice_data (b : byte) : bytes := replicate 48 b ++ [b; b].
Definition cached_slices : list Rec :=
  [(NORMAL, slice_data Byte.x61); (NORMAL, slice_data Byte.x62); (NORMAL, slice_data Byte.x63)].
Definition stored_slices : list Rec :=
  [(NORMAL, slice_data Byte.x64); (ABNORMAL, slice_data Byte.x62); (NORMAL, slice_data Byte.x63);
   (NORMAL, slice_data Byte.x65)].

Lemma search_exact_witness :
  ExtraSliceChangeInfo 50 (enc cached_slices) (enc stored_slices) =
    (enc (updated cached_slices stored_slices),
     mkChange [[Byte.x64; Byte.x64]; [Byte.x65; Byte.x65]] [replicate 48 Byte.x64; replicate 48 Byte.x65]
       [replicate 48 Byte.x62]) ∧
  ExtraSliceChangeInfo 50 (enc (updated cached_slices stored_slices)) (enc stored_slices) =
    (enc (updated cached_slices stored_slices), mkChange [] [] []).
Proof.
  destruct (search_exact 50 cached_slices stored_slices) as (_ & -> & _ & _ & _ & _ & ->).
  - by repeat constructor.
  - by repeat constructor.
  - vm_compute. done.
  - vm_compute. done.
  - split; vm_compute; reflexivity.
Defined.

(** A slot given to another rank between two searches is normal both times: the
    slice of the new owner is added and the one of the old owner, who is gone, is
    not removed. *)
Theorem recycled_slot_keeps_slice size o r :
  normal o → normal r → o ≠ r → List.length o.2 = size → List.length r.2 = size →
  ExtraSliceChangeInfo size (enc [o]) (enc [r]) =
    (enc [r], mkChange [drop 48 r.2] [take 48 r.2] []).
Proof.
  intros Ho Hr Hne Lo Lr. rewrite search_slices; [|by constructor..|done|done].
  unfold added, removed, updated, keep. cbn.
  rewrite !decide_True by (done || naive_solver). rewrite decide_False by tauto. done.
Qed.
