(* ===== verification/TransEntrySpec.v ===== *)
(** * The trans entry: proofs

    Registration covers the pages touched, in maximal ranges; addresses of the
    other side are translated exactly inside the recorded slices; and the watch
    rounds keep the recorded slices equal to the published table. *)
From Stdlib Require Import Strings.Byte Strings.String.
From stdpp Require Import base numbers list gmap strings sorting.
From S2P Require Import Prelude SmemTypes StoreBackend StoreClient TransFault TransHelper TransHelperSpec VaManager TransEntry.
Local Open Scope Z_scope.

(** ** Pages *)
Lemma land_page_mask x : 0 ≤ x < 2 ^ 64 → Z.land x NPU_PAGE_MASK = x / NPU_PAGE_SIZE * NPU_PAGE_SIZE.
Proof.
  intros Hx. change NPU_PAGE_MASK with (Z.land (Z.lnot (Z.ones 21)) (Z.ones 64)). change NPU_PAGE_SIZE with (2 ^ 21).
  rewrite (Z.land_comm (Z.lnot _)), Z.land_assoc, Z.land_ones by lia. rewrite Z.mod_small by lia.
  rewrite <- Z.ldiff_land, Z.ldiff_ones_r by lia. by rewrite Z.shiftr_div_pow2, Z.shiftl_mul_pow2 by lia.
Qed.

(** A memory the caller may register: rounded up it stays below the end of the address space. *)
Definition mem_ok (m : Z * Z) : Prop := 0 ≤ m.1 ∧ 0 < m.2 ∧ m.1 + m.2 + NPU_PAGE_SIZE ≤ 2 ^ 64.
Definition page_of (b : Z) : Z := b / NPU_PAGE_SIZE.

Lemma AlignMemory_pages m : mem_ok m →
  AlignMemory m = (page_of m.1 * NPU_PAGE_SIZE, (page_of (m.1 + m.2 - 1) + 1 - page_of m.1) * NPU_PAGE_SIZE).
Proof.
  destruct m as [p s]. intros (Hp & Hs & He). cbn [fst snd] in *. unfold AlignMemory, page_of.
  assert (NPU_PAGE_SIZE = 2097152) as HP by done. rewrite land_page_mask by lia. rewrite HP in *.
  pose proof (Z.div_mod p 2097152 ltac:(lia)). pose proof (Z.mod_pos_bound p 2097152 ltac:(lia)).
  rewrite (u64_small (s + _)) by lia. rewrite (u64_small (_ - 1)) by lia. rewrite land_page_mask, HP by lia. f_equal.
  pose proof (Z.div_mod (p + s - 1) 2097152 ltac:(lia)). pose proof (Z.mod_pos_bound (p + s - 1) 2097152 ltac:(lia)).
  f_equal. symmetry. apply Z.div_unique with ((p + s - 1) mod 2097152); lia.
Qed.

(** ** Ranges *)
Definition covers (ms : list (Z * Z)) (b : Z) : Prop := ∃ m, m ∈ ms ∧ m.1 ≤ b < m.1 + m.2.
Definition range_ok (m : Z * Z) : Prop := 0 ≤ m.1 ∧ 0 < m.2 ∧ m.1 + m.2 < 2 ^ 64.
(** In order, and neither overlapping nor touching. *)
Definition separated (ms : list (Z * Z)) : Prop := StronglySorted (λ a b, a.1 + a.2 < b.1) ms.

Lemma covers_nil b : covers [] b ↔ False.
Proof. split; [|done]. by intros (m & Hm%not_elem_of_nil & _). Qed.
Lemma covers_cons m ms b : covers (m :: ms) b ↔ m.1 ≤ b < m.1 + m.2 ∨ covers ms b.
Proof.
  unfold covers. setoid_rewrite elem_of_cons. split.
  - intros (x & [->|Hx] & Hb); [by left|right; eauto].
  - intros [Hb|(x & Hx & Hb)]; eauto.
Qed.
Lemma covers_app a c b : covers (a ++ c) b ↔ covers a b ∨ covers c b.
Proof. induction a as [|m a IH]; cbn; [rewrite covers_nil; tauto|]. rewrite !covers_cons, IH. tauto. Qed.
Lemma covers_perm a c b : a ≡ₚ c → covers a b ↔ covers c b.
Proof. intros Hp. unfold covers. by setoid_rewrite Hp. Qed.

Lemma separated_snoc ms m : separated (ms ++ [m]) ↔ separated ms ∧ ∀ x, x ∈ ms → x.1 + x.2 < m.1.
Proof.
  unfold separated. rewrite StronglySorted_app. split.
  - intros (H1 & H2 & _). split; [done|]. intros x Hx. apply H1; [done|by left].
  - intros [H1 H2]. split_and!; [|done|by repeat constructor]. intros x y Hx ->%list_elem_of_singleton. auto.
Qed.

Lemma combine_loop_spec result current input :
  range_ok current → Forall range_ok result → Forall range_ok input →
  StronglySorted mem_le (current :: input) → separated (result ++ [current]) →
  let out := combine_loop result current input in
  separated out ∧ Forall range_ok out ∧ ∀ b, covers out b ↔ covers result b ∨ covers (current :: input) b.
Proof.
  revert result current. induction input as [|m input IH]; intros result current Hc Hr Hi Hs Hsep; cbn [combine_loop].
  { split_and!; [done|by apply Forall_app_2; [|constructor]|]. intros b. by rewrite covers_app. }
  apply Forall_cons in Hi as [(Hm0 & Hm1 & Hm2) Hi]. destruct Hc as (Hc0 & Hc1 & Hc2).
  apply StronglySorted_cons in Hs as [Hle Hs]. apply Forall_cons in Hle as [Hcm Hle].
  assert (current.1 ≤ m.1) as Hord by (destruct Hcm; lia).
  rewrite (u64_small (_ + _)) by lia. destruct (Z.leb_spec m.1 (current.1 + current.2)) as [Htouch|Hgap].
  - rewrite (u64_small (m.1 - current.1)) by lia. unfold U64_MAX. destruct (Z.ltb_spec (2 ^ 64 - 1 - m.2) (m.1 - current.1)); [lia|].
    rewrite u64_small by lia.
    destruct (IH result (current.1, Z.max current.2 (m.1 - current.1 + m.2))) as (H1 & H2 & H3); [|done|done| | |].
    + unfold range_ok; cbn [fst snd]; lia.
    + apply StronglySorted_cons in Hs as [Hms Hs]. constructor; [done|].
      apply Forall_forall. intros x Hx. rewrite Forall_forall in Hms, Hle.
      specialize (Hms x Hx). specialize (Hle x Hx). unfold mem_le in *. cbn [fst snd].
      destruct (decide (current.1 < x.1)); [by left|right]. lia.
    + apply separated_snoc in Hsep as [Hsep Hlast]. apply separated_snoc. split; [done|]. cbn [fst]. exact Hlast.
    + split_and!; [done|done|]. intros b. rewrite H3, !covers_cons. cbn [fst snd]. intuition lia.
  - destruct (IH (result ++ [current]) m) as (H1 & H2 & H3); [done|by apply Forall_app_2; [|constructor]|done|done| |].
    + apply separated_snoc. split; [done|]. intros x [Hx| ->%list_elem_of_singleton]%elem_of_app; [|done].
      apply separated_snoc in Hsep as [_ Hlast]. specialize (Hlast x Hx). lia.
    + split_and!; [done|done|]. intros b. rewrite H3, covers_app, !covers_cons, covers_nil. tauto.
Qed.

#[local] Instance mem_le_trans : Transitive mem_le.
Proof. intros a b c. unfold mem_le. lia. Qed.
#[local] Instance mem_le_total : Total mem_le.
Proof. intros a b. unfold mem_le. lia. Qed.

Lemma CombineMemories_exact input :
  input ≠ [] → Forall range_ok input →
  ∃ out, CombineMemories input = Some out ∧ separated out ∧ Forall range_ok out ∧ ∀ b, covers out b ↔ covers input b.
Proof.
  intros Hne Hok. unfold CombineMemories. pose proof (merge_sort_Permutation mem_le input) as Hp.
  pose proof (StronglySorted_merge_sort mem_le input) as Hs.
  destruct (merge_sort mem_le input) as [|c rest]; [by apply Permutation_nil_l in Hp; subst|].
  rewrite <- Hp in Hok. apply Forall_cons in Hok as [Hc Hrest]. eexists. split; [done|].
  destruct (combine_loop_spec [] c rest) as (H1 & H2 & H3); [done..|by repeat constructor|].
  split_and!; [done|done|]. intros b. rewrite H3, covers_nil, (covers_perm _ _ b Hp). tauto.
Qed.

(** ** Registration *)
Lemma run_calls_bind {St A B} (call : St → StoreOp → St * option Outcome) st (p : store_prog A) (k : A → store_prog B) :
  run_calls call st (p ≫= k) =
  let '(st', r) := run_calls call st p in
  match r with Some a => run_calls call st' (k a) | None => (st', None) end.
Proof.
  revert st. induction p as [a|op c IH]; intros st; [done|]. cbn. destruct (call st op) as [st' [o|]]; [apply IH|done].
Qed.

(** The calls to the store of a registration. *)
Fixpoint register_memories (h : SmemStoreHelper) (slices : list (bytes * bytes)) : store_prog Called :=
  match slices with
  | [] => Ret (Some (h, SM_OK))
  | (info, sliceInfo) :: slices' =>
      x ← StoreSliceInfo h info sliceInfo;
      match x with
      | None => Ret None
      | Some (h, ret) => if negb (ret =? 0) then Ret (Some (h, SM_ERROR)) else register_memories h slices'
      end
  end.

Lemma AlignMemory_range m : mem_ok m → range_ok (AlignMemory m).
Proof.
  intros Hm. rewrite AlignMemory_pages by done. destruct Hm as (H0 & H1 & H2). unfold range_ok, page_of. cbn [fst snd].
  assert (NPU_PAGE_SIZE = 2097152) as HP by done. rewrite HP in *.
  pose proof (Z.div_mod (m.1 + m.2 - 1) 2097152 ltac:(lia)). pose proof (Z.mod_pos_bound (m.1 + m.2 - 1) 2097152 ltac:(lia)).
  assert (m.1 / 2097152 ≤ (m.1 + m.2 - 1) / 2097152) by (apply Z.div_le_mono; lia).
  pose proof (Z.div_pos m.1 2097152 ltac:(lia) ltac:(lia)). lia.
Qed.
Lemma page_touched m b : mem_ok m →
  (AlignMemory m).1 ≤ b < (AlignMemory m).1 + (AlignMemory m).2 ↔
  ∃ b', m.1 ≤ b' < m.1 + m.2 ∧ page_of b' = page_of b.
Proof.
  intros Hm. rewrite AlignMemory_pages by done. destruct Hm as (H0 & H1 & H2). cbn [fst snd]. unfold page_of.
  assert (NPU_PAGE_SIZE = 2097152) as HP by done. rewrite HP in *. set (P := 2097152) in *.
  assert (∀ x y : Z, x * P ≤ y < (x + 1) * P → y / P = x) as Hu by (intros x y ?; symmetry; apply Z.div_unique with (y - x * P); lia).
  assert (∀ y, y / P * P ≤ y < (y / P + 1) * P) as Hr.
  { intros y. pose proof (Z.div_mod y P ltac:(lia)). pose proof (Z.mod_pos_bound y P ltac:(lia)). lia. }
  set (e := m.1 + m.2 - 1). replace (m.1 / P * P + (e / P + 1 - m.1 / P) * P) with ((e / P + 1) * P) by lia. split.
  - intros Hb. exists (Z.max m.1 (Z.min e (b / P * P))). split; [lia|].
    pose proof (Hr b). pose proof (Hr m.1). pose proof (Hr e). unfold e in *. apply Hu.
    destruct (Z.le_gt_cases m.1 (b / P * P)), (Z.le_gt_cases (b / P * P) e); unfold e in *; lia.
  - intros (b' & Hb' & E). pose proof (Hr b). rewrite <- E in *.
    assert (m.1 / P ≤ b' / P) by (apply Z.div_le_mono; lia). assert (b' / P ≤ e / P) by (apply Z.div_le_mono; lia).
    pose proof (Hr b'). lia.
Qed.

Section Register.
Context {E} `{HybmApi E} (padding : bytes).

(** The library takes the memories one by one, each with a description of the
    announced size. *)
Fixpoint exported (e : E) (size : Z) (mm : list (Z * Z)) : option (E * list bytes) :=
  match mm with
  | [] => Some (e, [])
  | m :: mm' =>
      let '(e, slice) := hybm_register_local_memory e m.1 m.2 in
      if slice =? 0 then None else
      let '(e, ret, info) := hybm_export e slice in
      if (ret =? 0) && (len info =? size) then r ← exported e size mm'; Some (r.1, info :: r.2) else None
  end.
Definition slice_of (t : SmemTransEntry E) (m : Z * Z) : bytes :=
  StoredSliceInfo padding (workerUniqueId_ t) m.1 m.2 (rankId_ t).

Lemma register_all_publishes {St} (call : St → StoreOp → St * option Outcome) mm t e' infos st st' h :
  exported (entity_ t) (sliceInfoSize_ t) mm = Some (e', infos) →
  run_calls call st (register_memories (storeHelper_ t) (zip infos (slice_of t <$> mm))) = (st', Some (Some (h, SM_OK))) →
  run_calls call st (register_all padding t mm) = (st', Some (Some (set_helper (set_entity t e') h, SM_OK))).
Proof.
  revert t infos st. induction mm as [|m mm IH]; intros t infos st; cbn [exported register_all].
  { intros [= <- <-]. cbn. intros [= <- <-]. by destruct t. }
  unfold RegisterOneMemory. destruct (hybm_register_local_memory (entity_ t) m.1 m.2) as [e1 slice].
  destruct (slice =? 0); [done|]. cbn [set_entity entity_ sliceInfoSize_ rankId_ workerUniqueId_ storeHelper_].
  destruct (hybm_export e1 slice) as [[e2 ret] info]. destruct (ret =? 0); cbn [andb negb]; [|done].
  destruct (len info =? sliceInfoSize_ t); cbn [negb]; [|done].
  destruct (exported e2 (sliceInfoSize_ t) mm) as [[e3 infos']|] eqn:Ee; cbn [mbind option_bind fst snd]; [|done].
  intros [= <- <-]. cbn [zip zip_with register_memories fmap list_fmap]. rewrite !run_calls_bind. unfold slice_of at 1.
  destruct (run_calls call st (StoreSliceInfo _ _ _)) as [st1 [[[h1 r1]|]|]]; cbn; [|discriminate|discriminate].
  destruct (r1 =? 0); cbn; [|discriminate].
  exact (IH (set_helper (set_entity t e2) h1) infos' st1 Ee).
Qed.

(** Registering memories (with addresses and sizes that are not zero and do not
    reach the end of the address space) hands to the library, and publishes, one
    entry for each maximal run of pages that the memories touch: the ranges are
    in order, at least one byte apart, they cover exactly the touched pages, and
    when the library takes them all, the calls to the store are those that publish
    each range with its address, size and rank number, in order. *)
Theorem register_covers_pages (t : SmemTransEntry E) mems :
  hybm_entity_null (entity_ t) = false → mems ≠ [] → Forall (λ m, m.1 ≠ 0 ∧ mem_ok m) mems →
  ∃ mm, separated mm ∧
    (∀ b, covers mm b ↔ ∃ m b', m ∈ mems ∧ m.1 ≤ b' < m.1 + m.2 ∧ page_of b' = page_of b) ∧
    ∀ e' infos, exported (entity_ t) (sliceInfoSize_ t) mm = Some (e', infos) →
    ∀ St (call : St → StoreOp → St * option Outcome) st st' h,
      run_calls call st (register_memories (storeHelper_ t) (zip infos (slice_of t <$> mm))) = (st', Some (Some (h, SM_OK))) →
      run_calls call st (RegisterLocalMemories padding t mems) =
        (st', Some (Some (set_helper (set_entity t e') h, SM_OK))).
Proof.
  intros Hnull Hne Hok. unfold RegisterLocalMemories. rewrite Hnull, decide_False by done.
  replace (existsb _ mems) with false.
  2: { symmetry. apply not_true_is_false. intros Hex%existsb_exists. destruct Hex as (m & Hm & Hz).
       apply list_elem_of_In in Hm. rewrite Forall_forall in Hok. destruct (Hok m Hm) as (H1 & _ & H2 & _).
       apply orb_true_iff in Hz as [Hz%Z.eqb_eq|Hz%Z.eqb_eq]; lia. }
  destruct (CombineMemories_exact (AlignMemory <$> mems)) as (mm & -> & Hsep & _ & Hcov).
  { by destruct mems. }
  { apply Forall_fmap. eapply Forall_impl; [exact Hok|]. intros m [_ Hm]. by apply AlignMemory_range. }
  exists mm. split_and!; [done| |].
  - intros b. rewrite Hcov. unfold covers. rewrite Forall_forall in Hok. split.
    + intros (x & (m & -> & Hm)%list_elem_of_fmap & Hb). apply page_touched in Hb; [|by apply Hok]. naive_solver.
    + intros (m & b' & Hm & Hb). exists (AlignMemory m). split; [apply list_elem_of_fmap; eauto|].
      apply page_touched; [by apply Hok|eauto].
  - intros e' infos Hexp St call st st' h. by apply register_all_publishes.
Qed.
End Register.

(** ** Translation of addresses *)

(** The slices of one session: disjoint, mapped at local addresses that are not
    null, and below the end of the address space. *)
Definition slices_ok (m : gmap Z LocalMapAddress) : Prop :=
  (∀ f s, m !! f = Some s → (0 ≤ f ∧ 0 < size s) ∧ f + size s < 2 ^ 64 ∧ 0 < address s ∧ address s + size s ≤ 2 ^ 64) ∧
  (∀ f1 s1 f2 s2, m !! f1 = Some s1 → m !! f2 = Some s2 → f1 < f2 → f1 + size s1 ≤ f2).
(** The [n] bytes at [a] lie in one slice, and [x] is where they are mapped. *)
Definition inside (m : gmap Z LocalMapAddress) (a n x : Z) : Prop :=
  ∃ f s, m !! f = Some s ∧ f ≤ a ∧ a + n ≤ f + size s ∧ x = address s + (a - f).

Lemma last_slice m a n f s :
  slices_ok m → m !! f = Some s → f ≤ a → 0 < n → a + n ≤ f + size s → last_where (λ k, k <=? a) m = Some (f, s).
Proof.
  intros [_ Hd] Hf Ha Hn Hin. destruct (last_where (λ k, k <=? a) m) as [[f' s']|] eqn:El.
  - apply last_where_Some in El as (Hf' & Hle%Z.leb_le & Hmax). assert (f ≤ f') as Hff by (eapply Hmax; [done|by apply Z.leb_le]).
    destruct (decide (f = f')) as [->|Hne]; [by simplify_eq|]. pose proof (Hd f s f' s' Hf Hf' ltac:(lia)). lia.
  - rewrite last_where_None in El. specialize (El f s Hf). apply Z.leb_gt in El. lia.
Qed.
Lemma map_address_exact m a n x :
  slices_ok m → 0 ≤ a → 0 < n → a + n < 2 ^ 64 → map_address m a n = Some x ↔ inside m a n x.
Proof.
  intros Hm Ha Hn Hs. unfold map_address. split.
  - destruct (last_where _ m) as [[f s]|] eqn:El; [|done]. apply last_where_Some in El as (Hf & Hle%Z.leb_le & _).
    destruct (proj1 Hm f s Hf) as (H0 & H1 & H2 & H3). rewrite !(u64_small (_ + _)) by lia.
    destruct (Z.ltb_spec (f + size s) (a + n)); [done|]. rewrite u64_small by lia.
    destruct (Z.eqb_spec (address s + (a - f)) 0); [lia|]. intros [= <-]. by exists f, s.
  - intros (f & s & Hf & Hle & Hin & ->). rewrite (last_slice m a n f s) by done.
    destruct (proj1 Hm f s Hf) as (H0 & H1 & H2 & H3). rewrite !(u64_small (_ + _)) by lia.
    destruct (Z.ltb_spec (f + size s) (a + n)); [lia|].
    destruct (Z.eqb_spec (address s + (a - f)) 0); [lia|done].
Qed.

(** The end of the range is compared after it has wrapped: a size that reaches
    around the address space is accepted from any address inside a slice. *)
Theorem map_address_wraps m a n f s :
  slices_ok m → m !! f = Some s → f ≤ a < f + size s → 2 ^ 64 ≤ a + n ≤ 2 ^ 64 + f + size s → n < 2 ^ 64 →
  map_address m a n = Some (address s + (a - f)).
Proof.
  intros Hm Hf Ha Hn Hn'. unfold map_address. rewrite (last_slice m a 1 f s) by (done || lia).
  destruct (proj1 Hm f s Hf) as (H0 & H1 & H2 & H3). rewrite (u64_small (f + _)) by lia.
  assert (u64 (a + n) = a + n - 2 ^ 64) as -> by (unfold u64; symmetry; apply Z.mod_unique_pos with 1; lia).
  destruct (Z.ltb_spec (f + size s) (a + n - 2 ^ 64)); [lia|]. rewrite u64_small by lia.
  destruct (Z.eqb_spec (address s + (a - f)) 0); [lia|done].
Qed.

Section Transfer.
Context {E} `{HybmApi E} (ParseTransName : string → option bytes).

(** One copy of a batch: local address, remote address, size. *)
Definition copy_ok (c : Z * Z * Z) : Prop := c.1.1 ≠ 0 ∧ 0 < c.1.2 ∧ 0 < c.2 ∧ c.1.2 + c.2 < 2 ^ 64.
Definition batch (t : SmemTransEntry E) (name : string) (cs : list (Z * Z * Z)) opcode stream flags :=
  BatchSyncTransfer ParseTransName t (Some cs.*1.*1) name (Some cs.*1.*2) (Some cs.*2) (len cs) opcode stream flags.
Definition copy_call (opcode : smem_bm_copy_type) (c : Z * Z * Z) (x : Z) : Z * Z * Z :=
  if opcode is SMEMB_COPY_L2G then (c.1.1, x, c.2) else (x, c.1.1, c.2).
Definition direction_of (opcode : smem_bm_copy_type) : hybm_data_copy_direction :=
  if opcode is SMEMB_COPY_L2G then HYBM_LOCAL_DEVICE_TO_GLOBAL_DEVICE else HYBM_GLOBAL_DEVICE_TO_LOCAL_DEVICE.

Lemma mapM_inside m (cs : list (Z * Z * Z)) xs : slices_ok m → Forall copy_ok cs →
  mapM (λ x, map_address m x.1 x.2) (zip cs.*1.*2 cs.*2) = Some xs ↔ Forall2 (λ c x, inside m c.1.2 c.2 x) cs xs.
Proof.
  intros Hm Hcs. rewrite mapM_Some. revert xs. induction Hcs as [|c cs (_ & H1 & H2 & H3) _ IH]; intros xs; cbn.
  - split; intros ->%Forall2_nil_inv_l; constructor.
  - destruct xs as [|x xs]; [by split; intros ?%Forall2_cons_nil_inv|]. rewrite !Forall2_cons, IH. cbn [fst snd].
    by rewrite map_address_exact by (done || lia).
Qed.
Lemma no_zero l : Forall (λ a : Z, a ≠ 0) l → existsb (λ a, a =? 0) l = false.
Proof. induction 1 as [|a l Ha _ IH]; [done|]. cbn. rewrite IH. by apply Z.eqb_neq in Ha as ->. Qed.
Lemma zip_calls (cs : list (Z * Z * Z)) xs : List.length xs = List.length cs →
  zip (zip cs.*1.*1 xs) cs.*2 = zip_with (copy_call SMEMB_COPY_L2G) cs xs ∧
  zip (zip xs cs.*1.*1) cs.*2 = zip_with (copy_call SMEMB_COPY_G2L) cs xs.
Proof.
  revert xs. induction cs as [|c cs IH]; intros [|x xs]; [done..|]. intros [= Hl]. cbn.
  destruct (IH xs Hl) as [-> ->]. done.
Qed.

(** C31: a batch of copies to or from a known session (addresses and sizes not zero
    and not around the end of the address space) is handed to the library with
    every remote address translated into the recorded slice that contains its
    range, when all ranges lie in slices; if one does not, nothing is copied and
    SM_INVALID_PARAM is returned.  Either way only the cache of names changes. *)
Theorem transfer_translates (t : SmemTransEntry E) name w m cs opcode stream flags :
  (ParseNameToUniqueId ParseTransName t name).2 = Some w → remoteSlices_ t !! w = Some m → slices_ok m →
  cs ≠ [] → Forall copy_ok cs → flags = 0 ∨ flags = COPY_EXTEND_FLAG → opcode = SMEMB_COPY_L2G ∨ opcode = SMEMB_COPY_G2L →
  let t' := (ParseNameToUniqueId ParseTransName t name).1 in
  (∀ xs, Forall2 (λ c x, inside m c.1.2 c.2 x) cs xs →
     batch t name cs opcode stream flags =
       let '(e, ret) := hybm_data_batch_copy (entity_ t) (zip_with (copy_call opcode) cs xs) (direction_of opcode) stream
                          (Z.lor flags (if stream =? 0 then 0 else ASYNC_COPY_FLAG)) in
       (set_entity t' e, ret)) ∧
  ((∃ c, c ∈ cs ∧ ∀ x, ¬ inside m c.1.2 c.2 x) → batch t name cs opcode stream flags = (t', SM_INVALID_PARAM)).
Proof.
  intros Hn Hw Hm Hne Hcs Hfl Hop t'. unfold batch, BatchSyncTransfer. fold t'.
  assert (entity_ t' = entity_ t ∧ remoteSlices_ t' = remoteSlices_ t) as [Ee Er].
  { unfold t', ParseNameToUniqueId. by destruct (nameToWorkerId t !! name), (ParseTransName name). }
  destruct (Z.eqb_spec (len cs) 0) as [E0|_]; [destruct cs; [done|unfold len in E0; cbn in E0; lia]|].
  assert (((flags =? 0) || (flags =? COPY_EXTEND_FLAG)) = true) as -> by (by destruct Hfl as [-> | ->]). cbn [negb].
  unfold len. rewrite Nat2Z.id, !take_ge by (by rewrite ?length_fmap).
  rewrite !no_zero by (rewrite ?Forall_fmap; eapply Forall_impl; [exact Hcs|]; intros c (?&?&?&?); cbn; lia). cbn [orb].
  destruct (ParseNameToUniqueId ParseTransName t name) as [t1 u] eqn:Ep. cbn in Hn, t'. subst u t'. rewrite Er, Hw.
  split.
  - intros xs Hxs. rewrite (proj2 (mapM_inside m cs xs Hm Hcs) Hxs).
    destruct (zip_calls cs xs) as [E1 E2]; [by apply Forall2_length in Hxs|].
    rewrite E1, E2, Ee. by destruct Hop as [-> | ->].
  - intros (c & Hc & Hno). destruct (mapM _ _) as [xs|] eqn:Em; [|done]. exfalso.
    apply mapM_inside in Em; [|done..]. apply list_elem_of_lookup in Hc as [i Hi].
    destruct (Forall2_lookup_l _ _ _ _ _ Em Hi) as (x & _ & Hx). by eapply Hno.
Qed.
End Transfer.

(** ** The recorded slices *)
Abbreviation Remote := (gmap bytes (gmap Z LocalMapAddress)).
Definition lookup2 (r : Remote) (w : bytes) (a : Z) : option LocalMapAddress := r !! w ≫= λ m, m !! a.
Definition key_of (s : bytes) : bytes * Z := (ss_session s, ss_address s).
Definition dense (r : Remote) : Prop := ∀ w m, r !! w = Some m → m ≠ ∅.

Lemma lookup2_delete (r : Remote) w w' a :
  lookup2 (delete w r) w' a = if decide (w = w') then None else lookup2 r w' a.
Proof. unfold lookup2. case_decide as E; [subst; by rewrite lookup_delete_eq|by rewrite lookup_delete_ne]. Qed.
Lemma lookup2_insert (r : Remote) w m w' a :
  lookup2 (<[w := m]> r) w' a = if decide (w = w') then m !! a else lookup2 r w' a.
Proof. unfold lookup2. case_decide as E; [subst; by rewrite lookup_insert_eq|by rewrite lookup_insert_ne]. Qed.

Lemma cleanup_one_lookup r s w a :
  lookup2 (cleanup_one r s) w a = if decide (key_of s = (w, a)) then None else lookup2 r w a.
Proof.
  unfold cleanup_one, key_of. destruct (r !! ss_session s) as [m|] eqn:Er.
  2: { case_decide as E; [|done]. injection E as <- <-. unfold lookup2. by rewrite Er. }
  destruct (m !! ss_address s) as [x|] eqn:Em.
  2: { case_decide as E; [|done]. injection E as <- <-. unfold lookup2. by rewrite Er. }
  assert (∀ w a, w = ss_session s → lookup2 r w a = m !! a) as Hw by (intros ? ? ->; unfold lookup2; by rewrite Er).
  destruct (decide (delete (ss_address s) m = ∅)) as [E0|_].
  - rewrite lookup2_delete. destruct (decide (ss_session s = w)) as [<-|Hne]; [|by rewrite decide_False by congruence].
    case_decide; [done|]. rewrite Hw by done. rewrite <- (lookup_delete_ne m (ss_address s)) by congruence. by rewrite E0, lookup_empty.
  - rewrite lookup2_insert. destruct (decide (ss_session s = w)) as [<-|Hne]; [|by rewrite decide_False by congruence].
    case_decide as E; [injection E as <-; by rewrite lookup_delete_eq|]. rewrite lookup_delete_ne by congruence. by rewrite Hw.
Qed.
Lemma cleanup_one_dense r s : dense r → dense (cleanup_one r s).
Proof.
  intros Hd w m. unfold cleanup_one. destruct (r !! ss_session s) as [m0|]; [|by apply Hd].
  destruct (m0 !! ss_address s); [|by apply Hd]. case_decide.
  - intros [_ Hw]%lookup_delete_Some. by eapply Hd.
  - intros [[_ <-]|[_ Hw]]%lookup_insert_Some; [done|by eapply Hd].
Qed.
Lemma cleanup_lookup r l w a :
  lookup2 (CleanupRemoteSlices r l) w a = if decide ((w, a) ∈ key_of <$> l) then None else lookup2 r w a.
Proof.
  revert r. induction l as [|s l IH]; intros r; cbn [CleanupRemoteSlices foldl fmap list_fmap].
  { by rewrite decide_False by apply not_elem_of_nil. }
  fold (CleanupRemoteSlices (cleanup_one r s) l). rewrite IH, cleanup_one_lookup.
  destruct (decide ((w, a) ∈ key_of <$> l)); [by rewrite decide_True by (by right)|].
  destruct (decide (key_of s = (w, a))) as [E|Hne]; [by rewrite decide_True by (rewrite E; by left)|].
  rewrite decide_False; [done|]. intros [E|?]%elem_of_cons; congruence.
Qed.
Lemma cleanup_dense r l : dense r → dense (CleanupRemoteSlices r l).
Proof. revert r. induction l as [|s l IH]; intros r Hd; [done|]. by apply (IH (cleanup_one r s)), cleanup_one_dense. Qed.

Lemma add_lookup r s x w a :
  lookup2 (add_remote r (s, x)) w a =
  if decide (key_of s = (w, a)) then Some (default (mkLocal x (ss_size s)) (lookup2 r w a)) else lookup2 r w a.
Proof.
  unfold add_remote, key_of. rewrite lookup2_insert.
  assert (∀ a, default ∅ (r !! ss_session s) !! a = lookup2 r (ss_session s) a) as Hm.
  { intros b. unfold lookup2. by destruct (r !! ss_session s). }
  destruct (decide (ss_session s = w)) as [<-|Hne]; [|by rewrite decide_False by congruence]. rewrite <- !Hm.
  destruct (default ∅ _ !! ss_address s) as [y|] eqn:Ey.
  - case_decide as E; [injection E as <-; by rewrite Ey|done].
  - case_decide as E; [injection E as <-; by rewrite lookup_insert_eq, Ey|by rewrite lookup_insert_ne by congruence].
Qed.
Lemma add_dense r x : dense r → dense (add_remote r x).
Proof.
  intros Hd w m. destruct x as [s x]. unfold add_remote. intros [[_ <-]|[_ Hw]]%lookup_insert_Some; [|by eapply Hd].
  destruct (_ !! ss_address s) eqn:E; intros E0; [|by apply insert_non_empty in E0]. by rewrite E0, lookup_empty in E.
Qed.
Lemma adds_dense r xs : dense r → dense (foldl add_remote r xs).
Proof. revert r. induction xs as [|x xs IH]; intros r Hd; [done|]. by apply IH, add_dense. Qed.
Lemma adds_other r xs w a : (w, a) ∉ key_of <$> xs.*1 → lookup2 (foldl add_remote r xs) w a = lookup2 r w a.
Proof.
  revert r. induction xs as [|[s x] xs IH]; intros r Hn; [done|]. cbn [foldl fmap list_fmap fst] in *. apply not_elem_of_cons in Hn as [Hne Hn].
  rewrite IH, add_lookup by done. by rewrite decide_False by congruence.
Qed.
Lemma adds_lookup r xs s x :
  NoDup (key_of <$> xs.*1) → (∀ s, s ∈ xs.*1 → lookup2 r (ss_session s) (ss_address s) = None) → (s, x) ∈ xs →
  lookup2 (foldl add_remote r xs) (ss_session s) (ss_address s) = Some (mkLocal x (ss_size s)).
Proof.
  revert r. induction xs as [|[s0 x0] xs IH]; intros r Hnd Habs Hin; [by apply not_elem_of_nil in Hin|].
  cbn in Hnd. apply NoDup_cons in Hnd as [Hn0 Hnd]. cbn [foldl]. apply elem_of_cons in Hin as [[= <- <-]|Hin].
  - rewrite adds_other, add_lookup, decide_True by done. by rewrite Habs by (cbn; by left).
  - apply IH; [done| |done]. intros s1 Hs1. rewrite add_lookup, decide_False.
    + apply Habs. cbn. by right.
    + intros E. apply Hn0. change (key_of s0 = key_of s1) in E. rewrite E. by apply list_elem_of_fmap_2.
Qed.

(** ** Watch rounds *)
Lemma elem_of_added c n d :
  d ∈ added c n ↔ ∃ i, n !! i = Some (NORMAL, d) ∧ c !! i ≠ Some (NORMAL, d).
Proof.
  unfold added. rewrite list_elem_of_omap. split.
  - intros (i & _ & E). exists i. destruct (n !! i) as [[st x]|] eqn:En; cbn in E; [|done].
    case_decide as Hd; [|done]. destruct Hd as [Hst Hc]. injection E as <-. unfold normal in Hst. cbn in Hst. by subst.
  - intros (i & En & Hc). exists i. split; [apply elem_of_seq; apply lookup_lt_Some in En; lia|]. rewrite En. cbn.
    by rewrite decide_True.
Qed.
Lemma elem_of_removed c n d :
  d ∈ removed c n ↔ ∃ i r, c !! i = Some (NORMAL, d) ∧ n !! i = Some r ∧ ¬ normal r.
Proof.
  unfold removed. rewrite list_elem_of_omap. split.
  - intros (i & _ & E). destruct (c !! i) as [[st x]|] eqn:Ec; cbn in E; [|done].
    destruct (n !! i) as [r|] eqn:En; cbn in E; [|done]. case_decide as Hd; [|done]. destruct Hd as [Hst Hr].
    injection E as <-. unfold normal in Hst. cbn in Hst. subst. eauto.
  - intros (i & r & Ec & En & Hr). exists i. split; [apply elem_of_seq; apply lookup_lt_Some in En; lia|].
    rewrite Ec. cbn. rewrite En. cbn. by rewrite decide_True.
Qed.
Lemma NoDup_omap_key {A B C} (g : A → option B) (f : B → C) l :
  NoDup l → (∀ i j x y, g i = Some x → g j = Some y → f x = f y → i = j) → NoDup (f <$> omap g l).
Proof.
  intros Hl Hinj. induction Hl as [|i l Hi Hl IH]; [constructor|]. cbn. destruct (g i) as [x|] eqn:Ei; [|done].
  cbn. constructor; [|done]. intros (y & E & (j & Hj & Ej)%list_elem_of_omap)%list_elem_of_fmap.
  apply Hi. by rewrite (Hinj i j x y).
Qed.

(** Normal records have distinct sessions and addresses. *)
Definition distinct (n : list Rec) : Prop := ∀ i j d d', n !! i = Some (NORMAL, d) → n !! j = Some (NORMAL, d') →
  key_of (take 48 d) = key_of (take 48 d') → i = j.
(** The table grows, and a slot that stays normal keeps its record. *)
Definition evolves (c n : list Rec) : Prop := (List.length c ≤ List.length n)%nat ∧
  ∀ i d d', c !! i = Some (NORMAL, d) → n !! i = Some (NORMAL, d') → d = d'.
Definition same_normal (c n : list Rec) : Prop := ∀ i d, c !! i = Some (NORMAL, d) ↔ n !! i = Some (NORMAL, d).

Lemma updated_same_normal c n : (List.length c ≤ List.length n)%nat → same_normal (updated c n) n.
Proof.
  intros Hl i d. destruct (n !! i) as [r|] eqn:En.
  - rewrite (updated_lookup _ _ _ _ En). unfold keep. case_decide as Hr; [done|]. split.
    + intros [= E]. destruct (keep_normal (c !! i) r) as [Hk _]. unfold keep in Hk. rewrite decide_False in Hk by done.
      exfalso. apply Hr, Hk. rewrite E. done.
    + intros [= ->]. by destruct Hr.
  - rewrite updated_beyond by (by apply lookup_ge_None). split; [|done]. intros Hc%lookup_lt_Some. apply lookup_ge_None in En. lia.
Qed.
Lemma length_updated c n : (List.length c ≤ List.length n)%nat → List.length (updated c n) = List.length n.
Proof. intros Hl. unfold updated. rewrite length_app, length_imap, length_drop. lia. Qed.

Section Watch.
Context {E} `{HybmApi E} (maps : bytes → Z → Prop).

(** The recorded slices are those of the normal records, each with its size and
    with a local address at which the library maps its description. *)
Definition recorded (r : Remote) (n : list Rec) : Prop :=
  dense r ∧ ∀ w a,
  match lookup2 r w a with
  | Some loc => ∃ i d, n !! i = Some (NORMAL, d) ∧ key_of (take 48 d) = (w, a) ∧
      size loc = ss_size (take 48 d) ∧ maps (drop 48 d) (address loc)
  | None => ∀ i d, n !! i = Some (NORMAL, d) → key_of (take 48 d) ≠ (w, a)
  end.
Lemma recorded_same r c n : same_normal c n → recorded r c → recorded r n.
Proof.
  intros Hs [Hd Hr]. split; [done|]. intros w a. specialize (Hr w a). destruct (lookup2 r w a).
  - destruct Hr as (i & d & Hi & ?). exists i, d. split; [by apply Hs|done].
  - intros i d Hi. apply (Hr i). by apply Hs.
Qed.

(** After the removals the records left are those that stay. *)
Lemma recorded_removed r c n :
  recorded r c → distinct c → evolves c n →
  let r1 := CleanupRemoteSlices r (take 48 <$> removed c n) in
  dense r1 ∧ ∀ w a,
  match lookup2 r1 w a with
  | Some loc => ∃ i d, c !! i = Some (NORMAL, d) ∧ n !! i = Some (NORMAL, d) ∧ key_of (take 48 d) = (w, a) ∧
      size loc = ss_size (take 48 d) ∧ maps (drop 48 d) (address loc)
  | None => ∀ i d, c !! i = Some (NORMAL, d) → n !! i = Some (NORMAL, d) → key_of (take 48 d) ≠ (w, a)
  end.
Proof.
  intros [Hd Hr] Hc [Hl He] r1. split; [by apply cleanup_dense|]. intros w a. unfold r1.
  rewrite cleanup_lookup. specialize (Hr w a). case_decide as Hin.
  - intros i d Hci Hni Ek0. apply list_elem_of_fmap in Hin as (s & Es & (x & -> & Hx)%list_elem_of_fmap).
    apply elem_of_removed in Hx as (j & r' & Hcj & Hnj & Hnr). assert (i = j) as -> by (eapply Hc; [exact Hci|exact Hcj|congruence]).
    rewrite Hni in Hnj. injection Hnj as <-. by apply Hnr.
  - destruct (lookup2 r w a) as [loc|]; [|by intros i d Hci _; apply (Hr i)].
    destruct Hr as (i & d & Hci & Ek & Hrest). exists i, d. split; [done|].
    destruct (lookup_lt_is_Some_2 n i) as [[st d'] Hni]; [apply lookup_lt_Some in Hci; lia|].
    destruct (decide (normal (st, d'))) as [Hst|Hst].
    + unfold normal in Hst. cbn in Hst. subst st. by rewrite <- (He i d d' Hci Hni) in Hni.
    + exfalso. apply Hin, list_elem_of_fmap. exists (take 48 d). split; [done|]. apply list_elem_of_fmap_2, elem_of_removed. eauto.
Qed.

Lemma recorded_added r1 c n addrs :
  distinct n → Forall2 maps (drop 48 <$> added c n) addrs →
  dense r1 → (∀ w a,
  match lookup2 r1 w a with
  | Some loc => ∃ i d, c !! i = Some (NORMAL, d) ∧ n !! i = Some (NORMAL, d) ∧ key_of (take 48 d) = (w, a) ∧
      size loc = ss_size (take 48 d) ∧ maps (drop 48 d) (address loc)
  | None => ∀ i d, c !! i = Some (NORMAL, d) → n !! i = Some (NORMAL, d) → key_of (take 48 d) ≠ (w, a)
  end) → recorded (foldl add_remote r1 (zip (take 48 <$> added c n) addrs)) n.
Proof.
  intros Hn Hm Hd Hr. split; [by apply adds_dense|]. set (xs := zip _ addrs).
  assert (xs.*1 = take 48 <$> added c n) as Exs.
  { unfold xs. apply fst_zip. apply Forall2_length in Hm. rewrite !length_fmap in *. lia. }
  assert (∀ s, s ∈ xs.*1 → lookup2 r1 (ss_session s) (ss_address s) = None) as Habs.
  { rewrite Exs. intros s (d & -> & (j & Hnj & Hcj)%elem_of_added)%list_elem_of_fmap.
    specialize (Hr (ss_session (take 48 d)) (ss_address (take 48 d))). destruct (lookup2 _ _ _) as [loc|]; [|done].
    destruct Hr as (i & d' & Hci & Hni & Ek & _). assert (i = j) as -> by (by eapply Hn). congruence. }
  assert (NoDup (key_of <$> xs.*1)) as Hnd.
  { rewrite Exs, <- list_fmap_compose. apply NoDup_omap_key; [apply NoDup_seq|]. intros i j x y Hi Hj Exy.
    assert (∀ i x, (r ← n !! i; if decide (normal r ∧ c !! i ≠ Some r) then Some r.2 else None) = Some x →
      n !! i = Some (NORMAL, x)) as Hget.
    { intros k z. destruct (n !! k) as [[st y0]|]; cbn; [|done]. case_decide as Hk; [|done]. destruct Hk as [Hst _].
      unfold normal in Hst. cbn in Hst. intros [= <-]. by subst. }
    eapply Hn; [by apply Hget|by apply Hget|done]. }
  intros w a. destruct (decide ((w, a) ∈ key_of <$> xs.*1)) as [Hin|Hout].
  - apply list_elem_of_fmap in Hin as (s & [= -> ->] & Hs). rewrite Exs in Hs. apply list_elem_of_fmap in Hs as (d & -> & Hdin).
    pose proof Hdin as (i & Hni & _)%elem_of_added. apply list_elem_of_lookup in Hdin as [k Hk].
    destruct (Forall2_lookup_l _ _ _ k (drop 48 d) Hm) as (x & Hx & Hmx); [by rewrite list_lookup_fmap, Hk|].
    rewrite (adds_lookup r1 xs (take 48 d) x Hnd Habs). 2: { apply list_elem_of_lookup. exists k. unfold xs.
      apply lookup_zip_with_Some. exists (take 48 d), x. by rewrite list_lookup_fmap, Hk. }
    exists i, d. done.
  - rewrite adds_other by done. specialize (Hr w a). destruct (lookup2 r1 w a) as [loc|].
    + destruct Hr as (i & d & _ & Hni & Hrest). by exists i, d.
    + intros i d Hni Ek. destruct (decide (c !! i = Some (NORMAL, d))) as [Hci|Hci]; [by eapply Hr|].
      apply Hout. rewrite Exs, <- Ek. apply list_elem_of_fmap_2, list_elem_of_fmap_2, elem_of_added. eauto.
Qed.

(** The library imports what it is given and says where. *)
Context (Himport : ∀ e infos e' ret addrs, hybm_import e infos = (e', ret, addrs) → ret = 0 ∧ Forall2 maps infos addrs).

Lemma import_records (t : SmemTransEntry E) c n :
  recorded (remoteSlices_ t) c → distinct c → distinct n → evolves c n →
  recorded (remoteSlices_ (importNewSlices t
    (mkChange (drop 48 <$> added c n) (take 48 <$> added c n) (take 48 <$> removed c n))).1) n.
Proof.
  intros Hr Hdc Hdn He. destruct (recorded_removed _ _ _ Hr Hdc He) as [Hd1 Hr1]. unfold importNewSlices.
  cbn [removeStoreSs addInfo addStoreSs].
  set (t1 := if decide (take 48 <$> removed c n = []) then t else _).
  assert (remoteSlices_ t1 = CleanupRemoteSlices (remoteSlices_ t) (take 48 <$> removed c n)) as E1.
  { unfold t1. case_decide as E0; [by rewrite E0|done]. }
  rewrite <- E1 in Hd1, Hr1. destruct (decide (drop 48 <$> added c n = [])) as [E0|_].
  - apply fmap_nil_inv in E0. pose proof (recorded_added (remoteSlices_ t1) c n [] Hdn) as Ha. rewrite E0 in Ha.
    apply Ha; [constructor|done|done].
  - destruct (hybm_import (entity_ t1) _) as [[e ret] addrs] eqn:Ei. destruct (Himport _ _ _ _ _ Ei) as [-> Hm].
    cbn [negb Z.eqb]. cbn. by apply (recorded_added _ c n addrs).
Qed.

(** What a round reads: the count, then the table. *)
Definition look (cnt : Z) (n : list Rec) (_ : unit) (op : StoreOp) : unit * option Outcome :=
  match op with
  | OAdd _ _ => (tt, Some (mkOut SUCCESS None (Some cnt)))
  | OGet _ _ => (tt, Some (mkOut SUCCESS (Some (enc n)) None))
  | _ => (tt, None)
  end.
Fixpoint watch_rounds (t : SmemTransEntry E) (views : list (Z * list Rec)) : option (SmemTransEntry E) :=
  match views with
  | [] => Some t
  | (cnt, n) :: views' => t' ← (run_calls (look cnt n) tt (WatchTaskFindNewSlices t)).2; watch_rounds t' views'
  end.

Section Rounds.
Context (size : Z) (Hsize : 0 < size).
Definition view_ok (v : Z * list Rec) : Prop :=
  table (Z.to_nat (size + 48)) v.2 ∧ len v.2 < 2 ^ 32 ∧ distinct v.2 ∧ (v.1 = 0 → ∀ i d, v.2 !! i ≠ Some (NORMAL, d)).
Fixpoint views_ok (n : list Rec) (views : list (Z * list Rec)) : Prop :=
  match views with [] => True | v :: views' => view_ok v ∧ evolves n v.2 ∧ views_ok v.2 views' end.
Definition watching (t : SmemTransEntry E) (n : list Rec) : Prop :=
  sliceExpSize_ (storeHelper_ t) = size ∧ ∃ c, remoteSlicesInfoLastTime_ (storeHelper_ t) = enc c ∧
    table (Z.to_nat (size + 48)) c ∧ (List.length c ≤ List.length n)%nat ∧ same_normal c n ∧ recorded (remoteSlices_ t) c.

Lemma import_helper (t : SmemTransEntry E) ch : storeHelper_ (importNewSlices t ch).1 = storeHelper_ t.
Proof.
  unfold importNewSlices. repeat case_decide; cbn; try done;
    destruct (hybm_import _ _) as [[e ret] addrs]; by destruct (negb _).
Qed.
Lemma watch_round t n cnt n' :
  watching t n → len n < 2 ^ 32 → distinct n → view_ok (cnt, n') → evolves n n' →
  ∃ t', run_calls (look cnt n') tt (WatchTaskFindNewSlices t) = (tt, Some t') ∧ watching t' n'.
Proof.
  intros (Es & c & Ec & Htc & Hlc & Hsame & Hrec) Hln Hdn (Htn & Hln' & Hdn' & Hcnt) [Hle Hev]. cbn [fst snd] in *.
  unfold WatchTaskFindNewSlices, FindNewRemoteSlices. rewrite Es. destruct (Z.eqb_spec size 0); [lia|].
  cbn -[ExtraSliceChangeInfo]. rewrite Ec.
  destruct ((cnt =? 0) && (len (enc c) =? 0)) eqn:E0.
  - apply andb_true_iff in E0 as [E1%Z.eqb_eq E2%Z.eqb_eq]. eexists. split; [reflexivity|]. split; [done|].
    assert (c = []) as -> by (destruct c as [|[st d] c]; [done|]; rewrite enc_cons in E2; unfold len in E2; cbn in E2; lia).
    exists []. split_and!; [done..|cbn; lia| |done]. intros i d. split; [done|]. intros Hi. by destruct (Hcnt E1 i d).
  - cbn -[ExtraSliceChangeInfo importNewSlices]. change (sizeof_slice) with 48.
    rewrite search_slices; [|done|done|unfold len in *; lia|done]. cbn -[importNewSlices]. eexists. split; [reflexivity|].
    split; [by rewrite import_helper|]. exists (updated c n').
    assert (List.length c ≤ List.length n')%nat as Hlcn by lia.
    split_and!.
    + by rewrite import_helper.
    + by apply updated_table.
    + by rewrite length_updated.
    + by apply updated_same_normal.
    + apply recorded_same with n'; [intros i d; symmetry; by apply updated_same_normal|]. apply import_records; [done| |done|].
      * intros i j d d' Hi Hj. apply Hdn; by apply Hsame.
      * split; [done|]. intros i d d' Hi. apply Hev. by apply Hsame.
Qed.

(** C27: a session that starts with nothing recorded and watches a table that grows,
    in which a slot that stays normal keeps its record and normal records have
    distinct sessions and addresses, has after every round recorded exactly the
    slices of the normal records of the table it saw last, each with its size
    and with a local address the library gave for its description, provided the
    imports succeed. *)
Theorem watch_tracks_table t views :
  sliceExpSize_ (storeHelper_ t) = size → remoteSlicesInfoLastTime_ (storeHelper_ t) = [] → remoteSlices_ t = ∅ →
  views_ok [] views →
  ∃ t', watch_rounds t views = Some t' ∧ recorded (remoteSlices_ t') (default [] (last views.*2)).
Proof.
  intros E1 E2 E3 Hv.
  assert (∀ n t, watching t n → len n < 2 ^ 32 → distinct n → views_ok n views →
    ∃ t', watch_rounds t views = Some t' ∧ watching t' (default n (last views.*2))) as Hgen.
  { clear -Hsize Himport. induction views as [|[cnt n'] views IH]; intros n t Hw Hl Hd; [eauto|]. intros (Hv & He & Hvs).
    destruct (watch_round t n cnt n' Hw Hl Hd Hv He) as (t1 & Er & Hw1). cbn [watch_rounds]. rewrite Er. cbn [snd mbind option_bind].
    destruct Hv as (_ & Hl' & Hd' & _). destruct (IH n' t1 Hw1 Hl' Hd' Hvs) as (t' & Ew & Hw'). exists t'. split; [done|].
    destruct views as [|v views]; [done|]. cbn [fmap list_fmap snd] in *. rewrite last_cons_cons.
    destruct (last (v.2 :: views.*2)) eqn:El; [done|by apply last_None in El]. }
  destruct (Hgen [] t) as (t' & Ew & _ & c & _ & _ & _ & Hs & Hr); [|done|by intros ? ? ? ? ?|done|].
  - split; [done|]. exists []. split_and!; [done|by constructor|done|done|]. rewrite E3. split; [intros w m ?; by simplify_map_eq|].
    intros w a. unfold lookup2. rewrite lookup_empty. cbn. done.
  - exists t'. split; [done|]. by apply recorded_same with c.
Qed.
End Rounds.
End Watch.

(** ** Failures *)
Section Failures.
Context {E} `{HybmApi E} (padding : bytes).

(** The cache of the table is brought up to date before the import: when the import
    fails, the slices are not recorded and no later round offers them again. *)
Theorem failed_import_lost (t : SmemTransEntry E) c n cnt e ret addrs :
  let h := storeHelper_ t in
  let size := Z.to_nat (sliceExpSize_ h + 48) in
  0 < sliceExpSize_ h → remoteSlicesInfoLastTime_ h = enc c → table size c → table size n →
  len c < 2 ^ 32 → len n < 2 ^ 32 → cnt ≠ 0 → removed c n = [] → added c n ≠ [] →
  hybm_import (entity_ t) (drop 48 <$> added c n) = (e, ret, addrs) → ret ≠ 0 →
  let t' := set_entity (set_helper t (set_lastSlices h (enc (updated c n)))) e in
  run_calls (look cnt n) tt (WatchTaskFindNewSlices t) = (tt, Some t') ∧
  run_calls (look cnt n) tt (WatchTaskFindNewSlices t') = (tt, Some t') ∧ remoteSlices_ t' = remoteSlices_ t.
Proof.
  intros h size Hs Ec Hc Hn Lc Ln Hcnt Hrm Hadd Hi Hret t'.
  assert (∀ u c, storeHelper_ u = set_lastSlices h (enc c) → table size c → len c < 2 ^ 32 →
    run_calls (look cnt n) tt (WatchTaskFindNewSlices u) = (tt, Some (importNewSlices (set_helper u
      (set_lastSlices h (enc (updated c n)))) (mkChange (drop 48 <$> added c n) (take 48 <$> added c n) (take 48 <$> removed c n))).1)) as Hround.
  { intros u c1 Eu Ht Hl. unfold WatchTaskFindNewSlices, FindNewRemoteSlices. rewrite Eu. cbn [sliceExpSize_ set_lastSlices].
    destruct (Z.eqb_spec (sliceExpSize_ h) 0); [lia|]. cbn -[ExtraSliceChangeInfo importNewSlices].
    destruct (Z.eqb_spec cnt 0); [done|]. cbn -[ExtraSliceChangeInfo importNewSlices]. change sizeof_slice with 48. fold size.
    rewrite search_slices by done. done. }
  split_and!; [| |done].
  - rewrite (Hround t c) by (by unfold h; rewrite <- ?Ec; destruct (storeHelper_ t)). unfold importNewSlices.
    rewrite Hrm. cbn [removeStoreSs addInfo fmap list_fmap]. rewrite (decide_False (P := drop 48 <$> added c n = [])) by (by intros ?%fmap_nil_inv).
    rewrite (decide_True (P := @nil bytes = [])) by done.
    cbn [set_helper entity_]. rewrite Hi. by apply Z.eqb_neq in Hret as ->.
  - rewrite (Hround t' (updated c n)); [|done|by apply updated_table|by apply len_updated].
    by rewrite updated_idem, added_updated, removed_updated.
Qed.

(** A slice is recorded as the session's before it is exported; when the export
    fails it is freed and stays recorded, so that freeing its address frees it again. *)
Theorem malloc_failure_keeps_slice (t : SmemTransEntry E) n e slice va e1 ret info :
  0 < n ≤ TRANS_RESERVE_DRAM_VA_SIZE → hybm_alloc_local_memory (entity_ t) n = (e, slice) → slice ≠ 0 →
  hybm_get_slice_va e slice = va → va ≠ 0 → hybm_export e slice = (e1, ret, info) → ret ≠ 0 →
  let e2 := (hybm_free_local_memory e1 slice n).1 in
  ∃ t', MallocDram padding t n = Ret (Some (t', 0)) ∧ entity_ t' = e2 ∧
    (FreeDram t' va).2 = (hybm_free_local_memory e2 slice 0).2.
Proof.
  intros Hn Ha Hs Hv Hva He Hr e2. unfold MallocDram. destruct (Z.eqb_spec n 0); [lia|].
  destruct (Z.ltb_spec TRANS_RESERVE_DRAM_VA_SIZE n); [lia|]. rewrite Ha. apply Z.eqb_neq in Hs as Es. rewrite Es.
  cbn [set_entity entity_]. rewrite Hv. apply Z.eqb_neq in Hva as Ev. rewrite Ev. unfold StoreSlice. cbn [set_addrs set_entity entity_]. rewrite He.
  apply Z.eqb_neq in Hr as ->. cbn [negb]. eexists. split; [reflexivity|]. cbn [set_entity entity_]. split; [done|].
  unfold FreeDram, RemoveSlice. rewrite Ev. cbn [set_entity set_addrs addrToSliceMap_]. rewrite lookup_insert_eq, Es.
  cbn [set_addrs set_entity entity_]. fold e2. by destruct (hybm_free_local_memory e2 slice 0).
Qed.
End Failures.

(** ** A concrete library

    The state counts slices; memory is mapped one terabyte up. *)
#[local] Instance demo_hybm : HybmApi Z := {
  hybm_entity_null e := false;
  hybm_register_local_memory e a n := (e + 1, e + 1);
  hybm_alloc_local_memory e n := (e + 1, e + 1);
  hybm_get_slice_va e s := s * 2 ^ 30;
  hybm_free_local_memory e s n := (e, 0);
  hybm_export e s := (e, 0, [byte_of_Z s]);
  hybm_import_entities e infos := (e, 0);
  hybm_import e infos := (e, 0, (λ b, 2 ^ 40 + le_val b) <$> infos);
  hybm_remove_imported e r := (e, 0);
  hybm_mmap e := e;
  hybm_data_batch_copy e cs dir stream flag := (e + len cs, 0);
}.
Definition demo_entry (r : Remote) : SmemTransEntry Z :=
  mkEntry 1 0 (repeat "a"%byte 24) 1 (SetSliceExportSize (helper_Initialize (helper_new "a") SMEM_TRANS_SENDER).2 1) r ∅ ∅.
Definition page : Z := NPU_PAGE_SIZE.

Lemma register_covers_pages_witness : ∃ mm, separated mm ∧ covers mm (2 * page) ∧ ¬ covers mm (3 * page).
Proof.
  destruct (register_covers_pages (repeat "000"%byte 6) (demo_entry ∅) [(page + 5, 7); (2 * page, page)]) as (mm & H1 & H2 & _).
  - reflexivity.
  - discriminate.
  - repeat constructor; vm_compute; congruence.
  - exists mm. split; [exact H1|]. rewrite !H2. split.
    + exists (2 * page, page), (2 * page). split_and!; [set_solver|cbn; lia|vm_compute; reflexivity|reflexivity].
    + intros (m & b & Hm & Hb & E). assert (b / page = 3) as E' by (rewrite <- (Z.div_mul 3 page) by done; exact E).
      assert (page = 2097152) as Hp by reflexivity. rewrite Hp in *.
      pose proof (Z.div_mod b 2097152 ltac:(lia)). pose proof (Z.mod_pos_bound b 2097152 ltac:(lia)).
      apply elem_of_cons in Hm as [->|Hm]; [cbn in Hb; lia|]. apply list_elem_of_singleton in Hm as ->. cbn in Hb. lia.
Defined.

Definition demo_slices : gmap Z LocalMapAddress := {[ 4096 := mkLocal 65536 8192 ]}.
Lemma transfer_translates_witness :
  (batch (λ _, Some ["a"%byte]) (demo_entry {[ ["a"%byte] := demo_slices ]}) "x" [(77, 8192, 4096)] SMEMB_COPY_L2G 0 0).2 = 0.
Proof.
  destruct (transfer_translates (λ _, Some ["a"%byte]) (demo_entry {[ ["a"%byte] := demo_slices ]}) "x" ["a"%byte] demo_slices
    [(77, 8192, 4096)] SMEMB_COPY_L2G 0 0) as [Hin _].
  - reflexivity.
  - reflexivity.
  - split.
    + unfold demo_slices. intros f s [<- <-]%lookup_singleton_Some. cbn. lia.
    + unfold demo_slices. intros f1 s1 f2 s2 [<- <-]%lookup_singleton_Some [<- <-]%lookup_singleton_Some. lia.
  - discriminate.
  - repeat constructor; cbn; lia.
  - by left.
  - by left.
  - rewrite (Hin [69632]); [reflexivity|]. repeat constructor. exists 4096, (mkLocal 65536 8192). split; [reflexivity|]. cbn. lia.
Defined.

Definition demo_record (x : byte) : bytes := repeat x 49.
Definition demo_views : list (Z * list Rec) :=
  [(0, []); (1, [(NORMAL, demo_record "a")]); (2, [(ABNORMAL, demo_record "a"); (NORMAL, demo_record "b")])].
Lemma watch_tracks_table_witness : ∃ t,
  watch_rounds (demo_entry ∅) demo_views = Some t ∧
  recorded (λ b a, a = 2 ^ 40 + le_val b) (remoteSlices_ t) [(ABNORMAL, demo_record "a"); (NORMAL, demo_record "b")].
Proof.
  apply (watch_tracks_table (λ b a, a = 2 ^ 40 + le_val b)) with (size := 1).
  - intros e infos e' ret addrs [= <- <- <-]. split; [reflexivity|]. induction infos; constructor; auto.
  - lia.
  - reflexivity.
  - reflexivity.
  - reflexivity.
  - repeat split; try (by repeat constructor); try (vm_compute; done).
    all: cbn [fst snd demo_views]; try (intros [|[|i]] [|[|j]] d d' ? ?; simplify_eq/=; vm_compute; congruence).
    all: try (intros [|[|i]] d d' ? ?; simplify_eq/=; done).
Defined.
