(* ===== verification/TransServerSpec.v ===== *)
(** * The store server with the fault handler, as the helper sees it

    [reg_exec] is what an operation of a link does to the stored map and to the
    state of the fault handler; through the client's packing, the server and the
    handlers hung into it, a call of the helper is exactly that. *)
From Stdlib Require Import Strings.Byte Strings.String.
From stdpp Require Import base numbers list gmap strings.
From S2P Require Import Prelude SmemTypes StrUtil MessagePacker StoreBackend StoreServer StoreServerSpec StoreClient.
From S2P Require Import StoreClientSpec TransFault TransHelper.
Local Open Scope Z_scope.

Abbreviation Kv := (gmap string bytes).
Abbreviation HServer := (@AccStoreServer (Hosted Kv)).
Implicit Types (kv : Kv) (f : SmemStoreFaultHandler).

Definition out_code (c : Z) : Outcome := mkOut c None None.

(** The map, the handler and the outcome behind an operation of link [l]; [None]
    when the caller gets no answer. *)
Definition reg_exec (junk l : Z) kv f (op : StoreOp) : option (Kv * SmemStoreFaultHandler * Outcome) :=
  match op with
  | OSet k v =>
      let '(er, f') := BuildLinkIdToRankInfoMap junk l k v f in
      if er =? SM_OK then Some (<[k := v]> kv, f', out_code SUCCESS) else Some (kv, f', out_code ERROR)
  | OGet k t =>
      match kv !! k with
      | Some v => Some (kv, f, mkOut SUCCESS (Some v) None)
      | None =>
          let '(er, v, f') := GetFromFaultInfo k [] f in
          if er =? SM_GET_OBJIECT then Some (kv, f', mkOut RESTORE (Some v) None)
          else if t =? 0 then Some (kv, f', out_code NOT_EXIST) else None
      end
  | OAdd k n =>
      let '(er, f') := if 0 <? n then AddRankInfoMap l k f else (SM_OK, f) in
      if negb (er =? SM_OK) then Some (kv, f', out_code ERROR) else
      match kv !! k with
      | None => Some (<[k := to_string n]> kv, f', mkOut SUCCESS None (Some n))
      | Some v =>
          match stored_number v with
          | None => Some (kv, f', out_code INVALID_MESSAGE)
          | Some m => Some (<[k := to_string (i64 (m + n))]> kv, f', mkOut SUCCESS None (Some (i64 (m + n))))
          end
      end
  | OAppend k v =>
      let value := default [] (kv !! k) ++ v in
      let kv := <[k := value]> kv in
      let '(er, f') := AppendRankInfoMap l k v (SUCCESS, value) f in
      if negb (er =? SM_OK) then Some (kv, f', out_code ERROR)
      else Some (kv, f', mkOut SUCCESS None (Some (len value)))
  | OWrite k v off =>
      let old := default [] (kv !! k) in
      let '(er, f') := WriteRankInfoMap l k (le_bytes 4 off ++ v) f in
      if negb (er =? SM_OK) then
        Some (if kv !! k is None then <[k := replicate (Z.to_nat off + List.length v) Byte.x00]> kv else kv,
              f', out_code ERROR)
      else Some (<[k := write_result old (Z.to_nat off) v]> kv, f', out_code SUCCESS)
  end.

Definition sop_key (op : StoreOp) : string :=
  match op with OSet k _ | OGet k _ | OAdd k _ | OAppend k _ | OWrite k _ _ => k end.
(** Keys the client and the server accept, values and numbers within their limits. *)
Definition sop_ok kv (op : StoreOp) : Prop :=
  bad_key (sop_key op) = false ∧ slen (sop_key op) ≤ MAX_KEY_LEN_SERVER ∧
  match op with
  | OSet _ v => len v ≤ MAX_VALUE_SIZE
  | OGet k t => String.prefix AutoRankingStr k = false ∧ - 2 ^ 63 ≤ t < 2 ^ 63 ∧
      (∀ v, kv !! k = Some v → len v ≤ MAX_VALUE_SIZE)
  | OAdd _ n => I64_MIN ≤ n ≤ I64_MAX
  | OAppend k v => len v ≤ MAX_VALUE_SIZE ∧ len (default [] (kv !! k)) < 2 ^ 62
  | OWrite _ v off => 0 ≤ off < 2 ^ 32 ∧ off ≤ MAX_U16_INDEX * len v ∧ len v ≤ MAX_VALUE_SIZE - 4
  end.

(** ** The server's handlers, with the fault handler *)
Record hosting (junk : Z) (s : HServer) : Prop := {
  ho_set : externalOpHandlerMap s !! mt_code SET = Some (setHandler junk);
  ho_get : externalOpHandlerMap s !! mt_code GET = Some getHandler;
  ho_add : externalOpHandlerMap s !! mt_code ADD = Some addHandler;
  ho_write : externalOpHandlerMap s !! mt_code WRITE = Some writeHandler;
  ho_append : externalOpHandlerMap s !! mt_code APPEND = Some appendHandler;
  ho_broken : externalBrokenHandler s = Some clearHandler;
  ho_calm : keyWaiters s = ∅;
}.

Lemma hosting_backend junk s b : hosting junk s → hosting junk (set_backend s b).
Proof. by intros []; split. Qed.
Lemma hosting_register junk world kv :
  hosting junk (RegisterHandlerToStore junk (server_new world (mkHosted kv fault_new))).
Proof.
  assert (∀ (s : HServer) c h, externalOpHandlerMap (RegisterOpHandler s c h) = <[c := h]> (externalOpHandlerMap s) ∧
    keyWaiters (RegisterOpHandler s c h) = keyWaiters s) as Hop by done.
  assert (∀ (s : HServer) h, externalOpHandlerMap (RegisterBrokenLinkCHandler s h) = externalOpHandlerMap s ∧
    keyWaiters (RegisterBrokenLinkCHandler s h) = keyWaiters s) as Hbr by done.
  unfold RegisterHandlerToStore. split.
  6: reflexivity.
  6: rewrite (proj2 (Hbr _ _)), !(proj2 (Hop _ _ _)); reflexivity.
  all: rewrite (proj1 (Hbr _ _)), !(proj1 (Hop _ _ _));
    repeat first [apply lookup_insert_eq | rewrite lookup_insert_ne by discriminate].
Qed.

Lemma take_key_waiters_calm junk s k : hosting junk s → take_key_waiters s k = (s, []).
Proof. intros [?????? E]. unfold take_key_waiters. by rewrite E, lookup_empty. Qed.

Lemma ExecuteHandle_at {B} (s : @AccStoreServer B) op l k v h :
  externalOpHandlerMap s !! mt_code op = Some h → ExecuteHandle s op l k v = h l k v (backend s).
Proof. intros E. unfold ExecuteHandle. by destruct (_ !! _); simplify_eq. Qed.

Section Handlers.
Context (junk : Z) (s : HServer) (Hs : hosting junk s) (e : Env) (ctx : ReqCtx).
Local Abbreviation l := (rq_link ctx).
Local Abbreviation kv := (h_store (backend s)).
Local Abbreviation f := (h_fault (backend s)).
Local Abbreviation at_ kv f := (set_backend s (mkHosted kv f)).

Definition answers (m : SmemMessage) kv' f' (code : Z) (body : bytes → Prop) : Prop :=
  ∃ b ret, body b ∧ handle e s ctx m = Some (at_ kv' f', [mkReply ctx code b], ret).

Ltac with_handler H := first [rewrite (ExecuteHandle_at _ _ _ _ _ _ H)
  | erewrite (ExecuteHandle_at (set_backend _ _)) by exact H].

Lemma set_answers k v kv' f' o :
  slen k ≤ MAX_KEY_LEN_SERVER → reg_exec junk l kv f (OSet k v) = Some (kv', f', o) →
  answers (msg SET [k] [v]) kv' f' (o_code o) (λ _, True).
Proof.
  intros Hk E. unfold answers, handle. cbn [mt msg]. unfold SetHandler. cbn [msg keys values].
  rewrite (key_len_ok _ Hk). with_handler (ho_set _ _ Hs). unfold setHandler. cbn [reg_exec] in E.
  destruct (BuildLinkIdToRankInfoMap _ _ _ _ _) as [er f1]. destruct (er =? SM_OK); cbn [negb];
    injection E as <- <- <-.
  - pose proof (take_key_waiters_calm junk (at_ kv f1) k (hosting_backend _ _ _ Hs)) as Et.
    destruct (negb _); [rewrite Et|]; cbn; eexists _, _; by split.
  - cbn. eexists _, _. by split.
Qed.

Lemma get_answers k t kv' f' o :
  slen k ≤ MAX_KEY_LEN_SERVER → String.prefix AutoRankingStr k = false →
  reg_exec junk l kv f (OGet k t) = Some (kv', f', o) →
  answers (mkMsg GET t [k] []) kv' f' (o_code o)
    (λ b, if o_val o is Some v then b = Pack (msg GET [] [v]) ∧ (o_code o = SUCCESS ∨ o_code o = RESTORE)
          else o_code o = NOT_EXIST).
Proof.
  intros Hk Hp E. unfold answers, handle. cbn [mt]. unfold GetHandler. cbn [msg keys values userDef].
  rewrite (key_len_ok _ Hk), Hp. cbn [bk_Get hosted_backend local_backend]. unfold local_Get. cbn [reg_exec] in E.
  destruct (kv !! k) as [v|] eqn:Ev; cbn [Z.eqb SUCCESS NOT_EXIST].
  { injection E as <- <- <-. eexists _, _. split; [|destruct s as [[]]; reflexivity]. cbn. auto. }
  with_handler (ho_get _ _ Hs). unfold getHandler.
  destruct (GetFromFaultInfo k [] f) as [[er v] f1]. destruct (er =? SM_GET_OBJIECT).
  { injection E as <- <- <-. eexists _, _. split; [|reflexivity]. cbn. auto. }
  destruct (t =? 0); [|done]. injection E as <- <- <-. eexists _, _. split; [|reflexivity]. done.
Qed.

Lemma add_answers k n kv' f' o :
  slen k ≤ MAX_KEY_LEN_SERVER → I64_MIN ≤ n ≤ I64_MAX →
  reg_exec junk l kv f (OAdd k n) = Some (kv', f', o) →
  answers (msg ADD [k] [to_string n]) kv' f' (o_code o)
    (λ b, if o_num o is Some z then o_code o = SUCCESS ∧ b = to_string z ∧ I64_MIN ≤ z ≤ I64_MAX
          else o_code o ≠ SUCCESS).
Proof.
  intros Hk Hn E. unfold answers, handle. cbn [mt msg]. unfold AddHandler. cbn [msg keys values].
  rewrite (key_len_ok _ Hk), String2Long_to_string, bool_decide_true by done. cbn [negb].
  assert ((if 0 <? n then ExecuteHandle s ADD l k (to_string n) else (SM_OK, to_string n, backend s)) =
    let '(er, f1) := if 0 <? n then AddRankInfoMap l k f else (SM_OK, f) in (er, to_string n, mkHosted kv f1)) as ->.
  { destruct (0 <? n); [by with_handler (ho_add _ _ Hs)|]. by destruct (backend s). }
  cbn [reg_exec] in E. destruct (if 0 <? n then _ else _) as [er f1].
  destruct (negb (er =? SM_OK)).
  { injection E as <- <- <-. eexists _, _. split; [|reflexivity]. done. }
  cbn [bk_Get hosted_backend local_backend]. unfold local_Get. cbn [h_store backend set_backend].
  destruct (kv !! k) as [v|] eqn:Ev; cbn [Z.eqb SUCCESS NOT_EXIST negb].
  - destruct (stored_number v) as [m|]; injection E as <- <- <-; (eexists _, _; split; [|reflexivity]); [|done].
    cbn. split_and!; [done..|apply i64_bounds|apply i64_bounds].
  - rewrite (take_key_waiters_calm junk (at_ kv f1) k (hosting_backend _ _ _ Hs)).
    injection E as <- <- <-. eexists _, _. split; [|reflexivity]. cbn. split_and!; try done; lia.
Qed.

Lemma append_answers k v kv' f' o :
  slen k ≤ MAX_KEY_LEN_SERVER → reg_exec junk l kv f (OAppend k v) = Some (kv', f', o) →
  answers (msg APPEND [k] [v]) kv' f' (o_code o)
    (λ b, if o_num o is Some z then o_code o = SUCCESS ∧ b = to_string z ∧ z = len (default [] (kv !! k) ++ v)
          else o_code o ≠ SUCCESS).
Proof.
  intros Hk E. unfold answers, handle. cbn [mt msg]. unfold AppendHandler. cbn [msg keys values].
  rewrite (key_len_ok _ Hk). cbn [bk_Get hosted_backend local_backend]. unfold local_Get at 1.
  cbn [reg_exec] in E.
  assert (∀ s1, s1 = at_ (<[k := default [] (kv !! k) ++ v]> kv) f →
    ExecuteHandle s1 APPEND l k v =
    let '(er, f1) := AppendRankInfoMap l k v (SUCCESS, default [] (kv !! k) ++ v) f in
    (er, v, mkHosted (<[k := default [] (kv !! k) ++ v]> kv) f1)) as Hx.
  { intros s1 ->. with_handler (ho_append _ _ Hs). unfold appendHandler.
    cbn [backend set_backend h_store h_fault bk_Get local_backend]. unfold local_Get.
    by rewrite lookup_insert_eq. }
  destruct (kv !! k) as [old|] eqn:Ek; cbn [Z.eqb SUCCESS NOT_EXIST default from_option id] in *.
  2: rewrite (take_key_waiters_calm junk s k Hs).
  all: cbn [bk_Put hosted_backend local_backend local_Put over_store fst snd]; rewrite Hx by reflexivity;
    destruct (AppendRankInfoMap _ _ _ _ _) as [er f1]; destruct (negb (er =? SM_OK));
    injection E as <- <- <-; (eexists _, _; split; [|reflexivity]); done.
Qed.

Lemma write_answers k v off kv' f' o :
  slen k ≤ MAX_KEY_LEN_SERVER → 0 ≤ off < 2 ^ 32 → off ≤ MAX_U16_INDEX * len v →
  reg_exec junk l kv f (OWrite k v off) = Some (kv', f', o) →
  answers (msg WRITE [k] [le_bytes 4 off ++ v]) kv' f' (o_code o) (λ _, True).
Proof.
  intros Hk Ho Hm E. unfold answers, handle. cbn [mt msg]. unfold WriteHandler. cbn [msg keys values].
  rewrite (key_len_ok _ Hk). unfold UnpackPod.
  assert ((4 <=? List.length (le_bytes 4 off ++ v))%nat = true) as ->.
  { apply Nat.leb_le. rewrite length_app, length_le_bytes. lia. }
  rewrite take_app_length' by (by rewrite length_le_bytes).
  rewrite drop_app_length' by (by rewrite length_le_bytes).
  rewrite le_val_le_bytes_small by (change (256 ^ Z.of_nat 4) with (2 ^ 32); lia).
  cbn [mbind option_bind]. rewrite (proj2 (Z.ltb_ge _ _)) by lia.
  cbn [bk_Get hosted_backend local_backend]. unfold local_Get. cbn [reg_exec] in E.
  set (total := (Z.to_nat off + List.length v)%nat) in *.
  destruct (WriteRankInfoMap l k (le_bytes 4 off ++ v) f) as [er f1] eqn:Ew.
  destruct (kv !! k) as [old|] eqn:Ev; cbn [Z.eqb SUCCESS NOT_EXIST negb].
  - with_handler (ho_write _ _ Hs). unfold writeHandler. rewrite Ew, Ev.
    destruct (negb (er =? SM_OK)); injection E as <- <- <-; (eexists _, _; split; [done|]); [reflexivity|].
    unfold total. rewrite write_value. reflexivity.
  - cbn [bk_Put hosted_backend local_backend over_store local_Put fst snd Z.eqb SUCCESS negb].
    cbn [backend set_backend h_store]. rewrite lookup_insert_eq.
    with_handler (ho_write _ _ Hs). unfold writeHandler. cbn [backend set_backend h_store h_fault]. rewrite Ew.
    destruct (negb (er =? SM_OK)); injection E as <- <- <-; (eexists _, _; split; [done|]); [reflexivity|].
    cbn [backend set_backend h_store h_fault fst snd Z.eqb negb]. unfold over_store. cbn [fst snd h_fault].
    rewrite insert_insert_eq. do 4 f_equal. do 2 f_equal. unfold total.
    rewrite length_replicate, (proj2 (Nat.ltb_ge _ _)) by lia.
    cbn [default from_option]. unfold write_result. rewrite resize_grow by (cbn; lia). cbn [List.length app id].
    do 2 f_equal. lia.
Qed.
End Handlers.

(** ** Calls through the client *)
Lemma answers_served junk s (Hs : hosting junk s) e ctx m kv' f' code P :
  wf_msg m → answers s e ctx m kv' f' code P →
  ∃ b, P b ∧ serve_one e ctx s (Pack m) = (set_backend s (mkHosted kv' f'), Some (mkResp code (Some b))).
Proof. intros Hwf (b & ret & Hb & E). exists b. split; [done|]. by eapply serve_one_own. Qed.

Lemma one_key_wf t wait k vs :
  slen k ≤ MAX_KEY_LEN_SERVER → - 2 ^ 63 ≤ wait < 2 ^ 63 → (List.length vs ≤ 1)%nat →
  Forall (λ v, len v ≤ MAX_VALUE_SIZE) vs → wf_msg (mkMsg t wait [k] vs).
Proof.
  intros Hk Hw Hl Hv. unfold wf_msg, MAX_KEY_LEN_SERVER, MAX_KEY_COUNT, MAX_VALUE_COUNT, MAX_KEY_SIZE in *.
  cbn [userDef keys values]. split_and!; try done; try (unfold len in *; cbn in *; lia). by repeat constructor.
Qed.

Lemma store_call_exec junk s e ctx stale op kv' f' o :
  hosting junk s → sop_ok (h_store (backend s)) op →
  reg_exec junk (rq_link ctx) (h_store (backend s)) (h_fault (backend s)) op = Some (kv', f', o) →
  store_call (serve_one e ctx) stale s op = (set_backend s (mkHosted kv' f'), Some o).
Proof.
  intros Hs (Hb & Hk & Hop) E. assert (- 2 ^ 63 ≤ 0 < 2 ^ 63) as H0 by lia. pose proof len_to_string as Hts.
  destruct op as [k v|k t|k n|k v|k v off]; cbn [sop_key] in *; unfold store_call.
  - destruct (answers_served junk s Hs e ctx (msg SET [k] [v]) kv' f' (o_code o) (λ _, True)) as (b & _ & Es).
    { apply one_key_wf; [done..|cbn; lia|]. by repeat constructor. }
    { by eapply set_answers. }
    unfold Set_. rewrite Hb, Es. cbn in E. case_match; case_match; by simplify_eq.
  - destruct Hop as (Hp & Ht & Hst).
    destruct (answers_served junk s Hs e ctx (mkMsg GET t [k] []) kv' f' (o_code o)
      (λ b, if o_val o is Some v then b = Pack (msg GET [] [v]) ∧ (o_code o = SUCCESS ∨ o_code o = RESTORE)
            else o_code o = NOT_EXIST)) as (b & Hv & Es).
    { apply one_key_wf; [done..|cbn; lia|constructor]. }
    { by eapply get_answers. }
    unfold GetReal. rewrite Hb, Es. cbn [header_result resp_data].
    assert (∀ v, o_val o = Some v → len v ≤ MAX_VALUE_SIZE) as Hlen.
    { intros v Hov. cbn in E. destruct (_ !! k) as [v'|]; [by simplify_eq/=; apply Hst|].
      destruct (GetFromFaultInfo k [] _) as [[er w] f1] eqn:Eg. repeat case_match; simplify_eq/=.
      unfold GetFromFaultInfo in Eg. repeat case_match; simplify_eq/=; vm_compute; discriminate. }
    assert (o_num o = None) as Hn by (cbn in E; repeat case_match; by simplify_eq/=).
    destruct o as [code [v|] num]; cbn [o_val o_code o_num] in *; subst num.
    + destruct Hv as [-> Hc]. rewrite response_value_Pack by eauto. by destruct Hc as [-> | ->].
    + by subst code.
  - destruct (answers_served junk s Hs e ctx (msg ADD [k] [to_string n]) kv' f' (o_code o)
      (λ b, if o_num o is Some z then o_code o = SUCCESS ∧ b = to_string z ∧ I64_MIN ≤ z ≤ I64_MAX
            else o_code o ≠ SUCCESS)) as (b & Hv & Es).
    { apply one_key_wf; [done..|cbn; lia|]. repeat constructor. etransitivity; [apply Hts|]. unfold MAX_VALUE_SIZE. lia. }
    { by eapply add_answers. }
    unfold Add. rewrite Hb, Es. cbn [header_result resp_data].
    assert (o_val o = None) as Hn by (cbn in E; repeat case_match; by simplify_eq/=).
    destruct o as [code val [z|]]; cbn [o_val o_code o_num] in *; subst val.
    + destruct Hv as (-> & -> & Hz). cbn [Z.eqb SUCCESS negb].
      destruct (add_reads_number stale z Hz) as (-> & -> & Hzero). cbn [default from_option id].
      rewrite Hzero. by rewrite bool_decide_true by eauto.
    + apply Z.eqb_neq in Hv. unfold SUCCESS in Hv. by rewrite Hv.
  - destruct Hop as [Hv Hold].
    destruct (answers_served junk s Hs e ctx (msg APPEND [k] [v]) kv' f' (o_code o)
      (λ b, if o_num o is Some z then o_code o = SUCCESS ∧ b = to_string z ∧
              z = len (default [] (h_store (backend s) !! k) ++ v) else o_code o ≠ SUCCESS)) as (b & Hr & Es).
    { apply one_key_wf; [done..|cbn; lia|]. by repeat constructor. }
    { by eapply append_answers. }
    unfold Append. rewrite Hb, Es. cbn [header_result resp_data].
    assert (o_val o = None) as Hn by (cbn in E; repeat case_match; by simplify_eq/=).
    destruct o as [code val [z|]]; cbn [o_val o_code o_num] in *; subst val.
    + destruct Hr as (-> & -> & ->). cbn [Z.eqb SUCCESS negb].
      assert (0 ≤ len (default [] (h_store (backend s) !! k) ++ v) < 2 ^ 63) as Hl.
      { rewrite len_app. pose proof (len_nonneg (default [] (h_store (backend s) !! k))).
        pose proof (len_nonneg v). unfold MAX_VALUE_SIZE in Hv. lia. }
      rewrite String2Long_to_string by (unfold I64_MIN, I64_MAX; lia). by rewrite u64_small by lia.
    + apply Z.eqb_neq in Hr. unfold SUCCESS in Hr. by rewrite Hr.
  - destruct Hop as (Ho & Hm & Hv).
    destruct (answers_served junk s Hs e ctx (msg WRITE [k] [le_bytes 4 off ++ v]) kv' f' (o_code o) (λ _, True))
      as (b & _ & Es).
    { apply one_key_wf; [done..|cbn; lia|]. repeat constructor. rewrite len_app.
      change (len (le_bytes 4 off)) with 4. lia. }
    { by eapply write_answers. }
    unfold Write. rewrite Hb, Es. cbn in E. case_match; case_match; by simplify_eq.
Qed.

(** A broken link without a rank of its own. *)
Lemma link_broken_exec junk s l :
  hosting junk s →
  h_store (backend s) !! (AutoRankingStr ++ str_of_bytes (to_string l))%string = None →
  ∃ s', LinkBrokenHandler s l = Some (s', SM_OK) ∧ hosting junk s' ∧ backend s' = clearHandler l (backend s).
Proof.
  intros Hs Hk. unfold LinkBrokenHandler. cbn [bk_Get hosted_backend local_backend]. unfold local_Get.
  rewrite Hk. cbn [Z.eqb SUCCESS NOT_EXIST andb negb].
  cbn [externalBrokenHandler set_heartbeat]. rewrite (ho_broken _ _ Hs).
  eexists. split; [reflexivity|]. split; [|done]. destruct Hs. by split.
Qed.
