(* ===== verification/TransRegistrySpec.v ===== *)
(** * The registry under arbitrary interleaving and failure

    Ranks connect, take a number, publish their device and their slices with
    single store operations that interleave in any order, and links break at any
    point.  The slots of the tables are accounted for: each is held by at most
    one live link or waits in a queue of the server.  The proof follows each
    rank's program with a predicate [wp] over the shared invariant and the
    rank's own ghost record. *)
From Stdlib Require Import Strings.Byte Strings.String.
From stdpp Require Import base numbers list gmap strings.
From S2P Require Import Prelude SmemTypes StrUtil MessagePacker StoreBackend StoreServer StoreServerSpec StoreClient.
From S2P Require Import StoreClientSpec TransFault TransHelper TransHelperSpec TransServerSpec.
Local Open Scope Z_scope.

(** ** Who holds a number

    [q] waits to be given out, [cl l] is held by link [l], [n] numbers exist. *)
Record ledger (q : list Z) (cl : Z → list Z) (n : Z) : Prop := {
  ld_q : NoDup q;
  ld_qr : ∀ id, id ∈ q → 0 ≤ id < n;
  ld_c : ∀ l, NoDup (cl l);
  ld_cr : ∀ l id, id ∈ cl l → 0 ≤ id < n ∧ id ∉ q;
  ld_u : ∀ l1 l2 id, id ∈ cl l1 → id ∈ cl l2 → l1 = l2;
}.

Section Ledger.
Context (q : list Z) (cl cl' : Z → list Z) (l : Z) (Hother : ∀ l', l' ≠ l → cl' l' = cl l').

Lemma ledger_perm n : ledger q cl n → cl' l ≡ₚ cl l → ledger q cl' n.
Proof.
  intros [Hq Hqr Hc Hcr Hu] Hp.
  assert (∀ l', cl' l' ≡ₚ cl l') as Hall by (intros l'; destruct (decide (l' = l)) as [->|]; [done|by rewrite Hother]).
  split; try done; setoid_rewrite Hall; done.
Qed.
Lemma ledger_take id n : id ∉ q → (∀ l', id ∉ cl l') → 0 ≤ id < n →
  ledger q cl n → cl' l ≡ₚ id :: cl l → ledger q cl' n.
Proof.
  intros Hnq Hnc Hr [Hq Hqr Hc Hcr Hu] Hp.
  assert (∀ l' x, x ∈ cl' l' ↔ x ∈ cl l' ∨ (l' = l ∧ x = id)) as Hin.
  { intros l' x. destruct (decide (l' = l)) as [->|]; [rewrite Hp; set_solver|rewrite Hother; naive_solver]. }
  split; try done.
  - intros l'. destruct (decide (l' = l)) as [->|]; [rewrite Hp; by constructor|by rewrite Hother].
  - intros l' x [?|[-> ->]]%Hin; [eauto|done].
  - intros l1 l2 x [H1|[-> E1]]%Hin [H2|[-> E2]]%Hin; [by eapply Hu| | |done]; subst x; exfalso; by eapply Hnc.
Qed.
Lemma ledger_pop id n : ledger (id :: q) cl n → cl' l ≡ₚ id :: cl l → ledger q cl' n.
Proof.
  intros [Hq Hqr Hc Hcr Hu]. apply NoDup_cons in Hq as [Hni Hq]. apply ledger_take; [done| | |split; try done].
  - intros l' Hin. apply Hcr in Hin as [_ []]. by left.
  - apply Hqr. by left.
  - intros x Hx. apply Hqr. by right.
  - intros l' x Hx. apply Hcr in Hx as [? Hx]. split; [done|]. intros ?. apply Hx. by right.
Qed.
Lemma ledger_grow n : ledger q cl n → ledger q cl (n + 1).
Proof.
  intros [Hq Hqr Hc Hcr Hu]. split; try done.
  - intros id Hid. apply Hqr in Hid. lia.
  - intros l' id Hid. apply Hcr in Hid as [? ?]. split; [lia|done].
Qed.
Lemma ledger_fresh n : 0 ≤ n → ledger q cl n → cl' l ≡ₚ n :: cl l → ledger q cl' (n + 1).
Proof.
  intros Hn Hl. apply ledger_take; [| |lia|by apply ledger_grow].
  - intros Hin. apply (ld_qr _ _ _ Hl) in Hin. lia.
  - intros l' Hin. apply (ld_cr _ _ _ Hl) in Hin. lia.
Qed.
(** The link is gone; some of its numbers wait again, the others are lost. *)
Lemma ledger_drop back n :
  ledger q cl n → cl' l = [] → NoDup back → (∀ x, x ∈ back → x ∈ cl l) → ledger (q ++ back) cl' n.
Proof.
  intros [Hq Hqr Hc Hcr Hu] Hn Hnd Hsub.
  assert (∀ l' x, x ∈ cl' l' → x ∈ cl l' ∧ l' ≠ l) as Hin.
  { intros l' x. destruct (decide (l' = l)) as [->|]; [rewrite Hn; set_solver|rewrite Hother; done]. }
  split.
  - apply NoDup_app. split_and!; [done| |done]. intros x Hx Hb. apply Hsub, Hcr in Hb as [_ []]. done.
  - intros x [Hx|Hx]%elem_of_app; [by apply Hqr|]. by apply Hsub, Hcr in Hx as [? _].
  - intros l'. destruct (decide (l' = l)) as [->|]; [rewrite Hn; constructor|by rewrite Hother].
  - intros l' x [Hx Hne]%Hin. apply Hcr in Hx as Hx'. split; [tauto|]. intros [?|Hb]%elem_of_app; [tauto|].
    apply Hsub in Hb. apply Hne. by eapply Hu.
  - intros l1 l2 x [H1 _]%Hin [H2 _]%Hin. by eapply Hu.
Qed.
End Ledger.

(** ** Keys of the session *)
Definition session : PrefixConfigStore := mkPrefix "/trans/129/".
Definition at_ (k : string) : string := GetCompleteKey session k.
Definition keys_of (snd : bool) : StoreKeys := if snd then senderStoreKeys else receiveStoreKeys.
Definition auto_key (name : string) : string := at_ (AUTO_RANK_KEY_PREFIX ++ name).

(** The tables: rank numbers, devices and slices of senders (true) and receivers. *)
Inductive Tab := TRank | TDev (snd : bool) | TSlice (snd : bool).
#[global] Instance Tab_eq_dec : EqDecision Tab.
Proof. solve_decision. Defined.
Definition tab_key (T : Tab) : string :=
  at_ match T with
      | TRank => CLUSTER_RANKS_INFO_KEY
      | TDev s => k_deviceInfo (keys_of s)
      | TSlice s => k_sliceInfo (keys_of s)
      end.
Definition queue (f : SmemStoreFaultHandler) (T : Tab) : list Z :=
  match T with
  | TRank => faultRankIdQueue_ f
  | TDev true => (faultDeviceIdQueue_ f).1
  | TDev false => (faultDeviceIdQueue_ f).2
  | TSlice true => (faultSliceIdQueue_ f).1
  | TSlice false => (faultSliceIdQueue_ f).2
  end.

(** No name is taken for one of the keys that ask for a slot. *)
Definition plain_name (name : string) : bool :=
  forallb (λ k, negb (contains k (auto_key name)))
    [SENDER_GET_DEVICE_ID_KEY; RECEIVER_GET_DEVICE_ID_KEY; SENDER_GET_SLICES_ID_KEY; RECEIVER_GET_SLICES_ID_KEY].

Lemma contains_prefix p s : String.prefix p s = true → contains p s = true.
Proof. intros E. destruct s; cbn [contains]; by rewrite E. Qed.
Lemma prefix_self p s : String.prefix p (p ++ s) = true.
Proof. induction p as [|c p IH]; [by destruct s|].
  change (String c p +:+ s) with (String c (p +:+ s)). cbn [String.prefix]. destruct (Ascii.ascii_dec c c) as [_|[]]; done. Qed.
Lemma contains_app a p s : contains p (a ++ p ++ s)%string = true.
Proof.
  induction a as [|c a IH]; [exact (contains_prefix _ _ (prefix_self p s))|].
  change (String c a +:+ (p +:+ s)) with (String c (a +:+ (p +:+ s))). cbn [contains].
  rewrite IH. apply orb_true_r.
Qed.
Lemma contains_auto name : contains AUTO_RANK_KEY_PREFIX (auto_key name) = true.
Proof. apply contains_app. Qed.

(** ** Publishers and their ghost records *)
Record Publisher := mkPub {
  p_name : string; p_sender : bool; p_cfg : bytes; p_info : bytes;
  p_slices : list (bytes * bytes);     (* exchange information, slice information *)
}.
(** What a live link holds: its registered rank number, a number it has been
    given and not used yet, its device and its slices with their data, and
    whether it has counted them. *)
Record LinkG := mkG {
  g_pub : Publisher;
  g_rank : option Z;
  g_fly : option (Tab * Z);
  g_dev : list (Z * bytes);
  g_dcnt : bool;
  g_sl : list (Z * bytes);
  g_scnt : bool;
}.
Definition g_new (p : Publisher) : LinkG := mkG p None None [] false [] false.
Definition g_set_fly (g : LinkG) x : LinkG :=
  mkG (g_pub g) (g_rank g) x (g_dev g) (g_dcnt g) (g_sl g) (g_scnt g).
Definition g_register (g : LinkG) r : LinkG := mkG (g_pub g) (Some r) None (g_dev g) (g_dcnt g) (g_sl g) (g_scnt g).
(** The link owns one more record of the table. *)
Definition g_own (g : LinkG) (dev : bool) (x : Z * bytes) : LinkG :=
  if dev then mkG (g_pub g) (g_rank g) None (g_dev g ++ [x]) (g_dcnt g) (g_sl g) (g_scnt g)
  else mkG (g_pub g) (g_rank g) None (g_dev g) (g_dcnt g) (g_sl g ++ [x]) (g_scnt g).
Definition g_count (g : LinkG) (dev : bool) : LinkG :=
  if dev then mkG (g_pub g) (g_rank g) (g_fly g) (g_dev g) true (g_sl g) (g_scnt g)
  else mkG (g_pub g) (g_rank g) (g_fly g) (g_dev g) (g_dcnt g) (g_sl g) true.

Definition my_tab (g : LinkG) (dev : bool) : Tab :=
  if dev then TDev (p_sender (g_pub g)) else TSlice (p_sender (g_pub g)).
Definition owned (g : LinkG) (T : Tab) : list (Z * bytes) :=
  if decide (T = my_tab g true) then g_dev g else if decide (T = my_tab g false) then g_sl g else [].
Definition claim (g : LinkG) (T : Tab) : list Z :=
  (if g_fly g is Some (T', id) then if decide (T' = T) then [id] else [] else []) ++
  (if decide (T = TRank) then option_list (g_rank g) else []) ++ (owned g T).*1.

Section Registry.
Context (junk : Z) (csz : nat) (dsz ssz : bool → nat).

Definition data_size (T : Tab) : nat :=
  match T with TRank => Nat.pred csz | TDev s => dsz s | TSlice s => (48 + ssz s)%nat end.
Definition unit_of (T : Tab) : nat := S (data_size T).
(** The sizes of the exported objects. *)
Definition sizes_ok : Prop :=
  (0 < csz ≤ 1024)%nat ∧ ∀ s, (dsz s ≤ 512)%nat ∧ (ssz s ≤ 512)%nat.
Definition pub_ok (p : Publisher) : Prop :=
  List.length (p_cfg p) = csz ∧ List.length (p_info p) = dsz (p_sender p) ∧
  Forall (λ x, List.length x.2 = 48%nat ∧ List.length x.1 = ssz (p_sender p)) (p_slices p) ∧
  plain_name (p_name p) = true ∧ slen (auto_key (p_name p)) ≤ MAX_KEY_LEN_CLIENT.

(** What the server records of the link. *)
Definition device_of (g : LinkG) : ConfigServerDeviceInfo :=
  let s := p_sender (g_pub g) in
  match g_dev g with
  | [] => mkDInfo 0 junk "" ""
  | (id, _) :: _ =>
      mkDInfo id (Z.of_nat (unit_of (TDev s))) (tab_key (TDev s))
        (if g_dcnt g then at_ (k_deviceCount (keys_of s)) else "")
  end.
Definition slices_of (g : LinkG) : ConfigServerSliceInfo :=
  let s := p_sender (g_pub g) in
  mkSInfo (if g_sl g is [] then junk else Z.of_nat (unit_of (TSlice s))) (g_sl g).*1
    (if g_sl g is [] then "" else tab_key (TSlice s))
    (if g_scnt g then at_ (k_sliceCount (keys_of s)) else "").
Definition info_of (g : LinkG) : option RankInfo :=
  r ← g_rank g; Some (mkRankInfo r (auto_key (p_name (g_pub g))) (device_of g) (slices_of g)).

Definition link_wf (g : LinkG) : Prop :=
  (g_rank g = None → g_dev g = [] ∧ g_sl g = [] ∧ g_dcnt g = false ∧ g_scnt g = false) ∧
  (List.length (g_dev g) ≤ 1)%nat ∧ (g_dcnt g = true → g_dev g ≠ []) ∧ (g_scnt g = true → g_sl g ≠ []).

Definition claims (G : gmap Z LinkG) (T : Tab) (l : Z) : list Z := default [] ((λ g, claim g T) <$> G !! l).
Definition owners (G : gmap Z LinkG) (T : Tab) (l : Z) : list (Z * bytes) :=
  default [] ((λ g, owned g T) <$> G !! l).

(** The records of a table are those of its owners, or not normal. *)
Record tab_inv (kv : Kv) (q : list Z) (G : gmap Z LinkG) (T : Tab) (rs : list Rec) : Prop := {
  ti_value : default [] (kv !! tab_key T) = enc rs;
  ti_table : table (data_size T) rs;
  ti_owned : ∀ l i d, (i, d) ∈ owners G T l → rs !! Z.to_nat i = Some (NORMAL, d);
  ti_normal : ∀ i r, rs !! i = Some r → normal r → ∃ l, (Z.of_nat i, r.2) ∈ owners G T l;
  ti_ledger : ledger q (claims G T) (len rs);
}.
Definition rank_inv (kv : Kv) (q : list Z) (G : gmap Z LinkG) : Prop :=
  ∃ n, 0 ≤ n ∧ len (default [] (kv !! tab_key TRank)) = n * Z.of_nat csz ∧ ledger q (claims G TRank) n.

Definition counts (s : bool) (x : Z * LinkG) : Prop := p_sender (g_pub x.2) = s ∧ g_dcnt x.2 = true.
#[local] Instance counts_dec s x : Decision (counts s x).
Proof. unfold counts. apply _. Defined.
Definition counted (G : gmap Z LinkG) (s : bool) : Z := Z.of_nat (size (filter (counts s) G)).
Definition count_key (s : bool) : string := at_ (k_deviceCount (keys_of s)).
Definition count_inv (kv : Kv) (G : gmap Z LinkG) (s : bool) : Prop :=
  (kv !! count_key s = None ∧ counted G s = 0) ∨ kv !! count_key s = Some (to_string (counted G s)).

Definition scount_key (s : bool) : string := at_ (k_sliceCount (keys_of s)).

(** A name is registered only while the link that registered it lives. *)
Definition registered_live (kv : Kv) (G : gmap Z LinkG) : Prop :=
  ∀ n, is_Some (kv !! auto_key n) → ∃ l g, G !! l = Some g ∧ is_Some (g_rank g) ∧ p_name (g_pub g) = n.

Record reg_inv (kv : Kv) (f : SmemStoreFaultHandler) (G : gmap Z LinkG) : Prop := {
  ri_prefix : ∀ k, is_Some (kv !! k) → String.prefix (keyPrefix session) k = true;
  ri_ask : ∀ s, kv !! at_ (k_getDeviceId (keys_of s)) = None ∧ kv !! at_ (k_getSliceId (keys_of s)) = None;
  ri_defined : undefined f = false;
  ri_links : ∀ l, linkIdToRankInfoMap_ f !! l = G !! l ≫= info_of;
  ri_pubs : ∀ l g, G !! l = Some g → pub_ok (g_pub g) ∧ link_wf g;
  ri_names : ∀ l1 l2 g1 g2, G !! l1 = Some g1 → G !! l2 = Some g2 →
    p_name (g_pub g1) = p_name (g_pub g2) → l1 = l2;
  ri_auto : registered_live kv G;
  ri_rank : rank_inv kv (queue f TRank) G;
  ri_tab : ∀ T, T ≠ TRank → ∃ rs, tab_inv kv (queue f T) G T rs;
  ri_count : ∀ s, count_inv kv G s;
  ri_scount : ∀ s v, kv !! scount_key s = Some v → ∃ m, I64_MIN ≤ m ≤ I64_MAX ∧ v = to_string m;
}.

(** No table has more than 65535 records, and there are fewer than 2^31 links. *)
Definition fits (kv : Kv) (G : gmap Z LinkG) : Prop :=
  (∀ T, len (default [] (kv !! tab_key T)) ≤ 65535 * Z.of_nat (unit_of T)) ∧ Z.of_nat (size G) < 2 ^ 31.

(** ** Changing one link *)
Section Frame.
Context (G : gmap Z LinkG) (l : Z) (g g' : LinkG) (Hg : G !! l = Some g).
Local Abbreviation G' := (<[l := g']> G).

Lemma claims_at T : claims G' T l = claim g' T.
Proof. unfold claims. by rewrite lookup_insert_eq. Qed.
Lemma claims_old T : claims G T l = claim g T.
Proof. unfold claims. by rewrite Hg. Qed.
Lemma claims_other T l' : l' ≠ l → claims G' T l' = claims G T l'.
Proof. intros. unfold claims. by rewrite lookup_insert_ne. Qed.
Lemma owners_at T : owners G' T l = owned g' T.
Proof. unfold owners. by rewrite lookup_insert_eq. Qed.
Lemma owners_old T : owners G T l = owned g T.
Proof. unfold owners. by rewrite Hg. Qed.
Lemma owners_other T l' : l' ≠ l → owners G' T l' = owners G T l'.
Proof. intros. unfold owners. by rewrite lookup_insert_ne. Qed.

Lemma ledger_frame q T n : ledger q (claims G T) n → claim g' T ≡ₚ claim g T → ledger q (claims G' T) n.
Proof.
  intros Hl Hp. apply (ledger_perm q (claims G T) _ l); [apply claims_other|done|].
  by rewrite claims_at, claims_old.
Qed.
Lemma owners_frame T : owned g' T = owned g T → ∀ l', owners G' T l' = owners G T l'.
Proof.
  intros E l'. destruct (decide (l' = l)) as [->|]; [by rewrite owners_at, owners_old|by apply owners_other].
Qed.
Lemma tab_frame kv kv' q T rs :
  tab_inv kv q G T rs → kv' !! tab_key T = kv !! tab_key T → claim g' T ≡ₚ claim g T → owned g' T = owned g T →
  tab_inv kv' q G' T rs.
Proof.
  intros [Hv Ht Ho Hn Hl] Ek Hc Hown. split; [by rewrite Ek|done|..|by apply ledger_frame].
  - intros l' i d. rewrite owners_frame by done. apply Ho.
  - intros i r Hr Hnr. destruct (Hn i r Hr Hnr) as [l' Hl']. exists l'. by rewrite owners_frame.
Qed.
Lemma rank_frame kv kv' q :
  rank_inv kv q G → kv' !! tab_key TRank = kv !! tab_key TRank → claim g' TRank ≡ₚ claim g TRank →
  rank_inv kv' q G'.
Proof. intros (n & Hn & Hl & Hld) Ek Hc. exists n. rewrite Ek. split_and!; [done..|by apply ledger_frame]. Qed.

Lemma counted_same s :
  p_sender (g_pub g') = p_sender (g_pub g) → g_dcnt g' = g_dcnt g → counted G' s = counted G s.
Proof.
  intros Hp Hc. unfold counted. f_equal. destruct (decide (counts s (l, g'))) as [H1|H1].
  - rewrite map_filter_insert_True by done. rewrite map_size_insert_Some; [done|].
    exists g. apply map_lookup_filter_Some_2; [done|]. unfold counts in *. cbn in *. by rewrite <- Hp, <- Hc.
  - rewrite map_filter_insert_False by done. f_equal. rewrite map_filter_delete_not; [done|].
    intros g0 Hg0. assert (g0 = g) as -> by congruence. unfold counts in *. cbn in *. by rewrite <- Hp, <- Hc.
Qed.
Lemma count_frame kv kv' s :
  count_inv kv G s → kv' !! count_key s = kv !! count_key s →
  p_sender (g_pub g') = p_sender (g_pub g) → g_dcnt g' = g_dcnt g → count_inv kv' G' s.
Proof. intros Hc Ek Hp Hd. unfold count_inv. rewrite counted_same, Ek by done. exact Hc. Qed.

Lemma pubs_frame :
  (∀ l g, G !! l = Some g → pub_ok (g_pub g) ∧ link_wf g) → g_pub g' = g_pub g → link_wf g' →
  ∀ l g, G' !! l = Some g → pub_ok (g_pub g) ∧ link_wf g.
Proof.
  intros Hp E Hw l' g0. rewrite lookup_insert. case_decide; [intros [= <-]|eauto].
  rewrite E. split; [by eapply Hp|done].
Qed.
Lemma names_frame :
  (∀ l1 l2 g1 g2, G !! l1 = Some g1 → G !! l2 = Some g2 → p_name (g_pub g1) = p_name (g_pub g2) → l1 = l2) →
  g_pub g' = g_pub g →
  ∀ l1 l2 g1 g2, G' !! l1 = Some g1 → G' !! l2 = Some g2 → p_name (g_pub g1) = p_name (g_pub g2) → l1 = l2.
Proof.
  intros Hn E l1 l2 g1 g2. rewrite !lookup_insert. repeat case_decide; subst; try done;
    intros ? ?; simplify_eq; rewrite ?E; eauto.
Qed.
Lemma links_frame f f' :
  (∀ l, linkIdToRankInfoMap_ f !! l = G !! l ≫= info_of) →
  linkIdToRankInfoMap_ f' !! l = info_of g' →
  (∀ l', l' ≠ l → linkIdToRankInfoMap_ f' !! l' = linkIdToRankInfoMap_ f !! l') →
  ∀ l, linkIdToRankInfoMap_ f' !! l = G' !! l ≫= info_of.
Proof.
  intros Hl Hi Ho l'. destruct (decide (l' = l)) as [->|]; [by rewrite lookup_insert_eq|].
  rewrite lookup_insert_ne by done. by rewrite Ho.
Qed.
Lemma auto_frame (kv kv' : Kv) :
  registered_live kv G → g_pub g' = g_pub g → (is_Some (g_rank g) → is_Some (g_rank g')) →
  (∀ n, kv' !! auto_key n = kv !! auto_key n ∨ (is_Some (g_rank g') ∧ n = p_name (g_pub g))) →
  registered_live kv' G'.
Proof.
  intros Ha Ep Hr Hk n Hn. destruct (Hk n) as [E|[Hs ->]].
  - rewrite E in Hn. destruct (Ha n Hn) as (l1 & g1 & Hg1 & Hs & <-). destruct (decide (l1 = l)) as [->|Hne].
    + exists l, g'. rewrite lookup_insert_eq, Ep. simplify_eq. auto.
    + exists l1, g1. by rewrite lookup_insert_ne.
  - exists l, g'. rewrite lookup_insert_eq, Ep. auto.
Qed.
End Frame.

(** The keys are distinct and below the session's prefix. *)
Ltac key_ne := let E := fresh in intros E; unfold auto_key, tab_key, count_key, scount_key, at_, GetCompleteKey in E;
  repeat match goal with T : Tab |- _ => destruct T | b : bool |- _ => destruct b end;
  cbn in E; first [discriminate E | done | congruence].

(** ** Operations of a link, on the invariant *)
Context (Hsz : sizes_ok).
Lemma unit_rank : unit_of TRank = csz.
Proof. destruct Hsz as [Hc _]. unfold unit_of. cbn. lia. Qed.
Lemma unit_bounds T : (1 ≤ unit_of T ≤ 1024)%nat.
Proof.
  destruct Hsz as [Hc Hs]. unfold unit_of. destruct T as [|s|s]; cbn; [lia|destruct (Hs s); lia..].
Qed.

(** Every table has its ledger, of at most 65535 numbers. *)
Lemma inv_ledger kv f G T :
  reg_inv kv f G → fits kv G →
  ∃ n, 0 ≤ n ≤ 65535 ∧ len (default [] (kv !! tab_key T)) = n * Z.of_nat (unit_of T) ∧
    ledger (queue f T) (claims G T) n.
Proof.
  intros Hi [Hf _]. specialize (Hf T). pose proof (unit_bounds T).
  assert (∃ n, 0 ≤ n ∧ len (default [] (kv !! tab_key T)) = n * Z.of_nat (unit_of T) ∧
    ledger (queue f T) (claims G T) n) as (n & Hn & Hl & Hld).
  { destruct (decide (T = TRank)) as [->|Hne].
    - destruct (ri_rank _ _ _ Hi) as (n & ? & ? & ?). exists n. by rewrite unit_rank.
    - destruct (ri_tab _ _ _ Hi T Hne) as [rs Ht]. exists (len rs). split; [apply len_nonneg|].
      split; [|apply Ht]. rewrite (ti_value _ _ _ _ _ Ht). unfold len. rewrite (length_enc (data_size T)) by apply Ht.
      unfold unit_of. lia. }
  exists n. split_and!; try done. nia.
Qed.
Definition triple (l : Z) (g : LinkG) (op : StoreOp) (Q : Outcome → LinkG → Prop) : Prop :=
  ∀ kv f G, fits kv G → reg_inv kv f G → G !! l = Some g →
  ∃ kv' f' o g', reg_exec junk l kv f (sop_at session op) = Some (kv', f', o) ∧
    sop_ok kv (sop_at session op) ∧
    (fits kv' (<[l := g']> G) → reg_inv kv' f' (<[l := g']> G) ∧ Q o g').

Definition set_queue (f : SmemStoreFaultHandler) (T : Tab) (q : list Z) : SmemStoreFaultHandler :=
  match T with
  | TRank => set_rankq f q
  | TDev true => set_deviceq f (q, (faultDeviceIdQueue_ f).2)
  | TDev false => set_deviceq f ((faultDeviceIdQueue_ f).1, q)
  | TSlice true => set_sliceq f (q, (faultSliceIdQueue_ f).2)
  | TSlice false => set_sliceq f ((faultSliceIdQueue_ f).1, q)
  end.
Definition ask_key (T : Tab) (name : string) : string :=
  match T with
  | TRank => AUTO_RANK_KEY_PREFIX ++ name
  | TDev s => k_getDeviceId (keys_of s)
  | TSlice s => k_getSliceId (keys_of s)
  end.

Lemma queue_set f T q T' : queue (set_queue f T q) T' = if decide (T' = T) then q else queue f T'.
Proof. case_decide; subst; repeat match goal with T : Tab |- _ => destruct T as [|[]|[]] end; done. Qed.
Lemma links_set_queue f T q : linkIdToRankInfoMap_ (set_queue f T q) = linkIdToRankInfoMap_ f.
Proof. by destruct T as [|[]|[]]. Qed.
Lemma undefined_set_queue f T q : undefined (set_queue f T q) = undefined f.
Proof. by destruct T as [|[]|[]]. Qed.
Lemma set_queue_id f T : set_queue f T (queue f T) = f.
Proof. destruct f as [? ? [] [] ?]. by destruct T as [|[]|[]]. Qed.

(** [contains] on closed strings. *)
Ltac eval_contains := repeat match goal with
  | |- context [contains ?a ?b] =>
      let v := eval vm_compute in (contains a b) in
      match v with true => idtac | false => idtac end; change (contains a b) with v
  end.

Lemma ask_fault f T name :
  plain_name name = true →
  GetFromFaultInfo (at_ (ask_key T name)) [] f =
  match queue f T with
  | id :: q => (SM_GET_OBJIECT, id_bytes id, set_queue f T q)
  | [] => (SM_OBJECT_NOT_EXISTS, [], f)
  end.
Proof.
  intros Hp. destruct f as [lm rq [ds dr] [ss sr] u]. unfold GetFromFaultInfo.
  cbn [faultDeviceIdQueue_ faultSliceIdQueue_ faultRankIdQueue_].
  destruct T as [|[]|[]]; cbn [ask_key queue].
  1: { fold (auto_key name). rewrite contains_auto. cbn. destruct rq as [|id q]; [|done].
       unfold plain_name in Hp. cbn [forallb] in Hp. rewrite !andb_true_iff, !negb_true_iff in Hp.
       destruct Hp as (-> & -> & -> & -> & _). by destruct ds, dr, ss, sr. }
  all: eval_contains; by destruct rq, ds, dr, ss, sr.
Qed.

Lemma slen_String a s : slen (String a s) = 1 + slen s.
Proof.
  unfold slen, len, String.list_byte_of_string. cbn [String.list_ascii_of_string List.map].
  cbn [List.length]. rewrite !List.length_map. lia.
Qed.
Lemma ask_key_bounds T name :
  slen (auto_key name) ≤ MAX_KEY_LEN_CLIENT →
  bad_key (at_ (ask_key T name)) = false ∧ slen (at_ (ask_key T name)) ≤ MAX_KEY_LEN_SERVER ∧
  String.prefix AutoRankingStr (at_ (ask_key T name)) = false.
Proof.
  intros Hn. destruct T as [|[]|[]]; [|vm_compute; split_and!; done..]. cbn [ask_key]. fold (auto_key name).
  split_and!; [|unfold MAX_KEY_LEN_CLIENT, MAX_KEY_LEN_SERVER in *; lia|done].
  unfold bad_key. apply orb_false_iff. split; [|apply Z.ltb_ge; lia]. apply Z.eqb_neq.
  assert (∃ a s, auto_key name = String a s) as (a & s & ->) by (eexists _, _; reflexivity).
  rewrite slen_String. pose proof (len_nonneg (bytes_of_str s)). unfold slen. lia.
Qed.

Lemma unregistered kv f G l g :
  reg_inv kv f G → G !! l = Some g → g_rank g = None → kv !! auto_key (p_name (g_pub g)) = None.
Proof.
  intros Hi Hg Hr. destruct (kv !! auto_key (p_name (g_pub g))) as [v|] eqn:E; [|done]. exfalso.
  destruct (ri_auto _ _ _ Hi (p_name (g_pub g))) as (l' & g' & Hg' & [r Hs] & Hn); [by rewrite E|].
  assert (l' = l) as -> by (by eapply (ri_names _ _ _ Hi)). congruence.
Qed.
Lemma ask_key_absent kv f G l g T :
  reg_inv kv f G → G !! l = Some g → (T = TRank → g_rank g = None) →
  kv !! at_ (ask_key T (p_name (g_pub g))) = None.
Proof.
  intros Hi Hg Hr. destruct T as [|s|s].
  - exact (unregistered kv f G l g Hi Hg (Hr eq_refl)).
  - exact (proj1 (ri_ask _ _ _ Hi s)).
  - exact (proj2 (ri_ask _ _ _ Hi s)).
Qed.

Lemma claim_fly g T id T' :
  g_fly g = None → claim (g_set_fly g (Some (T, id))) T' = (if decide (T = T') then [id] else []) ++ claim g T'.
Proof. intros E. unfold claim. rewrite E. done. Qed.
Lemma owned_fly g x T : owned (g_set_fly g x) T = owned g T.
Proof. done. Qed.

Lemma inv_pop kv f G l g T id q :
  reg_inv kv f G → G !! l = Some g → g_fly g = None → queue f T = id :: q →
  reg_inv kv (set_queue f T q) (<[l := g_set_fly g (Some (T, id))]> G).
Proof.
  intros Hi Hg Hfly Hq. set (g' := g_set_fly g (Some (T, id))).
  assert (∀ T' n, ledger (queue f T') (claims G T') n →
    ledger (queue (set_queue f T q) T') (claims (<[l := g']> G) T') n) as Hled.
  { intros T' n Hl. rewrite queue_set. destruct (decide (T' = T)) as [->|Hne].
    - apply (ledger_pop _ (claims G T) _ l (claims_other G l g' T) id); [by rewrite <- Hq|].
      rewrite claims_at, (claims_old _ _ g) by done. unfold g'. rewrite claim_fly by done. by rewrite decide_True.
    - apply (ledger_frame _ _ g); [done..|]. unfold g'. rewrite claim_fly by done. by rewrite decide_False. }
  split; try apply Hi.
  - rewrite undefined_set_queue. apply Hi.
  - apply (links_frame G l g' f); rewrite ?links_set_queue; [apply Hi| |done].
    rewrite (ri_links _ _ _ Hi l), Hg. done.
  - apply (pubs_frame G l g g'); [done|apply Hi|done|]. by apply (ri_pubs _ _ _ Hi l g).
  - apply (names_frame G l g g'); [done|apply Hi|done].
  - apply (auto_frame G l g g' Hg kv kv); [apply Hi|done|done|by left].
  - destruct (ri_rank _ _ _ Hi) as (n & ? & ? & Hl). exists n. split_and!; [done..|]. by apply (Hled TRank).
  - intros T' HT. destruct (ri_tab _ _ _ Hi T' HT) as [rs [Hv Ht Ho Hn Hl]]. exists rs. split; [done|done|..|by apply Hled].
    + intros l' i d. rewrite (owners_frame G l g g' Hg) by done. apply Ho.
    + intros i r Hr Hnr. destruct (Hn i r Hr Hnr) as [l' Hl']. exists l'. by rewrite (owners_frame G l g g' Hg).
  - intros s. apply (count_frame G l g g' Hg kv); [apply Hi|done..].
Qed.

Lemma rule_ask l g T :
  g_fly g = None → (T = TRank → g_rank g = None) →
  triple l g (OGet (ask_key T (p_name (g_pub g))) 0) (λ o g',
    (o = out_code NOT_EXIST ∧ g' = g) ∨
    ∃ id, 0 ≤ id < 65535 ∧ o = mkOut RESTORE (Some (id_bytes id)) None ∧ g' = g_set_fly g (Some (T, id))).
Proof.
  intros Hfly Hr kv f G Hfit Hi Hg. destruct (ri_pubs _ _ _ Hi l g Hg) as [(_ & _ & _ & Hp & Hlen) _].
  pose proof (ask_key_absent _ _ _ _ _ _ Hi Hg Hr) as Hk. unfold sop_at, reg_exec. fold (at_ (ask_key T (p_name (g_pub g)))).
  rewrite Hk, ask_fault by done.
  assert (sop_ok kv (OGet (at_ (ask_key T (p_name (g_pub g)))) 0)) as Hok.
  { destruct (ask_key_bounds T _ Hlen) as (? & ? & ?). unfold sop_ok. cbn [sop_key].
    split_and!; try done. intros v Hv. by rewrite Hk in Hv. }
  destruct (queue f T) as [|id q] eqn:Eq; cbn [Z.eqb].
  - eexists _, _, _, g. split; [reflexivity|]. split; [done|]. rewrite insert_id by done. auto.
  - eexists _, _, _, _. split; [reflexivity|]. split; [done|]. intros _. split; [by apply inv_pop|].
    right. exists id. split; [|done]. destruct (inv_ledger kv f G T Hi Hfit) as (n & Hn & _ & Hl).
    rewrite Eq in Hl. destruct (ld_qr _ _ _ Hl id); [by left|lia].
Qed.

Lemma at_prefix k : String.prefix (keyPrefix session) (at_ k) = true.
Proof. apply prefix_self. Qed.
Lemma prefix_insert (kv : Kv) k v :
  (∀ k, is_Some (kv !! k) → String.prefix (keyPrefix session) k = true) →
  ∀ k', is_Some (<[at_ k := v]> kv !! k') → String.prefix (keyPrefix session) k' = true.
Proof.
  intros Hp k'. rewrite lookup_insert. case_decide as E; [intros _; rewrite <- E; apply at_prefix|apply Hp].
Qed.
Lemma ask_insert (kv : Kv) k v :
  (∀ s, kv !! at_ (k_getDeviceId (keys_of s)) = None ∧ kv !! at_ (k_getSliceId (keys_of s)) = None) →
  (∀ s, at_ k ≠ at_ (k_getDeviceId (keys_of s)) ∧ at_ k ≠ at_ (k_getSliceId (keys_of s))) →
  ∀ s, <[at_ k := v]> kv !! at_ (k_getDeviceId (keys_of s)) = None ∧
       <[at_ k := v]> kv !! at_ (k_getSliceId (keys_of s)) = None.
Proof. intros Hk Hne s. destruct (Hne s). by rewrite !lookup_insert_ne by done. Qed.

(** ** The rank number *)
Lemma note_cluster l i n f : note_record l i n (at_ CLUSTER_RANKS_INFO_KEY) f = (SM_OK, f).
Proof. unfold note_record. eval_contains. done. Qed.

(** Changing the value of the rank table, and what one link claims of it. *)
Lemma inv_rank_value kv f G l g g' v n :
  reg_inv kv f G → G !! l = Some g → g_pub g' = g_pub g → g_rank g' = g_rank g → g_dev g' = g_dev g →
  g_dcnt g' = g_dcnt g → g_sl g' = g_sl g → g_scnt g' = g_scnt g →
  (∀ T, T ≠ TRank → claim g' T = claim g T) →
  0 ≤ n → len v = n * Z.of_nat csz → ledger (queue f TRank) (claims (<[l := g']> G) TRank) n →
  reg_inv (<[tab_key TRank := v]> kv) f (<[l := g']> G).
Proof.
  intros Hi Hg E1 E2 E3 E4 E5 E6 Hcl Hn Hv Hl.
  assert (∀ T, owned g' T = owned g T) as Hown.
  { intros T. unfold owned, my_tab. by rewrite E1, E3, E5. }
  split.
  - apply prefix_insert, Hi.
  - apply ask_insert; [apply Hi|]. intros s. split; key_ne.
  - apply Hi.
  - apply (links_frame G l g' f); [apply Hi| |done]. rewrite (ri_links _ _ _ Hi l), Hg. cbn.
    unfold info_of, device_of, slices_of. by rewrite E1, E2, E3, E4, E5, E6.
  - apply (pubs_frame G l g g'); [done|apply Hi|done|]. pose proof (proj2 (ri_pubs _ _ _ Hi l g Hg)) as Hw.
    unfold link_wf in *. by rewrite E2, E3, E4, E5, E6.
  - apply (names_frame G l g g'); [done|apply Hi|done].
  - apply (auto_frame G l g g' Hg kv); [apply Hi|done|by rewrite E2|].
    intros n1. left. rewrite lookup_insert_ne; [done|]. key_ne.
  - exists n. rewrite lookup_insert_eq. cbn [default from_option id]. done.
  - intros T HT. destruct (ri_tab _ _ _ Hi T HT) as [rs Ht]. exists rs.
    apply (tab_frame G l g g' Hg kv); [done| |by rewrite Hcl|done]. rewrite lookup_insert_ne; [done|]. key_ne.
  - intros s. apply (count_frame G l g g' Hg kv); [apply Hi| |by rewrite E1|done].
    rewrite lookup_insert_ne; [done|]. key_ne.
  - intros s v'. rewrite lookup_insert_ne; [apply Hi|]. key_ne.
Qed.

Lemma cluster_ok : bad_key (tab_key TRank) = false ∧ slen (tab_key TRank) ≤ MAX_KEY_LEN_SERVER.
Proof. vm_compute. split; [done|discriminate]. Qed.

Lemma rule_append_rank l g :
  g_fly g = None →
  triple l g (OAppend CLUSTER_RANKS_INFO_KEY (p_cfg (g_pub g))) (λ o g',
    ∃ n, 0 ≤ n < 65535 ∧ o = mkOut SUCCESS None (Some ((n + 1) * Z.of_nat csz)) ∧
      g' = g_set_fly g (Some (TRank, n))).
Proof.
  intros Hfly kv f G Hfit Hi Hg. destruct (ri_pubs _ _ _ Hi l g Hg) as [(Hc & _) _].
  destruct Hsz as [Hcs _]. unfold sop_at, reg_exec. fold (at_ CLUSTER_RANKS_INFO_KEY). fold (tab_key TRank).
  destruct (inv_ledger kv f G TRank Hi Hfit) as (n & Hn & Hl & Hld). rewrite unit_rank in Hl.
  set (old := default [] (kv !! tab_key TRank)) in *.
  assert (len (p_cfg (g_pub g)) = Z.of_nat csz) as Hlc by (unfold len; by rewrite Hc).
  assert (len (old ++ p_cfg (g_pub g)) = (n + 1) * Z.of_nat csz) as Hlen by (rewrite len_app, Hl, Hlc; lia).
  unfold AppendRankInfoMap. cbn [Z.eqb SUCCESS negb]. rewrite (proj2 (Z.eqb_neq _ _)) by lia.
  unfold tab_key at 1. rewrite note_cluster. cbn [Z.eqb SM_OK negb].
  eexists _, _, _, (g_set_fly g (Some (TRank, n))). split; [reflexivity|]. split.
  { split_and!; [apply cluster_ok|apply cluster_ok|..]; fold old; unfold MAX_VALUE_SIZE; nia. }
  intros [Hf' _]. specialize (Hf' TRank). rewrite lookup_insert_eq, unit_rank in Hf'. cbn [default from_option id] in Hf'.
  rewrite Hlen in Hf'. split.
  - apply (inv_rank_value kv f G l g _ _ (n + 1)); try done; [|lia|].
    + intros T HT. rewrite claim_fly by done. by rewrite decide_False.
    + apply (ledger_fresh _ (claims G TRank) _ l); [apply claims_other|lia|done|].
      rewrite claims_at, (claims_old _ _ g) by done. rewrite claim_fly by done. by rewrite decide_True.
  - exists n. rewrite Hlen. split_and!; try done; nia.
Qed.

Lemma claim_bound kv f G l g T id :
  reg_inv kv f G → fits kv G → G !! l = Some g → id ∈ claim g T → 0 ≤ id < 65535.
Proof.
  intros Hi Hf Hg Hin. destruct (inv_ledger kv f G T Hi Hf) as (n & Hn & _ & Hl).
  destruct (ld_cr _ _ _ Hl l id); [by rewrite (claims_old _ _ g)|lia].
Qed.
Lemma fly_claim g T id : g_fly g = Some (T, id) → id ∈ claim g T.
Proof. intros E. unfold claim. rewrite E, decide_True by done. by left. Qed.

Lemma write_rank_info l k v off f :
  0 ≤ off < 2 ^ 32 → 0 < len v →
  WriteRankInfoMap l k (le_bytes 4 off ++ v) f = note_record l (u16 (off / len v)) (len v) k f.
Proof.
  intros Ho Hv. unfold WriteRankInfoMap. rewrite len_app. change (len (le_bytes 4 off)) with 4.
  replace (4 + len v - 4) with (len v) by lia. rewrite (proj2 (Z.leb_gt _ _)) by lia.
  rewrite take_app_length' by (by rewrite length_le_bytes).
  by rewrite le_val_le_bytes_small by (change (256 ^ Z.of_nat 4) with (2 ^ 32); lia).
Qed.
Lemma len_write_result old off d : len (write_result old off d) = Z.max (len old) (Z.of_nat off + len d).
Proof.
  unfold write_result, len. rewrite length_splice; rewrite length_resize; lia.
Qed.

Lemma rule_write_rank l g id :
  g_fly g = Some (TRank, id) →
  triple l g (OWrite CLUSTER_RANKS_INFO_KEY (p_cfg (g_pub g)) (u32 (id * len (p_cfg (g_pub g)))))
    (λ o g', o = out_code SUCCESS ∧ g' = g).
Proof.
  intros Hfly kv f G Hfit Hi Hg. destruct (ri_pubs _ _ _ Hi l g Hg) as [(Hc & _) _].
  destruct Hsz as [Hcs _]. unfold sop_at, reg_exec. fold (at_ CLUSTER_RANKS_INFO_KEY). fold (tab_key TRank).
  destruct (inv_ledger kv f G TRank Hi Hfit) as (n & Hn & Hl & Hld). rewrite unit_rank in Hl.
  assert (0 ≤ id < n) as Hid.
  { apply (ld_cr _ _ _ Hld l id). rewrite (claims_old _ _ g) by done. by apply fly_claim. }
  assert (len (p_cfg (g_pub g)) = Z.of_nat csz) as Hlc by (unfold len; by rewrite Hc). rewrite Hlc.
  rewrite (u32_small (id * Z.of_nat csz)) by nia.
  rewrite write_rank_info by nia. unfold tab_key at 1. rewrite note_cluster. cbn [Z.eqb SM_OK negb].
  eexists _, _, _, g. split; [reflexivity|]. split.
  { split_and!; [apply cluster_ok|apply cluster_ok|..]; rewrite ?Hlc; unfold MAX_U16_INDEX, MAX_VALUE_SIZE; nia. }
  intros _. split; [|done].
  apply (inv_rank_value kv f G l g _ _ n); try done; [lia| |by rewrite insert_id].
  rewrite len_write_result, Hl, Hlc. nia.
Qed.

Lemma id_roundtrip id : 0 ≤ id < 65536 →
  id_of_bytes (byte_of_Z (Z.land id 255)) (byte_of_Z (Z.shiftr id 8)) = id.
Proof.
  intros Hid. unfold id_of_bytes. change 255 with (Z.ones 8). rewrite Z.land_ones, Z.shiftr_div_pow2 by lia.
  rewrite !Z_of_byte_of_Z. change (2 ^ 8) with 256. rewrite Z.mod_mod by lia.
  rewrite (Z.mod_small (id / 256)) by (split; [apply Z.div_pos; lia|apply Z.div_lt_upper_bound; lia]).
  rewrite Z.shiftl_mul_pow2 by lia. change (2 ^ 8) with 256. unfold u16.
  pose proof (Z.div_mod id 256 ltac:(lia)) as E. pose proof (Z.mod_pos_bound id 256 ltac:(lia)).
  rewrite (Z.mod_small (id / 256 * 256)) by lia. rewrite Z.lor_comm.
  pose proof (Z.add_lor_land (id / 256 * 256) (id mod 256)) as Hadd.
  assert (Z.land (id / 256 * 256) (id mod 256) = 0) as E0; [|lia].
  apply Z.bits_inj'. intros k Hk. rewrite Z.land_spec, Z.bits_0. change 256 with (2 ^ 8).
  destruct (Z.ltb_spec k 8).
  - rewrite Z.mul_pow2_bits_low by lia. done.
  - rewrite Z.mod_pow2_bits_high by lia. apply andb_false_r.
Qed.

Lemma auto_key_inj a b : auto_key a = auto_key b → a = b.
Proof. intros E. vm_compute in E. by injection E. Qed.
Lemma auto_ok name : slen (auto_key name) ≤ MAX_KEY_LEN_CLIENT →
  bad_key (auto_key name) = false ∧ slen (auto_key name) ≤ MAX_KEY_LEN_SERVER.
Proof. intros Hn. destruct (ask_key_bounds TRank name Hn) as (? & ? & _). done. Qed.

Lemma rule_set_rank l g id :
  g_fly g = Some (TRank, id) → g_rank g = None →
  triple l g (OSet (AUTO_RANK_KEY_PREFIX ++ p_name (g_pub g)) (id_bytes id))
    (λ o g', o = out_code SUCCESS ∧ g' = g_register g id).
Proof.
  intros Hfly Hr kv f G Hfit Hi Hg. destruct (ri_pubs _ _ _ Hi l g Hg) as [(_ & _ & _ & _ & Hlen) Hw].
  pose proof (claim_bound _ _ _ _ _ _ _ Hi Hfit Hg (fly_claim _ _ _ Hfly)) as Hid.
  destruct (proj1 Hw Hr) as (Ed & Es & Edc & Esc).
  unfold sop_at, reg_exec. change (GetCompleteKey session (AUTO_RANK_KEY_PREFIX ++ p_name (g_pub g)))
    with (auto_key (p_name (g_pub g))).
  unfold BuildLinkIdToRankInfoMap. rewrite contains_auto. cbn [id_bytes]. rewrite id_roundtrip by lia.
  cbn [Z.eqb SM_OK]. set (g' := g_register g id).
  assert (∀ T, claim g' T ≡ₚ claim g T) as Hcl.
  { intros T. unfold claim, g'. cbn [g_fly g_register g_rank]. rewrite Hfly, Hr. repeat case_decide; subst; done. }
  eexists _, _, _, g'. split; [reflexivity|]. split.
  { split_and!; [by apply auto_ok|by apply auto_ok|]. vm_compute. discriminate. }
  intros _. split; [|done]. split.
  - apply prefix_insert, Hi.
  - apply ask_insert; [apply Hi|]. intros s. split; key_ne.
  - apply Hi.
  - apply (links_frame G l g' f); [apply Hi| |].
    + cbn. rewrite lookup_insert_eq. unfold info_of, device_of, slices_of. cbn. by rewrite Ed, Es, Esc.
    + intros l' Hl'. cbn. by rewrite lookup_insert_ne.
  - apply (pubs_frame G l g g'); [done|apply Hi|done|]. unfold link_wf, g'. cbn. rewrite Ed, Es, Edc, Esc.
    split_and!; try done. cbn; lia.
  - apply (names_frame G l g g'); [done|apply Hi|done].
  - apply (auto_frame G l g g' Hg kv); [apply Hi|done|by intros _; eexists|].
    intros n1. destruct (decide (n1 = p_name (g_pub g))) as [->|Hne]; [right; split; [by eexists|done]|].
    left. rewrite lookup_insert_ne; [done|]. intros E%auto_key_inj. congruence.
  - apply (rank_frame G l g g' Hg kv); [apply Hi| |done]. rewrite lookup_insert_ne; [done|]. key_ne.
  - intros T HT. destruct (ri_tab _ _ _ Hi T HT) as [rs Ht]. exists rs.
    apply (tab_frame G l g g' Hg kv); [|  |done|done].
    + by destruct T as [|[]|[]].
    + rewrite lookup_insert_ne; [done|]. key_ne.
  - intros s. apply (count_frame G l g g' Hg kv); [apply Hi| |done|done].
    rewrite lookup_insert_ne; [done|]. key_ne.
  - intros s v'. rewrite lookup_insert_ne; [apply Hi|]. key_ne.
Qed.

(** ** Records of devices and slices *)
Definition info_key (s dev : bool) : string := if dev then k_deviceInfo (keys_of s) else k_sliceInfo (keys_of s).
Lemma tab_key_my g dev : tab_key (my_tab g dev) = at_ (info_key (p_sender (g_pub g)) dev).
Proof. by destruct dev. Qed.
Lemma my_tab_rank g dev : my_tab g dev ≠ TRank.
Proof. by destruct dev. Qed.
Lemma g_pub_own g dev x : g_pub (g_own g dev x) = g_pub g.
Proof. by destruct dev. Qed.
Lemma owned_own g dev x T :
  owned (g_own g dev x) T = owned g T ++ (if decide (T = my_tab g dev) then [x] else []).
Proof.
  unfold owned, my_tab. rewrite g_pub_own.
  destruct dev; repeat case_decide; subst; cbn; rewrite ?app_nil_r; done || congruence.
Qed.
Lemma owned_rank g : owned g TRank = [].
Proof. unfold owned. by rewrite !decide_False by (intros E; by destruct (my_tab_rank g _ (eq_sym E))). Qed.
Lemma claim_own g dev i d T :
  claim (g_own g dev (i, d)) T ≡ₚ
  (if decide (T = TRank) then option_list (g_rank g) else []) ++ (owned g T).*1 ++
  (if decide (T = my_tab g dev) then [i] else []).
Proof.
  unfold claim. rewrite owned_own, fmap_app. destruct dev; cbn [g_own g_fly g_rank]; cbn [app];
    repeat case_decide; subst; done.
Qed.

(** What the fault handler notes is what the ghost record says. *)
Lemma note_own kv f G l g r dev i d :
  reg_inv kv f G → G !! l = Some g → g_rank g = Some r → (dev = true → g_dev g = []) →
  ∃ info', info_of (g_own g dev (i, d)) = Some info' ∧
    note_record l i (Z.of_nat (unit_of (my_tab g dev))) (tab_key (my_tab g dev)) f =
    (SM_OK, set_links f (<[l := info']> (linkIdToRankInfoMap_ f))).
Proof.
  intros Hi Hg Hr Hd. pose proof (ri_links _ _ _ Hi l) as Hl. rewrite Hg in Hl. cbn in Hl.
  destruct (ri_pubs _ _ _ Hi l g Hg) as [_ (_ & _ & Hdc & _)].
  unfold info_of in *. rewrite Hr in Hl. cbn in Hl.
  assert (u16 (Z.of_nat (unit_of (my_tab g dev))) = Z.of_nat (unit_of (my_tab g dev))) as Hu.
  { unfold u16. pose proof (unit_bounds (my_tab g dev)). rewrite Z.mod_small by lia. done. }
  unfold note_record, update_link. rewrite Hu, Hl. destruct dev; cbn [my_tab].
  - assert (g_dcnt g = false) as Ec by (destruct (g_dcnt g); [by destruct Hdc; auto|done]).
    eexists. cbn. rewrite Hr. split; [reflexivity|]. destruct (p_sender (g_pub g)) eqn:Ep; eval_contains; cbn [orb];
      unfold with_dInfo, device_of, slices_of; cbn; rewrite Ep, (Hd eq_refl), Ec; done.
  - eexists. cbn. rewrite Hr. split; [reflexivity|]. destruct (p_sender (g_pub g)) eqn:Ep; eval_contains; cbn [orb];
      unfold with_sInfo, device_of, slices_of; cbn; rewrite Ep, fmap_app; cbn; by destruct (g_sl g).
Qed.

Lemma owner_claim G T l i d : (i, d) ∈ owners G T l → i ∈ claims G T l.
Proof.
  unfold owners, claims. destruct (G !! l) as [g|]; cbn; [|by intros ?%not_elem_of_nil].
  intros Hin. unfold claim. apply elem_of_app. right. apply elem_of_app. right.
  by apply (list_elem_of_fmap_2 fst) in Hin.
Qed.
(** One more record, in a slot that nobody owns. *)
Lemma tab_record kv kv' q G l g dev i d rs rs' :
  G !! l = Some g → let T := my_tab g dev in let G' := <[l := g_own g dev (Z.of_nat i, d)]> G in
  tab_inv kv q G T rs → kv' !! tab_key T = Some (enc rs') →
  table (data_size T) rs' → rs' !! i = Some (NORMAL, d) → (∀ j, j ≠ i → rs' !! j = rs !! j) →
  (∀ l' d', (Z.of_nat i, d') ∉ owners G T l') → ledger q (claims G' T) (len rs') → tab_inv kv' q G' T rs'.
Proof.
  intros Hg T G' [Hv Ht Ho Hn Hl] Hv' Ht' Hat Hother Hfree Hl'. unfold G' in *.
  assert (∀ l' j d', (j, d') ∈ owners G T l' → Z.to_nat j ≠ i) as Hne.
  { intros l' j d' Hin E. destruct (ld_cr _ _ _ Hl l' j (owner_claim _ _ _ _ _ Hin)) as [Hj _].
    apply (Hfree l' d'). by rewrite <- E, Z2Nat.id by lia. }
  split; [by rewrite Hv'|done|..|done].
  - intros l' j d' Hin. destruct (decide (l' = l)) as [->|Hl0].
    + rewrite owners_at, owned_own, decide_True in Hin by done.
      apply elem_of_app in Hin as [Hin|[= -> ->]%list_elem_of_singleton]; [|by rewrite Nat2Z.id].
      rewrite <- (owners_old G l g) in Hin by done. rewrite Hother by eauto. by eapply Ho.
    + rewrite owners_other in Hin by done. rewrite Hother by eauto. by eapply Ho.
  - intros j rj Hj Hnj. destruct (decide (j = i)) as [->|Hji].
    + rewrite Hat in Hj. injection Hj as <-. exists l. rewrite owners_at.
      rewrite owned_own, decide_True by done. apply elem_of_app. right. by apply list_elem_of_singleton.
    + rewrite Hother in Hj by done. destruct (Hn j rj Hj Hnj) as [l' Hl0]. exists l'.
      destruct (decide (l' = l)) as [->|]; [|by rewrite owners_other].
      rewrite owners_at, owned_own, <- (owners_old G l g) by done. apply elem_of_app. by left.
Qed.

Lemma inv_record kv f G l g r dev i d rs rs' info' :
  reg_inv kv f G → G !! l = Some g → g_rank g = Some r → (dev = true → g_dev g = []) →
  let T := my_tab g dev in let g' := g_own g dev (Z.of_nat i, d) in
  tab_inv kv (queue f T) G T rs → info_of g' = Some info' →
  (∀ T', T' ≠ T → claim g' T' ≡ₚ claim g T') →
  table (data_size T) rs' → rs' !! i = Some (NORMAL, d) → (∀ j, j ≠ i → rs' !! j = rs !! j) →
  (∀ l' d', (Z.of_nat i, d') ∉ owners G T l') →
  ledger (queue f T) (claims (<[l := g']> G) T) (len rs') →
  reg_inv (<[tab_key T := enc rs']> kv) (set_links f (<[l := info']> (linkIdToRankInfoMap_ f))) (<[l := g']> G).
Proof.
  intros Hi Hg Hr Hd T g' Htab Hinfo Hcl Ht' Hat Hother Hfree Hl'.
  assert (T ≠ TRank) as HTR by apply my_tab_rank.
  assert (tab_key T = at_ (info_key (p_sender (g_pub g)) dev)) as Ekey by apply tab_key_my.
  split.
  - rewrite Ekey. apply prefix_insert, Hi.
  - rewrite Ekey. apply ask_insert; [apply Hi|]. intros s. unfold info_key.
    destruct dev, (p_sender (g_pub g)), s; split; key_ne.
  - apply Hi.
  - apply (links_frame G l g' f); [apply Hi| |]; cbn.
    + rewrite lookup_insert_eq. done.
    + intros l' Hl0. by rewrite lookup_insert_ne.
  - apply (pubs_frame G l g g'); [done|apply Hi|apply g_pub_own|].
    destruct (ri_pubs _ _ _ Hi l g Hg) as [_ (H1 & H2 & H3 & H4)]. unfold link_wf, g'.
    destruct dev; cbn [g_own g_rank g_dev g_dcnt g_sl g_scnt]; rewrite Hr; (split; [done|]).
    + rewrite (Hd eq_refl). cbn. split_and!; try done; lia.
    + split_and!; try done. intros _. by destruct (g_sl g).
  - apply (names_frame G l g g'); [done|apply Hi|apply g_pub_own].
  - apply (auto_frame G l g g' Hg kv); [apply Hi|apply g_pub_own| |].
    + unfold g'. by destruct dev.
    + intros n1. left. rewrite lookup_insert_ne; [done|]. subst T. unfold my_tab. destruct dev, (p_sender (g_pub g)); key_ne.
  - apply (rank_frame G l g g' Hg kv); [apply Hi| |apply Hcl; congruence].
    rewrite lookup_insert_ne; [done|]. subst T. unfold my_tab. destruct dev, (p_sender (g_pub g)); key_ne.
  - intros T' HT'. destruct (decide (T' = T)) as [->|Hne].
    + exists rs'. apply (tab_record kv _ _ G l g dev i d rs); try done. by rewrite lookup_insert_eq.
    + destruct (ri_tab _ _ _ Hi T' HT') as [rs0 Ht0]. exists rs0.
      apply (tab_frame G l g g' Hg kv); [by destruct T' as [|[]|[]]| |by apply Hcl|].
      * rewrite lookup_insert_ne; [done|]. subst T. unfold my_tab in *. destruct dev, (p_sender (g_pub g)); key_ne.
      * unfold g'. rewrite owned_own, decide_False by done. by rewrite app_nil_r.
  - intros s. apply (count_frame G l g g' Hg kv); [apply Hi| |by unfold g'; rewrite g_pub_own|by unfold g'; destruct dev].
    rewrite lookup_insert_ne; [done|]. subst T. unfold my_tab. destruct dev, (p_sender (g_pub g)); key_ne.
  - intros s v'. rewrite lookup_insert_ne; [apply Hi|]. subst T. unfold my_tab. destruct dev, (p_sender (g_pub g)); key_ne.
Qed.

Lemma my_key_ok g dev : bad_key (tab_key (my_tab g dev)) = false ∧ slen (tab_key (my_tab g dev)) ≤ MAX_KEY_LEN_SERVER.
Proof. unfold my_tab. destruct dev, (p_sender (g_pub g)); vm_compute; split; done || discriminate. Qed.

Section Records.
Context (l : Z) (g : LinkG) (r : Z) (dev : bool) (d : bytes).
Context (Hr : g_rank g = Some r) (Hone : dev = true → g_dev g = []).
Context (Hd : List.length d = data_size (my_tab g dev)).
Local Abbreviation T := (my_tab g dev).
Local Abbreviation key := (info_key (p_sender (g_pub g)) dev).

Lemma len_rec : len (NORMAL :: d) = Z.of_nat (unit_of T).
Proof. unfold len, unit_of. cbn [List.length]. by rewrite Hd. Qed.

Lemma rule_write_rec id :
  g_fly g = Some (T, id) →
  triple l g (OWrite key (NORMAL :: d) (u32 (id * len (NORMAL :: d))))
    (λ o g', o = out_code SUCCESS ∧ g' = g_own g dev (id, d)).
Proof.
  intros Hfly kv f G Hfit Hi Hg. pose proof (unit_bounds T) as Hu. pose proof len_rec as Hlr.
  pose proof (claim_bound _ _ _ _ _ _ _ Hi Hfit Hg (fly_claim _ _ _ Hfly)) as Hid.
  assert (∃ i, id = Z.of_nat i) as [i ->] by (exists (Z.to_nat id); lia).
  destruct (ri_tab _ _ _ Hi T (my_tab_rank _ _)) as [rs Htab]. pose proof Htab as [Hv Ht Ho Hn Hl].
  destruct (note_own kv f G l g r dev (Z.of_nat i) d Hi Hg Hr Hone) as (info' & Hinfo & Hnote).
  assert (0 ≤ Z.of_nat i < len rs ∧ Z.of_nat i ∉ queue f T) as [Hidr _].
  { apply (ld_cr _ _ _ Hl l). rewrite (claims_old _ _ g) by done. by apply fly_claim. }
  unfold sop_at, reg_exec. fold (at_ key). rewrite <- (tab_key_my g dev).
  rewrite Hlr, (u32_small (Z.of_nat i * _)) by nia. rewrite write_rank_info, Hlr by (rewrite ?Hlr; nia).
  rewrite Z.div_mul by lia. unfold u16. rewrite Z.mod_small, Hnote by lia. cbn [Z.eqb SM_OK negb].
  eexists _, _, _, _. split; [reflexivity|]. split.
  { split_and!; [apply my_key_ok|apply my_key_ok|..]; rewrite ?Hlr; unfold MAX_U16_INDEX, MAX_VALUE_SIZE; nia. }
  intros _. split; [|done]. rewrite Hv.
  replace (Z.to_nat (Z.of_nat i * Z.of_nat (unit_of T))) with (i * S (data_size T))%nat by (unfold unit_of; nia).
  unfold len in Hidr. rewrite enc_write by (done || lia).
  assert (∀ T', claim g T' = (if decide (T = T') then [Z.of_nat i] else []) ++
    (if decide (T' = TRank) then option_list (g_rank g) else []) ++ (owned g T').*1) as Hc.
  { intros T'. unfold claim. by rewrite Hfly. }
  apply (inv_record kv f G l g r dev _ d rs); try done.
  - intros T' Hne. rewrite claim_own, Hc, (decide_False (P := T' = T)), (decide_False (P := T = T')) by congruence.
    by rewrite app_nil_r.
  - by apply Forall_insert.
  - rewrite list_lookup_insert_eq by lia. done.
  - intros j Hj. by rewrite list_lookup_insert_ne.
  - intros l' d' Hin.
    assert (Z.of_nat i ∈ claims G T l) as H1 by (rewrite (claims_old _ _ g) by done; by apply fly_claim).
    assert (l' = l) as -> by (eapply (ld_u _ _ _ Hl); [by eapply owner_claim|done]).
    pose proof (ld_c _ _ _ Hl l) as Hnd. rewrite (claims_old _ _ g), Hc, decide_True in Hnd by done.
    cbn [app] in Hnd. apply NoDup_cons in Hnd as [Hni _]. apply Hni. apply elem_of_app. right.
    rewrite (owners_old _ _ g) in Hin by done. by apply (list_elem_of_fmap_2 fst) in Hin.
  - unfold len. rewrite length_insert. apply (ledger_frame _ _ g); [done|done|].
    rewrite claim_own, Hc, !(decide_True (P := T = T)) by done.
    rewrite (decide_False (P := T = TRank)) by apply my_tab_rank.
    cbn [app]. by rewrite <- Permutation_cons_append.
Qed.

Lemma rule_append_rec :
  g_fly g = None →
  triple l g (OAppend key (NORMAL :: d)) (λ o g', ∃ n, 0 ≤ n < 65535 ∧
    o = mkOut SUCCESS None (Some ((n + 1) * Z.of_nat (unit_of T))) ∧ g' = g_own g dev (n, d)).
Proof.
  intros Hfly kv f G Hfit Hi Hg. pose proof (unit_bounds T) as Hu. pose proof len_rec as Hlr.
  destruct (ri_tab _ _ _ Hi T (my_tab_rank _ _)) as [rs Htab]. pose proof Htab as [Hv Ht Ho Hn Hl].
  pose proof (proj1 Hfit T) as Hft. rewrite Hv in Hft. pose proof (len_nonneg rs) as Hrs.
  assert (len (enc rs) = len rs * Z.of_nat (unit_of T)) as Hle.
  { unfold len, unit_of. rewrite (length_enc (data_size T)) by done. lia. }
  assert (len (enc rs ++ NORMAL :: d) = (len rs + 1) * Z.of_nat (unit_of T)) as Hlen
    by (rewrite len_app, Hlr, Hle; lia).
  destruct (note_own kv f G l g r dev (len rs) d Hi Hg Hr Hone) as (info' & Hinfo & Hnote).
  unfold sop_at, reg_exec. fold (at_ key). rewrite <- (tab_key_my g dev), Hv.
  unfold AppendRankInfoMap. cbn [Z.eqb SUCCESS negb]. rewrite Hlr, (proj2 (Z.eqb_neq _ _)), Hlen, Z.div_mul by lia.
  replace (len rs + 1 - 1) with (len rs) by lia. unfold u16. rewrite Z.mod_small, Hnote by nia. cbn [Z.eqb SM_OK negb].
  eexists _, _, _, _. split; [reflexivity|]. split.
  { split_and!; [apply my_key_ok|apply my_key_ok|..]; rewrite ?Hlr, ?Hv, ?Hle; unfold MAX_VALUE_SIZE; nia. }
  intros [Hf' _]. specialize (Hf' T). rewrite lookup_insert_eq in Hf'. cbn [default from_option id] in Hf'.
  rewrite Hlen in Hf'. split; [|exists (len rs); split_and!; [lia|nia|done|done]].
  replace (enc rs ++ NORMAL :: d) with (enc (rs ++ [(NORMAL, d)])) by (rewrite enc_app; cbn; by rewrite app_nil_r).
  change (len rs) with (Z.of_nat (List.length rs)) in Hinfo |- *.
  apply (inv_record kv f G l g r dev _ d rs); try done.
  - intros T' Hne. rewrite claim_own. unfold claim. rewrite Hfly, (decide_False (P := T' = T)) by done. by rewrite app_nil_r.
  - apply Forall_app. split; [done|]. by constructor.
  - by apply list_lookup_middle.
  - intros j Hj. destruct (decide (j < List.length rs)%nat); [by rewrite lookup_app_l|].
    rewrite !lookup_ge_None_2; [done|lia|rewrite length_app; cbn; lia].
  - intros l' d' Hin%owner_claim. destruct (ld_cr _ _ _ Hl _ _ Hin). unfold len in *. lia.
  - rewrite len_app. change (len [(NORMAL, d)]) with 1.
    apply (ledger_fresh _ (claims G T) _ l); [apply claims_other|done|done|].
    rewrite claims_at, (claims_old _ _ g), claim_own by done. unfold claim. rewrite Hfly, (decide_True (P := T = T)) by done.
    unfold len. cbn [app]. rewrite app_assoc. by rewrite <- Permutation_cons_append.
Qed.
End Records.

(** ** Counting *)
Lemma stored_to_string m : I64_MIN ≤ m ≤ I64_MAX → stored_number (to_string m) = Some m.
Proof.
  intros Hm. destruct (add_reads_number false m Hm) as (E & _ & Hz). unfold stored_number. rewrite E. by rewrite Hz.
Qed.
Lemma counted_bound G s : 0 ≤ counted G s ≤ Z.of_nat (size G).
Proof. unfold counted. split; [lia|]. apply inj_le, map_subseteq_size, map_filter_subseteq. Qed.
Lemma counted_flip G l g s :
  G !! l = Some g → g_dcnt g = false →
  counted (<[l := g_count g true]> G) s = counted G s + (if decide (s = p_sender (g_pub g)) then 1 else 0).
Proof.
  intros Hg Hc. unfold counted. case_decide as E.
  - rewrite map_filter_insert_True by done. rewrite map_size_insert_None; [lia|].
    apply map_lookup_filter_None. right. intros g0 Hg0 [_ Hx]. assert (g0 = g) by congruence. cbn in Hx. congruence.
  - rewrite map_filter_insert_False by (intros [Hx _]; by apply E). rewrite map_filter_delete_not; [lia|].
    intros g0 Hg0 [Hx _]. assert (g0 = g) by congruence. cbn in Hx. congruence.
Qed.
Definition num_key (s dev : bool) : string := if dev then k_deviceCount (keys_of s) else k_sliceCount (keys_of s).
Lemma num_key_ok s dev : bad_key (at_ (num_key s dev)) = false ∧ slen (at_ (num_key s dev)) ≤ MAX_KEY_LEN_SERVER.
Proof. destruct s, dev; vm_compute; split; done || discriminate. Qed.

Lemma note_count kv f G l g r dev :
  reg_inv kv f G → G !! l = Some g → g_rank g = Some r → (dev = true → g_dev g ≠ []) →
  ∃ info', info_of (g_count g dev) = Some info' ∧
    AddRankInfoMap l (at_ (num_key (p_sender (g_pub g)) dev)) f =
    (SM_OK, set_links f (<[l := info']> (linkIdToRankInfoMap_ f))).
Proof.
  intros Hi Hg Hr Hd. pose proof (ri_links _ _ _ Hi l) as Hl. rewrite Hg in Hl. cbn in Hl.
  unfold info_of in *. rewrite Hr in Hl. cbn in Hl. unfold AddRankInfoMap, update_link. rewrite Hl.
  destruct dev; (eexists; split; [cbn; rewrite Hr; reflexivity|]); unfold num_key;
    destruct (p_sender (g_pub g)) eqn:Ep; eval_contains; cbn [orb];
    unfold with_dInfo, with_sInfo, device_of, slices_of; cbn; rewrite ?Ep; try done;
    destruct (g_dev g) as [|[]]; done || by destruct (Hd eq_refl).
Qed.

(** The changes of a counter: which key, and the counts of the devices. *)
Lemma inv_count kv f G l g r dev v info' :
  reg_inv kv f G → G !! l = Some g → g_rank g = Some r → (dev = true → g_dev g ≠ []) →
  (dev = false → g_sl g ≠ []) → let s := p_sender (g_pub g) in let G' := <[l := g_count g dev]> G in
  info_of (g_count g dev) = Some info' →
  (dev = true → v = to_string (counted G' s) ∧ ∀ s', s' ≠ s → counted G' s' = counted G s') →
  (dev = false → ∃ m, I64_MIN ≤ m ≤ I64_MAX ∧ v = to_string m) →
  reg_inv (<[at_ (num_key s dev) := v]> kv) (set_links f (<[l := info']> (linkIdToRankInfoMap_ f))) G'.
Proof.
  intros Hi Hg Hr Hd Hs s G' Hinfo Hv Hsv. unfold G' in *.
  assert (g_pub (g_count g dev) = g_pub g) as Ep by (by destruct dev).
  assert (∀ T, owned (g_count g dev) T = owned g T) as Ho by (intros T; by destruct dev).
  assert (∀ T, claim (g_count g dev) T = claim g T) as Hc by (intros T; by destruct dev).
  assert (∀ T, kv !! tab_key T = <[at_ (num_key s dev) := v]> kv !! tab_key T) as Hk.
  { intros T. rewrite lookup_insert_ne; [done|]. unfold num_key. destruct dev, s; key_ne. }
  split.
  - apply prefix_insert, Hi.
  - apply ask_insert; [apply Hi|]. intros s'. unfold num_key. destruct dev, s, s'; split; key_ne.
  - apply Hi.
  - apply (links_frame G l (g_count g dev) f); [apply Hi| |]; cbn.
    + by rewrite lookup_insert_eq.
    + intros l' Hl0. by rewrite lookup_insert_ne.
  - apply (pubs_frame G l g (g_count g dev)); [done|apply Hi|done|].
    destruct (ri_pubs _ _ _ Hi l g Hg) as [_ (H1 & H2 & H3 & H4)]. unfold link_wf.
    destruct dev; cbn [g_count g_rank g_dev g_dcnt g_sl g_scnt]; rewrite Hr; split_and!; auto; done.
  - apply (names_frame G l g (g_count g dev)); [done|apply Hi|done].
  - apply (auto_frame G l g (g_count g dev) Hg kv); [apply Hi|done|by destruct dev|].
    intros n1. left. rewrite lookup_insert_ne; [done|]. unfold num_key. destruct dev, s; key_ne.
  - apply (rank_frame G l g (g_count g dev) Hg kv); [apply Hi|done|by rewrite Hc].
  - intros T HT. destruct (ri_tab _ _ _ Hi T HT) as [rs Ht]. exists rs.
    apply (tab_frame G l g (g_count g dev) Hg kv); [by destruct T as [|[]|[]]|done|by rewrite Hc|done].
  - intros s'. destruct dev.
    + destruct (Hv eq_refl) as [-> Hoth]. destruct (decide (s' = s)) as [->|Hne].
      * right. unfold count_key, num_key. by rewrite lookup_insert_eq.
      * unfold count_inv. rewrite lookup_insert_ne by (unfold num_key; destruct s, s'; key_ne).
        rewrite Hoth by done. apply Hi.
    + apply (count_frame G l g _ Hg kv); [apply Hi| |done..].
      rewrite lookup_insert_ne by (unfold num_key; destruct s, s'; key_ne). done.
  - intros s' v'. rewrite lookup_insert. case_decide as E; [|apply Hi]. intros [= <-].
    destruct dev; [unfold num_key in E; exfalso; revert E; destruct s, s'; key_ne|]. by apply Hsv.
Qed.

Lemma rule_count l g r dev :
  g_rank g = Some r → (dev = true → g_dev g ≠ [] ∧ g_dcnt g = false) → (dev = false → g_sl g ≠ []) →
  triple l g (OAdd (num_key (p_sender (g_pub g)) dev) 1) (λ o g', o_code o = SUCCESS ∧ g' = g_count g dev).
Proof.
  intros Hr Hd Hs kv f G Hfit Hi Hg. set (s := p_sender (g_pub g)).
  destruct (note_count kv f G l g r dev Hi Hg Hr ltac:(naive_solver)) as (info' & Hinfo & Hnote). fold s in Hnote.
  assert (sop_ok kv (OAdd (at_ (num_key s dev)) 1)) as Hok.
  { destruct (num_key_ok s dev). unfold sop_ok, I64_MIN, I64_MAX. cbn [sop_key]. split_and!; done || lia. }
  assert (∀ v, (dev = true → v = to_string (counted G s + 1)) → (dev = false → ∃ m, I64_MIN ≤ m ≤ I64_MAX ∧ v = to_string m) →
    reg_inv (<[at_ (num_key s dev) := v]> kv) (set_links f (<[l := info']> (linkIdToRankInfoMap_ f)))
      (<[l := g_count g dev]> G)) as Hstep.
  { intros v Hv Hsv. apply (inv_count kv f G l g r dev v info'); try done; [intros E; by apply Hd|].
    intros E. destruct (Hd E) as [_ Hdc]. rewrite E, counted_flip, decide_True by done. split; [by apply Hv|].
    intros s' Hne. by rewrite counted_flip, decide_False, Z.add_0_r by done. }
  pose proof (counted_bound G s) as Hb. pose proof (proj2 Hfit) as Hsize.
  unfold sop_at, reg_exec. fold (at_ (num_key s dev)). cbn [Z.ltb Z.compare]. rewrite Hnote. cbn [Z.eqb SM_OK negb].
  destruct (kv !! at_ (num_key s dev)) as [v|] eqn:Ev.
  - assert (∃ m, I64_MIN ≤ m ≤ I64_MAX ∧ v = to_string m ∧ (dev = true → m = counted G s)) as (m & Hm & -> & Hmc).
    { destruct dev.
      - destruct (ri_count _ _ _ Hi s) as [[Ec _]|Ec]; unfold count_key, num_key in *; rewrite Ev in Ec; [done|].
        injection Ec as ->. exists (counted G s). split_and!; try done; unfold I64_MIN, I64_MAX; lia.
      - destruct (ri_scount _ _ _ Hi s v Ev) as (m & ? & ->). by exists m. }
    rewrite stored_to_string by done. eexists _, _, _, _. split; [reflexivity|]. split; [done|]. intros _.
    split; [|done]. apply Hstep; intros ->.
    + rewrite (Hmc eq_refl), i64_small; [done|lia].
    + eexists. split; [apply i64_bounds|done].
  - eexists _, _, _, _. split; [reflexivity|]. split; [done|]. intros _. split; [|done]. apply Hstep; intros ->.
    + destruct (ri_count _ _ _ Hi s) as [[_ ->]|Ec]; [done|]. unfold count_key, num_key in *. by rewrite Ev in Ec.
    + exists 1. unfold I64_MIN, I64_MAX. split; [lia|done].
Qed.

(** ** Programs *)
Fixpoint wp {A} (l : Z) (g : LinkG) (p : store_prog A) (Q : LinkG → A → Prop) : Prop :=
  match p with
  | Ret a => Q g a
  | Act op k => triple l g op (λ o g', g_pub g' = g_pub g ∧ wp l g' (k o) Q)
  end.

Lemma triple_mono l g op (Q Q' : Outcome → LinkG → Prop) :
  triple l g op Q → (∀ o g', Q o g' → Q' o g') → triple l g op Q'.
Proof.
  intros Ht HQ kv f G Hf Hi Hg. destruct (Ht kv f G Hf Hi Hg) as (kv' & f' & o & g' & E & Hok & Hpost).
  exists kv', f', o, g'. split_and!; [done..|]. intros Hf'. destruct (Hpost Hf'). auto.
Qed.
Lemma wp_bind {A B} l g (p : store_prog A) (k : A → store_prog B) Q :
  wp l g p (λ g' a, wp l g' (k a) Q) → wp l g (p ≫= k) Q.
Proof.
  revert g. induction p as [a|op c IH]; intros g Hw; [done|]. cbn in *. eapply triple_mono; [exact Hw|]. naive_solver.
Qed.
Lemma wp_op {B} l g op (k : Outcome → store_prog B) Q (R : Outcome → LinkG → Prop) :
  triple l g op R → (∀ o g', R o g' → g_pub g' = g_pub g ∧ wp l g' (k o) Q) → wp l g (do_op op ≫= k) Q.
Proof. intros Ht HR. cbn. eapply triple_mono; [exact Ht|]. done. Qed.

(** GenerateRankId registers the link under the rank number it answers. *)
Lemma wp_GenerateRankId l p h (Q : LinkG → option (SmemStoreHelper * Z * Z) → Prop) :
  name_ h = p_name p → List.length (p_cfg p) = csz →
  (∀ id, 0 ≤ id < 65535 →
    Q (g_register (g_new p) id) (Some (set_rankInfo h (id, p_cfg p), SM_OK, id))) →
  wp l (g_new p) (GenerateRankId h (p_cfg p)) Q.
Proof.
  intros Hn Hc HQ. destruct Hsz as [Hcs _]. unfold GenerateRankId, rank_key. rewrite Hn.
  assert (len (p_cfg p) = Z.of_nat csz) as Hlc by (unfold len; by rewrite Hc).
  eapply wp_op; [by apply (rule_ask l (g_new p) TRank)|]. intros o g' [[-> ->]|(rk & Hid & -> & ->)]; split; try done; cbn [o_code o_val out_code].
  - cbn [Z.eqb NOT_EXIST]. eapply wp_op; [by apply (rule_append_rank l (g_new p))|].
    intros o g' (n & Hnr & -> & ->). split; [done|]. cbn [o_code o_num default from_option id Z.eqb SUCCESS negb].
    rewrite Hlc, Z.div_mul by lia.
    assert (u16 (u16 (n + 1) - 1) = n) as -> by (unfold u16; rewrite (Z.mod_small (n + 1)), Z.mod_small by lia; lia).
    eapply wp_op; [by apply (rule_set_rank l (g_set_fly (g_new p) (Some (TRank, n))) n)|].
    intros o g' [-> ->]. split; [done|]. cbn [o_code out_code Z.eqb SUCCESS negb wp]. unfold read_rank. cbn [id_bytes].
    rewrite id_roundtrip by lia. by apply HQ.
  - cbn [Z.eqb RESTORE NOT_EXIST default from_option id]. unfold RecoverRankInformation. cbn [id_bytes].
    rewrite id_roundtrip by lia. apply wp_bind.
    eapply wp_op; [by apply (rule_write_rank l (g_set_fly (g_new p) (Some (TRank, rk))) rk)|].
    intros o g' [-> ->]. split; [done|]. cbn [o_code out_code Z.eqb SUCCESS negb].
    eapply wp_op; [by apply (rule_set_rank l (g_set_fly (g_new p) (Some (TRank, rk))) rk)|].
    intros o g' [-> ->]. split; [done|]. cbn [o_code out_code Z.eqb SUCCESS negb wp]. unfold read_rank. cbn [id_bytes].
    rewrite id_roundtrip by lia. by apply HQ.
Qed.

Lemma wp_count_up l g r dev h (Q : LinkG → Called → Prop) :
  g_rank g = Some r → (dev = true → g_dev g ≠ [] ∧ g_dcnt g = false) → (dev = false → g_sl g ≠ []) →
  Q (g_count g dev) (Some (h, SM_OK)) →
  wp l g (count_up h (num_key (p_sender (g_pub g)) dev)) Q.
Proof.
  intros Hr Hd Hs HQ. unfold count_up. eapply wp_op; [by apply (rule_count l g r dev)|].
  intros o g' [E ->]. split; [by destruct dev|]. cbn [wp]. by rewrite E.
Qed.

Section Publish.
Context (l : Z) (g : LinkG) (r : Z) (h : SmemStoreHelper).
Context (Hkeys : localKeys_ h = keys_of (p_sender (g_pub g))).
Context (Hr : g_rank g = Some r) (Hfly : g_fly g = None).
Local Abbreviation s := (p_sender (g_pub g)).

Lemma slot_of n T : 0 ≤ n < 65535 → u16 ((n + 1) * Z.of_nat (unit_of T) / Z.of_nat (unit_of T) - 1) = n.
Proof.
  intros Hn. pose proof (unit_bounds T). rewrite Z.div_mul by lia. unfold u16. rewrite Z.mod_small by lia. lia.
Qed.

Lemma wp_StoreDeviceInfo info (Q : LinkG → Called → Prop) :
  g_dev g = [] → g_dcnt g = false → List.length info = dsz s →
  (∀ x, 0 ≤ x < 65535 →
    Q (g_count (g_own g true (x, info)) true)
      (Some (set_deviceInfo (set_deviceExpSize h (len info)) (x, NORMAL :: info), SM_OK))) →
  wp l g (StoreDeviceInfo h info) Q.
Proof.
  intros Hdev Hcnt Hlen HQ. unfold StoreDeviceInfo. cbn [set_deviceExpSize localKeys_]. rewrite Hkeys.
  assert (∀ x, 0 ≤ x < 65535 → wp l (g_own g true (x, info))
    (count_up (set_deviceInfo (set_deviceExpSize h (len info)) (x, NORMAL :: info)) (k_deviceCount (keys_of s))) Q) as Hup.
  { intros x Hx. apply (wp_count_up l (g_own g true (x, info)) r true); [done| |done|by apply HQ].
    intros _. cbn. split; [by destruct (g_dev g)|done]. }
  eapply wp_op; [by apply (rule_ask l g (TDev s))|]. intros o g' [[-> ->]|(x & Hx & -> & ->)]; split; try done; cbn [o_code o_val out_code].
  - cbn [Z.eqb NOT_EXIST RESTORE].
    eapply wp_op; [by apply (rule_append_rec l g r true info)|]. intros o g' (n & Hn & -> & ->). split; [done|].
    cbn [o_code o_num default from_option id Z.eqb SUCCESS negb].
    rewrite (len_rec g true info) by done. rewrite slot_of by done. by apply Hup.
  - cbn [Z.eqb RESTORE default from_option id id_bytes]. rewrite id_roundtrip by lia.
    eapply wp_op; [by apply (rule_write_rec l (g_set_fly g (Some (TDev s, x))) r true info)|].
    intros o g' [-> ->]. split; [done|]. cbn [o_code out_code Z.eqb SUCCESS negb]. by apply Hup.
Qed.

Lemma wp_StoreSliceInfo info si (Q : LinkG → Called → Prop) :
  List.length si = 48%nat → List.length info = ssz s →
  (∀ x, 0 ≤ x < 65535 →
    Q (g_count (g_own g false (x, si ++ info)) false)
      (Some (add_sliceInfo h (x, NORMAL :: si ++ info), SM_OK))) →
  wp l g (StoreSliceInfo h info si) Q.
Proof.
  intros Hsi Hlen HQ. unfold StoreSliceInfo. rewrite Hkeys.
  assert (List.length (si ++ info) = data_size (TSlice s)) as Hd by (cbn; rewrite length_app; lia).
  assert (∀ x, 0 ≤ x < 65535 → wp l (g_own g false (x, si ++ info))
    (count_up (add_sliceInfo h (x, NORMAL :: si ++ info)) (k_sliceCount (keys_of s))) Q) as Hup.
  { intros x Hx. apply (wp_count_up l (g_own g false (x, si ++ info)) r false); [done|done| |by apply HQ].
    intros _. cbn. by destruct (g_sl g). }
  eapply wp_op; [by apply (rule_ask l g (TSlice s))|]. intros o g' [[-> ->]|(x & Hx & -> & ->)]; split; try done; cbn [o_code o_val out_code].
  - cbn [Z.eqb NOT_EXIST RESTORE].
    eapply wp_op; [by apply (rule_append_rec l g r false (si ++ info))|]. intros o g' (n & Hn & -> & ->). split; [done|].
    cbn [o_code o_num default from_option id Z.eqb SUCCESS negb].
    rewrite (len_rec g false (si ++ info)) by done. rewrite slot_of by done. cbn [add_sliceInfo localKeys_].
    rewrite Hkeys. by apply Hup.
  - cbn [Z.eqb RESTORE default from_option id id_bytes]. rewrite id_roundtrip by lia.
    eapply wp_op; [by apply (rule_write_rec l (g_set_fly g (Some (TSlice s, x))) r false (si ++ info))|].
    intros o g' [-> ->]. split; [done|]. cbn [o_code out_code Z.eqb SUCCESS negb]. by apply Hup.
Qed.
End Publish.

(** ** A link breaks *)
Definition mark (rs : list Rec) (x : Z * bytes) : list Rec := <[Z.to_nat x.1 := (ABNORMAL, x.2)]> rs.
Definition marks (rs : list Rec) (xs : list (Z * bytes)) : list Rec := foldl mark rs xs.

Lemma length_marks rs xs : List.length (marks rs xs) = List.length rs.
Proof. revert rs. induction xs as [|x xs IH]; intros rs; [done|]. cbn. rewrite IH. apply length_insert. Qed.
Lemma marks_out rs xs i : (∀ x, x ∈ xs → Z.to_nat x.1 ≠ i) → marks rs xs !! i = rs !! i.
Proof.
  revert rs. induction xs as [|x xs IH]; intros rs Hx; [done|]. cbn.
  rewrite IH by (intros; apply Hx; by right). unfold mark. rewrite list_lookup_insert_ne; [done|]. apply Hx. by left.
Qed.
Lemma marks_in rs xs i r :
  (∃ x, x ∈ xs ∧ Z.to_nat x.1 = i) ∨ (∀ r, rs !! i = Some r → ¬ normal r) →
  marks rs xs !! i = Some r → ¬ normal r.
Proof.
  revert rs. induction xs as [|y xs IH]; intros rs Hx; cbn.
  { destruct Hx as [(x & Hx & _)|Hx]; [by apply not_elem_of_nil in Hx|apply Hx]. }
  apply IH. destruct (decide (Z.to_nat y.1 = i)) as [E|Hne].
  - right. intros r0. unfold mark. rewrite E. intros [(_ & <- & _)|[? ?]]%list_lookup_insert_Some; [done|lia].
  - destruct Hx as [(x & [->|Hx]%elem_of_cons & E)|Hx]; [done|eauto|].
    right. intros r0. unfold mark. rewrite list_lookup_insert_ne by done. apply Hx.
Qed.
Lemma marks_table n rs xs : table n rs → (∀ x, x ∈ xs → List.length x.2 = n) → table n (marks rs xs).
Proof.
  revert rs. induction xs as [|x xs IH]; intros rs Ht Hx; [done|]. cbn. apply IH.
  - apply Forall_insert; [done|]. apply Hx. by left.
  - intros y Hy. apply Hx. by right.
Qed.

(** The table when the link is gone: its records are not normal, its slots wait. *)
Lemma tab_drop kv kv' q G l g T rs :
  tab_inv kv q G T rs → G !! l = Some g → T ≠ TRank →
  default [] (kv' !! tab_key T) = enc (marks rs (owned g T)) →
  tab_inv kv' (q ++ (owned g T).*1) (delete l G) T (marks rs (owned g T)).
Proof.
  intros [Hv Ht Ho Hn Hl] Hg HT Hv'. pose proof (owners_old G l g Hg T) as Hol.
  assert (∀ l', l' ≠ l → owners (delete l G) T l' = owners G T l') as Hoo.
  { intros l' Hne. unfold owners. by rewrite lookup_delete_ne. }
  assert (∀ l', l' ≠ l → claims (delete l G) T l' = claims G T l') as Hco.
  { intros l' Hne. unfold claims. by rewrite lookup_delete_ne. }
  assert (owners (delete l G) T l = [] ∧ claims (delete l G) T l = []) as [Ho0 Hc0].
  { unfold owners, claims. by rewrite lookup_delete_eq. }
  split; [done|..].
  - apply marks_table; [done|]. intros [i d] Hx. rewrite <- Hol in Hx. apply Ho in Hx.
    by apply (table_lookup _ _ _ _ Ht Hx).
  - intros l' i d Hin. destruct (decide (l' = l)) as [->|Hne]; [by rewrite Ho0 in Hin; apply not_elem_of_nil in Hin|].
    rewrite Hoo in Hin by done. rewrite marks_out; [by eapply Ho|]. intros [j d'] Hx E. cbn in E.
    rewrite <- Hol in Hx. pose proof (owner_claim _ _ _ _ _ Hx) as H1. pose proof (owner_claim _ _ _ _ _ Hin) as H2.
    apply Hne. apply (ld_u _ _ _ Hl l' l i H2). destruct (ld_cr _ _ _ Hl _ _ H1), (ld_cr _ _ _ Hl _ _ H2).
    assert (i = j) as -> by lia. done.
  - intros i r Hi Hnr. assert (¬ ∃ x, x ∈ owned g T ∧ Z.to_nat x.1 = i) as Hno.
    { intros Hx. by apply (marks_in rs (owned g T) i r (or_introl Hx) Hi). }
    rewrite marks_out in Hi by (intros x Hx E; eauto). destruct (Hn i r Hi Hnr) as [l' Hin].
    exists l'. rewrite Hoo; [done|]. intros ->. rewrite Hol in Hin. apply Hno. eexists. split; [done|]. cbn. lia.
  - unfold len. rewrite length_marks. apply (ledger_drop q (claims G T) _ l); [done|done|done| |].
    + pose proof (ld_c _ _ _ Hl l) as Hnd. rewrite (claims_old G l g Hg) in Hnd. unfold claim in Hnd.
      apply NoDup_app in Hnd as (_ & _ & Hnd). by apply NoDup_app in Hnd as (_ & _ & Hnd).
    + intros x Hx. rewrite (claims_old G l g Hg). unfold claim. apply elem_of_app. right. apply elem_of_app. by right.
Qed.

Lemma mark_enc T rs x st :
  table (data_size T) rs → 0 ≤ x.1 < 65536 → rs !! Z.to_nat x.1 = Some (st, x.2) →
  mark_abnormal (enc rs) (Z.of_nat (unit_of T)) x.1 = Some (enc (mark rs x)).
Proof.
  intros Ht Hx Hr. pose proof (unit_bounds T) as Hu. pose proof (lookup_lt_Some _ _ _ Hr) as Hlt.
  unfold mark_abnormal. rewrite (proj2 (Z.leb_gt _ _)) by nia.
  rewrite (proj2 (Z.leb_gt _ _)); cbn [orb].
  - unfold mark. rewrite <- (enc_mark _ _ _ _ _ Ht Hr). do 2 f_equal. unfold unit_of. lia.
  - unfold len. rewrite (length_enc (data_size T)) by done. unfold unit_of in *. nia.
Qed.
Lemma push_slice_queue f s id :
  push_slice f (tab_key (TSlice s)) id = set_queue f (TSlice s) (queue f (TSlice s) ++ [id]).
Proof. unfold push_slice. destruct f as [? ? ? [] ?]. destruct s; eval_contains; done. Qed.
Lemma push_device_queue f s id :
  push_device f (tab_key (TDev s)) id = set_queue f (TDev s) (queue f (TDev s) ++ [id]).
Proof. unfold push_device. destruct f as [? ? [] ? ?]. destruct s; eval_contains; done. Qed.
Lemma set_queue_twice f T q q' : set_queue (set_queue f T q) T q' = set_queue f T q'.
Proof. by destruct T as [|[]|[]]. Qed.

Lemma mark_slices_enc s rs xs f :
  table (data_size (TSlice s)) rs →
  (∀ x, x ∈ xs → 0 ≤ x.1 < 65536 ∧ ∃ st, rs !! Z.to_nat x.1 = Some (st, x.2)) →
  mark_slices (enc rs) (Z.of_nat (unit_of (TSlice s))) (tab_key (TSlice s)) xs.*1 f =
  Some (enc (marks rs xs), set_queue f (TSlice s) (queue f (TSlice s) ++ xs.*1)).
Proof.
  revert rs f. induction xs as [|x xs IH]; intros rs f Ht Hx.
  { cbn [fmap list_fmap mark_slices marks foldl]. by rewrite app_nil_r, set_queue_id. }
  destruct (Hx x) as [Hb [st Hr]]; [by left|]. cbn [fmap list_fmap mark_slices marks foldl].
  rewrite (mark_enc _ _ _ _ Ht Hb Hr). cbn [mbind option_bind]. rewrite push_slice_queue, IH.
  - rewrite set_queue_twice, queue_set, decide_True, <- app_assoc by done. done.
  - apply Forall_insert; [done|]. cbn. by apply (table_lookup _ _ _ _ Ht Hr).
  - intros y Hy. destruct (Hx y) as [Hby [sty Hry]]; [by right|]. split; [done|]. unfold mark.
    destruct (decide (Z.to_nat x.1 = Z.to_nat y.1)) as [E|E].
    + rewrite <- E, list_lookup_insert_eq by (by eapply lookup_lt_Some). rewrite <- E, Hr in Hry. injection Hry as _ ->. eauto.
    + rewrite list_lookup_insert_ne by done. eauto.
Qed.

Lemma lower_count_absent (kv : Kv) k n out : kv !! k = None → lower_count kv k n out = kv.
Proof. intros E. unfold lower_count. cbn. unfold local_Get. by rewrite E. Qed.
Lemma lower_count_to_string (kv : Kv) k n m out :
  kv !! k = Some (to_string m) → I64_MIN ≤ m ≤ I64_MAX →
  lower_count kv k n out = <[k := to_string (i64 (m - n))]> kv.
Proof. intros E Hm. unfold lower_count. cbn. unfold local_Get. rewrite E. cbn. by rewrite String2Long_to_string. Qed.

Lemma no_empty_key kv f G : reg_inv kv f G → kv !! ""%string = None.
Proof.
  intros Hi. destruct (kv !! ""%string) as [v|] eqn:E; [|done].
  assert (String.prefix (keyPrefix session) "" = true) as Hp by (apply (ri_prefix _ _ _ Hi); by rewrite E). done.
Qed.

(** The owned records are in the table, whose value is not empty then. *)
Lemma owned_stored kv q G l g T rs :
  tab_inv kv q G T rs → G !! l = Some g → owned g T ≠ [] → kv !! tab_key T = Some (enc rs).
Proof.
  intros Ht Hg Hne. pose proof (ti_value _ _ _ _ _ Ht) as Hv.
  destruct (kv !! tab_key T) as [v|]; cbn in Hv; [by subst|]. exfalso.
  destruct (owned g T) as [|[i d] xs] eqn:E; [done|].
  assert (rs !! Z.to_nat i = Some (NORMAL, d)) as Hr.
  { apply (ti_owned _ _ _ _ _ Ht l). rewrite (owners_old G l g Hg), E. by left. }
  destruct rs; [done|]. by rewrite enc_cons in Hv.
Qed.

Lemma clear_device kv f G l g r rs :
  reg_inv kv f G → fits kv G → G !! l = Some g → g_rank g = Some r →
  let s := p_sender (g_pub g) in
  tab_inv kv (queue f (TDev s)) G (TDev s) rs →
  ∃ kv', ClearDeviceInfo (mkRankInfo r (auto_key (p_name (g_pub g))) (device_of g) (slices_of g)) kv f =
      (kv', set_queue f (TDev s) (queue f (TDev s) ++ (g_dev g).*1)) ∧
    default [] (kv' !! tab_key (TDev s)) = enc (marks rs (g_dev g)) ∧
    kv' !! count_key s = (if g_dcnt g then Some (to_string (counted G s - 1)) else kv !! count_key s) ∧
    ∀ k, k ≠ tab_key (TDev s) → k ≠ count_key s → kv' !! k = kv !! k.
Proof.
  intros Hi Hf Hg Hr s Ht. destruct (ri_pubs _ _ _ Hi l g Hg) as [_ (_ & Hone & Hdc & _)].
  pose proof (no_empty_key _ _ _ Hi) as He. unfold ClearDeviceInfo. cbn [dInfo]. unfold device_of. fold s.
  destruct (g_dev g) as [|[id d] xs] eqn:Ed.
  { cbn [deviceInfoKey deviceCountKey bk_Get local_backend]. unfold local_Get. rewrite He. cbn [Z.eqb SUCCESS NOT_EXIST].
    rewrite lower_count_absent by done. exists kv. rewrite app_nil_r, set_queue_id. split_and!; try done.
    - apply Ht.
    - destruct (g_dcnt g); [by destruct Hdc|done]. }
  destruct xs; [|cbn in Hone; lia]. pose proof Ht as [_ Htab Ho _ Hl].
  assert (owners G (TDev s) l = [(id, d)]) as Hown.
  { rewrite (owners_old G l g Hg). unfold owned. rewrite decide_True by done. done. }
  assert ((id, d) ∈ owners G (TDev s) l) as Hin by (rewrite Hown; by left).
  assert (kv !! tab_key (TDev s) = Some (enc rs)) as Hk.
  { apply (owned_stored _ _ _ _ _ _ _ Ht Hg). rewrite <- (owners_old G l g Hg), Hown. done. }
  assert (0 ≤ id < 65535) as Hid.
  { apply (claim_bound kv f G l g (TDev s) id Hi Hf Hg). rewrite <- (claims_old G l g Hg). by eapply owner_claim. }
  cbn [deviceInfoKey deviceCountKey deiviceInfoUint deviceInfoId bk_Get local_backend]. unfold local_Get.
  rewrite Hk. cbn [Z.eqb SUCCESS]. rewrite push_device_queue.
  pose proof (mark_enc (TDev s) rs (id, d) NORMAL Htab ltac:(cbn; lia) (Ho _ _ _ Hin)) as Em.
  cbn [fst] in Em. rewrite Em.
  cbn [bk_Put local_backend local_Put Z.eqb SUCCESS negb].
  destruct (g_dcnt g) eqn:Edc.
  - pose proof (counted_bound G s) as Hb. pose proof (proj2 Hf) as Hsize.
    assert (kv !! count_key s = Some (to_string (counted G s))) as Ec.
    { destruct (ri_count _ _ _ Hi s) as [[_ H0]|?]; [|done]. exfalso. unfold counted in H0.
      assert (filter (counts s) G !! l = Some g) as Hx by (by apply map_lookup_filter_Some_2).
      destruct (map_size_non_empty_iff (filter (counts s) G)) as [_ Hne]. apply Hne; [|lia]. intros E. by rewrite E in Hx. }
    eexists. rewrite (lower_count_to_string _ _ _ (counted G s)).
    + split; [reflexivity|]. rewrite lookup_insert_ne by key_ne. rewrite lookup_insert_eq. split_and!; [done| |].
      * rewrite lookup_insert_eq, i64_small by lia. done.
      * intros k H1 H2. by rewrite !lookup_insert_ne by done.
    + rewrite lookup_insert_ne by key_ne. done.
    + unfold I64_MIN, I64_MAX. lia.
  - eexists. rewrite lower_count_absent by (rewrite lookup_insert_ne by key_ne; done). split; [reflexivity|].
    rewrite lookup_insert_eq. split_and!; [done| |].
    + rewrite lookup_insert_ne by key_ne. done.
    + intros k H1 H2. by rewrite lookup_insert_ne by done.
Qed.

Definition numbered (o : option bytes) : Prop := ∀ v, o = Some v → ∃ m, I64_MIN ≤ m ≤ I64_MAX ∧ v = to_string m.

Lemma clear_slices kv kv0 f f0 G l g r rs :
  reg_inv kv0 f0 G → fits kv0 G → G !! l = Some g → g_rank g = Some r →
  let s := p_sender (g_pub g) in
  tab_inv kv0 (queue f0 (TSlice s)) G (TSlice s) rs →
  kv !! ""%string = None → kv !! tab_key (TSlice s) = kv0 !! tab_key (TSlice s) →
  kv !! scount_key s = kv0 !! scount_key s →
  ∃ kv', ClearSliceInfo (mkRankInfo r (auto_key (p_name (g_pub g))) (device_of g) (slices_of g)) kv f =
      (kv', set_queue f (TSlice s) (queue f (TSlice s) ++ (g_sl g).*1)) ∧
    default [] (kv' !! tab_key (TSlice s)) = enc (marks rs (g_sl g)) ∧ numbered (kv' !! scount_key s) ∧
    ∀ k, k ≠ tab_key (TSlice s) → k ≠ scount_key s → kv' !! k = kv !! k.
Proof.
  intros Hi Hf Hg Hr s Ht He Ek Esc. destruct (ri_pubs _ _ _ Hi l g Hg) as [_ (_ & _ & _ & Hsc)].
  assert (∀ kv' n out, kv' !! scount_key s = kv !! scount_key s → kv' !! ""%string = None →
    let kv2 := lower_count kv' (if g_scnt g then at_ (k_sliceCount (keys_of s)) else "") n out in
    numbered (kv2 !! scount_key s) ∧ ∀ k, k ≠ scount_key s → kv2 !! k = kv' !! k) as Hlow.
  { intros kv' n out E1 E2. pose proof (ri_scount _ _ _ Hi s) as Hnum. rewrite Esc in E1. rewrite <- E1 in Hnum.
    destruct (g_scnt g).
    - fold (scount_key s). cbn zeta. destruct (kv' !! scount_key s) as [v|] eqn:Ev.
      + destruct (Hnum v eq_refl) as (m & Hm & ->). rewrite (lower_count_to_string _ _ _ m) by done.
        split; [rewrite lookup_insert_eq; intros v [= <-]; eexists; split; [apply i64_bounds|done]|].
        intros k Hk. by rewrite lookup_insert_ne.
      + rewrite lower_count_absent by done. rewrite Ev. done.
    - cbn zeta. rewrite lower_count_absent by done. split; [exact Hnum|done]. }
  unfold ClearSliceInfo. cbn [sInfo]. unfold slices_of. fold s. cbn [sliceInfoKey sliceCountKey sliceInfoId sliceInfoUint].
  cbn [bk_Get local_backend]. unfold local_Get. destruct (decide (g_sl g = [])) as [E0|Hne].
  { rewrite E0, He. cbn [Z.eqb SUCCESS NOT_EXIST]. eexists. rewrite app_nil_r, set_queue_id. split; [reflexivity|].
    destruct (Hlow kv (len (@nil Z)) [] eq_refl He) as [H1 H2]. split_and!; [|done|by intros; apply H2].
    rewrite H2 by key_ne. rewrite Ek. apply Ht. }
  assert (owned g (TSlice s) = g_sl g) as Eo by (unfold owned; by rewrite decide_False, decide_True).
  assert (kv !! tab_key (TSlice s) = Some (enc rs)) as Hk.
  { rewrite Ek. apply (owned_stored _ _ _ _ _ _ _ Ht Hg). by rewrite Eo. }
  assert (∀ A (a b : A), match g_sl g with [] => a | _ :: _ => b end = b) as Hm by (intros; by destruct (g_sl g)).
  rewrite !Hm, Hk. cbn [Z.eqb SUCCESS]. rewrite mark_slices_enc.
  - cbn [bk_Put local_backend local_Put Z.eqb SUCCESS negb]. eexists. split; [reflexivity|].
    edestruct Hlow as [H1 H2]; [| |split_and!; [|exact H1|]].
    + rewrite lookup_insert_ne by key_ne. done.
    + rewrite lookup_insert_ne by key_ne. done.
    + rewrite H2 by key_ne. by rewrite lookup_insert_eq.
    + intros k H3 H4. rewrite H2 by done. by rewrite lookup_insert_ne.
  - apply Ht.
  - intros [i d] Hx. assert ((i, d) ∈ owners G (TSlice s) l) as Hin by (by rewrite (owners_old G l g Hg), Eo).
    split; [|eexists; by apply (ti_owned _ _ _ _ _ Ht l)].
    pose proof (claim_bound kv0 f0 G l g (TSlice s) i Hi Hf Hg) as Hb. cbn. rewrite <- (claims_old G l g Hg) in Hb.
    apply owner_claim in Hin. apply Hb in Hin. lia.
Qed.

Lemma counted_delete G l g s :
  G !! l = Some g →
  counted (delete l G) s = counted G s - (if decide (counts s (l, g)) then 1 else 0).
Proof.
  intros Hg. unfold counted. rewrite map_filter_delete. case_decide as Hc.
  - assert (filter (counts s) G !! l = Some g) as Hx by (by apply map_lookup_filter_Some_2).
    rewrite (map_size_delete_Some l) by eauto.
    assert (size (filter (counts s) G) ≠ 0%nat) as Hne by (apply map_size_ne_0_lookup; eauto). lia.
  - rewrite map_size_delete_None; [lia|]. apply map_lookup_filter_None. right. intros g0 Hg0. congruence.
Qed.

Record gone (kv kv' : Kv) (f f' : SmemStoreFaultHandler) (G : gmap Z LinkG) (l : Z) (g : LinkG) : Prop := {
  go_keys : ∀ k, is_Some (kv' !! k) → is_Some (kv !! k) ∨ String.prefix (keyPrefix session) k = true;
  go_same : ∀ k, k = tab_key TRank ∨ (∃ s, k = at_ (k_getDeviceId (keys_of s)) ∨ k = at_ (k_getSliceId (keys_of s))) ∨
    (∃ n, k = auto_key n ∧ n ≠ p_name (g_pub g)) → kv' !! k = kv !! k;
  go_auto : kv' !! auto_key (p_name (g_pub g)) = None;
  go_undefined : undefined f' = undefined f;
  go_links : linkIdToRankInfoMap_ f' = delete l (linkIdToRankInfoMap_ f);
  go_queue : ∀ T, queue f' T = queue f T ++ (if decide (T = TRank) then option_list (g_rank g) else (owned g T).*1);
  go_tab : ∀ T rs, T ≠ TRank → tab_inv kv (queue f T) G T rs →
    default [] (kv' !! tab_key T) = enc (marks rs (owned g T));
  go_count : ∀ s, kv' !! count_key s =
    if decide (counts s (l, g)) then Some (to_string (counted G s - 1)) else kv !! count_key s;
  go_scount : ∀ s, numbered (kv' !! scount_key s);
}.

Lemma inv_gone kv kv' f f' G l g :
  reg_inv kv f G → G !! l = Some g → gone kv kv' f f' G l g → reg_inv kv' f' (delete l G).
Proof.
  intros Hi Hg Ho.
  assert (∀ l' g', delete l G !! l' = Some g' → l' ≠ l ∧ G !! l' = Some g') as Hsub.
  { intros l' g' [? ?]%lookup_delete_Some. split; [congruence|done]. }
  split.
  - intros k [Hk|Hk]%(go_keys _ _ _ _ _ _ _ Ho); [by apply Hi|done].
  - intros s. rewrite !(go_same _ _ _ _ _ _ _ Ho) by naive_solver. apply Hi.
  - rewrite (go_undefined _ _ _ _ _ _ _ Ho). apply Hi.
  - intros l'. rewrite (go_links _ _ _ _ _ _ _ Ho). destruct (decide (l' = l)) as [->|]; [by rewrite !lookup_delete_eq|].
    rewrite !lookup_delete_ne by done. apply Hi.
  - intros l' g' [_ Hg']%Hsub. by apply (ri_pubs _ _ _ Hi l').
  - intros l1 l2 g1 g2 [_ H1]%Hsub [_ H2]%Hsub. by apply (ri_names _ _ _ Hi).
  - intros n Hn. destruct (decide (n = p_name (g_pub g))) as [->|Hne].
    { rewrite (go_auto _ _ _ _ _ _ _ Ho) in Hn. by destruct Hn. }
    rewrite (go_same _ _ _ _ _ _ _ Ho) in Hn by eauto 6. destruct (ri_auto _ _ _ Hi n Hn) as (l1 & g1 & Hg1 & Hs & <-).
    exists l1, g1. rewrite lookup_delete_ne; [done|]. intros <-. congruence.
  - destruct (ri_rank _ _ _ Hi) as (n & Hn & Hl & Hld). exists n.
    rewrite (go_same _ _ _ _ _ _ _ Ho) by auto. split_and!; [done..|].
    rewrite (go_queue _ _ _ _ _ _ _ Ho TRank), decide_True by done.
    apply (ledger_drop _ (claims G TRank) _ l); [|done| | |].
    + intros l' Hne. unfold claims. by rewrite lookup_delete_ne.
    + unfold claims. by rewrite lookup_delete_eq.
    + destruct (g_rank g); cbn; [by apply NoDup_singleton|constructor].
    + intros x Hx. rewrite (claims_old G l g Hg). unfold claim. rewrite decide_True by done.
      apply elem_of_app. right. apply elem_of_app. by left.
  - intros T HT. destruct (ri_tab _ _ _ Hi T HT) as [rs Ht]. eexists.
    rewrite (go_queue _ _ _ _ _ _ _ Ho T), decide_False by done.
    eapply tab_drop; [exact Ht|done|done|]. by apply (go_tab _ _ _ _ _ _ _ Ho).
  - intros s. unfold count_inv. rewrite (go_count _ _ _ _ _ _ _ Ho), (counted_delete G l g s Hg).
    destruct (decide (counts s (l, g))); [by right|]. rewrite Z.sub_0_r. apply Hi.
  - intros s. apply (go_scount _ _ _ _ _ _ _ Ho).
Qed.

Lemma gone_unranked kv f G l g :
  reg_inv kv f G → G !! l = Some g → g_rank g = None → gone kv kv f f G l g.
Proof.
  intros Hi Hg Hr. destruct (ri_pubs _ _ _ Hi l g Hg) as [_ (Hw & _)]. destruct (Hw Hr) as (Ed & Es & Edc & _).
  assert (∀ T, owned g T = []) as Ho by (intros T; unfold owned; rewrite Ed, Es; by repeat case_decide).
  split; try done.
  - auto.
  - by apply (unregistered kv f G l).
  - rewrite delete_id; [done|]. rewrite (ri_links _ _ _ Hi l), Hg. cbn. unfold info_of. by rewrite Hr.
  - intros T. rewrite Ho, Hr. case_decide; by rewrite app_nil_r.
  - intros T rs HT Ht. rewrite Ho. apply Ht.
  - intros s. rewrite decide_False; [done|]. intros [_ Hc]. cbn in Hc. congruence.
  - intros s. exact (ri_scount _ _ _ Hi s).
Qed.

Lemma gone_ranked kv f G l g r :
  reg_inv kv f G → fits kv G → G !! l = Some g → g_rank g = Some r →
  let '(kv', f') := ClearFaultInfo l kv f in gone kv kv' f f' G l g.
Proof.
  intros Hi Hf Hg Hr. unfold ClearFaultInfo. rewrite (ri_links _ _ _ Hi l), Hg. cbn [mbind option_bind].
  unfold info_of. rewrite Hr. cbn [mbind option_bind]. set (s := p_sender (g_pub g)).
  destruct (ri_tab _ _ _ Hi (TDev s) ltac:(done)) as [rd Htd]. destruct (ri_tab _ _ _ Hi (TSlice s) ltac:(done)) as [rl Htl].
  destruct (clear_device kv f G l g r rd Hi Hf Hg Hr Htd) as (kv1 & -> & Hd1 & Hc1 & Ho1). fold s in Hd1, Hc1, Ho1 |- *.
  set (f1 := set_queue f (TDev s) _).
  destruct (clear_slices kv1 kv f1 f G l g r rl Hi Hf Hg Hr Htl) as (kv2 & -> & Hd2 & Hn2 & Ho2).
  { rewrite Ho1 by key_ne. by eapply no_empty_key. }
  { fold s. apply Ho1; clear; clearbody s; key_ne. }
  { fold s. apply Ho1; clear; clearbody s; key_ne. }
  fold s in Hd2, Hn2, Ho2 |- *. cbn [bk_Delete local_backend local_Delete rankName rankId].
  assert (∀ k, k ≠ tab_key (TDev s) → k ≠ count_key s → k ≠ tab_key (TSlice s) → k ≠ scount_key s → kv2 !! k = kv !! k) as Hoth.
  { intros k H1 H2 H3 H4. by rewrite Ho2, Ho1. }
  assert (owned g (TDev s) = g_dev g ∧ owned g (TSlice s) = g_sl g) as [Eod Eos]
    by (unfold owned; split; [by rewrite decide_True|by rewrite decide_False, decide_True]).
  assert (∀ s', s' ≠ s → owned g (TDev s') = [] ∧ owned g (TSlice s') = []) as Eo'.
  { intros s' Hne. unfold owned, my_tab. fold s. by rewrite !decide_False by congruence. }
  split.
  - intros k [v Hv]. apply lookup_delete_Some in Hv as [_ Hv].
    destruct (decide (k = tab_key (TDev s))) as [->|H1]; [right; apply at_prefix|].
    destruct (decide (k = count_key s)) as [->|H2]; [right; apply at_prefix|].
    destruct (decide (k = tab_key (TSlice s))) as [->|H3]; [right; apply at_prefix|].
    destruct (decide (k = scount_key s)) as [->|H4]; [right; apply at_prefix|].
    left. rewrite <- Hoth by done. eauto.
  - intros k Hk. rewrite lookup_delete_ne.
    + apply Hoth; destruct Hk as [->|[[s' [->| ->]]|[n [-> _]]]]; clear; clearbody s; key_ne.
    + destruct Hk as [->|[[s' [->| ->]]|[n [-> Hn]]]]; [clear; key_ne..|]. intros E%auto_key_inj. congruence.
  - by rewrite lookup_delete_eq.
  - by destruct s.
  - by destruct s.
  - intros T. cbn [linkIdToRankInfoMap_]. destruct T as [|s'|s']; cbn [queue set_links].
    + rewrite decide_True, Hr by done. by destruct s.
    + rewrite decide_False by done. destruct (decide (s' = s)) as [->|Hne].
      * rewrite Eod. by destruct s.
      * rewrite (proj1 (Eo' _ Hne)), app_nil_r. unfold f1. clear -Hne. destruct f as [? ? [] [] ?]. clearbody s. by destruct s, s'.
    + rewrite decide_False by done. destruct (decide (s' = s)) as [->|Hne].
      * rewrite Eos. unfold f1. clear. destruct f as [? ? [] [] ?]. clearbody s. by destruct s.
      * rewrite (proj2 (Eo' _ Hne)), app_nil_r. unfold f1. clear -Hne. destruct f as [? ? [] [] ?]. clearbody s. by destruct s, s'.
  - intros T rs HT Ht. rewrite lookup_delete_ne by (clear; key_ne).
    assert (∀ rs', tab_inv kv (queue f T) G T rs' → rs' = rs) as Huniq.
    { intros rs' Ht'. apply (enc_inj (data_size T)); [apply Ht'|apply Ht|].
      by rewrite <- (ti_value _ _ _ _ _ Ht'), <- (ti_value _ _ _ _ _ Ht). }
    destruct T as [|s'|s']; [done|..]; destruct (decide (s' = s)) as [->|Hne].
    + rewrite Eod, Ho2 by (clear; clearbody s; key_ne). by rewrite <- (Huniq rd Htd).
    + rewrite (proj1 (Eo' _ Hne)), Hoth by (clear -Hne; clearbody s; key_ne). apply Ht.
    + rewrite Eos. by rewrite <- (Huniq rl Htl).
    + rewrite (proj2 (Eo' _ Hne)), Hoth by (clear -Hne; clearbody s; key_ne). apply Ht.
  - intros s'. rewrite lookup_delete_ne by (clear; key_ne). destruct (decide (s' = s)) as [->|Hne].
    + rewrite Ho2, Hc1 by (clear; clearbody s; key_ne).
      destruct (decide (counts s (l, g))) as [[_ E]|Hn]; cbn in *; [by rewrite E|].
      destruct (g_dcnt g) eqn:E; [|done]. exfalso. by apply Hn.
    + rewrite decide_False by (by intros [E _]; apply Hne). by rewrite Hoth by (clear -Hne; clearbody s; key_ne).
  - intros s'. rewrite lookup_delete_ne by (clear; key_ne). destruct (decide (s' = s)) as [->|Hne]; [done|].
    rewrite Hoth by (clear -Hne; clearbody s; key_ne). exact (ri_scount _ _ _ Hi s').
Qed.

Lemma inv_break kv f G l g :
  reg_inv kv f G → fits kv G → G !! l = Some g →
  let '(kv', f') := ClearFaultInfo l kv f in reg_inv kv' f' (delete l G).
Proof.
  intros Hi Hf Hg. destruct (g_rank g) as [r|] eqn:Hr.
  - pose proof (gone_ranked kv f G l g r Hi Hf Hg Hr) as Ho. destruct (ClearFaultInfo l kv f) as [kv' f'].
    by apply (inv_gone kv kv' f f' G l g).
  - unfold ClearFaultInfo. rewrite (ri_links _ _ _ Hi l), Hg. cbn. unfold info_of. rewrite Hr. cbn.
    apply (inv_gone kv kv f f G l g); [done..|]. by apply gone_unranked.
Qed.

(** ** A link connects *)
Lemma inv_connect kv f G l p :
  reg_inv kv f G → G !! l = None → pub_ok p → (∀ l' g', G !! l' = Some g' → p_name (g_pub g') ≠ p_name p) →
  reg_inv kv f (<[l := g_new p]> G).
Proof.
  intros Hi Hg Hp Hn.
  assert (∀ T, claim (g_new p) T = [] ∧ owned (g_new p) T = []) as Hnil
    by (intros T; unfold claim, owned; repeat case_decide; done).
  assert (∀ T l', claims (<[l := g_new p]> G) T l' = claims G T l') as Hcl.
  { intros T l'. unfold claims. destruct (decide (l' = l)) as [->|]; [|by rewrite lookup_insert_ne].
    rewrite lookup_insert_eq, Hg. apply Hnil. }
  assert (∀ T l', owners (<[l := g_new p]> G) T l' = owners G T l') as Hown.
  { intros T l'. unfold owners. destruct (decide (l' = l)) as [->|]; [|by rewrite lookup_insert_ne].
    rewrite lookup_insert_eq, Hg. apply Hnil. }
  assert (∀ q T n, ledger q (claims G T) n → ledger q (claims (<[l := g_new p]> G) T) n) as Hled.
  { intros q T n Hl. by apply (ledger_perm q (claims G T) _ l); [by intros; rewrite Hcl|..|rewrite Hcl]. }
  split; try apply Hi.
  - intros l'. rewrite (ri_links _ _ _ Hi l'). destruct (decide (l' = l)) as [->|]; [|by rewrite lookup_insert_ne].
    by rewrite lookup_insert_eq, Hg.
  - intros l' g' [[<- <-]|[_ Hg']]%lookup_insert_Some; [|by apply (ri_pubs _ _ _ Hi l')].
    split; [done|]. unfold link_wf. cbn. split_and!; try done. lia.
  - intros l1 l2 g1 g2 [[<- <-]|[_ H1]]%lookup_insert_Some [[<- <-]|[_ H2]]%lookup_insert_Some E; try done.
    + by destruct (Hn _ _ H2).
    + by destruct (Hn _ _ H1).
    + by apply (ri_names _ _ _ Hi l1 l2 g1 g2).
  - intros n Hk. destruct (ri_auto _ _ _ Hi n Hk) as (l1 & g1 & Hg1 & Hr). exists l1, g1.
    rewrite lookup_insert_ne by congruence. done.
  - destruct (ri_rank _ _ _ Hi) as (n & H0 & H1 & H2). exists n. auto.
  - intros T HT. destruct (ri_tab _ _ _ Hi T HT) as [rs [Hv Ht Ho Hno Hl]]. exists rs. split; [done|done|..|by apply Hled].
    + intros l' i d. rewrite Hown. apply Ho.
    + intros i r Hr Hnr. destruct (Hno i r Hr Hnr) as [l' Hl']. exists l'. by rewrite Hown.
  - intros s. unfold count_inv, counted. rewrite map_filter_insert_False by (by intros [_ ?]).
    rewrite delete_id by done. apply Hi.
Qed.

(** Nothing is registered at the start. *)
Lemma inv_new : reg_inv ∅ fault_new ∅.
Proof.
  assert (∀ T n, 0 ≤ n → ledger (queue fault_new T) (claims ∅ T) n) as Hl.
  { intros T n Hn. unfold claims. destruct T as [|[]|[]]; cbn; split; try constructor; set_solver. }
  split; try done.
  - intros k [v Hv]. by rewrite lookup_empty in Hv.
  - intros n [v Hv]. by rewrite lookup_empty in Hv.
  - exists 0. rewrite lookup_empty. split_and!; [done..|]. by apply Hl.
  - intros T _. exists []. split; try done; [by constructor|by intros l i d ?%not_elem_of_nil|by apply Hl].
  - intros s. left. rewrite lookup_empty. split; [done|]. unfold counted. by rewrite map_filter_empty, map_size_empty.
Qed.
End Registry.
