(* ===== verification/TransSystemSpec.v ===== *)
(** * The trans registry as a system

    Clients connect, run Initialize and register their memories one store call
    at a time, in any interleaving, and their links break at any point.  Proved
    of every state so reached: no call is left without answer and none fails, a
    record marked normal belongs to a live link, and once the live links have
    published, the tables hold exactly their records and the count is theirs. *)
From Stdlib Require Import Strings.Byte Strings.String.
From stdpp Require Import base numbers list gmap strings.
From S2P Require Import Prelude SmemTypes StrUtil MessagePacker StoreBackend StoreServer StoreServerSpec StoreClient.
From S2P Require Import StoreClientSpec TransFault TransHelper TransHelperSpec TransEntrySpec TransServerSpec TransRegistrySpec.
Local Open Scope Z_scope.

Section System.
Context (junk : Z) (csz : nat) (dsz ssz : bool → nat).
Local Abbreviation pub_ok := (pub_ok csz dsz ssz).
Local Abbreviation unit_of := (unit_of csz dsz ssz).
Local Abbreviation reg_inv := (reg_inv junk csz dsz ssz).
Local Abbreviation wp := (wp junk csz dsz ssz).

(** ** The publisher's program

    Initialize, with a hybm entity that exports [p_info], then the registration
    of its memories, of which the calls to the store. *)
Definition role_of (p : Publisher) : smem_trans_role := if p_sender p then SMEM_TRANS_SENDER else SMEM_TRANS_RECEIVER.
Definition publish (p : Publisher) : store_prog Called :=
  x ← trans_Initialize (helper_new (p_name p)) (role_of p) true (p_cfg p) true SMEMB_DATA_OP_SDMA true
        (SM_OK, p_info p) (SM_OK, Z.of_nat (ssz (p_sender p)));
  match x with
  | None => Ret None
  | Some (h, ret, _) =>
      if negb (ret =? SM_OK) then Ret (Some (h, ret)) else register_memories h (p_slices p)
  end.

(** ** The system *)
Record Sys := mkSys { y_server : HServer; y_links : gmap Z (Publisher * store_prog Called) }.
Definition y_kv (y : Sys) : Kv := h_store (backend (y_server y)).
Definition y_fault (y : Sys) : SmemStoreFaultHandler := h_fault (backend (y_server y)).
Definition sys_new (world : Z) : Sys :=
  mkSys (RegisterHandlerToStore junk (server_new world (mkHosted ∅ fault_new))) ∅.

Inductive Event :=
| EConnect (l : Z) (p : Publisher)
| ECall (l : Z) (e : Env) (seqNo : Z) (stale : bool)
| EBreak (l : Z).

(** A client connects under a name no live client has; the oldest call of a
    client is carried out and answered; a link breaks. *)
Inductive sys_step : Sys → Event → Sys → Prop :=
| step_connect y l p :
    y_links y !! l = None → pub_ok p →
    (∀ l' p' k, y_links y !! l' = Some (p', k) → p_name p' ≠ p_name p) →
    sys_step y (EConnect l p)
      (mkSys (LinkConnectedHandler (y_server y) l (conn_rankId 0 (-1))).1 (<[l := (p, publish p)]> (y_links y)))
| step_call y l e n stale p op k s' o :
    y_links y !! l = Some (p, Act op k) →
    store_call (serve_one e (mkCtx l n)) stale (y_server y) (sop_at session op) = (s', Some o) →
    sys_step y (ECall l e n stale) (mkSys s' (<[l := (p, k o)]> (y_links y)))
| step_break y l x s' ret :
    y_links y !! l = Some x → LinkBrokenHandler (y_server y) l = Some (s', ret) →
    sys_step y (EBreak l) (mkSys s' (delete l (y_links y))).

(** The bounds of the 16-bit slots, and of the count. *)
Definition sys_fits (y : Sys) : Prop :=
  (∀ T, len (default [] (y_kv y !! tab_key T)) ≤ 65535 * Z.of_nat (unit_of T)) ∧
  Z.of_nat (size (y_links y)) < 2 ^ 31.
Inductive reach (world : Z) : list Event → Sys → Prop :=
| reach_new : reach world [] (sys_new world)
| reach_step evs y ev y' : reach world evs y → sys_step y ev y' → sys_fits y' → reach world (evs ++ [ev]) y'.

(** ** What the publisher's program establishes *)
Context (Hsz : sizes_ok csz dsz ssz).
Definition published (p : Publisher) (g : LinkG) (x : Called) : Prop :=
  ∃ h r i, x = Some (h, SM_OK) ∧ g_pub g = p ∧ g_fly g = None ∧
    g_rank g = Some r ∧ storeRankIdInfo_ h = (r, p_cfg p) ∧
    g_dev g = [(i, p_info p)] ∧ g_dcnt g = true ∧ storeDeviceInfo_ h = (i, NORMAL :: p_info p) ∧
    storeSliceInfo_ h = (λ x, (x.1, NORMAL :: x.2)) <$> g_sl g ∧ (g_sl g).*2 = (λ x, x.2 ++ x.1) <$> p_slices p.

(** The state between the registrations: [todo] slices are left. *)
Definition publishing (p : Publisher) (g : LinkG) (h : SmemStoreHelper) (done todo : list (bytes * bytes)) : Prop :=
  localKeys_ h = keys_of (p_sender p) ∧ p_slices p = done ++ todo ∧
  ∃ r i, g_pub g = p ∧ g_fly g = None ∧ g_rank g = Some r ∧ storeRankIdInfo_ h = (r, p_cfg p) ∧
    g_dev g = [(i, p_info p)] ∧ g_dcnt g = true ∧ storeDeviceInfo_ h = (i, NORMAL :: p_info p) ∧
    storeSliceInfo_ h = (λ x, (x.1, NORMAL :: x.2)) <$> g_sl g ∧ (g_sl g).*2 = (λ x, x.2 ++ x.1) <$> done.

Lemma wp_register_memories p l todo : pub_ok p →
  ∀ done g h, publishing p g h done todo → wp l g (register_memories h todo) (published p).
Proof.
  intros Hp. induction todo as [|[info si] todo IH]; intros done g h (Hk & Es & r & i & E1 & E2 & E3 & E4 & E5 & E6 & E7 & E8 & E9).
  - cbn [register_memories TransRegistrySpec.wp]. exists h, r, i. rewrite app_nil_r in Es. split_and!; try done. by rewrite Es.
  - cbn [register_memories]. apply wp_bind. destruct Hp as (_ & _ & Hsl & _).
    assert (List.length si = 48%nat ∧ List.length info = ssz (p_sender p)) as [H1 H2].
    { rewrite Es in Hsl. by apply Forall_app in Hsl as [_ [? _]%Forall_cons]. }
    apply (wp_StoreSliceInfo junk csz dsz ssz Hsz l g r h); rewrite ?E1; [done..|].
    intros x _. cbn [negb Z.eqb SM_OK].
    apply (IH (done ++ [(info, si)])). split_and!; [done|by rewrite <- app_assoc|].
    exists r, i. split_and!; try done.
    + cbn [add_sliceInfo storeSliceInfo_ g_count g_own g_sl]. by rewrite fmap_app, E8.
    + cbn [g_count g_own g_sl]. by rewrite !fmap_app, E9.
Qed.

Lemma wp_publish p l : pub_ok p → wp l (g_new p) (publish p) (published p).
Proof.
  intros Hp. pose proof Hp as (Hc & Hd & _). unfold publish, trans_Initialize. apply wp_bind. cbn [negb].
  destruct (helper_Initialize (helper_new (p_name p)) (role_of p)) as [ret h] eqn:Eh.
  assert (ret = SM_OK ∧ name_ h = p_name p ∧ localKeys_ h = keys_of (p_sender p) ∧ storeSliceInfo_ h = [])
    as (-> & Hn & Hk & Hs) by (unfold role_of in Eh; destruct (p_sender p); by injection Eh as <- <-).
  cbn [negb Z.eqb SM_OK]. apply wp_bind.
  apply (wp_GenerateRankId junk csz dsz ssz Hsz); [done..|]. intros r _. unfold ExportExchangeInfo. cbn -[StoreDeviceInfo]. apply wp_bind.
  apply (wp_StoreDeviceInfo junk csz dsz ssz Hsz l _ r); [done..|]. intros i _. cbn [negb Z.eqb SM_OK TransRegistrySpec.wp].
  apply (wp_register_memories p l (p_slices p) Hp []). split_and!; [done..|]. by exists r, i.
Qed.

(** ** The invariant of the system *)
Record sys_inv (y : Sys) (G : gmap Z LinkG) : Prop := {
  si_host : hosting junk (y_server y);
  si_reg : reg_inv (y_kv y) (y_fault y) G;
  si_dom : dom G = dom (y_links y);
  si_prog : ∀ l p prog, y_links y !! l = Some (p, prog) →
    ∃ g, G !! l = Some g ∧ g_pub g = p ∧ wp l g prog (published p);
}.

Lemma sys_fits_fits y G kv L :
  sys_fits y → dom G = dom (y_links y) → y_kv y = kv → L = y_links y → fits csz dsz ssz kv G.
Proof.
  intros [H1 H2] Hd <- ->. split; [done|]. by rewrite <- size_dom, Hd, size_dom.
Qed.
Lemma sys_inv_live y G l g : sys_inv y G → G !! l = Some g → ∃ prog, y_links y !! l = Some (g_pub g, prog).
Proof.
  intros Hi Hg. assert (l ∈ dom (y_links y)) as [[p prog] Hl]%elem_of_dom.
  { rewrite <- (si_dom _ _ Hi). by apply elem_of_dom_2 in Hg. }
  destruct (si_prog _ _ Hi _ _ _ Hl) as (g' & Hg' & <- & _). simplify_eq. eauto.
Qed.

Lemma sys_inv_connect y G l p :
  sys_inv y G → y_links y !! l = None → pub_ok p →
  (∀ l' p' k, y_links y !! l' = Some (p', k) → p_name p' ≠ p_name p) →
  sys_inv (mkSys (LinkConnectedHandler (y_server y) l (conn_rankId 0 (-1))).1 (<[l := (p, publish p)]> (y_links y)))
    (<[l := g_new p]> G).
Proof.
  intros Hi Hl Hp Hn.
  assert (∃ w, (LinkConnectedHandler (y_server y) l (conn_rankId 0 (-1))).1 = set_ranks (y_server y) w
    (rankIndex (y_server y)) (aliveRankSet (y_server y))) as [w Es].
  { unfold LinkConnectedHandler. destruct (_ =? U32_MAX); [eexists; reflexivity|].
    exists (worldSize (y_server y)). by destruct (y_server y). }
  rewrite Es. destruct Hi as [Hh Hr Hd Hpr]. split; cbn [y_server y_links].
  - destruct Hh. by split.
  - apply inv_connect; [done| |done|].
    + apply not_elem_of_dom. rewrite Hd. by apply not_elem_of_dom.
    + intros l' g' Hg'. destruct (sys_inv_live y G l' g') as [prog Hl']; [done..|]. by eapply Hn.
  - by rewrite !dom_insert_L, Hd.
  - intros l' p' prog [[<- [= <- <-]]|[Hne Hl']]%lookup_insert_Some.
    + exists (g_new p). rewrite lookup_insert_eq. split_and!; [done..|]. by apply wp_publish.
    + destruct (Hpr _ _ _ Hl') as (g' & Hg' & Ep & Hw). exists g'. by rewrite lookup_insert_ne.
Qed.

(** A call is carried out and answered. *)
Lemma sys_inv_call y G l p op k e n stale :
  sys_inv y G → sys_fits y → y_links y !! l = Some (p, Act op k) →
  ∃ s' o, store_call (serve_one e (mkCtx l n)) stale (y_server y) (sop_at session op) = (s', Some o) ∧
    (sys_fits (mkSys s' (<[l := (p, k o)]> (y_links y))) →
     ∃ G', sys_inv (mkSys s' (<[l := (p, k o)]> (y_links y))) G').
Proof.
  intros Hi Hf Hl. destruct (si_prog _ _ Hi _ _ _ Hl) as (g & Hg & Ep & Hw). destruct Hi as [Hh Hr Hd Hpr].
  assert (fits csz dsz ssz (y_kv y) G) as Hfit by (by eapply sys_fits_fits).
  destruct (Hw _ _ _ Hfit Hr Hg) as (kv' & f' & o & g' & E & Hok & Hpost).
  exists (set_backend (y_server y) (mkHosted kv' f')), o. split; [by eapply store_call_exec|].
  assert (dom (<[l := g']> G) = dom (<[l := (p, k o)]> (y_links y))) as Hd' by (by rewrite !dom_insert_L, Hd).
  intros Hf'. destruct Hpost as [Hr' [Ep' Hw']]; [by eapply (sys_fits_fits _ _ _ _ Hf')|].
  exists (<[l := g']> G). split; cbn [y_server y_links]; [by apply hosting_backend|done|done|].
  intros l' p' prog [[<- [= <- <-]]|[Hne Hl']]%lookup_insert_Some.
  - exists g'. rewrite lookup_insert_eq, Ep'. done.
  - destruct (Hpr _ _ _ Hl') as (g1 & Hg1 & ? & ?). exists g1. by rewrite lookup_insert_ne.
Qed.

Lemma sys_inv_break y G l x :
  sys_inv y G → sys_fits y → y_links y !! l = Some x →
  ∃ s', LinkBrokenHandler (y_server y) l = Some (s', SM_OK) ∧ sys_inv (mkSys s' (delete l (y_links y))) (delete l G).
Proof.
  intros Hi Hf Hl. destruct x as [p prog]. destruct (si_prog _ _ Hi _ _ _ Hl) as (g & Hg & _).
  destruct Hi as [Hh Hr Hd Hpr]. assert (fits csz dsz ssz (y_kv y) G) as Hfit by (by eapply sys_fits_fits).
  destruct (link_broken_exec junk (y_server y) l Hh) as (s' & E & Hh' & Eb).
  { apply eq_None_not_Some. intros Hk. by apply (ri_prefix _ _ _ _ _ _ _ Hr) in Hk. }
  exists s'. split; [done|]. split; cbn [y_server y_links]; [done| |by rewrite !dom_delete_L, Hd|].
  - unfold y_kv, y_fault. cbn [y_server]. rewrite Eb. unfold clearHandler.
    pose proof (inv_break junk csz dsz ssz Hsz _ _ _ _ _ Hr Hfit Hg) as Hb. unfold y_kv, y_fault in Hb.
    by destruct (ClearFaultInfo _ _ _) as [kv' f'].
  - intros l' p' prog' [Hne Hl']%lookup_delete_Some. destruct (Hpr _ _ _ Hl') as (g1 & Hg1 & ? & ?).
    exists g1. by rewrite lookup_delete_ne.
Qed.

Lemma reach_inv world evs y : reach world evs y → sys_fits y ∧ ∃ G, sys_inv y G.
Proof.
  induction 1 as [|evs y ev y' _ [Hf [G Hi]] Hstep Hf'].
  - split.
    + split; [|done]. intros T. change (y_kv (sys_new world)) with (∅ : Kv). rewrite lookup_empty.
      unfold len. cbn [default from_option id List.length]. lia.
    + exists ∅. split; [apply hosting_register|by apply inv_new|done|]. intros l p prog Hl. by destruct (lookup_empty_Some l (p, prog)).
  - split; [done|]. destruct Hstep as [y l p Hl Hp Hn|y l e n stale p op k s' o Hl E|y l x s' ret Hl E].
    + eexists. by apply sys_inv_connect.
    + destruct (sys_inv_call y G l p op k e n stale Hi Hf Hl) as (s1 & o1 & E1 & Hpost). rewrite E in E1. simplify_eq. auto.
    + destruct (sys_inv_break y G l x Hi Hf Hl) as (s1 & E1 & Hi'). rewrite E in E1. simplify_eq. eauto.
Qed.

(** ** The registry, in terms of the server and the clients *)
Definition finished (y : Sys) (l : Z) (p : Publisher) (h : SmemStoreHelper) : Prop :=
  y_links y !! l = Some (p, Ret (Some (h, SM_OK))).
Definition quiet (y : Sys) : Prop := ∀ l p prog, y_links y !! l = Some (p, prog) → ∃ x, prog = Ret x.
Definition live_count (y : Sys) (s : bool) : Z :=
  Z.of_nat (size (filter (λ x, p_sender x.2.1 = s) (y_links y))).
(** A slot of a helper's own records: of its device, of its slices. *)
Definition slots (h : SmemStoreHelper) (dev : bool) : list (Z * bytes) :=
  if dev then [storeDeviceInfo_ h] else storeSliceInfo_ h.
Definition side_tab (s dev : bool) : Tab := if dev then TDev s else TSlice s.
(** The server notes the slot as the link's. *)
Definition noted (f : SmemStoreFaultHandler) (l i : Z) (dev : bool) : Prop :=
  ∃ info, linkIdToRankInfoMap_ f !! l = Some info ∧
    if dev then deviceInfoId (dInfo info) = i ∧ deviceInfoKey (dInfo info) ≠ ""%string
    else i ∈ sliceInfoId (sInfo info).

Record registry_ok (y : Sys) : Prop := {
  ok_defined : undefined (y_fault y) = false;
  ok_answers : ∀ l p op k e n stale, y_links y !! l = Some (p, Act op k) →
    is_Some (store_call (serve_one e (mkCtx l n)) stale (y_server y) (sop_at session op)).2;
  ok_breaks : ∀ l, is_Some (y_links y !! l) → ∃ s', LinkBrokenHandler (y_server y) l = Some (s', SM_OK);
  ok_finished : ∀ l p x, y_links y !! l = Some (p, Ret x) → ∃ h, x = Some (h, SM_OK) ∧
    (storeRankIdInfo_ h).2 = p_cfg p ∧ (storeDeviceInfo_ h).2 = NORMAL :: p_info p ∧
    (storeSliceInfo_ h).*2 = (λ x, NORMAL :: x.2 ++ x.1) <$> p_slices p;
  ok_ranks : ∀ l1 l2 p1 p2 h1 h2, finished y l1 p1 h1 → finished y l2 p2 h2 →
    (storeRankIdInfo_ h1).1 = (storeRankIdInfo_ h2).1 → l1 = l2;
  ok_tables : ∀ s dev, ∃ rs,
    default [] (y_kv y !! tab_key (side_tab s dev)) = enc rs ∧ table (data_size csz dsz ssz (side_tab s dev)) rs ∧
    (∀ l p h i d, finished y l p h → p_sender p = s → (i, NORMAL :: d) ∈ slots h dev →
       rs !! Z.to_nat i = Some (NORMAL, d)) ∧
    (∀ i d, rs !! i = Some (NORMAL, d) → ∃ l p prog, y_links y !! l = Some (p, prog) ∧ p_sender p = s ∧
       noted (y_fault y) l (Z.of_nat i) dev ∧
       ∀ h, prog = Ret (Some (h, SM_OK)) → (Z.of_nat i, NORMAL :: d) ∈ slots h dev);
  ok_slots : ∀ l1 l2 p1 p2 h1 h2 dev x1 x2, finished y l1 p1 h1 → finished y l2 p2 h2 →
    p_sender p1 = p_sender p2 → x1 ∈ slots h1 dev → x2 ∈ slots h2 dev → x1.1 = x2.1 → l1 = l2;
  ok_count : ∀ s, quiet y →
    default (to_string 0) (y_kv y !! count_key s) = to_string (live_count y s);
}.

Lemma finished_ghost y G l p x :
  sys_inv y G → y_links y !! l = Some (p, Ret x) → ∃ g, G !! l = Some g ∧ published p g x.
Proof. intros Hi Hl. destruct (si_prog _ _ Hi _ _ _ Hl) as (g & Hg & _ & Hp). eauto. Qed.

Lemma owned_side g s dev :
  owned g (side_tab s dev) = if decide (p_sender (g_pub g) = s) then if dev then g_dev g else g_sl g else [].
Proof. unfold owned, my_tab. destruct dev, s, (p_sender (g_pub g)); by repeat case_decide. Qed.
Lemma published_slots p g h c dev :
  published p g (Some (h, c)) →
  slots h dev = (λ x, (x.1, NORMAL :: x.2)) <$> owned g (side_tab (p_sender p) dev).
Proof.
  intros (h' & r & i & [= <- _] & Hp & _ & _ & _ & Hd & _ & Hdi & Hsl & _). rewrite owned_side, Hp, decide_True by done.
  destruct dev; cbn; [|done]. by rewrite Hdi, Hd.
Qed.
Lemma published_slot p g h c dev i d :
  published p g (Some (h, c)) →
  (i, NORMAL :: d) ∈ slots h dev ↔ (i, d) ∈ owned g (side_tab (p_sender p) dev).
Proof.
  intros Hp. rewrite (published_slots p g h c dev Hp), list_elem_of_fmap. split.
  - intros ([i' d'] & [= -> ->] & Hin). done.
  - intros Hin. by exists (i, d).
Qed.

Lemma noted_owned kv f G l g s dev i d :
  reg_inv kv f G → G !! l = Some g → (i, d) ∈ owned g (side_tab s dev) →
  p_sender (g_pub g) = s ∧ noted f l i dev.
Proof.
  intros Hi Hg. rewrite owned_side. case_decide as Es; [|by intros ?%not_elem_of_nil]. intros Hin. split; [done|].
  destruct (ri_pubs _ _ _ _ _ _ _ Hi l g Hg) as [_ (Hw & Hone & _)].
  destruct (g_rank g) as [r|] eqn:Hr.
  2: { destruct (Hw eq_refl) as (Ed & El & _). destruct dev; rewrite ?Ed, ?El in Hin; by apply not_elem_of_nil in Hin. }
  eexists. rewrite (ri_links _ _ _ _ _ _ _ Hi l), Hg. cbn. unfold info_of. rewrite Hr. split; [done|].
  destruct dev; cbn.
  - unfold device_of. destruct (g_dev g) as [|[i' d'] [|]]; cbn in *; [by apply not_elem_of_nil in Hin| |lia].
    apply list_elem_of_singleton in Hin as [= -> ->]. split; [done|]. by destruct (p_sender (g_pub g)).
  - apply list_elem_of_fmap. by exists (i, d).
Qed.

Lemma table_ok y G s dev : sys_inv y G → ∃ rs,
  default [] (y_kv y !! tab_key (side_tab s dev)) = enc rs ∧ table (data_size csz dsz ssz (side_tab s dev)) rs ∧
  (∀ l p h i d, finished y l p h → p_sender p = s → (i, NORMAL :: d) ∈ slots h dev →
     rs !! Z.to_nat i = Some (NORMAL, d)) ∧
  (∀ i d, rs !! i = Some (NORMAL, d) → ∃ l p prog, y_links y !! l = Some (p, prog) ∧ p_sender p = s ∧
     noted (y_fault y) l (Z.of_nat i) dev ∧
     ∀ h, prog = Ret (Some (h, SM_OK)) → (Z.of_nat i, NORMAL :: d) ∈ slots h dev).
Proof.
  intros Hi. destruct (ri_tab _ _ _ _ _ _ _ (si_reg _ _ Hi) (side_tab s dev)) as [rs Ht]; [by destruct dev|].
  exists rs. split_and!; [apply Ht|apply Ht|..].
  - intros l p h i d Hl <- Hin. destruct (finished_ghost y G l p _ Hi Hl) as (g & Hg & Hp).
    apply (published_slot p g h SM_OK) in Hin; [|done]. apply (ti_owned _ _ _ _ _ _ _ _ Ht l).
    unfold owners. by rewrite Hg.
  - intros i d Hr. destruct (ti_normal _ _ _ _ _ _ _ _ Ht i _ Hr) as [l Hin]; [done|].
    unfold owners in Hin. destruct (G !! l) as [g|] eqn:Hg; cbn in Hin; [|by apply not_elem_of_nil in Hin].
    destruct (sys_inv_live y G l g Hi Hg) as [prog Hl].
    destruct (noted_owned _ _ _ _ _ _ _ _ _ (si_reg _ _ Hi) Hg Hin) as [Es Hn].
    exists l, (g_pub g), prog. split_and!; [done..|]. intros h ->.
    destruct (finished_ghost y G l _ _ Hi Hl) as (g' & Hg' & Hp). simplify_eq.
    by apply (published_slot (g_pub g) g _ SM_OK).
Qed.

Lemma slots_distinct y G l1 l2 p1 p2 h1 h2 dev x1 x2 :
  sys_inv y G → finished y l1 p1 h1 → finished y l2 p2 h2 →
  p_sender p1 = p_sender p2 → x1 ∈ slots h1 dev → x2 ∈ slots h2 dev → x1.1 = x2.1 → l1 = l2.
Proof.
  intros Hi H1 H2 Es Hx1 Hx2 E.
  destruct (finished_ghost y G l1 p1 _ Hi H1) as (g1 & Hg1 & Hp1). destruct (finished_ghost y G l2 p2 _ Hi H2) as (g2 & Hg2 & Hp2).
  destruct (ri_tab _ _ _ _ _ _ _ (si_reg _ _ Hi) (side_tab (p_sender p1) dev)) as [rs Ht]; [by destruct dev|].
  rewrite (published_slots _ _ _ _ dev Hp1) in Hx1. rewrite (published_slots _ _ _ _ dev Hp2) in Hx2.
  apply list_elem_of_fmap in Hx1 as ([i1 d1] & -> & Hx1). apply list_elem_of_fmap in Hx2 as ([i2 d2] & -> & Hx2). cbn in E. subst i2.
  apply (ld_u _ _ _ (ti_ledger _ _ _ _ _ _ _ _ Ht) l1 l2 i1).
  - apply (owner_claim _ _ _ _ d1). unfold owners. by rewrite Hg1.
  - apply (owner_claim _ _ _ _ d2). unfold owners. by rewrite Hg2, Es.
Qed.
Lemma ranks_distinct y G l1 l2 p1 p2 h1 h2 :
  sys_inv y G → finished y l1 p1 h1 → finished y l2 p2 h2 →
  (storeRankIdInfo_ h1).1 = (storeRankIdInfo_ h2).1 → l1 = l2.
Proof.
  intros Hi H1 H2 E.
  destruct (finished_ghost y G l1 p1 _ Hi H1) as (g1 & Hg1 & h1' & r1 & i1 & [= <-] & _ & _ & Hr1 & E1 & _).
  destruct (finished_ghost y G l2 p2 _ Hi H2) as (g2 & Hg2 & h2' & r2 & i2 & [= <-] & _ & _ & Hr2 & E2 & _).
  rewrite E1, E2 in E. cbn in E. subst r2. destruct (ri_rank _ _ _ _ _ _ _ (si_reg _ _ Hi)) as (n & _ & _ & Hl).
  apply (ld_u _ _ _ Hl l1 l2 r1); unfold claims, claim; rewrite ?Hg1, ?Hg2; cbn.
  - rewrite Hr1. apply elem_of_app. right. cbn. by left.
  - rewrite Hr2. apply elem_of_app. right. cbn. by left.
Qed.

(** With every live link finished, all of them are counted. *)
Lemma quiet_counted y G s : sys_inv y G → quiet y → counted G s = live_count y s.
Proof.
  intros Hi Hq. unfold counted, live_count. f_equal. rewrite <- !size_dom. f_equal. apply set_eq. intros l.
  rewrite !elem_of_dom. split; intros [x Hx]; apply map_lookup_filter_Some in Hx as [Hx Hc].
  - destruct (sys_inv_live y G l x Hi Hx) as [prog Hl]. exists (g_pub x, prog).
    apply map_lookup_filter_Some. split; [done|]. apply Hc.
  - destruct x as [p prog]. destruct (Hq l p prog Hx) as [c ->].
    destruct (finished_ghost y G l p c Hi Hx) as (g & Hg & h & r & i & _ & Hp & _ & _ & _ & _ & Hd & _).
    exists g. apply map_lookup_filter_Some. split; [done|]. split; [by rewrite <- Hc; cbn; rewrite Hp|done].
Qed.

(** C4: in every state the system reaches, with the tables within 65535 records:
    the server has done nothing undefined; every pending call is answered and
    every link can break cleanly; every publisher that has returned has
    succeeded, and remembers the data it was given; rank numbers and slots of
    live publishers are distinct; each finished publisher's records stand in the
    tables of its role at the slots it remembers; a record marked normal is noted
    as a live link's, and is that publisher's own when it has finished; and when
    all live publishers have finished, the count of devices is their number. *)
Theorem registry_tracks_live world evs y : reach world evs y → registry_ok y.
Proof.
  intros Hr. destruct (reach_inv world evs y Hr) as [Hf [G Hi]]. split.
  - apply (si_reg _ _ Hi).
  - intros l p op k e n stale Hl. destruct (sys_inv_call y G l p op k e n stale Hi Hf Hl) as (s' & o & -> & _). by eexists.
  - intros l [x Hl]. destruct (sys_inv_break y G l x Hi Hf Hl) as (s' & E & _). eauto.
  - intros l p x Hl. destruct (finished_ghost y G l p x Hi Hl) as (g & _ & h & r & i & -> & _ & _ & _ & Er & _ & _ & Ed & Es & Esl).
    exists h. rewrite Er, Ed, Es. split_and!; [done..|]. rewrite <- list_fmap_compose.
    trans (cons NORMAL <$> (g_sl g).*2); [by rewrite <- list_fmap_compose|]. by rewrite Esl, <- list_fmap_compose.
  - intros l1 l2 p1 p2 h1 h2. by apply ranks_distinct with G.
  - intros s dev. by apply table_ok with G.
  - intros l1 l2 p1 p2 h1 h2 dev x1 x2. by apply slots_distinct with G.
  - intros s Hq. rewrite <- (quiet_counted y G s Hi Hq).
    by destruct (ri_count _ _ _ _ _ _ _ (si_reg _ _ Hi) s) as [[-> ->]| ->].
Qed.
End System.

(** ** Running the system *)
Section Run.
Context (junk : Z) (csz : nat) (dsz ssz : bool → nat).

Definition pub_okb (p : Publisher) : bool :=
  (List.length (p_cfg p) =? csz)%nat && (List.length (p_info p) =? dsz (p_sender p))%nat &&
  forallb (λ x, (List.length x.2 =? 48)%nat && (List.length x.1 =? ssz (p_sender p))%nat) (p_slices p) &&
  plain_name (p_name p) && (slen (auto_key (p_name p)) <=? MAX_KEY_LEN_CLIENT).
Definition sys_do (y : Sys) (ev : Event) : option Sys :=
  match ev with
  | EConnect l p =>
      if bool_decide (y_links y !! l = None) && pub_okb p &&
         forallb (λ x, negb (bool_decide (p_name x.2.1 = p_name p))) (map_to_list (y_links y))
      then Some (mkSys (LinkConnectedHandler (y_server y) l (conn_rankId 0 (-1))).1
                   (<[l := (p, publish ssz p)]> (y_links y)))
      else None
  | ECall l e n stale =>
      match y_links y !! l with
      | Some (p, Act op k) =>
          match store_call (serve_one e (mkCtx l n)) stale (y_server y) (sop_at session op) with
          | (s', Some o) => Some (mkSys s' (<[l := (p, k o)]> (y_links y)))
          | (_, None) => None
          end
      | _ => None
      end
  | EBreak l =>
      _ ← y_links y !! l;
      r ← LinkBrokenHandler (y_server y) l;
      Some (mkSys r.1 (delete l (y_links y)))
  end.
Definition sys_fitsb (y : Sys) : bool :=
  forallb (λ T, len (default [] (y_kv y !! tab_key T)) <=? 65535 * Z.of_nat (unit_of csz dsz ssz T))
    [TRank; TDev true; TDev false; TSlice true; TSlice false] &&
  (Z.of_nat (size (y_links y)) <? 2 ^ 31).
Fixpoint sys_run (y : Sys) (evs : list Event) : option Sys :=
  match evs with
  | [] => Some y
  | ev :: evs => y' ← sys_do y ev; if sys_fitsb y' then sys_run y' evs else None
  end.

Lemma pub_okb_ok p : pub_okb p = true → pub_ok csz dsz ssz p.
Proof.
  unfold pub_okb, pub_ok. rewrite !andb_true_iff, !Nat.eqb_eq, Z.leb_le, forallb_forall.
  intros ((((? & ?) & Hs) & ?) & ?). split_and!; try done. apply Forall_forall. intros x Hx%list_elem_of_In%Hs.
  by apply andb_true_iff in Hx as [?%Nat.eqb_eq ?%Nat.eqb_eq].
Qed.
Lemma sys_do_step y ev y' : sys_do y ev = Some y' → sys_step csz dsz ssz y ev y'.
Proof.
  destruct ev as [l p|l e n stale|l]; cbn.
  - destruct (_ && _) eqn:E; [|done]. rewrite !andb_true_iff, bool_decide_eq_true, forallb_forall in E.
    destruct E as ((Hl & Hp%pub_okb_ok) & Hn). intros [= <-]. constructor; [done..|].
    intros l' p' k Hl' Ep. specialize (Hn (l', (p', k))). rewrite <- list_elem_of_In, elem_of_map_to_list in Hn.
    specialize (Hn Hl'). cbn in Hn. by rewrite Ep, bool_decide_true in Hn.
  - destruct (y_links y !! l) as [[p [|op k]]|] eqn:Hl; [done| |done].
    destruct (store_call _ _ _ _) as [s' [o|]] eqn:E; [|done]. intros [= <-]. by eapply step_call.
  - destruct (y_links y !! l) as [x|] eqn:Hl; [|done]. cbn.
    destruct (LinkBrokenHandler _ l) as [[s' ret]|] eqn:E; [|done]. intros [= <-]. by eapply step_break.
Qed.
Lemma sys_fitsb_ok y : sys_fitsb y = true → sys_fits csz dsz ssz y.
Proof.
  unfold sys_fitsb, sys_fits. rewrite andb_true_iff, forallb_forall, Z.ltb_lt. intros [Hf Hs]. split; [|done].
  intros T. apply Z.leb_le, Hf. destruct T as [|[]|[]]; cbn; tauto.
Qed.
Lemma sys_run_reach world evs y : sys_run (sys_new junk world) evs = Some y → reach junk csz dsz ssz world evs y.
Proof.
  assert (∀ evs0 evs y0, reach junk csz dsz ssz world evs0 y0 → sys_run y0 evs = Some y →
    reach junk csz dsz ssz world (evs0 ++ evs) y) as Hgen.
  { intros evs0 evs'. revert evs0. induction evs' as [|ev evs' IH]; intros evs0 y0 Hr; cbn.
    - intros [= <-]. by rewrite app_nil_r.
    - destruct (sys_do y0 ev) as [y1|] eqn:E; [|done]. cbn. destruct (sys_fitsb y1) eqn:Ef; [|done]. intros Hrun.
      rewrite cons_middle, (assoc_L (++)). apply (IH (evs0 ++ [ev]) y1); [|done].
      eapply reach_step; [done|by apply sys_do_step|by apply sys_fitsb_ok]. }
  apply (Hgen [] evs). constructor.
Qed.
End Run.

(** Sender a (link 1) and receiver b (link 2) publish in turns; link 1 breaks; sender
    c (link 3) takes over the slots of a. *)
Definition demo_pub (name : string) (sender : bool) (x : byte) : Publisher :=
  mkPub name sender [x] [x] [([x], repeat x 48)].
Definition demo_call (l : Z) : Event := ECall l (mkEnv (λ _, true) 100 0) 7 false.
Definition demo_events : list Event :=
  [EConnect 1 (demo_pub "a" true "010"%byte); EConnect 2 (demo_pub "b" false "020"%byte)] ++
  concat (repeat [demo_call 1; demo_call 2] 9) ++
  [EBreak 1; EConnect 3 (demo_pub "c" true "030"%byte)] ++ repeat (demo_call 3) 9.
Definition demo_run : option Sys := sys_run 1 (λ _, 1%nat) (λ _, 1%nat) (sys_new 0 0) demo_events.

Lemma registry_tracks_live_witness :
  ∃ y, demo_run = Some y ∧ registry_ok 1 (λ _, 1%nat) (λ _, 1%nat) y ∧
    y_kv y !! tab_key (TDev true) = Some [NORMAL; "030"%byte].
Proof.
  assert ((λ y, y_kv y !! tab_key (TDev true)) <$> demo_run = Some (Some [NORMAL; "030"%byte])) as E by (vm_compute; reflexivity).
  destruct demo_run as [y|] eqn:Er; [|discriminate E]. exists y. split; [reflexivity|].
  split; [|injection E as E; exact E].
  apply (registry_tracks_live 0 1 (λ _, 1%nat) (λ _, 1%nat)) with (world := 0) (evs := demo_events).
  - split; [lia|]. intros s. lia.
  - apply sys_run_reach. exact Er.
Defined.

(** ** A client that reconnects *)

Definition on_link (e : Env) (l n : Z) (stale : bool) (s : HServer) (op : StoreOp) : HServer * option Outcome :=
  store_call (serve_one e (mkCtx l n)) stale s (sop_at session op).

(** C40: a client whose link broke and that connects again while the server holds a
    rank number to give out (its own, given back when the link broke) is not
    registered again: the round fails after taking the number off the queue,
    the map of the store is as before, and the status is already set, so that the
    next round does nothing and reports success. *)
Theorem reconnect_not_restored junk (s : HServer) e l n stale h rankId id q :
  hosting junk s → plain_name (name_ h) = true → slen (auto_key (name_ h)) ≤ MAX_KEY_LEN_CLIENT →
  h_store (backend s) !! auto_key (name_ h) = None → faultRankIdQueue_ (h_fault (backend s)) = id :: q →
  run_calls (on_link e l n stale) s (WatchConnectTaskOneLoop h rankId false SM_OK) =
    (set_backend s (mkHosted (h_store (backend s)) (set_rankq (h_fault (backend s)) q)), Some (true, SM_ERROR)) ∧
  ∀ conn, WatchConnectTaskOneLoop h rankId true conn = Ret (true, SM_OK).
Proof.
  intros Hs Hp Hlen Hk Hq. split; [|done].
  assert (on_link e l n stale s (OGet (rank_key h) 0) = (set_backend s (mkHosted (h_store (backend s))
    (set_rankq (h_fault (backend s)) q)), Some (mkOut RESTORE (Some (id_bytes id)) None))) as E.
  { unfold on_link. apply store_call_exec with junk; [done|..]; cbn [sop_at]; change (GetCompleteKey session (rank_key h)) with (auto_key (name_ h)).
    - destruct (ask_key_bounds TRank _ Hlen) as (? & ? & ?). split_and!; try done. intros v Hv. by rewrite Hk in Hv.
    - unfold reg_exec. rewrite Hk. pose proof (ask_fault (h_fault (backend s)) TRank _ Hp) as Ea.
      cbn [queue ask_key set_queue] in Ea. rewrite Hq in Ea. unfold auto_key at 1. rewrite Ea. done. }
  unfold WatchConnectTaskOneLoop, ReInitialize, ReRegisterToServer. cbn [negb Z.eqb SM_OK].
  cbn -[on_link rank_key]. by rewrite E.
Qed.

Definition demo_helper : SmemStoreHelper := (helper_Initialize (helper_new "a") SMEM_TRANS_SENDER).2.
(** Link 1 of the run above breaks, and its client connects again as link 4. *)
Definition demo_reconnect : list Event :=
  [EConnect 1 (demo_pub "a" true "010"%byte)] ++ repeat (demo_call 1) 9 ++ [EBreak 1].
Definition demo_server : option HServer :=
  y_server <$> sys_run 1 (λ _, 1%nat) (λ _, 1%nat) (sys_new 0 0) demo_reconnect.
Lemma reconnect_not_restored_witness : ∃ s,
  demo_server = Some s ∧
  (run_calls (on_link (mkEnv (λ _, true) 100 0) 4 7 false) s
    (WatchConnectTaskOneLoop (demo_helper) 0 false SM_OK)).2 = Some (true, SM_ERROR) ∧
  h_store (backend s) !! tab_key (TDev true) = Some [ABNORMAL; "010"%byte].
Proof.
  pose (conds := λ s : HServer, (h_store (backend s) !! auto_key "a", faultRankIdQueue_ (h_fault (backend s)),
    h_store (backend s) !! tab_key (TDev true))).
  assert (conds <$> demo_server = Some (None, [0], Some [ABNORMAL; "010"%byte])) as E by (vm_compute; reflexivity).
  assert (∀ y, sys_run 1 (λ _, 1%nat) (λ _, 1%nat) (sys_new 0 0) demo_reconnect = Some y → hosting 0 (y_server y)) as Hh.
  { intros y Hy. assert (sizes_ok 1 (λ _, 1%nat) (λ _, 1%nat)) as Hsz by (split; [lia|intros s; lia]).
    destruct (reach_inv 0 _ _ _ Hsz 0 demo_reconnect y) as [_ [G Hi]]; [by apply sys_run_reach|]. exact (si_host _ _ _ _ _ _ Hi). }
  unfold demo_server in *. destruct (sys_run _ _ _ _ _) as [y|]; [|discriminate E]. exists (y_server y).
  cbn in E. injection E as E1 E2 E3. split; [reflexivity|]. split; [|exact E3].
  destruct (reconnect_not_restored 0 (y_server y) (mkEnv (λ _, true) 100 0) 4 7 false
    (demo_helper) 0 0 []) as [-> _];
    [by apply Hh|vm_compute; reflexivity|vm_compute; discriminate|exact E1|exact E2|reflexivity].
Defined.

(** After a restart of the server, a new client that connects before an old one
    has restored its entries is given the rank number and the slot of the old one,
    which then writes over the new one's record: both end with success. *)
Definition restart_race : option (Z * Z * Z * option bytes) :=
  let old := set_deviceInfo (set_rankInfo (demo_helper) (0, ["010"%byte])) (0, [NORMAL; "010"%byte]) in
  y ← sys_run 1 (λ _, 1%nat) (λ _, 1%nat) (sys_new 0 0)
        ([EConnect 1 (demo_pub "c" true "030"%byte)] ++ repeat (demo_call 1) 9);
  x ← y_links y !! 1;
  h ← (if x.2 is Ret (Some (h, _)) then Some h else None);
  let '(s, r) := run_calls (on_link (mkEnv (λ _, true) 100 0) 2 7 false) (y_server y) (WatchConnectTaskOneLoop old 0 false SM_OK) in
  r ← r;
  Some ((storeRankIdInfo_ h).1, (storeDeviceInfo_ h).1, r.2, h_store (backend s) !! tab_key (TDev true)).
Theorem restart_reuses_slots : restart_race = Some (0, 0, SM_OK, Some [NORMAL; "010"%byte]).
Proof. vm_compute. reflexivity. Qed.
